(* ===== verification/_CoqProject ===== *)
-Q . S2P
Prelude.v
Exceptions.v
IlOps.v
Arch.v
Packing.v
Address.v
IlLoc.v
MemArea.v
IlCmd.v
IlExample.v
IlWrap.v
IlEffects.v
IlIndep.v
Jump.v
Intr.v
PicLegacy.v
Pit.v
Metadata.v
PhysMap.v
Paging.v
PageWalk.v
Resolve.v
Mem32.v
MemSound.v
MemBoot.v
Ports.v
Descriptors.v
Scc.v
ValTree.v
ValBuild.v
ValSpec.v
ValMath.v
ValEquality.v
ValBinop.v
ValExtract.v
ValSound.v
ValCombine.v
ValProps.v
ValMono.v
CpuBytes.v
Mir.v
MirState.v
MirEmit.v
MirSpec.v
MirStateSound.v
MirCommit.v
MirVals.v
MirRun.v
MirAddr.v
MirMerge.v
MirSim.v
Interp.v
MirSeq.v
MirStrict.v
MirCorrect.v
MirExample.v
MirProps.v
BbOpt.v
BbTree.v
BbRemap.v
BbRun.v
BbSound.v
BbProps.v
Dom.v
Lir.v
LirOpt.v
LirFlow.v
LirLower.v
LirValues.v
LirCode.v
LirGraph.v
LirPlace.v
LirSound.v
LirProps.v
ExecCtx.v
ExecSound.v
Bitmap.v
BitmapSound.v
BitmapSlices.v
BitmapProps.v
