(* ===== verification/Prelude.v ===== *)
(** * Sem86: a verification library for the emulator core

    Sem86 emulates an Intel 386 PC.  Its instructions are given by data: an
    encoding maps the bits of an instruction to parts (registers, immediates,
    memory operands), and its semantics is a program in a small intermediate
    language.  An instruction is either interpreted ([sem86-core/src/il]) or
    compiled ([sem86-core/src/codegen]); both run against the guest memory
    ([sem86-arch/src/mem]) and the hardware ([sem86-core/src/hw]).  This library
    models that core and proves what the parts promise to each other.

    ** The program and the files that model it

    Paths are relative to [src/].

    - The intermediate language and its interpreter
      ([sem86-core/src/il/mod.rs], [il/part_values.rs], [il/jump.rs],
      [arch/intel386.rs], [sem86-arch/src/exceptions.rs]).
      [Exceptions]: exceptions, handlers and the word that compiled code
      returns.  [IlOps]: the operators on 128-bit values.  [Arch]: registers
      and CPU state.  [Packing]: packed part values.  [IlLoc]: byte ranges,
      locations and operands.  [MemArea]: the bytes of a memory operand.
      [IlCmd]: commands, their execution and the analyses on them.  [Jump]: the
      next instruction pointer.  [IlWrap], [IlEffects] and [IlIndep] hold the
      theorems about commands, [IlExample] a concrete world.
    - The guest memory ([sem86-arch/src/mem]): [Metadata] (traps per page and
      the bitmap of clean frames), [PhysMap] (devices and other backings of
      physical addresses), [Paging] (the state of [Mem32], page-table entries,
      page walks, the resolution of an access) and [Mem32] (the fast path,
      trapped accesses, mappings, control registers, snapshots).  [PageWalk],
      [Resolve], [MemSound] and [MemBoot] hold the theorems.
    - The value graph of the code generator
      ([sem86-core/src/codegen/mir/val.rs]): [ValTree] (nodes, sharing, what a
      graph denotes), [ValBuild] and [ValCombine] (the operations that
      simplify while they build).  [ValSpec] is the contract of a computation
      on a builder; [ValMath], [ValEquality], [ValBinop], [ValExtract],
      [ValSound] and [ValProps] the proofs; [ValMono] says how later nodes
      leave earlier ones alone.
    - Compiled code ([codegen/mir]): [CpuBytes] (the CPU state in memory),
      [Mir] (basic blocks of [bb.rs] and what running them does), [MirState]
      (the uncommitted registers of [state.rs]), [Address] (address
      computations) and [MirEmit] (the emission of commands, of [mod.rs]).
      [MirSpec] has the rules for reasoning about emission; [MirStateSound]
      shows that uncommitted registers are read, written and merged rightly,
      [MirCommit] that an exit stores them.  [MirVals], [MirRun], [MirAddr],
      [MirMerge] and [MirSim] relate the machine of the blocks with the state
      of the emitter, for values, runs, addresses, joins and commands;
      [Interp] is the interpretation of one instruction
      ([emulator/mod.rs]) and of a sequence; [MirSeq], [MirStrict] and
      [MirCorrect] compile a sequence, [MirExample] is a concrete one and
      [MirProps] states the results.  The class [StableCtx] says what compiled
      code needs of a context: it may see registers that are stored later.
      [MirEmit] emits as the source does or, with the flag [strict], stops
      where compiled code is known to differ from the interpreter; what strict
      emission returns, the source returns.
    - Passes over basic blocks ([BbGraph::optimize], [ValBuilder::remap],
      [codegen/components.rs]): [Scc] (strongly connected components), [BbOpt]
      (path conditions and what they decide), [BbTree] (when the conditions
      hold), [BbRemap] (rebuilding values), [BbRun] (steps of related blocks),
      [BbSound] and [BbProps] (the passes keep what a graph does).
    - Lower-level code ([codegen/lir], [codegen/backends/interpreter.rs]):
      [Dom] (the dominator tree), [Lir] (code for a stack machine, its
      interpreter, optimiser and analyses), [LirOpt] and [LirFlow] (these are
      right), [LirLower] (the lowering of basic blocks), [LirValues] (code of
      values), [LirCode] (code of blocks), [LirGraph] (code of graphs),
      [LirPlace] (where values are computed), [LirSound] (with the optimiser,
      and checks for the hypotheses) and [LirProps] (the results).
    - The execution context ([sem86-core/src/emulator/exec.rs], [system.rs]):
      [Descriptors] (packed formats), [ExecCtx] (descriptor loads, stack
      accesses, the task state segment, port permissions), [ExecSound] (the
      theorems).
    - Devices ([sem86-core/src/hw]): [Intr] (the interrupt request line),
      [PicLegacy] (the two 8259 controllers), [Pit] (the interval timer) and
      [Ports] (widths of port accesses).
    - Bitmaps ([liblisa/src/utils/bitmap]): [Bitmap] (growing and fixed
      bitmaps, views and combinators), [BitmapSound] (a bitmap as the list of
      its bits), [BitmapSlices] (views, operations on two bitmaps, changes of a
      range) and [BitmapProps] (the results).

    Every file requires [Prelude] and the files it builds on; they interact by
    interfaces: the class [SoftFloat] (floating-point arithmetic), [Memory] and
    [PlainMemory] (byte addresses; [PlainMemory] adds the laws of ordinary
    memory), [ExecCtx] (what commands call), [PortSpace] (what answers at a
    port), [RangeMap] (the crate of that name, with its laws), [Mmio]
    (devices behind the memory), [BitmapSlice] (read-only bitmaps, whose laws
    [SliceLaws] every view satisfies).  [ExecCtx.exec_ctx] implements the class
    [ExecCtx] over a memory and a port space.

    ** Conventions

    A computation of the source that may panic is an [option], [None] being the
    panic (overflow checks included); [Result] is [result]; a method that
    changes its receiver is a function between states or a [comp] over the
    state.  Integers of [w] bits are [Z] with the wrap-around written out; [inw
    w] is the range.  Structures over atomics and mutexes are plain records, as
    every operation on them runs to its end before the next; races between
    host threads are outside of the model.  Hash maps and trees are [gmap]s or
    association lists; raw pointers into mapped memory are tables from pages to
    backing objects.  Loops and recursion that are not structural take fuel:
    [binop] needs at most twice the weight of the operator, [extract] four
    times the weight of its operand, and the theorems give that bound; the
    components of a graph need [scc_fuel], the iterator over the ones of a
    bitmap 65 steps per word, the dominator tree twice the number
    of blocks, and the theorems about them say that this is enough; a run of
    blocks needs as much fuel as it takes blocks, and the theorems about
    compiled sequences say that some amount is enough.  A page walk, an area
    and a list of commands are structural.

    ** The theorems

    - Interpreter: memory accesses are inserted so that operands are fetched
      once and stored exactly on success or before a handler; what the analyses
      report about reads, writes, failures and termination is right; operands
      read back what was written; areas are little-endian bytes; operators
      stay in 128 bits; the packed result and packed parts round-trip; the
      static successors of an instruction include the real one.
    - Value graph: every simplification keeps the value in every environment,
      ends, and never panics.
    - Compiled code: the stores of an exit leave the CPU state that the
      values of the code generator represent; a compiled sequence does what
      the interpreter does with its instructions, and an exception in the first
      one rolls back.  The interpreter checks the segments of all operands of
      an instruction first; [run_checked] assumes these checks pass.  Compiled
      code for real mode programs and for control transfers that change the
      mode is outside of these theorems, and so is the padding after an 80-bit
      register in memory.
    - Passes: path conditions hold on every edge of a tree, and then the passes
      keep what the graph does; where paths meet they are wrong, with a
      counterexample.  Components are reported once, successors first.
    - Lower-level code: the dominator tree answers which blocks are on every
      path; a value that is kept in a definition is computed above its uses,
      so lowered code exits as the graph does; the optimiser keeps what code
      does; the bound on operations and the definitions that must be set
      before are right.  Together with compilation: a sequence that is
      compiled, lowered and optimised does what the interpreter does with it.
      Hypotheses about a graph (its shape, that no block overwrites a variable
      of a value that is kept, the height of the stack) are properties that
      [LirSound] has checks for.
    - Memory: the metadata map refines a plain map; walks compute the addresses
      of the architecture; the cached translations of a coherent memory agree
      with the page tables, reads and writes keep it coherent, and so do the
      load of CR3, new memories and clean frames; snapshots restore the RAM.
    - Execution context: which descriptors load, that stacks give back what was
      pushed, and which ports a program may access.
    - Devices: the interrupt controllers never panic and keep their request
      line exact; priorities, end of interrupt and initialisation follow the
      programming model; counters of the timer that advance by many ticks at
      once are in the state that single ticks lead to.
    - Bitmaps: any sequence of operations answers as on the list of bits; a
      change through a view reaches exactly the bits of its range; conversions
      keep the bits.  The operations that fail on some bitmaps are shown to.

    Lemmas that state a defect of the code (a theorem fails there and the code
    is shown to misbehave) are listed as findings of the development.

    ** Not modelled

    - The C library SoftFloat, the crates rangemap, bilge (its accessors are
      written out as bit fields) and all other dependencies: they are
      interfaces with the laws the code relies on.
    - The back ends (LLVM, Cranelift, the single-pass assembler): they produce
      machine code whose semantics is not in the repository.  The last pass of
      [BbGraph::optimize], which stores registers before a branch;
      [build_from_branching], which compiles a graph of instructions; the
      e-graph experiment.
    - The decoder and the tables of encodings, the instruction cache, the
      emulator's main loop, tracing and profiling; clocks and threads.
    - The other devices (clocks, DMA, UART, floppy and disk controllers,
      graphics, sound, network, PCI, ACPI, APICs), user interfaces, the
      generator of semantics and the tests.
    - [il/absint.rs], which nothing calls; the display code.  *)
From Stdlib Require Export ZArith Lia Bool Btauto.
From stdpp Require Export base numbers list option decidable.

#[global] Open Scope Z_scope.

(** ** Panics

    A Rust computation that may panic is an [option]: [None] is a panic
    (an [unwrap] of [None], a failed [assert!], an index out of range, an
    overflow that the overflow checks catch, [unreachable!], [todo!]). *)

Definition assert (b : bool) : option unit := if b then Some tt else None.

(** Rust's [Result]. *)
Inductive result (T E : Type) : Type :=
| Ok (t : T)
| Err (e : E).
Arguments Ok {T E} t.
Arguments Err {T E} e.

(** A computation over a state [S] that may panic, and that may fail with an
    error [E] keeping the state changes made so far (Rust's [?]). *)
Definition comp (S E T : Type) : Type := S -> option (result T E * S).

Definition cret {S E T} (x : T) : comp S E T := fun s => Some (Ok x, s).
Definition cerr {S E T} (e : E) : comp S E T := fun s => Some (Err e, s).
Definition cpanic {S E T} : comp S E T := fun _ => None.
Definition clift {S E T} (o : option T) : comp S E T :=
  fun s => match o with Some x => Some (Ok x, s) | None => None end.
Definition cbind {S E T U} (m : comp S E T) (f : T -> comp S E U) : comp S E U :=
  fun s => match m s with
           | Some (Ok x, s) => f x s
           | Some (Err e, s) => Some (Err e, s)
           | None => None
           end.
Definition cget {S E} : comp S E S := fun s => Some (Ok s, s).
Definition cput {S E} (s : S) : comp S E unit := fun _ => Some (Ok tt, s).

Declare Scope comp_scope.
Delimit Scope comp_scope with comp.
Notation "x <-! m ;; k" := (cbind m (fun x => k))
  (at level 100, m at next level, right associativity) : comp_scope.
Notation "m >>! k" := (cbind m (fun _ => k))
  (at level 100, right associativity) : comp_scope.

(** The computations of a list, one after the other. *)
Fixpoint cmap {S E A B} (f : A -> comp S E B) (l : list A) : comp S E (list B) :=
  match l with
  | [] => cret []
  | x :: l => cbind (f x) (fun y => cbind (cmap f l) (fun ys => cret (y :: ys)))
  end.
Fixpoint citer {S E A} (f : A -> comp S E unit) (l : list A) : comp S E unit :=
  match l with
  | [] => cret tt
  | x :: l => cbind (f x) (fun _ => citer f l)
  end.

(** Fixed-size arrays: a read or a write out of range panics. *)
Definition arr_get {A} (l : list A) (i : Z) : option A :=
  if i <? 0 then None else l !! Z.to_nat i.

Definition arr_set {A} (l : list A) (i : Z) (x : A) : option (list A) :=
  if (i <? 0) || (Z.of_nat (length l) <=? i) then None
  else Some (<[Z.to_nat i := x]> l).

(** ** Machine integers

    A [w]-bit unsigned integer is a [Z] in [0, 2^w); its casts and its
    operations are written out. *)

Definition wrap (w x : Z) : Z := x mod 2 ^ w.
Abbreviation u8 := (wrap 8) (only parsing).
Abbreviation u16 := (wrap 16) (only parsing).
Abbreviation u32 := (wrap 32) (only parsing).
Abbreviation u64 := (wrap 64) (only parsing).
Abbreviation u128 := (wrap 128) (only parsing).

Definition inw (w x : Z) : Prop := 0 <= x < 2 ^ w.

(** [as iN] of a [w]-bit pattern. *)
Definition signed (w x : Z) : Z :=
  let y := wrap w x in if y <? 2 ^ (w - 1) then y else y - 2 ^ w.

(** [!x] on a [w]-bit unsigned integer. *)
Definition unot (w x : Z) : Z := Z.lxor x (Z.ones w).

(** [wrapping_shl] and [wrapping_shr] of an unsigned [w]-bit integer: the
    amount is taken modulo the width. *)
Definition wshl (w x n : Z) : Z := wrap w (Z.shiftl x (n mod w)).
Definition wshr (w x n : Z) : Z := Z.shiftr x (n mod w).

(** [liblisa::utils::bitmask_u64] and [bitmask_u128]: a panic when [n]
    exceeds the width. *)
Definition bitmask_u64 (n : Z) : option Z :=
  if (n <? 0) || (64 <? n) then None else Some (Z.ones n).
Definition bitmask_u128 (n : Z) : option Z :=
  if (n <? 0) || (128 <? n) then None else Some (Z.ones n).

(** A bit of an integer as [(x >> i) & 1 != 0]. *)
Definition bit (x i : Z) : bool := Z.testbit x i.
Definition b2z (b : bool) : Z := if b then 1 else 0.

(** Number of set bits, trailing zeros and leading zeros of a [w]-bit
    pattern. *)
Fixpoint count_bits (n : nat) (x : Z) : Z :=
  match n with
  | O => 0
  | S n => b2z (Z.testbit x (Z.of_nat n)) + count_bits n x
  end.
Definition count_ones (w x : Z) : Z := count_bits (Z.to_nat w) x.

Fixpoint ctz_from (n : nat) (i x : Z) : Z :=
  match n with
  | O => i
  | S n => if Z.testbit x i then i else ctz_from n (i + 1) x
  end.
Definition trailing_zeros (w x : Z) : Z := ctz_from (Z.to_nat w) 0 x.
Definition leading_zeros (w x : Z) : Z :=
  if x =? 0 then w else w - 1 - Z.log2 x.

(** Little-endian bytes. *)
Fixpoint to_le_bytes (n : nat) (x : Z) : list Z :=
  match n with
  | O => []
  | S n => wrap 8 x :: to_le_bytes n (Z.shiftr x 8)
  end.
Fixpoint from_le_bytes (l : list Z) : Z :=
  match l with
  | [] => 0
  | b :: l => Z.lor b (Z.shiftl (from_le_bytes l) 8)
  end.

(** [swap_bytes] of an [n]-byte integer. *)
Definition swap_bytes (n : nat) (x : Z) : Z :=
  from_le_bytes (reverse (to_le_bytes n x)).

(** Bit fields of the [bilge] structures: [field off len x] reads the field
    of [len] bits at bit [off]; [set_field] replaces it. *)
Definition field (off len x : Z) : Z := Z.land (Z.shiftr x off) (Z.ones len).
Definition set_field (off len v x : Z) : Z :=
  Z.lor (Z.ldiff x (Z.shiftl (Z.ones len) off)) (Z.shiftl (Z.land v (Z.ones len)) off).
Definition flag (off x : Z) : bool := Z.testbit x off.
Definition set_flag (off : Z) (v : bool) (x : Z) : Z :=
  if v then Z.setbit x off else Z.clearbit x off.

#[global] Arguments wrap : simpl never.
#[global] Arguments field : simpl never.
#[global] Arguments set_field : simpl never.
#[global] Arguments Z.pow : simpl never.
#[global] Arguments Z.ltb : simpl nomatch.
#[global] Arguments Z.leb : simpl nomatch.
#[global] Arguments Z.eqb : simpl nomatch.
#[global] Arguments Z.mul : simpl nomatch.
#[global] Arguments Z.add : simpl nomatch.
#[global] Arguments Z.sub : simpl nomatch.

(** ** Bit-level reasoning

    [zbits] holds the specifications of the bit operations; [bitblast] proves
    an equality of integers bit by bit. *)

Lemma testbit_mod x n i :
  0 <= n -> Z.testbit (x mod 2 ^ n) i = (i <? n) && Z.testbit x i.
Proof.
  intros Hn. destruct (Z.leb_spec 0 i).
  - destruct (Z.ltb_spec i n).
    + by rewrite Z.mod_pow2_bits_low by lia.
    + by rewrite Z.mod_pow2_bits_high by lia.
  - by rewrite !Z.testbit_neg_r, andb_false_r by lia.
Qed.

Lemma testbit_wrap w x i :
  0 <= w -> Z.testbit (wrap w x) i = (i <? w) && Z.testbit x i.
Proof. apply testbit_mod. Qed.

Lemma testbit_ones n i :
  0 <= n -> Z.testbit (Z.ones n) i = (0 <=? i) && (i <? n).
Proof.
  intros Hn. destruct (Z.leb_spec 0 i).
  - destruct (Z.ltb_spec i n).
    + by rewrite Z.ones_spec_low by lia.
    + by rewrite Z.ones_spec_high by lia.
  - by rewrite Z.testbit_neg_r by lia.
Qed.

Lemma testbit_above w x i : inw w x -> 0 <= w <= i -> Z.testbit x i = false.
Proof.
  intros Hx Hi. rewrite <- (Z.mod_small x (2 ^ w)) by exact Hx.
  apply Z.mod_pow2_bits_high. lia.
Qed.

Lemma testbit_shiftl x n i :
  0 <= n -> Z.testbit (Z.shiftl x n) i = (n <=? i) && Z.testbit x (i - n).
Proof.
  intros Hn. destruct (Z.leb_spec 0 i).
  - rewrite Z.shiftl_spec by lia.
    destruct (Z.leb_spec n i); [done|]. rewrite Z.testbit_neg_r by lia. done.
  - rewrite !Z.testbit_neg_r by lia. by rewrite andb_false_r.
Qed.

Lemma testbit_shiftr x n i :
  Z.testbit (Z.shiftr x n) i = (0 <=? i) && Z.testbit x (i + n).
Proof.
  destruct (Z.leb_spec 0 i).
  - by rewrite Z.shiftr_spec by lia.
  - by rewrite Z.testbit_neg_r by lia.
Qed.

Lemma testbit_lnot x i :
  Z.testbit (Z.lnot x) i = (0 <=? i) && negb (Z.testbit x i).
Proof.
  destruct (Z.leb_spec 0 i).
  - by rewrite Z.lnot_spec by lia.
  - by rewrite Z.testbit_neg_r by lia.
Qed.

Lemma testbit_setbit x n i :
  0 <= n -> Z.testbit (Z.setbit x n) i = (n =? i) || Z.testbit x i.
Proof. intros. by apply Z.setbit_eqb. Qed.

Lemma testbit_pow2 n i : 0 <= n -> Z.testbit (2 ^ n) i = (n =? i).
Proof. intros. by apply Z.pow2_bits_eqb. Qed.

Lemma testbit_unot w x i :
  0 <= w -> Z.testbit (unot w x) i = xorb (Z.testbit x i) ((0 <=? i) && (i <? w)).
Proof. intros. unfold unot. rewrite Z.lxor_spec, testbit_ones by lia. done. Qed.

Lemma testbit_b2z b i : Z.testbit (b2z b) i = (i =? 0) && b.
Proof.
  destruct b; simpl; [|by rewrite Z.bits_0, andb_false_r].
  destruct (Z.eqb_spec i 0) as [->|]; [done|].
  destruct (Z.leb_spec 0 i); [|by rewrite Z.testbit_neg_r by lia].
  apply (testbit_above 1); [done|lia].
Qed.

Create Rewrite HintDb zbits.
#[export] Hint Rewrite Z.land_spec Z.lor_spec Z.lxor_spec Z.ldiff_spec
  testbit_shiftr testbit_lnot Z.bits_0 testbit_b2z Z.clearbit_eqb : zbits.
#[export] Hint Rewrite testbit_shiftl testbit_mod testbit_wrap testbit_ones
  testbit_setbit testbit_unot testbit_pow2 Z.bits_m1
  using lia : zbits.

(** Splits on every integer comparison of the goal. *)
Ltac split_compares :=
  repeat match goal with
  | |- context [?a <? ?b] => destruct (Z.ltb_spec a b); simpl; try lia
  | |- context [?a <=? ?b] => destruct (Z.leb_spec a b); simpl; try lia
  | |- context [?a =? ?b] => destruct (Z.eqb_spec a b); simpl; try lia
  end.

(** Decides the integer comparisons of the goal that arithmetic settles. *)
Ltac zbool :=
  repeat match goal with
  | |- context [?a <? ?b] =>
      first [rewrite (proj2 (Z.ltb_lt a b)) by lia | rewrite (proj2 (Z.ltb_ge a b)) by lia]
  | |- context [?a <=? ?b] =>
      first [rewrite (proj2 (Z.leb_le a b)) by lia | rewrite (proj2 (Z.leb_gt a b)) by lia]
  | |- context [?a =? ?b] =>
      first [rewrite (proj2 (Z.eqb_eq a b)) by lia | rewrite (proj2 (Z.eqb_neq a b)) by lia]
  end.

(** Bits outside of a known width are false; equal indices are made
    syntactically equal. *)
Ltac bits_norm :=
  repeat match goal with
  | H : inw ?w ?x |- context [Z.testbit ?x ?i] =>
      rewrite (testbit_above w x i H) by lia
  | |- context [Z.testbit ?x ?i] => rewrite (Z.testbit_neg_r x i) by lia
  | |- context [Z.testbit ?x ?i] =>
      match goal with
      | |- context [Z.testbit x ?j] =>
          assert_fails (constr_eq i j);
          replace (Z.testbit x j) with (Z.testbit x i) by (f_equal; lia)
      end
  end.

Ltac bits_finish := subst; simpl; bits_norm; first [done | lia | btauto].

(** Equality of integers, bit by bit. *)
Ltac bitblast :=
  apply Z.bits_inj'; intros ?i ?Hi;
  unfold field, set_field, wshl, wshr, bit in *;
  autorewrite with zbits;
  first [solve [bits_finish] | split_compares; bits_finish].

(** ** Widths *)

Lemma wrap_inw w x : 0 <= w -> inw w (wrap w x).
Proof. intros. unfold inw, wrap. apply Z.mod_pos_bound. lia. Qed.

Lemma wrap_small w x : inw w x -> wrap w x = x.
Proof. intros. by apply Z.mod_small. Qed.

Lemma wrap_wrap w x : 0 <= w -> wrap w (wrap w x) = wrap w x.
Proof. intros. apply wrap_small, wrap_inw. done. Qed.

Lemma wrap_wrap_le w v x : 0 <= v <= w -> wrap v (wrap w x) = wrap v x.
Proof. intros. bitblast. Qed.

Lemma wrap_add_l w x y : wrap w (wrap w x + y) = wrap w (x + y).
Proof. unfold wrap. by rewrite Zplus_mod_idemp_l. Qed.
Lemma wrap_add_r w x y : wrap w (x + wrap w y) = wrap w (x + y).
Proof. unfold wrap. by rewrite Zplus_mod_idemp_r. Qed.
Lemma wrap_sub_l w x y : wrap w (wrap w x - y) = wrap w (x - y).
Proof. unfold wrap. by rewrite Zminus_mod_idemp_l. Qed.
Lemma wrap_sub_r w x y : wrap w (x - wrap w y) = wrap w (x - y).
Proof. unfold wrap. by rewrite Zminus_mod_idemp_r. Qed.

Lemma wrap_land w x : 0 <= w -> wrap w x = Z.land x (Z.ones w).
Proof. intros. unfold wrap. by rewrite Z.land_ones. Qed.

Lemma inw_testbit w x :
  0 <= w -> 0 <= x -> (forall i, w <= i -> Z.testbit x i = false) -> inw w x.
Proof.
  intros Hw Hx H. unfold inw.
  assert (x = wrap w x) as ->.
  { apply Z.bits_inj'; intros i Hi. rewrite testbit_wrap by lia.
    destruct (Z.ltb_spec i w); [done|]. simpl. by apply H. }
  by apply wrap_inw.
Qed.

Lemma inw_lor w x y : 0 <= w -> inw w x -> inw w y -> inw w (Z.lor x y).
Proof.
  intros Hw Hx Hy. apply inw_testbit; [done| |].
  - apply Z.lor_nonneg. unfold inw in *. lia.
  - intros i Hi. rewrite Z.lor_spec.
    by rewrite (testbit_above w x), (testbit_above w y) by (done || lia).
Qed.

Lemma inw_land w x y : 0 <= w -> inw w x -> 0 <= y -> inw w (Z.land x y).
Proof.
  intros Hw Hx Hy. apply inw_testbit; [done| |].
  - apply Z.land_nonneg. lia.
  - intros i Hi. rewrite Z.land_spec.
    by rewrite (testbit_above w x) by (done || lia).
Qed.

Lemma inw_lxor w x y : 0 <= w -> inw w x -> inw w y -> inw w (Z.lxor x y).
Proof.
  intros Hw Hx Hy. apply inw_testbit; [done| |].
  - apply Z.lxor_nonneg. unfold inw in *. lia.
  - intros i Hi. rewrite Z.lxor_spec.
    by rewrite (testbit_above w x), (testbit_above w y) by (done || lia).
Qed.

Lemma inw_shiftr w x n : 0 <= w -> 0 <= n -> inw w x -> inw w (Z.shiftr x n).
Proof.
  intros Hw Hn Hx. apply inw_testbit; [done| |].
  - apply Z.shiftr_nonneg. unfold inw in *. lia.
  - intros i Hi. rewrite Z.shiftr_spec by lia. apply (testbit_above w); [done|lia].
Qed.

Lemma inw_mono v w x : v <= w -> inw v x -> inw w x.
Proof.
  intros Hvw [H1 H2]. split; [done|].
  eapply Z.lt_le_trans; [done|]. apply Z.pow_le_mono_r; lia.
Qed.

Lemma inw_ones w n : 0 <= n <= w -> inw w (Z.ones n).
Proof.
  intros. apply (inw_mono n); [lia|]. unfold inw. rewrite Z.ones_equiv.
  pose proof (Z.pow_pos_nonneg 2 n). lia.
Qed.

Lemma ones_nonneg k : 0 <= k -> 0 <= Z.ones k.
Proof. intros Hk. rewrite Z.ones_equiv. pose proof (Z.pow_pos_nonneg 2 k). lia. Qed.

Lemma unot_inw w x : 0 <= w -> inw w x -> inw w (unot w x).
Proof.
  intros Hw Hx. pose proof (inw_ones w w ltac:(lia)) as Ho. unfold unot. apply inw_testbit; [done| |].
  - apply Z.lxor_nonneg. unfold inw in *. lia.
  - intros i Hi. by rewrite Z.lxor_spec, (testbit_above w x), (testbit_above w (Z.ones w)) by done.
Qed.

Lemma inw_wshl w x n : 0 <= w -> inw w (wshl w x n).
Proof. intros. by apply wrap_inw. Qed.

Lemma inw_wshr w x n : 0 < w -> inw w x -> inw w (wshr w x n).
Proof.
  intros. apply inw_shiftr; [lia| |done]. apply Z.mod_pos_bound. lia.
Qed.

Lemma inw_b2z w b : 0 < w -> inw w (b2z b).
Proof.
  intros. unfold inw. assert (2 ^ 1 <= 2 ^ w) by (apply Z.pow_le_mono_r; lia).
  destruct b; simpl; lia.
Qed.

Create HintDb widths.
#[export] Hint Resolve wrap_inw inw_lor inw_lxor inw_wshl inw_wshr inw_b2z
  inw_ones : widths.
#[export] Hint Extern 3 (_ <= _) => lia : widths.
#[export] Hint Extern 3 (_ < _) => lia : widths.

(** ** Signed values *)

Lemma sign_bit w y :
  0 < w -> inw w y -> Z.testbit y (w - 1) = (2 ^ (w - 1) <=? y).
Proof.
  intros Hw [H0 H1]. assert (2 ^ w = 2 * 2 ^ (w - 1)) as E.
  { rewrite <- Z.pow_succ_r by lia. f_equal. lia. }
  destruct (Z.leb_spec (2 ^ (w - 1)) y).
  - apply (Z.testbit_unique y (w - 1) true (y - 2 ^ (w - 1)) 0); [lia|]. simpl. lia.
  - apply (testbit_above (w - 1)); [done|lia].
Qed.

Lemma testbit_signed w x i :
  0 < w -> 0 <= i ->
  Z.testbit (signed w x) i = Z.testbit x (if i <? w then i else w - 1).
Proof.
  intros Hw Hi. set (y := wrap w x).
  assert (forall k, 0 <= k < w -> Z.testbit x k = Z.testbit y k) as Hy.
  { intros k Hk. unfold y. rewrite testbit_wrap by lia. by split_compares. }
  rewrite Hy by (destruct (Z.ltb_spec i w); lia).
  pose proof (wrap_inw w x ltac:(lia)) as Hin. fold y in Hin.
  pose proof (sign_bit w y Hw Hin) as Hs.
  assert (2 ^ w = 2 * 2 ^ (w - 1)) as E.
  { rewrite <- Z.pow_succ_r by lia. f_equal. lia. }
  unfold signed. fold y. destruct (Z.ltb_spec y (2 ^ (w - 1))), (Z.ltb_spec i w); try done.
  - rewrite Hs, (proj2 (Z.leb_gt _ _)) by lia. apply (testbit_above w); [done|lia].
  - rewrite <- (Z.mod_pow2_bits_low (y - 2 ^ w) w) by lia.
    replace (y - 2 ^ w) with (y + (-1) * 2 ^ w) by lia.
    by rewrite Z_mod_plus_full, Z.mod_small by apply Hin.
  - rewrite Hs, (proj2 (Z.leb_le _ _)) by lia.
    replace (y - 2 ^ w) with (Z.lnot (2 ^ w - 1 - y)) by (unfold Z.lnot; lia).
    rewrite Z.lnot_spec by lia.
    rewrite (testbit_above (w - 1)); [done| |lia]. unfold inw in *. lia.
Qed.

Lemma signed_small w x : 0 < w -> inw (w - 1) x -> signed w x = x.
Proof.
  intros Hw Hx. unfold signed. rewrite wrap_small by (apply (inw_mono (w - 1)); [lia|done]).
  unfold inw in Hx. by rewrite (proj2 (Z.ltb_lt _ _)) by lia.
Qed.

(** ** Finite checks

    A property of every byte is decided by evaluating it on all of them. *)

Definition all_below (n : Z) (P : Z -> bool) : bool := forallb P (seqZ 0 n).

Lemma all_below_spec n P x : all_below n P = true -> 0 <= x < n -> P x = true.
Proof.
  unfold all_below. rewrite forallb_forall. intros H Hx. apply H.
  apply list_elem_of_In, elem_of_seqZ. lia.
Qed.

(** ** Lists *)

Lemma Forall_mp {A} (P Q : A -> Prop) l :
  Forall (fun x => P x -> Q x) l -> Forall P l -> Forall Q l.
Proof. induction 1; inversion 1; subst; constructor; auto. Qed.

Lemma elem_of_flat_map {A B} (f : A -> list B) l x y :
  x ∈ l -> y ∈ f x -> y ∈ flat_map f l.
Proof.
  intros Hx Hy. apply list_elem_of_In, in_flat_map. exists x. by rewrite !list_elem_of_In in *.
Qed.

(** ** Arrays *)

Lemma arr_get_spec {A} (l : list A) i x :
  arr_get l i = Some x <-> 0 <= i /\ l !! Z.to_nat i = Some x.
Proof.
  unfold arr_get. destruct (Z.ltb_spec i 0); split; try (intros [? ?]); try done; lia.
Qed.

Lemma arr_get_is_Some {A} (l : list A) i :
  0 <= i < Z.of_nat (length l) -> exists x, arr_get l i = Some x.
Proof.
  intros Hi. unfold arr_get. destruct (Z.ltb_spec i 0); [lia|].
  apply lookup_lt_is_Some_2. lia.
Qed.

Lemma arr_set_spec {A} (l : list A) i x :
  0 <= i < Z.of_nat (length l) -> arr_set l i x = Some (<[Z.to_nat i := x]> l).
Proof.
  intros Hi. unfold arr_set.
  destruct (Z.ltb_spec i 0); [lia|]. by destruct (Z.leb_spec (Z.of_nat (length l)) i); [lia|].
Qed.

Lemma arr_set_Some {A} (l l' : list A) i x :
  arr_set l i x = Some l' ->
  0 <= i < Z.of_nat (length l) /\ l' = <[Z.to_nat i := x]> l.
Proof.
  unfold arr_set. destruct (Z.ltb_spec i 0); [done|].
  destruct (Z.leb_spec (Z.of_nat (length l)) i); [done|].
  intros [= <-]. split; [lia|done].
Qed.

Lemma arr_get_set {A} (l l' : list A) i j x :
  arr_set l i x = Some l' ->
  arr_get l' j = if j =? i then Some x else arr_get l j.
Proof.
  intros [Hi ->]%arr_set_Some. unfold arr_get.
  destruct (Z.ltb_spec j 0), (Z.eqb_spec j i); subst; try done; try lia.
  - apply list_lookup_insert_eq. lia.
  - apply list_lookup_insert_ne. lia.
Qed.

(** ** Options

    [inv_opt] takes apart a successful run of a computation that may panic. *)

Lemma assert_Some b u : assert b = Some u -> b = true.
Proof. by destruct b. Qed.

Ltac inv_opt :=
  repeat match goal with
  | H : assert _ = Some _ |- _ => apply assert_Some in H
  | H : mbind _ ?x = Some _ |- _ =>
      let E := fresh "E" in destruct x eqn:E; [simpl in H|discriminate H]
  | H : Some _ = Some _ |- _ => injection H as H; try subst
  | H : None = Some _ |- _ => discriminate H
  | H : (_, _) = (_, _) |- _ => injection H; clear H; intros; try subst
  end.

Lemma ctz_from_spec n i x :
  i <= ctz_from n i x <= i + Z.of_nat n
  /\ (forall j, i <= j < ctz_from n i x -> bit x j = false)
  /\ (ctz_from n i x < i + Z.of_nat n -> bit x (ctz_from n i x) = true).
Proof.
  revert i. induction n as [|n IH]; intros i; cbn [ctz_from].
  { split; [lia|]. split; lia. }
  destruct (Z.testbit x i) eqn:E.
  - split; [lia|]. split; [lia|]. intros _. exact E.
  - destruct (IH (i + 1)) as (H1 & H2 & H3). split; [lia|]. split; [|intros H; apply H3; lia].
    intros j Hj. destruct (Z.eq_dec j i) as [->|Hne]; [exact E|]. apply H2. lia.
Qed.

(** ** Little-endian bytes *)

Lemma to_le_bytes_S n x : to_le_bytes (S n) x = wrap 8 x :: to_le_bytes n (Z.shiftr x 8).
Proof. done. Qed.

Lemma length_to_le_bytes n x : length (to_le_bytes n x) = n.
Proof. revert x. induction n; intros x; simpl; [done|]. by rewrite IHn. Qed.

Lemma from_to_le_bytes n x :
  from_le_bytes (to_le_bytes n x) = wrap (8 * Z.of_nat n) x.
Proof.
  revert x. induction n as [|n IH]; intros x.
  { simpl. unfold wrap. by rewrite Z.mod_1_r. }
  cbn [to_le_bytes from_le_bytes]. rewrite IH. bitblast.
Qed.

Lemma from_le_bytes_inw l :
  Forall (inw 8) l -> inw (8 * Z.of_nat (length l)) (from_le_bytes l).
Proof.
  induction 1 as [|b l Hb Hl IH]; [done|].
  cbn [from_le_bytes length]. apply inw_testbit; [lia| |].
  - apply Z.lor_nonneg. split; [apply Hb|]. apply Z.shiftl_nonneg. apply IH.
  - intros i Hi. rewrite Z.lor_spec, Z.shiftl_spec by lia.
    rewrite (testbit_above 8 b), (testbit_above _ _ (i - 8) IH) by (done || lia). done.
Qed.

Lemma to_le_bytes_inw n x : Forall (inw 8) (to_le_bytes n x).
Proof.
  revert x. induction n; intros x; simpl; constructor; [by apply wrap_inw|done].
Qed.

Lemma to_from_le_bytes l :
  Forall (inw 8) l -> to_le_bytes (length l) (from_le_bytes l) = l.
Proof.
  induction 1 as [|b l Hb Hl IH]; [done|].
  cbn [from_le_bytes length to_le_bytes]. f_equal.
  - bitblast.
  - replace (Z.shiftr (Z.lor b (Z.shiftl (from_le_bytes l) 8)) 8)
      with (from_le_bytes l) by (symmetry; bitblast).
    exact IH.
Qed.

Lemma swap_bytes_involutive n x :
  swap_bytes n (swap_bytes n x) = wrap (8 * Z.of_nat n) x.
Proof.
  unfold swap_bytes.
  assert (length (reverse (to_le_bytes n x)) = n) as Hlen
    by (by rewrite length_reverse, length_to_le_bytes).
  rewrite <- Hlen at 1. rewrite to_from_le_bytes.
  - rewrite reverse_involutive. apply from_to_le_bytes.
  - apply Forall_reverse, to_le_bytes_inw.
Qed.

Lemma swap_bytes_inw n x : inw (8 * Z.of_nat n) (swap_bytes n x).
Proof.
  unfold swap_bytes.
  rewrite <- (length_to_le_bytes n x) at 1. rewrite <- length_reverse.
  apply from_le_bytes_inw, Forall_reverse, to_le_bytes_inw.
Qed.


Lemma from_le_bytes_app a b :
  from_le_bytes (a ++ b)
  = Z.lor (from_le_bytes a) (Z.shiftl (from_le_bytes b) (8 * Z.of_nat (length a))).
Proof.
  induction a as [|x a IH]; [by rewrite Z.shiftl_0_r|].
  cbn [from_le_bytes length app]. rewrite IH, Z.shiftl_lor, Z.lor_assoc, Z.shiftl_shiftl by lia.
  do 2 f_equal. lia.
Qed.

Lemma take_to_le_bytes n m x : (n <= m)%nat -> take n (to_le_bytes m x) = to_le_bytes n x.
Proof.
  revert m x. induction n as [|n IH]; intros [|m] x Hle; simpl; [done|done|lia|].
  by rewrite IH by lia.
Qed.

Lemma drop_to_le_bytes n m x :
  (n <= m)%nat -> drop n (to_le_bytes m x) = to_le_bytes (m - n) (Z.shiftr x (8 * Z.of_nat n)).
Proof.
  revert m x. induction n as [|n IH]; intros [|m] x Hle; simpl; [done|done|lia|].
  rewrite IH by lia. rewrite Z.shiftr_shiftr by lia. do 2 f_equal. lia.
Qed.

(** Replacing the bytes from [st] to [en] of a value replaces a bit field. *)
Lemma from_le_bytes_splice st en m x v :
  (st <= en <= m)%nat -> inw (8 * Z.of_nat m) x ->
  from_le_bytes (take st (to_le_bytes m x) ++ to_le_bytes (en - st) v
                 ++ drop en (to_le_bytes m x))
  = set_field (8 * Z.of_nat st) (8 * Z.of_nat (en - st)) v x.
Proof.
  intros H Hx. rewrite take_to_le_bytes, drop_to_le_bytes by lia.
  rewrite !from_le_bytes_app, !length_to_le_bytes, !from_to_le_bytes.
  replace (Z.of_nat (m - en)) with (Z.of_nat m - Z.of_nat en) by lia.
  replace (Z.of_nat (en - st)) with (Z.of_nat en - Z.of_nat st) by lia.
  assert (8 * Z.of_nat st <= 8 * Z.of_nat en <= 8 * Z.of_nat m) by lia.
  revert Hx. generalize dependent (Z.of_nat m). intros m' ? Hx. bitblast.
Qed.

Lemma field_set_field_same off len v x :
  0 <= off -> 0 <= len -> field off len (set_field off len v x) = wrap len v.
Proof. intros. bitblast. Qed.

Lemma field_set_field_other off len off' len' v x :
  0 <= off -> 0 <= off' -> 0 <= len -> 0 <= len' -> off + len <= off' \/ off' + len' <= off ->
  field off' len' (set_field off len v x) = field off' len' x.
Proof. intros ? ? ? ? [?|?]; bitblast. Qed.

Lemma set_field_inw w off len v x :
  0 <= off -> 0 <= len -> off + len <= w -> inw w x -> inw w (set_field off len v x).
Proof.
  intros Hoff Hlen Hw Hx. apply inw_testbit; [lia| |].
  - unfold set_field. apply Z.lor_nonneg. split.
    + apply Z.ldiff_nonneg. left. apply Hx.
    + apply Z.shiftl_nonneg, Z.land_nonneg. right. apply (inw_ones len len). lia.
  - intros i Hi. unfold set_field. autorewrite with zbits.
    rewrite (testbit_above w x) by (done || lia). split_compares; btauto.
Qed.

#[global] Arguments to_le_bytes : simpl never.
