(* ===== verification/Exceptions.v ===== *)
(** * CPU exceptions and the packed result of an execution

    [sem86-arch/src/exceptions.rs] (the [Exception] and [Interrupt] types) and
    the packed form that compiled code returns ([ExecResult] and
    [PackedExecResult] of [sem86-core/src/il/mod.rs], [HandlerId] of
    [sem86-core/src/arch/intel386.rs]). *)
From S2P Require Import Prelude.

(** [code.try_into().unwrap()] from [u32] to [u16]. *)
Definition try_u16 (code : Z) : option Z :=
  if (0 <=? code) && (code <? 2 ^ 16) then Some code else None.

Module PageFaultCode.
(** The eight flags of the error code, as its byte. *)
Record t := {
  present : bool;
  write : bool;
  user : bool;
  invalid_reservd_bits : bool;
  instruction_fetch : bool;
  protection_key_violation : bool;
  shadow_stack_access : bool;
  sgx_violation : bool;
}.

#[global] Instance t_eq_dec : EqDecision t.
Proof. solve_decision. Defined.

Definition from_u8 (n : Z) : t :=
  {| present := bit n 0; write := bit n 1; user := bit n 2;
   invalid_reservd_bits := bit n 3; instruction_fetch := bit n 4;
   protection_key_violation := bit n 5; shadow_stack_access := bit n 6;
   sgx_violation := bit n 7 |}.

Definition to_u8 (c : t) : Z :=
  b2z (present c) + 2 * b2z (write c) + 4 * b2z (user c)
  + 8 * b2z (invalid_reservd_bits c) + 16 * b2z (instruction_fetch c)
  + 32 * b2z (protection_key_violation c) + 64 * b2z (shadow_stack_access c)
  + 128 * b2z (sgx_violation c).

Definition from_normal_access (present write user invalid_reserved_bits : bool) : t :=
  {| present := present; write := write; user := user;
   invalid_reservd_bits := invalid_reserved_bits; instruction_fetch := false;
   protection_key_violation := false; shadow_stack_access := false;
   sgx_violation := false |}.

Lemma from_to_u8 c : from_u8 (to_u8 c) = c.
Proof. by destruct c as [[] [] [] [] [] [] [] []]. Qed.

Lemma to_from_u8 n : inw 8 n -> to_u8 (from_u8 n) = n.
Proof.
  intros Hn. apply Z.eqb_eq.
  by apply (all_below_spec 256 (fun n => to_u8 (from_u8 n) =? n)).
Qed.

Lemma to_u8_inw c : inw 8 (to_u8 c).
Proof. destruct c as [[] [] [] [] [] [] [] []]; done. Qed.
End PageFaultCode.

Inductive Exception : Type :=
| DivisionError
| Debug
| NonMaskableInterrupt
| Breakpoint
| Overflow
| BoundRangeExceeded
| InvalidOpcode
| DeviceNotAvailable
| DoubleFault (n : Z)
| CoprocessorSegmentOverrun
| InvalidTss (n : Z)
| SegmentNotPresent (n : Z)
| StackSegmentationFault (n : Z)
| GeneralProtectionFault (n : Z)
| PageFault (code : PageFaultCode.t) (address : Z)
| FloatingPointException
| AlignmentCheck (n : Z)
| MachineCheck
| SimdFloatingPointException
| VirtualizationException
| ControlProtectionException (n : Z)
| HypervisorInjectionException
| VmmCommunicationException (n : Z)
| SecurityException.

#[export] Instance Exception_eq_dec : EqDecision Exception.
Proof. solve_decision. Defined.

Inductive ExceptionClass : Type := Trap | Fault | Abort_.

Definition from_vector_and_params (vector code address : Z) : option Exception :=
  match vector with
  | 0x0 => Some DivisionError
  | 0x1 => Some Debug
  | 0x2 => Some NonMaskableInterrupt
  | 0x3 => Some Breakpoint
  | 0x4 => Some Overflow
  | 0x5 => Some BoundRangeExceeded
  | 0x6 => Some InvalidOpcode
  | 0x7 => Some DeviceNotAvailable
  | 0x8 => DoubleFault <$> try_u16 code
  | 0x9 => Some CoprocessorSegmentOverrun
  | 0xA => InvalidTss <$> try_u16 code
  | 0xB => SegmentNotPresent <$> try_u16 code
  | 0xC => StackSegmentationFault <$> try_u16 code
  | 0xD => GeneralProtectionFault <$> try_u16 code
  | 0xE => Some (PageFault (PageFaultCode.from_u8 (wrap 8 code)) address)
  | 0x10 => Some FloatingPointException
  | 0x11 => AlignmentCheck <$> try_u16 code
  | 0x12 => Some MachineCheck
  | 0x13 => Some SimdFloatingPointException
  | 0x14 => Some VirtualizationException
  | 0x15 => ControlProtectionException <$> try_u16 code
  | 0x1c => Some HypervisorInjectionException
  | 0x1d => VmmCommunicationException <$> try_u16 code
  | 0x1e => Some SecurityException
  | _ => None
  end.

Definition as_u8 (e : Exception) : Z :=
  match e with
  | DivisionError => 0x0
  | Debug => 0x1
  | NonMaskableInterrupt => 0x2
  | Breakpoint => 0x3
  | Overflow => 0x4
  | BoundRangeExceeded => 0x5
  | InvalidOpcode => 0x6
  | DeviceNotAvailable => 0x7
  | DoubleFault _ => 0x8
  | CoprocessorSegmentOverrun => 0x9
  | InvalidTss _ => 0xA
  | SegmentNotPresent _ => 0xB
  | StackSegmentationFault _ => 0xC
  | GeneralProtectionFault _ => 0xD
  | PageFault _ _ => 0xE
  | FloatingPointException => 0x10
  | AlignmentCheck _ => 0x11
  | MachineCheck => 0x12
  | SimdFloatingPointException => 0x13
  | VirtualizationException => 0x14
  | ControlProtectionException _ => 0x15
  | HypervisorInjectionException => 0x1c
  | VmmCommunicationException _ => 0x1d
  | SecurityException => 0x1e
  end.

Definition with_code_from_u32 (e : Exception) (code : Z) : option Exception :=
  match e with
  | DoubleFault _ => DoubleFault <$> try_u16 code
  | InvalidTss _ => InvalidTss <$> try_u16 code
  | SegmentNotPresent _ => SegmentNotPresent <$> try_u16 code
  | StackSegmentationFault _ => StackSegmentationFault <$> try_u16 code
  | GeneralProtectionFault _ => GeneralProtectionFault <$> try_u16 code
  | PageFault _ address =>
      Some (PageFault (PageFaultCode.from_u8 (wrap 8 code)) address)
  | AlignmentCheck _ => AlignmentCheck <$> try_u16 code
  | ControlProtectionException _ => ControlProtectionException <$> try_u16 code
  | VmmCommunicationException _ => VmmCommunicationException <$> try_u16 code
  | BoundRangeExceeded | InvalidOpcode | DeviceNotAvailable
  | CoprocessorSegmentOverrun | FloatingPointException | MachineCheck
  | SimdFloatingPointException | VirtualizationException
  | HypervisorInjectionException | SecurityException | DivisionError | Debug
  | NonMaskableInterrupt | Breakpoint | Overflow => Some e
  end.

Definition code_as_u32 (e : Exception) : option Z :=
  match e with
  | DoubleFault n | InvalidTss n | SegmentNotPresent n | StackSegmentationFault n
  | GeneralProtectionFault n | AlignmentCheck n | ControlProtectionException n
  | VmmCommunicationException n => Some n
  | PageFault code _ => Some (PageFaultCode.to_u8 code)
  | BoundRangeExceeded | InvalidOpcode | DeviceNotAvailable
  | CoprocessorSegmentOverrun | FloatingPointException | MachineCheck
  | SimdFloatingPointException | VirtualizationException
  | HypervisorInjectionException | SecurityException | DivisionError | Debug
  | NonMaskableInterrupt | Breakpoint | Overflow => None
  end.

Definition address (e : Exception) : option Z :=
  match e with PageFault _ a => Some a | _ => None end.

Definition class (e : Exception) : ExceptionClass :=
  match e with
  | MachineCheck => Abort_
  | Breakpoint | Overflow => Trap
  | _ => Fault
  end.

Module Interrupt.
Inductive t : Type :=
| Exception_ (e : Exception)
| HardwareInterrupt (n : Z)
| SoftwareInterrupt (vector pc_increment : Z).

Definition vector (i : t) : Z :=
  match i with
  | Exception_ e => as_u8 e
  | HardwareInterrupt n => n
  | SoftwareInterrupt v _ => v
  end.

Definition code (i : t) : option Z :=
  match i with
  | Exception_ e => code_as_u32 e
  | HardwareInterrupt _ | SoftwareInterrupt _ _ => None
  end.

Definition pc_increment (i : t) : Z :=
  match i with SoftwareInterrupt _ n => n | _ => 0 end.
End Interrupt.

(** ** The packed execution result *)

Inductive HandlerId : Type :=
| HInt | HIret | HWriteCr | HCpuId | HReadMsr | HWriteMsr | HCsUpdated
| HSsUpdated | HIfUpdated | HInvalidatePage | HHalt.

#[export] Instance HandlerId_eq_dec : EqDecision HandlerId.
Proof. solve_decision. Defined.

(** [id as u8] and the derived [HandlerId::from_u8]. *)
Definition handler_as_u8 (id : HandlerId) : Z :=
  match id with
  | HInt => 0 | HIret => 1 | HWriteCr => 2 | HCpuId => 3 | HReadMsr => 4
  | HWriteMsr => 5 | HCsUpdated => 6 | HSsUpdated => 7 | HIfUpdated => 8
  | HInvalidatePage => 9 | HHalt => 10
  end.

Definition handler_from_u8 (n : Z) : option HandlerId :=
  match n with
  | 0 => Some HInt | 1 => Some HIret | 2 => Some HWriteCr | 3 => Some HCpuId
  | 4 => Some HReadMsr | 5 => Some HWriteMsr | 6 => Some HCsUpdated
  | 7 => Some HSsUpdated | 8 => Some HIfUpdated | 9 => Some HInvalidatePage
  | 10 => Some HHalt | _ => None
  end.

Inductive ExecResult : Type :=
| ROk
| InvokeHandler (id : HandlerId) (args : Z * Z).

Record PackedExecResult := {
  discr : Z;
  parameters : Z * Z;
}.

Definition packed_default : PackedExecResult :=
  {| discr := 0xff; parameters := (0xdeadbeef, 0xdeadbeef) |}.

(** [PackedExecResult::handler]: [checked_add(0x80).unwrap()] on [u8]. *)
Definition packed_handler (id : HandlerId) (args : Z * Z) : option PackedExecResult :=
  let d := handler_as_u8 id + 0x80 in
  assert (d <? 256);;
  Some {| discr := d; parameters := args |}.

Definition packed_exception (vector code address : Z) : option PackedExecResult :=
  assert (vector <=? 0x80);;
  Some {| discr := vector; parameters := (code, address) |}.

Definition unwrap_or {A} (o : option A) (d : A) : A :=
  match o with Some x => x | None => d end.

(** [From<ExecResult>], [From<Exception>] and [From<Result<..>>]. *)
Definition packed_from_exec_result (r : ExecResult) : option PackedExecResult :=
  match r with
  | ROk => None
  | InvokeHandler id args => packed_handler id args
  end.

Definition packed_from_exception (e : Exception) : option PackedExecResult :=
  packed_exception (as_u8 e) (unwrap_or (code_as_u32 e) 0) (unwrap_or (address e) 0).

Definition packed_from_result (r : result ExecResult Exception) : option PackedExecResult :=
  match r with
  | Ok x => packed_from_exec_result x
  | Err e => packed_from_exception e
  end.

Definition unpack (p : PackedExecResult) : option (result ExecResult Exception) :=
  if 0x80 <=? discr p then
    id ← handler_from_u8 (discr p - 0x80);
    Some (Ok (InvokeHandler id (parameters p)))
  else
    e ← from_vector_and_params (discr p) (parameters p).1 (parameters p).2;
    Some (Err e).

Definition is_exception (p : PackedExecResult) : option bool :=
  r ← unpack p; Some (match r with Err _ => true | Ok _ => false end).

(** ** Well-formed exceptions: 16-bit error codes, 32-bit addresses. *)
Definition wf_exception (e : Exception) : Prop :=
  match e with
  | DoubleFault n | InvalidTss n | SegmentNotPresent n | StackSegmentationFault n
  | GeneralProtectionFault n | AlignmentCheck n | ControlProtectionException n
  | VmmCommunicationException n => inw 16 n
  | PageFault _ a => inw 32 a
  | _ => True
  end.

Lemma try_u16_inw n : inw 16 n -> try_u16 n = Some n.
Proof.
  unfold try_u16, inw. intros [H1 H2].
  destruct (Z.leb_spec 0 n), (Z.ltb_spec n (2 ^ 16)); simpl; done || lia.
Qed.

Lemma as_u8_below e : 0 <= as_u8 e < 0x80.
Proof. destruct e; simpl; lia. Qed.

Lemma wrap_pf_code c : wrap 8 (PageFaultCode.to_u8 c) = PageFaultCode.to_u8 c.
Proof. apply wrap_small, PageFaultCode.to_u8_inw. Qed.

Lemma from_vector_as_u8 e :
  wf_exception e ->
  from_vector_and_params (as_u8 e) (unwrap_or (code_as_u32 e) 0)
    (unwrap_or (address e) 0) = Some e.
Proof.
  intros He. destruct e; simpl in *; try done;
    rewrite ?try_u16_inw by done; try done.
  by rewrite wrap_pf_code, PageFaultCode.from_to_u8.
Qed.

Lemma handler_from_as_u8 id : handler_from_u8 (handler_as_u8 id) = Some id.
Proof. by destruct id. Qed.

(** The results that compiled code returns: a handler request, or an exception
    with fields of their widths.  A plain success has no packed form. *)
Definition wf_result (r : result ExecResult Exception) : Prop :=
  match r with
  | Ok ROk => False
  | Ok (InvokeHandler _ _) => True
  | Err e => wf_exception e
  end.

(** Packing a handler request or an exception and unpacking it returns the same
    result, and [is_exception] tells the two apart. *)
Theorem packed_result_roundtrip (r : result ExecResult Exception) :
  wf_result r ->
  (packed_from_result r ≫= unpack) = Some r
  /\ (packed_from_result r ≫= is_exception)
     = Some (match r with Err _ => true | Ok _ => false end).
Proof.
  assert (forall o : option PackedExecResult, (o ≫= unpack) = Some r ->
    (o ≫= is_exception) = Some (match r with Err _ => true | Ok _ => false end)) as Hex.
  { intros [p|] E; [|done]. simpl in *. unfold is_exception. by rewrite E. }
  intros Hr. cut ((packed_from_result r ≫= unpack) = Some r); [by auto|].
  destruct r as [[|id [a b]]|e]; simpl in *; [done|by destruct id|].
  unfold packed_from_exception, packed_exception.
  pose proof (as_u8_below e) as Hb. rewrite (proj2 (Z.leb_le _ _)) by lia.
  simpl. unfold unpack. simpl.
  rewrite (proj2 (Z.leb_gt _ _)) by lia.
  by rewrite from_vector_as_u8.
Qed.

Lemma packed_result_roundtrip_witness :
  (packed_from_result (Err (PageFault (PageFaultCode.from_u8 6) 0xdeadb000)) ≫= unpack)
  = Some (Err (PageFault (PageFaultCode.from_u8 6) 0xdeadb000)).
Proof.
  apply (packed_result_roundtrip (Err (PageFault (PageFaultCode.from_u8 6) 0xdeadb000))).
  split; vm_compute; congruence.
Defined.

(** Vector 0x80 passes the check of [PackedExecResult::exception], but a
    discriminant of 0x80 unpacks to a handler, not to an exception. *)
Theorem packed_vector_0x80_is_handler (code address : Z) :
  (packed_exception 0x80 code address ≫= unpack)
  = Some (Ok (InvokeHandler HInt (code, address))).
Proof. reflexivity. Qed.

(** The code of an exception and the code passed to [with_code_from_u32] agree. *)
Theorem with_code_roundtrip (e e' : Exception) (code : Z) :
  with_code_from_u32 e code = Some e' ->
  as_u8 e' = as_u8 e /\ address e' = address e
  /\ code_as_u32 e' = match e with
                      | PageFault _ _ => Some (wrap 8 code)
                      | _ => (fun _ => code) <$> code_as_u32 e
                      end.
Proof.
  intros H. destruct e; simpl in H; unfold try_u16 in H;
    repeat (case_match; simplify_eq/=); simplify_eq/=; try done.
  rewrite PageFaultCode.to_from_u8; [done|by apply wrap_inw].
Qed.

Lemma with_code_roundtrip_witness :
  code_as_u32 (GeneralProtectionFault 0x18) = Some 0x18.
Proof.
  apply (with_code_roundtrip (GeneralProtectionFault 0) (GeneralProtectionFault 0x18) 0x18).
  reflexivity.
Defined.
