(* ===== verification/IlOps.v ===== *)
(** * The operators of the intermediate language

    [BinOp], [UnOp], [FpBinOp] and [FpUnOp] of [sem86-core/src/il/mod.rs] with
    their [execute] methods on 128-bit values, [reduce_f80_precision], and the
    value conversion [Val::apply_conversion].

    The floating-point arithmetic itself is Berkeley SoftFloat (C code) and
    the host's [f64] functions: it is the interface [SoftFloat], a parameter
    of everything that evaluates a floating-point operator. *)
From S2P Require Import Prelude.

(** ** Integer operators *)

Inductive BinOp : Type :=
| Add | Sub | Mul | Xor | Or | And | Shl | Shr
| Rol (num_bits : Z)
| Ror (num_bits : Z)
| Sar (num_bytes : Z)
| Div | Mod | SignedMod64 | CmpGt | CmpLt | CmpEq | SignedDiv64.

#[export] Instance BinOp_eq_dec : EqDecision BinOp.
Proof. solve_decision. Defined.

Definition is_commutative (op : BinOp) : bool :=
  match op with Add | Mul | Xor | Or | And => true | _ => false end.

(** [i64::checked_rem] and [i64::checked_div]. *)
Definition i64_checked (f : Z -> Z -> Z) (a b : Z) : option Z :=
  if (b =? 0) || ((a =? - 2 ^ 63) && (b =? -1)) then None else Some (f a b).

(** The rotation amount [y as u32 % num_bits as u32]: a zero divisor panics. *)
Definition rot_amount (num_bits y : Z) : option Z :=
  assert (negb (num_bits =? 0));; Some (wrap 32 y mod num_bits).

(** [(x as iN as i64).wrapping_shr(y as u32) as u128]. *)
Definition sar_i64 (w x y : Z) : Z :=
  wrap 128 (Z.shiftr (signed w x) (wrap 32 y mod 64)).

Definition binop_execute (op : BinOp) (x y : Z) : option Z :=
  match op with
  | Add => Some (wrap 128 (x + y))
  | Sub => Some (wrap 128 (x - y))
  | Mul => Some (wrap 128 (x * y))
  | Xor => Some (Z.lxor x y)
  | Or => Some (Z.lor x y)
  | And => Some (Z.land x y)
  | Shl => Some (wshl 128 x (wrap 32 y))
  | Shr => Some (wshr 128 x (wrap 32 y))
  | Rol num_bits =>
      r ← rot_amount num_bits y;
      Some (Z.lor (wshl 128 x r) (wshr 128 x (wrap 32 (num_bits - r))))
  | Ror num_bits =>
      r ← rot_amount num_bits y;
      Some (Z.lor (wshr 128 x r) (wshl 128 x (wrap 32 (num_bits - r))))
  | Sar num_bytes =>
      match num_bytes with
      | 1 => Some (sar_i64 8 x y)
      | 2 => Some (sar_i64 16 x y)
      | 4 => Some (sar_i64 32 x y)
      | _ => None
      end
  | Div => Some (if y =? 0 then 0 else x / y)
  | Mod => Some (if y =? 0 then 0 else x mod y)
  | SignedMod64 =>
      Some (wrap 64 (default 0 (i64_checked Z.rem (signed 64 x) (signed 64 y))))
  | CmpGt => Some (b2z (y <? x))
  | CmpLt => Some (b2z (x <? y))
  | CmpEq => Some (b2z (x =? y))
  | SignedDiv64 =>
      Some (wrap 64 (default 0 (i64_checked Z.quot (signed 64 x) (signed 64 y))))
  end.

Inductive UnOp : Type :=
| Id | ByteSwap16 | ByteSwap32 | ByteSwap64 | IsZero
| SelectBit (n : Z)
| SignExtend (n : Z)
| Parity | TrailingZeros | HighestBitSet.

#[export] Instance UnOp_eq_dec : EqDecision UnOp.
Proof. solve_decision. Defined.

Definition unop_execute (op : UnOp) (s : Z) : option Z :=
  match op with
  | Id => Some s
  | ByteSwap16 => Some (swap_bytes 2 (wrap 16 s))
  | ByteSwap32 => Some (swap_bytes 4 (wrap 32 s))
  | ByteSwap64 => Some (swap_bytes 8 (wrap 64 s))
  | IsZero => Some (b2z (s =? 0))
  | SelectBit n => assert (n <? 128);; Some (Z.land (Z.shiftr s n) 1)
  | SignExtend n =>
      assert ((0 <? n) && (n <=? 128));;
      Some (wrap 128 (Z.shiftr (signed 128 (Z.shiftl s (128 - n))) (128 - n)))
  | Parity => Some (Z.land (count_ones 32 (Z.land s 0xff) + 1) 1)
  | TrailingZeros => Some (trailing_zeros 128 s)
  | HighestBitSet =>
      let lz := leading_zeros 128 s in assert (lz <=? 127);; Some (127 - lz)
  end.

(** ** Value conversion

    [Val::apply_conversion]: optional byte swap of the low [source_bits],
    optional sign extension, then a mask of [target_bits].  A shift amount
    that does not fit ([64 - source_bits] underflowing, or a shift by 64 or
    more) panics. *)
Definition conv_swap (v source_bits : Z) : option Z :=
  match source_bits with
  | 8 => Some v
  | 16 => Some (swap_bytes 2 (wrap 16 v))
  | 32 => Some (swap_bytes 4 (wrap 32 v))
  | n => if n <=? 64
         then Some (Z.shiftr (swap_bytes 16 v) (((64 - n) / 8) * 8))
         else None
  end.

Definition conv_sign_extend (v source_bits : Z) : option Z :=
  assert ((0 <? source_bits) && (source_bits <=? 64));;
  let s := 64 - source_bits in
  Some (wrap 128 (Z.shiftr (signed 64 (Z.shiftl v s)) s)).

Definition conv_mask (v target_bits : Z) : Z :=
  let m := if target_bits <? 128
           then wrap 128 (Z.shiftl (Z.ones 128) target_bits) else 0 in
  Z.land v (unot 128 m).

Definition apply_conversion (v source_bits : Z) (sign_extend swap_endianness : bool)
    (target_bits : Z) : option Z :=
  v ← (if swap_endianness then conv_swap v source_bits else Some v);
  v ← (if sign_extend then conv_sign_extend v source_bits else Some v);
  Some (conv_mask v target_bits).

(** ** Floating point *)

Inductive RoundingControl : Type := ToNearest | Down | Up | TowardsZero.

Definition rounding_from_u8 (n : Z) : option RoundingControl :=
  match n with
  | 0 => Some ToNearest | 1 => Some Down | 2 => Some Up | 3 => Some TowardsZero
  | _ => None
  end.

(** The C library and the host: every operation of it returns its result and
    the exception flags it raises. *)
Class SoftFloat := {
  f80_add : RoundingControl -> Z -> Z -> Z * Z;
  f80_sub : RoundingControl -> Z -> Z -> Z * Z;
  f80_mul : RoundingControl -> Z -> Z -> Z * Z;
  f80_div : RoundingControl -> Z -> Z -> Z * Z;
  f80_rem : RoundingControl -> Z -> Z -> Z * Z;
  f80_lt : Z -> Z -> bool * Z;
  f80_eq : Z -> Z -> bool * Z;
  f80_to_i64 : RoundingControl -> Z -> Z * Z;
  f80_to_f64 : RoundingControl -> Z -> Z * Z;
  f80_to_f32 : RoundingControl -> Z -> Z * Z;
  f64_to_f80 : RoundingControl -> Z -> Z * Z;
  f32_to_f80 : RoundingControl -> Z -> Z * Z;
  i64_to_f32 : RoundingControl -> Z -> Z * Z;
  i64_to_f64 : RoundingControl -> Z -> Z * Z;
  i64_to_f80 : RoundingControl -> Z -> Z * Z;
  f80_round_to_int : RoundingControl -> Z -> Z * Z;
  f80_sqrt : RoundingControl -> Z -> Z * Z;
  f80_to_f64_is_precise : Z -> bool * Z;
  f80_to_f32_is_precise : Z -> bool * Z;
  f64_sin : Z -> Z;
  f64_cos : Z -> Z;
  f64_tan : Z -> Z;
  f64_exp2_minus_1 : Z -> Z;
  f64_log2 : Z -> Z;
  f64_atan : Z -> Z;
}.

Inductive FpBinOp : Type :=
| F80Add | F80Sub | F80Mul | F80Div | F80Rem | F80CmpLt | F80CmpEq | F80Scale.

#[export] Instance FpBinOp_eq_dec : EqDecision FpBinOp.
Proof. solve_decision. Defined.

Inductive FpUnOp : Type :=
| F32ToF80 | F64ToF80 | F80ToF64 | F80ToF32 | F80ToF64IsPrecise
| F80ToF32IsPrecise | I64ToF32 | I64ToF64 | I64ToF80 | F80ToI64
| RoundToIntF80 | SinF80 | CosF80 | TanF80 | SqrtF80 | F2Xm1F80
| RoundF80ToF32 | RoundF80ToF64 | Log2F80 | ArcTanF80.

#[export] Instance FpUnOp_eq_dec : EqDecision FpUnOp.
Proof. solve_decision. Defined.

Definition SOFTFLOAT_FLAG_INVALID : Z := 16.
Definition SOFTFLOAT_FLAG_ROUNDED_UP : Z := 16.

(** [reduce_f80_precision::<BITS>]; the addition that would overflow [u128]
    panics. *)
Definition reduce_f80_precision (BITS val : Z) (rc : RoundingControl) : option Z :=
  round_mask ← bitmask_u128 BITS;
  let round_max := Z.shiftl 1 BITS in
  let round_bits := Z.land val round_mask in
  let is_negative := negb (Z.land (Z.shiftr val 79) 1 =? 0) in
  let lsb_kept := negb (Z.land (Z.shiftr val BITS) 1 =? 0) in
  let round_up :=
    match rc with
    | ToNearest =>
        match round_bits ?= round_max / 2 with
        | Gt => true | Lt => false | Eq => lsb_kept
        end
    | Down => is_negative
    | Up => negb is_negative
    | TowardsZero => false
    end in
  if round_up then
    let val := val + round_mask in
    assert (val <? 2 ^ 128);;
    let val := Z.land val (unot 128 round_mask) in
    let val := Z.lor val 0x8000000000000000 in
    Some (Z.lor val (Z.shiftl SOFTFLOAT_FLAG_ROUNDED_UP 120))
  else Some (Z.land val (unot 128 round_mask)).

Section fp.
Context `{SoftFloat}.

(** [Float80::from_bits] keeps 80 bits; [Float80::scale] adds the integer
    value of [scale] to the sign-and-exponent word. *)
Definition f80_bits (x : Z) : Z := wrap 80 x.
Definition f80_scale (rc : RoundingControl) (x scale : Z) : Z * Z :=
  let '(n, fl) := f80_to_i64 rc scale in
  let se := wrap 16 (Z.shiftr x 64 + wrap 16 n) in
  (Z.lor (wrap 64 x) (Z.shiftl se 64), fl).

Definition with_flags (r : Z * Z) : Z := Z.lor r.1 (Z.shiftl r.2 120).
Definition bool_flags (r : bool * Z) : Z * Z := (b2z r.1, r.2).

Definition fp_binop_execute (op : FpBinOp) (x y rc : Z) : option Z :=
  rc ← rounding_from_u8 rc;
  let a := f80_bits x in
  let b := f80_bits y in
  Some (with_flags
    match op with
    | F80Add => f80_add rc a b
    | F80Sub => f80_sub rc a b
    | F80Mul => f80_mul rc a b
    | F80Div => f80_div rc a b
    | F80Rem => f80_rem rc a b
    | F80CmpLt => bool_flags (f80_lt a b)
    | F80CmpEq => bool_flags (f80_eq a b)
    | F80Scale => f80_scale rc a b
    end).

(** A function of the host applied through [f64]: both conversions may raise
    flags. *)
Definition via_f64 (f : Z -> Z) (rc : RoundingControl) (s : Z) : Z * Z :=
  let '(v, fl1) := f80_to_f64 rc (f80_bits s) in
  let '(r, fl2) := f64_to_f80 rc (f v) in
  (r, Z.lor fl1 fl2).

Definition fp_unop_execute (op : FpUnOp) (s rc : Z) : option Z :=
  rc ← rounding_from_u8 rc;
  r ← match op with
      | F32ToF80 => Some (f32_to_f80 rc (wrap 32 s))
      | F64ToF80 => Some (f64_to_f80 rc (wrap 64 s))
      | F80ToF64 => Some (f80_to_f64 rc (f80_bits s))
      | F80ToF32 => Some (f80_to_f32 rc (f80_bits s))
      | F80ToF64IsPrecise => Some (bool_flags (f80_to_f64_is_precise (f80_bits s)))
      | F80ToF32IsPrecise => Some (bool_flags (f80_to_f32_is_precise (f80_bits s)))
      | I64ToF32 => Some (i64_to_f32 rc (signed 64 s))
      | I64ToF64 => Some (i64_to_f64 rc (signed 64 s))
      | I64ToF80 => Some (i64_to_f80 rc (signed 64 s))
      | F80ToI64 =>
          let '(n, fl) := f80_to_i64 rc (f80_bits s) in Some (wrap 64 n, fl)
      | SinF80 => Some (via_f64 f64_sin rc s)
      | CosF80 => Some (via_f64 f64_cos rc s)
      | TanF80 => Some (via_f64 f64_tan rc s)
      | F2Xm1F80 => Some (via_f64 f64_exp2_minus_1 rc s)
      | Log2F80 => Some (via_f64 f64_log2 rc s)
      | ArcTanF80 => Some (via_f64 f64_atan rc s)
      | RoundToIntF80 => Some (f80_round_to_int rc (f80_bits s))
      | SqrtF80 => Some (f80_sqrt rc (f80_bits s))
      | RoundF80ToF32 => r ← reduce_f80_precision 40 s rc; Some (r, 0)
      | RoundF80ToF64 => r ← reduce_f80_precision 11 s rc; Some (r, 0)
      end;
  Some (with_flags r).
End fp.

(** ** Theorems on the integer operators *)

Lemma binop_execute_range (op : BinOp) (x y r : Z) :
  inw 128 x -> inw 128 y -> binop_execute op x y = Some r -> inw 128 r.
Proof.
  intros Hx Hy H.
  destruct op; simpl in H; unfold sar_i64, rot_amount in H; inv_opt;
    try (apply wrap_inw; lia); try (apply inw_wshl; lia); try (by apply inw_wshr);
    try (by apply inw_b2z); try (apply inw_lxor; [lia|done|done]); try (apply inw_lor; [lia|done|done]).
  - apply inw_land; [lia|done|apply Hy].
  - apply inw_lor; [lia|apply inw_wshl; lia|by apply inw_wshr].
  - apply inw_lor; [lia|by apply inw_wshr|apply inw_wshl; lia].
  - repeat (case_match; simplify_eq); apply wrap_inw; lia.
  - case_match; [done|]. split; [apply Z.div_pos; unfold inw in *; lia|].
    apply Z.div_lt_upper_bound; unfold inw in *; nia.
  - case_match; [done|]. pose proof (Z.mod_pos_bound x y). unfold inw in *. lia.
  - apply (inw_mono 64); [lia|]. apply wrap_inw. lia.
  - apply (inw_mono 64); [lia|]. apply wrap_inw. lia.
Qed.

(** Every operator keeps its results in [u128]: given two 128-bit operands, an
    operator that does not panic returns a 128-bit value. *)
Theorem binop_execute_inw (op : BinOp) (x y r : Z) :
  inw 128 x -> inw 128 y -> binop_execute op x y = Some r -> inw 128 r.
Proof. apply binop_execute_range. Qed.

Lemma binop_execute_inw_witness : inw 128 (2 ^ 128 - 1).
Proof.
  apply (binop_execute_inw Sub 0 1); [split; vm_compute; congruence..|reflexivity].
Defined.

(** [is_commutative] is sound. *)
Theorem is_commutative_sound (op : BinOp) (x y : Z) :
  is_commutative op = true -> binop_execute op x y = binop_execute op y x.
Proof.
  destruct op; try done; intros _; simpl; f_equal.
  - by rewrite Z.add_comm.
  - by rewrite Z.mul_comm.
  - apply Z.lxor_comm.
  - apply Z.lor_comm.
  - apply Z.land_comm.
Qed.

Lemma is_commutative_sound_witness : binop_execute Mul 6 7 = binop_execute Mul 7 6.
Proof. apply (is_commutative_sound Mul 6 7). reflexivity. Defined.

(** The widths the code rotates by. *)
Definition rot_width (n : Z) : Prop := n = 8 \/ n = 16 \/ n = 32 \/ n = 64.

Lemma rot_amount_eq n y : rot_width n -> rot_amount n y = Some (y mod n).
Proof.
  intros Hn. unfold rot_amount, assert.
  destruct (Z.eqb_spec n 0); [unfold rot_width in Hn; lia|]. simpl. f_equal.
  unfold wrap. apply Z.mod_mod_divide.
  destruct Hn as [-> |[-> |[-> | ->]]]; [exists (2^29)|exists (2^28)|exists (2^27)|exists (2^26)]; done.
Qed.

Lemma testbit_wshl_low w x k i :
  0 < w -> 0 <= k < w -> 0 <= i < w -> Z.testbit (wshl w x k) i = (k <=? i) && Z.testbit x (i - k).
Proof.
  intros. unfold wshl. rewrite (Z.mod_small k) by lia. rewrite testbit_wrap, testbit_shiftl by lia.
  by rewrite (proj2 (Z.ltb_lt _ _)) by lia.
Qed.

Lemma testbit_wshr w x k i :
  0 <= k < w -> 0 <= i -> Z.testbit (wshr w x k) i = Z.testbit x (i + k).
Proof.
  intros. unfold wshr. rewrite (Z.mod_small k) by lia. by rewrite Z.shiftr_spec by lia.
Qed.

(** The rotations rotate: bit [i] of the low [n] bits of a left rotation by [y]
    of an [n]-bit value is bit [(i - y) mod n] of the value, and of a right
    rotation bit [(i + y) mod n]. *)
Theorem rotation_spec (n x y i : Z) :
  rot_width n -> inw n x -> 0 <= i < n ->
  (exists r, binop_execute (Rol n) x y = Some r
     /\ Z.testbit r i = Z.testbit x ((i - y) mod n))
  /\ (exists r, binop_execute (Ror n) x y = Some r
     /\ Z.testbit r i = Z.testbit x ((i + y) mod n)).
Proof.
  intros Hn Hx Hi. assert (0 < n <= 64) as Hb by (unfold rot_width in Hn; lia).
  simpl. rewrite rot_amount_eq by done. simpl.
  pose proof (Z.mod_pos_bound y n ltac:(lia)) as Hr.
  rewrite <- (Zminus_mod_idemp_r i y n), <- (Zplus_mod_idemp_r y i n).
  set (r := y mod n) in *. rewrite wrap_small by (unfold inw; lia).
  split; eexists; (split; [done|]); rewrite Z.lor_spec.
  - rewrite testbit_wshl_low, testbit_wshr by lia.
    destruct (Z.leb_spec r i).
    + rewrite (Z.mod_small (i - r)) by lia.
      rewrite (testbit_above n x (i + (n - r))) by (done || lia). apply orb_false_r.
    + replace (i - r) with (i + (n - r) + (-1) * n) by lia.
      by rewrite Z_mod_plus_full, Z.mod_small by lia.
  - rewrite testbit_wshr by lia. destruct (Z.eq_dec r 0) as [E|E].
    + rewrite E, Z.sub_0_r, Z.add_0_r, (Z.mod_small i) by lia.
      rewrite testbit_wshl_low by lia.
      rewrite (Z.testbit_neg_r _ (i - n)) by lia. by rewrite andb_false_r, orb_false_r.
    + rewrite testbit_wshl_low by lia. destruct (Z.leb_spec (n - r) i).
      * replace (i + r) with (i - (n - r) + 1 * n) by lia.
        rewrite Z_mod_plus_full, Z.mod_small by lia.
        rewrite (testbit_above n x (i - (n - r) + 1 * n)) by (done || lia). done.
      * by rewrite orb_false_r, Z.mod_small by lia.
Qed.

Lemma rotation_spec_witness :
  exists r, binop_execute (Rol 8) 0x81 1 = Some r /\ Z.testbit r 0 = true.
Proof.
  apply (rotation_spec 8 0x81 1 0); [by left|split; vm_compute; congruence|lia].
Defined.

Lemma signed_shift w n x :
  0 < n <= w -> Z.shiftr (signed w (Z.shiftl x (w - n))) (w - n) = signed n x.
Proof.
  intros Hn. apply Z.bits_inj'. intros i Hi.
  rewrite Z.shiftr_spec by lia. rewrite !testbit_signed by lia.
  destruct (Z.ltb_spec (i + (w - n)) w), (Z.ltb_spec i n); try lia;
    rewrite testbit_shiftl by lia; split_compares; f_equal; lia.
Qed.

Lemma conv_mask_wrap v t : 0 <= t <= 128 -> conv_mask v t = wrap t v.
Proof.
  intros Ht. unfold conv_mask. destruct (Z.ltb_spec t 128).
  - bitblast.
  - replace t with 128 by lia. bitblast.
Qed.

(** [apply_conversion] without a byte swap crops the value to [target_bits],
    and with [sign_extend] first reads it as a signed number of
    [source_bits]. *)
Theorem apply_conversion_spec (v source_bits target_bits : Z) :
  0 < source_bits <= 64 -> 0 <= target_bits <= 128 ->
  apply_conversion v source_bits false false target_bits = Some (wrap target_bits v)
  /\ apply_conversion v source_bits true false target_bits
     = Some (wrap target_bits (signed source_bits v)).
Proof.
  intros Hs Ht.
  unfold apply_conversion, conv_sign_extend. simpl.
  rewrite (proj2 (Z.ltb_lt _ _)), (proj2 (Z.leb_le _ _)) by lia. simpl.
  rewrite signed_shift by lia. rewrite !conv_mask_wrap by lia.
  by rewrite wrap_wrap_le by lia.
Qed.

Lemma apply_conversion_spec_witness :
  apply_conversion 0x1ff 8 true false 16 = Some 0xffff.
Proof. apply (apply_conversion_spec 0x1ff 8 16); lia. Defined.

(** The byte swap of a 64-bit operand shifts the reversed 128-bit value by
    nothing and so keeps the zero upper half: every converted value is zero. *)
Theorem conversion_swaps_64_to_zero (v target_bits : Z) :
  inw 64 v -> 0 <= target_bits <= 64 ->
  apply_conversion v 64 false true target_bits = Some 0.
Proof.
  intros Hv Ht. unfold apply_conversion, conv_swap. simpl. rewrite conv_mask_wrap by lia.
  f_equal. change ((64 - 64) / 8 * 8) with 0. rewrite Z.shiftr_0_r.
  unfold swap_bytes.
  replace (to_le_bytes 16 v) with (to_le_bytes 8 v ++ replicate 8 0).
  2: { rewrite <- (take_drop 8 (to_le_bytes 16 v)), take_to_le_bytes, drop_to_le_bytes by lia.
       f_equal. change (8 * Z.of_nat 8) with 64.
       replace (Z.shiftr v 64) with 0; [done|]. symmetry. bitblast. }
  rewrite reverse_app, from_le_bytes_app, length_reverse, length_replicate.
  change (from_le_bytes (reverse (replicate 8 0))) with 0.
  change (8 * Z.of_nat 8) with 64. bitblast.
Qed.

Lemma conversion_swaps_64_to_zero_witness :
  apply_conversion 0x1122334455667788 64 false true 64 = Some 0.
Proof.
  apply (conversion_swaps_64_to_zero 0x1122334455667788 64); [split; vm_compute; congruence|lia].
Defined.

(** The widths with a case of their own are swapped byte by byte. *)
Theorem conversion_swap_spec (v : Z) (n : nat) :
  (n = 1 \/ n = 2 \/ n = 4)%nat -> inw (8 * Z.of_nat n) v ->
  conv_swap v (8 * Z.of_nat n) = Some (swap_bytes n v).
Proof.
  intros [-> |[-> | ->]] Hv; unfold conv_swap; simpl.
  - f_equal. unfold swap_bytes. change (reverse (to_le_bytes 1 v)) with [wrap 8 v].
    cbn [from_le_bytes]. rewrite wrap_small by done. by rewrite Z.shiftl_0_l, Z.lor_0_r.
  - by rewrite wrap_small.
  - by rewrite wrap_small.
Qed.

Lemma conversion_swap_spec_witness : conv_swap 0x1234 16 = Some 0x3412.
Proof.
  refine (eq_trans (conversion_swap_spec 0x1234 2 _ _) eq_refl);
    [lia|split; vm_compute; congruence].
Defined.
