(* ===== verification/Arch.v ===== *)
(** * The Intel 386 register file

    [sem86-core/src/arch/intel386.rs]: the registers, their sizes and masks,
    the CPU state and its accessors.  The generic register traits of
    [liblisa/src/arch/mod.rs] and the values of [liblisa/src/value.rs] are
    instantiated at this architecture, the only one of the repository. *)
From S2P Require Import Prelude.

(** ** Registers *)

Inductive GpReg : Type :=
| Ax | Cx | Dx | Bx | Sp | Bp | Si | Di
| Es | EsBase | EsAr | EsLimit
| Cs | CsBase | CsAr | CsLimit
| Ss | SsBase | SsAr | SsLimit
| Ds | DsBase | DsAr | DsLimit
| Fs | FsBase | FsAr | FsLimit
| Gs | GsBase | GsAr | GsLimit
| Ip | Cr0 | Cr2 | Cr3 | Cr4
| GdtBase | GdtLimit | IdtBase | IdtLimit | Ldt | LdtBase | LdtLimit
| Iopl | Cpl | Tr | TrBase | TrLimit
| Dr0 | Dr1 | Dr2 | Dr3 | Dr6 | Dr7
| SysEnterCs | SysEnterIp | SysEnterSp
| Flags1 | Flags2 | Riz.

#[export] Instance GpReg_eq_dec : EqDecision GpReg.
Proof. solve_decision. Defined.

(** [GpReg::VARIANTS], in the order of the declaration. *)
Definition GpReg_variants : list GpReg :=
  [Ax; Cx; Dx; Bx; Sp; Bp; Si; Di; Es; EsBase; EsAr; EsLimit; Cs; CsBase; CsAr;
   CsLimit; Ss; SsBase; SsAr; SsLimit; Ds; DsBase; DsAr; DsLimit; Fs; FsBase;
   FsAr; FsLimit; Gs; GsBase; GsAr; GsLimit; Ip; Cr0; Cr2; Cr3; Cr4; GdtBase;
   GdtLimit; IdtBase; IdtLimit; Ldt; LdtBase; LdtLimit; Iopl; Cpl; Tr; TrBase;
   TrLimit; Dr0; Dr1; Dr2; Dr3; Dr6; Dr7; SysEnterCs; SysEnterIp; SysEnterSp;
   Flags1; Flags2; Riz].

Definition GpReg_count : nat := length GpReg_variants.

(** [NumberedRegister::as_num] is the discriminant: the position of the
    variant. *)
Fixpoint position_of (r : GpReg) (l : list GpReg) : nat :=
  match l with
  | [] => 0
  | x :: l => if decide (x = r) then 0 else S (position_of r l)
  end.
Definition as_num (r : GpReg) : nat := position_of r GpReg_variants.
Definition from_num (n : nat) : option GpReg := GpReg_variants !! n.

Inductive X87Reg : Type :=
| MmIsValid | DataPointer | DataSelector | InstructionPointer
| InstructionSelector | LastInstructionOpcode | Top | ConditionCodes
| ExceptionFlags | ExceptionMasks | RoundingControlReg | PrecisionControl
| InfinityControl
| Mm (n : Z).

#[export] Instance X87Reg_eq_dec : EqDecision X87Reg.
Proof. solve_decision. Defined.

Inductive Reg : Type := Gp (r : GpReg) | X87 (r : X87Reg).

#[export] Instance Reg_eq_dec : EqDecision Reg.
Proof. solve_decision. Defined.

Definition is_pc (r : Reg) : bool := bool_decide (r = Gp Ip).
Definition gp_is_zero (r : GpReg) : bool := bool_decide (r = Riz).
Definition gp_is_flags (r : GpReg) : bool := bool_decide (r = Flags1) || bool_decide (r = Flags2).

Definition gp_mask (r : GpReg) : option Z :=
  if gp_is_flags r then Some 0x0101010101010101
  else if bool_decide (r = Iopl) then Some 0x3 else None.

Definition x87_mask (r : X87Reg) : option Z :=
  match r with
  | ExceptionFlags => Some 0x0101010101010101
  | ExceptionMasks => Some 0x010101010101
  | ConditionCodes => Some 0x01010101
  | _ => None
  end.

Definition reg_mask (r : Reg) : option Z :=
  match r with Gp r => gp_mask r | X87 r => x87_mask r end.

Definition gp_byte_size (r : GpReg) : Z :=
  match r with
  | Flags1 | Flags2 | CsAr | DsAr | EsAr | SsAr | FsAr | GsAr => 8
  | _ => 4
  end.

Definition x87_byte_size (r : X87Reg) : Z :=
  match r with
  | Top | RoundingControlReg | PrecisionControl | InfinityControl => 1
  | DataSelector | InstructionSelector => 2
  | ConditionCodes => 4
  | MmIsValid => 8
  | DataPointer | InstructionPointer | LastInstructionOpcode => 4
  | ExceptionFlags | ExceptionMasks => 8
  | Mm _ => 16
  end.

Definition byte_size (r : Reg) : Z :=
  match r with Gp r => gp_byte_size r | X87 r => x87_byte_size r end.

(** [GpReg::related_segment_regs]: base, limit and access rights of a segment
    selector register; a panic for the other registers. *)
Definition related_segment_regs (r : GpReg) : option (GpReg * GpReg * GpReg) :=
  match r with
  | Cs => Some (CsBase, CsLimit, CsAr)
  | Ds => Some (DsBase, DsLimit, DsAr)
  | Es => Some (EsBase, EsLimit, EsAr)
  | Ss => Some (SsBase, SsLimit, SsAr)
  | Fs => Some (FsBase, FsLimit, FsAr)
  | Gs => Some (GsBase, GsLimit, GsAr)
  | _ => None
  end.

Definition is_segment_base (r : GpReg) : bool :=
  match r with
  | CsBase | DsBase | EsBase | SsBase | FsBase | GsBase => true
  | _ => false
  end.

(** The flags, in the order of their discriminants. *)
Inductive Flag : Type :=
| Cf | Pf | Af | Zf | Sf | Df | Of | If
| Nt | Tf | Rf | Vm | Ac | Vif | Vip | IdFlag.

Definition flag_num (f : Flag) : Z :=
  match f with
  | Cf => 0 | Pf => 1 | Af => 2 | Zf => 3 | Sf => 4 | Df => 5 | Of => 6 | If => 7
  | Nt => 8 | Tf => 9 | Rf => 10 | Vm => 11 | Ac => 12 | Vif => 13 | Vip => 14
  | IdFlag => 15
  end.

(** ** The CPU state *)

Record X87State := {
  mm : list Z;                       (* [u128; 8] *)
  top : Z;
  condition_codes : Z;
  mm_is_valid : Z;
  data_pointer : Z;
  data_selector : Z;
  instruction_pointer : Z;
  instruction_selector : Z;
  last_instruction_opcode : Z;
  exception_flags : Z;
  exception_masks : Z;
  rounding_control : Z;
  precision_control : Z;
  infinity_control : Z;
}.

Record State := {
  regs : list Z;                     (* [u64; GpReg::COUNT] *)
  x87 : X87State;
}.

Definition X87State_default : X87State :=
  {| mm := replicate 8 0; top := 0; condition_codes := 0; mm_is_valid := 0;
     data_pointer := 0; data_selector := 0; instruction_pointer := 0;
     instruction_selector := 0; last_instruction_opcode := 0;
     exception_flags := 0; exception_masks := 0; rounding_control := 0;
     precision_control := 0; infinity_control := 0 |}.
Definition State_default : State :=
  {| regs := replicate GpReg_count 0; x87 := X87State_default |}.

(** Array lengths of a state are those of the Rust types. *)
Definition wf_state (s : State) : Prop :=
  length (regs s) = GpReg_count /\ length (mm (x87 s)) = 8%nat.

Inductive Value : Type := Num (n : Z) | Bytes (b : list Z).

Definition unwrap_num (v : Value) : option Z :=
  match v with Num n => Some n | Bytes _ => None end.

(** An update of a [MutValue]: what it does to a number and what it does to a
    byte string. *)
Record Update := {
  upd_num : Z -> option Z;
  upd_bytes : list Z -> option (list Z);
}.

Definition gpreg (s : State) (r : GpReg) : Z :=
  if gp_is_zero r then 0 else regs s !!! as_num r.

Definition with_regs (s : State) (l : list Z) : State := {| regs := l; x87 := x87 s |}.
Definition set_gpreg (s : State) (r : GpReg) (v : Z) : State :=
  if gp_is_zero r then s else with_regs s (<[as_num r := v]> (regs s)).

Definition reg (s : State) (r : Reg) : option Value :=
  let x := x87 s in
  match r with
  | Gp r => Some (Num (gpreg s r))
  | X87 Top => Some (Num (top x))
  | X87 (Mm n) => v ← arr_get (mm x) n; Some (Bytes (to_le_bytes 16 v))
  | X87 ConditionCodes => Some (Num (condition_codes x))
  | X87 ExceptionMasks => Some (Num (exception_masks x))
  | X87 ExceptionFlags => Some (Num (exception_flags x))
  | X87 DataPointer => Some (Num (data_pointer x))
  | X87 DataSelector => Some (Num (data_selector x))
  | X87 InstructionPointer => Some (Num (instruction_pointer x))
  | X87 InstructionSelector => Some (Num (instruction_selector x))
  | X87 LastInstructionOpcode => Some (Num (last_instruction_opcode x))
  | X87 RoundingControlReg => Some (Num (rounding_control x))
  | X87 PrecisionControl => Some (Num (precision_control x))
  | X87 InfinityControl => Some (Num (infinity_control x))
  | X87 MmIsValid => Some (Num (mm_is_valid x))
  end.

(** The x87 state with one numeric register replaced; the narrow ones keep
    the low bits of the value. *)
Definition set_x87_num (x : X87State) (r : X87Reg) (v : Z) : X87State :=
  let build mm top cc valid dp ds fip fis op ef em rc pc ic :=
    {| mm := mm; top := top; condition_codes := cc; mm_is_valid := valid;
       data_pointer := dp; data_selector := ds; instruction_pointer := fip;
       instruction_selector := fis; last_instruction_opcode := op;
       exception_flags := ef; exception_masks := em; rounding_control := rc;
       precision_control := pc; infinity_control := ic |} in
  let pick r' new old := if bool_decide (r = r') then new else old in
  build (mm x) (pick Top (wrap 8 v) (top x))
    (pick ConditionCodes (wrap 32 v) (condition_codes x))
    (pick MmIsValid v (mm_is_valid x))
    (pick DataPointer v (data_pointer x))
    (pick DataSelector v (data_selector x))
    (pick InstructionPointer v (instruction_pointer x))
    (pick InstructionSelector v (instruction_selector x))
    (pick LastInstructionOpcode v (last_instruction_opcode x))
    (pick ExceptionFlags v (exception_flags x))
    (pick ExceptionMasks v (exception_masks x))
    (pick RoundingControlReg (wrap 8 v) (rounding_control x))
    (pick PrecisionControl (wrap 8 v) (precision_control x))
    (pick InfinityControl (wrap 8 v) (infinity_control x)).

Definition set_mm (x : X87State) (l : list Z) : X87State :=
  {| mm := l; top := top x; condition_codes := condition_codes x;
     mm_is_valid := mm_is_valid x; data_pointer := data_pointer x;
     data_selector := data_selector x; instruction_pointer := instruction_pointer x;
     instruction_selector := instruction_selector x;
     last_instruction_opcode := last_instruction_opcode x;
     exception_flags := exception_flags x; exception_masks := exception_masks x;
     rounding_control := rounding_control x; precision_control := precision_control x;
     infinity_control := infinity_control x |}.

Definition with_x87 (s : State) (x : X87State) : State := {| regs := regs s; x87 := x |}.

Definition modify_reg (s : State) (r : Reg) (update : Update) : option State :=
  match r with
  | Gp r => v ← upd_num update (gpreg s r); Some (set_gpreg s r v)
  | X87 (Mm n) =>
      old ← arr_get (mm (x87 s)) n;
      b ← upd_bytes update (to_le_bytes 16 old);
      l ← arr_set (mm (x87 s)) n (from_le_bytes b);
      Some (with_x87 s (set_mm (x87 s) l))
  | X87 r =>
      v ← (reg s (X87 r) ≫= unwrap_num);
      v ← upd_num update v;
      Some (with_x87 s (set_x87_num (x87 s) r v))
  end.

Definition flag_reg (f : Flag) : nat := as_num Flags1 + Z.to_nat (flag_num f / 8).
Definition get_flag (s : State) (f : Flag) : bool :=
  negb (field (8 * (Z.land (flag_num f) 7)) 8 (regs s !!! flag_reg f) =? 0).
Definition set_flag (s : State) (f : Flag) (value : bool) : State :=
  with_regs s (alter (set_field (8 * (Z.land (flag_num f) 7)) 8 (b2z value))
    (flag_reg f) (regs s)).

Definition is_userspace (s : State) : bool := negb (gpreg s Cpl =? 0).

(** ** Lemmas *)

Lemma as_num_lookup r : GpReg_variants !! as_num r = Some r.
Proof. by destruct r. Qed.

Lemma as_num_lt r : (as_num r < GpReg_count)%nat.
Proof. eapply lookup_lt_Some, as_num_lookup. Qed.

Lemma from_as_num r : from_num (as_num r) = Some r.
Proof. apply as_num_lookup. Qed.

Lemma as_num_inj r r' : as_num r = as_num r' -> r = r'.
Proof. intros H. pose proof (as_num_lookup r) as E. rewrite H, as_num_lookup in E. by inv E. Qed.

Lemma gpreg_set s r r' v :
  wf_state s -> gpreg (set_gpreg s r v) r' =
    if decide (r = r') then if gp_is_zero r then 0 else v else gpreg s r'.
Proof.
  intros [Hl _]. unfold gpreg, set_gpreg.
  destruct (gp_is_zero r) eqn:Ez.
  { destruct (decide (r = r')) as [->|]; [by rewrite Ez|done]. }
  simpl. destruct (decide (r = r')) as [->|Hne].
  - rewrite Ez. apply list_lookup_total_insert_eq. rewrite Hl. apply as_num_lt.
  - destruct (gp_is_zero r'); [done|].
    apply list_lookup_total_insert_ne. intros E. by apply as_num_inj in E.
Qed.

Lemma wf_set_gpreg s r v : wf_state s -> wf_state (set_gpreg s r v).
Proof.
  intros [Hl Hm]. unfold set_gpreg. destruct (gp_is_zero r); [done|].
  split; simpl; [|done]. by rewrite length_insert.
Qed.

Lemma wf_modify_reg s r u s' : wf_state s -> modify_reg s r u = Some s' -> wf_state s'.
Proof.
  intros Hwf H. destruct r as [r|r]; simpl in H.
  { inv_opt. by apply wf_set_gpreg. }
  destruct r; simpl in H; inv_opt; destruct Hwf as [Hl Hm]; try by split.
  apply arr_set_Some in E1 as [_ ->]. split; [done|]. simpl. by rewrite length_insert.
Qed.

(** Modifying a register leaves the others as they are. *)
Lemma gpreg_set_other s r r' v : r <> r' -> gpreg (set_gpreg s r v) r' = gpreg s r'.
Proof.
  intros Hne. unfold gpreg, set_gpreg. destruct (gp_is_zero r'); [done|].
  destruct (gp_is_zero r); [done|]. simpl. apply list_lookup_total_insert_ne.
  intros E. by apply as_num_inj in E.
Qed.

Lemma reg_with_regs s l r : reg (with_regs s l) (X87 r) = reg s (X87 r).
Proof. by destruct r. Qed.

Lemma modify_reg_other s s' r r' u :
  modify_reg s r u = Some s' -> r <> r' -> reg s' r' = reg s r'.
Proof.
  intros H Hne. destruct r as [r|r].
  - simpl in H. inv_opt. destruct r' as [r'|r'].
    + simpl. by rewrite gpreg_set_other by congruence.
    + unfold set_gpreg. case_match; [done|]. apply reg_with_regs.
  - destruct r' as [r'|r']; [by destruct r; simpl in H; inv_opt|].
    destruct r; simpl in H; inv_opt; destruct r'; simpl; try done; try congruence.
    match goal with E : arr_set _ _ _ = Some _ |- _ => rewrite (arr_get_set _ _ _ _ _ E) end.
    case_match; [|done]. exfalso. apply Hne. do 2 f_equal. lia.
Qed.

(** [reg] reads what [modify_reg] wrote, up to the width of the register's
    storage, and no other register changes. *)
Definition storage_bits (r : Reg) : Z :=
  match r with
  | X87 (Top | RoundingControlReg | PrecisionControl | InfinityControl) => 8
  | X87 ConditionCodes => 32
  | _ => 64
  end.

(** Registers read back what was written to them, a write to one leaves every
    other one unchanged, and the zero register reads as zero. *)
Theorem modify_reg_spec (s s' : State) (r r' : Reg) (v : Z) :
  wf_state s ->
  inw 64 v ->
  modify_reg s r {| upd_num := fun _ => Some v; upd_bytes := fun _ => None |} = Some s' ->
  reg s' r' =
    if decide (r = r')
    then Some (Num (if decide (r = Gp Riz) then 0 else wrap (storage_bits r) v))
    else reg s r'.
Proof.
  intros Hwf Hv H. destruct r as [r|r]; simpl in H.
  - inv_opt. destruct r' as [r'|r'].
    + simpl. rewrite gpreg_set by done. rewrite (wrap_small 64) by done.
      destruct (decide (r = r')) as [->|Hne].
      * rewrite (decide_True (P := Gp r' = Gp r')) by done.
        unfold gp_is_zero. by case_bool_decide; case_decide; simplify_eq.
      * by rewrite (decide_False (P := Gp r = Gp r')) by congruence.
    + rewrite decide_False by done. unfold set_gpreg.
      by destruct (gp_is_zero r).
  - destruct r; simpl in H; inv_opt;
      (destruct (decide _) as [<-|Hne] in |- *;
       [simpl; by rewrite ?(wrap_small 64) by done
       |destruct r' as [r'|[]]; simpl; try done; congruence]).
Qed.

Lemma modify_reg_spec_witness : exists s',
  modify_reg State_default (X87 Top)
    {| upd_num := fun _ => Some 0x1ff; upd_bytes := fun _ => None |} = Some s'
  /\ reg s' (X87 Top) = Some (Num 0xff).
Proof.
  eexists. split; [reflexivity|].
  refine (eq_trans (modify_reg_spec State_default _ (X87 Top) (X87 Top) 0x1ff _ _ eq_refl) _).
  - split; reflexivity.
  - split; [lia|reflexivity].
  - vm_compute. reflexivity.
Defined.

Lemma all_flags_lt f : 0 <= flag_num f < 16.
Proof. destruct f; simpl; lia. Qed.

Lemma flag_fields_disjoint f f' :
  flag_reg f = flag_reg f' -> flag_num f <> flag_num f' ->
  let off f := 8 * Z.land (flag_num f) 7 in
  off f + 8 <= off f' \/ off f' + 8 <= off f.
Proof.
  intros E Hne off. unfold off. change 7 with (Z.ones 3).
  rewrite !Z.land_ones by lia. change (2 ^ 3) with 8.
  pose proof (all_flags_lt f). pose proof (all_flags_lt f').
  assert (flag_num f / 8 = flag_num f' / 8).
  { unfold flag_reg in E. apply Z2Nat.inj; [apply Z.div_pos; lia..|lia]. }
  Z.to_euclidean_division_equations. lia.
Qed.

Lemma flag_reg_cases f : flag_reg f = as_num Flags1 \/ flag_reg f = as_num Flags2.
Proof. destruct f; (by left) || (by right). Qed.

Lemma flag_offset_nonneg f : 0 <= 8 * Z.land (flag_num f) 7.
Proof. by destruct f. Qed.

(** A flag reads back as it was set, and setting a flag leaves every other
    flag and every other register unchanged. *)
Theorem flag_set_spec (s : State) (f f' : Flag) (b : bool) (r : GpReg) :
  wf_state s ->
  get_flag (set_flag s f b) f' = (if decide (flag_num f = flag_num f') then b else get_flag s f')
  /\ (gp_is_flags r = false -> gpreg (set_flag s f b) r = gpreg s r).
Proof.
  intros [Hl _]. split.
  - unfold get_flag, set_flag. cbn [regs with_regs].
    assert (forall g, (flag_reg g < length (regs s))%nat) as Hlt.
    { intros g. rewrite Hl. destruct g; vm_compute; lia. }
    destruct (decide (flag_reg f = flag_reg f')) as [E|E].
    + rewrite <- E.
      destruct (lookup_lt_is_Some_2 _ _ (Hlt f)) as [x Hx].
      rewrite (list_lookup_total_alt (alter _ _ _)), list_lookup_alter, decide_True by done.
      rewrite Hx.
      rewrite (list_lookup_total_correct _ _ _ Hx). simpl.
      destruct (decide (flag_num f = flag_num f')) as [E'|E'].
      * rewrite E', field_set_field_same; [by destruct b|apply flag_offset_nonneg|done].
      * rewrite field_set_field_other; [done|apply flag_offset_nonneg..|done|done|by apply flag_fields_disjoint].
    + rewrite (list_lookup_total_alt (alter _ _ _)), list_lookup_alter_ne by done.
      rewrite <- list_lookup_total_alt.
      rewrite decide_False; [done|]. intros E'. apply E. unfold flag_reg. by rewrite E'.
  - intros Hr. unfold gpreg, set_flag. destruct (gp_is_zero r); [done|].
    cbn [regs with_regs]. rewrite !list_lookup_total_alt, list_lookup_alter_ne; [done|].
    destruct (flag_reg_cases f) as [-> | ->]; intros E%as_num_inj; by subst r.
Qed.

Lemma flag_set_spec_witness :
  get_flag (set_flag State_default Zf true) Zf = true.
Proof. refine (proj1 (flag_set_spec State_default Zf Zf true Ax _)). split; reflexivity. Defined.
