(* ===== verification/Packing.v ===== *)
(** * Packed part values

    [sem86-core/src/il/part_values.rs]: the values of the parts of an
    instruction encoding (immediates, register numbers), packed in one
    128-bit word, and the structure that says where each part lives. *)
From S2P Require Import Prelude.

Record PackedPart := { offset : Z; len : Z }.

(** [ArrayVec<PackedPart, 8>]: collecting more than eight parts panics. *)
Definition PackingStructure := list PackedPart.
Definition MAX_PARTS : nat := 8.

Definition packing_new (parts : list PackedPart) : option PackingStructure :=
  assert (Nat.leb (length parts) MAX_PARTS);; Some parts.

Fixpoint parts_from (off : Z) (sizes : list Z) : list PackedPart :=
  match sizes with
  | [] => []
  | n :: sizes => {| offset := wrap 8 off; len := wrap 8 n |} :: parts_from (off + n) sizes
  end.

Definition from_part_sizes (sizes : list Z) : option PackingStructure :=
  packing_new (parts_from 0 sizes).

(** [PartValues::get]: the index, the shift by [offset] and the mask may
    panic. *)
Definition part_get (pv : Z) (ps : PackingStructure) (index : Z) : option Z :=
  part ← arr_get ps index;
  assert (offset part <? 128);;
  m ← bitmask_u64 (len part);
  Some (Z.land (wrap 64 (Z.shiftr pv (offset part))) m).

Definition unpack_parts (pv : Z) (ps : PackingStructure) : option (list Z) :=
  mapM (part_get pv ps) (seqZ 0 (Z.of_nat (length ps))).

(** [PackingStructure::pack]: the shifted values, or-ed together. *)
Definition shift_part (x : PackedPart * Z) : option Z :=
  assert (offset x.1 <? 128);; Some (wrap 128 (Z.shiftl x.2 (offset x.1))).

Definition reduce_or (l : list Z) : option Z :=
  match l with [] => None | x :: l => Some (fold_left Z.lor l x) end.

Definition pack (ps : PackingStructure) (parts : list Z) : option Z :=
  l ← mapM shift_part (zip ps parts);
  Some (default 0 (reduce_or l)).

(** [bits_used]: the sum is computed in [u8]. *)
Definition bits_used (ps : PackingStructure) : option Z :=
  match list.last ps with
  | None => Some 0
  | Some p => assert (offset p + len p <? 256);; Some (offset p + len p)
  end.

(** ** Specification

    [sum_sizes] bits hold the parts one after the other. *)
Definition sum_sizes (sizes : list Z) : Z := fold_right Z.add 0 sizes.

(** Parts of at most 64 bits whose values fit. *)
Definition fits (sizes vals : list Z) : Prop :=
  Forall2 (fun n v => 0 <= n <= 64 /\ inw n v) sizes vals.

Lemma sum_sizes_nonneg sizes vals : fits sizes vals -> 0 <= sum_sizes sizes.
Proof. induction 1; simpl; [done|]. lia. Qed.

Lemma reduce_or_fold l : default 0 (reduce_or l) = fold_right Z.lor 0 l.
Proof.
  destruct l as [|x l]; [done|]. simpl. revert x.
  induction l as [|y l IH]; intros x; simpl; [by rewrite Z.lor_0_r|].
  by rewrite IH, Z.lor_assoc.
Qed.

Lemma parts_from_length off sizes : length (parts_from off sizes) = length sizes.
Proof. revert off. induction sizes; intros off; simpl; [done|]. by rewrite IHsizes. Qed.

(** The packed word of the parts from bit [off] on. *)
Fixpoint packed_from (off : Z) (sizes vals : list Z) : Z :=
  match sizes, vals with
  | n :: sizes, v :: vals => Z.lor (Z.shiftl v off) (packed_from (off + n) sizes vals)
  | _, _ => 0
  end.

Lemma packed_from_low off sizes vals i :
  fits sizes vals -> 0 <= off -> i < off -> Z.testbit (packed_from off sizes vals) i = false.
Proof.
  intros H. revert off. induction H as [|n v sizes vals [Hn Hv] H IH];
    intros off Hoff Hi; simpl; [by rewrite Z.bits_0|].
  rewrite Z.lor_spec, testbit_shiftl, IH by lia.
  by destruct (Z.leb_spec off i); [lia|].
Qed.

Lemma shift_part_eq off n v :
  0 <= off < 128 ->
  shift_part ({| offset := wrap 8 off; len := n |}, v) = Some (wrap 128 (Z.shiftl v off)).
Proof.
  intros. unfold shift_part. simpl. rewrite (wrap_small 8 off) by (unfold inw; lia).
  by rewrite (proj2 (Z.ltb_lt off 128)) by lia.
Qed.

Lemma pack_from_eq off sizes vals :
  fits sizes vals -> 0 <= off -> off + sum_sizes sizes <= 128 ->
  Forall (fun n => 0 < n) sizes ->
  exists l, mapM shift_part (zip (parts_from off sizes) vals) = Some l
    /\ fold_right Z.lor 0 l = packed_from off sizes vals.
Proof.
  intros H. revert off. induction H as [|n v sizes vals [Hn Hv] H IH];
    intros off Hoff Hsum Hpos; simpl in *; [by exists []|].
  inv Hpos.
  pose proof (sum_sizes_nonneg _ _ H).
  destruct (IH (off + n)) as (l & El & Hl); [lia..|done|].
  rewrite shift_part_eq by lia. simpl. rewrite El. simpl. eexists. split; [done|]. simpl.
  rewrite Hl. f_equal. bitblast.
Qed.

Lemma part_get_packed off low sizes vals i :
  fits sizes vals -> 0 <= off -> off + sum_sizes sizes <= 128 -> inw off low ->
  Forall (fun n => 0 < n) sizes ->
  (i < length sizes)%nat ->
  part_get (Z.lor low (packed_from off sizes vals)) (parts_from off sizes) (Z.of_nat i)
    = vals !! i.
Proof.
  intros H. revert off low i. induction H as [|n v sizes vals [Hn Hv] H IH];
    intros off low i Hoff Hsum Hlow Hpos Hi; simpl in Hi, Hsum; [lia|].
  inv Hpos.
  pose proof (sum_sizes_nonneg _ _ H).
  destruct i as [|i].
  - unfold part_get. simpl. rewrite (wrap_small 8 off), (wrap_small 8 n) by (unfold inw; lia).
    rewrite (proj2 (Z.ltb_lt off 128)) by lia. simpl.
    unfold bitmask_u64.
    destruct (Z.ltb_spec n 0), (Z.ltb_spec 64 n); simpl; try lia. f_equal.
    pose proof (fun i => packed_from_low (off + n) sizes vals i H) as Hhigh.
    apply Z.bits_inj'. intros k Hk. autorewrite with zbits.
    destruct (Z.ltb_spec k n).
    + rewrite Hhigh by lia. rewrite (testbit_above off low) by (done || lia).
      split_compares. rewrite orb_false_r. bits_finish.
    + rewrite (testbit_above n v k) by (done || lia). split_compares; btauto.
  - specialize (IH (off + n) (Z.lor low (Z.shiftl v off)) i).
    rewrite <- Z.lor_assoc in IH. simpl in *. rewrite <- IH; [|lia|lia| |done|lia].
    + unfold part_get. f_equal. unfold arr_get.
      destruct (Z.ltb_spec (Z.of_nat (S i)) 0); [lia|].
      destruct (Z.ltb_spec (Z.of_nat i) 0); [lia|]. rewrite !Nat2Z.id. done.
    + apply inw_testbit; [lia| |].
      * apply Z.lor_nonneg. split; [apply Hlow|]. apply Z.shiftl_nonneg, Hv.
      * intros k Hk. rewrite Z.lor_spec, testbit_shiftl by lia.
        rewrite (testbit_above off low), (testbit_above n v) by (done || lia).
        by rewrite andb_false_r.
Qed.

(** Packing the values of the parts of an encoding and unpacking them gives
    the values back: for up to eight non-empty parts of at most 64 bits that
    fit in 128 bits, neither operation panics. *)
Theorem pack_unpack (sizes vals : list Z) :
  (length sizes <= MAX_PARTS)%nat ->
  Forall (fun n => 0 < n) sizes ->
  sum_sizes sizes <= 128 ->
  fits sizes vals ->
  (ps ← from_part_sizes sizes; pv ← pack ps vals; unpack_parts pv ps) = Some vals.
Proof.
  intros Hlen Hpos Hsum Hfits. unfold from_part_sizes, packing_new.
  rewrite parts_from_length, (proj2 (Nat.leb_le _ _)) by done. simpl.
  unfold pack. destruct (pack_from_eq 0 sizes vals) as (l & -> & Hl); try done.
  simpl. rewrite reduce_or_fold, Hl. unfold unpack_parts.
  rewrite parts_from_length. apply mapM_Some.
  assert (length vals = length sizes) as Hv by (symmetry; by eapply Forall2_length).
  apply Forall2_same_length_lookup_2.
  { rewrite length_seqZ, Hv. lia. }
  intros i x y Hx Hy. apply lookup_seqZ in Hx as [-> Hi]. simpl.
  assert (i < length sizes)%nat by lia.
  rewrite <- (Z.lor_0_l (packed_from _ _ _)). by rewrite part_get_packed.
Qed.

Lemma pack_unpack_witness :
  (ps ← from_part_sizes [3; 8; 32]; pv ← pack ps [5; 0xab; 0xdeadbeef];
   unpack_parts pv ps) = Some [5; 0xab; 0xdeadbeef].
Proof.
  apply (pack_unpack [3; 8; 32] [5; 0xab; 0xdeadbeef]).
  - vm_compute. lia.
  - repeat constructor.
  - vm_compute. discriminate.
  - repeat constructor; vm_compute; congruence.
Defined.
