(* ===== verification/Address.v ===== *)
(** * Address computations

    [AddressComputation] of
    [liblisa/src/encoding/dataflows/address_computation.rs]: the address of a
    memory operand is a base plus an offset of a limited width, both sums of
    inputs that are cropped, shifted right and multiplied. *)
From S2P Require Import Prelude.

Inductive AddrSize : Type := Addr16 | Addr20 | Addr32 | Addr64.

Module AddrSize.
Definition num_bits (s : AddrSize) : Z :=
  match s with Addr16 => 16 | Addr20 => 20 | Addr32 => 32 | Addr64 => 64 end.
Definition bitmask (s : AddrSize) : Z :=
  match s with
  | Addr16 => 0xffff | Addr20 => 0xfffff | Addr32 => 0xffffffff | Addr64 => 0xffffffffffffffff
  end.
Definition apply (s : AddrSize) (addr : Z) : Z := Z.land addr (bitmask s).
End AddrSize.

(** In the order of the derived [PartialOrd]. *)
Inductive AddrTermSize : Type := U8 | I16 | U16 | I32 | U32 | U64.
#[export] Instance AddrTermSize_eq_dec : EqDecision AddrTermSize.
Proof. solve_decision. Defined.

Module AddrTermSize.
Definition rank (s : AddrTermSize) : Z :=
  match s with U8 => 0 | I16 => 1 | U16 => 2 | I32 => 3 | U32 => 4 | U64 => 5 end.
Definition gt (a b : AddrTermSize) : bool := rank b <? rank a.
Definition from (s : AddrSize) : AddrTermSize :=
  match s with Addr16 => U16 | Addr20 | Addr32 => U32 | Addr64 => U64 end.
Definition apply (s : AddrTermSize) (val : Z) : Z :=
  match s with
  | U64 => val
  | U8 => wrap 8 val
  | U16 => wrap 16 val
  | U32 => wrap 32 val
  | I16 => wrap 64 (signed 16 val)
  | I32 => wrap 64 (signed 32 val)
  end.
Definition is_signed (s : AddrTermSize) : bool := match s with I16 | I32 => true | _ => false end.
Definition max_bit_influence (s : AddrTermSize) : Z :=
  match s with U8 => 8 | U16 | I16 => 16 | U32 | I32 => 32 | U64 => 64 end.
End AddrTermSize.

Record AddrTermShift := { right : Z; mult : Z }.   (* [u8], [u16] *)

(** [((val as i64 >> right).wrapping_mul(mult as i64)) as u64]; a shift by 64
    or more panics. *)
Definition shift_apply (s : AddrTermShift) (val : Z) : option Z :=
  assert (right s <? 64);; Some (wrap 64 (Z.shiftr (signed 64 val) (right s) * mult s)).

Record AddrTermCalculation := { term_shift : AddrTermShift; term_size : AddrTermSize }.
Definition calculation_apply (c : AddrTermCalculation) (val : Z) : option Z :=
  shift_apply (term_shift c) (AddrTermSize.apply (term_size c) val).

Record AddrTerm := { primary : AddrTermCalculation; second_use : option AddrTermCalculation }.
Definition term_apply (t : AddrTerm) (val : Z) : option Z :=
  x ← calculation_apply (primary t) val;
  y ← (match second_use t with Some c => calculation_apply c val | None => Some 0 end);
  Some (wrap 64 (x + y)).

Record AddressComputation := {
  addr_offset : Z;                   (* [i64] *)
  terms : list AddrTerm;
  addr_size : AddrSize;
}.

(** The loop of [evaluate_from_iter]: terms wider than the address belong to
    the base. *)
Fixpoint sum_inputs (size : AddrSize) (inputs : list Z) (terms : list AddrTerm) (sum base : Z)
    : option (Z * Z) :=
  match inputs, terms with
  | v :: inputs, term :: terms =>
      x ← term_apply term v;
      if AddrTermSize.gt (term_size (primary term)) (AddrTermSize.from size)
      then sum_inputs size inputs terms sum (wrap 64 (base + x))
      else sum_inputs size inputs terms (wrap 64 (sum + x)) base
  | _, _ => Some (sum, base)
  end.

Definition evaluate_from_iter (c : AddressComputation) (inputs : list Z) : option Z :=
  '(sum, base) ← sum_inputs (addr_size c) inputs (terms c) 0 0;
  let offset := AddrSize.apply (addr_size c) (wrap 64 (sum + wrap 64 (addr_offset c))) in
  Some (AddrSize.apply Addr64 (wrap 64 (base + offset))).
