(* ===== verification/IlLoc.v ===== *)
(** * Locations and values of the intermediate language

    Byte ranges ([Size] of [liblisa/src/state/locs.rs]), parameterised
    locations ([liblisa/src/encoding/locs.rs]), part mappings
    ([liblisa/src/encoding/bitpattern/mod.rs]), and from
    [sem86-core/src/il/mod.rs] the state an instruction runs on
    ([EfficientSystemState]) and the operands [Val]. *)
From S2P Require Import Prelude IlOps Arch Packing Address.

(** ** Byte ranges *)

Record Size := { start_byte : Z; end_byte : Z }.

#[export] Instance Size_eq_dec : EqDecision Size.
Proof. solve_decision. Defined.

Definition size_new (s e : Z) : Size := {| start_byte := wrap 16 s; end_byte := wrap 16 e |}.
Definition size_qword : Size := {| start_byte := 0; end_byte := 7 |}.
Definition size_union (a b : Size) : Size :=
  {| start_byte := Z.min (start_byte a) (start_byte b);
     end_byte := Z.max (end_byte a) (end_byte b) |}.
Definition size_contains (a b : Size) : bool :=
  (start_byte a <=? start_byte b) && (end_byte b <=? end_byte a).
Definition size_overlaps (a b : Size) : bool :=
  (start_byte b <=? end_byte a) && (start_byte a <=? end_byte b).

(** [num_bytes]: the subtraction is in [u16]. *)
Definition num_bytes (s : Size) : option Z :=
  assert (start_byte s <=? end_byte s);; Some (end_byte s - start_byte s + 1).

(** ** Parameterised locations *)

Inductive UnsizedParLoc : Type :=
| LReg (r : Reg)
| LMem (index : Z)
| LPart (index : Z)
| LInstrLen
| LConst (v : Z).

#[export] Instance UnsizedParLoc_eq_dec : EqDecision UnsizedParLoc.
Proof. solve_decision. Defined.

Record ParLoc := { loc : UnsizedParLoc; size : Size }.

#[export] Instance ParLoc_eq_dec : EqDecision ParLoc.
Proof. solve_decision. Defined.

(** ** Part mappings *)

Inductive ImmBitOrder : Type := Positive (bit : Z) | Negative (bit : Z).

Definition as_offset (b : ImmBitOrder) (source_bit : Z) : Z :=
  match b with
  | Positive n => wshl 64 source_bit (wrap 32 n)
  | Negative n => wrap 64 (unot 64 (wshl 64 source_bit (wrap 32 n)) + 1)
  end.

Inductive MappingOrBitOrder : Type :=
| Mapping (vals : list bool)            (* [PartValue::Valid] is [true] *)
| BitOrder (order : list ImmBitOrder).

Fixpoint bit_order_sum (order : list ImmBitOrder) (index part_val acc : Z) : Z :=
  match order with
  | [] => acc
  | b :: order =>
      bit_order_sum order (index + 1) part_val
        (wrap 64 (acc + as_offset b (Z.land (Z.shiftr part_val index) 1)))
  end.

(** [MappingOrBitOrder::compute]: the outer option is a panic (an index out of
    range, or a shift by 64 or more), the inner one the function's result. *)
Definition mapping_compute (m : MappingOrBitOrder) (part_val : Z) : option (option Z) :=
  match m with
  | Mapping vals =>
      valid ← arr_get vals part_val; Some (if valid : bool then Some part_val else None)
  | BitOrder order =>
      assert (Z.of_nat (length order) <=? 64);;
      Some (Some (bit_order_sum order 0 part_val 0))
  end.

(** The mapping of a part.  Of [ImmBits] only whether it is there matters. *)
Inductive PartMapping : Type :=
| Imm (mapping : option MappingOrBitOrder) (bits : bool)
| MemoryComputation (mapping : list (option AddressComputation))
| Register (mapping : list (option Reg)).

(** ** The state of an executing instruction *)

Record SysState := {
  instr_len : Z;                     (* [instr.byte_len()] *)
  cpu : State;
  mem : list Z;                      (* [ArrayVec<u128, 16>] *)
  part_values : Z;
  part_packing : PackingStructure;
  parts : list PartMapping;
}.

Definition with_cpu (s : SysState) (c : State) : SysState :=
  {| instr_len := instr_len s; cpu := c; mem := mem s; part_values := part_values s;
     part_packing := part_packing s; parts := parts s |}.
Definition with_mem (s : SysState) (m : list Z) : SysState :=
  {| instr_len := instr_len s; cpu := cpu s; mem := m; part_values := part_values s;
     part_packing := part_packing s; parts := parts s |}.

(** [mapping[part_value].unwrap()] *)
Definition part_register (s : SysState) (mapping : list (option Reg)) (part_index : Z)
    : option Reg :=
  v ← part_get (part_values s) (part_packing s) part_index;
  r ← arr_get mapping v; r.

Definition get_dest (s : SysState) (dest : ParLoc) (apply_bitorder : bool) : option Z :=
  n ← num_bytes (size dest);
  mask ← bitmask_u128 (n * 8);
  val ← match loc dest with
        | LInstrLen => Some (instr_len s)
        | LConst value => Some value
        | LPart part_index =>
            p ← arr_get (parts s) part_index;
            match p with
            | Register mapping =>
                r ← part_register s mapping part_index;
                reg (cpu s) r ≫= unwrap_num
            | Imm mapping bits =>
                assert (negb bits);;
                v ← part_get (part_values s) (part_packing s) part_index;
                match apply_bitorder, mapping with
                | true, Some m => r ← mapping_compute m v; r
                | _, _ => Some v
                end
            | MemoryComputation _ => None
            end
        | LReg r => reg (cpu s) r ≫= unwrap_num
        | LMem index => arr_get (mem s) index
        end;
  assert (start_byte (size dest) * 8 <? 128);;
  Some (Z.land (Z.shiftr val (start_byte (size dest) * 8)) mask).

Definition resolve_loc (s : SysState) (input : ParLoc) : option ParLoc :=
  match loc input with
  | LPart part_index =>
      p ← arr_get (parts s) part_index;
      match p with
      | Register mapping =>
          r ← part_register s mapping part_index;
          Some {| loc := LReg r; size := size input |}
      | Imm _ _ =>
          v ← part_get (part_values s) (part_packing s) part_index;
          Some {| loc := LConst v; size := size input |}
      | MemoryComputation _ => None
      end
  | _ => Some input
  end.

(** [&mut bytes[start..=end]] of a 16-byte value: the slice is updated in
    place; a range that does not fit panics. *)
Definition modify_slice (sz : Size) (f : list Z -> option (list Z)) (b : list Z)
    : option (list Z) :=
  let st := start_byte sz in
  let en := end_byte sz + 1 in
  assert ((st <=? en) && (en <=? Z.of_nat (length b)));;
  mid ← f (take (Z.to_nat (en - st)) (drop (Z.to_nat st) b));
  Some (take (Z.to_nat st) b ++ mid ++ drop (Z.to_nat en) b).

(** The update [modify_dest] applies to a numeric register. *)
Definition modify_num (sz : Size) (f : Z -> option Z) (current : Z) : option Z :=
  n ← num_bytes sz;
  unshifted_mask ← bitmask_u64 (Z.min (n * 8) 64);
  let sh := start_byte sz * 8 in
  assert (sh <? 64);;
  let mask := wrap 64 (Z.shiftl unshifted_mask sh) in
  val ← f (Z.land (Z.shiftr current sh) unshifted_mask);
  Some (Z.lor (Z.land current (unot 64 mask))
          (wrap 64 (Z.shiftl (Z.land val unshifted_mask) sh))).

Definition modify_dest (s : SysState) (dest : ParLoc) (modify : Update) : option SysState :=
  d ← resolve_loc s dest;
  match loc d with
  | LReg r =>
      c ← modify_reg (cpu s) r
            {| upd_num := modify_num (size dest) (upd_num modify);
               upd_bytes := modify_slice (size dest) (upd_bytes modify) |};
      Some (with_cpu s c)
  | LMem index =>
      old ← arr_get (mem s) index;
      b ← modify_slice (size dest) (upd_bytes modify) (to_le_bytes 16 old);
      m ← arr_set (mem s) index (from_le_bytes b);
      Some (with_mem s m)
  | LConst _ | LInstrLen | LPart _ => None
  end.

(** ** Operands *)

Inductive Val : Type :=
| VTemp (n : Z)
| VLoc (l : ParLoc)
| VConv (l : ParLoc) (source_bits target_bits : Z) (sign_extend swap_endianness : bool).

#[export] Instance Val_eq_dec : EqDecision Val.
Proof. solve_decision. Defined.

Definition const_val (v : Z) : Val := VLoc {| loc := LConst v; size := size_qword |}.

Definition val_loc (v : Val) : option ParLoc :=
  match v with
  | VTemp _ => None
  | VLoc l | VConv l _ _ _ _ => Some l
  end.

Definition as_const (v : Val) : option Z :=
  l ← val_loc v; match loc l with LConst c => Some c | _ => None end.

(** [Val::sign_extend]: [None] is the final [panic!]. *)
Definition val_sign_extend (v : Val) (source_bits target_bits : Z) : option Val :=
  match v with
  | VLoc l => Some (VConv l source_bits target_bits true false)
  | VConv l x _ sign swap =>
      if negb swap && (source_bits <=? x) then Some (VConv l source_bits target_bits true false)
      else if x =? source_bits then Some (VConv l source_bits target_bits true swap)
      else if sign && (x <=? source_bits) then Some (VConv l x target_bits true swap)
      else None
  | VTemp _ => None
  end.

Definition val_map_locs (f : ParLoc -> option ParLoc) (v : Val) : option Val :=
  match v with
  | VTemp n => Some (VTemp n)
  | VLoc l => l ← f l; Some (VLoc l)
  | VConv l sb tb se sw => l ← f l; Some (VConv l sb tb se sw)
  end.

Definition val_accesses_mem (v : Val) (index : Z) : bool :=
  match v with
  | VTemp _ => false
  | VLoc l | VConv l _ _ _ _ => bool_decide (loc l = LMem index)
  end.

Definition val_eval (tmp : list Z) (s : SysState) (v : Val) : option Z :=
  match v with
  | VTemp n => arr_get tmp n
  | VLoc dest => get_dest s dest false
  | VConv dest source_bits target_bits sign_extend swap_endianness =>
      v ← get_dest s dest false;
      apply_conversion v source_bits sign_extend swap_endianness target_bits
  end.

(** What [Val::write] does to a number and to a byte string. *)
Definition store_bytes (result : Z) (b : list Z) : list Z :=
  imap (fun n _ => wrap 8 (Z.shiftr result (Z.of_nat n * 8))) b.
Definition store_update (result : Z) : Update :=
  {| upd_num := fun _ => Some (wrap 64 result);
     upd_bytes := fun b => Some (store_bytes result b) |}.

Definition val_write (tmp : list Z) (s : SysState) (v : Val) (result : Z)
    : option (list Z * SysState) :=
  match v with
  | VTemp n => t ← arr_set tmp n result; Some (t, s)
  | VLoc dest => s ← modify_dest s dest (store_update result); Some (tmp, s)
  | VConv _ _ _ _ _ => None
  end.

(** ** Reading back what was written *)

(** A byte range of a [w]-byte location. *)
Definition in_range (w : Z) (sz : Size) : Prop :=
  0 <= start_byte sz <= end_byte sz /\ end_byte sz < w.
Definition bit_off (sz : Size) : Z := 8 * start_byte sz.
Definition bit_len (sz : Size) : Z := 8 * (end_byte sz - start_byte sz + 1).

Lemma num_bytes_in_range w sz :
  in_range w sz -> num_bytes sz = Some (end_byte sz - start_byte sz + 1).
Proof.
  intros [H _]. unfold num_bytes. by rewrite (proj2 (Z.leb_le _ _)) by lia.
Qed.

Lemma modify_num_field sz v current :
  in_range 8 sz -> inw 64 current ->
  modify_num sz (fun _ => Some v) current = Some (set_field (bit_off sz) (bit_len sz) v current).
Proof.
  intros Hr Hc. pose proof Hr as [H1 H2]. unfold modify_num.
  rewrite (num_bytes_in_range 8) by done. cbn [mbind option_bind].
  unfold bit_off, bit_len. set (n := end_byte sz - start_byte sz + 1).
  assert (1 <= n <= 8) by (unfold n; lia).
  rewrite Z.min_l by lia. unfold bitmask_u64.
  zbool. cbn [orb assert mbind option_bind]. f_equal.
  rewrite (Z.mul_comm n), (Z.mul_comm (start_byte sz)).
  assert (8 * start_byte sz + 8 * n <= 64) by (unfold n; lia).
  clearbody n. bitblast.
Qed.

Lemma store_bytes_le x b : store_bytes x b = to_le_bytes (length b) x.
Proof.
  unfold store_bytes. revert x. induction b as [|y b IH]; intros x; [done|].
  cbn [imap length]. rewrite to_le_bytes_S, <- IH. f_equal.
  apply imap_ext. intros i z _. simpl. rewrite Z.shiftr_shiftr by lia. do 2 f_equal. lia.
Qed.

Lemma modify_slice_field sz v x :
  in_range 16 sz -> inw 128 x ->
  from_le_bytes <$> modify_slice sz (upd_bytes (store_update v)) (to_le_bytes 16 x)
  = Some (set_field (bit_off sz) (bit_len sz) v x).
Proof.
  intros [H1 H2] Hx. unfold modify_slice. rewrite length_to_le_bytes.
  zbool. cbn [assert andb mbind option_bind].
  cbn [upd_bytes store_update mbind option_bind]. rewrite store_bytes_le.
  rewrite length_take, length_drop, length_to_le_bytes.
  replace (Z.to_nat (end_byte sz + 1 - start_byte sz) `min` (16 - Z.to_nat (start_byte sz)))%nat
    with (Z.to_nat (end_byte sz + 1) - Z.to_nat (start_byte sz))%nat by lia.
  cbn [mbind option_bind fmap option_fmap option_map].
  rewrite from_le_bytes_splice by (done || lia).
  unfold bit_off, bit_len. do 2 f_equal; lia.
Qed.

(** The storage a destination resolves to: a general register other than the
    zero register, or a memory operand, holding a value of its width. *)
Inductive stored (s : SysState) (dest : ParLoc) : Z -> Z -> Prop :=
| stored_reg r d :
    resolve_loc s dest = Some d -> loc d = LReg (Gp r) -> r <> Riz ->
    wf_state (cpu s) -> inw 64 (gpreg (cpu s) r) -> stored s dest 8 (gpreg (cpu s) r)
| stored_mem i x :
    loc dest = LMem i -> arr_get (mem s) i = Some x -> inw 128 x -> stored s dest 16 x.

Lemma get_dest_stored s dest w x sz :
  stored s dest w x -> in_range w sz ->
  get_dest s {| loc := loc dest; size := sz |} false = Some (field (bit_off sz) (bit_len sz) x).
Proof.
  intros Hs Hr. assert (w <= 16) by (destruct Hs; lia). pose proof Hr as [H1 H2].
  unfold get_dest. cbn [size loc]. rewrite (num_bytes_in_range w) by done.
  cbn [mbind option_bind]. unfold bitmask_u128.
  zbool. cbn [orb assert mbind option_bind].
  assert (forall v : option Z, v = Some x ->
    (val ← v; Some (Z.land (Z.shiftr val (start_byte sz * 8))
       (Z.ones ((end_byte sz - start_byte sz + 1) * 8)))) = Some (field (bit_off sz) (bit_len sz) x)) as Hf.
  { intros v ->. simpl. unfold field, bit_off, bit_len. do 2 f_equal; f_equal; lia. }
  apply Hf. destruct Hs as [r d Hd Hl _ _ _|i x Hl Hg _].
  - unfold resolve_loc in Hd. destruct (loc dest) as [r'|j|p| |k] eqn:El.
    + injection Hd as <-. rewrite El in Hl. by simplify_eq.
    + injection Hd as <-. by rewrite El in Hl.
    + destruct (arr_get (parts s) p) as [m|]; [|done]. simpl in *.
      destruct m as [m b| |mapping]; inv_opt; try done. simpl in Hl. by simplify_eq.
    + injection Hd as <-. by rewrite El in Hl.
    + injection Hd as <-. by rewrite El in Hl.
  - by rewrite Hl.
Qed.

(** A write to a location that is there does not panic and replaces the bytes
    of its range. *)
Lemma write_stored s dest w x tmp v :
  stored s dest w x -> in_range w (size dest) ->
  exists s', val_write tmp s (VLoc dest) v = Some (tmp, s')
    /\ stored s' dest w (set_field (bit_off (size dest)) (bit_len (size dest)) (wrap (8 * w) v) x).
Proof.
  intros Hs Hr. destruct Hs as [r d Hd Hl Hz Hwf Hx|i x Hl Hg Hx].
  - unfold val_write, modify_dest. rewrite Hd. cbn [mbind option_bind]. rewrite Hl.
    cbn [modify_reg upd_num store_update]. rewrite modify_num_field by done. simpl.
    eexists. split; [done|]. set (u := set_field _ _ _ _).
    assert (gpreg (set_gpreg (cpu s) r u) r = u) as E.
    { rewrite gpreg_set, decide_True by done. unfold gp_is_zero. by case_bool_decide. }
    pose proof (stored_reg (with_cpu s (set_gpreg (cpu s) r u)) dest r d) as Hs.
    cbn [cpu with_cpu] in Hs. rewrite E in Hs. apply Hs.
    + rewrite <- Hd. unfold resolve_loc, part_register. done.
    + done.
    + done.
    + by apply wf_set_gpreg.
    + destruct Hr. apply set_field_inw; unfold bit_off, bit_len; (done || lia).
  - unfold val_write, modify_dest, resolve_loc. rewrite Hl. cbn [mbind option_bind].
    rewrite Hl, Hg. cbn [mbind option_bind].
    pose proof (modify_slice_field (size dest) v x Hr Hx) as Em.
    destruct (modify_slice _ _ _) as [b|]; [|done]. simpl in *. injection Em as Em.
    apply arr_get_spec in Hg as [Hi Hg]. pose proof (lookup_lt_Some _ _ _ Hg).
    rewrite arr_set_spec by lia. simpl. eexists. split; [done|].
    apply (stored_mem _ _ i); simpl; [done| |].
    + apply arr_get_spec. split; [done|]. rewrite list_lookup_insert_eq by done.
      rewrite Em. f_equal. destruct Hr as [H1 H2]. unfold bit_off, bit_len. bitblast.
    + destruct Hr. apply set_field_inw; unfold bit_off, bit_len; (done || lia).
Qed.


Definition ex_loc_state : SysState :=
  {| instr_len := 3; cpu := set_gpreg State_default Bx 0x11223344; mem := [];
     part_values := 3; part_packing := [{| offset := 0; len := 3 |}];
     parts := [Register (Some <$> [Gp Ax; Gp Cx; Gp Dx; Gp Bx])] |}.
Definition ex_part_dest : ParLoc := {| loc := LPart 0; size := size_new 1 1 |}.

