(* ===== verification/MemArea.v ===== *)
(** * Memory areas

    [MemArea] of [sem86-core/src/il/mod.rs]: the bytes an instruction accesses,
    in real mode (a 16-bit offset that wraps inside its segment) and in
    protected mode, with the reads and writes of an area through the memory.

    The memory ([Mem32] and its MMIO handler) is reached through the interface
    [Memory]; [PlainMemory] is what ordinary memory promises about it. *)
From S2P Require Import Prelude Exceptions.

Open Scope comp_scope.

(** [mem.read::<T>] and [mem.write::<T>] for the unsigned type of [n] bytes. *)
Class Memory (W : Type) := {
  mem_read (n addr : Z) (userspace : bool) : comp W Exception Z;
  mem_write (n addr : Z) (userspace : bool) (val : Z) : comp W Exception unit;
}.

Inductive MemArea : Type :=
| Real (segment_offset addr len : Z)
| Protected (addr len : Z).

Definition area_len (m : MemArea) : Z :=
  match m with Real _ _ len | Protected _ len => len end.

(** [len - 1] is computed in [u8]. *)
Definition area_wraps (m : MemArea) : option bool :=
  match m with
  | Real _ addr len => assert (1 <=? len);; Some (2 ^ 16 <=? addr + (len - 1))
  | Protected _ _ => Some false
  end.

Definition start_addr (m : MemArea) : Z :=
  match m with
  | Real segment_offset addr _ => wrap 64 (addr + segment_offset)
  | Protected addr _ => addr
  end.

Definition iter_addrs (m : MemArea) : list Z :=
  match m with
  | Real segment_offset addr len =>
      (fun n => wrap 32 (wrap 64 (wrap 16 (addr + n) + segment_offset))) <$> seqZ 0 len
  | Protected addr len => (fun n => wrap 32 (addr + n)) <$> seqZ 0 len
  end.

(** [start_addr().as_u64() as u32 + n]: the addition may overflow. *)
Definition start_plus (m : MemArea) (n : Z) : option Z :=
  let a := wrap 32 (start_addr m) + n in assert (a <? 2 ^ 32);; Some a.

Section access.
Context {W : Type} `{Memory W}.

Definition read_from_mem (m : MemArea) (userspace : bool) : comp W Exception (list Z) :=
  cmap (fun addr => mem_read 1 addr userspace) (iter_addrs m).

(** The two halves of a 6- or 10-byte access. *)
Definition read_split (m : MemArea) (userspace : bool) (n1 n2 : Z) : comp W Exception Z :=
  lo <-! mem_read n1 (wrap 32 (start_addr m)) userspace;;
  a <-! clift (start_plus m n1);;
  hi <-! mem_read n2 a userspace;;
  cret (Z.lor lo (Z.shiftl hi (8 * n1))).

(** [result |= byte << (index * 8)] for each byte: the shift of the
    [bits]-bit value panics when it is too large. *)
Fixpoint or_bytes (bits : Z) (userspace : bool) (index : Z) (addrs : list Z) (acc : Z)
    : comp W Exception Z :=
  match addrs with
  | [] => cret acc
  | addr :: addrs =>
      b <-! mem_read 1 addr userspace;;
      _ <-! clift (assert (index * 8 <? bits));;
      or_bytes bits userspace (index + 1) addrs
        (Z.lor acc (wrap bits (Z.shiftl b (index * 8))))
  end.

Definition read_wrapping (bits : Z) (m : MemArea) (userspace : bool) : comp W Exception Z :=
  or_bytes bits userspace 0 (iter_addrs m) 0.

Definition read_from_mem_as_u64 (m : MemArea) (userspace : bool) : comp W Exception Z :=
  w <-! clift (area_wraps m);;
  if w : bool then read_wrapping 64 m userspace
  else
    let a := wrap 32 (start_addr m) in
    match area_len m with
    | 1 => mem_read 1 a userspace
    | 2 => mem_read 2 a userspace
    | 4 => mem_read 4 a userspace
    | 6 => read_split m userspace 4 2
    | 8 => mem_read 8 a userspace
    | _ => cpanic
    end.

Definition read_from_mem_as_u128 (m : MemArea) (userspace : bool) : comp W Exception Z :=
  w <-! clift (area_wraps m);;
  if w : bool then read_wrapping 128 m userspace
  else
    let a := wrap 32 (start_addr m) in
    match area_len m with
    | 1 => mem_read 1 a userspace
    | 2 => mem_read 2 a userspace
    | 4 => mem_read 4 a userspace
    | 6 => read_split m userspace 4 2
    | 8 => mem_read 8 a userspace
    | 10 => read_split m userspace 8 2
    | _ => cpanic
    end.

(** The byte-by-byte writes of a wrapping area; the shift of the [bits]-bit
    value panics when it is too large. *)
Definition write_byte (bits : Z) (userspace : bool) (val : Z) (x : Z * Z) : comp W Exception unit :=
  _ <-! clift (assert (x.1 * 8 <? bits));;
  mem_write 1 x.2 userspace (wrap 8 (Z.shiftr val (x.1 * 8))).

Definition enumerate (l : list Z) : list (Z * Z) :=
  zip (seqZ 0 (Z.of_nat (length l))) l.

Definition write_wrapping (bits : Z) (m : MemArea) (userspace : bool) (val : Z)
    : comp W Exception unit :=
  citer (write_byte bits userspace val) (enumerate (iter_addrs m)).

Definition write_split (m : MemArea) (userspace : bool) (n1 n2 val : Z) : comp W Exception unit :=
  mem_write n1 (wrap 32 (start_addr m)) userspace (wrap (8 * n1) val) >>!
  a <-! clift (start_plus m n1);;
  mem_write n2 a userspace (wrap (8 * n2) (Z.shiftr val (8 * n1))).

Definition write_u64_to_mem (m : MemArea) (userspace : bool) (val : Z) : comp W Exception unit :=
  w <-! clift (area_wraps m);;
  if w : bool then write_wrapping 64 m userspace val
  else
    let a := wrap 32 (start_addr m) in
    match area_len m with
    | 1 => mem_write 1 a userspace (wrap 8 val)
    | 2 => mem_write 2 a userspace (wrap 16 val)
    | 4 => mem_write 4 a userspace (wrap 32 val)
    | 6 => write_split m userspace 4 2 val
    | 8 => mem_write 8 a userspace val
    | _ => cpanic
    end.

Definition write_u128_to_mem (m : MemArea) (userspace : bool) (val : Z) : comp W Exception unit :=
  w <-! clift (area_wraps m);;
  if w : bool then write_wrapping 128 m userspace val
  else
    let a := wrap 32 (start_addr m) in
    match area_len m with
    | 1 => mem_write 1 a userspace (wrap 8 val)
    | 2 => mem_write 2 a userspace (wrap 16 val)
    | 4 => mem_write 4 a userspace (wrap 32 val)
    | 6 => write_split m userspace 4 2 val
    | 8 => mem_write 8 a userspace (wrap 64 val)
    | 10 => write_split m userspace 8 2 val
    | _ => cpanic
    end.
End access.

(** ** Plain memory

    What ordinary memory promises: an access of [n] bytes reads or writes the
    [n] little-endian bytes at the addresses from [addr] on. *)
Definition byte_addrs (addr n : Z) : list Z := (fun i => wrap 32 (addr + i)) <$> seqZ 0 n.

Class PlainMemory (W : Type) `{Memory W} := {
  peek : W -> Z -> Z;
  peek_inw w a : inw 8 (peek w a);
  read_plain n addr us w : 1 <= n <= 8 ->
    mem_read n addr us w = Some (Ok (from_le_bytes (peek w <$> byte_addrs addr n)), w);
  write_plain n addr us v w : 1 <= n <= 8 ->
    exists w', mem_write n addr us v w = Some (Ok tt, w')
      /\ (forall a, a ∉ byte_addrs addr n -> peek w' a = peek w a)
      /\ peek w' <$> byte_addrs addr n = to_le_bytes (Z.to_nat n) v;
}.

(** Areas whose accesses do not panic: at most [bits] wide, of a length the
    code handles when it does not wrap, and whose second half does not start
    past the end of the address space. *)
Definition area_ok (bits : Z) (m : MemArea) : bool :=
  (match m with
   | Real seg addr len => (0 <=? seg) && (seg <? 2 ^ 32) && (0 <=? addr) && (addr <? 2 ^ 16)
   | Protected addr len => (0 <=? addr) && (addr <? 2 ^ 32)
   end) &&
  match area_wraps m with
  | None => false
  | Some true => area_len m * 8 <=? bits
  | Some false =>
      match area_len m with
      | 1 | 2 | 4 | 8 => true
      | 6 => wrap 32 (start_addr m) + 4 <? 2 ^ 32
      | 10 => (wrap 32 (start_addr m) + 8 <? 2 ^ 32) && (80 <=? bits)
      | _ => false
      end
  end.

(** The lengths of an area that does not wrap. *)
Variant straight_len (m : MemArea) : Prop :=
| Len1 (_ : area_len m = 1)
| Len2 (_ : area_len m = 2)
| Len4 (_ : area_len m = 4)
| Len8 (_ : area_len m = 8)
| Len6 (_ : area_len m = 6 /\ wrap 32 (start_addr m) + 4 < 2 ^ 32)
| Len10 (_ : area_len m = 10 /\ wrap 32 (start_addr m) + 8 < 2 ^ 32).

Lemma area_len_cases bits m :
  area_ok bits m = true -> area_wraps m = Some false -> straight_len m.
Proof.
  intros [_ Hok]%andb_prop Hw. rewrite Hw in Hok. revert Hok.
  repeat (case_match; try done); intros Hok;
    rewrite ?andb_true_iff, ?Z.ltb_lt in *; destruct_and?;
    first [by apply Len1|by apply Len2|by apply Len4|by apply Len8|by apply Len6|by apply Len10].
Qed.

Lemma byte_addrs_app a n1 n2 :
  0 <= n1 -> 0 <= n2 -> byte_addrs a (n1 + n2) = byte_addrs a n1 ++ byte_addrs (a + n1) n2.
Proof.
  intros. unfold byte_addrs. rewrite seqZ_app, fmap_app by lia. f_equal.
  rewrite Z.add_0_l, <- (Z.add_0_r n1) at 1. rewrite <- fmap_add_seqZ, <- list_fmap_compose.
  apply list_fmap_ext. intros i x _. simpl. f_equal. lia.
Qed.

Lemma byte_addrs_length a n : length (byte_addrs a n) = Z.to_nat n.
Proof. unfold byte_addrs. by rewrite length_fmap, length_seqZ. Qed.

Lemma wrap_32_64 x : wrap 32 (wrap 64 x) = wrap 32 x.
Proof. by apply wrap_wrap_le. Qed.

Lemma wrap_inj w x y : 0 <= w -> wrap w x = wrap w y -> - 2 ^ w < x - y < 2 ^ w -> x = y.
Proof.
  intros Hw E Hd. unfold wrap in E.
  pose proof (Z.pow_pos_nonneg 2 w ltac:(lia) Hw).
  assert ((x - y) mod 2 ^ w = 0) as E0.
  { rewrite Zminus_mod, E, Z.sub_diag. done. }
  apply Z.mod_divide in E0 as [k Hk]; [|lia].
  destruct (Z.lt_trichotomy k 0) as [Hk0|[->|Hk0]]; [|lia|]; nia.
Qed.

Lemma iter_addrs_length m : length (iter_addrs m) = Z.to_nat (area_len m).
Proof. destruct m; simpl; by rewrite length_fmap, length_seqZ. Qed.

(** An area that does not wrap consists of the bytes from its start on. *)
Lemma iter_addrs_straight bits m :
  area_ok bits m = true -> area_wraps m = Some false ->
  iter_addrs m = byte_addrs (wrap 32 (start_addr m)) (area_len m).
Proof.
  intros Hok Hw. destruct m as [seg addr len|addr len]; cbn [iter_addrs start_addr area_len].
  - apply andb_prop in Hok as [Hok _]. rewrite !andb_true_iff in Hok. simpl in Hw.
    destruct (Z.leb_spec 1 len); [|done]. simpl in Hw. injection Hw as Hw.
    apply Z.leb_gt in Hw.
    apply list_fmap_ext. intros i x [-> Hi]%lookup_seqZ.
    rewrite !wrap_32_64, wrap_add_l by lia.
    rewrite (wrap_small 16) by (unfold inw; lia). f_equal. lia.
  - apply list_fmap_ext. intros i x _. by rewrite wrap_add_l by lia.
Qed.

Lemma iter_addrs_NoDup m : area_len m <= 16 -> NoDup (iter_addrs m).
Proof.
  intros Hlen. destruct m as [seg addr len|addr len]; simpl in *;
    apply NoDup_fmap_2_strong; try apply NoDup_seqZ; intros x y Hx%elem_of_seqZ Hy%elem_of_seqZ E.
  - rewrite !wrap_32_64 in E. apply wrap_inj in E; [|lia|].
    + assert (wrap 16 (addr + x) = wrap 16 (addr + y)) as E' by lia.
      apply wrap_inj in E'; lia.
    + pose proof (wrap_inw 16 (addr + x)). pose proof (wrap_inw 16 (addr + y)).
      unfold inw in *. lia.
  - apply wrap_inj in E; lia.
Qed.

Section plain.
Context {W : Type} `{PlainMemory W}.

Definition peek_word (w : W) (addrs : list Z) : Z := from_le_bytes (peek w <$> addrs).

Lemma peek_word_app w a b :
  peek_word w (a ++ b) = Z.lor (peek_word w a) (Z.shiftl (peek_word w b) (8 * Z.of_nat (length a))).
Proof. unfold peek_word. by rewrite fmap_app, from_le_bytes_app, length_fmap. Qed.

Lemma peek_word_inw w l : inw (8 * Z.of_nat (length l)) (peek_word w l).
Proof.
  unfold peek_word. rewrite <- (length_fmap (peek w) l). apply from_le_bytes_inw.
  apply Forall_fmap, Forall_true. intros a. apply peek_inw.
Qed.

Lemma read_byte a us w : inw 32 a -> mem_read 1 a us w = Some (Ok (peek w a), w).
Proof.
  intros Ha. rewrite read_plain by lia. unfold byte_addrs. simpl.
  rewrite Z.add_0_r, wrap_small by done. by rewrite Z.shiftl_0_l, Z.lor_0_r.
Qed.

Lemma or_bytes_plain bits us addrs w index acc :
  Forall (inw 32) addrs -> 0 <= index -> (index + Z.of_nat (length addrs)) * 8 <= bits ->
  or_bytes bits us index addrs acc w
    = Some (Ok (Z.lor acc (Z.shiftl (peek_word w addrs) (index * 8))), w).
Proof.
  intros Ha. revert index acc. induction Ha as [|a addrs Ha Has IH]; intros index acc Hi Hb.
  - simpl. unfold peek_word, cret. simpl. by rewrite Z.shiftl_0_l, Z.lor_0_r.
  - cbn [or_bytes length] in *. unfold cbind at 1. rewrite read_byte by done.
    unfold cbind, clift, assert. rewrite (proj2 (Z.ltb_lt _ _)) by lia.
    rewrite IH by lia. do 3 f_equal. rewrite <- Z.lor_assoc. f_equal.
    change (a :: addrs) with ([a] ++ addrs). rewrite peek_word_app.
    pose proof (peek_inw w a) as Hp. unfold peek_word at 2. simpl.
    rewrite Z.shiftl_0_l, Z.lor_0_r. bitblast.
Qed.

Lemma iter_addrs_inw m : Forall (inw 32) (iter_addrs m).
Proof. destruct m; simpl; apply Forall_fmap, Forall_true; intros; by apply wrap_inw. Qed.

Lemma read_split_plain m us n1 n2 w :
  1 <= n1 <= 8 -> 1 <= n2 <= 8 -> wrap 32 (start_addr m) + n1 < 2 ^ 32 ->
  read_split m us n1 n2 w
    = Some (Ok (peek_word w (byte_addrs (wrap 32 (start_addr m)) (n1 + n2))), w).
Proof.
  intros. unfold read_split, cbind at 1. rewrite read_plain by done.
  unfold cbind, clift, start_plus, assert. rewrite (proj2 (Z.ltb_lt _ _)) by lia. simpl.
  rewrite read_plain by done. unfold cret. rewrite byte_addrs_app by lia.
  fold (peek_word w (byte_addrs (wrap 32 (start_addr m) + n1) n2)).
  fold (peek_word w (byte_addrs (wrap 32 (start_addr m)) n1)).
  rewrite peek_word_app, byte_addrs_length, Z2Nat.id by lia. done.
Qed.

(** In plain memory, reading an area as a number never fails and never
    changes the memory, and gives the little-endian number of the bytes at the
    addresses that [iter_addrs] lists, whether the area wraps around its
    segment or is read with wide accesses. *)
Theorem read_u128_is_bytes (m : MemArea) (us : bool) (w : W) :
  area_ok 128 m = true ->
  read_from_mem_as_u128 m us w = Some (Ok (peek_word w (iter_addrs m)), w).
Proof.
  intros Hok. pose proof (iter_addrs_straight 128 m Hok) as Hs.
  pose proof (area_len_cases 128 m Hok) as Hc.
  unfold read_from_mem_as_u128, cbind at 1, clift at 1.
  apply andb_prop in Hok as [_ Hok].
  destruct (area_wraps m) as [[]|] eqn:Ew; [| |done].
  - unfold read_wrapping. rewrite or_bytes_plain; [|apply iter_addrs_inw|lia|].
    + by rewrite Z.mul_0_l, Z.shiftl_0_r, Z.lor_0_l.
    + rewrite iter_addrs_length. apply Z.leb_le in Hok. destruct (area_len m); simpl in *; lia.
  - rewrite Hs by done. clear Hs.
    destruct (Hc eq_refl) as [E|E|E|E|[E Hs]|[E Hs]]; rewrite !E;
      rewrite ?read_plain by done; rewrite ?read_split_plain by (done || apply Hs); done.
Qed.

(** After a run, the bytes at [addrs] are those of [v] and no other byte of
    the memory has changed. *)
Definition wrote (w w' : W) (addrs : list Z) (v : Z) : Prop :=
  (forall a, a ∉ addrs -> peek w' a = peek w a)
  /\ peek w' <$> addrs = to_le_bytes (length addrs) v.

Lemma wrote_app w1 w2 w3 l1 l2 v :
  NoDup (l1 ++ l2) -> wrote w1 w2 l1 v ->
  wrote w2 w3 l2 (Z.shiftr v (8 * Z.of_nat (length l1))) -> wrote w1 w3 (l1 ++ l2) v.
Proof.
  intros (_ & Hd & _)%list.NoDup_app [F1 V1] [F2 V2]. split.
  - intros a Ha. rewrite not_elem_of_app in Ha. by rewrite F2, F1 by apply Ha.
  - rewrite fmap_app, V2.
    assert (peek w3 <$> l1 = peek w2 <$> l1) as ->.
    { apply list_fmap_ext. intros i x Hx. apply F2, Hd. by eapply list_elem_of_lookup_2. }
    rewrite V1, length_app.
    rewrite <- (take_to_le_bytes (length l1) (length l1 + length l2)) by lia.
    replace (length l2) with (length l1 + length l2 - length l1)%nat at 2 by lia.
    rewrite <- drop_to_le_bytes by lia. apply take_drop.
Qed.

Lemma write_byte_plain bits us v i a w :
  inw 32 a -> i * 8 < bits ->
  exists w', write_byte bits us v (i, a) w = Some (Ok tt, w')
    /\ wrote w w' [a] (Z.shiftr v (i * 8)).
Proof.
  intros Ha Hi.
  destruct (write_plain 1 a us (wrap 8 (Z.shiftr v (i * 8))) w) as (w' & E & F & V); [lia|].
  assert (byte_addrs a 1 = [a]) as Eb.
  { unfold byte_addrs. simpl. by rewrite Z.add_0_r, wrap_small. }
  rewrite Eb in *. exists w'. split; [|split; [done|]].
  - unfold write_byte, cbind, clift, assert. simpl. by rewrite (proj2 (Z.ltb_lt _ _)).
  - rewrite V. change (length [a]) with 1%nat. change (Z.to_nat 1) with 1%nat.
    rewrite !to_le_bytes_S. by rewrite wrap_wrap.
Qed.

Lemma write_bytes_plain bits us v addrs w i :
  Forall (inw 32) addrs -> NoDup addrs -> 0 <= i ->
  (i + Z.of_nat (length addrs)) * 8 <= bits ->
  exists w', citer (write_byte bits us v) (zip (seqZ i (Z.of_nat (length addrs))) addrs) w
      = Some (Ok tt, w')
    /\ wrote w w' addrs (Z.shiftr v (i * 8)).
Proof.
  intros Ha. revert w i. induction Ha as [|a addrs Ha Has IH]; intros w i Hnd Hi Hb.
  - exists w. repeat split.
  - cbn [length] in *. rewrite seqZ_cons by lia. cbn [zip zip_with citer].
    destruct (write_byte_plain bits us v i a w) as (w1 & E1 & W1); [done|lia|].
    destruct (IH w1 (Z.succ i)) as (w2 & E2 & W2); [by inv Hnd|lia|lia|].
    replace (Z.pred (Z.of_nat (S (length addrs)))) with (Z.of_nat (length addrs)) by lia.
    exists w2. split; [unfold cbind; by rewrite E1|].
    apply (wrote_app _ _ _ [a] addrs _ Hnd W1). simpl.
    rewrite Z.shiftr_shiftr by lia. by replace (i * 8 + _) with (Z.succ i * 8) by lia.
Qed.

Lemma write_plain_wrap n a us v w :
  1 <= n <= 8 -> exists w', mem_write n a us (wrap (8 * n) v) w = Some (Ok tt, w')
    /\ wrote w w' (byte_addrs a n) v.
Proof.
  intros Hn. destruct (write_plain n a us (wrap (8 * n) v) w Hn) as (w' & E & F & V).
  exists w'. split; [done|]. split; [done|]. rewrite V, byte_addrs_length.
  rewrite <- (to_from_le_bytes (to_le_bytes _ v)) by apply to_le_bytes_inw.
  rewrite from_to_le_bytes, length_to_le_bytes. by rewrite Z2Nat.id by lia.
Qed.

Lemma write_split_plain m us n1 n2 v w :
  1 <= n1 <= 8 -> 1 <= n2 <= 8 -> wrap 32 (start_addr m) + n1 < 2 ^ 32 ->
  NoDup (byte_addrs (wrap 32 (start_addr m)) (n1 + n2)) ->
  exists w', write_split m us n1 n2 v w = Some (Ok tt, w')
    /\ wrote w w' (byte_addrs (wrap 32 (start_addr m)) (n1 + n2)) v.
Proof.
  intros H1 H2 Hs Hnd. rewrite byte_addrs_app in * by lia.
  destruct (write_plain_wrap n1 (wrap 32 (start_addr m)) us v w H1) as (w1 & E1 & W1).
  destruct (write_plain_wrap n2 (wrap 32 (start_addr m) + n1) us
              (Z.shiftr v (8 * n1)) w1 H2) as (w2 & E2 & W2).
  exists w2. split.
  - unfold write_split, cbind, clift, start_plus, assert. rewrite E1.
    rewrite (proj2 (Z.ltb_lt _ _)) by lia. simpl. exact E2.
  - eapply wrote_app; [done|done|]. by rewrite byte_addrs_length, Z2Nat.id by lia.
Qed.

(** In plain memory, writing a number to an area never fails, stores the
    little-endian bytes of the number at the addresses that [iter_addrs]
    lists, and changes no other byte. *)
Theorem write_u128_is_bytes (m : MemArea) (us : bool) (v : Z) (w : W) :
  area_ok 128 m = true ->
  exists w', write_u128_to_mem m us v w = Some (Ok tt, w') /\ wrote w w' (iter_addrs m) v.
Proof.
  intros Hok. pose proof (iter_addrs_straight 128 m Hok) as Hs.
  pose proof (area_len_cases 128 m Hok) as Hc.
  unfold write_u128_to_mem, cbind at 1, clift at 1.
  apply andb_prop in Hok as [_ Hok].
  destruct (area_wraps m) as [[]|] eqn:Ew; [| |done].
  - apply Z.leb_le in Hok. unfold write_wrapping, enumerate.
    destruct (write_bytes_plain 128 us v (iter_addrs m) w 0) as (w' & E & Hw).
    + apply iter_addrs_inw.
    + apply iter_addrs_NoDup. lia.
    + lia.
    + rewrite iter_addrs_length. destruct (area_len m); simpl in *; lia.
    + exists w'. by rewrite Z.mul_0_l, Z.shiftr_0_r in Hw.
  - pose proof (iter_addrs_NoDup m) as Hnd. rewrite Hs in * by done. clear Hs.
    destruct (Hc eq_refl) as [E|E|E|E|[E Hs]|[E Hs]]; rewrite !E in *;
      first [by apply (write_plain_wrap 1)|by apply (write_plain_wrap 2)
            |by apply (write_plain_wrap 4)|by apply (write_plain_wrap 8)
            |by apply (write_split_plain m us 4 2); (done || apply Hnd)
            |by apply (write_split_plain m us 8 2); (done || apply Hnd)].
Qed.

(** What was written to an area reads back, cropped to the area's length. *)
Theorem write_read_u128 (m : MemArea) (us us' : bool) (v : Z) (w : W) :
  area_ok 128 m = true ->
  (write_u128_to_mem m us v >>! read_from_mem_as_u128 m us') w
  = (write_u128_to_mem m us v >>! cret (wrap (8 * Z.max 0 (area_len m)) v)) w.
Proof.
  intros Hok. destruct (write_u128_is_bytes m us v w Hok) as (w' & E & _ & V).
  unfold cbind. rewrite E, read_u128_is_bytes by done. unfold peek_word, cret.
  rewrite V, from_to_le_bytes, iter_addrs_length. do 4 f_equal. lia.
Qed.
End plain.

(** ** The flat memory

    A memory that is a function from addresses to bytes keeps the promises. *)
Definition poke (w : Z -> Z) (addr n v : Z) : Z -> Z := fun a =>
  let i := wrap 32 (a - addr) in
  if (0 <=? a) && (a <? 2 ^ 32) && (i <? n) then wrap 8 (Z.shiftr v (8 * i)) else w a.

#[export] Instance flat_memory : Memory (Z -> Z) := {
  mem_read n addr _ w :=
    Some (Ok (from_le_bytes ((fun a => wrap 8 (w a)) <$> byte_addrs addr n)), w);
  mem_write n addr _ v w := Some (Ok tt, poke w addr n v);
}.

Lemma to_le_bytes_seq n x :
  to_le_bytes n x = (fun i => wrap 8 (Z.shiftr x (8 * i))) <$> seqZ 0 (Z.of_nat n).
Proof.
  revert x. induction n as [|n IH]; intros x; [done|].
  rewrite seqZ_cons by lia. rewrite to_le_bytes_S. cbn [fmap list_fmap]. rewrite Z.mul_0_r, Z.shiftr_0_r.
  f_equal. rewrite IH. change (Z.succ 0) with (1 + 0). rewrite <- fmap_add_seqZ.
  rewrite <- list_fmap_compose.
  replace (Z.pred (Z.of_nat (S n))) with (Z.of_nat n) by lia.
  apply list_fmap_ext. intros i k Hk%lookup_seqZ. simpl.
  rewrite Z.shiftr_shiftr by lia. do 2 f_equal. lia.
Qed.

Lemma wrap_sub_add addr i : 0 <= i < 2 ^ 32 -> wrap 32 (wrap 32 (addr + i) - addr) = i.
Proof.
  intros Hi. replace (wrap 32 (addr + i) - addr) with (wrap 32 (addr + i) + - addr) by lia.
  rewrite wrap_add_l by lia. replace (addr + i + - addr) with i by lia. by apply wrap_small.
Qed.

#[export] Program Instance flat_plain : PlainMemory (Z -> Z) :=
  {| peek w a := wrap 8 (w a) |}.
Next Obligation. intros. by apply wrap_inw. Qed.
Next Obligation. done. Qed.
Next Obligation.
  intros n addr us v w Hn. eexists. split; [done|]. split.
  - intros a Ha. f_equal. unfold poke.
    destruct (Z.leb_spec 0 a), (Z.ltb_spec a (2 ^ 32)); try done. simpl.
    destruct (Z.ltb_spec (wrap 32 (a - addr)) n); [|done]. destruct Ha.
    apply list_elem_of_fmap. exists (wrap 32 (a - addr)). split.
    + rewrite Z.add_comm, wrap_add_l by lia. replace (a - addr + addr) with a by lia.
      symmetry. by apply wrap_small.
    + apply elem_of_seqZ. pose proof (wrap_inw 32 (a - addr)). unfold inw in *. lia.
  - rewrite to_le_bytes_seq, Z2Nat.id by lia. unfold byte_addrs.
    rewrite <- list_fmap_compose. apply list_fmap_ext. intros k i [-> Hi]%lookup_seqZ.
    simpl. unfold poke. pose proof (wrap_inw 32 (addr + Z.of_nat k)) as Hw. unfold inw in Hw.
    rewrite (proj2 (Z.leb_le _ _)), (proj2 (Z.ltb_lt _ _)) by lia. simpl.
    rewrite wrap_sub_add by lia. rewrite (proj2 (Z.ltb_lt _ _)) by lia. by apply wrap_wrap.
Qed.

(** A four-byte access at the end of a real-mode segment wraps around. *)
Definition example_area : MemArea := Real 0x12340 0xfffe 4.
Definition example_flat : Z -> Z := fun a => if a =? 0x12341 then 0xab else 0x11.

Lemma read_u128_is_bytes_witness :
  area_wraps example_area = Some true
  /\ read_from_mem_as_u128 example_area false example_flat
     = Some (Ok 0xab111111, example_flat).
Proof.
  split; [reflexivity|].
  rewrite (read_u128_is_bytes example_area false example_flat); reflexivity.
Defined.

Lemma write_u128_is_bytes_witness :
  exists w', write_u128_to_mem example_area false 0x44332211 example_flat = Some (Ok tt, w')
    /\ wrote example_flat w' (iter_addrs example_area) 0x44332211.
Proof. exact (write_u128_is_bytes example_area false 0x44332211 example_flat eq_refl). Defined.

Lemma write_read_u128_witness :
  (write_u128_to_mem example_area false 0x5544332211 >>!
   read_from_mem_as_u128 example_area true) example_flat
  = (write_u128_to_mem example_area false 0x5544332211 >>! cret 0x44332211) example_flat.
Proof. exact (write_read_u128 example_area false true 0x5544332211 example_flat eq_refl). Defined.
