(* ===== verification/IlCmd.v ===== *)
(** * Commands of the intermediate language

    [Op], [Cmd], [Commands] and their [execute] methods, the analyses of
    commands, and [wrap_memory_accesses], from [sem86-core/src/il/mod.rs].

    A run is a computation over a [Config]: the instruction's state, the
    temporaries, and the world outside (memory, ports, descriptor tables)
    reached through the interface [ExecCtx]. *)
From S2P Require Import Prelude Exceptions IlOps Arch Packing IlLoc MemArea.

Open Scope comp_scope.

(** ** Syntax *)

Inductive Op : Type :=
| OBin (a b : Val) (op : BinOp)
| OFpBin (a b rc : Val) (op : FpBinOp)
| OFpUn (arg rc : Val) (op : FpUnOp)
| OUn (arg : Val) (op : UnOp)
| OIte (cond if_nonzero if_zero : Val).

#[warnings="-register-all"]
Inductive Cmd : Type :=
| Store (to : Val) (op : Op)
| StoreDynamicReg (regs : list (option Reg)) (index value : Val) (sz : Size)
| LoadDynamicReg (regs : list (option Reg)) (index into : Val) (sz : Size)
| Log
| Handler (id : HandlerId) (args : list Val)
| CIf (val : Val) (if_zero if_nonzero : list Cmd)
| CException (exception : Exception) (code : Val)
| ReadDescriptor (force : bool) (selector ok base limit access_rights : Val)
    (mark_accessed : bool)
| Out (len : Z) (port data : Val)
| In (len : Z) (port data : Val)
| ReadMemory (index : Z)
| WriteMemory (index : Z).

Definition Commands := list Cmd.

(** Induction on commands with the induction hypothesis for both branches. *)
Section cmd_ind.
Context (P : Cmd -> Prop).
Context (HStore : forall to op, P (Store to op)).
Context (HSDR : forall regs i v sz, P (StoreDynamicReg regs i v sz)).
Context (HLDR : forall regs i v sz, P (LoadDynamicReg regs i v sz)).
Context (HLog : P Log).
Context (HHandler : forall id args, P (Handler id args)).
Context (HIf : forall v z nz, Forall P z -> Forall P nz -> P (CIf v z nz)).
Context (HExc : forall e c, P (CException e c)).
Context (HRD : forall f s o b l a m, P (ReadDescriptor f s o b l a m)).
Context (HOut : forall len p d, P (Out len p d)).
Context (HIn : forall len p d, P (In len p d)).
Context (HRM : forall i, P (ReadMemory i)).
Context (HWM : forall i, P (WriteMemory i)).

Fixpoint Cmd_ind' (c : Cmd) : P c :=
  let fix go (l : list Cmd) : Forall P l :=
    match l with
    | [] => List.Forall_nil P
    | c :: l => List.Forall_cons P c l (Cmd_ind' c) (go l)
    end in
  match c with
  | Store to op => HStore to op
  | StoreDynamicReg r i v sz => HSDR r i v sz
  | LoadDynamicReg r i v sz => HLDR r i v sz
  | Log => HLog
  | Handler id args => HHandler id args
  | CIf v z nz => HIf v z nz (go z) (go nz)
  | CException e c => HExc e c
  | ReadDescriptor f s o b l a m => HRD f s o b l a m
  | Out len p d => HOut len p d
  | In len p d => HIn len p d
  | ReadMemory i => HRM i
  | WriteMemory i => HWM i
  end.

Lemma Commands_ind' (l : Commands) : Forall P l.
Proof. apply Forall_true, Cmd_ind'. Qed.
End cmd_ind.

(** ** The world of an execution *)

Record DescriptorReadResult := {
  d_ok : bool;
  d_base : Z;
  d_limit : Z;
  d_access_rights : Z;
}.

(** [ExecutionContext]: memory, descriptor tables and ports. *)
Class ExecCtx (W : Type) := {
  ctx_memory :: Memory W;
  read_descriptor (cpu : State) (force mark_accessed : bool) (selector : Z) :
    comp W Exception DescriptorReadResult;
  port_out (cpu : State) (port len data : Z) : comp W Exception unit;
  port_in (cpu : State) (port len : Z) : comp W Exception Z;
}.

Record Config (W : Type) := {
  sys : SysState;
  tmp : list Z;                     (* [u128; MAX_TEMP_VARS] *)
  world : W;
}.
Arguments sys {W}. Arguments tmp {W}. Arguments world {W}.

Definition MAX_TEMP_VARS : nat := 256.

Definition with_sys {W} (c : Config W) (s : SysState) : Config W :=
  {| sys := s; tmp := tmp c; world := world c |}.
Definition with_world {W} (c : Config W) (w : W) : Config W :=
  {| sys := sys c; tmp := tmp c; world := w |}.

(** ** Execution *)

Section execute.
Context {W : Type} `{ExecCtx W} `{SoftFloat}.
Context (mem_areas : list MemArea).

Local Abbreviation cmdM T := (comp (Config W) Exception T).

(** Operands read and write the instruction's state; memory and devices only
    the world. *)
Definition ceval (v : Val) : cmdM Z :=
  fun c => x ← val_eval (tmp c) (sys c) v; Some (Ok x, c).
Definition cwrite (v : Val) (result : Z) : cmdM unit :=
  fun c => r ← val_write (tmp c) (sys c) v result;
           Some (Ok tt, {| sys := r.2; tmp := r.1; world := world c |}).
Definition get_cpu : cmdM State := fun c => Some (Ok (cpu (sys c)), c).
Definition get_slot (index : Z) : cmdM Z :=
  fun c => v ← arr_get (mem (sys c)) index; Some (Ok v, c).
Definition set_slot (index v : Z) : cmdM unit :=
  fun c => m ← arr_set (mem (sys c)) index v;
           Some (Ok tt, with_sys c (with_mem (sys c) m)).
Definition on_world {T} (m : comp W Exception T) : cmdM T :=
  fun c => r ← m (world c); Some (r.1, with_world c r.2).

Definition op_execute (op : Op) : cmdM Z :=
  match op with
  | OBin a b op =>
      x <-! ceval a;; y <-! ceval b;; clift (binop_execute op x y)
  | OFpBin a b rc op =>
      x <-! ceval a;; y <-! ceval b;; rc <-! ceval rc;;
      clift (fp_binop_execute op x y (wrap 8 rc))
  | OFpUn arg rc op =>
      x <-! ceval arg;; rc <-! ceval rc;; clift (fp_unop_execute op x (wrap 8 rc))
  | OUn arg op => x <-! ceval arg;; clift (unop_execute op x)
  | OIte cond if_nonzero if_zero =>
      x <-! ceval cond;;
      if negb (x =? 0) then ceval if_nonzero else ceval if_zero
  end.

(** [regs[index].unwrap()] *)
Definition dynamic_reg (regs : list (option Reg)) (i : Z) (sz : Size) : option Val :=
  r ← arr_get regs i; r ← r; Some (VLoc {| loc := LReg r; size := sz |}).

(** The two words passed to a handler. *)
Definition handler_args (l : list Z) : Z * Z :=
  match l with
  | [] => (0, 0)
  | [a] => (a, 0)
  | a :: b :: _ => (a, b)
  end.

(** [Commands::execute]: stop at the first command that fails or invokes a
    handler. *)
Definition run_cmds (exec : Cmd -> cmdM ExecResult) : list Cmd -> cmdM ExecResult :=
  fix go l :=
    match l with
    | [] => cret ROk
    | c :: l =>
        r <-! exec c;;
        match r with ROk => go l | InvokeHandler _ _ => cret r end
    end.

Fixpoint exec_cmd (c : Cmd) : cmdM ExecResult :=
  match c with
  | Store to op =>
      result <-! op_execute op;; cwrite to result >>! cret ROk
  | StoreDynamicReg regs index value sz =>
      i <-! ceval index;;
      v <-! clift (dynamic_reg regs (wrap 64 i) sz);;
      result <-! ceval value;;
      cwrite v result >>! cret ROk
  | LoadDynamicReg regs index into sz =>
      i <-! ceval index;;
      v <-! clift (dynamic_reg regs (wrap 64 i) sz);;
      result <-! ceval v;;
      cwrite into result >>! cret ROk
  | Log => cret ROk
  | Handler id args =>
      clift (assert (Nat.leb (length args) 2)) >>!
      vals <-! cmap (fun a => x <-! ceval a;; cret (wrap 32 x)) args;;
      cret (InvokeHandler id (handler_args vals))
  | CIf val if_zero if_nonzero =>
      v <-! ceval val;;
      if negb (v =? 0) then run_cmds exec_cmd if_nonzero else run_cmds exec_cmd if_zero
  | CException e code =>
      x <-! ceval code;;
      e <-! clift (with_code_from_u32 e (wrap 32 x));;
      cerr e
  | ReadDescriptor force selector ok base limit access_rights mark_accessed =>
      sel <-! ceval selector;;
      s <-! get_cpu;;
      r <-! on_world (read_descriptor s force mark_accessed (wrap 16 sel));;
      cwrite ok (b2z (d_ok r)) >>!
      cwrite base (d_base r) >>!
      cwrite limit (d_limit r) >>!
      cwrite access_rights (d_access_rights r) >>!
      cret ROk
  | Out len port data =>
      p <-! ceval port;;
      d <-! ceval data;;
      s <-! get_cpu;;
      on_world (port_out s (wrap 16 p) (wrap 8 len) (wrap 32 d)) >>!
      cret ROk
  | In len port data =>
      p <-! ceval port;;
      s <-! get_cpu;;
      v <-! on_world (port_in s (wrap 16 p) (wrap 8 len));;
      cwrite data v >>! cret ROk
  | ReadMemory index =>
      area <-! clift (arr_get mem_areas index);;
      s <-! get_cpu;;
      v <-! on_world (read_from_mem_as_u128 area (is_userspace s));;
      set_slot index v >>! cret ROk
  | WriteMemory index =>
      area <-! clift (arr_get mem_areas index);;
      s <-! get_cpu;;
      v <-! get_slot index;;
      on_world (write_u128_to_mem area (is_userspace s) v) >>!
      cret ROk
  end.

Definition exec_cmds : Commands -> cmdM ExecResult := run_cmds exec_cmd.

(** [MiniSemRef::execute]: the temporaries start at zero. *)
Definition minisem_execute (cmds : Commands) (s : SysState) (w : W) :=
  exec_cmds cmds {| sys := s; tmp := replicate MAX_TEMP_VARS 0; world := w |}.
End execute.

(** ** Analyses *)

Definition op_accesses_mem (op : Op) (index : Z) : bool :=
  match op with
  | OFpBin a b rc _ =>
      (val_accesses_mem a index || val_accesses_mem b index) || val_accesses_mem rc index
  | OFpUn arg rc _ => val_accesses_mem arg index || val_accesses_mem rc index
  | OBin a b _ => val_accesses_mem a index || val_accesses_mem b index
  | OUn arg _ => val_accesses_mem arg index
  | OIte cond if_nonzero if_zero =>
      val_accesses_mem cond index || val_accesses_mem if_nonzero index
      || val_accesses_mem if_zero index
  end.

Definition is_handler (c : Cmd) : bool :=
  match c with Handler _ _ => true | _ => false end.

Fixpoint always_terminates (c : Cmd) : bool :=
  match c with
  | CException _ _ | Handler _ _ => true
  | CIf _ z nz => existsb always_terminates z && existsb always_terminates nz
  | _ => false
  end.
Definition all_paths_terminate (l : Commands) : bool := existsb always_terminates l.

Fixpoint cmd_reads_from_mem (i : Z) (c : Cmd) : bool :=
  match c with
  | Store _ op => op_accesses_mem op i
  | StoreDynamicReg _ index value _ => val_accesses_mem index i || val_accesses_mem value i
  | LoadDynamicReg _ index _ _ => val_accesses_mem index i
  | Handler _ args => existsb (fun a => val_accesses_mem a i) args
  | CIf val z nz =>
      val_accesses_mem val i || existsb (cmd_reads_from_mem i) z
      || existsb (cmd_reads_from_mem i) nz
  | CException _ code => val_accesses_mem code i
  | ReadDescriptor _ selector _ _ _ _ _ => val_accesses_mem selector i
  | Out _ port data => val_accesses_mem port i || val_accesses_mem data i
  | In _ port _ => val_accesses_mem port i
  | Log | ReadMemory _ | WriteMemory _ => false
  end.
Definition reads_from_mem (i : Z) (l : Commands) : bool := existsb (cmd_reads_from_mem i) l.

Fixpoint cmd_writes_to_mem (i : Z) (c : Cmd) : bool :=
  match c with
  | Store to _ => val_accesses_mem to i
  | LoadDynamicReg _ _ into _ => val_accesses_mem into i
  | CIf _ z nz => existsb (cmd_writes_to_mem i) z || existsb (cmd_writes_to_mem i) nz
  | In _ _ data => val_accesses_mem data i
  | ReadDescriptor _ _ ok base limit access_rights _ =>
      val_accesses_mem access_rights i || val_accesses_mem ok i
      || val_accesses_mem base i || val_accesses_mem limit i
  | _ => false
  end.
Definition writes_to_mem (i : Z) (l : Commands) : bool := existsb (cmd_writes_to_mem i) l.

Fixpoint cmd_accesses_mem (i : Z) (c : Cmd) : bool :=
  match c with
  | Store to op => val_accesses_mem to i || op_accesses_mem op i
  | StoreDynamicReg _ index value _ => val_accesses_mem index i || val_accesses_mem value i
  | LoadDynamicReg _ index into _ => val_accesses_mem index i || val_accesses_mem into i
  | Handler _ args => existsb (fun a => val_accesses_mem a i) args
  | CIf val z nz =>
      val_accesses_mem val i || existsb (cmd_accesses_mem i) z || existsb (cmd_accesses_mem i) nz
  | CException _ code => val_accesses_mem code i
  | ReadDescriptor _ selector ok base limit access_rights _ =>
      val_accesses_mem selector i || val_accesses_mem access_rights i
      || val_accesses_mem ok i || val_accesses_mem base i || val_accesses_mem limit i
  | Out _ port data => val_accesses_mem port i || val_accesses_mem data i
  | In _ port _ => val_accesses_mem port i
  | Log | ReadMemory _ | WriteMemory _ => false
  end.
Definition accesses_mem (i : Z) (l : Commands) : bool := existsb (cmd_accesses_mem i) l.

(** [collect_write_targets]: the set as a list. *)
Fixpoint cmd_write_targets (c : Cmd) : list Val :=
  match c with
  | Store to _ => [to]
  | StoreDynamicReg regs _ _ sz =>
      (fun r => VLoc {| loc := LReg r; size := sz |}) <$> omap id regs
  | LoadDynamicReg _ _ into _ => [into]
  | CIf _ z nz => flat_map cmd_write_targets z ++ flat_map cmd_write_targets nz
  | ReadDescriptor _ _ ok base limit access_rights _ => [ok; access_rights; base; limit]
  | In _ _ data => [data]
  | CException _ _ | Handler _ _ | Out _ _ _ | Log => []
  | ReadMemory index => [VLoc {| loc := LMem index; size := size_new 0 15 |}]
  | WriteMemory _ => []
  end.
Definition collect_write_targets (l : Commands) : list Val := flat_map cmd_write_targets l.

Fixpoint cmd_reads_descriptors (c : Cmd) : bool :=
  match c with
  | CIf _ z nz => existsb cmd_reads_descriptors z || existsb cmd_reads_descriptors nz
  | ReadDescriptor _ _ _ _ _ _ _ => true
  | _ => false
  end.
Definition reads_descriptors (l : Commands) : bool := existsb cmd_reads_descriptors l.

(** The branches of an [If] are asked [reads_descriptors], as in the code. *)
Definition cmd_performs_port_io (c : Cmd) : bool :=
  match c with
  | CIf _ z nz => reads_descriptors z || reads_descriptors nz
  | In _ _ _ | Out _ _ _ => true
  | _ => false
  end.
Definition performs_port_io (l : Commands) : bool := existsb cmd_performs_port_io l.

(** [inspect_all_cmds] visits a command, then the commands of its branches. *)
Fixpoint inspect_all (c : Cmd) : list Cmd :=
  c :: match c with
       | CIf _ z nz => flat_map inspect_all z ++ flat_map inspect_all nz
       | _ => []
       end.

Definition is_fallible (c : Cmd) : bool :=
  match c with
  | Handler _ _ | CException _ _ | ReadDescriptor _ _ _ _ _ _ _ | Out _ _ _ | In _ _ _
  | ReadMemory _ | WriteMemory _ => true
  | _ => false
  end.
Definition contains_fallible (l : Commands) : bool :=
  existsb is_fallible (flat_map inspect_all l).
Definition invokes_handler (l : Commands) : bool :=
  existsb is_handler (flat_map inspect_all l).

(** ** Memory accesses around the commands *)

Fixpoint position {A} (f : A -> bool) (l : list A) : option nat :=
  match l with
  | [] => None
  | x :: l => if f x then Some 0%nat else S <$> position f l
  end.

(** Inserting [new] in order at position [pos] of a vector. *)
Definition insert_at {A} (pos : nat) (new l : list A) : list A := take pos l ++ new ++ drop pos l.

(** [Commands::insert_memory_writes]: the writes go before the first handler
    of a block or, when asked, to its end.  The code inserts them and then
    visits every command of the block; the visit changes neither the new
    commands nor what is a handler ([insert_then_visit]), so that it can come
    first. *)
Definition insert_block (accesses : list Z) (append_to_end_if_no_handler : bool)
    (ops : Commands) : Commands :=
  let pos := match position is_handler ops with
             | Some p => Some p
             | None => if append_to_end_if_no_handler then Some (length ops) else None
             end in
  match pos with
  | Some p => insert_at p (WriteMemory <$> accesses) ops
  | None => ops
  end.

Fixpoint cmd_insert_memory_writes (accesses : list Z) (c : Cmd) : Cmd :=
  match c with
  | CIf val z nz =>
      CIf val (insert_block accesses false (map (cmd_insert_memory_writes accesses) z))
              (insert_block accesses false (map (cmd_insert_memory_writes accesses) nz))
  | _ => c
  end.

Definition insert_memory_writes (accesses : list Z) (append_to_end_if_no_handler : bool)
    (ops : Commands) : Commands :=
  insert_block accesses append_to_end_if_no_handler
    (map (cmd_insert_memory_writes accesses) ops).

Definition wrap_memory_accesses (accesses : list Z) (cmds : Commands) : Commands :=
  let targets_to_read := List.filter (fun i => reads_from_mem i cmds) accesses in
  let cmds := (ReadMemory <$> targets_to_read) ++ cmds in
  let targets_to_write := List.filter (fun i => writes_to_mem i cmds) accesses in
  insert_memory_writes targets_to_write true cmds.

(** ** Changing the locations *)

Definition op_map_locs (f : ParLoc -> option ParLoc) (op : Op) : option Op :=
  match op with
  | OBin a b op => a ← val_map_locs f a; b ← val_map_locs f b; Some (OBin a b op)
  | OFpBin a b rc op =>
      a ← val_map_locs f a; b ← val_map_locs f b; rc ← val_map_locs f rc;
      Some (OFpBin a b rc op)
  | OFpUn arg rc op =>
      arg ← val_map_locs f arg; rc ← val_map_locs f rc; Some (OFpUn arg rc op)
  | OUn arg op => arg ← val_map_locs f arg; Some (OUn arg op)
  | OIte cond nz z =>
      cond ← val_map_locs f cond; nz ← val_map_locs f nz; z ← val_map_locs f z;
      Some (OIte cond nz z)
  end.

Definition map_option {A B} (f : A -> option B) : list A -> option (list B) :=
  fix go l :=
    match l with
    | [] => Some []
    | x :: l => y ← f x; ys ← go l; Some (y :: ys)
    end.

Fixpoint cmd_map_locs (f : ParLoc -> option ParLoc) (c : Cmd) : option Cmd :=
  match c with
  | Store to op => to ← val_map_locs f to; op ← op_map_locs f op; Some (Store to op)
  | StoreDynamicReg regs index value sz =>
      index ← val_map_locs f index; value ← val_map_locs f value;
      Some (StoreDynamicReg regs index value sz)
  | LoadDynamicReg regs index into sz =>
      index ← val_map_locs f index; into ← val_map_locs f into;
      Some (LoadDynamicReg regs index into sz)
  | Handler id args => args ← map_option (val_map_locs f) args; Some (Handler id args)
  | CIf val z nz =>
      val ← val_map_locs f val;
      z ← map_option (cmd_map_locs f) z;
      nz ← map_option (cmd_map_locs f) nz;
      Some (CIf val z nz)
  | CException e code => code ← val_map_locs f code; Some (CException e code)
  | ReadDescriptor force selector ok base limit access_rights mark =>
      selector ← val_map_locs f selector; ok ← val_map_locs f ok;
      base ← val_map_locs f base; limit ← val_map_locs f limit;
      access_rights ← val_map_locs f access_rights;
      Some (ReadDescriptor force selector ok base limit access_rights mark)
  | Out len port data =>
      port ← val_map_locs f port; data ← val_map_locs f data; Some (Out len port data)
  | In len port data =>
      port ← val_map_locs f port; data ← val_map_locs f data; Some (In len port data)
  | Log | ReadMemory _ | WriteMemory _ => Some c
  end.
Definition commands_map (f : ParLoc -> option ParLoc) (l : Commands) : option Commands :=
  map_option (cmd_map_locs f) l.
