(* ===== verification/IlExample.v ===== *)
(** * A concrete world for examples

    Flat memory, ports that read zero, descriptor reads that always succeed,
    and a floating-point library that returns zero: the instances at which the
    theorems about commands are applied to concrete programs. *)
From S2P Require Import Prelude Exceptions IlOps Arch Packing IlLoc MemArea IlCmd.

Open Scope comp_scope.

#[export] Instance zero_softfloat : SoftFloat := {|
  f80_add _ _ _ := (0, 0); f80_sub _ _ _ := (0, 0); f80_mul _ _ _ := (0, 0);
  f80_div _ _ _ := (0, 0); f80_rem _ _ _ := (0, 0); f80_lt _ _ := (false, 0);
  f80_eq _ _ := (false, 0); f80_to_i64 _ _ := (0, 0); f80_to_f64 _ _ := (0, 0);
  f80_to_f32 _ _ := (0, 0); f64_to_f80 _ _ := (0, 0); f32_to_f80 _ _ := (0, 0);
  i64_to_f32 _ _ := (0, 0); i64_to_f64 _ _ := (0, 0); i64_to_f80 _ _ := (0, 0);
  f80_round_to_int _ _ := (0, 0); f80_sqrt _ _ := (0, 0);
  f80_to_f64_is_precise _ := (true, 0); f80_to_f32_is_precise _ := (true, 0);
  f64_sin _ := 0; f64_cos _ := 0; f64_tan _ := 0; f64_exp2_minus_1 _ := 0;
  f64_log2 _ := 0; f64_atan _ := 0 |}.

#[export] Instance flat_ctx : ExecCtx (Z -> Z) := {|
  read_descriptor _ _ _ _ :=
    cret {| d_ok := true; d_base := 0; d_limit := 0; d_access_rights := 0 |};
  port_out _ _ _ _ := cret tt;
  port_in _ _ _ := cret 0 |}.

Definition ex_sys : SysState :=
  {| instr_len := 2; cpu := State_default; mem := [0; 0]; part_values := 0;
     part_packing := []; parts := [] |}.
Definition ex_config : Config (Z -> Z) :=
  {| sys := ex_sys; tmp := replicate MAX_TEMP_VARS 0; world := fun _ => 0x11 |}.

(** Memory operand 0 is a doubleword, operand 1 a byte. *)
Definition ex_areas : list MemArea := [Protected 0x1000 4; Protected 0x2000 1].

Definition ex_mem (i : Z) : Val := VLoc {| loc := LMem i; size := size_new 0 3 |}.
Definition ex_reg (r : GpReg) : Val := VLoc {| loc := LReg (Gp r); size := size_new 0 3 |}.

(** [m0 := m0 + 1; if cx then halt] *)
Definition ex_cmds : Commands :=
  [Store (ex_mem 0) (OBin (ex_mem 0) (const_val 1) Add);
   CIf (ex_reg Cx) [] [Handler HHalt []]].
