(* ===== verification/IlWrap.v ===== *)
(** * Memory accesses around commands

    [wrap_memory_accesses] of [sem86-core/src/il/mod.rs] fetches the memory
    operands before the commands and stores them back after: the theorems say
    when the stores happen, in terms of the run of the commands alone. *)
From S2P Require Import Prelude Exceptions IlOps Arch Packing IlLoc MemArea IlCmd IlExample.

Open Scope comp_scope.

(** ** Specification *)

Section spec.
Context {W : Type} `{ExecCtx W} `{SoftFloat}.
Context (mem_areas : list MemArea).
Local Abbreviation cmdM T := (comp (Config W) Exception T).
Local Abbreviation outcome := (option (result ExecResult Exception * Config W)).

(** Fetching and storing the operands of a list of indices. *)
Definition fetch (l : list Z) : cmdM unit :=
  citer (fun i => exec_cmd mem_areas (ReadMemory i) >>! cret tt) l.
Definition flush (l : list Z) : cmdM unit :=
  citer (fun i => exec_cmd mem_areas (WriteMemory i) >>! cret tt) l.

(** What storing the operands [acc] adds to an outcome of the commands: it
    happens on success and before a handler takes over, and not when the
    commands raise an exception.  Without [at_end] a block that runs to its
    end leaves it to the enclosing one. *)
Definition committed (acc : list Z) (at_end : bool) (r : outcome) : outcome :=
  match r with
  | Some (Ok ROk, c) => if at_end then (flush acc >>! cret ROk) c else r
  | Some (Ok (InvokeHandler id args), c) => (flush acc >>! cret (InvokeHandler id args)) c
  | Some (Err e, c) => Some (Err e, c)
  | None => None
  end.

(** ** Lemmas on blocks *)

Abbreviation run := (run_cmds (exec_cmd mem_areas)).

Lemma run_app l1 l2 c :
  run (l1 ++ l2) c
  = (r <-! run l1;; match r with ROk => run l2 | _ => cret r end) c.
Proof.
  revert c. induction l1 as [|x l1 IH]; intros c; [done|].
  cbn [app run_cmds]. unfold cbind.
  by destruct (exec_cmd mem_areas x c) as [[[[|id args]|e] c']|].
Qed.

Lemma run_cons x l c :
  run (x :: l) c
  = (r <-! exec_cmd mem_areas x;; match r with ROk => run l | _ => cret r end) c.
Proof. done. Qed.

(** Commands other than [If] and [Handler] do not invoke handlers. *)
Definition is_simple (x : Cmd) : bool :=
  match x with CIf _ _ _ | Handler _ _ => false | _ => true end.

Definition ends_ok (m : cmdM ExecResult) : Prop :=
  forall c r c', m c = Some (Ok r, c') -> r = ROk.

Lemma ends_ok_ret : ends_ok (cret ROk).
Proof. by intros c r c' [= <- _]. Qed.

Lemma ends_ok_err e : ends_ok (cerr e).
Proof. by intros c r c' [=]. Qed.

Lemma ends_ok_bind {T} (m : cmdM T) f : (forall x, ends_ok (f x)) -> ends_ok (cbind m f).
Proof.
  intros Hf c r c'. unfold cbind. destruct (m c) as [[[x|e] c1]|]; try done. apply Hf.
Qed.

Lemma simple_ok x : is_simple x = true -> ends_ok (exec_cmd mem_areas x).
Proof.
  intros Hx. destruct x; try done; cbn [exec_cmd];
    repeat (apply ends_ok_bind; intros ?); apply ends_ok_ret || apply ends_ok_err.
Qed.

Lemma run_memory_cmds (mk : Z -> Cmd) l c :
  (forall i, exists j, mk i = ReadMemory j \/ mk i = WriteMemory j) ->
  run (mk <$> l) c = (citer (fun i => exec_cmd mem_areas (mk i) >>! cret tt) l >>! cret ROk) c.
Proof.
  intros Hmk. revert c. induction l as [|i l IH]; intros c; [done|].
  change (mk <$> i :: l) with (mk i :: (mk <$> l)). rewrite run_cons.
  cbn [citer]. unfold cbind at 1 2 3 4.
  destruct (exec_cmd mem_areas (mk i) c) as [[[r|e] c']|] eqn:E; try done.
  apply simple_ok in E; [|by destruct (Hmk i) as (j & [-> | ->])]. subst r. rewrite IH. unfold cbind, cret. done.
Qed.

Lemma run_writes l c : run (WriteMemory <$> l) c = (flush l >>! cret ROk) c.
Proof. apply run_memory_cmds. intros i. exists i. by right. Qed.

Lemma run_reads l c : run (ReadMemory <$> l) c = (fetch l >>! cret ROk) c.
Proof. apply run_memory_cmds. intros i. exists i. by left. Qed.

(** Storing changes the world only. *)
Lemma write_keeps i c r c' :
  exec_cmd mem_areas (WriteMemory i) c = Some (r, c') -> sys c' = sys c /\ tmp c' = tmp c.
Proof.
  cbn [exec_cmd]. unfold cbind, clift, get_cpu, get_slot, cret, on_world.
  intros E; repeat (case_match; simplify_eq; try done).
  all: by simplify_option_eq.
Qed.

Lemma flush_keeps l c r c' :
  flush l c = Some (r, c') -> sys c' = sys c /\ tmp c' = tmp c.
Proof.
  revert c. induction l as [|i l IH]; intros c; unfold flush; cbn [citer].
  { intros [= <- <-]. done. }
  unfold cbind at 1 2. destruct (exec_cmd _ _ c) as [[[x|e] c1]|] eqn:E; [|intros|done].
  - intros E2. apply IH in E2 as [-> ->]. by apply write_keeps in E.
  - simplify_eq. by apply write_keeps in E.
Qed.

(** A handler command that runs, runs the same after the operands have been
    stored. *)
Lemma args_stable l (c : Config W) r c' c2 :
  cmap (fun a => x <-! ceval (W := W) a;; cret (wrap 32 x)) l c = Some (r, c') ->
  sys c2 = sys c -> tmp c2 = tmp c ->
  c' = c /\ (exists vs, r = Ok vs)
  /\ cmap (fun a => x <-! ceval (W := W) a;; cret (wrap 32 x)) l c2 = Some (r, c2).
Proof.
  intros E Hs Ht. revert c r c' c2 E Hs Ht.
  induction l as [|a l IH]; intros c r c' c2 E Hs Ht.
  - injection E as <- <-. split; [done|]. by split; [eexists|].
  - cbn [cmap] in *. unfold cbind, ceval, cret in *. rewrite Hs, Ht in *.
    destruct (val_eval (tmp c) (sys c) a) as [x|]; simpl in *; [|done].
    destruct (cmap _ l c) as [[r1 c1]|] eqn:E1; [|done].
    destruct (IH _ _ _ c2 E1 Hs Ht) as (-> & [vs ->] & ->).
    injection E as <- <-. split; [done|]. by split; [eexists|].
Qed.

Lemma handler_stable id args c r c' c2 :
  exec_cmd mem_areas (Handler id args) c = Some (r, c') ->
  sys c2 = sys c -> tmp c2 = tmp c ->
  c' = c /\ (exists a, r = Ok (InvokeHandler id a))
  /\ exec_cmd mem_areas (Handler id args) c2 = Some (r, c2).
Proof.
  intros E Hs Ht. cbn [exec_cmd] in *. unfold cbind at 1 2 in E. unfold cbind at 1 2.
  unfold clift in *.
  destruct (assert (Nat.leb (length args) 2)); [|done].
  destruct (cmap _ args c) as [[r1 c1]|] eqn:E1; [|done].
  destruct (args_stable _ _ _ _ c2 E1 Hs Ht) as (-> & [vs ->] & ->).
  injection E as <- <-. split; [done|]. by split; [eexists|].
Qed.

Lemma insert_keeps_handler acc x :
  is_handler (cmd_insert_memory_writes acc x) = is_handler x.
Proof. by destruct x. Qed.

Lemma handler_insert acc x : is_handler x = true -> cmd_insert_memory_writes acc x = x.
Proof. by destruct x. Qed.

Lemma position_insert acc l :
  position is_handler (map (cmd_insert_memory_writes acc) l) = position is_handler l.
Proof.
  induction l as [|x l IH]; [done|]. simpl. by rewrite insert_keeps_handler, IH.
Qed.

(** The order of the two steps of [insert_memory_writes] does not matter. *)
Lemma insert_then_visit acc at_end l :
  map (cmd_insert_memory_writes acc) (insert_block acc at_end l)
  = insert_block acc at_end (map (cmd_insert_memory_writes acc) l).
Proof.
  unfold insert_block. rewrite position_insert, length_map.
  assert (forall l', map (cmd_insert_memory_writes acc) (WriteMemory <$> l')
                     = WriteMemory <$> l') as E.
  { induction l' as [|i l' IH]; [done|]. simpl. f_equal. apply IH. }
  destruct (position is_handler l) as [p|]; [|destruct at_end; [|done]];
    unfold insert_at; by rewrite !map_app, E, ?firstn_map, ?skipn_map.
Qed.

Lemma insert_block_cons acc at_end x l :
  is_handler x = false ->
  insert_block acc at_end (x :: l) = x :: insert_block acc at_end l.
Proof.
  intros Hx. unfold insert_block. cbn [position]. rewrite Hx.
  destruct (position is_handler l); [done|]. by destruct at_end.
Qed.

Lemma insert_block_handler acc at_end x l :
  is_handler x = true -> insert_block acc at_end (x :: l) = (WriteMemory <$> acc) ++ x :: l.
Proof. intros Hx. unfold insert_block. cbn [position]. by rewrite Hx. Qed.

(** The insertion in one block, from the insertion in its commands. *)
Lemma insert_block_committed acc at_end l :
  Forall (fun x => forall c, exec_cmd mem_areas x c <> None -> is_handler x = false ->
    exec_cmd mem_areas (cmd_insert_memory_writes acc x) c
    = committed acc false (exec_cmd mem_areas x c)) l ->
  forall c, run l c <> None ->
  run (insert_block acc at_end (map (cmd_insert_memory_writes acc) l)) c
  = committed acc at_end (run l c).
Proof.
  induction 1 as [|x l Hx Hl IH]; intros c Hc.
  { destruct at_end; [|done].
    change (insert_block acc true (map _ [])) with ((WriteMemory <$> acc) ++ []).
    rewrite app_nil_r. apply run_writes. }
  cbn [map]. destruct (is_handler x) eqn:Hh.
  - rewrite (handler_insert acc x Hh), insert_block_handler by done.
    destruct x as [| | | |id args| | | | | | |]; try done.
    rewrite run_app. unfold cbind at 1. rewrite run_writes.
    rewrite (run_cons _ l) in Hc |- *. unfold cbind in Hc |- *.
    destruct (exec_cmd mem_areas (Handler id args) c) as [[r c1]|] eqn:E; [|done].
    destruct (handler_stable _ _ _ _ _ c E eq_refl eq_refl) as (-> & [a ->] & _).
    cbn [committed cret]. unfold cbind, cret.
    destruct (flush acc c) as [[[[]|e] c2]|] eqn:Ef; try done.
    destruct (flush_keeps _ _ _ _ Ef) as [Hs Ht].
    destruct (handler_stable _ _ _ _ _ c2 E Hs Ht) as (_ & _ & E2).
    rewrite run_cons. unfold cbind. by rewrite E2.
  - rewrite insert_block_cons by (by rewrite insert_keeps_handler).
    rewrite !run_cons in *. unfold cbind in *.
    destruct (exec_cmd mem_areas x c) as [[r c1]|] eqn:E; [|done].
    rewrite Hx by (by rewrite ?E). rewrite E.
    destruct r as [[|id a]|e]; cbn [committed]; [by apply IH| |done].
    unfold committed, cbind, cret. by destruct (flush acc c1) as [[[[]|e] c2]|].
Qed.

Lemma insert_cmd_committed acc x c :
  exec_cmd mem_areas x c <> None -> is_handler x = false ->
  exec_cmd mem_areas (cmd_insert_memory_writes acc x) c
  = committed acc false (exec_cmd mem_areas x c).
Proof.
  intros Hc Hh. destruct (is_simple x) eqn:Hs.
  { replace (cmd_insert_memory_writes acc x) with x by (by destruct x).
    destruct (exec_cmd mem_areas x c) as [[[r|e] c1]|] eqn:E; try done.
    by rewrite (simple_ok _ Hs _ _ _ E). }
  revert c Hc Hh Hs. induction x as [| | | | |v z nz Hz Hnz| | | | | |] using Cmd_ind';
    intros cfg Hc Hh Hs; try done.
  assert (forall l, Forall (fun x => forall c, exec_cmd mem_areas x c <> None ->
     is_handler x = false -> is_simple x = false ->
     exec_cmd mem_areas (cmd_insert_memory_writes acc x) c
     = committed acc false (exec_cmd mem_areas x c)) l ->
    Forall (fun x => forall c, exec_cmd mem_areas x c <> None -> is_handler x = false ->
     exec_cmd mem_areas (cmd_insert_memory_writes acc x) c
     = committed acc false (exec_cmd mem_areas x c)) l) as Hall.
  { intros l Hl. eapply Forall_impl; [|exact Hl]. intros x IH c' Hc' Hh'.
    destruct (is_simple x) eqn:Hs'; [|by apply IH].
    replace (cmd_insert_memory_writes acc x) with x by (by destruct x).
    destruct (exec_cmd mem_areas x c') as [[[r|e] c1]|] eqn:E; try done.
    by rewrite (simple_ok _ Hs' _ _ _ E). }
  cbn [cmd_insert_memory_writes exec_cmd] in *. unfold cbind in *.
  destruct (ceval v cfg) as [[[x|e] c1]|] eqn:E; [|done|done].
  destruct (negb (x =? 0)); apply insert_block_committed; try done; by apply Hall.
Qed.

(** Inserting the stores into commands that do not panic stores the operands
    exactly once on every successful path, after the commands or just before
    the handler they end in, and never when they raise an exception. *)
Theorem insert_memory_writes_committed (acc : list Z) (cmds : Commands) (c : Config W) :
  exec_cmds mem_areas cmds c <> None ->
  exec_cmds mem_areas (insert_memory_writes acc true cmds) c
  = committed acc true (exec_cmds mem_areas cmds c).
Proof.
  intros Hc. apply insert_block_committed; [|done].
  apply Forall_true. intros x c' Hx Hh. by apply insert_cmd_committed.
Qed.

Lemma reads_do_not_write l i cmds :
  writes_to_mem i ((ReadMemory <$> l) ++ cmds) = writes_to_mem i cmds.
Proof. unfold writes_to_mem. induction l as [|j l IH]; [done|]. exact IH. Qed.

Lemma insert_block_reads acc at_end l cmds :
  insert_memory_writes acc at_end ((ReadMemory <$> l) ++ cmds)
  = (ReadMemory <$> l) ++ insert_memory_writes acc at_end cmds.
Proof.
  unfold insert_memory_writes. induction l as [|j l IH]; [done|].
  change ((ReadMemory <$> j :: l) ++ cmds) with (ReadMemory j :: (ReadMemory <$> l) ++ cmds).
  cbn [map cmd_insert_memory_writes]. rewrite insert_block_cons by done. by rewrite IH.
Qed.

(** C9: Commands with their memory accesses fetch the operands they read, run, and
    store the operands they write when they succeed or invoke a handler; an
    exception in the fetch or in the commands leaves memory unwritten. *)
Theorem wrap_memory_accesses_run (acc : list Z) (cmds : Commands) (c : Config W) :
  (forall c1, fetch (List.filter (fun i => reads_from_mem i cmds) acc) c = Some (Ok tt, c1) ->
     exec_cmds mem_areas cmds c1 <> None) ->
  exec_cmds mem_areas (wrap_memory_accesses acc cmds) c
  = (fetch (List.filter (fun i => reads_from_mem i cmds) acc) >>!
     (fun c1 => committed (List.filter (fun i => writes_to_mem i cmds) acc) true
                  (exec_cmds mem_areas cmds c1))) c.
Proof.
  intros Hc. unfold wrap_memory_accesses, exec_cmds.
  erewrite filter_ext by (intros i; apply reads_do_not_write).
  rewrite insert_block_reads, run_app. unfold cbind at 1. rewrite run_reads.
  unfold cbind. destruct (fetch _ c) as [[[[]|e] c1]|] eqn:E; try done.
  unfold cret. by apply insert_memory_writes_committed, Hc.
Qed.
End spec.

(** ** Examples *)

Lemma insert_memory_writes_committed_witness :
  option_map fst (exec_cmds ex_areas (insert_memory_writes [0] true ex_cmds) ex_config)
  = Some (Ok ROk).
Proof.
  rewrite (insert_memory_writes_committed ex_areas [0] ex_cmds ex_config).
  - vm_compute. reflexivity.
  - vm_compute. discriminate.
Defined.

Lemma wrap_memory_accesses_run_witness :
  option_map fst (exec_cmds ex_areas (wrap_memory_accesses [0; 1] ex_cmds) ex_config)
  = Some (Ok ROk).
Proof.
  rewrite (wrap_memory_accesses_run ex_areas [0; 1] ex_cmds ex_config).
  - vm_compute. reflexivity.
  - intros c1 E. vm_compute in E. injection E as <-. vm_compute. discriminate.
Defined.
