(* ===== verification/IlEffects.v ===== *)
(** * Effects of commands

    The analyses of [sem86-core/src/il/mod.rs] are sound: commands change only
    what [collect_write_targets] lists, do not depend on a memory operand that
    [reads_from_mem] denies, cannot fail when [contains_fallible] is false, and
    never fall through when [all_paths_terminate]. *)
From stdpp Require Import sets.
From S2P Require Import Prelude Exceptions IlOps Arch Packing IlLoc MemArea IlCmd IlExample.

Open Scope comp_scope.

(** A property of every run of a computation, as a relation between the
    configuration before and after. *)
Section keeps.
Context {W : Type} `{ExecCtx W} `{SoftFloat}.
Context (mem_areas : list MemArea).
Local Abbreviation cmdM T := (comp (Config W) Exception T).
Local Abbreviation run := (run_cmds (exec_cmd mem_areas)).

Section relation.
Context (Q : Config W -> Config W -> Prop) `{!PreOrder Q}.

Definition keeps {T} (m : cmdM T) : Prop := forall c r c', m c = Some (r, c') -> Q c c'.

Lemma keeps_ret {T} (x : T) : keeps (cret x).
Proof. intros c r c' [= _ <-]. reflexivity. Qed.
Lemma keeps_err {T} e : keeps (T := T) (cerr e).
Proof. intros c r c' [= _ <-]. reflexivity. Qed.
Lemma keeps_get : keeps get_cpu.
Proof. intros c r c' [= _ <-]. reflexivity. Qed.
Lemma keeps_lift {T} (o : option T) : keeps (clift o).
Proof. intros c r c'. unfold clift. destruct o; [|done]. intros [= _ <-]. reflexivity. Qed.
Lemma keeps_slot i : keeps (get_slot i).
Proof. intros c r c' E. unfold get_slot in E. inv_opt. reflexivity. Qed.
Lemma keeps_eval v : keeps (ceval v).
Proof. intros c r c' E. unfold ceval in E. inv_opt. reflexivity. Qed.
Lemma keeps_bind {T U} (m : cmdM T) (f : T -> cmdM U) :
  keeps m -> (forall x, keeps (f x)) -> keeps (cbind m f).
Proof.
  intros Hm Hf c r c'. unfold cbind. destruct (m c) as [[[x|e] c1]|] eqn:E; [| |done].
  - intros E2. etransitivity; [by eapply Hm|by eapply Hf].
  - intros [= _ <-]. by eapply Hm.
Qed.
Lemma keeps_bind_lift {T U} (o : option T) (f : T -> cmdM U) :
  (forall x, o = Some x -> keeps (f x)) -> keeps (cbind (clift o) f).
Proof.
  intros Hf c r c'. unfold cbind, clift. destruct o as [x|]; [|done]. by apply Hf.
Qed.
Lemma keeps_world {T} (m : comp W Exception T) :
  (forall c w, Q c (with_world c w)) -> keeps (on_world m).
Proof. intros Hw c r c' E. unfold on_world in E. inv_opt. apply Hw. Qed.

Create HintDb keeps.
Hint Resolve keeps_ret keeps_err keeps_get keeps_slot keeps_lift keeps_eval keeps_world : keeps.

Ltac keeps_tac :=
  repeat first
    [ apply keeps_bind_lift; intros ? ?
    | apply keeps_bind; [|intros ?]
    | match goal with |- context [if ?b then _ else _] => destruct b end
    | solve [eauto with keeps] ].

Lemma keeps_op op : keeps (op_execute op).
Proof. destruct op; unfold op_execute; keeps_tac. Qed.
Hint Resolve keeps_op : keeps.

Lemma keeps_map {A B} (f : A -> cmdM B) l : (forall x, keeps (f x)) -> keeps (cmap f l).
Proof. intros Hf. induction l; cbn [cmap]; keeps_tac. Qed.

(** What writing the target [v] may do: a write to the location, or replacing
    a whole memory operand. *)
Definition writes_keep (v : Val) : Prop :=
  (forall x, keeps (cwrite v x))
  /\ (forall i, v = VLoc {| loc := LMem i; size := size_new 0 15 |} -> forall c m x,
        arr_set (mem (sys c)) i x = Some m -> Q c (with_sys c (with_mem (sys c) m))).

Lemma keeps_read_memory i :
  (forall c w, Q c (with_world c w)) ->
  writes_keep (VLoc {| loc := LMem i; size := size_new 0 15 |}) ->
  keeps (exec_cmd mem_areas (ReadMemory i)).
Proof.
  intros Hw [_ Hv]. cbn [exec_cmd].
  do 3 (apply keeps_bind; [by eauto with keeps|intros ?]).
  apply keeps_bind; [|by eauto with keeps]. intros c r c' E. unfold set_slot in E. inv_opt.
  by eapply Hv.
Qed.

Lemma keeps_run l : Forall (fun x => keeps (exec_cmd mem_areas x)) l -> keeps (run l).
Proof. induction 1 as [|x l Hx Hl IH]; cbn [run_cmds]; keeps_tac. Qed.

(** Commands keep a relation that their write targets and the changes of the
    world keep. *)
Lemma keeps_cmd x :
  (forall c w, Q c (with_world c w)) ->
  (forall v, v ∈ cmd_write_targets x -> writes_keep v) ->
  keeps (exec_cmd mem_areas x).
Proof.
  intros Hw. induction x as [to op|regs i v sz|regs i v sz| |id args|v z nz Hz Hnz|e code
    |f s o b l a m|len p d|len p d|i|i] using Cmd_ind'; intros Hv.
  - cbn [exec_cmd]. keeps_tac. apply Hv. by apply list_elem_of_singleton.
  - cbn [exec_cmd]. keeps_tac. apply Hv.
    match goal with E : dynamic_reg _ _ _ = _ |- _ => unfold dynamic_reg in E end.
    inv_opt. cbn [cmd_write_targets].
    apply list_elem_of_fmap. eexists. split; [done|].
    apply list_elem_of_omap. eexists. split; [|done].
    match goal with E : arr_get _ _ = _ |- _ => apply arr_get_spec in E as [_ E] end.
    by eapply list_elem_of_lookup_2.
  - cbn [exec_cmd]. keeps_tac. apply Hv. by apply list_elem_of_singleton.
  - cbn [exec_cmd]. keeps_tac.
  - cbn [exec_cmd]. keeps_tac. apply keeps_map. intros a. keeps_tac.
  - cbn [exec_cmd cmd_write_targets] in *. keeps_tac; apply keeps_run;
      apply list.Forall_forall; intros y Hy.
    + rewrite list.Forall_forall in Hnz. apply Hnz; [done|]. intros v' Hv'. apply Hv.
      apply elem_of_app. right. by eapply elem_of_flat_map.
    + rewrite list.Forall_forall in Hz. apply Hz; [done|]. intros v' Hv'. apply Hv.
      apply elem_of_app. left. by eapply elem_of_flat_map.
  - cbn [exec_cmd]. keeps_tac.
  - cbn [exec_cmd cmd_write_targets] in *. keeps_tac; apply Hv; set_solver.
  - cbn [exec_cmd]. keeps_tac.
  - cbn [exec_cmd]. keeps_tac. apply Hv. by apply list_elem_of_singleton.
  - apply keeps_read_memory; [done|]. apply Hv. by apply list_elem_of_singleton.
  - cbn [exec_cmd]. keeps_tac.
Qed.

Lemma keeps_cmds l :
  (forall c w, Q c (with_world c w)) ->
  (forall v, v ∈ collect_write_targets l -> writes_keep v) ->
  keeps (exec_cmds mem_areas l).
Proof.
  intros Hw Hv. apply keeps_run, list.Forall_forall. intros x Hx. apply keeps_cmd; [done|].
  intros v Hin. apply Hv. by eapply elem_of_flat_map.
Qed.
End relation.

(** ** Write targets *)

(** The location a target writes to, in a given state. *)
Definition target_loc (s : SysState) (v : Val) : option UnsizedParLoc :=
  l ← val_loc v; d ← resolve_loc s l; Some (loc d).

Lemma resolve_loc_mem s l i : loc l = LMem i <-> exists d, resolve_loc s l = Some d /\ loc d = LMem i.
Proof.
  unfold resolve_loc. destruct l as [[r|j|p| |k] sz]; simpl.
  - split; [done|by intros (d & [= <-] & ?)].
  - split; [intros E; by eexists|by intros (d & [= <-] & ?)].
  - split; [done|]. intros (d & E & Hd). inv_opt. case_match; inv_opt; done.
  - split; [done|by intros (d & [= <-] & ?)].
  - split; [done|by intros (d & [= <-] & ?)].
Qed.

(** The three effects of a write. *)
Lemma cwrite_inv (v : Val) x (c : Config W) r c' :
  cwrite v x c = Some (r, c') ->
  (exists n t, v = VTemp n /\ arr_set (tmp c) n x = Some t
     /\ c' = {| sys := sys c; tmp := t; world := world c |})
  \/ (exists rg u s, target_loc (sys c) v = Some (LReg rg) /\ modify_reg (cpu (sys c)) rg u = Some s
     /\ c' = with_sys c (with_cpu (sys c) s))
  \/ (exists i m y, val_accesses_mem v i = true /\ arr_set (mem (sys c)) i y = Some m
     /\ c' = with_sys c (with_mem (sys c) m)).
Proof.
  intros E. unfold cwrite in E. inv_opt.
  match goal with E : val_write _ _ _ _ = _ |- _ => rename E into Ew end.
  destruct v as [n|l|]; simpl in Ew; [| |done]; inv_opt.
  - left. eauto.
  - match goal with E : modify_dest _ _ _ = _ |- _ => rename E into Em end.
    unfold modify_dest in Em. inv_opt.
    match goal with E : resolve_loc _ _ = Some ?d |- _ => rename E into Er end.
    case_match eqn:El; try done; inv_opt.
    + right. left. do 3 eexists. unfold target_loc. simpl. rewrite Er. simpl. by rewrite El.
    + right. right. do 3 eexists. split; [|done]. simpl.
      apply bool_decide_eq_true, (resolve_loc_mem (sys c)). eauto.
Qed.

(** What identifies the instruction does not change. *)
Definition same_code (s s' : SysState) : Prop :=
  instr_len s' = instr_len s /\ part_values s' = part_values s
  /\ part_packing s' = part_packing s /\ parts s' = parts s.

Lemma same_code_target s s' v : same_code s s' -> target_loc s' v = target_loc s v.
Proof.
  intros (_ & E1 & E2 & E3). unfold target_loc, resolve_loc, part_register.
  destruct (val_loc v); simpl; [|done]. by rewrite E1, E2, E3.
Qed.

Definition tmp_kept (n : Z) (c c' : Config W) : Prop :=
  arr_get (tmp c') n = arr_get (tmp c) n.
Definition mem_kept (i : Z) (c c' : Config W) : Prop :=
  arr_get (mem (sys c')) i = arr_get (mem (sys c)) i.
Definition reg_kept (s0 : SysState) (rg : Reg) (c c' : Config W) : Prop :=
  same_code (sys c) (sys c')
  /\ (same_code s0 (sys c) -> reg (cpu (sys c')) rg = reg (cpu (sys c)) rg).

#[local] Instance tmp_kept_pre n : PreOrder (tmp_kept n).
Proof. split; [done|]. intros a b c. unfold tmp_kept. congruence. Qed.
#[local] Instance mem_kept_pre i : PreOrder (mem_kept i).
Proof. split; [done|]. intros a b c. unfold mem_kept. congruence. Qed.
#[local] Instance same_code_pre : PreOrder same_code.
Proof. split; [done|]. intros a b c. unfold same_code. intuition congruence. Qed.
#[local] Instance reg_kept_pre s0 rg : PreOrder (reg_kept s0 rg).
Proof.
  split; [done|]. intros a b c [S1 R1] [S2 R2]. split; [by etransitivity|].
  intros S. rewrite R2, R1; [done|done|by etransitivity].
Qed.

Lemma tmp_writes n v : v <> VTemp n -> writes_keep (tmp_kept n) v.
Proof.
  intros Hv. split; [|done]. intros x c r c' E.
  destruct (cwrite_inv _ _ _ _ _ E)
    as [(m & t & -> & Et & ->)|[(? & ? & ? & ? & ? & ->)|(? & ? & ? & ? & ? & ->)]]; try done.
  unfold tmp_kept. simpl. rewrite (arr_get_set _ _ _ _ _ Et).
  destruct (Z.eqb_spec n m); [congruence|done].
Qed.

Lemma mem_writes i v : val_accesses_mem v i = false -> writes_keep (mem_kept i) v.
Proof.
  intros Hv. assert (forall c j y m, val_accesses_mem v j = true ->
    arr_set (mem (sys c)) j y = Some m -> mem_kept i c (with_sys c (with_mem (sys c) m))) as Hm.
  { intros c j y m Hj Em. unfold mem_kept. simpl. rewrite (arr_get_set _ _ _ _ _ Em).
    destruct (Z.eqb_spec i j); [congruence|done]. }
  split.
  - intros x c r c' E. destruct (cwrite_inv _ _ _ _ _ E)
      as [(? & ? & ? & ? & ->)|[(? & ? & ? & ? & ? & ->)|(j & m & y & Hj & Em & ->)]]; try done.
    by eapply Hm.
  - intros j -> c m x Em. eapply Hm; [|done]. simpl. by apply bool_decide_eq_true.
Qed.

Lemma reg_writes s0 rg v :
  target_loc s0 v <> Some (LReg rg) -> writes_keep (reg_kept s0 rg) v.
Proof.
  intros Hv. split; [|done]. intros x c r c' E. split.
  - destruct (cwrite_inv _ _ _ _ _ E)
      as [(? & ? & ? & ? & ->)|[(? & ? & ? & ? & ? & ->)|(? & ? & ? & ? & ? & ->)]]; done.
  - intros Hs. destruct (cwrite_inv _ _ _ _ _ E)
      as [(? & ? & ? & ? & ->)|[(rg' & u & s & Et & Em & ->)|(? & ? & ? & ? & ? & ->)]]; try done.
    simpl. eapply modify_reg_other; [done|]. intros ->.
    by rewrite (same_code_target _ _ _ Hs) in Et.
Qed.

(** C11: [collect_write_targets] is complete: after any run, successful or not, a
    temporary, a memory operand or a register that is not the target of one of
    the collected locations has its old value. *)
Theorem write_targets_complete (l : Commands) (c c' : Config W) r :
  exec_cmds mem_areas l c = Some (r, c') ->
  (forall n, VTemp n ∉ collect_write_targets l -> arr_get (tmp c') n = arr_get (tmp c) n)
  /\ (forall i, (forall v, v ∈ collect_write_targets l -> val_accesses_mem v i = false) ->
       arr_get (mem (sys c')) i = arr_get (mem (sys c)) i)
  /\ (forall rg, (forall v, v ∈ collect_write_targets l -> target_loc (sys c) v <> Some (LReg rg)) ->
       reg (cpu (sys c')) rg = reg (cpu (sys c)) rg).
Proof.
  intros E. split; [|split].
  - intros n Hn. eapply (keeps_cmds (tmp_kept n)); [done| |done].
    intros v Hv. apply tmp_writes. by intros ->.
  - intros i Hi. eapply (keeps_cmds (mem_kept i)); [done| |done].
    intros v Hv. by apply mem_writes, Hi.
  - intros rg Hrg. eapply (keeps_cmds (reg_kept (sys c) rg)); [done| |done|done].
    intros v Hv. by apply reg_writes, Hrg.
Qed.

(** ** Commands that cannot fail *)

Definition clean {T} (m : cmdM T) (P : T -> Prop) : Prop :=
  forall c r c', m c = Some (r, c') -> exists x, r = Ok x /\ P x /\ world c' = world c.

Lemma clean_ret {T} (x : T) (P : T -> Prop) : P x -> clean (cret x) P.
Proof. intros Hx c r c' [= <- <-]. eauto. Qed.
Lemma clean_get : clean get_cpu (fun _ => True).
Proof. intros c r c' [= <- <-]. eauto. Qed.
Lemma clean_lift {T} (o : option T) : clean (clift o) (fun _ => True).
Proof. intros c r c'. unfold clift. destruct o; [|done]. intros [= <- <-]. eauto. Qed.
Lemma clean_eval v : clean (ceval v) (fun _ => True).
Proof. intros c r c' E. unfold ceval in E. inv_opt. eauto. Qed.
Lemma clean_write v x : clean (cwrite v x) (fun _ => True).
Proof. intros c r c' E. unfold cwrite in E. inv_opt. simpl. eauto. Qed.
Lemma clean_bind {T U} (m : cmdM T) (f : T -> cmdM U) P Q :
  clean m P -> (forall x, P x -> clean (f x) Q) -> clean (cbind m f) Q.
Proof.
  intros Hm Hf c r c'. unfold cbind. destruct (m c) as [[r1 c1]|] eqn:E; [|done].
  destruct (Hm _ _ _ E) as (x & -> & Hx & Hw). intros E2.
  destruct (Hf x Hx _ _ _ E2) as (y & -> & Hy & Hw2). exists y. by rewrite Hw2, Hw.
Qed.

Create HintDb clean.
Hint Resolve clean_ret clean_get clean_lift clean_eval clean_write : clean.
Ltac clean_tac :=
  repeat first
    [ eapply clean_bind; [|intros ? ?]
    | match goal with |- context [if ?b then _ else _] => destruct b end
    | solve [eauto with clean] ].

Lemma clean_op op : clean (op_execute op) (fun _ => True).
Proof. destruct op; unfold op_execute; clean_tac. Qed.
Hint Resolve clean_op : clean.

Lemma clean_run l :
  Forall (fun x => clean (exec_cmd mem_areas x) (eq ROk)) l -> clean (run l) (eq ROk).
Proof.
  induction 1 as [|x l Hx Hl IH]; cbn [run_cmds]; [by apply clean_ret|].
  eapply clean_bind; [done|]. by intros r <-.
Qed.

Lemma fallible_branch l :
  existsb is_fallible (flat_map inspect_all l) = false ->
  Forall (fun x => existsb is_fallible (inspect_all x) = false) l.
Proof.
  induction l as [|x l IH]; simpl; [constructor|]. rewrite existsb_app, orb_false_iff.
  intros [Hx Hl]. constructor; auto.
Qed.

Lemma clean_cmd x :
  existsb is_fallible (inspect_all x) = false -> clean (exec_cmd mem_areas x) (eq ROk).
Proof.
  induction x as [| | | | |v z nz Hz Hnz| | | | | |] using Cmd_ind'; try done;
    cbn [exec_cmd]; intros Hf; try (clean_tac; done).
  cbn [inspect_all existsb is_fallible] in Hf. rewrite orb_false_l, existsb_app, orb_false_iff in Hf.
  destruct Hf as [Fz Fnz]. apply fallible_branch in Fz, Fnz.
  clean_tac; apply clean_run; [exact (Forall_mp _ _ _ Hnz Fnz)|exact (Forall_mp _ _ _ Hz Fz)].
Qed.

(** [contains_fallible] is sound: commands it accepts raise no exception,
    invoke no handler and leave memory, ports and descriptor tables alone. *)
Theorem infallible_commands (l : Commands) (c c' : Config W) r :
  contains_fallible l = false ->
  exec_cmds mem_areas l c = Some (r, c') ->
  r = Ok ROk /\ world c' = world c.
Proof.
  intros Hf E. apply fallible_branch in Hf.
  destruct (clean_run l) with (c := c) (r := r) (c' := c') as (x & -> & <- & Hw); [|done|done].
  eapply Forall_impl; [|exact Hf]. apply clean_cmd.
Qed.

(** ** Commands that do not fall through *)

Definition stops (m : cmdM ExecResult) : Prop := forall c c', m c <> Some (Ok ROk, c').

Lemma stops_bind {T} (m : cmdM T) f : (forall x, stops (f x)) -> stops (cbind m f).
Proof.
  intros Hf c c'. unfold cbind. destruct (m c) as [[[x|e] c1]|]; try done. apply Hf.
Qed.

Lemma stops_run l :
  Forall (fun x => always_terminates x = true -> stops (exec_cmd mem_areas x)) l ->
  existsb always_terminates l = true -> stops (run l).
Proof.
  induction 1 as [|x l Hx Hl IH]; [done|]. cbn [existsb]. intros Ht c c'.
  cbn [run_cmds]. unfold cbind.
  destruct (exec_cmd mem_areas x c) as [[[[|id a]|e] c1]|] eqn:E; try done.
  apply orb_true_iff in Ht as [Ht|Ht]; [by apply Hx in E|by apply IH].
Qed.

Lemma stops_cmd x : always_terminates x = true -> stops (exec_cmd mem_areas x).
Proof.
  induction x as [| | | |id args|v z nz Hz Hnz|e code| | | | |] using Cmd_ind'; try done;
    cbn [exec_cmd always_terminates]; intros Ht.
  - by do 2 (apply stops_bind; intros ?).
  - apply andb_true_iff in Ht as [Tz Tnz]. apply stops_bind. intros x.
    destruct (negb (x =? 0)); by apply stops_run.
  - by do 2 (apply stops_bind; intros ?).
Qed.

(** [all_paths_terminate] is sound: commands it accepts never run to their end
    normally; they invoke a handler or raise an exception. *)
Theorem all_paths_terminate_sound (l : Commands) (c c' : Config W) :
  all_paths_terminate l = true -> exec_cmds mem_areas l c <> Some (Ok ROk, c').
Proof.
  intros Ht. apply stops_run; [|done]. apply Forall_true, stops_cmd.
Qed.

Lemma mem_target_writes i x v :
  v ∈ cmd_write_targets x -> val_accesses_mem v i = true ->
  cmd_writes_to_mem i x = true \/ ReadMemory i ∈ inspect_all x.
Proof.
  induction x as [to op|regs k v' sz|regs k v' sz| |id args|v' z nz Hz Hnz|e code
    |f s o b l a m|len p d|len p d|k|k] using Cmd_ind'; cbn [cmd_write_targets]; intros Hv Ha.
  - apply list_elem_of_singleton in Hv as ->. by left.
  - apply list_elem_of_fmap in Hv as (rg & -> & _). done.
  - apply list_elem_of_singleton in Hv as ->. by left.
  - set_solver.
  - set_solver.
  - assert (forall l, Forall (fun x => v ∈ cmd_write_targets x -> val_accesses_mem v i = true ->
        cmd_writes_to_mem i x = true \/ ReadMemory i ∈ inspect_all x) l ->
      v ∈ flat_map cmd_write_targets l ->
      existsb (cmd_writes_to_mem i) l = true \/ ReadMemory i ∈ flat_map inspect_all l) as Hl.
    { intros l Hl (x & Hx & Hin)%list_elem_of_In%in_flat_map. rewrite Forall_forall in Hl.
      apply list_elem_of_In in Hin.
      destruct (Hl x Hx Hin Ha) as [Hw|Hr].
      - left. apply existsb_exists. eauto.
      - right. eapply elem_of_flat_map; [by apply list_elem_of_In|done]. }
    apply elem_of_app in Hv as [Hv|Hv]; [destruct (Hl z Hz Hv) as [Hw|Hr]
                                        |destruct (Hl nz Hnz Hv) as [Hw|Hr]];
      simpl; rewrite ?Hw, ?orb_true_r; try (by left); right;
      apply elem_of_cons; right; apply elem_of_app; tauto.
  - set_solver.
  - left. simpl. rewrite !elem_of_cons in Hv.
    destruct Hv as [->|[->|[->|[->|?]]]]; rewrite ?Ha, ?orb_true_r; set_solver.
  - set_solver.
  - apply list_elem_of_singleton in Hv as ->. by left.
  - apply list_elem_of_singleton in Hv as ->. simpl in Ha. case_bool_decide; [|done].
    right. set_solver.
  - set_solver.
Qed.

(** [writes_to_mem] is sound: commands that neither write to nor fetch a
    memory operand leave it as it is. *)
Theorem writes_to_mem_sound (l : Commands) (i : Z) (c c' : Config W) r :
  writes_to_mem i l = false ->
  ReadMemory i ∉ flat_map inspect_all l ->
  exec_cmds mem_areas l c = Some (r, c') ->
  arr_get (mem (sys c')) i = arr_get (mem (sys c)) i.
Proof.
  intros Hw Hr E. eapply (keeps_cmds (mem_kept i)); [done| |done].
  intros v Hv. apply mem_writes. destruct (val_accesses_mem v i) eqn:Ha; [|done].
  apply list_elem_of_In, in_flat_map in Hv as (x & Hx & Hin). apply list_elem_of_In in Hin.
  exfalso. destruct (mem_target_writes i x v Hin Ha) as [Hx'|Hx'].
  - assert (writes_to_mem i l = true) by (apply existsb_exists; eauto). congruence.
  - apply Hr. eapply elem_of_flat_map; [by apply list_elem_of_In|done].
Qed.
End keeps.

(** ** Examples *)

Definition ex_flag_cmds : Commands :=
  [Store (VTemp 3) (OUn (const_val 7) Id);
   CIf (VTemp 3) [Store (VTemp 4) (OUn (VTemp 3) Parity)] [Store (ex_reg Ax) (OUn (VTemp 3) Id)]].
Definition ex_final (l : Commands) : Config (Z -> Z) :=
  match exec_cmds ex_areas l ex_config with Some (_, c) => c | None => ex_config end.

Lemma write_targets_complete_witness :
  arr_get (tmp (ex_final ex_flag_cmds)) 5 = arr_get (tmp ex_config) 5
  /\ reg (cpu (sys (ex_final ex_flag_cmds))) (Gp Cx) = reg (cpu (sys ex_config)) (Gp Cx).
Proof.
  destruct (write_targets_complete ex_areas ex_flag_cmds ex_config (ex_final ex_flag_cmds) (Ok ROk))
    as (Ht & _ & Hr); [vm_compute; reflexivity|]. split.
  - apply Ht. by apply (bool_decide_unpack _).
  - apply Hr. apply list.Forall_forall. by repeat constructor.
Defined.

Lemma writes_to_mem_sound_witness :
  arr_get (mem (sys (ex_final ex_cmds))) 1 = arr_get (mem (sys ex_config)) 1.
Proof.
  apply (writes_to_mem_sound ex_areas ex_cmds 1 ex_config (ex_final ex_cmds) (Ok ROk)).
  - reflexivity.
  - intros Hin%list_elem_of_In. vm_compute in Hin. intuition discriminate.
  - vm_compute. reflexivity.
Defined.

Lemma infallible_commands_witness : world (ex_final ex_flag_cmds) = world ex_config.
Proof.
  apply (infallible_commands ex_areas ex_flag_cmds ex_config _ (Ok ROk)).
  - reflexivity.
  - vm_compute. reflexivity.
Defined.

Lemma all_paths_terminate_sound_witness :
  exec_cmds ex_areas [Handler HHalt []] ex_config <> Some (Ok ROk, ex_config).
Proof. apply all_paths_terminate_sound. reflexivity. Defined.

(** A port write inside the branch of an [If] is performed and yet
    [performs_port_io] denies it: the branches of an [If] are asked
    [reads_descriptors]. *)
Definition ex_nested_out : Commands :=
  [CIf (const_val 1) [] [Out 1 (const_val 0x60) (const_val 0x55)]].

Theorem performs_port_io_misses_branches :
  performs_port_io ex_nested_out = false
  /\ (exists x, x ∈ flat_map inspect_all ex_nested_out /\ cmd_performs_port_io x = true)
  /\ (forall v, performs_port_io [CIf v [] [ReadDescriptor false v v v v v false]] = true).
Proof.
  split; [reflexivity|]. split; [|done].
  exists (Out 1 (const_val 0x60) (const_val 0x55)).
  split; [|reflexivity]. apply list_elem_of_In. simpl. auto.
Qed.
