(* ===== verification/IlIndep.v ===== *)
(** * Independence of memory operands

    [reads_from_mem] of [sem86-core/src/il/mod.rs] decides which operands are
    fetched before the commands run: an operand it denies has no influence on
    anything but itself. *)
From S2P Require Import Prelude Exceptions IlOps Arch Packing IlLoc MemArea IlCmd IlExample.

Open Scope comp_scope.

Section indep.
Context {W : Type} `{ExecCtx W} `{SoftFloat}.
Context (mem_areas : list MemArea) (i : Z).
Local Abbreviation cmdM T := (comp (Config W) Exception T).
Local Abbreviation run := (run_cmds (exec_cmd mem_areas)).

(** Two states that differ in memory operand [i] only. *)
Definition same_but (s1 s2 : SysState) : Prop :=
  s2 = with_mem s1 (mem s2) /\ length (mem s2) = length (mem s1)
  /\ (forall j, j <> i -> arr_get (mem s2) j = arr_get (mem s1) j).

Definition config_same_but (c1 c2 : Config W) : Prop :=
  tmp c2 = tmp c1 /\ world c2 = world c1 /\ same_but (sys c1) (sys c2).

(** The outcomes are the same: both panic, or both give the same result in
    configurations that again differ in operand [i] only. *)
Definition same_outcome {T} (r1 r2 : option (result T Exception * Config W)) : Prop :=
  match r1, r2 with
  | Some (x1, c1), Some (x2, c2) => x1 = x2 /\ config_same_but c1 c2
  | None, None => True
  | _, _ => False
  end.

Definition indep {T} (m : cmdM T) : Prop :=
  forall c1 c2, config_same_but c1 c2 -> same_outcome (m c1) (m c2).

Lemma indep_ret {T} (x : T) : indep (cret x).
Proof. by intros c1 c2 Hc. Qed.
Lemma indep_err {T} e : indep (T := T) (cerr e).
Proof. by intros c1 c2 Hc. Qed.
Lemma indep_lift {T} (o : option T) : indep (clift o).
Proof. intros c1 c2 Hc. unfold clift. by destruct o. Qed.
Lemma indep_bind {T U} (m : cmdM T) (f : T -> cmdM U) :
  indep m -> (forall x, indep (f x)) -> indep (cbind m f).
Proof.
  intros Hm Hf c1 c2 Hc. specialize (Hm c1 c2 Hc). unfold cbind.
  destruct (m c1) as [[[x1|e1] c1']|], (m c2) as [[[x2|e2] c2']|];
    simpl in *; try done; destruct Hm as [E Hc']; try done; simplify_eq; [by apply Hf|done].
Qed.
Lemma indep_get_cpu : indep get_cpu.
Proof.
  intros c1 c2 Hc. pose proof Hc as (_ & _ & E & _). unfold get_cpu.
  split; [by rewrite E|done].
Qed.
Lemma indep_world {T} (m : comp W Exception T) : indep (on_world m).
Proof.
  intros c1 c2 (Et & Ew & Hs). unfold on_world. rewrite Ew.
  destruct (m (world c1)) as [[r w]|]; simpl; [|done]. by split.
Qed.

Lemma get_dest_same s1 s2 l b :
  same_but s1 s2 -> loc l <> LMem i -> get_dest s2 l b = get_dest s1 l b.
Proof.
  intros (E & _ & Hm) Hl. unfold get_dest, part_register. rewrite E. simpl.
  destruct (loc l) as [r|j|p| |k] eqn:El; try done. by rewrite Hm by congruence.
Qed.

Lemma indep_eval v : val_accesses_mem v i = false -> indep (ceval v).
Proof.
  intros Hv c1 c2 (Et & Ew & Hs).
  assert (val_eval (tmp c2) (sys c2) v = val_eval (tmp c1) (sys c1) v) as E.
  { rewrite Et. destruct v; simpl in *; [done|..]; apply bool_decide_eq_false in Hv;
      by rewrite (get_dest_same _ _ _ _ Hs Hv). }
  unfold ceval. rewrite E. destruct (val_eval (tmp c1) (sys c1) v); simpl; [|done].
  exact (conj eq_refl (conj Et (conj Ew Hs))).
Qed.

Lemma same_but_cpu s1 s2 c : same_but s1 s2 -> same_but (with_cpu s1 c) (with_cpu s2 c).
Proof.
  intros (E & Hl & Hm). split; [|by split]. by rewrite E at 1.
Qed.

Lemma same_but_set s1 s2 j m1 m2 v1 v2 :
  same_but s1 s2 -> arr_set (mem s1) j v1 = Some m1 -> arr_set (mem s2) j v2 = Some m2 ->
  (j <> i -> v1 = v2) -> same_but (with_mem s1 m1) (with_mem s2 m2).
Proof.
  intros (E & Hl & Hm) E1 E2 Hv. repeat split; simpl.
  - by rewrite E.
  - apply arr_set_Some in E1 as [_ ->]. apply arr_set_Some in E2 as [_ ->].
    by rewrite !length_insert.
  - intros k Hk. rewrite (arr_get_set _ _ _ _ _ E1), (arr_get_set _ _ _ _ _ E2).
    destruct (Z.eqb_spec k j) as [->|]; [by rewrite Hv|by apply Hm].
Qed.

(** Whether an access panics depends only on the length. *)
Definition both_defined {A B} (a : option A) (b : option B) : Prop :=
  match a, b with Some _, Some _ | None, None => True | _, _ => False end.

Lemma arr_set_defined {A} (l1 l2 : list A) j x1 x2 :
  length l2 = length l1 -> both_defined (arr_set l1 j x1) (arr_set l2 j x2).
Proof. intros E. unfold arr_set. rewrite E. by destruct (_ || _). Qed.

Lemma arr_get_defined {A} (l1 l2 : list A) j :
  length l2 = length l1 -> both_defined (arr_get l1 j) (arr_get l2 j).
Proof.
  intros E. unfold arr_get. destruct (j <? 0); [done|].
  destruct (l1 !! Z.to_nat j) eqn:E1, (l2 !! Z.to_nat j) eqn:E2; try done.
  - apply lookup_lt_Some in E1. apply lookup_ge_None in E2. lia.
  - apply lookup_lt_Some in E2. apply lookup_ge_None in E1. lia.
Qed.

(** A store slices the 16 bytes of an operand in the same way whatever they
    are. *)
Lemma modify_slice_defined sz x b1 b2 :
  length b2 = length b1 ->
  both_defined (modify_slice sz (upd_bytes (store_update x)) b1)
               (modify_slice sz (upd_bytes (store_update x)) b2).
Proof. intros E. unfold modify_slice. rewrite E. by destruct (assert _). Qed.

Lemma indep_write v x : indep (cwrite v x).
Proof.
  intros c1 c2 (Et & Ew & Hs). pose proof Hs as (E & Hl & Hm).
  unfold cwrite. destruct v as [n|l|]; simpl; [| |done].
  - rewrite Et. destruct (arr_set (tmp c1) n x); simpl; [|done]. by repeat split.
  - unfold modify_dest.
    assert (resolve_loc (sys c2) l = resolve_loc (sys c1) l) as -> by (by rewrite E).
    destruct (resolve_loc (sys c1) l) as [d|]; simpl; [|done].
    destruct (loc d) as [r|j|p| |k]; simpl; try done.
    + replace (cpu (sys c2)) with (cpu (sys c1)) by (by rewrite E).
      destruct (modify_reg _ _ _) as [s|]; simpl; [|done].
      exact (conj eq_refl (conj Et (conj Ew (same_but_cpu _ _ s Hs)))).
    + pose proof (arr_get_defined (mem (sys c1)) (mem (sys c2)) j Hl) as Dg.
      destruct (arr_get (mem (sys c1)) j) as [o1|] eqn:G1,
        (arr_get (mem (sys c2)) j) as [o2|] eqn:G2; simpl in *; try done.
      assert (j <> i -> o2 = o1) as Ho by (intros Hj; rewrite Hm in G2; [congruence|done]).
      pose proof (modify_slice_defined (size l) x (to_le_bytes 16 o1) (to_le_bytes 16 o2)) as Ds.
      rewrite !length_to_le_bytes in Ds. specialize (Ds eq_refl). simpl in Ds.
      destruct (modify_slice _ _ (to_le_bytes 16 o1)) as [b1|] eqn:S1,
        (modify_slice _ _ (to_le_bytes 16 o2)) as [b2|] eqn:S2; simpl in *; try done.
      pose proof (arr_set_defined (mem (sys c1)) (mem (sys c2)) j
        (from_le_bytes b1) (from_le_bytes b2) Hl) as Da.
      destruct (arr_set (mem (sys c1)) j _) as [m1|] eqn:E1,
        (arr_set (mem (sys c2)) j _) as [m2|] eqn:E2; simpl in *; try done.
      split; [done|]. split; [done|]. split; [done|].
      eapply (same_but_set _ _ j); [done..|]. intros Hj. rewrite Ho in S2 by done. congruence.
Qed.

Create HintDb indep.
Hint Resolve indep_ret indep_err indep_lift indep_eval indep_write indep_world indep_get_cpu : indep.
Ltac indep_tac :=
  repeat first
    [ apply indep_bind; [|intros ?]
    | match goal with |- context [if ?b then _ else _] => destruct b end
    | solve [eauto with indep] ].

Lemma indep_op op : op_accesses_mem op i = false -> indep (op_execute op).
Proof.
  destruct op; simpl; rewrite ?orb_false_iff; intros; destruct_and?; indep_tac.
Qed.

Lemma indep_args l :
  existsb (fun a => val_accesses_mem a i) l = false ->
  indep (cmap (fun a => x <-! ceval (W := W) a;; cret (wrap 32 x)) l).
Proof.
  induction l as [|a l IH]; cbn [cmap existsb]; [intros _; apply indep_ret|].
  rewrite orb_false_iff. intros [Ha Hl]. indep_tac.
Qed.

Lemma indep_run l : Forall (fun x => indep (exec_cmd mem_areas x)) l -> indep (run l).
Proof. induction 1; cbn [run_cmds]; indep_tac. Qed.

(** Fetching an operand replaces it; storing another operand does not look at
    [i]. *)
Lemma indep_set_slot j v : indep (set_slot j v).
Proof.
  intros c1 c2 (Et & Ew & Hs). unfold set_slot.
  pose proof (arr_set_defined (mem (sys c1)) (mem (sys c2)) j v v (proj1 (proj2 Hs))) as Da.
  destruct (arr_set (mem (sys c1)) j v) as [m1|] eqn:E1,
    (arr_set (mem (sys c2)) j v) as [m2|] eqn:E2; simpl in *; try done.
  split; [done|]. split; [done|]. split; [done|]. by eapply (same_but_set _ _ j).
Qed.

Lemma indep_get_slot j : j <> i -> indep (get_slot j).
Proof.
  intros Hj c1 c2 Hc. pose proof Hc as (_ & _ & _ & _ & Hm). unfold get_slot.
  rewrite Hm by done. by destruct (arr_get (mem (sys c1)) j).
Qed.
Hint Resolve indep_set_slot indep_get_slot : indep.

Definition is_write_of (x : Cmd) : bool :=
  match x with WriteMemory j => j =? i | _ => false end.

Lemma stores_branch l :
  existsb is_write_of (flat_map inspect_all l) = false ->
  Forall (fun x => existsb is_write_of (inspect_all x) = false) l.
Proof.
  induction l as [|x l IH]; simpl; [constructor|]. rewrite existsb_app, orb_false_iff.
  intros [Hx Hl]. constructor; auto.
Qed.

Lemma reads_branch l :
  existsb (cmd_reads_from_mem i) l = false ->
  Forall (fun x => cmd_reads_from_mem i x = false) l.
Proof.
  induction l as [|x l IH]; simpl; [constructor|]. rewrite orb_false_iff.
  intros [Hx Hl]. constructor; auto.
Qed.

Lemma indep_cmd x :
  existsb is_write_of (inspect_all x) = false -> cmd_reads_from_mem i x = false ->
  indep (exec_cmd mem_areas x).
Proof.
  induction x as [to op|regs k v sz|regs k v sz| |id args|v z nz Hz Hnz|e code
    |f s o b l a m|len p d|len p d|k|k] using Cmd_ind';
    cbn [inspect_all existsb cmd_reads_from_mem is_write_of];
    rewrite ?orb_false_iff; intros Hw Hr; destruct_and?.
  - cbn [exec_cmd]. apply indep_bind; [by apply indep_op|intros x]. indep_tac.
  - cbn [exec_cmd]. indep_tac.
  - cbn [exec_cmd]. apply indep_bind; [by apply indep_eval|intros n].
    unfold dynamic_reg. destruct (arr_get regs _) as [[r|]|]; [|by intros ???..].
    change (indep (result <-! ceval (W := W) (VLoc {| loc := LReg r; size := sz |});;
      cwrite v result >>! cret ROk)).
    apply indep_bind; [by apply indep_eval|intros x]. indep_tac.
  - apply indep_ret.
  - cbn [exec_cmd]. apply indep_bind; [apply indep_lift|intros _].
    apply indep_bind; [by apply indep_args|intros x]. indep_tac.
  - rewrite existsb_app, orb_false_iff in *. destruct_and?.
    cbn [exec_cmd]. apply indep_bind; [by apply indep_eval|intros x].
    repeat match goal with
    | H : existsb is_write_of _ = false |- _ => apply stores_branch in H
    | H : existsb (cmd_reads_from_mem i) _ = false |- _ => apply reads_branch in H
    end.
    destruct (negb (x =? 0)); apply indep_run.
    + eapply Forall_mp; [eapply Forall_mp; [exact Hnz|done]|done].
    + eapply Forall_mp; [eapply Forall_mp; [exact Hz|done]|done].
  - cbn [exec_cmd]. indep_tac.
  - cbn [exec_cmd]. indep_tac.
  - cbn [exec_cmd]. indep_tac.
  - cbn [exec_cmd]. indep_tac.
  - cbn [exec_cmd]. indep_tac.
  - cbn [exec_cmd]. assert (k <> i) by lia. indep_tac.
Qed.

End indep.

(** ** Example *)

Definition ex_other : Config (Z -> Z) :=
  with_sys ex_config (with_mem ex_sys [0; 0xdead]).

