(* ===== verification/Jump.v ===== *)
(** * Control flow of an instruction

    [Jump] of [sem86-core/src/il/jump.rs]: what is known statically about the
    next instruction pointer, and the update of the instruction pointer that
    the code generator emits ([emit_jump] and [emit_val] of
    [sem86-core/src/codegen/mir/mod.rs], read as the values they compute). *)
From stdpp Require Import sets.
From S2P Require Import Prelude IlOps Arch Packing IlLoc.

Inductive Jump : Type :=
| Sequential
| Repeat (condition : Val)
| NearRelativeOffset (condition : Val) (offset : list Val)
| NearAbsolute (v : Val)
| Far.

Inductive NextIp : Type := Absolute (n : Z) | Relative (d : Z).

#[export] Instance NextIp_eq_dec : EqDecision NextIp.
Proof. solve_decision. Defined.

(** [i128] arithmetic: an overflow panics. *)
Definition i128_check (x : Z) : option Z :=
  assert ((- 2 ^ 127 <=? x) && (x <? 2 ^ 127));; Some x.

(** The statically known value of one term of an offset. *)
Definition offset_term (part_values : Z) (ps : PackingStructure) (instr_len : Z) (val : Val)
    : option Z :=
  par_loc ← val_loc val;
  result ← match loc par_loc with
           | LReg _ | LMem _ => None
           | LPart n => part_get part_values ps n
           | LInstrLen => Some instr_len
           | LConst v => Some (signed 64 v)
           end;
  match val with
  | VTemp _ => None
  | VLoc _ => Some result
  | VConv _ source_bits target_bits sign_extend swap_endianness =>
      r ← apply_conversion (wrap 128 result) source_bits sign_extend swap_endianness target_bits;
      Some (signed 128 r)
  end.

(** [.sum::<i128>()] *)
Fixpoint sum_terms (f : Val -> option Z) (l : list Val) (acc : Z) : option Z :=
  match l with
  | [] => Some acc
  | v :: l => x ← f v; acc ← i128_check (acc + x); sum_terms f l acc
  end.

Definition relative_offset (part_values : Z) (ps : PackingStructure) (instr_len : Z)
    (is_cs32 : bool) (offset : list Val) : option Z :=
  s ← sum_terms (offset_term part_values ps instr_len) offset 0;
  o ← i128_check (instr_len + s);
  let shift := if is_cs32 then 128 - 32 else 128 - 16 in
  Some (Z.shiftr (signed 128 (Z.shiftl o shift)) shift).

(** The outer option is a panic, the inner one the function's result. *)
Definition try_determine_next_ips (part_values : Z) (ps : PackingStructure) (instr_len : Z)
    (is_cs32 : bool) (j : Jump) : option (option (list NextIp)) :=
  match j with
  | Sequential => Some (Some [Relative instr_len])
  | Repeat _ => Some (Some [Relative 0; Relative instr_len])
  | NearRelativeOffset condition offset =>
      let not_taken := Relative instr_len in
      o ← relative_offset part_values ps instr_len is_cs32 offset;
      let taken := Relative o in
      Some (Some (match as_const condition with
                  | Some 0 => [not_taken]
                  | Some _ => [taken]
                  | None => [not_taken; taken]
                  end))
  | NearAbsolute _ | Far => Some None
  end.

Definition try_derive_ips_from_condition (part_values : Z) (ps : PackingStructure)
    (instr_len : Z) (is_cs32 : bool) (j : Jump) : option (option (NextIp * NextIp)) :=
  match j with
  | Sequential => Some (Some (Relative instr_len, Relative instr_len))
  | Repeat _ => Some (Some (Relative instr_len, Relative 0))
  | NearRelativeOffset condition offset =>
      o ← relative_offset part_values ps instr_len is_cs32 offset;
      Some (match as_const condition with
            | Some _ => None
            | None => Some (Relative instr_len, Relative o)
            end)
  | NearAbsolute _ | Far => Some None
  end.

Definition is_sequential (j : Jump) : bool := match j with Sequential => true | _ => false end.
Definition is_fixed_relative (j : Jump) : bool :=
  match j with Sequential | Repeat _ | NearRelativeOffset _ _ => true | _ => false end.

(** ** The emitted update of the instruction pointer *)

(** The conversion that the code generator emits for [Val::Conv]. *)
Definition mir_conversion (v source_bits : Z) (sign_extend swap_endianness : bool)
    (target_bits : Z) : option Z :=
  v ← (if swap_endianness then
         match source_bits with
         | 8 => Some v
         | 16 => unop_execute ByteSwap16 v
         | 32 => unop_execute ByteSwap32 v
         | 64 => unop_execute ByteSwap64 v
         | n => assert (n <? 64);;
                v ← unop_execute ByteSwap64 v;
                binop_execute Shr v (((64 - n) / 8) * 8)
         end
       else Some v);
  v ← (if sign_extend then unop_execute (SignExtend source_bits) v else Some v);
  m ← bitmask_u128 target_bits;
  binop_execute And v m.

(** The value [emit_val] stands for. *)
Definition emit_val (tmp : list Z) (s : SysState) (v : Val) : option Z :=
  match v with
  | VTemp n => arr_get tmp n
  | VLoc dest => get_dest s dest false
  | VConv dest source_bits target_bits sign_extend swap_endianness =>
      v ← get_dest s dest false;
      mir_conversion v source_bits sign_extend swap_endianness target_bits
  end.

(** [reduce] with additions: a panic on an empty offset. *)
Fixpoint add_terms (f : Val -> option Z) (acc : Z) (l : list Val) : option Z :=
  match l with
  | [] => Some acc
  | v :: l => x ← f v; acc ← binop_execute Add acc x; add_terms f acc l
  end.
Definition reduce_terms (f : Val -> option Z) (l : list Val) : option Z :=
  match l with [] => None | v :: l => x ← f v; add_terms f x l end.

(** [ite(condition, if_zero, if_nonzero)] *)
Definition ite (condition if_zero if_nonzero : Z) : Z :=
  if condition =? 0 then if_zero else if_nonzero.

(** The new instruction pointer, before it is cropped, and whether its upper
    half is cleared in 16-bit code; [None] inside for a far jump. *)
Definition jump_value (tmp : list Z) (s : SysState) (j : Jump) : option (option (Z * bool)) :=
  let ip := gpreg (cpu s) Ip in
  let len := instr_len s in
  match j with
  | Sequential => n ← binop_execute Add ip len; Some (Some (n, false))
  | Repeat condition =>
      c ← emit_val tmp s condition;
      n ← binop_execute Add ip len;
      Some (Some (ite c n ip, false))
  | NearRelativeOffset condition offset =>
      c ← emit_val tmp s condition;
      o ← reduce_terms (emit_val tmp s) offset;
      n_false ← binop_execute Add ip len;
      n_true ← binop_execute Add n_false o;
      Some (Some (ite c n_false n_true, true))
  | NearAbsolute v => n ← emit_val tmp s v; Some (Some (n, true))
  | Far => Some None
  end.

Definition ip_bits (is_cs32 : bool) : Z := if is_cs32 then 32 else 16.

Definition emit_jump (tmp : list Z) (s : SysState) (is_cs32 : bool) (j : Jump)
    : option (option SysState) :=
  r ← jump_value tmp s j;
  match r with
  | None => Some None
  | Some (new_val, clear_upper) =>
      let size := {| start_byte := 0; end_byte := if is_cs32 || clear_upper then 3 else 1 |} in
      r ← val_write tmp s (VLoc {| loc := LReg (Gp Ip); size := size |})
            (wrap (ip_bits is_cs32) new_val);
      Some (Some r.2)
  end.

(** ** Equivalence of the two conversions *)

Lemma signed_eq_wrap w v x : 0 < v -> v <= w -> signed v (wrap w x) = signed v x.
Proof. intros. unfold signed. by rewrite wrap_wrap_le by lia. Qed.

(** The conversion of the interpreter and the one of the code generator agree,
    except for byte swaps of a width other than 8, 16 and 32. *)
Theorem conversions_agree (v source_bits target_bits : Z) (sign_extend swap : bool) :
  0 < source_bits <= 64 -> 0 <= target_bits <= 128 ->
  (swap = true -> source_bits = 8 \/ source_bits = 16 \/ source_bits = 32) ->
  mir_conversion v source_bits sign_extend swap target_bits
  = apply_conversion v source_bits sign_extend swap target_bits.
Proof.
  intros Hs Ht Hswap. unfold mir_conversion, apply_conversion.
  assert (forall v, (m ← bitmask_u128 target_bits; binop_execute And v m)
                    = Some (conv_mask v target_bits)) as Hm.
  { intros u. unfold bitmask_u128. zbool. cbn [orb mbind option_bind binop_execute].
    by rewrite conv_mask_wrap, wrap_land by lia. }
  assert (forall v, unop_execute (SignExtend source_bits) v = conv_sign_extend v source_bits) as Hx.
  { intros u. cbn [unop_execute]. unfold conv_sign_extend. zbool. simpl.
    by rewrite !signed_shift by lia. }
  assert (forall u, (v ← (if sign_extend then unop_execute (SignExtend source_bits) u
                          else Some u); m ← bitmask_u128 target_bits; binop_execute And v m)
    = (v ← (if sign_extend then conv_sign_extend u source_bits else Some u);
       Some (conv_mask v target_bits))) as Hrest.
  { intros u. destruct sign_extend; [|by apply Hm]. rewrite Hx.
    destruct (conv_sign_extend u source_bits); [by apply Hm|done]. }
  destruct swap; [|by apply Hrest].
  by destruct (Hswap eq_refl) as [-> |[-> | ->]]; apply Hrest.
Qed.

Lemma conversions_agree_witness :
  mir_conversion 0x1280 16 true true 32 = Some 0xffff8012.
Proof.
  refine (eq_trans (conversions_agree 0x1280 16 32 true true _ _ _) _);
    [lia|lia|by right; left|vm_compute; reflexivity].
Defined.

(** A 64-bit byte swap reverses the bytes in generated code and gives zero in
    the interpreter. *)
Theorem conversions_differ_on_64_bits :
  mir_conversion 0x1122334455667788 64 false true 64 = Some 0x8877665544332211
  /\ apply_conversion 0x1122334455667788 64 false true 64 = Some 0.
Proof. split; vm_compute; reflexivity. Qed.

(** ** The static next instruction pointers are right

    Two numbers that agree in their low [w] bits. *)
Definition cong (w x y : Z) : Prop := wrap w x = wrap w y.

Lemma cong_add w a b c d : 0 <= w -> cong w a b -> cong w c d -> cong w (a + c) (b + d).
Proof.
  unfold cong, wrap. intros Hw E1 E2. rewrite Z.add_mod, E1, E2, <- Z.add_mod by lia. done.
Qed.

Lemma cong_wrap w v x : 0 <= w <= v -> cong w (wrap v x) x.
Proof. intros. by apply wrap_wrap_le. Qed.

Lemma cong_bits w x y :
  0 <= w -> (forall i, 0 <= i < w -> Z.testbit x i = Z.testbit y i) -> cong w x y.
Proof.
  intros Hw H. apply Z.bits_inj'. intros i Hi. rewrite !testbit_wrap by lia.
  destruct (Z.ltb_spec i w); [|done]. simpl. by apply H.
Qed.

Lemma cong_testbit w x y i : 0 <= i < w -> cong w x y -> Z.testbit x i = Z.testbit y i.
Proof.
  intros Hi E. assert (Z.testbit (wrap w x) i = Z.testbit (wrap w y) i) as E' by by rewrite E.
  rewrite !testbit_wrap in E' by lia. by rewrite (proj2 (Z.ltb_lt i w)) in E' by lia.
Qed.

Lemma cong_le v w x y : 0 <= v <= w -> cong w x y -> cong v x y.
Proof. intros Hv E. apply cong_bits; [lia|]. intros i Hi. eapply cong_testbit; [|done]. lia. Qed.

Lemma cong_signed w v x : 0 <= w <= v -> 0 < v -> cong w (signed v x) x.
Proof.
  intros. apply cong_bits; [lia|]. intros i Hi. rewrite testbit_signed by lia.
  by rewrite (proj2 (Z.ltb_lt i v)) by lia.
Qed.

Lemma cong_crop w t x y :
  0 <= w -> 0 <= t -> cong (Z.min w t) x y -> cong w (wrap t x) (wrap t y).
Proof.
  intros Hw Ht E. apply cong_bits; [done|]. intros i Hi. rewrite !testbit_wrap by lia.
  destruct (Z.ltb_spec i t); [|done]. simpl. eapply cong_testbit; [|done]. lia.
Qed.

Lemma signed_cong w x y : 0 < w -> cong w x y -> signed w x = signed w y.
Proof. intros Hw E. unfold signed. by rewrite E. Qed.

(** Offsets the static analysis understands: immediates, constants and the
    instruction length, not byte-swapped, whose byte range and conversion keep
    at least the bits of the instruction pointer that matter. *)
Definition term_loc_ok (s : SysState) (l : ParLoc) : Prop :=
  start_byte (size l) = 0 /\ 0 <= end_byte (size l) < 16
  /\ (forall p, loc l = LPart p -> exists m b, arr_get (parts s) p = Some (Imm m b)).

Definition offset_ok (w : Z) (s : SysState) (v : Val) : Prop :=
  match v with
  | VTemp _ => False
  | VLoc l => term_loc_ok s l /\ w <= bit_len (size l)
  | VConv l source_bits target_bits sign_extend swap =>
      term_loc_ok s l /\ swap = false /\ 0 < source_bits <= 64 /\ 0 <= target_bits <= 128
      /\ (if sign_extend then source_bits <= bit_len (size l)
          else w <= bit_len (size l) \/ target_bits <= bit_len (size l))
  end.

(** The value of a location and the value the analysis gives it agree in the
    bits of the location's range. *)
Lemma term_loc_cong s l x y :
  term_loc_ok s l ->
  get_dest s l false = Some x ->
  match loc l with
  | LReg _ | LMem _ => None
  | LPart n => part_get (part_values s) (part_packing s) n
  | LInstrLen => Some (instr_len s)
  | LConst v => Some (signed 64 v)
  end = Some y ->
  cong (Z.min 64 (bit_len (size l))) x y.
Proof.
  intros (Hst & Hen & Himm) Hx Hy. unfold get_dest in Hx.
  rewrite (num_bytes_in_range 16) in Hx by (split; lia).
  cbn [mbind option_bind] in Hx. unfold bitmask_u128, bit_len in *. rewrite Hst in *.
  revert Hx. zbool. cbn [orb mbind option_bind]. change (0 * 8 <? 128) with true.
  cbn [assert]. change (0 * 8) with 0. rewrite Z.sub_0_r, Z.mul_comm.
  assert (forall v, cong (Z.min 64 (8 * (end_byte (size l) + 1)))
     (Z.land (Z.shiftr v 0) (Z.ones (8 * (end_byte (size l) + 1)))) v) as Hc.
  { intros v. rewrite Z.shiftr_0_r, <- wrap_land by lia. apply cong_wrap. lia. }
  destruct (loc l) as [r|j|p| |k] eqn:El; try done.
  - destruct (Himm p eq_refl) as (m & b & ->). simpl. destruct b; [done|]. simpl.
    rewrite Hy. simpl. by intros [= <-].
  - injection Hy as <-. simpl. by intros [= <-].
  - injection Hy as <-. simpl. intros [= <-]. etransitivity; [apply Hc|].
    symmetry. apply cong_signed; lia.
Qed.

Lemma offset_term_cong w tmp s v x y :
  0 <= w <= 64 ->
  offset_ok w s v ->
  emit_val tmp s v = Some x ->
  offset_term (part_values s) (part_packing s) (instr_len s) v = Some y ->
  cong w x y.
Proof.
  intros Hw Hok Hx Hy. destruct v as [n|l|l sb tb se sw]; [done|..]; simpl in Hok.
  - destruct Hok as [Hl Hn]. simpl in Hx. unfold offset_term in Hy. simpl in Hy.
    eapply cong_le; [|eapply term_loc_cong]; [|done|done|].
    + lia.
    + by destruct (match loc l with LReg _ => _ | _ => _ end).
  - destruct Hok as (Hl & -> & Hsb & Htb & Hn). pose proof Hl as (_ & Hen & _).
    simpl in Hx. destruct (get_dest s l false) as [a|] eqn:Ea; [|done]. simpl in Hx.
    unfold offset_term in Hy. simpl in Hy.
    destruct (match loc l with LReg _ => _ | _ => _ end) as [b|] eqn:Eb; [|done]. simpl in Hy.
    pose proof (term_loc_cong s l a b Hl Ea Eb) as Hab.
    rewrite conversions_agree in Hx by (done || lia).
    destruct (apply_conversion_spec a sb tb Hsb Htb) as [E1 E2].
    destruct (apply_conversion_spec (wrap 128 b) sb tb Hsb Htb) as [E3 E4].
    assert (forall r, cong w x r -> y = signed 128 r -> cong w x y) as Hsg.
    { intros r Hr ->. etransitivity; [done|]. symmetry. apply cong_signed; lia. }
    unfold bit_len in *. destruct se.
    + rewrite E2 in Hx. rewrite E4 in Hy. simpl in Hy. simplify_eq.
      eapply Hsg; [|done]. apply cong_crop; [lia|lia|].
      rewrite (signed_cong sb a (wrap 128 b)); [done|lia|].
      etransitivity; [eapply cong_le; [|exact Hab]; lia|]. symmetry. apply cong_wrap. lia.
    + rewrite E1 in Hx. rewrite E3 in Hy. simpl in Hy. simplify_eq.
      eapply Hsg; [|done]. apply cong_crop; [lia|lia|].
      etransitivity; [eapply cong_le; [|exact Hab]; lia|]. symmetry. apply cong_wrap. lia.
Qed.

Lemma reduce_sum_cong w f g l x y :
  0 <= w <= 128 ->
  (forall v a b, v ∈ l -> f v = Some a -> g v = Some b -> cong w a b) ->
  reduce_terms f l = Some x -> sum_terms g l 0 = Some y -> cong w x y.
Proof.
  intros Hw Hfg Hx Hy.
  assert (forall l a b x y, (forall v a b, v ∈ l -> f v = Some a -> g v = Some b -> cong w a b) ->
    cong w a b -> add_terms f a l = Some x -> sum_terms g l b = Some y -> cong w x y) as Hs.
  { clear -Hw. intros l. induction l as [|v l IH]; intros a b x y Hfg Hab Hx Hy; simpl in *.
    - by simplify_eq.
    - destruct (f v) as [c|] eqn:Ef; [|done]. destruct (g v) as [d|] eqn:Eg; [|done].
      simpl in *. unfold i128_check in Hy. inv_opt.
      eapply IH; [| |done|done].
      + intros v' a' b' Hv'. apply Hfg. by apply list_elem_of_further.
      + etransitivity; [apply cong_wrap; lia|]. apply cong_add; [lia|done|].
        eapply Hfg; [apply list_elem_of_here|done|done]. }
  destruct l as [|v l]; [done|]. simpl in *.
  destruct (f v) as [a|] eqn:Ef; [|done]. destruct (g v) as [b|] eqn:Eg; [|done].
  simpl in *. unfold i128_check in Hy. inv_opt.
  eapply Hs; [| |done|done].
  - intros v' a' b' Hv'. apply Hfg. by apply list_elem_of_further.
  - eapply Hfg; [apply list_elem_of_here|done|done].
Qed.

Lemma relative_offset_cong pv ps len cs32 l s o :
  sum_terms (offset_term pv ps len) l 0 = Some s ->
  relative_offset pv ps len cs32 l = Some o -> cong (ip_bits cs32) o (len + s).
Proof.
  intros Hs Ho. unfold relative_offset in Ho. rewrite Hs in Ho. simpl in Ho.
  unfold i128_check in Ho. inv_opt.
  destruct cs32; unfold ip_bits.
  - rewrite (signed_shift 128 32) by lia. apply cong_signed; lia.
  - rewrite (signed_shift 128 16) by lia. apply cong_signed; lia.
Qed.

(** Storing the new instruction pointer stores its low bits. *)
Lemma emit_jump_ip tmp s cs32 j s' :
  wf_state (cpu s) -> inw 64 (gpreg (cpu s) Ip) ->
  emit_jump tmp s cs32 j = Some (Some s') ->
  exists n b, jump_value tmp s j = Some (Some (n, b)) /\ cong (ip_bits cs32) (gpreg (cpu s') Ip) n.
Proof.
  intros Hwf Hip H. unfold emit_jump in H.
  destruct (jump_value tmp s j) as [[[n b]|]|] eqn:E; simpl in H; [|done|done].
  exists n, b. split; [done|]. unfold modify_dest in H. simpl in H.
  set (sz := {| start_byte := 0; end_byte := _ |}) in H.
  assert (in_range 8 sz /\ ip_bits cs32 <= bit_len sz) as [Hr Hlen].
  { unfold in_range, bit_len, sz, ip_bits. destruct cs32, b; simpl; lia. }
  rewrite modify_num_field in H by done. simpl in H. injection H as <-. simpl.
  rewrite gpreg_set, decide_True by done. change (gp_is_zero Ip) with false. cbn iota.
  assert (0 <= ip_bits cs32 <= 32) by (destruct cs32; simpl; lia).
  apply cong_bits; [lia|]. intros i Hi. unfold set_field, bit_off. change (8 * start_byte sz) with 0.
  autorewrite with zbits. unfold ip_bits in *. rewrite Z.sub_0_r.
  assert (bit_len sz <= 64) by (destruct Hr; unfold bit_len; lia).
  split_compares; btauto.
Qed.

(** The two possible values of a relative jump. *)
Lemma jump_value_relative w tmp s cond offset n b o cs32 :
  w = ip_bits cs32 ->
  Forall (offset_ok w s) offset ->
  jump_value tmp s (NearRelativeOffset cond offset) = Some (Some (n, b)) ->
  relative_offset (part_values s) (part_packing s) (instr_len s) cs32 offset = Some o ->
  exists c, emit_val tmp s cond = Some c
    /\ cong w n (gpreg (cpu s) Ip + (if c =? 0 then instr_len s else o)).
Proof.
  intros -> Hok Hv Ho. unfold jump_value in Hv. cbn [binop_execute] in Hv.
  destruct (emit_val tmp s cond) as [c|] eqn:Ec; [|done].
  destruct (reduce_terms _ offset) as [r|] eqn:Er; [|done]. simpl in Hv.
  injection Hv as <- _. exists c. split; [done|].
  assert (0 <= ip_bits cs32 <= 32) by (destruct cs32; simpl; lia).
  unfold ite. destruct (c =? 0); [apply cong_wrap; lia|].
  destruct (sum_terms (offset_term (part_values s) (part_packing s) (instr_len s)) offset 0)
    as [t|] eqn:Et; [|unfold relative_offset in Ho; by rewrite Et in Ho].
  assert (cong (ip_bits cs32) r t) as Hrt.
  { eapply reduce_sum_cong; [|intros v x y Hv Hx Hy|done|done]; [lia|].
    eapply offset_term_cong; [| |done|done]; [lia|].
    by eapply list.Forall_forall in Hok. }
  etransitivity; [apply cong_wrap; lia|].
  etransitivity; [apply cong_add; [lia|apply cong_wrap; lia|exact Hrt]|].
  rewrite <- Z.add_assoc. apply cong_add; [lia|done|]. symmetry. by eapply relative_offset_cong.
Qed.

(** What the static analysis needs of a jump: a constant condition is a plain
    constant, and the offsets are understood. *)
Definition jump_ok (w : Z) (s : SysState) (j : Jump) : Prop :=
  match j with
  | NearRelativeOffset condition offset =>
      Forall (offset_ok w s) offset
      /\ (as_const condition = None \/ exists k, condition = const_val k /\ inw 64 k)
  | _ => True
  end.


(** [try_derive_ips_from_condition] tells which address belongs to which value
    of the condition: the first one is next when it is zero, the second one
    otherwise. *)
Theorem derived_ips_exact (tmp : list Z) (s s' : SysState) (cs32 : bool) (j : Jump) z nz cond :
  wf_state (cpu s) -> inw 64 (gpreg (cpu s) Ip) ->
  jump_ok (ip_bits cs32) s j ->
  try_derive_ips_from_condition (part_values s) (part_packing s) (instr_len s) cs32 j
    = Some (Some (Relative z, Relative nz)) ->
  (j = Repeat cond \/ exists offset, j = NearRelativeOffset cond offset) ->
  emit_jump tmp s cs32 j = Some (Some s') ->
  exists c, emit_val tmp s cond = Some c
    /\ wrap (ip_bits cs32) (gpreg (cpu s') Ip)
       = wrap (ip_bits cs32) (gpreg (cpu s) Ip + (if c =? 0 then z else nz)).
Proof.
  intros Hwf Hip Hok Hl Hj He. assert (0 <= ip_bits cs32 <= 32) by (destruct cs32; simpl; lia).
  destruct (emit_jump_ip _ _ _ _ _ Hwf Hip He) as (n & b & Hv & Hn).
  cut (exists c, emit_val tmp s cond = Some c
    /\ cong (ip_bits cs32) n (gpreg (cpu s) Ip + (if c =? 0 then z else nz))).
  { intros (c & Hc & E). exists c. split; [done|]. by etransitivity. }
  destruct Hj as [-> |(offset & ->)]; simpl in Hl, Hok.
  - simplify_eq. simpl in Hv. destruct (emit_val tmp s cond) as [c|]; [|done].
    simpl in Hv. simplify_eq. exists c. split; [done|]. unfold ite. destruct (c =? 0).
    + apply cong_wrap. lia.
    + by rewrite Z.add_0_r.
  - destruct (relative_offset _ _ _ _ _) as [o|] eqn:Eo; [|done]. simpl in Hl.
    destruct (as_const cond); [done|]. simplify_eq.
    exact (jump_value_relative _ _ _ _ _ _ _ _ _ eq_refl (proj1 Hok) Hv Eo).
Qed.

(** A conditional short jump, backwards by 5 from a 2-byte instruction. *)
Definition ex_jump_state : SysState :=
  {| instr_len := 2; cpu := set_gpreg State_default Ip 0x1000; mem := [];
     part_values := 0xfb; part_packing := [{| offset := 0; len := 8 |}];
     parts := [Imm None false] |}.
Definition ex_cond : Val := VLoc {| loc := LReg (Gp Cx); size := size_new 0 3 |}.
Definition ex_jump : Jump :=
  NearRelativeOffset ex_cond [VConv {| loc := LPart 0; size := size_new 0 7 |} 8 32 true false].

Lemma ex_jump_ok : jump_ok 32 ex_jump_state ex_jump.
Proof.
  split; [|left; reflexivity]. constructor; [|constructor]. split; [|repeat split; vm_compute; congruence].
  split; [reflexivity|]. split; [vm_compute; split; congruence|].
  intros p E. injection E as <-. do 2 eexists. reflexivity.
Qed.


Lemma derived_ips_exact_witness : exists s' c,
  emit_jump [] ex_jump_state true ex_jump = Some (Some s')
  /\ emit_val [] ex_jump_state ex_cond = Some c
  /\ wrap 32 (gpreg (cpu s') Ip) = wrap 32 (0x1000 + (if c =? 0 then 2 else -3)).
Proof.
  destruct (emit_jump [] ex_jump_state true ex_jump) as [[s'|]|] eqn:E;
    [|vm_compute in E; discriminate E..].
  destruct (derived_ips_exact [] ex_jump_state s' true ex_jump 2 (-3) ex_cond) as (c & Ec & Hc).
  - split; reflexivity.
  - split; vm_compute; congruence.
  - exact ex_jump_ok.
  - reflexivity.
  - right. eexists. reflexivity.
  - exact E.
  - exists s', c. split; [reflexivity|]. split; [exact Ec|exact Hc].
Defined.
