(* ===== verification/Intr.v ===== *)
(** * The interrupt request line of the CPU

    [sem86-core/src/hw/intr.rs]: a counter of the devices that currently ask
    for an interrupt.  A [PendingRequest] is a permit: creating one increments
    the counter, dropping it decrements it.  Devices hold at most one permit
    each, so that a device's [Option<PendingRequest>] is a boolean here.  The
    atomic operations are modelled as the sequential steps they are for one
    device at a time. *)
From S2P Require Import Prelude.

Record Intr := {
  count : Z;                         (* AtomicU32 *)
  pointer_is_valid : bool;
}.

Definition intr_new : Intr := {| count := 0; pointer_is_valid := true |}.

Definition any_pending (i : Intr) : bool := pointer_is_valid i && (0 <? count i).

(** [IntrHandle::request] *)
Definition request (i : Intr) : Intr :=
  if pointer_is_valid i then {| count := wrap 32 (count i + 1); pointer_is_valid := true |}
  else i.

(** [PendingRequest::drop]: the counter is decremented, then the old value is
    asserted not to be zero. *)
Definition drop_request (i : Intr) : option Intr :=
  if pointer_is_valid i then
    assert (negb (count i =? 0));;
    Some {| count := wrap 32 (count i - 1); pointer_is_valid := true |}
  else Some i.

(** Assigning [Some(handle.request())] to, or taking, an
    [Option<PendingRequest>]; the old permit is dropped after the new one has
    been made. *)
Definition replace_request (held : bool) (i : Intr) : option Intr :=
  let i := request i in if held then drop_request i else Some i.

(** ** The counter counts permits

    [others] permits are held by other devices, and one by this device when
    [held]. *)
Definition counts (i : Intr) (others : Z) (held : bool) : Prop :=
  pointer_is_valid i = true /\ count i = others + b2z held /\ 0 <= others < 2 ^ 32 - 1.

Lemma counts_request i others :
  counts i others false -> counts (request i) others true.
Proof.
  intros (Hv & Hc & Ho). unfold request, counts. rewrite Hv. simpl in *.
  rewrite wrap_small by (unfold inw; lia). split; [done|lia].
Qed.

Lemma counts_drop i others :
  counts i others true -> exists i', drop_request i = Some i' /\ counts i' others false.
Proof.
  intros (Hv & Hc & Ho). unfold drop_request. rewrite Hv. simpl in *.
  rewrite (proj2 (Z.eqb_neq _ _)) by lia. simpl. eexists. split; [done|].
  unfold counts. simpl. rewrite wrap_small by (unfold inw; lia). split; [done|lia].
Qed.

Lemma counts_any_pending i others held : counts i others held -> held = true -> any_pending i = true.
Proof.
  intros (Hv & Hc & Ho) ->. unfold any_pending. rewrite Hv, Hc. simpl. apply Z.ltb_lt. lia.
Qed.
