(* ===== verification/PicLegacy.v ===== *)
(** * The 8259 interrupt controllers

    [sem86-core/src/hw/pic/legacy.rs]: the core that the two cascaded
    controllers share, the controllers with their initialisation state machine
    and the interrupt lines.  The [AtomicU8]s and the mutex of the shared core
    are plain fields here: every operation runs to its end before the next. *)
From S2P Require Import Prelude Intr.

Inductive PicState : Type :=
| Ready
| Icw2 (need_icw4 : bool)
| Icw3 (need_icw4 : bool)
| Icw4.

Inductive Cascade : Type :=
| SinglePic (cascade_id : Z)
| CascadePic (cascade_map : Z).

Inductive Adi : Type := Interval4 | Interval8.
Inductive TriggerMode : Type := Level | Edge.

(** ** Priorities *)

Definition INTERRUPT_LINE_PRIORITY_ORDER : list Z :=
  [0; 1; 2; 8; 9; 10; 11; 12; 13; 14; 15; 3; 4; 5; 6; 7].

Fixpoint find_line (order : list Z) (p lines : Z) : Z * option Z :=
  match order with
  | [] => (0xff, None)
  | l :: order => if bit lines l then (p, Some l) else find_line order (p + 1) lines
  end.

(** [(priority, line)] *)
Definition highest_priority_line (lines : Z) : Z * option Z :=
  find_line INTERRUPT_LINE_PRIORITY_ORDER 0 lines.

(** ** The shared core *)

(** Two-element arrays of bytes. *)
Record Pair8 := { first : Z; second : Z }.

Definition get2 (p : Pair8) (i : Z) : option Z :=
  match i with 0 => Some (first p) | 1 => Some (second p) | _ => None end.
Definition set2 (p : Pair8) (i v : Z) : option Pair8 :=
  match i with
  | 0 => Some {| first := v; second := second p |}
  | 1 => Some {| first := first p; second := v |}
  | _ => None
  end.
Definition modify2 (p : Pair8) (i : Z) (f : Z -> Z) : option Pair8 :=
  v ← get2 p i; set2 p i (f v).

Record Core := {
  intr : Intr;
  pending_request : bool;
  pending_interrupts : Pair8;
  in_service : Pair8;
  imr : Pair8;
  vector_offset : Pair8;
}.

Definition zero2 : Pair8 := {| first := 0; second := 0 |}.
Definition core_new (i : Intr) : Core :=
  {| intr := i; pending_request := false; pending_interrupts := zero2;
     in_service := zero2; imr := zero2; vector_offset := zero2 |}.

Definition with_request (c : Core) (i : Intr) (held : bool) : Core :=
  {| intr := i; pending_request := held; pending_interrupts := pending_interrupts c;
     in_service := in_service c; imr := imr c; vector_offset := vector_offset c |}.
Definition with_pending (c : Core) (p : Pair8) : Core :=
  {| intr := intr c; pending_request := pending_request c; pending_interrupts := p;
     in_service := in_service c; imr := imr c; vector_offset := vector_offset c |}.
Definition with_in_service (c : Core) (p : Pair8) : Core :=
  {| intr := intr c; pending_request := pending_request c;
     pending_interrupts := pending_interrupts c; in_service := p; imr := imr c;
     vector_offset := vector_offset c |}.
Definition with_imr (c : Core) (p : Pair8) : Core :=
  {| intr := intr c; pending_request := pending_request c;
     pending_interrupts := pending_interrupts c; in_service := in_service c; imr := p;
     vector_offset := vector_offset c |}.
Definition with_vector_offset (c : Core) (p : Pair8) : Core :=
  {| intr := intr c; pending_request := pending_request c;
     pending_interrupts := pending_interrupts c; in_service := in_service c;
     imr := imr c; vector_offset := p |}.

Definition as_u16 (p : Pair8) : Z := from_le_bytes [first p; second p].

Definition effective_pending_interrupts (c : Core) : Z :=
  let eff pending in_service imr := Z.land (Z.land pending (unot 8 in_service)) (unot 8 imr) in
  Z.lor (eff (first (pending_interrupts c)) (first (in_service c)) (first (imr c)))
        (Z.shiftl (eff (second (pending_interrupts c)) (second (in_service c)) (second (imr c))) 8).

Definition in_service_interrupt_priority (c : Core) : Z :=
  (highest_priority_line (as_u16 (in_service c))).1.

Definition update_pending_interrupt (c : Core) : option Core :=
  let pending := effective_pending_interrupts c in
  let in_service_priority := in_service_interrupt_priority c in
  let pending_priority := (highest_priority_line pending).1 in
  if negb (pending =? 0) && (pending_priority <? in_service_priority) then
    if pending_request c then Some c
    else Some (with_request c (request (intr c)) true)
  else if pending_request c then
    i ← drop_request (intr c); Some (with_request c i false)
  else Some c.

Definition start_servicing_interrupt (c : Core) (index : Z) : option Core :=
  p ← modify2 (in_service c) (index / 8) (fun v => Z.lor v (wrap 8 (Z.shiftl 1 (index mod 8))));
  update_pending_interrupt (with_in_service c p).

(** The vector that the CPU acknowledges; the [u8] addition may panic. *)
Definition get_next_interrupt (c : Core) : option (option Z * Core) :=
  let pending := effective_pending_interrupts c in
  if negb (pending =? 0) then
    match highest_priority_line pending with
    | (pending_priority, Some line) =>
        if pending_priority <? in_service_interrupt_priority c then
          c ← start_servicing_interrupt c line;
          off ← get2 (vector_offset c) (line / 8);
          assert (line mod 8 + off <? 256);;
          Some (Some (line mod 8 + off), c)
        else Some (None, c)
    | (_, None) => None
    end
  else Some (None, c).

Record CoreSnapshot := {
  s_has_pending_request : bool;
  s_pending_interrupts : Pair8;
  s_in_service : Pair8;
  s_imr : Pair8;
  s_vector_offset : Pair8;
}.

Definition core_snapshot (c : Core) : CoreSnapshot :=
  {| s_has_pending_request := pending_request c;
     s_pending_interrupts := pending_interrupts c; s_in_service := in_service c;
     s_imr := imr c; s_vector_offset := vector_offset c |}.

Definition core_restore (c : Core) (s : CoreSnapshot) : option Core :=
  c ← (if s_has_pending_request s then
         i ← replace_request (pending_request c) (intr c); Some (with_request c i true)
       else Some c);
  Some {| intr := intr c; pending_request := pending_request c;
          pending_interrupts := s_pending_interrupts s; in_service := s_in_service s;
          imr := s_imr s; vector_offset := s_vector_offset s |}.

(** ** A controller *)

Record Pic := {
  state : PicState;
  cascade_mode : Cascade;
  adi : Adi;
  trigger_mode : TriggerMode;
  register_select : Z;
  read_register : bool;
  poll_command : bool;
  controller_index : Z;
}.

Definition with_state (p : Pic) (s : PicState) : Pic :=
  {| state := s; cascade_mode := cascade_mode p; adi := adi p;
     trigger_mode := trigger_mode p; register_select := register_select p;
     read_register := read_register p; poll_command := poll_command p;
     controller_index := controller_index p |}.
Definition with_cascade (p : Pic) (m : Cascade) : Pic :=
  {| state := state p; cascade_mode := m; adi := adi p;
     trigger_mode := trigger_mode p; register_select := register_select p;
     read_register := read_register p; poll_command := poll_command p;
     controller_index := controller_index p |}.

Definition pic_new (controller_index vector_offset_ : Z) (c : Core) : option (Pic * Core) :=
  v ← set2 (vector_offset c) controller_index vector_offset_;
  Some ({| state := Ready; cascade_mode := SinglePic 0; adi := Interval8;
           trigger_mode := Edge; register_select := 0; read_register := false;
           poll_command := false; controller_index := controller_index |},
        with_vector_offset c v).

Definition pic_read (p : Pic) (c : Core) (addr : Z) : option Z :=
  if addr =? 0 then
    if read_register p then
      match register_select p with
      | 0 => get2 (pending_interrupts c) (controller_index p)
      | 1 => get2 (in_service c) (controller_index p)
      | _ => None
      end
    else Some 0
  else get2 (imr c) (controller_index p).

Definition end_of_interrupt (p : Pic) (c : Core) (index : Z) : option Core :=
  let mask := unot 8 (wrap 8 (Z.shiftl 1 index)) in
  s ← modify2 (in_service c) (controller_index p) (fun v => Z.land v mask);
  i ← modify2 (pending_interrupts c) (controller_index p) (fun v => Z.land v mask);
  update_pending_interrupt (with_pending (with_in_service c s) i).

(** The first initialisation word. *)
Definition write_icw1 (p : Pic) (val : Z) : Pic :=
  {| state := Icw2 (bit val 0);
     cascade_mode := if bit val 1 then SinglePic 0 else CascadePic 0;
     adi := if bit val 2 then Interval4 else Interval8;
     trigger_mode := if bit val 3 then Level else Edge;
     register_select := register_select p; read_register := read_register p;
     poll_command := poll_command p; controller_index := controller_index p |}.

(** Operation command word 2: the rotations and priority commands are not
    implemented by the code and change nothing. *)
Definition write_ocw2 (p : Pic) (c : Core) (val : Z) : option Core :=
  let index := Z.land val 0x7 in
  match Z.shiftr val 5 with
  | 1 =>
      s ← get2 (in_service c) (controller_index p);
      let highest_set := trailing_zeros 8 s in
      if highest_set <? 8 then end_of_interrupt p c highest_set else Some c
  | 3 => end_of_interrupt p c index
  | 5 | 4 | 0 | 7 | 6 | 2 => Some c
  | _ => None
  end.

Definition write_ocw3 (p : Pic) (val : Z) : Pic :=
  {| state := Ready; cascade_mode := cascade_mode p; adi := adi p;
     trigger_mode := trigger_mode p; register_select := Z.land val 1;
     read_register := bit val 1; poll_command := bit val 2;
     controller_index := controller_index p |}.

Definition pic_write (p : Pic) (c : Core) (addr val : Z) : option (Pic * Core) :=
  if addr =? 0 then
    match state p with
    | Ready =>
        if bit val 4 then Some (write_icw1 p val, c)
        else if Z.land val 0x18 =? 0x00 then
          c ← write_ocw2 p c val; Some (with_state p Ready, c)
        else if Z.land val 0x18 =? 0x08 then Some (write_ocw3 p val, c)
        else Some (with_state p Ready, c)
    | other => Some (with_state p other, c)
    end
  else
    match state p with
    | Ready =>
        m ← set2 (imr c) (controller_index p) val;
        c ← update_pending_interrupt (with_imr c m);
        Some (with_state p Ready, c)
    | Icw2 need_icw4 =>
        v ← set2 (vector_offset c) (controller_index p) (Z.land val 0xf8);
        let next := match cascade_mode p with
                    | SinglePic _ => if need_icw4 then Icw4 else Ready
                    | CascadePic _ => Icw3 need_icw4
                    end in
        Some (with_state p next, with_vector_offset c v)
    | Icw3 need_icw4 =>
        let m := match cascade_mode p with
                 | SinglePic _ => SinglePic (Z.land val 0x07)
                 | CascadePic _ => CascadePic (Z.land val 0x7f)
                 end in
        Some (with_state (with_cascade p m) (if need_icw4 then Icw4 else Ready), c)
    | Icw4 => Some (with_state p Ready, c)
    end.

Definition clear_pending (p : Pic) (c : Core) : option Core :=
  i ← set2 (pending_interrupts c) (controller_index p) 0;
  s ← set2 (in_service c) (controller_index p) 0;
  update_pending_interrupt (with_in_service (with_pending c i) s).

(** [Pic::get_line]: the global index of a line of a controller. *)
Definition get_line (p : Pic) (index : Z) : option Z :=
  assert (index + wrap 8 (controller_index p) * 8 <? 256);;
  Some (index + wrap 8 (controller_index p) * 8).

(** The snapshot of a controller is the controller without its core. *)
Definition pic_snapshot (p : Pic) : Pic := p.
Definition pic_restore (p s : Pic) : Pic := s.

(** ** Interrupt lines *)

Definition pulse (c : Core) (index : Z) : option Core :=
  p ← modify2 (pending_interrupts c) (index / 8)
        (fun v => Z.lor v (wrap 8 (Z.shiftl 1 (index mod 8))));
  update_pending_interrupt (with_pending c p).

Definition set_line (c : Core) (index : Z) (val : bool) : option Core :=
  if val then pulse c index else Some c.

(** ** Lines

    The state of a line, numbered 0 to 15 over both controllers. *)
Definition line (p : Pair8) (l : Z) : bool := bit (as_u16 p) l.

Definition requestable (c : Core) (l : Z) : bool :=
  line (pending_interrupts c) l && negb (line (in_service c) l) && negb (line (imr c) l).

(** The rank of a line in the priority order: smaller is more urgent. *)
Fixpoint rank_in (order : list Z) (p l : Z) : Z :=
  match order with
  | [] => 0xff
  | x :: order => if x =? l then p else rank_in order (p + 1) l
  end.
Definition rank (l : Z) : Z := rank_in INTERRUPT_LINE_PRIORITY_ORDER 0 l.

Definition pair_ok (p : Pair8) : Prop := inw 8 (first p) /\ inw 8 (second p).

Lemma line_bits p l :
  pair_ok p -> 0 <= l < 16 ->
  line p l = if l <? 8 then bit (first p) l else bit (second p) (l - 8).
Proof.
  intros [H1 H2] Hl. unfold line, as_u16, bit. cbn [from_le_bytes].
  rewrite Z.shiftl_0_l, Z.lor_0_r, Z.lor_spec, testbit_shiftl by lia.
  split_compares; bits_norm; rewrite ?orb_false_r; done.
Qed.

Lemma line_high p l : pair_ok p -> 16 <= l -> line p l = false.
Proof.
  intros [H1 H2] Hl. unfold line, as_u16, bit. cbn [from_le_bytes].
  rewrite Z.shiftl_0_l, Z.lor_0_r, Z.lor_spec, testbit_shiftl by lia.
  split_compares; by bits_norm.
Qed.

(** The masks the operations use set, clear and replace lines. *)
Lemma line_set2 p i v p' l :
  pair_ok p -> inw 8 v -> set2 p i v = Some p' -> 0 <= l < 16 ->
  pair_ok p' /\ line p' l = if l / 8 =? i then bit v (l mod 8) else line p l.
Proof.
  intros Hp Hv E Hl. assert (pair_ok p') as Hp'.
  { unfold set2 in E. destruct Hp. repeat case_match; simplify_eq; by split. }
  split; [done|]. rewrite !line_bits by done.
  assert (l / 8 = if l <? 8 then 0 else 1) as -> by (split_compares; Z.to_euclidean_division_equations; lia).
  assert (l mod 8 = if l <? 8 then l else l - 8) as ->
    by (split_compares; Z.to_euclidean_division_equations; lia).
  unfold set2 in E. repeat case_match; simplify_eq; simpl; done.
Qed.

Lemma set2_defined p i v : 0 <= i < 2 -> exists p', set2 p i v = Some p'.
Proof. intros. assert (i = 0 \/ i = 1) as [-> | ->] by lia; by eexists. Qed.

Lemma get2_defined p i : pair_ok p -> 0 <= i < 2 -> exists v, get2 p i = Some v /\ inw 8 v.
Proof. intros [H1 H2] Hi. assert (i = 0 \/ i = 1) as [-> | ->] by lia; eexists; by split. Qed.

Lemma get2_line p i v l :
  pair_ok p -> get2 p i = Some v -> 0 <= l < 16 -> l / 8 = i -> bit v (l mod 8) = line p l.
Proof.
  intros Hp E Hl <-. rewrite line_bits by done.
  assert (l mod 8 = if l <? 8 then l else l - 8) as ->
    by (split_compares; Z.to_euclidean_division_equations; lia).
  assert (l / 8 = if l <? 8 then 0 else 1) as Hd by (split_compares; Z.to_euclidean_division_equations; lia).
  rewrite Hd in E. by destruct (l <? 8); simplify_eq/=.
Qed.

Lemma bit_one k j : 0 <= k < 8 -> bit (wrap 8 (Z.shiftl 1 k)) j = (j =? k).
Proof.
  intros Hk. unfold bit. rewrite testbit_wrap, testbit_shiftl by lia.
  change 1 with (2 ^ 0). rewrite testbit_pow2 by lia. split_compares.
Qed.

(** [modify2] with the bit of line [n] set or cleared. *)
Lemma set_line_bit p n :
  pair_ok p -> 0 <= n < 16 ->
  exists p', modify2 p (n / 8) (fun v => Z.lor v (wrap 8 (Z.shiftl 1 (n mod 8)))) = Some p'
    /\ pair_ok p' /\ forall l, 0 <= l < 16 -> line p' l = (l =? n) || line p l.
Proof.
  intros Hp Hn. unfold modify2.
  pose proof (Z.mod_pos_bound n 8 ltac:(lia)) as Hm.
  assert (0 <= n / 8 < 2) as Hi by (Z.to_euclidean_division_equations; lia).
  destruct (get2_defined p (n / 8) Hp Hi) as (v & E & Hv). rewrite E. simpl.
  set (u := Z.lor v _). assert (inw 8 u) as Hu.
  { unfold u. apply inw_lor; [lia|done|by apply wrap_inw]. }
  destruct (set2_defined p (n / 8) u Hi) as (p' & E'). exists p'. split; [done|].
  split; [by eapply (line_set2 p (n / 8) u p' 0)|]. intros l Hl.
  destruct (line_set2 _ _ _ _ l Hp Hu E' Hl) as [_ ->].
  destruct (Z.eqb_spec (l / 8) (n / 8)) as [Ed|Ed].
  - unfold u, bit. rewrite Z.lor_spec. fold (bit v (l mod 8)).
    fold (bit (wrap 8 (Z.shiftl 1 (n mod 8))) (l mod 8)). rewrite bit_one by done.
    rewrite (get2_line p (n / 8) v l) by done. rewrite orb_comm. f_equal.
    destruct (Z.eqb_spec (l mod 8) (n mod 8)), (Z.eqb_spec l n); subst; try done;
      Z.to_euclidean_division_equations; lia.
  - destruct (Z.eqb_spec l n); [congruence|done].
Qed.

Lemma clear_line_bit p i k :
  pair_ok p -> 0 <= i < 2 -> 0 <= k < 8 ->
  exists p', modify2 p i (fun v => Z.land v (unot 8 (wrap 8 (Z.shiftl 1 k)))) = Some p'
    /\ pair_ok p' /\ forall l, 0 <= l < 16 -> line p' l = negb (l =? 8 * i + k) && line p l.
Proof.
  intros Hp Hi Hk. unfold modify2.
  destruct (get2_defined p i Hp Hi) as (v & E & Hv). rewrite E. simpl.
  set (m := unot 8 _). assert (inw 8 m) as Hm.
  { apply inw_lxor; [lia|by apply wrap_inw|by apply inw_ones]. }
  assert (inw 8 (Z.land v m)) as Hu by (apply inw_land; [lia|done|apply Hm]).
  destruct (set2_defined p i (Z.land v m) Hi) as (p' & E'). exists p'. split; [done|].
  split; [by eapply (line_set2 p i _ p' 0)|]. intros l Hl.
  destruct (line_set2 _ _ _ _ l Hp Hu E' Hl) as [_ ->].
  destruct (Z.eqb_spec (l / 8) i) as [Ed|Ed].
  - unfold bit. rewrite Z.land_spec. fold (bit v (l mod 8)).
    rewrite (get2_line p i v l) by done. rewrite andb_comm. f_equal.
    unfold m. rewrite testbit_unot by lia. fold (bit (wrap 8 (Z.shiftl 1 k)) (l mod 8)).
    rewrite bit_one by done. pose proof (Z.mod_pos_bound l 8 ltac:(lia)).
    destruct (Z.eqb_spec (l mod 8) k), (Z.eqb_spec l (8 * i + k)); split_compares;
      Z.to_euclidean_division_equations; lia.
  - destruct (Z.eqb_spec l (8 * i + k)); [|done].
    Z.to_euclidean_division_equations; lia.
Qed.

(** ** Priorities *)

Definition core_ok (c : Core) : Prop :=
  pair_ok (pending_interrupts c) /\ pair_ok (in_service c) /\ pair_ok (imr c)
  /\ pair_ok (vector_offset c).

Lemma effective_bit c l :
  core_ok c -> 0 <= l < 16 -> bit (effective_pending_interrupts c) l = requestable c l.
Proof.
  intros ([P1 P2] & [S1 S2] & [I1 I2] & _) Hl. unfold requestable.
  rewrite !line_bits by (done || by split). unfold effective_pending_interrupts, bit.
  autorewrite with zbits. split_compares; bits_norm;
    rewrite ?andb_false_l, ?orb_false_r; btauto.
Qed.

Lemma effective_high c l :
  core_ok c -> 16 <= l -> bit (effective_pending_interrupts c) l = false.
Proof.
  intros ([P1 P2] & [S1 S2] & [I1 I2] & _) Hl. unfold effective_pending_interrupts, bit.
  autorewrite with zbits. bits_norm. by rewrite !andb_false_l, andb_false_r.
Qed.

Lemma effective_nonneg c : core_ok c -> 0 <= effective_pending_interrupts c.
Proof.
  intros ([P1 P2] & _). unfold effective_pending_interrupts.
  apply Z.lor_nonneg. split; [|apply Z.shiftl_nonneg];
    apply Z.land_nonneg; left; apply Z.land_nonneg; left; [apply P1|apply P2].
Qed.

(** [find_line] finds the first line of the order that is set. *)
Lemma rank_in_ge order p l :
  p + Z.of_nat (length order) <= 0xff -> p <= rank_in order p l.
Proof.
  revert p. induction order as [|x order IH]; intros p Hp; cbn [rank_in length] in *; [lia|].
  destruct (x =? l); [lia|]. specialize (IH (p + 1)). lia.
Qed.

Lemma find_line_spec order p lines :
  p + Z.of_nat (length order) <= 0xff ->
  match find_line order p lines with
  | (q, Some l) =>
      l ∈ order /\ bit lines l = true /\ q = rank_in order p l
      /\ (forall l', l' ∈ order -> bit lines l' = true -> rank_in order p l <= rank_in order p l')
  | (q, None) => q = 0xff /\ forall l, l ∈ order -> bit lines l = false
  end.
Proof.
  revert p. induction order as [|x order IH]; intros p Hp; cbn [find_line rank_in length] in *.
  { split; [done|]. intros l Hl. by apply not_elem_of_nil in Hl. }
  destruct (bit lines x) eqn:Ex.
  - rewrite Z.eqb_refl. split; [apply list_elem_of_here|]. split; [done|]. split; [done|].
    intros l' Hl' _. destruct (x =? l'); [lia|]. pose proof (rank_in_ge order (p + 1) l'). lia.
  - specialize (IH (p + 1) ltac:(lia)).
    destruct (find_line order (p + 1) lines) as [q [l|]].
    + destruct IH as (Hin & Hb & -> & Hmin). split; [by apply list_elem_of_further|].
      split; [done|]. destruct (Z.eqb_spec x l); [congruence|]. split; [done|].
      intros l' Hl' Hb'. destruct (Z.eqb_spec x l'); [congruence|]. apply Hmin; [|done].
      apply elem_of_cons in Hl' as [->|?]; [congruence|done].
    + destruct IH as [-> Hnone]. split; [done|]. intros l [->|Hl]%elem_of_cons; [done|].
      by apply Hnone.
Qed.

Lemma in_order l : 0 <= l < 16 <-> l ∈ INTERRUPT_LINE_PRIORITY_ORDER.
Proof.
  unfold INTERRUPT_LINE_PRIORITY_ORDER. rewrite !elem_of_cons, elem_of_nil. lia.
Qed.

Lemma rank_bound l : 0 <= l < 16 -> 0 <= rank l < 16.
Proof.
  intros Hl. assert (all_below 16 (fun l => (0 <=? rank l) && (rank l <? 16)) = true) as H by done.
  apply (all_below_spec _ _ l) in H; [|done]. cbv beta in H.
  rewrite andb_true_iff, Z.leb_le, Z.ltb_lt in H. done.
Qed.

Lemma rank_inj l l' : 0 <= l < 16 -> 0 <= l' < 16 -> rank l = rank l' -> l = l'.
Proof.
  intros Hl Hl' E.
  assert (all_below 16 (fun l => all_below 16 (fun l' =>
    negb (rank l =? rank l') || (l =? l'))) = true) as H by done.
  apply (all_below_spec _ _ l) in H; [|done]. cbv beta in H.
  apply (all_below_spec _ _ l') in H; [|done]. cbv beta in H. rewrite E, Z.eqb_refl in H.
  by apply Z.eqb_eq.
Qed.

(** The most urgent line of a set, when there is one. *)
Lemma highest_priority_line_spec lines :
  match highest_priority_line lines with
  | (q, Some l) =>
      0 <= l < 16 /\ bit lines l = true /\ q = rank l
      /\ (forall l', 0 <= l' < 16 -> bit lines l' = true -> rank l <= rank l')
  | (q, None) => q = 0xff /\ forall l, 0 <= l < 16 -> bit lines l = false
  end.
Proof.
  unfold highest_priority_line.
  pose proof (find_line_spec INTERRUPT_LINE_PRIORITY_ORDER 0 lines ltac:(done)) as H.
  destruct (find_line _ 0 lines) as [q [l|]].
  - destruct H as (Hin & Hb & -> & Hmin). rewrite <- in_order in Hin. split; [done|].
    split; [done|]. split; [done|]. intros l' Hl'. apply Hmin. by apply in_order.
  - destruct H as [-> H]. split; [done|]. intros l Hl. by apply H, in_order.
Qed.

(** ** When an interrupt is requested

    An interrupt is requested for a line that is pending, neither in service
    nor masked, and more urgent than every line in service. *)
Definition deliverable (c : Core) (l : Z) : Prop :=
  0 <= l < 16 /\ requestable c l = true
  /\ (forall l', 0 <= l' < 16 -> requestable c l' = true -> rank l <= rank l')
  /\ (forall l', 0 <= l' < 16 -> line (in_service c) l' = true -> rank l < rank l').

Lemma in_service_priority_spec c r :
  core_ok c -> 0 <= r < 16 ->
  r < in_service_interrupt_priority c <->
  (forall l', 0 <= l' < 16 -> line (in_service c) l' = true -> r < rank l').
Proof.
  intros Hok Hr. unfold in_service_interrupt_priority, line.
  pose proof (highest_priority_line_spec (as_u16 (in_service c))) as H.
  destruct (highest_priority_line _) as [q [l|]]; simpl.
  - destruct H as (Hl & Hb & -> & Hmin). split.
    + intros Hlt l' Hl' Hb'. specialize (Hmin l' Hl' Hb'). lia.
    + intros H. by apply H.
  - destruct H as [-> H]. split; [|lia]. intros _ l' Hl' Hb'. rewrite H in Hb'; done.
Qed.

Lemma effective_zero c :
  core_ok c -> effective_pending_interrupts c = 0 <-> forall l, 0 <= l < 16 -> requestable c l = false.
Proof.
  intros Hok. split.
  - intros E l Hl. rewrite <- effective_bit by done. rewrite E. apply Z.bits_0.
  - intros H. apply Z.bits_inj'. intros i Hi. rewrite Z.bits_0.
    destruct (Z.lt_ge_cases i 16).
    + fold (bit (effective_pending_interrupts c) i). rewrite effective_bit by done. by apply H.
    + by apply effective_high.
Qed.

(** The condition that [update_pending_interrupt] computes. *)
Definition requests (c : Core) : bool :=
  negb (effective_pending_interrupts c =? 0)
  && ((highest_priority_line (effective_pending_interrupts c)).1 <? in_service_interrupt_priority c).

Lemma requests_spec c : core_ok c -> requests c = true <-> exists l, deliverable c l.
Proof.
  intros Hok. unfold requests.
  pose proof (highest_priority_line_spec (effective_pending_interrupts c)) as H.
  destruct (highest_priority_line _) as [q [l|]]; cbn [fst].
  - destruct H as (Hl & Hb & -> & Hmin). rewrite effective_bit in Hb by done.
    rewrite andb_true_iff, negb_true_iff, Z.eqb_neq, Z.ltb_lt.
    rewrite in_service_priority_spec by (done || by apply rank_bound). split.
    + intros [_ Hs]. exists l. split; [done|]. split; [done|]. split; [|done].
      intros l' Hl' Hr. apply Hmin; [done|]. by rewrite effective_bit.
    + intros (l0 & Hl0 & Hr0 & Hmin0 & Hs0). split.
      * intros E. rewrite effective_zero in E by done. rewrite E in Hb; done.
      * intros l' Hl' Hs'. specialize (Hmin0 l Hl Hb). specialize (Hs0 l' Hl' Hs').
        specialize (Hmin l0 Hl0). rewrite effective_bit in Hmin by done. specialize (Hmin Hr0). lia.
  - destruct H as [-> H]. split.
    + rewrite andb_true_iff, negb_true_iff, Z.eqb_neq. intros [Hne _]. exfalso. apply Hne.
      apply effective_zero; [done|]. intros l Hl. by rewrite <- effective_bit, H.
    + intros (l & Hl & Hr & _). rewrite <- effective_bit, H in Hr by done. done.
Qed.

(** The invariant: the core holds a permit exactly when an interrupt can be
    delivered, and the CPU's counter accounts for it. *)
Definition core_inv (others : Z) (c : Core) : Prop :=
  core_ok c /\ counts (intr c) others (pending_request c)
  /\ pending_request c = requests c.

Lemma update_inv others c :
  core_ok c -> counts (intr c) others (pending_request c) ->
  exists i held, update_pending_interrupt c = Some (with_request c i held)
    /\ core_inv others (with_request c i held).
Proof.
  intros Hok Hc. unfold update_pending_interrupt. cbv zeta. fold (requests c).
  assert (forall i held, counts i others held -> held = requests c ->
    core_inv others (with_request c i held)) as Hinv.
  { intros i held Hci Hh. split; [exact Hok|]. split; [exact Hci|exact Hh]. }
  assert (c = with_request c (intr c) (pending_request c)) as Hself by (by destruct c).
  destruct (requests c) eqn:Er, (pending_request c) eqn:Ep.
  - exists (intr c), true. split; [by rewrite Hself at 1|]. by apply Hinv.
  - eexists _, true. split; [done|]. apply Hinv; [by apply counts_request|done].
  - destruct (counts_drop _ _ Hc) as (i & E & Hi). rewrite E. simpl.
    exists i, false. split; [done|]. by apply Hinv.
  - exists (intr c), false. split; [by rewrite Hself at 1|]. by apply Hinv.
Qed.

(** ** The operations keep the invariant *)

(** The vector offsets that [Pic::write] stores. *)
Definition offsets_ok (c : Core) : Prop :=
  first (vector_offset c) <= 0xf8 /\ second (vector_offset c) <= 0xf8.

(** Acknowledging an interrupt: with a deliverable line the CPU gets the vector
    of the most urgent one, which is then in service and stays pending; without
    one nothing changes.  No step panics. *)
Lemma get_next_interrupt_spec (others : Z) (c : Core) :
  core_inv others c -> offsets_ok c ->
  exists r c', get_next_interrupt c = Some (r, c') /\ core_inv others c'
  /\ match r with
     | Some v =>
         exists l off, deliverable c l /\ get2 (vector_offset c) (l / 8) = Some off
         /\ v = l mod 8 + off
         /\ (forall l', 0 <= l' < 16 ->
               line (in_service c') l' = (l' =? l) || line (in_service c) l')
         /\ pending_interrupts c' = pending_interrupts c /\ imr c' = imr c
         /\ vector_offset c' = vector_offset c
     | None => c' = c /\ forall l, ~ deliverable c l
     end.
Proof.
  intros Hinv Hoff. pose proof Hinv as (Hok & Hcnt & Hreq).
  pose proof (requests_spec c Hok) as Hspec. unfold get_next_interrupt. cbv zeta.
  unfold requests in Hspec.
  destruct (effective_pending_interrupts c =? 0) eqn:E0; simpl in *.
  { exists None, c. split; [done|]. split; [done|]. split; [done|].
    intros l Hl. assert (false = true) by (apply Hspec; eauto). done. }
  pose proof (highest_priority_line_spec (effective_pending_interrupts c)) as H.
  destruct (highest_priority_line _) as [q [l|]]; cbn [fst] in *.
  2: { destruct H as [-> H]. exfalso. apply Z.eqb_neq in E0. apply E0.
       apply effective_zero; [done|]. intros l Hl. by rewrite <- effective_bit, H. }
  destruct H as (Hl & Hb & -> & Hmin). rewrite effective_bit in Hb by done.
  destruct (rank l <? in_service_interrupt_priority c) eqn:Elt; cycle 1.
  { exists None, c. split; [done|]. split; [done|]. split; [done|].
    intros l' Hl'. assert (false = true) by (apply Hspec; eauto). done. }
  assert (deliverable c l) as Hdel.
  { split; [done|]. split; [done|]. split.
    - intros l' Hl' Hr. apply Hmin; [done|]. by rewrite effective_bit.
    - apply in_service_priority_spec; [done|by apply rank_bound|]. by apply Z.ltb_lt. }
  unfold start_servicing_interrupt.
  destruct (set_line_bit (in_service c) l) as (p & -> & Hp & Hbits); [apply Hok|done|]. simpl.
  destruct (update_inv others (with_in_service c p)) as (i & held & -> & Hinv').
  { split; [apply Hok|]. split; [done|]. apply Hok. }
  { done. }
  simpl. assert (0 <= l / 8 < 2) as Hi by (Z.to_euclidean_division_equations; lia).
  destruct (get2_defined (vector_offset c) (l / 8)) as (off & Eo & Hob); [apply Hok|done|].
  rewrite Eo. simpl. assert (off <= 0xf8).
  { destruct Hoff. unfold get2 in Eo. repeat case_match; simplify_eq; lia. }
  pose proof (Z.mod_pos_bound l 8 ltac:(lia)).
  rewrite (proj2 (Z.ltb_lt _ 256)) by lia. simpl.
  eexists _, _. split; [done|]. split; [done|]. exists l, off. done.
Qed.

(** Raising a line makes it pending and nothing else; the core asks for an
    interrupt exactly when one can now be delivered. *)
Lemma pulse_inv others c n :
  core_inv others c -> 0 <= n < 16 ->
  exists c', pulse c n = Some c' /\ core_inv others c'
    /\ (forall l, 0 <= l < 16 ->
          line (pending_interrupts c') l = (l =? n) || line (pending_interrupts c) l)
    /\ in_service c' = in_service c /\ imr c' = imr c /\ vector_offset c' = vector_offset c.
Proof.
  intros (Hok & Hc & _) Hn. unfold pulse.
  destruct (set_line_bit (pending_interrupts c) n) as (p & -> & Hp & Hbits); [apply Hok|done|].
  destruct (update_inv others (with_pending c p)) as (i & held & E & Hinv').
  { split; [done|]. apply Hok. }
  { done. }
  simpl. rewrite E. eexists. split; [done|]. split; [done|]. done.
Qed.

Lemma eoi_inv others p c k :
  core_inv others c -> 0 <= controller_index p < 2 -> 0 <= k < 8 ->
  exists c', end_of_interrupt p c k = Some c' /\ core_inv others c'
    /\ (forall l, 0 <= l < 16 ->
          line (pending_interrupts c') l
          = negb (l =? 8 * controller_index p + k) && line (pending_interrupts c) l)
    /\ (forall l, 0 <= l < 16 ->
          line (in_service c') l
          = negb (l =? 8 * controller_index p + k) && line (in_service c) l)
    /\ imr c' = imr c /\ vector_offset c' = vector_offset c.
Proof.
  intros (Hok & Hc & _) Hp Hk. unfold end_of_interrupt. cbv zeta.
  destruct (clear_line_bit (in_service c) (controller_index p) k) as (s & -> & Hs & Sb);
    [apply Hok|done|done|].
  destruct (clear_line_bit (pending_interrupts c) (controller_index p) k) as (i & -> & Hi & Ib);
    [apply Hok|done|done|].
  destruct (update_inv others (with_pending (with_in_service c s) i)) as (x & held & E & Hinv').
  { split; [done|]. split; [done|]. apply Hok. }
  { done. }
  simpl. rewrite E. eexists. split; [done|]. split; [done|]. done.
Qed.

(** ** End of interrupt *)

(** Within a controller, lower lines are more urgent. *)
Lemma rank_monotone i k k' :
  0 <= i < 2 -> 0 <= k < k' -> k' < 8 -> rank (8 * i + k) < rank (8 * i + k').
Proof.
  intros Hi Hk Hk'.
  assert (all_below 2 (fun i => all_below 8 (fun k => all_below 8 (fun k' =>
    negb (k <? k') || (rank (8 * i + k) <? rank (8 * i + k'))))) = true) as H by done.
  apply (all_below_spec _ _ i) in H; [|lia]. cbv beta in H.
  apply (all_below_spec _ _ k) in H; [|lia]. cbv beta in H.
  apply (all_below_spec _ _ k') in H; [|lia]. cbv beta in H.
  rewrite (proj2 (Z.ltb_lt k k')) in H by lia. by apply Z.ltb_lt.
Qed.

(** The operations that leave the offsets alone. *)
Definition same_setup (c c' : Core) : Prop :=
  imr c' = imr c /\ vector_offset c' = vector_offset c.

Lemma write_ocw2_inv others p c val :
  core_inv others c -> 0 <= controller_index p < 2 -> inw 8 val ->
  exists c', write_ocw2 p c val = Some c' /\ core_inv others c' /\ same_setup c c'.
Proof.
  intros Hc Hp Hval. unfold write_ocw2, inw in *. cbv zeta.
  assert (0 <= Z.land val 0x7 < 8) as Hk.
  { change 0x7 with (Z.ones 3). rewrite Z.land_ones by lia. apply Z.mod_pos_bound. lia. }
  assert (0 <= Z.shiftr val 5 < 8) as Hs.
  { rewrite Z.shiftr_div_pow2 by lia. Z.to_euclidean_division_equations; lia. }
  assert (forall k, 0 <= k < 8 -> exists c', end_of_interrupt p c k = Some c'
    /\ core_inv others c' /\ same_setup c c') as Heoi.
  { intros k Hk8. destruct (eoi_inv others p c k Hc Hp Hk8) as (c' & E & H1 & _ & _ & H2).
    by exists c'. }
  destruct (get2_defined (in_service c) (controller_index p)) as (s & Es & Hsv);
    [apply Hc|done|].
  assert (Z.shiftr val 5 = 0 \/ Z.shiftr val 5 = 1 \/ Z.shiftr val 5 = 2 \/ Z.shiftr val 5 = 3
    \/ Z.shiftr val 5 = 4 \/ Z.shiftr val 5 = 5 \/ Z.shiftr val 5 = 6 \/ Z.shiftr val 5 = 7)
    as [-> | [-> | [-> | [-> | [-> | [-> | [-> | ->]]]]]]] by lia;
    try (exists c; split; [done|]; split; [done|]; by split).
  - rewrite Es. simpl. pose proof (ctz_from_spec 8 0 s) as (Hb & _). fold (trailing_zeros 8 s) in Hb.
    destruct (Z.ltb_spec (trailing_zeros 8 s) 8); [apply Heoi; unfold trailing_zeros in *; simpl in *; lia|].
    exists c. split; [done|]. split; [done|]. by split.
  - by apply Heoi.
Qed.

(** C23: An acknowledge delivers the vector of the most urgent deliverable line, and
    a non-specific end-of-interrupt command to the controller of that line then
    ends exactly that interrupt: the lines in service are those from before, the line is no
    longer pending and every other pending line still is. *)
Theorem acknowledge_eoi_cycle (others : Z) (c c' : Core) (v : Z) :
  core_inv others c -> offsets_ok c -> get_next_interrupt c = Some (Some v, c') ->
  exists l off, deliverable c l
  /\ get2 (vector_offset c) (l / 8) = Some off /\ v = l mod 8 + off
  /\ forall p, controller_index p = l / 8 ->
     exists c'', write_ocw2 p c' 0x20 = Some c'' /\ core_inv others c''
     /\ (forall n, 0 <= n < 16 -> line (in_service c'') n = line (in_service c) n)
     /\ (forall n, 0 <= n < 16 ->
           line (pending_interrupts c'') n = negb (n =? l) && line (pending_interrupts c) n).
Proof.
  intros Hc Ho E.
  destruct (get_next_interrupt_spec others c Hc Ho) as (r & c1 & E1 & Hc' & Hr).
  rewrite E in E1. simplify_eq.
  destruct Hr as (l & off & Hdel & Hoff & Hv & Hs & Hpend & _ & _).
  exists l, off. split; [done|]. split; [done|]. split; [done|]. intros p Hp. destruct Hdel as (Hl & Hreq & Hmin & Hserv).
  assert (0 <= l / 8 < 2) as Hi by (Z.to_euclidean_division_equations; lia).
  assert (l = 8 * (l / 8) + l mod 8) as Hdm by (apply Z.div_mod; lia).
  pose proof (Z.mod_pos_bound l 8 ltac:(lia)) as Hm.
  destruct (get2_defined (in_service c1) (l / 8)) as (s & Es & Hsv); [apply Hc'|done|].
  assert (trailing_zeros 8 s = l mod 8) as Htz.
  { destruct (ctz_from_spec 8 0 s) as (Hb & Hlow & Hset). fold (trailing_zeros 8 s) in *.
    change (ctz_from 8 0 s) with (trailing_zeros 8 s) in *. set (k := trailing_zeros 8 s) in *.
    assert (forall j, 0 <= j < 8 -> bit s j = line (in_service c1) (8 * (l / 8) + j)) as Hbit.
    { intros j Hj. rewrite <- (get2_line _ (l / 8) s (8 * (l / 8) + j)); [|apply Hc'|done|lia|].
      - f_equal. Z.to_euclidean_division_equations; lia.
      - Z.to_euclidean_division_equations; lia. }
    assert (bit s (l mod 8) = true) as Hls.
    { rewrite Hbit, <- Hdm, Hs, Z.eqb_refl by lia. done. }
    destruct (Z.lt_trichotomy k (l mod 8)) as [Hlt|[?|Hgt]]; [|done|].
    - exfalso. specialize (Hset ltac:(lia)). rewrite Hbit, Hs in Hset by lia.
      rewrite (proj2 (Z.eqb_neq _ _)) in Hset by lia. simpl in Hset.
      apply Hserv in Hset; [|lia]. pose proof (rank_monotone (l / 8) k (l mod 8) Hi).
      rewrite <- Hdm in *. lia.
    - rewrite Hlow in Hls by lia. done. }
  destruct (eoi_inv others p c1 (l mod 8)) as (c'' & E'' & Hinv & Hp'' & Hs'' & _); [done|lia|lia|].
  exists c''. unfold write_ocw2. cbv zeta. change (Z.shiftr 0x20 5) with 1. cbv iota.
  rewrite Hp, Es. simpl. rewrite Htz, (proj2 (Z.ltb_lt _ _)) by lia.
  split; [done|]. split; [done|]. rewrite Hp, <- Hdm in *. split.
  - intros n Hn. rewrite Hs'', Hs by done. destruct (Z.eqb_spec n l) as [->|]; [|done].
    simpl. destruct (line (in_service c) l) eqn:El; [|done].
    unfold requestable in Hreq. rewrite El, andb_false_r in Hreq. done.
  - intros n Hn. by rewrite Hp'', Hpend.
Qed.

(** Line 9 (vector 0x71) is raised on fresh controllers. *)
Definition eoi_example : Core :=
  {| intr := {| count := 1; pointer_is_valid := true |}; pending_request := true;
     pending_interrupts := {| first := 0; second := 2 |}; in_service := zero2; imr := zero2;
     vector_offset := {| first := 0x08; second := 0x70 |} |}.

Lemma acknowledge_eoi_cycle_witness :
  exists c', get_next_interrupt eoi_example = Some (Some 0x71, c')
  /\ exists l off, deliverable eoi_example l
  /\ get2 (vector_offset eoi_example) (l / 8) = Some off /\ 0x71 = l mod 8 + off
  /\ forall p, controller_index p = l / 8 ->
     exists c'', write_ocw2 p c' 0x20 = Some c'' /\ core_inv 0 c''
     /\ (forall n, 0 <= n < 16 -> line (in_service c'') n = line (in_service eoi_example) n)
     /\ (forall n, 0 <= n < 16 -> line (pending_interrupts c'') n
           = negb (n =? l) && line (pending_interrupts eoi_example) n).
Proof.
  eexists. split; [reflexivity|].
  apply (acknowledge_eoi_cycle 0 eoi_example _ 0x71); [|by split|reflexivity].
  split; [|split; [|reflexivity]].
  - repeat split; simpl; lia.
  - split; [done|]. simpl. lia.
Defined.

(** ** The pair of controllers *)

Record Pics := { primary_pic : Pic; secondary_pic : Pic; shared_pic_core : Core }.

(** What the rest of the machine does with the controllers: port writes,
    pulses of a line, the CPU's acknowledge, and the reset of all requests. *)
Inductive PicOp : Type :=
| PortWrite (secondary : bool) (addr val : Z)
| PulseLine (index : Z)
| Acknowledge
| ClearPending.

Definition pics_new (i : Intr) : option Pics :=
  '(p, c) ← pic_new 0 0x08 (core_new i);
  '(s, c) ← pic_new 1 0x70 c;
  Some {| primary_pic := p; secondary_pic := s; shared_pic_core := c |}.

Definition pics_step (s : Pics) (op : PicOp) : option (option Z * Pics) :=
  match op with
  | PortWrite false addr val =>
      '(p, c) ← pic_write (primary_pic s) (shared_pic_core s) addr val;
      Some (None, {| primary_pic := p; secondary_pic := secondary_pic s; shared_pic_core := c |})
  | PortWrite true addr val =>
      '(p, c) ← pic_write (secondary_pic s) (shared_pic_core s) addr val;
      Some (None, {| primary_pic := primary_pic s; secondary_pic := p; shared_pic_core := c |})
  | PulseLine index =>
      c ← pulse (shared_pic_core s) index;
      Some (None, {| primary_pic := primary_pic s; secondary_pic := secondary_pic s;
                     shared_pic_core := c |})
  | Acknowledge =>
      '(v, c) ← get_next_interrupt (shared_pic_core s);
      Some (v, {| primary_pic := primary_pic s; secondary_pic := secondary_pic s;
                  shared_pic_core := c |})
  | ClearPending =>
      c ← clear_pending (primary_pic s) (shared_pic_core s);
      c ← clear_pending (secondary_pic s) c;
      Some (None, {| primary_pic := primary_pic s; secondary_pic := secondary_pic s;
                     shared_pic_core := c |})
  end.

(** The vectors delivered by a sequence of operations. *)
Fixpoint pics_run (s : Pics) (ops : list PicOp) : option (list Z * Pics) :=
  match ops with
  | [] => Some ([], s)
  | op :: ops =>
      '(v, s) ← pics_step s op;
      '(vs, s) ← pics_run s ops;
      Some (match v with Some v => v :: vs | None => vs end, s)
  end.

(** The operands the machine passes: bytes, and lines 0 to 15. *)
Definition op_ok (op : PicOp) : Prop :=
  match op with
  | PortWrite _ _ val => inw 8 val
  | PulseLine index => 0 <= index < 16
  | Acknowledge | ClearPending => True
  end.

Definition pic_ok (i : Z) (p : Pic) : Prop :=
  controller_index p = i /\ 0 <= register_select p < 2.

Definition pics_inv (others : Z) (s : Pics) : Prop :=
  core_inv others (shared_pic_core s) /\ offsets_ok (shared_pic_core s)
  /\ pic_ok 0 (primary_pic s) /\ pic_ok 1 (secondary_pic s).

Lemma set2_pair_ok p i v p' : pair_ok p -> inw 8 v -> set2 p i v = Some p' -> pair_ok p'.
Proof. intros Hp Hv E. by apply (line_set2 p i v p' 0). Qed.

Lemma pic_write_inv others i p c addr val :
  0 <= i < 2 -> core_inv others c -> offsets_ok c -> pic_ok i p -> inw 8 val ->
  exists p' c', pic_write p c addr val = Some (p', c')
    /\ core_inv others c' /\ offsets_ok c' /\ pic_ok i p'.
Proof.
  intros Hi Hc Ho [Hp Hr] Hv. pose proof Hc as (Hok & Hcnt & Hreq). unfold pic_write.
  destruct (addr =? 0).
  - destruct (state p); try (by do 2 eexists).
    destruct (bit val 4); [by do 2 eexists|]. destruct (Z.land val 0x18 =? 0).
    + destruct (write_ocw2_inv others p c val Hc) as (c' & -> & Hc' & [_ Hsame]); [lia|done|].
      simpl. do 2 eexists. split; [done|]. split; [done|]. unfold offsets_ok. by rewrite Hsame.
    + destruct (Z.land val 0x18 =? 8); [|by do 2 eexists].
      do 2 eexists. split; [done|]. split; [done|]. split; [done|]. split; [done|]. simpl.
      change 1 with (Z.ones 1). rewrite Z.land_ones by lia.
      apply (Z.mod_pos_bound val (2 ^ 1)). lia.
  - destruct (state p); try (by do 2 eexists).
    + destruct (set2_defined (imr c) i val Hi) as (m & Em). rewrite Hp, Em. simpl.
      assert (core_ok (with_imr c m)) as Hok'.
      { destruct Hok as (H1 & H2 & H3 & H4). split; [done|]. split; [done|].
        split; [by apply (set2_pair_ok _ _ _ _ H3 Hv Em)|done]. }
      destruct (update_inv others (with_imr c m) Hok' Hcnt) as (x & h & -> & Hinv).
      simpl. by do 2 eexists.
    + assert (0 <= Z.land val 0xf8 <= 0xf8) as Hland.
      { split; [apply Z.land_nonneg; lia|].
        assert (all_below 256 (fun v => Z.land v 0xf8 <=? 0xf8) = true) as H by done.
        apply (all_below_spec _ _ val) in H; [|unfold inw in Hv; lia]. by apply Z.leb_le. }
      destruct (set2_defined (vector_offset c) i (Z.land val 0xf8) Hi) as (m & Em).
      rewrite Hp, Em. simpl. do 2 eexists. split; [done|]. split; [|split; [|by split]].
      * destruct Hok as (H1 & H2 & H3 & H4). split; [|by split]. split; [done|]. split; [done|].
        split; [done|]. eapply (set2_pair_ok _ _ _ _ H4 _ Em). Unshelve. unfold inw. lia.
      * destruct Ho. unfold set2 in Em. unfold offsets_ok. simpl.
        repeat case_match; simplify_eq; simpl; lia.
Qed.

Lemma clear_pending_inv others p c :
  core_inv others c -> 0 <= controller_index p < 2 ->
  exists c', clear_pending p c = Some c' /\ core_inv others c' /\ same_setup c c'.
Proof.
  intros ((H1 & H2 & H3 & H4) & Hcnt & _) Hi. unfold clear_pending.
  destruct (set2_defined (pending_interrupts c) _ 0 Hi) as (x & Ex). rewrite Ex.
  destruct (set2_defined (in_service c) _ 0 Hi) as (y & Ey). simpl. rewrite Ey. simpl.
  assert (core_ok (with_in_service (with_pending c x) y)) as Hok'.
  { split; [by apply (set2_pair_ok _ _ _ _ H1 (ltac:(done) : inw 8 0) Ex)|].
    split; [by apply (set2_pair_ok _ _ _ _ H2 (ltac:(done) : inw 8 0) Ey)|]. by split. }
  destruct (update_inv others _ Hok' Hcnt) as (i & h & -> & Hinv). by eexists.
Qed.

Lemma pics_step_inv others s op :
  pics_inv others s -> op_ok op ->
  exists v s', pics_step s op = Some (v, s') /\ pics_inv others s'.
Proof.
  intros (Hc & Ho & Hp & Hs) Hop. destruct op as [[] addr val|index| |]; simpl in *.
  - destruct (pic_write_inv others 1 (secondary_pic s) _ addr val ltac:(lia) Hc Ho Hs Hop)
      as (p' & c' & -> & ? & ? & ?). simpl. do 2 eexists. by split.
  - destruct (pic_write_inv others 0 (primary_pic s) _ addr val ltac:(lia) Hc Ho Hp Hop)
      as (p' & c' & -> & ? & ? & ?). simpl. do 2 eexists. by split.
  - destruct (pulse_inv others _ index Hc Hop) as (c' & -> & ? & _ & _ & _ & Hv).
    simpl. do 2 eexists. split; [done|]. split; [done|]. unfold offsets_ok. simpl. by rewrite Hv.
  - destruct (get_next_interrupt_spec others _ Hc Ho) as (r & c' & -> & Hc' & Hr).
    simpl. do 2 eexists. split; [done|]. split; [done|]. split; [|done]. unfold offsets_ok. simpl.
    destruct r as [v|]; [destruct Hr as (l & off & _ & _ & _ & _ & _ & _ & ->)|destruct Hr as [-> _]]; done.
  - destruct (clear_pending_inv others (primary_pic s) _ Hc) as (c1 & -> & Hc1 & [_ V1]);
      [destruct Hp; lia|]. simpl.
    destruct (clear_pending_inv others (secondary_pic s) _ Hc1) as (c2 & -> & Hc2 & [_ V2]);
      [destruct Hs; lia|]. simpl.
    do 2 eexists. split; [done|]. split; [done|]. unfold offsets_ok. simpl. by rewrite V2, V1.
Qed.

Lemma pics_new_inv others i :
  counts i others false -> exists s, pics_new i = Some s /\ pics_inv others s.
Proof.
  intros Hcnt. eexists. split; [reflexivity|]. split; [|done]. split; [done|]. by split.
Qed.

Lemma pics_run_inv others ops s :
  pics_inv others s -> Forall op_ok ops ->
  exists vs s', pics_run s ops = Some (vs, s') /\ pics_inv others s'.
Proof.
  intros Hs Hops. revert s Hs. induction Hops as [|op ops Hop _ IH]; intros s Hs; simpl.
  { by do 2 eexists. }
  destruct (pics_step_inv others s op Hs Hop) as (v & s1 & -> & H1). simpl.
  destruct (IH s1 H1) as (vs & s2 & -> & H2). simpl. by do 2 eexists.
Qed.

(** C22: Whatever bytes the guest writes to the ports, and however pulses of lines
    and acknowledges interleave with the writes, the controllers never panic
    (no vector overflows, no permit is returned twice) and they ask the CPU for
    an interrupt exactly when some line can be delivered. *)
Theorem pics_never_panic (others : Z) (i : Intr) (ops : list PicOp) :
  counts i others false -> Forall op_ok ops ->
  exists s0 vs s, pics_new i = Some s0 /\ pics_run s0 ops = Some (vs, s)
  /\ counts (intr (shared_pic_core s)) others (pending_request (shared_pic_core s))
  /\ (pending_request (shared_pic_core s) = true <-> exists l, deliverable (shared_pic_core s) l).
Proof.
  intros Hcnt Hops. destruct (pics_new_inv others i Hcnt) as (s0 & E0 & H0).
  destruct (pics_run_inv others ops s0 H0 Hops) as (vs & s & E & (Hc & Hn & Hr) & _).
  exists s0, vs, s. split; [done|]. split; [done|]. split; [done|].
  rewrite Hr. by apply requests_spec.
Qed.

(** A keyboard and a disk interrupt: the keyboard is acknowledged first, and
    the disk only after the end of the keyboard's interrupt. *)
Definition example_ops : list PicOp :=
  [PulseLine 14; PulseLine 1; Acknowledge; Acknowledge; PortWrite false 0 0x20; Acknowledge;
   PortWrite true 0 0x20; Acknowledge].

Example example_vectors :
  fst <$> (s ← pics_new intr_new; pics_run s example_ops) = Some [9; 0x76].
Proof. vm_compute. reflexivity. Qed.

Lemma pics_never_panic_witness :
  exists s0 vs s, pics_new intr_new = Some s0 /\ pics_run s0 example_ops = Some (vs, s)
  /\ counts (intr (shared_pic_core s)) 0 (pending_request (shared_pic_core s))
  /\ (pending_request (shared_pic_core s) = true <-> exists l, deliverable (shared_pic_core s) l).
Proof.
  apply (pics_never_panic 0 intr_new example_ops).
  - split; [done|]. simpl. lia.
  - unfold example_ops. repeat constructor; simpl; unfold inw; lia.
Defined.

(** ** Initialisation *)

(** The control words of an initialisation: the third only for a cascaded
    controller, the fourth only when the first announces it. *)
Definition icw_writes (icw1 icw2 icw3 icw4 : Z) : list (Z * Z) :=
  [(0, icw1); (1, icw2)] ++ (if bit icw1 1 then [] else [(1, icw3)])
  ++ (if bit icw1 0 then [(1, icw4)] else []).

Fixpoint pic_writes (p : Pic) (c : Core) (l : list (Z * Z)) : option (Pic * Core) :=
  match l with
  | [] => Some (p, c)
  | (addr, val) :: l => '(p, c) ← pic_write p c addr val; pic_writes p c l
  end.

(** The initialisation sequence brings a ready controller back to the ready
    state after exactly the words that its first word announces.  It sets the
    vector offset, the modes and the cascade of the controller, and touches
    nothing else. *)
Theorem icw_sequence (p : Pic) (c : Core) (icw1 icw2 icw3 icw4 : Z) :
  state p = Ready -> bit icw1 4 = true -> 0 <= controller_index p < 2 ->
  exists p' v, pic_writes p c (icw_writes icw1 icw2 icw3 icw4) = Some (p', with_vector_offset c v)
  /\ set2 (vector_offset c) (controller_index p) (Z.land icw2 0xf8) = Some v
  /\ p' = {| state := Ready;
             cascade_mode := if bit icw1 1 then SinglePic 0 else CascadePic (Z.land icw3 0x7f);
             adi := if bit icw1 2 then Interval4 else Interval8;
             trigger_mode := if bit icw1 3 then Level else Edge;
             register_select := register_select p; read_register := read_register p;
             poll_command := poll_command p; controller_index := controller_index p |}.
Proof.
  intros Hs H1 Hi.
  destruct (set2_defined (vector_offset c) (controller_index p) (Z.land icw2 0xf8) Hi) as (v & Ev).
  unfold icw_writes. cbn [app pic_writes].
  assert (pic_write p c 0 icw1 = Some (write_icw1 p icw1, c)) as ->
    by (unfold pic_write; rewrite Hs, H1; reflexivity).
  cbn [mbind option_bind]. unfold pic_write at 1. cbn [Z.eqb write_icw1 state controller_index].
  rewrite Ev. cbn [mbind option_bind].
  unfold write_icw1 at 1 2. cbn [cascade_mode].
  destruct (bit icw1 1), (bit icw1 0); cbn; do 2 eexists; (split; [reflexivity|]); by split.
Qed.

Definition example_pic : Pic :=
  {| state := Ready; cascade_mode := SinglePic 0; adi := Interval8; trigger_mode := Edge;
     register_select := 0; read_register := false; poll_command := false; controller_index := 1 |}.

Lemma icw_sequence_witness :
  exists p' v, pic_writes example_pic (core_new intr_new) (icw_writes 0x11 0x76 2 1)
    = Some (p', with_vector_offset (core_new intr_new) v)
  /\ set2 zero2 1 0x70 = Some v
  /\ p' = {| state := Ready; cascade_mode := CascadePic 2; adi := Interval8; trigger_mode := Edge;
             register_select := 0; read_register := false; poll_command := false;
             controller_index := 1 |}.
Proof.
  exact (icw_sequence example_pic (core_new intr_new) 0x11 0x76 2 1 eq_refl eq_refl ltac:(simpl; lia)).
Defined.

(** ** Snapshots *)

(** Restoring a snapshot brings the registers back; the invariant holds
    afterwards unless the snapshot was taken without a request while the core
    that it is restored into holds one. *)
Lemma core_restore_spec others others' c c0 :
  core_inv others c -> core_inv others' c0 -> others' < 2 ^ 32 - 2 ->
  exists c', core_restore c0 (core_snapshot c) = Some c'
  /\ pending_interrupts c' = pending_interrupts c /\ in_service c' = in_service c
  /\ imr c' = imr c /\ vector_offset c' = vector_offset c
  /\ counts (intr c') others' (pending_request c')
  /\ pending_request c' = pending_request c0 || pending_request c.
Proof.
  intros (Hok & _ & Hr) (_ & (Hv & Hn & Ho) & _) Hlt. unfold core_restore, core_snapshot. simpl.
  destruct (pending_request c).
  - unfold replace_request, request, drop_request. rewrite Hv.
    destruct (pending_request c0); simpl in *.
    + rewrite (wrap_small 32 (count (intr c0) + 1)) by (unfold inw; lia).
      rewrite (proj2 (Z.eqb_neq _ _)) by lia. simpl. eexists. split; [done|].
      do 4 (split; [done|]). split; [|done]. split; [done|]. simpl.
      rewrite wrap_small by (unfold inw; lia). lia.
    + eexists. split; [done|]. do 4 (split; [done|]). split; [|done]. split; [done|]. simpl.
      rewrite wrap_small by (unfold inw; lia). lia.
  - simpl. eexists. split; [done|]. do 4 (split; [done|]). split; [by split|].
    simpl. by rewrite orb_false_r.
Qed.

(** Restoring a quiet snapshot over a core with a request keeps the request:
    the CPU is told of an interrupt that no line can deliver. *)
Lemma core_restore_keeps_stale_request :
  exists c0 c', pulse (core_new intr_new) 1 = Some c0
  /\ core_restore c0 (core_snapshot (core_new intr_new)) = Some c'
  /\ pending_request c' = true /\ requests c' = false.
Proof. do 2 eexists. repeat split. Qed.
