(* ===== verification/Pit.v ===== *)
(** * The 8254 interval timer

    [sem86-core/src/hw/pit.rs]: three counters with their byte-wise access,
    latches and control words, and the periodic interrupt of counter 0.  The
    clock is an argument: the ticks of the counters ([get_ticks_in_hz]) and the
    time in nanoseconds.  No caller passes an interrupt line to [Timer::tick];
    whether it would pulse the line is part of the result. *)
From S2P Require Import Prelude.

Inductive Mode : Type := Mode0 | Mode1 | Mode2 | Mode3 | Mode4 | Mode5.
#[export] Instance Mode_eq_dec : EqDecision Mode.
Proof. solve_decision. Defined.
Inductive Encoding : Type := Binary | Bcd.
Inductive Byte : Type := Lsb | Msb.
#[export] Instance Byte_eq_dec : EqDecision Byte.
Proof. solve_decision. Defined.

Definition extract (b : Byte) (val : Z) : Z :=
  match b with Lsb => wrap 8 val | Msb => wrap 8 (Z.shiftr val 8) end.
Definition set_byte (b : Byte) (cur new : Z) : Z :=
  match b with
  | Lsb => Z.lor (Z.land cur 0xff00) new
  | Msb => Z.lor (Z.land cur 0x00ff) (Z.shiftl new 8)
  end.
Definition flip (b : Byte) : Byte := match b with Lsb => Msb | Msb => Lsb end.
Definition wraps_when_flipped (b : Byte) : bool := bool_decide (b = Msb).

Inductive State : Type :=
| Single (byte : Byte)
| Both (next_read next_write : Byte).

Definition waiting_on_second_byte_write (s : State) : bool :=
  match s with Both _ Msb => true | _ => false end.

Record Timer := {
  init : Z;                          (* u16 *)
  val : Z;                           (* u16 *)
  mode : Mode;
  encoding : Encoding;
  state : State;
  output : bool;
  null_count : bool;
  latched_value : option Z;
  latched_status : option Z;
  gate : bool;
  last_tick : Z;                     (* u64 *)
}.

Definition timer_new : Timer :=
  {| init := 0; val := 0; mode := Mode0; encoding := Binary; state := Single Lsb; output := false; null_count := false;
     latched_value := None; latched_status := None; gate := true; last_tick := 0 |}.

Definition with_count (t : Timer) (v : Z) (out : bool) : Timer :=
  {| init := init t; val := v; mode := mode t; encoding := encoding t; state := state t; output := out; null_count := null_count t;
     latched_value := latched_value t; latched_status := latched_status t; gate := gate t; last_tick := last_tick t |}.
Definition with_access (t : Timer) (i : Z) (s : State) (n : bool) (lv ls : option Z) : Timer :=
  {| init := i; val := val t; mode := mode t; encoding := encoding t; state := s; output := output t; null_count := n;
     latched_value := lv; latched_status := ls; gate := gate t; last_tick := last_tick t |}.
Definition with_last_tick (t : Timer) (tick : Z) : Timer :=
  {| init := init t; val := val t; mode := mode t; encoding := encoding t; state := state t; output := output t; null_count := null_count t;
     latched_value := latched_value t; latched_status := latched_status t; gate := gate t; last_tick := tick |}.

Definition timer_read (t : Timer) : Z * Timer :=
  match latched_status t with
  | Some status => (status, with_access t (init t) (state t) (null_count t) (latched_value t) None)
  | None =>
      let v := default (val t) (latched_value t) in
      let '(new_state, release_latch, r) :=
        match state t with
        | Single byte => (Single byte, true, extract byte v)
        | Both next_read next_write => (Both (flip next_read) next_write, wraps_when_flipped next_read, extract next_read v)
        end in
      (r, with_access t (init t) new_state (null_count t) (if release_latch : bool then None else latched_value t) None)
  end.

Definition timer_write (t : Timer) (v : Z) : Timer :=
  let '(new_init, new_state, done) :=
    match state t with
    | Single byte => (set_byte byte (init t) v, Single byte, true)
    | Both next_read next_write => (set_byte next_write (init t) v, Both next_read (flip next_write), wraps_when_flipped next_write)
    end in
  with_access t new_init new_state (null_count t || done) (latched_value t) (latched_status t).

Definition latch_count (t : Timer) : Timer :=
  with_access t (init t) (state t) (null_count t)
    (Some (default (val t) (latched_value t))) (latched_status t).

Definition mode_number (m : Mode) : Z :=
  match m with Mode0 => 0 | Mode1 => 1 | Mode2 => 2 | Mode3 => 3 | Mode4 => 4 | Mode5 => 5 end.
Definition mode_of (n : Z) : Mode :=
  match n with 0 => Mode0 | 1 => Mode1 | 2 | 6 => Mode2 | 3 | 7 => Mode3 | 4 => Mode4 | _ => Mode5 end.

(** The output is set by the mode that the counter had. *)
Definition timer_write_control (t : Timer) (v : Z) : Timer :=
  let program (s : State) :=
    {| init := 0; val := val t; mode := mode_of (Z.land (Z.shiftr v 1) 7);
       encoding := if Z.land v 1 =? 0 then Binary else Bcd; state := s;
       output := negb (bool_decide (mode t = Mode0)); null_count := true; latched_value := None; latched_status := None;
       gate := gate t; last_tick := last_tick t |} in
  match Z.land (Z.shiftr v 4) 3 with
  | 0 => latch_count t
  | 1 => program (Single Lsb)
  | 2 => program (Single Msb)
  | _ => program (Both Lsb Lsb)
  end.

Definition latch_status (t : Timer) : Timer :=
  let rw := match state t with Single Lsb => 1 | Single Msb => 2 | Both _ _ => 3 end in
  let status :=
    Z.lor (Z.lor (Z.lor (Z.lor (Z.shiftl (b2z (output t)) 7) (Z.shiftl (b2z (null_count t)) 6)) (Z.shiftl rw 4))
      (Z.shiftl (mode_number (mode t)) 1)) (match encoding t with Binary => 0 | Bcd => 1 end) in
  with_access t (init t) (state t) (null_count t) (latched_value t) (Some status).

(** ** Counting *)

(** The period of the counter: zero stands for 2^16. *)
Definition period_of (t : Timer) : Z := if init t =? 0 then 0x10000 else init t.

(** Counting down with reloads; [u64] arithmetic. *)
Definition count_down (i v num : Z) : option Z :=
  if num <=? v then Some (v - num)
  else
    let remaining := num - v in
    assert (i * ((remaining - 1) / i + 1) <? 2 ^ 64);;
    Some (wrap 16 (i * ((remaining - 1) / i + 1) - remaining)).

Definition reload (t : Timer) : Timer :=
  if null_count t then
    {| init := init t; val := init t; mode := mode t; encoding := encoding t; state := state t; output := output t; null_count := false;
       latched_value := latched_value t; latched_status := latched_status t; gate := gate t; last_tick := last_tick t |}
  else t.

(** Whether a rising edge was seen, and the counter. *)
Definition tick_mode (t : Timer) (num : Z) : option (bool * Timer) :=
  let i := period_of t in
  match mode t with
  | Mode0 =>
      if gate t && negb (waiting_on_second_byte_write (state t)) then
        let v := wrap 16 (val t - num) in Some (val t <? num, with_count t v (v =? 0))
      else Some (false, t)
  | Mode1 => None
  | Mode2 =>
      if gate t then
        v ← count_down i (val t) num;
        Some ((val t <? num) && (1 <=? val t) || (v =? 0) && (1 <=? num), with_count t v (negb (v =? 1)))
      else Some (false, t)
  | Mode3 =>
      if gate t then v ← count_down i (val t) num; Some (false, with_count t v (wrap 16 (Z.shiftr i 1) <=? v))
      else Some (false, t)
  | Mode4 | Mode5 =>
      if gate t then
        let v := wrap 16 (val t - num) in
        Some ((val t <=? num) && (1 <=? num), with_count t v ((v =? 0) && negb (v =? val t)))
      else Some (false, t)
  end.

Definition timer_tick (t : Timer) (num : Z) : option (bool * Timer) :=
  assert (negb (num =? 0));;
  let t := reload t in
  '(rising, t') ← tick_mode t num;
  Some (if num =? 1 then output t' && negb (Bool.eqb (output t) (output t')) else rising, t').

Definition tick_to (t : Timer) (tick : Z) : option Timer :=
  assert (last_tick t <=? tick);;
  let needed := tick - last_tick t in
  if 0 <? needed then r ← timer_tick (with_last_tick t tick) needed; Some r.2 else Some t.

(** ** The chip *)

Definition TIMER_CLOCK_RATE : Z := 1193182.

(** [Duration::from_secs(1) * init / TIMER_CLOCK_RATE], in nanoseconds. *)
Definition compute_effective_irq_period (t : Timer) : option Z :=
  assert (bool_decide (mode t = Mode2) || bool_decide (mode t = Mode3));;
  Some (1000000000 * period_of t / TIMER_CLOCK_RATE).

(** A timer that is registered with the clock. *)
Record PitTimer := { pt_period : Z; next_interrupt : Z }.

(** [registered]: the timers so far; dropping the [TimerInfo] of the chip
    disables the one before, so that only the last is enabled. *)
Record Pit := {
  timers : list Timer;
  registered : list PitTimer;
  info_period : Z;
}.

Definition pit_new (now : Z) : Pit :=
  {| timers := [timer_new; timer_new; timer_new]; registered := [{| pt_period := 100000000; next_interrupt := now |}]; info_period := 100000000 |}.

Definition pt_enabled (p : Pit) (i : nat) : bool := bool_decide (S i = length (registered p)).

Definition update_timer_registration (p : Pit) (now : Z) : option Pit :=
  t ← timers p !! 0%nat;
  irq_period ← compute_effective_irq_period t;
  if negb (info_period p =? irq_period) then
    Some {| timers := timers p; registered := registered p ++ [{| pt_period := irq_period; next_interrupt := now + irq_period |}]; info_period := irq_period |}
  else Some p.

Definition with_timer (p : Pit) (i : nat) (t : Timer) : Pit :=
  {| timers := <[i := t]> (timers p); registered := registered p; info_period := info_period p |}.

(** The counter, brought up to the tick. *)
Definition timer_at (p : Pit) (reg : Z) (tick : Z) : option Timer :=
  t ← timers p !! Z.to_nat reg; tick_to t tick.

Definition read_timer (p : Pit) (reg tick : Z) : option (Z * Pit) :=
  t ← timer_at p reg tick;
  let (v, t) := timer_read t in Some (v, with_timer p (Z.to_nat reg) t).

Definition write_timer (p : Pit) (reg v tick now : Z) : option Pit :=
  t ← timer_at p reg tick;
  let p := with_timer p (Z.to_nat reg) (timer_write t v) in
  if reg =? 0 then update_timer_registration p now else Some p.

Definition read_control : Z := 0.

(** The read-back command. *)
Fixpoint read_back (v tick : Z) (n : Z) (ts : list Timer) : option (list Timer) :=
  match ts with
  | [] => Some []
  | t :: ts =>
      t ← tick_to t tick;
      let t :=
        if bit v (1 + n) then
          let t := if bit v 5 then latch_count t else t in if bit v 4 then latch_status t else t
        else t in
      ts ← read_back v tick (n + 1) ts;
      Some (t :: ts)
  end.

Definition pit_write_control (p : Pit) (v tick : Z) : option Pit :=
  let target := Z.shiftr v 6 in
  if target =? 3 then
    ts ← read_back v tick 0 (timers p);
    Some {| timers := ts; registered := registered p; info_period := info_period p |}
  else
    t ← timer_at p target tick;
    Some (with_timer p (Z.to_nat target) (timer_write_control t (Z.land v 0x3f))).

Definition pit_snapshot (p : Pit) : list Timer := timers p.
Definition pit_restore (p : Pit) (ts : list Timer) (now : Z) : option Pit :=
  update_timer_registration {| timers := ts; registered := registered p; info_period := info_period p |} now.

(** [PitTimer::tick]: whether it pulses the line, and when it is due again; a
    disabled timer is dropped by the clock. *)
Definition pit_timer_tick (p : Pit) (i : nat) (now : Z) : option (bool * Pit) :=
  t ← registered p !! i;
  if pt_enabled p i then
    let next := next_interrupt t + pt_period t in
    let next := if next <? now then now + pt_period t else next in
    Some (true, {| timers := timers p; registered := <[i := {| pt_period := pt_period t; next_interrupt := next |}]> (registered p); info_period := info_period p |})
  else Some (false, p).

(** ** Many ticks at once *)

(** One tick at a time. *)
Fixpoint ticks (n : nat) (t : Timer) : option Timer :=
  match n with
  | O => Some t
  | S n => r ← timer_tick t 1; ticks n r.2
  end.

Record timer_ok (t : Timer) : Prop := { tk_init : inw 16 (init t); tk_val : inw 16 (val t) }.

Lemma period_range t : timer_ok t -> 1 <= period_of t <= 2 ^ 16.
Proof. intros [Hi _]. unfold period_of, inw in *. destruct (Z.eqb_spec (init t) 0); lia. Qed.

(** The remainder form of the count. *)
Lemma count_down_mod i v num :
  1 <= i <= 2 ^ 16 -> inw 16 v -> 0 <= num -> num + i < 2 ^ 64 ->
  count_down i v num = Some (if num <=? v then v - num else i - 1 - (num - v - 1) mod i).
Proof.
  intros Hi Hv Hn Hb. unfold count_down, inw in *. destruct (Z.leb_spec num v) as [Hle|Hlt]; [done|].
  pose proof (Z.div_mod (num - v - 1) i ltac:(lia)) as Hdm. pose proof (Z.mod_pos_bound (num - v - 1) i ltac:(lia)) as Hm.
  set (q := (num - v - 1) / i) in *. assert (i * (q + 1) = i * q + i) as Hq by ring.
  assert (i * (q + 1) < 2 ^ 64) as Hlt' by lia. rewrite (proj2 (Z.ltb_lt _ _) Hlt'). cbn [assert mbind option_bind]. f_equal.
  rewrite wrap_small by (unfold inw; lia). lia.
Qed.

Lemma count_down_next i v num w :
  1 <= i <= 2 ^ 16 -> inw 16 v -> 1 <= num -> num + 1 + i < 2 ^ 64 -> count_down i v num = Some w ->
  inw 16 w /\ count_down i w 1 = count_down i v (num + 1).
Proof.
  intros Hi Hv Hn Hb. rewrite count_down_mod by (done || lia). intros [= <-].
  pose proof (Z.mod_pos_bound (num - v - 1) i ltac:(lia)) as Hm.
  assert (inw 16 (if num <=? v then v - num else i - 1 - (num - v - 1) mod i)) as Hw by (unfold inw in *; destruct (Z.leb_spec num v); lia).
  split; [done|]. rewrite !count_down_mod by (done || lia). f_equal. unfold inw in *.
  destruct (Z.leb_spec num v), (Z.leb_spec (num + 1) v); try lia.
  - rewrite (proj2 (Z.leb_le _ _)) by lia. lia.
  - rewrite (proj2 (Z.leb_gt _ _)) by lia. replace (num + 1 - v - 1) with 0 by lia. replace (1 - (v - num) - 1) with 0 by lia. done.
  - replace (num + 1 - v - 1) with (num - v - 1 + 1) by lia. set (r := num - v - 1) in *.
    destruct (Z.eqb_spec (r mod i) (i - 1)) as [E|E].
    + rewrite E. replace (i - 1 - (i - 1)) with 0 by lia. change (1 <=? 0) with false. change (1 - 0 - 1) with 0. rewrite Zmod_0_l.
      rewrite <- Z.add_mod_idemp_l, E by lia. replace (i - 1 + 1) with i by lia. rewrite Z.mod_same by lia. lia.
    + rewrite (proj2 (Z.leb_le _ _)) by lia. rewrite <- Z.add_mod_idemp_l by lia. rewrite (Z.mod_small (r mod i + 1)) by lia. lia.
Qed.

Lemma reload_ok t : timer_ok t -> timer_ok (reload t).
Proof. intros [Hi Hv]. unfold reload. by destruct (null_count t). Qed.
Lemma reload_again t : null_count t = false -> reload t = t.
Proof. intros H. unfold reload. by rewrite H. Qed.
Lemma reload_null t : null_count (reload t) = false.
Proof. unfold reload. destruct (null_count t) eqn:E; [done|exact E]. Qed.

(** What one tick of a mode leaves besides the edge. *)
Definition next_state (t : Timer) (num : Z) : option Timer := r ← tick_mode t num; Some r.2.

(** Where the output is a one-shot it depends on the last tick. *)
Definition one_shot_ok (t : Timer) (num : Z) : Prop := mode t = Mode4 \/ mode t = Mode5 -> num < 2 ^ 16.

Lemma one_shot_next v num : inw 16 v -> 0 <= num -> num + 1 < 2 ^ 16 ->
  let w := wrap 16 (v - num) in
  wrap 16 (w - 1) = wrap 16 (v - (num + 1)) /\ negb (wrap 16 (w - 1) =? w) = negb (wrap 16 (v - (num + 1)) =? v).
Proof.
  intros Hv Hn Hb w. assert (wrap 16 (w - 1) = wrap 16 (v - (num + 1))) as E by (unfold w; rewrite wrap_sub_l; f_equal; lia).
  split; [done|]. assert (forall x k, inw 16 x -> 0 < k < 2 ^ 16 -> wrap 16 (x - k) <> x) as Hne.
  { intros x k Hx Hk. unfold wrap, inw in *. intros Hw. pose proof (Z.div_mod (x - k) (2 ^ 16) ltac:(lia)). nia. }
  rewrite !(proj2 (Z.eqb_neq _ _)); [done|apply Hne; [done|lia]|]. unfold w. apply Hne; [by apply wrap_inw|lia].
Qed.

Lemma next_state_next t num t' :
  timer_ok t -> 1 <= num -> num + 1 + 2 ^ 16 < 2 ^ 64 -> one_shot_ok t (num + 1) -> next_state t num = Some t' ->
  next_state t' 1 = next_state t (num + 1).
Proof.
  intros Ht Hn Hb Hone. pose proof (period_range t Ht) as Hp. destruct Ht as [Hi Hv]. unfold next_state, tick_mode, one_shot_ok in *.
  assert (forall w o, period_of (with_count t w o) = period_of t) as Hperiod by done.
  destruct (mode t) eqn:Em; [|done|..].
  - destruct (gate t && _) eqn:Eg; cbn [mbind option_bind snd]; intros [= <-]; cbn [with_count mode val gate state]; rewrite Em, ?Eg; [|done].
    cbn [mbind option_bind snd]. rewrite wrap_sub_l. by replace (val t - num - 1) with (val t - (num + 1)) by lia.
  - destruct (gate t) eqn:Eg; [|intros [= <-]; by rewrite Em, Eg]. destruct (count_down (period_of t) (val t) num) as [w|] eqn:E; [|done].
    cbn [mbind option_bind snd]. intros [= <-]. destruct (count_down_next _ _ _ _ Hp Hv Hn ltac:(lia) E) as [_ En].
    cbn [with_count mode val gate]. rewrite Em, Eg, Hperiod, En. by destruct (count_down (period_of t) (val t) (num + 1)).
  - destruct (gate t) eqn:Eg; [|intros [= <-]; by rewrite Em, Eg]. destruct (count_down (period_of t) (val t) num) as [w|] eqn:E; [|done].
    cbn [mbind option_bind snd]. intros [= <-]. destruct (count_down_next _ _ _ _ Hp Hv Hn ltac:(lia) E) as [_ En].
    cbn [with_count mode val gate]. rewrite Em, Eg, Hperiod, En. by destruct (count_down (period_of t) (val t) (num + 1)).
  - destruct (gate t) eqn:Eg; cbn [mbind option_bind snd]; intros [= <-]; [|by rewrite Em, Eg]. cbn [with_count mode val gate]. rewrite Em, Eg.
    cbn [mbind option_bind snd]. destruct (one_shot_next (val t) num Hv ltac:(lia) ltac:(by apply Hone; left)) as [E1 E2]. by rewrite E2, E1.
  - destruct (gate t) eqn:Eg; cbn [mbind option_bind snd]; intros [= <-]; [|by rewrite Em, Eg]. cbn [with_count mode val gate]. rewrite Em, Eg.
    cbn [mbind option_bind snd]. destruct (one_shot_next (val t) num Hv ltac:(lia) ltac:(by apply Hone; right)) as [E1 E2]. by rewrite E2, E1.
Qed.

Lemma next_state_fields t num t' : next_state t num = Some t' ->
  init t' = init t /\ mode t' = mode t /\ null_count t' = null_count t /\ latched_value t' = latched_value t /\ latched_status t' = latched_status t
  /\ state t' = state t /\ last_tick t' = last_tick t /\ gate t' = gate t.
Proof.
  unfold next_state, tick_mode. destruct (mode t) eqn:Em; try done; try (destruct (gate t && _)); try (destruct (gate t) eqn:Eg);
    try (destruct (count_down _ _ _) as [w|]; [|done]); cbn [mbind option_bind snd]; try done; intros [= <-]; cbn; rewrite ?Em; done.
Qed.

Lemma next_state_ok t num : timer_ok t -> mode t <> Mode1 -> 1 <= num -> num + 2 ^ 16 < 2 ^ 64 -> exists t', next_state t num = Some t' /\ timer_ok t'.
Proof.
  intros Ht Hm Hn Hb. pose proof (period_range t Ht) as Hp. pose proof Ht as [Hi Hv]. unfold next_state, tick_mode.
  assert (exists w, count_down (period_of t) (val t) num = Some w /\ inw 16 w) as (w & -> & Hw).
  { rewrite count_down_mod by (done || lia). eexists. split; [done|]. pose proof (Z.mod_pos_bound (num - val t - 1) (period_of t) ltac:(lia)). unfold inw in *. destruct (Z.leb_spec num (val t)); lia. }
  cbn [mbind option_bind]. destruct (mode t); try done; try (destruct (gate t && _)); try (destruct (gate t));
    cbn [mbind option_bind snd]; eexists; (split; [done|]); try done; split; try done; by apply wrap_inw.
Qed.

Lemma timer_tick_next t num : 1 <= num -> (r ← timer_tick t num; Some r.2) = next_state (reload t) num.
Proof.
  intros Hn. unfold timer_tick, next_state. rewrite (proj2 (Z.eqb_neq num 0)) by lia. cbn [negb assert mbind option_bind].
  by destruct (tick_mode (reload t) num) as [[r t']|].
Qed.

Lemma ticks_next n t :
  timer_ok t -> mode t <> Mode1 -> null_count t = false -> Z.of_nat (S n) + 2 ^ 16 < 2 ^ 64 -> one_shot_ok t (Z.of_nat (S n)) ->
  ticks (S n) t = next_state t (Z.of_nat (S n)).
Proof.
  intros Ht Hm Hnull. assert (forall k, ticks (S k) t = (t' ← ticks k t; next_state (reload t') 1)) as Hsnoc.
  { intros k. revert t Ht Hm Hnull. assert (forall k t, ticks (S k) t = (t' ← ticks k t; next_state (reload t') 1)) as H; [|intros; apply H].
    clear. intros k. induction k as [|k IH]; intros t.
    - cbn [ticks mbind option_bind]. rewrite <- timer_tick_next by lia. by destruct (timer_tick t 1) as [[]|].
    - cbn [ticks] in *. destruct (timer_tick t 1) as [r|]; [|done]. cbn [mbind option_bind]. apply IH. }
  induction n as [|n IH]; intros Hb Hone.
  - rewrite Hsnoc. cbn [ticks mbind option_bind]. by rewrite reload_again.
  - rewrite Hsnoc. rewrite IH; [|lia|intros Hc; specialize (Hone Hc); lia].
    destruct (next_state_ok t (Z.of_nat (S n)) Ht Hm ltac:(lia) ltac:(lia)) as (t' & E & Ht'). rewrite E. cbn [mbind option_bind].
    destruct (next_state_fields _ _ _ E) as (_ & _ & Hn' & _). rewrite reload_again by congruence.
    rewrite (next_state_next t (Z.of_nat (S n)) t'); try done; [by replace (Z.of_nat (S n) + 1) with (Z.of_nat (S (S n))) by lia|lia|lia|].
    by replace (Z.of_nat (S n) + 1) with (Z.of_nat (S (S n))) by lia.
Qed.

Lemma ticks_reload n t : ticks (S n) t = ticks (S n) (reload t).
Proof. cbn [ticks]. unfold timer_tick. by rewrite (reload_again (reload t)) by apply reload_null. Qed.

Lemma tick_many n t :
  timer_ok t -> mode t <> Mode1 -> (0 < n)%nat -> Z.of_nat n + 2 ^ 16 < 2 ^ 64 -> one_shot_ok t (Z.of_nat n) ->
  exists t', (r ← timer_tick t (Z.of_nat n); Some r.2) = Some t' /\ ticks n t = Some t' /\ timer_ok t'.
Proof.
  intros Ht Hm Hn Hb Hone. destruct n as [|n]; [lia|]. rewrite timer_tick_next by lia. rewrite ticks_reload.
  assert (mode (reload t) = mode t) as Em by (unfold reload; by destruct (null_count t)).
  destruct (next_state_ok (reload t) (Z.of_nat (S n))) as (t' & E & Ht'); [by apply reload_ok|congruence|lia|lia|].
  exists t'. split; [done|]. split; [|done]. rewrite ticks_next; [done|by apply reload_ok|congruence|apply reload_null|lia|].
  unfold one_shot_ok. by rewrite Em.
Qed.

(** ** Programming and latching a counter *)

Record ticked (t t' : Timer) (tick : Z) : Prop := {
  td_ok : timer_ok t';
  td_init : init t' = init t;
  td_mode : mode t' = mode t;
  td_state : state t' = state t;
  td_gate : gate t' = gate t;
  td_value : latched_value t' = latched_value t;
  td_status : latched_status t' = latched_status t;
  td_last : last_tick t' = tick;
}.

Lemma tick_to_spec t tick :
  timer_ok t -> mode t <> Mode1 -> 0 <= last_tick t <= tick -> tick < 2 ^ 63 ->
  exists t', tick_to t tick = Some t' /\ ticked t t' tick
  /\ (last_tick t < tick -> null_count t' = false /\ Some t' = next_state (reload (with_last_tick t tick)) (tick - last_tick t))
  /\ (last_tick t = tick -> t' = t).
Proof.
  intros Ht Hm Hl Hb. unfold tick_to. rewrite (proj2 (Z.leb_le _ _)) by lia. cbn [assert mbind option_bind].
  destruct (Z.ltb_spec 0 (tick - last_tick t)).
  - assert (timer_ok (with_last_tick t tick)) as Hok by (by destruct Ht).
    pose proof (reload_ok _ Hok) as Hr. assert (mode (reload (with_last_tick t tick)) = mode t) as Em by (unfold reload; cbn; by destruct (null_count t)).
    destruct (next_state_ok (reload (with_last_tick t tick)) (tick - last_tick t) Hr) as (t' & E & Ht'); [congruence|lia|lia|].
    rewrite (timer_tick_next (with_last_tick t tick)) by lia. rewrite E. exists t'. split; [done|].
    pose proof (next_state_fields _ _ _ E) as (F1 & F2 & F3 & F4 & F5 & F6 & F7 & F8). rewrite reload_null in F3.
    unfold reload in *. cbn in *. split; [|split; [done|lia]]. destruct (null_count t); split; done.
  - exists t. split; [done|]. split; [split; try done; lia|]. split; [lia|done].
Qed.

(** A control word for both bytes and a periodic mode. *)
Definition periodic (c : Z) : bool := (Z.land (Z.shiftr c 4) 3 =? 3) && (bool_decide (mode_of (Z.land (Z.shiftr c 1) 7) = Mode2) || bool_decide (mode_of (Z.land (Z.shiftr c 1) 7) = Mode3)).

Definition counter_ok (t : Timer) : Prop := timer_ok t /\ mode t <> Mode1 /\ gate t = true /\ 0 <= last_tick t.

(** The value of a counter that was loaded with [lo] and [hi], [d] ticks ago. *)
Definition loaded (lo hi : Z) : Z := if lo + 256 * hi =? 0 then 0x10000 else lo + 256 * hi.

Lemma set_both lo hi i : inw 8 lo -> inw 8 hi -> inw 16 i -> set_byte Msb (set_byte Lsb i lo) hi = lo + 256 * hi.
Proof.
  intros Hl Hh Hi. cbn [set_byte]. apply Z.bits_inj'. intros k Hk.
  replace (lo + 256 * hi) with (Z.lor lo (Z.shiftl hi 8)).
  - rewrite !Z.lor_spec, !Z.land_spec, Z.lor_spec, Z.land_spec, !Z.shiftl_spec by lia. change 0x00ff with (Z.ones 8). change 0xff00 with (Z.shiftl (Z.ones 8) 8).
    rewrite Z.shiftl_spec, !testbit_ones by lia. split_compares; rewrite ?andb_false_r, ?andb_true_r, ?orb_false_r, ?orb_false_l; try done;
      repeat match goal with |- context [Z.testbit ?x ?n] => rewrite (testbit_above 8 x n) by (done || lia) end; rewrite ?andb_false_r, ?orb_false_r, ?orb_false_l; try done.
    all: rewrite ?Z.testbit_neg_r by lia; rewrite ?orb_false_r; done.
  - rewrite Z.shiftl_mul_pow2 by lia.
    assert (Z.land lo (hi * 2 ^ 8) = 0) as H0.
    { apply Z.bits_inj'. intros j Hj. rewrite Z.land_spec, Z.bits_0, Z.mul_pow2_bits by lia. destruct (Z.ltb_spec j 8).
      - rewrite (Z.testbit_neg_r hi) by lia. by rewrite andb_false_r.
      - by rewrite (testbit_above 8 lo j) by (done || lia). }
    pose proof (Z.add_lor_land lo (hi * 2 ^ 8)) as E. rewrite H0 in E. lia.
Qed.

Lemma count_value t num v :
  timer_ok t -> mode t = Mode2 \/ mode t = Mode3 -> gate t = true -> 1 <= num <= period_of t -> val t = init t ->
  next_state t num = Some v -> val v = period_of t - num.
Proof.
  intros Ht Hm Hg Hn Hv E. pose proof (period_range t Ht) as Hp. destruct Ht as [Hi Hvw].
  assert (count_down (period_of t) (val t) num = Some (period_of t - num)) as Hc.
  { rewrite count_down_mod by (done || lia). f_equal. rewrite Hv. unfold period_of, inw in *. destruct (Z.eqb_spec (init t) 0).
    - rewrite (proj2 (Z.leb_gt _ _)) by lia. rewrite Z.mod_small by lia. lia.
    - rewrite (proj2 (Z.leb_le _ _)) by lia. done. }
  unfold next_state, tick_mode in E. destruct Hm as [Hm|Hm]; rewrite Hm, Hg, Hc in E; cbn [mbind option_bind snd] in E; by injection E as <-.
Qed.

Section session.
Context (c lo hi : Z) (Hc : periodic c = true) (Hlo : inw 8 lo) (Hhi : inw 8 hi).

(** A counter that waits for the first byte of its value. *)
Record programmed (t : Timer) (tick : Z) : Prop := {
  pg_ok : timer_ok t;
  pg_init : init t = 0;
  pg_mode : mode t = Mode2 \/ mode t = Mode3;
  pg_state : state t = Both Lsb Lsb;
  pg_gate : gate t = true;
  pg_value : latched_value t = None;
  pg_status : latched_status t = None;
  pg_last : last_tick t = tick;
}.

Lemma program_counter t tick :
  timer_ok t -> gate t = true -> last_tick t = tick -> programmed (timer_write_control t c) tick.
Proof.
  intros [Hi Hv] Hg Hl. unfold periodic in Hc. apply andb_prop in Hc as [Hs%Z.eqb_eq Hm]. unfold timer_write_control. rewrite Hs.
  split; cbn; try done. apply orb_prop in Hm as [Hm%bool_decide_eq_true|Hm%bool_decide_eq_true]; auto.
Qed.

Lemma periodic_not1 t : mode t = Mode2 \/ mode t = Mode3 -> mode t <> Mode1.
Proof. by intros [-> | ->]. Qed.

(** Loading: the first byte, then the second. *)
Lemma load_counter t0 tick0 tick1 tick2 :
  programmed t0 tick0 -> 0 <= tick0 <= tick1 -> tick1 <= tick2 < 2 ^ 63 ->
  exists t1 t2, tick_to t0 tick1 = Some t1 /\ tick_to (timer_write t1 lo) tick2 = Some t2
  /\ let t := timer_write t2 hi in timer_ok t /\ init t = lo + 256 * hi /\ (mode t = Mode2 \/ mode t = Mode3) /\ state t = Both Lsb Lsb
     /\ gate t = true /\ latched_value t = None /\ latched_status t = None /\ last_tick t = tick2 /\ null_count t = true.
Proof.
  intros [H1 H2 H3 H4 H5 H6 H7 H8] Ht1 Ht2.
  destruct (tick_to_spec t0 tick1 H1 (periodic_not1 t0 H3)) as (t1 & E1 & [A1 A2 A3 A4 A5 A6 A7 A8] & _); [lia|lia|].
  assert (timer_write t1 lo = with_access t1 (set_byte Lsb 0 lo) (Both Lsb Msb) (null_count t1) None None) as Ew.
  { unfold timer_write. rewrite A4, H4, A2, H2, A6, H6, A7, H7. cbn. by rewrite orb_false_r. }
  assert (inw 16 (set_byte Lsb 0 lo)) as Hi1 by (cbn [set_byte]; rewrite Z.land_0_l, Z.lor_0_l; by apply (inw_mono 8)).
  destruct (tick_to_spec (timer_write t1 lo) tick2) as (t2 & E2 & [B1 B2 B3 B4 B5 B6 B7 B8] & _).
  { rewrite Ew. split; [done|apply A1]. }
  { rewrite Ew. cbn. rewrite A3. by apply periodic_not1. }
  { rewrite Ew. cbn. lia. }
  { lia. }
  exists t1, t2. split; [done|]. split; [done|]. rewrite Ew in B2, B3, B4, B5, B6, B7. cbn -[set_byte] in B2, B3, B4, B5, B6, B7.
  assert (set_byte Msb (set_byte Lsb 0 lo) hi = lo + 256 * hi) as Ei by (by apply set_both).
  assert (timer_write t2 hi = with_access t2 (lo + 256 * hi) (Both Lsb Lsb) true None None) as Ew2.
  { unfold timer_write. rewrite B4, B2, B6, B7. rewrite Ei. unfold wraps_when_flipped. rewrite bool_decide_true by done. by rewrite orb_true_r. }
  cbv zeta. rewrite Ew2. cbn. rewrite B3, B5, A3, A5. split; [|done]. split; [|apply B1]. cbn. unfold inw in *. lia.
Qed.

(** Latching after [d] ticks, and reading both bytes. *)
Lemma read_counter t tick2 tick3 tick4 tick5 :
  timer_ok t -> init t = lo + 256 * hi -> mode t = Mode2 \/ mode t = Mode3 -> state t = Both Lsb Lsb -> gate t = true ->
  latched_value t = None -> latched_status t = None -> last_tick t = tick2 -> null_count t = true ->
  0 <= tick2 -> 1 <= tick3 - tick2 <= loaded lo hi -> tick3 <= tick4 -> tick4 <= tick5 < 2 ^ 63 ->
  exists t3 t4 t5, tick_to t tick3 = Some t3 /\ tick_to (latch_count t3) tick4 = Some t4 /\ tick_to (timer_read t4).2 tick5 = Some t5
  /\ (timer_read t4).1 = wrap 8 (loaded lo hi - (tick3 - tick2)) /\ (timer_read t5).1 = wrap 8 (Z.shiftr (loaded lo hi - (tick3 - tick2)) 8).
Proof.
  intros H1 H2 H3 H4 H5 H6 H7 H8 H9 Hd0 Hd Ht4 Ht5.
  destruct (tick_to_spec t tick3 H1 (periodic_not1 t H3)) as (t3 & E3 & [A1 A2 A3 A4 A5 A6 A7 A8] & Hv & _); [lia|lia|].
  destruct (Hv ltac:(lia)) as [_ Hv3]. assert (period_of (reload (with_last_tick t tick3)) = loaded lo hi) as Hper.
  { unfold reload, period_of, loaded. cbn. rewrite H9. cbn. by rewrite H2. }
  assert (val t3 = loaded lo hi - (tick3 - tick2)) as Hval.
  { rewrite <- H8. rewrite <- Hper. symmetry in Hv3. apply (count_value (reload (with_last_tick t tick3)) _ t3).
    - apply reload_ok. destruct H1. by split.
    - unfold reload. cbn. by rewrite H9.
    - unfold reload. cbn. by rewrite H9.
    - rewrite Hper. lia.
    - unfold reload. cbn. by rewrite H9.
    - done. }
  assert (mode t3 <> Mode1) as Hm3 by (rewrite A3; by apply periodic_not1).
  assert (latch_count t3 = with_access t3 (init t3) (Both Lsb Lsb) (null_count t3) (Some (val t3)) None) as El.
  { unfold latch_count. by rewrite A4, H4, A6, H6, A7, H7. }
  destruct (tick_to_spec (latch_count t3) tick4) as (t4 & E4 & [B1 B2 B3 B4 B5 B6 B7 B8] & _); [rewrite El; by destruct A1|by rewrite El|rewrite El; cbn; lia|lia|].
  rewrite El in B4, B6, B7. cbn in B4, B6, B7.
  assert (timer_read t4 = (wrap 8 (val t3), with_access t4 (init t4) (Both Msb Lsb) (null_count t4) (Some (val t3)) None)) as Er4.
  { unfold timer_read. rewrite B7, B4, B6. reflexivity. }
  assert (mode t4 <> Mode1) as Hm4 by (rewrite B3, El; done).
  destruct (tick_to_spec (timer_read t4).2 tick5) as (t5 & E5 & [C1 C2 C3 C4 C5 C6 C7 C8] & _); [rewrite Er4; by destruct B1|by rewrite Er4|rewrite Er4; cbn; lia|lia|].
  rewrite Er4 in C4, C6, C7. cbn in C4, C6, C7.
  exists t3, t4, t5. split; [done|]. split; [done|]. split; [done|]. rewrite Er4, <- Hval. split; [done|]. unfold timer_read. by rewrite C7, C4, C6.
Qed.
End session.

Lemma control_word reg c :
  (0 <= reg < 3) -> 0 <= c < 64 -> Z.shiftr (Z.lor (Z.shiftl reg 6) c) 6 = reg /\ Z.land (Z.lor (Z.shiftl reg 6) c) 0x3f = c.
Proof.
  intros Hr Hc. assert (all_below 3 (fun r => all_below 64 (fun c => (Z.shiftr (Z.lor (Z.shiftl r 6) c) 6 =? r) && (Z.land (Z.lor (Z.shiftl r 6) c) 0x3f =? c))) = true) as H
    by (vm_compute; reflexivity).
  pose proof (all_below_spec _ _ reg H ltac:(lia)) as H'. cbn beta in H'. pose proof (all_below_spec _ _ c H' ltac:(lia)) as H2. cbn beta in H2.
  apply andb_prop in H2 as [H2%Z.eqb_eq H3%Z.eqb_eq]. done.
Qed.

(** Program a counter, load it, latch it and read both bytes. *)
Definition counter_session (p : Pit) (reg c lo hi tick0 tick1 tick2 tick3 tick4 tick5 now : Z) : option (Z * Z) :=
  p ← pit_write_control p (Z.lor (Z.shiftl reg 6) c) tick0;
  p ← write_timer p reg lo tick1 now;
  p ← write_timer p reg hi tick2 now;
  p ← pit_write_control p (Z.shiftl reg 6) tick3;
  r ← read_timer p reg tick4;
  r' ← read_timer r.2 reg tick5;
  Some (r.1, r'.1).

Lemma timer_with p i t : (i < length (timers p))%nat -> timers (with_timer p i t) !! i = Some t.
Proof. intros H. by apply list_lookup_insert_eq. Qed.

Lemma registration_some p now t :
  timers p !! 0%nat = Some t -> mode t = Mode2 \/ mode t = Mode3 -> exists p', update_timer_registration p now = Some p' /\ timers p' = timers p.
Proof.
  intros Ht Hm. unfold update_timer_registration, compute_effective_irq_period. rewrite Ht. cbn [mbind option_bind].
  assert (bool_decide (mode t = Mode2) || bool_decide (mode t = Mode3) = true) as -> by (destruct Hm as [-> | ->]; done).
  cbn [assert mbind option_bind]. destruct (negb _); eexists; done.
Qed.

Lemma write_timer_spec p reg t v tick now t' :
  0 <= reg -> timers p !! Z.to_nat reg = Some t -> tick_to t tick = Some t' -> mode (timer_write t' v) = Mode2 \/ mode (timer_write t' v) = Mode3 ->
  exists p', write_timer p reg v tick now = Some p' /\ timers p' !! Z.to_nat reg = Some (timer_write t' v).
Proof.
  intros Hr Ht Et Hm. unfold write_timer, timer_at. rewrite Ht. cbn [mbind option_bind]. rewrite Et. cbn [mbind option_bind].
  pose proof (timer_with p (Z.to_nat reg) (timer_write t' v) (lookup_lt_Some _ _ _ Ht)) as Hw.
  destruct (Z.eqb_spec reg 0) as [->|]; [|by eexists]. destruct (registration_some _ now _ Hw Hm) as (p' & Hp & Hts). exists p'. split; [done|]. by rewrite Hts.
Qed.

Lemma write_control_spec p reg c t tick t' :
  0 <= reg < 3 -> 0 <= c < 64 -> timers p !! Z.to_nat reg = Some t -> tick_to t tick = Some t' ->
  exists p', pit_write_control p (Z.lor (Z.shiftl reg 6) c) tick = Some p' /\ timers p' !! Z.to_nat reg = Some (timer_write_control t' c).
Proof.
  intros Hr Hc Ht Et. destruct (control_word reg c Hr Hc) as [E1 E2]. unfold pit_write_control, timer_at. rewrite E1, E2.
  rewrite (proj2 (Z.eqb_neq reg 3)) by lia. rewrite Ht. cbn [mbind option_bind]. rewrite Et. cbn [mbind option_bind].
  eexists. split; [done|]. by apply timer_with, lookup_lt_Some in Ht || (apply timer_with; by apply lookup_lt_Some in Ht).
Qed.

Lemma read_timer_spec p reg t tick t' :
  timers p !! Z.to_nat reg = Some t -> tick_to t tick = Some t' ->
  exists p', read_timer p reg tick = Some ((timer_read t').1, p') /\ timers p' !! Z.to_nat reg = Some (timer_read t').2.
Proof.
  intros Ht Et. unfold read_timer, timer_at. rewrite Ht. cbn [mbind option_bind]. rewrite Et. cbn [mbind option_bind].
  destruct (timer_read t') as [v t2]. eexists. split; [done|]. apply timer_with. by apply lookup_lt_Some in Ht.
Qed.




Definition square_wave : Timer := timer_write (timer_write (timer_write_control timer_new 0x36) 0x21) 0x4e.

Definition one_shot : Timer := timer_write_control timer_new 0x38.
(** A one-shot that runs through 2^16 ticks at once misses the end of its
    count. *)
Lemma one_shot_wraps :
  output <$> (r ← timer_tick one_shot 65536; Some r.2) = Some false /\ output <$> ticks (Z.to_nat 65536) one_shot = Some true.
Proof. split; vm_compute; reflexivity. Qed.

(** Loading counter 0 for a mode that is not periodic panics. *)
Lemma write_timer0_one_shot_panics : (p ← pit_write_control (pit_new 0) 0x38 1; write_timer p 0 1 2 0) = None.
Proof. vm_compute. reflexivity. Qed.

(** The output that a control word leaves is that of the mode before it. *)
Lemma control_output_of_old_mode : output (timer_write_control timer_new 0x34) = false /\ output (timer_write_control (timer_write_control timer_new 0x34) 0x30) = true.
Proof. split; reflexivity. Qed.
