(* ===== verification/Metadata.v ===== *)
(** * Page metadata and bitmaps

    The metadata that decides whether a guest access may use the mapped memory
    directly or must be trapped ([sem86-arch/src/mem/metadata.rs]), and the
    bitmap of clean physical frames ([sem86-arch/src/mem/bitmap.rs]).  The
    metadata map is a byte per page behind a bitmap of the chunks that may
    differ from "trap everything"; the theorems show that this bitmap is only
    an optimisation of a plain map from pages to bytes.

    The bytes and words reached through raw pointers are functions and lists
    here; the map owns its region exclusively, as the source demands. *)
From S2P Require Import Prelude.

(** ** Bits of a page *)

Definition METADATA_BIT_TRAP_USER : Z := 1.
Definition METADATA_BIT_TRAP_WRITE : Z := 2.
Definition METADATA_BIT_TRAP_ACCESS : Z := 4.

Module MetadataTest.
Definition new : Z := 0.
Definition require_present (t : Z) : Z := Z.lor t METADATA_BIT_TRAP_ACCESS.
Definition require_writable (t : Z) : Z := Z.lor t METADATA_BIT_TRAP_WRITE.
Definition require_accessible_from_userspace (t : Z) : Z := Z.lor t METADATA_BIT_TRAP_USER.
End MetadataTest.

Module MetadataBits.
Definition new : Z := 0.
Definition all : Z := 0xff.
Definition should_trap (bits test : Z) : bool := negb (Z.land bits test =? 0).
Definition trap_on_write (bits : Z) (trap : bool) : Z :=
  if trap then Z.lor bits METADATA_BIT_TRAP_WRITE
  else Z.land bits (unot 8 METADATA_BIT_TRAP_WRITE).
Definition trap_on_userspace_access (bits : Z) (trap : bool) : Z :=
  if trap then Z.lor bits METADATA_BIT_TRAP_USER
  else Z.land bits (unot 8 METADATA_BIT_TRAP_USER).
End MetadataBits.

(** The requirements of an access, as [should_trap_linear_access] and
    [multibyte_access_can_use_fast_path] build them. *)
Definition access_test (is_write is_user : bool) : Z :=
  let test := MetadataTest.require_present MetadataTest.new in
  let test := if is_write then MetadataTest.require_writable test else test in
  if is_user then MetadataTest.require_accessible_from_userspace test else test.

(** The bits that a resolved access leaves behind. *)
Definition access_bits (user_accessible writable : bool) : Z :=
  MetadataBits.trap_on_write
    (MetadataBits.trap_on_userspace_access MetadataBits.new (negb user_accessible))
    (negb writable).


(** A page is trapped for the kinds of access that its bits forbid. *)
Lemma access_bits_trap user_accessible writable is_write is_user :
  MetadataBits.should_trap (access_bits user_accessible writable) (access_test is_write is_user)
  = (is_write && negb writable) || (is_user && negb user_accessible).
Proof. by destruct user_accessible, writable, is_write, is_user. Qed.

Lemma all_traps is_write is_user :
  MetadataBits.should_trap MetadataBits.all (access_test is_write is_user) = true.
Proof. by destruct is_write, is_user. Qed.

(** ** Bitmaps of 64-bit words *)

(** [set] and [reset] of [AtomicBitmap], and [set] of [PtrBitmap]: the words
    as a list, the result says whether the bit changed. *)
Definition bitmap_get (words : list Z) (n : Z) : option bool :=
  w ← arr_get words (n / 64); Some (bit w (n mod 64)).
Definition bitmap_set (words : list Z) (n : Z) : option (bool * list Z) :=
  w ← arr_get words (n / 64);
  let mask := wrap 64 (Z.shiftl 1 (n mod 64)) in
  words ← arr_set words (n / 64) (Z.lor w mask);
  Some (Z.land w mask =? 0, words).
Definition bitmap_reset (words : list Z) (n : Z) : option (bool * list Z) :=
  w ← arr_get words (n / 64);
  let mask := wrap 64 (Z.shiftl 1 (n mod 64)) in
  words ← arr_set words (n / 64) (Z.land w (unot 64 mask));
  Some (negb (Z.land w mask =? 0), words).

Definition new_all_ones (len : Z) : option (list Z) :=
  assert (len mod 64 =? 0);; Some (replicate (Z.to_nat (len / 64)) (Z.ones 64)).

(** Bits of words of 64 bits, as a set of numbers. *)
Definition words_ok (words : list Z) : Prop := Forall (inw 64) words.
Definition bitmap_len (words : list Z) : Z := 64 * Z.of_nat (length words).

Lemma mask_bit n i : 0 <= n -> bit (wrap 64 (Z.shiftl 1 (n mod 64))) i = (i =? n mod 64).
Proof.
  intros Hn. pose proof (Z.mod_pos_bound n 64 ltac:(lia)). unfold bit.
  rewrite testbit_wrap, testbit_shiftl by lia. change 1 with (2 ^ 0).
  rewrite testbit_pow2 by lia. split_compares.
Qed.

Lemma land_mask w n :
  0 <= n -> 0 <= w ->
  (Z.land w (wrap 64 (Z.shiftl 1 (n mod 64))) =? 0) = negb (bit w (n mod 64)).
Proof.
  intros Hn Hw. destruct (bit w (n mod 64)) eqn:E; simpl.
  - apply Z.eqb_neq. intros H. assert (bit 0 (n mod 64) = true) as H0; [|by rewrite Z.bits_0 in H0].
    rewrite <- H. unfold bit. rewrite Z.land_spec. fold (bit w (n mod 64)). rewrite E.
    fold (bit (wrap 64 (Z.shiftl 1 (n mod 64))) (n mod 64)). by rewrite mask_bit, Z.eqb_refl.
  - apply Z.eqb_eq, Z.bits_inj_0. intros i. rewrite Z.land_spec.
    fold (bit (wrap 64 (Z.shiftl 1 (n mod 64))) i). rewrite mask_bit by done.
    destruct (Z.eqb_spec i (n mod 64)) as [->|]; [|by rewrite andb_false_r].
    fold (bit w (n mod 64)). by rewrite E.
Qed.

Lemma bitmap_get_spec words n :
  0 <= n < bitmap_len words -> exists b, bitmap_get words n = Some b.
Proof.
  intros Hn. unfold bitmap_get, bitmap_len in *.
  destruct (arr_get_is_Some words (n / 64)) as [w ->]; [|by eexists].
  Z.to_euclidean_division_equations; lia.
Qed.

(** Updating the word of bit [n]. *)
Lemma bitmap_update words n f :
  words_ok words -> 0 <= n < bitmap_len words ->
  (forall w, inw 64 w -> inw 64 (f w)) ->
  exists w words', arr_get words (n / 64) = Some w /\ inw 64 w
    /\ arr_set words (n / 64) (f w) = Some words' /\ words_ok words'
    /\ length words' = length words
    /\ forall m, 0 <= m -> bitmap_get words' m
         = if m / 64 =? n / 64 then Some (bit (f w) (m mod 64)) else bitmap_get words m.
Proof.
  intros Hw Hn Hf. unfold bitmap_len in Hn.
  assert (0 <= n / 64 < Z.of_nat (length words)) as Hi by (Z.to_euclidean_division_equations; lia).
  destruct (arr_get_is_Some words (n / 64) Hi) as [w Ew].
  assert (inw 64 w) as Hw64.
  { apply arr_get_spec in Ew as [_ Ew]. by apply (Forall_lookup_1 _ _ _ _ Hw Ew). }
  exists w, (<[Z.to_nat (n / 64) := f w]> words). split; [done|]. split; [done|].
  pose proof (arr_set_spec words (n / 64) (f w) Hi) as E. split; [done|].
  split; [by apply Forall_insert; [done|apply Hf]|]. split; [apply length_insert|].
  intros m Hm. unfold bitmap_get. rewrite (arr_get_set _ _ _ _ _ E).
  by destruct (m / 64 =? n / 64).
Qed.

Lemma same_word n m : 0 <= n -> 0 <= m -> n / 64 = m / 64 -> n mod 64 = m mod 64 -> n = m.
Proof. intros Hn Hm E1 E2. rewrite (Z.div_mod n 64), (Z.div_mod m 64) by lia. congruence. Qed.

Lemma bitmap_set_spec words n :
  words_ok words -> 0 <= n < bitmap_len words ->
  exists old words', bitmap_get words n = Some old
    /\ bitmap_set words n = Some (negb old, words') /\ words_ok words'
    /\ length words' = length words
    /\ forall m, 0 <= m -> bitmap_get words' m = if m =? n then Some true else bitmap_get words m.
Proof.
  intros Hw Hn. set (mask := wrap 64 (Z.shiftl 1 (n mod 64))).
  assert (inw 64 mask) as Hmask by (by apply wrap_inw).
  destruct (bitmap_update words n (fun w => Z.lor w mask) Hw Hn) as (w & words' & E & Hw64 & E' & H1 & H2 & H3).
  { intros w Hw'. by apply inw_lor. }
  exists (bit w (n mod 64)), words'. unfold bitmap_get at 1, bitmap_set. rewrite E. simpl.
  fold mask. rewrite E'. simpl. split; [done|]. unfold mask. rewrite land_mask by (unfold inw in *; lia).
  split; [done|]. split; [done|]. split; [done|]. intros m Hm. rewrite H3 by done.
  destruct (Z.eqb_spec (m / 64) (n / 64)) as [Ed|Ed].
  - unfold bit. rewrite Z.lor_spec. fold (bit mask (m mod 64)). unfold mask. rewrite mask_bit by lia.
    destruct (Z.eqb_spec (m mod 64) (n mod 64)) as [Em|Em], (Z.eqb_spec m n) as [->|Hne]; try done.
    + by rewrite orb_true_r.
    + exfalso. apply Hne. apply same_word; lia.
    + rewrite orb_false_r. unfold bitmap_get. rewrite Ed, E. done.
  - destruct (Z.eqb_spec m n) as [->|]; [done|done].
Qed.

Lemma bitmap_reset_spec words n :
  words_ok words -> 0 <= n < bitmap_len words ->
  exists old words', bitmap_get words n = Some old
    /\ bitmap_reset words n = Some (old, words') /\ words_ok words'
    /\ length words' = length words
    /\ forall m, 0 <= m -> bitmap_get words' m = if m =? n then Some false else bitmap_get words m.
Proof.
  intros Hw Hn. set (mask := wrap 64 (Z.shiftl 1 (n mod 64))).
  assert (inw 64 mask) as Hmask by (by apply wrap_inw).
  assert (inw 64 (unot 64 mask)) as Hnot by (by apply inw_lxor; [lia|done|apply inw_ones]).
  destruct (bitmap_update words n (fun w => Z.land w (unot 64 mask)) Hw Hn)
    as (w & words' & E & Hw64 & E' & H1 & H2 & H3).
  { intros w Hw'. apply inw_land; [lia|done|apply Hnot]. }
  exists (bit w (n mod 64)), words'. unfold bitmap_get at 1, bitmap_reset. rewrite E. simpl.
  fold mask. rewrite E'. simpl. split; [done|]. unfold mask. rewrite land_mask by (unfold inw in *; lia).
  rewrite negb_involutive. split; [done|]. split; [done|]. split; [done|]. intros m Hm. rewrite H3 by done.
  pose proof (Z.mod_pos_bound m 64 ltac:(lia)).
  destruct (Z.eqb_spec (m / 64) (n / 64)) as [Ed|Ed].
  - unfold bit. rewrite Z.land_spec, testbit_unot by lia. fold (bit mask (m mod 64)).
    unfold mask. rewrite mask_bit by lia. rewrite (proj2 (Z.ltb_lt _ 64)) by lia.
    destruct (Z.eqb_spec (m mod 64) (n mod 64)) as [Em|Em], (Z.eqb_spec m n) as [->|Hne]; try done.
    + replace (0 <=? n mod 64) with true by lia. simpl. by rewrite andb_false_r.
    + exfalso. apply Hne. apply same_word; lia.
    + unfold bitmap_get. rewrite Ed, E. replace (0 <=? m mod 64) with true by lia. simpl.
      by rewrite andb_true_r.
  - destruct (Z.eqb_spec m n) as [->|]; [done|done].
Qed.

(** ** The metadata map *)

Definition METADATA_MAP_SIZE : Z := 2 ^ 20.
Definition MODIFIED_MAP_SIZE : Z := 128.
Definition METADATA_MAP_CHUNK_SIZE : Z := METADATA_MAP_SIZE / MODIFIED_MAP_SIZE.

(** [entries] are the bytes from [ptr] on, [modified] the two words of the
    bitmap before them. *)
Record MetadataMap := {
  modified : list Z;
  entries : Z -> Z;
}.

(** [PtrBitmap::get] and [set] check their index. *)
Definition ptr_get (m : MetadataMap) (n : Z) : option bool :=
  assert (n <? MODIFIED_MAP_SIZE);; bitmap_get (modified m) n.
Definition ptr_set (m : MetadataMap) (n : Z) : option (list Z) :=
  assert (n <? MODIFIED_MAP_SIZE);; '(_, words) ← bitmap_set (modified m) n; Some words.
Definition ptr_clear (m : MetadataMap) : list Z :=
  replicate (Z.to_nat (MODIFIED_MAP_SIZE / 64)) 0.

Definition get_for_address (m : MetadataMap) (addr : Z) : Z := entries m (Z.shiftr addr 12).

Definition meta_set (m : MetadataMap) (addr val : Z) : option MetadataMap :=
  let offset := Z.shiftr addr 12 in
  words ← ptr_set m (offset / METADATA_MAP_CHUNK_SIZE);
  Some {| modified := words;
          entries := fun p => if p =? offset then val else entries m p |}.

Definition meta_initialize (m : MetadataMap) : MetadataMap :=
  {| modified := ptr_clear m;
     entries := fun p => if (0 <=? p) && (p <? METADATA_MAP_SIZE) then 0xff else entries m p |}.

(** The bytes of one chunk, from [offset] on, changed by [f]. *)
Definition update_chunk (e : Z -> Z) (offset : Z) (f : Z -> Z) : Z -> Z :=
  fun p => if (offset <=? p) && (p <? offset + METADATA_MAP_CHUNK_SIZE) then f (e p) else e p.

(** [(0..METADATA_MAP_SIZE).step_by(METADATA_MAP_CHUNK_SIZE).enumerate()]: the
    modified chunks, changed one after the other. *)
Fixpoint update_chunks (m : MetadataMap) (f : Z -> Z) (index : Z) (n : nat) (e : Z -> Z)
    : option (Z -> Z) :=
  match n with
  | O => Some e
  | S n =>
      b ← ptr_get m index;
      update_chunks m f (index + 1) n
        (if b : bool then update_chunk e (index * METADATA_MAP_CHUNK_SIZE) f else e)
  end.

Definition meta_clear (m : MetadataMap) : option MetadataMap :=
  e ← update_chunks m (fun _ => 0xff) 0 (Z.to_nat MODIFIED_MAP_SIZE) (entries m);
  Some {| modified := ptr_clear m; entries := e |}.

Definition enable_for_all (m : MetadataMap) (extra_bits : Z) : option MetadataMap :=
  e ← update_chunks m (fun b => Z.lor b extra_bits) 0 (Z.to_nat MODIFIED_MAP_SIZE) (entries m);
  Some {| modified := modified m; entries := e |}.

(** *** Refinement of a plain map

    The invariant: every chunk that is not marked as modified traps
    everything. *)
Definition page_ok (p : Z) : Prop := 0 <= p < METADATA_MAP_SIZE.

Definition meta_ok (m : MetadataMap) : Prop :=
  words_ok (modified m) /\ length (modified m) = 2%nat
  /\ (forall p, page_ok p -> inw 8 (entries m p))
  /\ (forall p, page_ok p ->
        bitmap_get (modified m) (p / METADATA_MAP_CHUNK_SIZE) = Some false ->
        entries m p = 0xff).

Lemma chunk_bound p : page_ok p -> 0 <= p / METADATA_MAP_CHUNK_SIZE < 128.
Proof.
  unfold page_ok. change METADATA_MAP_SIZE with (128 * 8192).
  change METADATA_MAP_CHUNK_SIZE with 8192. intros H. Z.to_euclidean_division_equations; lia.
Qed.

Lemma chunk_in_bitmap p :
  page_ok p ->
  (0 <=? p / METADATA_MAP_CHUNK_SIZE)
  && (p / METADATA_MAP_CHUNK_SIZE <? 0 + Z.of_nat (Z.to_nat MODIFIED_MAP_SIZE)) = true.
Proof.
  intros Hp. apply chunk_bound in Hp. change (Z.of_nat (Z.to_nat MODIFIED_MAP_SIZE)) with 128.
  rewrite andb_true_iff, Z.leb_le, Z.ltb_lt. lia.
Qed.

Lemma modified_len m : meta_ok m -> bitmap_len (modified m) = 128.
Proof. intros (_ & H & _). unfold bitmap_len. by rewrite H. Qed.

Lemma ptr_get_defined m index :
  meta_ok m -> 0 <= index < 128 ->
  exists b, ptr_get m index = Some b /\ bitmap_get (modified m) index = Some b.
Proof.
  intros Hm Hi. destruct (bitmap_get_spec (modified m) index) as [b E].
  { by rewrite modified_len. }
  exists b. split; [|done]. unfold ptr_get, MODIFIED_MAP_SIZE.
  by rewrite (proj2 (Z.ltb_lt index 128)) by lia.
Qed.

(** The pages of the chunks from [index] on that are modified are changed. *)
Lemma update_chunks_spec m f index n e :
  meta_ok m -> 0 <= index -> index + Z.of_nat n <= 128 ->
  exists e', update_chunks m f index n e = Some e'
  /\ forall p, page_ok p ->
     e' p = if (index <=? p / METADATA_MAP_CHUNK_SIZE)
               && (p / METADATA_MAP_CHUNK_SIZE <? index + Z.of_nat n)
               && bool_decide (bitmap_get (modified m) (p / METADATA_MAP_CHUNK_SIZE) = Some true)
            then f (e p) else e p.
Proof.
  intros Hm. revert index e. induction n as [|n IH]; intros index e Hi Hn; cbn [update_chunks].
  { exists e. split; [done|]. intros p Hp.
    destruct (Z.leb_spec index (p / METADATA_MAP_CHUNK_SIZE)); [|done].
    destruct (Z.ltb_spec (p / METADATA_MAP_CHUNK_SIZE) (index + Z.of_nat 0)); [lia|done]. }
  destruct (ptr_get_defined m index Hm) as (b & -> & Eb); [lia|]. simpl.
  destruct (IH (index + 1) (if b then update_chunk e (index * METADATA_MAP_CHUNK_SIZE) f else e))
    as (e' & -> & He'); [lia|lia|]. exists e'. split; [done|]. intros p Hp. rewrite He' by done.
  set (c := p / METADATA_MAP_CHUNK_SIZE). 
  assert (c = index <-> index * METADATA_MAP_CHUNK_SIZE <= p
                        < index * METADATA_MAP_CHUNK_SIZE + METADATA_MAP_CHUNK_SIZE) as Hc.
  { unfold c. change METADATA_MAP_CHUNK_SIZE with 8192. Z.to_euclidean_division_equations; lia. }
  assert ((if b then update_chunk e (index * METADATA_MAP_CHUNK_SIZE) f else e) p
          = if (c =? index) && b then f (e p) else e p) as ->.
  { destruct b; [|by rewrite andb_false_r]. unfold update_chunk. rewrite andb_true_r.
    destruct (Z.eqb_spec c index) as [E|E]; [apply Hc in E|];
      (destruct (Z.leb_spec (index * METADATA_MAP_CHUNK_SIZE) p), (Z.ltb_spec p (index * METADATA_MAP_CHUNK_SIZE + METADATA_MAP_CHUNK_SIZE)); try done; try lia); 
      exfalso; apply E; apply Hc; lia. }
  destruct (Z.eqb_spec c index) as [E|E].
  - rewrite E, Eb. rewrite (proj2 (Z.leb_gt (index + 1) index)) by lia.
    rewrite (proj2 (Z.leb_le index index)) by lia.
    rewrite (proj2 (Z.ltb_lt index (index + Z.of_nat (S n)))) by lia. simpl.
    by destruct b; [rewrite (bool_decide_eq_true_2 (Some true = Some true))|rewrite (bool_decide_eq_false_2 (Some false = Some true))].
  - simpl. replace (index <=? c) with (index + 1 <=? c) by
      (destruct (Z.leb_spec (index + 1) c), (Z.leb_spec index c); lia).
    by replace (index + 1 + Z.of_nat n) with (index + Z.of_nat (S n)) by lia.
Qed.

Lemma meta_set_spec m addr val :
  meta_ok m -> inw 32 addr -> inw 8 val ->
  exists m', meta_set m addr val = Some m' /\ meta_ok m'
  /\ forall p, page_ok p -> entries m' p = if p =? Z.shiftr addr 12 then val else entries m p.
Proof.
  intros Hm Ha Hv. unfold meta_set, ptr_set. cbv zeta. set (o := Z.shiftr addr 12).
  assert (page_ok o) as Ho.
  { unfold o, page_ok. rewrite Z.shiftr_div_pow2 by lia. unfold inw in Ha.
    change METADATA_MAP_SIZE with (2 ^ 20). Z.to_euclidean_division_equations; lia. }
  pose proof (chunk_bound o Ho) as Hc. set (c := o / METADATA_MAP_CHUNK_SIZE) in *.
  pose proof Hm as (Hw & Hlen & Hin & Hinv).
  destruct (bitmap_set_spec (modified m) c Hw) as (old & w & _ & E & Hw' & Hlen' & Hget).
  { by rewrite modified_len. }
  unfold MODIFIED_MAP_SIZE. rewrite (proj2 (Z.ltb_lt c 128)), E by lia. simpl.
  eexists. split; [done|]. split; [|done]. split; [done|]. split; [by rewrite <- Hlen, <- Hlen'|].
  split; simpl.
  - intros p Hp. destruct (p =? o); [done|by apply Hin].
  - intros p Hp. pose proof (chunk_bound p Hp). rewrite Hget by lia.
    destruct (Z.eqb_spec (p / METADATA_MAP_CHUNK_SIZE) c) as [E'|E']; [done|].
    destruct (Z.eqb_spec p o) as [->|]; [done|]. intros Hb. by apply Hinv.
Qed.

Lemma ptr_clear_get m n : 0 <= n < 128 -> bitmap_get (ptr_clear m) n = Some false.
Proof.
  intros Hn. unfold bitmap_get, ptr_clear. change (Z.to_nat (MODIFIED_MAP_SIZE / 64)) with 2%nat.
  assert (n / 64 = 0 \/ n / 64 = 1) as [-> | ->] by (Z.to_euclidean_division_equations; lia);
    simpl; by rewrite Z.bits_0.
Qed.

Lemma meta_initialize_ok m : meta_ok (meta_initialize m).
Proof.
  assert (forall p, page_ok p -> entries (meta_initialize m) p = 0xff) as H.
  { intros p [H1 H2]. unfold meta_initialize. simpl.
    by rewrite (proj2 (Z.leb_le _ _)), (proj2 (Z.ltb_lt _ _)) by lia. }
  split; [by repeat constructor|]. split; [done|]. split; [|by auto].
  intros p Hp. rewrite H by done. done.
Qed.

Lemma meta_clear_spec m :
  meta_ok m ->
  exists m', meta_clear m = Some m' /\ meta_ok m' /\ forall p, page_ok p -> entries m' p = 0xff.
Proof.
  intros Hm. unfold meta_clear.
  destruct (update_chunks_spec m (fun _ => 0xff) 0 (Z.to_nat MODIFIED_MAP_SIZE) (entries m) Hm)
    as (e & -> & He); [done|done|]. simpl.
  assert (forall p, page_ok p -> e p = 0xff) as H.
  { intros p Hp. rewrite He by done. pose proof (chunk_bound p Hp) as Hc.
    destruct (ptr_get_defined m _ Hm Hc) as (b & _ & Eb). rewrite Eb.
    rewrite chunk_in_bitmap by done. destruct b; [done|]. by apply Hm. }
  eexists. split; [done|]. split; [|done]. split; [by repeat constructor|]. split; [done|].
  split; simpl; [|by auto]. intros p Hp. by rewrite H.
Qed.

Lemma lor_ff b : inw 8 b -> Z.lor 0xff b = 0xff.
Proof. intros Hb. apply Z.bits_inj'. intros i Hi. rewrite Z.lor_spec.
  destruct (Z.lt_ge_cases i 8).
  - change 0xff with (Z.ones 8). by rewrite Z.ones_spec_low by lia.
  - rewrite (testbit_above 8 b) by (done || lia). by rewrite orb_false_r.
Qed.

Lemma enable_for_all_spec m extra :
  meta_ok m -> inw 8 extra ->
  exists m', enable_for_all m extra = Some m' /\ meta_ok m'
  /\ forall p, page_ok p -> entries m' p = Z.lor (entries m p) extra.
Proof.
  intros Hm Hx. unfold enable_for_all.
  destruct (update_chunks_spec m (fun b => Z.lor b extra) 0 (Z.to_nat MODIFIED_MAP_SIZE) (entries m) Hm)
    as (e & -> & He); [done|done|]. simpl.
  pose proof Hm as (Hw & Hlen & Hin & Hinv).
  assert (forall p, page_ok p -> e p = Z.lor (entries m p) extra) as H.
  { intros p Hp. rewrite He by done. pose proof (chunk_bound p Hp) as Hc.
    destruct (ptr_get_defined m _ Hm Hc) as (b & _ & Eb). rewrite chunk_in_bitmap, Eb by done.
    destruct b; [done|]. simpl. rewrite Hinv by done. by rewrite lor_ff. }
  eexists. split; [done|]. split; [|done]. split; [done|]. split; [done|]. split; simpl.
  - intros p Hp. rewrite H by done. apply inw_lor; [lia|by apply Hin|done].
  - intros p Hp Hb. rewrite H, Hinv by done. by apply lor_ff.
Qed.

(** The operations on the map, and what they do to a plain map from pages to
    bytes. *)
Inductive MetaOp : Type :=
| MSet (addr val : Z)
| MClear
| MEnable (bits : Z).

Definition meta_step (m : MetadataMap) (op : MetaOp) : option MetadataMap :=
  match op with
  | MSet addr val => meta_set m addr val
  | MClear => meta_clear m
  | MEnable bits => enable_for_all m bits
  end.
Fixpoint meta_run (m : MetadataMap) (ops : list MetaOp) : option MetadataMap :=
  match ops with
  | [] => Some m
  | op :: ops => m ← meta_step m op; meta_run m ops
  end.

Definition plain_step (f : Z -> Z) (op : MetaOp) : Z -> Z :=
  match op with
  | MSet addr val => fun p => if p =? Z.shiftr addr 12 then val else f p
  | MClear => fun _ => MetadataBits.all
  | MEnable bits => fun p => Z.lor (f p) bits
  end.

Definition metaop_ok (op : MetaOp) : Prop :=
  match op with
  | MSet addr val => inw 32 addr /\ inw 8 val
  | MClear => True
  | MEnable bits => inw 8 bits
  end.

Lemma meta_run_spec ops m f :
  meta_ok m -> (forall p, page_ok p -> entries m p = f p) -> Forall metaop_ok ops ->
  exists m', meta_run m ops = Some m' /\ meta_ok m'
  /\ forall p, page_ok p -> entries m' p = foldl plain_step f ops p.
Proof.
  intros Hm Hf Hops. revert m f Hm Hf. induction Hops as [|op ops Hop _ IH]; intros m f Hm Hf; simpl.
  { by exists m. }
  assert (exists m', meta_step m op = Some m' /\ meta_ok m'
    /\ forall p, page_ok p -> entries m' p = plain_step f op p) as (m' & -> & Hm' & Hf').
  { destruct op as [addr val| |bits]; simpl.
    - destruct Hop as [Ha Hv]. destruct (meta_set_spec m addr val Hm Ha Hv) as (m' & E & H1 & H2).
      exists m'. split; [done|]. split; [done|]. intros p Hp. rewrite H2 by done.
      case_match; [done|by apply Hf].
    - destruct (meta_clear_spec m Hm) as (m' & E & H1 & H2). by exists m'.
    - destruct (enable_for_all_spec m bits Hm Hop) as (m' & E & H1 & H2).
      exists m'. split; [done|]. split; [done|]. intros p Hp. rewrite H2 by done. by rewrite Hf. }
  simpl. by apply IH.
Qed.

(** C26: The bitmap of modified chunks is invisible: after any sequence of updates
    of an initialised map, the metadata of an address is what the same updates
    of a plain map from pages to bytes give, where clearing makes every page
    trap every access and extra bits reach every page.  No update panics. *)
Theorem metadata_map_refines_plain_map (m0 : MetadataMap) (ops : list MetaOp) (addr : Z) :
  Forall metaop_ok ops -> inw 32 addr ->
  exists m, meta_run (meta_initialize m0) ops = Some m
  /\ get_for_address m addr
     = foldl plain_step (fun _ => MetadataBits.all) ops (Z.shiftr addr 12).
Proof.
  intros Hops Ha.
  destruct (meta_run_spec ops (meta_initialize m0) (fun _ => 0xff)) as (m & E & _ & H).
  - apply meta_initialize_ok.
  - intros p [H1 H2]. simpl. by rewrite (proj2 (Z.leb_le _ _)), (proj2 (Z.ltb_lt _ _)) by lia.
  - done.
  - exists m. split; [done|]. apply H. unfold page_ok. rewrite Z.shiftr_div_pow2 by lia.
    unfold inw in Ha. change METADATA_MAP_SIZE with (2 ^ 20). Z.to_euclidean_division_equations; lia.
Qed.

Definition example_map : MetadataMap := {| modified := [5; 7]; entries := fun _ => 0x55 |}.
Definition example_metaops : list MetaOp := [MSet 0x12345678 1; MEnable 2; MSet 0x1000 0].

Lemma metadata_map_refines_plain_map_witness :
  exists m, meta_run (meta_initialize example_map) example_metaops = Some m
  /\ get_for_address m 0x12345fff = 3.
Proof.
  refine (metadata_map_refines_plain_map example_map example_metaops 0x12345fff _ _).
  - unfold example_metaops. repeat constructor; simpl; unfold inw; lia.
  - unfold inw. lia.
Defined.
