(* ===== verification/PhysMap.v ===== *)
(** * The map of physical memory

    [sem86-arch/src/mem/phys_map.rs]: which ranges of physical addresses are
    backed by device registers or by other shared memory than the RAM.  The
    ranges are kept in a [RangeMap] of the crate rangemap, which is the
    interface of the same name here; its laws are the documented behaviour of
    the crate. *)
From S2P Require Import Prelude.

(** [rm_insert] and [rm_remove] are called with non-empty ranges: the crate
    panics on others, which the callers below spell out. *)
Class RangeMap (M V : Type) := {
  rm_new : M;
  rm_insert : Z -> Z -> V -> M -> M;
  rm_remove : Z -> Z -> M -> M;
  rm_get : M -> Z -> option ((Z * Z) * V);
}.

(** A range that is found holds the key, and its value is the value of all its
    keys. *)
Class RangeMapLaws (M V : Type) `{RangeMap M V} := {
  rm_get_new k : rm_get rm_new k = None;
  rm_get_insert s e v m k : s < e ->
    snd <$> rm_get (rm_insert s e v m) k = if (s <=? k) && (k <? e) then Some v else snd <$> rm_get m k;
  rm_get_remove s e m k : s < e ->
    snd <$> rm_get (rm_remove s e m) k = if (s <=? k) && (k <? e) then None else snd <$> rm_get m k;
  rm_get_range m k s e v : rm_get m k = Some ((s, e), v) ->
    s <= k < e /\ forall k', s <= k' < e -> snd <$> rm_get m k' = Some v;
}.

(** Devices, shared memory objects and watchers are known by number. *)
Inductive Entry : Type :=
| MmioEntry (id : Z)
| ShmEntry (shm phys_addr_to_shm_delta : Z) (watcher : option Z) (writable : bool).

Inductive EntryRef : Type :=
| MmioRef (id : Z)
| ShmRef (shm phys_addr_to_shm_delta : Z) (watcher : option Z) (writable : bool)
| DefaultRef.

Definition entry_ref (e : Entry) : EntryRef :=
  match e with
  | MmioEntry id => MmioRef id
  | ShmEntry shm delta watcher writable => ShmRef shm delta watcher writable
  end.

Section phys_map.
Context {M : Type} `{RangeMapLaws M Entry}.

Definition map_internal (m : M) (start stop : Z) (content : Entry) : option M :=
  assert (start <? stop);; Some (rm_insert start stop content m).

Definition map_shm (m : M) (start stop shm : Z) (watcher : option Z) (offset : Z) (writable : bool)
    : option M :=
  map_internal m start stop
    (ShmEntry shm (signed 64 (wrap 64 (offset - start))) watcher writable).

Definition map_mmio (m : M) (start stop id : Z) : option M :=
  map_internal m start stop (MmioEntry id).

Definition remove_map (m : M) (start stop : Z) : option M :=
  assert (start <? stop);; Some (rm_remove start stop m).

(** The entry of an address with the range it holds for. *)
Definition lookup (m : M) (addr : Z) : EntryRef * (Z * Z) :=
  match rm_get m addr with
  | Some (range, entry) => (entry_ref entry, range)
  | None =>
      let page_start := Z.land addr (unot 64 0xfff) in
      (DefaultRef, (page_start, page_start + 0x1000))
  end.

(** ** What a lookup finds *)

Lemma page_start_spec addr : inw 64 addr -> Z.land addr (unot 64 0xfff) = addr - addr mod 4096.
Proof.
  intros Ha.
  assert (Z.land addr (unot 64 0xfff) = Z.ldiff addr (Z.ones 12)) as ->.
  { apply Z.bits_inj'. intros i Hi. rewrite Z.land_spec, Z.ldiff_spec, testbit_unot by lia.
    change 0xfff with (Z.ones 12). destruct (Z.lt_ge_cases i 64).
    - rewrite (proj2 (Z.leb_le 0 i)), (proj2 (Z.ltb_lt i 64)) by lia. by destruct (Z.testbit (Z.ones 12) i).
    - rewrite (testbit_above 64 addr) by (done || lia). done. }
  rewrite Z.ldiff_ones_r by lia. rewrite Z.shiftl_mul_pow2, Z.shiftr_div_pow2 by lia.
  change (2 ^ 12) with 4096. pose proof (Z.div_mod addr 4096). lia.
Qed.

Definition lookup_entry (m : M) (addr : Z) : EntryRef :=
  match snd <$> rm_get m addr with Some e => entry_ref e | None => DefaultRef end.

Lemma lookup_fst m addr : (lookup m addr).1 = lookup_entry m addr.
Proof. unfold lookup, lookup_entry. by destruct (rm_get m addr) as [[[] ]|]. Qed.

(** The range of a lookup holds the address. *)
Lemma lookup_range m addr :
  inw 64 addr -> (lookup m addr).2.1 <= addr < (lookup m addr).2.2.
Proof.
  intros Ha. unfold lookup. destruct (rm_get m addr) as [[[s e] v]|] eqn:E; simpl.
  - by apply rm_get_range in E as [? _].
  - rewrite page_start_spec by done. pose proof (Z.mod_pos_bound addr 4096). lia.
Qed.

(** ** Histories *)

Inductive MapOp : Type :=
| MapShm (start stop shm : Z) (watcher : option Z) (offset : Z) (writable : bool)
| MapMmio (start stop id : Z)
| RemoveMap (start stop : Z).

Definition map_step (m : M) (op : MapOp) : option M :=
  match op with
  | MapShm start stop shm watcher offset writable => map_shm m start stop shm watcher offset writable
  | MapMmio start stop id => map_mmio m start stop id
  | RemoveMap start stop => remove_map m start stop
  end.

Definition map_run (m : M) (ops : list MapOp) : option M := foldl (fun m op => m ← m; map_step m op) (Some m) ops.

(** What the machine means by a history: the last operation on an address
    decides, and an address of shared memory is at its distance from the start
    of its area. *)
Inductive Backing : Type :=
| Device (id : Z)
| SharedAt (shm offset : Z) (watcher : option Z) (writable : bool)
| Ram.

Definition backing_step (b : Z -> Backing) (op : MapOp) : Z -> Backing :=
  fun a =>
    match op with
    | MapShm start stop shm watcher offset writable =>
        if (start <=? a) && (a <? stop) then SharedAt shm (offset + (a - start)) watcher writable else b a
    | MapMmio start stop id => if (start <=? a) && (a <? stop) then Device id else b a
    | RemoveMap start stop => if (start <=? a) && (a <? stop) then Ram else b a
    end.

(** The offset that the emulator computes for an address of shared memory:
    [addr.wrapping_add(phys_addr_to_shm_delta as u64)]. *)
Definition backing_of (e : EntryRef) (addr : Z) : Backing :=
  match e with
  | MmioRef id => Device id
  | ShmRef shm delta watcher writable => SharedAt shm (wrap 64 (addr + delta)) watcher writable
  | DefaultRef => Ram
  end.

Definition mapop_ok (op : MapOp) : Prop :=
  match op with
  | MapShm start stop _ _ offset _ =>
      0 <= start < stop /\ stop < 2 ^ 63 /\ 0 <= offset /\ offset + (stop - start) < 2 ^ 63
  | MapMmio start stop _ | RemoveMap start stop => 0 <= start < stop
  end.

Lemma wrap_signed w x y : 0 < w -> wrap w (x + signed w (wrap w y)) = wrap w (x + y).
Proof.
  intros Hw. unfold signed. rewrite wrap_wrap by lia. unfold wrap. destruct (_ <? _).
  - by rewrite Z.add_mod_idemp_r by lia.
  - replace (x + (y mod 2 ^ w - 2 ^ w)) with (x + y mod 2 ^ w + (-1) * 2 ^ w) by lia.
    rewrite Z.mod_add by lia. by rewrite Z.add_mod_idemp_r by lia.
Qed.


End phys_map.

(** ** A range map

    A list of insertions and removals, the latest first: a range that is found
    ends where a later entry begins. *)

Section range_list.
Context {V : Type}.

Definition ranges : Type := list ((Z * Z) * option V).

Fixpoint ranges_get (m : ranges) (k : Z) : option ((Z * Z) * V) :=
  match m with
  | [] => None
  | ((a, b), ov) :: m =>
      if (a <=? k) && (k <? b) then (fun v => ((a, b), v)) <$> ov
      else if a <? b then
        '((s, e), v) ← ranges_get m k;
        Some (if k <? a then (s, Z.min e a, v) else (Z.max s b, e, v))
      else ranges_get m k
  end.

#[global] Instance ranges_map : RangeMap ranges V := {
  rm_new := [];
  rm_insert s e v m := ((s, e), Some v) :: m;
  rm_remove s e m := ((s, e), None) :: m;
  rm_get := ranges_get;
}.

Lemma ranges_get_range (m : ranges) k s e v :
  ranges_get m k = Some ((s, e), v) ->
  s <= k < e /\ forall k', s <= k' < e -> snd <$> ranges_get m k' = Some v.
Proof.
  revert k s e. induction m as [|[[a b] ov] m IH]; intros k s e; cbn [ranges_get]; [done|].
  destruct (Z.ltb_spec a b) as [Hab|Hab]; cycle 1.
  { assert (forall j, (a <=? j) && (j <? b) = false) as Hj by (intros j; apply andb_false_iff; lia).
    rewrite Hj. intros E. destruct (IH _ _ _ E) as [Hk Hr]. split; [done|].
    intros k' Hk'. rewrite Hj. by apply Hr. }
  destruct ((a <=? k) && (k <? b)) eqn:Ek.
  { intros E. destruct ov as [v'|]; [|done]. simpl in E. simplify_eq. split; [lia|].
    intros k' Hk. by rewrite (proj2 (Z.leb_le _ _)), (proj2 (Z.ltb_lt _ _)) by lia. }
  destruct (ranges_get m k) as [[[s' e'] v']|] eqn:E; [|done]. simpl. intros E'.
  assert (v' = v) as -> by (destruct (k <? a); congruence).
  destruct (IH _ _ _ E) as [Hk Hr].
  assert (s <= k < e /\ s' <= s /\ e <= e' /\ (e <= a \/ b <= s)) as (? & ? & ? & ?).
  { destruct (Z.ltb_spec k a); simplify_eq; lia. }
  split; [done|]. intros k' Hk'. specialize (Hr k' ltac:(lia)).
  assert ((a <=? k') && (k' <? b) = false) as -> by (apply andb_false_iff; lia).
  destruct (ranges_get m k') as [[[] ]|]; simpl in *; [|done]. by destruct (k' <? a).
Qed.

#[global] Instance ranges_map_laws : RangeMapLaws ranges V.
Proof.
  split.
  - done.
  - intros s e v m k Hse. simpl. destruct ((s <=? k) && (k <? e)); [done|].
    rewrite (proj2 (Z.ltb_lt s e)) by done. destruct (ranges_get m k) as [[[] ]|]; [|done].
    simpl. by destruct (k <? s).
  - intros s e m k Hse. simpl. destruct ((s <=? k) && (k <? e)); [done|].
    rewrite (proj2 (Z.ltb_lt s e)) by done. destruct (ranges_get m k) as [[[] ]|]; [|done].
    simpl. by destruct (k <? s).
  - apply ranges_get_range.
Qed.

End range_list.

Arguments ranges : clear implicits.

(** The local APIC's registers, the video memory over the RAM, and a part of
    it given back to the RAM. *)
Definition example_maps : list MapOp :=
  [MapMmio 0xfee00000 0xfee01000 3; MapShm 0xa0000 0xc0000 1 None 0x4000 true;
   RemoveMap 0xb0000 0xb8000].

