(* ===== verification/Paging.v ===== *)
(** * Page tables

    The guest memory of [sem86-arch/src/mem/mod.rs] as state, the page-table
    entries of [paging.rs] and [pae.rs], the page walks and the resolution of
    an access to a physical address, with the permission checks and the
    accessed and dirty bits.

    The memory of the host is modelled as the shared memory objects that back
    it: the RAM and the objects of devices, each a map from offsets to bytes.
    The two areas of mapped pages, of logical and of unchecked physical
    addresses, are tables from pages to an object and an offset; an access
    through a page that is not mapped kills the emulator and is [None], as is
    a misaligned access through a typed pointer.  The statistics counters are
    left out. *)
From S2P Require Import Prelude Exceptions Metadata PhysMap.

Open Scope comp_scope.

(** ** Page-table entries *)

Module Pte.
Definition present := flag 0.
Definition writeable := flag 1.
Definition user_accessible := flag 2.
Definition accessed := flag 5.
Definition dirty := flag 6.
Definition global := flag 8.
Definition set_accessed := set_flag 5 true.
Definition phys_base_addr (e : Z) : Z := Z.shiftl (field 12 20 e) 12.
End Pte.

Module Pde.
Definition present := flag 0.
Definition writeable := flag 1.
Definition user_accessible := flag 2.
Definition accessed := flag 5.
Definition big_page := flag 7.
Definition set_accessed := set_flag 5 true.
Definition pt_base_addr (e : Z) : Z := Z.shiftl (field 12 20 e) 12.
End Pde.

Module BigPde.
Definition writeable := flag 1.
Definition user_accessible := flag 2.
Definition dirty := flag 6.
Definition global := flag 8.
Definition phys_base_addr (e : Z) : Z :=
  Z.lor (Z.shiftl (field 22 10 e) 22) (Z.shiftl (field 13 8 e) 32).
End BigPde.

Module PaeAddr32.
Definition page_offset := field 0 12.
Definition pte_offset := field 12 9.
Definition pde_offset := field 21 9.
Definition pdpe_offset := field 30 2.
End PaeAddr32.

Module PaePdpe.
Definition present := flag 0.
Definition pd_base_addr (e : Z) : Z := Z.shiftl (field 12 40 e) 12.
End PaePdpe.

Module PaePde.
Definition present := flag 0.
Definition writeable := flag 1.
Definition user_accessible := flag 2.
Definition accessed := flag 5.
Definition big_page := flag 7.
Definition set_accessed := set_flag 5 true.
Definition pt_base_addr (e : Z) : Z := Z.shiftl (field 12 40 e) 12.
End PaePde.

Module BigPaePde.
Definition writeable := flag 1.
Definition user_accessible := flag 2.
Definition dirty := flag 6.
Definition global := flag 8.
Definition phys_base_addr (e : Z) : Z := Z.shiftl (field 21 31 e) 21.
End BigPaePde.

Module PaePte.
Definition present := flag 0.
Definition writeable := flag 1.
Definition user_accessible := flag 2.
Definition accessed := flag 5.
Definition dirty := flag 6.
Definition global := flag 8.
Definition set_accessed := set_flag 5 true.
Definition phys_base_addr (e : Z) : Z := Z.shiftl (field 12 40 e) 12.
End PaePte.

(** ** The state of the memory *)

(** The control bits that the CPU sets. *)
Record MemRegs := {
  page_table_addr : Z;
  a20_enabled : bool;
  system_write_protect : bool;
  page_size_extension : bool;
  physical_address_extension : bool;
  paging_enabled : bool;
}.

Record Mem32 {M : Type} := {
  shm_bytes : Z -> Z -> Z;                 (* the bytes of each shared memory object *)
  shm_len : Z -> Z;
  physical_memory : Z;                     (* the object that is the RAM *)
  phys_pages : Z -> option (Z * Z);        (* mapped pages of the physical area *)
  logical_pages : Z -> option (Z * Z);     (* mapped pages of the logical area *)
  current_mappings : Z -> option Z;
  metadata : MetadataMap;
  frame_is_clean : list Z;
  phys_map : M;
  regs : MemRegs;
}.
Arguments Mem32 : clear implicits.

Definition with_bytes {M} (m : Mem32 M) (b : Z -> Z -> Z) : Mem32 M :=
  {| shm_bytes := b; shm_len := shm_len m; physical_memory := physical_memory m;
     phys_pages := phys_pages m; logical_pages := logical_pages m;
     current_mappings := current_mappings m; metadata := metadata m;
     frame_is_clean := frame_is_clean m; phys_map := phys_map m; regs := regs m |}.

(** The [n] bytes of an object from an offset on, as a little-endian number. *)
Definition shm_read (b : Z -> Z -> Z) (s o : Z) (n : Z) : Z :=
  from_le_bytes ((fun i => b s (o + i)) <$> seqZ 0 n).
Definition shm_write (b : Z -> Z -> Z) (s o : Z) (n v : Z) : Z -> Z -> Z :=
  fun s' o' =>
    if (s' =? s) && (o <=? o') && (o' <? o + n) then wrap 8 (Z.shiftr v (8 * (o' - o))) else b s' o'.

Section walk.
Context {M : Type} `{RangeMap M Entry}.

(** Aligned accesses of [n] bytes through a pointer into the physical area. *)
Definition phys_loc (m : Mem32 M) (addr : Z) : option (Z * Z) :=
  '(s, o) ← phys_pages m (addr / 4096); Some (s, o + addr mod 4096).
Definition phys_read (m : Mem32 M) (n addr : Z) : option Z :=
  assert (addr mod n =? 0);;
  '(s, o) ← phys_loc m addr; Some (shm_read (shm_bytes m) s o n).
Definition phys_write (m : Mem32 M) (n addr v : Z) : option (Mem32 M) :=
  assert (addr mod n =? 0);;
  '(s, o) ← phys_loc m addr; Some (with_bytes m (shm_write (shm_bytes m) s o n v)).

(** ** Results of a page walk *)

Inductive PageWalkError : Type :=
| PdeNotPresent (pde addr : Z)
| PteNotPresent (pde pte addr : Z)
| PaePdpeNotPresent (pdpe addr : Z)
| PaePdeNotPresent (pdpe pde addr : Z)
| PaePteNotPresent (pdpe pde pte addr : Z).

Inductive BigPage : Type := Normal4Kb | Big2Mb | Big4Mb.

(** [DirtyMarker] is the address of the entry. *)
Record Translation := {
  addr : Z;
  writable : bool;
  user_accessible : bool;
  dirty : bool;
  mark_dirty_addr : Z;
  big_page : BigPage;
  global : bool;
}.

Inductive PageWalkResult : Type :=
| Unmapped (e : PageWalkError)
| PhysAddr (t : Translation).

(** [DirtyMarker::mark_dirty]: a 32-bit update of the entry. *)
Definition mark_dirty (m : Mem32 M) (marker : Z) : option (Mem32 M) :=
  e ← phys_read m 4 marker; phys_write m 4 marker (Z.setbit e 6).

(** [if mark_accessed && !e.accessed()]: the entry with its accessed bit set,
    in memory too. *)
Definition set_accessed_bit (m : Mem32 M) (mark_accessed : bool) (n addr e : Z)
    : option (Z * Mem32 M) :=
  if mark_accessed && negb (flag 5 e) then
    let e := set_flag 5 true e in
    m ← phys_write m n addr e; Some (e, m)
  else Some (e, m).

(** The page tables must be in RAM. *)
Definition in_default (m : Mem32 M) (a : Z) : bool :=
  match (lookup (phys_map m) a).1 with DefaultRef => true | _ => false end.

Definition page_walk_pae (m : Mem32 M) (emu_addr : Z) (mark_accessed : bool)
    : option (PageWalkResult * Mem32 M) :=
  let phys_pdpe_addr := page_table_addr (regs m) + PaeAddr32.pdpe_offset emu_addr * 8 in
  pdpe ← phys_read m 8 phys_pdpe_addr;
  if negb (PaePdpe.present pdpe) then
    Some (Unmapped (PaePdpeNotPresent pdpe (wrap 32 phys_pdpe_addr)), m)
  else
  let phys_pde_addr := PaePdpe.pd_base_addr pdpe + PaeAddr32.pde_offset emu_addr * 8 in
  pde ← phys_read m 8 phys_pde_addr;
  if negb (PaePde.present pde) then
    Some (Unmapped (PaePdeNotPresent pdpe pde (wrap 32 phys_pde_addr)), m)
  else
  '(pde, m) ← set_accessed_bit m mark_accessed 8 phys_pde_addr pde;
  if PaePde.big_page pde then
    Some (PhysAddr
      {| addr := Z.lor (BigPaePde.phys_base_addr pde) (Z.land emu_addr (Z.ones 21));
         writable := BigPaePde.writeable pde; user_accessible := BigPaePde.user_accessible pde;
         dirty := BigPaePde.dirty pde; mark_dirty_addr := phys_pde_addr; big_page := Big4Mb;
         global := BigPaePde.global pde |}, m)
  else
  let phys_pte_addr := PaePde.pt_base_addr pde + PaeAddr32.pte_offset emu_addr * 8 in
  assert (in_default m phys_pdpe_addr);;
  assert (in_default m phys_pde_addr);;
  assert (in_default m phys_pte_addr);;
  pte ← phys_read m 8 phys_pte_addr;
  if negb (PaePte.present pte) then
    Some (Unmapped (PaePteNotPresent pdpe pde pte (wrap 32 phys_pte_addr)), m)
  else
  '(pte, m) ← set_accessed_bit m mark_accessed 8 phys_pte_addr pte;
  Some (PhysAddr
    {| addr := Z.lor (PaePte.phys_base_addr pte) (PaeAddr32.page_offset emu_addr);
       writable := PaePde.writeable pde && PaePte.writeable pte;
       user_accessible := PaePde.user_accessible pde && PaePte.user_accessible pte;
       dirty := PaePte.dirty pte; mark_dirty_addr := phys_pte_addr; big_page := Normal4Kb;
       global := PaePte.global pte |}, m).

Definition page_walk_non_pae (m : Mem32 M) (emu_addr : Z) (mark_accessed : bool)
    : option (PageWalkResult * Mem32 M) :=
  let l1_bits := Z.land (Z.shiftr emu_addr 22) 0x3ff in
  let l2_bits := Z.land (Z.shiftr emu_addr 12) 0x3ff in
  let phys_pde_addr := page_table_addr (regs m) + l1_bits * 4 in
  pde ← phys_read m 4 phys_pde_addr;
  if negb (Pde.present pde) then
    Some (Unmapped (PdeNotPresent pde (wrap 32 phys_pde_addr)), m)
  else
  '(pde, m) ← set_accessed_bit m mark_accessed 4 phys_pde_addr pde;
  if Pde.big_page pde && page_size_extension (regs m) then
    Some (PhysAddr
      {| addr := Z.lor (BigPde.phys_base_addr pde) (Z.land emu_addr 0x3fffff);
         writable := BigPde.writeable pde; user_accessible := BigPde.user_accessible pde;
         dirty := BigPde.dirty pde; mark_dirty_addr := phys_pde_addr; big_page := Big4Mb;
         global := BigPde.global pde |}, m)
  else
  let phys_pte_addr := Pde.pt_base_addr pde + l2_bits * 4 in
  assert (in_default m phys_pde_addr);;
  assert (in_default m phys_pte_addr);;
  pte ← phys_read m 4 phys_pte_addr;
  if negb (Pte.present pte) then
    Some (Unmapped (PteNotPresent pde pte (wrap 32 phys_pte_addr)), m)
  else
  '(pte, m) ← set_accessed_bit m mark_accessed 4 phys_pte_addr pte;
  Some (PhysAddr
    {| addr := Z.lor (Pte.phys_base_addr pte) (Z.land emu_addr 0xfff);
       writable := Pde.writeable pde && Pte.writeable pte;
       user_accessible := Pde.user_accessible pde && Pte.user_accessible pte;
       dirty := Pte.dirty pte; mark_dirty_addr := phys_pte_addr; big_page := Normal4Kb;
       global := Pte.global pte |}, m).

Definition page_walk (m : Mem32 M) (emu_addr : Z) (mark_accessed : bool)
    : option (PageWalkResult * Mem32 M) :=
  if physical_address_extension (regs m) then page_walk_pae m emu_addr mark_accessed
  else page_walk_non_pae m emu_addr mark_accessed.

(** ** Resolving an access *)

Record ResolvedAccess := {
  emu_addr : Z;
  phys_addr : Z;
  access_writable : bool;
  phys_frame_needs_dirty_mark : bool;
  access_user_accessible : bool;
}.

Definition phys_frame_is_dirty (m : Mem32 M) (phys_frame_addr : Z) : option bool :=
  negb <$> bitmap_get (frame_is_clean m) (Z.shiftr phys_frame_addr 12).

Definition page_fault (present is_write is_user : bool) (a : Z) : Exception :=
  PageFault (PageFaultCode.from_normal_access present is_write is_user false) a.

(** The end of a successful resolution. *)
Definition resolved (a : Z) (t : Translation) (is_write writeable dirty : bool)
    : comp (Mem32 M) Exception ResolvedAccess :=
  m <-! cget;;
  phys_frame_dirty <-! clift (phys_frame_is_dirty m (addr t));;
  cret {| emu_addr := a; phys_addr := addr t;
          access_writable := is_write || (writeable && dirty && phys_frame_dirty);
          phys_frame_needs_dirty_mark := is_write && negb phys_frame_dirty;
          access_user_accessible := user_accessible t |}.

Definition cmark_dirty (marker : Z) : comp (Mem32 M) Exception unit :=
  m <-! cget;; m <-! clift (mark_dirty m marker);; cput m.

Definition cpage_walk (a : Z) (mark_accessed : bool) : comp (Mem32 M) Exception PageWalkResult :=
  fun m => '(r, m) ← page_walk m a mark_accessed; Some (Ok r, m).

Definition resolve_access_address (a : Z) (is_write is_user : bool)
    : comp (Mem32 M) Exception ResolvedAccess :=
  m <-! cget;;
  if negb (paging_enabled (regs m)) then
    phys_frame_dirty <-! clift (phys_frame_is_dirty m a);;
    cret {| emu_addr := a; phys_addr := a;
            access_writable := is_write || phys_frame_dirty;
            phys_frame_needs_dirty_mark := is_write && negb phys_frame_dirty;
            access_user_accessible := true |}
  else
    r <-! cpage_walk a true;;
    match r with
    | Unmapped _ => cerr (page_fault false is_write is_user a)
    | PhysAddr t =>
        m <-! cget;;
        let always_allow_write := negb is_user && negb (system_write_protect (regs m)) in
        let writeable := writable t || always_allow_write in
        if negb writeable && is_write then cerr (page_fault true is_write is_user a)
        else if negb (user_accessible t) && is_user then cerr (page_fault true is_write is_user a)
        else if is_write && negb (dirty t) then
          cmark_dirty (mark_dirty_addr t) >>! resolved a t is_write writeable true
        else resolved a t is_write writeable (dirty t)
    end.

End walk.

(** ** Bits in memory *)

#[local] Arguments flag : simpl never.
#[local] Arguments set_flag : simpl never.
#[local] Arguments Z.testbit : simpl never.

(** One bit of one byte set. *)
Definition set_bit_at (b : Z -> Z -> Z) (s o k : Z) : Z -> Z -> Z :=
  fun s' o' => if (s' =? s) && (o' =? o) then Z.setbit (b s' o') k else b s' o'.

Definition bytes_ok (b : Z -> Z -> Z) : Prop := forall s o, inw 8 (b s o).

(** Bit [i] of the number read is bit [i mod 8] of byte [i / 8]. *)
Lemma from_le_bytes_bit l i :
  Forall (inw 8) l -> 0 <= i ->
  Z.testbit (from_le_bytes l) i = Z.testbit (default 0 (l !! Z.to_nat (i / 8))) (i mod 8).
Proof.
  intros Hl. revert i. induction Hl as [|b l Hb Hl IH]; intros i Hi; cbn [from_le_bytes].
  { rewrite lookup_nil. simpl. by rewrite !Z.bits_0. }
  rewrite Z.lor_spec, testbit_shiftl by lia. pose proof (Z.mod_pos_bound i 8 ltac:(lia)).
  destruct (Z.lt_ge_cases i 8).
  - rewrite (Z.div_small i 8), (Z.mod_small i 8) by lia. simpl.
    destruct (Z.leb_spec 8 i); [lia|]. simpl. by rewrite orb_false_r.
  - rewrite (testbit_above 8 b) by (done || lia). simpl.
    destruct (Z.leb_spec 8 i); [|lia]. rewrite IH by lia.
    replace (Z.to_nat (i / 8)) with (S (Z.to_nat ((i - 8) / 8)));
      [|Z.to_euclidean_division_equations; lia].
    simpl. f_equal. Z.to_euclidean_division_equations; lia.
Qed.

Lemma shm_read_bit b s o n i :
  bytes_ok b -> 0 <= n ->
  Z.testbit (shm_read b s o n) i
  = (0 <=? i) && (i <? 8 * n) && Z.testbit (b s (o + i / 8)) (i mod 8).
Proof.
  intros Hb Hn. destruct (Z.leb_spec 0 i); [|by rewrite Z.testbit_neg_r by lia].
  unfold shm_read. rewrite from_le_bytes_bit; [|apply Forall_fmap, Forall_true; intros x; apply Hb|done].
  rewrite list_lookup_fmap. destruct (Z.ltb_spec i (8 * n)); simpl.
  - rewrite lookup_seqZ_lt by (Z.to_euclidean_division_equations; lia). simpl.
    do 2 f_equal. Z.to_euclidean_division_equations; lia.
  - rewrite lookup_seqZ_ge by (Z.to_euclidean_division_equations; lia). simpl. apply Z.bits_0.
Qed.

Lemma shm_read_inw b s o n : bytes_ok b -> 0 <= n -> inw (8 * n) (shm_read b s o n).
Proof.
  intros Hb Hn. unfold shm_read.
  pose proof (from_le_bytes_inw ((fun i => b s (o + i)) <$> seqZ 0 n)) as H.
  rewrite length_fmap, length_seqZ, Z2Nat.id in H by lia. apply H.
  apply Forall_fmap, Forall_true. intros x. apply Hb.
Qed.

(** Writing a number back with one of its low bits set sets that bit. *)
Lemma shm_write_setbit b s o n k :
  bytes_ok b -> 0 < n -> 0 <= k < 8 ->
  forall s' o', shm_write b s o n (Z.setbit (shm_read b s o n) k) s' o' = set_bit_at b s o k s' o'.
Proof.
  intros Hb Hn Hk s' o'. unfold shm_write, set_bit_at.
  destruct (Z.eqb_spec s' s) as [->|]; [|done]. cbn [andb].
  destruct (Z.leb_spec o o'), (Z.ltb_spec o' (o + n)); cbn [andb];
    destruct (Z.eqb_spec o' o) as [->|]; try lia; try done.
  all: apply Z.bits_inj'; intros i Hi; rewrite testbit_wrap, Z.shiftr_spec by lia.
  - rewrite !Z.setbit_eqb, shm_read_bit by (done || lia).
    replace (i + 8 * (o - o)) with i by lia. destruct (Z.ltb_spec i 8); cycle 1.
    + rewrite (testbit_above 8 (b s o) i) by (apply Hb || lia). by rewrite (proj2 (Z.eqb_neq k i)) by lia.
    + rewrite (proj2 (Z.leb_le 0 i)), (proj2 (Z.ltb_lt i (8 * n))) by lia.
      by rewrite (Z.div_small i 8), (Z.mod_small i 8), Z.add_0_r by lia.
  - rewrite !Z.setbit_eqb, shm_read_bit by (done || lia). destruct (Z.ltb_spec i 8); cycle 1.
    + by rewrite (testbit_above 8 (b s o')) by (apply Hb || lia).
    + rewrite (proj2 (Z.eqb_neq k _)) by lia.
      replace ((i + 8 * (o' - o)) / 8) with (o' - o) by (Z.to_euclidean_division_equations; lia).
      replace ((i + 8 * (o' - o)) mod 8) with i by (Z.to_euclidean_division_equations; lia).
      replace (o + (o' - o)) with o' by lia.
      by rewrite (proj2 (Z.leb_le 0 _)), (proj2 (Z.ltb_lt _ (8 * n))) by lia.
Qed.

Lemma set_bit_at_ok b s o k : bytes_ok b -> 0 <= k < 8 -> bytes_ok (set_bit_at b s o k).
Proof.
  intros Hb Hk s' o'. unfold set_bit_at. destruct (_ && _); [|apply Hb].
  unfold Z.setbit. apply inw_lor; [lia|apply Hb|]. rewrite Z.shiftl_1_l.
  unfold inw. split; [apply Z.pow_nonneg; lia|]. apply Z.pow_lt_mono_r; lia.
Qed.

(** ** Entries that differ in the accessed and dirty bits *)

(** [e'] is [e] with possibly its accessed or dirty bit set. *)
Definition sim (e e' : Z) : Prop :=
  (forall i, 0 <= i -> i <> 5 -> i <> 6 -> Z.testbit e' i = Z.testbit e i)
  /\ (flag 5 e = true -> flag 5 e' = true) /\ (flag 6 e = true -> flag 6 e' = true).

Lemma sim_refl e : sim e e.
Proof. done. Qed.

Lemma sim_trans e1 e2 e3 : sim e1 e2 -> sim e2 e3 -> sim e1 e3.
Proof.
  intros (H1 & H2 & H3) (H4 & H5 & H6). split; [|auto]. intros i Hi N5 N6.
  by rewrite H4, H1.
Qed.

Lemma sim_setbit e k : k = 5 \/ k = 6 -> sim e (Z.setbit e k).
Proof.
  intros Hk. unfold sim, flag. rewrite !Z.setbit_eqb by lia. split; [|split].
  - intros i Hi N5 N6. rewrite Z.setbit_eqb by lia. by rewrite (proj2 (Z.eqb_neq k i)) by lia.
  - intros ->. by rewrite orb_true_r.
  - intros ->. by rewrite orb_true_r.
Qed.

Lemma sim_flag e e' k : sim e e' -> 0 <= k -> k <> 5 -> k <> 6 -> flag k e' = flag k e.
Proof. intros [H _]. unfold flag. intros. by apply H. Qed.

Lemma sim_field e e' off len :
  sim e e' -> 7 <= off -> 0 <= len -> field off len e' = field off len e.
Proof.
  intros [H _] Ho Hl. unfold field. apply Z.bits_inj'. intros i Hi.
  rewrite !Z.land_spec, !Z.shiftr_spec by lia. f_equal. apply H; lia.
Qed.

Definition tables_ok {M} (m : Mem32 M) : Prop :=
  bytes_ok (shm_bytes m)
  /\ forall p s o, phys_pages m p = Some (s, o) -> o mod 4096 = 0.

Section marks.
Context {M : Type} `{RangeMap M Entry}.
Implicit Types m : Mem32 M.

(** The page tables of [m'] are those of [m], up to accessed and dirty bits. *)
Definition tables_sim (n : Z) m m' : Prop :=
  (phys_pages m' = phys_pages m /\ phys_map m' = phys_map m /\ regs m' = regs m)
  /\ tables_ok m'
  /\ (forall a e, phys_read m n a = Some e -> exists e', phys_read m' n a = Some e' /\ sim e e').

(** [m'] is [m] after updates of accessed and dirty bits: nothing but the
    bytes has changed, and every page-table entry keeps its other bits. *)
Definition marked (n : Z) m m' : Prop :=
  m' = with_bytes m (shm_bytes m') /\ tables_sim n m m'
  /\ (forall s o, sim (shm_bytes m s o) (shm_bytes m' s o)).

Lemma tables_sim_trans n m1 m2 m3 : tables_sim n m1 m2 -> tables_sim n m2 m3 -> tables_sim n m1 m3.
Proof.
  intros ((P1 & Q1 & R1) & _ & S1) ((P2 & Q2 & R2) & T2 & S2). split; [|split; [done|]].
  - by rewrite P2, Q2, R2.
  - intros a e E. destruct (S1 a e E) as (e1 & Ee1 & H1). destruct (S2 a e1 Ee1) as (e2 & Ee2 & H2).
    exists e2. split; [done|]. by apply (sim_trans e e1).
Qed.

Lemma marked_refl n m : tables_ok m -> marked n m m.
Proof.
  intros Hm. split; [by destruct m|]. split; [|done]. split; [done|]. split; [done|].
  intros a e E. by exists e.
Qed.

Lemma marked_trans n m1 m2 m3 : marked n m1 m2 -> marked n m2 m3 -> marked n m1 m3.
Proof.
  intros (E1 & T1 & B1) (E2 & T2 & B2). split; [|split].
  - rewrite E2. simpl. rewrite E1. done.
  - by apply (tables_sim_trans n m1 m2).
  - intros s o. by apply (sim_trans _ (shm_bytes m2 s o)).
Qed.

Lemma marked_sim n m m' : marked n m m' -> tables_sim n m m'.
Proof. intros (_ & Ht & _). exact Ht. Qed.

Lemma marked_tables_ok n m m' : marked n m m' -> tables_ok m'.
Proof. intros (_ & (_ & Ht & _) & _). exact Ht. Qed.

Lemma marked_config n m m' :
  marked n m m' ->
  phys_pages m' = phys_pages m /\ phys_map m' = phys_map m /\ regs m' = regs m
  /\ frame_is_clean m' = frame_is_clean m /\ metadata m' = metadata m.
Proof. intros [E _]. rewrite E. done. Qed.

Lemma phys_loc_aligned n m a s o :
  n = 4 \/ n = 8 -> tables_ok m -> a mod n = 0 -> phys_loc m a = Some (s, o) -> o mod n = 0.
Proof.
  intros Hn [_ Hp] Ha E. unfold phys_loc in E.
  destruct (phys_pages m (a / 4096)) as [[s' o']|] eqn:Ep; simplify_eq/=. apply Hp in Ep.
  destruct Hn as [-> | ->]; Z.to_euclidean_division_equations; lia.
Qed.

(** Setting bit 5 or 6 of an entry of [n] bytes with an access of [n0]. *)
Lemma mark_entry n n0 m a e k :
  tables_ok m -> n = 4 \/ n = 8 -> n0 = 4 \/ n0 = n -> k = 5 \/ k = 6 ->
  phys_read m n a = Some e ->
  exists e0 m', phys_read m n0 a = Some e0 /\ phys_write m n0 a (Z.setbit e0 k) = Some m'
  /\ (n0 = n -> e0 = e)
  /\ marked n m m' /\ phys_read m' n a = Some (Z.setbit e k).
Proof.
  intros Hm Hn Hn0 Hk E. pose proof Hm as [Hb Hp]. unfold phys_read, phys_write in *.
  assert (a mod n = 0) as Ha by (destruct (Z.eqb_spec (a mod n) 0); [done|discriminate E]).
  assert (a mod n0 = 0) as Ha0
    by (destruct Hn as [-> | ->], Hn0 as [-> | ->]; Z.to_euclidean_division_equations; lia).
  rewrite Ha in E. rewrite Ha0. simpl in *.
  destruct (phys_loc m a) as [[s o]|] eqn:El; [|done]. simpl in *. injection E as <-.
  set (b' := shm_write (shm_bytes m) s o n0 (Z.setbit (shm_read (shm_bytes m) s o n0) k)).
  assert (forall s' o', b' s' o' = set_bit_at (shm_bytes m) s o k s' o') as Hb'.
  { intros s' o'. apply shm_write_setbit; [done|lia|lia]. }
  assert (bytes_ok b') as Hok'.
  { intros s' o'. rewrite Hb'. apply set_bit_at_ok; [done|lia]. }
  pose proof (phys_loc_aligned n m a s o Hn Hm Ha El) as Ho.
  assert (forall s2 o2, o2 mod n = 0 -> shm_read b' s2 o2 n
    = if (s2 =? s) && (o2 =? o) then Z.setbit (shm_read (shm_bytes m) s2 o2 n) k
      else shm_read (shm_bytes m) s2 o2 n) as Hread.
  { intros s2 o2 Ho2. apply Z.bits_inj'. intros i Hi.
    rewrite shm_read_bit by (done || lia). rewrite Hb'. unfold set_bit_at.
    destruct (Z.eqb_spec s2 s) as [->|Hs]; cbn [andb]; [|by rewrite shm_read_bit by (done || lia)].
    destruct (Z.eqb_spec o2 o) as [->|Ho2'].
    - rewrite Z.setbit_eqb, shm_read_bit by (done || lia).
      destruct (Z.eqb_spec (o + i / 8) o) as [Ei|Ei].
      + rewrite Z.setbit_eqb by lia.
        assert (i mod 8 = i) as -> by (Z.to_euclidean_division_equations; lia).
        destruct (Z.eqb_spec k i); [|done]. subst. simpl.
        by rewrite (proj2 (Z.leb_le 0 i)), (proj2 (Z.ltb_lt i (8 * n))) by lia.
      + rewrite (proj2 (Z.eqb_neq k i)); [done|]. intros ->. apply Ei.
        Z.to_euclidean_division_equations; lia.
    - rewrite shm_read_bit by (done || lia). destruct (Z.ltb_spec i (8 * n)); [|by rewrite !andb_false_r].
      rewrite (proj2 (Z.eqb_neq (o2 + i / 8) o)); [done|]. intros E. apply Ho2'.
      destruct Hn as [-> | ->]; Z.to_euclidean_division_equations; lia. }
  do 2 eexists. split; [done|]. split; [done|]. split; [by intros ->|]. split; cycle 1.
  { simpl. unfold phys_loc in *. simpl. rewrite El. simpl. rewrite Hread by done.
    by rewrite Ha, !Z.eqb_refl. }
  split; [done|]. split; [split; [done|split; [by split|]]|].
  - intros a2 e2 E2. unfold phys_read, phys_loc in *. simpl.
    destruct (a2 mod n =? 0) eqn:Ha2; simpl in *; [|done]. apply Z.eqb_eq in Ha2.
    destruct (phys_pages m (a2 / 4096)) as [[s2 o2]|] eqn:Ep2; [|done]. simpl in *. simplify_eq.
    eexists. split; [done|]. rewrite Hread; [|apply Hp in Ep2; destruct Hn as [-> | ->]; Z.to_euclidean_division_equations; lia].
    destruct (_ && _); [by apply sim_setbit|apply sim_refl].
  - intros s' o'. simpl. rewrite Hb'. unfold set_bit_at.
    destruct (_ && _); [by apply sim_setbit|apply sim_refl].
Qed.

Lemma setbit_id e k : 0 <= k -> flag k e = true -> Z.setbit e k = e.
Proof.
  intros Hk E. apply Z.bits_inj'. intros i Hi. rewrite Z.setbit_eqb by lia.
  destruct (Z.eqb_spec k i) as [<-|]; [|done]. simpl; symmetry; exact E.
Qed.

(** Marking an entry that was just read as accessed cannot fail. *)
Lemma set_accessed_spec n m mark a e :
  tables_ok m -> n = 4 \/ n = 8 -> phys_read m n a = Some e ->
  exists e' m', set_accessed_bit m mark n a e = Some (e', m')
  /\ marked n m m' /\ phys_read m' n a = Some e' /\ sim e e' /\ (mark = true -> flag 5 e' = true)
  /\ (mark = false \/ flag 5 e = true -> m' = m /\ e' = e).
Proof.
  intros Hm Hn E. unfold set_accessed_bit. destruct (mark && negb (flag 5 e)) eqn:Em.
  - destruct (mark_entry n n m a e 5 Hm Hn) as (e0 & m' & E0 & Ew & He0 & Hmark & E'); auto.
    rewrite (He0 eq_refl) in Ew. cbv zeta. change (set_flag 5 true e) with (Z.setbit e 5). rewrite Ew. simpl.
    do 2 eexists. split; [done|]. split; [done|]. split; [done|].
    split; [apply sim_setbit; auto|]. split.
    + intros _. unfold flag, set_flag. rewrite Z.setbit_eqb by lia. done.
    + intros [-> | H5]; [done|]. rewrite H5, andb_false_r in Em. done.
  - exists e, m. split; [done|]. split; [by apply marked_refl|]. split; [done|]. split; [done|].
    split; [|done]. intros ->. simpl in Em. by destruct (flag 5 e).
Qed.

End marks.
