(* ===== verification/PageWalk.v ===== *)
(** * Page walks follow the architecture

    The translation of linear addresses in the arithmetic of the processor
    manuals, for 4 KiB, 4 MiB (with the PSE-36 bits), PAE and 2 MiB pages, and
    the proofs that the walks of [Paging] compute it, set nothing but accessed
    bits, and give the same answer for the whole page afterwards. *)
From S2P Require Import Prelude Exceptions Metadata PhysMap Paging.

#[local] Arguments flag : simpl never.
#[local] Arguments set_flag : simpl never.
#[local] Arguments Z.testbit : simpl never.

(** ** The translation that the architecture defines

    In the arithmetic of the manuals: a linear address has the physical
    address, and the write and user permissions, that the tables give it. *)

Section translation.
Context {M : Type} `{RangeMap M Entry}.
Implicit Types m : Mem32 M.

Inductive translates m (va : Z) : Z -> bool -> bool -> Prop :=
| translates_4k pde pte :
    physical_address_extension (regs m) = false ->
    phys_read m 4 (page_table_addr (regs m) + 4 * (va / 2 ^ 22)) = Some pde ->
    flag 0 pde = true -> flag 7 pde && page_size_extension (regs m) = false ->
    phys_read m 4 (4096 * (pde / 4096) + 4 * ((va / 4096) mod 1024)) = Some pte ->
    flag 0 pte = true ->
    translates m va (4096 * (pte / 4096) + va mod 4096)
      (flag 1 pde && flag 1 pte) (flag 2 pde && flag 2 pte)
| translates_4m pde :
    physical_address_extension (regs m) = false ->
    phys_read m 4 (page_table_addr (regs m) + 4 * (va / 2 ^ 22)) = Some pde ->
    flag 0 pde = true -> flag 7 pde && page_size_extension (regs m) = true ->
    translates m va (2 ^ 22 * (pde / 2 ^ 22) + 2 ^ 32 * (pde / 2 ^ 13 mod 256) + va mod 2 ^ 22)
      (flag 1 pde) (flag 2 pde)
| translates_pae pdpe pde pte :
    physical_address_extension (regs m) = true ->
    phys_read m 8 (page_table_addr (regs m) + 8 * (va / 2 ^ 30)) = Some pdpe ->
    flag 0 pdpe = true ->
    phys_read m 8 (4096 * (pdpe / 4096 mod 2 ^ 40) + 8 * (va / 2 ^ 21 mod 512)) = Some pde ->
    flag 0 pde = true -> flag 7 pde = false ->
    phys_read m 8 (4096 * (pde / 4096 mod 2 ^ 40) + 8 * ((va / 4096) mod 512)) = Some pte ->
    flag 0 pte = true ->
    translates m va (4096 * (pte / 4096 mod 2 ^ 40) + va mod 4096)
      (flag 1 pde && flag 1 pte) (flag 2 pde && flag 2 pte)
| translates_2m pdpe pde :
    physical_address_extension (regs m) = true ->
    phys_read m 8 (page_table_addr (regs m) + 8 * (va / 2 ^ 30)) = Some pdpe ->
    flag 0 pdpe = true ->
    phys_read m 8 (4096 * (pdpe / 4096 mod 2 ^ 40) + 8 * (va / 2 ^ 21 mod 512)) = Some pde ->
    flag 0 pde = true -> flag 7 pde = true ->
    translates m va (2 ^ 21 * (pde / 2 ^ 21 mod 2 ^ 31) + va mod 2 ^ 21)
      (flag 1 pde) (flag 2 pde).

End translation.

(** The bit operations of the code as that arithmetic. *)
Lemma field_div off len x : 0 <= off -> 0 <= len -> field off len x = x / 2 ^ off mod 2 ^ len.
Proof. intros. unfold field. by rewrite Z.land_ones, Z.shiftr_div_pow2 by lia. Qed.

Lemma field_top off len x :
  0 <= off -> 0 <= len -> inw (off + len) x -> field off len x = x / 2 ^ off.
Proof.
  intros Ho Hl [H1 H2]. rewrite field_div by done. apply Z.mod_small.
  split; [apply Z.div_pos; lia|]. rewrite Z.pow_add_r in H2 by lia.
  apply Z.div_lt_upper_bound; lia.
Qed.

Lemma lor_low k q low : 0 <= k -> 0 <= low < 2 ^ k -> Z.lor (Z.shiftl q k) low = 2 ^ k * q + low.
Proof.
  intros Hk Hlow. rewrite Z.shiftl_mul_pow2 by lia.
  rewrite <- Z.add_nocarry_lor; [lia|]. apply Z.bits_inj_0. intros i.
  rewrite Z.land_spec. destruct (Z.lt_ge_cases i k).
  - by rewrite Z.mul_pow2_bits_low by lia.
  - rewrite (testbit_above k low) by (done || lia). by rewrite andb_false_r.
Qed.

Lemma land_low k x : 0 <= k -> Z.land x (Z.ones k) = x mod 2 ^ k.
Proof. intros. by apply Z.land_ones. Qed.

(** Addresses of the same 4 KiB page. *)
Lemma same_page_div a b k :
  12 <= k -> a / 4096 = b / 4096 -> a / 2 ^ k = b / 2 ^ k.
Proof.
  intros Hk E. replace (2 ^ k) with (4096 * 2 ^ (k - 12)).
  - rewrite <- !Z.div_div by (try apply Z.pow_pos_nonneg; lia). by rewrite E.
  - change 4096 with (2 ^ 12). rewrite <- Z.pow_add_r by lia. f_equal. lia.
Qed.

Lemma same_page_mod a b k :
  12 <= k -> a / 4096 = b / 4096 -> b mod 2 ^ k = a mod 2 ^ k - a mod 4096 + b mod 4096.
Proof.
  intros Hk E. pose proof (same_page_div a b k Hk E) as E'.
  pose proof (Z.div_mod a (2 ^ k)) as H1. pose proof (Z.div_mod b (2 ^ k)) as H2.
  pose proof (Z.div_mod a 4096) as H3. pose proof (Z.div_mod b 4096) as H4.
  assert (2 ^ k <> 0) by (apply Z.pow_nonzero; lia). rewrite E' in *. rewrite E in *. lia.
Qed.

(** ** The walk follows the architecture *)

(** The translation of another address of the same page, with a dirty bit. *)
Definition retarget (t : Translation) (va va' : Z) (d : bool) : Translation :=
  {| addr := addr t - va mod 4096 + va' mod 4096; writable := writable t;
     user_accessible := user_accessible t; dirty := d; mark_dirty_addr := mark_dirty_addr t;
     big_page := big_page t; global := global t |}.

Section walks.
Context {M : Type} `{RangeMap M Entry}.
Implicit Types m : Mem32 M.

Definition entry_size m : Z := if physical_address_extension (regs m) then 8 else 4.

Lemma entry_size_cases m : entry_size m = 4 \/ entry_size m = 8.
Proof. unfold entry_size. destruct (physical_address_extension _); auto. Qed.

(** What a walk that marked its entries promises: it follows the translation,
    and later walks of the page, after any further marking, give the same
    answer without touching the memory; only the dirty bit is read again. *)
Definition walk_facts (walk : Mem32 M -> Z -> bool -> option (PageWalkResult * Mem32 M))
    (n : Z) m (va : Z) (t : Translation) m1 : Prop :=
  marked n m m1
  /\ translates m va (addr t) (writable t) (user_accessible t)
  /\ (exists e, phys_read m1 n (mark_dirty_addr t) = Some e /\ dirty t = flag 6 e)
  /\ forall m2 va', tables_sim n m1 m2 -> inw 32 va' -> va' / 4096 = va / 4096 ->
     exists e, phys_read m2 n (mark_dirty_addr t) = Some e
     /\ walk m2 va' true = Some (PhysAddr (retarget t va va' (flag 6 e)), m2).

Lemma set_accessed_noop m n a e :
  flag 5 e = true -> set_accessed_bit m true n a e = Some (e, m).
Proof. intros E. unfold set_accessed_bit. by rewrite E. Qed.

Lemma in_default_sim n m m' a : tables_sim n m m' -> in_default m' a = in_default m a.
Proof. intros ((_ & Hm & _) & _). unfold in_default. by rewrite Hm. Qed.

Lemma phys_read_inw m n a e : tables_ok m -> 0 <= n -> phys_read m n a = Some e -> inw (8 * n) e.
Proof.
  intros [Hb _] Hn E. unfold phys_read in E. inv_opt. destruct (phys_loc m a) as [[s o]|]; [|done].
  simplify_eq/=. by apply shm_read_inw.
Qed.

Lemma l1_index va : inw 32 va -> Z.land (Z.shiftr va 22) 0x3ff = va / 2 ^ 22.
Proof.
  intros [H1 H2]. change 0x3ff with (Z.ones 10). rewrite Z.land_ones, Z.shiftr_div_pow2 by lia.
  apply Z.mod_small. Z.to_euclidean_division_equations; lia.
Qed.

Lemma l2_index va : Z.land (Z.shiftr va 12) 0x3ff = (va / 4096) mod 1024.
Proof. change 0x3ff with (Z.ones 10). by rewrite Z.land_ones, Z.shiftr_div_pow2 by lia. Qed.

Lemma pde_base e : inw 32 e -> Z.shiftl (field 12 20 e) 12 = 4096 * (e / 4096).
Proof. intros He. rewrite field_top by (done || lia). rewrite Z.shiftl_mul_pow2 by lia.
  change (2 ^ 12) with 4096. lia. Qed.

(** The big page's frame, with the bits above 32 that PSE-36 adds. *)
Lemma big_base e low :
  inw 32 e -> 0 <= low < 2 ^ 22 ->
  Z.lor (BigPde.phys_base_addr e) low
  = 2 ^ 22 * (e / 2 ^ 22) + 2 ^ 32 * (e / 2 ^ 13 mod 256) + low.
Proof.
  intros He Hlow. unfold BigPde.phys_base_addr. rewrite field_top by (done || lia).
  rewrite (field_div 13 8) by lia. change (2 ^ 8) with 256.
  assert (Z.lor (Z.shiftl (e / 2 ^ 22) 22) (Z.shiftl (e / 2 ^ 13 mod 256) 32)
          = Z.shiftl (2 ^ 10 * (e / 2 ^ 13 mod 256) + e / 2 ^ 22) 22) as ->.
  { rewrite Z.lor_comm. replace 32 with (10 + 22) by lia. rewrite <- Z.shiftl_shiftl by lia.
    rewrite <- Z.shiftl_lor. rewrite lor_low; [done|lia|].
    unfold inw in He. Z.to_euclidean_division_equations; lia. }
  rewrite lor_low by lia. lia.
Qed.

(** An entry that is marked as accessed is read back as it is. *)
Lemma reread n m1 m2 a e :
  tables_sim n m1 m2 -> phys_read m1 n a = Some e -> flag 5 e = true ->
  exists e', phys_read m2 n a = Some e' /\ sim e e'
  /\ set_accessed_bit m2 true n a e' = Some (e', m2).
Proof.
  intros (_ & _ & Hr) E H5. destruct (Hr a e E) as (e' & E' & Hs).
  exists e'. split; [done|]. split; [done|]. apply set_accessed_noop. by apply Hs.
Qed.

(** The bits of an entry that no marking changes. *)
Ltac same_bits H :=
  rewrite ?(sim_flag _ _ 0 H), ?(sim_flag _ _ 1 H), ?(sim_flag _ _ 2 H), ?(sim_flag _ _ 7 H),
    ?(sim_flag _ _ 8 H) by lia.

(** The translations that the walks build from their entries. *)
Definition tr_4m (pde pde_addr va : Z) : Translation :=
  {| addr := Z.lor (BigPde.phys_base_addr pde) (Z.land va 0x3fffff);
     writable := flag 1 pde; user_accessible := flag 2 pde; dirty := flag 6 pde;
     mark_dirty_addr := pde_addr; big_page := Big4Mb; global := flag 8 pde |}.
Definition tr_4k (pde pte pte_addr va : Z) : Translation :=
  {| addr := Z.lor (Pte.phys_base_addr pte) (Z.land va 0xfff);
     writable := flag 1 pde && flag 1 pte; user_accessible := flag 2 pde && flag 2 pte;
     dirty := flag 6 pte; mark_dirty_addr := pte_addr; big_page := Normal4Kb;
     global := flag 8 pte |}.

Definition pde_address m (va : Z) : Z := page_table_addr (regs m) + va / 2 ^ 22 * 4.
Definition pte_address (pde va : Z) : Z := Pde.pt_base_addr pde + (va / 4096) mod 1024 * 4.

(** How the walk without PAE succeeds: through a big page, or two entries. *)
Lemma walk_non_pae_inv m va t m1 :
  tables_ok m -> inw 32 va -> page_walk_non_pae m va true = Some (PhysAddr t, m1) ->
  exists pde pde' m', phys_read m 4 (pde_address m va) = Some pde /\ flag 0 pde = true
  /\ marked 4 m m' /\ phys_read m' 4 (pde_address m va) = Some pde' /\ sim pde pde'
  /\ flag 5 pde' = true
  /\ (flag 7 pde && page_size_extension (regs m) = true
       /\ t = tr_4m pde' (pde_address m va) va /\ m1 = m'
      \/ flag 7 pde && page_size_extension (regs m) = false
       /\ exists pte pte', phys_read m' 4 (pte_address pde va) = Some pte /\ flag 0 pte = true
       /\ marked 4 m' m1 /\ phys_read m1 4 (pte_address pde va) = Some pte' /\ sim pte pte'
       /\ flag 5 pte' = true /\ t = tr_4k pde' pte' (pte_address pde va) va
       /\ in_default m (pde_address m va) = true /\ in_default m (pte_address pde va) = true).
Proof.
  intros Hm Hva E. unfold page_walk_non_pae in E. cbv zeta in E.
  rewrite l1_index, l2_index in E by done. fold (pde_address m va) in E.
  destruct (phys_read m 4 (pde_address m va)) as [pde|] eqn:Epde; [|done]. simpl in E.
  destruct (Pde.present pde) eqn:Ep; [|done]. simpl in E.
  destruct (set_accessed_spec 4 m true _ pde Hm (or_introl eq_refl) Epde)
    as (pde' & m' & Eset & Hmark & Epde' & Hsim & H5 & _).
  rewrite Eset in E. simpl in E. specialize (H5 eq_refl).
  pose proof (marked_config _ _ _ Hmark) as (_ & _ & Hregs & _).
  exists pde, pde', m'. do 6 (split; [done|]).
  rewrite Hregs in E. unfold Pde.big_page in E. rewrite (sim_flag _ _ 7 Hsim) in E by lia.
  destruct (flag 7 pde && page_size_extension (regs m)); [left; by simplify_eq|right].
  split; [done|]. assert (Pde.pt_base_addr pde' = Pde.pt_base_addr pde) as Hbase
    by (unfold Pde.pt_base_addr; by rewrite (sim_field _ _ 12 20 Hsim) by lia).
  rewrite Hbase in E. fold (pte_address pde va) in E.
  rewrite !(in_default_sim 4 m m') in E by (by apply marked_sim).
  destruct (in_default m (pde_address m va)) eqn:D1; [|done]. simpl in E.
  destruct (in_default m (pte_address pde va)) eqn:D2; [|done]. simpl in E.
  destruct (phys_read m' 4 (pte_address pde va)) as [pte|] eqn:Epte; [|done]. simpl in E.
  destruct (Pte.present pte) eqn:Ept; [|done]. simpl in E.
  destruct (set_accessed_spec 4 m' true _ pte (marked_tables_ok _ _ _ Hmark) (or_introl eq_refl) Epte)
    as (pte' & m1' & Eset' & Hmark' & Epte' & Hsim' & H5' & _).
  rewrite Eset' in E. simpl in E. simplify_eq. exists pte, pte'.
  repeat (split; [done|]). split; [by apply H5'|]. by repeat split.
Qed.

(** Walks through entries that are marked leave the memory alone. *)
Lemma walk_4m m va pde :
  inw 32 va -> phys_read m 4 (pde_address m va) = Some pde -> flag 0 pde = true ->
  flag 5 pde = true -> flag 7 pde && page_size_extension (regs m) = true ->
  page_walk_non_pae m va true = Some (PhysAddr (tr_4m pde (pde_address m va) va), m).
Proof.
  intros Hva E H0 H5 H7. unfold page_walk_non_pae. cbv zeta.
  rewrite l1_index by done. fold (pde_address m va). rewrite E. simpl.
  unfold Pde.present, Pde.big_page. rewrite H0. simpl.
  rewrite set_accessed_noop by done. simpl. by rewrite H7.
Qed.

Lemma walk_4k m va pde pte :
  inw 32 va -> phys_read m 4 (pde_address m va) = Some pde -> flag 0 pde = true ->
  flag 5 pde = true -> flag 7 pde && page_size_extension (regs m) = false ->
  in_default m (pde_address m va) = true -> in_default m (pte_address pde va) = true ->
  phys_read m 4 (pte_address pde va) = Some pte -> flag 0 pte = true -> flag 5 pte = true ->
  page_walk_non_pae m va true = Some (PhysAddr (tr_4k pde pte (pte_address pde va) va), m).
Proof.
  intros Hva E H0 H5 H7 D1 D2 E' H0' H5'. unfold page_walk_non_pae. cbv zeta.
  rewrite l1_index, l2_index by done. fold (pde_address m va). rewrite E. simpl.
  unfold Pde.present, Pde.big_page. rewrite H0. simpl.
  rewrite set_accessed_noop by done. simpl. rewrite H7. fold (pte_address pde va).
  rewrite D1, D2, E'. simpl. unfold Pte.present. rewrite H0'. simpl.
  by rewrite set_accessed_noop by done.
Qed.

Lemma tr_4m_addr pde pde' a va :
  inw 32 pde -> sim pde pde' ->
  addr (tr_4m pde' a va)
  = 2 ^ 22 * (pde / 2 ^ 22) + 2 ^ 32 * (pde / 2 ^ 13 mod 256) + va mod 2 ^ 22.
Proof.
  intros Hp Hs. simpl. change 0x3fffff with (Z.ones 22). rewrite land_low by lia.
  rewrite <- (big_base pde) by (done || (apply Z.mod_pos_bound; lia)).
  unfold BigPde.phys_base_addr. by rewrite !(sim_field _ _ _ _ Hs) by lia.
Qed.

Lemma tr_4k_addr pde pte pte' a va :
  inw 32 pte -> sim pte pte' -> addr (tr_4k pde pte' a va) = 4096 * (pte / 4096) + va mod 4096.
Proof.
  intros Hp Hs. simpl. change 0xfff with (Z.ones 12). unfold Pte.phys_base_addr.
  rewrite (sim_field _ _ 12 20 Hs) by lia. rewrite field_top by (done || lia).
  rewrite land_low by lia. rewrite lor_low by (try (apply Z.mod_pos_bound); lia). done.
Qed.

Lemma sim_5 e e' : sim e e' -> flag 5 e = true -> flag 5 e' = true.
Proof. intros (_ & H5 & _). exact H5. Qed.

Lemma same_page_addresses m m' va va' pde pde' :
  regs m' = regs m -> va' / 4096 = va / 4096 -> sim pde pde' ->
  pde_address m' va' = pde_address m va /\ pte_address pde' va' = pte_address pde va.
Proof.
  intros Hr Ev Hs. unfold pde_address, pte_address, Pde.pt_base_addr.
  by rewrite Hr, (same_page_div va' va 22), Ev, (sim_field _ _ 12 20 Hs) by (done || lia).
Qed.

Lemma tr_4m_retarget pde pde' e a va va' :
  inw 32 pde -> sim pde pde' -> sim pde' e -> va' / 4096 = va / 4096 ->
  tr_4m e a va' = retarget (tr_4m pde' a va) va va' (flag 6 e).
Proof.
  intros Hp Hs He Ev. pose proof (sim_trans _ _ _ Hs He) as Hse.
  pose proof (tr_4m_addr pde e a va' Hp Hse) as A1. pose proof (tr_4m_addr pde pde' a va Hp Hs) as A2.
  unfold retarget. rewrite A2. unfold tr_4m in *.
  cbn [addr writable user_accessible dirty mark_dirty_addr big_page global] in *. rewrite A1.
  same_bits He. rewrite (same_page_mod va va' 22) by lia.
  match goal with |- Build_Translation ?x _ _ _ _ _ _ = Build_Translation ?y _ _ _ _ _ _ =>
    replace x with y by lia end. reflexivity.
Qed.

Lemma tr_4k_retarget pde pde' pte pte' e a va va' :
  inw 32 pte -> sim pte pte' -> sim pte' e -> sim pde pde' -> va' / 4096 = va / 4096 ->
  tr_4k pde' e a va' = retarget (tr_4k pde pte' a va) va va' (flag 6 e).
Proof.
  intros Hp Hs He Hd Ev. pose proof (sim_trans _ _ _ Hs He) as Hse.
  pose proof (tr_4k_addr pde' pte e a va' Hp Hse) as A1.
  pose proof (tr_4k_addr pde pte pte' a va Hp Hs) as A2.
  unfold retarget. rewrite A2. unfold tr_4k in *.
  cbn [addr writable user_accessible dirty mark_dirty_addr big_page global] in *. rewrite A1.
  same_bits He. same_bits Hd.
  match goal with |- Build_Translation ?x _ _ _ _ _ _ = Build_Translation ?y _ _ _ _ _ _ =>
    replace x with y by lia end. reflexivity.
Qed.

Lemma marked_back n m m' a e' :
  marked n m m' -> phys_read m' n a = Some e' ->
  exists e, phys_read m n a = Some e /\ sim e e'.
Proof.
  intros (Ec & (_ & _ & Hr) & _) E'.
  assert (exists e, phys_read m n a = Some e) as [e E].
  { rewrite Ec in E'. unfold phys_read, phys_loc in *. simpl in E'.
    destruct (assert (a mod n =? 0)); [|done]. simpl in *.
    destruct (phys_pages m (a / 4096)) as [[s o]|]; [|done]. by eexists. }
  exists e. split; [done|]. destruct (Hr a e E) as (e2 & E2 & Hs). by simplify_eq.
Qed.

Lemma walk_non_pae_facts m va t m1 :
  tables_ok m -> physical_address_extension (regs m) = false -> inw 32 va ->
  page_walk_non_pae m va true = Some (PhysAddr t, m1) ->
  walk_facts page_walk_non_pae 4 m va t m1.
Proof.
  intros Hm Hpae Hva E. destruct (walk_non_pae_inv m va t m1 Hm Hva E)
    as (pde & pde' & m' & Ep & H0 & Hmk & Ep' & Hs & H5 & Hcase).
  pose proof (phys_read_inw m 4 _ _ Hm ltac:(lia) Ep) as Hpin.
  destruct Hcase as [(H7 & -> & ->)|(H7 & pte & pte' & Et & H0t & Hmk' & Et' & Hst & H5t & -> & D1 & D2)].
  - split; [done|]. split; [|split].
    + rewrite (tr_4m_addr pde) by done. unfold tr_4m. cbn [writable user_accessible].
      same_bits Hs. apply translates_4m; try done.
      rewrite <- Ep. unfold pde_address. f_equal. lia.
    + by exists pde'.
    + intros m2 va' Hm2 Hva' Ev. cbn [mark_dirty_addr tr_4m].
      pose proof (tables_sim_trans _ _ _ _ (marked_sim _ _ _ Hmk) Hm2) as Hmk2.
      pose proof Hmk2 as ((_ & _ & Hr) & _).
      destruct (same_page_addresses m m2 va va' pde pde Hr Ev (sim_refl _)) as [Ea _].
      destruct (reread 4 m' m2 _ pde' Hm2 Ep' H5) as (e & Ee & He & _).
      pose proof (sim_trans _ _ _ Hs He) as Hse. exists e. split; [done|].
      rewrite (walk_4m m2 va' e), Ea;
        [by rewrite (tr_4m_retarget pde pde' e _ va va')|done|by rewrite Ea|..];
        rewrite ?Hr; same_bits Hse; [done|by apply (sim_5 pde')|done].
  - pose proof (phys_read_inw m' 4 _ _ (marked_tables_ok _ _ _ Hmk) ltac:(lia) Et) as Htin.
    destruct (reread 4 m' m1 _ pde' (marked_sim _ _ _ Hmk') Ep' H5) as (pde1 & Ep1 & Hs1 & _).
    split; [by apply (marked_trans _ _ m')|]. split; [|split].
    + destruct (marked_back 4 m m' _ _ Hmk Et) as (pte0 & Et0 & Hs0).
      rewrite (tr_4k_addr pde' pte0 pte') by
        (by apply (phys_read_inw m 4 _ _ Hm ltac:(lia) Et0) || by apply (sim_trans _ _ _ Hs0 Hst)).
      unfold tr_4k. cbn [writable user_accessible]. same_bits Hs. same_bits Hst.
      same_bits Hs0. rewrite (sim_flag _ _ 0 Hs0) in H0t by lia.
      apply translates_4k; try done.
      * rewrite <- Ep. unfold pde_address. f_equal. lia.
      * rewrite <- Et0. unfold pte_address, Pde.pt_base_addr. rewrite pde_base by done. f_equal. lia.
    + by exists pte'.
    + intros m2 va' Hm2 Hva' Ev. cbn [mark_dirty_addr tr_4k].
      pose proof (tables_sim_trans _ _ _ _ (marked_sim _ _ _ Hmk) (tables_sim_trans _ _ _ _ (marked_sim _ _ _ Hmk') Hm2)) as Hmk2.
      pose proof Hmk2 as ((_ & _ & Hr) & _).
      destruct (reread 4 m' m2 _ pde' (tables_sim_trans _ _ _ _ (marked_sim _ _ _ Hmk') Hm2) Ep' H5) as (e & Ee & He & _).
      destruct (reread 4 m1 m2 _ pte' Hm2 Et' H5t) as (e2 & Ee2 & He2 & _).
      pose proof (sim_trans _ _ _ Hs He) as Hse. pose proof (sim_trans _ _ _ Hst He2) as Hse2.
      destruct (same_page_addresses m m2 va va' pde e Hr Ev Hse) as [Ea Et2].
      exists e2. split; [done|].
      rewrite (walk_4k m2 va' e e2), Et2;
        [by rewrite (tr_4k_retarget pde' e pte pte' e2 _ va va')|done|by rewrite Ea|..];
        rewrite ?Hr, ?Ea, ?Et2, ?(in_default_sim 4 m m2) by done;
        same_bits Hse; same_bits Hse2; try done; [by apply (sim_5 pde')|by apply (sim_5 pte')].
Qed.

(** *** PAE *)

Definition tr_2m (pde pde_addr va : Z) : Translation :=
  {| addr := Z.lor (BigPaePde.phys_base_addr pde) (Z.land va (Z.ones 21));
     writable := flag 1 pde; user_accessible := flag 2 pde; dirty := flag 6 pde;
     mark_dirty_addr := pde_addr; big_page := Big4Mb; global := flag 8 pde |}.
Definition tr_pae (pde pte pte_addr va : Z) : Translation :=
  {| addr := Z.lor (PaePte.phys_base_addr pte) (PaeAddr32.page_offset va);
     writable := flag 1 pde && flag 1 pte; user_accessible := flag 2 pde && flag 2 pte;
     dirty := flag 6 pte; mark_dirty_addr := pte_addr; big_page := Normal4Kb;
     global := flag 8 pte |}.

Definition pdpe_address m (va : Z) : Z := page_table_addr (regs m) + PaeAddr32.pdpe_offset va * 8.
Definition pae_pde_address (pdpe va : Z) : Z := PaePdpe.pd_base_addr pdpe + PaeAddr32.pde_offset va * 8.
Definition pae_pte_address (pde va : Z) : Z := PaePde.pt_base_addr pde + PaeAddr32.pte_offset va * 8.

Lemma walk_pae_inv m va t m1 :
  tables_ok m -> page_walk_pae m va true = Some (PhysAddr t, m1) ->
  exists pdpe pde pde' m', phys_read m 8 (pdpe_address m va) = Some pdpe /\ flag 0 pdpe = true
  /\ phys_read m 8 (pae_pde_address pdpe va) = Some pde /\ flag 0 pde = true
  /\ marked 8 m m' /\ phys_read m' 8 (pae_pde_address pdpe va) = Some pde' /\ sim pde pde'
  /\ flag 5 pde' = true
  /\ (flag 7 pde = true /\ t = tr_2m pde' (pae_pde_address pdpe va) va /\ m1 = m'
      \/ flag 7 pde = false
       /\ exists pte pte', phys_read m' 8 (pae_pte_address pde va) = Some pte /\ flag 0 pte = true
       /\ marked 8 m' m1 /\ phys_read m1 8 (pae_pte_address pde va) = Some pte' /\ sim pte pte'
       /\ flag 5 pte' = true /\ t = tr_pae pde' pte' (pae_pte_address pde va) va
       /\ in_default m (pdpe_address m va) = true
       /\ in_default m (pae_pde_address pdpe va) = true /\ in_default m (pae_pte_address pde va) = true).
Proof.
  intros Hm E. unfold page_walk_pae in E. cbv zeta in E. fold (pdpe_address m va) in E.
  destruct (phys_read m 8 (pdpe_address m va)) as [pdpe|] eqn:Epdpe; [|done]. cbn [mbind option_bind negb assert] in E.
  destruct (PaePdpe.present pdpe) eqn:Epp; [|done]. cbn [mbind option_bind negb assert] in E.
  fold (pae_pde_address pdpe va) in E.
  destruct (phys_read m 8 (pae_pde_address pdpe va)) as [pde|] eqn:Epde; [|done]. cbn [mbind option_bind negb assert] in E.
  destruct (PaePde.present pde) eqn:Ep; [|done]. cbn [mbind option_bind negb assert] in E.
  destruct (set_accessed_spec 8 m true _ pde Hm (or_intror eq_refl) Epde)
    as (pde' & m' & Eset & Hmark & Epde' & Hsim & H5 & _).
  rewrite Eset in E. cbn [mbind option_bind negb assert] in E. specialize (H5 eq_refl).
  exists pdpe, pde, pde', m'. do 8 (split; [done|]).
  unfold PaePde.big_page in E. rewrite (sim_flag _ _ 7 Hsim) in E by lia.
  destruct (flag 7 pde); [left; by simplify_eq|right].
  split; [done|]. assert (PaePde.pt_base_addr pde' = PaePde.pt_base_addr pde) as Hbase
    by (unfold PaePde.pt_base_addr; by rewrite (sim_field _ _ 12 40 Hsim) by lia).
  rewrite Hbase in E. fold (pae_pte_address pde va) in E.
  rewrite !(in_default_sim 8 m m') in E by (by apply marked_sim).
  destruct (in_default m (pdpe_address m va)) eqn:D0; [|done]. cbn [mbind option_bind negb assert] in E.
  destruct (in_default m (pae_pde_address pdpe va)) eqn:D1; [|done]. cbn [mbind option_bind negb assert] in E.
  destruct (in_default m (pae_pte_address pde va)) eqn:D2; [|done]. cbn [mbind option_bind negb assert] in E.
  destruct (phys_read m' 8 (pae_pte_address pde va)) as [pte|] eqn:Epte; [|done]. cbn [mbind option_bind negb assert] in E.
  destruct (PaePte.present pte) eqn:Ept; [|done]. cbn [mbind option_bind negb assert] in E.
  destruct (set_accessed_spec 8 m' true _ pte (marked_tables_ok _ _ _ Hmark) (or_intror eq_refl) Epte)
    as (pte' & m1' & Eset' & Hmark' & Epte' & Hsim' & H5' & _).
  rewrite Eset' in E. cbn [mbind option_bind negb assert] in E. simplify_eq. exists pte, pte'.
  repeat (split; [done|]). split; [by apply H5'|]. by repeat split.
Qed.

Lemma walk_2m m va pdpe pde :
  phys_read m 8 (pdpe_address m va) = Some pdpe -> flag 0 pdpe = true ->
  phys_read m 8 (pae_pde_address pdpe va) = Some pde -> flag 0 pde = true ->
  flag 5 pde = true -> flag 7 pde = true ->
  page_walk_pae m va true = Some (PhysAddr (tr_2m pde (pae_pde_address pdpe va) va), m).
Proof.
  intros Ep Hp E H0 H5 H7. unfold page_walk_pae. cbv zeta. fold (pdpe_address m va).
  rewrite Ep. cbn [mbind option_bind negb assert]. unfold PaePdpe.present, PaePde.present, PaePde.big_page. rewrite Hp. cbn [mbind option_bind negb assert].
  fold (pae_pde_address pdpe va). rewrite E. cbn [mbind option_bind negb assert]. rewrite H0. cbn [mbind option_bind negb assert].
  rewrite set_accessed_noop by done. cbn [mbind option_bind negb assert]. by rewrite H7.
Qed.

Lemma walk_pae_4k m va pdpe pde pte :
  phys_read m 8 (pdpe_address m va) = Some pdpe -> flag 0 pdpe = true ->
  phys_read m 8 (pae_pde_address pdpe va) = Some pde -> flag 0 pde = true ->
  flag 5 pde = true -> flag 7 pde = false ->
  in_default m (pdpe_address m va) = true ->
  in_default m (pae_pde_address pdpe va) = true -> in_default m (pae_pte_address pde va) = true ->
  phys_read m 8 (pae_pte_address pde va) = Some pte -> flag 0 pte = true -> flag 5 pte = true ->
  page_walk_pae m va true = Some (PhysAddr (tr_pae pde pte (pae_pte_address pde va) va), m).
Proof.
  intros Ep Hp E H0 H5 H7 D0 D1 D2 E' H0' H5'. unfold page_walk_pae. cbv zeta.
  fold (pdpe_address m va). rewrite Ep. cbn [mbind option_bind negb assert].
  unfold PaePdpe.present, PaePde.present, PaePde.big_page. rewrite Hp. cbn [mbind option_bind negb assert].
  fold (pae_pde_address pdpe va). rewrite E. cbn [mbind option_bind negb assert]. rewrite H0. cbn [mbind option_bind negb assert].
  rewrite set_accessed_noop by done. cbn [mbind option_bind negb assert]. rewrite H7. fold (pae_pte_address pde va).
  rewrite D0, D1, D2, E'. cbn [mbind option_bind negb assert]. unfold PaePte.present. rewrite H0'. cbn [mbind option_bind negb assert].
  by rewrite set_accessed_noop by done.
Qed.

Lemma tr_2m_addr pde pde' a va :
  sim pde pde' ->
  addr (tr_2m pde' a va) = 2 ^ 21 * (pde / 2 ^ 21 mod 2 ^ 31) + va mod 2 ^ 21.
Proof.
  intros Hs. simpl. unfold BigPaePde.phys_base_addr. rewrite (sim_field _ _ 21 31 Hs) by lia.
  rewrite field_div, land_low by lia. rewrite lor_low; [done|lia|]. apply Z.mod_pos_bound. lia.
Qed.

Lemma tr_pae_addr pde pte pte' a va :
  sim pte pte' -> addr (tr_pae pde pte' a va) = 4096 * (pte / 4096 mod 2 ^ 40) + va mod 4096.
Proof.
  intros Hs. simpl. unfold PaePte.phys_base_addr, PaeAddr32.page_offset.
  rewrite (sim_field _ _ 12 40 Hs) by lia. rewrite !field_div, Z.pow_0_r, Z.div_1_r by lia.
  change (2 ^ 12) with 4096. rewrite lor_low; [done|lia|].
  apply (Z.mod_pos_bound va 4096). lia.
Qed.

(** Offsets in the tables. *)
Lemma pae_indices va :
  inw 32 va ->
  PaeAddr32.pdpe_offset va = va / 2 ^ 30 /\ PaeAddr32.pde_offset va = va / 2 ^ 21 mod 512
  /\ PaeAddr32.pte_offset va = (va / 4096) mod 512.
Proof.
  intros Hva. unfold PaeAddr32.pdpe_offset, PaeAddr32.pde_offset, PaeAddr32.pte_offset.
  rewrite (field_top 30 2) by (done || lia). by rewrite !field_div by lia.
Qed.

Lemma same_page_pae m m' va va' pdpe pdpe' pde pde' :
  inw 32 va -> inw 32 va' -> regs m' = regs m -> va' / 4096 = va / 4096 ->
  sim pdpe pdpe' -> sim pde pde' ->
  pdpe_address m' va' = pdpe_address m va
  /\ pae_pde_address pdpe' va' = pae_pde_address pdpe va
  /\ pae_pte_address pde' va' = pae_pte_address pde va.
Proof.
  intros Hva Hva' Hr Ev Hs1 Hs2. destruct (pae_indices va Hva) as (I1 & I2 & I3).
  destruct (pae_indices va' Hva') as (I1' & I2' & I3').
  unfold pdpe_address, pae_pde_address, pae_pte_address, PaePdpe.pd_base_addr, PaePde.pt_base_addr.
  rewrite Hr, I1, I2, I3, I1', I2', I3', Ev, (same_page_div va' va 30), (same_page_div va' va 21)
    by (done || lia).
  by rewrite (sim_field _ _ 12 40 Hs1), (sim_field _ _ 12 40 Hs2) by lia.
Qed.

Lemma tr_2m_retarget pde pde' e a va va' :
  sim pde pde' -> sim pde' e -> va' / 4096 = va / 4096 ->
  tr_2m e a va' = retarget (tr_2m pde' a va) va va' (flag 6 e).
Proof.
  intros Hs He Ev. pose proof (sim_trans _ _ _ Hs He) as Hse.
  pose proof (tr_2m_addr pde e a va' Hse) as A1. pose proof (tr_2m_addr pde pde' a va Hs) as A2.
  unfold retarget. rewrite A2. unfold tr_2m in *.
  cbn [addr writable user_accessible dirty mark_dirty_addr big_page global] in *. rewrite A1.
  same_bits He. rewrite (same_page_mod va va' 21) by lia.
  match goal with |- Build_Translation ?x _ _ _ _ _ _ = Build_Translation ?y _ _ _ _ _ _ =>
    replace x with y by lia end. reflexivity.
Qed.

Lemma tr_pae_retarget pde pde' pte pte' e a va va' :
  sim pte pte' -> sim pte' e -> sim pde pde' -> va' / 4096 = va / 4096 ->
  tr_pae pde' e a va' = retarget (tr_pae pde pte' a va) va va' (flag 6 e).
Proof.
  intros Hs He Hd Ev. pose proof (sim_trans _ _ _ Hs He) as Hse.
  pose proof (tr_pae_addr pde' pte e a va' Hse) as A1.
  pose proof (tr_pae_addr pde pte pte' a va Hs) as A2.
  unfold retarget. rewrite A2. unfold tr_pae in *.
  cbn [addr writable user_accessible dirty mark_dirty_addr big_page global] in *. rewrite A1.
  same_bits He. same_bits Hd.
  match goal with |- Build_Translation ?x _ _ _ _ _ _ = Build_Translation ?y _ _ _ _ _ _ =>
    replace x with y by lia end. reflexivity.
Qed.

Lemma walk_pae_facts m va t m1 :
  tables_ok m -> physical_address_extension (regs m) = true -> inw 32 va ->
  page_walk_pae m va true = Some (PhysAddr t, m1) ->
  walk_facts page_walk_pae 8 m va t m1.
Proof.
  intros Hm Hpae Hva E. destruct (walk_pae_inv m va t m1 Hm E)
    as (pdpe & pde & pde' & m' & Epp & H0p & Ep & H0 & Hmk & Ep' & Hs & H5 & Hcase).
  destruct (pae_indices va Hva) as (I1 & I2 & I3).
  assert (phys_read m 8 (page_table_addr (regs m) + 8 * (va / 2 ^ 30)) = Some pdpe) as Epp'.
  { rewrite <- Epp. unfold pdpe_address. rewrite I1. f_equal. lia. }
  assert (forall x, pae_pde_address x va
          = 4096 * (x / 4096 mod 2 ^ 40) + 8 * (va / 2 ^ 21 mod 512)) as Hpde.
  { intros x. unfold pae_pde_address, PaePdpe.pd_base_addr.
    rewrite I2, field_div, Z.shiftl_mul_pow2 by lia. change (2 ^ 12) with 4096. lia. }
  assert (forall x, pae_pte_address x va
          = 4096 * (x / 4096 mod 2 ^ 40) + 8 * ((va / 4096) mod 512)) as Hpte.
  { intros x. unfold pae_pte_address, PaePde.pt_base_addr.
    rewrite I3, field_div, Z.shiftl_mul_pow2 by lia. change (2 ^ 12) with 4096. lia. }
  destruct Hcase as [(H7 & -> & ->)|(H7 & pte & pte' & Et & H0t & Hmk' & Et' & Hst & H5t & -> & D0 & D1 & D2)].
  - split; [done|]. split; [|split].
    + rewrite (tr_2m_addr pde) by done. unfold tr_2m. cbn [writable user_accessible].
      same_bits Hs. apply (translates_2m _ _ pdpe); try done. by rewrite <- Hpde.
    + by exists pde'.
    + intros m2 va' Hm2 Hva' Ev. cbn [mark_dirty_addr tr_2m].
      pose proof (tables_sim_trans _ _ _ _ (marked_sim _ _ _ Hmk) Hm2) as Hmk2.
      pose proof Hmk2 as ((_ & _ & Hr) & _).
      destruct (reread 8 m' m2 _ pde' Hm2 Ep' H5) as (e & Ee & He & _).
      destruct (proj2 (proj2 Hmk2) _ _ Epp) as (pdpe' & Epp2 & Hsp).
      pose proof (sim_trans _ _ _ Hs He) as Hse.
      destruct (same_page_pae m m2 va va' pdpe pdpe' pde pde Hva Hva' Hr Ev Hsp (sim_refl _)) as (Ea1 & Ea2 & _).
      exists e. split; [done|].
      rewrite (walk_2m m2 va' pdpe' e), Ea2;
        [by rewrite (tr_2m_retarget pde pde' e _ va va')|by rewrite Ea1| |by rewrite Ea2|..];
        same_bits Hse; same_bits Hsp; [done|done|by apply (sim_5 pde')|done].
  - destruct (reread 8 m' m1 _ pde' (marked_sim _ _ _ Hmk') Ep' H5) as (pde1 & Ep1 & Hs1 & _).
    split; [by apply (marked_trans _ _ m')|]. split; [|split].
    + destruct (marked_back 8 m m' _ _ Hmk Et) as (pte0 & Et0 & Hs0).
      rewrite (tr_pae_addr pde' pte0 pte') by (by apply (sim_trans _ _ _ Hs0 Hst)).
      unfold tr_pae. cbn [writable user_accessible]. same_bits Hs. same_bits Hst.
      same_bits Hs0. rewrite (sim_flag _ _ 0 Hs0) in H0t by lia.
      apply (translates_pae _ _ pdpe pde pte0); try done; [by rewrite <- Hpde|by rewrite <- Hpte].
    + by exists pte'.
    + intros m2 va' Hm2 Hva' Ev. cbn [mark_dirty_addr tr_pae].
      pose proof (tables_sim_trans _ _ _ _ (marked_sim _ _ _ Hmk) (tables_sim_trans _ _ _ _ (marked_sim _ _ _ Hmk') Hm2)) as Hmk2.
      pose proof Hmk2 as ((_ & _ & Hr) & _).
      destruct (reread 8 m' m2 _ pde' (tables_sim_trans _ _ _ _ (marked_sim _ _ _ Hmk') Hm2) Ep' H5) as (e & Ee & He & _).
      destruct (reread 8 m1 m2 _ pte' Hm2 Et' H5t) as (e2 & Ee2 & He2 & _).
      destruct (proj2 (proj2 Hmk2) _ _ Epp) as (pdpe' & Epp2 & Hsp).
      pose proof (sim_trans _ _ _ Hs He) as Hse. pose proof (sim_trans _ _ _ Hst He2) as Hse2.
      destruct (same_page_pae m m2 va va' pdpe pdpe' pde e Hva Hva' Hr Ev Hsp Hse) as (Ea1 & Ea2 & Ea3).
      exists e2. split; [done|].
      rewrite (walk_pae_4k m2 va' pdpe' e e2), Ea3;
        [by rewrite (tr_pae_retarget pde' e pte pte' e2 _ va va')|by rewrite Ea1| |by rewrite Ea2|..];
        rewrite ?Ea1, ?Ea2, ?Ea3, ?(in_default_sim 8 m m2) by done;
        same_bits Hse; same_bits Hse2; same_bits Hsp; try done;
        [by apply (sim_5 pde')|by apply (sim_5 pte')].
Qed.

(** *** Pages that are not mapped *)

Lemma walk_non_pae_unmapped m va e m1 :
  tables_ok m -> physical_address_extension (regs m) = false -> inw 32 va ->
  page_walk_non_pae m va true = Some (Unmapped e, m1) ->
  marked 4 m m1 /\ forall pa w u, ~ translates m va pa w u.
Proof.
  intros Hm Hpae Hva E. unfold page_walk_non_pae in E. cbv zeta in E.
  rewrite l1_index, l2_index in E by done. fold (pde_address m va) in E.
  replace (pde_address m va) with (page_table_addr (regs m) + 4 * (va / 2 ^ 22)) in E
    by (unfold pde_address; lia).
  destruct (phys_read m 4 _) as [pde|] eqn:Epde; [|done]. cbn [mbind option_bind] in E.
  unfold Pde.present, Pde.big_page in E. destruct (flag 0 pde) eqn:Ep; cycle 1.
  { simplify_eq/=. split; [by apply marked_refl|]. intros pa w u []; congruence. }
  destruct (set_accessed_spec 4 m true _ pde Hm (or_introl eq_refl) Epde)
    as (pde' & m' & Eset & Hmark & Epde' & Hsim & _ & _).
  pose proof (marked_config _ _ _ Hmark) as (_ & _ & Hregs & _).
  pose proof (phys_read_inw m 4 _ _ Hm ltac:(lia) Epde) as Hpin.
  rewrite Eset in E. cbn [mbind option_bind negb] in E.
  rewrite Hregs, (sim_flag _ _ 7 Hsim) in E by lia.
  destruct (flag 7 pde && page_size_extension (regs m)) eqn:E7; [done|].
  assert (Pde.pt_base_addr pde' = 4096 * (pde / 4096)) as Hbase.
  { unfold Pde.pt_base_addr. rewrite (sim_field _ _ 12 20 Hsim) by lia. by apply pde_base. }
  replace (Pde.pt_base_addr pde' + (va / 4096) mod 1024 * 4)
    with (4096 * (pde / 4096) + 4 * ((va / 4096) mod 1024)) in E by (rewrite Hbase; lia).
  repeat match type of E with
  | context [in_default m' ?a] =>
      destruct (in_default m' a); cbn [mbind option_bind assert] in E; [|discriminate E]
  end.
  destruct (phys_read m' 4 _) as [pte|] eqn:Epte; [|done]. cbn [mbind option_bind] in E.
  unfold Pte.present in E. destruct (flag 0 pte) eqn:Ept.
  { destruct (set_accessed_spec 4 m' true _ pte (marked_tables_ok _ _ _ Hmark) (or_introl eq_refl) Epte)
      as (pte' & m1' & Eset' & _). by rewrite Eset' in E. }
  simplify_eq/=. split; [done|].
  destruct (marked_back 4 m m1 _ _ Hmark Epte) as (pte0 & Ept0 & Hs0).
  rewrite (sim_flag _ _ 0 Hs0) in Ept by lia. intros pa w u []; congruence.
Qed.

Lemma walk_pae_unmapped m va e m1 :
  tables_ok m -> physical_address_extension (regs m) = true -> inw 32 va ->
  page_walk_pae m va true = Some (Unmapped e, m1) ->
  marked 8 m m1 /\ forall pa w u, ~ translates m va pa w u.
Proof.
  intros Hm Hpae Hva E. unfold page_walk_pae in E. cbv zeta in E.
  destruct (pae_indices va Hva) as (I1 & I2 & I3). rewrite I1, I2, I3 in E.
  replace (page_table_addr (regs m) + va / 2 ^ 30 * 8)
    with (page_table_addr (regs m) + 8 * (va / 2 ^ 30)) in E by lia.
  destruct (phys_read m 8 _) as [pdpe|] eqn:Epp; [|done]. cbn [mbind option_bind] in E.
  unfold PaePdpe.present, PaePde.present, PaePde.big_page, PaePte.present in E.
  destruct (flag 0 pdpe) eqn:Ep0; cycle 1.
  { simplify_eq/=. split; [by apply marked_refl|]. intros pa w u []; congruence. }
  assert (forall x y, Z.shiftl (field 12 40 x) 12 + y * 8 = 4096 * (x / 4096 mod 2 ^ 40) + 8 * y) as Hb.
  { intros x y. rewrite field_div, Z.shiftl_mul_pow2 by lia. change (2 ^ 12) with 4096. lia. }
  unfold PaePdpe.pd_base_addr in E. rewrite Hb in E. cbn [negb] in E.
  destruct (phys_read m 8 (4096 * (pdpe / _ mod _) + _)) as [pde|] eqn:Epde; [|done].
  cbn [mbind option_bind] in E. destruct (flag 0 pde) eqn:Ep; cycle 1.
  { simplify_eq/=. split; [by apply marked_refl|]. intros pa w u []; congruence. }
  destruct (set_accessed_spec 8 m true _ pde Hm (or_intror eq_refl) Epde)
    as (pde' & m' & Eset & Hmark & Epde' & Hsim & _ & _).
  rewrite Eset in E. cbn [mbind option_bind negb] in E.
  rewrite (sim_flag _ _ 7 Hsim) in E by lia. destruct (flag 7 pde) eqn:E7; [done|].
  unfold PaePde.pt_base_addr in E. rewrite (sim_field _ _ 12 40 Hsim), Hb in E by lia.
  repeat match type of E with
  | context [in_default m' ?a] =>
      destruct (in_default m' a); cbn [mbind option_bind assert] in E; [|discriminate E]
  end.
  destruct (phys_read m' 8 _) as [pte|] eqn:Epte; [|done]. cbn [mbind option_bind] in E.
  destruct (flag 0 pte) eqn:Ept.
  { destruct (set_accessed_spec 8 m' true _ pte (marked_tables_ok _ _ _ Hmark) (or_intror eq_refl) Epte)
      as (pte' & m1' & Eset' & _). by rewrite Eset' in E. }
  simplify_eq/=. split; [done|].
  destruct (marked_back 8 m m1 _ _ Hmark Epte) as (pte0 & Ept0 & Hs0).
  rewrite (sim_flag _ _ 0 Hs0) in Ept by lia. intros pa w u []; congruence.
Qed.

(** *** Both walks *)

Lemma page_walk_facts m va t m1 :
  tables_ok m -> inw 32 va -> page_walk m va true = Some (PhysAddr t, m1) ->
  walk_facts page_walk (entry_size m) m va t m1.
Proof.
  intros Hm Hva E. unfold page_walk, entry_size in *.
  assert (forall n m2, marked n m m1 -> tables_sim n m1 m2 ->
    physical_address_extension (regs m2) = physical_address_extension (regs m)) as Hreg.
  { intros n m2 H1 H2.
    destruct (tables_sim_trans _ _ _ _ (marked_sim _ _ _ H1) H2) as ((_ & _ & ->) & _). done. }
  destruct (physical_address_extension (regs m)) eqn:Hpae.
  - destruct (walk_pae_facts m va t m1 Hm Hpae Hva E) as (H1 & H2 & H3 & H4).
    split; [done|]. split; [done|]. split; [done|]. intros m2 va' Hm2. rewrite (Hreg 8) by done.
    by apply H4.
  - destruct (walk_non_pae_facts m va t m1 Hm Hpae Hva E) as (H1 & H2 & H3 & H4).
    split; [done|]. split; [done|]. split; [done|]. intros m2 va' Hm2. rewrite (Hreg 4) by done.
    by apply H4.
Qed.

Lemma page_walk_unmapped m va e m1 :
  tables_ok m -> inw 32 va -> page_walk m va true = Some (Unmapped e, m1) ->
  marked (entry_size m) m m1 /\ forall pa w u, ~ translates m va pa w u.
Proof.
  intros Hm Hva E. unfold page_walk, entry_size in *.
  destruct (physical_address_extension (regs m)) eqn:Hpae.
  - by apply (walk_pae_unmapped m va e).
  - by apply (walk_non_pae_unmapped m va e).
Qed.

End walks.
