(* ===== verification/Resolve.v ===== *)
(** * Resolving an access: permissions and what the metadata may remember

    [Mem32::resolve_access_address] against the protection rules of the
    architecture, and the soundness of the metadata that a resolved access
    leaves for its page: an access that they let through would be allowed by
    the page tables as well.  The second holds while CR0.WP is set; the last
    lemma shows how it fails otherwise. *)
From S2P Require Import Prelude Exceptions Metadata PhysMap Paging PageWalk.

#[local] Arguments flag : simpl never.
#[local] Arguments set_flag : simpl never.
#[local] Arguments Z.testbit : simpl never.

Section resolve.
Context {M : Type} `{RangeMap M Entry}.
Implicit Types m : Mem32 M.

(** ** The protection rules *)

(** An address has at most one translation. *)
Lemma translates_det m va pa w u pa' w' u' :
  translates m va pa w u -> translates m va pa' w' u' -> pa = pa' /\ w = w' /\ u = u'.
Proof. intros [] []; simplify_eq; try congruence; done. Qed.

Lemma translates_offset m va pa w u : translates m va pa w u -> pa mod 4096 = va mod 4096.
Proof.
  assert (forall k q, 12 <= k -> (2 ^ k * q + va mod 2 ^ k) mod 4096 = va mod 4096) as Hk.
  { intros k q Hk. assert (2 ^ k = 2 ^ (k - 12) * 4096) as Hp.
    { change 4096 with (2 ^ 12). rewrite <- Z.pow_add_r by lia. f_equal. lia. }
    assert (2 ^ k <> 0) by (apply Z.pow_nonzero; lia). rewrite (Z.mod_eq va (2 ^ k)) by done.
    replace (2 ^ k * q + (va - 2 ^ k * (va / 2 ^ k)))
      with (va + (2 ^ (k - 12) * (q - va / 2 ^ k)) * 4096) by (rewrite Hp; ring).
    by rewrite Z.mod_add. }
  intros []; change 4096 with (2 ^ 12) in *; try (apply Hk; lia).
  replace (2 ^ 22 * (pde / 2 ^ 22) + 2 ^ 32 * ((pde / 2 ^ 13) mod 256) + va mod 2 ^ 22)
    with (2 ^ 22 * (pde / 2 ^ 22 + 2 ^ 10 * ((pde / 2 ^ 13) mod 256)) + va mod 2 ^ 22) by lia.
  apply Hk. lia.
Qed.

(** Whether the rules allow an access to a page with the given permissions. *)
Definition allowed (write_protect is_write is_user wr us : bool) : bool :=
  (negb is_write || wr || (negb is_user && negb write_protect)) && (negb is_user || us).

(** Marking the entry of a translation as dirty. *)
Lemma mark_dirty_spec n m a e :
  tables_ok m -> n = 4 \/ n = 8 -> phys_read m n a = Some e ->
  exists m', mark_dirty m a = Some m' /\ marked n m m' /\ phys_read m' n a = Some (Z.setbit e 6).
Proof.
  intros Hm Hn E.
  destruct (mark_entry n 4 m a e 6 Hm Hn) as (e0 & m' & E0 & Ew & _ & Hmk & E'); auto.
  exists m'. unfold mark_dirty. rewrite E0. simpl. by rewrite Ew.
Qed.

(** What a resolution found out: either there is no translation, or the rules
    decide on it; a write marks the entry as dirty. *)
Lemma resolve_inv m a is_write is_user res m1 :
  tables_ok m -> inw 32 a -> paging_enabled (regs m) = true ->
  resolve_access_address a is_write is_user m = Some (res, m1) ->
  let n := entry_size m in
  marked n m m1 /\
  ((res = Err (page_fault false is_write is_user a) /\ forall pa w u, ~ translates m a pa w u)
   \/ exists t m', page_walk m a true = Some (PhysAddr t, m') /\ marked n m' m1 /\
      let wp := system_write_protect (regs m) in
      if allowed wp is_write is_user (writable t) (user_accessible t) then
        exists fd, phys_frame_is_dirty m (addr t) = Some fd /\
        res = Ok {| emu_addr := a; phys_addr := addr t;
                    access_writable := is_write || ((writable t || (negb is_user && negb wp)) && dirty t && fd);
                    phys_frame_needs_dirty_mark := is_write && negb fd;
                    access_user_accessible := user_accessible t |}
        /\ exists e, phys_read m1 n (mark_dirty_addr t) = Some e /\ flag 6 e = is_write || dirty t
      else res = Err (page_fault true is_write is_user a)).
Proof.
  intros Hm Ha Hp E n. unfold resolve_access_address, cbind, cget, clift, cpage_walk in E.
  rewrite Hp in E. cbn [negb] in E.
  destruct (page_walk m a true) as [[[e|t] m']|] eqn:Ew; [| |done]; simpl in E.
  { unfold cerr in E. simplify_eq. destruct (page_walk_unmapped m a e m1 Hm Ha Ew) as [Hmk Hnone].
    split; [done|]. left. by split. }
  destruct (page_walk_facts m a t m' Hm Ha Ew) as (Hmk & Htr & (e & Ee & Hd) & _). fold n in Hmk, Ee.
  destruct (marked_config _ _ _ Hmk) as (_ & _ & Hr & Hfc & _). rewrite Hr in E.
  assert (forall m2, marked n m' m2 -> phys_frame_is_dirty m2 (addr t) = phys_frame_is_dirty m (addr t)) as Hfd.
  { intros m2 H2. destruct (marked_config _ _ _ H2) as (_ & _ & _ & Hfc2 & _).
    unfold phys_frame_is_dirty. by rewrite Hfc2, Hfc. }
  pose proof (marked_tables_ok _ _ _ Hmk) as Hm'. unfold allowed. cbv zeta.
  destruct (negb (writable t || negb is_user && negb (system_write_protect (regs m))) && is_write) eqn:E1.
  { unfold cerr in E. simplify_eq. split; [done|]. right. exists t, m1. split; [done|]. split; [by apply marked_refl|].
    cbv zeta. destruct is_write, (writable t), is_user, (system_write_protect (regs m)); done. }
  destruct (negb (user_accessible t) && is_user) eqn:E2.
  { unfold cerr in E. simplify_eq. split; [done|]. right. exists t, m1. split; [done|]. split; [by apply marked_refl|].
    cbv zeta. destruct is_user, (user_accessible t); try done. by rewrite andb_false_r. }
  assert ((negb is_write || writable t || negb is_user && negb (system_write_protect (regs m)))
    && (negb is_user || user_accessible t) = true) as Hal
    by (destruct is_write, (writable t), is_user, (system_write_protect (regs m)), (user_accessible t); done).
  destruct (is_write && negb (dirty t)) eqn:E3.
  - destruct (mark_dirty_spec n m' _ e Hm' (entry_size_cases m) Ee) as (m2 & Ed & Hmk2 & Ee2).
    unfold cmark_dirty, cbind, cget, clift, cput in E. rewrite Ed in E.
    unfold resolved, cbind, cget, clift, cret in E. rewrite (Hfd m2 Hmk2) in E.
    destruct (phys_frame_is_dirty m (addr t)) as [fd|] eqn:Efd; [|done]. simplify_eq.
    split; [by apply (marked_trans _ _ m')|]. right. exists t, m'. split; [done|]. split; [done|].
    rewrite Hal. exists fd. split; [done|]. apply andb_true_iff in E3 as [-> E3]. split; [done|].
    exists (Z.setbit e 6). split; [done|]. unfold flag. by rewrite Z.setbit_eqb by lia.
  - unfold resolved, cbind, cget, clift, cret in E. rewrite (Hfd m' (marked_refl _ _ Hm')) in E.
    destruct (phys_frame_is_dirty m (addr t)) as [fd|] eqn:Efd; [|done]. simplify_eq.
    split; [done|]. right. exists t, m1. split; [done|]. split; [by apply marked_refl|].
    rewrite Hal. exists fd. split; [done|]. split; [done|]. exists e. split; [done|]. rewrite <- Hd.
    by destruct is_write, (dirty t).
Qed.

(** C28: With paging, an access is resolved exactly to the address that the
    architecture's tables give, when they allow it; the fault code says whether
    a translation exists, and no access leaves more than accessed and dirty bits
    behind. *)
Theorem resolve_access_correct (m m1 : Mem32 M) (a : Z) (is_write is_user : bool)
    (res : result ResolvedAccess Exception) :
  tables_ok m -> inw 32 a -> paging_enabled (regs m) = true ->
  resolve_access_address a is_write is_user m = Some (res, m1) ->
  marked (entry_size m) m m1
  /\ match res with
     | Ok r => exists wr us, translates m a (phys_addr r) wr us
         /\ allowed (system_write_protect (regs m)) is_write is_user wr us = true
         /\ emu_addr r = a /\ access_user_accessible r = us
     | Err x =>
         (x = page_fault false is_write is_user a /\ forall pa wr us, ~ translates m a pa wr us)
         \/ (x = page_fault true is_write is_user a /\ exists pa wr us, translates m a pa wr us
             /\ allowed (system_write_protect (regs m)) is_write is_user wr us = false)
     end.
Proof.
  intros Hm Ha Hp E. destruct (resolve_inv m a is_write is_user res m1 Hm Ha Hp E) as [Hmk Hcase].
  split; [done|]. destruct Hcase as [[-> Hnone]|(t & m' & Ew & _ & Hcase)]; [by left|].
  destruct (page_walk_facts m a t m' Hm Ha Ew) as (_ & Htr & _). cbv zeta in Hcase.
  destruct (allowed _ _ _ _ _) eqn:Eal.
  - destruct Hcase as (fd & _ & -> & _). by exists (writable t), (user_accessible t).
  - subst res. right. split; [done|]. by exists (addr t), (writable t), (user_accessible t).
Qed.

(** Frames of the same page. *)
Lemma same_frame pa a a' :
  0 <= pa -> pa mod 4096 = a mod 4096 -> 0 <= a' ->
  Z.shiftr (pa - a mod 4096 + a' mod 4096) 12 = Z.shiftr pa 12.
Proof.
  intros Hpa E Ha'. rewrite !Z.shiftr_div_pow2 by lia. change (2 ^ 12) with 4096.
  pose proof (Z.mod_pos_bound a' 4096). Z.to_euclidean_division_equations; lia.
Qed.

Lemma translates_nonneg m va pa w u :
  tables_ok m -> inw 32 va -> translates m va pa w u -> 0 <= pa.
Proof.
  intros Hm [Hva _] []; pose proof (Z.mod_pos_bound va 4096); pose proof (Z.mod_pos_bound va (2 ^ 22));
    pose proof (Z.mod_pos_bound va (2 ^ 21)).
  - pose proof (phys_read_inw m 4 _ _ Hm ltac:(lia) H4) as [? _].
    pose proof (Z.div_pos pte 4096). lia.
  - pose proof (phys_read_inw m 4 _ _ Hm ltac:(lia) H1) as [? _].
    pose proof (Z.div_pos pde (2 ^ 22)). pose proof (Z.mod_pos_bound (pde / 2 ^ 13) 256). lia.
  - pose proof (Z.mod_pos_bound (pte / 4096) (2 ^ 40)). lia.
  - pose proof (Z.mod_pos_bound (pde / 2 ^ 21) (2 ^ 31)). lia.
Qed.

(** The later accesses that are not trapped. *)
Lemma untrapped_resolves (m m1 : Mem32 M) (a a' : Z)
    (is_write is_user is_write' is_user' : bool) (r : ResolvedAccess) :
  tables_ok m -> inw 32 a -> inw 32 a' -> a' / 4096 = a / 4096 ->
  system_write_protect (regs m) = true ->
  resolve_access_address a is_write is_user m = Some (Ok r, m1) ->
  MetadataBits.should_trap (access_bits (access_user_accessible r) (access_writable r))
    (access_test is_write' is_user') = false ->
  exists r', resolve_access_address a' is_write' is_user' m1 = Some (Ok r', m1)
  /\ phys_addr r' = phys_addr r - a mod 4096 + a' mod 4096
  /\ phys_frame_needs_dirty_mark r' = is_write' && phys_frame_needs_dirty_mark r.
Proof.
  intros Hm Ha Ha' Ep Hwp E Ht. rewrite access_bits_trap in Ht.
  destruct (paging_enabled (regs m)) eqn:Hp; cycle 1.
  { unfold resolve_access_address, cbind, cget, clift, cret in *. rewrite Hp in E. cbn [negb] in E.
    destruct (phys_frame_is_dirty m a) as [fd|] eqn:Efd; [|done]. simplify_eq. rewrite Hp. cbn [negb].
    assert (a' = a - a mod 4096 + a' mod 4096) as Hrel.
    { pose proof (Z.div_mod a 4096). pose proof (Z.div_mod a' 4096). lia. }
    assert (phys_frame_is_dirty m1 a' = Some fd) as ->.
    { rewrite <- Efd. unfold phys_frame_is_dirty. do 2 f_equal. rewrite Hrel.
      apply same_frame; [apply Ha|done|apply Ha']. }
    eexists. split; [done|]. simpl. split; [done|].
    simpl in Ht. by destruct is_write', is_write, fd. }
  destruct (resolve_inv m a is_write is_user _ m1 Hm Ha Hp E) as [Hmk [[? _]|(t & m' & Ew & Hmk1 & Hcase)]]; [done|].
  destruct (page_walk_facts m a t m' Hm Ha Ew) as (_ & Htr & _ & Hlater). cbv zeta in Hcase.
  destruct (allowed _ _ _ _ _) eqn:Eal; [|done].
  destruct Hcase as (fd & Efd & Hr & e & Ee & Hd). injection Hr as ->.
  cbn [access_writable access_user_accessible phys_addr phys_frame_needs_dirty_mark] in *.
  destruct (Hlater m1 a' (marked_sim _ _ _ Hmk1) Ha' Ep) as (e' & Ee' & Ew'). rewrite Ee in Ee'. injection Ee' as <-.
  destruct (marked_config _ _ _ Hmk) as (_ & _ & Hregs & Hfc & _).
  unfold resolve_access_address, cbind, cget, clift, cpage_walk, cret.
  rewrite Hregs, Hp. cbn [negb]. rewrite Ew'. simpl. rewrite Hregs, Hwp. simpl.
  rewrite Hwp in Eal, Ht. unfold allowed in Eal. simpl in Eal, Ht.
  rewrite !andb_false_r, !orb_false_r in *.
  assert (negb (writable t) && is_write' = false) as -> by
    (destruct is_write', is_write, (writable t), is_user', (user_accessible t); simpl in *; try done; by rewrite ?andb_false_l in * ).
  assert (negb (user_accessible t) && is_user' = false) as -> by
    (destruct is_user', (user_accessible t); simpl in *; try done; by rewrite orb_true_r in Ht).
  assert (is_write' && negb (flag 6 e) = false) as ->.
  { rewrite Hd. destruct is_write', is_write, (dirty t); simpl in *; try done.
    by rewrite andb_false_r in Ht. }
  unfold resolved, cbind, cget, clift, cret, phys_frame_is_dirty. rewrite Hfc. simpl.
  rewrite same_frame; [|by apply (translates_nonneg m a _ _ _ Hm Ha Htr)|by apply (translates_offset m a _ _ _ Htr)|apply Ha'].
  unfold phys_frame_is_dirty in Efd. rewrite Efd. eexists. split; [done|]. simpl. split; [done|].
  destruct is_write', is_write, fd; simpl in *; try done. by rewrite andb_false_r in Ht.
Qed.

(** ** Resolved accesses stay resolved *)

(** [m2] has the page tables of [m], up to accessed and dirty bits, and at
    least its dirty frames. *)
Definition tables_later m m2 : Prop :=
  tables_sim (entry_size m) m m2
  /\ forall f b, phys_frame_is_dirty m f = Some b ->
     exists b', phys_frame_is_dirty m2 f = Some b' /\ (b = true -> b' = true).

Lemma tables_later_trans m1 m2 m3 : tables_later m1 m2 -> tables_later m2 m3 -> tables_later m1 m3.
Proof.
  intros [S1 F1] [S2 F2]. assert (entry_size m2 = entry_size m1) as He.
  { destruct S1 as ((_ & _ & E) & _). unfold entry_size. by rewrite E. }
  rewrite He in S2. split; [by apply (tables_sim_trans _ m1 m2)|].
  intros f b E. destruct (F1 f b E) as (b1 & E1 & H1). destruct (F2 f b1 E1) as (b2 & E2 & H2).
  exists b2. split; [done|]. auto.
Qed.

Lemma marked_later m m2 : marked (entry_size m) m m2 -> tables_later m m2.
Proof.
  intros Hmk. split; [by apply marked_sim|]. intros f b E. exists b. split; [|done].
  unfold phys_frame_is_dirty in *. destruct (marked_config _ _ _ Hmk) as (_ & _ & _ & -> & _). done.
Qed.

(** An access that was resolved without touching the memory is resolved to the
    same address later, again without touching the memory; a write needs a mark
    as long as its frame is clean. *)
Lemma resolve_sim m m2 a is_write is_user r :
  tables_ok m -> inw 32 a -> tables_sim (entry_size m) m m2 ->
  (forall f b, phys_frame_is_dirty m f = Some b -> exists b', phys_frame_is_dirty m2 f = Some b') ->
  resolve_access_address a is_write is_user m = Some (Ok r, m) ->
  exists r' fd fd', resolve_access_address a is_write is_user m2 = Some (Ok r', m2)
  /\ phys_addr r' = phys_addr r
  /\ phys_frame_is_dirty m (phys_addr r) = Some fd /\ phys_frame_is_dirty m2 (phys_addr r) = Some fd'
  /\ phys_frame_needs_dirty_mark r = is_write && negb fd
  /\ phys_frame_needs_dirty_mark r' = is_write && negb fd'.
Proof.
  intros Hm Ha Hsim Hf E. pose proof Hsim as ((_ & _ & Hregs) & Hm2 & Hread).
  destruct (paging_enabled (regs m)) eqn:Hp; cycle 1.
  { unfold resolve_access_address, cbind, cget, clift, cret in *. rewrite Hregs, Hp in *. cbn [negb] in *.
    destruct (phys_frame_is_dirty m a) as [fd|] eqn:Efd; [|done]. simplify_eq.
    destruct (Hf a fd Efd) as (fd' & Efd'). rewrite Efd'. eexists _, fd, fd'. split; [done|].
    simpl. by rewrite Efd. }
  destruct (resolve_inv m a is_write is_user _ m Hm Ha Hp E) as [_ [[? _]|(t & m' & Ew & Hmk1 & Hcase)]]; [done|].
  destruct (page_walk_facts m a t m' Hm Ha Ew) as (_ & _ & _ & Hlater). cbv zeta in Hcase.
  destruct (allowed _ _ _ _ _) eqn:Eal; [|done].
  destruct Hcase as (fd & Efd & Hr & e & Ee & Hd). injection Hr as ->.
  cbn [access_writable access_user_accessible phys_addr phys_frame_needs_dirty_mark] in *.
  destruct (Hlater m2 a (tables_sim_trans _ _ _ _ (marked_sim _ _ _ Hmk1) Hsim) Ha eq_refl)
    as (e' & Ee' & Ew').
  destruct (Hread _ _ Ee) as (e2 & Ee2 & He2). rewrite Ee' in Ee2. injection Ee2 as <-.
  assert (retarget t a a (flag 6 e') = {| addr := addr t; writable := writable t;
    user_accessible := user_accessible t; dirty := flag 6 e'; mark_dirty_addr := mark_dirty_addr t;
    big_page := big_page t; global := global t |}) as Ert by (unfold retarget; f_equal; lia).
  unfold resolve_access_address, cbind, cget, clift, cpage_walk, cret.
  rewrite Hregs, Hp. cbn [negb]. rewrite Ew', Ert.
  cbn [mbind option_bind writable user_accessible dirty mark_dirty_addr addr]. rewrite Hregs.
  unfold allowed in Eal. apply andb_true_iff in Eal as [Eal1 Eal2].
  assert (negb (writable t || negb is_user && negb (system_write_protect (regs m))) && is_write = false) as ->
    by (destruct is_write, (writable t), is_user, (system_write_protect (regs m)); done).
  assert (negb (user_accessible t) && is_user = false) as -> by (destruct is_user, (user_accessible t); done).
  assert (is_write && negb (flag 6 e') = false) as ->.
  { destruct is_write; [|done]. simpl. destruct He2 as (_ & _ & H6). by rewrite H6. }
  unfold resolved, cbind, cget, clift, cret. cbn [addr user_accessible].
  destruct (Hf _ _ Efd) as (fd' & Efd'). rewrite Efd'. eexists _, fd, fd'. split; [done|].
  simpl. by rewrite Efd.
Qed.

Lemma resolve_again m m2 a is_write is_user r :
  tables_ok m -> inw 32 a -> tables_later m m2 ->
  resolve_access_address a is_write is_user m = Some (Ok r, m) ->
  exists r' fd fd', resolve_access_address a is_write is_user m2 = Some (Ok r', m2)
  /\ phys_addr r' = phys_addr r
  /\ phys_frame_is_dirty m (phys_addr r) = Some fd /\ phys_frame_is_dirty m2 (phys_addr r) = Some fd'
  /\ phys_frame_needs_dirty_mark r = is_write && negb fd
  /\ phys_frame_needs_dirty_mark r' = is_write && negb fd' /\ (fd = true -> fd' = true).
Proof.
  intros Hm Ha [Hsim Hf] E.
  destruct (resolve_sim m m2 a is_write is_user r Hm Ha Hsim)
    as (r' & fd & fd' & Er & Hp & Efd & Efd' & Hn & Hn'); [|done|].
  { intros f b Ef. destruct (Hf f b Ef) as (b' & Ef' & _). by exists b'. }
  exists r', fd, fd'. repeat (split; [done|]).
  destruct (Hf _ _ Efd) as (b' & Ef' & Hb). by simplify_eq.
Qed.

Lemma resolve_stable m m2 a is_write is_user r :
  tables_ok m -> inw 32 a -> tables_later m m2 ->
  resolve_access_address a is_write is_user m = Some (Ok r, m) ->
  phys_frame_needs_dirty_mark r = false ->
  exists r', resolve_access_address a is_write is_user m2 = Some (Ok r', m2)
  /\ phys_addr r' = phys_addr r /\ phys_frame_needs_dirty_mark r' = false.
Proof.
  intros Hm Ha Hl E Hn.
  destruct (resolve_again m m2 a is_write is_user r Hm Ha Hl E)
    as (r' & fd & fd' & Er & Hp & _ & _ & Hn1 & Hn2 & Hfd).
  exists r'. split; [done|]. split; [done|]. rewrite Hn2. rewrite Hn in Hn1.
  destruct is_write; [|done]. simpl in *. by rewrite Hfd by (by destruct fd).
Qed.


End resolve.


(** ** A small memory

    Linear page 3 is mapped to frame 2, readable by everyone and writable by
    nobody; page 4 to frame 5 for the supervisor alone; nothing else. *)

Definition example_bytes (s o : Z) : Z :=
  match o with
  | 0x0 => 0x07 | 0x1 => 0x10                     (* PDE 0: table at 0x1000 *)
  | 0x100c => 0x05 | 0x100d => 0x20               (* PTE 3 *)
  | 0x1010 => 0x03 | 0x1011 => 0x50               (* PTE 4 *)
  | _ => 0
  end.

Definition example_mem (write_protect : bool) : Mem32 (ranges Entry) :=
  {| shm_bytes := example_bytes; shm_len := fun _ => 0x10000; physical_memory := 0;
     phys_pages := fun p => if (0 <=? p) && (p <? 16) then Some (0, 4096 * p) else None;
     logical_pages := fun _ => None; current_mappings := fun _ => None;
     metadata := meta_initialize {| modified := []; entries := fun _ => 0 |};
     frame_is_clean := [0]; phys_map := rm_new;
     regs := {| page_table_addr := 0; a20_enabled := true; system_write_protect := write_protect;
                page_size_extension := false; physical_address_extension := false;
                paging_enabled := true |} |}.

Lemma example_tables_ok wp : tables_ok (example_mem wp).
Proof.
  split.
  - intros s o. simpl. unfold example_bytes. repeat case_match; unfold inw; lia.
  - intros p s o. simpl. destruct (_ && _); [|done]. intros E. injection E as <- <-.
    rewrite Z.mul_comm. by rewrite Z.mod_mul.
Qed.

(** The parts of a result that can be compared. *)
Definition resolved_access {M} (x : option (result ResolvedAccess Exception * Mem32 M))
    : option ResolvedAccess :=
  match x with Some (Ok r, _) => Some r | _ => None end.
Definition resolved_error {M} (x : option (result ResolvedAccess Exception * Mem32 M))
    : option Exception :=
  match x with Some (Err e, _) => Some e | _ => None end.
Definition resolved_mem {M} (x : option (result ResolvedAccess Exception * Mem32 M))
    : option (Mem32 M) :=
  match x with Some (_, m) => Some m | _ => None end.

Lemma resolved_access_inv {M} (x : option (result ResolvedAccess Exception * Mem32 M)) r :
  resolved_access x = Some r -> exists m1, x = Some (Ok r, m1).
Proof. destruct x as [[[] m1]|]; simpl; intros; simplify_eq. by exists m1. Qed.

Definition read_access : ResolvedAccess :=
  {| emu_addr := 0x3abc; phys_addr := 0x2abc; access_writable := false;
     phys_frame_needs_dirty_mark := false; access_user_accessible := true |}.
Definition write_access : ResolvedAccess :=
  {| emu_addr := 0x3abc; phys_addr := 0x2abc; access_writable := true;
     phys_frame_needs_dirty_mark := false; access_user_accessible := true |}.

Example example_resolves :
  resolved_access (resolve_access_address 0x3abc false true (example_mem true)) = Some read_access
  /\ resolved_error (resolve_access_address 0x3abc true true (example_mem true))
     = Some (page_fault true true true 0x3abc)
  /\ resolved_access (resolve_access_address 0x3abc true false (example_mem false))
     = Some write_access
  /\ resolved_error (resolve_access_address 0x9000 true false (example_mem false))
     = Some (page_fault false true false 0x9000).
Proof. by vm_compute. Qed.

Lemma resolve_access_correct_witness :
  exists m1, resolve_access_address 0x3abc false true (example_mem true) = Some (Ok read_access, m1)
  /\ marked (entry_size (example_mem true)) (example_mem true) m1
  /\ exists wr us, translates (example_mem true) 0x3abc (phys_addr read_access) wr us
  /\ allowed (system_write_protect (regs (example_mem true))) false true wr us = true
  /\ emu_addr read_access = 0x3abc /\ access_user_accessible read_access = us.
Proof.
  destruct (resolved_access_inv _ _ (proj1 example_resolves)) as [m1 E].
  exists m1. split; [exact E|].
  apply (resolve_access_correct (example_mem true) m1 0x3abc false true (Ok read_access));
    [apply example_tables_ok|unfold inw; lia|reflexivity|exact E].
Defined.


(** Without CR0.WP the remembered metadata is not sound: after a write by the
    supervisor to a read-only user page, the metadata lets a write by the user
    through, which the tables forbid. *)
Lemma supervisor_write_opens_page :
  exists m1,
    resolve_access_address 0x3abc true false (example_mem false) = Some (Ok write_access, m1)
    /\ MetadataBits.should_trap
         (access_bits (access_user_accessible write_access) (access_writable write_access))
         (access_test true true) = false
    /\ resolved_error (resolve_access_address 0x3abc true true m1)
       = Some (page_fault true true true 0x3abc).
Proof.
  destruct (resolved_access_inv _ _ (proj1 (proj2 (proj2 example_resolves)))) as [m1 E].
  exists m1. split; [done|]. split; [done|].
  assert (resolved_error (m ← resolved_mem (resolve_access_address 0x3abc true false (example_mem false));
    resolve_access_address 0x3abc true true m) = Some (page_fault true true true 0x3abc)) as H
    by (vm_compute; reflexivity).
  by rewrite E in H.
Qed.
