(* ===== verification/Mem32.v ===== *)
(** * Accesses to the guest memory

    [Mem32] and [FastMem32] of [sem86-arch/src/mem/mod.rs]: the fast path that
    the metadata of a page allows, the trapped accesses that resolve an
    address, direct it to a device, to shared memory or to the RAM and map the
    page for the next access, and the writes that are prepared first.

    The world of a computation is the memory and the state [X] of the devices
    behind the trait [Mmio].  Two of the host's operations are modelled by what
    they do: [mmap] makes a page of the logical area refer to an object and an
    offset (and fails for an offset that is not page aligned), and an access
    through a pointer reads or writes the bytes that the pages refer to, which
    kills the emulator where nothing is mapped. *)
From S2P Require Import Prelude Exceptions Metadata PhysMap Paging.

Open Scope comp_scope.

Inductive MarkDirtyAdvice : Type := DoNotMark | DirtyOk.

(** The trait [Mmio], with the watchers of shared memory.  Sizes are in bytes;
    [notify_memory_dirty] receives the memory to make copies of it. *)
Class Mmio (M X : Type) := {
  read_mem (n id address : Z) : X -> option (Z * X);
  write_mem (n id address val : Z) : X -> option X;
  notify_memory_dirty (phys_frame_index : Z) : Mem32 M -> X -> option X;
  advise_memory_dirty (addr len : Z) : X -> option (MarkDirtyAdvice * X);
  notify_dirty (watcher offset : Z) : X -> option X;
}.

(** [impl Mmio for ()]; the unit has no watchers. *)
#[global] Instance unit_mmio M : Mmio M unit := {
  read_mem n _ _ x := Some (2 ^ (8 * n) - 1, x);
  write_mem _ _ _ _ x := Some x;
  notify_memory_dirty _ _ x := Some x;
  advise_memory_dirty _ _ x := Some (DirtyOk, x);
  notify_dirty _ _ x := Some x;
}.

Section mem.
Context {M X : Type} `{RangeMap M Entry} `{Mmio M X}.

Abbreviation World := (Mem32 M * X)%type.

(** ** Updates of the memory *)

Definition with_metadata (m : Mem32 M) (b : MetadataMap) : Mem32 M :=
  {| shm_bytes := shm_bytes m; shm_len := shm_len m; physical_memory := physical_memory m;
     phys_pages := phys_pages m; logical_pages := logical_pages m;
     current_mappings := current_mappings m; metadata := b;
     frame_is_clean := frame_is_clean m; phys_map := phys_map m; regs := regs m |}.
Definition with_clean (m : Mem32 M) (c : list Z) : Mem32 M :=
  {| shm_bytes := shm_bytes m; shm_len := shm_len m; physical_memory := physical_memory m;
     phys_pages := phys_pages m; logical_pages := logical_pages m;
     current_mappings := current_mappings m; metadata := metadata m;
     frame_is_clean := c; phys_map := phys_map m; regs := regs m |}.

(** [mmap] of one page of the logical area. *)
Definition map_logical (m : Mem32 M) (logical_addr s offset : Z) : Mem32 M :=
  {| shm_bytes := shm_bytes m; shm_len := shm_len m; physical_memory := physical_memory m;
     phys_pages := phys_pages m;
     logical_pages := fun p => if p =? logical_addr / 4096 then Some (s, offset) else logical_pages m p;
     current_mappings := fun p => if p =? logical_addr then Some offset else current_mappings m p;
     metadata := metadata m; frame_is_clean := frame_is_clean m; phys_map := phys_map m;
     regs := regs m |}.

(** Computations over the memory alone, in a world with devices. *)
Definition in_mem {T} (c : comp (Mem32 M) Exception T) : comp World Exception T :=
  fun w => '(r, m) ← c w.1; Some (r, (m, w.2)).
Definition get_mem : comp World Exception (Mem32 M) := fun w => Some (Ok w.1, w).
Definition set_mem (m : Mem32 M) : comp World Exception unit := fun w => Some (Ok tt, (m, w.2)).
Definition update_mem (f : Mem32 M -> option (Mem32 M)) : comp World Exception unit :=
  m <-! get_mem;; m <-! clift (f m);; set_mem m.
Definition in_dev {T} (f : X -> option (T * X)) : comp World Exception T :=
  fun w => '(v, x) ← f w.2; Some (Ok v, (w.1, x)).
Definition in_dev_ (f : X -> option X) : comp World Exception unit :=
  fun w => x ← f w.2; Some (Ok tt, (w.1, x)).

(** ** Through the mapped pages

    The logical area is followed by the physical one. *)
Definition logical_loc (m : Mem32 M) (a : Z) : option (Z * Z) :=
  '(s, o) ← (if a <? 2 ^ 32 then logical_pages m (a / 4096)
             else phys_pages m ((a - 2 ^ 32) / 4096));
  Some (s, o + a mod 4096).

Definition read_from_unaligned_pointer (m : Mem32 M) (n a : Z) : option Z :=
  bytes ← mapM (fun i => '(s, o) ← logical_loc m (a + i); Some (shm_bytes m s o)) (seqZ 0 n);
  Some (from_le_bytes bytes).

Fixpoint store_at (m : Mem32 M) (a : Z) (bytes : list Z) : option (Mem32 M) :=
  match bytes with
  | [] => Some m
  | b :: bytes =>
      '(s, o) ← logical_loc m a;
      store_at (with_bytes m (shm_write (shm_bytes m) s o 1 b)) (a + 1) bytes
  end.

Definition write_unchecked (n a val : Z) : comp World Exception unit :=
  update_mem (fun m => store_at m a (to_le_bytes (Z.to_nat n) val)).

(** [Shm::view().write_slice] *)
Definition write_slice_shm (m : Mem32 M) (s addr n val : Z) : option (Mem32 M) :=
  assert (n + addr <=? shm_len m s);;
  Some (with_bytes m (shm_write (shm_bytes m) s addr n val)).

(** ** Mapping a page *)

Definition map_address_before_access (emu phys s delta : Z) (range : Z * Z) (m : Mem32 M)
    : option (Mem32 M) :=
  let page_addr := Z.land phys (unot 64 0xfff) in
  if (range.1 <=? page_addr) && (page_addr + 4096 <=? range.2) then
    let logical_addr := Z.land emu (unot 32 0xfff) in
    let shm_offset := wrap 32 (wrap 64 (page_addr + delta)) in
    let current := default (2 ^ 64 - 1) (current_mappings m logical_addr) in
    if negb (current =? shm_offset) then
      assert (shm_offset mod 4096 =? 0);;
      Some (map_logical m logical_addr s shm_offset)
    else Some m
  else None.

Definition resolve_physical_address (m : Mem32 M) (a : Z) : option Z :=
  let a := if a20_enabled (regs m) then a else Z.land a 0xfffff in
  if a <? shm_len m (physical_memory m) then Some a else None.

(** The metadata of a page after an access to it. *)
Definition set_access_metadata (access : ResolvedAccess) (m : Mem32 M) : option (Mem32 M) :=
  b ← meta_set (metadata m) (emu_addr access)
        (access_bits (access_user_accessible access) (access_writable access));
  Some (with_metadata m b).

Definition mark_phys_frame_dirty (phys_frame_addr : Z) : comp World Exception unit :=
  m <-! get_mem;;
  r <-! clift (bitmap_reset (frame_is_clean m) (Z.shiftr phys_frame_addr 12));;
  set_mem (with_clean m r.2) >>!
  if r.1 : bool then
    m <-! get_mem;;
    in_dev_ (notify_memory_dirty (Z.shiftr (wrap 32 phys_frame_addr) 12) m)
  else cret tt.

(** ** Trapped accesses *)

(** [Some v] is a value that came from elsewhere; [None] means that the page is
    mapped now. *)
Definition handle_trapped_linear_memory_read (n : Z) (access : ResolvedAccess)
    : comp World Exception (option Z) :=
  m <-! get_mem;;
  let '(entry, range) := lookup (phys_map m) (phys_addr access) in
  match entry with
  | MmioRef id =>
      v <-! in_dev (read_mem n id (wrap 32 (phys_addr access - range.1)));; cret (Some v)
  | ShmRef s delta _ _ =>
      _ <-! clift (assert (negb (phys_frame_needs_dirty_mark access)));;
      update_mem (set_access_metadata access) >>!
      update_mem (map_address_before_access (emu_addr access) (phys_addr access) s delta range) >>!
      cret None
  | DefaultRef =>
      match resolve_physical_address m (phys_addr access) with
      | Some actual_addr =>
          _ <-! clift (assert (negb (phys_frame_needs_dirty_mark access)));;
          update_mem (set_access_metadata access) >>!
          let delta := signed 64 (wrap 64 (actual_addr - phys_addr access)) in
          update_mem (map_address_before_access (emu_addr access) (phys_addr access)
                        (physical_memory m) delta range) >>!
          cret None
      | None => cret (Some (2 ^ (8 * n) - 1))
      end
  end.

(** [true] when the data is written or is not to be written. *)
Definition handle_trapped_linear_memory_write (n : Z) (access : ResolvedAccess) (val : Z)
    : comp World Exception bool :=
  m <-! get_mem;;
  let '(entry, range) := lookup (phys_map m) (phys_addr access) in
  match entry with
  | MmioRef id =>
      in_dev_ (write_mem n id (wrap 32 (phys_addr access - range.1)) val) >>! cret true
  | ShmRef s delta watcher writable =>
      let map :=
        update_mem (set_access_metadata access) >>!
        update_mem (map_address_before_access (emu_addr access) (phys_addr access) s delta range) >>!
        cret false in
      if phys_frame_needs_dirty_mark access then
        if negb writable then cret true
        else
          let offset := wrap 64 (phys_addr access + delta) in
          match watcher with
          | Some watcher => in_dev_ (notify_dirty watcher offset)
          | None => cret tt
          end >>!
          advice <-! in_dev (advise_memory_dirty (wrap 32 (phys_addr access)) n);;
          match advice with
          | DirtyOk => mark_phys_frame_dirty (phys_addr access) >>! map
          | DoNotMark =>
              update_mem (fun m => write_slice_shm m s (wrap 32 offset) n val) >>! cret true
          end
      else map
  | DefaultRef =>
      if phys_addr access <? shm_len m (physical_memory m) then
        let map :=
          update_mem (set_access_metadata access) >>!
          update_mem (map_address_before_access (emu_addr access) (phys_addr access)
                        (physical_memory m) 0 range) >>!
          cret false in
        if phys_frame_needs_dirty_mark access then
          advice <-! in_dev (advise_memory_dirty (wrap 32 (phys_addr access)) n);;
          match advice with
          | DirtyOk => mark_phys_frame_dirty (phys_addr access) >>! map
          | DoNotMark =>
              update_mem (fun m => write_slice_shm m (physical_memory m)
                                     (wrap 32 (phys_addr access)) n val) >>! cret true
          end
        else map
      else cret true
  end.

Definition should_trap_linear_access (m : Mem32 M) (a : Z) (is_write is_user : bool) : bool :=
  MetadataBits.should_trap (get_for_address (metadata m) a) (access_test is_write is_user).

(** ** Reads *)

(** [addr + NUM_BYTES - 1] is only computed for an unaligned access to a page
    that is not trapped, and may overflow. *)
Definition multibyte_access_can_use_fast_path (m : Mem32 M) (n a : Z) (is_write is_user : bool)
    : option bool :=
  if should_trap_linear_access m a is_write is_user then Some false
  else if a mod n =? 0 then Some true
  else assert (a + n <? 2 ^ 32);; Some (negb (should_trap_linear_access m (a + n - 1) is_write is_user)).

(** [read_slow] for a type of [n] bytes, given how slices are read. *)
Definition read_slow (read_slice : Z -> Z -> comp World Exception (list Z)) (n a : Z) (us : bool)
    : comp World Exception Z :=
  m <-! get_mem;;
  if negb (should_trap_linear_access m a false us)
     && negb (should_trap_linear_access m (wrap 32 (a + (n - 1))) false us) then
    clift (read_from_unaligned_pointer m n a)
  else if Z.land a 0xfff + n - 1 <? 4096 then
    access <-! in_mem (resolve_access_address a false us);;
    r <-! handle_trapped_linear_memory_read n access;;
    match r with
    | Some v => cret v
    | None => m <-! get_mem;; clift (read_from_unaligned_pointer m n a)
    end
  else bytes <-! read_slice a n;; cret (from_le_bytes bytes).

Definition read_with (read_slice : Z -> Z -> comp World Exception (list Z)) (n a : Z) (us : bool)
    : comp World Exception Z :=
  m <-! get_mem;;
  fast <-! clift (multibyte_access_can_use_fast_path m n a false us);;
  if fast : bool then clift (read_from_unaligned_pointer m n a)
  else read_slow read_slice n a us.

(** A byte never crosses a page, so that its read needs no slice. *)
Definition read_u8 (a : Z) (us : bool) : comp World Exception Z :=
  read_with (fun _ _ => cpanic) 1 a us.

Definition read_slice (us : bool) (a n : Z) : comp World Exception (list Z) :=
  cmap (fun i => _ <-! clift (assert (a + i <? 2 ^ 32));; read_u8 (a + i) us) (seqZ 0 n).

(** [Mem32::read] of a type of [n] bytes. *)
Definition read (n a : Z) (us : bool) : comp World Exception Z :=
  read_with (read_slice us) n a us.

(** ** Writes *)

Record PreparedWrite := {
  resolved0 : option ResolvedAccess;
  resolved1 : option ResolvedAccess;
  prepared_val : Z;
  prepared_addr : Z;
  split : bool;
}.

Definition with_offset (r : ResolvedAccess) (n : Z) : option ResolvedAccess :=
  assert (Z.land (phys_addr r) 0xfff + n <? 4096);;
  Some {| emu_addr := wrap 32 (emu_addr r + n); phys_addr := wrap 64 (phys_addr r + n);
          access_writable := access_writable r;
          phys_frame_needs_dirty_mark := phys_frame_needs_dirty_mark r;
          access_user_accessible := access_user_accessible r |}.

(** The access to a page, if it must be trapped. *)
Definition resolve_trapped (a : Z) (us : bool) : comp World Exception (option ResolvedAccess) :=
  m <-! get_mem;;
  if should_trap_linear_access m a true us then
    access <-! in_mem (resolve_access_address a true us);; cret (Some access)
  else cret None.

Definition prepare_write (n a : Z) (us : bool) (val : Z) : comp World Exception PreparedWrite :=
  if Z.land a 0xfff + n - 1 <? 4096 then
    r <-! resolve_trapped a us;;
    cret {| resolved0 := r; resolved1 := None; prepared_val := val; prepared_addr := a; split := false |}
  else
    _ <-! clift (assert (a + 0xfff <? 2 ^ 32));;
    let next_page := Z.land (a + 0xfff) (unot 32 0xfff) in
    r0 <-! resolve_trapped a us;;
    r1 <-! resolve_trapped next_page us;;
    cret {| resolved0 := r0; resolved1 := r1; prepared_val := val; prepared_addr := a; split := true |}.

(** One byte of a write over two pages. *)
Definition write_split_byte (p : PreparedWrite) (x : Z * Z) : comp World Exception unit :=
  let '(i, byte) := x in
  let resolved :=
    if Z.land (prepared_addr p) 0xfff + i <? 4096 then resolved0 p else resolved1 p in
  handled <-! match resolved with
              | Some access =>
                  access <-! clift (with_offset access i);;
                  handle_trapped_linear_memory_write 1 access byte
              | None => cret false
              end;;
  if handled : bool then cret tt
  else
    _ <-! clift (assert (prepared_addr p + i <? 2 ^ 32));;
    write_unchecked 1 (prepared_addr p + i) byte.

Definition execute_prepared_write (n : Z) (p : PreparedWrite) : comp World Exception unit :=
  if split p then
    citer (write_split_byte p)
      (zip (seqZ 0 n) (to_le_bytes (Z.to_nat n) (prepared_val p)))
  else
    handled <-! match resolved0 p with
                | Some access => handle_trapped_linear_memory_write n access (prepared_val p)
                | None => cret false
                end;;
    if handled : bool then cret tt else write_unchecked n (prepared_addr p) (prepared_val p).

Definition write_slow (n a : Z) (us : bool) (val : Z) : comp World Exception unit :=
  m <-! get_mem;;
  if negb (should_trap_linear_access m a true us)
     && negb (should_trap_linear_access m (wrap 32 (a + (n - 1))) true us) then
    write_unchecked n a val
  else
    p <-! prepare_write n a us val;; execute_prepared_write n p.

(** [Mem32::write] of a type of [n] bytes. *)
Definition write (n a : Z) (us : bool) (val : Z) : comp World Exception unit :=
  m <-! get_mem;;
  fast <-! clift (multibyte_access_can_use_fast_path m n a true us);;
  if fast : bool then write_unchecked n a val else write_slow n a us val.

Definition write_slice (a : Z) (bytes : list Z) (us : bool) : comp World Exception unit :=
  citer (fun x => _ <-! clift (assert (a + x.1 <? 2 ^ 32));; write 1 (a + x.1) us x.2)
    (zip (seqZ 0 (Z.of_nat (length bytes))) bytes).

(** ** Control operations *)

Definition with_regs (m : Mem32 M) (r : MemRegs) : Mem32 M :=
  {| shm_bytes := shm_bytes m; shm_len := shm_len m; physical_memory := physical_memory m;
     phys_pages := phys_pages m; logical_pages := logical_pages m;
     current_mappings := current_mappings m; metadata := metadata m;
     frame_is_clean := frame_is_clean m; phys_map := phys_map m; regs := r |}.

Definition invalidate_all_pages (m : Mem32 M) : option (Mem32 M) :=
  b ← meta_clear (metadata m); Some (with_metadata m b).
Definition invalidate_page (m : Mem32 M) (a : Z) : option (Mem32 M) :=
  b ← meta_set (metadata m) a MetadataBits.all; Some (with_metadata m b).

Definition clear_mappings (m : Mem32 M) : Mem32 M :=
  {| shm_bytes := shm_bytes m; shm_len := shm_len m; physical_memory := physical_memory m;
     phys_pages := phys_pages m; logical_pages := logical_pages m;
     current_mappings := fun _ => None; metadata := metadata m;
     frame_is_clean := frame_is_clean m; phys_map := phys_map m; regs := regs m |}.

Definition set_a20_line (m : Mem32 M) (enable : bool) : option (Mem32 M) :=
  let r := regs m in
  m ← invalidate_all_pages (with_regs m
    {| page_table_addr := page_table_addr r; a20_enabled := enable;
       system_write_protect := system_write_protect r; page_size_extension := page_size_extension r;
       physical_address_extension := physical_address_extension r; paging_enabled := paging_enabled r |});
  Some (clear_mappings m).

Definition set_page_directory_base (m : Mem32 M) (a : Z) : option (Mem32 M) :=
  let r := regs m in
  invalidate_all_pages (with_regs m
    {| page_table_addr := a; a20_enabled := a20_enabled r;
       system_write_protect := system_write_protect r; page_size_extension := page_size_extension r;
       physical_address_extension := physical_address_extension r; paging_enabled := paging_enabled r |}).

Definition enable_paging (m : Mem32 M) (enable : bool) : Mem32 M :=
  let r := regs m in
  with_regs m
    {| page_table_addr := page_table_addr r; a20_enabled := a20_enabled r;
       system_write_protect := system_write_protect r; page_size_extension := page_size_extension r;
       physical_address_extension := physical_address_extension r; paging_enabled := enable |}.

Definition set_system_write_protect (m : Mem32 M) (write_protect : bool) : Mem32 M :=
  let r := regs m in
  with_regs m
    {| page_table_addr := page_table_addr r; a20_enabled := a20_enabled r;
       system_write_protect := write_protect; page_size_extension := page_size_extension r;
       physical_address_extension := physical_address_extension r; paging_enabled := paging_enabled r |}.

Definition set_page_size_extension (m : Mem32 M) (pse : bool) : Mem32 M :=
  let r := regs m in
  with_regs m
    {| page_table_addr := page_table_addr r; a20_enabled := a20_enabled r;
       system_write_protect := system_write_protect r; page_size_extension := pse;
       physical_address_extension := physical_address_extension r; paging_enabled := paging_enabled r |}.

Definition enable_physical_address_extension (m : Mem32 M) (enable : bool) : option (Mem32 M) :=
  let r := regs m in
  if Bool.eqb (physical_address_extension r) (negb enable) then
    invalidate_all_pages (with_regs m
      {| page_table_addr := page_table_addr r; a20_enabled := a20_enabled r;
         system_write_protect := system_write_protect r; page_size_extension := page_size_extension r;
         physical_address_extension := enable; paging_enabled := paging_enabled r |})
  else Some m.

(** ** Clean frames *)

(** The pages must trap writes again, so that the next write is noticed. *)
Definition trap_all_writes (m : Mem32 M) : option (Mem32 M) :=
  b ← enable_for_all (metadata m) (MetadataBits.trap_on_write MetadataBits.new true);
  Some (with_metadata m b).

Definition clean_phys_frame (m : Mem32 M) (phys_frame_addr : Z) : option (Mem32 M) :=
  '(_, c) ← bitmap_set (frame_is_clean m) (Z.shiftr phys_frame_addr 12);
  trap_all_writes (with_clean m c).

Definition clean_frames (c : list Z) (start : Z) (pages : nat) : option (list Z) :=
  foldl (fun c i => c ← c; '(_, c) ← bitmap_set c (Z.shiftr (start + 4096 * i) 12); Some c)
    (Some c) (seqZ 0 (Z.of_nat pages)).

Definition clean_phys_frame_range (m : Mem32 M) (start stop : Z) : option (Mem32 M) :=
  assert ((start mod 4096 =? 0) && (stop mod 4096 =? 0));;
  c ← clean_frames (frame_is_clean m) start (Z.to_nat ((stop - start) / 4096));
  trap_all_writes (with_clean m c).

(** ** Mapping physical memory *)

(** [mmap] of an area of physical addresses. *)
Definition map_physical (m : Mem32 M) (start stop s offset : Z) (pm : M) : Mem32 M :=
  {| shm_bytes := shm_bytes m; shm_len := shm_len m; physical_memory := physical_memory m;
     phys_pages := fun p => if (start / 4096 <=? p) && (p <? stop / 4096)
                            then Some (s, offset + 4096 * (p - start / 4096)) else phys_pages m p;
     logical_pages := logical_pages m; current_mappings := current_mappings m;
     metadata := metadata m; frame_is_clean := frame_is_clean m; phys_map := pm; regs := regs m |}.
Definition with_phys_map (m : Mem32 M) (pm : M) : Mem32 M :=
  {| shm_bytes := shm_bytes m; shm_len := shm_len m; physical_memory := physical_memory m;
     phys_pages := phys_pages m; logical_pages := logical_pages m;
     current_mappings := current_mappings m; metadata := metadata m;
     frame_is_clean := frame_is_clean m; phys_map := pm; regs := regs m |}.

Definition area_aligned (start stop : Z) : option unit :=
  assert (Z.land start 0xfff =? 0);; assert (Z.land stop 0xfff =? 0);; assert (start <? stop).

Definition map_physical_memory_to_shm (m : Mem32 M) (start stop s : Z) (watcher : option Z)
    (offset : Z) (writable : bool) : option (Mem32 M) :=
  area_aligned start stop;;
  assert (stop - start + offset <=? shm_len m s);;
  pm ← map_shm (phys_map m) start stop s watcher offset writable;
  assert (offset mod 4096 =? 0);;
  m ← clean_phys_frame_range (map_physical m start stop s offset pm) start stop;
  invalidate_all_pages m.

Definition map_physical_memory_to_mmio (m : Mem32 M) (start stop id : Z) : option (Mem32 M) :=
  area_aligned start stop;;
  pm ← map_mmio (phys_map m) start stop id;
  m ← clean_phys_frame_range (with_phys_map m pm) start stop;
  invalidate_all_pages m.

Definition map_physical_memory_to_default (m : Mem32 M) (start stop : Z) : option (Mem32 M) :=
  area_aligned start stop;;
  pm ← remove_map (phys_map m) start stop;
  m ← clean_phys_frame_range (map_physical m start stop (physical_memory m) start pm) start stop;
  invalidate_all_pages m.

Definition clean_all_phys_frames (m : Mem32 M) : option (Mem32 M) :=
  clean_phys_frame_range m 0 (2 ^ 32).

(** A new memory over the object [pm]: nothing of the logical area is mapped,
    every page traps, every frame is clean and the RAM is mapped into the
    physical area.  The state of the host's objects is given; where the host
    places the areas is its affair. *)
Definition mem_new (b : Z -> Z -> Z) (len : Z -> Z) (pm : Z) : option (Mem32 M) :=
  c ← new_all_ones 0x100000;
  map_physical_memory_to_default
    {| shm_bytes := b; shm_len := len; physical_memory := pm;
       phys_pages := fun _ => None; logical_pages := fun _ => None;
       current_mappings := fun _ => None;
       metadata := meta_initialize {| modified := [0; 0]; entries := fun _ => 0 |};
       frame_is_clean := c; phys_map := rm_new;
       regs := {| page_table_addr := 0; a20_enabled := false; system_write_protect := false;
                  page_size_extension := false; physical_address_extension := false;
                  paging_enabled := false |} |} 0 (len pm).

(** Snapshots hold the bytes of the RAM. *)
Definition snapshot (m : Mem32 M) : list Z :=
  (fun i => shm_bytes m (physical_memory m) i) <$> seqZ 0 (shm_len m (physical_memory m)).
Definition restore (m : Mem32 M) (phys_mem : list Z) : option (Mem32 M) :=
  assert (shm_len m (physical_memory m) =? Z.of_nat (length phys_mem));;
  Some (with_bytes m (fun s o =>
    if (s =? physical_memory m) && (0 <=? o) && (o <? shm_len m (physical_memory m))
    then default 0 (phys_mem !! Z.to_nat o) else shm_bytes m s o)).

(** ** Physical accesses *)

(** A byte through the pointer to the physical area. *)
Definition phys_byte (m : Mem32 M) (a : Z) : option Z :=
  '(s, o) ← phys_loc m a; Some (shm_bytes m s o).
Definition set_phys_byte (m : Mem32 M) (a b : Z) : option (Mem32 M) :=
  '(s, o) ← phys_loc m a; Some (with_bytes m (shm_write (shm_bytes m) s o 1 b)).

(** [resolve_physical_address((addr + n as u32) as u64)] and the access. *)
Definition default_byte (m : Mem32 M) (a : Z) : option Z :=
  match resolve_physical_address m a with
  | Some a => phys_byte m a
  | None => Some 0xff
  end.

(** One byte of [write_physical_slice]: the entry is the one of the start of
    the slice. *)
Definition write_physical_byte (a : Z) (x : Z * Z) : comp World Exception unit :=
  m <-! get_mem;;
  match (lookup (phys_map m) a).1 with
  | MmioRef _ => cret tt
  | ShmRef _ _ _ _ =>
      _ <-! clift (assert (a + x.1 <? 2 ^ 32));; update_mem (fun m => set_phys_byte m (a + x.1) x.2)
  | DefaultRef =>
      _ <-! clift (assert (a + x.1 <? 2 ^ 32));;
      match resolve_physical_address m (a + x.1) with
      | Some a => update_mem (fun m => set_phys_byte m a x.2)
      | None => cret tt
      end
  end.

Definition write_physical_slice (a : Z) (bytes : list Z) : comp World Exception unit :=
  citer (fun page_offset => mark_phys_frame_dirty (wrap 32 (a + page_offset)))
    ((fun i => 4096 * i) <$> seqZ 0 ((Z.of_nat (length bytes) + 4095) / 4096)) >>!
  citer (write_physical_byte a) (zip (seqZ 0 (Z.of_nat (length bytes))) bytes).

Definition read_physical_byte (a : Z) (i : Z) : comp World Exception Z :=
  m <-! get_mem;;
  match (lookup (phys_map m) a).1 with
  | MmioRef id =>
      _ <-! clift (assert (a + i <? 2 ^ 32));; in_dev (read_mem 1 id (a + i))
  | ShmRef _ _ _ _ =>
      _ <-! clift (assert (a + i <? 2 ^ 32));; clift (phys_byte m (a + i))
  | DefaultRef =>
      _ <-! clift (assert (a + i <? 2 ^ 32));; clift (default_byte m (a + i))
  end.

Definition read_physical_slice (a n : Z) : comp World Exception (list Z) :=
  cmap (read_physical_byte a) (seqZ 0 n).

Definition read_physical_slice_no_mmio (m : Mem32 M) (a n : Z) : option (list Z) :=
  mapM (fun i =>
    match (lookup (phys_map m) a).1 with
    | MmioRef _ => Some 0xff
    | ShmRef _ _ _ _ => assert (a + i <? 2 ^ 32);; phys_byte m (a + i)
    | DefaultRef => assert (a + i <? 2 ^ 32);; default_byte m (a + i)
    end) (seqZ 0 n).

End mem.
