(* ===== verification/MemSound.v ===== *)
(** * The memory reads and writes what the page tables say

    The fast path, the metadata and the lazily mapped pages of [Mem32] are a
    cache of translations.  While the memory is coherent (what the metadata let
    through is resolved by the page tables and mapped to the right frame), a
    read inside a page returns the RAM at the translated address, a write
    stores there and nowhere else, and both fault exactly when the resolution
    does.  The machine has RAM only here; [Mem32] models the devices. *)
From S2P Require Import Prelude Exceptions Metadata PhysMap Paging PageWalk Resolve Mem32.

Open Scope comp_scope.

#[local] Arguments flag : simpl never.
#[local] Arguments set_flag : simpl never.
#[local] Arguments Z.testbit : simpl never.

(** ** Pages and pointers *)

Lemma land_not_fff w a :
  12 <= w -> inw w a -> Z.land a (unot w 0xfff) = a - a mod 4096.
Proof.
  intros Hw Ha.
  assert (Z.land a (unot w 0xfff) = Z.ldiff a (Z.ones 12)) as ->.
  { apply Z.bits_inj'. intros i Hi. rewrite Z.land_spec, Z.ldiff_spec, testbit_unot by lia.
    change 0xfff with (Z.ones 12). destruct (Z.lt_ge_cases i w).
    - rewrite (proj2 (Z.leb_le 0 i)), (proj2 (Z.ltb_lt i w)) by lia. by destruct (Z.testbit (Z.ones 12) i).
    - rewrite (testbit_above w a) by (done || lia). done. }
  rewrite Z.ldiff_ones_r by lia. rewrite Z.shiftl_mul_pow2, Z.shiftr_div_pow2 by lia.
  change (2 ^ 12) with 4096. pose proof (Z.div_mod a 4096). lia.
Qed.

Section pointers.
Context {M : Type} `{RangeMap M Entry}.
Implicit Types m : Mem32 M.

Lemma logical_loc_page m a i s o :
  inw 32 a -> 0 <= i -> a mod 4096 + i < 4096 -> logical_pages m (a / 4096) = Some (s, o) ->
  logical_loc m (a + i) = Some (s, o + a mod 4096 + i).
Proof.
  intros [Ha1 Ha2] Hi Hp E. unfold logical_loc.
  assert (a + i < 2 ^ 32) by (Z.to_euclidean_division_equations; lia).
  rewrite (proj2 (Z.ltb_lt _ _)) by lia.
  replace ((a + i) / 4096) with (a / 4096) by (Z.to_euclidean_division_equations; lia).
  rewrite E. simpl. do 2 f_equal. Z.to_euclidean_division_equations; lia.
Qed.

(** A pointer read inside a mapped page. *)
Lemma pointer_read m n a s o :
  inw 32 a -> 0 <= n -> a mod 4096 + n <= 4096 -> logical_pages m (a / 4096) = Some (s, o) ->
  read_from_unaligned_pointer m n a = Some (shm_read (shm_bytes m) s (o + a mod 4096) n).
Proof.
  intros Ha Hn Hp E. unfold read_from_unaligned_pointer, shm_read.
  assert (mapM (fun i => '(s, o) ← logical_loc m (a + i); Some (shm_bytes m s o)) (seqZ 0 n)
    = Some ((fun i => shm_bytes m s (o + a mod 4096 + i)) <$> seqZ 0 n)) as ->; [|done].
  apply mapM_Some. rewrite Forall2_fmap_r. apply Forall_Forall2_diag. apply list.Forall_forall.
  intros i Hi. apply elem_of_seqZ in Hi.
  by rewrite (logical_loc_page m a i s o Ha) by (done || lia).
Qed.

Lemma shm_write_step b s o n v :
  1 < n -> forall s' o',
  shm_write (shm_write b s o 1 (wrap 8 v)) s (o + 1) (n - 1) (Z.shiftr v 8) s' o'
  = shm_write b s o n v s' o'.
Proof.
  intros Hn s' o'. unfold shm_write. destruct (Z.eqb_spec s' s) as [->|]; [|done]. cbn [andb].
  destruct (Z.leb_spec (o + 1) o'), (Z.ltb_spec o' (o + 1 + (n - 1))), (Z.leb_spec o o'),
    (Z.ltb_spec o' (o + n)), (Z.ltb_spec o' (o + 1)); try lia; cbn [andb]; try done.
  - rewrite Z.shiftr_shiftr by lia. do 2 f_equal. lia.
  - replace (8 * (o' - o)) with 0 by lia. rewrite !Z.shiftr_0_r. by rewrite wrap_wrap by lia.
Qed.

(** A pointer write inside a mapped page. *)
Lemma pointer_write m n a s o v :
  inw 32 a -> a mod 4096 + Z.of_nat n <= 4096 -> logical_pages m (a / 4096) = Some (s, o) ->
  exists m', store_at m a (to_le_bytes n v) = Some m' /\ m' = with_bytes m (shm_bytes m')
  /\ forall s' o', shm_bytes m' s' o'
       = shm_write (shm_bytes m) s (o + a mod 4096) (Z.of_nat n) v s' o'.
Proof.
  intros Ha Hp E.
  enough (forall n i m v, 0 <= i -> a mod 4096 + i + Z.of_nat n <= 4096 ->
    logical_pages m (a / 4096) = Some (s, o) ->
    exists m', store_at m (a + i) (to_le_bytes n v) = Some m' /\ m' = with_bytes m (shm_bytes m')
    /\ forall s' o', shm_bytes m' s' o'
         = shm_write (shm_bytes m) s (o + a mod 4096 + i) (Z.of_nat n) v s' o') as Hgen.
  { destruct (Hgen n 0 m v) as (m' & Es & Em & Hb); [lia|lia|done|]. rewrite Z.add_0_r in Es.
    exists m'. split; [done|]. split; [done|]. intros s' o'. by rewrite Hb, Z.add_0_r. }
  clear n m v Hp E. induction n as [|n IH]; intros i m v Hi Hp E;
    [|rewrite to_le_bytes_S; cbn [store_at]].
  { exists m. split; [done|]. split; [by destruct m|]. intros s' o'. unfold shm_write.
    destruct (s' =? s); [|done]. destruct (Z.leb_spec (o + a mod 4096 + i) o'); [|done].
    destruct (Z.ltb_spec o' (o + a mod 4096 + i + Z.of_nat 0)); [lia|done]. }
  rewrite (logical_loc_page m a i s o Ha Hi ltac:(lia) E). cbn [mbind option_bind].
  set (m1 := with_bytes m _).
  destruct (IH (i + 1) m1 (Z.shiftr v 8)) as (m' & Es & Em & Hb); [lia|lia|done|].
  replace (a + (i + 1)) with (a + i + 1) in Es by lia. exists m'. split; [done|]. split; [by rewrite Em|].
  intros s' o'. rewrite Hb. unfold m1. simpl.
  replace (o + a mod 4096 + (i + 1)) with (o + a mod 4096 + i + 1) by lia.
  destruct n as [|n].
  - unfold shm_write. destruct (Z.eqb_spec s' s) as [->|]; [|done]. cbn [andb].
    destruct (Z.leb_spec (o + a mod 4096 + i + 1) o'),
      (Z.ltb_spec o' (o + a mod 4096 + i + 1 + Z.of_nat 0)); try lia; cbn [andb];
      replace (Z.of_nat 1) with 1 by lia;
      destruct (Z.leb_spec (o + a mod 4096 + i) o'), (Z.ltb_spec o' (o + a mod 4096 + i + 1)); try done.
    all: cbn [andb]; replace (8 * _) with 0 by lia; rewrite !Z.shiftr_0_r; by rewrite wrap_wrap by lia.
  - replace (Z.of_nat (S n)) with (Z.of_nat (S (S n)) - 1) by lia. apply shm_write_step. lia.
Qed.

End pointers.

(** ** Coherent memories *)

Section sound.
Context {M X : Type} `{RangeMap M Entry} `{Mmio M X}.
Implicit Types m : Mem32 M.

(** Only RAM, of at most 4 GiB. *)
Definition ram_only m : Prop :=
  (forall a, rm_get (phys_map m) a = None) /\ a20_enabled (regs m) = true
  /\ 0 <= shm_len m (physical_memory m) <= 2 ^ 32 /\ shm_len m (physical_memory m) mod 4096 = 0.

(** The page of [a] is mapped to the frame of the physical address [pa]. *)
Definition mapped_to m (a pa : Z) : Prop :=
  logical_pages m (a / 4096) = Some (physical_memory m, pa - a mod 4096).

(** What every operation keeps. *)
Record well_formed m : Prop := {
  wf_tables : tables_ok m;
  wf_meta : meta_ok (metadata m);
  wf_clean : words_ok (frame_is_clean m) /\ bitmap_len (frame_is_clean m) = 2 ^ 20;
  wf_wp : system_write_protect (regs m) = true;
  wf_ram : ram_only m;
  wf_mappings : forall p off, current_mappings m (4096 * p) = Some off ->
    logical_pages m p = Some (physical_memory m, off);
}.

(** What the metadata let through without a trap is what the tables say. *)
Record coherent m : Prop := {
  coh_wf : well_formed m;
  coh_tlb : forall a is_write is_user, inw 32 a ->
    should_trap_linear_access m a is_write is_user = false ->
    exists r, resolve_access_address a is_write is_user m = Some (Ok r, m)
    /\ phys_frame_needs_dirty_mark r = false
    /\ phys_addr r < shm_len m (physical_memory m) /\ mapped_to m a (phys_addr r);
}.

Lemma well_formed_marked m m1 : well_formed m -> marked (entry_size m) m m1 -> well_formed m1.
Proof.
  intros Hw Hmk. pose proof (marked_tables_ok _ _ _ Hmk). pose proof Hmk as [Em _].
  destruct Hw. split; [done|..]; by rewrite Em.
Qed.

(** Setting accessed and dirty bits keeps a memory coherent. *)
Lemma coherent_marked m m1 : coherent m -> marked (entry_size m) m m1 -> coherent m1.
Proof.
  intros [Hw Htlb] Hmk. pose proof (marked_later _ _ Hmk) as Hl. pose proof Hmk as [Em _].
  split; [by apply (well_formed_marked m)|]. rewrite Em. intros a w u Ha Htr.
  destruct (Htlb a w u Ha Htr) as (r & Er & Hn & Hp & Hmap).
  destruct (resolve_stable m m1 a w u r (wf_tables m Hw)) as (r' & Er' & Hp' & Hn'); try done.
  rewrite <- Em. exists r'. rewrite Hp'. split; [done|]. split; [done|]. by rewrite Em.
Qed.

(** The physical address of a resolved access. *)
Lemma resolve_phys m a is_write is_user r m1 :
  tables_ok m -> inw 32 a -> resolve_access_address a is_write is_user m = Some (Ok r, m1) ->
  0 <= phys_addr r /\ phys_addr r mod 4096 = a mod 4096 /\ emu_addr r = a
  /\ marked (entry_size m) m m1 /\ (is_write = false -> phys_frame_needs_dirty_mark r = false).
Proof.
  intros Hm Ha E. destruct (paging_enabled (regs m)) eqn:Hp; cycle 1.
  { unfold resolve_access_address, cbind, cget, clift, cret in E. rewrite Hp in E. cbn [negb] in E.
    destruct (phys_frame_is_dirty m a) as [fd|]; [|done]. simplify_eq. simpl.
    split; [apply Ha|]. split; [done|]. split; [done|]. split; [by apply marked_refl|]. by intros ->. }
  destruct (resolve_inv m a is_write is_user _ m1 Hm Ha Hp E) as [Hmk [[? _]|(t & m' & Ew & _ & Hcase)]]; [done|].
  destruct (page_walk_facts m a t m' Hm Ha Ew) as (_ & Htr & _). cbv zeta in Hcase.
  destruct (allowed _ _ _ _ _); [|done]. destruct Hcase as (fd & _ & Hr & _). injection Hr as ->. simpl.
  split; [by apply (translates_nonneg m a _ _ _ Hm Ha Htr)|].
  split; [by apply (translates_offset m a _ _ _ Htr)|]. split; [done|]. split; [done|]. by intros ->.
Qed.

Lemma resolve_error_marked m a is_write is_user res m1 :
  tables_ok m -> inw 32 a -> resolve_access_address a is_write is_user m = Some (res, m1) ->
  marked (entry_size m) m m1.
Proof.
  intros Hm Ha E. destruct (paging_enabled (regs m)) eqn:Hp; cycle 1.
  { unfold resolve_access_address, cbind, cget, clift, cret in E. rewrite Hp in E. cbn [negb] in E.
    destruct (phys_frame_is_dirty m a) as [fd|]; [|done]. simplify_eq. by apply marked_refl. }
  by destruct (resolve_inv m a is_write is_user res m1 Hm Ha Hp E).
Qed.

Lemma lookup_ram m a : ram_only m -> lookup (phys_map m) a = (DefaultRef, (Z.land a (unot 64 0xfff), Z.land a (unot 64 0xfff) + 0x1000)).
Proof. intros [Hr _]. unfold lookup. by rewrite Hr. Qed.

Lemma access_bits_inw u w : inw 8 (access_bits u w).
Proof. by destruct u, w. Qed.

(** The page of an access in RAM, after its metadata are set and it is mapped. *)
Definition mapped_page m (r : ResolvedAccess) (b : MetadataMap) : Mem32 M :=
  let m1 := with_metadata m b in
  if decide (current_mappings m (emu_addr r - emu_addr r mod 4096) = Some (phys_addr r - phys_addr r mod 4096))
  then m1 else map_logical m1 (emu_addr r - emu_addr r mod 4096) (physical_memory m) (phys_addr r - phys_addr r mod 4096).

Lemma map_ram_page m a r :
  well_formed m -> inw 32 a -> emu_addr r = a -> 0 <= phys_addr r < shm_len m (physical_memory m) ->
  exists b, set_access_metadata r m = Some (with_metadata m b)
  /\ meta_ok b
  /\ (forall p, page_ok p -> entries b p
        = if p =? Z.shiftr a 12 then access_bits (access_user_accessible r) (access_writable r)
          else entries (metadata m) p)
  /\ map_address_before_access (emu_addr r) (phys_addr r) (physical_memory m) 0
       (Z.land (phys_addr r) (unot 64 0xfff), Z.land (phys_addr r) (unot 64 0xfff) + 0x1000)
       (with_metadata m b) = Some (mapped_page m r b).
Proof.
  intros Hc Ha Er [Hp1 Hp2]. destruct Hc. destruct wf_ram0 as (_ & _ & [_ Hlen] & Hal).
  assert (inw 64 (phys_addr r)) as Hpa by (unfold inw; lia).
  destruct (meta_set_spec (metadata m) a (access_bits (access_user_accessible r) (access_writable r)))
    as (b & Eb & Hb & Hent); [done|done|apply access_bits_inw|].
  exists b. unfold set_access_metadata. rewrite Er, Eb. split; [done|]. split; [done|]. split; [done|].
  unfold map_address_before_access. cbv zeta. rewrite (land_not_fff 64) by (done || lia).
  cbn [fst snd]. rewrite (proj2 (Z.leb_le _ _)), (proj2 (Z.leb_le _ _)) by lia. cbn [andb].
  rewrite (land_not_fff 32) by (done || lia). rewrite Z.add_0_r.
  pose proof (Z.mod_pos_bound (phys_addr r) 4096 ltac:(lia)).
  assert (0 <= phys_addr r - phys_addr r mod 4096) by (Z.to_euclidean_division_equations; lia).
  rewrite (wrap_small 64), (wrap_small 32) by (unfold inw; lia).
  unfold mapped_page. cbv zeta. rewrite Er. cbn [current_mappings with_metadata].
  destruct (decide _) as [Ed|Ed].
  - rewrite Ed. simpl. by rewrite Z.eqb_refl.
  - rewrite (proj2 (Z.eqb_neq _ _)); cycle 1.
    { destruct (current_mappings m _) as [off|] eqn:Ec; simpl; [congruence|lia]. }
    simpl. rewrite (proj2 (Z.eqb_eq _ 0)); [done|]. Z.to_euclidean_division_equations; lia.
Qed.

Lemma mapped_page_fields m r b :
  let m' := mapped_page m r b in
  shm_bytes m' = shm_bytes m /\ shm_len m' = shm_len m /\ physical_memory m' = physical_memory m
  /\ phys_pages m' = phys_pages m /\ metadata m' = b /\ frame_is_clean m' = frame_is_clean m
  /\ phys_map m' = phys_map m /\ regs m' = regs m.
Proof. unfold mapped_page. cbv zeta. by destruct (decide _). Qed.

Lemma same_tables_sim m m' :
  tables_ok m -> shm_bytes m' = shm_bytes m -> phys_pages m' = phys_pages m ->
  phys_map m' = phys_map m -> regs m' = regs m -> tables_sim (entry_size m) m m'.
Proof.
  intros [Hb Hp] E1 E2 E4 E5.
  split; [done|]. split; [by split; rewrite ?E1, ?E2|]. intros a e E. exists e. split; [|done].
  unfold phys_read, phys_loc in *. by rewrite E1, E2.
Qed.

Lemma same_tables_later m m' :
  tables_ok m -> shm_bytes m' = shm_bytes m -> phys_pages m' = phys_pages m ->
  frame_is_clean m' = frame_is_clean m -> phys_map m' = phys_map m -> regs m' = regs m ->
  tables_later m m'.
Proof.
  intros Ht E1 E2 E3 E4 E5. split; [by apply same_tables_sim|].
  intros f x E. exists x. split; [|done]. unfold phys_frame_is_dirty in *. by rewrite E3.
Qed.

Lemma page_of_base a : inw 32 a -> (a - a mod 4096) / 4096 = a / 4096 /\ Z.shiftr a 12 = a / 4096.
Proof.
  intros Ha. rewrite Z.shiftr_div_pow2 by lia. change (2 ^ 12) with 4096.
  split; [|done]. Z.to_euclidean_division_equations; lia.
Qed.

(** The mapped pages after an access to RAM. *)
Lemma mapped_logical m a r b p :
  well_formed m -> inw 32 a -> emu_addr r = a ->
  logical_pages (mapped_page m r b) p
  = if p =? a / 4096 then Some (physical_memory m, phys_addr r - phys_addr r mod 4096)
    else logical_pages m p.
Proof.
  intros Hw Ha Er. destruct (page_of_base a Ha) as [Hbase _].
  unfold mapped_page. cbv zeta. rewrite Er. destruct (decide _) as [Ed|Ed]; simpl; [|by rewrite Hbase].
  destruct (Z.eqb_spec p (a / 4096)) as [->|]; [|done]. apply (wf_mappings m Hw).
  rewrite <- Ed. f_equal. pose proof (Z.div_mod a 4096). lia.
Qed.

Lemma mapped_later m r b : well_formed m -> tables_later m (mapped_page m r b).
Proof.
  intros Hw. destruct (mapped_page_fields m r b) as (F1 & F2 & F3 & F4 & F5 & F6 & F7 & F8).
  apply same_tables_later; try done. apply Hw.
Qed.

Lemma mapped_well_formed m a r b :
  well_formed m -> inw 32 a -> emu_addr r = a -> meta_ok b -> well_formed (mapped_page m r b).
Proof.
  intros Hw Ha Er Hb. destruct (mapped_page_fields m r b) as (F1 & F2 & F3 & F4 & F5 & F6 & F7 & F8).
  pose proof Hw as []. split.
  - apply (mapped_later m r b Hw).
  - by rewrite F5.
  - by rewrite F6.
  - by rewrite F8.
  - unfold ram_only. by rewrite F7, F8, F2, F3.
  - intros p off Eoff. rewrite (mapped_logical m a r b p Hw Ha Er), F3.
    unfold mapped_page in Eoff. cbv zeta in Eoff. rewrite Er in Eoff.
    destruct (decide _) as [Ed|Ed]; simpl in Eoff.
    + destruct (Z.eqb_spec p (a / 4096)) as [->|]; [|by apply wf_mappings0].
      replace (4096 * (a / 4096)) with (a - a mod 4096) in Eoff by (pose proof (Z.div_mod a 4096); lia).
      by rewrite Ed in Eoff; simplify_eq.
    + destruct (Z.eqb_spec p (a / 4096)) as [->|Hne].
      * rewrite (proj2 (Z.eqb_eq _ _)) in Eoff; [by simplify_eq|]. pose proof (Z.div_mod a 4096). lia.
      * rewrite (proj2 (Z.eqb_neq _ _)) in Eoff; [by apply wf_mappings0|].
        pose proof (Z.div_mod a 4096). lia.
Qed.

(** Recording a resolved access and mapping its page keeps the memory coherent
    when what the metadata now let through is resolved. *)
Lemma mapped_coherent m a r b :
  coherent m -> inw 32 a -> emu_addr r = a -> 0 <= phys_addr r < shm_len m (physical_memory m) ->
  phys_addr r mod 4096 = a mod 4096 -> meta_ok b ->
  (forall p, page_ok p -> entries b p
     = if p =? Z.shiftr a 12 then access_bits (access_user_accessible r) (access_writable r)
       else entries (metadata m) p) ->
  (forall a' w' u', inw 32 a' -> a' / 4096 = a / 4096 ->
     MetadataBits.should_trap (access_bits (access_user_accessible r) (access_writable r))
       (access_test w' u') = false ->
     exists r', resolve_access_address a' w' u' m = Some (Ok r', m)
     /\ phys_frame_needs_dirty_mark r' = false
     /\ phys_addr r' = phys_addr r - a mod 4096 + a' mod 4096) ->
  coherent (mapped_page m r b)
  /\ logical_pages (mapped_page m r b) (a / 4096)
     = Some (physical_memory m, phys_addr r - phys_addr r mod 4096).
Proof.
  intros [Hw Htlb] Ha Er Hp Hmod Hb Hent Hres.
  pose proof (mapped_logical m a r b) as Hlog. pose proof (mapped_later m r b Hw) as Hl.
  destruct (mapped_page_fields m r b) as (_ & F2 & F3 & _ & F5 & _).
  destruct (page_of_base a Ha) as [_ Hsh]. pose proof (wf_tables m Hw) as Ht.
  split; [|by rewrite Hlog, Z.eqb_refl]. split; [by apply (mapped_well_formed m a)|].
  intros a' w' u' Ha' Htr. unfold should_trap_linear_access, get_for_address in Htr. rewrite F5 in Htr.
  destruct (page_of_base a' Ha') as [_ Hsh'].
  rewrite Hent, Hsh, Hsh' in Htr; cycle 1.
  { rewrite Hsh'. unfold page_ok, inw in *. change METADATA_MAP_SIZE with (2 ^ 20).
    Z.to_euclidean_division_equations; lia. }
  unfold mapped_to. rewrite F2, F3, Hlog by done.
  destruct (Z.eqb_spec (a' / 4096) (a / 4096)) as [Ep|Ep].
  - destruct (Hres a' w' u' Ha' Ep Htr) as (r' & Er' & Hn' & Hp').
    destruct (resolve_stable m (mapped_page m r b) a' w' u' r' Ht) as (r2 & Er2 & Hp2 & Hn2); try done.
    exists r2. split; [done|]. split; [done|]. rewrite Hp2, Hp', Hmod. split; [|do 2 f_equal; lia].
    destruct (wf_ram m Hw) as (_ & _ & [_ Hlen] & Hal). Z.to_euclidean_division_equations; lia.
  - destruct (Htlb a' w' u' Ha') as (r' & Er' & Hn' & Hp' & Hmap').
    { unfold should_trap_linear_access, get_for_address. by rewrite Hsh'. }
    destruct (resolve_stable m (mapped_page m r b) a' w' u' r' Ht) as (r2 & Er2 & Hp2 & Hn2); try done.
    exists r2. rewrite Hp2. by split.
Qed.

Lemma trap_same_page m a a' w u :
  a' / 4096 = a / 4096 -> should_trap_linear_access m a' w u = should_trap_linear_access m a w u.
Proof.
  intros E. unfold should_trap_linear_access, get_for_address.
  rewrite !Z.shiftr_div_pow2 by lia. change (2 ^ 12) with 4096. by rewrite E.
Qed.

(** Inside a page, the fast path and the first test of the slow path are
    decided by the page's metadata alone. *)
Lemma fast_path_page m n a w u :
  inw 32 a -> 0 < n -> a mod 4096 + n <= 4096 ->
  multibyte_access_can_use_fast_path m n a w u = Some (negb (should_trap_linear_access m a w u))
  \/ (a + n = 2 ^ 32 /\ a mod n <> 0).
Proof.
  intros Ha Hn Hp. unfold multibyte_access_can_use_fast_path, inw in *.
  destruct (should_trap_linear_access m a w u) eqn:Et; [by left|].
  destruct (Z.eqb_spec (a mod n) 0); [by left|].
  assert (a + n <= 2 ^ 32) by (Z.to_euclidean_division_equations; lia).
  destruct (Z.ltb_spec (a + n) (2 ^ 32)); [|right; lia]. left. simpl.
  rewrite (trap_same_page m a) by (Z.to_euclidean_division_equations; lia). by rewrite Et.
Qed.

(** The sizes of the integer types, whose last byte is never at an unaligned
    address. *)
Definition int_size (n : Z) : Prop := n = 1 \/ n = 2 \/ n = 4 \/ n = 8.

Lemma fast_path_int m n a w u :
  inw 32 a -> int_size n -> a mod 4096 + n <= 4096 ->
  multibyte_access_can_use_fast_path m n a w u = Some (negb (should_trap_linear_access m a w u)).
Proof.
  intros Ha Hn Hp. assert (0 < n) by (unfold int_size in Hn; lia).
  destruct (fast_path_page m n a w u Ha) as [?|[Hend Hmod]]; [done|done|done|].
  exfalso. apply Hmod. replace a with (2 ^ 32 - n) by lia.
  destruct Hn as [-> | [-> | [-> | ->]]]; reflexivity.
Qed.

Lemma slow_tests m n a w u :
  inw 32 a -> 0 < n -> a mod 4096 + n <= 4096 ->
  should_trap_linear_access m (wrap 32 (a + (n - 1))) w u = should_trap_linear_access m a w u
  /\ (Z.land a 0xfff + n - 1 <? 4096) = true.
Proof.
  intros Ha Hn Hp. unfold inw in Ha. rewrite wrap_small by
    (unfold inw; Z.to_euclidean_division_equations; lia). split.
  - apply trap_same_page. Z.to_euclidean_division_equations; lia.
  - change 0xfff with (Z.ones 12). rewrite Z.land_ones by lia. change (2 ^ 12) with 4096.
    apply Z.ltb_lt. lia.
Qed.

(** What the RAM holds; there are all ones behind its end. *)
Definition ram_value m (pa n : Z) : Z :=
  if pa <? shm_len m (physical_memory m) then shm_read (shm_bytes m) (physical_memory m) pa n
  else 2 ^ (8 * n) - 1.

Lemma untrapped_read m n a r :
  inw 32 a -> 0 < n -> a mod 4096 + n <= 4096 ->
  phys_addr r < shm_len m (physical_memory m) -> mapped_to m a (phys_addr r) ->
  read_from_unaligned_pointer m n a = Some (ram_value m (phys_addr r) n).
Proof.
  intros Ha Hn Hp Hr Hmap. rewrite (pointer_read m n a _ _ Ha ltac:(lia) Hp Hmap).
  unfold ram_value. rewrite (proj2 (Z.ltb_lt _ _)) by done. do 2 f_equal. lia.
Qed.

(** C30: In a coherent memory a read inside a page is the resolution of its address
    and the RAM at the resolved address: it fails exactly with the faults of
    the resolution, leaves what the resolution leaves in memory, and keeps the
    memory coherent, whether it took the fast path or not. *)
Theorem read_follows_page_tables (m m1 : Mem32 M) (x : X) (n a : Z) (us : bool)
    (res : result ResolvedAccess Exception) :
  coherent m -> inw 32 a -> int_size n -> a mod 4096 + n <= 4096 ->
  resolve_access_address a false us m = Some (res, m1) ->
  exists m', coherent m' /\ shm_bytes m' = shm_bytes m1
  /\ read n a us (m, x)
     = Some (match res with Ok r => Ok (ram_value m' (phys_addr r) n) | Err e => Err e end, (m', x)).
Proof.
  intros Hc Ha Hsz Hp E. assert (0 < n) as Hn by (unfold int_size in Hsz; lia).
  unfold read, read_with, cbind, get_mem, clift. cbn [fst].
  rewrite (fast_path_int m n a false us Ha Hsz Hp).
  destruct (should_trap_linear_access m a false us) eqn:Et; cbn [negb]; cycle 1.
  { destruct (coh_tlb m Hc a false us Ha Et) as (r & Er & _ & Hr & Hmap). rewrite E in Er. simplify_eq.
    exists m. split; [done|]. split; [done|]. by rewrite (untrapped_read m n a r). }
  unfold read_slow, cbind, get_mem, clift, in_mem. cbn [fst snd].
  destruct (slow_tests m n a false us Ha Hn Hp) as [_ ->]. rewrite Et. cbn [negb andb fst snd]. rewrite E.
  cbn [mbind option_bind fst snd].
  pose proof (resolve_error_marked m a false us res m1 (wf_tables m (coh_wf _ Hc)) Ha E) as Hmk.
  pose proof (coherent_marked m m1 Hc Hmk) as Hc1.
  destruct res as [r|e]; [|by exists m1].
  destruct (resolve_phys m a false us r m1 (wf_tables m (coh_wf _ Hc)) Ha E) as (Hr0 & Hrmod & Hre & _ & Hnd).
  specialize (Hnd eq_refl).
  unfold handle_trapped_linear_memory_read, cbind, get_mem, clift, cret, update_mem. cbn [fst snd].
  rewrite (lookup_ram m1) by apply (coh_wf _ Hc1). unfold resolve_physical_address.
  destruct (wf_ram m1 (coh_wf _ Hc1)) as (Hnone & Ha20 & Hlen & Hal). rewrite Ha20.
  destruct (Z.ltb_spec (phys_addr r) (shm_len m1 (physical_memory m1))) as [Hlt|Hge]; cycle 1.
  { exists m1. split; [done|]. split; [done|]. unfold ram_value.
    by rewrite (proj2 (Z.ltb_ge _ _)) by done. }
  destruct (map_ram_page m1 a r (coh_wf _ Hc1) Ha Hre) as (b & Eb & Hb & Hent & Emap); [done|].
  rewrite Hnd. cbn [negb assert]. unfold set_mem, cbind, get_mem. cbn [fst snd]. rewrite Eb. cbn [fst snd].
  rewrite Z.sub_diag. change (signed 64 (wrap 64 0)) with 0.
  unfold clift. cbn [fst snd]. rewrite Emap. cbn [fst snd].
  destruct (mapped_coherent m1 a r b Hc1 Ha Hre) as [Hc2 Hlog]; try done.
  { intros a' w' u' Ha' Ep Htr.
    destruct (untrapped_resolves m m1 a a' false us w' u' r (wf_tables m (coh_wf _ Hc)) Ha Ha' Ep
      (wf_wp m (coh_wf _ Hc)) E Htr) as (r' & Er' & Hp' & Hn'). exists r'. split; [done|].
    split; [by rewrite Hn', Hnd, andb_false_r|done]. }
  destruct (mapped_page_fields m1 r b) as (F1 & F2 & F3 & _).
  exists (mapped_page m1 r b). split; [done|]. split; [done|].
  rewrite (untrapped_read _ n a r); [done|done|done|done|by rewrite F2, F3|].
  unfold mapped_to. by rewrite Hlog, F3, Hrmod.
Qed.

Lemma frame_index pa : 0 <= pa < 2 ^ 32 -> 0 <= Z.shiftr pa 12 < 2 ^ 20.
Proof. rewrite Z.shiftr_div_pow2 by lia. intros. Z.to_euclidean_division_equations; lia. Qed.

Lemma or_two_traps bits w u :
  MetadataBits.should_trap (Z.lor bits 2) (access_test w u)
  = w || MetadataBits.should_trap bits (access_test w u).
Proof.
  unfold MetadataBits.should_trap. rewrite Z.land_lor_distr_l.
  destruct w; [|by destruct u; rewrite (Z.lor_0_r (Z.land bits _))].
  assert (Z.testbit (Z.lor (Z.land bits (access_test true u)) (Z.land 2 (access_test true u))) 1 = true) as H1.
  { rewrite !Z.lor_spec, !Z.land_spec. destruct u; by rewrite orb_true_r. }
  destruct (Z.eqb_spec (Z.lor (Z.land bits (access_test true u)) (Z.land 2 (access_test true u))) 0) as [E|]; [|done].
  by rewrite E in H1.
Qed.

(** ** Invalidation *)

(** Where every page traps there is nothing to be coherent. *)
Lemma trapping_coherent m :
  well_formed m -> (forall p, page_ok p -> entries (metadata m) p = 0xff) -> coherent m.
Proof.
  intros Hw Hall. split; [done|]. intros a w u Ha Ht. exfalso.
  unfold should_trap_linear_access, get_for_address in Ht. rewrite Hall, all_traps in Ht; [done|].
  destruct (page_of_base a Ha) as [_ ->]. unfold page_ok, inw in *. change METADATA_MAP_SIZE with (2 ^ 20).
  Z.to_euclidean_division_equations; lia.
Qed.

Lemma with_metadata_wf m b : well_formed m -> meta_ok b -> well_formed (with_metadata m b).
Proof. by intros [] ?. Qed.

Lemma invalidate_all_pages_spec m :
  well_formed m -> exists m', invalidate_all_pages m = Some m' /\ coherent m'
  /\ m' = with_metadata m (metadata m').
Proof.
  intros Hw. destruct (meta_clear_spec (metadata m) (wf_meta m Hw)) as (b & Eb & Hb & He).
  unfold invalidate_all_pages. rewrite Eb. eexists. split; [done|]. split; [|done].
  apply trapping_coherent; [by apply with_metadata_wf|done].
Qed.

(** C32: Loading CR3 makes any well-formed memory coherent with the tables at the
    new base, whatever was written to the tables, and changes no byte. *)
Theorem cr3_load_coherent m base :
  well_formed m -> exists m', set_page_directory_base m base = Some m' /\ coherent m'
  /\ page_table_addr (regs m') = base /\ shm_bytes m' = shm_bytes m.
Proof.
  intros Hw. unfold set_page_directory_base. cbv zeta.
  destruct (invalidate_all_pages_spec (with_regs m
    {| page_table_addr := base; a20_enabled := a20_enabled (regs m);
       system_write_protect := system_write_protect (regs m);
       page_size_extension := page_size_extension (regs m);
       physical_address_extension := physical_address_extension (regs m);
       paging_enabled := paging_enabled (regs m) |})) as (m' & -> & Hc & Em); [by destruct Hw|].
  exists m'. split; [done|]. split; [done|]. rewrite Em. done.
Qed.

(** A memory with other clean frames and all writes trapped. *)
Definition cleaned m (c : list Z) (b : MetadataMap) : Mem32 M := with_metadata (with_clean m c) b.

Lemma page_index a : inw 32 a -> page_ok (Z.shiftr a 12).
Proof.
  intros Ha. destruct (page_of_base a Ha) as [_ ->]. unfold page_ok, inw in *.
  change METADATA_MAP_SIZE with (2 ^ 20). Z.to_euclidean_division_equations; lia.
Qed.

Lemma cleaned_traps m c b a w us :
  (forall p, page_ok p -> entries b p = Z.lor (entries (metadata m) p) 2) -> inw 32 a ->
  should_trap_linear_access (cleaned m c b) a w us = w || should_trap_linear_access m a w us.
Proof.
  intros Hent Ha. unfold should_trap_linear_access, get_for_address. simpl.
  rewrite Hent by (by apply page_index). apply or_two_traps.
Qed.

Lemma negative_frame m f : f < 0 -> phys_frame_is_dirty m f = None.
Proof.
  intros Hf. unfold phys_frame_is_dirty, bitmap_get, arr_get. rewrite Z.shiftr_div_pow2 by lia.
  rewrite (proj2 (Z.ltb_lt _ _)); [done|]. Z.to_euclidean_division_equations; lia.
Qed.

(** Reads that are not trapped resolve whatever frames are dirty. *)
Lemma cleaned_coherent m c b :
  coherent m -> well_formed (cleaned m c b) ->
  (forall p, page_ok p -> entries b p = Z.lor (entries (metadata m) p) 2) ->
  (forall f x, phys_frame_is_dirty m f = Some x -> exists y, phys_frame_is_dirty (cleaned m c b) f = Some y) ->
  coherent (cleaned m c b).
Proof.
  intros [Hw Htlb] Hwf Hent Hf. split; [done|]. intros a w us Ha Ht.
  rewrite cleaned_traps in Ht by done. destruct w; [done|].
  destruct (Htlb a false us Ha Ht) as (r & Er & Hn & Hp & Hmap).
  assert (tables_sim (entry_size m) m (cleaned m c b)) as Hsim
    by (apply same_tables_sim; [apply Hw|done..]).
  destruct (resolve_sim m (cleaned m c b) a false us r (wf_tables m Hw) Ha Hsim Hf Er)
    as (r' & fd & fd' & Er' & Hp' & _ & _ & _ & Hn').
  exists r'. rewrite Hp'. by split.
Qed.

Lemma trap_all_writes_spec m :
  meta_ok (metadata m) ->
  exists b, trap_all_writes m = Some (with_metadata m b) /\ meta_ok b
  /\ forall p, page_ok p -> entries b p = Z.lor (entries (metadata m) p) 2.
Proof.
  intros Hm. unfold trap_all_writes.
  destruct (enable_for_all_spec (metadata m) (MetadataBits.trap_on_write MetadataBits.new true) Hm)
    as (b & -> & Hb & Hent); [done|]. by exists b.
Qed.

(** C33: After a frame has been declared clean the memory is still coherent, every
    page traps writes, and exactly this frame is clean that was not: the next
    write to it will be noticed. *)
Theorem clean_phys_frame_spec m pa :
  coherent m -> 0 <= pa < 2 ^ 32 ->
  exists m', clean_phys_frame m pa = Some m' /\ coherent m' /\ shm_bytes m' = shm_bytes m
  /\ (forall a us, inw 32 a -> should_trap_linear_access m' a true us = true)
  /\ forall f, 0 <= f -> phys_frame_is_dirty m' f
      = if Z.shiftr f 12 =? Z.shiftr pa 12 then Some false else phys_frame_is_dirty m f.
Proof.
  intros Hc Hpa. pose proof Hc as [Hw _]. destruct (wf_clean m Hw) as [Hwd Hlen].
  pose proof (frame_index pa Hpa) as Hi.
  destruct (bitmap_set_spec (frame_is_clean m) (Z.shiftr pa 12) Hwd ltac:(lia))
    as (old & c & Hold & Hset & Hw' & Hlen' & Hget).
  destruct (trap_all_writes_spec (with_clean m c) (wf_meta m Hw)) as (b & Eb & Hb & Hent).
  assert (forall f, 0 <= f -> phys_frame_is_dirty (cleaned m c b) f
    = if Z.shiftr f 12 =? Z.shiftr pa 12 then Some false else phys_frame_is_dirty m f) as Hdirty.
  { intros f Hf. unfold phys_frame_is_dirty, cleaned. cbn [frame_is_clean with_metadata with_clean].
    rewrite Hget by (by apply Z.shiftr_nonneg). by case_match. }
  exists (cleaned m c b). split; [|split; [|split; [done|split; [|exact Hdirty]]]].
  - unfold clean_phys_frame. rewrite Hset. exact Eb.
  - apply cleaned_coherent; [done| |done|].
    + destruct Hw. split; try done. cbn. split; [done|]. unfold bitmap_len in *. lia.
    + intros f x Ef. destruct (Z.lt_ge_cases f 0); [by rewrite negative_frame in Ef|].
      rewrite Hdirty by done. case_match; by eexists.
  - intros a us Ha. by rewrite cleaned_traps.
Qed.

(** ** Writes *)

(** The devices let every frame be marked as dirty and the notifications
    succeed. *)
Class QuietMmio : Prop := {
  quiet_advise addr len (x : X) : exists x', advise_memory_dirty addr len x = Some (DirtyOk, x');
  quiet_notify frame m (x : X) : exists x', notify_memory_dirty frame m x = Some x';
}.
Context `{!QuietMmio}.

(** Marking a frame only makes this frame dirty. *)
Lemma mark_frame_spec m x pa :
  well_formed m -> 0 <= pa < 2 ^ 32 ->
  exists c x', mark_phys_frame_dirty pa (m, x) = Some (Ok tt, (with_clean m c, x'))
  /\ well_formed (with_clean m c) /\ tables_later m (with_clean m c)
  /\ forall pa', Z.shiftr pa' 12 = Z.shiftr pa 12 -> phys_frame_is_dirty (with_clean m c) pa' = Some true.
Proof.
  intros Hwf Hpa. destruct (wf_clean m Hwf) as [Hw Hlen]. pose proof (frame_index pa Hpa) as Hi.
  destruct (bitmap_reset_spec (frame_is_clean m) (Z.shiftr pa 12) Hw ltac:(lia))
    as (old & c & Hold & Hset & Hw' & Hlen' & Hget).
  assert (forall pa', Z.shiftr pa' 12 = Z.shiftr pa 12 ->
    phys_frame_is_dirty (with_clean m c) pa' = Some true) as Hd.
  { intros pa' E. unfold phys_frame_is_dirty. simpl. rewrite E, Hget by lia. by rewrite Z.eqb_refl. }
  assert (tables_later m (with_clean m c)) as Hl.
  { split; [by apply same_tables_sim; try done; apply Hwf|]. intros f b E.
    destruct (Z.eq_dec (Z.shiftr f 12) (Z.shiftr pa 12)) as [Ef|Ef]; [by exists true; rewrite Hd|].
    exists b. split; [|done]. unfold phys_frame_is_dirty in *. simpl.
    destruct (Z.lt_ge_cases (Z.shiftr f 12) 0).
    - unfold bitmap_get, arr_get in E. rewrite (proj2 (Z.ltb_lt _ _)) in E; [done|].
      Z.to_euclidean_division_equations; lia.
    - rewrite Hget by lia. by rewrite (proj2 (Z.eqb_neq _ _)). }
  assert (exists x', (if old then in_dev_ (notify_memory_dirty (Z.shiftr (wrap 32 pa) 12) (with_clean m c))
    else cret tt) (with_clean m c, x) = Some (Ok tt, (with_clean m c, x'))) as [x' Hn].
  { destruct old; [|by exists x]. unfold in_dev_. cbn [fst snd].
    destruct (quiet_notify (Z.shiftr (wrap 32 pa) 12) (with_clean m c) x) as [x' ->]. by exists x'. }
  exists c, x'. split; [|split; [|done]].
  - unfold mark_phys_frame_dirty, cbind, get_mem, clift, set_mem. cbn [fst snd]. rewrite Hset.
    cbn [fst snd]. destruct old; exact Hn.
  - destruct Hwf. split; try done; simpl. split; [done|]. unfold bitmap_len in *. lia.
Qed.

Lemma mark_frame m x pa :
  coherent m -> 0 <= pa < 2 ^ 32 ->
  exists c x', mark_phys_frame_dirty pa (m, x) = Some (Ok tt, (with_clean m c, x'))
  /\ coherent (with_clean m c) /\ tables_later m (with_clean m c)
  /\ forall pa', Z.shiftr pa' 12 = Z.shiftr pa 12 -> phys_frame_is_dirty (with_clean m c) pa' = Some true.
Proof.
  intros [Hw Htlb] Hpa. destruct (mark_frame_spec m x pa Hw Hpa) as (c & x' & E & Hw' & Hl & Hd).
  exists c, x'. split; [done|]. split; [|done]. split; [done|].
  intros a w u Ha Ht. destruct (Htlb a w u Ha Ht) as (r & Er & Hn' & Hp' & Hmap).
  destruct (resolve_stable m (with_clean m c) a w u r (wf_tables m Hw)) as (r' & Er' & Hp'' & Hn''); try done.
  exists r'. rewrite Hp''. by split.
Qed.

(** The RAM after a write; nothing is behind its end. *)
Definition ram_written m (pa n v : Z) : Z -> Z -> Z :=
  if pa <? shm_len m (physical_memory m) then shm_write (shm_bytes m) (physical_memory m) pa n v
  else shm_bytes m.

(** The memory [m'] is [m] but for the bytes that a write left. *)
Definition written m m' (pa n v : Z) : Prop :=
  m' = with_bytes m (shm_bytes m') /\ forall s o, shm_bytes m' s o = ram_written m pa n v s o.

Lemma untrapped_write m x n a r v :
  inw 32 a -> 0 < n -> a mod 4096 + n <= 4096 ->
  phys_addr r < shm_len m (physical_memory m) -> mapped_to m a (phys_addr r) ->
  exists m', write_unchecked (X:=X) n a v (m, x) = Some (Ok tt, (m', x)) /\ written m m' (phys_addr r) n v.
Proof.
  intros Ha Hn Hp Hr Hmap.
  destruct (pointer_write m (Z.to_nat n) a _ _ v Ha ltac:(lia) Hmap) as (m' & Es & Em & Hb).
  exists m'. unfold write_unchecked, update_mem, cbind, get_mem, clift, set_mem. cbn [fst snd].
  rewrite Es. split; [done|]. split; [done|]. intros s o. rewrite Hb. unfold ram_written.
  rewrite (proj2 (Z.ltb_lt (phys_addr r) _)) by done. rewrite Z2Nat.id by lia. do 2 f_equal. lia.
Qed.

(** The end of a trapped access to RAM. *)
Lemma map_after_access (m m2 : Mem32 M) (x : X) a r w us :
  coherent m2 -> inw 32 a -> emu_addr r = a -> 0 <= phys_addr r < shm_len m2 (physical_memory m2) ->
  phys_addr r mod 4096 = a mod 4096 -> tables_ok m -> system_write_protect (regs m) = true ->
  (exists m1, resolve_access_address a w us m = Some (Ok r, m1) /\ tables_ok m1 /\ tables_later m1 m2) ->
  (phys_frame_needs_dirty_mark r = true -> phys_frame_is_dirty m2 (phys_addr r) = Some true) ->
  exists m', (update_mem (set_access_metadata r) >>!
     update_mem (map_address_before_access (emu_addr r) (phys_addr r) (physical_memory m2) 0
       (Z.land (phys_addr r) (unot 64 0xfff), Z.land (phys_addr r) (unot 64 0xfff) + 0x1000)) >>!
     cret false) (m2, x) = Some (Ok false, (m', x))
  /\ coherent m' /\ mapped_to m' a (phys_addr r)
  /\ (exists b, m' = mapped_page m2 r b).
Proof.
  intros Hc2 Ha Hre Hr Hrmod Hm Hwp (m1 & E & Hm1 & Hl) Hdirty.
  destruct (map_ram_page m2 a r (coh_wf _ Hc2) Ha Hre Hr) as (b & Eb & Hb & Hent & Emap).
  exists (mapped_page m2 r b). split.
  { unfold update_mem, set_mem, cbind, get_mem, clift. cbn [fst snd]. rewrite Eb. cbn [fst snd].
    rewrite Emap. done. }
  destruct (mapped_coherent m2 a r b Hc2 Ha Hre) as [Hc3 Hlog]; try done.
  { intros a' w' u' Ha' Ep Htr.
    destruct (untrapped_resolves m m1 a a' w us w' u' r Hm Ha Ha' Ep Hwp E Htr)
      as (r' & Er' & Hp' & Hn').
    destruct (resolve_again m1 m2 a' w' u' r' Hm1 Ha' Hl Er')
      as (r2 & fd & fd' & Er2 & Hp2 & Efd & Efd' & Hn1 & Hn2 & Hfd).
    exists r2. split; [done|]. split; [|by rewrite Hp2, Hp'].
    rewrite Hn2. destruct w'; [|done]. simpl in *. rewrite Hn' in Hn1.
    destruct (phys_frame_needs_dirty_mark r) eqn:Hnd; cycle 1.
    { destruct fd; [|done]. by rewrite Hfd. }
    rewrite Hp' in Efd'. unfold phys_frame_is_dirty in Hdirty, Efd'.
    rewrite same_frame in Efd' by (done || lia || apply Ha').
    rewrite Hdirty in Efd' by done. by simplify_eq. }
  split; [done|]. destruct (mapped_page_fields m2 r b) as (_ & _ & F3 & _).
  unfold mapped_to. rewrite Hlog, F3, Hrmod. split; [done|]. by exists b.
Qed.

(** A write that needs no mark found a dirty frame. *)
Lemma resolved_dirty m a us r m1 :
  tables_ok m -> inw 32 a -> resolve_access_address a true us m = Some (Ok r, m1) ->
  phys_frame_needs_dirty_mark r = false -> phys_frame_is_dirty m1 (phys_addr r) = Some true.
Proof.
  intros Hm Ha E Hn. destruct (paging_enabled (regs m)) eqn:Hp; cycle 1.
  { unfold resolve_access_address, cbind, cget, clift, cret in E. rewrite Hp in E. cbn [negb] in E.
    destruct (phys_frame_is_dirty m a) as [fd|] eqn:Efd; [|done]. simplify_eq. simpl in *.
    rewrite Efd. by destruct fd. }
  destruct (resolve_inv m a true us _ m1 Hm Ha Hp E) as [Hmk [[? _]|(t & m' & Ew & _ & Hcase)]]; [done|].
  cbv zeta in Hcase. destruct (allowed _ _ _ _ _); [|done].
  destruct Hcase as (fd & Efd & Hr & _). injection Hr as ->. simpl in *.
  unfold phys_frame_is_dirty in *. destruct (marked_config _ _ _ Hmk) as (_ & _ & _ & -> & _).
  rewrite Efd. by destruct fd.
Qed.

(** A trapped write to RAM: the frame is marked as dirty, the page is mapped,
    and the write proceeds through the mapped page. *)
Lemma trapped_write m m1 x n a us r v :
  coherent m -> inw 32 a ->
  resolve_access_address a true us m = Some (Ok r, m1) ->
  exists m2 x', coherent m2 /\ shm_bytes m2 = shm_bytes m1 /\ shm_len m2 = shm_len m1
  /\ physical_memory m2 = physical_memory m1
  /\ if phys_addr r <? shm_len m1 (physical_memory m1) then
       handle_trapped_linear_memory_write n r v (m1, x) = Some (Ok false, (m2, x'))
       /\ mapped_to m2 a (phys_addr r) /\ phys_frame_is_dirty m2 (phys_addr r) = Some true
     else handle_trapped_linear_memory_write n r v (m1, x) = Some (Ok true, (m2, x')).
Proof.
  intros Hc Ha E.
  pose proof (resolve_error_marked m a true us (Ok r) m1 (wf_tables m (coh_wf _ Hc)) Ha E) as Hmk.
  pose proof (coherent_marked m m1 Hc Hmk) as Hc1.
  destruct (resolve_phys m a true us r m1 (wf_tables m (coh_wf _ Hc)) Ha E) as (Hr0 & Hrmod & Hre & _ & _).
  unfold handle_trapped_linear_memory_write, cbind, get_mem. cbn [fst snd].
  rewrite (lookup_ram m1) by apply Hc1.
  destruct (wf_ram m1 (coh_wf _ Hc1)) as (_ & _ & [_ Hlen] & _).
  destruct (Z.ltb_spec (phys_addr r) (shm_len m1 (physical_memory m1))) as [Hlt|Hge];
    [|by exists m1, x].
  destruct (phys_frame_needs_dirty_mark r) eqn:Hnd.
  - destruct (quiet_advise (wrap 32 (phys_addr r)) n x) as [x1 Eadv].
    destruct (mark_frame m1 x1 (phys_addr r) Hc1 ltac:(lia)) as (c & x2 & Emk & Hc2 & Hl & Hd).
    destruct (map_after_access m (with_clean m1 c) x2 a r true us Hc2 Ha Hre) as (m' & Em' & Hc' & Hmap & b & ->);
      try done; [apply Hc|apply Hc|..].
    { exists m1. split; [done|]. split; [|done]. apply Hc1. }
    { intros _. by apply Hd. }
    destruct (mapped_page_fields (with_clean m1 c) r b) as (F1 & F2 & F3 & _ & _ & F6 & _).
    exists (mapped_page (with_clean m1 c) r b), x2. repeat (split; [done|]).
    split; [|split; [done|]].
    + unfold in_dev. cbn [fst snd]. rewrite Eadv. cbn [mbind option_bind fst snd]. unfold cbind in Emk.
      rewrite Emk. exact Em'.
    + unfold phys_frame_is_dirty. rewrite F6. by apply Hd.
  - destruct (map_after_access m m1 x a r true us Hc1 Ha Hre) as (m' & Em' & Hc' & Hmap & b & ->);
      try done; [apply Hc|apply Hc|..].
    { exists m1. split; [done|]. split; [apply Hc1|]. apply marked_later. apply marked_refl. apply Hc1. }
    { by rewrite Hnd. }
    destruct (mapped_page_fields m1 r b) as (F1 & F2 & F3 & _ & _ & F6 & _).
    exists (mapped_page m1 r b), x. repeat (split; [done|]).
    unfold phys_frame_is_dirty. rewrite F6. by apply (resolved_dirty m a us r m1 (wf_tables m (coh_wf _ Hc))).
Qed.


End sound.

(** ** A small RAM

    The tables of [Resolve.example_bytes], with every frame clean and nothing
    mapped yet. *)

#[global] Instance unit_quiet M `{RangeMap M Entry} : QuietMmio (M:=M) (X:=unit).
Proof. split; intros; by eexists. Qed.

Definition ram_mem : Mem32 (ranges Entry) :=
  {| shm_bytes := example_bytes; shm_len := fun _ => 0x10000; physical_memory := 0;
     phys_pages := fun p => if (0 <=? p) && (p <? 16) then Some (0, 4096 * p) else None;
     logical_pages := fun _ => None; current_mappings := fun _ => None;
     metadata := meta_initialize {| modified := []; entries := fun _ => 0 |};
     frame_is_clean := replicate (Z.to_nat 16384) (Z.ones 64); phys_map := rm_new;
     regs := {| page_table_addr := 0; a20_enabled := true; system_write_protect := true;
                page_size_extension := false; physical_address_extension := false;
                paging_enabled := true |} |}.

Lemma all_clean n : words_ok (replicate n (Z.ones 64)) /\ bitmap_len (replicate n (Z.ones 64)) = 64 * Z.of_nat n.
Proof.
  split; [|unfold bitmap_len; by rewrite length_replicate]. by apply Forall_replicate.
Qed.

Lemma ram_mem_well_formed : well_formed ram_mem.
Proof.
  split.
  - exact (example_tables_ok true).
  - apply meta_initialize_ok.
  - apply (all_clean (Z.to_nat 16384)).
  - done.
  - done.
  - done.
Qed.

Lemma ram_mem_coherent : coherent ram_mem.
Proof.
  apply trapping_coherent; [apply ram_mem_well_formed|]. intros p [H1 H2]. simpl.
  by rewrite (proj2 (Z.leb_le _ _)), (proj2 (Z.ltb_lt _ _)) by lia.
Qed.

Definition ram_write_access : ResolvedAccess :=
  {| emu_addr := 0x4010; phys_addr := 0x5010; access_writable := true;
     phys_frame_needs_dirty_mark := true; access_user_accessible := false |}.

Example ram_mem_resolves :
  resolved_access (resolve_access_address 0x3abc false true ram_mem) = Some read_access
  /\ resolved_access (resolve_access_address 0x4010 true false ram_mem) = Some ram_write_access.
Proof. by vm_compute. Qed.

Lemma read_follows_page_tables_witness :
  exists m', coherent m'
  /\ read (X:=unit) 4 0x3abc true (ram_mem, tt) = Some (Ok (ram_value m' 0x2abc 4), (m', tt)).
Proof.
  destruct (resolved_access_inv _ _ (proj1 ram_mem_resolves)) as [m1 E].
  destruct (read_follows_page_tables ram_mem m1 tt 4 0x3abc true (Ok read_access)
    ram_mem_coherent ltac:(done) ltac:(unfold int_size; lia) ltac:(done) E) as (m' & Hc & _ & Er).
  exists m'. exact (conj Hc Er).
Defined.


Lemma cr3_load_coherent_witness :
  exists m', set_page_directory_base ram_mem 0x1000 = Some m' /\ coherent m'
  /\ page_table_addr (regs m') = 0x1000.
Proof.
  destruct (cr3_load_coherent ram_mem 0x1000 ram_mem_well_formed) as (m' & E & Hc & Hb & _).
  exists m'. exact (conj E (conj Hc Hb)).
Defined.

Lemma clean_phys_frame_spec_witness :
  exists m', clean_phys_frame ram_mem 0x5000 = Some m' /\ coherent m'
  /\ phys_frame_is_dirty m' 0x5010 = Some false.
Proof.
  destruct (clean_phys_frame_spec ram_mem 0x5000 ram_mem_coherent ltac:(done)) as (m' & E & Hc & _ & _ & Hf).
  exists m'. exact (conj E (conj Hc (Hf 0x5010 ltac:(done)))).
Defined.
