(* ===== verification/MemBoot.v ===== *)
(** * A new memory, snapshots and the frames' dirty marks

    What [Mem32::new] establishes, what [snapshot] and [restore] keep, and two
    accesses of [Mem32] that do not do what the page tables say: they are
    outside the theorems of [MemSound] (a write over two pages, and a page
    that moves to another object at the same offset). *)
From S2P Require Import Prelude Exceptions Metadata PhysMap Paging PageWalk Resolve Mem32 MemSound.

Open Scope comp_scope.

#[local] Arguments flag : simpl never.
#[local] Arguments set_flag : simpl never.
#[local] Arguments Z.testbit : simpl never.

(** ** Declaring a range of frames clean *)

Lemma clean_frames_spec c start n :
  words_ok c -> 0 <= start -> start mod 4096 = 0 -> start / 4096 + Z.of_nat n <= bitmap_len c ->
  exists c', clean_frames c start n = Some c' /\ words_ok c' /\ length c' = length c
  /\ forall k, 0 <= k -> bitmap_get c' k
       = if (start / 4096 <=? k) && (k <? start / 4096 + Z.of_nat n) then Some true else bitmap_get c k.
Proof.
  intros Hc Hs Hal. unfold clean_frames. induction n as [|n IH]; intros Hn.
  { exists c. split; [done|]. split; [done|]. split; [done|]. intros k Hk.
    destruct (Z.leb_spec (start / 4096) k), (Z.ltb_spec k (start / 4096 + Z.of_nat 0)); try done; lia. }
  destruct IH as (c1 & E & Hc1 & Hlen & Hget); [lia|].
  rewrite seqZ_S, foldl_app, E. cbn [foldl mbind option_bind].
  assert (Z.shiftr (start + 4096 * (0 + Z.of_nat n)) 12 = start / 4096 + Z.of_nat n) as Ei.
  { rewrite Z.shiftr_div_pow2 by lia. change (2 ^ 12) with 4096.
    Z.to_euclidean_division_equations; lia. }
  assert (0 <= start / 4096) by (apply Z.div_pos; lia).
  destruct (bitmap_set_spec c1 (start / 4096 + Z.of_nat n) Hc1) as (old & c2 & _ & E2 & Hc2 & Hlen2 & Hget2).
  { unfold bitmap_len in *. rewrite Hlen. lia. }
  rewrite Ei, E2. exists c2. split; [done|]. split; [done|]. split; [by rewrite Hlen2|].
  intros k Hk. rewrite Hget2, Hget by done.
  destruct (Z.eqb_spec k (start / 4096 + Z.of_nat n)), (Z.leb_spec (start / 4096) k),
    (Z.ltb_spec k (start / 4096 + Z.of_nat n)), (Z.ltb_spec k (start / 4096 + Z.of_nat (S n)));
    try done; lia.
Qed.

Section boot.
Context {M : Type} `{RangeMapLaws M Entry}.
Implicit Types m : Mem32 M.

Lemma clean_phys_frame_range_spec m start stop :
  meta_ok (metadata m) -> words_ok (frame_is_clean m) -> bitmap_len (frame_is_clean m) = 2 ^ 20 ->
  0 <= start <= stop -> stop <= 2 ^ 32 -> start mod 4096 = 0 -> stop mod 4096 = 0 ->
  exists b c, clean_phys_frame_range m start stop = Some (cleaned m c b)
  /\ meta_ok b /\ (forall p, page_ok p -> entries b p = Z.lor (entries (metadata m) p) 2)
  /\ words_ok c /\ bitmap_len c = 2 ^ 20
  /\ forall k, 0 <= k -> bitmap_get c k
       = if (start / 4096 <=? k) && (k <? stop / 4096) then Some true else bitmap_get (frame_is_clean m) k.
Proof.
  intros Hm Hc Hlen Hss Hst Ha1 Ha2. unfold clean_phys_frame_range.
  rewrite Ha1, Ha2. cbn [Z.eqb andb assert mbind option_bind].
  assert (start / 4096 + Z.of_nat (Z.to_nat ((stop - start) / 4096)) = stop / 4096) as Hn
    by (rewrite Z2Nat.id; Z.to_euclidean_division_equations; lia).
  destruct (clean_frames_spec (frame_is_clean m) start (Z.to_nat ((stop - start) / 4096)) Hc)
    as (c & E & Hc' & Hlen' & Hget); [lia|done| |].
  { rewrite Hn, Hlen. Z.to_euclidean_division_equations; lia. }
  rewrite E. cbn [mbind option_bind].
  destruct (trap_all_writes_spec (with_clean m c) Hm) as (b & Eb & Hb & Hent).
  exists b, c. split; [exact Eb|]. split; [done|]. split; [exact Hent|]. split; [done|].
  split; [unfold bitmap_len in *; by rewrite Hlen'|]. intros k Hk. by rewrite Hget, Hn.
Qed.

Lemma bitmap_get_ones n k :
  0 <= k < 64 * Z.of_nat n -> bitmap_get (replicate n (Z.ones 64)) k = Some true.
Proof.
  intros Hk. unfold bitmap_get, arr_get.
  rewrite (proj2 (Z.ltb_ge (k / 64) 0)) by (apply Z.div_pos; lia).
  rewrite lookup_replicate_2 by (Z.to_euclidean_division_equations; lia).
  cbn [mbind option_bind]. unfold bit. rewrite Z.ones_spec_low; [done|].
  pose proof (Z.mod_pos_bound k 64). lia.
Qed.

(** The memory of a machine that was just switched on. *)
Definition fresh (b : Z -> Z -> Z) (len : Z -> Z) (pm : Z) m : Prop :=
  shm_bytes m = b /\ shm_len m = len /\ physical_memory m = pm
  /\ (forall p, phys_pages m p = if (0 <=? p) && (p <? len pm / 4096) then Some (pm, 4096 * p) else None)
  /\ (forall p, logical_pages m p = None) /\ (forall p, current_mappings m p = None)
  /\ meta_ok (metadata m) /\ (forall p, page_ok p -> entries (metadata m) p = 0xff)
  /\ words_ok (frame_is_clean m) /\ bitmap_len (frame_is_clean m) = 2 ^ 20
  /\ (forall f, 0 <= f < 2 ^ 32 -> phys_frame_is_dirty m f = Some false)
  /\ (forall a, rm_get (phys_map m) a = None)
  /\ regs m = {| page_table_addr := 0; a20_enabled := false; system_write_protect := false;
                 page_size_extension := false; physical_address_extension := false;
                 paging_enabled := false |}.

Lemma mem_new_fresh b len pm :
  0 < len pm <= 2 ^ 32 -> len pm mod 4096 = 0 -> exists m, mem_new b len pm = Some m /\ fresh b len pm m.
Proof.
  intros Hlen Hal. unfold mem_new, new_all_ones, map_physical_memory_to_default, area_aligned, remove_map.
  rewrite (proj2 (Z.eqb_eq (0x100000 mod 64) 0)) by done. cbn [assert mbind option_bind phys_map].
  change 0xfff with (Z.ones 12). rewrite !Z.land_ones by lia. change (2 ^ 12) with 4096. rewrite Hal.
  rewrite (proj2 (Z.ltb_lt 0 (len pm))) by lia. cbn [assert mbind option_bind Z.modulo Z.eqb].
  set (c0 := replicate _ _). set (m0 := map_physical _ _ _ _ _ _).
  assert (c0 = replicate (Z.to_nat 16384) (Z.ones 64)) as Ec0 by done.
  destruct (all_clean (Z.to_nat 16384)) as [Hw0 Hl0]. rewrite <- Ec0 in Hw0, Hl0.
  destruct (clean_phys_frame_range_spec m0 0 (len pm)) as (b1 & c & E & Hb1 & _ & Hc & Hlc & Hget);
    [apply meta_initialize_ok|exact Hw0|exact Hl0|lia|lia|done|done|].
  rewrite E. cbn [mbind option_bind]. unfold invalidate_all_pages.
  destruct (meta_clear_spec b1 Hb1) as (b2 & Eb2 & Hb2 & Hent). cbn [metadata cleaned with_metadata].
  rewrite Eb2. eexists. split; [reflexivity|].
  assert (forall a, rm_get (rm_remove 0 (len pm) rm_new) a = None) as Hrm.
  { intros a. assert (snd <$> rm_get (rm_remove 0 (len pm) rm_new) a = None (A := Entry)) as Ha.
    { rewrite rm_get_remove by lia. case_match; [done|]. by rewrite rm_get_new. }
    by destruct (rm_get (rm_remove 0 (len pm) rm_new) a). }
  do 3 (split; [reflexivity|]). split; [|split; [reflexivity|split; [reflexivity|]]].
  { intros p. cbn. rewrite Z.div_0_l by lia. by rewrite Z.sub_0_r. }
  split; [exact Hb2|]. split; [exact Hent|]. split; [exact Hc|]. split; [exact Hlc|].
  split; [|split; [exact Hrm|reflexivity]].
  intros f Hf. unfold phys_frame_is_dirty. pose proof (frame_index f Hf) as Hi.
  cbn [frame_is_clean with_metadata cleaned with_clean]. rewrite Hget by lia.
  case_match; [done|]. cbn [m0 map_physical frame_is_clean].
  rewrite Ec0, bitmap_get_ones; [done|]. change (64 * Z.of_nat (Z.to_nat 16384)) with (2 ^ 20). lia.
Qed.

(** C34: A machine whose RAM is at most 4 GiB and made of whole pages starts with
    the contents of its RAM, all frames clean, and becomes coherent once the
    A20 line and the write protection of CR0 are on. *)
Theorem new_memory_coherent (b : Z -> Z -> Z) (len : Z -> Z) (pm : Z) :
  bytes_ok b -> 0 < len pm <= 2 ^ 32 -> len pm mod 4096 = 0 ->
  exists m m', mem_new b len pm = Some m
  /\ (forall f, 0 <= f < 2 ^ 32 -> phys_frame_is_dirty m f = Some false)
  /\ set_a20_line (set_system_write_protect m true) true = Some m'
  /\ coherent m' /\ shm_bytes m' = b /\ paging_enabled (regs m') = false.
Proof.
  intros Hb Hlen Hal. destruct (mem_new_fresh b len pm Hlen Hal) as (m & E & Hf).
  destruct Hf as (F1 & F2 & F3 & F4 & F5 & F6 & F7 & F8 & F9 & F10 & F11 & F12 & F13).
  exists m. unfold set_a20_line, invalidate_all_pages. cbn [metadata with_regs set_system_write_protect].
  destruct (meta_clear_spec (metadata m) F7) as (b2 & Eb2 & Hb2 & Hent). rewrite Eb2.
  eexists. split; [exact E|]. split; [exact F11|]. split; [reflexivity|].
  split; [|split; [exact F1|cbn; by rewrite F13]].
  apply trapping_coherent; [|exact Hent]. split; [|exact Hb2|by split|reflexivity| |done].
  - split; [cbn; by rewrite F1|]. intros p s o. cbn. rewrite F4. case_match; [|done].
    intros Eo. injection Eo as <- <-. by rewrite Z.mul_comm, Z.mod_mul.
  - split; [exact F12|]. split; [reflexivity|]. cbn. rewrite F2, F3. lia.
Qed.

(** A snapshot that is restored brings back the RAM, whatever was written in
    between, and touches no other object. *)
Theorem snapshot_restore m b :
  0 <= shm_len m (physical_memory m) ->
  exists m', restore (with_bytes m b) (snapshot m) = Some m'
  /\ forall s o, shm_bytes m' s o
       = if (s =? physical_memory m) && (0 <=? o) && (o <? shm_len m (physical_memory m))
         then shm_bytes m s o else b s o.
Proof.
  intros Hlen. unfold restore, snapshot. cbn [shm_len physical_memory with_bytes].
  rewrite length_fmap, length_seqZ, Z2Nat.id by done. rewrite Z.eqb_refl.
  eexists. split; [reflexivity|]. intros s o. cbn.
  destruct (Z.eqb_spec s (physical_memory m)) as [->|]; [|done]. cbn [andb].
  destruct (Z.leb_spec 0 o); [|done]. destruct (Z.ltb_spec o (shm_len m (physical_memory m))); [|done].
  cbn [andb]. rewrite list_lookup_fmap, lookup_seqZ_lt by lia. cbn. by rewrite Z2Nat.id by done.
Qed.

End boot.

Lemma new_memory_coherent_witness :
  exists m m', mem_new (M := ranges Entry) (fun _ _ => 7) (fun _ => 0x100000) 0 = Some m
  /\ set_a20_line (set_system_write_protect m true) true = Some m'
  /\ coherent m' /\ shm_bytes m' 0 0x1234 = 7.
Proof.
  destruct (new_memory_coherent (M := ranges Entry) (fun _ _ => 7) (fun _ => 0x100000) 0)
    as (m & m' & E & _ & E' & Hc & Hb & _); [unfold bytes_ok, inw; lia|lia|reflexivity|].
  exists m, m'. exact (conj E (conj E' (conj Hc (f_equal (fun b => b 0 0x1234) Hb)))).
Defined.

Lemma snapshot_restore_witness :
  exists m', restore (with_bytes ram_mem (fun _ _ => 0)) (snapshot ram_mem) = Some m'
  /\ shm_bytes m' 0 0x100d = 0x20 /\ shm_bytes m' 1 0x100d = 0.
Proof.
  destruct (snapshot_restore ram_mem (fun _ _ => 0) ltac:(done)) as (m' & E & Hb).
  exists m'. exact (conj E (conj (Hb 0 0x100d) (Hb 1 0x100d))).
Defined.

(** ** Where a write over two pages goes

    A device that remembers the writes it received. *)
Definition WriteLog : Type := list (Z * Z * Z).
#[local] Instance log_mmio M : Mmio M WriteLog := {
  read_mem n _ _ x := Some (0, x);
  write_mem n id address val x := Some (x ++ [(id, address, val)]);
  notify_memory_dirty _ _ x := Some x;
  advise_memory_dirty _ _ x := Some (DirtyOk, x);
  notify_dirty _ _ x := Some x;
}.

(** RAM without paging, with the device 9 in the page at 0x4000. *)
Definition device_mem : Mem32 (ranges Entry) :=
  {| shm_bytes := fun s o => if s =? 0 then 0x11 else 0x22; shm_len := fun _ => 0x10000;
     physical_memory := 0;
     phys_pages := fun p => if (0 <=? p) && (p <? 16) then Some (0, 4096 * p) else None;
     logical_pages := fun _ => None; current_mappings := fun _ => None;
     metadata := meta_initialize {| modified := []; entries := fun _ => 0 |};
     frame_is_clean := replicate (Z.to_nat 16384) (Z.ones 64);
     phys_map := [((0x4000, 0x5000), Some (MmioEntry 9))];
     regs := {| page_table_addr := 0; a20_enabled := true; system_write_protect := true;
                page_size_extension := false; physical_address_extension := false;
                paging_enabled := false |} |}.

Definition log_of {T E X} {S : Type} (x : option (result T E * (S * X))) : option X :=
  match x with Some (_, (_, l)) => Some l | None => None end.

(** The bytes of a write that fall on the second page are counted from the
    start of the write and not from the start of that page: the third and the
    fourth byte of a write to 0x3ffe belong to the offsets 0 and 1 of the
    device. *)
Lemma split_write_misplaces_second_page :
  log_of (write 4 0x3ffe false 0x44332211 (device_mem, [])) = Some [(9, 2, 0x33); (9, 3, 0x44)].
Proof. by vm_compute. Qed.

(** ** A page that moves to another object *)

Definition value_of {T E S} (x : option (result T E * S)) : option T :=
  match x with Some (Ok v, _) => Some v | _ => None end.
Definition mem_of {T E X} {S : Type} (x : option (result T E * (S * X))) : option S :=
  match x with Some (_, (m, _)) => Some m | None => None end.

(** After a read of the RAM at 0x3000, this page is given to the object 1 at
    the offset 0x3000.  The remembered offset is the same, so that the page is
    not mapped again, and the next read still returns the RAM; without the
    first read it returns the object's byte. *)
Lemma remapped_page_is_stale :
  (m ← mem_of (read 1 0x3000 false (device_mem, []));
   m ← map_physical_memory_to_shm m 0x3000 0x4000 1 None 0x3000 true;
   value_of (read 1 0x3000 false (m, []))) = Some 0x11
  /\ (m ← map_physical_memory_to_shm device_mem 0x3000 0x4000 1 None 0x3000 true;
      value_of (read 1 0x3000 false (m, []))) = Some 0x22.
Proof. split; by vm_compute. Qed.
