(* ===== verification/Ports.v ===== *)
(** * Port accesses of every width

    The widths of [sem86-core/src/hw/ports.rs] ([PortIoData]) and the way
    [Hw::read_port_u16] and its siblings of [sem86-core/src/hw/mod.rs] split an
    access that the device does not take whole.  The devices themselves are
    the interface [PortSpace]: [Hw::read_port] and [Hw::write_port]. *)
From S2P Require Import Prelude.

Open Scope comp_scope.

Inductive PortError : Type := MustSplit.

(** ** [PortIoData]

    A width is its number of bytes: 1, 2 or 4.  The outer option is a panic:
    a shift of the value by its width or more. *)
Definition no_device (size : Z) : Z := Z.ones (8 * size).

Definition require_u8 (size val : Z) : result Z PortError := if size =? 1 then Ok val else Err MustSplit.

Definition from_u8 (size v : Z) : result Z PortError := if size =? 1 then Ok v else Err MustSplit.

Definition from_u16 (size offset v : Z) : option (result Z PortError) :=
  if size =? 1 then assert (offset * 8 <? 16);; Some (Ok (wrap 8 (Z.shiftr v (offset * 8))))
  else if size =? 2 then Some (Ok v)
  else Some (Err MustSplit).

Definition from_u32 (size offset v : Z) : option (result Z PortError) :=
  if size =? 1 then assert (offset * 8 <? 32);; Some (Ok (wrap 8 (Z.shiftr v (offset * 8))))
  else if size =? 2 then
    if 2 <? offset then Some (Err MustSplit)
    else Some (Ok (wrap 16 (Z.shiftr v (offset * 8))))
  else Some (Ok v).

(** The mask is shifted as an [i32] literal is, to 32 bits. *)
Definition blend_into_u32 (size offset val old_val : Z) : option Z :=
  if size =? 4 then Some val
  else
    let shift := offset * 8 in
    assert (shift <? 32);;
    let mask := wrap 32 (Z.shiftl (Z.ones (8 * size)) shift) in
    Some (Z.lor (Z.land old_val (unot 32 mask)) (wrap 32 (Z.shiftl val shift))).

(** [bytes[..SIZE]] *)
Definition from_le_slice (size : Z) (bytes : list Z) : option (result Z PortError) :=
  assert (size <=? Z.of_nat (length bytes));; Some (Ok (from_le_bytes (take (Z.to_nat size) bytes))).

(** ** Splitting accesses *)

Class PortSpace (W : Type) := {
  read_port (size port : Z) : comp W PortError Z;
  write_port (size port val : Z) : comp W PortError unit;
}.

Section split.
Context {W : Type} `{PortSpace W}.

(** [unwrap], and [if let Ok(x) = m { x } else { k }]. *)
Definition or_panic {E T} (m : comp W PortError T) : comp W E T := fun s =>
  match m s with Some (Ok x, s) => Some (Ok x, s) | _ => None end.
Definition or_split {E T U} (m : comp W PortError T) (f : T -> comp W E U) (k : comp W E U) : comp W E U := fun s =>
  match m s with
  | Some (Ok x, s) => f x s
  | Some (Err _, s) => k s
  | None => None
  end.
(** [port + n] in [u16] *)
Definition next_port {E} (port n : Z) : comp W E Z := clift (assert (port + n <? 2 ^ 16);; Some (port + n)).

Context {E : Type}.

Definition read_port_u8 (port : Z) : comp W E Z := or_panic (read_port 1 port).

Definition read_port_u16 (port : Z) : comp W E Z :=
  or_split (read_port 2 port) cret
    (lo <-! read_port_u8 port;;
     p <-! next_port port 1;;
     hi <-! read_port_u8 p;;
     cret (Z.lor lo (Z.shiftl hi 8))).

Definition read_port_u32 (port : Z) : comp W E Z :=
  or_split (read_port 4 port) cret
    (or_split (read_port 2 port)
       (fun lo =>
          p <-! next_port port 1;;
          hi <-! read_port_u16 p;;
          cret (Z.lor lo (Z.shiftl hi 16)))
       (b0 <-! read_port_u8 port;;
        p1 <-! next_port port 1;;
        b1 <-! read_port_u8 p1;;
        p2 <-! next_port port 2;;
        b2 <-! read_port_u8 p2;;
        p3 <-! next_port port 3;;
        b3 <-! read_port_u8 p3;;
        cret (Z.lor (Z.lor (Z.lor b0 (Z.shiftl b1 8)) (Z.shiftl b2 16)) (Z.shiftl b3 24)))).

Definition write_port_u8 (port val : Z) : comp W E unit := or_panic (write_port 1 port val).

Definition write_port_u16 (port val : Z) : comp W E unit :=
  or_split (write_port 2 port val) cret
    (write_port_u8 port (wrap 8 val) >>!
     p <-! next_port port 1;;
     write_port_u8 p (wrap 8 (Z.shiftr val 8))).

Definition write_port_u32 (port val : Z) : comp W E unit :=
  or_split (write_port 4 port val) cret
    (or_split (write_port 2 port (wrap 16 val))
       (fun _ =>
          p <-! next_port port 1;;
          write_port_u16 p (wrap 16 (Z.shiftr val 16)))
       (write_port_u8 port (wrap 8 val) >>!
        p1 <-! next_port port 1;;
        write_port_u8 p1 (wrap 8 (Z.shiftr val 8)) >>!
        p2 <-! next_port port 2;;
        write_port_u8 p2 (wrap 8 (Z.shiftr val 16)) >>!
        p3 <-! next_port port 3;;
        write_port_u8 p3 (wrap 8 (Z.shiftr val 24)))).
End split.

(** ** Reading back what was written *)

Definition width (size : Z) : Prop := size = 1 \/ size = 2 \/ size = 4.

(** A part of a 32-bit register reads back as it was written, and the other
    bytes of the register keep their value. *)
Lemma blend_read_back size offset val old new :
  width size -> 0 <= offset -> offset + size <= 4 -> inw (8 * size) val -> inw 32 old ->
  blend_into_u32 size offset val old = Some new ->
  inw 32 new /\ from_u32 size offset new = Some (Ok val)
  /\ forall i, 0 <= i < 32 -> i < 8 * offset \/ 8 * (offset + size) <= i -> Z.testbit new i = Z.testbit old i.
Proof.
  intros Hsize Ho Hos Hval Hold Hb. unfold blend_into_u32, from_u32 in *.
  destruct (Z.eqb_spec size 4) as [->|Hne].
  { assert (offset = 0) as -> by lia. inv_opt. split; [done|]. split; [done|]. intros i. lia. }
  assert (exists n, n = 8 * size /\ (n = 8 \/ n = 16)) as (n & En & Hn) by (exists (8 * size); destruct Hsize as [->|[->| ->]]; lia).
  rewrite (proj2 (Z.ltb_lt (offset * 8) 32)) in Hb |- * by lia. rewrite <- En in *. simpl in Hb.
  injection Hb as <-.
  split; [|split].
  - apply inw_lor; [lia| |by apply wrap_inw]. apply inw_land; [lia|done|]. apply unot_inw; [lia|by apply wrap_inw].
  - destruct Hsize as [->|[->|]]; [| |lia]; simpl; subst n.
    + do 2 f_equal. bitblast.
    + rewrite (proj2 (Z.ltb_ge 2 offset)) by lia. do 2 f_equal. bitblast.
  - intros i Hi Hout. autorewrite with zbits. split_compares; bits_finish.
Qed.

(** ** Splitting *)

Section devices.
Context {E : Type}.

(** Byte-wide registers [f], without side effects. *)
Lemma byte_ports_read_u32 (f : Z -> Z) (port : Z) :
  0 <= port -> port + 3 < 2 ^ 16 ->
  let space := {| read_port size p := if size =? 1 then cret (f p) else cerr MustSplit;
                  write_port _ _ _ := cret tt |} : PortSpace unit in
  read_port_u32 (E := E) port tt
  = Some (Ok (Z.lor (Z.lor (Z.lor (f port) (Z.shiftl (f (port + 1)) 8)) (Z.shiftl (f (port + 2)) 16))
                (Z.shiftl (f (port + 3)) 24)), tt).
Proof.
  intros Hp H3 space. unfold read_port_u32, or_split, read_port_u8, or_panic, next_port, cbind. simpl.
  by rewrite (proj2 (Z.ltb_lt (port + 1) (2 ^ 16))), (proj2 (Z.ltb_lt (port + 2) (2 ^ 16))),
    (proj2 (Z.ltb_lt (port + 3) (2 ^ 16))) by lia.
Qed.

(** Word-wide registers: the upper half of a doubleword comes from the next
    port and not from the one two further. *)
Lemma word_ports_overlap (f : Z -> Z) (port : Z) :
  0 <= port -> port + 1 < 2 ^ 16 ->
  let space := {| read_port size p := if size =? 4 then cerr MustSplit else cret (f p);
                  write_port _ _ _ := cret tt |} : PortSpace unit in
  read_port_u32 (E := E) port tt = Some (Ok (Z.lor (f port) (Z.shiftl (f (port + 1)) 16)), tt).
Proof.
  intros Hp H1 space. unfold read_port_u32, read_port_u16, or_split, next_port, cbind. simpl.
  by rewrite (proj2 (Z.ltb_lt (port + 1) (2 ^ 16))) by lia.
Qed.

End devices.
