(* ===== verification/Descriptors.v ===== *)
(** * Segment descriptors and selectors

    The bit layouts of [sem86-core/src/system.rs]: control registers, segment
    selectors, descriptors and gates, a Module per structure.  A [bilge]
    structure is the integer it wraps; its accessors are bit fields, the first
    field in the lowest bits. *)
From S2P Require Import Prelude.

(** ** Control registers *)

Module Cr0.
Definition protected_mode (v : Z) : bool := flag 0 v.
Definition monitor_coprocessor (v : Z) : bool := flag 1 v.
Definition fpu_emulation (v : Z) : bool := flag 2 v.
Definition task_switched (v : Z) : bool := flag 3 v.
Definition extension_type (v : Z) : bool := flag 4 v.
Definition generate_x87_exceptions (v : Z) : bool := flag 5 v.
Definition write_protect (v : Z) : bool := flag 16 v.
Definition alignment_mask (v : Z) : bool := flag 18 v.
Definition not_write_through (v : Z) : bool := flag 29 v.
Definition cache_disable (v : Z) : bool := flag 30 v.
Definition paging (v : Z) : bool := flag 31 v.
End Cr0.

Module Cr4.
Definition virtual_8086_mode_extensions (v : Z) : bool := flag 0 v.
Definition protected_mode_virtual_interrupts (v : Z) : bool := flag 1 v.
Definition time_stamp_disabled (v : Z) : bool := flag 2 v.
Definition debugging_extensions (v : Z) : bool := flag 3 v.
Definition page_size_extension (v : Z) : bool := flag 4 v.
Definition physical_address_extension (v : Z) : bool := flag 5 v.
Definition machine_check_exception (v : Z) : bool := flag 6 v.
Definition page_global_enabled (v : Z) : bool := flag 7 v.
End Cr4.

(** ** Kinds of descriptors *)

Module CodeOrData.
Definition accessed (i : Z) : bool := flag 0 i.
Definition rw (i : Z) : bool := flag 1 i.
Definition direction_or_conforming (i : Z) : bool := flag 2 i.
Definition executable (i : Z) : bool := flag 3 i.
Definition set_accessed (v : bool) (i : Z) : Z := set_flag 0 v i.
Definition new (accessed rw direction_or_conforming executable : bool) : Z :=
  Z.lor (Z.lor (Z.lor (b2z accessed) (Z.shiftl (b2z rw) 1)) (Z.shiftl (b2z direction_or_conforming) 2))
    (Z.shiftl (b2z executable) 3).
End CodeOrData.

Module DescriptorType.
Inductive t : Type :=
| AvailableTss16 | Ldt | BusyTss16 | CallGate16 | TaskGate | InterruptGate16 | TrapGate16
| AvailableTss32 | BusyTss32 | CallGate32 | InterruptGate32 | TrapGate32
| Reserved (n : Z).

Definition from (n : Z) : t :=
  match n with
  | 0x1 => AvailableTss16 | 0x2 => Ldt | 0x3 => BusyTss16 | 0x4 => CallGate16 | 0x5 => TaskGate
  | 0x6 => InterruptGate16 | 0x7 => TrapGate16 | 0x9 => AvailableTss32 | 0xb => BusyTss32
  | 0xc => CallGate32 | 0xe => InterruptGate32 | 0xf => TrapGate32 | n => Reserved n
  end.
Definition into (x : t) : Z :=
  match x with
  | AvailableTss16 => 0x1 | Ldt => 0x2 | BusyTss16 => 0x3 | CallGate16 => 0x4 | TaskGate => 0x5
  | InterruptGate16 => 0x6 | TrapGate16 => 0x7 | AvailableTss32 => 0x9 | BusyTss32 => 0xb
  | CallGate32 => 0xc | InterruptGate32 => 0xe | TrapGate32 => 0xf | Reserved n => n
  end.

Lemma into_from n : into (from n) = n.
Proof. unfold from. repeat (case_match; try done). Qed.
End DescriptorType.

Inductive DescriptorInfo : Type :=
| CodeOrDataInfo (info : Z)
| SystemSegment (t : DescriptorType.t).
Definition info_into (i : DescriptorInfo) : Z :=
  match i with CodeOrDataInfo info => info | SystemSegment t => DescriptorType.into t end.

Module SegmentAccessByte.
Definition low (b : Z) : Z := field 0 4 b.
Definition is_code_or_data (b : Z) : bool := flag 4 b.
Definition dpl (b : Z) : Z := field 5 2 b.
Definition present (b : Z) : bool := flag 7 b.
Definition new (low : Z) (is_code_or_data : bool) (dpl : Z) (present : bool) : Z :=
  Z.lor (Z.lor (Z.lor low (Z.shiftl (b2z is_code_or_data) 4)) (Z.shiftl dpl 5)) (Z.shiftl (b2z present) 7).

Definition data (b : Z) : DescriptorInfo :=
  if is_code_or_data b then CodeOrDataInfo (low b) else SystemSegment (DescriptorType.from (low b)).
Definition expands_down (b : Z) : bool :=
  match data b with
  | CodeOrDataInfo info => negb (CodeOrData.executable info) && CodeOrData.direction_or_conforming info
  | SystemSegment _ => false
  end.
Definition set_info (b : Z) (i : DescriptorInfo) : Z := set_field 0 4 (info_into i) b.
End SegmentAccessByte.

Module SegmentSelector.
Definition rpl (s : Z) : Z := field 0 2 s.
Definition is_local (s : Z) : bool := flag 2 s.
Definition segment_index (s : Z) : Z := field 3 13 s.
Definition is_null (s : Z) : bool := segment_index s =? 0.
End SegmentSelector.

Inductive Db : Type := Protected16 | Protected32.
Inductive Granularity : Type := GByte | GPage.
Definition db_num_bytes (d : Db) : Z := match d with Protected16 => 2 | Protected32 => 4 end.

Module DescriptorFlags.
Definition avl (f : Z) : Z := field 0 1 f.
Definition long_mode_code (f : Z) : bool := flag 1 f.
Definition size (f : Z) : Db := if flag 2 f then Protected32 else Protected16.
Definition granularity (f : Z) : Granularity := if flag 3 f then GPage else GByte.
Definition new (avl : Z) (long_mode_code : bool) (size : Db) (g : Granularity) : Z :=
  Z.lor (Z.lor (Z.lor avl (Z.shiftl (b2z long_mode_code) 1))
           (Z.shiftl (match size with Protected32 => 1 | Protected16 => 0 end) 2))
    (Z.shiftl (match g with GPage => 1 | GByte => 0 end) 3).
End DescriptorFlags.

(** ** Descriptors *)

Module Descriptor.
Definition limit_low (d : Z) : Z := field 0 16 d.
Definition base_low (d : Z) : Z := field 16 24 d.
Definition access_byte (d : Z) : Z := field 40 8 d.
Definition limit_high (d : Z) : Z := field 48 4 d.
Definition flags (d : Z) : Z := field 52 4 d.
Definition base_high (d : Z) : Z := field 56 8 d.
Definition new (limit_low base_low access_byte limit_high flags base_high : Z) : Z :=
  Z.lor (Z.lor (Z.lor (Z.lor (Z.lor limit_low (Z.shiftl base_low 16)) (Z.shiftl access_byte 40))
    (Z.shiftl limit_high 48)) (Z.shiftl flags 52)) (Z.shiftl base_high 56).
Definition set_access_byte (d b : Z) : Z := set_field 40 8 b d.

Definition offset (d : Z) : Z := Z.lor (limit_low d) (Z.land (Z.shiftr d 32) 0xffff0000).
Definition base (d : Z) : Z := Z.lor (base_low d) (Z.shiftl (base_high d) 24).
Definition limit (d : Z) : Z := Z.lor (limit_low d) (Z.shiftl (limit_high d) 16).
Definition effective_limit (d : Z) : Z :=
  match DescriptorFlags.granularity (flags d) with
  | GByte => limit d
  | GPage => Z.lor (wrap 32 (Z.shiftl (limit d) 12)) 0xfff
  end.
Definition effective_limit_taking_direction_into_account (d : Z) : Z :=
  if SegmentAccessByte.expands_down (access_byte d) then 2 ^ 32 - 1 - effective_limit d
  else effective_limit d.
Definition segment_selector (d : Z) : Z := wrap 16 (base_low d).

Definition flat_data (size : Db) : Z :=
  let info := CodeOrDataInfo (CodeOrData.new false true false false) in
  let access_byte := SegmentAccessByte.new (info_into info) true 0 true in
  let flags := DescriptorFlags.new 0 false size GPage in
  new 0xffff 0 access_byte 0xf flags 0.
Definition from_real_mode_selector (selector : Z) : Z :=
  let info := CodeOrDataInfo (CodeOrData.new false false false false) in
  let access_byte := SegmentAccessByte.new (info_into info) true 0 true in
  let flags := DescriptorFlags.new 0 false Protected16 GByte in
  new 0xffff (selector * 16) access_byte 0 flags 0.
End Descriptor.

Module CachedDescriptorAccessRights.
Definition from (desc : Z) : Z :=
  let effective_start :=
    wrap 32 (Descriptor.base desc
             + (if SegmentAccessByte.expands_down (Descriptor.access_byte desc)
                then wrap 32 (Descriptor.effective_limit desc + 1) else 0)) in
  Z.lor (Z.land (Z.shiftr desc 32) 0x00ffff00) (Z.shiftl effective_start 32).
Definition segment_type (a : Z) : Z := field 8 4 a.
Definition is_code_or_data (a : Z) : bool := flag 12 a.
Definition dpl (a : Z) : Z := field 13 2 a.
Definition present (a : Z) : bool := flag 15 a.
Definition flags (a : Z) : Z := field 20 4 a.
Definition effective_start (a : Z) : Z := field 32 32 a.
End CachedDescriptorAccessRights.

(** ** Gates *)

Module GateType.
Inductive t : Type :=
| TaskGate | InterruptGate16 | TrapGate16 | InterruptGate32 | TrapGate32 | Invalid (n : Z).
Definition from (n : Z) : t :=
  match n with
  | 0x5 => TaskGate | 0x6 => InterruptGate16 | 0x7 => TrapGate16
  | 0xe => InterruptGate32 | 0xf => TrapGate32 | n => Invalid n
  end.
Definition is_interrupt_gate (x : t) : bool :=
  match x with InterruptGate16 | InterruptGate32 => true | _ => false end.
Definition is_trap_gate (x : t) : bool := match x with TrapGate16 | TrapGate32 => true | _ => false end.
End GateType.

Module GateDescriptor.
Definition segment_selector (g : Z) : Z := field 16 16 g.
Definition gate_type (g : Z) : GateType.t := GateType.from (field 40 4 g).
Definition dpl (g : Z) : Z := field 45 2 g.
Definition present (g : Z) : bool := flag 47 g.
Definition offset (g : Z) : Z := Z.lor (field 0 16 g) (Z.shiftl (field 48 16 g) 16).
End GateDescriptor.

(** ** The layouts *)

Lemma descriptor_new_fields ll bl ab lh fl bh :
  inw 16 ll -> inw 24 bl -> inw 8 ab -> inw 4 lh -> inw 4 fl -> inw 8 bh ->
  let d := Descriptor.new ll bl ab lh fl bh in
  Descriptor.limit_low d = ll /\ Descriptor.base_low d = bl /\ Descriptor.access_byte d = ab
  /\ Descriptor.limit_high d = lh /\ Descriptor.flags d = fl /\ Descriptor.base_high d = bh.
Proof.
  intros ? ? ? ? ? ? d. subst d. unfold Descriptor.limit_low, Descriptor.base_low, Descriptor.access_byte,
    Descriptor.limit_high, Descriptor.flags, Descriptor.base_high, Descriptor.new.
  repeat split; bitblast.
Qed.

Lemma base_inw d : inw 32 (Descriptor.base d).
Proof.
  unfold Descriptor.base, Descriptor.base_low, Descriptor.base_high. apply inw_testbit; [lia| |].
  - apply Z.lor_nonneg. unfold field. rewrite !Z.land_ones by lia. split; [apply Z.mod_pos_bound; lia|].
    apply Z.shiftl_nonneg, Z.mod_pos_bound. lia.
  - intros i Hi. unfold field. autorewrite with zbits. split_compares; bits_finish.
Qed.

(** A real-mode selector: 64 KiB from sixteen times the selector. *)
Lemma real_mode_descriptor sel :
  inw 16 sel ->
  let d := Descriptor.from_real_mode_selector sel in
  Descriptor.base d = sel * 16 /\ Descriptor.effective_limit_taking_direction_into_account d = 0xffff
  /\ SegmentAccessByte.expands_down (Descriptor.access_byte d) = false.
Proof.
  intros Hs d. assert (inw 24 (sel * 16)) as Hb by (unfold inw in *; lia).
  assert (Descriptor.limit_low d = 0xffff /\ Descriptor.base_low d = sel * 16
    /\ Descriptor.access_byte d = 0x90 /\ Descriptor.limit_high d = 0
    /\ Descriptor.flags d = 0 /\ Descriptor.base_high d = 0) as (E1 & E2 & E3 & E4 & E5 & E6).
  { apply (descriptor_new_fields 0xffff (sel * 16) 0x90 0 0 0); try done; unfold inw; lia. }
  unfold Descriptor.base, Descriptor.effective_limit_taking_direction_into_account,
    Descriptor.effective_limit, Descriptor.limit.
  rewrite E1, E2, E3, E4, E5, E6. split; [by rewrite Z.shiftl_0_l, Z.lor_0_r|]. split; done.
Qed.

(** Marking a descriptor as accessed sets one bit, in its sixth byte. *)
Lemma mark_accessed_bit d info :
  SegmentAccessByte.data (Descriptor.access_byte d) = CodeOrDataInfo info ->
  Descriptor.set_access_byte d
    (SegmentAccessByte.set_info (Descriptor.access_byte d) (CodeOrDataInfo (CodeOrData.set_accessed true info)))
  = Z.setbit d 40.
Proof.
  intros Hd. unfold SegmentAccessByte.data in Hd. case_match; [|done]. injection Hd as <-.
  unfold Descriptor.set_access_byte, SegmentAccessByte.set_info, Descriptor.access_byte,
    SegmentAccessByte.low, CodeOrData.set_accessed, set_flag. simpl.
  apply Z.bits_inj'. intros i Hi. unfold set_field, field. autorewrite with zbits.
  split_compares; bits_finish.
Qed.

(** The part of a segment that expands down starts past its limit. *)
Lemma expand_down_start d :
  SegmentAccessByte.expands_down (Descriptor.access_byte d) = true ->
  wrap 32 (CachedDescriptorAccessRights.effective_start (CachedDescriptorAccessRights.from d)
           + Descriptor.effective_limit_taking_direction_into_account d) = Descriptor.base d.
Proof.
  intros He. unfold CachedDescriptorAccessRights.from, Descriptor.effective_limit_taking_direction_into_account.
  rewrite He. cbv zeta. set (e := Descriptor.effective_limit d). set (s := wrap 32 (Descriptor.base d + wrap 32 (e + 1))).
  assert (CachedDescriptorAccessRights.effective_start
    (Z.lor (Z.land (Z.shiftr d 32) 16776960) (Z.shiftl s 32)) = s) as ->.
  { assert (inw 32 s) as Hs by (by apply wrap_inw). unfold CachedDescriptorAccessRights.effective_start.
    apply Z.bits_inj'. intros i Hi. unfold field. autorewrite with zbits.
    rewrite (testbit_above 24 16776960) by (unfold inw; lia). split_compares; bits_finish. }
  unfold s. rewrite wrap_add_l, <- Z.add_assoc, <- wrap_add_r, wrap_add_l, wrap_add_r.
  replace (Descriptor.base d + (e + 1 + (2 ^ 32 - 1 - e))) with (Descriptor.base d + 1 * 2 ^ 32) by lia.
  unfold wrap. rewrite Z.mod_add by lia. apply Z.mod_small, base_inw.
Qed.
