(* ===== verification/Scc.v ===== *)
(** * Strongly connected components

    [StronglyConnectedComponents] of [sem86-core/src/codegen/components.rs]:
    Tarjan's algorithm with an explicit stack.  The code generator runs it on
    graphs without cycles and relies on the order in which nodes are reported:
    every node after its successors. *)
From S2P Require Import Prelude.

(** ** The algorithm *)

Record Info := { on_stack : bool; info_index : option Z; lowlink : Z }.

(** The stack has its top first; [sc_found] has the latest component first. *)
Record Scc := {
  sc_info : list Info;
  sc_stack : list nat;
  sc_index : Z;                      (* [u32] *)
  sc_found : list (list nat);
}.
Definition Frontier : Type := list (nat * list nat).

Section scc.
(** [Graph]: the number of nodes, and the transitions of a node. *)
Context (num_nodes : nat) (transitions : nat -> option (list nat)).

Definition with_info (s : Scc) (i : list Info) : Scc :=
  {| sc_info := i; sc_stack := sc_stack s; sc_index := sc_index s; sc_found := sc_found s |}.

Definition enter (w : nat) (s : Scc) (f : Frontier) : option (Scc * Frontier) :=
  _ ← sc_info s !! w;
  ts ← transitions w;
  assert (sc_index s + 1 <? 2 ^ 32);;
  Some ({| sc_info := <[w := {| on_stack := true; info_index := Some (sc_index s); lowlink := sc_index s |}]> (sc_info s);
           sc_stack := w :: sc_stack s; sc_index := sc_index s + 1; sc_found := sc_found s |},
        (w, ts) :: f).

Definition lower (v : nat) (n : Z) (info : list Info) : option (list Info) :=
  x ← info !! v;
  Some (<[v := {| on_stack := on_stack x; info_index := info_index x; lowlink := Z.min (lowlink x) n |}]> info).

(** The part of the stack from [v] on, oldest first. *)
Fixpoint split_stack (v : nat) (stack : list nat) : option (list nat * list nat) :=
  match stack with
  | [] => None
  | x :: stack =>
      if decide (x = v) then Some ([x], stack)
      else r ← split_stack v stack; Some (r.1 ++ [x], r.2)
  end.
Definition take_off_stack (info : list Info) (w : nat) : list Info :=
  alter (fun x => {| on_stack := false; info_index := info_index x; lowlink := lowlink x |}) w info.

(** The tail of a node: its component, if it is the first one of it. *)
Definition leave (v : nat) (s : Scc) : option Scc :=
  x ← sc_info s !! v;
  i ← info_index x;
  if lowlink x =? i then
    r ← split_stack v (sc_stack s);
    Some {| sc_info := foldl take_off_stack (sc_info s) r.1; sc_stack := r.2; sc_index := sc_index s; sc_found := r.1 :: sc_found s |}
  else Some s.

(** One turn of the inner loop. *)
Definition scc_step (s : Scc) (f : Frontier) : option (Scc * Frontier) :=
  match f with
  | [] => Some (s, f)
  | (v, w :: iter) :: rest =>
      x ← sc_info s !! w;
      match info_index x with
      | None => enter w s ((v, iter) :: rest)
      | Some w_index =>
          if on_stack x then info ← lower v w_index (sc_info s); Some (with_info s info, (v, iter) :: rest)
          else Some (s, (v, iter) :: rest)
      end
  | (v, []) :: rest =>
      s ← leave v s;
      match rest with
      | [] => Some (s, [])
      | (u, _) :: _ =>
          x ← sc_info s !! v;
          info ← lower u (lowlink x) (sc_info s);
          Some (with_info s info, rest)
      end
  end.

Fixpoint scc_run (fuel : nat) (s : Scc) (f : Frontier) : option Scc :=
  match f with
  | [] => Some s
  | _ => match fuel with O => None | S fuel => r ← scc_step s f; scc_run fuel r.1 r.2 end
  end.

Definition strong_connect_norec (fuel : nat) (v : nat) (s : Scc) : option Scc :=
  r ← enter v s []; scc_run fuel r.1 r.2.

Fixpoint from_roots (fuel : nat) (roots : list nat) (s : Scc) : option Scc :=
  match roots with
  | [] => Some s
  | root :: roots =>
      x ← sc_info s !! root;
      s ← (match info_index x with None => strong_connect_norec fuel root s | Some _ => Some s end);
      from_roots fuel roots s
  end.

Definition scc_new : Scc :=
  {| sc_info := replicate num_nodes {| on_stack := false; info_index := None; lowlink := 0 |};
     sc_stack := []; sc_index := 0; sc_found := [] |}.

(** The components in the order of the callbacks. *)
Definition iterate_with_roots (fuel : nat) (roots : list nat) : option (list (list nat)) :=
  s ← from_roots fuel roots scc_new; Some (reverse (sc_found s)).
Definition iterate (fuel : nat) : option (list (list nat)) := iterate_with_roots fuel (seq 0 num_nodes).

(** ** Graphs without cycles *)

Context (rank : nat -> nat).
(** [good] holds for the nodes that are reached. *)
Context (good : nat -> Prop) (Hgood : forall v, good v -> (v < num_nodes)%nat).
Context (Hdefined : forall v, good v -> is_Some (transitions v)).
Context (Hacyclic : forall v ts w, good v -> transitions v = Some ts -> w ∈ ts -> good w /\ (rank w < rank v)%nat).
Context (Hsize : Z.of_nat num_nodes < 2 ^ 32).

(** Every node comes after its successors; the list has the latest node first. *)
Fixpoint topological (l : list nat) : Prop :=
  match l with
  | [] => True
  | v :: l => (forall ts w, transitions v = Some ts -> w ∈ ts -> w ∈ l) /\ topological l
  end.

Definition index_of (s : Scc) (v : nat) : option Z := x ← sc_info s !! v; info_index x.

(** The nodes below [child] on the path from the root. *)
Fixpoint path_ok (s : Scc) (order : list nat) (child : option nat) (f : Frontier) : Prop :=
  match f with
  | [] => True
  | (v, iter) :: rest =>
      (exists visited : list nat, transitions v = Some (visited ++ iter) /\ (forall w, w ∈ visited -> w ∈ order \/ child = Some w)
        /\ (forall c, child = Some c -> c ∈ visited))
      /\ (forall c nc nv, child = Some c -> index_of s c = Some nc -> index_of s v = Some nv -> nv < nc)
      /\ path_ok s order (Some v) rest
  end.

Record scc_inv (s : Scc) (order : list nat) (f : Frontier) : Prop := {
  si_length : length (sc_info s) = num_nodes;
  si_stack : sc_stack s = f.*1;
  si_found : sc_found s = list_fmap _ _ (fun v => [v]) order;
  si_info : forall v x, sc_info s !! v = Some x ->
    (info_index x = None <-> (v ∉ sc_stack s) /\ (v ∉ order)) /\ (on_stack x = true <-> v ∈ sc_stack s)
    /\ (forall n, info_index x = Some n -> lowlink x = n /\ n < sc_index s);
  si_once : NoDup (sc_stack s ++ order);
  si_nodes : Forall good (sc_stack s ++ order);
  si_index : sc_index s = Z.of_nat (length (sc_stack s ++ order));
  si_order : topological order;
  si_path : path_ok s order None f;
}.

Lemma path_ok_mono s s' order order' child f :
  (forall v, v ∈ f.*1 -> index_of s' v = index_of s v) -> (forall c, child = Some c -> index_of s' c = index_of s c) ->
  (forall w, w ∈ order -> w ∈ order') -> path_ok s order child f -> path_ok s' order' child f.
Proof.
  revert child. induction f as [|[v iter] rest IH]; intros child Hv Hc Ho; [done|]. cbn [path_ok]. intros ((vis & Ht & Hvis & Hin) & Hidx & Hrest).
  assert (index_of s' v = index_of s v) as Ev by (apply Hv; by left). split; [|split].
  - exists vis. split; [done|]. split; [|done]. intros w Hw. destruct (Hvis w Hw); auto.
  - intros c nc nv Ec. rewrite (Hc c Ec), Ev. by apply Hidx.
  - apply IH; [|by intros c [= <-]|done|done]. intros u Hu. apply Hv. by right.
Qed.

(** Nodes on the path have higher ranks than those below. *)
Lemma path_rank s order c f u : Forall good f.*1 -> path_ok s order (Some c) f -> u ∈ f.*1 -> (rank c < rank u)%nat.
Proof.
  revert c. induction f as [|[v iter] rest IH]; intros c; [by intros _ _ ?%elem_of_nil|]. cbn [path_ok fmap list_fmap fst]. intros [Hv Hf]%list.Forall_cons.
  intros ((vis & Ht & _ & Hin) & _ & Hrest) Hu. destruct (Hacyclic v _ c Hv Ht) as [_ Hr]; [apply elem_of_app; left; by apply Hin|].
  apply elem_of_cons in Hu as [->|Hu]; [done|]. specialize (IH v Hf Hrest Hu). lia.
Qed.

(** The node on top is a new successor. *)
Lemma path_visit s order v w iter rest :
  w ∈ order -> path_ok s order None ((v, w :: iter) :: rest) -> path_ok s order None ((v, iter) :: rest).
Proof.
  intros Hw. cbn [path_ok]. intros ((vis & Ht & Hvis & _) & Hidx & Hrest). split; [|done].
  exists (vis ++ [w]). split; [by rewrite <- app_assoc|]. split; [|done]. intros x [Hx|Hx%list_elem_of_singleton]%elem_of_app; [auto|]. left. by subst.
Qed.

Lemma inv_visit s order v w iter rest :
  w ∈ order -> scc_inv s order ((v, w :: iter) :: rest) -> scc_inv s order ((v, iter) :: rest).
Proof. intros Hw [H1 H2 H3 H4 H5 H6 H7 H8 H9]. split; try done. by apply (path_visit s order v w). Qed.

Lemma index_lt n : Forall good n -> NoDup n -> Z.of_nat (length n) <= Z.of_nat num_nodes.
Proof.
  intros Hn Hnd. enough (length n <= length (seq 0 num_nodes))%nat by (rewrite length_seq in *; lia).
  apply submseteq_length, NoDup_submseteq; [done|]. intros v Hv. rewrite list.Forall_forall in Hn. apply elem_of_seq. specialize (Hgood v (Hn v Hv)). lia.
Qed.

Lemma index_of_info s w x : sc_info s !! w = Some x -> index_of s w = info_index x.
Proof. intros E. unfold index_of. by rewrite E. Qed.

(** A node that was not seen is entered. *)
Lemma inv_enter s order f0 f w x ts :
  scc_inv s order f0 -> f.*1 = f0.*1 -> sc_info s !! w = Some x -> info_index x = None -> transitions w = Some ts -> good w -> path_ok s order (Some w) f ->
  exists s', enter w s f = Some (s', (w, ts) :: f) /\ scc_inv s' order ((w, ts) :: f) /\ sc_stack s' = w :: sc_stack s.
Proof.
  intros [H1 H2 H3 H4 H5 H6 H7 H8 _] Ef Hw Hx Hts Hgw Hpath. rewrite <- Ef in H2. destruct (H4 w x Hw) as (Hseen & _ & _). apply Hseen in Hx as [Hns Hno].
  assert (w < num_nodes)%nat as Hlt by (rewrite <- H1; by apply lookup_lt_Some in Hw).
  assert (NoDup (w :: sc_stack s ++ order)) as Hnd by (constructor; [rewrite elem_of_app; tauto|done]).
  assert (Forall good (w :: sc_stack s ++ order)) as Hall by by constructor.
  pose proof (index_lt _ Hall Hnd) as Hcount. cbn [length] in Hcount.
  assert (sc_index s + 1 < 2 ^ 32) as Hidx by lia. unfold enter. rewrite Hw, Hts. cbn [mbind option_bind]. rewrite (proj2 (Z.ltb_lt _ _) Hidx).
  cbn [assert mbind option_bind]. eexists. split; [done|]. split; [|done].
  assert (forall v, v <> w -> <[w := {| on_stack := true; info_index := Some (sc_index s); lowlink := sc_index s |}]> (sc_info s) !! v = sc_info s !! v) as Hne
    by (intros v Hv; by apply list_lookup_insert_ne).
  split; cbn [sc_info sc_stack sc_index sc_found fmap list_fmap]; [by rewrite length_insert|by rewrite H2|done| |done|done| |done|].
  - intros v y Hy. destruct (decide (v = w)) as [->|Hv].
    + rewrite list_lookup_insert_eq in Hy by (by rewrite H1). injection Hy as <-. cbn. split; [split; [done|]; intros [Hv _]; destruct Hv; by left|].
      split; [split; [by left|done]|]. intros n [= <-]. split; [done|lia].
    + rewrite Hne in Hy by done. destruct (H4 v y Hy) as (A & B & C). split; [|split].
      * rewrite A, not_elem_of_cons. tauto.
      * rewrite B, elem_of_cons. tauto.
      * intros n Hn. destruct (C n Hn). split; [done|lia].
  - rewrite H7. cbn [app length]. lia.
  - cbn [path_ok]. split; [exists []; split; [done|]; split; [by intros ? ?%elem_of_nil|done]|]. split; [done|].
    destruct f as [|[v iter] rest]; [done|]. cbn [path_ok] in Hpath |- *. destruct Hpath as (Hvis & _ & Hrest). split; [done|].
    assert (forall u, u ∈ sc_stack s -> u <> w) as Hsw by (intros u Hu ->; done).
    assert (v ∈ sc_stack s) as Hv by (rewrite H2; by left). split.
    + intros c nc nv [= <-] Hc Hnv. unfold index_of in Hc, Hnv. cbn [sc_info] in Hc, Hnv. rewrite list_lookup_insert_eq in Hc by (by rewrite H1).
      injection Hc as <-. rewrite Hne in Hnv by auto. destruct (sc_info s !! v) as [y|] eqn:Ey; [|done]. by destruct (H4 v y Ey) as (_ & _ & C); apply C.
    + apply (path_ok_mono s _ order order); [| |done|done].
      * intros u Hu. unfold index_of. cbn [sc_info]. rewrite Hne; [done|]. apply Hsw. rewrite H2. by right.
      * intros c [= <-]. unfold index_of. cbn [sc_info]. by rewrite Hne by auto.
Qed.

(** A node is left after its successors. *)
Lemma split_top v stack : split_stack v (v :: stack) = Some ([v], stack).
Proof. cbn [split_stack]. by rewrite decide_True. Qed.

Lemma inv_leave s order v rest :
  scc_inv s order ((v, []) :: rest) ->
  exists s', leave v s = Some s' /\ scc_inv s' (v :: order) rest /\ forall a, index_of s' a = index_of s a.
Proof.
  intros [H1 H2 H3 H4 H5 H6 H7 H8 H9]. cbn [fmap list_fmap fst] in H2.
  assert (v ∈ sc_stack s) as Hv by (rewrite H2; by left).
  assert (v < num_nodes)%nat as Hlt by (rewrite list.Forall_forall in H6; apply Hgood, H6, elem_of_app; by left).
  destruct (sc_info s !! v) as [x|] eqn:Ex; [|apply lookup_ge_None in Ex; lia]. destruct (H4 v x Ex) as (Hseen & Hon & Hlow).
  destruct (info_index x) as [i|] eqn:Ei; [|by destruct Hseen as [[]]]. destruct (Hlow i eq_refl) as [El Hi].
  unfold leave. rewrite Ex. cbn [mbind option_bind]. rewrite Ei. cbn [mbind option_bind]. rewrite El, Z.eqb_refl, H2, split_top. cbn [mbind option_bind fst snd foldl].
  eexists. split; [done|]. rewrite H2 in H5, H6. cbn [app] in H5, H6. apply list.NoDup_cons in H5 as [Hnot Hnd].
  assert ((v ∉ rest.*1) /\ (v ∉ order)) as [Hnr Hno] by (rewrite elem_of_app in Hnot; tauto).
  assert (v :: rest.*1 ++ order ≡ₚ rest.*1 ++ v :: order) as Hperm by by rewrite Permutation_middle.
  split; [|intros a; unfold index_of; cbn [sc_info]; unfold take_off_stack; destruct (decide (a = v)) as [->|Ha]; [by rewrite list_lookup_alter_eq, Ex|by rewrite list_lookup_alter_ne by done]].
  split; cbn [sc_info sc_stack sc_index sc_found]; [unfold take_off_stack; by rewrite length_alter|done|by rewrite H3| | | | | |].
  - intros u y Hy. destruct (decide (u = v)) as [->|Hu].
    + unfold take_off_stack in Hy. rewrite list_lookup_alter_eq, Ex in Hy. injection Hy as <-. cbn. rewrite Ei. split; [split; [done|intros [_ Hc]; destruct Hc; by left]|].
      split; [by split|]. intros n [= <-]. split; [done|lia].
    + unfold take_off_stack in Hy. rewrite list_lookup_alter_ne in Hy by done. destruct (H4 u y Hy) as (A & B & C). rewrite H2, elem_of_cons in A, B. split; [|split; [|done]].
      * rewrite A, not_elem_of_cons. tauto.
      * rewrite B. tauto.
  - rewrite <- Hperm. by constructor.
  - rewrite <- Hperm. done.
  - rewrite H7, H2, <- Hperm. done.
  - split; [|done]. intros ts w Hts Hw. cbn [path_ok] in H9. destruct H9 as ((vis & Ht & Hvis & _) & _). rewrite app_nil_r in Ht.
    assert (ts = vis) as -> by congruence. by destruct (Hvis w Hw).
  - cbn [path_ok] in H9. destruct H9 as (_ & _ & Hrest). destruct rest as [|[u iter] rest]; [done|]. cbn [path_ok] in Hrest |- *.
    destruct Hrest as ((vis & Ht & Hvis & Hin) & _ & Hrest). split; [|split; [done|]].
    + exists vis. split; [done|]. split; [|done]. intros w Hw. left. destruct (Hvis w Hw) as [Ho|[= ->]]; [by right|by left].
    + apply (path_ok_mono s _ order _); [| |intros w; by right|done].
      * intros a Ha. unfold index_of. cbn [sc_info]. unfold take_off_stack. rewrite list_lookup_alter_ne; [done|]. intros ->. apply Hnr. by right.
      * intros c [= <-]. unfold index_of. cbn [sc_info]. unfold take_off_stack. rewrite list_lookup_alter_ne; [done|]. intros ->. apply Hnr. by left.
Qed.

(** ** Progress *)

Definition degree (v : nat) : Z := Z.of_nat (length (default [] (transitions v))).
Fixpoint total (l : list nat) : Z := match l with [] => 0 | v :: l => degree v + 2 + total l end.
Fixpoint waits (f : Frontier) : Z := match f with [] => 0 | x :: f => Z.of_nat (length x.2) + 1 + waits f end.
Definition credit (s : Scc) (order : list nat) (f : Frontier) : Z := total (sc_stack s ++ order) - waits f.

Lemma total_app l l' : total (l ++ l') = total l + total l'.
Proof. induction l as [|v l IH]; [done|]. cbn [app total]. lia. Qed.
Lemma total_nonneg l : 0 <= total l.
Proof. induction l; cbn [total]; unfold degree in *; lia. Qed.
Lemma total_le l : NoDup l -> Forall good l -> total l <= total (seq 0 num_nodes).
Proof.
  intros Hnd Hl. assert (l ⊆+ seq 0 num_nodes) as [k Hk]%submseteq_Permutation.
  { apply NoDup_submseteq; [done|]. intros v Hv. rewrite list.Forall_forall in Hl. apply elem_of_seq. specialize (Hgood v (Hl v Hv)). lia. }
  assert (forall l l', l ≡ₚ l' -> total l = total l') as Hperm by (induction 1; cbn [total]; lia).
  rewrite (Hperm _ _ Hk), total_app. pose proof (total_nonneg k). lia.
Qed.

Lemma lower_same u n info x : info !! u = Some x -> lowlink x <= n -> lower u n info = Some info.
Proof.
  intros Hu Hn. unfold lower. rewrite Hu. cbn [mbind option_bind]. rewrite Z.min_l by done. f_equal. apply list_insert_id. by destruct x.
Qed.

(** A turn of the loop keeps the invariant and comes closer to the end. *)
Lemma scc_step_ok s order f :
  scc_inv s order f -> f <> [] ->
  exists s' order' f', scc_step s f = Some (s', f') /\ scc_inv s' order' f' /\ credit s order f < credit s' order' f'
    /\ (forall v, v ∈ sc_stack s ++ order -> v ∈ sc_stack s' ++ order') /\ (exists l, order' = l ++ order).
Proof.
  intros Hi Hf. pose proof Hi as [H1 H2 H3 H4 H5 H6 H7 H8 H9]. destruct f as [|[v [|w iter]] rest]; [done|..]; cbn [scc_step].
  - destruct (inv_leave s order v rest Hi) as (s' & -> & Hi' & Hidx). cbn [mbind option_bind].
    assert (credit s order ((v, []) :: rest) < credit s' (v :: order) rest) as Hc.
    { unfold credit. rewrite H2, (si_stack _ _ _ Hi'), !total_app. cbn [fmap list_fmap fst total waits length snd]. lia. }
    assert (forall x, x ∈ sc_stack s ++ order -> x ∈ sc_stack s' ++ v :: order) as Hin.
    { intros x. rewrite H2, (si_stack _ _ _ Hi'). cbn. rewrite !elem_of_app, !elem_of_cons. rewrite elem_of_app. tauto. }
    destruct rest as [|[u it] rest]; [exists s', (v :: order), []; split; [done|]; split; [done|]; split; [done|]; split; [done|by exists [v]]|].
    assert (v < num_nodes)%nat as Hlt by (rewrite list.Forall_forall in H6; apply Hgood, H6, elem_of_app; left; rewrite H2; by left).
    destruct (sc_info s' !! v) as [x|] eqn:Ex; [|apply lookup_ge_None in Ex; rewrite (si_length _ _ _ Hi') in Ex; lia]. cbn [mbind option_bind].
    assert (u ∈ sc_stack s') as Hu by (rewrite (si_stack _ _ _ Hi'); by left).
    destruct (sc_info s' !! u) as [y|] eqn:Ey.
    2:{ apply lookup_ge_None in Ey. pose proof (si_nodes _ _ _ Hi') as Hn. rewrite list.Forall_forall in Hn. specialize (Hgood u (Hn u ltac:(apply elem_of_app; by left))).
        rewrite (si_length _ _ _ Hi') in Ey. lia. }
    destruct (si_info _ _ _ Hi' u y Ey) as (Hy1 & _ & Hy2). destruct (info_index y) as [ny|] eqn:Eny; [|by destruct Hy1 as [[]]].
    destruct (Hy2 ny eq_refl) as [Hly _].
    destruct (si_info _ _ _ Hi' v x Ex) as (Hx1 & _ & Hx2). destruct (info_index x) as [nx|] eqn:Enx.
    2:{ destruct Hx1 as [[_ Hx1] _]; [done|]. destruct Hx1. by left. }
    destruct (Hx2 nx eq_refl) as [Hlx _].
    assert (ny < nx) as Hlt'.
    { cbn [path_ok] in H9. destruct H9 as (_ & _ & _ & Hidx' & _). apply (Hidx' v nx ny eq_refl).
      - rewrite <- Hidx. by rewrite (index_of_info _ _ _ Ex).
      - rewrite <- Hidx. by rewrite (index_of_info _ _ _ Ey). }
    rewrite (lower_same u (lowlink x) _ y Ey) by lia. cbn [mbind option_bind].
    exists s', (v :: order), ((u, it) :: rest). split; [by destruct s'|]. split; [done|]. split; [done|]. split; [done|by exists [v]].
  - assert (exists ts, transitions v = Some ts /\ w ∈ ts) as (ts & Hts & Hw).
    { cbn [path_ok] in H9. destruct H9 as ((vis & Ht & _) & _). eexists. split; [exact Ht|]. apply elem_of_app. right. by left. }
    assert (Forall good (v :: rest.*1)) as [Hgv Hgr]%list.Forall_cons by (rewrite H2 in H6; by apply Forall_app in H6 as [H6 _]).
    destruct (Hacyclic v ts w Hgv Hts Hw) as [Hgw Hrank]. pose proof (Hgood w Hgw) as Hlt.
    destruct (sc_info s !! w) as [x|] eqn:Ex; [|apply lookup_ge_None in Ex; lia]. cbn [mbind option_bind].
    destruct (H4 w x Ex) as (Hseen & Hon & _). destruct (info_index x) as [i|] eqn:Eix.
    + assert (w ∉ sc_stack s) as Hns.
      { rewrite H2. cbn. intros [->|Hin]%elem_of_cons; [lia|]. cbn [path_ok] in H9. destruct H9 as (_ & _ & Hrest).
        pose proof (path_rank s order v rest w Hgr Hrest Hin). lia. }
      destruct (on_stack x) eqn:Eon; [by destruct Hns; apply Hon|]. exists s, order, ((v, iter) :: rest). split; [done|].
      assert (w ∈ order) as Ho.
      { destruct (decide (w ∈ order)); [done|]. by assert (Some i = None) by by apply Hseen. }
      split; [by apply (inv_visit s order v w)|]. split; [unfold credit; cbn [waits snd length]; lia|]. split; [done|by exists []].
    + destruct (Hdefined w Hgw) as [tsw Htsw]. assert (w ∉ order) as Hno by by apply Hseen.
      destruct (inv_enter s order ((v, w :: iter) :: rest) ((v, iter) :: rest) w x tsw) as (s' & Hs' & Hi' & Hst); try done.
      { cbn [path_ok] in H9 |- *. destruct H9 as ((vis & Ht & Hvis & _) & _ & Hrest). split; [|split; [|done]].
        - exists (vis ++ [w]). split; [by rewrite <- app_assoc|]. split.
          + intros y [Hy|Hy%list_elem_of_singleton]%elem_of_app; [destruct (Hvis y Hy); [by left|done]|right; by subst].
          + intros c [= <-]. apply elem_of_app. right. by left.
        - intros c nc nv [= <-] Hc _. by rewrite (index_of_info _ _ _ Ex), Eix in Hc. }
      exists s', order, ((w, tsw) :: (v, iter) :: rest). split; [done|]. split; [done|].
      split; [|split; [|by exists []]].
      * unfold credit. rewrite Hst. cbn [app total waits snd length]. unfold degree. rewrite Htsw. change (default [] (Some tsw)) with tsw. lia.
      * intros y. rewrite Hst. cbn [app]. intros Hy. by right.
Qed.

Lemma waits_nonneg f : 0 <= waits f.
Proof. induction f; cbn [waits]; lia. Qed.
Lemma credit_le s order f : scc_inv s order f -> f <> [] -> credit s order f < total (seq 0 num_nodes).
Proof.
  intros Hi Hf. unfold credit. pose proof (total_le _ (si_once _ _ _ Hi) (si_nodes _ _ _ Hi)).
  destruct f as [|x f]; [done|]. cbn [waits]. pose proof (waits_nonneg f). lia.
Qed.

Lemma scc_run_ok fuel s order f :
  scc_inv s order f -> total (seq 0 num_nodes) <= credit s order f + Z.of_nat fuel ->
  exists s' l, scc_run fuel s f = Some s' /\ scc_inv s' (l ++ order) [] /\ forall v, v ∈ sc_stack s ++ order -> v ∈ l ++ order.
Proof.
  revert s order f. induction fuel as [|fuel IH]; intros s order f Hi Hfuel.
  - destruct f as [|x f]; [|pose proof (credit_le s order (x :: f) Hi ltac:(done)); lia]. exists s, []. split; [done|]. split; [done|].
    intros v. by rewrite (si_stack _ _ _ Hi).
  - destruct f as [|x f].
    { exists s, []. split; [done|]. split; [done|]. intros v. by rewrite (si_stack _ _ _ Hi). }
    destruct (scc_step_ok s order (x :: f) Hi ltac:(done)) as (s1 & order1 & f1 & Hstep & Hi1 & Hcredit & Hin & l1 & ->).
    destruct (IH s1 (l1 ++ order) f1 Hi1 ltac:(lia)) as (s2 & l2 & Hrun & Hi2 & Hin2). exists s2, (l2 ++ l1). rewrite <- app_assoc.
    split; [|split; [done|auto]]. cbn [scc_run]. by rewrite Hstep.
Qed.

Lemma from_roots_ok fuel roots s order :
  total (seq 0 num_nodes) <= Z.of_nat fuel -> Forall good roots -> scc_inv s order [] ->
  exists s' l, from_roots fuel roots s = Some s' /\ scc_inv s' (l ++ order) [] /\ forall v, v ∈ roots -> v ∈ l ++ order.
Proof.
  intros Hfuel Hroots. revert s order. induction Hroots as [|root roots Hroot _ IH]; intros s order Hi.
  { exists s, []. split; [done|]. split; [done|]. by intros v ?%elem_of_nil. }
  pose proof (Hgood root Hroot). cbn [from_roots]. destruct (sc_info s !! root) as [x|] eqn:Ex; [|apply lookup_ge_None in Ex; rewrite (si_length _ _ _ Hi) in Ex; lia].
  cbn [mbind option_bind]. destruct (si_info _ _ _ Hi root x Ex) as (Hseen & _ & _).
  assert (exists s1 l1, (match info_index x with None => strong_connect_norec fuel root s | Some _ => Some s end) = Some s1
    /\ scc_inv s1 (l1 ++ order) [] /\ root ∈ l1 ++ order) as (s1 & l1 & -> & Hi1 & Hin1).
  { destruct (info_index x) as [n|] eqn:Ei.
    - exists s, []. split; [done|]. split; [done|]. destruct (decide (root ∈ order)) as [|Hno]; [done|].
      assert (Some n = None); [|done]. apply Hseen. split; [|done]. rewrite (si_stack _ _ _ Hi). by intros ?%elem_of_nil.
    - destruct (Hdefined root Hroot) as [ts Hts].
      destruct (inv_enter s order [] [] root x ts) as (s1 & Hs1 & Hi1 & Hst); try done.
      unfold strong_connect_norec. rewrite Hs1. cbn [mbind option_bind fst snd].
      destruct (scc_run_ok fuel s1 order [(root, ts)] Hi1) as (s2 & l & Hrun & Hi2 & Hin).
      + unfold credit. rewrite Hst, (si_stack _ _ _ Hi). cbn [fmap list_fmap app total waits length snd]. unfold degree at 1. rewrite Hts.
        change (default [] (Some ts)) with ts. pose proof (total_nonneg order). lia.
      + exists s2, l. split; [done|]. split; [done|]. apply Hin. rewrite Hst. by left. }
  cbn [mbind option_bind]. destruct (IH s1 (l1 ++ order) Hi1) as (s2 & l2 & Hrun & Hi2 & Hin2). exists s2, (l2 ++ l1). rewrite <- app_assoc.
  split; [done|]. split; [done|]. intros v [->|Hv]%elem_of_cons; [|auto]. apply elem_of_app. by right.
Qed.

Lemma scc_new_inv : scc_inv scc_new [] [].
Proof.
  split; [apply length_replicate|done|done| |constructor|constructor|done|done|done]. intros v x [-> _]%lookup_replicate. cbn.
  split; [split; [intros _; split; by intros ?%elem_of_nil|done]|]. split; [split; [done|by intros ?%elem_of_nil]|done].
Qed.

(** Later nodes come first in the list of the invariant. *)
Lemma topological_before l i v ts w :
  topological l -> l !! i = Some v -> transitions v = Some ts -> w ∈ ts -> exists j, (i < j)%nat /\ l !! j = Some w.
Proof.
  revert i. induction l as [|u l IH]; intros i; [done|]. intros [Hu Hl] Hi Hts Hw. destruct i as [|i].
  - injection Hi as ->. destruct (proj1 (list_elem_of_lookup l w) (Hu ts w Hts Hw)) as [j Hj]. exists (S j). split; [lia|done].
  - destruct (IH i Hl Hi Hts Hw) as (j & Hj & Hw'). exists (S j). split; [lia|done].
Qed.

Lemma roots_spec fuel roots :
  total (seq 0 num_nodes) <= Z.of_nat fuel -> Forall good roots ->
  exists order, iterate_with_roots fuel roots = Some ((fun v => [v]) <$> order) /\ NoDup order
    /\ (forall v, v ∈ roots -> v ∈ order) /\ Forall good order
    /\ forall i v ts w, order !! i = Some v -> transitions v = Some ts -> w ∈ ts -> exists j, (j < i)%nat /\ order !! j = Some w.
Proof.
  intros Hfuel Hroots. destruct (from_roots_ok fuel roots scc_new [] Hfuel Hroots scc_new_inv) as (s & l & Hrun & Hi & Hin).
  rewrite app_nil_r in Hi, Hin. pose proof Hi as [_ Hst Hfound _ Honce Hnodes _ Htop _]. cbn in Hst. rewrite Hst in Honce, Hnodes. cbn [app] in Honce, Hnodes.
  exists (reverse l). unfold iterate_with_roots. rewrite Hrun. cbn [mbind option_bind]. split; [by rewrite Hfound, fmap_reverse|].
  split; [by rewrite reverse_Permutation|]. split; [intros v Hv; by apply elem_of_reverse, Hin|]. split; [by apply Forall_reverse|].
  intros i v ts w Hv Hts Hw. apply reverse_lookup_Some in Hv as [Hv Hlt].
  destruct (topological_before l _ v ts w Htop Hv Hts Hw) as (j & Hj & Hjw). exists (length l - 1 - j)%nat.
  apply lookup_lt_Some in Hjw as Hjl. split; [lia|]. apply reverse_lookup_Some. split; [|lia]. by replace (length l - S (length l - 1 - j))%nat with j by lia.
Qed.

End scc.

(** ** More fuel changes nothing *)

Section mono.
Context (num_nodes : nat) (transitions : nat -> option (list nat)).

Lemma scc_run_mono n m s f s' : (n <= m)%nat -> scc_run transitions n s f = Some s' -> scc_run transitions m s f = Some s'.
Proof.
  revert m s f. induction n as [|n IH]; intros m s [|x f] Hm; destruct m as [|m]; cbn [scc_run]; try done; [lia|].
  destruct (scc_step transitions s (x :: f)) as [[s1 f1]|]; [|done]. apply IH. lia.
Qed.
Lemma from_roots_mono n m roots s s' : (n <= m)%nat -> from_roots transitions n roots s = Some s' -> from_roots transitions m roots s = Some s'.
Proof.
  intros Hm. revert s. induction roots as [|root roots IH]; intros s; [done|]. cbn [from_roots].
  destruct (sc_info s !! root) as [x|]; [|done]. cbn [mbind option_bind]. destruct (info_index x); [apply IH|].
  unfold strong_connect_norec. destruct (enter transitions root s []) as [[s1 f1]|]; [|done]. cbn [mbind option_bind fst snd].
  destruct (scc_run transitions n s1 f1) as [s2|] eqn:E; [|done]. rewrite (scc_run_mono n m _ _ _ Hm E). cbn [mbind option_bind]. apply IH.
Qed.
Lemma iterate_with_roots_mono n m roots l :
  (n <= m)%nat -> iterate_with_roots num_nodes transitions n roots = Some l -> iterate_with_roots num_nodes transitions m roots = Some l.
Proof.
  unfold iterate_with_roots. intros Hm. destruct (from_roots transitions n roots (scc_new num_nodes)) as [s|] eqn:E; [|done].
  by rewrite (from_roots_mono n m _ _ _ Hm E).
Qed.

(** ** Components of one node *)

(** A graph without cycles, ordered by [rank]. *)
Record acyclic (rank : nat -> nat) : Prop := {
  ac_size : Z.of_nat num_nodes < 2 ^ 32;
  ac_defined : forall v, (v < num_nodes)%nat -> is_Some (transitions v);
  ac_rank : forall v ts w, transitions v = Some ts -> w ∈ ts -> (w < num_nodes)%nat /\ (rank w < rank v)%nat;
}.

(** Every node comes after its successors. *)
Definition successors_first (order : list nat) : Prop :=
  forall i v ts w, order !! i = Some v -> transitions v = Some ts -> w ∈ ts -> exists j, (j < i)%nat /\ order !! j = Some w.

Definition scc_fuel : nat := Z.to_nat (total transitions (seq 0 num_nodes)).

Lemma iterate_singles rank (fuel : nat) :
  acyclic rank -> (scc_fuel <= fuel)%nat ->
  exists order, iterate num_nodes transitions fuel = Some ((fun v => [v]) <$> order) /\ order ≡ₚ seq 0 num_nodes /\ successors_first order.
Proof.
  intros [Hs Hd Hr] Hfuel. destruct (roots_spec num_nodes transitions rank (fun v => (v < num_nodes)%nat)) with (fuel := fuel) (roots := seq 0 num_nodes)
    as (order & Hrun & Hnd & Hin & Hlt & Hord); try done.
  - intros v ts w _. apply Hr.
  - unfold scc_fuel in Hfuel. lia.
  - apply list.Forall_forall. intros v Hv%elem_of_seq. lia.
  - exists order. split; [done|]. split; [|done]. apply NoDup_Permutation; [done|apply NoDup_seq|]. intros v. split; [|apply Hin].
    rewrite list.Forall_forall in Hlt. intros Hv. apply elem_of_seq. specialize (Hlt v Hv). lia.
Qed.

(** From one root. *)
Lemma iterate_root rank root :
  acyclic rank -> (root < num_nodes)%nat ->
  exists order, (forall fuel, (scc_fuel <= fuel)%nat -> iterate_with_roots num_nodes transitions fuel [root] = Some ((fun v => [v]) <$> order))
    /\ root ∈ order /\ successors_first order.
Proof.
  intros [Hs Hd Hr] Hroot.
  destruct (roots_spec num_nodes transitions rank (fun v => (v < num_nodes)%nat)) with (fuel := scc_fuel) (roots := [root])
    as (order & Hrun & Hnd & Hin & Hlt & Hord); try done.
  - intros v ts w _. apply Hr.
  - unfold scc_fuel. lia.
  - by apply list.Forall_singleton.
  - exists order. split; [|split; [|done]; apply Hin; by left]. intros fuel Hf. by apply (iterate_with_roots_mono scc_fuel).
Qed.
End mono.

(** ** What is reached from the roots *)

Section closed.
Context (num_nodes : nat) (transitions : nat -> option (list nat)).
Context (good : nat -> Prop) (Hclosed : forall v ts w, good v -> transitions v = Some ts -> w ∈ ts -> good w).

Record all_good (s : Scc) (f : Frontier) : Prop := {
  ag_stack : Forall good (sc_stack s);
  ag_found : Forall (Forall good) (sc_found s);
  ag_frontier : Forall (fun x => good x.1 /\ Forall good x.2) f;
}.

Lemma split_good v stack r : split_stack v stack = Some r -> Forall good stack -> Forall good r.1 /\ Forall good r.2.
Proof.
  revert r. induction stack as [|x stack IH]; intros r; cbn [split_stack]; [done|].
  destruct (decide (x = v)) as [->|]; [intros [= <-] [Hv Hs]%list.Forall_cons; split; [by apply list.Forall_singleton|done]|].
  destruct (split_stack v stack) as [r'|]; [|done]. cbn [mbind option_bind]. intros [= <-] [Hx Hs]%list.Forall_cons.
  destruct (IH r' eq_refl Hs). split; [|done]. apply Forall_app. split; [done|]. by apply list.Forall_singleton.
Qed.

Lemma enter_good w s f r : enter transitions w s f = Some r -> good w -> all_good s f -> all_good r.1 r.2.
Proof.
  unfold enter. destruct (sc_info s !! w); [|done]. cbn [mbind option_bind]. destruct (transitions w) as [ts|] eqn:Et; [|done].
  cbn [mbind option_bind]. destruct (assert _); [|done]. cbn [mbind option_bind]. intros [= <-] Hw [H1 H2 H3].
  split; cbn; [by constructor|done|]. constructor; [|done]. split; [done|]. apply list.Forall_forall. intros y Hy. by apply (Hclosed w ts y).
Qed.

Lemma step_good s f r : scc_step transitions s f = Some r -> all_good s f -> all_good r.1 r.2.
Proof.
  intros Hr Hg. pose proof Hg as [H1 H2 H3]. destruct f as [|[v [|w iter]] rest]; cbn [scc_step] in Hr; [by injection Hr as <-|..].
  - apply list.Forall_cons in H3 as [[Hv _] Hrest]. destruct (leave v s) as [s1|] eqn:El; [|done]. cbn [mbind option_bind] in Hr.
    assert (all_good s1 rest) as Hg1.
    { unfold leave in El. destruct (sc_info s !! v) as [x|]; [|done]. cbn [mbind option_bind] in El. destruct (info_index x) as [i|]; [|done].
      cbn [mbind option_bind] in El. destruct (lowlink x =? i); [|injection El as <-; by split].
      destruct (split_stack v (sc_stack s)) as [[a b]|] eqn:Es; [|done]. cbn [mbind option_bind] in El. injection El as <-.
      destruct (split_good v _ _ Es H1). split; cbn; [done|by constructor|done]. }
    destruct rest as [|[u it] rest]; [by injection Hr as <-|]. destruct (sc_info s1 !! v) as [x|]; [|done]. cbn [mbind option_bind] in Hr.
    destruct (lower u (lowlink x) (sc_info s1)) as [info|]; [|done]. cbn [mbind option_bind] in Hr. injection Hr as <-. destruct Hg1. by split.
  - apply list.Forall_cons in H3 as [[Hv [Hw Hiter]%list.Forall_cons] Hrest].
    assert (Forall (fun x => good x.1 /\ Forall good x.2) ((v, iter) :: rest)) as Hf by by constructor.
    destruct (sc_info s !! w) as [x|]; [|done]. cbn [mbind option_bind] in Hr. destruct (info_index x) as [i|].
    + destruct (on_stack x); [|injection Hr as <-; by split]. destruct (lower v i (sc_info s)) as [info|]; [|done].
      cbn [mbind option_bind] in Hr. injection Hr as <-. by split.
    + apply (enter_good w s _ r Hr Hw). by split.
Qed.

Lemma run_good fuel s f s' : scc_run transitions fuel s f = Some s' -> all_good s f -> all_good s' [].
Proof.
  revert s f. induction fuel as [|fuel IH]; intros s [|x f]; cbn [scc_run]; try done; [by intros [= <-]..|].
  destruct (scc_step transitions s (x :: f)) as [r|] eqn:E; [|done]. cbn [mbind option_bind]. intros H Hg. apply (IH r.1 r.2 H), (step_good s _ r E Hg).
Qed.

Lemma roots_good fuel roots s s' : from_roots transitions fuel roots s = Some s' -> Forall good roots -> all_good s [] -> all_good s' [].
Proof.
  intros H Hroots. revert s H. induction Hroots as [|root roots Hr _ IH]; intros s; cbn [from_roots]; [by intros [= <-]|].
  destruct (sc_info s !! root) as [x|]; [|done]. cbn [mbind option_bind]. destruct (info_index x); [by intros H; apply IH|].
  unfold strong_connect_norec. destruct (enter transitions root s []) as [r|] eqn:E; [|done]. cbn [mbind option_bind].
  destruct (scc_run transitions fuel r.1 r.2) as [s1|] eqn:E1; [|done]. cbn [mbind option_bind]. intros H Hg.
  apply (IH s1 H), (run_good fuel _ _ _ E1), (enter_good root s [] r E Hr Hg).
Qed.

(** What is reported is reached from the roots. *)
Lemma iterate_good fuel roots order :
  iterate_with_roots num_nodes transitions fuel roots = Some (list_fmap _ _ (fun v => [v]) order) -> Forall good roots -> Forall good order.
Proof.
  unfold iterate_with_roots. destruct (from_roots _ _ _ _) as [s|] eqn:E; [|done]. cbn [mbind option_bind]. intros [= Ho] Hroots.
  destruct (roots_good fuel roots _ s E Hroots) as [_ Hf _]; [split; constructor|]. rewrite <- Forall_reverse, Ho in Hf.
  apply list.Forall_forall. intros v Hv. rewrite list.Forall_forall in Hf. apply (list.Forall_singleton good), Hf.
  apply list_elem_of_fmap. by exists v.
Qed.
End closed.

(** ** The iteration of a graph without cycles *)

(** C14: On a graph without cycles the iteration ends and reports every node once,
    as a component of its own, after all its successors. *)
Theorem iterate_acyclic num_nodes transitions rank (fuel : nat) :
  acyclic num_nodes transitions rank -> (scc_fuel num_nodes transitions <= fuel)%nat ->
  exists order, iterate num_nodes transitions fuel = Some ((fun v => [v]) <$> order) /\ order ≡ₚ seq 0 num_nodes
    /\ forall i v ts w, order !! i = Some v -> transitions v = Some ts -> w ∈ ts -> exists j, (j < i)%nat /\ order !! j = Some w.
Proof. apply iterate_singles. Qed.

(** A branch whose sides meet again. *)
Definition diamond (v : nat) : option (list nat) := [[1; 2]; [3]; [3]; []]%nat !! v.
Lemma diamond_acyclic : acyclic 4 diamond (fun v => 4 - v)%nat.
Proof.
  split; [lia|intros v Hv; by apply lookup_lt_is_Some_2|].
  intros [|[|[|[|v]]]] ts w [= <-]; rewrite ?elem_of_cons, ?elem_of_nil; lia.
Qed.

Lemma iterate_acyclic_witness : exists order, iterate 4 diamond 20 = Some ((fun v => [v]) <$> order) /\ order ≡ₚ [0; 1; 2; 3]%nat.
Proof.
  destruct (iterate_acyclic 4 diamond (fun v => 4 - v)%nat 20 diamond_acyclic) as (order & Hrun & Hperm & _); [vm_compute; lia|].
  exists order. by split.
Defined.
