(* ===== verification/ValTree.v ===== *)
(** * The value graph of the code generator

    [ValNode], [ValTree] and the state of [ValBuilder] of
    [sem86-core/src/codegen/mir/val.rs]: a list of nodes whose arguments are
    earlier nodes, with a map from nodes to their numbers so that equal nodes
    are shared.  A graph denotes the 128-bit values that the compiled code
    computes; [ValBuild] holds the operations that simplify while they build,
    and [ValSound] shows that they keep the denotation.

    Node numbers are not bounded here: [ValId::from_usize] panics on 2^32
    nodes, a graph of more than 100 GiB. *)
From S2P Require Import Prelude IlOps.

(** ** Nodes *)

Inductive Ptr : Type := CpuState | K.
#[export] Instance Ptr_eq_dec : EqDecision Ptr.
Proof. solve_decision. Defined.

Inductive DataSize : Type := Byte | Word | Dword | Qword | F80 | Oword.
#[export] Instance DataSize_eq_dec : EqDecision DataSize.
Proof. solve_decision. Defined.

Definition ds_num_bytes (s : DataSize) : Z :=
  match s with Byte => 1 | Word => 2 | Dword => 4 | Qword => 8 | F80 => 10 | Oword => 16 end.
Definition ds_num_bits (s : DataSize) : Z := ds_num_bytes s * 8.
Definition try_from_bits (bits : Z) : option DataSize :=
  match bits with
  | 8 => Some Byte | 16 => Some Word | 32 => Some Dword | 64 => Some Qword
  | 80 => Some F80 | 128 => Some Oword | _ => None
  end.

Abbreviation ValId := nat (only parsing).

Inductive ValNode : Type :=
| NConst (c : Z)
| NVar (v : Z)
| NBinOp (op : BinOp) (lhs rhs : ValId)
| NFpBinOp (op : FpBinOp) (lhs rhs rc : ValId)
| NFpUnOp (op : FpUnOp) (arg rc : ValId)
| NUnOp (op : UnOp) (arg : ValId)
| NBlend (lhs rhs : ValId) (mask : Z)
| NExtract (val : ValId) (skip take : Z)
| NIte (cond if_zero if_nonzero : ValId)
| NLoadPtr (ptr : Ptr) (offset : ValId) (size : DataSize)
| NLoadPtrImm (ptr : Ptr) (offset : Z) (size : DataSize)
| NInstrLen
| NPartValues.

#[export] Instance ValNode_eq_dec : EqDecision ValNode.
Proof. solve_decision. Defined.

Definition referenced_nodes (n : ValNode) : list ValId :=
  match n with
  | NConst _ | NVar _ | NInstrLen | NPartValues => []
  | NBinOp _ lhs rhs => [lhs; rhs]
  | NFpBinOp _ lhs rhs rc => [lhs; rhs; rc]
  | NFpUnOp _ arg rc => [arg; rc]
  | NUnOp _ arg => [arg]
  | NIte cond if_zero if_nonzero => [cond; if_zero; if_nonzero]
  | NLoadPtr _ offset _ => [offset]
  | NLoadPtrImm _ _ _ => []
  | NBlend lhs rhs _ => [lhs; rhs]
  | NExtract val _ _ => [val]
  end.

(** ** Folding over a graph *)

Definition at_id (vs : list Z) (i : ValId) : Z := default 0 (vs !! i).

Definition fold_tree (g : (ValId -> Z) -> ValNode -> Z) (t : list ValNode) : list Z :=
  foldl (fun vs n => vs ++ [g (at_id vs) n]) [] t.

Lemma fold_tree_snoc g t n : fold_tree g (t ++ [n]) = fold_tree g t ++ [g (at_id (fold_tree g t)) n].
Proof. unfold fold_tree. by rewrite foldl_app. Qed.

Lemma length_fold_tree g t : length (fold_tree g t) = length t.
Proof.
  induction t as [|n t IH] using rev_ind; [done|].
  rewrite fold_tree_snoc, !length_app, IH. done.
Qed.

Lemma fold_tree_prefix g t u i :
  (i < length t)%nat -> at_id (fold_tree g (t ++ u)) i = at_id (fold_tree g t) i.
Proof.
  revert t. induction u as [|n u IH]; intros t Hi; [by rewrite app_nil_r|].
  replace (t ++ n :: u) with ((t ++ [n]) ++ u) by (by rewrite <- app_assoc).
  rewrite IH by (rewrite length_app; simpl; lia). rewrite fold_tree_snoc. unfold at_id.
  by rewrite lookup_app_l by (by rewrite length_fold_tree).
Qed.

(** Arguments of a node come before it. *)
Definition ordered (t : list ValNode) : Prop :=
  forall i n, t !! i = Some n -> Forall (fun a => (a < i)%nat) (referenced_nodes n).

Definition local (g : (ValId -> Z) -> ValNode -> Z) : Prop :=
  forall f f' n, Forall (fun a => f a = f' a) (referenced_nodes n) -> g f n = g f' n.

Lemma fold_tree_eq g t i n :
  local g -> ordered t -> t !! i = Some n -> at_id (fold_tree g t) i = g (at_id (fold_tree g t)) n.
Proof.
  intros Hg Ht Hi. pose proof (lookup_lt_Some _ _ _ Hi) as Hlt.
  assert (t = (take i t ++ [n]) ++ drop (S i) t) as Et.
  { rewrite <- app_assoc. simpl. symmetry. by apply take_drop_middle. }
  assert (length (take i t) = i) as Hlen by (rewrite length_take; lia).
  transitivity (at_id (fold_tree g (take i t ++ [n])) i).
  { rewrite Et at 1. apply fold_tree_prefix. rewrite length_app. simpl. lia. }
  rewrite fold_tree_snoc. unfold at_id at 1. rewrite lookup_app_r by (rewrite length_fold_tree; lia).
  rewrite length_fold_tree, Hlen, Nat.sub_diag. simpl. apply Hg.
  eapply Forall_impl; [|exact (Ht i n Hi)]. intros a Ha. cbn beta in Ha.
  pose proof (fold_tree_prefix g (take i t) ([n] ++ drop (S i) t) a ltac:(lia)) as Hp.
  rewrite app_assoc, <- Et in Hp. by rewrite Hp.
Qed.

(** ** What a graph denotes *)

Record Env := {
  var_value : Z -> Z;
  load_byte : Ptr -> Z -> Z;
  fp_binop_value : FpBinOp -> Z -> Z -> Z -> Z;
  fp_unop_value : FpUnOp -> Z -> Z -> Z;
  instr_len_value : Z;
  part_values_value : Z;
}.

Record env_ok (E : Env) : Prop := {
  var_ok : forall v, inw 128 (var_value E v);
  byte_ok : forall p a, inw 8 (load_byte E p a);
  fp_binop_ok : forall op x y rc, inw 128 (fp_binop_value E op x y rc);
  fp_unop_ok : forall op x rc, inw 128 (fp_unop_value E op x rc);
  instr_len_ok : inw 128 (instr_len_value E);
  part_values_ok : inw 128 (part_values_value E);
}.

(** An operator that panics has no result; the operations below are only
    specified where it has one. *)
Definition binop_value (op : BinOp) (x y : Z) : Z := default 0 (binop_execute op x y).
Definition unop_value (op : UnOp) (x : Z) : Z := default 0 (unop_execute op x).

(** Bit N from [lhs] if [mask[N]] is 0, or from [rhs] if it is 1. *)
Definition blend_value (lhs rhs mask : Z) : Z := Z.lor (Z.ldiff lhs mask) (Z.land rhs mask).
(** [(val >> skip) & bitmask_u128(take)] *)
Definition extract_value (val skip take : Z) : Z := Z.land (Z.shiftr val skip) (Z.ones take).
Definition ite_value (cond if_zero if_nonzero : Z) : Z := if cond =? 0 then if_zero else if_nonzero.
Definition load_value (E : Env) (ptr : Ptr) (offset : Z) (size : DataSize) : Z :=
  from_le_bytes ((fun i => load_byte E ptr (offset + i)) <$> seqZ 0 (ds_num_bytes size)).

Definition eval_node (E : Env) (f : ValId -> Z) (n : ValNode) : Z :=
  match n with
  | NConst c => c
  | NVar v => var_value E v
  | NBinOp op lhs rhs => binop_value op (f lhs) (f rhs)
  | NFpBinOp op lhs rhs rc => fp_binop_value E op (f lhs) (f rhs) (f rc)
  | NFpUnOp op arg rc => fp_unop_value E op (f arg) (f rc)
  | NUnOp op arg => unop_value op (f arg)
  | NBlend lhs rhs mask => blend_value (f lhs) (f rhs) mask
  | NExtract val skip take => extract_value (f val) skip take
  | NIte cond if_zero if_nonzero => ite_value (f cond) (f if_zero) (f if_nonzero)
  | NLoadPtr ptr offset size => load_value E ptr (f offset) size
  | NLoadPtrImm ptr offset size => load_value E ptr offset size
  | NInstrLen => instr_len_value E
  | NPartValues => part_values_value E
  end.

Definition denote (E : Env) (t : list ValNode) (i : ValId) : Z := at_id (fold_tree (eval_node E) t) i.

Lemma eval_node_local E : local (eval_node E).
Proof.
  intros f f' n H. destruct n; simpl in *; decompose_Forall_hyps; congruence.
Qed.

(** ** Weights

    Every simplification makes the graph below a node smaller in this measure:
    an extraction distributes over the other operators, a mask and a right
    shift become extractions. *)
Definition binop_weight (op : BinOp) (x y : Z) : Z :=
  match op with And => 2 * x + 2 * y + 1 | Shr => 2 * x + 2 * y | _ => x + y + 1 end.
Definition node_weight (f : ValId -> Z) (n : ValNode) : Z :=
  match n with
  | NBinOp op lhs rhs => binop_weight op (f lhs) (f rhs)
  | NFpBinOp _ lhs rhs rc => f lhs + f rhs + f rc + 1
  | NFpUnOp _ arg rc => f arg + f rc + 1
  | NUnOp _ arg => f arg + 1
  | NBlend lhs rhs _ => f lhs + f rhs + 1
  | NExtract val _ _ => 2 * f val
  | NIte cond if_zero if_nonzero => f cond + f if_zero + f if_nonzero + 1
  | NLoadPtr _ offset _ => f offset + 1
  | _ => 1
  end.
Definition weight (t : list ValNode) (i : ValId) : Z := at_id (fold_tree node_weight t) i.

Lemma node_weight_local : local node_weight.
Proof.
  intros f f' n H. destruct n; simpl in *; decompose_Forall_hyps; congruence.
Qed.
