(* ===== verification/ValBuild.v ===== *)
(** * Building values: operators and extractions

    [ValBuilder] of [sem86-core/src/codegen/mir/val.rs]: [get_or_insert],
    [imm], [unop], [binop], [extract], [ite] and [try_solve_equality].  The
    long matches of [binop] and [extract] are a list of arms here, tried in
    the order of the source; an arm that does not apply leaves the builder
    alone.  [binop] and [extract] call each other, with a bound on the depth
    of the calls; [ValSound] shows that a bound always exists. *)
From S2P Require Import Prelude IlOps ValTree.

Record ValBuilder := {
  value_tree : list ValNode;
  node_ids : list (ValNode * ValId);
}.
Definition builder_new : ValBuilder := {| value_tree := []; node_ids := [] |}.

(** Computations on a builder that may panic. *)
Definition bm (T : Type) : Type := ValBuilder -> option (T * ValBuilder).
Definition bret {T} (x : T) : bm T := fun b => Some (x, b).
Definition bpanic {T} : bm T := fun _ => None.
Definition blift {T} (o : option T) : bm T := fun b => x ← o; Some (x, b).
Definition bbind {T U} (m : bm T) (f : T -> bm U) : bm U := fun b => '(x, b) ← m b; f x b.

Declare Scope bm_scope.
Notation "x <~ m ;; k" := (bbind m (fun x => k))
  (at level 100, m at next level, right associativity) : bm_scope.
#[local] Open Scope bm_scope.

(** [self.value_tree[i]] *)
Definition node (i : ValId) : bm ValNode := fun b => n ← value_tree b !! i; Some (n, b).

Fixpoint find_node (m : list (ValNode * ValId)) (n : ValNode) : option ValId :=
  match m with
  | [] => None
  | (k, id) :: m => if decide (k = n) then Some id else find_node m n
  end.

Definition get_or_insert (n : ValNode) : bm ValId := fun b =>
  match find_node (node_ids b) n with
  | Some id => Some (id, b)
  | None =>
      let id := length (value_tree b) in
      Some (id, {| value_tree := value_tree b ++ [n]; node_ids := (n, id) :: node_ids b |})
  end.

Definition imm (c : Z) : bm ValId := get_or_insert (NConst c).

(** ** Arms *)

Definition arm : Type := bm (option ValId).
Definition no_match : arm := bret None.
Definition found (m : bm ValId) : arm := id <~ m;; bret (Some id).
Definition orelse (a c : arm) : arm := fun b =>
  match a b with
  | Some (None, b) => c b
  | r => r
  end.
Fixpoint first_arm (l : list arm) : arm :=
  match l with [] => no_match | a :: l => orelse a (first_arm l) end.
Definition run_arms (l : list arm) (otherwise : bm ValId) : bm ValId :=
  r <~ first_arm l;; match r with Some id => bret id | None => otherwise end.

Definition trailing_ones (c : Z) : Z := trailing_zeros 128 (unot 128 c).

(** ** Equality of two values *)

Record EqualityState := { eq_val : ValId; eq_offset : Z; eq_skip : Z; eq_take : Z }.

(** [x + c] or [x - c] as [x] and an offset. *)
Definition const_offset (t : list ValNode) (n : ValNode) : option (option (ValId * Z)) :=
  match n with
  | NBinOp Add x y => n ← t !! y; Some (match n with NConst c => Some (x, c) | _ => None end)
  | NBinOp Sub x y => n ← t !! y; Some (match n with NConst c => Some (x, - c) | _ => None end)
  | _ => Some None
  end.

(** The inner state of an extraction; the additions and subtractions are on
    [u8]. *)
Definition eq_extract (s : EqualityState) (v : ValId) (skip take : Z) : option EqualityState :=
  assert (eq_skip s + skip <? 256);;
  assert (eq_skip s <=? take);;
  Some {| eq_val := v; eq_offset := 0; eq_skip := eq_skip s + skip;
          eq_take := Z.min (eq_take s) (take - eq_skip s) |}.
Definition eq_add (s : EqualityState) (x : ValId) (c : Z) : EqualityState :=
  {| eq_val := x; eq_offset := wrap 128 (eq_offset s + c); eq_skip := eq_skip s;
     eq_take := eq_take s |}.

Fixpoint try_solve_equality_internal (fuel : nat) (t : list ValNode) (lhs rhs : EqualityState)
    : option (option bool) :=
  match fuel with
  | O => None
  | S fuel =>
      let again := try_solve_equality_internal fuel t in
      if bool_decide (eq_val lhs = eq_val rhs) && (eq_skip lhs =? 0) && (eq_skip rhs =? 0)
         && (eq_take lhs =? eq_take rhs) then
        lmask ← bitmask_u128 (eq_take lhs);
        rmask ← bitmask_u128 (eq_take rhs);
        Some (Some (Z.land (eq_offset lhs) lmask =? Z.land (eq_offset rhs) rmask))
      else
        nl ← t !! eq_val lhs;
        nr ← t !! eq_val rhs;
        match nl with
        | NExtract v skip take =>
            if eq_offset lhs =? 0 then lhs ← eq_extract lhs v skip take; again lhs rhs
            else Some None
        | _ =>
            match nr with
            | NExtract v skip take =>
                if eq_offset rhs =? 0 then rhs ← eq_extract rhs v skip take; again lhs rhs
                else Some None
            | _ =>
                ol ← const_offset t nl;
                match ol with
                | Some (x, c) => again (eq_add lhs x c) rhs
                | None =>
                    or ← const_offset t nr;
                    match or with
                    | Some (x, c) => again lhs (eq_add rhs x c)
                    | None => Some None
                    end
                end
            end
        end
  end.

Definition try_solve_equality (t : list ValNode) (lhs rhs : ValId) : option (option bool) :=
  try_solve_equality_internal (S (lhs + rhs)) t
    {| eq_val := lhs; eq_offset := 0; eq_skip := 0; eq_take := 128 |}
    {| eq_val := rhs; eq_offset := 0; eq_skip := 0; eq_take := 128 |}.

(** ** Unary operators *)

Definition unop (op : UnOp) (arg : ValId) : bm ValId :=
  n <~ node arg;;
  match n with
  | NConst c => v <~ blift (unop_execute op c);; imm v
  | _ => get_or_insert (NUnOp op arg)
  end.

Definition fp_binop (op : FpBinOp) (lhs rhs rc : ValId) : bm ValId :=
  get_or_insert (NFpBinOp op lhs rhs rc).
Definition fp_unop (op : FpUnOp) (arg rc : ValId) : bm ValId := get_or_insert (NFpUnOp op arg rc).

Definition load_ptr_imm (ptr : Ptr) (size : DataSize) (offset : Z) : bm ValId :=
  get_or_insert (NLoadPtrImm ptr offset size).
Definition load_ptr_offset (ptr : Ptr) (size : DataSize) (offset : ValId) : bm ValId :=
  get_or_insert (NLoadPtr ptr offset size).
Definition load_ptr (ptr : Ptr) (size : DataSize) : bm ValId := load_ptr_imm ptr size 0.

Definition use_var (v : Z) : bm ValId := get_or_insert (NVar v).
Definition instr_len : bm ValId := get_or_insert NInstrLen.
Definition part_values : bm ValId := get_or_insert NPartValues.

(** ** Binary operators *)

(** The operand next to a constant, with the constant: [[Const(c), _]] first. *)
Definition const_side (x y : ValId) : bm (option (ValId * Z)) :=
  nx <~ node x;;
  ny <~ node y;;
  bret (match nx, ny with
        | NConst c, _ => Some (y, c)
        | _, NConst c => Some (x, c)
        | _, _ => None
        end).

Section steps.
Context (rec_binop : BinOp -> ValId -> ValId -> bm ValId)
        (rec_extract : ValId -> Z -> Z -> bm ValId).

Section binop_arms.
Context (op : BinOp) (a0 a1 : ValId) (n0 n1 : ValNode).

Definition plain : bm ValId := get_or_insert (NBinOp op a0 a1).

(** Constant operations can be computed. *)
Definition arm_const : arm :=
  match n0, n1 with
  | NConst lhs, NConst rhs => found (v <~ blift (binop_execute op lhs rhs);; imm v)
  | _, _ => no_match
  end.

Definition arm_cmp_eq : arm :=
  match op with
  | CmpEq =>
      if decide (a0 = a1) then found (imm 1)
      else found (fun b =>
        (e <~ blift (try_solve_equality (value_tree b) a0 a1);;
         match e with
         | Some eq => imm (b2z eq)
         | None => plain
         end) b)
  | _ => no_match
  end.

(** or/xor/add with zero, and shl/shr/sub by zero, is the value. *)
Definition arm_identity : arm :=
  match op, n0, n1 with
  | (Or | Xor | Add), NConst 0, other => found (get_or_insert other)
  | (Or | Xor | Add | Shl | Shr | Sub), other, NConst 0 => found (get_or_insert other)
  | _, _, _ => no_match
  end.

(** and/mul with zero is zero. *)
Definition arm_zero : arm :=
  match op, n0, n1 with
  | (And | Mul), NConst 0, _ | (And | Mul), _, NConst 0 => found (get_or_insert (NConst 0))
  | _, _, _ => no_match
  end.

Definition arm_self : arm :=
  match op with
  | Xor | Sub => if decide (n0 = n1) then found (get_or_insert (NConst 0)) else no_match
  | _ => no_match
  end.

Definition arm_shr : arm :=
  match op, n1 with
  | Shr, NConst c =>
      let num := wrap 8 c in
      found (_ <~ blift (assert (num <=? 128));; rec_extract a0 num (128 - num))
  | _, _ => no_match
  end.

Definition arm_and_bool : arm :=
  match op, n0, n1 with
  | And, NUnOp (Parity | IsZero | SelectBit _) _, NConst c =>
      found (get_or_insert (if negb (Z.land c 1 =? 0) then n0 else NConst 0))
  | _, _, _ => no_match
  end.

Definition arm_and_mask : arm :=
  match op, n1 with
  | And, NConst c =>
      if trailing_ones c + leading_zeros 128 c =? 128
      then found (rec_extract a0 0 (wrap 8 (trailing_ones c)))
      else no_match
  | _, _ => no_match
  end.

(** (a << c1) & c2 == (a & (c2 >> c1)) << c1 *)
Definition arm_and_shl : arm :=
  match op, n0, n1 with
  | And, NConst and_const, NBinOp Shl inner_lhs amount =>
      _ <~ node inner_lhs;;
      n <~ node amount;;
      found (match n with
             | NConst shift_amount =>
                 _ <~ blift (assert (wrap 32 shift_amount <? 128));;
                 shifted_const <~ imm (Z.shiftr and_const (wrap 32 shift_amount));;
                 x <~ rec_binop And inner_lhs shifted_const;;
                 get_or_insert (NBinOp Shl x amount)
             | _ => plain
             end)
  | _, _, _ => no_match
  end.

(** (a & c2) & c1 == a & (c1 & c2), and the same for or. *)
Definition arm_and_and : arm :=
  match op, n0, n1 with
  | And, NBinOp And x y, NConst c1 =>
      s <~ const_side x y;;
      found (match s with
             | Some (other, c2) => c <~ imm (Z.land c1 c2);; get_or_insert (NBinOp And other c)
             | None => plain
             end)
  | _, _, _ => no_match
  end.

Definition arm_or_or : arm :=
  match op, n0, n1 with
  | Or, NBinOp Or x y, NConst c1 =>
      s <~ const_side x y;;
      found (match s with
             | Some (other, c2) => c <~ imm (Z.lor c1 c2);; get_or_insert (NBinOp Or other c)
             | None => plain
             end)
  | _, _, _ => no_match
  end.

(** (a + c2) + c1 == a + (c1 + c2) *)
Definition arm_add_add : arm :=
  match op, n0, n1 with
  | Add, NBinOp Add x y, NConst c1 =>
      s <~ const_side x y;;
      found (match s with
             | Some (other, c2) => c <~ imm (wrap 128 (c1 + c2));; rec_binop Add other c
             | None => plain
             end)
  | _, _, _ => no_match
  end.

(** (a - c2) + c1 == a + (c1 - c2); (c2 - a) + c1 == (c1 + c2) - a *)
Definition arm_add_sub : arm :=
  match op, n0, n1 with
  | Add, NBinOp Sub x y, NConst c1 =>
      nx <~ node x;;
      ny <~ node y;;
      found (match nx, ny with
             | _, NConst c2 => c <~ imm (wrap 128 (c1 - c2));; rec_binop Add x c
             | NConst c2, _ => c <~ imm (wrap 128 (c1 + c2));; rec_binop Sub c y
             | _, _ => plain
             end)
  | _, _, _ => no_match
  end.

(** (a - c2) - c1 == a - (c1 + c2); (c2 - a) - c1 == (c2 - c1) - a *)
Definition arm_sub_sub : arm :=
  match op, n0, n1 with
  | Sub, NBinOp Sub x y, NConst c1 =>
      nx <~ node x;;
      ny <~ node y;;
      found (match nx, ny with
             | _, NConst c2 => c <~ imm (wrap 128 (c1 + c2));; rec_binop Sub x c
             | NConst c2, _ => c <~ imm (wrap 128 (c2 - c1));; rec_binop Sub c y
             | _, _ => plain
             end)
  | _, _, _ => no_match
  end.

(** (a + c2) - c1 == a + (c2 - c1) *)
Definition arm_sub_add : arm :=
  match op, n0, n1 with
  | Sub, NBinOp Add x y, NConst c1 =>
      s <~ const_side x y;;
      found (match s with
             | Some (other, c2) => c <~ imm (wrap 128 (c2 - c1));; rec_binop Add other c
             | None => plain
             end)
  | _, _, _ => no_match
  end.

(** (a | c2) & c1 == (a & c1) | (c2 & c1) *)
Definition arm_and_or : arm :=
  match op, n0, n1 with
  | And, NBinOp Or x y, NConst c1 =>
      s <~ const_side x y;;
      found (match s with
             | Some (other, c2) =>
                 c <~ imm c1;;
                 v <~ rec_binop And other c;;
                 k <~ imm (Z.land c1 c2);;
                 get_or_insert (NBinOp Or v k)
             | None => plain
             end)
  | _, _, _ => no_match
  end.

(** If only new bits are taken from a blended value, the blend is skipped. *)
Definition arm_and_blend : arm :=
  match op, n0, n1 with
  | And, NBlend _ rhs mask, NConst c1 =>
      if Z.land mask c1 =? c1 then found (c <~ imm c1;; get_or_insert (NBinOp And rhs c))
      else no_match
  | _, _, _ => no_match
  end.

Definition arm_and_extract_all : arm :=
  match op, n0, n1 with
  | And, NExtract _ _ take, NConst c1 =>
      mask <~ blift (bitmask_u128 take);;
      if c1 =? mask then found (bret a0) else no_match
  | _, _, _ => no_match
  end.

Definition arm_and_extract : arm :=
  match op, n0, n1 with
  | And, NExtract val 0 take, NConst c1 =>
      found (mask <~ blift (bitmask_u128 take);;
             m <~ imm (Z.land c1 mask);;
             rec_binop And val m)
  | _, _, _ => no_match
  end.

Definition arm_and_load : arm :=
  match op, n0, n1 with
  | And, (NLoadPtr _ _ size | NLoadPtrImm _ _ size), NConst c1 =>
      if ds_num_bits size <=? trailing_ones c1 then found (bret a0)
      else if ds_num_bits size <=? trailing_zeros 128 c1 then found (imm 0)
      else no_match
  | _, _, _ => no_match
  end.

Definition binop_arms : list arm :=
  [arm_const; arm_cmp_eq; arm_identity; arm_zero; arm_self; arm_shr; arm_and_bool; arm_and_mask;
   arm_and_shl; arm_and_and; arm_add_add; arm_add_sub; arm_sub_sub; arm_sub_add; arm_or_or;
   arm_and_or; arm_and_blend; arm_and_extract_all; arm_and_extract; arm_and_load].
End binop_arms.

Definition binop_step (op : BinOp) (a0 a1 : ValId) : bm ValId :=
  n0 <~ node a0;;
  n1 <~ node a1;;
  run_arms (binop_arms op a0 a1 n0 n1) (plain op a0 a1).

(** ** Extractions *)

Section extract_arms.
Context (val : ValId) (skip take : Z) (n : ValNode).

Definition ext_const : arm :=
  match n with
  | NConst c =>
      found (_ <~ blift (assert (skip <? 128));;
             mask <~ blift (bitmask_u128 take);;
             imm (Z.land (Z.shiftr c skip) mask))
  | _ => no_match
  end.

Definition ext_extract : arm :=
  match n with
  | NExtract val skip_inner take_inner =>
      found (if take_inner <=? skip then imm 0
             else
               _ <~ blift (assert (skip + skip_inner <? 256));;
               rec_extract val (skip + skip_inner) (Z.min take (take_inner - skip)))
  | _ => no_match
  end.

Definition ext_bool : arm :=
  match n with
  | NUnOp (SelectBit _ | IsZero | Parity) _ =>
      found (if skip =? 0 then bret val else imm 0)
  | _ => no_match
  end.

(** Crop the extraction to the size of the data. *)
Definition ext_load_crop : arm :=
  match n with
  | NLoadPtr _ _ size =>
      if ds_num_bits size <? skip + take then
        found (if ds_num_bits size <=? skip then imm 0
               else rec_extract val skip (wrap 8 (ds_num_bits size - skip)))
      else no_match
  | _ => no_match
  end.

Definition ext_load_all : arm :=
  match n with
  | NLoadPtr _ _ size | NLoadPtrImm _ _ size =>
      if (skip =? 0) && (ds_num_bits size <=? take) then found (bret val) else no_match
  | _ => no_match
  end.

Definition ext_load_low : arm :=
  match n with
  | NLoadPtr ptr offset size =>
      if (skip =? 0) && (take <? ds_num_bits size) then
        match try_from_bits take with
        | Some s => found (load_ptr_offset ptr s offset)
        | None => no_match
        end
      else no_match
  | _ => no_match
  end.

Definition ext_load_imm_none : arm :=
  match n with
  | NLoadPtrImm _ _ size => if ds_num_bits size <=? skip then found (imm 0) else no_match
  | _ => no_match
  end.

Definition ext_load_imm : arm :=
  match n with
  | NLoadPtrImm ptr offset size =>
      if (skip mod 8 =? 0) && bool_decide (take ∈ [8; 16; 32; 64; 128])
         && (skip + take <? ds_num_bits size) then
        found (s <~ blift (try_from_bits take);;
               _ <~ blift (assert (offset + skip / 8 <? 2 ^ 16));;
               load_ptr_imm ptr s (offset + skip / 8))
      else no_match
  | _ => no_match
  end.

Definition ext_blend : arm :=
  match n with
  | NBlend lhs rhs mask =>
      _ <~ blift (assert (skip <? 128));;
      m <~ blift (bitmask_u128 take);;
      let mask_taken := Z.land (Z.shiftr mask skip) m in
      if count_ones 128 mask_taken =? take then found (rec_extract rhs skip take)
      else if count_ones 128 mask_taken =? 0 then found (rec_extract lhs skip take)
      else no_match
  | _ => no_match
  end.

(** [extract[0..take](x)] under an operator whose low bits depend on the low
    bits of its arguments alone. *)
Definition low_extract (x : ValNode) : option ValId :=
  match x with
  | NExtract v inner_skip inner_take =>
      if (inner_skip =? 0) && (skip =? 0) && (take <=? inner_take) then Some v else None
  | _ => None
  end.

(** [(x & c)[i..j] == x[i..j] & c[i..j]] *)
Definition ext_masked (op : BinOp) (x y : ValId) (nx ny : ValNode) : arm :=
  let masked inner c :=
    found (v <~ rec_extract inner skip take;;
           _ <~ blift (assert (skip <? 128));;
           mask <~ blift (bitmask_u128 take);;
           m <~ imm (Z.land (Z.shiftr c skip) mask);;
           rec_binop And v m) in
  match op, nx, ny with
  | And, NConst c, _ => masked y c
  | And, _, NConst c => masked x c
  | _, _, _ => no_match
  end.

(** An operand masked with at least the bits that are taken. *)
Definition ext_and_operand (op : BinOp) (i0 i1 y : ValId) : arm :=
  m0 <~ node i0;;
  _ <~ node i1;;
  match m0 with
  | NConst c =>
      if (skip =? 0) && (take <=? trailing_ones c) then
        found (inner <~ rec_binop op i1 y;; rec_extract inner skip take)
      else no_match
  | _ => no_match
  end.

Definition ext_bitwise : arm :=
  match n with
  | NBinOp ((Add | Or | And | Xor) as op) x y =>
      nx <~ node x;;
      ny <~ node y;;
      orelse
        (match low_extract nx, low_extract ny with
         | Some v, _ => found (inner <~ rec_binop op v y;; rec_extract inner skip take)
         | None, Some v => found (inner <~ rec_binop op v x;; rec_extract inner skip take)
         | None, None =>
             match nx with
             | NBinOp And i0 i1 => ext_and_operand op i0 i1 y
             | _ => ext_masked op x y nx ny
             end
         end)
        (match op with
         | Or | And | Xor =>
             found (lhs <~ rec_extract x skip take;;
                    rhs <~ rec_extract y skip take;;
                    rec_binop op lhs rhs)
         | _ => no_match
         end)
  | _ => no_match
  end.

Definition ext_shl : arm :=
  match n with
  | NBinOp Shl x amount =>
      _ <~ node x;;
      na <~ node amount;;
      match na with
      | NConst c =>
          _ <~ blift (assert (skip + take <? 256));;
          found (if skip + take <=? c then imm 0
                 else if c <=? skip then rec_extract x (skip - wrap 8 c) take
                 else
                   shift <~ imm (wrap 8 c - skip);;
                   inner <~ rec_binop Shl x shift;;
                   get_or_insert (NExtract inner 0 take))
      | _ => no_match
      end
  | _ => no_match
  end.

Definition ext_ite : arm :=
  match n with
  | NIte cond if_zero if_nonzero =>
      found (if_zero <~ rec_extract if_zero skip take;;
             if_nonzero <~ rec_extract if_nonzero skip take;;
             get_or_insert (NIte cond if_zero if_nonzero))
  | _ => no_match
  end.

(** [extract((x +- c2)[0..take] - c1)] *)
Definition ext_sub : arm :=
  match n with
  | NBinOp Sub lhs rhs =>
      nr <~ node rhs;;
      nl <~ node lhs;;
      match nr, nl with
      | NConst c1, NExtract v inner_skip inner_take =>
          if (skip =? 0) && (inner_skip =? skip) && (inner_take =? take) then
            nv <~ node v;;
            match nv with
            | NBinOp ((Add | Sub) as inner_op) inner_lhs inner_rhs =>
                nc <~ node inner_rhs;;
                match nc with
                | NConst c2 =>
                    found (sum <~ imm (match inner_op with
                                       | Sub => wrap 128 (c1 + c2)
                                       | _ => wrap 128 (c1 - c2)
                                       end);;
                           v <~ rec_binop Sub inner_lhs sum;;
                           rec_extract v skip take)
                | _ => no_match
                end
            | _ => no_match
            end
          else no_match
      | _, _ => no_match
      end
  | _ => no_match
  end.

Definition extract_arms : list arm :=
  [ext_const; ext_extract; ext_bool; ext_load_crop; ext_load_all; ext_load_low; ext_load_imm_none;
   ext_load_imm; ext_blend; ext_bitwise; ext_shl; ext_ite; ext_sub].
End extract_arms.

Definition extract_step (val : ValId) (skip take : Z) : bm ValId :=
  n <~ node val;;
  run_arms (extract_arms val skip take n) (get_or_insert (NExtract val skip take)).

End steps.

Fixpoint binop (fuel : nat) (op : BinOp) (lhs rhs : ValId) {struct fuel} : bm ValId :=
  match fuel with
  | O => bpanic
  | S fuel => binop_step (binop fuel) (extract fuel) op lhs rhs
  end
with extract (fuel : nat) (val : ValId) (skip take : Z) {struct fuel} : bm ValId :=
  match fuel with
  | O => bpanic
  | S fuel => extract_step (binop fuel) (extract fuel) val skip take
  end.

(** ** Conditionals *)

Fixpoint ite (fuel : nat) (cond if_zero if_nonzero : ValId) : bm ValId :=
  match fuel with
  | O => bpanic
  | S fuel =>
      nc <~ node cond;;
      nz <~ node if_zero;;
      nn <~ node if_nonzero;;
      match nc with
      | NConst c => bret (if c =? 0 then if_zero else if_nonzero)
      | _ =>
          match nz with
          | NIte inner_cond inner_if_zero _ =>
              if decide (cond = inner_cond) then ite fuel cond inner_if_zero if_nonzero
              else
                match nn with
                | NIte inner_cond _ inner_if_nonzero =>
                    if decide (cond = inner_cond) then ite fuel cond if_zero inner_if_nonzero
                    else get_or_insert (NIte cond if_zero if_nonzero)
                | _ => get_or_insert (NIte cond if_zero if_nonzero)
                end
          | _ =>
              match nn with
              | NIte inner_cond _ inner_if_nonzero =>
                  if decide (cond = inner_cond) then ite fuel cond if_zero inner_if_nonzero
                  else get_or_insert (NIte cond if_zero if_nonzero)
              | _ => get_or_insert (NIte cond if_zero if_nonzero)
              end
          end
      end
  end.

(** The condition without the tests for zero around it, and whether they flip
    its meaning. *)
Fixpoint optimize_as_if_zero (fuel : nat) (t : list ValNode) (cond : ValId) : option (ValId * bool) :=
  match fuel with
  | O => None
  | S fuel =>
      n ← t !! cond;
      match n with
      | NUnOp IsZero inner => '(val, flip) ← optimize_as_if_zero fuel t inner; Some (val, negb flip)
      | _ => Some (cond, false)
      end
  end.

Definition determine_updated_bytes_in (t : list ValNode) (new_val original_value : ValId)
    : option (option Z) :=
  n ← t !! new_val;
  Some (match n with
        | NBlend lhs _ mask =>
            if decide (lhs = original_value) then Some ((128 - leading_zeros 128 mask) / 8) else None
        | _ => None
        end).
