(* ===== verification/ValSpec.v ===== *)
(** * Specifications of computations on a value builder

    The invariant of a [ValBuilder], what it means that a computation builds a
    value of at most some weight, and the rules to prove it.  An arm either
    leaves the builder alone or builds the value. *)
From S2P Require Import Prelude IlOps ValTree ValBuild.

#[local] Open Scope bm_scope.

Abbreviation den E b i := (denote E (value_tree b) i).
Abbreviation wt b i := (weight (value_tree b) i).

(** ** The invariant *)

(** An addition of or a subtraction by a constant, as [const_offset] sees it. *)
Definition offset_node (t : list ValNode) (n : ValNode) : Prop :=
  match n with
  | NBinOp (Add | Sub) _ y => exists c, t !! y = Some (NConst c)
  | _ => False
  end.

(** Constants are 128-bit values, extractions stay in 128 bits, shifts by a
    constant are in range, an extraction is not of an extraction, and a
    constant offset is not zero and not of another constant offset. *)
Definition node_ok (t : list ValNode) (n : ValNode) : Prop :=
  match n with
  | NConst c => inw 128 c
  | NBinOp op x y =>
      (op = Shl -> forall c, t !! y = Some (NConst c) -> c < 128)
      /\ (op = Add \/ op = Sub -> forall c, t !! y = Some (NConst c) -> c <> 0
          /\ forall nx, t !! x = Some nx -> ~ offset_node t nx)
  | NExtract v skip take =>
      0 <= skip /\ 1 <= take /\ skip + take <= 128
      /\ forall v' s k, t !! v <> Some (NExtract v' s k)
  | NBlend _ _ mask => inw 128 mask
  | NLoadPtrImm _ offset size => 0 <= offset /\ offset + ds_num_bytes size <= 2 ^ 16
  | _ => True
  end.

Record wf (b : ValBuilder) : Prop := {
  wf_ordered : ordered (value_tree b);
  wf_nodes : forall i n, value_tree b !! i = Some n -> node_ok (value_tree b) n;
  wf_ids : forall n i, find_node (node_ids b) n = Some i -> value_tree b !! i = Some n;
}.

Definition valid (b : ValBuilder) (i : ValId) : Prop := (i < length (value_tree b))%nat.
Definition extends (b b' : ValBuilder) : Prop := exists u, value_tree b' = value_tree b ++ u.

Lemma extends_refl b : extends b b.
Proof. exists []. by rewrite app_nil_r. Qed.
Lemma extends_trans b1 b2 b3 : extends b1 b2 -> extends b2 b3 -> extends b1 b3.
Proof. intros [u Hu] [v Hv]. exists (u ++ v). by rewrite Hv, Hu, <- app_assoc. Qed.

Lemma valid_node b i : valid b i -> exists n, value_tree b !! i = Some n.
Proof. intros H. by apply lookup_lt_is_Some_2 in H as [n Hn]; exists n. Qed.
Lemma node_valid b i n : value_tree b !! i = Some n -> valid b i.
Proof. apply lookup_lt_Some. Qed.
Lemma extends_valid b b' i : extends b b' -> valid b i -> valid b' i.
Proof. intros [u Hu] H. unfold valid in *. rewrite Hu, length_app. lia. Qed.
Lemma extends_node b b' i n : extends b b' -> value_tree b !! i = Some n -> value_tree b' !! i = Some n.
Proof. intros [u Hu] H. rewrite Hu. by apply lookup_app_l_Some. Qed.

(** The value [v] of a node and a bound on its weight. *)
Definition val_is (E : Env) (b : ValBuilder) (i : ValId) (v w : Z) : Prop :=
  valid b i /\ den E b i = v /\ wt b i <= w.

Lemma extends_val E b b' i v w : extends b b' -> val_is E b i v w -> val_is E b' i v w.
Proof.
  intros Hx (Hi & Hv & Hw). split; [by apply (extends_valid b)|]. destruct Hx as [u Hu].
  unfold denote, weight in *. rewrite Hu, !fold_tree_prefix by done. done.
Qed.

Lemma val_self E b i : valid b i -> val_is E b i (den E b i) (wt b i).
Proof. done. Qed.

Lemma den_node E b i n :
  wf b -> value_tree b !! i = Some n -> den E b i = eval_node E (denote E (value_tree b)) n.
Proof. intros Hb Hn. apply fold_tree_eq; [apply eval_node_local|apply Hb|done]. Qed.
Lemma wt_node b i n :
  wf b -> value_tree b !! i = Some n -> wt b i = node_weight (weight (value_tree b)) n.
Proof. intros Hb Hn. apply fold_tree_eq; [apply node_weight_local|apply Hb|done]. Qed.

Lemma node_args b i n :
  wf b -> value_tree b !! i = Some n -> Forall (valid b) (referenced_nodes n).
Proof.
  intros Hb Hn. eapply Forall_impl; [|exact (wf_ordered b Hb i n Hn)].
  intros a Ha. cbn beta in Ha. apply node_valid in Hn. unfold valid in *. lia.
Qed.

(** ** Ranges *)

Lemma ds_num_bytes_range s : 1 <= ds_num_bytes s <= 16.
Proof. destruct s; simpl; lia. Qed.

Lemma trailing_zeros_range x : 0 <= trailing_zeros 128 x <= 128.
Proof. unfold trailing_zeros. destruct (ctz_from_spec (Z.to_nat 128) 0 x) as (H & _). lia. Qed.

Lemma small_inw x : 0 <= x <= 128 -> inw 128 x.
Proof. unfold inw. lia. Qed.

Lemma unop_value_inw op x : inw 128 x -> inw 128 (unop_value op x).
Proof.
  intros Hx. assert (inw 128 0) as H0 by (by apply small_inw).
  assert (forall y, inw 128 (Z.land y 1)) as H1.
  { intros y. change 1 with (Z.ones 1). rewrite Z.land_ones by lia. apply small_inw.
    pose proof (Z.mod_pos_bound y (2 ^ 1)). lia. }
  assert (forall n y, (n <= 16)%nat -> inw 128 (swap_bytes n y)) as H2.
  { intros n y Hn. apply (inw_mono (8 * Z.of_nat n)); [lia|]. apply swap_bytes_inw. }
  unfold unop_value. destruct op; simpl; try done.
  - apply H2. lia.
  - apply H2. lia.
  - apply H2. lia.
  - by apply inw_b2z.
  - destruct (assert _); simpl; [apply H1|done].
  - destruct (assert _); simpl; [by apply wrap_inw|done].
  - apply small_inw, trailing_zeros_range.
  - destruct (Z.leb_spec (leading_zeros 128 x) 127); simpl; [|done]. apply small_inw.
    unfold leading_zeros in *. destruct (Z.eqb_spec x 0); [lia|].
    pose proof (Z.log2_nonneg x). unfold inw in Hx. pose proof (Z.log2_lt_pow2 x 128 ltac:(lia)). lia.
Qed.

Lemma binop_value_inw op x y : inw 128 x -> inw 128 y -> inw 128 (binop_value op x y).
Proof.
  intros Hx Hy. unfold binop_value. destruct (binop_execute op x y) as [r|] eqn:Er; [|by apply small_inw].
  by apply (binop_execute_range op x y).
Qed.

Lemma load_bytes_range E p off n :
  env_ok E -> 0 <= n -> inw (8 * n) (from_le_bytes ((fun i => load_byte E p (off + i)) <$> seqZ 0 n)).
Proof.
  intros HE Hn.
  replace (8 * n) with (8 * Z.of_nat (length ((fun i => load_byte E p (off + i)) <$> seqZ 0 n))).
  - apply from_le_bytes_inw. apply list.Forall_forall. intros v Hv.
    apply list_elem_of_fmap in Hv as (i & -> & _). apply HE.
  - rewrite length_fmap, length_seqZ. lia.
Qed.

Lemma load_value_range E ptr offset size :
  env_ok E -> inw (ds_num_bits size) (load_value E ptr offset size).
Proof.
  intros HE. pose proof (ds_num_bytes_range size) as Hs. unfold load_value, ds_num_bits.
  rewrite Z.mul_comm. apply load_bytes_range; [done|lia].
Qed.

Lemma blend_value_inw x y mask : inw 128 x -> inw 128 y -> inw 128 (blend_value x y mask).
Proof.
  intros Hx Hy. unfold blend_value. apply inw_testbit; [lia| |].
  - apply Z.lor_nonneg. split; [apply Z.ldiff_nonneg|apply Z.land_nonneg]; left; apply Hx || apply Hy.
  - intros i Hi. rewrite Z.lor_spec, Z.ldiff_spec, Z.land_spec.
    by rewrite (testbit_above 128 x), (testbit_above 128 y) by (done || lia).
Qed.

Lemma extract_value_range x skip take :
  0 <= take -> inw take (extract_value x skip take).
Proof.
  intros Ht. unfold extract_value. rewrite Z.land_ones by done.
  unfold inw. apply Z.mod_pos_bound. lia.
Qed.

(** Every node denotes a 128-bit value. *)
Lemma den_inw E b i : env_ok E -> wf b -> valid b i -> inw 128 (den E b i).
Proof.
  intros HE Hb. induction (lt_wf i) as [i _ IH]. intros Hi. destruct (valid_node b i Hi) as [n Hn].
  rewrite (den_node E b i n Hb Hn). pose proof (wf_nodes b Hb i n Hn) as Hok.
  pose proof (wf_ordered b Hb i n Hn) as Ha.
  assert (forall a, (a < i)%nat -> inw 128 (denote E (value_tree b) a)) as Hargs.
  { intros a Hlt. apply IH; [done|]. unfold valid in *. lia. }
  destruct n; simpl in *; decompose_Forall_hyps; try apply HE; try done.
  - apply binop_value_inw; by apply Hargs.
  - apply unop_value_inw; by apply Hargs.
  - apply blend_value_inw; by apply Hargs.
  - apply (inw_mono take); [lia|]. apply extract_value_range. lia.
  - unfold ite_value. case_match; by apply Hargs.
  - apply (inw_mono (ds_num_bits size)); [destruct size; vm_compute; congruence|]. by apply load_value_range.
  - apply (inw_mono (ds_num_bits size)); [destruct size; vm_compute; congruence|]. by apply load_value_range.
Qed.

Lemma wt_pos b i : wf b -> valid b i -> 1 <= wt b i.
Proof.
  intros Hb. induction (lt_wf i) as [i _ IH]. intros Hi. destruct (valid_node b i Hi) as [n Hn].
  rewrite (wt_node b i n Hb Hn). pose proof (wf_ordered b Hb i n Hn) as Ha.
  assert (forall a, (a < i)%nat -> 1 <= weight (value_tree b) a) as Hargs.
  { intros a Hlt. apply IH; [done|]. unfold valid in *. lia. }
  destruct n; simpl in *; decompose_Forall_hyps; try lia;
    repeat match goal with
    | H : (?a < i)%nat |- _ => pose proof (Hargs a H); clear H
    end; try (unfold binop_weight; case_match); lia.
Qed.

(** ** Computations that build a value *)

(** The node a number stands for is the one that was asked for. *)
Lemma inserted_node n b id b' : wf b -> get_or_insert n b = Some (id, b') -> value_tree b' !! id = Some n.
Proof.
  intros Hb. unfold get_or_insert. destruct (find_node (node_ids b) n) as [i|] eqn:Ef; intros H; simplify_eq.
  - by apply (wf_ids b' Hb).
  - simpl. by rewrite lookup_app_r, Nat.sub_diag by lia.
Qed.

Section rules.
Context (E : Env) (HE : env_ok E).

(** [m] builds a value [v] of weight at most [w], keeping what is there. *)
Definition builds (m : bm ValId) (b : ValBuilder) (v w : Z) : Prop :=
  exists id b', m b = Some (id, b') /\ extends b b' /\ wf b' /\ val_is E b' id v w.

(** An arm that leaves the builder alone or builds the value. *)
Definition tries (a : arm) (b : ValBuilder) (v w : Z) : Prop :=
  a b = Some (None, b)
  \/ exists id b', a b = Some (Some id, b') /\ extends b b' /\ wf b' /\ val_is E b' id v w.

Lemma builds_weaken m b v w w' : builds m b v w -> w <= w' -> builds m b v w'.
Proof.
  intros (id & b' & E1 & Hx & Hb & Hi & Hv & Hw) Hle. exists id, b'. repeat (split; [done|]). lia.
Qed.

Lemma builds_eq m b v v' w : builds m b v w -> v = v' -> builds m b v' w.
Proof. by intros ? <-. Qed.

Lemma builds_ret b i v w : wf b -> val_is E b i v w -> builds (bret i) b v w.
Proof. intros Hb Hv. exists i, b. split; [done|]. split; [apply extends_refl|done]. Qed.

Lemma builds_bind_eq m k b v w v' w' :
  builds m b v w ->
  (forall id b', m b = Some (id, b') -> extends b b' -> wf b' -> val_is E b' id v w ->
     builds (k id) b' v' w') ->
  builds (id <~ m;; k id) b v' w'.
Proof.
  intros (id & b' & E1 & Hx & Hb & Hv) Hk.
  destruct (Hk id b' E1 Hx Hb Hv) as (id2 & b2 & E2 & Hx2 & Hb2 & Hv2).
  exists id2, b2. unfold bbind. rewrite E1. split; [exact E2|].
  split; [by apply (extends_trans b b')|done].
Qed.

Lemma builds_bind m k b v w v' w' :
  builds m b v w ->
  (forall id b', extends b b' -> wf b' -> val_is E b' id v w -> builds (k id) b' v' w') ->
  builds (id <~ m;; k id) b v' w'.
Proof. intros Hm Hk. apply (builds_bind_eq m k b v w); [done|]. intros id b' _. apply Hk. Qed.

Lemma builds_node i n k b v w :
  value_tree b !! i = Some n -> builds (k n) b v w -> builds (n <~ node i;; k n) b v w.
Proof.
  intros Hn (id & b' & E1 & H). exists id, b'. split; [|done].
  unfold bbind, node. rewrite Hn. exact E1.
Qed.

Lemma builds_lift {T} (o : option T) x k b v w :
  o = Some x -> builds (k x) b v w -> builds (x <~ blift o;; k x) b v w.
Proof.
  intros Ho (id & b' & E1 & H). exists id, b'. split; [|done]. unfold bbind, blift.
  rewrite Ho. exact E1.
Qed.

Lemma builds_insert b n :
  wf b -> Forall (valid b) (referenced_nodes n) -> node_ok (value_tree b) n ->
  builds (get_or_insert n) b (eval_node E (denote E (value_tree b)) n)
    (node_weight (weight (value_tree b)) n).
Proof.
  intros Hb Ha Hok. unfold builds, get_or_insert. destruct (find_node (node_ids b) n) as [id|] eqn:Ef.
  { pose proof (wf_ids b Hb n id Ef) as Hn. exists id, b. split; [done|].
    split; [apply extends_refl|]. split; [done|]. split; [by apply (node_valid b id n)|].
    rewrite (den_node E b id n Hb Hn), (wt_node b id n Hb Hn). done. }
  set (b' := {| value_tree := value_tree b ++ [n]; node_ids := (n, length (value_tree b)) :: node_ids b |}).
  assert (extends b b') as Hx by (by exists [n]).
  assert (value_tree b' !! length (value_tree b) = Some n) as Hn.
  { simpl. by rewrite lookup_app_r, Nat.sub_diag by lia. }
  assert (forall i m, value_tree b' !! i = Some m ->
    value_tree b !! i = Some m \/ i = length (value_tree b) /\ m = n) as Hcases.
  { intros i m Hi. simpl in Hi. apply lookup_app_Some in Hi as [Hi|[Hge Hi]]; [by left|right].
    apply list_lookup_singleton_Some in Hi as [Hi <-]. split; [lia|done]. }
  assert (forall m, Forall (valid b) (referenced_nodes m) -> node_ok (value_tree b) m ->
    node_ok (value_tree b') m) as Hmono.
  { intros m Hargs Hm.
    assert (forall i x, valid b i -> value_tree b' !! i = Some x -> value_tree b !! i = Some x) as Hback.
    { intros i x Hi Hl. destruct (Hcases i x Hl) as [|[-> _]]; [done|]. unfold valid in Hi. lia. }
    destruct m; simpl in *; decompose_Forall_hyps; try done.
    - destruct Hm as [Hs Ho]. split.
      + intros Eop c Hc. apply (Hs Eop c). by apply Hback.
      + intros Eop c Hc. destruct (Ho Eop c) as [Hne Hnot]; [by apply Hback|]. split; [done|].
        intros nx Hnx. apply Hback in Hnx; [|done]. intros Hoff. apply (Hnot nx Hnx).
        pose proof (node_args b _ nx Hb Hnx) as Hxargs.
        destruct nx as [| |[] ? y| | | | | | | | | |]; simpl in *; try done;
          destruct Hoff as [c' Hc']; exists c'; decompose_Forall_hyps; by apply Hback.
    - destruct Hm as (H1 & H2 & H3 & H4). repeat (split; [done|]). intros v' s k Hl.
      apply Hback in Hl; [|done]. by apply H4 in Hl. }
  assert (wf b') as Hb'.
  { split.
    - intros i m Hi. destruct (Hcases i m Hi) as [Hi'|[-> ->]]; [by apply (wf_ordered b Hb)|exact Ha].
    - intros i m Hi. apply Hmono.
      + destruct (Hcases i m Hi) as [Hi'|[-> ->]]; [by apply (node_args b i)|exact Ha].
      + destruct (Hcases i m Hi) as [Hi'|[-> ->]]; [by apply (wf_nodes b Hb i)|exact Hok].
    - intros m i Hf. simpl in Hf. destruct (decide (n = m)) as [->|]; [by injection Hf as <-|].
      apply (extends_node b b'); [done|]. by apply (wf_ids b Hb). }
  exists (length (value_tree b)), b'. split; [done|]. split; [done|]. split; [done|].
  split; [by apply (node_valid b' _ n)|].
  rewrite (den_node E b' _ n Hb' Hn), (wt_node b' _ n Hb' Hn).
  rewrite (eval_node_local E _ (denote E (value_tree b)) n), (node_weight_local _ (weight (value_tree b)) n);
    [done|..]; eapply Forall_impl; [|exact Ha| |exact Ha]; intros a Hv; cbn beta in Hv;
    unfold denote, weight; simpl; by apply fold_tree_prefix.
Qed.

Lemma builds_imm b c : wf b -> inw 128 c -> builds (imm c) b c 1.
Proof. intros Hb Hc. apply (builds_insert b (NConst c)); [done|constructor|done]. Qed.

(** ** Arms *)

Lemma tries_no_match b v w : tries no_match b v w.
Proof. by left. Qed.

Lemma tries_found m b v w : builds m b v w -> tries (found m) b v w.
Proof.
  intros (id & b' & E1 & H). right. exists id, b'. split; [|done].
  unfold found, bbind. by rewrite E1.
Qed.

Lemma tries_orelse a c b v w : tries a b v w -> tries c b v w -> tries (orelse a c) b v w.
Proof.
  intros [Ha|(id & b' & Ha & H)] Hc; unfold tries, orelse; rewrite Ha; [done|].
  right. by exists id, b'.
Qed.

Lemma tries_node i n k b v w :
  value_tree b !! i = Some n -> tries (k n) b v w -> tries (n <~ node i;; k n) b v w.
Proof. intros Hn H. unfold tries, bbind, node in *. rewrite Hn. exact H. Qed.

Lemma tries_lift {T} (o : option T) x k b v w :
  o = Some x -> tries (k x) b v w -> tries (x <~ blift o;; k x) b v w.
Proof. intros Ho H. unfold tries, bbind, blift in *. rewrite Ho. exact H. Qed.

(** Arms in order: each may use that the ones before it did not match. *)
Lemma builds_arm a l otherwise b v w :
  tries a b v w -> (a b = Some (None, b) -> builds (run_arms l otherwise) b v w) ->
  builds (run_arms (a :: l) otherwise) b v w.
Proof.
  intros [Ha|(id & b' & Ha & H)] Hl.
  - destruct (Hl Ha) as (id & b' & E1 & H). exists id, b'. split; [|done].
    unfold run_arms, bbind in *. simpl. unfold orelse. by rewrite Ha.
  - exists id, b'. split; [|done]. unfold run_arms, bbind. simpl. unfold orelse. by rewrite Ha.
Qed.

Lemma builds_no_arm otherwise b v w :
  builds otherwise b v w -> builds (run_arms [] otherwise) b v w.
Proof. intros (id & b' & E1 & H). exists id, b'. by split. Qed.

End rules.
