(* ===== verification/ValMath.v ===== *)
(** * The arithmetic behind the simplifications of values

    One equation of 128-bit values per simplification of
    [ValBuild.binop_arms] and [ValBuild.extract_arms]. *)
From S2P Require Import Prelude IlOps ValTree ValBuild ValSpec.

(** Equality of sums and differences of wrapped values. *)
Ltac wrap_ring :=
  rewrite ?wrap_add_l, ?wrap_add_r, ?wrap_sub_l, ?wrap_sub_r; f_equal; lia.

Lemma shl_value x c : 0 <= c < 128 -> binop_value Shl x c = wrap 128 (Z.shiftl x c).
Proof.
  intros Hc. unfold binop_value. simpl. unfold wshl.
  rewrite (wrap_small 32) by (unfold inw; lia). by rewrite (Z.mod_small c 128) by lia.
Qed.

Lemma shr_value x c : 0 <= c < 128 -> binop_value Shr x c = Z.shiftr x c.
Proof.
  intros Hc. unfold binop_value. simpl. unfold wshr.
  rewrite (wrap_small 32) by (unfold inw; lia). by rewrite (Z.mod_small c 128) by lia.
Qed.

Lemma shr_is_extract x c : inw 128 x -> 0 <= c < 128 -> Z.shiftr x c = extract_value x c (128 - c).
Proof. intros Hx Hc. unfold extract_value. bitblast. Qed.

(** A mask of ones from bit 0 is an extraction. *)
Lemma trailing_ones_spec c :
  0 <= trailing_ones c <= 128 /\ (forall i, 0 <= i < trailing_ones c -> Z.testbit c i = true).
Proof.
  unfold trailing_ones, trailing_zeros.
  destruct (ctz_from_spec (Z.to_nat 128) 0 (unot 128 c)) as (H1 & H2 & _). split; [lia|].
  intros i Hi. specialize (H2 i Hi). unfold bit in H2. rewrite testbit_unot in H2 by lia.
  rewrite (proj2 (Z.leb_le 0 i)), (proj2 (Z.ltb_lt i 128)) in H2 by lia.
  by destruct (Z.testbit c i).
Qed.

Lemma leading_zeros_spec c i : inw 128 c -> 128 - leading_zeros 128 c <= i -> Z.testbit c i = false.
Proof.
  intros Hc Hi. unfold leading_zeros in Hi. destruct (Z.eqb_spec c 0) as [->|Hne]; [apply Z.bits_0|].
  destruct (Z.lt_ge_cases i 0); [by apply Z.testbit_neg_r|].
  apply Z.bits_above_log2; [unfold inw in Hc; lia|lia].
Qed.

Lemma mask_is_ones c :
  inw 128 c -> trailing_ones c + leading_zeros 128 c = 128 -> c = Z.ones (trailing_ones c).
Proof.
  intros Hc H. destruct (trailing_ones_spec c) as [Hr Hones]. apply Z.bits_inj'. intros i Hi.
  rewrite testbit_ones by lia. rewrite (proj2 (Z.leb_le 0 i)) by lia.
  destruct (Z.ltb_spec i (trailing_ones c)); [by apply Hones|].
  apply leading_zeros_spec; [done|]. lia.
Qed.

Lemma land_1 y : Z.land y 1 = y mod 2.
Proof. apply (Z.land_ones y 1). lia. Qed.

Lemma bool_value op x :
  (op = Parity \/ op = IsZero \/ exists n, op = SelectBit n) ->
  unop_value op x = 0 \/ unop_value op x = 1.
Proof.
  assert (forall y, Z.land y 1 = 0 \/ Z.land y 1 = 1) as H1.
  { intros y. rewrite land_1. pose proof (Z.mod_pos_bound y 2). lia. }
  intros [->|[->|[n ->]]]; unfold unop_value; simpl.
  - apply H1.
  - unfold b2z. case_match; auto.
  - destruct (assert _); simpl; [apply H1|by left].
Qed.

Lemma and_bool v c : v = 0 \/ v = 1 ->
  Z.land v c = if negb (Z.land c 1 =? 0) then v else 0.
Proof.
  intros [->| ->]; [by case_match|]. rewrite Z.land_comm. destruct (Z.eqb_spec (Z.land c 1) 0); [done|].
  cbn [negb]. rewrite land_1 in *. pose proof (Z.mod_pos_bound c 2). lia.
Qed.

(** (a << c1) & c2 == (a & (c2 >> c1)) << c1 *)
Lemma and_shl_value m x c :
  0 <= c < 128 -> inw 128 m ->
  Z.land m (wrap 128 (Z.shiftl x c)) = wrap 128 (Z.shiftl (Z.land x (Z.shiftr m c)) c).
Proof. intros Hc Hm. bitblast. Qed.

Lemma and_blend_value x y mask c :
  Z.land mask c = c -> Z.land (blend_value x y mask) c = Z.land y c.
Proof.
  intros H. apply Z.bits_inj'. intros i Hi. unfold blend_value.
  assert (Z.testbit mask i && Z.testbit c i = Z.testbit c i) as Hb by (by rewrite <- Z.land_spec, H).
  rewrite !Z.land_spec, Z.lor_spec, Z.ldiff_spec, Z.land_spec.
  destruct (Z.testbit x i), (Z.testbit y i), (Z.testbit mask i), (Z.testbit c i); done.
Qed.

Lemma extract_idem x skip take : 0 <= take -> Z.land (extract_value x skip take) (Z.ones take) = extract_value x skip take.
Proof. intros Ht. unfold extract_value. by rewrite <- Z.land_assoc, Z.land_diag. Qed.

Lemma land_ones_small w x m : 0 <= w -> inw w x -> w <= m -> Z.land x (Z.ones m) = x.
Proof.
  intros Hw Hx Hm. rewrite Z.land_ones by lia. apply Z.mod_small. unfold inw in *.
  pose proof (Z.pow_le_mono_r 2 w m). lia.
Qed.

(** A value of [w] bits under a mask that has all, or none, of these bits. *)
Lemma land_covers w x c :
  0 <= w -> inw w x -> w <= trailing_ones c -> Z.land x c = x.
Proof.
  intros Hw Hx Hc. destruct (trailing_ones_spec c) as [_ Hones].
  apply Z.bits_inj'. intros i Hi. rewrite Z.land_spec. destruct (Z.lt_ge_cases i w).
  - rewrite Hones by lia. apply andb_true_r.
  - by rewrite (testbit_above w x) by (done || lia).
Qed.

Lemma land_misses w x c :
  0 <= w <= 128 -> inw w x -> w <= trailing_zeros 128 c -> Z.land x c = 0.
Proof.
  intros Hw Hx Hc. unfold trailing_zeros in Hc.
  destruct (ctz_from_spec (Z.to_nat 128) 0 c) as (_ & H0 & _).
  apply Z.bits_inj'. intros i Hi. rewrite Z.land_spec, Z.bits_0. destruct (Z.lt_ge_cases i w).
  - unfold bit in H0. rewrite H0 by lia. apply andb_false_r.
  - by rewrite (testbit_above w x) by (done || lia).
Qed.

(** ** Extractions *)

Lemma extract_zero skip take : extract_value 0 skip take = 0.
Proof. unfold extract_value. by rewrite Z.shiftr_0_l. Qed.

Lemma extract_all w x take : 0 <= w <= take -> inw w x -> extract_value x 0 take = x.
Proof. intros Hw Hx. unfold extract_value. rewrite Z.shiftr_0_r. by apply (land_ones_small w); [lia| |lia]. Qed.

Lemma extract_none w x skip take :
  0 <= w <= skip -> 0 <= take -> inw w x -> extract_value x skip take = 0.
Proof. intros Hw Ht Hx. unfold extract_value. bitblast. Qed.

Lemma extract_crop w x skip take :
  0 <= skip < w -> w <= skip + take -> inw w x -> extract_value x skip take = extract_value x skip (w - skip).
Proof. intros Hs Hw Hx. unfold extract_value. bitblast. Qed.

Lemma extract_extract x skip take skip' take' :
  0 <= skip -> 0 <= take -> 0 <= skip' -> 0 <= take' ->
  extract_value (extract_value x skip' take') skip take
  = if take' <=? skip then 0 else extract_value x (skip + skip') (Z.min take (take' - skip)).
Proof.
  intros. unfold extract_value. destruct (Z.leb_spec take' skip); [bitblast|].
  destruct (Z.min_spec take (take' - skip)) as [[? ->]|[? ->]]; bitblast.
Qed.

Lemma extract_bool v skip take :
  v = 0 \/ v = 1 -> 0 <= skip -> 1 <= take -> extract_value v skip take = if skip =? 0 then v else 0.
Proof.
  intros Hv Hs Ht. assert (inw 1 v) as Hin by (unfold inw; lia).
  destruct (Z.eqb_spec skip 0) as [->|]; [by apply (extract_all 1); [lia|]|].
  by apply (extract_none 1); [lia..|].
Qed.

(** Counting the bits of a mask. *)
Lemma count_bits_range n x : 0 <= count_bits n x <= Z.of_nat n.
Proof. induction n as [|n IH]; [simpl; lia|]. cbn [count_bits]. unfold b2z. case_match; lia. Qed.

Lemma count_bits_none n x i : count_bits n x = 0 -> 0 <= i < Z.of_nat n -> Z.testbit x i = false.
Proof.
  induction n as [|n IH]; [lia|]. cbn [count_bits]. pose proof (count_bits_range n x). intros Hc Hi.
  destruct (Z.testbit x (Z.of_nat n)) eqn:Ebit; simpl in Hc; [lia|].
  destruct (Z.eq_dec i (Z.of_nat n)) as [->|]; [done|]. apply IH; lia.
Qed.

Lemma count_bits_all n x i : count_bits n x = Z.of_nat n -> 0 <= i < Z.of_nat n -> Z.testbit x i = true.
Proof.
  induction n as [|n IH]; [lia|]. cbn [count_bits]. pose proof (count_bits_range n x). intros Hc Hi.
  destruct (Z.testbit x (Z.of_nat n)) eqn:Ebit; simpl in Hc; [|lia].
  destruct (Z.eq_dec i (Z.of_nat n)) as [->|]; [done|]. apply IH; lia.
Qed.

Lemma count_bits_small k n x :
  (k <= n)%nat -> (forall i, Z.of_nat k <= i -> Z.testbit x i = false) -> count_bits n x = count_bits k x.
Proof.
  intros Hk Hx. induction Hk as [|n Hk IH]; [done|]. cbn [count_bits]. rewrite Hx by lia. simpl. lia.
Qed.

Lemma count_ones_full x take :
  0 <= take <= 128 -> count_ones 128 (Z.land x (Z.ones take)) = take -> Z.land x (Z.ones take) = Z.ones take.
Proof.
  intros Ht Hc. unfold count_ones in Hc.
  rewrite (count_bits_small (Z.to_nat take)) in Hc; [|lia|].
  - apply Z.bits_inj'. intros i Hi. rewrite testbit_ones by lia. zbool.
    destruct (Z.ltb_spec i take); [|rewrite Z.land_spec, testbit_ones by lia; zbool; apply andb_false_r].
    apply (count_bits_all (Z.to_nat take)); lia.
  - intros i Hi. rewrite Z.land_spec, testbit_ones by lia. zbool. apply andb_false_r.
Qed.

Lemma count_ones_empty x take :
  0 <= take <= 128 -> count_ones 128 (Z.land x (Z.ones take)) = 0 -> Z.land x (Z.ones take) = 0.
Proof.
  intros Ht Hc. unfold count_ones in Hc. apply Z.bits_inj'. intros i Hi. rewrite Z.bits_0.
  destruct (Z.lt_ge_cases i 128).
  - apply (count_bits_none (Z.to_nat 128)); [done|lia].
  - rewrite Z.land_spec, testbit_ones by lia. zbool. apply andb_false_r.
Qed.

(** An extraction of a blended value takes one side where the mask is
    constant. *)
Lemma extract_blend x y mask skip take (b : bool) :
  0 <= skip -> 0 <= take -> Z.land (Z.shiftr mask skip) (Z.ones take) = (if b then Z.ones take else 0) ->
  extract_value (blend_value x y mask) skip take = extract_value (if b then y else x) skip take.
Proof.
  intros Hs Ht Hm. unfold extract_value, blend_value. apply Z.bits_inj'. intros i Hi.
  assert (Z.testbit mask (i + skip) && (i <? take) = b && (i <? take)) as Hb.
  { assert (Z.testbit (Z.land (Z.shiftr mask skip) (Z.ones take)) i
      = Z.testbit (if b then Z.ones take else 0) i) as Hbit by (by rewrite Hm).
    rewrite Z.land_spec, Z.shiftr_spec, testbit_ones in Hbit by lia. rewrite (proj2 (Z.leb_le 0 i)) in Hbit by lia.
    simpl in Hbit. rewrite Hbit. destruct b; [|by rewrite Z.bits_0].
    rewrite testbit_ones by lia. by rewrite (proj2 (Z.leb_le 0 i)) by lia. }
  rewrite !Z.land_spec, !Z.shiftr_spec, Z.lor_spec, Z.ldiff_spec, Z.land_spec, testbit_ones by lia.
  rewrite (proj2 (Z.leb_le 0 i)) by lia. simpl.
  destruct b, (Z.testbit x (i + skip)), (Z.testbit y (i + skip)), (Z.testbit mask (i + skip)), (i <? take); done.
Qed.

Definition bitwise (op : BinOp) : Prop := op = And \/ op = Or \/ op = Xor.

Lemma extract_bitwise op x y skip take :
  bitwise op -> 0 <= skip -> 0 <= take ->
  extract_value (binop_value op x y) skip take
  = binop_value op (extract_value x skip take) (extract_value y skip take).
Proof.
  intros [->|[->| ->]] Hs Ht; unfold binop_value, extract_value; simpl; bitblast.
Qed.

(** The low bits of a sum, a difference or a bitwise operator are those of the
    operator on the low bits. *)
Lemma extract_low_eq x x' take :
  0 <= take -> extract_value x 0 take = extract_value x' 0 take <-> x mod 2 ^ take = x' mod 2 ^ take.
Proof. intros Ht. unfold extract_value. by rewrite !Z.shiftr_0_r, !Z.land_ones by lia. Qed.

Lemma extract_low op x x' y y' take :
  op = Add \/ op = Sub \/ bitwise op ->
  0 <= take <= 128 ->
  extract_value x 0 take = extract_value x' 0 take -> extract_value y 0 take = extract_value y' 0 take ->
  extract_value (binop_value op x y) 0 take = extract_value (binop_value op x' y') 0 take.
Proof.
  intros Hop Ht Hx Hy.
  assert (forall a, wrap 128 a mod 2 ^ take = a mod 2 ^ take) as Hwrap.
  { intros a. apply (wrap_wrap_le 128 take a). lia. }
  destruct Hop as [->|[->|Hop]].
  - rewrite extract_low_eq in * by lia. unfold binop_value. simpl. rewrite !Hwrap.
    rewrite Zplus_mod, Hx, Hy. by rewrite <- Zplus_mod.
  - rewrite extract_low_eq in * by lia. unfold binop_value. simpl. rewrite !Hwrap.
    rewrite Zminus_mod, Hx, Hy. by rewrite <- Zminus_mod.
  - rewrite !extract_bitwise by (done || lia). by rewrite Hx, Hy.
Qed.

Lemma extract_low_extract x take take' :
  0 <= take <= take' -> extract_value (extract_value x 0 take') 0 take = extract_value x 0 take.
Proof. intros Ht. unfold extract_value. bitblast. Qed.

Lemma extract_low_masked x c take :
  0 <= take <= trailing_ones c -> extract_value (Z.land c x) 0 take = extract_value x 0 take.
Proof.
  intros Ht. destruct (trailing_ones_spec c) as [_ Hones]. unfold extract_value.
  apply Z.bits_inj'. intros i Hi. rewrite !Z.land_spec, !Z.shiftr_spec, Z.land_spec, testbit_ones by lia.
  rewrite Z.add_0_r. rewrite (proj2 (Z.leb_le 0 i)) by lia. simpl.
  destruct (Z.ltb_spec i take); [rewrite Hones by lia; done|]. by rewrite !andb_false_r.
Qed.

(** An extraction of a left shift. *)
Lemma extract_shl_none x c skip take :
  0 <= skip -> 0 <= take -> skip + take <= c ->
  extract_value (wrap 128 (Z.shiftl x c)) skip take = 0.
Proof. intros. unfold extract_value. bitblast. Qed.

Lemma extract_shl_below x c skip take :
  0 <= c <= skip -> 0 <= take -> skip + take <= 128 ->
  extract_value (wrap 128 (Z.shiftl x c)) skip take = extract_value x (skip - c) take.
Proof. intros. unfold extract_value. bitblast. Qed.

Lemma extract_shl_above x c skip take :
  0 <= skip <= c -> 0 <= take -> skip + take <= 128 ->
  extract_value (wrap 128 (Z.shiftl x c)) skip take
  = extract_value (wrap 128 (Z.shiftl x (c - skip))) 0 take.
Proof. intros. unfold extract_value. bitblast. Qed.

(** ** Loads *)

Lemma load_bytes_app E p off k m :
  0 <= k -> 0 <= m ->
  from_le_bytes ((fun i => load_byte E p (off + i)) <$> seqZ 0 (k + m))
  = Z.lor (from_le_bytes ((fun i => load_byte E p (off + i)) <$> seqZ 0 k))
      (Z.shiftl (from_le_bytes ((fun i => load_byte E p (off + k + i)) <$> seqZ 0 m)) (8 * k)).
Proof.
  intros Hk Hm. rewrite seqZ_app, fmap_app, from_le_bytes_app by lia.
  rewrite length_fmap, length_seqZ. replace (Z.of_nat (Z.to_nat k)) with k by lia. do 3 f_equal.
  rewrite Z.add_0_l, <- (Z.add_0_r k) at 1. rewrite <- fmap_add_seqZ, <- list_fmap_compose.
  apply list_fmap_ext. intros i x _. simpl. f_equal. lia.
Qed.

Lemma load_value_sub E p off size size' k :
  env_ok E -> 0 <= k -> k + ds_num_bytes size' <= ds_num_bytes size ->
  extract_value (load_value E p off size) (8 * k) (ds_num_bits size') = load_value E p (off + k) size'.
Proof.
  intros HE Hk Hle. pose proof (ds_num_bytes_range size'). unfold load_value, ds_num_bits.
  set (r := ds_num_bytes size - k - ds_num_bytes size').
  replace (ds_num_bytes size) with (k + (ds_num_bytes size' + r)) by lia.
  rewrite !load_bytes_app by lia.
  pose proof (load_bytes_range E p off k HE Hk) as HA.
  pose proof (load_bytes_range E p (off + k) (ds_num_bytes size') HE ltac:(lia)) as HB.
  generalize dependent (from_le_bytes ((fun i => load_byte E p (off + i)) <$> seqZ 0 k)).
  generalize dependent (from_le_bytes ((fun i => load_byte E p (off + k + i)) <$> seqZ 0 (ds_num_bytes size'))).
  generalize (from_le_bytes ((fun i => load_byte E p (off + k + ds_num_bytes size' + i)) <$> seqZ 0 r)).
  intros C B HB A HA. unfold extract_value. bitblast.
Qed.
