(* ===== verification/ValEquality.v ===== *)
(** * Deciding the equality of two values

    [ValBuilder::try_solve_equality] walks down from both values through
    extractions and constant offsets until both are the same value; what it
    then answers is right, and it always ends without a panic. *)
From S2P Require Import Prelude IlOps ValTree ValBuild ValSpec ValMath.

Section equality.
Context (E : Env) (HE : env_ok E) (b : ValBuilder) (Hb : wf b).

Abbreviation t := (value_tree b).

(** What is left of the value [X] when the walk is at [s]; below an
    extraction that skips bits nothing is known after an offset. *)
Definition stands_for (s : EqualityState) (X : Z) : Prop :=
  valid b (eq_val s) /\ 0 <= eq_skip s /\ 1 <= eq_take s <= 128
  /\ (eq_skip s = 0 -> Z.land (den E b (eq_val s) + eq_offset s) (Z.ones (eq_take s)) = X)
  /\ (eq_offset s = 0 -> extract_value (den E b (eq_val s)) (eq_skip s) (eq_take s) = X).

(** The walk meets at most one extraction and one offset. *)
Definition walk_ok (s : EqualityState) : Prop :=
  forall n, t !! eq_val s = Some n ->
  (eq_offset s <> 0 -> ~ offset_node t n)
  /\ (eq_skip s <> 0 -> eq_offset s = 0 -> forall v sk tk, n <> NExtract v sk tk).

Lemma eq_extract_ok s X v skip take :
  stands_for s X -> walk_ok s -> t !! eq_val s = Some (NExtract v skip take) -> eq_offset s = 0 ->
  exists s', eq_extract s v skip take = Some s' /\ stands_for s' X /\ walk_ok s' /\ (eq_val s' < eq_val s)%nat.
Proof.
  intros (Hv & Hs & Ht & H0 & Hx) Hw Hn Ho.
  pose proof (wf_nodes b Hb _ _ Hn) as (Hk1 & Hk2 & Hk3 & Hnf). simpl in *.
  pose proof (wf_ordered b Hb _ _ Hn) as Hord. simpl in Hord. decompose_Forall_hyps.
  assert (eq_skip s = 0) as Es.
  { destruct (Z.eq_dec (eq_skip s) 0) as [|Hne]; [done|]. exfalso.
    destruct (Hw _ Hn) as [_ Hx2]. by apply (Hx2 Hne Ho v skip take). }
  unfold eq_extract. rewrite Es.
  rewrite (proj2 (Z.ltb_lt (0 + skip) 256)), (proj2 (Z.leb_le 0 take)) by lia. simpl.
  eexists. split; [done|]. split; [|split; [|done]].
  - assert (extract_value (den E b v) skip (Z.min (eq_take s) take) = X) as Hmin.
    { rewrite <- (Hx Ho), Es, (den_node E b _ _ Hb Hn). simpl. unfold extract_value. clear -Ht Hk2 Hk1.
      destruct (Z.min_spec (eq_take s) take) as [[? ->]|[? ->]]; bitblast. }
    split; [unfold valid in *; simpl; lia|]. simpl. split; [lia|]. split; [lia|].
    rewrite Z.add_0_r, Z.sub_0_r. split; [|done]. intros ->. rewrite <- Hmin. unfold extract_value.
    by rewrite Z.shiftr_0_r.
  - intros n Hl. simpl in *. split; [done|]. intros _ _ v' sk tk ->. by apply (Hnf v' sk tk).
Qed.

Lemma offset_step_ok s X n x c :
  stands_for s X -> walk_ok s -> t !! eq_val s = Some n -> const_offset t n = Some (Some (x, c)) ->
  stands_for (eq_add s x c) X /\ walk_ok (eq_add s x c) /\ (x < eq_val s)%nat.
Proof.
  intros (Hv & Hs & Ht & H0 & Hx) Hw Hn Hc.
  assert (exists op y k, n = NBinOp op x y /\ t !! y = Some (NConst k) /\ inw 128 k
    /\ (op = Add /\ c = k \/ op = Sub /\ c = - k)) as (op & y & k & -> & Hy & Hk & Hop).
  { destruct n as [| |[] x' y| | | | | | | | | |]; try done; simpl in Hc;
      destruct (t !! y) as [ny|] eqn:Ey; try done; destruct ny; try done; injection Hc as -> <-;
      eexists _, y, _; (split; [done|]); (split; [done|]);
      (split; [exact (wf_nodes b Hb y _ Ey)|]); auto. }
  pose proof (wf_nodes b Hb _ _ Hn) as [_ Hnf]. destruct (Hnf ltac:(by destruct Hop as [[-> _]|[-> _]]; auto) k Hy) as [Hk0 Hnot].
  pose proof (wf_ordered b Hb _ _ Hn) as Hord. simpl in Hord. decompose_Forall_hyps.
  destruct (Hw _ Hn) as [Ho _].
  assert (eq_offset s = 0) as Eo.
  { destruct (Z.eq_dec (eq_offset s) 0) as [|Hne]; [done|]. exfalso. apply (Ho Hne).
    destruct Hop as [[-> _]|[-> _]]; simpl; by exists k. }
  assert (den E b (eq_val s) = wrap 128 (den E b x + c)) as Hden.
  { rewrite (den_node E b _ _ Hb Hn). simpl. rewrite (den_node E b y _ Hb Hy). simpl.
    unfold binop_value. destruct Hop as [[-> ->]|[-> ->]]; simpl; [done|]. by rewrite Z.add_opp_r. }
  assert (wrap 128 c <> 0) as Hne.
  { unfold inw in Hk. unfold wrap. destruct Hop as [[_ ->]|[_ ->]].
    - by rewrite Z.mod_small by lia.
    - rewrite Z_mod_nz_opp_full; rewrite Z.mod_small by lia; lia. }
  split; [|split; [|done]].
  - split; [apply node_valid in Hn; unfold valid in *; simpl; lia|]. simpl. rewrite Eo. split; [done|]. split; [done|].
    split; [|done]. intros Es. rewrite <- (H0 Es), Eo, Hden, Z.add_0_r, Z.add_0_l.
    rewrite !Z.land_ones by lia. unfold wrap.
    assert (forall a, (a mod 2 ^ 128) mod 2 ^ eq_take s = a mod 2 ^ eq_take s) as Hmm
      by (intros a; apply (wrap_wrap_le 128 (eq_take s) a); lia).
    rewrite Hmm, <- Zplus_mod_idemp_r, Hmm, Zplus_mod_idemp_r. done.
  - intros nx Hnx. simpl in *. split; [intros _; by apply Hnot|]. rewrite Eo. by intros _ ?.
Qed.

Lemma is_extract n : (exists v s k, n = NExtract v s k) \/ forall v s k, n <> NExtract v s k.
Proof. destruct n; try (by right). left. by eexists _, _, _. Qed.

Lemma const_offset_total i n : t !! i = Some n -> exists o, const_offset t n = Some o.
Proof.
  intros Hn. pose proof (node_args b i n Hb Hn) as Ha.
  destruct n as [| |[] x y| | | | | | | | | |]; simpl in *; try (by eexists);
    decompose_Forall_hyps; destruct (valid_node b y) as [ny ->]; try done; by eexists.
Qed.

Lemma same_value_decides d a c k :
  0 <= k -> (Z.land a (Z.ones k) =? Z.land c (Z.ones k))
  = (Z.land (d + a) (Z.ones k) =? Z.land (d + c) (Z.ones k)).
Proof.
  intros Hk. rewrite !Z.land_ones by done. apply eq_bool_prop_intro. rewrite !Is_true_true, !Z.eqb_eq.
  split; intros H.
  - by rewrite <- Zplus_mod_idemp_r, H, Zplus_mod_idemp_r.
  - replace a with ((d + a) - d) by lia. replace c with ((d + c) - d) by lia.
    by rewrite <- Zminus_mod_idemp_l, H, Zminus_mod_idemp_l.
Qed.

Lemma try_solve_sound fuel l r X Y :
  stands_for l X -> stands_for r Y -> walk_ok l -> walk_ok r -> (eq_val l + eq_val r < fuel)%nat ->
  exists res, try_solve_equality_internal fuel t l r = Some res
  /\ forall e, res = Some e -> e = (X =? Y).
Proof.
  revert l r. induction fuel as [|fuel IH]; intros l r Hl Hr Wl Wr Hf; [lia|].
  cbn [try_solve_equality_internal].
  destruct (bool_decide (eq_val l = eq_val r) && (eq_skip l =? 0) && (eq_skip r =? 0)
         && (eq_take l =? eq_take r)) eqn:Esame.
  { rewrite !andb_true_iff, bool_decide_eq_true, !Z.eqb_eq in Esame.
    destruct Esame as [[[Ev Esl] Esr] Et]. destruct Hl as (_ & _ & Htl & Hl & _), Hr as (_ & _ & _ & Hr & _).
    rewrite <- Et in *. unfold bitmask_u128.
    rewrite (proj2 (Z.ltb_ge (eq_take l) 0)), (proj2 (Z.ltb_ge 128 (eq_take l))) by lia. simpl.
    eexists. split; [done|]. intros e Ee. injection Ee as <-.
    rewrite <- (Hl Esl), <- (Hr Esr), <- Ev. apply same_value_decides. lia. }
  destruct (valid_node b (eq_val l)) as [nl Hnl]; [apply Hl|].
  destruct (valid_node b (eq_val r)) as [nr Hnr]; [apply Hr|].
  rewrite Hnl, Hnr. cbn [mbind option_bind].
  destruct (is_extract nl) as [(v & s & k & ->)|Hnotl].
  { destruct (Z.eqb_spec (eq_offset l) 0) as [Eo|]; [|by eexists].
    destruct (eq_extract_ok l X v s k Hl Wl Hnl Eo) as (l' & -> & Hl' & Wl' & Hlt). simpl.
    apply IH; try done. lia. }
  assert (forall A (c1 : ValId -> Z -> Z -> A) (d : A),
    match nl with NExtract v s k => c1 v s k | _ => d end = d) as Hl0.
  { intros A c1 d. destruct nl; try done. by destruct (Hnotl val skip take). }
  rewrite Hl0. destruct (is_extract nr) as [(v & s & k & ->)|Hnotr].
  { destruct (Z.eqb_spec (eq_offset r) 0) as [Eo|]; [|by eexists].
    destruct (eq_extract_ok r Y v s k Hr Wr Hnr Eo) as (r' & -> & Hr' & Wr' & Hlt). simpl.
    apply IH; try done. lia. }
  assert (forall A (c1 : ValId -> Z -> Z -> A) (d : A),
    match nr with NExtract v s k => c1 v s k | _ => d end = d) as Hr0.
  { intros A c1 d. destruct nr; try done. by destruct (Hnotr val skip take). }
  rewrite Hr0. destruct (const_offset_total _ _ Hnl) as [[[x c]|] Eol]; rewrite Eol; cbn [mbind option_bind].
  { destruct (offset_step_ok l X nl x c Hl Wl Hnl Eol) as (Hl' & Wl' & Hlt).
    apply IH; try done. simpl. lia. }
  destruct (const_offset_total _ _ Hnr) as [[[x c]|] Eor]; rewrite Eor; cbn [mbind option_bind]; [|by eexists].
  destruct (offset_step_ok r Y nr x c Hr Wr Hnr Eor) as (Hr' & Wr' & Hlt).
  apply IH; try done. simpl. lia.
Qed.

Lemma try_solve_equality_sound x y :
  valid b x -> valid b y ->
  exists res, try_solve_equality t x y = Some res
  /\ forall e, res = Some e -> e = (den E b x =? den E b y).
Proof.
  intros Hx Hy.
  assert (forall i, valid b i ->
    stands_for {| eq_val := i; eq_offset := 0; eq_skip := 0; eq_take := 128 |} (den E b i)
    /\ walk_ok {| eq_val := i; eq_offset := 0; eq_skip := 0; eq_take := 128 |}) as H.
  { intros i Hi. assert (Z.land (den E b i) (Z.ones 128) = den E b i) as Hd
      by (apply (land_ones_small 128); [lia|by apply den_inw|lia]).
    split; [|by intros n Hn]. split; [done|]. simpl. split; [lia|]. split; [lia|].
    rewrite Z.add_0_r. split; [done|]. intros _. unfold extract_value. by rewrite Z.shiftr_0_r. }
  destruct (H x Hx) as [Sx Wx], (H y Hy) as [Sy Wy].
  apply (try_solve_sound _ _ _ _ _ Sx Sy Wx Wy). simpl. lia.
Qed.

End equality.
