(* ===== verification/ValBinop.v ===== *)
(** * The arms of [binop] build the value of the operator

    Given that the calls one level below are right for smaller values, every
    arm of [ValBuild.binop_step] that applies builds the value of the operator
    on its operands, of no more weight than the operator itself. *)
From S2P Require Import Prelude IlOps ValTree ValBuild ValSpec ValMath ValEquality.

#[local] Open Scope bm_scope.

Lemma binop_weight_mono op x y x' y' :
  x <= x' -> y <= y' -> binop_weight op x y <= binop_weight op x' y'.
Proof. intros. destruct op; simpl; lia. Qed.

Ltac weigh := cbn [binop_weight] in *; lia.

Lemma is_const n : (exists c, n = NConst c) \/ forall c, n <> NConst c.
Proof. destruct n; try (by right). left. by eexists. Qed.

(** The operators that the simplifications introduce; they never panic. *)
Definition simple_op (op : BinOp) : Prop := op = And \/ op = Or \/ op = Xor \/ op = Add \/ op = Sub.

Section binop.
Context (E : Env) (HE : env_ok E).

(** Constants are folded, which must not panic; shifts by a constant are by
    less than 128. *)
Definition op_pre (b : ValBuilder) (op : BinOp) (x y : ValId) : Prop :=
  valid b x /\ valid b y
  /\ (forall c d, value_tree b !! x = Some (NConst c) -> value_tree b !! y = Some (NConst d) ->
        is_Some (binop_execute op c d))
  /\ (op = Shl \/ op = Shr -> forall d, value_tree b !! y = Some (NConst d) -> d < 128).

(** One more step for an extraction that is cropped to the size of its load. *)
Definition crop (b : ValBuilder) (v : ValId) (skip take : Z) : Z :=
  match value_tree b !! v with
  | Some (NLoadPtr _ _ size) => if ds_num_bits size <? skip + take then 1 else 0
  | _ => 0
  end.

Context (rec_binop : BinOp -> ValId -> ValId -> bm ValId)
        (rec_extract : ValId -> Z -> Z -> bm ValId) (N : Z).

Definition binop_below : Prop := forall b op x y,
  wf b -> op_pre b op x y -> 2 * binop_weight op (wt b x) (wt b y) < N ->
  builds E (rec_binop op x y) b (binop_value op (den E b x) (den E b y))
    (binop_weight op (wt b x) (wt b y)).
Definition extract_below : Prop := forall b v skip take,
  wf b -> valid b v -> 0 <= skip -> 1 <= take -> skip + take <= 128 ->
  4 * wt b v + crop b v skip take < N ->
  builds E (rec_extract v skip take) b (extract_value (den E b v) skip take) (2 * wt b v).

Context (Hbinop : binop_below) (Hextract : extract_below).

Lemma rec_simple b op x y vx wx vy wy :
  simple_op op -> wf b -> val_is E b x vx wx -> val_is E b y vy wy -> 2 * binop_weight op wx wy < N ->
  builds E (rec_binop op x y) b (binop_value op vx vy) (binop_weight op wx wy).
Proof.
  intros Hop Hb (Hx & <- & Hwx) (Hy & <- & Hwy) HN.
  pose proof (binop_weight_mono op _ _ _ _ Hwx Hwy). eapply builds_weaken; [|done].
  apply Hbinop; [done| |lia]. split; [done|]. split; [done|].
  destruct Hop as [->|[->|[->|[->| ->]]]]; (split; [by eexists|by intros []]).
Qed.

Lemma rec_ext b v skip take x w :
  wf b -> val_is E b v x w -> 0 <= skip -> 1 <= take -> skip + take <= 128 -> 4 * w + 1 < N ->
  builds E (rec_extract v skip take) b (extract_value x skip take) (2 * w).
Proof.
  intros Hb (Hv & <- & Hw) Hs Ht Hst HN. eapply builds_weaken; [|apply Z.mul_le_mono_nonneg_l; [lia|exact Hw]].
  apply Hextract; try done. unfold crop. repeat case_match; lia.
Qed.

(** Inserting a node whose arguments have known values. *)
Lemma insert_binop b op x y vx wx vy wy :
  wf b -> val_is E b x vx wx -> val_is E b y vy wy -> node_ok (value_tree b) (NBinOp op x y) ->
  builds E (get_or_insert (NBinOp op x y)) b (binop_value op vx vy) (binop_weight op wx wy).
Proof.
  intros Hb (Hx & <- & Hwx) (Hy & <- & Hwy) Hok.
  eapply builds_weaken; [|apply binop_weight_mono; [exact Hwx|exact Hwy]].
  apply (builds_insert E b (NBinOp op x y)); [done|by repeat constructor|done].
Qed.

Lemma node_ok_other t op x y :
  op <> Shl -> op <> Add -> op <> Sub -> node_ok t (NBinOp op x y).
Proof. intros ? ? ?. split; [done|]. by intros []. Qed.

(** A node that is already there. *)
Lemma insert_again b i n :
  wf b -> value_tree b !! i = Some n -> builds E (get_or_insert n) b (den E b i) (wt b i).
Proof.
  intros Hb Hn. rewrite (den_node E b i n Hb Hn), (wt_node b i n Hb Hn).
  apply builds_insert; [done|by apply (node_args b i)|by apply (wf_nodes b Hb i)].
Qed.

Lemma const_den b i c : wf b -> value_tree b !! i = Some (NConst c) ->
  den E b i = c /\ wt b i = 1 /\ inw 128 c.
Proof.
  intros Hb Hn. rewrite (den_node E b i _ Hb Hn), (wt_node b i _ Hb Hn).
  split; [done|]. split; [done|]. exact (wf_nodes b Hb i _ Hn).
Qed.

Lemma binop_den b i op x y : wf b -> value_tree b !! i = Some (NBinOp op x y) ->
  den E b i = binop_value op (den E b x) (den E b y) /\ wt b i = binop_weight op (wt b x) (wt b y)
  /\ valid b x /\ valid b y /\ 1 <= wt b x /\ 1 <= wt b y.
Proof.
  intros Hb Hn. rewrite (den_node E b i _ Hb Hn), (wt_node b i _ Hb Hn).
  pose proof (node_args b i _ Hb Hn) as Ha. simpl in Ha. decompose_Forall_hyps.
  repeat split; try done; by apply wt_pos.
Qed.

(** The operand next to a constant. *)
Lemma tries_const_side b x y k v w :
  wf b -> valid b x -> valid b y ->
  (forall other c ic, (other = y /\ ic = x \/ other = x /\ ic = y) ->
     value_tree b !! ic = Some (NConst c) -> tries E (k (Some (other, c))) b v w) ->
  ((forall c, value_tree b !! x <> Some (NConst c)) -> (forall c, value_tree b !! y <> Some (NConst c)) ->
     tries E (k None) b v w) ->
  tries E (s <~ const_side x y;; k s) b v w.
Proof.
  intros Hb Hx Hy H1 H2. destruct (valid_node b x Hx) as [nx Hnx], (valid_node b y Hy) as [ny Hny].
  assert (forall s, const_side x y b = Some (s, b) -> tries E (k s) b v w ->
    tries E (s <~ const_side x y;; k s) b v w) as Hs.
  { intros s Es Ht. unfold tries, bbind in *. by rewrite Es. }
  assert (const_side x y b = Some (match nx, ny with
        | NConst c, _ => Some (y, c) | _, NConst c => Some (x, c) | _, _ => None end, b)) as Es.
  { unfold const_side, bbind, node. rewrite Hnx. simpl. by rewrite Hny. }
  apply (Hs _ Es). destruct nx; [by apply (H1 y c x); [left|]|..];
    (destruct ny; [by apply (H1 x c y); [right|]|..]); apply H2; intros c Hc; by simplify_eq.
Qed.

(** ** The arms *)

Lemma found_matches m b b' : found m b <> Some (None, b').
Proof. unfold found, bbind. by destruct (m b) as [[]|]. Qed.

(** What the arms that did not match leave. *)
Lemma arm_zero_passed n0 b :
  forall c, arm_zero And n0 (NConst c) b = Some (None, b) -> c <> 0.
Proof.
  intros c H ->. revert H. unfold arm_zero.
  destruct n0 as [[]| | | | | | | | | | | |]; apply found_matches.
Qed.

Lemma arm_identity_passed op n0 b c :
  op = Add \/ op = Sub -> arm_identity op n0 (NConst c) b = Some (None, b) -> c <> 0.
Proof.
  intros Hop H ->. revert H. unfold arm_identity.
  destruct Hop as [->| ->]; (destruct n0 as [[]| | | | | | | | | | | |]; apply found_matches).
Qed.

(** The value and the weight of a commutative operator with a constant. *)
Lemma side_value b i o x y other c ic :
  wf b -> value_tree b !! i = Some (NBinOp o x y) -> o = And \/ o = Or \/ o = Add ->
  (other = y /\ ic = x \/ other = x /\ ic = y) -> value_tree b !! ic = Some (NConst c) ->
  den E b i = binop_value o (den E b other) c /\ wt b i = binop_weight o (wt b other) 1
  /\ inw 128 c /\ valid b other /\ 1 <= wt b other.
Proof.
  intros Hb Hi Ho Hside Hc. destruct (binop_den b i o x y Hb Hi) as (Ed & Ew & Hx & Hy & Hwx & Hwy).
  destruct (const_den b ic c Hb Hc) as (Ec & Wc & Hin). rewrite Ed, Ew.
  destruct Hside as [[-> ->]|[-> ->]]; rewrite Ec, Wc; [|done].
  split; [|split; [destruct Ho as [->|[->| ->]]; simpl; lia|done]].
  unfold binop_value. destruct Ho as [->|[->| ->]]; simpl; [apply Z.land_comm|apply Z.lor_comm|by rewrite Z.add_comm].
Qed.

Section arms.
Context (b : ValBuilder) (op : BinOp) (a0 a1 : ValId) (n0 n1 : ValNode).
Context (Hb : wf b) (Hpre : op_pre b op a0 a1).
Context (H0 : value_tree b !! a0 = Some n0) (H1 : value_tree b !! a1 = Some n1).
Context (HN : 2 * binop_weight op (wt b a0) (wt b a1) <= N).

Abbreviation V := (binop_value op (den E b a0) (den E b a1)).
Abbreviation W := (binop_weight op (wt b a0) (wt b a1)).

Lemma a0_valid : valid b a0.
Proof. apply Hpre. Qed.
Lemma a1_valid : valid b a1.
Proof. apply Hpre. Qed.

Lemma w0 : 1 <= wt b a0.
Proof. apply wt_pos; [done|apply a0_valid]. Qed.
Lemma w1 : 1 <= wt b a1.
Proof. apply wt_pos; [done|apply a1_valid]. Qed.

Lemma binop_weight_pos o x y : 1 <= x -> 1 <= y -> 1 <= binop_weight o x y.
Proof. intros. destruct o; simpl; lia. Qed.

(** A constant is a value of the least weight. *)
Lemma builds_const c : inw 128 c -> c = V -> builds E (imm c) b V W.
Proof.
  intros Hc <-. eapply builds_weaken; [by apply builds_imm|].
  apply binop_weight_pos; [apply w0|apply w1].
Qed.

Lemma builds_plain : node_ok (value_tree b) (NBinOp op a0 a1) -> builds E (plain op a0 a1) b V W.
Proof.
  intros Hok. apply insert_binop; [done|apply val_self, a0_valid|apply val_self, a1_valid|done].
Qed.

(** The facts that survive a case analysis of the operator and the nodes. *)
Ltac arm_start :=
  pose proof a0_valid as V0; pose proof a1_valid as V1; pose proof w0 as W0; pose proof w1 as W1;
  pose proof builds_const as Bconst; pose proof builds_plain as Bplain;
  pose proof (val_self E b a0 V0) as S0; pose proof (val_self E b a1 V1) as S1.

Lemma arm_const_ok : tries E (arm_const op n0 n1) b V W.
Proof.
  arm_start.
  destruct n0 as [x| | | | | | | | | | | |]; try apply tries_no_match.
  destruct n1 as [y| | | | | | | | | | | |]; try apply tries_no_match.
  destruct (const_den b a0 x Hb H0) as (Ex & _ & Hx), (const_den b a1 y Hb H1) as (Ey & _ & Hy).
  destruct Hpre as (_ & _ & Hfold & _). destruct (Hfold x y H0 H1) as [r Hr]. apply tries_found.
  apply (builds_lift E _ r); [done|]. apply Bconst; [by apply (binop_execute_range op x y)|].
  rewrite Ex, Ey. unfold binop_value. by rewrite Hr.
Qed.

Lemma arm_identity_ok : tries E (arm_identity op n0 n1) b V W.
Proof.
  arm_start.
  assert (forall i n, value_tree b !! i = Some n -> den E b i = V -> wt b i <= W ->
    tries E (found (get_or_insert n)) b V W) as Hi.
  { intros i n Hn <- Hw. apply tries_found. eapply builds_weaken; [by apply insert_again|done]. }
  assert (forall i, valid b i -> inw 128 (den E b i)) as Hin by (intros; by apply den_inw).
  pose proof (Hin a0 V0) as Hi0. pose proof (Hin a1 V1) as Hi1.
  destruct op; try apply tries_no_match; unfold arm_identity;
    repeat (case_match; try apply tries_no_match); simplify_eq;
    repeat match goal with
    | H : value_tree b !! ?i = Some (NConst 0) |- _ =>
        destruct (const_den b i 0 Hb H) as (? & ? & ?); revert H
    end; intros;
    first [apply (Hi a1); [done| |simpl; lia] | apply (Hi a0); [done| |simpl; lia]];
    repeat match goal with H : den E b _ = 0 |- _ => rewrite H end;
    unfold binop_value; simpl; rewrite ?Z.add_0_l, ?Z.add_0_r, ?Z.sub_0_r, ?Z.lxor_0_r, ?Z.lor_0_r;
    rewrite ?wrap_small by done; try done.
  unfold wshl. change (wrap 32 0 mod 128) with 0. by rewrite Z.shiftl_0_r, wrap_small.
Qed.

Lemma arm_zero_ok : tries E (arm_zero op n0 n1) b V W.
Proof.
  arm_start.
  assert (V = 0 -> tries E (found (get_or_insert (NConst 0))) b V W) as Hz.
  { intros HV. apply tries_found, (Bconst 0); [by apply small_inw|done]. }
  destruct op; try apply tries_no_match; unfold arm_zero;
    repeat (case_match; try apply tries_no_match); simplify_eq; apply Hz;
    repeat match goal with
    | H : value_tree b !! ?i = Some (NConst 0) |- _ =>
        destruct (const_den b i 0 Hb H) as (-> & _ & _); clear H
    end; unfold binop_value; simpl; by rewrite ?Z.mul_0_r, ?Z.land_0_r.
Qed.

(** Equal nodes have equal values. *)
Lemma arm_self_ok : tries E (arm_self op n0 n1) b V W.
Proof.
  arm_start.
  unfold arm_self. destruct op; try apply tries_no_match;
    (case_match; [|apply tries_no_match]); subst n1; apply tries_found, (Bconst 0);
    try (by apply small_inw);
    assert (den E b a0 = den E b a1) as -> by (by rewrite (den_node E b a0 n0 Hb H0), (den_node E b a1 n0 Hb H1));
    unfold binop_value; simpl; by rewrite ?Z.sub_diag, ?Z.lxor_nilpotent.
Qed.

Lemma arm_cmp_eq_ok : tries E (arm_cmp_eq op a0 a1) b V W.
Proof.
  arm_start.
  destruct (try_solve_equality_sound E HE b Hb a0 a1 V0 V1) as (res & Er & Hr).
  assert (forall k, builds E (k res) b V W ->
    builds E (fun b => (e <~ blift (try_solve_equality (value_tree b) a0 a1);; k e) b) b V W) as Hk
    by (intros k Hk; exact (builds_lift E _ res k b V W Er Hk)).
  unfold arm_cmp_eq. destruct op; try apply tries_no_match.
  case_match; apply tries_found.
  { apply Bconst; [by apply small_inw|]. subst. unfold binop_value. simpl. by rewrite Z.eqb_refl. }
  apply (Hk (fun e => match e with Some eq => imm (b2z eq) | None => plain CmpEq a0 a1 end)).
  destruct res as [e|].
  - apply Bconst; [by destruct e; apply small_inw|]. by rewrite (Hr e eq_refl).
  - by apply Bplain, node_ok_other.
Qed.

Lemma arm_shr_ok : tries E (arm_shr rec_extract op a0 n1) b V W.
Proof.
  arm_start.
  unfold arm_shr. destruct op; try apply tries_no_match.
  destruct n1 as [c| | | | | | | | | | | |]; try apply tries_no_match.
  destruct (const_den b a1 c Hb H1) as (Ec & Wc & Hc).
  destruct Hpre as (_ & _ & _ & Hs). specialize (Hs (or_intror eq_refl) c H1).
  assert (0 <= c) by (unfold inw in Hc; lia). rewrite (wrap_small 8) by (unfold inw; lia).
  apply tries_found, (builds_lift E _ tt); [by rewrite (proj2 (Z.leb_le c 128)) by lia|].
  simpl in HN. rewrite Ec, Wc in *.
  rewrite shr_value, shr_is_extract by (try lia; by apply den_inw; [..|exact V0]).
  eapply builds_weaken; [apply (rec_ext b a0 c (128 - c) _ (wt b a0) Hb S0)|simpl]; lia.
Qed.

Lemma arm_and_bool_ok : tries E (arm_and_bool op n0 n1) b V W.
Proof.
  arm_start.
  assert (forall o v c, n0 = NUnOp o v -> n1 = NConst c -> op = And ->
    (o = Parity \/ o = IsZero \/ exists n, o = SelectBit n) ->
    tries E (found (get_or_insert (if negb (Z.land c 1 =? 0) then NUnOp o v else NConst 0))) b V W) as Hbool.
  { intros o x c -> -> -> Ho. destruct (const_den b a1 c Hb H1) as (Ec & _ & _).
    assert (binop_value And (den E b a0) (den E b a1)
      = if negb (Z.land c 1 =? 0) then den E b a0 else 0) as EV.
    { unfold binop_value. simpl. rewrite Ec. apply and_bool.
      rewrite (den_node E b a0 _ Hb H0). by apply bool_value. }
    apply tries_found. rewrite EV. case_match.
    - eapply builds_weaken; [by apply insert_again|simpl; lia].
    - eapply builds_weaken; [apply builds_imm; [done|by apply small_inw]|simpl; lia]. }
  unfold arm_and_bool. destruct op; try apply tries_no_match.
  destruct n0 as [| | | | |o x| | | | | | |]; try apply tries_no_match.
  destruct o; try apply tries_no_match; (destruct n1; try apply tries_no_match); apply Hbool; eauto.
Qed.

Lemma arm_and_mask_ok :
  arm_zero op n0 n1 b = Some (None, b) -> tries E (arm_and_mask rec_extract op a0 n1) b V W.
Proof.
  arm_start.
  unfold arm_and_mask. intros Hz. destruct op; try apply tries_no_match.
  destruct n1 as [c| | | | | | | | | | | |]; try apply tries_no_match.
  destruct (Z.eqb_spec (trailing_ones c + leading_zeros 128 c) 128) as [Hm|]; [|apply tries_no_match].
  destruct (const_den b a1 c Hb H1) as (Ec & Wc & Hc). destruct (trailing_ones_spec c) as [Hr _].
  pose proof (mask_is_ones c Hc Hm) as Eones.
  assert (trailing_ones c <> 0) as Hne.
  { intros E0. rewrite E0 in Eones. by apply (arm_zero_passed n0 b c Hz). }
  rewrite (wrap_small 8) by (unfold inw; lia). apply tries_found.
  simpl in HN. rewrite Wc in *.
  eapply builds_weaken; [eapply builds_eq;
    [apply (rec_ext b a0 0 (trailing_ones c) _ (wt b a0) Hb S0)|]|simpl]; try lia.
  unfold extract_value, binop_value. simpl. rewrite Ec. by rewrite Z.shiftr_0_r, <- Eones.
Qed.

Lemma arm_and_shl_ok : tries E (arm_and_shl rec_binop op a0 a1 n0 n1) b V W.
Proof.
  arm_start.
  unfold arm_and_shl. destruct op; try apply tries_no_match.
  destruct n0 as [m| | | | | | | | | | | |]; try apply tries_no_match.
  destruct n1 as [| |[] x s| | | | | | | | | |]; try apply tries_no_match.
  destruct (binop_den b a1 Shl x s Hb H1) as (Es1 & Ws1 & Hx & Hs & Hwx & Hws).
  destruct (valid_node b x Hx) as [nx Hnx], (valid_node b s Hs) as [ns Hns].
  apply (tries_node E _ _ _ _ _ _ Hnx), (tries_node E _ _ _ _ _ _ Hns), tries_found.
  destruct (const_den b a0 m Hb H0) as (Em & Wm & Hm).
  destruct ns as [c| | | | | | | | | | | |]; try (by apply Bplain, node_ok_other).
  destruct (const_den b s c Hb Hns) as (Es & Ws & Hc).
  pose proof (proj1 (wf_nodes b Hb a1 _ H1) eq_refl c Hns) as Hlt.
  assert (0 <= c) by (unfold inw in Hc; lia). rewrite (wrap_small 32) by (unfold inw; lia).
  apply (builds_lift E _ tt); [by rewrite (proj2 (Z.ltb_lt c 128)) by lia|].
  simpl in HN, Ws1. rewrite Wm, Ws1, Ws in *.
  eapply builds_bind; [apply (builds_imm E b (Z.shiftr m c) Hb); by apply inw_shiftr|].
  intros k b1 X1 Hb1 Vk. eapply builds_bind.
  { apply (rec_simple b1 And x k (den E b x) (wt b x) (Z.shiftr m c) 1); [by left|done|by apply (extends_val E b), val_self|done|simpl; lia]. }
  intros r b2 X2 Hb2 Vr. eapply builds_weaken; [eapply builds_eq;
    [apply (insert_binop b2 Shl r s _ (2 * wt b x + 2 * 1 + 1) c 1 Hb2 Vr)|]|simpl; lia].
  - apply (extends_val E b1); [done|]. apply (extends_val E b); [done|]. rewrite <- Es, <- Ws. by apply val_self.
  - split; [intros _ c'|by intros []]. rewrite (extends_node b b2 s (NConst c)); [by intros [= <-]|by apply (extends_trans b b1)|done].
  - rewrite Es1, Em, Es. rewrite !shl_value by lia. unfold binop_value. simpl. symmetry. by apply and_shl_value.
Qed.

(** A constant offset of a node that is none itself. *)
Lemma builds_plain_offset c :
  op = Add \/ op = Sub -> n1 = NConst c -> arm_identity op n0 n1 b = Some (None, b) ->
  ~ offset_node (value_tree b) n0 -> builds E (plain op a0 a1) b V W.
Proof.
  intros Hop Hn Hpass Hoff. apply builds_plain. subst n1.
  pose proof (arm_identity_passed op n0 b c Hop Hpass) as Hc.
  split; [by intros ->; destruct Hop|]. intros _ c' Hc'. simplify_eq.
  split; [done|]. intros nx Hnx. by simplify_eq.
Qed.

Lemma arm_and_and_ok : tries E (arm_and_and op a0 a1 n0 n1) b V W.
Proof.
  arm_start. unfold arm_and_and. destruct op; try apply tries_no_match.
  destruct n0 as [| |[] x y| | | | | | | | | |]; try apply tries_no_match.
  destruct n1 as [c1| | | | | | | | | | | |]; try apply tries_no_match.
  destruct (binop_den b a0 And x y Hb H0) as (_ & _ & Hx & Hy & _).
  destruct (const_den b a1 c1 Hb H1) as (E1 & We1 & Hc1).
  apply (tries_const_side b x y _ _ _ Hb Hx Hy); [|intros; by apply tries_found, Bplain, node_ok_other].
  intros other c2 ic Hside Hc. apply tries_found.
  destruct (side_value b a0 And x y other c2 ic Hb H0 (or_introl eq_refl) Hside Hc) as (E0 & We0 & Hc2 & Ho & Hwo).
  eapply builds_bind; [apply (builds_imm E b (Z.land c1 c2) Hb); apply inw_land; [lia|done|apply Hc2]|].
  intros k b1 X1 Hb1 Vk. eapply builds_weaken; [eapply builds_eq;
    [apply (insert_binop b1 And other k (den E b other) (wt b other) (Z.land c1 c2) 1 Hb1)|]|].
  - by apply (extends_val E b), val_self.
  - done.
  - by apply node_ok_other.
  - rewrite E0, E1. unfold binop_value. simpl. rewrite <- Z.land_assoc. f_equal. apply Z.land_comm.
  - rewrite We0, We1. cbn [binop_weight]. lia.
Qed.

Lemma arm_or_or_ok : tries E (arm_or_or op a0 a1 n0 n1) b V W.
Proof.
  arm_start. unfold arm_or_or. destruct op; try apply tries_no_match.
  destruct n0 as [| |[] x y| | | | | | | | | |]; try apply tries_no_match.
  destruct n1 as [c1| | | | | | | | | | | |]; try apply tries_no_match.
  destruct (binop_den b a0 Or x y Hb H0) as (_ & _ & Hx & Hy & _).
  destruct (const_den b a1 c1 Hb H1) as (E1 & We1 & Hc1).
  apply (tries_const_side b x y _ _ _ Hb Hx Hy); [|intros; by apply tries_found, Bplain, node_ok_other].
  intros other c2 ic Hside Hc. apply tries_found.
  destruct (side_value b a0 Or x y other c2 ic Hb H0 (or_intror (or_introl eq_refl)) Hside Hc)
    as (E0 & We0 & Hc2 & Ho & Hwo).
  eapply builds_bind; [apply (builds_imm E b (Z.lor c1 c2) Hb); by apply inw_lor|].
  intros k b1 X1 Hb1 Vk. eapply builds_weaken; [eapply builds_eq;
    [apply (insert_binop b1 Or other k (den E b other) (wt b other) (Z.lor c1 c2) 1 Hb1)|]|].
  - by apply (extends_val E b), val_self.
  - done.
  - by apply node_ok_other.
  - rewrite E0, E1. unfold binop_value. simpl. rewrite <- Z.lor_assoc. f_equal. apply Z.lor_comm.
  - rewrite We0, We1. cbn [binop_weight]. lia.
Qed.

(** A new constant next to an operand, and the operator below on both. *)
Lemma builds_offset o other c v w :
  simple_op o -> valid b other -> inw 128 c -> binop_value o (den E b other) c = v ->
  binop_weight o (wt b other) 1 <= w -> 2 * binop_weight o (wt b other) 1 < N ->
  builds E (k <~ imm c;; rec_binop o other k) b v w.
Proof.
  intros Ho Hv Hc Ev Hw Hn. eapply builds_bind; [by apply (builds_imm E b c Hb)|].
  intros k b1 X1 Hb1 Vk. eapply builds_weaken; [eapply builds_eq; [|exact Ev]|exact Hw].
  apply rec_simple; try done. by apply (extends_val E b), val_self.
Qed.

Lemma builds_offset_left c other v w :
  valid b other -> inw 128 c -> binop_value Sub c (den E b other) = v ->
  binop_weight Sub 1 (wt b other) <= w -> 2 * binop_weight Sub 1 (wt b other) < N ->
  builds E (k <~ imm c;; rec_binop Sub k other) b v w.
Proof.
  intros Hv Hc Ev Hw Hn. eapply builds_bind; [by apply (builds_imm E b c Hb)|].
  intros k b1 X1 Hb1 Vk. eapply builds_weaken; [eapply builds_eq; [|exact Ev]|exact Hw].
  apply rec_simple; try done; [unfold simple_op; auto|]. by apply (extends_val E b), val_self.
Qed.

Lemma arm_add_add_ok :
  arm_identity op n0 n1 b = Some (None, b) -> tries E (arm_add_add rec_binop op a0 a1 n0 n1) b V W.
Proof.
  arm_start. intros Hpass. pose proof builds_plain_offset as Boff. pose proof builds_offset as Brec.
  unfold arm_add_add. destruct op; try apply tries_no_match.
  destruct n0 as [| |[] x y| | | | | | | | | |]; try apply tries_no_match.
  destruct n1 as [c1| | | | | | | | | | | |]; try apply tries_no_match.
  destruct (binop_den b a0 Add x y Hb H0) as (_ & _ & Hx & Hy & _).
  destruct (const_den b a1 c1 Hb H1) as (E1 & We1 & Hc1).
  apply (tries_const_side b x y _ _ _ Hb Hx Hy).
  - intros other c2 ic Hside Hc. apply tries_found.
    destruct (side_value b a0 Add x y other c2 ic Hb H0 (or_intror (or_intror eq_refl)) Hside Hc)
      as (E0 & We0 & Hc2 & Ho & _).
    simpl in HN, We0. rewrite We0, We1 in HN.
    apply Brec; [unfold simple_op; auto|done|by apply wrap_inw| |simpl; lia|simpl; lia].
    rewrite E0, E1. unfold binop_value. simpl. wrap_ring.
  - intros Hnx Hny. apply tries_found, (Boff c1); [by left|done|done|].
    intros [c Hc]. by apply (Hny c).
Qed.

Lemma arm_sub_add_ok :
  arm_identity op n0 n1 b = Some (None, b) -> tries E (arm_sub_add rec_binop op a0 a1 n0 n1) b V W.
Proof.
  arm_start. intros Hpass. pose proof builds_plain_offset as Boff. pose proof builds_offset as Brec.
  unfold arm_sub_add. destruct op; try apply tries_no_match.
  destruct n0 as [| |[] x y| | | | | | | | | |]; try apply tries_no_match.
  destruct n1 as [c1| | | | | | | | | | | |]; try apply tries_no_match.
  destruct (binop_den b a0 Add x y Hb H0) as (_ & _ & Hx & Hy & _).
  destruct (const_den b a1 c1 Hb H1) as (E1 & We1 & Hc1).
  apply (tries_const_side b x y _ _ _ Hb Hx Hy).
  - intros other c2 ic Hside Hc. apply tries_found.
    destruct (side_value b a0 Add x y other c2 ic Hb H0 (or_intror (or_intror eq_refl)) Hside Hc)
      as (E0 & We0 & Hc2 & Ho & _).
    simpl in HN, We0. rewrite We0, We1 in HN.
    apply Brec; [unfold simple_op; auto|done|by apply wrap_inw| |simpl; lia|simpl; lia].
    rewrite E0, E1. unfold binop_value. simpl. wrap_ring.
  - intros Hnx Hny. apply tries_found, (Boff c1); [by right|done|done|].
    intros [c Hc]. by apply (Hny c).
Qed.

Lemma arm_add_sub_ok :
  arm_identity op n0 n1 b = Some (None, b) -> tries E (arm_add_sub rec_binop op a0 a1 n0 n1) b V W.
Proof.
  arm_start. intros Hpass. pose proof builds_plain_offset as Boff.
  pose proof builds_offset as Brec. pose proof builds_offset_left as Bleft.
  unfold arm_add_sub. destruct op; try apply tries_no_match.
  destruct n0 as [| |[] x y| | | | | | | | | |]; try apply tries_no_match.
  destruct n1 as [c1| | | | | | | | | | | |]; try apply tries_no_match.
  destruct (binop_den b a0 Sub x y Hb H0) as (E0 & We0 & Hx & Hy & Hwx & Hwy).
  destruct (const_den b a1 c1 Hb H1) as (E1 & We1 & Hc1).
  destruct (valid_node b x Hx) as [nx Hnx], (valid_node b y Hy) as [ny Hny].
  apply (tries_node E _ _ _ _ _ _ Hnx), (tries_node E _ _ _ _ _ _ Hny), tries_found.
  rewrite E0, E1, We0, We1 in *. cbn [binop_weight] in *.
  destruct (is_const ny) as [[c2 ->]|Hny']; [|destruct (is_const nx) as [[c2 ->]|Hnx']].
  - destruct (const_den b y c2 Hb Hny) as (Ey & Wy & Hc2). rewrite Ey, Wy in *.
    destruct nx; (apply Brec; [unfold simple_op; auto|done|by apply wrap_inw| |weigh..]);
      unfold binop_value; simpl; wrap_ring.
  - destruct (const_den b x c2 Hb Hnx) as (Ex & Wx & Hc2). rewrite Ex, Wx in *.
    destruct ny; try (by destruct (Hny' c)); (apply Bleft; [done|by apply wrap_inw| |weigh..]);
      unfold binop_value; simpl; wrap_ring.
  - assert (builds E (plain Add a0 a1) b (binop_value Add (binop_value Sub (den E b x) (den E b y)) c1)
      (wt b x + wt b y + 1 + 1 + 1)) as Hplain.
    { apply (Boff c1); [by left|done|done|]. intros [c Hc]. simplify_eq. by apply (Hny' c). }
    destruct nx; try (by destruct (Hnx' c)); destruct ny; try done; by destruct (Hny' c).
Qed.

Lemma arm_sub_sub_ok :
  arm_identity op n0 n1 b = Some (None, b) -> tries E (arm_sub_sub rec_binop op a0 a1 n0 n1) b V W.
Proof.
  arm_start. intros Hpass. pose proof builds_plain_offset as Boff.
  pose proof builds_offset as Brec. pose proof builds_offset_left as Bleft.
  unfold arm_sub_sub. destruct op; try apply tries_no_match.
  destruct n0 as [| |[] x y| | | | | | | | | |]; try apply tries_no_match.
  destruct n1 as [c1| | | | | | | | | | | |]; try apply tries_no_match.
  destruct (binop_den b a0 Sub x y Hb H0) as (E0 & We0 & Hx & Hy & Hwx & Hwy).
  destruct (const_den b a1 c1 Hb H1) as (E1 & We1 & Hc1).
  destruct (valid_node b x Hx) as [nx Hnx], (valid_node b y Hy) as [ny Hny].
  apply (tries_node E _ _ _ _ _ _ Hnx), (tries_node E _ _ _ _ _ _ Hny), tries_found.
  rewrite E0, E1, We0, We1 in *. cbn [binop_weight] in *.
  destruct (is_const ny) as [[c2 ->]|Hny']; [|destruct (is_const nx) as [[c2 ->]|Hnx']].
  - destruct (const_den b y c2 Hb Hny) as (Ey & Wy & Hc2). rewrite Ey, Wy in *.
    destruct nx; (apply Brec; [unfold simple_op; auto|done|by apply wrap_inw| |weigh..]);
      unfold binop_value; simpl; wrap_ring.
  - destruct (const_den b x c2 Hb Hnx) as (Ex & Wx & Hc2). rewrite Ex, Wx in *.
    destruct ny; try (by destruct (Hny' c)); (apply Bleft; [done|by apply wrap_inw| |weigh..]);
      unfold binop_value; simpl; wrap_ring.
  - assert (builds E (plain Sub a0 a1) b (binop_value Sub (binop_value Sub (den E b x) (den E b y)) c1)
      (wt b x + wt b y + 1 + 1 + 1)) as Hplain.
    { apply (Boff c1); [by right|done|done|]. intros [c Hc]. simplify_eq. by apply (Hny' c). }
    destruct nx; try (by destruct (Hnx' c)); destruct ny; try done; by destruct (Hny' c).
Qed.

Lemma arm_and_or_ok : tries E (arm_and_or rec_binop op a0 a1 n0 n1) b V W.
Proof.
  arm_start. unfold arm_and_or. destruct op; try apply tries_no_match.
  destruct n0 as [| |[] x y| | | | | | | | | |]; try apply tries_no_match.
  destruct n1 as [c1| | | | | | | | | | | |]; try apply tries_no_match.
  destruct (binop_den b a0 Or x y Hb H0) as (_ & _ & Hx & Hy & _).
  destruct (const_den b a1 c1 Hb H1) as (E1 & We1 & Hc1).
  apply (tries_const_side b x y _ _ _ Hb Hx Hy); [|intros; by apply tries_found, Bplain, node_ok_other].
  intros other c2 ic Hside Hc. apply tries_found.
  destruct (side_value b a0 Or x y other c2 ic Hb H0 (or_intror (or_introl eq_refl)) Hside Hc)
    as (E0 & We0 & Hc2 & Ho & Hwo).
  rewrite E0, E1, We0, We1 in *.
  eapply builds_bind; [by apply (builds_imm E b c1 Hb)|]. intros c b1 X1 Hb1 Vc.
  eapply builds_bind.
  { apply (rec_simple b1 And other c (den E b other) (wt b other) c1 1); [by left|done| |done|weigh].
    by apply (extends_val E b), val_self. }
  intros v b2 X2 Hb2 Vv.
  eapply builds_bind; [apply (builds_imm E b2 (Z.land c1 c2) Hb2); apply inw_land; [lia|done|apply Hc2]|].
  intros k b3 X3 Hb3 Vk. eapply builds_weaken; [eapply builds_eq;
    [apply (insert_binop b3 Or v k _ _ _ 1 Hb3 (extends_val E b2 b3 v _ _ X3 Vv) Vk)|]|].
  - by apply node_ok_other.
  - unfold binop_value. simpl. rewrite Z.land_lor_distr_l. f_equal. apply Z.land_comm.
  - weigh.
Qed.

Lemma arm_and_blend_ok : tries E (arm_and_blend op n0 n1) b V W.
Proof.
  arm_start. unfold arm_and_blend. destruct op; try apply tries_no_match.
  destruct n0 as [| | | | | |l r mask| | | | | |]; try apply tries_no_match.
  destruct n1 as [c1| | | | | | | | | | | |]; try apply tries_no_match.
  destruct (Z.eqb_spec (Z.land mask c1) c1) as [Hm|]; [|apply tries_no_match].
  pose proof (node_args b a0 _ Hb H0) as Ha. simpl in Ha. decompose_Forall_hyps.
  destruct (const_den b a1 c1 Hb H1) as (E1 & We1 & Hc1).
  pose proof (wt_pos b l Hb ltac:(done)). pose proof (wt_pos b r Hb ltac:(done)).
  rewrite (den_node E b a0 _ Hb H0), (wt_node b a0 _ Hb H0), E1, We1. apply tries_found.
  eapply builds_bind; [by apply (builds_imm E b c1 Hb)|]. intros c b1 X1 Hb1 Vc.
  eapply builds_weaken; [eapply builds_eq;
    [apply (insert_binop b1 And r c (den E b r) (wt b r) c1 1 Hb1)|]|].
  - by apply (extends_val E b), val_self.
  - done.
  - by apply node_ok_other.
  - unfold binop_value. simpl. symmetry. by apply and_blend_value.
  - cbn [node_weight]. weigh.
Qed.

(** The extraction that is masked. *)
Lemma extract_den i v skip take : value_tree b !! i = Some (NExtract v skip take) ->
  den E b i = extract_value (den E b v) skip take /\ wt b i = 2 * wt b v /\ valid b v /\ 1 <= wt b v
  /\ 0 <= skip /\ 1 <= take /\ skip + take <= 128 /\ bitmask_u128 take = Some (Z.ones take).
Proof.
  intros Hi. rewrite (den_node E b i _ Hb Hi), (wt_node b i _ Hb Hi).
  pose proof (node_args b i _ Hb Hi) as Ha. simpl in Ha. decompose_Forall_hyps.
  pose proof (wf_nodes b Hb i _ Hi) as (? & ? & ? & _).
  assert (bitmask_u128 take = Some (Z.ones take)).
  { unfold bitmask_u128. by rewrite (proj2 (Z.ltb_ge take 0)), (proj2 (Z.ltb_ge 128 take)) by lia. }
  repeat split; try done. by apply wt_pos.
Qed.

Lemma arm_and_extract_all_ok : tries E (arm_and_extract_all op a0 n0 n1) b V W.
Proof.
  arm_start. pose proof extract_den as Hext. unfold arm_and_extract_all. destruct op; try apply tries_no_match.
  destruct n0 as [| | | | | | |v skip take| | | | |]; try apply tries_no_match.
  destruct n1 as [c1| | | | | | | | | | | |]; try apply tries_no_match.
  destruct (Hext a0 v skip take H0) as (E0 & We0 & Hv & Hwv & Hs & Ht & Hst & Hm).
  destruct (const_den b a1 c1 Hb H1) as (E1 & We1 & Hc1).
  apply (tries_lift E _ _ _ _ _ _ Hm). destruct (Z.eqb_spec c1 (Z.ones take)) as [Ec|]; [|apply tries_no_match].
  apply tries_found, builds_ret; [done|]. split; [done|]. split; [|weigh].
  rewrite E1, Ec, E0. unfold binop_value. simpl. symmetry. apply extract_idem. lia.
Qed.

Lemma arm_and_extract_ok : tries E (arm_and_extract rec_binop op n0 n1) b V W.
Proof.
  arm_start. pose proof extract_den as Hext. unfold arm_and_extract. destruct op; try apply tries_no_match.
  destruct n0 as [| | | | | | |v [] take| | | | |]; try apply tries_no_match.
  destruct n1 as [c1| | | | | | | | | | | |]; try apply tries_no_match.
  destruct (Hext a0 v 0 take H0) as (E0 & We0 & Hv & Hwv & Hs & Ht & Hst & Hm).
  destruct (const_den b a1 c1 Hb H1) as (E1 & We1 & Hc1).
  apply tries_found, (builds_lift E _ (Z.ones take)); [done|].
  rewrite E0, E1, We0, We1 in *.
  eapply builds_bind; [apply (builds_imm E b (Z.land c1 (Z.ones take)) Hb); apply inw_land; [lia|done|apply ones_nonneg; lia]|].
  intros m b1 X1 Hb1 Vm. eapply builds_weaken; [eapply builds_eq;
    [apply (rec_simple b1 And v m (den E b v) (wt b v) (Z.land c1 (Z.ones take)) 1)|]|].
  - by left.
  - done.
  - by apply (extends_val E b), val_self.
  - done.
  - weigh.
  - unfold binop_value, extract_value. simpl. rewrite Z.shiftr_0_r, <- Z.land_assoc. f_equal. apply Z.land_comm.
  - weigh.
Qed.

Lemma arm_and_load_ok : tries E (arm_and_load op a0 n0 n1) b V W.
Proof.
  arm_start.
  assert (forall size c1 off ptr, n1 = NConst c1 -> op = And -> den E b a0 = load_value E ptr off size ->
    tries E (if ds_num_bits size <=? trailing_ones c1 then found (bret a0)
             else if ds_num_bits size <=? trailing_zeros 128 c1 then found (imm 0) else no_match) b V W) as Hl.
  { intros size c1 off ptr -> -> E0. destruct (const_den b a1 c1 Hb H1) as (E1 & We1 & Hc1).
    pose proof (load_value_range E ptr off size HE) as Hr. pose proof (ds_num_bytes_range size) as Hsz.
    rewrite E1. destruct (Z.leb_spec (ds_num_bits size) (trailing_ones c1)).
    { apply tries_found, builds_ret; [done|]. split; [done|]. split; [|weigh].
      unfold binop_value. simpl. rewrite E0. symmetry.
      apply (land_covers (ds_num_bits size)); [unfold ds_num_bits; lia|done|done]. }
    destruct (Z.leb_spec (ds_num_bits size) (trailing_zeros 128 c1)); [|apply tries_no_match].
    apply tries_found. eapply builds_weaken; [eapply builds_eq; [by apply builds_imm; [|apply small_inw]|]|weigh].
    unfold binop_value. simpl. rewrite E0. symmetry.
    apply (land_misses (ds_num_bits size)); [unfold ds_num_bits; lia|done|done]. }
  unfold arm_and_load. destruct op; try apply tries_no_match.
  destruct n0; try apply tries_no_match; (destruct n1; try apply tries_no_match);
    (eapply Hl; [done|done|]; by rewrite (den_node E b a0 _ Hb H0)).
Qed.

(** What the arms of the additions leave is no constant offset. *)
Lemma bind_found_matches {A} (m : bm A) f b' : (s <~ m;; found (f s)) b <> Some (None, b').
Proof. unfold bbind. destruct (m b) as [[s b1]|]; [|done]. apply found_matches. Qed.

Lemma bind2_found_matches {A A'} (m : bm A) (m' : bm A') f b' :
  (s <~ m;; s' <~ m';; found (f s s')) b <> Some (None, b').
Proof.
  unfold bbind. destruct (m b) as [[s b1]|]; [|done]. simpl.
  destruct (m' b1) as [[s' b2]|]; [|done].
  apply found_matches.
Qed.

Lemma plain_node_ok :
  arm_identity op n0 n1 b = Some (None, b) ->
  arm_add_add rec_binop op a0 a1 n0 n1 b = Some (None, b) ->
  arm_add_sub rec_binop op a0 a1 n0 n1 b = Some (None, b) ->
  arm_sub_sub rec_binop op a0 a1 n0 n1 b = Some (None, b) ->
  arm_sub_add rec_binop op a0 a1 n0 n1 b = Some (None, b) ->
  node_ok (value_tree b) (NBinOp op a0 a1).
Proof.
  intros Hid Haa Has Hss Hsa. destruct Hpre as (_ & _ & _ & Hs). split.
  - intros Eop c Hc. apply Hs; [by left|done].
  - intros Eop c Hc. assert (n1 = NConst c) as -> by congruence.
    split; [by apply (arm_identity_passed op n0 b)|].
    intros nx Hnx. assert (nx = n0) as -> by congruence.
    destruct n0 as [| |[] x y| | | | | | | | | |]; try (by intros []); intros _;
      destruct Eop as [->| ->];
      first [exact (bind_found_matches _ _ _ Haa) | exact (bind2_found_matches _ _ _ _ Has)
            | exact (bind2_found_matches _ _ _ _ Hss) | exact (bind_found_matches _ _ _ Hsa)].
Qed.

Lemma binop_arms_ok :
  builds E (run_arms (binop_arms rec_binop rec_extract op a0 a1 n0 n1) (plain op a0 a1)) b V W.
Proof.
  unfold binop_arms.
  apply builds_arm; [apply arm_const_ok|intros _].
  apply builds_arm; [apply arm_cmp_eq_ok|intros _].
  apply builds_arm; [apply arm_identity_ok|intros Hid].
  apply builds_arm; [apply arm_zero_ok|intros Hzero].
  apply builds_arm; [apply arm_self_ok|intros _].
  apply builds_arm; [apply arm_shr_ok|intros _].
  apply builds_arm; [apply arm_and_bool_ok|intros _].
  apply builds_arm; [by apply arm_and_mask_ok|intros _].
  apply builds_arm; [apply arm_and_shl_ok|intros _].
  apply builds_arm; [apply arm_and_and_ok|intros _].
  apply builds_arm; [by apply arm_add_add_ok|intros Haa].
  apply builds_arm; [by apply arm_add_sub_ok|intros Has].
  apply builds_arm; [by apply arm_sub_sub_ok|intros Hss].
  apply builds_arm; [by apply arm_sub_add_ok|intros Hsa].
  apply builds_arm; [apply arm_or_or_ok|intros _].
  apply builds_arm; [apply arm_and_or_ok|intros _].
  apply builds_arm; [apply arm_and_blend_ok|intros _].
  apply builds_arm; [apply arm_and_extract_all_ok|intros _].
  apply builds_arm; [apply arm_and_extract_ok|intros _].
  apply builds_arm; [apply arm_and_load_ok|intros _].
  apply builds_no_arm, builds_plain. by apply plain_node_ok.
Qed.

End arms.

Lemma binop_step_ok b op x y :
  wf b -> op_pre b op x y -> 2 * binop_weight op (wt b x) (wt b y) <= N ->
  builds E (binop_step rec_binop rec_extract op x y) b (binop_value op (den E b x) (den E b y))
    (binop_weight op (wt b x) (wt b y)).
Proof.
  intros Hb Hpre HN. destruct (valid_node b x) as [nx Hnx]; [apply Hpre|].
  destruct (valid_node b y) as [ny Hny]; [apply Hpre|].
  apply (builds_node E x nx), (builds_node E y ny); [done..|]. by apply binop_arms_ok.
Qed.

End binop.
