(* ===== verification/ValExtract.v ===== *)
(** * The arms of [extract] build the extracted bits

    Given that the calls one level below are right for smaller values, every
    arm of [ValBuild.extract_step] that applies builds the extracted bits, of
    at most twice the weight of the value they are taken from. *)
From S2P Require Import Prelude IlOps ValTree ValBuild ValSpec ValMath ValEquality ValBinop.

#[local] Open Scope bm_scope.

Lemma bind_node {T} i n (k : ValNode -> bm T) b : value_tree b !! i = Some n -> (x <~ node i;; k x) b = k n b.
Proof. intros Hn. unfold bbind, node. by rewrite Hn. Qed.
Lemma bind_no_node {T} i (k : ValNode -> bm T) b : value_tree b !! i = None -> (x <~ node i;; k x) b = None.
Proof. intros Hn. unfold bbind, node. by rewrite Hn. Qed.

(** The result of a left shift by a constant is never an extraction. *)
Definition shl_is_no_extract (rec_binop : BinOp -> ValId -> ValId -> bm ValId) : Prop :=
  forall b x s k id b', wf b -> value_tree b !! s = Some (NConst k) -> k <> 0 ->
  rec_binop Shl x s b = Some (id, b') -> forall v sk tk, value_tree b' !! id <> Some (NExtract v sk tk).

Lemma binop_step_shl rec_binop rec_extract : shl_is_no_extract (binop_step rec_binop rec_extract).
Proof.
  intros b x s k id b' Hb Hs Hk H v sk tk Hn. unfold binop_step in H.
  destruct (value_tree b !! x) as [nx|] eqn:Hx; [|by rewrite bind_no_node in H].
  rewrite (bind_node _ _ _ _ Hx), (bind_node _ _ _ _ Hs) in H.
  assert (forall n, get_or_insert n b = Some (id, b') -> n = NExtract v sk tk) as Hins.
  { intros n Hg. apply inserted_node in Hg; [congruence|done]. }
  destruct nx; destruct k; try done; try (by apply Hins in H);
    unfold run_arms, first_arm, binop_arms, bbind, orelse, arm_const, found, bbind, blift, imm in H;
    cbn in H; unfold imm in H;
    (match type of H with
     | context [get_or_insert ?m b] => destruct (get_or_insert m b) as [[i b1]|] eqn:G
     end; [|done]);
    simpl in H; injection H as -> ->; by apply Hins in G.
Qed.

(** The operators whose low bits depend on the low bits of the operands. *)
Definition low_op (op : BinOp) : Prop := op = Add \/ bitwise op.

Section low_op.
Context (op : BinOp) (Hop : low_op op).

Lemma op_simple : simple_op op.
Proof. unfold simple_op. destruct Hop as [->|[->|[->| ->]]]; auto. Qed.
Lemma op_low : op = Add \/ op = Sub \/ bitwise op.
Proof. destruct Hop; auto. Qed.
Lemma op_comm a c : binop_value op a c = binop_value op c a.
Proof.
  unfold binop_value. destruct Hop as [->|[->|[->| ->]]]; simpl;
    [by rewrite Z.add_comm|apply Z.land_comm|apply Z.lor_comm|apply Z.lxor_comm].
Qed.
Lemma op_weight a a' c : a < a' -> binop_weight op a c < binop_weight op a' c.
Proof. intros Ha. destruct Hop as [->|[->|[->| ->]]]; weigh. Qed.
Lemma op_weight_comm a c : binop_weight op a c = binop_weight op c a.
Proof. destruct Hop as [->|[->|[->| ->]]]; weigh. Qed.

End low_op.

Section extract.
Context (E : Env) (HE : env_ok E).
Context (rec_binop : BinOp -> ValId -> ValId -> bm ValId)
        (rec_extract : ValId -> Z -> Z -> bm ValId) (N : Z).
Context (Hbinop : binop_below E rec_binop N) (Hextract : extract_below E rec_extract N)
        (Hshl : shl_is_no_extract rec_binop).
Context (b : ValBuilder) (v : ValId) (skip take : Z) (n : ValNode).
Context (Hb : wf b) (Hn : value_tree b !! v = Some n)
        (Hs : 0 <= skip) (Ht : 1 <= take) (Hst : skip + take <= 128).
Context (HN : 4 * wt b v + crop b v skip take <= N).

Abbreviation V := (extract_value (den E b v) skip take).
Abbreviation W := (2 * wt b v).

Lemma v_valid : valid b v.
Proof. by apply (node_valid b v n). Qed.
Lemma v_pos : 1 <= wt b v.
Proof. apply wt_pos; [done|apply v_valid]. Qed.
Lemma crop_range : 0 <= crop b v skip take.
Proof. unfold crop. repeat case_match; lia. Qed.

Lemma builds_zero : V = 0 -> builds E (imm 0) b V W.
Proof.
  intros ->. eapply builds_weaken; [apply builds_imm; [done|by apply small_inw]|]. pose proof v_pos. lia.
Qed.

Lemma builds_same w : 0 <= w <= take -> skip = 0 -> inw w (den E b v) -> builds E (bret v) b V W.
Proof.
  intros Hw -> Hin. apply builds_ret; [done|]. rewrite (extract_all w) by done.
  split; [apply v_valid|]. split; [done|]. pose proof v_pos. lia.
Qed.

Lemma take_mask : bitmask_u128 take = Some (Z.ones take).
Proof. unfold bitmask_u128. by zbool. Qed.

(** An extraction of a smaller value. *)
Lemma rec_smaller i x w sk tk :
  val_is E b i x w -> w < wt b v -> 0 <= sk -> 1 <= tk -> sk + tk <= 128 ->
  builds E (rec_extract i sk tk) b (extract_value x sk tk) (2 * w).
Proof.
  intros Hi Hw Hsk Htk Hstk. pose proof crop_range.
  apply (rec_ext E rec_extract N Hextract); try done. lia.
Qed.

Ltac ext_start :=
  pose proof v_valid as VV; pose proof v_pos as VW; pose proof crop_range as VC;
  pose proof builds_zero as Bzero; pose proof builds_same as Bsame; pose proof rec_smaller as Rsmall;
  pose proof (den_node E b v n Hb Hn) as Dn; pose proof (wt_node b v n Hb Hn) as Wn;
  pose proof (wf_nodes b Hb v n Hn) as Ok; pose proof (node_args b v n Hb Hn) as Args.

Lemma ext_const_ok : tries E (ext_const skip take n) b V W.
Proof.
  ext_start. unfold ext_const. destruct n as [c| | | | | | | | | | | |]; try apply tries_no_match.
  apply tries_found, (builds_lift E _ tt); [by zbool|]. apply (builds_lift E _ _ _ _ _ _ take_mask).
  simpl in Dn, Ok. rewrite Dn. eapply builds_weaken; [apply builds_imm; [done|]|lia].
  apply inw_land; [lia| |apply ones_nonneg; lia]. by apply inw_shiftr; [lia|lia|].
Qed.

Lemma ext_extract_ok : tries E (ext_extract rec_extract skip take n) b V W.
Proof.
  ext_start. unfold ext_extract.
  destruct n as [| | | | | | |x sk tk| | | | |]; try apply tries_no_match.
  simpl in *. destruct Ok as (Hsk & Htk & Hstk & _). decompose_Forall_hyps.
  pose proof (wt_pos b x Hb ltac:(done)).
  rewrite Dn, extract_extract, Wn in * by lia. apply tries_found.
  destruct (Z.leb_spec tk skip).
  { by apply Bzero. }
  apply (builds_lift E _ tt); [by zbool|].
  eapply builds_weaken; [apply (Rsmall x _ (wt b x)); [by apply val_self|lia..]|lia].
Qed.

Lemma ext_bool_ok : tries E (ext_bool v skip n) b V W.
Proof.
  ext_start. unfold ext_bool.
  destruct n as [| | | | |o x| | | | | | |]; try apply tries_no_match.
  assert (o = Parity \/ o = IsZero \/ (exists k, o = SelectBit k) ->
    tries E (found (if skip =? 0 then bret v else imm 0)) b V W) as Hbool.
  { intros Ho. apply tries_found. pose proof (bool_value o (den E b x) Ho) as Hv. simpl in Dn.
    rewrite <- Dn in Hv. destruct (Z.eqb_spec skip 0).
    - apply (Bsame 1); [lia|done|]. unfold inw. lia.
    - apply Bzero. rewrite extract_bool by done. by zbool. }
  destruct o; try apply tries_no_match; apply Hbool; eauto.
Qed.

(** ** Loads *)

Lemma load_bits size : 8 <= ds_num_bits size <= 128.
Proof. unfold ds_num_bits. pose proof (ds_num_bytes_range size). lia. Qed.

Lemma load_den ptr off size :
  eval_node E (denote E (value_tree b)) n = load_value E ptr off size -> inw (ds_num_bits size) (den E b v).
Proof. intros Hd. rewrite (den_node E b v n Hb Hn), Hd. by apply load_value_range. Qed.

Lemma ext_load_crop_ok : tries E (ext_load_crop rec_extract v skip take n) b V W.
Proof.
  ext_start. pose proof load_den as Hden. unfold ext_load_crop.
  destruct n as [| | | | | | | | |ptr off size| | |]; try apply tries_no_match.
  specialize (Hden _ _ _ eq_refl). pose proof (load_bits size) as Hbits.
  destruct (Z.ltb_spec (ds_num_bits size) (skip + take)); [|apply tries_no_match]. apply tries_found.
  destruct (Z.leb_spec (ds_num_bits size) skip).
  { apply Bzero. apply (extract_none (ds_num_bits size)); [lia..|done]. }
  rewrite (wrap_small 8) by (unfold inw; lia). rewrite (extract_crop (ds_num_bits size)) by (done || lia).
  apply Hextract; [done|done|lia|lia|lia|]. revert HN. unfold crop. rewrite Hn.
  by zbool; lia.
Qed.

Lemma ext_load_all_ok : tries E (ext_load_all v skip take n) b V W.
Proof.
  ext_start. pose proof load_den as Hden. unfold ext_load_all.
  destruct n as [| | | | | | | | |ptr off size|ptr off size| |]; try apply tries_no_match;
    specialize (Hden _ _ _ eq_refl); pose proof (load_bits size) as Hbits;
    (destruct (Z.eqb_spec skip 0); [|apply tries_no_match]);
    (destruct (Z.leb_spec (ds_num_bits size) take); [|apply tries_no_match]);
    apply tries_found, (Bsame (ds_num_bits size)); done || lia.
Qed.

Lemma try_from_bits_size k s : try_from_bits k = Some s -> k = ds_num_bits s.
Proof.
  unfold try_from_bits, ds_num_bits. intros H. repeat (case_match; try done); by simplify_eq.
Qed.

Lemma ext_load_low_ok : tries E (ext_load_low skip take n) b V W.
Proof.
  ext_start. unfold ext_load_low.
  destruct n as [| | | | | | | | |ptr off size| | |]; try apply tries_no_match.
  destruct (Z.eqb_spec skip 0); [|apply tries_no_match].
  destruct (Z.ltb_spec take (ds_num_bits size)); [|apply tries_no_match].
  destruct (try_from_bits take) as [s|] eqn:Es; [|apply tries_no_match]. apply try_from_bits_size in Es.
  apply tries_found. simpl in Dn, Wn, Args. decompose_Forall_hyps.
  eapply builds_weaken; [eapply builds_eq; [apply (builds_insert E b (NLoadPtr ptr off s))|]|].
  - done.
  - by repeat constructor.
  - done.
  - rewrite Dn. simpl. symmetry.
    rewrite (load_value_sub E ptr _ size s 0) by (try done; unfold ds_num_bits in *; lia). by rewrite Z.add_0_r.
  - simpl. lia.
Qed.

Lemma ext_load_imm_none_ok : tries E (ext_load_imm_none skip n) b V W.
Proof.
  ext_start. pose proof load_den as Hden. unfold ext_load_imm_none.
  destruct n as [| | | | | | | | | |ptr off size| |]; try apply tries_no_match.
  specialize (Hden _ _ _ eq_refl). pose proof (load_bits size) as Hbits.
  destruct (Z.leb_spec (ds_num_bits size) skip); [|apply tries_no_match].
  apply tries_found, Bzero. apply (extract_none (ds_num_bits size)); [lia..|done].
Qed.

Lemma ext_load_imm_ok : tries E (ext_load_imm skip take n) b V W.
Proof.
  ext_start. unfold ext_load_imm.
  destruct n as [| | | | | | | | | |ptr off size| |]; try apply tries_no_match.
  destruct (Z.eqb_spec (skip mod 8) 0) as [Hmod|]; [|apply tries_no_match].
  destruct (bool_decide_reflect (take ∈ [8; 16; 32; 64; 128])) as [Htake|]; [|apply tries_no_match].
  destruct (Z.ltb_spec (skip + take) (ds_num_bits size)); [|apply tries_no_match].
  assert (exists s, try_from_bits take = Some s) as [s Es].
  { apply list_elem_of_In in Htake. simpl in Htake.
    by destruct Htake as [<-|[<-|[<-|[<-|[<-|[]]]]]]; eexists. }
  pose proof (try_from_bits_size _ _ Es) as Ebits.
  assert (skip = 8 * (skip / 8)) as Eskip by (rewrite (Z_div_mod_eq_full skip 8) at 1; lia).
  simpl in Dn, Wn, Ok. unfold ds_num_bits in *. pose proof (ds_num_bytes_range s).
  apply tries_found, (builds_lift E _ s); [done|]. apply (builds_lift E _ tt); [by zbool|].
  eapply builds_weaken; [eapply builds_eq; [apply (builds_insert E b (NLoadPtrImm ptr (off + skip / 8) s))|]|].
  - done.
  - constructor.
  - simpl. lia.
  - rewrite Dn. simpl. symmetry. rewrite Eskip at 1. rewrite Ebits.
    apply (load_value_sub E ptr off size s (skip / 8)); [done|lia..].
  - simpl. lia.
Qed.

Lemma ext_blend_ok : tries E (ext_blend rec_extract skip take n) b V W.
Proof.
  ext_start. unfold ext_blend. destruct n as [| | | | | |l r mask| | | | | |]; try apply tries_no_match.
  simpl in *. decompose_Forall_hyps.
  pose proof (wt_pos b l Hb ltac:(done)). pose proof (wt_pos b r Hb ltac:(done)).
  apply (tries_lift E _ tt); [by zbool|]. apply (tries_lift E _ _ _ _ _ _ take_mask).
  rewrite Dn. destruct (Z.eqb_spec (count_ones 128 (Z.land (Z.shiftr mask skip) (Z.ones take))) take) as [Hc|].
  - apply count_ones_full in Hc; [|lia]. rewrite (extract_blend _ _ _ _ _ true) by (done || lia).
    apply tries_found. eapply builds_weaken; [by apply (Rsmall r _ (wt b r)); [apply val_self|lia..]|lia].
  - destruct (Z.eqb_spec (count_ones 128 (Z.land (Z.shiftr mask skip) (Z.ones take))) 0) as [Hc|];
      [|apply tries_no_match].
    apply count_ones_empty in Hc; [|lia]. rewrite (extract_blend _ _ _ _ _ false) by (done || lia).
    apply tries_found. eapply builds_weaken; [by apply (Rsmall l _ (wt b l)); [apply val_self|lia..]|lia].
Qed.

Lemma ext_ite_ok : tries E (ext_ite rec_extract skip take n) b V W.
Proof.
  ext_start. unfold ext_ite. destruct n as [| | | | | | | |c z nz| | | |]; try apply tries_no_match.
  simpl in *. decompose_Forall_hyps.
  pose proof (wt_pos b c Hb ltac:(done)). pose proof (wt_pos b z Hb ltac:(done)).
  pose proof (wt_pos b nz Hb ltac:(done)).
  apply tries_found. eapply builds_bind.
  { apply (Rsmall z (den E b z) (wt b z)); [by apply val_self|lia..]. }
  intros z' b1 X1 Hb1 Vz. eapply builds_bind.
  { apply (rec_ext E rec_extract N Hextract b1 nz skip take (den E b nz) (wt b nz));
      [done|by apply (extends_val E b), val_self|lia..]. }
  intros nz' b2 X2 Hb2 (Vnz & Dnz & Wnz).
  destruct (extends_val E b1 b2 z' _ _ X2 Vz) as (Vz' & Dz & Wz).
  destruct (extends_val E b b2 c (den E b c) (wt b c)) as (Vc & Dc & Wc);
    [by apply (extends_trans b b1)|by apply val_self|].
  eapply builds_weaken; [eapply builds_eq; [apply (builds_insert E b2 (NIte c z' nz'))|]|].
  - done.
  - by repeat constructor.
  - done.
  - simpl. rewrite Dc, Dz, Dnz, Dn. unfold ite_value. by case_match.
  - simpl. lia.
Qed.

Lemma ext_shl_ok : tries E (ext_shl rec_binop rec_extract skip take n) b V W.
Proof.
  ext_start. unfold ext_shl. destruct n as [| |[] x s| | | | | | | | | |]; try apply tries_no_match.
  destruct (binop_den E b v Shl x s Hb Hn) as (_ & _ & Hx & Hsv & Hwx & Hws).
  destruct (valid_node b x Hx) as [nx Hnx], (valid_node b s Hsv) as [ns Hns].
  apply (tries_node E _ _ _ _ _ _ Hnx), (tries_node E _ _ _ _ _ _ Hns).
  destruct ns as [c| | | | | | | | | | | |]; try apply tries_no_match.
  destruct (const_den E b s c Hb Hns) as (Ec & Wc & Hc).
  pose proof (proj1 Ok eq_refl c Hns) as Hlt. assert (0 <= c) by (unfold inw in Hc; lia).
  simpl in Dn, Wn. rewrite Ec, shl_value in Dn by lia. rewrite Wc in Wn.
  apply (tries_lift E _ tt); [by zbool|]. apply tries_found. rewrite (wrap_small 8) by (unfold inw; lia).
  destruct (Z.leb_spec (skip + take) c).
  { apply Bzero. rewrite Dn. apply extract_shl_none; lia. }
  destruct (Z.leb_spec c skip).
  { rewrite Dn, extract_shl_below by lia.
    eapply builds_weaken; [apply (Rsmall x _ (wt b x)); [by apply val_self|lia..]|lia]. }
  rewrite Dn, extract_shl_above by lia.
  eapply builds_bind_eq; [apply (builds_imm E b (c - skip) Hb); unfold inw in *; lia|].
  intros k b1 Ek X1 Hb1 (Vk & Dk & Wk). apply inserted_node in Ek; [|done].
  pose proof (extends_val E b b1 x _ _ X1 (val_self E b x Hx)) as (Vx & Dx & Wx).
  assert (binop_value Shl (den E b x) (c - skip) = wrap 128 (Z.shiftl (den E b x) (c - skip))) as Eshl
    by (apply shl_value; lia).
  eapply builds_bind_eq.
  { eapply builds_weaken; [apply (Hbinop b1 Shl x k Hb1)|apply binop_weight_mono; [exact Wx|exact Wk]].
    - split; [done|]. split; [done|]. split; [by eexists|]. intros _ d Hd. simplify_eq. lia.
    - weigh. }
  intros r b2 Er X2 Hb2 (Vr & Dr & Wr). rewrite Dx, Dk, Eshl in Dr.
  eapply builds_weaken; [eapply builds_eq; [apply (builds_insert E b2 (NExtract r 0 take))|]|].
  - done.
  - by repeat constructor.
  - simpl. split; [lia|]. split; [lia|]. split; [lia|]. by apply (Hshl b1 x k (c - skip) r b2 Hb1 Ek ltac:(lia) Er).
  - simpl. by rewrite Dr.
  - simpl. weigh.
Qed.

(** ** Operators whose low bits depend on the low bits of the operands *)

(** The operator on smaller operands, and then its bits. *)
Lemma builds_op_extract b1 o i j vi wi vj wj :
  simple_op o -> wf b1 -> val_is E b1 i vi wi -> val_is E b1 j vj wj ->
  extract_value (binop_value o vi vj) skip take = V -> binop_weight o wi wj < wt b v ->
  builds E (inner <~ rec_binop o i j;; rec_extract inner skip take) b1 V W.
Proof.
  intros Ho Hb1 Hi Hj HV Hw. pose proof crop_range. pose proof v_pos. eapply builds_bind.
  { apply (rec_simple E rec_binop N Hbinop b1 o i j vi wi vj wj); try done. lia. }
  intros r b2 X2 Hb2 Vr. rewrite <- HV.
  eapply builds_weaken; [apply (rec_ext E rec_extract N Hextract b2 r skip take _ _ Hb2 Vr); lia|lia].
Qed.

Section bitwise.
Context (op : BinOp) (x y : ValId) (nx ny : ValNode).
Context (Hop : low_op op) (En : n = NBinOp op x y).
Context (Hnx : value_tree b !! x = Some nx) (Hny : value_tree b !! y = Some ny).

Lemma operands : den E b v = binop_value op (den E b x) (den E b y) /\ wt b v = binop_weight op (wt b x) (wt b y)
  /\ valid b x /\ valid b y /\ 1 <= wt b x /\ 1 <= wt b y.
Proof. apply binop_den; [done|]. by rewrite <- En. Qed.

(** An operand that has the same low bits as one of the operands. *)
Lemma builds_low_operand i j k :
  (j = x /\ k = y \/ j = y /\ k = x) -> skip = 0 -> valid b i ->
  extract_value (den E b i) 0 take = extract_value (den E b j) 0 take -> wt b i < wt b j ->
  builds E (inner <~ rec_binop op i k;; rec_extract inner skip take) b V W.
Proof.
  intros Hjk Es Hi Hlow Hw. destruct operands as (Dv & Wv & Hx & Hy & _ & _).
  assert (valid b k) as Hk by (by destruct Hjk as [[_ ->]|[_ ->]]).
  assert (den E b v = binop_value op (den E b j) (den E b k)
    /\ wt b v = binop_weight op (wt b j) (wt b k)) as [Dv' Wv'].
  { destruct Hjk as [[-> ->]|[-> ->]]; [done|]. by rewrite (op_comm op Hop), (op_weight_comm op Hop). }
  apply (builds_op_extract b op i k (den E b i) (wt b i) (den E b k) (wt b k)); try done.
  - by apply op_simple.
  - rewrite Dv', Es. apply extract_low; [by apply op_low|lia|done|done].
  - rewrite Wv'. by apply op_weight.
Qed.

Lemma low_extract_operand j m i :
  value_tree b !! j = Some m -> low_extract skip take m = Some i ->
  skip = 0 /\ valid b i /\ wt b i < wt b j
  /\ extract_value (den E b i) 0 take = extract_value (den E b j) 0 take.
Proof.
  intros Hj Hl. unfold low_extract in Hl. destruct m as [| | | | | | |w sk tk| | | | |]; try done.
  destruct (Z.eqb_spec sk 0) as [->|]; [|done]. destruct (Z.eqb_spec skip 0); [|done].
  destruct (Z.leb_spec take tk); [|done]. injection Hl as ->.
  destruct (extract_den E b Hb j i 0 tk Hj) as (Dj & Wj & Hi & Hwi & _).
  split; [done|]. split; [done|]. split; [lia|]. rewrite Dj. symmetry. apply extract_low_extract. lia.
Qed.

Lemma ext_and_operand_ok i0 i1 :
  nx = NBinOp And i0 i1 -> tries E (ext_and_operand rec_binop rec_extract skip take op i0 i1 y) b V W.
Proof.
  intros ->. destruct (binop_den E b x And i0 i1 Hb Hnx) as (Dx & Wx & H0 & H1 & Hw0 & Hw1).
  destruct (valid_node b i0 H0) as [m0 Hm0], (valid_node b i1 H1) as [m1 Hm1].
  apply (tries_node E _ _ _ _ _ _ Hm0), (tries_node E _ _ _ _ _ _ Hm1).
  destruct m0 as [c| | | | | | | | | | | |]; try apply tries_no_match.
  destruct (Z.eqb_spec skip 0) as [Es|]; [|apply tries_no_match].
  destruct (Z.leb_spec take (trailing_ones c)); [|apply tries_no_match].
  destruct (const_den E b i0 c Hb Hm0) as (E0 & _). rewrite E0 in Dx.
  apply tries_found, (builds_low_operand i1 x y); [by left|done|done| |weigh].
  rewrite Dx. unfold binop_value. simpl. symmetry. apply extract_low_masked. lia.
Qed.

Lemma ext_masked_ok : tries E (ext_masked rec_binop rec_extract skip take op x y nx ny) b V W.
Proof.
  destruct operands as (Dv & Wv & Hx & Hy & Hwx & Hwy). pose proof take_mask as Hmask.
  pose proof rec_smaller as Rsmall. pose proof HN as HN'. pose proof crop_range as VC.
  assert (forall inner c ic, op = And -> (inner = x /\ ic = y \/ inner = y /\ ic = x) ->
    value_tree b !! ic = Some (NConst c) ->
    tries E (found (v <~ rec_extract inner skip take;;
           _ <~ blift (assert (skip <? 128));;
           mask <~ blift (bitmask_u128 take);;
           m <~ imm (Z.land (Z.shiftr c skip) mask);;
           rec_binop And v m)) b V W) as Hm.
  { intros inner c ic Eop Hside Hc. destruct (const_den E b ic c Hb Hc) as (Ec & Wc & Hin).
    assert (valid b inner /\ den E b v = binop_value And (den E b inner) c
      /\ wt b v = binop_weight And (wt b inner) 1 /\ 1 <= wt b inner) as (Hi & Di & Wi & Hwi).
    { rewrite Dv, Wv, Eop. destruct Hside as [[-> ->]|[-> ->]]; rewrite Ec, Wc; [done|].
      split; [done|]. split; [apply Z.land_comm|]. split; [weigh|done]. }
    apply tries_found. eapply builds_bind.
    { apply (Rsmall inner (den E b inner) (wt b inner)); [by apply val_self|weigh|lia..]. }
    intros r b1 X1 Hb1 Vr. apply (builds_lift E _ tt); [by zbool|]. apply (builds_lift E _ _ _ _ _ _ Hmask).
    eapply builds_bind.
    { apply (builds_imm E b1 (Z.land (Z.shiftr c skip) (Z.ones take)) Hb1).
      apply inw_land; [lia|by apply inw_shiftr; [lia|lia|]|apply ones_nonneg; lia]. }
    intros m b2 X2 Hb2 Vm. eapply builds_weaken; [eapply builds_eq;
      [apply (rec_simple E rec_binop N Hbinop b2 And r m _ _ _ 1 ltac:(by left) Hb2
                (extends_val E b1 b2 r _ _ X2 Vr) Vm)|]|].
    - weigh.
    - rewrite Di. symmetry. by apply (extract_bitwise And); [left|lia..].
    - weigh. }
  unfold ext_masked. destruct op; try apply tries_no_match.
  destruct (is_const nx) as [[c ->]|Hx'].
  { apply (Hm y c x); [done|by right|done]. }
  destruct nx; try (by destruct (Hx' c)); (destruct ny; try apply tries_no_match);
    (eapply (Hm x _ y); [done|by left|done]).
Qed.

Lemma ext_split_ok :
  tries E (match op with
           | Or | And | Xor =>
             found (lhs <~ rec_extract x skip take;;
                    rhs <~ rec_extract y skip take;;
                    rec_binop op lhs rhs)
           | _ => no_match
           end) b V W.
Proof.
  destruct operands as (Dv & Wv & Hx & Hy & Hwx & Hwy). pose proof (op_simple op Hop) as Hsimple.
  pose proof crop_range as VC. pose proof rec_smaller as Rsmall. pose proof HN as HN'.
  assert (bitwise op -> tries E (found (lhs <~ rec_extract x skip take;;
    rhs <~ rec_extract y skip take;; rec_binop op lhs rhs)) b V W) as Hbit.
  { intros Hbw. apply tries_found. eapply builds_bind.
    { apply (Rsmall x (den E b x) (wt b x)); [by apply val_self| |lia..].
      destruct Hbw as [->|[->| ->]]; weigh. }
    intros l b1 X1 Hb1 Vl. eapply builds_bind.
    { apply (rec_ext E rec_extract N Hextract b1 y skip take (den E b y) (wt b y));
        [done|by apply (extends_val E b), val_self|lia..|].
      destruct Hbw as [->|[->| ->]]; weigh. }
    intros r b2 X2 Hb2 Vr. eapply builds_weaken; [eapply builds_eq;
      [apply (rec_simple E rec_binop N Hbinop b2 op l r _ _ _ _ Hsimple Hb2
                (extends_val E b1 b2 l _ _ X2 Vl) Vr)|]|].
    - destruct Hbw as [->|[->| ->]]; weigh.
    - rewrite Dv. symmetry. apply extract_bitwise; [done|lia..].
    - destruct Hbw as [->|[->| ->]]; weigh. }
  destruct op; try apply tries_no_match; apply Hbit; unfold bitwise; auto.
Qed.

Lemma ext_operands_ok :
  tries E (orelse
        (match low_extract skip take nx, low_extract skip take ny with
         | Some v, _ => found (inner <~ rec_binop op v y;; rec_extract inner skip take)
         | None, Some v => found (inner <~ rec_binop op v x;; rec_extract inner skip take)
         | None, None =>
             match nx with
             | NBinOp And i0 i1 => ext_and_operand rec_binop rec_extract skip take op i0 i1 y
             | _ => ext_masked rec_binop rec_extract skip take op x y nx ny
             end
         end)
        (match op with
         | Or | And | Xor =>
             found (lhs <~ rec_extract x skip take;;
                    rhs <~ rec_extract y skip take;;
                    rec_binop op lhs rhs)
         | _ => no_match
         end)) b V W.
Proof.
  apply tries_orelse; [|apply ext_split_ok].
  destruct (low_extract skip take nx) as [i|] eqn:Elx.
  { destruct (low_extract_operand x nx i Hnx Elx) as (Es & Hi & Hw & Hlow).
    apply tries_found, (builds_low_operand i x y); try done. by left. }
  destruct (low_extract skip take ny) as [i|] eqn:Ely.
  { destruct (low_extract_operand y ny i Hny Ely) as (Es & Hi & Hw & Hlow).
    apply tries_found, (builds_low_operand i y x); try done. by right. }
  pose proof ext_masked_ok as Hmasked. pose proof ext_and_operand_ok as Hand.
  destruct nx as [| |[] i0 i1| | | | | | | | | |]; try exact Hmasked. by apply Hand.
Qed.

End bitwise.

Lemma ext_bitwise_ok : tries E (ext_bitwise rec_binop rec_extract skip take n) b V W.
Proof.
  pose proof (node_args b v n Hb Hn) as Args. pose proof ext_operands_ok as Hops. unfold ext_bitwise.
  destruct n as [| |op x y| | | | | | | | | |]; try apply tries_no_match. simpl in Args.
  decompose_Forall_hyps.
  destruct (valid_node b x) as [nx Hnx]; [done|]. destruct (valid_node b y) as [ny Hny]; [done|].
  destruct op; try apply tries_no_match;
    apply (tries_node E _ _ _ _ _ _ Hnx), (tries_node E _ _ _ _ _ _ Hny);
    (apply (fun Hop => Hops _ x y nx ny Hop eq_refl Hnx Hny); unfold low_op, bitwise; auto).
Qed.

Lemma sub_of_extract z c :
  extract_value (binop_value Sub (extract_value z 0 take) c) 0 take = extract_value (binop_value Sub z c) 0 take.
Proof. apply extract_low; [by auto|lia| |done]. apply extract_low_extract. lia. Qed.

Lemma ext_sub_ok : tries E (ext_sub rec_binop rec_extract skip take n) b V W.
Proof.
  ext_start. pose proof sub_of_extract as Hsub. pose proof builds_op_extract as Bop. unfold ext_sub.
  destruct n as [| |[] l r| | | | | | | | | |]; try apply tries_no_match.
  destruct (binop_den E b v Sub l r Hb Hn) as (Dv & Wv & Hl & Hr & _).
  destruct (valid_node b l Hl) as [nl Hnl], (valid_node b r Hr) as [nr Hnr].
  apply (tries_node E _ _ _ _ _ _ Hnr), (tries_node E _ _ _ _ _ _ Hnl).
  destruct nr as [c1| | | | | | | | | | | |]; try apply tries_no_match.
  destruct nl as [| | | | | | |z sk tk| | | | |]; try apply tries_no_match.
  destruct (const_den E b r c1 Hb Hnr) as (Dr & Wr & Hc1).
  destruct (extract_den E b Hb l z sk tk Hnl) as (Dl & Wl & Hz & Hwz & _).
  destruct (Z.eqb_spec skip 0) as [->|]; [|apply tries_no_match].
  destruct (Z.eqb_spec sk 0) as [->|]; [|apply tries_no_match].
  destruct (Z.eqb_spec tk take) as [->|]; [|apply tries_no_match].
  destruct (valid_node b z Hz) as [nz Hnz]. apply (tries_node E _ _ _ _ _ _ Hnz).
  destruct nz as [| |o il ir| | | | | | | | | |]; try apply tries_no_match.
  destruct (binop_den E b z o il ir Hb Hnz) as (Dz & Wz & Hil & Hir & Hwl & Hwr).
  destruct (valid_node b ir Hir) as [nc Hnc].
  assert (forall c2, nc = NConst c2 -> forall d, o = Add /\ d = c1 - c2 \/ o = Sub /\ d = c1 + c2 ->
    tries E (found (sum <~ imm (wrap 128 d);; r <~ rec_binop Sub il sum;; rec_extract r 0 take)) b
      (extract_value (den E b v) 0 take) W) as Harm.
  { intros c2 -> d Ho. destruct (const_den E b ir c2 Hb Hnc) as (Dc & Wc & Hc2).
    apply tries_found. eapply builds_bind; [apply (builds_imm E b (wrap 128 d) Hb); by apply wrap_inw|].
    intros k b1 X1 Hb1 Vk.
    apply (Bop b1 Sub il k (den E b il) (wt b il) (wrap 128 d) 1);
      [unfold simple_op; auto|done|by apply (extends_val E b), val_self|done| |].
    - rewrite Dv, Dl, Hsub, Dz, Dr, Dc. unfold binop_value.
      destruct Ho as [[-> ->]|[-> ->]]; simpl; f_equal; wrap_ring.
    - rewrite Wv, Wl, Wz, Wc. destruct Ho as [[-> ->]|[-> ->]]; weigh. }
  destruct o; try apply tries_no_match; apply (tries_node E _ _ _ _ _ _ Hnc);
    (destruct nc; try apply tries_no_match); eapply Harm; eauto.
Qed.

Lemma ext_extract_passed b' :
  ext_extract rec_extract skip take n b = Some (None, b') -> forall x sk tk, n <> NExtract x sk tk.
Proof. intros H x sk tk ->. by apply found_matches in H. Qed.

Lemma extract_arms_ok :
  builds E (run_arms (extract_arms rec_binop rec_extract v skip take n)
              (get_or_insert (NExtract v skip take))) b V W.
Proof.
  unfold extract_arms.
  apply builds_arm; [apply ext_const_ok|intros _].
  apply builds_arm; [apply ext_extract_ok|intros Hext].
  apply builds_arm; [apply ext_bool_ok|intros _].
  apply builds_arm; [apply ext_load_crop_ok|intros _].
  apply builds_arm; [apply ext_load_all_ok|intros _].
  apply builds_arm; [apply ext_load_low_ok|intros _].
  apply builds_arm; [apply ext_load_imm_none_ok|intros _].
  apply builds_arm; [apply ext_load_imm_ok|intros _].
  apply builds_arm; [apply ext_blend_ok|intros _].
  apply builds_arm; [apply ext_bitwise_ok|intros _].
  apply builds_arm; [apply ext_shl_ok|intros _].
  apply builds_arm; [apply ext_ite_ok|intros _].
  apply builds_arm; [apply ext_sub_ok|intros _].
  apply builds_no_arm, (builds_insert E b (NExtract v skip take)); [done|by repeat constructor; apply v_valid|].
  split; [done|]. split; [done|]. split; [done|]. intros x sk tk Hx.
  apply (ext_extract_passed _ Hext x sk tk). congruence.
Qed.

End extract.

Lemma extract_step_ok E (HE : env_ok E) rec_binop rec_extract N :
  binop_below E rec_binop N -> extract_below E rec_extract N -> shl_is_no_extract rec_binop ->
  forall b v skip take, wf b -> valid b v -> 0 <= skip -> 1 <= take -> skip + take <= 128 ->
  4 * wt b v + crop b v skip take <= N ->
  builds E (extract_step rec_binop rec_extract v skip take) b (extract_value (den E b v) skip take) (2 * wt b v).
Proof.
  intros Hbin Hext Hshl b v skip take Hb Hv Hs Ht Hst HN. destruct (valid_node b v Hv) as [n Hn].
  apply (builds_node E v n); [done|]. by apply (extract_arms_ok E HE rec_binop rec_extract N).
Qed.
