(* ===== verification/ValSound.v ===== *)
(** * The value builder keeps what values denote

    [binop], [extract], [ite] and [unop] of [ValBuild] return a node that
    denotes the operator's value on what the operands denote, in every
    environment, for every well-formed graph and with enough fuel; the bound
    on the fuel is twice the weight of the operator, or four times the weight
    of the value that is extracted from. *)
From S2P Require Import Prelude IlOps ValTree ValBuild ValSpec ValMath ValEquality ValBinop ValExtract.

#[local] Open Scope bm_scope.

Lemma binop_weight_args op x y : 1 <= x -> 1 <= y -> 1 <= binop_weight op x y.
Proof. intros. destruct op; weigh. Qed.

Lemma fuel_ok E (HE : env_ok E) n :
  binop_below E (binop n) (Z.of_nat n) /\ extract_below E (extract n) (Z.of_nat n)
  /\ shl_is_no_extract (binop n).
Proof.
  induction n as [|n (IHb & IHe & IHs)].
  - split; [|split].
    + intros b op x y Hb (Hx & Hy & _) Hw.
      pose proof (binop_weight_args op _ _ (wt_pos b x Hb Hx) (wt_pos b y Hb Hy)). lia.
    + intros b v skip take Hb Hv Hs Ht Hst Hw. pose proof (wt_pos b v Hb Hv). unfold crop in Hw.
      repeat case_match; lia.
    + by intros b x s k id b' _ _ _.
  - split; [|split].
    + intros b op x y Hb Hpre Hw. cbn [binop].
      apply (binop_step_ok E HE (binop n) (extract n) (Z.of_nat n)); try done. lia.
    + intros b v skip take Hb Hv Hs Ht Hst Hw. cbn [extract].
      apply (extract_step_ok E HE (binop n) (extract n) (Z.of_nat n)); try done. lia.
    + cbn [binop]. apply binop_step_shl.
Qed.

(** The operators on operands of known values; a constant amount of a shift is
    excluded here, see [op_pre]. *)
Lemma binop_val E (HE : env_ok E) fuel b op x y vx wx vy wy :
  simple_op op -> wf b -> val_is E b x vx wx -> val_is E b y vy wy ->
  2 * binop_weight op wx wy < Z.of_nat fuel ->
  builds E (binop fuel op x y) b (binop_value op vx vy) (binop_weight op wx wy).
Proof. intros. apply (rec_simple E (binop fuel) (Z.of_nat fuel)); try done. apply fuel_ok, HE. Qed.

(** ** What a computation builds in every environment *)

Definition zero_env : Env :=
  {| var_value := fun _ => 0; load_byte := fun _ _ => 0; fp_binop_value := fun _ _ _ _ => 0;
     fp_unop_value := fun _ _ _ => 0; instr_len_value := 0; part_values_value := 0 |}.
Lemma zero_env_ok : env_ok zero_env.
Proof. split; intros; unfold inw; simpl; lia. Qed.

(** [m] returns a node of a well-formed extension of [b] that denotes [v]. *)
Definition returns (m : bm ValId) (b : ValBuilder) (v : Env -> Z) : Prop :=
  exists id b', m b = Some (id, b') /\ extends b b' /\ wf b' /\ valid b' id
  /\ forall E, env_ok E -> den E b' id = v E.

Lemma builds_returns m b v :
  (forall E, env_ok E -> exists w, builds E m b (v E) w) -> returns m b v.
Proof.
  intros H. destruct (H zero_env zero_env_ok) as (w & id & b' & Em & Hx & Hb & Hv & _).
  exists id, b'. repeat (split; [done|]). intros E HE.
  destruct (H E HE) as (w' & id2 & b2 & Em2 & _ & _ & _ & Hd & _). rewrite Em in Em2.
  by injection Em2 as <- <-.
Qed.

Lemma returns_node i n k b v :
  value_tree b !! i = Some n -> returns (k n) b v -> returns (n <~ node i;; k n) b v.
Proof. intros Hn (id & b' & Ek & H). exists id, b'. split; [|done]. by rewrite (bind_node i n). Qed.

Lemma insert_returns b n :
  wf b -> Forall (valid b) (referenced_nodes n) -> node_ok (value_tree b) n ->
  returns (get_or_insert n) b (fun E => eval_node E (denote E (value_tree b)) n).
Proof. intros Hb Ha Hok. apply builds_returns. intros E _. eexists. by apply builds_insert. Qed.

(** What is kept: nodes that are there denote what they denoted. *)
Lemma extends_den E b b' i : extends b b' -> valid b i -> den E b' i = den E b i.
Proof. intros Hx Hi. by destruct (extends_val E b b' i _ _ Hx (val_self E b i Hi)) as (_ & -> & _). Qed.

(** ** Conditionals *)

Lemma ite_weight_node E b i c z nz :
  wf b -> value_tree b !! i = Some (NIte c z nz) ->
  den E b i = ite_value (den E b c) (den E b z) (den E b nz)
  /\ (z < i)%nat /\ (nz < i)%nat /\ valid b z /\ valid b nz.
Proof.
  intros Hb Hi. rewrite (den_node E b i _ Hb Hi). pose proof (wf_ordered b Hb i _ Hi) as Ho.
  pose proof (node_args b i _ Hb Hi) as Ha. simpl in Ho, Ha. decompose_Forall_hyps. done.
Qed.

Lemma ite_returns fuel b c z nz :
  wf b -> valid b c -> valid b z -> valid b nz -> (z + nz < fuel)%nat ->
  returns (ite fuel c z nz) b (fun E => ite_value (den E b c) (den E b z) (den E b nz)).
Proof.
  intros Hb Hc. revert z nz. induction fuel as [|fuel IH]; intros z nz Hz Hnz Hf; [lia|].
  destruct (valid_node b c Hc) as [mc Hmc], (valid_node b z Hz) as [mz Hmz], (valid_node b nz Hnz) as [mn Hmn].
  cbn [ite]. apply (returns_node c mc), (returns_node z mz), (returns_node nz mn); [done..|].
  assert (returns (get_or_insert (NIte c z nz)) b
    (fun E => ite_value (den E b c) (den E b z) (den E b nz))) as Hplain
    by (apply (insert_returns b (NIte c z nz)); [done|by repeat constructor|done]).
  assert (forall z' nz', valid b z' -> valid b nz' -> (z' + nz' < fuel)%nat ->
    (forall E, ite_value (den E b c) (den E b z') (den E b nz')
               = ite_value (den E b c) (den E b z) (den E b nz)) ->
    returns (ite fuel c z' nz') b (fun E => ite_value (den E b c) (den E b z) (den E b nz))) as Hrec.
  { intros z' nz' Hz' Hnz' Hf' Heq. destruct (IH z' nz' Hz' Hnz' Hf') as (id & b' & Er & Hx & Hb' & Hi & Hd).
    exists id, b'. repeat (split; [done|]). intros E HE. by rewrite Hd. }
  assert (returns (match mn with
      | NIte inner_cond _ inner_if_nonzero =>
          if decide (c = inner_cond) then ite fuel c z inner_if_nonzero else get_or_insert (NIte c z nz)
      | _ => get_or_insert (NIte c z nz)
      end) b (fun E => ite_value (den E b c) (den E b z) (den E b nz))) as Hnonzero.
  { destruct mn as [| | | | | | | |ic iz inz| | | |]; try exact Hplain. destruct (decide (c = ic)) as [<-|]; [|exact Hplain].
    destruct (ite_weight_node zero_env b nz c iz inz Hb Hmn) as (_ & _ & Hlt & _ & Hv).
    apply Hrec; [done|done|lia|]. intros E. destruct (ite_weight_node E b nz c iz inz Hb Hmn) as (-> & _).
    unfold ite_value. by destruct (den E b c =? 0). }
  destruct mc as [k| | | | | | | | | | | |]; [|
    (destruct mz as [| | | | | | | |ic iz inz| | | |]; try exact Hnonzero;
     destruct (decide (c = ic)) as [<-|]; [|exact Hnonzero];
     destruct (ite_weight_node zero_env b z c iz inz Hb Hmz) as (_ & Hlt & _ & Hv & _);
     apply Hrec; [done|done|lia|]; intros E; destruct (ite_weight_node E b z c iz inz Hb Hmz) as (-> & _);
     unfold ite_value; by destruct (den E b c =? 0)) ..].
  exists (if k =? 0 then z else nz), b. split; [done|]. split; [apply extends_refl|]. split; [done|].
  split; [by destruct (k =? 0)|]. intros E _. rewrite (den_node E b c _ Hb Hmc). simpl. unfold ite_value.
  by destruct (k =? 0).
Qed.

(** ** Constants are folded by [unop] *)

Lemma unop_returns op b x :
  wf b -> valid b x -> (forall c, value_tree b !! x = Some (NConst c) -> is_Some (unop_execute op c)) ->
  returns (unop op x) b (fun E => unop_value op (den E b x)).
Proof.
  intros Hb Hx Hfold. apply builds_returns. intros E HE. destruct (valid_node b x Hx) as [n Hn].
  assert (builds E (get_or_insert (NUnOp op x)) b (unop_value op (den E b x)) (wt b x + 1)) as Hplain.
  { apply (builds_insert E b (NUnOp op x)); [done|by repeat constructor|done]. }
  assert (forall c, n = NConst c -> exists w, builds E (v <~ blift (unop_execute op c);; imm v) b
    (unop_value op (den E b x)) w) as Hconst.
  { intros c ->. destruct (Hfold c Hn) as [r Hr]. destruct (const_den E b x c Hb Hn) as (-> & _ & Hc).
    eexists. apply (builds_lift E _ r); [done|]. unfold unop_value. rewrite Hr. simpl.
    apply (builds_imm E b r Hb). pose proof (unop_value_inw op c Hc) as Hin. unfold unop_value in Hin.
    by rewrite Hr in Hin. }
  destruct n as [c| | | | | | | | | | | |] eqn:En;
    [destruct (Hconst c eq_refl) as [w Hw]; exists w|eexists ..];
    (eapply builds_node; [exact Hn|]); [exact Hw|exact Hplain ..].
Qed.

(** ** Conditions without their tests for zero *)

Lemma optimize_as_if_zero_sound fuel b cond :
  wf b -> valid b cond -> (cond < fuel)%nat ->
  exists v flip, optimize_as_if_zero fuel (value_tree b) cond = Some (v, flip) /\ valid b v
  /\ forall E, (den E b cond =? 0) = xorb flip (den E b v =? 0).
Proof.
  intros Hb. revert cond. induction fuel as [|fuel IH]; intros cond Hv Hf; [lia|].
  destruct (valid_node b cond Hv) as [n Hn]. cbn [optimize_as_if_zero]. rewrite Hn. cbn [mbind option_bind].
  assert (exists v flip, Some (cond, false) = Some (v, flip) /\ valid b v
    /\ forall E, (den E b cond =? 0) = xorb flip (den E b v =? 0)) as Hstop.
  { exists cond, false. split; [done|]. split; [done|]. intros E. by destruct (den E b cond =? 0). }
  destruct n as [| | | | |[] x| | | | | | |]; try exact Hstop.
  pose proof (wf_ordered b Hb cond _ Hn) as Ho. pose proof (node_args b cond _ Hb Hn) as Ha.
  simpl in Ho, Ha. decompose_Forall_hyps.
  destruct (IH x) as (v & flip & -> & Hval & Hd); [done|lia|]. cbn [mbind option_bind].
  exists v, (negb flip). split; [done|]. split; [done|]. intros E.
  rewrite (den_node E b cond _ Hb Hn). simpl. specialize (Hd E). unfold unop_value. simpl.
  destruct (Z.eqb_spec (denote E (value_tree b) x) 0) as [Hx|Hx]; simpl; rewrite ?Hx in *.
  all: destruct flip, (den E b v =? 0); simpl in *; try done.
Qed.
