(* ===== verification/ValCombine.v ===== *)
(** * Combining old and new values

    [ValBuilder::combine_old_and_new] and [combine_old_and_new_mask] of
    [sem86-core/src/codegen/mir/val.rs]: writing a part of a location builds a
    blend of its old value and the new part, or something simpler that denotes
    the same value. *)
From S2P Require Import Prelude IlOps IlLoc ValTree ValBuild ValSpec ValMath ValEquality ValBinop ValExtract ValSound.

#[local] Open Scope bm_scope.

(** ** Definitions *)

(** The values of two blends that update distinct parts, next to each other. *)
Definition blend_both (fuel : nat) (mask_inner : Z) (new_inner new : ValId) (new_mask : Z) : bm ValId :=
  mask_inner_val <~ imm mask_inner;;
  new_inner <~ binop fuel And mask_inner_val new_inner;;
  mask_val <~ imm new_mask;;
  new <~ binop fuel And new mask_val;;
  binop fuel Or new_inner new.

Fixpoint combine_old_and_new_mask (fuel : nat) (old new : ValId) (mask : Z) : bm ValId :=
  match fuel with
  | O => bpanic
  | S fuel =>
      no <~ node old;;
      _ <~ node new;;
      match no with
      | NBlend lhs_inner new_inner mask_inner =>
          if Z.land mask mask_inner =? mask_inner then combine_old_and_new_mask fuel lhs_inner new mask
          else if Z.land mask mask_inner =? 0 then
            both <~ blend_both fuel mask_inner new_inner new mask;;
            combine_old_and_new_mask fuel lhs_inner both (Z.lor mask_inner mask)
          else get_or_insert (NBlend old new mask)
      | _ => get_or_insert (NBlend old new mask)
      end
  end.

Section combine.
Context (fuel : nat) (again : ValId -> ValId -> bm ValId) (old new : ValId) (no nn : ValNode).
Context (bits shift_bits unshifted_mask mask : Z).

(** [new & mask_from_size(size)], shifted into place. *)
Definition place_new : bm ValId :=
  shift <~ imm shift_bits;;
  mask_val <~ imm unshifted_mask;;
  new <~ binop fuel And new mask_val;;
  binop fuel Shl new shift.

Definition comb_extract : arm :=
  match no with
  | NExtract _ _ take =>
      m <~ blift (bitmask_u128 take);;
      if Z.land (unot 128 mask) m =? 0 then found place_new else no_match
  | _ => no_match
  end.

Definition comb_zero : arm :=
  match no with NConst 0 => found place_new | _ => no_match end.

Definition comb_const : arm :=
  match nn with
  | NConst c =>
      let placed := Z.land (wrap 128 (Z.shiftl c shift_bits)) mask in
      found (inverted_mask <~ imm (unot 128 mask);;
             old <~ binop fuel And old inverted_mask;;
             new <~ imm placed;;
             binop fuel Or old new)
  | _ => no_match
  end.

Definition comb_inner : arm :=
  match no with
  | NBlend lhs_inner _ mask_inner =>
      if Z.land mask mask_inner =? mask_inner then found (again lhs_inner new) else no_match
  | _ => no_match
  end.

Definition comb_distinct : arm :=
  match no with
  | NBlend old_inner new_inner mask_inner =>
      if Z.land mask mask_inner =? 0 then
        found (mask_inner_val <~ imm mask_inner;;
               new_inner <~ binop fuel And mask_inner_val new_inner;;
               new <~ place_new;;
               both <~ binop fuel Or new_inner new;;
               combine_old_and_new_mask fuel old_inner both (Z.lor mask_inner mask))
      else no_match
  | _ => no_match
  end.

Definition comb_load : arm :=
  match no with
  | NLoadPtr _ _ ds | NLoadPtrImm _ _ ds =>
      if ds_num_bits ds <=? trailing_ones mask then found place_new else no_match
  | _ => no_match
  end.

(** The operand next to a constant that keeps all the bits of the part. *)
Definition masked_operand (x y : ValId) (nx ny : ValNode) : option ValId :=
  let covers n := match n with NConst c => bits <=? trailing_ones c | _ => false end in
  if covers nx then Some y else if covers ny then Some x else None.

Definition comb_and : arm :=
  match nn with
  | NBinOp And x y =>
      nx <~ node x;;
      ny <~ node y;;
      match masked_operand x y nx ny with
      | Some other => found (again old other)
      | None => no_match
      end
  | _ => no_match
  end.

(** The value below an extraction of the low bits. *)
Definition low_operand (n : ValNode) : option ValId :=
  match n with
  | NExtract val skip take => if (skip =? 0) && (bits <=? take) then Some val else None
  | _ => None
  end.

(** A new value with the same bits in the part. *)
Definition comb_new : bm ValId :=
  match nn with
  | NBinOp ((Add | Or | Xor) as op) x y =>
      nx <~ node x;;
      ny <~ node y;;
      match low_operand nx, low_operand ny with
      | Some val, _ => binop fuel op val y
      | None, Some val => binop fuel op val x
      | None, None =>
          match nx with
          | NBinOp And i0 i1 =>
              m0 <~ node i0;;
              m1 <~ node i1;;
              match masked_operand i0 i1 m0 m1 with
              | Some lhs => binop fuel op lhs y
              | None => bret new
              end
          | _ => bret new
          end
      end
  | _ => bret new
  end.

Definition comb_blend : bm ValId :=
  new <~ comb_new;;
  shift <~ imm shift_bits;;
  new <~ binop fuel Shl new shift;;
  combine_old_and_new_mask fuel old new mask.

Definition comb_arms : list arm :=
  [comb_extract; comb_zero; comb_const; comb_inner; comb_distinct; comb_load; comb_and].
End combine.

(** [blend[mask_from_size(size)](old, new << size.start_byte())] *)
Fixpoint combine_old_and_new (fuel : nat) (old new : ValId) (size : Size) : bm ValId :=
  match fuel with
  | O => bpanic
  | S fuel =>
      n <~ blift (num_bytes size);;
      unshifted_mask <~ blift (bitmask_u128 (n * 8));;
      let shift_bits := start_byte size * 8 in
      _ <~ blift (assert (shift_bits <? 128));;
      let mask := wrap 128 (Z.shiftl unshifted_mask shift_bits) in
      no <~ node old;;
      nn <~ node new;;
      run_arms
        (comb_arms fuel (fun old new => combine_old_and_new fuel old new size) old new no nn
           (n * 8) shift_bits unshifted_mask mask)
        (comb_blend fuel old new nn (n * 8) shift_bits mask)
  end.

(** ** The values of blends *)

Lemma blend_testbit x y m i :
  Z.testbit (blend_value x y m) i = if Z.testbit m i then Z.testbit y i else Z.testbit x i.
Proof.
  unfold blend_value. rewrite Z.lor_spec, Z.ldiff_spec, Z.land_spec.
  by destruct (Z.testbit x i), (Z.testbit y i), (Z.testbit m i).
Qed.

Lemma land_zero_bit m n i : Z.land m n = 0 -> Z.testbit m i && Z.testbit n i = false.
Proof. intros H. by rewrite <- Z.land_spec, H, Z.bits_0. Qed.
Lemma land_sub_bit m n i : Z.land m n = n -> Z.testbit m i && Z.testbit n i = Z.testbit n i.
Proof. intros H. by rewrite <- Z.land_spec, H. Qed.

Ltac blend_bits i :=
  apply Z.bits_inj'; intros i ?Hi; rewrite ?blend_testbit, ?Z.lor_spec, ?Z.land_spec, ?blend_testbit.

Lemma blend_inner l r m x mask :
  Z.land mask m = m -> blend_value (blend_value l r m) x mask = blend_value l x mask.
Proof.
  intros H. blend_bits i. pose proof (land_sub_bit mask m i H).
  by destruct (Z.testbit mask i), (Z.testbit m i).
Qed.

(** Two updates of distinct parts at once; [x'] is [x] in the outer mask. *)
Lemma blend_distinct l r m x x' mask :
  Z.land mask m = 0 -> Z.land x mask = x' ->
  blend_value l (Z.lor (Z.land m r) x') (Z.lor m mask) = blend_value (blend_value l r m) x mask.
Proof.
  intros H <-. blend_bits i. pose proof (land_zero_bit mask m i H).
  by destruct (Z.testbit mask i), (Z.testbit m i), (Z.testbit r i), (Z.testbit x i).
Qed.

Lemma blend_const vo v mask :
  inw 128 vo -> Z.lor (Z.land vo (unot 128 mask)) (Z.land v mask) = blend_value vo v mask.
Proof.
  intros Ho. blend_bits i. rewrite testbit_unot by lia. rewrite (proj2 (Z.leb_le 0 i)) by lia. simpl.
  destruct (Z.ltb_spec i 128).
  - by destruct (Z.testbit vo i), (Z.testbit v i), (Z.testbit mask i).
  - rewrite (testbit_above 128 vo i Ho) by lia. by destruct (Z.testbit v i), (Z.testbit mask i).
Qed.

(** The part of [bits] bits from bit [sh]. *)
Section part.
Context (bits sh : Z) (Hbits : 1 <= bits) (Hsh : 0 <= sh) (Hpart : sh + bits <= 128).

Definition part_mask : Z := wrap 128 (Z.shiftl (Z.ones bits) sh).
Definition combined_value (vo vn : Z) : Z := blend_value vo (wrap 128 (Z.shiftl vn sh)) part_mask.

Lemma part_mask_bit i : 0 <= i -> Z.testbit part_mask i = (sh <=? i) && (i <? sh + bits).
Proof.
  intros Hi. unfold part_mask. autorewrite with zbits. split_compares; bits_finish.
Qed.

Lemma part_mask_inw : inw 128 part_mask.
Proof. by apply wrap_inw. Qed.

(** The new part in place. *)
Lemma placed_part vn :
  Z.land (wrap 128 (Z.shiftl vn sh)) part_mask = wrap 128 (Z.shiftl (Z.land vn (Z.ones bits)) sh).
Proof. unfold part_mask. bitblast. Qed.

Lemma placed_combined vo vn :
  (forall i, 0 <= i -> Z.testbit vo i = true -> Z.testbit part_mask i = true) ->
  wrap 128 (Z.shiftl (Z.land vn (Z.ones bits)) sh) = combined_value vo vn.
Proof.
  intros H. rewrite <- placed_part. unfold combined_value. blend_bits i. specialize (H i Hi).
  destruct (Z.testbit part_mask i), (Z.testbit vo i); rewrite ?andb_true_r, ?andb_false_r; try done.
  by discriminate H.
Qed.

(** Only the low bits of the new value count. *)
Lemma combined_low vo vn vn' :
  extract_value vn 0 bits = extract_value vn' 0 bits -> combined_value vo vn = combined_value vo vn'.
Proof.
  intros H. unfold combined_value, blend_value. f_equal. rewrite !placed_part. do 2 f_equal.
  unfold extract_value in H. by rewrite !Z.shiftr_0_r in H.
Qed.

End part.

(** ** Correctness

    The bounds on the fuel and on the weight depend on the weights of the old
    and the new value and on the number of the old one. *)

Lemma blend_den E b i l r m :
  wf b -> value_tree b !! i = Some (NBlend l r m) ->
  den E b i = blend_value (den E b l) (den E b r) m /\ wt b i = wt b l + wt b r + 1
  /\ (l < i)%nat /\ valid b l /\ valid b r /\ 1 <= wt b l /\ 1 <= wt b r /\ inw 128 m.
Proof.
  intros Hb Hi. rewrite (den_node E b i _ Hb Hi), (wt_node b i _ Hb Hi).
  pose proof (wf_ordered b Hb i _ Hi) as Ho. pose proof (node_args b i _ Hb Hi) as Ha. simpl in Ho, Ha.
  decompose_Forall_hyps. repeat (split; [done|]). split; [by apply wt_pos|]. split; [by apply wt_pos|].
  exact (wf_nodes b Hb i _ Hi).
Qed.

Lemma shl_val E (HE : env_ok E) fuel b x s vx wx c :
  wf b -> val_is E b x vx wx -> val_is E b s c 1 -> 0 <= c < 128 -> 2 * (wx + 2) < Z.of_nat fuel ->
  builds E (binop fuel Shl x s) b (wrap 128 (Z.shiftl vx c)) (wx + 2).
Proof.
  intros Hb (Hx & <- & Hwx) (Hs & <- & Hws) Hc Hf. rewrite <- shl_value by done.
  eapply builds_weaken; [apply (proj1 (fuel_ok E HE fuel)); [done| |weigh]|weigh].
  split; [done|]. split; [done|]. split; [by eexists|]. intros _ d Hd.
  destruct (const_den E b s d Hb Hd) as (Ed & _). lia.
Qed.

Lemma blend_both_val E (HE : env_ok E) fuel b m ri r vr wr vn wn mask :
  wf b -> val_is E b ri vr wr -> val_is E b r vn wn -> inw 128 m -> inw 128 mask ->
  2 * (2 * wr + 2 * wn + 7) < Z.of_nat fuel -> 1 <= wr -> 1 <= wn ->
  builds E (blend_both fuel m ri r mask) b (Z.lor (Z.land m vr) (Z.land vn mask)) (2 * wr + 2 * wn + 7).
Proof.
  intros Hb Hri Hr Hm Hmask Hf Hwr Hwn. unfold blend_both.
  eapply builds_bind; [by apply (builds_imm E b m Hb)|]. intros k1 b1 X1 Hb1 V1. eapply builds_bind.
  { apply (binop_val E HE fuel b1 And k1 ri m 1 vr wr); [by left|done|done|by apply (extends_val E b)|weigh]. }
  intros a b2 X2 Hb2 Va. eapply builds_bind; [by apply (builds_imm E b2 mask Hb2)|].
  intros k2 b3 X3 Hb3 V2. pose proof (extends_trans _ _ _ X1 (extends_trans _ _ _ X2 X3)) as X13.
  eapply builds_bind.
  { apply (binop_val E HE fuel b3 And r k2 vn wn mask 1); [by left|done|by apply (extends_val E b)|done|weigh]. }
  intros c b4 X4 Hb4 Vc. eapply builds_weaken; [eapply builds_eq;
    [apply (binop_val E HE fuel b4 Or a c _ _ _ _ ltac:(right; by left) Hb4
              (extends_val E b2 b4 a _ _ (extends_trans _ _ _ X3 X4) Va) Vc)|]|]; [weigh|done|weigh].
Qed.

(** Enough fuel for old values of a number at most [k] with these weights. *)
Lemma combine_mask_builds k WA WB :
  exists F W, forall fuel, (F <= fuel)%nat -> forall E, env_ok E -> forall b old new vo vn mask,
  wf b -> (old <= k)%nat -> val_is E b old vo WA -> val_is E b new vn WB -> inw 128 mask ->
  builds E (combine_old_and_new_mask fuel old new mask) b (blend_value vo vn mask) W.
Proof.
  revert WA WB. induction k as [k IH] using lt_wf_ind. intros WA WB.
  assert (exists F W, forall fuel, (F <= fuel)%nat -> forall E, env_ok E -> forall WB', WB' = WB \/ WB' = 2 * WA + 2 * WB + 7 ->
    forall b old new vo vn mask, wf b -> (old < k)%nat -> val_is E b old vo WA -> val_is E b new vn WB' -> inw 128 mask ->
    builds E (combine_old_and_new_mask fuel old new mask) b (blend_value vo vn mask) W) as (F & W & HF).
  { destruct (Nat.eq_dec k 0%nat) as [->|Hk].
    { exists 0%nat, 0. intros. lia. }
    destruct (IH (Nat.pred k) ltac:(lia) WA WB) as (F1 & W1 & H1).
    destruct (IH (Nat.pred k) ltac:(lia) WA (2 * WA + 2 * WB + 7)) as (F2 & W2 & H2).
    exists (F1 + F2)%nat, (Z.max W1 W2). intros fuel Hf E HE WB' HWB b old new vo vn mask Hb Hold Ho Hn Hm.
    destruct HWB as [->| ->].
    - apply (builds_weaken E _ b _ W1); [apply H1; try done; lia|lia].
    - apply (builds_weaken E _ b _ W2); [apply H2; try done; lia|lia]. }
  exists (S (F + Z.to_nat (2 * (2 * WA + 2 * WB + 7)) + 1))%nat, (Z.max W (WA + WB + 1)).
  intros fuel Hf E HE b old new vo vn mask Hb Hold Ho Hn Hmask. destruct fuel as [|fuel]; [lia|].
  cbn [combine_old_and_new_mask].
  pose proof Ho as (Hvo & Do & Wo). pose proof Hn as (Hvn & Dn & Wn).
  pose proof (wt_pos b old Hb Hvo). pose proof (wt_pos b new Hb Hvn).
  destruct (valid_node b old Hvo) as [no Hno], (valid_node b new Hvn) as [nn Hnn].
  apply (builds_node E old no), (builds_node E new nn); [done..|].
  assert (builds E (get_or_insert (NBlend old new mask)) b (blend_value vo vn mask) (Z.max W (WA + WB + 1))) as Hplain.
  { eapply builds_weaken; [eapply builds_eq; [apply (builds_insert E b (NBlend old new mask))|]|];
      [done|by repeat constructor|done|simpl; by rewrite Do, Dn|simpl; lia]. }
  destruct no as [| | | | | |l r m| | | | | |]; try exact Hplain.
  destruct (blend_den E b old l r m Hb Hno) as (Db & Wb & Hlt & Hl & Hr & Hwl & Hwr & Hm). rewrite Do in Db.
  assert (val_is E b l (den E b l) WA) as Vl by (split; [done|]; split; [done|lia]).
  assert (val_is E b r (den E b r) WA) as Vr by (split; [done|]; split; [done|lia]).
  destruct (Z.eqb_spec (Z.land mask m) m) as [Hin|_].
  { eapply builds_weaken; [eapply builds_eq;
      [apply (HF fuel ltac:(lia) E HE WB ltac:(by left) b l new _ _ mask Hb ltac:(lia) Vl Hn Hmask)|]|lia].
    rewrite Db. symmetry. by apply blend_inner. }
  destruct (Z.eqb_spec (Z.land mask m) 0) as [Hdis|_]; [|exact Hplain].
  eapply builds_bind; [apply (blend_both_val E HE fuel b m r new _ WA vn WB mask Hb Vr Hn); done || lia|].
  intros both b1 X1 Hb1 Vb.
  eapply builds_weaken; [eapply builds_eq; [apply (HF fuel ltac:(lia) E HE (2 * WA + 2 * WB + 7) ltac:(by right)
    b1 l both _ _ (Z.lor m mask) Hb1 ltac:(lia) (extends_val E b b1 l _ _ X1 Vl) Vb)|]|lia].
  - by apply inw_lor.
  - rewrite Db. by apply blend_distinct.
Qed.

Section combine_ok.
Context (E : Env) (HE : env_ok E) (fuel : nat) (again : ValId -> ValId -> bm ValId).
Context (b : ValBuilder) (old new : ValId) (no nn : ValNode) (vo vn WA WB : Z).
Context (bits sh : Z) (Hbits : 1 <= bits) (Hsh : 0 <= sh) (Hpart : sh + bits <= 128) (W : Z).
Context (Hb : wf b) (Ho : val_is E b old vo WA) (Hn : val_is E b new vn WB).
Context (Hno : value_tree b !! old = Some no) (Hnn : value_tree b !! new = Some nn).

Abbreviation mask := (part_mask bits sh).
Abbreviation R := (combined_value bits sh vo vn).
Abbreviation WC := (2 * WA + 2 * WB + 9).

Context (Hagain : forall old' new' vo' vn', (old' + new' < old + new)%nat ->
  val_is E b old' vo' WA -> val_is E b new' vn' WB ->
  builds E (again old' new') b (combined_value bits sh vo' vn') W).
Context (Hmask : forall b' old' new' vo' vn' m, wf b' -> (old' <= old)%nat ->
  val_is E b' old' vo' WA -> val_is E b' new' vn' WC -> inw 128 m ->
  builds E (combine_old_and_new_mask fuel old' new' m) b' (blend_value vo' vn' m) W).
Context (HW : WC <= W) (Hfuel : 2 * WC < Z.of_nat fuel).

Lemma weights_pos : 1 <= WA /\ 1 <= WB.
Proof.
  destruct Ho as (Hvo & _ & Wo), Hn as (Hvn & _ & Wn).
  pose proof (wt_pos b old Hb Hvo). pose proof (wt_pos b new Hb Hvn). lia.
Qed.
Lemma old_val : den E b old = vo.
Proof. apply Ho. Qed.
Lemma new_val : den E b new = vn.
Proof. apply Hn. Qed.
Lemma weights : wt b old <= WA /\ wt b new <= WB.
Proof. destruct Ho as (_ & _ & ?), Hn as (_ & _ & ?). done. Qed.

Lemma builds_imm_val b' c k : wf b' -> inw 128 c ->
  (forall id b2, extends b' b2 -> wf b2 -> val_is E b2 id c 1 -> builds E (k id) b2 R W) ->
  builds E (id <~ imm c;; k id) b' R W.
Proof. intros Hb' Hc Hk. eapply builds_bind; [by apply builds_imm|exact Hk]. Qed.

(** The new part in place, from a later graph too. *)
Lemma place_new_val b' : wf b' -> extends b b' ->
  builds E (place_new fuel new sh (Z.ones bits)) b' (wrap 128 (Z.shiftl (Z.land vn (Z.ones bits)) sh)) (2 * WB + 5).
Proof.
  intros Hb' Hx. pose proof weights_pos. unfold place_new.
  eapply builds_bind; [apply (builds_imm E b' sh Hb'), small_inw; lia|]. intros k1 b1 X1 Hb1 V1.
  eapply builds_bind; [apply (builds_imm E b1 (Z.ones bits) Hb1)|].
  { apply inw_ones. lia. }
  intros k2 b2 X2 Hb2 V2. pose proof (extends_trans _ _ _ Hx (extends_trans _ _ _ X1 X2)) as X.
  eapply builds_bind.
  { apply (binop_val E HE fuel b2 And new k2 vn WB (Z.ones bits) 1); [by left|done|by apply (extends_val E b)|done|weigh]. }
  intros r b3 X3 Hb3 Vr. eapply builds_weaken; [apply (shl_val E HE fuel b3 r k1 _ _ sh Hb3 Vr)|weigh].
  - apply (extends_val E b1 b3 k1 _ _ (extends_trans _ _ _ X2 X3) V1).
  - lia.
  - weigh.
Qed.

Lemma builds_placed :
  (forall i, 0 <= i -> Z.testbit vo i = true -> Z.testbit mask i = true) ->
  builds E (place_new fuel new sh (Z.ones bits)) b R W.
Proof.
  intros Hcov. pose proof weights_pos. eapply builds_weaken; [eapply builds_eq;
    [apply (place_new_val b Hb (extends_refl b))|by apply placed_combined]|lia].
Qed.

Ltac comb_start :=
  pose proof weights_pos as WP; pose proof weights as WW; pose proof builds_placed as Bplaced;
  pose proof old_val as Dold; pose proof new_val as Dnew; pose proof (den_node E b old no Hb Hno) as Dno;
  pose proof (wf_nodes b Hb old no Hno) as Ok; rewrite Dold in Dno.

Lemma comb_extract_ok : tries E (comb_extract fuel new no sh (Z.ones bits) mask) b R W.
Proof.
  comb_start. unfold comb_extract. destruct no as [| | | | | | |v skip take| | | | |]; try apply tries_no_match.
  destruct Ok as (Hs & Ht & Hst & _).
  apply (tries_lift E _ (Z.ones take)).
  { unfold bitmask_u128. by zbool. }
  destruct (Z.eqb_spec (Z.land (unot 128 mask) (Z.ones take)) 0) as [Hz|]; [|apply tries_no_match].
  apply tries_found, Bplaced. intros i Hi Hbit. pose proof (land_zero_bit _ _ i Hz) as Hz'.
  simpl in Dno. rewrite testbit_unot, testbit_ones in Hz' by lia.
  rewrite (proj2 (Z.leb_le 0 i)) in Hz' by lia. simpl in Hz'.
  pose proof (extract_value_range (den E b v) skip take ltac:(lia)) as Hr. rewrite <- Dno in Hr.
  destruct (Z.ltb_spec i take); [|by rewrite (testbit_above take vo i Hr) in Hbit by lia].
  rewrite (proj2 (Z.ltb_lt i 128)) in Hz' by lia. by destruct (Z.testbit mask i).
Qed.

Lemma comb_zero_ok : tries E (comb_zero fuel new no sh (Z.ones bits)) b R W.
Proof.
  comb_start. unfold comb_zero. destruct no as [[]| | | | | | | | | | | |]; try apply tries_no_match.
  apply tries_found, Bplaced. intros i _. simpl in Dno. by rewrite Dno, Z.bits_0.
Qed.

Lemma comb_const_ok : tries E (comb_const fuel old nn sh mask) b R W.
Proof.
  comb_start. pose proof Ho as Vo. unfold comb_const.
  destruct nn as [c| | | | | | | | | | | |]; try apply tries_no_match.
  destruct (const_den E b new c Hb Hnn) as (Dc & _ & Hc). rewrite Dnew in Dc. subst c.
  assert (inw 128 vo) as Hvo by (rewrite <- Dold; apply den_inw; [done|done|apply Vo]).
  pose proof (part_mask_inw bits sh) as Hm. apply tries_found.
  eapply builds_bind; [apply (builds_imm E b (unot 128 mask) Hb); by apply unot_inw; [lia|]|].
  intros k1 b1 X1 Hb1 V1. eapply builds_bind.
  { apply (binop_val E HE fuel b1 And old k1 vo WA (unot 128 mask) 1); [by left|done|by apply (extends_val E b)|done|weigh]. }
  intros a b2 X2 Hb2 Va. eapply builds_bind.
  { apply (builds_imm E b2 (Z.land (wrap 128 (Z.shiftl vn sh)) mask) Hb2).
    apply inw_land; [lia|by apply wrap_inw|apply Hm]. }
  intros k2 b3 X3 Hb3 V2. eapply builds_weaken; [eapply builds_eq;
    [apply (binop_val E HE fuel b3 Or a k2 _ _ _ 1 ltac:(right; by left) Hb3 (extends_val E b2 b3 a _ _ X3 Va) V2)|]|].
  - weigh.
  - unfold combined_value. by apply blend_const.
  - weigh.
Qed.

Lemma comb_inner_ok : tries E (comb_inner again new no mask) b R W.
Proof.
  comb_start. pose proof Hagain as IH. pose proof Hn as Vn. unfold comb_inner.
  destruct no as [| | | | | |l r m| | | | | |]; try apply tries_no_match.
  destruct (Z.eqb_spec (Z.land mask m) m) as [Hin|]; [|apply tries_no_match].
  destruct (blend_den E b old l r m Hb Hno) as (Db & Wb & Hlt & Hl & Hr & Hwl & Hwr & Hm).
  apply tries_found. eapply builds_eq; [apply (IH l new (den E b l) vn)|].
  - lia.
  - split; [done|]. split; [done|lia].
  - done.
  - rewrite <- Dold, Db. unfold combined_value. symmetry. by apply blend_inner.
Qed.

Lemma comb_distinct_ok : tries E (comb_distinct fuel new no sh (Z.ones bits) mask) b R W.
Proof.
  comb_start. pose proof place_new_val as Place. pose proof Hmask as IH. unfold comb_distinct.
  destruct no as [| | | | | |l r m| | | | | |]; try apply tries_no_match.
  destruct (Z.eqb_spec (Z.land mask m) 0) as [Hdis|]; [|apply tries_no_match].
  destruct (blend_den E b old l r m Hb Hno) as (Db & Wb & Hlt & Hl & Hr & Hwl & Hwr & Hm).
  assert (val_is E b l (den E b l) WA) as Vl by (split; [done|]; split; [done|lia]).
  assert (val_is E b r (den E b r) WA) as Vr by (split; [done|]; split; [done|lia]).
  apply tries_found. eapply builds_bind; [by apply (builds_imm E b m Hb)|]. intros k1 b1 X1 Hb1 V1.
  eapply builds_bind.
  { apply (binop_val E HE fuel b1 And k1 r m 1 (den E b r) WA); [by left|done|done|by apply (extends_val E b)|weigh]. }
  intros a b2 X2 Hb2 Va. pose proof (extends_trans _ _ _ X1 X2) as X.
  eapply builds_bind; [by apply (Place b2 Hb2)|]. intros p b3 X3 Hb3 Vp. eapply builds_bind.
  { apply (binop_val E HE fuel b3 Or a p _ _ _ _ ltac:(right; by left) Hb3 (extends_val E b2 b3 a _ _ X3 Va) Vp). weigh. }
  intros both b4 X4 Hb4 (Vb & Dboth & Wboth). pose proof (extends_trans _ _ _ X (extends_trans _ _ _ X3 X4)) as X14.
  eapply builds_eq; [apply (IH b4 l both (den E b l) (Z.lor (Z.land m (den E b r))
    (wrap 128 (Z.shiftl (Z.land vn (Z.ones bits)) sh))))|].
  - done.
  - lia.
  - by apply (extends_val E b).
  - split; [done|]. split; [exact Dboth|weigh].
  - apply inw_lor; [lia|done|apply part_mask_inw].
  - rewrite <- Dold, Db. unfold combined_value. apply blend_distinct; [done|]. by apply placed_part.
Qed.

Lemma comb_load_ok : tries E (comb_load fuel new no sh (Z.ones bits) mask) b R W.
Proof.
  comb_start. unfold comb_load.
  assert (forall ds p off, vo = load_value E p off ds ->
    tries E (if ds_num_bits ds <=? trailing_ones mask then found (place_new fuel new sh (Z.ones bits)) else no_match) b R W) as Hl.
  { intros ds p off Hload. destruct (Z.leb_spec (ds_num_bits ds) (trailing_ones mask)); [|apply tries_no_match].
    apply tries_found, Bplaced. intros i Hi Hbit. pose proof (load_value_range E p off ds HE) as Hr.
    rewrite <- Hload in Hr. destruct (trailing_ones_spec mask) as [_ Hones].
    destruct (Z.lt_ge_cases i (ds_num_bits ds)); [apply Hones; lia|].
    pose proof (load_bits ds). by rewrite (testbit_above _ vo i Hr) in Hbit by lia. }
  destruct no; try apply tries_no_match; by eapply Hl.
Qed.

(** The operand next to a mask that keeps the part. *)
Lemma masked_operand_val i x y nx ny o :
  value_tree b !! i = Some (NBinOp And x y) -> value_tree b !! x = Some nx -> value_tree b !! y = Some ny ->
  masked_operand bits x y nx ny = Some o ->
  (o < i)%nat /\ valid b o /\ wt b o < wt b i
  /\ extract_value (den E b o) 0 bits = extract_value (den E b i) 0 bits.
Proof.
  intros Hi Hx Hy Hm. destruct (binop_den E b i And x y Hb Hi) as (Di & Wi & Vx & Vy & Wx & Wy).
  pose proof (wf_ordered b Hb i _ Hi) as Hord. simpl in Hord. decompose_Forall_hyps.
  assert (forall c k ic, (match k with NConst c => bits <=? trailing_ones c | _ => false end) = true ->
    value_tree b !! ic = Some k -> extract_value (Z.land (den E b ic) c) 0 bits = extract_value c 0 bits) as Hcov.
  { intros c k ic Hk Hic. destruct k as [d| | | | | | | | | | | |]; try done.
    destruct (const_den E b ic d Hb Hic) as (-> & _). apply extract_low_masked. lia. }
  unfold masked_operand in Hm. unfold binop_value in Di. simpl in Di. rewrite Di.
  destruct (match nx with NConst c => _ | _ => _ end) eqn:Ex.
  { injection Hm as <-. split; [done|]. split; [done|]. split; [weigh|]. symmetry. by apply (Hcov _ nx). }
  destruct (match ny with NConst c => _ | _ => _ end) eqn:Ey; [|done]. injection Hm as <-.
  split; [done|]. split; [done|]. split; [weigh|]. rewrite Z.land_comm. symmetry. by apply (Hcov _ ny).
Qed.

Lemma comb_and_ok : tries E (comb_and again old nn bits) b R W.
Proof.
  comb_start. pose proof Hagain as IH. pose proof Ho as Vo. pose proof masked_operand_val as Hop. unfold comb_and.
  destruct nn as [| |[] x y| | | | | | | | | |]; try apply tries_no_match.
  destruct (binop_den E b new And x y Hb Hnn) as (_ & _ & Hx & Hy & _).
  destruct (valid_node b x Hx) as [nx Hnx], (valid_node b y Hy) as [ny Hny].
  apply (tries_node E _ _ _ _ _ _ Hnx), (tries_node E _ _ _ _ _ _ Hny).
  destruct (masked_operand bits x y nx ny) as [o|] eqn:Em; [|apply tries_no_match].
  destruct (Hop new x y nx ny o Hnn Hnx Hny Em) as (Hlt & Hv & Hw & Hlow).
  apply tries_found. eapply builds_eq; [apply (IH old o vo (den E b o))|].
  - lia.
  - done.
  - split; [done|]. split; [done|lia].
  - apply combined_low; [done|done|]. by rewrite Hlow, Dnew.
Qed.

(** A new value with the same low bits. *)
Definition same_low (m : bm ValId) : Prop :=
  exists v, extract_value v 0 bits = extract_value vn 0 bits /\ builds E m b v WB.

Lemma new_same_low : same_low (bret new).
Proof. exists vn. split; [done|]. by apply builds_ret. Qed.

Lemma op_same_low o x y i j k :
  low_op o -> nn = NBinOp o x y -> (j = x /\ k = y \/ j = y /\ k = x) -> valid b i -> wt b i < wt b j ->
  extract_value (den E b i) 0 bits = extract_value (den E b j) 0 bits -> same_low (binop fuel o i k).
Proof.
  intros Hop -> Hjk Hi Hw Hlow. pose proof weights as [_ WN]. pose proof weights_pos.
  destruct (binop_den E b new o x y Hb Hnn) as (Dv & Wv & Hx & Hy & Hwx & Hwy). rewrite new_val in Dv.
  assert (valid b k /\ vn = binop_value o (den E b j) (den E b k)
    /\ wt b new = binop_weight o (wt b j) (wt b k)) as (Hk & Dv' & Wv').
  { destruct Hjk as [[-> ->]|[-> ->]]; [done|]. by rewrite (op_comm o Hop), (op_weight_comm o Hop). }
  pose proof (op_weight o Hop _ _ (wt b k) Hw) as Hlt.
  exists (binop_value o (den E b i) (den E b k)). split.
  - rewrite Dv'. apply extract_low; [by apply op_low|lia|done|done].
  - eapply builds_weaken; [apply (binop_val E HE fuel b o i k _ (wt b i) _ (wt b k))|lia];
      [by apply op_simple|done|by apply val_self|by apply val_self|lia].
Qed.

Lemma low_operand_val j m i :
  value_tree b !! j = Some m -> low_operand bits m = Some i ->
  valid b i /\ wt b i < wt b j /\ extract_value (den E b i) 0 bits = extract_value (den E b j) 0 bits.
Proof.
  intros Hj Hl. unfold low_operand in Hl. destruct m as [| | | | | | |w sk tk| | | | |]; try done.
  destruct (Z.eqb_spec sk 0) as [->|]; [|done]. destruct (Z.leb_spec bits tk); [|done]. injection Hl as ->.
  destruct (extract_den E b Hb j i 0 tk Hj) as (Dj & Wj & Hi & Hwi & _).
  split; [done|]. split; [lia|]. rewrite Dj. symmetry. apply extract_low_extract. lia.
Qed.

Lemma same_low_node i n k : value_tree b !! i = Some n -> same_low (k n) -> same_low (m <~ node i;; k m).
Proof. intros Hi (v & Hv & Hk). exists v. split; [done|]. by apply (builds_node E i n). Qed.

Lemma comb_new_val : same_low (comb_new fuel new nn bits).
Proof.
  pose proof new_same_low as Hsame. pose proof op_same_low as Hops. pose proof (node_args b new nn Hb Hnn) as Args.
  assert (forall o x y, nn = NBinOp o x y -> low_op o -> same_low (
    nx <~ node x;;
    ny <~ node y;;
    match low_operand bits nx, low_operand bits ny with
    | Some val, _ => binop fuel o val y
    | None, Some val => binop fuel o val x
    | None, None =>
        match nx with
        | NBinOp And i0 i1 =>
            m0 <~ node i0;;
            m1 <~ node i1;;
            match masked_operand bits i0 i1 m0 m1 with
            | Some lhs => binop fuel o lhs y
            | None => bret new
            end
        | _ => bret new
        end
    end)) as Hlow.
  { intros o x y -> Ho'. simpl in Args. decompose_Forall_hyps.
    destruct (valid_node b x) as [nx Hnx]; [done|]. destruct (valid_node b y) as [ny Hny]; [done|].
    apply (same_low_node x nx), (same_low_node y ny); [done..|].
    destruct (low_operand bits nx) as [i|] eqn:Elx.
    { destruct (low_operand_val x nx i Hnx Elx) as (Hi & Hw & Hl).
      by apply (Hops o x y i x y); [|done|left|..]. }
    destruct (low_operand bits ny) as [i|] eqn:Ely.
    { destruct (low_operand_val y ny i Hny Ely) as (Hi & Hw & Hl).
      by apply (Hops o x y i y x); [|done|right|..]. }
    destruct nx as [| |[] i0 i1| | | | | | | | | |]; try exact Hsame.
    destruct (binop_den E b x And i0 i1 Hb Hnx) as (_ & _ & Hi0 & Hi1 & _).
    destruct (valid_node b i0 Hi0) as [m0 Hm0], (valid_node b i1 Hi1) as [m1 Hm1].
    apply (same_low_node i0 m0), (same_low_node i1 m1); [done..|].
    destruct (masked_operand bits i0 i1 m0 m1) as [l|] eqn:Em; [|exact Hsame].
    destruct (masked_operand_val x i0 i1 m0 m1 l Hnx Hm0 Hm1 Em) as (_ & Hv & Hw & Hl).
    by apply (Hops o x y l x y); [|done|left|..]. }
  unfold comb_new. destruct nn as [| |[] x y| | | | | | | | | |]; try exact Hsame;
    apply Hlow; unfold low_op, bitwise; auto.
Qed.

Lemma comb_blend_ok : builds E (comb_blend fuel old new nn bits sh mask) b R W.
Proof.
  destruct comb_new_val as (v & Hlow & Hv). pose proof weights_pos. unfold comb_blend.
  rewrite <- (combined_low bits sh Hbits Hsh vo v vn Hlow).
  eapply builds_bind; [exact Hv|]. intros n1 b1 X1 Hb1 V1.
  eapply builds_bind; [apply (builds_imm E b1 sh Hb1), small_inw; lia|]. intros k b2 X2 Hb2 V2.
  eapply builds_bind.
  { apply (shl_val E HE fuel b2 n1 k v WB sh Hb2 (extends_val E b1 b2 n1 _ _ X2 V1) V2); lia. }
  intros n3 b3 X3 Hb3 (Vv & Dv & Wv). apply Hmask; [done|done| | |apply part_mask_inw].
  - by apply (extends_val E b b3 old _ _ (extends_trans _ _ _ X1 (extends_trans _ _ _ X2 X3))).
  - split; [done|]. split; [done|lia].
Qed.

Lemma comb_ok :
  builds E (run_arms (comb_arms fuel again old new no nn bits sh (Z.ones bits) mask)
              (comb_blend fuel old new nn bits sh mask)) b R W.
Proof.
  unfold comb_arms.
  apply builds_arm; [apply comb_extract_ok|intros _].
  apply builds_arm; [apply comb_zero_ok|intros _].
  apply builds_arm; [apply comb_const_ok|intros _].
  apply builds_arm; [apply comb_inner_ok|intros _].
  apply builds_arm; [apply comb_distinct_ok|intros _].
  apply builds_arm; [apply comb_load_ok|intros _].
  apply builds_arm; [apply comb_and_ok|intros _].
  apply builds_no_arm, comb_blend_ok.
Qed.

End combine_ok.

Definition size_bits (sz : Size) : Z := (end_byte sz - start_byte sz + 1) * 8.

(** Enough fuel for numbers of at most [k] and these weights. *)
Lemma combine_builds sz k WA WB :
  in_range 16 sz ->
  exists F W, forall fuel, (F <= fuel)%nat -> forall E, env_ok E -> forall b old new vo vn,
  wf b -> (old + new <= k)%nat -> val_is E b old vo WA -> val_is E b new vn WB ->
  builds E (combine_old_and_new fuel old new sz) b (combined_value (size_bits sz) (start_byte sz * 8) vo vn) W.
Proof.
  intros Hsz. assert (0 <= start_byte sz * 8 /\ 1 <= size_bits sz /\ start_byte sz * 8 + size_bits sz <= 128) as (Hsh & Hbits & Hpart).
  { destruct Hsz. unfold size_bits. lia. }
  destruct (combine_mask_builds k WA (2 * WA + 2 * WB + 9)) as (F1 & W1 & Hmask).
  set (W := Z.max W1 (2 * WA + 2 * WB + 9)). set (F := (F1 + Z.to_nat (2 * (2 * WA + 2 * WB + 9)) + 1)%nat).
  assert (forall j, (j <= k)%nat -> forall fuel, (F + S j <= fuel)%nat -> forall E, env_ok E -> forall b old new vo vn,
    wf b -> (old + new <= j)%nat -> val_is E b old vo WA -> val_is E b new vn WB ->
    builds E (combine_old_and_new fuel old new sz) b (combined_value (size_bits sz) (start_byte sz * 8) vo vn) W) as H.
  { intros j. induction j as [j IH] using lt_wf_ind. intros Hj fuel Hf E HE b old new vo vn Hb Hk Ho Hn.
    destruct fuel as [|fuel]; [lia|]. cbn [combine_old_and_new].
    apply (builds_lift E _ (end_byte sz - start_byte sz + 1)); [by apply (num_bytes_in_range 16)|].
    apply (builds_lift E _ (Z.ones (size_bits sz))).
    { unfold bitmask_u128, size_bits in *. by zbool. }
    apply (builds_lift E _ tt); [by zbool|].
    destruct (valid_node b old) as [no Hno]; [apply Ho|]. destruct (valid_node b new) as [nn Hnn]; [apply Hn|].
    apply (builds_node E old no), (builds_node E new nn); [done..|].
    apply (comb_ok E HE fuel _ b old new no nn vo vn WA WB (size_bits sz) (start_byte sz * 8) Hbits Hsh Hpart W
             Hb Ho Hn Hno Hnn); [| |lia|lia].
    - intros old' new' vo' vn' Hlt Ho' Hn'. apply (IH (old' + new')%nat); try done; lia.
    - intros b' old' new' vo' vn' m Hb' Hle Ho' Hn' Hm.
      apply (builds_weaken E _ b' _ W1); [apply Hmask; try done; lia|lia]. }
  exists (F + S k)%nat, W. intros fuel Hf. apply (H k); [done|done].
Qed.
