(* ===== verification/ValProps.v ===== *)
(** * The contract of the value builder

    What the code generator relies on when it builds values: every operation
    of the builder returns a node that denotes the value of the operation, in
    every environment, and keeps what the nodes that are there denote.  The
    tests of [sem86-core/src/codegen/mir/val.rs] are evaluated here too. *)
From S2P Require Import Prelude IlOps IlLoc ValTree ValBuild ValSpec ValMath ValEquality.
From S2P Require Import ValBinop ValExtract ValSound ValCombine.

#[local] Open Scope bm_scope.

(** ** Examples *)

Definition after {T} (m : bm T) : ValBuilder := match m builder_new with Some (_, b) => b | None => builder_new end.
Definition result_node (m : bm ValId) : option ValNode := '(i, b) ← m builder_new; value_tree b !! i.

(** The test [should_optimize_never_equal1]. *)
Definition never_equal1 : bm ValId :=
  val <~ load_ptr CpuState Dword;;
  one <~ imm 1;;
  sum <~ binop 64 Add val one;;
  mask <~ imm 7;;
  x <~ binop 64 And sum mask;;
  sum <~ binop 64 Add val one;;
  sum <~ binop 64 Add sum one;;
  y <~ binop 64 And sum mask;;
  binop 64 CmpEq x y.

Definition compare_offsets (c1 c2 : Z) : bm ValId :=
  val <~ load_ptr CpuState Dword;;
  one <~ imm c1;;
  sum <~ binop 64 Add val one;;
  mask <~ imm 7;;
  x <~ binop 64 And sum mask;;
  one <~ imm c2;;
  sum <~ binop 64 Add val one;;
  y <~ binop 64 And sum mask;;
  binop 64 CmpEq x y.

Example should_optimize_never_equal1 : result_node never_equal1 = Some (NConst 0).
Proof. vm_compute. reflexivity. Qed.
Example should_optimize_never_equal2 : result_node (compare_offsets 1 5) = Some (NConst 0).
Proof. vm_compute. reflexivity. Qed.
Example should_optimize_always_equal : result_node (compare_offsets 1 9) = Some (NConst 1).
Proof. vm_compute. reflexivity. Qed.

(** The test [should_optimize_blend_extract]: the second sum is built on the
    first, not on the blend between them. *)
Definition blend_extract : bm ValId :=
  let sz := {| start_byte := 0; end_byte := 3 |} in
  val <~ load_ptr CpuState Dword;;
  three <~ imm 3;;
  sum <~ binop 64 Mul val three;;
  combined <~ combine_old_and_new 128 val sum sz;;
  extracted <~ extract 64 combined 0 32;;
  sum2 <~ binop 64 Add extracted three;;
  combined <~ combine_old_and_new 128 val sum2 sz;;
  extract 64 combined 0 32.

Example should_optimize_blend_extract :
  exists m sum2 val three, result_node blend_extract = Some (NExtract sum2 0 32)
  /\ value_tree (after blend_extract) !! sum2 = Some (NBinOp Add m three)
  /\ value_tree (after blend_extract) !! m = Some (NBinOp Mul val three)
  /\ value_tree (after blend_extract) !! val = Some (NLoadPtrImm CpuState 0 Dword)
  /\ value_tree (after blend_extract) !! three = Some (NConst 3).
Proof. eexists _, _, _, _. vm_compute. repeat split; reflexivity. Qed.

(** The test [should_optimize_blend_and] asks for a blend with the mask
    [0xffff]; the builder never makes one here. *)
Definition blend_and : bm ValId :=
  let sz := {| start_byte := 0; end_byte := 3 |} in
  val <~ load_ptr CpuState Dword;;
  one <~ imm 1;;
  sum <~ binop 64 Add val one;;
  mask <~ imm 0xffffffff;;
  sum <~ binop 64 And sum mask;;
  blended <~ combine_old_and_new 128 val sum sz;;
  sum <~ binop 64 Add blended one;;
  mask <~ imm 0xffffffff;;
  sum <~ binop 64 And sum mask;;
  combine_old_and_new 128 blended sum sz.

Example blend_and_is_no_blend :
  exists sum val two, result_node blend_and = Some (NExtract sum 0 32)
  /\ value_tree (after blend_and) !! sum = Some (NBinOp Add val two)
  /\ value_tree (after blend_and) !! val = Some (NLoadPtrImm CpuState 0 Dword)
  /\ value_tree (after blend_and) !! two = Some (NConst 2).
Proof. eexists _, _, _. vm_compute. repeat split; reflexivity. Qed.

(** A shift by 128 or more: the builder takes the amount modulo 256 and the
    interpreter modulo 128.  A shift by 128 builds the value 0, which the
    interpreter does not compute, and one by 200 panics. *)
Definition shr_by (c : Z) : bm ValId :=
  val <~ load_ptr CpuState Dword;;
  amount <~ imm c;;
  binop 64 Shr val amount.

Lemma shr_by_128_diverges :
  result_node (shr_by 128) = Some (NConst 0) /\ binop_execute Shr 5 128 = Some 5
  /\ shr_by 200 builder_new = None /\ binop_execute Shr 5 200 = Some 0.
Proof. vm_compute. repeat split; reflexivity. Qed.

(** A graph to evaluate the contract on: [eax + 1], a mask, and a variable
    divided by a constant. *)
Definition example : ValBuilder :=
  after (val <~ load_ptr CpuState Dword;;
         one <~ imm 1;;
         sum <~ binop 64 Add val one;;
         mask <~ imm 7;;
         var <~ use_var 0;;
         zero <~ unop IsZero var;;
         cond <~ ite 64 zero val sum;;
         unop IsZero zero).

Lemma example_tree : value_tree example =
  [NLoadPtrImm CpuState 0 Dword; NConst 1; NBinOp Add 0 1; NConst 7; NVar 0; NUnOp IsZero 4;
   NIte 5 0 2; NUnOp IsZero 5].
Proof. vm_compute. reflexivity. Qed.

Lemma example_wf : wf example.
Proof.
  assert (forall i n, value_tree example !! i = Some n -> (i < 8)%nat) as Hlt.
  { intros i n Hi. apply lookup_lt_Some in Hi. by rewrite example_tree in Hi. }
  split.
  - intros i n Hi. pose proof (Hlt i n Hi). rewrite example_tree in Hi.
    do 8 (destruct i as [|i]; [injection Hi as <-; repeat constructor; lia|]). lia.
  - intros i n Hi. pose proof (Hlt i n Hi). rewrite example_tree in *.
    assert (node_ok (value_tree example) (NBinOp Add 0 1)) as Hsum.
    { rewrite example_tree. split; [discriminate|]. intros _ c Hc. injection Hc as <-. split; [done|].
      intros nx Hnx. injection Hnx as <-. by intros []. }
    rewrite example_tree in Hsum.
    do 8 (destruct i as [|i]; [injection Hi as <-; first [exact Hsum|exact I|by vm_compute|by split; vm_compute]|]). lia.
  - intros n i.
    assert (node_ids example = [(NUnOp IsZero 5, 7%nat); (NIte 5 0 2, 6%nat); (NUnOp IsZero 4, 5%nat);
      (NVar 0, 4%nat); (NConst 7, 3%nat); (NBinOp Add 0 1, 2%nat); (NConst 1, 1%nat);
      (NLoadPtrImm CpuState 0 Dword, 0%nat)]) as -> by (vm_compute; reflexivity).
    rewrite example_tree. cbn [find_node]. repeat (destruct (decide _) as [<-|]; [by intros [= <-]|]). done.
Qed.

Lemma example_valid i : (i < 8)%nat -> valid example i.
Proof. unfold valid. by rewrite example_tree. Qed.

(** ** The contract *)



(** [extract] ends without a panic and returns a node that denotes the
    bits [skip .. skip + take] of the value. *)
Theorem extract_correct fuel b v skip take :
  wf b -> valid b v -> 0 <= skip -> 1 <= take -> skip + take <= 128 ->
  4 * weight (value_tree b) v + 1 < Z.of_nat fuel ->
  returns (extract fuel v skip take) b (fun E => extract_value (den E b v) skip take).
Proof.
  intros Hb Hv Hs Ht Hst Hf. apply builds_returns. intros E HE. eexists.
  apply (rec_ext E (extract fuel) (Z.of_nat fuel)); try done. apply (fuel_ok E HE fuel).
Qed.

Lemma extract_correct_witness :
  returns (extract 50 6 8 8) example (fun E => extract_value (den E example 6) 8 8).
Proof.
  apply (extract_correct 50 example 6 8 8); [exact example_wf|apply example_valid; lia|lia|lia|lia|].
  vm_compute. reflexivity.
Defined.

(** C13: writing the part [size] of a location: [combine_old_and_new] ends
    without a panic and returns a node that denotes the old value with the
    part replaced by the low bits of the new value, whatever blends, masks
    and sums the two values are made of. *)
Theorem combine_correct b old new sz :
  wf b -> valid b old -> valid b new -> in_range 16 sz ->
  exists enough, forall fuel, (enough <= fuel)%nat ->
  returns (combine_old_and_new fuel old new sz) b
    (fun E => blend_value (den E b old) (wrap 128 (Z.shiftl (den E b new) (start_byte sz * 8)))
                (wrap 128 (Z.shiftl (Z.ones ((end_byte sz - start_byte sz + 1) * 8)) (start_byte sz * 8)))).
Proof.
  intros Hb Ho Hn Hsz.
  destruct (combine_builds sz (old + new) (weight (value_tree b) old) (weight (value_tree b) new) Hsz) as (F & W & H).
  exists F. intros fuel Hf. apply builds_returns. intros E HE. exists W.
  by apply (H fuel Hf E HE b old new _ _ Hb (le_n _)); apply val_self.
Qed.

Lemma combine_correct_witness :
  let sz := {| start_byte := 1; end_byte := 1 |} in
  in_range 16 sz /\
  exists enough, forall fuel, (enough <= fuel)%nat ->
  returns (combine_old_and_new fuel 0 2 sz) example
    (fun E => blend_value (den E example 0) (wrap 128 (Z.shiftl (den E example 2) 8))
                (wrap 128 (Z.shiftl (Z.ones 8) 8))).
Proof.
  assert (in_range 16 {| start_byte := 1; end_byte := 1 |}) as Hsz by (split; simpl; lia).
  split; [exact Hsz|].
  apply (combine_correct example 0 2 {| start_byte := 1; end_byte := 1 |});
    [exact example_wf|apply example_valid; lia|apply example_valid; lia|exact Hsz].
Defined.

(** C35: what [try_solve_equality] answers is right in every environment, and
    it ends without a panic on every well-formed graph. *)
Theorem try_solve_equality_correct b x y :
  wf b -> valid b x -> valid b y ->
  exists res, try_solve_equality (value_tree b) x y = Some res
  /\ forall E, env_ok E -> forall e, res = Some e -> e = (den E b x =? den E b y).
Proof.
  intros Hb Hx Hy. destruct (try_solve_equality_sound zero_env zero_env_ok b Hb x y Hx Hy) as (res & Hr & _).
  exists res. split; [done|]. intros E HE.
  destruct (try_solve_equality_sound E HE b Hb x y Hx Hy) as (res' & Hr' & He). rewrite Hr in Hr'.
  by injection Hr' as <-.
Qed.

Lemma try_solve_equality_correct_witness :
  try_solve_equality (value_tree example) 0 2 = Some (Some false) /\
  exists res, try_solve_equality (value_tree example) 0 2 = Some res
  /\ forall E, env_ok E -> forall e, res = Some e -> e = (den E example 0 =? den E example 2).
Proof.
  split; [vm_compute; reflexivity|].
  apply (try_solve_equality_correct example 0 2 example_wf); apply example_valid; lia.
Defined.

(** [ite] ends and returns a node that denotes the chosen branch, also
    when the branches are conditionals on the same condition. *)
Theorem ite_correct fuel b cond if_zero if_nonzero :
  wf b -> valid b cond -> valid b if_zero -> valid b if_nonzero -> (if_zero + if_nonzero < fuel)%nat ->
  returns (ite fuel cond if_zero if_nonzero) b
    (fun E => if den E b cond =? 0 then den E b if_zero else den E b if_nonzero).
Proof. intros. by apply ite_returns. Qed.

Lemma ite_correct_witness :
  returns (ite 8 5 6 1) example
    (fun E => if den E example 5 =? 0 then den E example 6 else den E example 1).
Proof. apply (ite_correct 8 example 5 6 1 example_wf); [apply example_valid; lia..|lia]. Defined.

(** the condition that [optimize_as_if_zero] returns is zero exactly when
    the given one is, or exactly when it is not, as the flag says. *)
Theorem optimize_as_if_zero_correct fuel b cond :
  wf b -> valid b cond -> (cond < fuel)%nat ->
  exists v flip, optimize_as_if_zero fuel (value_tree b) cond = Some (v, flip) /\ valid b v
  /\ forall E, (den E b cond =? 0) = xorb flip (den E b v =? 0).
Proof. apply optimize_as_if_zero_sound. Qed.

Lemma optimize_as_if_zero_correct_witness :
  optimize_as_if_zero 8 (value_tree example) 7 = Some (4%nat, false) /\
  exists v flip, optimize_as_if_zero 8 (value_tree example) 7 = Some (v, flip) /\ valid example v
  /\ forall E, (den E example 7 =? 0) = xorb flip (den E example v =? 0).
Proof.
  split; [vm_compute; reflexivity|].
  apply (optimize_as_if_zero_correct 8 example 7 example_wf); [apply example_valid; lia|lia].
Defined.
