(* ===== verification/ValMono.v ===== *)
(** * More fuel changes nothing

    Once an operation of the value builder returns, it returns the same with
    more fuel.  So an operation that returns is right, with whatever fuel it
    ran: [ValProps] gives the value it returns with enough fuel. *)
From S2P Require Import Prelude IlOps IlLoc ValTree ValBuild ValSpec ValMath ValEquality.
From S2P Require Import ValBinop ValExtract ValSound ValCombine.

#[local] Open Scope bm_scope.

Definition below {T} (m m' : bm T) : Prop := forall b r, m b = Some r -> m' b = Some r.

Lemma below_refl {T} (m : bm T) : below m m.
Proof. by intros b r. Qed.
Lemma below_trans {T} (m1 m2 m3 : bm T) : below m1 m2 -> below m2 m3 -> below m1 m3.
Proof. intros H1 H2 b r H. by apply H2, H1. Qed.
Lemma below_panic {T} (m : bm T) : below bpanic m.
Proof. by intros b r. Qed.

Lemma below_bind {T U} (m m' : bm T) (k k' : T -> bm U) :
  below m m' -> (forall x, below (k x) (k' x)) -> below (bbind m k) (bbind m' k').
Proof.
  intros Hm Hk b r. unfold bbind. destruct (m b) as [[x b1]|] eqn:E; [|done].
  rewrite (Hm b _ E). apply Hk.
Qed.

Lemma below_found m m' : below m m' -> below (found m) (found m').
Proof. intros H. apply below_bind; [done|]. intros. apply below_refl. Qed.

Lemma below_orelse a a' c c' : below a a' -> below c c' -> below (orelse a c) (orelse a' c').
Proof.
  intros Ha Hc b r. unfold orelse. destruct (a b) as [[[id|] b1]|] eqn:E; [| |done].
  - by rewrite (Ha b _ E).
  - rewrite (Ha b _ E). apply Hc.
Qed.

Lemma below_arms l l' o o' : Forall2 below l l' -> below o o' -> below (run_arms l o) (run_arms l' o').
Proof.
  intros Hl Ho. apply below_bind.
  - induction Hl; [apply below_refl|]. by apply below_orelse.
  - intros [id|]; [apply below_refl|done].
Qed.

(** Goes through a computation down to the calls. *)
Ltac below_step :=
  match goal with
  | |- below ?m ?m => apply below_refl
  | |- below (bbind _ _) (bbind _ _) => apply below_bind; [|intros ?]
  | |- below (found _) (found _) => apply below_found
  | |- below (orelse _ _) (orelse _ _) => apply below_orelse
  | |- below (match ?x with _ => _ end) (match ?x with _ => _ end) => destruct x
  | H : forall _, below _ _ |- _ => apply H
  | H : forall _ _, below _ _ |- _ => apply H
  | H : forall _ _ _, below _ _ |- _ => apply H
  end.
Ltac below_tac := repeat below_step.

Section steps.
Context (rb rb' : BinOp -> ValId -> ValId -> bm ValId) (re re' : ValId -> Z -> Z -> bm ValId).
Context (Hb : forall op x y, below (rb op x y) (rb' op x y)).
Context (He : forall v s k, below (re v s k) (re' v s k)).

Lemma below_binop_step op x y : below (binop_step rb re op x y) (binop_step rb' re' op x y).
Proof.
  unfold binop_step. apply below_bind; [apply below_refl|]. intros n0. apply below_bind; [apply below_refl|].
  intros n1. apply below_arms; [|apply below_refl]. unfold binop_arms.
  repeat apply Forall2_cons_2; [..|apply Forall2_nil_2]; try apply below_refl.
  - unfold arm_shr. below_tac.
  - unfold arm_and_mask. below_tac.
  - unfold arm_and_shl. below_tac.
  - unfold arm_add_add. below_tac.
  - unfold arm_add_sub. below_tac.
  - unfold arm_sub_sub. below_tac.
  - unfold arm_sub_add. below_tac.
  - unfold arm_and_or. below_tac.
  - unfold arm_and_extract. below_tac.
Qed.

Lemma below_extract_step v s k : below (extract_step rb re v s k) (extract_step rb' re' v s k).
Proof.
  unfold extract_step. apply below_bind; [apply below_refl|]. intros n.
  apply below_arms; [|apply below_refl]. unfold extract_arms.
  repeat apply Forall2_cons_2; [..|apply Forall2_nil_2]; try apply below_refl.
  - unfold ext_extract. below_tac.
  - unfold ext_load_crop. below_tac.
  - unfold ext_blend. below_tac.
  - unfold ext_bitwise, ext_and_operand, ext_masked. below_tac.
  - unfold ext_shl. below_tac.
  - unfold ext_ite. below_tac.
  - unfold ext_sub. below_tac.
Qed.
End steps.

Lemma fuel_step n :
  (forall op x y, below (binop n op x y) (binop (S n) op x y))
  /\ (forall v s k, below (extract n v s k) (extract (S n) v s k)).
Proof.
  induction n as [|n [IHb IHe]]; [by split; intros; apply below_panic|].
  split; intros; [by apply below_binop_step|by apply below_extract_step].
Qed.

Lemma binop_mono n m op x y : (n <= m)%nat -> below (binop n op x y) (binop m op x y).
Proof.
  induction 1; [apply below_refl|]. eapply below_trans; [done|]. apply fuel_step.
Qed.
Lemma extract_mono n m v s k : (n <= m)%nat -> below (extract n v s k) (extract m v s k).
Proof.
  induction 1; [apply below_refl|]. eapply below_trans; [done|]. apply fuel_step.
Qed.

Lemma ite_mono n m c z nz : (n <= m)%nat -> below (ite n c z nz) (ite m c z nz).
Proof.
  revert m z nz. induction n as [|n IH]; intros m z nz Hle; [apply below_panic|].
  destruct m as [|m]; [lia|]. pose proof (fun z nz => IH m z nz ltac:(lia)) as IHm. cbn [ite]. below_tac.
Qed.

Lemma mask_mono n m old new mask :
  (n <= m)%nat -> below (combine_old_and_new_mask n old new mask) (combine_old_and_new_mask m old new mask).
Proof.
  revert m old new mask. induction n as [|n IH]; intros m old new mask Hle; [apply below_panic|].
  destruct m as [|m]; [lia|]. pose proof (fun o w k => IH m o w k ltac:(lia)) as IHm.
  pose proof (fun op x y => binop_mono n m op x y ltac:(lia)) as Hbin.
  cbn [combine_old_and_new_mask]. unfold blend_both. below_tac.
Qed.

Lemma combine_mono n m old new sz :
  (n <= m)%nat -> below (combine_old_and_new n old new sz) (combine_old_and_new m old new sz).
Proof.
  revert m old new. induction n as [|n IH]; intros m old new Hle; [apply below_panic|].
  destruct m as [|m]; [lia|]. pose proof (fun o w => IH m o w ltac:(lia)) as IHm.
  pose proof (fun op x y => binop_mono n m op x y ltac:(lia)) as Hbin.
  pose proof (fun o w k => mask_mono n m o w k ltac:(lia)) as Hmask.
  cbn [combine_old_and_new]. cbv zeta. do 5 (apply below_bind; [apply below_refl|]; intros ?).
  apply below_arms.
  - unfold comb_arms. repeat apply Forall2_cons_2; [..|apply Forall2_nil_2]; try apply below_refl.
    + unfold comb_extract, place_new. below_tac.
    + unfold comb_zero, place_new. below_tac.
    + unfold comb_const. below_tac.
    + unfold comb_inner. below_tac.
    + unfold comb_distinct, place_new. below_tac.
    + unfold comb_load, place_new. below_tac.
    + unfold comb_and. below_tac.
  - unfold comb_blend, comb_new. below_tac.
Qed.

(** ** Whatever returns is right *)

(** If [m] returns, it extends the graph by a node with the value [v]. *)
Definition yields (m : bm ValId) (b : ValBuilder) (v : Env -> Z) : Prop :=
  forall id b', m b = Some (id, b') ->
  extends b b' /\ wf b' /\ valid b' id /\ forall E, env_ok E -> den E b' id = v E.

Lemma returns_yields m m' b v : below m m' -> returns m' b v -> yields m b v.
Proof.
  intros Hm (id & b' & E1 & H) id' b2 E2. apply Hm in E2. rewrite E1 in E2. by injection E2 as <- <-.
Qed.

Lemma yields_eq m b v v' : yields m b v -> (forall E, env_ok E -> v E = v' E) -> yields m b v'.
Proof.
  intros H He id b' E1. destruct (H id b' E1) as (Hx & Hw & Hv & Hd). repeat (split; [done|]).
  intros E HE. by rewrite Hd, He.
Qed.

Lemma insert_yields b n :
  wf b -> Forall (valid b) (referenced_nodes n) -> node_ok (value_tree b) n ->
  yields (get_or_insert n) b (fun E => eval_node E (denote E (value_tree b)) n).
Proof. intros. eapply returns_yields; [apply below_refl|]. by apply insert_returns. Qed.

Lemma imm_yields b c : wf b -> inw 128 c -> yields (imm c) b (fun _ => c).
Proof. intros Hb Hc. by apply (insert_yields b (NConst c)). Qed.

(** A shift by a constant is by less than the width. *)
Definition shift_ok (b : ValBuilder) (op : BinOp) (y : ValId) : Prop :=
  op = Shl \/ op = Shr -> forall d, value_tree b !! y = Some (NConst d) -> d < 128.

Lemma fold_const fuel op x y b r c d :
  binop fuel op x y b = Some r -> value_tree b !! x = Some (NConst c) ->
  value_tree b !! y = Some (NConst d) -> is_Some (binop_execute op c d).
Proof.
  intros H Hx Hy. destruct fuel as [|fuel]; [done|]. cbn [binop] in H. unfold binop_step, bbind at 1, node in H.
  rewrite Hx in H. cbn [mbind option_bind] in H. unfold bbind at 1, node in H. rewrite Hy in H.
  cbn [mbind option_bind] in H. unfold run_arms, bbind at 1 in H. cbn [binop_arms first_arm] in H.
  unfold orelse at 1, arm_const, found, bbind at 1 2, blift in H.
  destruct (binop_execute op c d); [by eexists|done].
Qed.

Lemma binop_yields fuel op x y b :
  wf b -> valid b x -> valid b y -> shift_ok b op y ->
  yields (binop fuel op x y) b (fun E => binop_value op (den E b x) (den E b y)).
Proof.
  intros Hb Hx Hy Hsh id b' E1.
  assert (op_pre b op x y) as Hpre.
  { split; [done|]. split; [done|]. split; [|done]. intros c d. by apply (fold_const fuel op x y b (id, b')). }
  set (big := Z.to_nat (2 * binop_weight op (wt b x) (wt b y) + 1)).
  refine (returns_yields _ (binop (fuel + big) op x y) b _ _ _ id b' E1); [apply binop_mono; lia|].
  apply builds_returns. intros E HE. eexists. apply (proj1 (fuel_ok E HE (fuel + big))); [done|done|]. lia.
Qed.

Lemma extract_yields fuel v skip take b :
  wf b -> valid b v -> 0 <= skip -> 1 <= take -> skip + take <= 128 ->
  yields (extract fuel v skip take) b (fun E => extract_value (den E b v) skip take).
Proof.
  intros Hb Hv Hs Ht Hst. set (big := Z.to_nat (4 * wt b v + 2)).
  apply (returns_yields _ (extract (fuel + big) v skip take)); [apply extract_mono; lia|].
  apply builds_returns. intros E HE. eexists.
  apply (rec_ext E (extract (fuel + big)) (Z.of_nat (fuel + big))); try done; [apply (fuel_ok E HE)|lia].
Qed.

Lemma ite_yields fuel c z nz b :
  wf b -> valid b c -> valid b z -> valid b nz ->
  yields (ite fuel c z nz) b (fun E => ite_value (den E b c) (den E b z) (den E b nz)).
Proof.
  intros. apply (returns_yields _ (ite (fuel + S (z + nz)) c z nz)); [apply ite_mono; lia|].
  apply ite_returns; done || lia.
Qed.

Lemma combine_yields fuel old new sz b :
  wf b -> valid b old -> valid b new -> in_range 16 sz ->
  yields (combine_old_and_new fuel old new sz) b
    (fun E => set_field (bit_off sz) (bit_len sz) (den E b new) (den E b old)).
Proof.
  intros Hb Ho Hn Hsz.
  destruct (combine_builds sz (old + new) (weight (value_tree b) old) (weight (value_tree b) new) Hsz) as (F & W & H).
  apply (returns_yields _ (combine_old_and_new (fuel + F) old new sz)); [apply combine_mono; lia|].
  apply builds_returns. intros E HE. exists W.
  eapply builds_eq.
  - exact (H (fuel + F)%nat ltac:(lia) E HE b old new _ _ Hb (le_n _) (val_self E b old Ho) (val_self E b new Hn)).
  - pose proof (den_inw E b old HE Hb Ho) as Hold. unfold combined_value. destruct Hsz as [Hs1 Hs2].
    unfold bit_off, bit_len, size_bits. rewrite (Z.mul_comm (start_byte sz) 8), (Z.mul_comm _ 8).
    set (len := 8 * (end_byte sz - start_byte sz + 1)). set (off := 8 * start_byte sz).
    assert (8 <= len /\ 0 <= off /\ off + len <= 128) as (Hl & Hoff & Hlen) by (unfold len, off; lia).
    apply Z.bits_inj'. intros i Hi. rewrite blend_testbit, part_mask_bit by lia. unfold set_field.
    autorewrite with zbits. destruct (Z.ltb_spec i 128).
    + split_compares; bits_finish.
    + rewrite (testbit_above 128 (den E b old) i) by (done || lia). split_compares; bits_finish.
Qed.

Lemma unop_yields op x b :
  wf b -> valid b x -> yields (unop op x) b (fun E => unop_value op (den E b x)).
Proof.
  intros Hb Hx id b' E1. refine (returns_yields _ _ b _ (below_refl _) (unop_returns op b x Hb Hx _) id b' E1).
  intros c Hc. unfold unop, bbind at 1, node in E1. rewrite Hc in E1. cbn [mbind option_bind] in E1.
  unfold bbind, blift in E1. destruct (unop_execute op c); [by eexists|done].
Qed.
