(* ===== verification/CpuBytes.v ===== *)
(** * The CPU state in memory

    Compiled code reads and writes the [State] of
    [sem86-core/src/arch/intel386.rs] through a pointer, at the offsets of
    [State::byte_offset_of].  Here a state is also a function from addresses to
    bytes; the positions of the fields are chosen by the Rust compiler and are
    the interface [Layout], whose laws say that fields do not overlap. *)
From S2P Require Import Prelude IlOps Arch ValTree.

(** ** Bytes in memory *)

Definition load (m : Z -> Z) (n a : Z) : Z := from_le_bytes ((fun i => m (a + i)) <$> seqZ 0 n).
Definition store (m : Z -> Z) (n a v : Z) : Z -> Z := fun x =>
  if (a <=? x) && (x <? a + n) then wrap 8 (Z.shiftr v (8 * (x - a))) else m x.

Definition bytes_ok (m : Z -> Z) : Prop := forall a, inw 8 (m a).

Lemma store_bytes_ok m n a v : bytes_ok m -> bytes_ok (store m n a v).
Proof. intros H x. unfold store. case_match; [by apply wrap_inw|done]. Qed.

Lemma load_succ m n a : 0 <= n -> load m (n + 1) a = Z.lor (load m n a) (Z.shiftl (m (a + n)) (8 * n)).
Proof.
  intros Hn. unfold load. rewrite seqZ_app, fmap_app, from_le_bytes_app by lia. rewrite length_fmap, length_seqZ.
  simpl. rewrite Z.shiftl_0_l, Z.lor_0_r. rewrite Z2Nat.id by done. do 3 f_equal.
Qed.

Lemma load_testbit m n a i :
  bytes_ok m -> 0 <= n -> 0 <= i ->
  Z.testbit (load m n a) i = (i <? 8 * n) && Z.testbit (m (a + i / 8)) (i mod 8).
Proof.
  intros Hm Hn Hi. revert n Hn. apply natlike_ind.
  { unfold load. simpl. rewrite Z.bits_0. by destruct (Z.ltb_spec i 0); [lia|]. }
  intros n Hn IH. change (Z.succ n) with (n + 1). rewrite load_succ, Z.lor_spec, IH by done.
  rewrite Z.shiftl_spec by done. pose proof (Z.mod_pos_bound i 8 ltac:(lia)). pose proof (Z.div_mod i 8 ltac:(lia)).
  destruct (Z.ltb_spec i (8 * n)).
  - rewrite (Z.testbit_neg_r _ (i - 8 * n)) by lia. rewrite (proj2 (Z.ltb_lt i (8 * (n + 1)))) by lia.
    by rewrite orb_false_r.
  - cbn [andb orb]. destruct (Z.ltb_spec i (8 * (n + 1))).
    + assert (i / 8 = n) as -> by (Z.to_euclidean_division_equations; lia).
      cbn [andb]. f_equal. Z.to_euclidean_division_equations. lia.
    + rewrite (testbit_above 8) by (apply Hm || lia). done.
Qed.

Lemma load_inw m n a : bytes_ok m -> 0 <= n -> inw (8 * n) (load m n a).
Proof.
  intros Hm Hn. unfold load. replace (8 * n) with (8 * Z.of_nat (length ((fun i => m (a + i)) <$> seqZ 0 n))).
  - apply from_le_bytes_inw. apply list.Forall_forall. intros v Hv. apply list_elem_of_fmap in Hv as (i & -> & _). apply Hm.
  - rewrite length_fmap, length_seqZ. lia.
Qed.

Lemma load_ext m m' n a : (forall x, a <= x < a + n -> m x = m' x) -> load m n a = load m' n a.
Proof.
  intros H. unfold load. f_equal. apply list_fmap_ext. intros i x Hx. apply list_elem_of_lookup_2, elem_of_seqZ in Hx.
  apply H. lia.
Qed.

Lemma load_store_other m n a v n' a' :
  a' + n' <= a \/ a + n <= a' -> load (store m n a v) n' a' = load m n' a'.
Proof.
  intros H. apply load_ext. intros x Hx. unfold store.
  destruct (Z.leb_spec a x), (Z.ltb_spec x (a + n)); simpl; lia || done.
Qed.

(** A store inside of a range changes the bits it covers. *)
Lemma load_store m n a v N A :
  bytes_ok m -> A <= a -> 0 <= n -> a + n <= A + N ->
  load (store m n a v) N A = set_field (8 * (a - A)) (8 * n) v (load m N A).
Proof.
  intros Hm Ha Hn Hin. apply Z.bits_inj'. intros i Hi. unfold set_field.
  rewrite load_testbit by (lia || by apply store_bytes_ok). autorewrite with zbits.
  rewrite load_testbit by (done || lia). unfold store.
  pose proof (Z.mod_pos_bound i 8 ltac:(lia)). pose proof (Z.div_mod i 8 ltac:(lia)).
  set (q := i / 8) in *. set (r := i mod 8) in *. clearbody q r.
  destruct (Z.leb_spec a (A + q)); cbn [andb].
  - destruct (Z.ltb_spec (A + q) (a + n)); cbn [andb].
    + autorewrite with zbits. rewrite (proj2 (Z.ltb_lt i (8 * N))), (proj2 (Z.ltb_lt r 8)), (proj2 (Z.leb_le 0 r)) by lia.
      rewrite (proj2 (Z.leb_le (8 * (a - A)) i)), (proj2 (Z.leb_le 0 (i - 8 * (a - A)))), (proj2 (Z.ltb_lt (i - 8 * (a - A)) (8 * n))) by lia.
      cbn [andb negb orb]. rewrite !andb_true_r, andb_false_r. cbn [orb]. f_equal. lia.
    + rewrite (proj2 (Z.ltb_ge (i - 8 * (a - A)) (8 * n))) by lia. rewrite !andb_false_r, ?andb_true_r, orb_false_r. done.
  - rewrite (proj2 (Z.leb_gt (8 * (a - A)) i)) by lia. cbn [andb negb]. rewrite ?andb_true_r, ?orb_false_r. done.
Qed.

Lemma load_prefix m n N a : bytes_ok m -> 0 <= n <= N -> load m n a = wrap (8 * n) (load m N a).
Proof.
  intros Hm Hn. apply Z.bits_inj'. intros i Hi. rewrite testbit_wrap, !load_testbit by (done || lia).
  destruct (Z.ltb_spec i (8 * n)); [|done].
  rewrite (proj2 (Z.ltb_lt i (8 * N))) by lia. done.
Qed.

(** ** The layout of the state *)

(** The offset of a field of [X87State], and the size of its Rust type. *)
Class Layout := {
  regs_offset : Z;
  x87_offset : Z;
  x87_field_offset : X87Reg -> Z;
  mm_offset : Z;
}.

Section layout.
Context `{Layout}.

Definition x87_byte_offset_of (r : X87Reg) : Z :=
  match r with Mm n => mm_offset + n * 16 | _ => x87_field_offset r end.
Definition byte_offset_of (r : Reg) : Z :=
  match r with
  | Gp r => regs_offset + Z.of_nat (as_num r) * 8
  | X87 r => x87_offset + x87_byte_offset_of r
  end.

(** The size of the field that holds a register. *)
Definition storage_bytes (r : Reg) : Z :=
  match r with
  | X87 (Top | RoundingControlReg | PrecisionControl | InfinityControl) => 1
  | X87 ConditionCodes => 4
  | X87 (Mm _) => 16
  | _ => 8
  end.

(** The registers there are: [Mm] goes from 0 to 7. *)
Definition real_reg (r : Reg) : Prop := match r with X87 (Mm n) => 0 <= n < 8 | _ => True end.

Class LayoutLaws : Prop := {
  offset_range r : real_reg r -> 0 <= byte_offset_of r /\ byte_offset_of r + storage_bytes r <= 2 ^ 16;
  offsets_disjoint r r' : real_reg r -> real_reg r' -> r <> r' ->
    byte_offset_of r + storage_bytes r <= byte_offset_of r'
    \/ byte_offset_of r' + storage_bytes r' <= byte_offset_of r;
}.

(** ** The state that a memory holds *)

Definition load_reg (m : Z -> Z) (r : Reg) : Z := load m (storage_bytes r) (byte_offset_of r).

Definition cpu_of (m : Z -> Z) : State :=
  {| regs := (fun r => load_reg m (Gp r)) <$> GpReg_variants;
     x87 := {| mm := (fun n => load_reg m (X87 (Mm n))) <$> seqZ 0 8;
               top := load_reg m (X87 Top);
               condition_codes := load_reg m (X87 ConditionCodes);
               mm_is_valid := load_reg m (X87 MmIsValid);
               data_pointer := load_reg m (X87 DataPointer);
               data_selector := load_reg m (X87 DataSelector);
               instruction_pointer := load_reg m (X87 InstructionPointer);
               instruction_selector := load_reg m (X87 InstructionSelector);
               last_instruction_opcode := load_reg m (X87 LastInstructionOpcode);
               exception_flags := load_reg m (X87 ExceptionFlags);
               exception_masks := load_reg m (X87 ExceptionMasks);
               rounding_control := load_reg m (X87 RoundingControlReg);
               precision_control := load_reg m (X87 PrecisionControl);
               infinity_control := load_reg m (X87 InfinityControl) |} |}.

(** The number in the field of a register. *)
Definition raw_reg (s : State) (r : Reg) : Z :=
  let x := x87 s in
  match r with
  | Gp r => regs s !!! as_num r
  | X87 Top => top x
  | X87 (Mm n) => default 0 (arr_get (mm x) n)
  | X87 ConditionCodes => condition_codes x
  | X87 ExceptionMasks => exception_masks x
  | X87 ExceptionFlags => exception_flags x
  | X87 DataPointer => data_pointer x
  | X87 DataSelector => data_selector x
  | X87 InstructionPointer => instruction_pointer x
  | X87 InstructionSelector => instruction_selector x
  | X87 LastInstructionOpcode => last_instruction_opcode x
  | X87 RoundingControlReg => rounding_control x
  | X87 PrecisionControl => precision_control x
  | X87 InfinityControl => infinity_control x
  | X87 MmIsValid => mm_is_valid x
  end.

Lemma cpu_of_wf m : wf_state (cpu_of m).
Proof. by split. Qed.

Lemma raw_reg_cpu_of m r : real_reg r -> raw_reg (cpu_of m) r = load_reg m r.
Proof.
  intros Hr. destruct r as [r|[]]; simpl; try done.
  - by destruct r.
  - unfold real_reg in Hr. assert (In n (seqZ 0 8)) as Hin by (apply list_elem_of_In, elem_of_seqZ; lia).
    simpl in Hin. repeat (destruct Hin as [<-|Hin]; [done|]). done.
Qed.

(** States are equal when their fields are. *)
Lemma state_ext s s' :
  wf_state s -> wf_state s' -> (forall r, real_reg r -> raw_reg s r = raw_reg s' r) -> s = s'.
Proof.
  intros [Hl Hm] [Hl' Hm'] Heq. destruct s as [l x], s' as [l' x']. simpl in *. f_equal.
  - apply (list_eq_same_length _ _ GpReg_count); [done|done|]. intros i y z Hi Hy Hz.
    assert (exists r, as_num r = i) as [r <-].
    { destruct (lookup_lt_is_Some_2 GpReg_variants i Hi) as [r Hr]. exists r.
      assert (NoDup GpReg_variants) as Hnd by (apply (bool_decide_unpack _); vm_compute; exact I).
      eapply NoDup_lookup; [done|apply as_num_lookup|done]. }
    pose proof (Heq (Gp r) I) as E. simpl in E. by rewrite !list_lookup_total_alt, Hy, Hz in E.
  - destruct x, x'. simpl in *.
    pose proof (Heq (X87 Top) I). pose proof (Heq (X87 ConditionCodes) I). pose proof (Heq (X87 MmIsValid) I).
    pose proof (Heq (X87 DataPointer) I). pose proof (Heq (X87 DataSelector) I).
    pose proof (Heq (X87 InstructionPointer) I). pose proof (Heq (X87 InstructionSelector) I).
    pose proof (Heq (X87 LastInstructionOpcode) I). pose proof (Heq (X87 ExceptionFlags) I).
    pose proof (Heq (X87 ExceptionMasks) I). pose proof (Heq (X87 RoundingControlReg) I).
    pose proof (Heq (X87 PrecisionControl) I). pose proof (Heq (X87 InfinityControl) I). simpl in *.
    f_equal; try done. apply (list_eq_same_length _ _ 8); [done|done|]. intros i y z Hi Hy Hz.
    assert (real_reg (X87 (Mm (Z.of_nat i)))) as Hr by (simpl; lia). pose proof (Heq _ Hr) as E. simpl in E.
    unfold arr_get in E. rewrite (proj2 (Z.ltb_ge _ 0)), Nat2Z.id, Hy, Hz in E by lia. done.
Qed.
End layout.

(** A layout: the general registers first, then the fields of [X87State] in
    sixteen bytes each, then the [Mm] registers. *)
Module ExampleLayout.
#[export] Instance layout : Layout := {|
  regs_offset := 0;
  x87_offset := 1024;
  x87_field_offset r :=
    match r with
    | MmIsValid => 0 | DataPointer => 16 | DataSelector => 32 | InstructionPointer => 48
    | InstructionSelector => 64 | LastInstructionOpcode => 80 | Top => 96 | ConditionCodes => 112
    | ExceptionFlags => 128 | ExceptionMasks => 144 | RoundingControlReg => 160 | PrecisionControl => 176
    | InfinityControl => 192 | Mm _ => 0
    end;
  mm_offset := 256;
|}.

#[export] Instance layout_laws : LayoutLaws.
Proof.
  split.
  - intros [r|r] Hr; [pose proof (as_num_lt r) as Hl; change GpReg_count with 61%nat in Hl; cbn -[as_num]; lia|].
    destruct r; cbn -[as_num] in *; lia.
  - intros [r|r] [r'|r'] Hr Hr' Hne.
    + assert (as_num r <> as_num r') by (intros ?%as_num_inj; congruence). cbn -[as_num]. lia.
    + pose proof (as_num_lt r) as Hl. change GpReg_count with 61%nat in Hl. destruct r'; cbn -[as_num] in *; lia.
    + pose proof (as_num_lt r') as Hl. change GpReg_count with 61%nat in Hl. destruct r; cbn -[as_num] in *; lia.
    + destruct r, r'; cbn -[as_num] in *; try lia; try congruence. assert (n <> n0) by congruence. lia.
Qed.
End ExampleLayout.
