(* ===== verification/Mir.v ===== *)
(** * Basic blocks of compiled code

    [Bb] with its parts and [BbBuilder] of
    [sem86-core/src/codegen/mir/bb.rs]: compiled code is a graph of basic
    blocks over a value graph ([ValTree]).  Running a block computes its values
    from the variables and from the CPU state in memory, which changes only
    when a block commits.  What a block does is what the code does that
    [MirToLir::build] of [codegen/lir/mod.rs] emits for it, executed as in
    [codegen/backends/interpreter.rs]. *)
From S2P Require Import Prelude Exceptions IlOps Arch MemArea IlCmd ValTree ValBuild CpuBytes.

(** ** Blocks *)

Abbreviation BbId := nat (only parsing).
Abbreviation VarId := Z (only parsing).

Inductive CommitDest : Type :=
| CReg (r : Reg)
| CFixed (size : DataSize) (offset : Z)
| CDynamic (size : DataSize) (offset : ValId).
#[export] Instance CommitDest_eq_dec : EqDecision CommitDest.
Proof. solve_decision. Defined.

Inductive BbSeq : Type :=
| SStore (values : list (VarId * ValId))
| SReadMemoryUnchecked (value : VarId) (addr : ValId) (num_bytes : Z)
| SWriteMemoryUnchecked (value addr : ValId) (num_bytes : Z)
| SLog
| SSetException (exception : Exception) (code : ValId)
| SSetHandler (id : HandlerId) (arg0 arg1 : ValId)
| SCommit (values : list (CommitDest * ValId)).

Inductive BbFallible : Type :=
| FPortOut (port data : ValId) (len : Z)
| FPortIn (port : ValId) (data : VarId) (len : Z)
| FReadMemory (value : VarId) (addr : ValId) (num_bytes : Z)
| FWriteMemory (value addr : ValId) (num_bytes : Z)
| FReadDescriptor (selector : ValId) (force mark_accessed : bool) (ok base limit ar : VarId).

Inductive Bb : Type :=
| BJump (next : BbId)
| BBr (cond : ValId) (if_zero if_nonzero : BbId)
| BSeq (entry : BbSeq) (next : BbId)
| BFallible (op : BbFallible) (if_ok if_exception : BbId)
| BCommitAndExit (metadata : option Z) (values : list (CommitDest * ValId))
    (last_jump_condition k : option ValId) (success : bool).

Definition next_blocks (bb : Bb) : list BbId :=
  match bb with
  | BJump next => [next]
  | BBr _ if_zero if_nonzero => [if_zero; if_nonzero]
  | BSeq _ next => [next]
  | BFallible _ if_ok if_exception => [if_ok; if_exception]
  | BCommitAndExit _ _ _ _ _ => []
  end.

(** ** Building a graph *)

Record BbBuilder := {
  bb_graph : list (option Bb);
  bb_current : BbId;
}.

Definition bb_new : BbBuilder := {| bb_graph := [None]; bb_current := 0%nat |}.

Definition create_block (g : BbBuilder) : BbId * BbBuilder :=
  (length (bb_graph g), {| bb_graph := bb_graph g ++ [None]; bb_current := bb_current g |}).

Definition block_is_terminated (g : BbBuilder) : option bool :=
  b ← bb_graph g !! bb_current g;
  Some (match b with Some _ => true | None => false end).

Definition switch_to (next : BbId) (g : BbBuilder) : option BbBuilder :=
  t ← block_is_terminated g;
  assert (t : bool);;
  Some {| bb_graph := bb_graph g; bb_current := next |}.

Definition write_and_switch_to (bb : Bb) (next : BbId) (g : BbBuilder) : option BbBuilder :=
  t ← block_is_terminated g;
  assert (negb t);;
  switch_to next {| bb_graph := <[bb_current g := Some bb]> (bb_graph g); bb_current := bb_current g |}.

Definition write_terminal (bb : Bb) (g : BbBuilder) : option BbBuilder :=
  write_and_switch_to bb (bb_current g) g.

Definition write_seq (entry : BbSeq) (g : BbBuilder) : option BbBuilder :=
  let (next, g) := create_block g in
  write_and_switch_to (BSeq entry next) next g.

(** [BbBuilder::build] without [optimize]: branches on constants become jumps,
    and every block must be filled. *)
Definition fold_branch (t : list ValNode) (bb : Bb) : Bb :=
  match bb with
  | BBr cond if_zero if_nonzero =>
      match t !! cond with
      | Some (NConst c) => BJump (if c =? 0 then if_zero else if_nonzero)
      | _ => bb
      end
  | _ => bb
  end.
Fixpoint bb_build (t : list ValNode) (l : list (option Bb)) : option (list Bb) :=
  match l with
  | [] => Some []
  | None :: _ => None
  | Some bb :: l => g ← bb_build t l; Some (fold_branch t bb :: g)
  end.

(** ** Running blocks *)

Record Machine (W : Type) := {
  m_vars : VarId -> Z;
  m_cpu : Z -> Z;                    (* the bytes of [State] *)
  m_k : Z;                           (* [ctx.k] *)
  m_world : W;
  m_result : PackedExecResult;       (* [ctx.result] *)
}.
Arguments m_vars {W}. Arguments m_cpu {W}. Arguments m_k {W}. Arguments m_world {W}. Arguments m_result {W}.

Record Outcome (W : Type) := {
  o_success : bool;
  o_metadata : option Z;
  o_last_jump : option Z;
  o_machine : Machine W;
}.
Arguments o_success {W}. Arguments o_metadata {W}. Arguments o_last_jump {W}. Arguments o_machine {W}.

Section run.
Context {W : Type} `{ExecCtx W} `{SoftFloat} `{Layout}.

Definition with_var (m : Machine W) (v : VarId) (x : Z) : Machine W :=
  {| m_vars := fun y => if decide (y = v) then x else m_vars m y;
     m_cpu := m_cpu m; m_k := m_k m; m_world := m_world m; m_result := m_result m |}.
Definition with_cpu_bytes (m : Machine W) (c : Z -> Z) : Machine W :=
  {| m_vars := m_vars m; m_cpu := c; m_k := m_k m; m_world := m_world m; m_result := m_result m |}.
Definition with_k (m : Machine W) (k : Z) : Machine W :=
  {| m_vars := m_vars m; m_cpu := m_cpu m; m_k := k; m_world := m_world m; m_result := m_result m |}.
Definition with_m_world (m : Machine W) (w : W) : Machine W :=
  {| m_vars := m_vars m; m_cpu := m_cpu m; m_k := m_k m; m_world := w; m_result := m_result m |}.
Definition with_result (m : Machine W) (r : PackedExecResult) : Machine W :=
  {| m_vars := m_vars m; m_cpu := m_cpu m; m_k := m_k m; m_world := m_world m; m_result := r |}.

(** The arguments of a compiled encoding that is not instantiated. *)
Context (instr_len part_values : Z).

(** An offset is a [usize]. *)
Definition env_of (m : Machine W) : Env :=
  {| var_value := m_vars m;
     load_byte p a :=
       match p with
       | CpuState => m_cpu m (wrap 64 a)
       | K => wrap 8 (Z.shiftr (m_k m) (8 * wrap 64 a))
       end;
     fp_binop_value op x y rc := default 0 (fp_binop_execute op x y (wrap 8 rc));
     fp_unop_value op x rc := default 0 (fp_unop_execute op x (wrap 8 rc));
     instr_len_value := instr_len;
     part_values_value := part_values |}.

Context (t : list ValNode).

Abbreviation value m i := (denote (env_of m) t i).

(** Where a commit writes how many bytes of which value. *)
Definition commit_store (m : Machine W) (x : CommitDest * ValId) : Z * Z * Z :=
  match x.1 with
  | CReg r => (byte_offset_of r, byte_size r, value m x.2)
  | CFixed size offset => (offset, ds_num_bytes size, value m x.2)
  | CDynamic size offset => (wrap 64 (value m offset), ds_num_bytes size, value m x.2)
  end.
(** All values are computed before the first is stored. *)
Definition commit_values (m : Machine W) (values : list (CommitDest * ValId)) : Machine W :=
  with_cpu_bytes m
    (foldl (fun c '(a, n, v) => store c n a v) (m_cpu m) (commit_store m <$> values)).

Definition run_seq (entry : BbSeq) (m : Machine W) : option (Machine W) :=
  match entry with
  | SStore values => Some (foldl (fun m '(var, v) => with_var m var (value m v)) m values)
  | SReadMemoryUnchecked _ _ _ | SWriteMemoryUnchecked _ _ _ => None
  | SLog => Some m
  | SSetException e code =>
      e ← with_code_from_u32 e (wrap 32 (value m code));
      p ← packed_from_exception e;
      Some (with_result m p)
  | SSetHandler id arg0 arg1 =>
      p ← packed_from_exec_result (InvokeHandler id (wrap 32 (value m arg0), wrap 32 (value m arg1)));
      Some (with_result m p)
  | SCommit values => Some (commit_values m values)
  end.

(** The result of a fallible operation: the variables it sets when it
    succeeds, or zeros and the exception. *)
Definition fallible {A} (f : comp W Exception A) (vars : list VarId) (results : A -> list Z)
    (m : Machine W) : option (bool * Machine W) :=
  let set_vars m vs := foldl (fun m '(var, v) => with_var m var v) m (zip vars vs) in
  '(r, w) ← f (m_world m);
  match r with
  | Ok x => Some (true, set_vars (with_m_world m w) (results x))
  | Err e =>
      p ← packed_from_exception e;
      Some (false, set_vars (with_result (with_m_world m w) p) (replicate (length vars) 0))
  end.

Definition run_fallible (op : BbFallible) (m : Machine W) : option (bool * Machine W) :=
  let cpu := cpu_of (m_cpu m) in
  match op with
  | FPortOut port data len =>
      fallible (port_out cpu (wrap 16 (value m port)) len (wrap 32 (value m data))) [] (fun _ => []) m
  | FPortIn port data len =>
      fallible (port_in cpu (wrap 16 (value m port)) len) [data] (fun v => [v]) m
  | FReadMemory var addr num_bytes =>
      fallible (read_from_mem_as_u128 (Protected (wrap 32 (value m addr)) num_bytes) (is_userspace cpu))
        [var] (fun v => [v]) m
  | FWriteMemory v addr num_bytes =>
      fallible (write_u128_to_mem (Protected (wrap 32 (value m addr)) num_bytes) (is_userspace cpu) (value m v))
        [] (fun _ => []) m
  | FReadDescriptor selector force mark_accessed ok base limit ar =>
      fallible (read_descriptor cpu force mark_accessed (wrap 16 (value m selector)))
        [ok; base; limit; ar] (fun r => [b2z (d_ok r); d_base r; d_limit r; d_access_rights r]) m
  end.

Definition run_block (bb : Bb) (m : Machine W) : option (BbId * Machine W + Outcome W) :=
  match bb with
  | BJump next => Some (inl (next, m))
  | BBr cond if_zero if_nonzero => Some (inl (if value m cond =? 0 then if_zero else if_nonzero, m))
  | BSeq entry next => m ← run_seq entry m; Some (inl (next, m))
  | BFallible op if_ok if_exception =>
      '(ok, m) ← run_fallible op m;
      Some (inl (if ok : bool then if_ok else if_exception, m))
  | BCommitAndExit metadata values last_jump_condition k success =>
      let m' := commit_values m values in
      Some (inr {| o_success := success; o_metadata := metadata;
                   o_last_jump := (fun i => value m i) <$> last_jump_condition;
                   o_machine := match k with Some i => with_k m' (wrap 64 (value m i)) | None => m' end |})
  end.

Fixpoint run_graph (fuel : nat) (g : list Bb) (b : BbId) (m : Machine W) : option (Outcome W) :=
  match fuel with
  | O => None
  | S fuel =>
      bb ← g !! b;
      r ← run_block bb m;
      match r with
      | inl (b, m) => run_graph fuel g b m
      | inr o => Some o
      end
  end.
End run.

(** ** The values of a machine are numbers of 128 bits *)

(** The results of the floating-point library are [u128]. *)
Class SoftFloatLaws `{SoftFloat} : Prop := {
  fp_binop_inw op x y rc r : fp_binop_execute op x y rc = Some r -> inw 128 r;
  fp_unop_inw op x rc r : fp_unop_execute op x rc = Some r -> inw 128 r;
}.

Record machine_ok {W} (m : Machine W) : Prop := {
  mo_vars : forall v, inw 128 (m_vars m v);
  mo_cpu : bytes_ok (m_cpu m);
}.

Lemma env_of_ok {W} `{SoftFloatLaws} il pv (m : Machine W) :
  inw 128 il -> inw 128 pv -> machine_ok m -> env_ok (env_of il pv m).
Proof.
  intros Hil Hpv [Hv Hc]. split; cbn; [done| | | |done|done].
  - intros [] a; [apply Hc|by apply wrap_inw].
  - intros op x y rc. destruct (fp_binop_execute op x y (wrap 8 rc)) eqn:E; [by eapply fp_binop_inw|done].
  - intros op x rc. destruct (fp_unop_execute op x (wrap 8 rc)) eqn:E; [by eapply fp_unop_inw|done].
Qed.
