(* ===== verification/MirState.v ===== *)
(** * The register values that are not committed yet

    [UncommittedState] of [sem86-core/src/codegen/mir/state.rs]: while code is
    generated for an instruction, the new values of registers are kept here and
    stored in the CPU state only when the code exits.  A register may also be
    chosen at run time, by an index into a list of choices; a write through one
    name is seen through all others.

    The hash maps are association lists here, in the order of insertion; the
    source does not depend on an order, and neither do the theorems. *)
From stdpp Require Import sorting.
From S2P Require Import Prelude IlOps Arch IlLoc ValTree ValBuild ValCombine CpuBytes Mir.

#[local] Open Scope bm_scope.

(** ** Association lists *)

Section assoc.
Context {A B : Type} `{EqDecision A}.

Fixpoint map_get (l : list (A * B)) (k : A) : option B :=
  match l with
  | [] => None
  | (x, v) :: l => if decide (x = k) then Some v else map_get l k
  end.
Fixpoint map_insert (l : list (A * B)) (k : A) (v : B) : list (A * B) :=
  match l with
  | [] => [(k, v)]
  | (x, w) :: l => if decide (x = k) then (k, v) :: l else (x, w) :: map_insert l k v
  end.
End assoc.

(** A loop over a list in a builder. *)
Fixpoint bfold {A S} (f : A -> S -> bm S) (l : list A) (s : S) : bm S :=
  match l with
  | [] => bret s
  | x :: l => s <~ f x s;; bfold f l s
  end.
Fixpoint bmap {A B} (f : A -> bm B) (l : list A) : bm (list B) :=
  match l with
  | [] => bret []
  | x :: l => y <~ f x;; ys <~ bmap f l;; bret (y :: ys)
  end.

(** ** The state *)

Record DynamicRegKey := { choices : list (option Reg); key_index : ValId }.
#[export] Instance DynamicRegKey_eq_dec : EqDecision DynamicRegKey.
Proof. solve_decision. Defined.

Record UncommittedState := {
  fixed : list (Reg * ValId);
  dynamic : list (DynamicRegKey * ValId);
  us_k : option ValId;
}.
Definition us_default : UncommittedState := {| fixed := []; dynamic := []; us_k := None |}.

Definition sizes (l : list (option Reg)) : list Z := byte_size <$> omap id l.
Fixpoint windows_equal (l : list Z) : bool :=
  match l with
  | x :: (y :: _) as l => (x =? y) && windows_equal l
  | _ => true
  end.
Definition key_new (l : list (option Reg)) (index : ValId) : option DynamicRegKey :=
  assert (windows_equal (sizes l));; Some {| choices := l; key_index := index |}.

Definition try_from_bytes (size : Z) : option DataSize := try_from_bits (size * 8).
(** [try_into().unwrap()] to [u16] *)
Definition as_u16 (n : Z) : option Z := assert ((0 <=? n) && (n <? 2 ^ 16));; Some n.

Section state.
Context `{Layout} (fuel : nat).

(** ** Offsets of dynamic registers *)

(** A scale from 1 to 63 and an offset that give the position of every choice;
    the outer option is the panic of a list without registers. *)
Definition offsets_with (scale : Z) (mapping : list (option Reg)) : list Z :=
  omap id (imap (fun i r => (fun r => byte_offset_of r - Z.of_nat i * scale) <$> r) mapping).
Definition common (l : list Z) : option Z :=
  match l with
  | [] => None
  | x :: l => if forallb (Z.eqb x) l then Some x else None
  end.
Fixpoint find_scale (scales : list Z) (mapping : list (option Reg)) : option (Z * Z) :=
  match scales with
  | [] => None
  | s :: scales =>
      match common (offsets_with s mapping) with
      | Some offset => Some (s, offset)
      | None => find_scale scales mapping
      end
  end.
Definition compute_const_scale_offset (mapping : list (option Reg)) : option (option (Z * Z)) :=
  assert (negb (bool_decide (omap id mapping = [])));; Some (find_scale (seqZ 1 63) mapping).

(** [for (index, choice) in choices { if choice == Some(reg) ... }]: the value
    is replaced by [new] where the index chooses [r]. *)
Fixpoint override (index : ValId) (l : list (option Reg)) (pos : Z) (r : Reg) (new val : ValId) : bm ValId :=
  match l with
  | [] => bret val
  | choice :: l =>
      val <~ (if decide (choice = Some r) then
                n <~ imm pos;;
                eq <~ binop fuel CmpEq index n;;
                ite fuel eq val new
              else bret val);;
      override index l (pos + 1) r new val
  end.

Fixpoint offset_chain (index : ValId) (l : list (option Reg)) (pos : Z) (offset : ValId) : bm ValId :=
  match l with
  | [] => bret offset
  | mapping :: l =>
      n <~ imm pos;;
      eq <~ binop fuel CmpEq index n;;
      offset <~ (match mapping with
                 | Some reg => reg_offset <~ imm (byte_offset_of reg);; ite fuel eq offset reg_offset
                 | None => bret offset
                 end);;
      offset_chain index l (pos + 1) offset
  end.

Definition compute_dynamic_reg_offset (key : DynamicRegKey) : bm ValId :=
  c <~ blift (compute_const_scale_offset (choices key));;
  match c with
  | Some (const_scale, const_offset) =>
      const_offset <~ imm (wrap 64 const_offset);;
      const_scale <~ imm const_scale;;
      offset <~ binop fuel Mul const_scale (key_index key);;
      binop fuel Add const_offset offset
  | None => offset <~ imm 0;; offset_chain (key_index key) (choices key) 0 offset
  end.

(** ** Reading and writing *)

Definition get_or_compute (us : UncommittedState) (r : Reg) : bm ValId :=
  if decide (r = Gp Riz) then imm 0
  else
    match map_get (fixed us) r with
    | Some val => bret val
    | None =>
        size <~ blift (try_from_bytes (byte_size r));;
        offset <~ blift (as_u16 (byte_offset_of r));;
        val <~ load_ptr_imm CpuState size offset;;
        bfold (fun '(key, dynamic_val) val => override (key_index key) (choices key) 0 r dynamic_val val)
          (dynamic us) val
    end.

Definition store_reg (us : UncommittedState) (r : Reg) (new_val : ValId) : bm UncommittedState :=
  d <~ bmap (fun '(key, dynamic_val) =>
               v <~ override (key_index key) (choices key) 0 r new_val dynamic_val;; bret (key, v))
         (dynamic us);;
  bret {| fixed := map_insert (fixed us) r new_val; dynamic := d; us_k := us_k us |}.

(** [propagate_dynamic_val]: the value is replaced by [new] where the two
    indices choose the same register. *)
Fixpoint propagate_one (lhs_choice : Reg) (this_eq : bm ValId) (rhs : list (option Reg)) (pos : Z)
    (rhs_index new val : ValId) : bm ValId :=
  match rhs with
  | [] => bret val
  | rhs_choice :: rhs =>
      val <~ (if decide (Some lhs_choice = rhs_choice) then
                this_eq <~ this_eq;;
                n <~ imm pos;;
                other_eq <~ binop fuel CmpEq rhs_index n;;
                both_eq <~ binop fuel And this_eq other_eq;;
                ite fuel both_eq val new
              else bret val);;
      propagate_one lhs_choice this_eq rhs (pos + 1) rhs_index new val
  end.
Fixpoint propagate_all (lhs : list (option Reg)) (pos : Z) (lhs_index : ValId)
    (rhs : list (option Reg)) (rhs_index new val : ValId) : bm ValId :=
  match lhs with
  | [] => bret val
  | lhs_choice :: lhs =>
      val <~ (match lhs_choice with
              | Some r => propagate_one r (n <~ imm pos;; binop fuel CmpEq lhs_index n) rhs 0 rhs_index new val
              | None => bret val
              end);;
      propagate_all lhs (pos + 1) lhs_index rhs rhs_index new val
  end.
Definition propagate_dynamic_val (lhs : list (option Reg)) (lhs_index : ValId) (rhs : list (option Reg))
    (rhs_index new val : ValId) : bm ValId :=
  if decide (lhs = rhs) then eq <~ binop fuel CmpEq lhs_index rhs_index;; ite fuel eq val new
  else propagate_all lhs 0 lhs_index rhs rhs_index new val.

Definition get_or_compute_dynamic (us : UncommittedState) (l : list (option Reg)) (choice_index : ValId)
    : bm ValId :=
  key <~ blift (key_new l choice_index);;
  match map_get (dynamic us) key with
  | Some val => bret val
  | None =>
      offset <~ compute_dynamic_reg_offset key;;
      size <~ blift (s ← head (sizes l); try_from_bytes s);;
      val <~ load_ptr_offset CpuState size offset;;
      val <~ bfold (fun '(r, fixed_val) val => override choice_index l 0 r fixed_val val) (fixed us) val;;
      bfold (fun '(key, dynamic_val) val =>
               propagate_dynamic_val l choice_index (choices key) (key_index key) dynamic_val val)
        (dynamic us) val
  end.

Definition store_dynamic (us : UncommittedState) (l : list (option Reg)) (choice_index new_val : ValId)
    : bm UncommittedState :=
  key <~ blift (key_new l choice_index);;
  let d := map_insert (dynamic us) key new_val in
  f <~ bmap (fun '(r, fixed_val) => v <~ override choice_index l 0 r new_val fixed_val;; bret (r, v)) (fixed us);;
  d <~ bmap (fun '(key, dynamic_val) =>
               v <~ propagate_dynamic_val l choice_index (choices key) (key_index key) new_val dynamic_val;;
               bret (key, v)) d;;
  bret {| fixed := f; dynamic := d; us_k := us_k us |}.

(** ** The instruction counter *)

Definition get_or_compute_k (us : UncommittedState) : bm ValId :=
  match us_k us with Some k => bret k | None => load_ptr K Qword end.
Definition us_increment_k (us : UncommittedState) : bm UncommittedState :=
  k <~ get_or_compute_k us;;
  one <~ imm 1;;
  k <~ binop fuel Add k one;;
  bret {| fixed := fixed us; dynamic := dynamic us; us_k := Some k |}.

(** ** Merging the states of several paths *)

Fixpoint all_equal {A} `{EqDecision A} (l : list A) : bool :=
  match l with
  | x :: (y :: _) as l => bool_decide (x = y) && all_equal l
  | _ => true
  end.

(** The value of a location in the merged state: the one it has on all paths,
    or a new variable that each path sets. *)
Definition merge_vals (vals : list ValId) (s : list (list (VarId * ValId)) * Z)
    : bm (ValId * (list (list (VarId * ValId)) * Z)) :=
  let (stores, next_var) := s in
  if all_equal vals then v <~ blift (head vals);; bret (v, (stores, next_var))
  else
    v <~ use_var next_var;;
    bret (v, (zip_with (fun st val => st ++ [(next_var, val)]) stores vals, next_var + 1)).

Definition all_regs (states : list UncommittedState) : list Reg :=
  remove_dups (states ≫= fun us => (fixed us).*1).
Definition all_dyn (states : list UncommittedState) : list DynamicRegKey :=
  remove_dups (states ≫= fun us => (dynamic us).*1).

Definition merge_regs (states : list UncommittedState) (s : list (list (VarId * ValId)) * Z) :=
  bfold (fun r '(f, s) =>
           vals <~ bmap (fun us => get_or_compute us r) states;;
           vs <~ merge_vals vals s;;
           bret (f ++ [(r, vs.1)], vs.2)) (all_regs states) ([], s).
Definition merge_dyn (states : list UncommittedState) (s : list (list (VarId * ValId)) * Z) :=
  bfold (fun key '(d, s) =>
           vals <~ bmap (fun us => get_or_compute_dynamic us (choices key) (key_index key)) states;;
           vs <~ merge_vals vals s;;
           bret (d ++ [(key, vs.1)], vs.2)) (all_dyn states) ([], s).
Definition merge_k (states : list UncommittedState) (s : list (list (VarId * ValId)) * Z)
    : bm (option ValId * (list (list (VarId * ValId)) * Z)) :=
  if all_equal (us_k <$> states) then bret (match states with us :: _ => us_k us | [] => None end, s)
  else
    ks <~ bmap get_or_compute_k states;;
    v <~ use_var s.2;;
    bret (Some v, (zip_with (fun st val => st ++ [(s.2, val)]) s.1 ks, s.2 + 1)).

Definition merge_n (states : list UncommittedState) (next_var : Z)
    : bm (UncommittedState * (list (list (VarId * ValId)) * Z)) :=
  f <~ merge_regs states (replicate (length states) [], next_var);;
  d <~ merge_dyn states f.2;;
  k <~ merge_k states d.2;;
  bret ({| fixed := f.1; dynamic := d.1; us_k := k.1 |}, k.2).

(** ** What a commit stores *)

Inductive UncommittedLoc : Type :=
| UReg (r : Reg)
| UDynamic (offset : ValId) (size lowest_index : Z).

Definition sort_key (l : UncommittedLoc) : Z :=
  match l with
  | UReg r => byte_offset_of r
  | UDynamic _ _ lowest_index => 100000 + lowest_index
  end.

Definition minimum (l : list Z) : option Z :=
  match l with [] => None | x :: l => Some (foldr Z.min x l) end.

Definition us_iter (us : UncommittedState) : bm (list (UncommittedLoc * ValId)) :=
  d <~ bmap (fun '(key, v) =>
         offset <~ compute_dynamic_reg_offset key;;
         size <~ blift (head (sizes (choices key)));;
         lowest_index <~ blift (minimum (byte_offset_of <$> omap id (choices key)));;
         bret (UDynamic offset size lowest_index, v)) (dynamic us);;
  bret (((fun '(r, v) => (UReg r, v)) <$> fixed us) ++ d).

(** [sorted]: by position, then by value. *)
Definition loc_le (x y : UncommittedLoc * ValId) : Prop :=
  sort_key x.1 < sort_key y.1 \/ sort_key x.1 = sort_key y.1 /\ (x.2 <= y.2)%nat.
#[export] Instance loc_le_dec x y : Decision (loc_le x y).
Proof. unfold loc_le. apply _. Defined.
Definition sorted (l : list (UncommittedLoc * ValId)) : list (UncommittedLoc * ValId) := merge_sort loc_le l.
End state.
