(* ===== verification/MirEmit.v ===== *)
(** * Code generation for commands

    [MirBuilder], [EncodingEmitter] and their parts in
    [sem86-core/src/codegen/mir/mod.rs]: the commands of an encoding become
    basic blocks ([Mir]) over a value graph ([ValBuild]); registers that the
    instruction writes are kept in an [UncommittedState] ([MirState]) and
    stored where the code exits.

    The fields that do not change while an encoding is emitted are the
    parameters of the section; [Emitter] holds the others.  The uncommitted
    state at the current block ([uncommitted_cpu_state_at]) is [em_us]. *)
From S2P Require Import Prelude Exceptions IlOps Arch Packing Address IlLoc MemArea IlCmd Jump ValTree ValBuild.
From S2P Require Import ValCombine CpuBytes Mir MirState.

#[local] Open Scope bm_scope.

(** ** Encodings *)

(** [ParameterizedComputation] and [MemoryAccess] of
    [liblisa/src/encoding/dataflows]. *)
Inductive ParameterizedComputation : Type :=
| FromPart (part_index : Z)
| Calculation (c : AddressComputation).
Record MemoryAccess := {
  inputs : list ParLoc;
  access_size_end : Z;
  calculation : ParameterizedComputation;
}.

(** What the emitter uses of [Encoding] and [MiniSem]. *)
Record Encoding := {
  enc_parts : list PartMapping;
  enc_packing : PackingStructure;
  enc_commands : Commands;
  enc_addresses : list MemoryAccess;
  enc_jump : Jump;
}.

Record EncodingEntry := {
  ee_instr_len : Z;
  ee_encoding : Encoding;
  ee_part_values : Z;
  ee_metadata : option Z;
  ee_is_cs32 : bool;
}.

(** ** The emitter *)

Record SegmentInfo := { seg_selector : ValId; seg_access_rights : ValId; seg_limit : ValId }.

Record MemEntry := {
  me_var : option VarId;
  me_value : ValId;
  me_seg_info : option SegmentInfo;
  me_addr : ValId;
  me_segchecked : bool;
  me_needs_write : bool;
  me_num_bytes : Z;
}.

Record Emitter := {
  em_cf : BbBuilder;
  em_next_var : Z;
  em_us : UncommittedState;
  em_tmp : list ValId;
  em_memory : list MemEntry;
}.

Definition with_cf (e : Emitter) (g : BbBuilder) : Emitter :=
  {| em_cf := g; em_next_var := em_next_var e; em_us := em_us e; em_tmp := em_tmp e; em_memory := em_memory e |}.
Definition with_next_var (e : Emitter) (n : Z) : Emitter :=
  {| em_cf := em_cf e; em_next_var := n; em_us := em_us e; em_tmp := em_tmp e; em_memory := em_memory e |}.
Definition with_us (e : Emitter) (us : UncommittedState) : Emitter :=
  {| em_cf := em_cf e; em_next_var := em_next_var e; em_us := us; em_tmp := em_tmp e; em_memory := em_memory e |}.
Definition with_tmp (e : Emitter) (t : list ValId) : Emitter :=
  {| em_cf := em_cf e; em_next_var := em_next_var e; em_us := em_us e; em_tmp := t; em_memory := em_memory e |}.
Definition with_memory (e : Emitter) (m : list MemEntry) : Emitter :=
  {| em_cf := em_cf e; em_next_var := em_next_var e; em_us := em_us e; em_tmp := em_tmp e; em_memory := m |}.

Definition me_with_value (m : MemEntry) (v : ValId) (needs_write : bool) : MemEntry :=
  {| me_var := me_var m; me_value := v; me_seg_info := me_seg_info m; me_addr := me_addr m;
     me_segchecked := me_segchecked m; me_needs_write := needs_write; me_num_bytes := me_num_bytes m |}.
Definition me_with_var (m : MemEntry) (var : VarId) (v : ValId) : MemEntry :=
  {| me_var := Some var; me_value := v; me_seg_info := me_seg_info m; me_addr := me_addr m;
     me_segchecked := me_segchecked m; me_needs_write := me_needs_write m; me_num_bytes := me_num_bytes m |}.
Definition me_checked (m : MemEntry) : MemEntry :=
  {| me_var := me_var m; me_value := me_value m; me_seg_info := me_seg_info m; me_addr := me_addr m;
     me_segchecked := true; me_needs_write := me_needs_write m; me_num_bytes := me_num_bytes m |}.

(** A computation on an emitter and the value graph. *)
Definition em (T : Type) : Type := Emitter -> bm (T * Emitter).
Definition eret {T} (x : T) : em T := fun e => bret (x, e).
Definition ebind {T U} (m : em T) (f : T -> em U) : em U := fun e => r <~ m e;; f r.1 r.2.

Declare Scope em_scope.
Notation "x <~~ m ;; k" := (ebind m (fun x => k))
  (at level 100, m at next level, right associativity) : em_scope.
Notation "m ~> k" := (ebind m (fun _ => k)) (at level 100, right associativity) : em_scope.
#[local] Open Scope em_scope.

(** Values are built from what the emitter holds; blocks are changed alone. *)
Definition value_of {T} (f : Emitter -> bm T) : em T := fun e => x <~ f e;; bret (x, e).
Definition elift {T} (o : option T) : em T := fun e => x <~ blift o;; bret (x, e).
Definition set_us (f : UncommittedState -> bm UncommittedState) : em unit :=
  fun e => us <~ f (em_us e);; bret (tt, with_us e us).
Definition get_us : em UncommittedState := fun e => bret (em_us e, e).
Definition put_us (us : UncommittedState) : em unit := fun e => bret (tt, with_us e us).
Definition on_cf (f : BbBuilder -> option BbBuilder) : em unit :=
  fun e => g <~ blift (f (em_cf e));; bret (tt, with_cf e g).
Definition new_block : em BbId :=
  fun e => bret (let (b, g) := create_block (em_cf e) in (b, with_cf e g)).
Definition is_terminated : em bool := fun e => t <~ blift (block_is_terminated (em_cf e));; bret (t, e).
Definition alloc_var : em VarId := fun e => bret (em_next_var e, with_next_var e (em_next_var e + 1)).

(** [n as u8 * 8], checked *)
Definition u8_bits (n : Z) : option Z := assert (wrap 8 n * 8 <? 256);; Some (wrap 8 n * 8).

Section emit.
(** With [strict], code generation also stops where compiled code is known to
    differ from the interpreter: at a shift by a constant of 128 or more
    ([ValProps.shr_by_128_diverges]), at the write of a memory operand that no
    command stores to, and where registers chosen at run time are written in
    one of two branches that join.  The source has no such checks ([strict] is
    [false]); what strict generation returns, the source returns. *)
Context `{Layout} (fuel : nat) (strict : bool).

(** ** Leaving compiled code *)

(** [usize::next_power_of_two] *)
Definition next_power_of_two (n : Z) : Z := if n <=? 1 then 1 else 2 ^ (Z.log2 (n - 1) + 1).

(** The bytes of a register of flags that have changed. *)
Fixpoint commit_flags (r : Reg) (flag_mask : Z) (y : ValId) (ns : list Z) : bm (list (CommitDest * ValId)) :=
  match ns with
  | [] => bret []
  | n :: ns =>
      here <~ (if negb (Z.land flag_mask (Z.shiftl 0xff (n * 8)) =? 0) then
                 let offset := wrap 16 (byte_offset_of r + n) in
                 val <~ extract fuel y (n * 8) 8;;
                 original <~ load_ptr_imm CpuState Byte offset;;
                 bret (if decide (val = original) then [] else [(CFixed Byte offset, val)])
               else bret []);;
      rest <~ commit_flags r flag_mask y ns;;
      bret (here ++ rest)
  end.

Definition is_flags (r : Reg) : bool := match r with Gp r => gp_is_flags r | X87 _ => false end.

Definition commit_reg (r : Reg) (y : ValId) : bm (list (CommitDest * ValId)) :=
  if is_flags r then commit_flags r (unwrap_or (reg_mask r) (2 ^ 64 - 1)) y (seqZ 0 8)
  else
    size <~ blift (try_from_bytes (byte_size r));;
    original_value <~ load_ptr_imm CpuState size (wrap 16 (byte_offset_of r));;
    updated_bytes <~ (fun b => blift (determine_updated_bytes_in (value_tree b) y original_value) b);;
    match updated_bytes with
    | Some n =>
        if n <=? byte_size r / 2 then
          let n := next_power_of_two n in
          bits <~ blift (u8_bits n);;
          sliced <~ extract fuel y 0 bits;;
          size <~ blift (try_from_bytes n);;
          bret [(CFixed size (wrap 16 (byte_offset_of r)), sliced)]
        else bret [(CReg r, y)]
    | None => bret [(CReg r, y)]
    end.

Definition commit_loc (x : UncommittedLoc * ValId) : bm (list (CommitDest * ValId)) :=
  match x.1 with
  | UReg r => commit_reg r x.2
  | UDynamic offset size _ => size <~ blift (try_from_bytes size);; bret [(CDynamic size offset, x.2)]
  end.

Definition commit_values_of (us : UncommittedState) : bm (list (CommitDest * ValId)) :=
  l <~ us_iter fuel us;;
  vs <~ bmap commit_loc (sorted l);;
  bret (concat vs).

Definition commit_and_exit (success : bool) (metadata : option Z) (last_jump_condition : option ValId) : em unit :=
  us <~~ get_us;;
  values <~~ value_of (fun _ => commit_values_of us);;
  on_cf (write_terminal (BCommitAndExit metadata values last_jump_condition (us_k us) success)).

Definition terminate_block_if_needed (metadata : option Z) (last_jump_condition : option ValId) : em unit :=
  t <~~ is_terminated;;
  if t : bool then eret tt else commit_and_exit true metadata last_jump_condition.

(** [emit_jump] of the builder: the state of the next block is that of the
    current one. *)
Definition emit_block_jump (next : BbId) : em unit := on_cf (write_terminal (BJump next)).

Section encoding.
Context (instr_len part_values : option Z) (encoding : Encoding) (is_cs32 : bool).
Context (protected_mode_memory_accesses : ValId) (initial_cpu_state : UncommittedState) (metadata : option Z).

(** The code of a path on which an exception leaves the instruction: the state
    from before the instruction is committed. *)
Definition exit_with_initial_state : em unit :=
  current_state <~~ get_us;;
  put_us initial_cpu_state ~>
  commit_and_exit false metadata None ~>
  put_us current_state.

Definition emit_fallible (op : BbFallible) : em unit :=
  current_state <~~ get_us;;
  fail_block <~~ new_block;;
  ok_block <~~ new_block;;
  on_cf (write_and_switch_to (BFallible op ok_block fail_block) fail_block) ~>
  put_us initial_cpu_state ~>
  commit_and_exit false metadata None ~>
  on_cf (switch_to ok_block) ~>
  put_us current_state.

Definition emit_exception (e : Exception) (code : ValId) : em unit :=
  on_cf (write_seq (SSetException e code)) ~> exit_with_initial_state.

Definition emit_reg (e : Emitter) (r : Reg) : bm ValId := get_or_compute fuel (em_us e) r.

(** ** Values *)

Inductive InstantiatedDest : Type :=
| DReg (r : Reg)
| DMemory (index : Z)
| DConst (v : Z)
| DPart (index : Z)
| DInstrLen.

Definition instantiate_dest (l : UnsizedParLoc) (apply_memory_imm_transformation : bool) : option InstantiatedDest :=
  match l with
  | LReg r => Some (DReg r)
  | LMem index => Some (DMemory index)
  | LPart index =>
      match part_values with
      | Some pv =>
          p ← arr_get (enc_parts encoding) index;
          match p with
          | Register mapping =>
              v ← part_get pv (enc_packing encoding) index; r ← arr_get mapping v; r ← r; Some (DReg r)
          | Imm mapping bits =>
              assert (negb bits);;
              v ← part_get pv (enc_packing encoding) index;
              match apply_memory_imm_transformation, mapping with
              | true, Some m => r ← mapping_compute m v; DConst <$> r
              | _, _ => Some (DConst v)
              end
          | MemoryComputation _ => None
          end
      | None => Some (DPart index)
      end
  | LInstrLen => Some (match instr_len with Some n => DConst n | None => DInstrLen end)
  | LConst n => Some (DConst n)
  end.

Definition emit_instr_len : bm ValId :=
  match instr_len with Some n => imm n | None => ValBuild.instr_len end.

(** [part_index_and_mapping] of [state.rs] *)
Definition part_bits (index : Z) : bm ValId :=
  pv <~ ValBuild.part_values;;
  packing <~ blift (arr_get (enc_packing encoding) index);;
  extract fuel pv (offset packing) (len packing).

(** The orders of bits that compiled code supports. *)
Definition bit_matches (signed negative little_endian : bool) (n index : Z) (bit : ImmBitOrder) : bool :=
  let pos := if little_endian then (n - 1 - index) / 8 * 8 + Z.land index 7 else index in
  let positive := if signed && (pos =? n - 1) then negative else negb negative in
  match bit with
  | Positive b => positive && (b =? pos)
  | Negative b => negb positive && (b =? pos)
  end.
Definition order_matches (order : list ImmBitOrder) (x : bool * bool * bool) : bool :=
  let '(signed, negative, little_endian) := x in
  forallb id (imap (fun i bit => bit_matches signed negative little_endian (Z.of_nat (length order)) (Z.of_nat i) bit) order).
Definition bit_order_kind (order : list ImmBitOrder) : option (bool * bool * bool) :=
  head (List.filter (order_matches order)
    [(false, false, false); (false, false, true); (true, false, false); (true, false, true);
     (false, true, false); (false, true, true); (true, true, false); (true, true, true)]).

Definition emit_bit_order (order : list ImmBitOrder) (part_val : ValId) : bm ValId :=
  let n := Z.of_nat (length order) in
  kind <~ blift (bit_order_kind order);;
  val <~ extract fuel part_val 0 (wrap 8 n);;
  val <~ (if kind.2 then
            match n with
            | 8 => bret val
            | 16 => unop ByteSwap16 val
            | 32 => unop ByteSwap32 val
            | 64 => unop ByteSwap64 val
            | _ => bpanic
            end
          else bret val);;
  val <~ (if kind.1.1 then unop (SignExtend (wrap 8 n)) val else bret val);;
  (if kind.1.2 then zero <~ imm 0;; binop fuel Sub zero val else bret val).

Definition emit_part (e : Emitter) (index : Z) (apply_memory_imm_transformation : bool) : bm ValId :=
  p <~ blift (arr_get (enc_parts encoding) index);;
  match p with
  | Imm mapping bits =>
      _ <~ blift (assert (negb bits));;
      part_val <~ part_bits index;;
      match apply_memory_imm_transformation, mapping with
      | true, Some (BitOrder order) => emit_bit_order order part_val
      | _, _ => bret part_val
      end
  | MemoryComputation _ => bpanic
  | Register mapping => i <~ part_bits index;; get_or_compute_dynamic fuel (em_us e) mapping i
  end.

Definition emit_par_loc (e : Emitter) (l : ParLoc) (apply_memory_imm_transformation : bool) : bm ValId :=
  d <~ blift (instantiate_dest (loc l) apply_memory_imm_transformation);;
  val <~ (match d with
          | DReg r => if decide (r = Gp Riz) then imm 0 else emit_reg e r
          | DMemory index => m <~ blift (arr_get (em_memory e) index);; bret (me_value m)
          | DPart index => emit_part e index apply_memory_imm_transformation
          | DInstrLen => emit_instr_len
          | DConst v => imm v
          end);;
  n <~ blift (num_bytes (size l));;
  start <~ blift (u8_bits (start_byte (size l)));;
  bits <~ blift (u8_bits n);;
  extract fuel val start bits.

Definition emit_swap (source_bits : Z) (val : ValId) : bm ValId :=
  match source_bits with
  | 8 => bret val
  | 16 => unop ByteSwap16 val
  | 32 => unop ByteSwap32 val
  | 64 => unop ByteSwap64 val
  | n =>
      _ <~ blift (assert (n <? 64));;
      val <~ unop ByteSwap64 val;;
      shift <~ imm (((64 - n) / 8) * 8);;
      binop fuel Shr val shift
  end.

Definition emit_val (e : Emitter) (v : Val) (apply_memory_imm_transformation : bool) : bm ValId :=
  match v with
  | VTemp n => blift (arr_get (em_tmp e) n)
  | VLoc l => emit_par_loc e l apply_memory_imm_transformation
  | VConv l source_bits target_bits sign_extend swap_endianness =>
      val <~ emit_par_loc e l false;;
      val <~ (if swap_endianness : bool then emit_swap source_bits val else bret val);;
      val <~ (if sign_extend : bool then
                n <~ blift (assert (source_bits <? 256);; Some source_bits);;
                unop (SignExtend n) val
              else bret val);;
      mask <~ blift (bitmask_u128 target_bits);;
      mask <~ imm mask;;
      binop fuel And val mask
  end.

Definition shift_in_range (op : BinOp) (n : ValNode) : bool :=
  match op, n with Shl, NConst c | Shr, NConst c => c <? 128 | _, _ => true end.
Definition check_shift (op : BinOp) (y : ValId) : bm unit :=
  if strict then n <~ node y;; blift (assert (shift_in_range op n)) else bret tt.

Definition emit_op (e : Emitter) (op : Op) : bm ValId :=
  match op with
  | OBin a b op =>
      a <~ emit_val e a false;; b <~ emit_val e b false;; _ <~ check_shift op b;; binop fuel op a b
  | OFpBin a b rc op =>
      a <~ emit_val e a false;; b <~ emit_val e b false;; rc <~ emit_val e rc false;; fp_binop op a b rc
  | OFpUn arg rc op =>
      a <~ emit_val e arg false;; rc <~ emit_val e rc false;; fp_unop op a rc
  | OUn arg op =>
      a <~ emit_val e arg false;; (if decide (op = Id) then bret a else unop op a)
  | OIte cond if_nonzero if_zero =>
      cond <~ emit_val e cond false;; if_nonzero <~ emit_val e if_nonzero false;;
      if_zero <~ emit_val e if_zero false;; ite fuel cond if_zero if_nonzero
  end.

Definition emit_store (to : Val) (new_val : ValId) : em unit := fun e =>
  match to with
  | VTemp n => t <~ blift (arr_set (em_tmp e) n new_val);; bret (tt, with_tmp e t)
  | VLoc l =>
      d <~ blift (instantiate_dest (loc l) false);;
      match d with
      | DReg r =>
          old_val <~ emit_reg e r;;
          combined <~ combine_old_and_new fuel old_val new_val (size l);;
          us <~ store_reg fuel (em_us e) r combined;;
          bret (tt, with_us e us)
      | DMemory index =>
          m <~ blift (arr_get (em_memory e) index);;
          combined <~ combine_old_and_new fuel (me_value m) new_val (size l);;
          l <~ blift (arr_set (em_memory e) index (me_with_value m combined true));;
          bret (tt, with_memory e l)
      | DPart index =>
          p <~ blift (arr_get (enc_parts encoding) index);;
          match p with
          | Register mapping =>
              old_val <~ emit_part e index false;;
              combined <~ combine_old_and_new fuel old_val new_val (size l);;
              i <~ part_bits index;;
              us <~ store_dynamic fuel (em_us e) mapping i combined;;
              bret (tt, with_us e us)
          | _ => bpanic
          end
      | DInstrLen | DConst _ => bpanic
      end
  | VConv _ _ _ _ _ => bpanic
  end.

(** ** The next instruction pointer *)

Fixpoint emit_vals (e : Emitter) (l : list Val) : bm (list ValId) :=
  match l with
  | [] => bret []
  | v :: l => x <~ emit_val e v false;; xs <~ emit_vals e l;; bret (x :: xs)
  end.
Definition reduce_add (l : list ValId) : bm ValId :=
  match l with [] => bpanic | x :: l => bfold (fun y acc => binop fuel Add acc y) l x end.

(** The condition, the new value and whether the upper half is cleared. *)
Definition emit_jump_value (e : Emitter) : bm (option (option ValId * ValId * bool)) :=
  match enc_jump encoding with
  | Sequential =>
      ip <~ emit_reg e (Gp Ip);;
      instr_len <~ emit_instr_len;;
      new_val <~ binop fuel Add ip instr_len;;
      bret (Some (None, new_val, false))
  | Repeat condition =>
      condition <~ emit_val e condition false;;
      ip <~ emit_reg e (Gp Ip);;
      instr_len <~ emit_instr_len;;
      next_instr <~ binop fuel Add ip instr_len;;
      new_val <~ ite fuel condition next_instr ip;;
      bret (Some (Some condition, new_val, false))
  | NearRelativeOffset condition offset =>
      condition <~ emit_val e condition false;;
      offset <~ emit_vals e offset;;
      offset <~ reduce_add offset;;
      ip <~ emit_reg e (Gp Ip);;
      instr_len <~ emit_instr_len;;
      next_instr_false <~ binop fuel Add ip instr_len;;
      next_instr_true <~ binop fuel Add next_instr_false offset;;
      new_val <~ ite fuel condition next_instr_false next_instr_true;;
      bret (Some (Some condition, new_val, true))
  | NearAbsolute v => new_val <~ emit_val e v false;; bret (Some (None, new_val, true))
  | Far => bret None
  end.

Definition emit_jump : em (option ValId) :=
  r <~~ value_of emit_jump_value;;
  match r with
  | None => eret None
  | Some (condition, new_val, clear_upper) =>
      new_val <~~ value_of (fun _ => extract fuel new_val 0 (if is_cs32 then 32 else 16));;
      emit_store (VLoc {| loc := LReg (Gp Ip);
                          size := {| start_byte := 0; end_byte := if is_cs32 || clear_upper then 3 else 1 |} |})
        new_val ~>
      eret condition
  end.

(** ** Memory operands *)

(** The registers next to a segment base. *)
Definition segment_regs (seg_base : GpReg) : option (GpReg * GpReg * GpReg) :=
  match seg_base with
  | CsBase => Some (Cs, CsAr, CsLimit)
  | DsBase => Some (Ds, DsAr, DsLimit)
  | SsBase => Some (Ss, SsAr, SsLimit)
  | EsBase => Some (Es, EsAr, EsLimit)
  | FsBase => Some (Fs, FsAr, FsLimit)
  | GsBase => Some (Gs, GsAr, GsLimit)
  | _ => None
  end.
Definition segment_info_of (e : Emitter) (seg_base : GpReg) : bm SegmentInfo :=
  regs <~ blift (segment_regs seg_base);;
  selector <~ emit_reg e (Gp regs.1.1);;
  access_rights <~ emit_reg e (Gp regs.1.2);;
  limit <~ emit_reg e (Gp regs.2);;
  bret {| seg_selector := selector; seg_access_rights := access_rights; seg_limit := limit |}.

Definition is_segment_base_reg (r : Reg) : bool := match r with Gp r => is_segment_base r | X87 _ => false end.

(** The segment of a part that is chosen at run time: its registers lie next
    to its base. *)
Definition segment_info_of_part (mapping : list (option Reg)) (part_index : Z) : bm SegmentInfo :=
  c <~ blift (compute_const_scale_offset mapping);;
  match c with
  | None => bpanic
  | Some (const_scale, const_offset) =>
      part_bits_value <~ part_bits part_index;;
      const_offset <~ imm (wrap 64 const_offset);;
      const_scale <~ imm const_scale;;
      offset <~ binop fuel Mul const_scale part_bits_value;;
      eight <~ imm 8;;
      base_offset <~ binop fuel Add const_offset offset;;
      selector_offset <~ binop fuel Sub base_offset eight;;
      ar_offset <~ binop fuel Add base_offset eight;;
      limit_offset <~ binop fuel Add ar_offset eight;;
      selector <~ load_ptr_offset CpuState Dword selector_offset;;
      access_rights <~ load_ptr_offset CpuState Qword ar_offset;;
      limit <~ load_ptr_offset CpuState Dword limit_offset;;
      bret {| seg_selector := selector; seg_access_rights := access_rights; seg_limit := limit |}
  end.

Definition segment_of_input (e : Emitter) (input : ParLoc) : bm (option SegmentInfo) :=
  match loc input with
  | LReg (Gp r) => if is_segment_base r then s <~ segment_info_of e r;; bret (Some s) else bret None
  | LPart part_index =>
      p <~ blift (arr_get (enc_parts encoding) part_index);;
      match p, part_values with
      | Register mapping, Some pv =>
          v <~ blift (part_get pv (enc_packing encoding) part_index);;
          r <~ blift (r ← arr_get mapping v; r);;
          match r with
          | Gp r => if is_segment_base r then s <~ segment_info_of e r;; bret (Some s) else bret None
          | X87 _ => bret None
          end
      | Register mapping, None =>
          if forallb is_segment_base_reg (omap id mapping) then
            s <~ segment_info_of_part mapping part_index;; bret (Some s)
          else if forallb (fun r => negb (is_segment_base_reg r)) (omap id mapping) then bret None
          else bpanic
      | _, _ => bret None
      end
  | _ => bret None
  end.
Fixpoint find_segment (e : Emitter) (inputs : list ParLoc) (index : nat) : bm (option (nat * SegmentInfo)) :=
  match inputs with
  | [] => bret None
  | input :: inputs =>
      s <~ segment_of_input e input;;
      match s with
      | Some s => bret (Some (index, s))
      | None => find_segment e inputs (S index)
      end
  end.

Definition is_power_of_two (n : Z) : bool := (0 <? n) && (n =? 2 ^ Z.log2 n).

Definition emit_term (term : AddrTermCalculation) (val : ValId) : bm ValId :=
  let influence := AddrTermSize.max_bit_influence (term_size term) in
  val <~ (if AddrTermSize.is_signed (term_size term) then unop (SignExtend influence) val
          else mask <~ blift (bitmask_u128 influence);; mask <~ imm mask;; binop fuel And val mask);;
  val <~ (if negb (right (term_shift term) =? 0) then
            shift <~ imm (right (term_shift term));; binop fuel Shr val shift
          else bret val);;
  let mult := mult (term_shift term) in
  if negb (mult =? 1) then
    if is_power_of_two mult then shift <~ imm (trailing_zeros 16 mult);; binop fuel Shl val shift
    else m <~ imm mult;; binop fuel Mul val m
  else bret val.

(** The loop of [prepare_memory_entry]: the sum of the terms so far apart from
    the base, and the base. *)
Fixpoint sum_terms (e : Emitter) (base_index : option nat) (index : nat) (inputs : list ParLoc)
    (terms : list AddrTerm) (base offset : option ValId) : bm (option ValId * option ValId) :=
  match inputs, terms with
  | input :: inputs, term :: terms =>
      val <~ emit_val e (VLoc input) true;;
      prim <~ emit_term (primary term) val;;
      sum <~ (match second_use term with
              | Some term => second <~ emit_term term val;; binop fuel Add prim second
              | None => bret prim
              end);;
      if decide (Some index = base_index) then sum_terms e base_index (S index) inputs terms (Some sum) offset
      else
        sum <~ (match offset with Some offset => binop fuel Add sum offset | None => bret sum end);;
        sum_terms e base_index (S index) inputs terms base (Some sum)
  | _, _ => bret (base, offset)
  end.

Definition prepare_memory_entry (e : Emitter) (computation : AddressComputation) (access : MemoryAccess)
    (base_index_and_seg_info : option (nat * SegmentInfo)) : bm MemEntry :=
  r <~ sum_terms e (fst <$> base_index_and_seg_info) 0 (inputs access) (terms computation) None None;;
  base <~ blift r.1;;
  offset <~ blift r.2;;
  const_offset <~ imm (wrap 128 (addr_offset computation));;
  offset <~ binop fuel Add offset const_offset;;
  offset_mask <~ blift (bitmask_u128 (AddrSize.num_bits (addr_size computation)));;
  offset_mask <~ imm offset_mask;;
  offset <~ binop fuel And offset offset_mask;;
  addr <~ binop fuel Add base offset;;
  addr <~ extract fuel addr 0 32;;
  value <~ imm 0;;
  bret {| me_var := None; me_value := value; me_seg_info := snd <$> base_index_and_seg_info; me_addr := addr;
          me_segchecked := false; me_needs_write := false; me_num_bytes := access_size_end access |}.

Definition computation_of (access : MemoryAccess) : option AddressComputation :=
  match calculation access with
  | FromPart part_index =>
      pv ← part_values;
      p ← arr_get (enc_parts encoding) part_index;
      match p with
      | MemoryComputation mapping => v ← part_get pv (enc_packing encoding) part_index; c ← arr_get mapping v; c
      | _ => None
      end
  | Calculation c => Some c
  end.

(** [ArrayVec<MemEntry, 16>] *)
Definition emit_memory_access (access : MemoryAccess) : em unit :=
  seg <~~ value_of (fun e => find_segment e (inputs access) 0);;
  computation <~~ elift (computation_of access);;
  entry <~~ value_of (fun e => prepare_memory_entry e computation access seg);;
  (fun e => _ <~ blift (assert (length (em_memory e) <? 16)%nat);; bret (tt, with_memory e (em_memory e ++ [entry]))).
Fixpoint emit_memory_accesses (l : list MemoryAccess) : em unit :=
  match l with
  | [] => eret tt
  | access :: l => emit_memory_access access ~> emit_memory_accesses l
  end.

Definition get_entry (index : Z) : em MemEntry :=
  fun e => m <~ blift (arr_get (em_memory e) index);; bret (m, e).
Definition set_entry (index : Z) (m : MemEntry) : em unit :=
  fun e => l <~ blift (arr_set (em_memory e) index m);; bret (tt, with_memory e l).

Definition emit_memory_segcheck (m : MemEntry) (base : SegmentInfo) : em unit :=
  everything_ok <~~ new_block;;
  check_block <~~ new_block;;
  selector_ok_block <~~ new_block;;
  on_cf (write_and_switch_to (BBr protected_mode_memory_accesses selector_ok_block check_block) check_block) ~>
  (selector_null_block <~~ new_block;;
   selector_index <~~ value_of (fun _ => mask <~ imm 0xfff8;; binop fuel And (seg_selector base) mask);;
   on_cf (write_and_switch_to (BBr selector_index selector_null_block selector_ok_block) selector_null_block) ~>
   (code <~~ value_of (fun _ => imm 0);;
    emit_exception (GeneralProtectionFault 0) code ~>
    on_cf (switch_to selector_ok_block) ~>
    (is_out_of_range <~~ value_of (fun _ =>
       effective_start <~ extract fuel (seg_access_rights base) 32 32;;
       effective_offset <~ binop fuel Sub (me_addr m) effective_start;;
       effective_offset <~ extract fuel effective_offset 0 32;;
       binop fuel CmpGt effective_offset (seg_limit base));;
     throw_exception <~~ new_block;;
     on_cf (write_and_switch_to (BBr is_out_of_range everything_ok throw_exception) throw_exception) ~>
     (code <~~ value_of (fun _ => imm 0);;
      emit_exception (GeneralProtectionFault 0) code ~>
      on_cf (switch_to everything_ok))))).

Definition u8_of (n : Z) : option Z := assert ((0 <=? n) && (n <? 256));; Some n.

Definition emit_read_memory (index : Z) : em unit :=
  m <~~ get_entry index;;
  (match me_seg_info m with
   | Some seg_info => if me_segchecked m then eret tt else set_entry index (me_checked m) ~> emit_memory_segcheck m seg_info
   | None => eret tt
   end) ~>
  (value <~~ alloc_var;;
   n <~~ elift (u8_of (me_num_bytes m));;
   emit_fallible (FReadMemory value (me_addr m) n) ~>
   (v <~~ value_of (fun _ => use_var value);;
    m <~~ get_entry index;;
    set_entry index (me_with_var m value v))).

Definition emit_write_memory (index : Z) : em unit :=
  m <~~ get_entry index;;
  if me_needs_write m then
    n <~~ elift (u8_of (me_num_bytes m));;
    emit_fallible (FWriteMemory (me_value m) (me_addr m) n)
  else elift (assert (negb strict)).

(** ** Saving and merging what branches do *)

Record Backup := {
  bk_cpu_state : UncommittedState;
  bk_tmp : list ValId;
  bk_memory : list (ValId * bool);
}.

Definition backup_make : em Backup := fun e =>
  bret ({| bk_cpu_state := em_us e; bk_tmp := em_tmp e;
           bk_memory := (fun m => (me_value m, me_needs_write m)) <$> em_memory e |}, e).

Fixpoint restore_memory (l : list MemEntry) (b : list (ValId * bool)) : list MemEntry :=
  match l, b with
  | m :: l, x :: b => me_with_value m x.1 x.2 :: restore_memory l b
  | l, _ => l
  end.
Definition backup_restore (b : Backup) : em unit := fun e =>
  bret (tt, {| em_cf := em_cf e; em_next_var := em_next_var e; em_us := bk_cpu_state b; em_tmp := bk_tmp b;
               em_memory := restore_memory (em_memory e) (bk_memory b) |}).

(** Values of temporaries or memory operands that differ become variables. *)
Definition Updates : Type := list (VarId * ValId).
Definition merge_one (z nz : ValId) (s : Updates * Updates * Z) : bm (ValId * (Updates * Updates * Z)) :=
  let '(zs, nzs, next_var) := s in
  if decide (z = nz) then bret (nz, s)
  else v <~ use_var next_var;; bret (v, (zs ++ [(next_var, z)], nzs ++ [(next_var, nz)], next_var + 1)).

Fixpoint merge_tmp (z nz : list ValId) (s : Updates * Updates * Z) : bm (list ValId * (Updates * Updates * Z)) :=
  match z, nz with
  | x :: z, y :: nz =>
      r <~ merge_one x y s;; rs <~ merge_tmp z nz r.2;; bret (r.1 :: rs.1, rs.2)
  | _, _ => bret ([], s)
  end.
Fixpoint merge_memory (l : list MemEntry) (z nz : list (ValId * bool)) (s : Updates * Updates * Z)
    : bm (list MemEntry * (Updates * Updates * Z)) :=
  match l, z, nz with
  | m :: l, x :: z, y :: nz =>
      r <~ merge_one x.1 y.1 s;;
      rs <~ merge_memory l z nz r.2;;
      bret (me_with_value m r.1 (x.2 || y.2) :: rs.1, rs.2)
  | l, _, _ => bret (l, s)
  end.

Definition same_keys (z nz : UncommittedState) : bool := bool_decide ((dynamic z).*1 = (dynamic nz).*1).
Definition backup_merge (z nz : Backup) : em (Updates * Updates) := fun e =>
  _ <~ blift (assert (negb strict || same_keys (bk_cpu_state z) (bk_cpu_state nz)));;
  uc <~ merge_n fuel [bk_cpu_state z; bk_cpu_state nz] (em_next_var e);;
  stores <~ blift (match uc.2.1 with [zs; nzs] => Some (zs, nzs) | _ => None end);;
  tmp <~ merge_tmp (bk_tmp z) (bk_tmp nz) (stores, uc.2.2);;
  mem <~ merge_memory (em_memory e) (bk_memory z) (bk_memory nz) tmp.2;;
  bret (mem.2.1, {| em_cf := em_cf e; em_next_var := mem.2.2; em_us := uc.1; em_tmp := tmp.1; em_memory := mem.1 |}).

(** ** Commands *)

(** [emit_commands]: whether a command is the last one. *)
Definition emit_list (f : Cmd -> bool -> em unit) : list Cmd -> bool -> em unit :=
  fix go l last :=
    match l with
    | [] => eret tt
    | c :: l => f c (last && match l with [] => true | _ => false end) ~> go l last
    end.

(** The end of a branch after which nothing is emitted. *)
Definition end_branch : em unit :=
  t <~~ is_terminated;;
  last_jump_condition <~~ (if t : bool then eret None else emit_jump);;
  terminate_block_if_needed metadata last_jump_condition.

(** [If] when one branch ends the instruction: code goes on after the other. *)
Definition emit_one_sided (terminating continuing : em unit) (continuing_block : BbId) : em unit :=
  before <~~ backup_make;;
  terminating ~>
  backup_restore before ~>
  on_cf (switch_to continuing_block) ~>
  continuing ~>
  (t <~~ is_terminated;; elift (assert (negb t))).

(** [If] when both branches go on. *)
Definition emit_joined (cond : ValId) (if_zero if_nonzero : em unit) (if_zero_block if_nonzero_block : BbId) : em unit :=
  after_if_zero_block <~~ new_block;;
  after_if_nonzero_block <~~ new_block;;
  after_if_block <~~ new_block;;
  before <~~ backup_make;;
  on_cf (write_and_switch_to (BBr cond if_zero_block if_nonzero_block) if_zero_block) ~>
  if_zero ~>
  (t <~~ is_terminated;;
   on_cf (if t : bool then switch_to if_nonzero_block
          else write_and_switch_to (BJump after_if_zero_block) if_nonzero_block) ~>
   (after_if_zero <~~ backup_make;;
    backup_restore before ~>
    if_nonzero ~>
    (t <~~ is_terminated;;
     on_cf (if t : bool then switch_to after_if_zero_block
            else write_and_switch_to (BJump after_if_nonzero_block) after_if_zero_block) ~>
     (after_if_nonzero <~~ backup_make;;
      updates <~~ backup_merge after_if_zero after_if_nonzero;;
      on_cf (write_and_switch_to (BSeq (SStore updates.1) after_if_block) after_if_nonzero_block) ~>
      on_cf (write_and_switch_to (BSeq (SStore updates.2) after_if_block) after_if_block))))).

Definition emit_if (cond : ValId) (z_terminates nz_terminates last : bool) (if_zero if_nonzero : em unit) : em unit :=
  if_zero_block <~~ new_block;;
  if_nonzero_block <~~ new_block;;
  if last || (z_terminates && nz_terminates) then
    on_cf (write_and_switch_to (BBr cond if_zero_block if_nonzero_block) if_zero_block) ~>
    (before <~~ backup_make;;
     if_zero ~> end_branch ~>
     backup_restore before ~>
     on_cf (switch_to if_nonzero_block) ~>
     if_nonzero ~> end_branch ~>
     (after_if_block <~~ new_block;; on_cf (switch_to after_if_block)))
  else if z_terminates then
    on_cf (write_and_switch_to (BBr cond if_zero_block if_nonzero_block) if_zero_block) ~>
    emit_one_sided if_zero if_nonzero if_nonzero_block
  else if nz_terminates then
    on_cf (write_and_switch_to (BBr cond if_zero_block if_nonzero_block) if_nonzero_block) ~>
    emit_one_sided if_nonzero if_zero if_zero_block
  else emit_joined cond if_zero if_nonzero if_zero_block if_nonzero_block.

(** The two arguments of a handler; a missing one is the constant zero. *)
Definition two_args (args : list Val) : list Val := take 2 (args ++ [const_val 0; const_val 0]).

Fixpoint emit_cmd (c : Cmd) (last : bool) : em unit :=
  match c with
  | Store to op => val <~~ value_of (fun e => emit_op e op);; emit_store to val
  | StoreDynamicReg regs index value size =>
      index <~~ value_of (fun e => emit_val e index false);;
      new_val <~~ value_of (fun e => emit_val e value false);;
      old_val <~~ value_of (fun e => get_or_compute_dynamic fuel (em_us e) regs index);;
      combined <~~ value_of (fun _ => combine_old_and_new fuel old_val new_val size);;
      set_us (fun us => store_dynamic fuel us regs index combined)
  | LoadDynamicReg regs index into size =>
      index <~~ value_of (fun e => emit_val e index false);;
      val <~~ value_of (fun e => get_or_compute_dynamic fuel (em_us e) regs index);;
      n <~~ elift (num_bytes size);;
      start <~~ elift (u8_bits (start_byte size));;
      bits <~~ elift (u8_bits n);;
      val <~~ value_of (fun _ => extract fuel val start bits);;
      emit_store into val
  | Log => on_cf (write_seq SLog)
  | CIf val if_zero if_nonzero =>
      cond <~~ value_of (fun e => emit_val e val false);;
      emit_if cond (all_paths_terminate if_zero) (all_paths_terminate if_nonzero) last
        (emit_list emit_cmd if_zero last) (emit_list emit_cmd if_nonzero last)
  | CException exception code =>
      code <~~ value_of (fun e => emit_val e code false);;
      emit_exception exception code
  | Handler id args =>
      elift (assert (length args <=? 2)%nat) ~>
      (args <~~ value_of (fun e => emit_vals e (two_args args));;
       match args with
       | [arg0; arg1] =>
           on_cf (write_seq (SSetHandler id arg0 arg1)) ~>
           (last_jump_condition <~~ emit_jump;;
            commit_and_exit false metadata last_jump_condition)
       | _ => elift None
       end)
  | ReadDescriptor force selector ok base limit access_rights mark_accessed =>
      ok_var <~~ alloc_var;;
      base_var <~~ alloc_var;;
      limit_var <~~ alloc_var;;
      ar_var <~~ alloc_var;;
      selector <~~ value_of (fun e => emit_val e selector false);;
      emit_fallible (FReadDescriptor selector force mark_accessed ok_var base_var limit_var ar_var) ~>
      (ok_var <~~ value_of (fun _ => use_var ok_var);;
       base_var <~~ value_of (fun _ => use_var base_var);;
       limit_var <~~ value_of (fun _ => use_var limit_var);;
       ar_var <~~ value_of (fun _ => use_var ar_var);;
       emit_store ok ok_var ~> emit_store base base_var ~> emit_store limit limit_var ~>
       emit_store access_rights ar_var)
  | Out len port data =>
      port <~~ value_of (fun e => emit_val e port false);;
      data <~~ value_of (fun e => emit_val e data false);;
      len <~~ elift (u8_of len);;
      emit_fallible (FPortOut port data len)
  | In len port data =>
      port <~~ value_of (fun e => emit_val e port false);;
      var <~~ alloc_var;;
      len <~~ elift (u8_of len);;
      emit_fallible (FPortIn port var len) ~>
      (val <~~ value_of (fun _ => use_var var);; emit_store data val)
  | ReadMemory index => emit_read_memory index
  | WriteMemory index => emit_write_memory index
  end.

Definition emit_commands : Commands -> bool -> em unit := emit_list emit_cmd.

Definition increment_k : em unit := set_us (us_increment_k fuel).
End encoding.

(** ** Whole encodings *)

(** The emitter of an encoding: the temporaries are zero, and there are no
    memory operands yet. *)
Definition start_encoding (zero : ValId) : em unit := fun e =>
  bret (tt, {| em_cf := em_cf e; em_next_var := em_next_var e; em_us := em_us e;
               em_tmp := replicate MAX_TEMP_VARS zero; em_memory := [] |}).

Definition emit_encoding (instr_len part_values : option Z) (encoding : Encoding) (is_cs32 : bool)
    (metadata : option Z) (protected_mode : ValId) (is_last : bool) : em (option ValId) :=
  initial <~~ get_us;;
  increment_k ~>
  emit_memory_accesses instr_len part_values encoding (enc_addresses encoding) ~>
  emit_commands instr_len part_values encoding is_cs32 protected_mode initial metadata (enc_commands encoding) is_last ~>
  emit_jump instr_len part_values encoding is_cs32.

Definition emit_encoding_without_jump (protected_mode_memory_accesses : bool) (entry : EncodingEntry)
    (bb : BbId) (is_last : bool) : em (option ValId) :=
  on_cf (switch_to bb) ~>
  (zero <~~ value_of (fun _ => imm 0);;
   protected_mode <~~ value_of (fun _ => imm (b2z protected_mode_memory_accesses));;
   start_encoding zero ~>
   (_ <~~ value_of (fun e => emit_reg e (Gp Ip));;
    emit_encoding (Some (ee_instr_len entry)) (Some (ee_part_values entry)) (ee_encoding entry)
      (ee_is_cs32 entry) (ee_metadata entry) protected_mode is_last)).

Fixpoint create_blocks {A} (l : list A) : em (list BbId) :=
  match l with
  | [] => eret []
  | _ :: l => b <~~ new_block;; bs <~~ create_blocks l;; eret (b :: bs)
  end.

(** The instructions one after the other; the result is the metadata and the
    jump condition of the last one. *)
Fixpoint emit_sequence (protected_mode : bool) (items : list (EncodingEntry * BbId)) : em (option Z * option ValId) :=
  match items with
  | [] => elift None
  | [(entry, block)] =>
      emit_block_jump block ~>
      (c <~~ emit_encoding_without_jump protected_mode entry block true;; eret (ee_metadata entry, c))
  | (entry, block) :: items =>
      emit_block_jump block ~>
      emit_encoding_without_jump protected_mode entry block false ~>
      emit_sequence protected_mode items
  end.

Record Mir := { mir_value_tree : list ValNode; mir_control_flow : list Bb }.

Definition new_emitter : Emitter :=
  {| em_cf := bb_new; em_next_var := 0; em_us := us_default; em_tmp := []; em_memory := [] |}.

(** [finish], without [BbGraph::optimize] *)
Definition finish (e : Emitter) (b : ValBuilder) : option Mir :=
  t ← block_is_terminated (em_cf e);
  assert (t : bool);;
  g ← bb_build (value_tree b) (bb_graph (em_cf e));
  Some {| mir_value_tree := value_tree b; mir_control_flow := g |}.

Definition run_builder (m : em unit) : option Mir :=
  '((_, e), b) ← m new_emitter builder_new; finish e b.

Definition build_from_sequence (protected_mode_memory_accesses : bool) (items : list EncodingEntry) : option Mir :=
  run_builder
    (blocks <~~ create_blocks items;;
     last <~~ emit_sequence protected_mode_memory_accesses (zip items blocks);;
     terminate_block_if_needed last.1 last.2).

Definition build_from_uninstantiated_encoding (encoding : Encoding) (protected_mode_memory_accesses is_cs32 : bool)
    : option Mir :=
  run_builder
    (main_block <~~ new_block;;
     emit_block_jump main_block ~>
     on_cf (switch_to main_block) ~>
     (zero <~~ value_of (fun _ => imm 0);;
      protected_mode <~~ value_of (fun _ => imm (b2z protected_mode_memory_accesses));;
      start_encoding zero ~>
      (last_jump_condition <~~ emit_encoding None None encoding is_cs32 None protected_mode true;;
       terminate_block_if_needed None last_jump_condition))).
End emit.
