(* ===== verification/MirSpec.v ===== *)
(** * Specifications of code generation

    What a computation on a value builder guarantees when it returns: the graph
    is extended, it stays well-formed, and a condition on the result holds.
    The rules below follow the structure of the computations. *)
From S2P Require Import Prelude IlOps Arch IlLoc ValTree ValBuild ValSpec ValSound ValCombine ValMono CpuBytes Mir MirState.

#[local] Open Scope bm_scope.

Definition spec {T} (m : bm T) (b : ValBuilder) (R : ValBuilder -> T -> Prop) : Prop :=
  wf b -> forall t b', m b = Some (t, b') -> extends b b' /\ wf b' /\ R b' t.

Lemma wf_new : wf builder_new.
Proof. by split. Qed.

(** A node with the value [v]. *)
Definition node_is (v : Env -> Z) (b : ValBuilder) (id : ValId) : Prop :=
  valid b id /\ forall E, env_ok E -> den E b id = v E.

#[export] Instance extends_preorder : PreOrder extends.
Proof. split; [exact extends_refl|exact extends_trans]. Qed.

Create HintDb mir.
#[export] Hint Resolve extends_refl extends_valid : mir.
#[export] Hint Extern 5 (extends ?b ?b') =>
  match goal with
  | H : extends b ?c |- _ => first [exact H | is_var c; apply (extends_trans b c b' H)]
  end : mir.

Section rules.
Context {T U : Type}.

Lemma spec_ret (x : T) b (R : ValBuilder -> T -> Prop) : (wf b -> R b x) -> spec (bret x) b R.
Proof. intros H Hb t b' E. injection E as <- <-. auto with mir. Qed.

Lemma spec_weaken (m : bm T) b (R R' : ValBuilder -> T -> Prop) :
  spec m b R -> (forall b' t, extends b b' -> wf b' -> R b' t -> R' b' t) -> spec m b R'.
Proof. intros H Hw Hb t b' E. destruct (H Hb t b' E) as (Hx & Hb' & HR). auto. Qed.

Lemma spec_bind (m : bm T) (k : T -> bm U) b (R : ValBuilder -> T -> Prop) (R' : ValBuilder -> U -> Prop) :
  spec m b R -> (forall b' t, extends b b' -> wf b' -> R b' t -> spec (k t) b' R') ->
  spec (x <~ m;; k x) b R'.
Proof.
  intros Hm Hk Hb t b2 E. unfold bbind in E. destruct (m b) as [[x b1]|] eqn:E1; [|done]. cbn [mbind option_bind] in E.
  destruct (Hm Hb x b1 E1) as (Hx & Hb1 & HR). destruct (Hk b1 x Hx Hb1 HR Hb1 t b2 E) as (Hx2 & Hb2 & HR2).
  split; [by transitivity b1|done].
Qed.

Lemma spec_lift (o : option T) (k : T -> bm U) b (R : ValBuilder -> U -> Prop) :
  (forall x, o = Some x -> spec (k x) b R) -> spec (x <~ blift o;; k x) b R.
Proof.
  intros H Hb t b' E. unfold bbind, blift in E. destruct o as [x|]; [|done]. by apply (H x).
Qed.

Lemma spec_lift_ret (o : option T) b (R : ValBuilder -> T -> Prop) :
  (forall x, o = Some x -> R b x) -> spec (blift o) b R.
Proof. intros H Hb t b' E. unfold blift in E. destruct o as [x|]; [|done]. injection E as <- <-. auto with mir. Qed.

Lemma spec_panic b (R : ValBuilder -> T -> Prop) : spec bpanic b R.
Proof. by intros Hb t b' E. Qed.

Lemma spec_wf (m : bm T) b (R : ValBuilder -> T -> Prop) : (wf b -> spec m b R) -> spec m b R.
Proof. intros H Hb. by apply H. Qed.
End rules.

(** ** Loops *)

Lemma spec_bfold {A S} (f : A -> S -> bm S) (l : list A) (s : S) b (I : list A -> ValBuilder -> S -> Prop) :
  I l b s ->
  (forall x l b s, I (x :: l) b s -> wf b -> spec (f x s) b (I l)) ->
  spec (bfold f l s) b (I []).
Proof.
  intros HI Hstep. revert s b HI. induction l as [|x l IH]; intros s b HI; [by apply spec_ret|].
  cbn [bfold]. apply spec_wf. intros Hb. eapply spec_bind; [by apply Hstep|]. intros b' t Hx Hb' Ht. by apply IH.
Qed.

(** A condition on every element, which later extensions keep. *)
Lemma spec_bmap {A B} (f : A -> bm B) (l : list A) b (R : A -> ValBuilder -> B -> Prop) :
  (forall x b b' y, R x b y -> extends b b' -> wf b' -> R x b' y) ->
  (forall x b', x ∈ l -> extends b b' -> wf b' -> spec (f x) b' (R x)) ->
  spec (bmap f l) b (fun b' ys => Forall2 (fun x y => R x b' y) l ys).
Proof.
  intros Hmono. revert b. induction l as [|x l IH]; intros b Hf; [apply spec_ret; constructor|].
  cbn [bmap]. apply spec_wf. intros Hb.
  eapply spec_bind; [apply Hf; [apply elem_of_cons; by left|reflexivity|done]|]. intros b1 y Hx1 Hb1 Hy.
  eapply spec_bind; [apply IH; intros z b' Hz Hx' Hb'; apply Hf; [apply elem_of_cons; by right|by transitivity b1|done]|].
  intros b2 ys Hx2 Hb2 Hys. apply spec_ret. intros _. constructor; [by apply (Hmono x b1)|done].
Qed.

(** ** Values *)

Lemma spec_yields m b v : (wf b -> yields m b v) -> spec m b (node_is v).
Proof. intros H Hb id b' E. destruct (H Hb id b' E) as (? & ? & ? & ?). do 2 (split; [done|]). by split. Qed.

Lemma node_is_valid v b id : node_is v b id -> valid b id.
Proof. by intros []. Qed.
#[export] Hint Resolve node_is_valid : mir.

Lemma node_is_den v b id E : node_is v b id -> env_ok E -> den E b id = v E.
Proof. intros [_ H] HE. by apply H. Qed.

Lemma den_later E b b' id : extends b b' -> valid b id -> den E b' id = den E b id.
Proof. apply extends_den. Qed.

Lemma node_is_later v b b' id : extends b b' -> node_is v b id -> node_is v b' id.
Proof. intros Hx [Hv Hd]. split; [by apply (extends_valid b)|]. intros E HE. rewrite (den_later E b b') by done. by apply Hd. Qed.

Lemma spec_imm c b : inw 128 c -> spec (imm c) b (node_is (fun _ => c)).
Proof. intros Hc. apply spec_yields. intros Hb. by apply imm_yields. Qed.

Lemma spec_binop fuel op x y b :
  valid b x -> valid b y -> shift_ok b op y ->
  spec (binop fuel op x y) b (node_is (fun E => binop_value op (den E b x) (den E b y))).
Proof. intros. apply spec_yields. intros. by apply binop_yields. Qed.

(** Operators other than shifts. *)
Lemma no_shift b op y : op <> Shl -> op <> Shr -> shift_ok b op y.
Proof. by intros H1 H2 [?|?]. Qed.
#[export] Hint Extern 1 (shift_ok _ _ _) => by apply no_shift : mir.

Lemma spec_ite fuel c z nz b :
  valid b c -> valid b z -> valid b nz ->
  spec (ite fuel c z nz) b (node_is (fun E => ite_value (den E b c) (den E b z) (den E b nz))).
Proof. intros. apply spec_yields. intros. by apply ite_yields. Qed.

Lemma spec_extract fuel v skip take b :
  valid b v -> 0 <= skip -> 1 <= take -> skip + take <= 128 ->
  spec (extract fuel v skip take) b (node_is (fun E => extract_value (den E b v) skip take)).
Proof. intros. apply spec_yields. intros. by apply extract_yields. Qed.

Lemma spec_combine fuel old new sz b :
  valid b old -> valid b new -> in_range 16 sz ->
  spec (combine_old_and_new fuel old new sz) b
    (node_is (fun E => set_field (bit_off sz) (bit_len sz) (den E b new) (den E b old))).
Proof. intros. apply spec_yields. intros. by apply combine_yields. Qed.

Lemma spec_unop op x b : valid b x -> spec (unop op x) b (node_is (fun E => unop_value op (den E b x))).
Proof. intros. apply spec_yields. intros. by apply unop_yields. Qed.

Lemma spec_insert n b :
  Forall (valid b) (referenced_nodes n) -> node_ok (value_tree b) n ->
  spec (get_or_insert n) b (node_is (fun E => eval_node E (denote E (value_tree b)) n)).
Proof. intros. apply spec_yields. intros. by apply insert_yields. Qed.

Lemma spec_load ptr size offset b :
  0 <= offset -> offset + ds_num_bytes size <= 2 ^ 16 ->
  spec (load_ptr_imm ptr size offset) b (node_is (fun E => load_value E ptr offset size)).
Proof. intros. apply (spec_insert (NLoadPtrImm ptr offset size)); [constructor|done]. Qed.

Lemma spec_load_offset ptr size offset b :
  valid b offset ->
  spec (load_ptr_offset ptr size offset) b (node_is (fun E => load_value E ptr (den E b offset) size)).
Proof. intros. apply (spec_insert (NLoadPtr ptr offset size)); [by repeat constructor|done]. Qed.

Lemma spec_var v b : spec (use_var v) b (node_is (fun E => var_value E v)).
Proof. apply (spec_insert (NVar v)); [constructor|done]. Qed.

(** The test whether an index has a constant value. *)
Lemma spec_index_eq fuel index pos b :
  valid b index -> inw 128 pos ->
  spec (n <~ imm pos;; binop fuel CmpEq index n) b (node_is (fun E => b2z (den E b index =? pos))).
Proof.
  intros Hi Hp. eapply spec_bind; [by apply spec_imm|]. intros b1 n Hx Hb1 Hn.
  eapply spec_weaken; [apply spec_binop; eauto with mir|]. intros b2 id Hx2 Hb2 [Hv Hd]. split; [done|]. intros E HE.
  rewrite Hd, (node_is_den _ b1 n E Hn HE), (den_later E b b1) by done. reflexivity.
Qed.

(** Values of nodes of the graph [b] in later graphs. *)
Ltac later b :=
  repeat match goal with
    | |- context [denote ?E (value_tree ?b') ?i] =>
        lazymatch b' with
        | b => fail
        | _ => rewrite (den_later E b b' i) by eauto with mir
        end
    end.

Lemma binop_value_some op x y v : binop_execute op x y = Some v -> binop_value op x y = v.
Proof. unfold binop_value. by intros ->. Qed.
Lemma value_add x y : binop_value Add x y = wrap 128 (x + y).
Proof. done. Qed.
Lemma value_mul x y : binop_value Mul x y = wrap 128 (x * y).
Proof. done. Qed.
Lemma value_and x y : binop_value And x y = Z.land x y.
Proof. done. Qed.
Lemma value_eq x y : binop_value CmpEq x y = b2z (x =? y).
Proof. done. Qed.
Lemma ite_b2z (c : bool) z nz : ite_value (b2z c) z nz = if c then nz else z.
Proof. by destruct c. Qed.
