(* ===== verification/MirStateSound.v ===== *)
(** * Uncommitted register values are right

    What it means that an [UncommittedState] represents the registers of a
    CPU state, and that reading, writing and merging keep it
    ([sem86-core/src/codegen/mir/state.rs]). *)
From S2P Require Import Prelude IlOps Arch IlLoc ValTree ValBuild ValSpec ValSound ValCombine ValMono CpuBytes Mir.
From S2P Require Import MirState MirSpec.

#[local] Open Scope bm_scope.

(** ** Lists of choices *)

Lemma arr_get_cons {A} (x : A) l n : arr_get (x :: l) n = if n =? 0 then Some x else arr_get l (n - 1).
Proof.
  unfold arr_get. destruct (Z.eqb_spec n 0) as [->|]; [done|].
  destruct (Z.ltb_spec n 0), (Z.ltb_spec (n - 1) 0); try done; try lia.
  by replace (Z.to_nat n) with (S (Z.to_nat (n - 1))) by lia.
Qed.

Lemma arr_get_neg {A} (l : list A) n : n < 0 -> arr_get l n = None.
Proof. intros. unfold arr_get. by rewrite (proj2 (Z.ltb_lt n 0)). Qed.

Lemma arr_get_nil {A} n : arr_get (A := A) [] n = None.
Proof. unfold arr_get. by case_match. Qed.

(** Every register is chosen by one index. *)
Lemma chosen_once (l : list (option Reg)) i j r :
  NoDup (omap id l) -> arr_get l i = Some (Some r) -> arr_get l j = Some (Some r) -> i = j.
Proof.
  revert i j. induction l as [|x l IH]; intros i j Hnd Hi Hj.
  { unfold arr_get in Hi. by case_match. }
  assert (forall k, arr_get l k = Some (Some r) -> r ∈ omap id l) as Hin.
  { intros k Hk. apply list_elem_of_omap. exists (Some r). split; [|done]. unfold arr_get in Hk.
    case_match; [done|]. by apply list_elem_of_lookup_2 in Hk. }
  rewrite arr_get_cons in Hi, Hj. destruct x as [y|]; cbn [omap list_omap id] in Hnd.
  - apply list.NoDup_cons in Hnd as [Hy Hnd]. destruct (Z.eqb_spec i 0), (Z.eqb_spec j 0); try lia.
    + injection Hi as ->. by apply Hin in Hj.
    + injection Hj as ->. by apply Hin in Hi.
    + enough (i - 1 = j - 1) by lia. by apply IH.
  - destruct (Z.eqb_spec i 0), (Z.eqb_spec j 0); try done. enough (i - 1 = j - 1) by lia. by apply IH.
Qed.

(** A register that code may write. *)
Definition writable (r : Reg) : Prop := real_reg r /\ r <> Gp Riz.
Record choices_ok (l : list (option Reg)) : Prop := {
  choices_writable : Forall writable (omap id l);
  choices_once : NoDup (omap id l);
  choices_length : Z.of_nat (length l) < 2 ^ 64;
  choices_sizes : windows_equal (sizes l) = true;
}.

Lemma chosen_elem (l : list (option Reg)) i r : arr_get l i = Some (Some r) -> r ∈ omap id l.
Proof.
  intros Hi. apply list_elem_of_omap. exists (Some r). split; [|done]. unfold arr_get in Hi.
  case_match; [done|]. by apply list_elem_of_lookup_2 in Hi.
Qed.
Lemma chosen_writable l i r : choices_ok l -> arr_get l i = Some (Some r) -> writable r.
Proof. intros Hl Hi. apply chosen_elem in Hi. eapply list.Forall_forall in Hi; [exact Hi|apply Hl]. Qed.

(** ** Registers of compiled code *)

Section sound.
Context `{lay : Layout} `{laws : !LayoutLaws}.

(** Registers hold numbers of their size. *)
Definition fits (s : State) : Prop := forall r, real_reg r -> inw (8 * byte_size r) (raw_reg s r).

Lemma size_in_storage r : 1 <= byte_size r <= storage_bytes r.
Proof. destruct r as [[]|[]]; simpl; lia. Qed.

Lemma try_from_byte_size r size : try_from_bytes (byte_size r) = Some size -> ds_num_bytes size = byte_size r.
Proof. by destruct r as [[]|[]]; intros [= <-]. Qed.

Lemma byte_size_data r : exists size, try_from_bytes (byte_size r) = Some size.
Proof. destruct r as [[]|[]]; by eexists. Qed.

(** The register [r] in the bytes of the CPU state that code was entered with. *)
Definition initial (M : Z -> Z) (r : Reg) : Z := load M (byte_size r) (byte_offset_of r).

Record entered (M : Z -> Z) : Prop := {
  entered_bytes : bytes_ok M;
  entered_fits : forall r, real_reg r -> inw (8 * byte_size r) (load_reg M r);
}.

Lemma initial_load M r : entered M -> real_reg r -> initial M r = load_reg M r.
Proof.
  intros HM Hr. pose proof (size_in_storage r). unfold initial, load_reg.
  rewrite (load_prefix M (byte_size r) (storage_bytes r)) by (apply HM || lia).
  apply wrap_small. by apply (entered_fits M HM).
Qed.

(** [E] sees the bytes [M] of the CPU state. *)
Definition sees (E : Env) (M : Z -> Z) : Prop := forall a, load_byte E CpuState a = M (wrap 64 a).

Lemma load_value_sees E M size offset o :
  sees E M -> wrap 64 offset = o -> 0 <= o -> o + ds_num_bytes size <= 2 ^ 16 ->
  load_value E CpuState offset size = load M (ds_num_bytes size) o.
Proof.
  intros HE <- Hlo Hhi. unfold load_value, load. f_equal. apply list_fmap_ext. intros i x Hx.
  apply list_elem_of_lookup_2, elem_of_seqZ in Hx. rewrite HE. f_equal.
  rewrite <- wrap_add_l. apply wrap_small. unfold inw. lia.
Qed.

Definition chosen (E : Env) (b : ValBuilder) (key : DynamicRegKey) (r : Reg) : Prop :=
  arr_get (choices key) (den E b (key_index key)) = Some (Some r).

#[export] Instance chosen_dec E b key r : Decision (chosen E b key r).
Proof. unfold chosen. apply _. Defined.

Record us_valid (b : ValBuilder) (us : UncommittedState) : Prop := {
  uv_fixed : Forall (fun x => writable x.1 /\ valid b x.2) (fixed us);
  uv_fixed_once : NoDup (fixed us).*1;
  uv_dynamic : Forall (fun x => choices_ok (choices x.1) /\ valid b (key_index x.1) /\ valid b x.2) (dynamic us);
  uv_dynamic_once : NoDup (dynamic us).*1;
  uv_k : forall k, us_k us = Some k -> valid b k;
}.

(** The values represent the registers of [s], and those that are not there
    are still the initial ones. *)
Record us_repr (E : Env) (M : Z -> Z) (b : ValBuilder) (us : UncommittedState) (s : State) : Prop := {
  ur_sees : sees E M;
  ur_entered : entered M;
  ur_fixed : forall r id, (r, id) ∈ fixed us -> den E b id = raw_reg s r;
  ur_dynamic : forall key id, (key, id) ∈ dynamic us -> exists r, chosen E b key r /\ den E b id = raw_reg s r;
  ur_other : forall r, real_reg r -> r ∉ (fixed us).*1 ->
    (forall key, key ∈ (dynamic us).*1 -> ~ chosen E b key r) -> raw_reg s r = initial M r;
}.

Lemma us_valid_later b b' us : extends b b' -> us_valid b us -> us_valid b' us.
Proof.
  intros Hx [Hf Hfo Hd Hdo Hk]. split; [|done| |done|].
  - eapply Forall_impl; [|exact Hf]. intros x []. eauto with mir.
  - eapply Forall_impl; [|exact Hd]. intros x (? & ? & ?). eauto with mir.
  - eauto with mir.
Qed.
#[local] Hint Resolve us_valid_later : mir.

Lemma uv_fixed_elem b us r id : us_valid b us -> (r, id) ∈ fixed us -> writable r /\ valid b id.
Proof. intros Hv Hin. pose proof (uv_fixed b us Hv) as Hf. rewrite list.Forall_forall in Hf. exact (Hf _ Hin). Qed.
Lemma uv_dynamic_elem b us key id :
  us_valid b us -> (key, id) ∈ dynamic us -> choices_ok (choices key) /\ valid b (key_index key) /\ valid b id.
Proof. intros Hv Hin. pose proof (uv_dynamic b us Hv) as Hf. rewrite list.Forall_forall in Hf. exact (Hf _ Hin). Qed.

Lemma chosen_later E b b' key r : extends b b' -> valid b (key_index key) -> chosen E b' key r <-> chosen E b key r.
Proof. intros Hx Hv. unfold chosen. by rewrite (den_later E b b'). Qed.

Lemma us_repr_later E M b b' us s :
  extends b b' -> us_valid b us -> us_repr E M b us s -> us_repr E M b' us s.
Proof.
  intros Hx Hv [Hs HM Hf Hd Ho]. split; [done|done| | |].
  - intros r id Hin. destruct (uv_fixed_elem b us r id Hv Hin). rewrite (den_later E b b') by done. by apply Hf.
  - intros key id Hin. destruct (uv_dynamic_elem b us key id Hv Hin) as (? & ? & ?).
    destruct (Hd key id Hin) as (r & Hr & E1). exists r. rewrite (den_later E b b') by done.
    by rewrite (chosen_later E b b').
  - intros r Hr Hn Hk. apply Ho; [done..|]. intros key Hin Hc. apply (Hk key Hin).
    apply list_elem_of_fmap in Hin as ([key' id] & -> & Hin). destruct (uv_dynamic_elem b us key' id Hv Hin) as (? & ? & ?).
    by rewrite (chosen_later E b b').
Qed.

(** ** Reading *)

Context (fuel : nat).

Lemma pos_inw pos (l : list (option Reg)) : 0 <= pos -> pos + Z.of_nat (length l) < 2 ^ 64 -> inw 128 pos.
Proof. unfold inw. lia. Qed.

Lemma override_spec index l pos r new val b :
  valid b index -> valid b new -> valid b val -> 0 <= pos -> pos + Z.of_nat (length l) < 2 ^ 64 ->
  spec (override fuel index l pos r new val) b
    (node_is (fun E => if decide (arr_get l (den E b index - pos) = Some (Some r)) then den E b new else den E b val)).
Proof.
  revert pos val b. induction l as [|c l IH]; intros pos val b Hi Hn Hv Hp Hl.
  { apply spec_ret. intros _. split; [done|]. intros E HE. rewrite decide_False; [done|].
    unfold arr_get. by case_match. }
  cbn [override]. rewrite length_cons in Hl.
  apply (spec_bind _ _ b (node_is (fun E =>
    if decide (den E b index = pos /\ c = Some r) then den E b new else den E b val))).
  - destruct (decide (c = Some r)) as [->|Hc].
    + eapply spec_bind; [apply spec_imm, (pos_inw _ l); lia|]. intros b1 n Hx1 _ Hn1.
      eapply spec_bind; [apply spec_binop; eauto with mir|]. intros b2 eq Hx2 _ Heq.
      eapply spec_weaken; [apply spec_ite; eauto with mir|]. intros b3 id _ _ [Hv3 Hd3]. split; [done|]. intros E HE.
      rewrite Hd3, (node_is_den _ _ _ E Heq HE), (node_is_den _ _ _ E Hn1 HE) by done. later b.
      rewrite value_eq, ite_b2z. destruct (Z.eqb_spec (den E b index) pos).
      * rewrite decide_True by done. done.
      * rewrite decide_False by tauto. done.
    + apply spec_ret. intros _. split; [done|]. intros E HE. rewrite decide_False by tauto. done.
  - intros b1 v1 Hx1 _ Hv1. eapply spec_weaken; [apply IH; eauto with mir; lia|].
    intros b2 id Hx2 _ [Hv2 Hd2]. split; [done|]. intros E HE.
    rewrite Hd2, (node_is_den _ _ _ E Hv1 HE), arr_get_cons by done. later b.
    replace (den E b index - (pos + 1)) with (den E b index - pos - 1) by lia.
    destruct (Z.eqb_spec (den E b index - pos) 0) as [E0|].
    + rewrite (arr_get_neg l) by lia. rewrite (decide_False (P := None = _)) by done.
      destruct (decide (Some c = Some (Some r))) as [[= ->]|Hc].
      * rewrite decide_True by (split; [lia|done]). done.
      * rewrite decide_False by (intros [_ ->]; done). done.
    + rewrite (decide_False (P := den E b index = pos /\ _)) by (intros [? _]; lia). done.
Qed.

(** The value [id] is that of the register [r], whatever [us] represents. *)
Definition holds_reg (b : ValBuilder) (us : UncommittedState) (r : Env -> option Reg) (b' : ValBuilder) (id : ValId) : Prop :=
  valid b' id /\ forall E M s r', env_ok E -> us_repr E M b us s -> r E = Some r' -> den E b' id = raw_reg s r'.

(** The state of a loop over entries: either the value is right, or it is the
    initial one of a register that is [unset], and the entries that matter come
    later. *)
Definition pending {A} (b : ValBuilder) (us : UncommittedState) (r : Env -> option Reg) (unset : Reg -> Prop) (all : list A)
    (matters : Env -> Reg -> A -> Prop) (rest : list A) (b' : ValBuilder) (id : ValId) : Prop :=
  extends b b' /\ valid b' id /\ (forall x, x ∈ rest -> x ∈ all)
  /\ forall E M s r', env_ok E -> us_repr E M b us s -> r E = Some r' ->
     den E b' id = raw_reg s r' \/ (den E b' id = initial M r' /\ unset r' /\ forall x, x ∈ all -> matters E r' x -> x ∈ rest).

(** A step that overrides the value by a right one where the entry matters. *)
Lemma pending_step {A} b us r unset (all : list A) matters x rest b1 val (m : bm ValId) (new : ValId) :
  pending b us r unset all matters (x :: rest) b1 val -> valid b new ->
  (forall E M s r', env_ok E -> us_repr E M b us s -> r E = Some r' -> matters E r' x -> den E b new = raw_reg s r') ->
  spec m b1 (fun b' id => valid b' id /\ forall E M s r', env_ok E -> us_repr E M b us s -> r E = Some r' ->
    (matters E r' x /\ den E b' id = den E b new) \/ (~ matters E r' x /\ den E b' id = den E b1 val)) ->
  spec m b1 (pending b us r unset all matters rest).
Proof.
  intros (Hx & Hv & Hall & Hp) Hn Hnew Hm. eapply spec_weaken; [exact Hm|]. intros b2 id Hx2 _ [Hv2 Hd].
  split; [by transitivity b1|]. split; [done|]. split; [intros y Hy; apply Hall, elem_of_cons; by right|].
  intros E M s r' HE Hus Hr. destruct (Hd E M s r' HE Hus Hr) as [[Hm1 ->]|[Hm0 ->]].
  { left. by apply (Hnew E M s r'). }
  destruct (Hp E M s r' HE Hus Hr) as [?|(E1 & Hu & Hin)]; [by left|]. right. split; [done|]. split; [done|]. intros y Hy Hmy.
  apply Hin, elem_of_cons in Hy as [->|]; done.
Qed.

Lemma byte_offset_range r :
  real_reg r -> 0 <= byte_offset_of r /\ byte_offset_of r + byte_size r <= 2 ^ 16.
Proof. intros Hr. pose proof (offset_range r Hr). pose proof (size_in_storage r). lia. Qed.

Lemma spec_initial r size b :
  real_reg r -> try_from_bytes (byte_size r) = Some size ->
  spec (load_ptr_imm CpuState size (byte_offset_of r)) b
    (fun b' id => valid b' id /\ forall E M, env_ok E -> sees E M -> den E b' id = initial M r).
Proof.
  intros Hr Hs. pose proof (byte_offset_range r Hr). pose proof (size_in_storage r). apply try_from_byte_size in Hs.
  eapply spec_weaken; [apply spec_load; lia|]. intros b' id _ _ [Hv Hd]. split; [done|]. intros E M HE HM.
  rewrite Hd by done.
  rewrite (load_value_sees E M size _ (byte_offset_of r)) by (done || lia || (apply wrap_small; unfold inw; lia)).
  unfold initial. by rewrite Hs.
Qed.

Lemma map_get_elem {A B} `{EqDecision A} (l : list (A * B)) k v : map_get l k = Some v -> (k, v) ∈ l.
Proof.
  induction l as [|[x w] l IH]; [done|]. cbn [map_get]. intros E. apply elem_of_cons.
  destruct (decide (x = k)) as [->|]; [injection E as ->; by left|by right; apply IH].
Qed.
Lemma map_get_none {A B} `{EqDecision A} (l : list (A * B)) k : map_get l k = None -> k ∉ l.*1.
Proof.
  induction l as [|[x w] l IH]; intros E; [apply not_elem_of_nil|]. cbn [map_get] in E. rewrite fmap_cons, not_elem_of_cons.
  destruct (decide (x = k)); [done|]. by split; [|apply IH].
Qed.

Lemma get_or_compute_spec us r b :
  us_valid b us -> real_reg r ->
  spec (get_or_compute fuel us r) b
    (fun b' id => valid b' id /\ forall E M s, env_ok E -> us_repr E M b us s ->
       den E b' id = if decide (r = Gp Riz) then 0 else raw_reg s r).
Proof.
  intros Hus Hr. unfold get_or_compute. destruct (decide (r = Gp Riz)) as [->|Hz].
  { eapply spec_weaken; [by apply spec_imm|]. intros b' id _ _ [Hv Hd]. split; [done|]. intros. by apply Hd. }
  destruct (map_get (fixed us) r) as [val|] eqn:Ef.
  { apply map_get_elem in Ef. apply spec_ret. intros _. destruct (uv_fixed_elem b us r val Hus Ef) as [_ Hv].
    split; [done|]. intros E M s HE Hrep. by apply (ur_fixed E M b us s Hrep). }
  apply map_get_none in Ef. apply spec_lift. intros size Hsize. apply spec_lift. intros offset Ho.
  unfold as_u16 in Ho. destruct (assert _) as [[]|]; [|done]. cbn [mbind option_bind] in Ho. injection Ho as <-.
  eapply spec_bind; [by apply spec_initial|]. intros b1 val Hx1 Hb1 [Hv1 Hd1].
  set (matters := fun E (r' : Reg) (x : DynamicRegKey * ValId) => chosen E b x.1 r').
  eapply spec_weaken.
  - apply (spec_bfold _ _ _ b1 (pending b us (fun _ => Some r) (fun _ => True) (dynamic us) matters)).
    + split; [done|]. split; [done|]. split; [done|]. intros E M s r' HE Hrep [= <-]. right.
      split; [by apply Hd1; [|apply Hrep]|by split].
    + intros [key dv] l b2 v Hp Hb2. pose proof Hp as (Hx2 & Hv2 & Hall & _).
      destruct (uv_dynamic_elem b us key dv Hus (Hall _ ltac:(by left))) as (Hok & Hi & Hdv).
      pose proof (choices_length _ Hok).
      apply (pending_step b us _ _ _ matters (key, dv) l b2 v _ dv Hp Hdv).
      * intros E M s r' HE Hrep [= <-] Hm. destruct (ur_dynamic E M b us s Hrep key dv (Hall _ ltac:(by left))) as (r' & Hc & ->).
        unfold matters, chosen in Hm, Hc. simpl in Hm. rewrite Hm in Hc. by injection Hc as ->.
      * eapply spec_weaken; [apply override_spec; eauto with mir; lia|]. intros b3 id Hx3 _ [Hv3 Hd3].
        split; [done|]. intros E M s r' HE Hrep [= <-]. rewrite Hd3, Z.sub_0_r by done. later b.
        unfold matters, chosen. cbn [fst]. destruct (decide _); [by left|by right].
  - intros b3 id Hx3 Hb3 (_ & Hv3 & _ & Hp). split; [done|]. intros E M s HE Hrep.
    destruct (Hp E M s r HE Hrep eq_refl) as [?|(-> & _ & Hnone)]; [done|]. symmetry. apply (ur_other E M b us s Hrep); [done..|].
    intros key Hin Hc. apply list_elem_of_fmap in Hin as ([k id'] & -> & Hin).
    by apply (Hnone (k, id')), not_elem_of_nil in Hin.
Qed.

(** ** Writing *)

(** [s'] is [s] with the value [v] in the register [r]. *)
Definition changed (s s' : State) (r : Reg) (v : Z) : Prop :=
  raw_reg s' r = v /\ forall r', real_reg r' -> r' <> r -> raw_reg s' r' = raw_reg s r'.

Lemma map_insert_elem {A B} `{EqDecision A} (l : list (A * B)) k v x w :
  NoDup l.*1 -> (x, w) ∈ map_insert l k v -> (x = k /\ w = v) \/ (x <> k /\ (x, w) ∈ l).
Proof.
  induction l as [|[y z] l IH]; intros Hnd Hin; cbn [map_insert] in Hin.
  { apply list_elem_of_singleton in Hin. left. by simplify_eq. }
  rewrite fmap_cons in Hnd. apply list.NoDup_cons in Hnd as [Hy Hnd].
  destruct (decide (y = k)) as [->|Hk]; apply elem_of_cons in Hin as [E|Hin].
  - left. by simplify_eq.
  - right. split; [|apply elem_of_cons; by right]. intros ->. apply Hy. apply list_elem_of_fmap. by exists (k, w).
  - right. simplify_eq. split; [done|apply elem_of_cons; by left].
  - destruct (IH Hnd Hin) as [?|[??]]; [by left|right]. split; [done|apply elem_of_cons; by right].
Qed.

Lemma map_insert_keys {A B} `{EqDecision A} (l : list (A * B)) k v x :
  x ∈ (map_insert l k v).*1 <-> x = k \/ x ∈ l.*1.
Proof.
  induction l as [|[y z] l IH]; cbn [map_insert].
  { simpl. rewrite elem_of_cons, !elem_of_nil. tauto. }
  destruct (decide (y = k)) as [->|Hk]; rewrite !fmap_cons, !elem_of_cons; [tauto|]. rewrite IH. tauto.
Qed.

Lemma map_insert_once {A B} `{EqDecision A} (l : list (A * B)) k v : NoDup l.*1 -> NoDup (map_insert l k v).*1.
Proof.
  induction l as [|[y z] l IH]; intros Hnd; cbn [map_insert]; [apply NoDup_singleton|].
  rewrite fmap_cons in Hnd. apply list.NoDup_cons in Hnd as [Hy Hnd].
  destruct (decide (y = k)) as [->|Hk]; rewrite fmap_cons; apply list.NoDup_cons; split; [done|done| |by apply IH].
  cbn [fst] in *. intros [->|?]%map_insert_keys; done.
Qed.

(** Entries of which only the values change. *)
Definition revalued {A} (P : A * ValId -> A * ValId -> Prop) (l l' : list (A * ValId)) : Prop :=
  Forall2 (fun x y => y.1 = x.1 /\ P x y) l l'.
Lemma revalued_keys {A} P (l l' : list (A * ValId)) : revalued P l l' -> l'.*1 = l.*1.
Proof. induction 1 as [|x y l l' [E _] _ IH]; [done|]. by rewrite !fmap_cons, E, IH. Qed.
Lemma revalued_elem {A} P (l l' : list (A * ValId)) k v' :
  revalued P l l' -> (k, v') ∈ l' -> exists v, (k, v) ∈ l /\ P (k, v) (k, v').
Proof.
  induction 1 as [|x y l l' [E HP] _ IH]; intros Hin; [by apply not_elem_of_nil in Hin|].
  apply elem_of_cons in Hin as [<-|Hin].
  - exists x.2. cbn [fst] in E. subst k. rewrite <- surjective_pairing. split; [apply elem_of_cons; by left|done].
  - destruct (IH Hin) as (v & ? & ?). exists v. split; [apply elem_of_cons; by right|done].
Qed.

(** A loop that replaces the value of every entry where it matters. *)
Lemma spec_revalue {A} (f : A -> ValId -> bm ValId) (l : list (A * ValId)) b (P : A * ValId -> Env -> Z -> Prop) :
  (forall k v b', (k, v) ∈ l -> extends b b' -> spec (f k v) b' (fun b2 id => valid b2 id /\ forall E, env_ok E -> P (k, v) E (den E b2 id))) ->
  spec (bmap (fun '(k, v) => v' <~ f k v;; bret (k, v')) l) b
    (fun b' l' => revalued (fun x y => valid b' y.2 /\ forall E, env_ok E -> P x E (den E b' y.2)) l l').
Proof.
  intros Hf. eapply spec_weaken.
  - apply (spec_bmap _ l b (fun x b2 y => y.1 = x.1 /\ valid b2 y.2 /\ forall E, env_ok E -> P x E (den E b2 y.2))).
    + intros x b1 b2 y (E1 & Hv & Hd) Hx _. split; [done|]. split; [eauto with mir|]. intros E HE. later b1. by apply Hd.
    + intros [k v] b' Hin Hx _. eapply spec_bind; [by apply Hf|]. intros b2 id Hx2 _ [Hv Hd]. by apply spec_ret.
  - intros b' l' _ _ HF. exact HF.
Qed.

Lemma store_reg_spec us r new b :
  us_valid b us -> writable r -> valid b new ->
  spec (store_reg fuel us r new) b (fun b' us' => us_valid b' us' /\ us_k us' = us_k us /\ (dynamic us').*1 = (dynamic us).*1
    /\ forall E M s s', env_ok E -> us_repr E M b us s -> changed s s' r (den E b new) -> us_repr E M b' us' s').
Proof.
  intros Hus Hr Hn. unfold store_reg. eapply spec_bind.
  - apply (spec_revalue (fun key v => override fuel (key_index key) (choices key) 0 r new v) (dynamic us) b
      (fun x E z => z = if decide (chosen E b x.1 r) then den E b new else den E b x.2)).
    intros key v b' Hin Hx. destruct (uv_dynamic_elem b us key v Hus Hin) as (Hok & Hi & Hv).
    pose proof (choices_length _ Hok).
    eapply spec_weaken; [apply override_spec; eauto with mir; lia|]. intros b2 id Hx2 _ [Hv2 Hd2]. split; [done|].
    intros E HE. rewrite Hd2, Z.sub_0_r by done. later b. done.
  - intros b1 d Hx1 Hb1 Hd. pose proof (revalued_keys _ _ _ Hd) as Hkeys. apply spec_ret. intros _. split; [|split; [done|split; [done|]]].
    + split; cbn [fixed dynamic us_k].
      * apply list.Forall_forall. intros [r' id] Hin. apply map_insert_elem in Hin as [[-> ->]|[_ Hin]].
        -- eauto with mir.
        -- destruct (uv_fixed_elem b us r' id Hus Hin). eauto with mir.
        -- apply Hus.
      * apply map_insert_once, Hus.
      * apply list.Forall_forall. intros [key id] Hin. destruct (revalued_elem _ _ _ _ _ Hd Hin) as (v & Hin' & Hv & _).
        destruct (uv_dynamic_elem b us key v Hus Hin') as (? & ? & ?). eauto with mir.
      * rewrite Hkeys. apply Hus.
      * intros k Hk. pose proof (uv_k b us Hus k Hk). eauto with mir.
    + intros E M s s' HE [Hs HM Hf Hdy Ho] [Hnew Hsame]. split; [done|done| | |]; cbn [fixed dynamic us_k].
      * intros r' id Hin. apply map_insert_elem in Hin as [[-> ->]|[Hne Hin]]; [| |apply Hus].
        -- later b. done.
        -- destruct (uv_fixed_elem b us r' id Hus Hin) as [[? _] ?]. later b. rewrite Hsame by done. by apply Hf.
      * intros key id Hin. destruct (revalued_elem _ _ _ _ _ Hd Hin) as (v & Hin' & Hv & Hval).
        destruct (uv_dynamic_elem b us key v Hus Hin') as (Hok & Hi & Hv0).
        destruct (Hdy key v Hin') as (r' & Hc & Hr'). exists r'. split; [by apply (chosen_later E b)|].
        specialize (Hval E HE). cbn [fst snd] in Hval. rewrite Hval. destruct (decide (chosen E b key r)) as [Hc'|Hc'].
        -- unfold chosen in Hc, Hc'. rewrite Hc in Hc'. injection Hc' as ->. done.
        -- rewrite Hr'. symmetry. apply Hsame; [apply (chosen_writable _ _ _ Hok Hc)|]. intros ->. done.
      * intros r' Hr' Hnf Hnk. rewrite map_insert_keys in Hnf. rewrite Hkeys in Hnk. rewrite Hsame; [|done|tauto].
        apply Ho; [done|tauto|]. intros key Hin Hc. apply (Hnk key Hin).
        apply list_elem_of_fmap in Hin as ([key' v] & -> & Hin). destruct (uv_dynamic_elem b us key' v Hus Hin) as (? & ? & ?).
        by apply (chosen_later E b).
Qed.

(** ** Registers chosen at run time *)

Lemma common_elem l x y : common l = Some x -> y ∈ l -> y = x.
Proof.
  destruct l as [|z l]; [done|]. cbn [common]. destruct (forallb (Z.eqb z) l) eqn:E; [|done]. intros [= <-].
  rewrite forallb_forall in E. intros [->|Hin]%elem_of_cons; [done|]. symmetry. by apply Z.eqb_eq, E, list_elem_of_In.
Qed.

Lemma find_scale_spec scales l s off :
  find_scale scales l = Some (s, off) ->
  s ∈ scales /\ forall i r, arr_get l i = Some (Some r) -> byte_offset_of r - i * s = off.
Proof.
  induction scales as [|x scales IH]; [done|]. cbn [find_scale].
  destruct (common (offsets_with x l)) as [o|] eqn:E; intros Hs.
  - injection Hs as -> ->. split; [apply elem_of_cons; by left|]. intros i r Hi. apply (common_elem _ _ _ E).
    unfold offsets_with. apply list_elem_of_omap. exists (Some (byte_offset_of r - i * s)). split; [|done].
    unfold arr_get in Hi. destruct (Z.ltb_spec i 0); [done|]. apply (list_elem_of_lookup_2 _ (Z.to_nat i)).
    rewrite list_lookup_imap, Hi. simpl. by rewrite Z2Nat.id.
  - destruct (IH Hs). split; [apply elem_of_cons; by right|done].
Qed.

Lemma offset_chain_spec index l pos offset b :
  valid b index -> valid b offset -> Forall writable (omap id l) -> 0 <= pos -> pos + Z.of_nat (length l) < 2 ^ 64 ->
  spec (offset_chain fuel index l pos offset) b
    (node_is (fun E => match arr_get l (den E b index - pos) with Some (Some r) => byte_offset_of r | _ => den E b offset end)).
Proof.
  revert pos offset b. induction l as [|c l IH]; intros pos offset b Hi Ho Hl Hp Hlen.
  { apply spec_ret. intros _. split; [done|]. intros E HE. by rewrite arr_get_nil. }
  cbn [offset_chain]. rewrite length_cons in Hlen.
  eapply spec_bind; [apply spec_imm, (pos_inw _ l); lia|]. intros b1 n Hx1 _ Hn.
  eapply spec_bind; [apply spec_binop; eauto with mir|]. intros b2 eq Hx2 _ Heq.
  apply (spec_bind _ _ b2 (node_is (fun E =>
    match c with Some r => if den E b index =? pos then byte_offset_of r else den E b offset | None => den E b offset end))).
  - destruct c as [r|].
    + assert (writable r) as [Hr _] by (cbn [omap list_omap id] in Hl; apply list.Forall_cons in Hl; tauto).
      pose proof (byte_offset_range r Hr). pose proof (size_in_storage r).
      eapply spec_bind; [apply spec_imm; unfold inw; lia|]. intros b3 ro Hx3 _ Hro.
      eapply spec_weaken; [apply spec_ite; eauto with mir|]. intros b4 id Hx4 _ [Hv4 Hd4]. split; [done|]. intros E HE.
      rewrite Hd4 by done. later b2. rewrite (node_is_den _ _ _ E Heq HE) by done. later b1.
      rewrite (node_is_den _ _ _ E Hn HE), (node_is_den _ _ _ E Hro HE) by done. later b.
      by rewrite value_eq, ite_b2z.
    + apply spec_ret. intros _. split; [eauto with mir|]. intros E HE. later b. done.
  - intros b3 o3 Hx3 _ Ho3. eapply spec_weaken.
    + apply IH; eauto with mir; [|lia|lia]. destruct c; cbn [omap list_omap id] in Hl; [apply list.Forall_cons in Hl; tauto|done].
    + intros b4 id Hx4 _ [Hv4 Hd4]. split; [done|]. intros E HE.
      rewrite Hd4, (node_is_den _ _ _ E Ho3 HE), arr_get_cons by done. later b.
      replace (den E b index - (pos + 1)) with (den E b index - pos - 1) by lia.
      destruct (Z.eqb_spec (den E b index - pos) 0).
      * rewrite (arr_get_neg l) by lia. rewrite (proj2 (Z.eqb_eq _ _)) by lia. by destruct c.
      * rewrite (proj2 (Z.eqb_neq _ _)) by lia. by destruct c.
Qed.

Lemma const_scale_offset_eq l c : compute_const_scale_offset l = Some c -> find_scale (seqZ 1 63) l = c.
Proof. unfold compute_const_scale_offset. destruct (assert _); [|done]. cbn [mbind option_bind]. congruence. Qed.

Lemma dynamic_offset_spec key b :
  choices_ok (choices key) -> valid b (key_index key) ->
  spec (compute_dynamic_reg_offset fuel key) b
    (fun b' id => valid b' id /\ forall E r, env_ok E -> chosen E b key r -> wrap 64 (den E b' id) = byte_offset_of r).
Proof.
  intros Hok Hi. unfold compute_dynamic_reg_offset. apply spec_lift. intros c Hc.
  apply const_scale_offset_eq in Hc.
  assert (forall E r, chosen E b key r -> 0 <= byte_offset_of r < 2 ^ 64) as Hrange.
  { intros E r Hch. destruct (chosen_writable _ _ _ Hok Hch) as [Hr _]. pose proof (byte_offset_range r Hr).
    pose proof (size_in_storage r). lia. }
  destruct c as [[s off]|].
  - apply find_scale_spec in Hc as [Hs Hoff]. apply elem_of_seqZ in Hs.
    eapply spec_bind; [apply spec_imm; pose proof (wrap_inw 64 off ltac:(lia)); unfold inw in *; lia|]. intros b1 co Hx1 _ Hco.
    eapply spec_bind; [apply spec_imm; unfold inw; lia|]. intros b2 cs Hx2 _ Hcs.
    eapply spec_bind; [apply spec_binop; eauto with mir|]. intros b3 o Hx3 _ Ho.
    eapply spec_weaken; [apply spec_binop; eauto with mir|]. intros b4 id Hx4 _ [Hv4 Hd4]. split; [done|].
    intros E r HE Hr. rewrite Hd4, (node_is_den _ _ _ E Ho HE) by done. later b1. later b2.
    rewrite (node_is_den _ _ _ E Hco HE), (node_is_den _ _ _ E Hcs HE) by done. later b.
    rewrite value_add, value_mul, wrap_wrap_le, wrap_add_l, <- wrap_add_r by lia.
    rewrite wrap_wrap_le, wrap_add_r by lia. pose proof (Hoff _ _ Hr).
    replace (off + s * den E b (key_index key)) with (byte_offset_of r) by lia. apply wrap_small. unfold inw. by apply (Hrange E).
  - eapply spec_bind; [by apply spec_imm|]. intros b1 zero Hx1 _ Hz.
    eapply spec_weaken; [apply offset_chain_spec; eauto with mir; try apply Hok; pose proof (choices_length _ Hok); lia|].
    intros b2 id Hx2 _ [Hv2 Hd2]. split; [done|]. intros E r HE Hr. rewrite Hd2, Z.sub_0_r by done. later b.
    unfold chosen in Hr. rewrite Hr. apply wrap_small. by apply (Hrange E).
Qed.

Lemma land_b2z (c d : bool) : Z.land (b2z c) (b2z d) = b2z (c && d).
Proof. by destruct c, d. Qed.

Lemma propagate_one_spec r li i rhs pos ri new val b :
  valid b li -> valid b ri -> valid b new -> valid b val -> inw 128 i ->
  0 <= pos -> pos + Z.of_nat (length rhs) < 2 ^ 64 ->
  spec (propagate_one fuel r (n <~ imm i;; binop fuel CmpEq li n) rhs pos ri new val) b
    (node_is (fun E => if decide (den E b li = i /\ arr_get rhs (den E b ri - pos) = Some (Some r))
                       then den E b new else den E b val)).
Proof.
  revert pos val b. induction rhs as [|c rhs IH]; intros pos val b Hl Hr Hn Hv Hi Hp Hlen.
  { apply spec_ret. intros _. split; [done|]. intros E HE. rewrite decide_False; [done|]. rewrite arr_get_nil. by intros []. }
  cbn [propagate_one]. rewrite length_cons in Hlen.
  apply (spec_bind _ _ b (node_is (fun E =>
    if decide (den E b li = i /\ den E b ri = pos /\ Some r = c) then den E b new else den E b val))).
  - destruct (decide (Some r = c)) as [<-|Hc].
    + eapply spec_bind; [by apply spec_index_eq|]. intros b1 eq Hx1 _ Heq.
      eapply spec_bind; [apply spec_imm, (pos_inw _ rhs); lia|]. intros b2 n Hx2 _ Hn2.
      eapply spec_bind; [apply spec_binop; eauto with mir|]. intros b3 eq2 Hx3 _ Heq2.
      eapply spec_bind; [apply spec_binop; eauto with mir|]. intros b4 both Hx4 _ Hboth.
      eapply spec_weaken; [apply spec_ite; eauto 6 with mir|]. intros b5 id _ _ [Hv5 Hd5]. split; [done|]. intros E HE.
      rewrite Hd5, (node_is_den _ _ _ E Hboth HE), (node_is_den _ _ _ E Heq2 HE) by done. later b1. later b2.
      rewrite (node_is_den _ _ _ E Heq HE), (node_is_den _ _ _ E Hn2 HE) by done. later b.
      rewrite value_eq, value_and, land_b2z, ite_b2z.
      destruct (Z.eqb_spec (den E b li) i), (Z.eqb_spec (den E b ri) pos); cbn [andb]; case_decide; try done; tauto.
    + apply spec_ret. intros _. split; [done|]. intros E HE. rewrite decide_False by tauto. done.
  - intros b1 v1 Hx1 _ Hv1. eapply spec_weaken; [apply IH; eauto with mir; lia|].
    intros b2 id Hx2 _ [Hv2 Hd2]. split; [done|]. intros E HE.
    rewrite Hd2, (node_is_den _ _ _ E Hv1 HE), arr_get_cons by done. later b.
    replace (den E b ri - (pos + 1)) with (den E b ri - pos - 1) by lia.
    destruct (Z.eqb_spec (den E b ri - pos) 0) as [E0|].
    + rewrite (arr_get_neg rhs) by lia. assert (den E b ri = pos) as Hpos by lia.
      repeat case_decide; destruct_and?; try done; exfalso; intuition congruence.
    + assert (den E b ri <> pos) as Hpos by lia. repeat case_decide; destruct_and?; try done; exfalso; intuition congruence.
Qed.

Lemma propagate_all_spec lhs pos li rhs ri new val b :
  valid b li -> valid b ri -> valid b new -> valid b val ->
  0 <= pos -> pos + Z.of_nat (length lhs) < 2 ^ 64 -> Z.of_nat (length rhs) < 2 ^ 64 ->
  spec (propagate_all fuel lhs pos li rhs ri new val) b
    (node_is (fun E =>
       match arr_get lhs (den E b li - pos) with
       | Some (Some r) => if decide (arr_get rhs (den E b ri) = Some (Some r)) then den E b new else den E b val
       | _ => den E b val
       end)).
Proof.
  intros Hl Hr Hn. revert pos val b Hl Hr Hn. induction lhs as [|c lhs IH]; intros pos val b Hl Hr Hn Hv Hp Hlen Hrl.
  { apply spec_ret. intros _. split; [done|]. intros E HE. by rewrite arr_get_nil. }
  cbn [propagate_all]. rewrite length_cons in Hlen.
  apply (spec_bind _ _ b (node_is (fun E =>
    match c with
    | Some r => if decide (den E b li = pos /\ arr_get rhs (den E b ri - 0) = Some (Some r)) then den E b new else den E b val
    | None => den E b val
    end))).
  - destruct c as [r|]; [|by apply spec_ret]. apply propagate_one_spec; try done; try lia.
    apply (pos_inw _ lhs); lia.
  - intros b1 v1 Hx1 _ Hv1. eapply spec_weaken; [apply IH; eauto with mir; lia|].
    intros b2 id Hx2 _ [Hv2 Hd2]. split; [done|]. intros E HE.
    rewrite Hd2, (node_is_den _ _ _ E Hv1 HE), arr_get_cons, Z.sub_0_r by done. later b.
    replace (den E b li - (pos + 1)) with (den E b li - pos - 1) by lia.
    destruct (Z.eqb_spec (den E b li - pos) 0) as [E0|].
    + rewrite (arr_get_neg lhs) by lia. destruct c as [r|]; [|done].
      destruct (decide (arr_get rhs (den E b ri) = Some (Some r))).
      * rewrite decide_True by (split; [lia|done]). done.
      * rewrite decide_False by tauto. done.
    + assert (forall r, (if decide (den E b li = pos /\ arr_get rhs (den E b ri) = Some (Some r)) then den E b new else den E b val)
                        = den E b val) as Hz by (intros r; rewrite decide_False; [done|lia]).
      destruct c as [r|]; [by rewrite Hz|done].
Qed.

Lemma propagate_spec lhs li rhs ri new val b :
  choices_ok lhs -> choices_ok rhs -> valid b li -> valid b ri -> valid b new -> valid b val ->
  spec (propagate_dynamic_val fuel lhs li rhs ri new val) b
    (fun b' id => valid b' id /\ forall E r r', env_ok E -> arr_get lhs (den E b li) = Some (Some r) ->
       arr_get rhs (den E b ri) = Some (Some r') ->
       den E b' id = if decide (r = r') then den E b new else den E b val).
Proof.
  intros Hol Hor Hl Hr Hn Hv. pose proof (choices_length _ Hol). pose proof (choices_length _ Hor).
  unfold propagate_dynamic_val. destruct (decide (lhs = rhs)) as [<-|_].
  - eapply spec_bind; [apply spec_binop; eauto with mir|]. intros b1 eq Hx1 _ Heq.
    eapply spec_weaken; [apply spec_ite; eauto with mir|]. intros b2 id _ _ [Hv2 Hd2]. split; [done|]. intros E r r' HE Hr1 Hr2.
    rewrite Hd2, (node_is_den _ _ _ E Heq HE) by done. later b. rewrite value_eq, ite_b2z.
    destruct (Z.eqb_spec (den E b li) (den E b ri)) as [E1|E1], (decide (r = r')) as [->|Hne]; try done.
    + rewrite E1, Hr2 in Hr1. congruence.
    + destruct E1. by apply (chosen_once lhs _ _ r' (choices_once _ Hol)).
  - eapply spec_weaken; [apply propagate_all_spec; done || lia|]. intros b2 id _ _ [Hv2 Hd2]. split; [done|].
    intros E r r' HE Hr1 Hr2. rewrite Hd2, Z.sub_0_r, Hr1, Hr2 by done.
    destruct (decide (r = r')) as [->|Hne]; [by rewrite decide_True by done|]. rewrite decide_False; [done|congruence].
Qed.

Definition choice_of (l : list (option Reg)) (b : ValBuilder) (index : ValId) (E : Env) : option Reg :=
  arr_get l (den E b index) ≫= id.
Lemma choice_of_Some l b index E r : choice_of l b index E = Some r <-> arr_get l (den E b index) = Some (Some r).
Proof.
  unfold choice_of. destruct (arr_get l _) as [[r'|]|]; simpl; split; intros E1; simplify_eq; try done.
Qed.

Lemma windows_equal_head l x y : windows_equal l = true -> head l = Some y -> x ∈ l -> x = y.
Proof.
  revert y. induction l as [|z l IH]; [done|]. intros y Hw Hy Hin. injection Hy as ->.
  apply elem_of_cons in Hin as [->|Hin]; [done|]. destruct l as [|w l]; [by apply not_elem_of_nil in Hin|].
  cbn [windows_equal] in Hw. apply andb_prop in Hw as [->%Z.eqb_eq Hw]. by apply (IH w).
Qed.

Lemma key_new_size l index key r i s :
  key_new l index = Some key -> arr_get l i = Some (Some r) -> head (sizes l) = Some s -> byte_size r = s.
Proof.
  unfold key_new. destruct (windows_equal (sizes l)) eqn:Ew; [|done]. intros _ Hi Hs.
  apply (windows_equal_head _ _ _ Ew Hs). unfold sizes. apply list_elem_of_fmap. exists r. split; [done|]. by eapply chosen_elem.
Qed.
Lemma key_new_eq l index key : key_new l index = Some key -> key = {| choices := l; key_index := index |}.
Proof. unfold key_new. destruct (assert _); [|done]. cbn [mbind option_bind]. congruence. Qed.

Lemma get_or_compute_dynamic_spec us l index b :
  us_valid b us -> choices_ok l -> valid b index ->
  spec (get_or_compute_dynamic fuel us l index) b (holds_reg b us (choice_of l b index)).
Proof.
  intros Hus Hl Hi. unfold get_or_compute_dynamic. apply spec_lift. intros key Hkey.
  pose proof (key_new_eq _ _ _ Hkey) as ->.
  destruct (map_get (dynamic us) _) as [val|] eqn:Ef.
  { apply map_get_elem in Ef. apply spec_ret. intros _. destruct (uv_dynamic_elem b us _ val Hus Ef) as (_ & _ & Hv).
    split; [done|]. intros E M s r HE Hrep Hr. apply choice_of_Some in Hr.
    destruct (ur_dynamic E M b us s Hrep _ val Ef) as (r' & Hc & ->). unfold chosen in Hc. simpl in Hc. congruence. }
  apply map_get_none in Ef. eapply spec_bind; [by apply dynamic_offset_spec|]. intros b1 offset Hx1 Hb1 [Ho Hod].
  apply spec_lift. intros size Hsize. destruct (head (sizes l)) as [s0|] eqn:Es; [|done]. cbn [mbind option_bind] in Hsize.
  eapply spec_bind; [by apply spec_load_offset|]. intros b2 val Hx2 Hb2 [Hv2 Hd2].
  assert (forall E M r, env_ok E -> sees E M -> choice_of l b index E = Some r -> den E b2 val = initial M r) as Hinit.
  { intros E M r HE HM Hr. apply choice_of_Some in Hr. destruct (chosen_writable _ _ _ Hl Hr) as [Hreal _].
    pose proof (byte_offset_range r Hreal). pose proof (size_in_storage r).
    pose proof (key_new_size _ _ _ _ _ _ Hkey Hr Es) as <-. apply try_from_byte_size in Hsize.
    rewrite Hd2 by done. unfold initial. rewrite <- Hsize.
    apply load_value_sees; [done|by apply (Hod E r)|lia|lia]. }
  set (mf := fun (E : Env) (r' : Reg) (x : Reg * ValId) => x.1 = r').
  set (md := fun E (r' : Reg) (x : DynamicRegKey * ValId) => chosen E b x.1 r').
  eapply spec_bind.
  { apply (spec_bfold _ _ _ b2 (pending b us (choice_of l b index) (fun _ => True) (fixed us) mf)).
    - split; [by transitivity b1|]. split; [done|]. split; [done|]. intros E M s r HE Hrep Hr. right.
      split; [by apply Hinit; [|apply Hrep|]|by split].
    - intros [r fv] rest b3 v Hp Hb3. pose proof Hp as (Hx3 & Hv3 & Hall & _).
      destruct (uv_fixed_elem b us r fv Hus (Hall _ ltac:(by left))) as (Hw & Hfv). pose proof (choices_length _ Hl).
      apply (pending_step b us _ _ _ mf (r, fv) rest b3 v _ fv Hp Hfv).
      + intros E M s r' HE Hrep _ <-. apply (ur_fixed E M b us s Hrep), Hall. by left.
      + eapply spec_weaken; [apply override_spec; eauto with mir; lia|]. intros b4 id Hx4 _ [Hv4 Hd4].
        split; [done|]. intros E M s r' HE Hrep Hr'. apply choice_of_Some in Hr'. rewrite Hd4, Z.sub_0_r by done. later b.
        unfold mf. cbn [fst]. rewrite Hr'. case_decide; [left|right]; (split; [congruence|done]). }
  intros b3 v3 Hx3 Hb3 (_ & Hv3 & _ & Hp3). eapply spec_weaken.
  - apply (spec_bfold _ _ _ b3 (pending b us (choice_of l b index) (fun r => r ∉ (fixed us).*1) (dynamic us) md)).
    + split; [transitivity b2; [by transitivity b1|done]|]. split; [done|]. split; [done|]. intros E M s r HE Hrep Hr.
      destruct (Hp3 E M s r HE Hrep Hr) as [?|(E1 & _ & Hnone)]; [by left|right]. split; [done|]. split; [|done].
      intros Hin. apply list_elem_of_fmap in Hin as ([r' id'] & -> & Hin).
      pose proof (Hnone _ Hin eq_refl) as Hnil. by apply not_elem_of_nil in Hnil.
    + intros [key dv] rest b4 v Hp Hb4. pose proof Hp as (Hx4 & Hv4 & Hall & _).
      pose proof (Hall _ ltac:(by left)) as Hin. destruct (uv_dynamic_elem b us key dv Hus Hin) as (Hok & Hki & Hdv).
      assert (forall E M s, us_repr E M b us s -> exists rk, chosen E b key rk /\ den E b dv = raw_reg s rk) as Hkey'
        by (intros E M s Hrep; by apply (ur_dynamic E M b us s Hrep)).
      apply (pending_step b us _ _ _ md (key, dv) rest b4 v _ dv Hp Hdv).
      * intros E M s r HE Hrep Hr Hm. destruct (Hkey' E M s Hrep) as (rk & Hc & ->).
        unfold md, chosen in Hm, Hc. simpl in Hm. congruence.
      * eapply spec_weaken; [apply propagate_spec; eauto with mir|]. intros b5 id Hx5 _ [Hv5 Hd5]. split; [done|].
        intros E M s r' HE Hrep Hr'. apply choice_of_Some in Hr'. destruct (Hkey' E M s Hrep) as (rk & Hc & _).
        rewrite (Hd5 E r' rk HE); [|by later b|unfold chosen in Hc; by later b]. later b. unfold md, chosen in Hc |- *.
        cbn [fst]. case_decide; [left|right]; (split; [congruence|done]).
  - intros b4 id Hx4 Hb4 (_ & Hv4 & _ & Hp4). split; [done|]. intros E M s r HE Hrep Hr.
    destruct (Hp4 E M s r HE Hrep Hr) as [?|(E1 & Hnf & Hnone)]; [done|].
    rewrite E1. symmetry. apply choice_of_Some in Hr. apply (ur_other E M b us s Hrep); [by destruct (chosen_writable _ _ _ Hl Hr)|done|].
    intros key Hin Hc. apply list_elem_of_fmap in Hin as ([k id'] & -> & Hin).
    by apply (Hnone (k, id')), not_elem_of_nil in Hin.
Qed.

Lemma store_dynamic_spec us l index new b :
  us_valid b us -> choices_ok l -> valid b index -> valid b new ->
  spec (store_dynamic fuel us l index new) b (fun b' us' => us_valid b' us' /\ us_k us' = us_k us
    /\ (forall key, key ∈ (dynamic us').*1 -> key = {| choices := l; key_index := index |} \/ key ∈ (dynamic us).*1)
    /\ forall E M s s' r, env_ok E -> us_repr E M b us s -> choice_of l b index E = Some r ->
       changed s s' r (den E b new) -> us_repr E M b' us' s').
Proof.
  intros Hus Hl Hi Hn. pose proof (choices_length _ Hl). unfold store_dynamic. apply spec_lift. intros key Hkey.
  apply key_new_eq in Hkey as ->. set (key := {| choices := l; key_index := index |}).
  set (entries := map_insert (dynamic us) key new).
  assert (forall k v, (k, v) ∈ entries -> choices_ok (choices k) /\ valid b (key_index k) /\ valid b v) as Hentries.
  { intros k v Hin. apply map_insert_elem in Hin as [[-> ->]|[_ Hin]]; [done|by apply (uv_dynamic_elem b us)|apply Hus]. }
  eapply spec_bind.
  { apply (spec_revalue (fun r v => override fuel index l 0 r new v) (fixed us) b
      (fun x E z => z = if decide (choice_of l b index E = Some x.1) then den E b new else den E b x.2)).
    intros r v b' Hin Hx. destruct (uv_fixed_elem b us r v Hus Hin) as (Hw & Hv).
    eapply spec_weaken; [apply override_spec; eauto with mir; lia|]. intros b2 id Hx2 _ [Hv2 Hd2]. split; [done|].
    intros E HE. rewrite Hd2, Z.sub_0_r by done. later b. cbn [fst snd].
    case_decide as H1; case_decide as H2; try done; rewrite choice_of_Some in H2; done. }
  intros b1 f Hx1 Hb1 Hf. eapply spec_bind.
  { apply (spec_revalue (fun k v => propagate_dynamic_val fuel l index (choices k) (key_index k) new v) entries b1
      (fun x E z => forall r r', choice_of l b index E = Some r -> chosen E b x.1 r' ->
         z = if decide (r = r') then den E b new else den E b x.2)).
    intros k v b' Hin Hx. destruct (Hentries k v Hin) as (Hok & Hki & Hv).
    eapply spec_weaken; [apply propagate_spec; eauto with mir|]. intros b2 id Hx2 _ [Hv2 Hd2]. split; [done|].
    intros E HE r r' Hr Hc. apply choice_of_Some in Hr. rewrite (Hd2 E r r' HE); [|by later b|unfold chosen in Hc; by later b].
    by later b. }
  intros b2 d Hx2 Hb2 Hd. apply spec_ret. intros _. pose proof (revalued_keys _ _ _ Hf) as Hfk. pose proof (revalued_keys _ _ _ Hd) as Hdk.
  split; [|split; [done|split; [intros k; cbn [dynamic]; rewrite Hdk; by intros Hk%map_insert_keys|]]].
  - split; cbn [fixed dynamic us_k].
    + apply list.Forall_forall. intros [r id] Hin. destruct (revalued_elem _ _ _ _ _ Hf Hin) as (v & Hin' & Hv & _).
      destruct (uv_fixed_elem b us r v Hus Hin'). eauto with mir.
    + rewrite Hfk. apply Hus.
    + apply list.Forall_forall. intros [k id] Hin. destruct (revalued_elem _ _ _ _ _ Hd Hin) as (v & Hin' & Hv & _).
      destruct (Hentries k v Hin') as (? & ? & ?). cbn [fst snd] in *. eauto 6 with mir.
    + rewrite Hdk. apply map_insert_once, Hus.
    + intros k Hk. pose proof (uv_k b us Hus k Hk). eauto with mir.
  - intros E M s s' r HE [Hs HM Hfx Hdy Ho] Hr [Hnew Hsame]. assert (arr_get l (den E b index) = Some (Some r)) as Hr1
      by (by apply choice_of_Some).
    assert (forall k v, (k, v) ∈ entries -> exists r', chosen E b k r' /\ (r' <> r -> den E b v = raw_reg s r')) as Hch.
    { intros k v Hin. apply map_insert_elem in Hin as [[-> ->]|[_ Hin]]; [by exists r| |apply Hus].
      destruct (Hdy k v Hin) as (r' & Hc & Hv). by exists r'. }
    split; [done|done| | |]; cbn [fixed dynamic us_k].
    + intros r' id Hin. destruct (revalued_elem _ _ _ _ _ Hf Hin) as (v & Hin' & Hv & Hval).
      destruct (uv_fixed_elem b us r' v Hus Hin') as [[Hreal _] ?]. cbn [snd] in Hv. later b1. specialize (Hval E HE). cbn [fst snd] in Hval.
      rewrite Hval. case_decide as Hc; [by simplify_eq|]. rewrite Hsame; [by apply Hfx|done|congruence].
    + intros k id Hin. destruct (revalued_elem _ _ _ _ _ Hd Hin) as (v & Hin' & Hv & Hval).
      destruct (Hentries k v Hin') as (Hok & Hki & Hv0). destruct (Hch k v Hin') as (r' & Hc & Hv').
      exists r'. split; [apply (chosen_later E b); eauto with mir|]. specialize (Hval E HE r r' Hr Hc). cbn [snd] in Hval. rewrite Hval.
      case_decide as Hrr; [by subst|]. rewrite Hsame; [by apply Hv'|by destruct (chosen_writable _ _ _ Hok Hc)|done].
    + intros r' Hr' Hnf Hnk. rewrite Hfk in Hnf. rewrite Hdk in Hnk.
      assert (r' <> r) as Hne.
      { intros ->. apply (Hnk key); [apply map_insert_keys; by left|]. unfold chosen. cbn [choices key_index key]. by later b. }
      rewrite Hsame by done. apply Ho; [done..|]. intros k Hin Hc. apply (Hnk k); [apply map_insert_keys; by right|].
      apply list_elem_of_fmap in Hin as ([k' v] & -> & Hin). destruct (uv_dynamic_elem b us k' v Hus Hin) as (? & ? & ?).
      apply (chosen_later E b); eauto with mir.
Qed.

(** The instruction counter of the context. *)
Definition k_value (E : Env) (b : ValBuilder) (us : UncommittedState) : Z :=
  match us_k us with Some k => den E b k | None => load_value E K 0 Qword end.

Lemma k_value_later E b b' us : extends b b' -> us_valid b us -> k_value E b' us = k_value E b us.
Proof.
  intros Hx Hus. unfold k_value. destruct (us_k us) as [k|] eqn:Ek; [|done].
  pose proof (uv_k b us Hus k Ek). by rewrite (den_later E b b').
Qed.

Lemma get_or_compute_k_spec us b :
  us_valid b us -> spec (get_or_compute_k us) b (node_is (fun E => k_value E b us)).
Proof.
  intros Hus. unfold get_or_compute_k, k_value. destruct (us_k us) as [k|] eqn:Ek.
  - apply spec_ret. intros _. split; [by apply (uv_k b us Hus)|done].
  - apply spec_load; simpl; lia.
Qed.

Lemma us_repr_fields E M b us us' s :
  fixed us' = fixed us -> dynamic us' = dynamic us -> us_repr E M b us s -> us_repr E M b us' s.
Proof. intros Hf Hd [Hs HM H1 H2 H3]. split; rewrite ?Hf, ?Hd; done. Qed.

Lemma increment_k_spec us b :
  us_valid b us -> spec (us_increment_k fuel us) b (fun b' us' => us_valid b' us'
    /\ fixed us' = fixed us /\ dynamic us' = dynamic us
    /\ forall E, env_ok E -> k_value E b' us' = wrap 128 (k_value E b us + 1)).
Proof.
  intros Hus. unfold us_increment_k. eapply spec_bind; [by apply get_or_compute_k_spec|]. intros b1 k Hx1 _ Hk.
  eapply spec_bind; [by apply spec_imm|]. intros b2 one Hx2 _ Hone.
  eapply spec_bind; [apply spec_binop; eauto with mir|]. intros b3 k' Hx3 _ Hk'.
  apply spec_ret. intros _. assert (us_valid b3 us) as [] by (apply (us_valid_later b); eauto with mir).
  split; [split; try done|split; [done|split; [done|]]].
  - cbn [us_k]. intros k0 [= <-]. eauto with mir.
  - intros E HE. unfold k_value at 1. cbn [us_k]. rewrite (node_is_den _ _ _ E Hk' HE). later b1.
    by rewrite (node_is_den _ _ _ E Hk HE), (node_is_den _ _ _ E Hone HE), value_add.
Qed.

(** ** Merging the states of several paths *)

(** What the paths store in variables: fresh ones, each once. *)
Record stores_ok (nv nv' : Z) (b : ValBuilder) (stores : list (list (VarId * ValId))) : Prop := {
  st_vars : forall st v id, st ∈ stores -> (v, id) ∈ st -> nv <= v < nv' /\ valid b id;
  st_once : forall st, st ∈ stores -> NoDup st.*1;
  st_next : nv <= nv';
}.
Definition stores_grow (stores stores' : list (list (VarId * ValId))) : Prop :=
  Forall2 (fun st st' => forall x, x ∈ st -> x ∈ st') stores stores'.

#[export] Instance stores_grow_preorder : PreOrder stores_grow.
Proof.
  split; unfold stores_grow.
  - intros l. by apply Forall_Forall2_diag, Forall_true.
  - intros l1 l2 l3 H12 H23. revert l3 H23. induction H12; intros l3 H23; inv H23; constructor; eauto.
Qed.

Lemma stores_ok_later nv nv' b b' stores : extends b b' -> stores_ok nv nv' b stores -> stores_ok nv nv' b' stores.
Proof. intros Hx [Hv Ho Hn]. split; [|done|done]. intros st v id Hst Hin. destruct (Hv st v id Hst Hin). eauto with mir. Qed.

(** The merged value [id] of the values [vals] of the paths. *)
Definition merged (vals : list ValId) (stores : list (list (VarId * ValId))) (b : ValBuilder) (id : ValId) : Prop :=
  valid b id /\ forall i val st, vals !! i = Some val -> stores !! i = Some st ->
    id = val \/ exists n, (n, val) ∈ st /\ node_is (fun E => var_value E n) b id.

Lemma merged_later vals stores stores' b b' id :
  merged vals stores b id -> stores_grow stores stores' -> extends b b' -> merged vals stores' b' id.
Proof.
  intros [Hv Hm] Hg Hx. split; [eauto with mir|]. intros i val st' Hi Hst'.
  destruct (Forall2_lookup_r _ _ _ _ _ Hg Hst') as (st & Hst & Hsub).
  destruct (Hm i val st Hi Hst) as [?|(n & Hin & Hn)]; [by left|right]. exists n. split; [by apply Hsub|by apply (node_is_later _ b)].
Qed.

Lemma all_equal_elem {A} `{EqDecision A} (l : list A) x y : all_equal l = true -> head l = Some y -> x ∈ l -> x = y.
Proof.
  revert y. induction l as [|z l IH]; [done|]. intros y Hw Hy Hin. injection Hy as ->.
  apply elem_of_cons in Hin as [->|Hin]; [done|]. destruct l as [|w l]; [by apply not_elem_of_nil in Hin|].
  cbn [all_equal] in Hw. apply andb_prop in Hw as [->%bool_decide_eq_true Hw]. by apply (IH w).
Qed.

(** A fresh variable that every path sets. *)
Lemma spec_fresh_var nv next vals stores b :
  length vals = length stores -> Forall (valid b) vals -> stores_ok nv next b stores ->
  let stores' := zip_with (fun st val => st ++ [(next, val)]) stores vals in
  spec (use_var next) b (fun b' id => merged vals stores' b' id) /\ stores_grow stores stores' /\
  stores_ok nv (next + 1) b stores'.
Proof.
  intros Hlen Hvals Hst stores'. split; [|split].
  - eapply spec_weaken; [apply spec_var|]. intros b' id Hx _ Hid. split; [by destruct Hid|]. intros i val st' Hi Hst'.
    right. exists next. split; [|done]. apply lookup_zip_with_Some in Hst' as (st & val' & -> & _ & Hi'). simplify_eq.
    apply elem_of_app. right. by apply elem_of_cons; left.
  - clear Hst Hvals. subst stores'. revert vals Hlen. induction stores as [|st stores IH]; intros [|v vals] Hlen; [constructor|done|done|].
    simpl. constructor; [|apply IH; by simplify_eq/=]. intros x Hx. apply elem_of_app. by left.
  - assert (forall st', st' ∈ stores' -> exists st val, st ∈ stores /\ val ∈ vals /\ st' = st ++ [(next, val)]) as Hin.
    { intros st' H'. apply list_elem_of_lookup in H' as [i Hi]. apply lookup_zip_with_Some in Hi as (st & val & -> & H1 & H2).
      exists st, val. split; [by apply list_elem_of_lookup_2 in H1|]. split; [by apply list_elem_of_lookup_2 in H2|done]. }
    pose proof (st_next _ _ _ _ Hst). split; [| |lia].
    + intros st' v id Hst' Hv. destruct (Hin st' Hst') as (st & val & H1 & H2 & ->). apply elem_of_app in Hv as [Hv|Hv].
      * destruct (st_vars _ _ _ _ Hst st v id H1 Hv). split; [lia|done].
      * apply list_elem_of_singleton in Hv. simplify_eq. rewrite list.Forall_forall in Hvals. split; [lia|by apply Hvals].
    + intros st' Hst'. destruct (Hin st' Hst') as (st & val & H1 & _ & ->). rewrite fmap_app. apply list.NoDup_app. split; [by apply Hst|].
      split; [|apply NoDup_singleton]. intros v Hv Hv'. simpl in Hv'. apply list_elem_of_singleton in Hv'. subst v.
      apply list_elem_of_fmap in Hv as ([v id] & Ev & Hv). destruct (st_vars _ _ _ _ Hst st v id H1 Hv). simpl in *. lia.
Qed.

Lemma merge_vals_spec nv next vals stores b :
  length vals = length stores -> Forall (valid b) vals -> stores_ok nv next b stores ->
  spec (merge_vals vals (stores, next)) b (fun b' r =>
    merged vals r.2.1 b' r.1 /\ stores_grow stores r.2.1 /\ stores_ok nv r.2.2 b' r.2.1).
Proof.
  intros Hlen Hvals Hst. unfold merge_vals. destruct (all_equal vals) eqn:Ea.
  - apply spec_lift. intros v Hv. apply spec_ret. intros _. cbn [fst snd]. split; [|split; [done|done]]. split.
    + rewrite list.Forall_forall in Hvals. apply Hvals. destruct vals; [done|]. injection Hv as ->. by apply elem_of_cons; left.
    + intros i val st Hi _. left. symmetry. apply (all_equal_elem _ _ _ Ea Hv). by apply list_elem_of_lookup_2 in Hi.
  - destruct (spec_fresh_var nv next vals stores b Hlen Hvals Hst) as (Hm & Hg & Hok).
    eapply spec_bind; [exact Hm|]. intros b1 v Hx1 _ Hv. apply spec_ret. intros _. cbn [fst snd].
    split; [done|]. split; [done|]. by apply (stores_ok_later _ _ b).
Qed.

Lemma holds_reg_later b us r b1 b2 id : extends b1 b2 -> holds_reg b us r b1 id -> holds_reg b us r b2 id.
Proof. intros Hx [Hv Hd]. split; [eauto with mir|]. intros E M s r' HE Hrep Hr. rewrite (den_later E b1) by done. by apply (Hd E M s). Qed.

(** The entry of a merged location: the value of each path is right for that
    path. *)
Definition entry_right (states : list UncommittedState) (b : ValBuilder) (r : Env -> option Reg)
    (stores : list (list (VarId * ValId))) (b' : ValBuilder) (id : ValId) : Prop :=
  exists vals, Forall2 (fun us val => holds_reg b us r b' val) states vals /\ merged vals stores b' id.

Lemma entry_right_later states b r stores stores' b1 b2 id :
  entry_right states b r stores b1 id -> stores_grow stores stores' -> extends b1 b2 -> entry_right states b r stores' b2 id.
Proof.
  intros (vals & Hv & Hm) Hg Hx. exists vals. split; [|by apply (merged_later _ stores _ b1)].
  eapply Forall2_impl; [|exact Hv]. intros us val. by apply holds_reg_later.
Qed.

Definition merge_entries {A} (get : A -> UncommittedState -> bm ValId) (states : list UncommittedState) (l : list A)
    (s : list (list (VarId * ValId)) * Z) : bm (list (A * ValId) * (list (list (VarId * ValId)) * Z)) :=
  bfold (fun x '(f, s) =>
           vals <~ bmap (get x) states;;
           vs <~ merge_vals vals s;;
           bret (f ++ [(x, vs.1)], vs.2)) l ([], s).

Lemma spec_merge_entries {A} (get : A -> UncommittedState -> bm ValId) (R : A -> Env -> option Reg)
    (states : list UncommittedState) (l : list A) stores nv next b0 b :
  length stores = length states -> stores_ok nv next b stores -> extends b0 b ->
  (forall x us b', x ∈ l -> us ∈ states -> extends b b' -> spec (get x us) b' (holds_reg b0 us (R x))) ->
  spec (merge_entries get states l (stores, next)) b (fun b' r =>
    r.1.*1 = l /\ (forall x id, (x, id) ∈ r.1 -> entry_right states b0 (R x) r.2.1 b' id)
    /\ stores_grow stores r.2.1 /\ stores_ok nv r.2.2 b' r.2.1).
Proof.
  intros Hlen Hst Hx0 Hget. unfold merge_entries.
  set (I := fun (rest : list A) b' (r : list (A * ValId) * (list (list (VarId * ValId)) * Z)) =>
    extends b b' /\ r.1.*1 ++ rest = l /\ (forall x id, (x, id) ∈ r.1 -> entry_right states b0 (R x) r.2.1 b' id)
    /\ stores_grow stores r.2.1 /\ stores_ok nv r.2.2 b' r.2.1).
  eapply spec_weaken; [apply (spec_bfold _ l _ b I)|].
  - split; [done|]. split; [done|]. split; [by intros x id Hin%not_elem_of_nil|]. by split.
  - intros x rest b1 [f [sts n]] (Hx1 & Hl & Hf & Hg & Hok) Hb1. cbn [fst snd] in *. assert (x ∈ l) as Hxl.
    { rewrite <- Hl. apply elem_of_app. right. by apply elem_of_cons; left. }
    eapply spec_bind.
    { apply (spec_bmap _ states b1 (fun us b' val => holds_reg b0 us (R x) b' val)).
      - intros us b2 b3 val Hv Hx _. by apply (holds_reg_later _ _ _ b2).
      - intros us b' Hus Hx _. apply Hget; [done|done|by transitivity b1]. }
    intros b2 vals Hx2 Hb2 Hvals. assert (length vals = length sts) as Hlv.
    { rewrite <- (Forall2_length Hvals), <- (Forall2_length Hg). done. }
    eapply spec_bind.
    { apply (merge_vals_spec nv); [done| |by apply (stores_ok_later _ _ b1)].
      eapply Forall2_Forall_r; [exact Hvals|]. apply list.Forall_forall. by intros us _ val []. }
    intros b3 [id [sts' n']] Hx3 Hb3 (Hm & Hg' & Hok'). cbn [fst snd] in *. apply spec_ret. intros _.
    split; [transitivity b2; [by transitivity b1|done]|]. cbn [fst snd]. split; [by rewrite fmap_app, <- app_assoc|].
    split; [|split; [by transitivity sts|done]]. intros y id' [Hin|Hin]%elem_of_app.
    + apply (entry_right_later _ _ _ sts _ b1); [by apply Hf|done|by transitivity b2].
    + apply list_elem_of_singleton in Hin. simplify_eq. exists vals. split; [|done].
      eapply Forall2_impl; [|exact Hvals]. intros us val. by apply holds_reg_later.
  - intros b' [f [sts n]] _ _ (_ & Hl & Hf & Hg & Hok). cbn [fst snd] in *. by rewrite app_nil_r in Hl.
Qed.

(** The counter of the merged state is the one of a path, or the variable in
    which the path stores it. *)
Definition k_entry (b : ValBuilder) (us : UncommittedState) (st : list (VarId * ValId)) (b' : ValBuilder) (ko : option ValId) : Prop :=
  ko = us_k us \/ exists n val id, ko = Some id /\ (n, val) ∈ st /\ node_is (fun E => k_value E b us) b' val
    /\ node_is (fun E => var_value E n) b' id.

Lemma merge_k_spec states stores nv next b0 b :
  length stores = length states -> stores_ok nv next b stores -> extends b0 b -> Forall (us_valid b0) states ->
  spec (merge_k states (stores, next)) b (fun b' r =>
    (forall k, r.1 = Some k -> valid b' k) /\ stores_grow stores r.2.1 /\ stores_ok nv r.2.2 b' r.2.1
    /\ forall i us st, states !! i = Some us -> r.2.1 !! i = Some st -> k_entry b0 us st b' r.1).
Proof.
  intros Hlen Hst Hx0 Hus. rewrite list.Forall_forall in Hus. unfold merge_k. destruct (all_equal (us_k <$> states)) eqn:Ea.
  - apply spec_ret. intros _. cbn [fst snd]. split; [|split; [done|split; [done|]]].
    + intros k Hk. destruct states as [|us states]; [done|]. apply (extends_valid b0); [done|].
      apply (uv_k b0 us); [|done]. apply Hus. by apply elem_of_cons; left.
    + intros i us st Hi _. left. destruct states as [|us0 states]; [done|]. symmetry.
      apply (all_equal_elem _ _ (us_k us0) Ea); [done|]. apply list_elem_of_fmap. exists us. split; [done|].
      by apply list_elem_of_lookup_2 in Hi.
  - eapply spec_bind.
    { apply (spec_bmap _ states b (fun us b' val => node_is (fun E => k_value E b0 us) b' val)).
      - intros us b1 b2 val Hv Hx _. by apply (node_is_later _ b1).
      - intros us b' Hin Hx _. eapply spec_weaken; [apply get_or_compute_k_spec, (us_valid_later b0); [by transitivity b|by apply Hus]|].
        intros b2 val Hx2 _ [Hv Hd]. split; [done|]. intros E HE. rewrite Hd by done. apply k_value_later; [by transitivity b|by apply Hus]. }
    intros b1 ks Hx1 Hb1 Hks. cbn [fst snd].
    destruct (spec_fresh_var nv next ks stores b1) as (Hm & Hg & Hok).
    { by rewrite Hlen, (Forall2_length Hks). }
    { eapply Forall2_Forall_r; [exact Hks|]. apply list.Forall_forall. by intros us _ val []. }
    { by apply (stores_ok_later _ _ b). }
    eapply spec_bind; [apply spec_var|]. intros b2 v Hx2 _ Hv. apply spec_ret. intros _. cbn [fst snd].
    split; [intros k [= <-]; by destruct Hv|]. split; [done|]. split; [by apply (stores_ok_later _ _ b1)|].
    intros i us st Hi Hsti. right. apply lookup_zip_with_Some in Hsti as (st0 & val & -> & _ & Hval).
    exists next, val, v. split; [done|]. split; [apply elem_of_app; right; by apply elem_of_cons; left|]. split; [|done].
    apply (node_is_later _ b1); [done|]. by apply (Forall2_lookup_lr _ _ _ i us val Hks).
Qed.

Lemma all_regs_elem states r : r ∈ all_regs states <-> exists us, us ∈ states /\ r ∈ (fixed us).*1.
Proof. unfold all_regs. rewrite elem_of_remove_dups, list_elem_of_bind. split; intros (us & ? & ?); by exists us. Qed.
Lemma all_dyn_elem states k : k ∈ all_dyn states <-> exists us, us ∈ states /\ k ∈ (dynamic us).*1.
Proof. unfold all_dyn. rewrite elem_of_remove_dups, list_elem_of_bind. split; intros (us & ? & ?); by exists us. Qed.
Lemma all_regs_writable states b r : Forall (us_valid b) states -> r ∈ all_regs states -> writable r.
Proof.
  rewrite list.Forall_forall. intros Hus (us & Hin & Hr)%all_regs_elem.
  apply list_elem_of_fmap in Hr as ([r' id] & -> & Hr). by apply (uv_fixed_elem b us r' id (Hus _ Hin)).
Qed.
Lemma all_dyn_valid states b k :
  Forall (us_valid b) states -> k ∈ all_dyn states -> choices_ok (choices k) /\ valid b (key_index k).
Proof.
  rewrite list.Forall_forall. intros Hus (us & Hin & Hk)%all_dyn_elem.
  apply list_elem_of_fmap in Hk as ([k' id] & -> & Hk). by destruct (uv_dynamic_elem b us k' id (Hus _ Hin) Hk) as (? & ? & ?).
Qed.

(** Environments in which a path holds [us], and one in which it has stored
    its values. *)
Record path_env (P : Env -> Prop) (M : Z -> Z) (s : State) (kv : Z) (b : ValBuilder) (us : UncommittedState) : Prop := {
  pe_repr : forall E, P E -> env_ok E /\ us_repr E M b us s /\ k_value E b us = kv;
  pe_chosen : forall key, key ∈ (dynamic us).*1 -> exists r, forall E, P E -> chosen E b key r;
}.
Definition assigned (P : Env -> Prop) (b : ValBuilder) (st : list (VarId * ValId)) (E : Env) : Prop :=
  P E /\ forall v id, (v, id) ∈ st -> exists E0, P E0 /\ var_value E v = den E0 b id.

(** A merged value is the one of the path. *)
Lemma entry_value states b r stores b' id i us st P M s kv E r0 :
  entry_right states b r stores b' id -> states !! i = Some us -> stores !! i = Some st ->
  path_env P M s kv b us -> (forall E, P E -> r E = Some r0) -> assigned P b' st E ->
  den E b' id = raw_reg s r0.
Proof.
  intros (vals & Hvals & Hv & Hm) Hus Hst HP Hr [HE Ha].
  destruct (Forall2_lookup_l _ _ _ _ _ Hvals Hus) as (val & Hval & _ & Hright).
  assert (forall E, P E -> den E b' val = raw_reg s r0) as Hden.
  { intros E0 HE0. destruct (pe_repr _ _ _ _ _ _ HP E0 HE0) as (Hok & Hrep & _). apply (Hright E0 M); [done..|]. by apply Hr. }
  destruct (Hm i val st Hval Hst) as [->|(n & Hin & Hn)]; [by apply Hden|].
  destruct (pe_repr _ _ _ _ _ _ HP E HE) as (Hok & _). rewrite (node_is_den _ _ _ E Hn Hok).
  destruct (Ha n val Hin) as (E0 & HE0 & ->). by apply Hden.
Qed.

Lemma merge_n_spec states nv b :
  Forall (us_valid b) states ->
  spec (merge_n fuel states nv) b (fun b' r =>
    us_valid b' r.1 /\ stores_ok nv r.2.2 b' r.2.1 /\ length r.2.1 = length states /\ (dynamic r.1).*1 = all_dyn states
    /\ forall i us st P M s kv E, states !! i = Some us -> r.2.1 !! i = Some st -> path_env P M s kv b us ->
         (forall key, key ∈ all_dyn states -> key ∈ (dynamic us).*1) -> assigned P b' st E ->
         us_repr E M b' r.1 s /\ k_value E b' r.1 = kv).
Proof.
  intros Hus. pose proof Hus as Hus'. rewrite list.Forall_forall in Hus'. unfold merge_n.
  set (stores0 := replicate (length states) []). assert (stores_ok nv nv b stores0) as H0.
  { split; [| |done]; intros st; [intros v id|]; intros Hin; apply elem_of_replicate in Hin as [-> _]; [by intros ?%not_elem_of_nil|constructor]. }
  assert (length stores0 = length states) as Hl0 by apply length_replicate.
  eapply spec_bind.
  { apply (spec_merge_entries (fun r us => get_or_compute fuel us r) (fun r _ => Some r) states (all_regs states) stores0 nv nv b b);
      [done|done|done|].
    intros r us b' Hr Hin Hx. destruct (all_regs_writable _ _ _ Hus Hr) as [Hreal Hz].
    eapply spec_weaken; [apply get_or_compute_spec; [by apply (us_valid_later b), Hus'|done]|]. intros b2 id Hx2 _ [Hv Hd].
    split; [done|]. intros E M s r' HE Hrep [= <-]. rewrite (Hd E M s HE), decide_False; [done|done|].
    apply (us_repr_later E M b); [done|by apply Hus'|done]. }
  intros b1 [f [st1 n1]] Hx1 Hb1 (Hfk & Hf & Hg1 & Hok1). cbn [fst snd] in *. eapply spec_bind.
  { apply (spec_merge_entries (fun k us => get_or_compute_dynamic fuel us (choices k) (key_index k))
      (fun k => choice_of (choices k) b (key_index k)) states (all_dyn states) st1 nv n1 b b1);
      [by rewrite <- (Forall2_length Hg1)|done|done|].
    intros k us b' Hk Hin Hx. destruct (all_dyn_valid _ _ _ Hus Hk) as [Hok Hv]. assert (extends b b') by by transitivity b1.
    eapply spec_weaken; [apply get_or_compute_dynamic_spec; [by apply (us_valid_later b), Hus'|done|by eauto with mir]|].
    intros b2 id Hx2 _ [Hv2 Hd]. split; [done|]. intros E M s r' HE Hrep Hr. apply (Hd E M s r' HE).
    - apply (us_repr_later E M b); [done|by apply Hus'|done].
    - unfold choice_of in *. by later b. }
  intros b2 [d [st2 n2]] Hx2 Hb2 (Hdk & Hd & Hg2 & Hok2). cbn [fst snd] in *.
  assert (extends b b2) as Hx02 by by transitivity b1.
  eapply spec_bind; [apply (merge_k_spec states st2 nv n2 b b2); [by rewrite <- (Forall2_length Hg2), <- (Forall2_length Hg1)|done|done|done]|].
  intros b3 [ko [st3 n3]] Hx3 Hb3 (Hko & Hg3 & Hok3 & Hkd). cbn [fst snd] in *. apply spec_ret. intros _. cbn [fst snd].
  assert (extends b b3) as Hx03 by by transitivity b2. assert (extends b1 b3) as Hx13 by by transitivity b2.
  split; [|split; [done|split; [|split; [done|]]]].
  - split; cbn [fixed dynamic us_k]; [| | | |done].
    + apply list.Forall_forall. intros [r id] Hin. split.
      * apply (all_regs_writable _ _ _ Hus). rewrite <- Hfk. apply list_elem_of_fmap. by exists (r, id).
      * destruct (Hf r id Hin) as (vals & _ & Hv & _). cbn [snd]. eauto with mir.
    + rewrite Hfk. apply NoDup_remove_dups.
    + apply list.Forall_forall. intros [k id] Hin. destruct (all_dyn_valid states b k Hus) as [? ?].
      { rewrite <- Hdk. apply list_elem_of_fmap. by exists (k, id). }
      destruct (Hd k id Hin) as (vals & _ & Hv & _). cbn [fst snd]. eauto with mir.
    + rewrite Hdk. apply NoDup_remove_dups.
  - by rewrite <- (Forall2_length Hg3), <- (Forall2_length Hg2), <- (Forall2_length Hg1).
  - intros i us st P M s kv E Hi Hst HP Hkeys Ha. pose proof (list_elem_of_lookup_2 _ _ _ Hi) as Hin.
    destruct (pe_repr _ _ _ _ _ _ HP E (proj1 Ha)) as (HE & Hrep & Hkv). split.
    + split; [apply Hrep|apply Hrep| | |]; cbn [fixed dynamic].
      * intros r id Hr. pose proof (entry_right_later _ _ _ _ _ _ _ _ (Hf r id Hr) (transitivity Hg2 Hg3) Hx13) as He.
        by apply (entry_value _ _ _ _ _ _ _ _ _ _ _ _ _ _ _ He Hi Hst HP).
      * intros k id Hk. assert (k ∈ all_dyn states) as Hkd' by (rewrite <- Hdk; apply list_elem_of_fmap; by exists (k, id)).
        destruct (pe_chosen _ _ _ _ _ _ HP k (Hkeys k Hkd')) as (r & Hr). destruct (all_dyn_valid _ _ _ Hus Hkd').
        exists r. split; [apply (chosen_later E b); [done|done|by apply Hr, Ha]|].
        pose proof (entry_right_later _ _ _ _ _ _ _ _ (Hd k id Hk) Hg3 Hx3) as He.
        apply (entry_value _ _ _ _ _ _ _ _ _ _ _ _ _ _ _ He Hi Hst HP); [|done].
        intros E0 HE0. apply choice_of_Some. by apply Hr.
      * intros r Hr Hnf Hnk. apply (ur_other E M b us s Hrep); [done| |].
        -- rewrite Hfk in Hnf. intros Hinf. apply Hnf, all_regs_elem. by exists us.
        -- intros k Hk Hc. assert (k ∈ all_dyn states) as Hkd' by (apply all_dyn_elem; by exists us). apply (Hnk k); [by rewrite Hdk|].
           destruct (all_dyn_valid _ _ _ Hus Hkd'). by apply (chosen_later E b).
    + destruct (Hkd i us st Hi Hst) as [->|(n & val & id & -> & Hn & Hval & Hid)].
      * unfold k_value in Hkv |- *. cbn [us_k]. destruct (us_k us) as [k|] eqn:Ek; [|done].
        pose proof (uv_k b us (Hus' _ Hin) k Ek). by later b.
      * unfold k_value. cbn [us_k]. rewrite (node_is_den _ _ _ E Hid HE). destruct (proj2 Ha n val Hn) as (E0 & HE0 & ->).
        destruct (pe_repr _ _ _ _ _ _ HP E0 HE0) as (HE0' & _ & <-). by apply (node_is_den _ _ _ E0 Hval).
Qed.
End sound.

#[export] Hint Resolve us_valid_later : mir.
