(* ===== verification/MirCommit.v ===== *)
(** * What compiled code stores when it exits

    [commit_and_exit] of [sem86-core/src/codegen/mir/mod.rs] turns the
    uncommitted registers into stores to the CPU state: whole registers, the
    low bytes that changed, or the flags that changed.  After the stores the
    bytes hold the state that the registers represent. *)
From stdpp Require Import sorting.
From S2P Require Import Prelude Exceptions IlOps Arch IlLoc IlCmd ValTree ValBuild ValSpec ValSound ValCombine ValMono.
From S2P Require Import CpuBytes Mir MirState MirEmit MirSpec MirStateSound ValMath IlExample.

#[local] Open Scope bm_scope.

Section commit.
Context `{lay : Layout} `{laws : !LayoutLaws} (fuel : nat).

(** ** Bytes of registers *)

(** Byte [k] of a number. *)
Definition byte (x k : Z) : Z := wrap 8 (Z.shiftr x (8 * k)).

Lemma byte_load M n a k : bytes_ok M -> 0 <= k < n -> byte (load M n a) k = M (a + k).
Proof.
  intros HM Hk. apply Z.bits_inj'. intros i Hi. unfold byte. rewrite testbit_wrap, Z.shiftr_spec by lia.
  destruct (Z.ltb_spec i 8); cbn [andb].
  - rewrite load_testbit by (done || lia). rewrite (proj2 (Z.ltb_lt _ _)) by lia. cbn [andb].
    rewrite ?(proj2 (Z.leb_le 0 i)) by lia. cbn [andb].
    replace ((i + 8 * k) / 8) with k by (Z.to_euclidean_division_equations; lia).
    f_equal. Z.to_euclidean_division_equations; lia.
  - symmetry. apply (testbit_above 8); [apply HM|lia].
Qed.

Lemma byte_above w x k : inw (8 * w) x -> 0 <= w <= k -> byte x k = 0.
Proof.
  intros Hx Hw. apply Z.bits_inj'. intros i Hi. unfold byte. rewrite testbit_wrap, Z.shiftr_spec, Z.bits_0 by lia.
  rewrite (testbit_above (8 * w)) by (done || lia). by rewrite ?andb_false_r.
Qed.

Lemma bytes_eq w x y : 0 <= w -> inw (8 * w) x -> inw (8 * w) y -> (forall k, 0 <= k < w -> byte x k = byte y k) -> x = y.
Proof.
  intros Hw Hx Hy Hk. apply Z.bits_inj'. intros i Hi. destruct (Z.ltb_spec i (8 * w)).
  - assert (0 <= i / 8 < w) as Hq by (Z.to_euclidean_division_equations; lia).
    pose proof (f_equal (fun z => Z.testbit z (i mod 8)) (Hk (i / 8) Hq)) as E. cbn beta in E. unfold byte in E.
    pose proof (Z.mod_pos_bound i 8 ltac:(lia)).
    rewrite !testbit_wrap, !Z.shiftr_spec in E by lia. rewrite (proj2 (Z.ltb_lt (i mod 8) 8)) in E by lia. cbn [andb] in E.
    replace (i mod 8 + 8 * (i / 8)) with i in E by (pose proof (Z.div_mod i 8 ltac:(lia)); lia).
    rewrite ?(proj2 (Z.leb_le 0 (i mod 8))) in E by lia. exact E.
  - by rewrite !(testbit_above (8 * w)) by (done || lia).
Qed.

(** A store of bytes of a register of [s] at their place. *)
Definition store_right (s : State) (x : Z * Z * Z) : Prop :=
  let '(a, n, v) := x in
  exists r off, real_reg r /\ a = byte_offset_of r + off /\ 0 <= off /\ off + n <= storage_bytes r
    /\ forall k, 0 <= k < n -> byte v k = byte (raw_reg s r) (off + k).
Definition covers (a : Z) (x : Z * Z * Z) : Prop := x.1.1 <= a < x.1.1 + x.1.2.

(** The bytes of [r] are right in [c], or the stores cover them. *)
Definition completes (c : Z -> Z) (s : State) (r : Reg) (l : list (Z * Z * Z)) : Prop :=
  forall k, 0 <= k < storage_bytes r ->
    c (byte_offset_of r + k) = byte (raw_reg s r) k \/ exists x, x ∈ l /\ covers (byte_offset_of r + k) x.

Definition run_stores (c : Z -> Z) (l : list (Z * Z * Z)) : Z -> Z := foldl (fun c '(a, n, v) => store c n a v) c l.

(** Registers do not overlap. *)
Lemma same_byte r r' k k' :
  real_reg r -> real_reg r' -> 0 <= k < storage_bytes r -> 0 <= k' < storage_bytes r' ->
  byte_offset_of r + k = byte_offset_of r' + k' -> r = r' /\ k = k'.
Proof.
  intros Hr Hr' Hk Hk' E. destruct (decide (r = r')) as [->|Hne]; [split; [done|lia]|].
  destruct (offsets_disjoint r r' Hr Hr' Hne); lia.
Qed.

Lemma stores_complete s l c :
  bytes_ok c -> Forall (store_right s) l -> (forall r, real_reg r -> completes c s r l) ->
  bytes_ok (run_stores c l) /\ forall r, real_reg r -> completes (run_stores c l) s r [].
Proof.
  revert c. induction l as [|[[a n] v] l IH]; intros c Hc Hl Hcov; [done|].
  apply list.Forall_cons in Hl as [(r0 & off & Hr0 & -> & Hoff & Hn & Hv) Hl]. cbn [run_stores foldl].
  apply IH; [by apply store_bytes_ok|done|]. intros r Hr k Hk.
  destruct (Hcov r Hr k Hk) as [E|(x & Hx & Hcx)].
  - unfold store. destruct (Z.leb_spec (byte_offset_of r0 + off) (byte_offset_of r + k)),
      (Z.ltb_spec (byte_offset_of r + k) (byte_offset_of r0 + off + n)); cbn [andb]; try (by left).
    left. destruct (same_byte r r0 k (byte_offset_of r + k - byte_offset_of r0)) as [-> Hkk]; [done|done|done|lia|lia|].
    replace (byte_offset_of r0 + k - (byte_offset_of r0 + off)) with (k - off) by lia. fold (byte v (k - off)).
    rewrite Hv by lia. f_equal. lia.
  - apply elem_of_cons in Hx as [->|Hx]; [|right; by exists x]. unfold covers in Hcx. cbn [fst snd] in Hcx. left. unfold store.
    rewrite (proj2 (Z.leb_le _ _)), (proj2 (Z.ltb_lt _ _)) by lia. cbn [andb].
    destruct (same_byte r r0 k (byte_offset_of r + k - byte_offset_of r0)) as [-> Hkk]; [done|done|done|lia|lia|].
    replace (byte_offset_of r0 + k - (byte_offset_of r0 + off)) with (k - off) by lia. fold (byte v (k - off)).
    rewrite Hv by lia. f_equal. lia.
Qed.

(** Complete bytes are the state. *)
Lemma completes_cpu c s :
  bytes_ok c -> wf_state s -> fits s -> (forall r, real_reg r -> completes c s r []) -> cpu_of c = s.
Proof.
  intros Hc Hwf Hfits Hall. apply state_ext; [apply cpu_of_wf|done|]. intros r Hr. rewrite raw_reg_cpu_of by done.
  pose proof (size_in_storage r). apply (bytes_eq (storage_bytes r)); [lia|by apply load_inw; [|lia]| |].
  - apply (inw_mono (8 * byte_size r)); [lia|by apply Hfits].
  - intros k Hk. unfold load_reg. rewrite byte_load by done. destruct (Hall r Hr k Hk) as [?|(x & Hx & _)]; [done|].
    by apply not_elem_of_nil in Hx.
Qed.

(** ** The stores of a commit *)

(** Masks of blends consist of whole bytes. *)
Definition byte_mask (n : ValNode) : bool :=
  match n with NBlend _ _ mask => (128 - leading_zeros 128 mask) mod 8 =? 0 | _ => true end.
Definition byte_masks (t : list ValNode) : bool := forallb byte_mask t.

Lemma byte_masks_later b b' : extends b b' -> byte_masks (value_tree b') = true -> byte_masks (value_tree b) = true.
Proof. intros [u ->]. unfold byte_masks. rewrite forallb_app. by intros [? _]%andb_prop. Qed.

(** Address, size and value of a store. *)
Definition store_of (E : Env) (b : ValBuilder) (x : CommitDest * ValId) : Z * Z * Z :=
  match x.1 with
  | CReg r => (byte_offset_of r, byte_size r, den E b x.2)
  | CFixed size offset => (offset, ds_num_bytes size, den E b x.2)
  | CDynamic size offset => (wrap 64 (den E b offset), ds_num_bytes size, den E b x.2)
  end.
Definition valid_dest (b : ValBuilder) (x : CommitDest * ValId) : Prop :=
  valid b x.2 /\ match x.1 with CDynamic _ offset => valid b offset | _ => True end.

Lemma store_of_later E b b' x : extends b b' -> valid_dest b x -> store_of E b' x = store_of E b x.
Proof. intros Hx [Hv Hd]. destruct x as [[r|size o|size o] y]; unfold store_of; cbn [fst snd] in *; by later b. Qed.
Lemma valid_dest_later b b' x : extends b b' -> valid_dest b x -> valid_dest b' x.
Proof. intros Hx [Hv Hd]. destruct x as [[r|size o|size o] y]; split; cbn [fst snd] in *; eauto with mir. Qed.

(** The stores [vs] bring the register that [r] names up to date. *)
Definition commits (b0 : ValBuilder) (r : Env -> option Reg) (y : ValId) (b : ValBuilder) (vs : list (CommitDest * ValId)) : Prop :=
  Forall (valid_dest b) vs
  /\ forall E M s r', env_ok E -> sees E M -> entered M -> fits s -> byte_masks (value_tree b) = true ->
     r E = Some r' -> den E b0 y = raw_reg s r' ->
     Forall (store_right s) (store_of E b <$> vs) /\ completes M s r' (store_of E b <$> vs).

Lemma store_of_later_all E b b' vs : extends b b' -> Forall (valid_dest b) vs -> store_of E b' <$> vs = store_of E b <$> vs.
Proof.
  intros Hx Hvs. induction Hvs as [|x vs Hv Hvs IH]; [done|]. rewrite !fmap_cons, IH. f_equal. by apply store_of_later.
Qed.

Lemma commits_later b0 r y b b' vs : extends b b' -> commits b0 r y b vs -> commits b0 r y b' vs.
Proof.
  intros Hx [Hv Hc]. split; [eapply Forall_impl; [|exact Hv]; intros x; by apply valid_dest_later|].
  intros E M s r' HE HM Hent Hf Hmask Hr Hy. rewrite (store_of_later_all E b b') by done.
  apply Hc; [done..| |done|done]. by apply (byte_masks_later b b').
Qed.

(** Bytes above the size of a register are zero before and after. *)
Lemma byte_unused M s r k :
  entered M -> fits s -> real_reg r -> byte_size r <= k < storage_bytes r ->
  M (byte_offset_of r + k) = byte (raw_reg s r) k.
Proof.
  intros HM Hs Hr Hk. pose proof (size_in_storage r).
  rewrite (byte_above (byte_size r)) by (lia || by apply Hs).
  rewrite <- (byte_load M (storage_bytes r)) by (apply HM || lia).
  apply (byte_above (byte_size r)); [by apply (entered_fits M HM)|lia].
Qed.

(** One store of the low [n] bytes, when the others have not changed. *)
Lemma store_low E M s r n b x a :
  entered M -> fits s -> real_reg r -> store_of E b x = (byte_offset_of r, n, a) -> 0 <= n <= byte_size r ->
  (forall k, 0 <= k < n -> byte a k = byte (raw_reg s r) k) ->
  (forall k, n <= k < byte_size r -> M (byte_offset_of r + k) = byte (raw_reg s r) k) ->
  Forall (store_right s) (store_of E b <$> [x]) /\ completes M s r (store_of E b <$> [x]).
Proof.
  intros HM Hs Hr Hx Hn Ha Hrest. pose proof (size_in_storage r). cbn [fmap list_fmap]. rewrite Hx. split.
  - apply Forall_cons; [|constructor]. exists r, 0. repeat split; [done|lia|lia|lia|]. intros k Hk. by rewrite Ha by done.
  - intros k Hk. destruct (Z.lt_ge_cases k n).
    + right. exists (byte_offset_of r, n, a). split; [by apply elem_of_cons; left|]. unfold covers. cbn [fst snd]. lia.
    + left. destruct (Z.lt_ge_cases k (byte_size r)); [apply Hrest; lia|apply byte_unused; done || lia].
Qed.

Lemma byte_extract y skip n k :
  0 <= k < n -> 0 <= skip -> byte (extract_value y (8 * skip) (8 * n)) k = byte y (skip + k).
Proof.
  intros Hk Hs. unfold byte, extract_value. apply Z.bits_inj'. intros i Hi. autorewrite with zbits.
  destruct (Z.ltb_spec i 8); cbn [andb]; [|done].
  rewrite (proj2 (Z.leb_le 0 i)), (proj2 (Z.leb_le 0 (i + 8 * k))) by lia. cbn [andb].
  rewrite ?(proj2 (Z.ltb_lt (i + 8 * k) (8 * n))), ?andb_true_r by lia. f_equal. lia.
Qed.

Lemma spec_commit_flags r y ns b :
  is_flags r = true -> valid b y -> Forall (fun n => 0 <= n < 8) ns ->
  spec (commit_flags fuel r (unwrap_or (reg_mask r) (2 ^ 64 - 1)) y ns) b (fun b' vs =>
    Forall (valid_dest b') vs
    /\ forall E M s, env_ok E -> sees E M -> entered M -> den E b y = raw_reg s r ->
       Forall (store_right s) (store_of E b' <$> vs)
       /\ forall k, k ∈ ns -> M (byte_offset_of r + k) = byte (raw_reg s r) k
            \/ exists x, x ∈ store_of E b' <$> vs /\ covers (byte_offset_of r + k) x).
Proof.
  intros Hf Hy. assert (exists g, r = Gp g /\ gp_is_flags g = true) as (g & -> & Hg) by (destruct r; [by eexists|done]).
  assert (real_reg (Gp g)) as Hreal by done. pose proof (byte_offset_range (Gp g) Hreal) as Hrange.
  assert (byte_size (Gp g) = 8) as Hsize.
  { unfold gp_is_flags in Hg. apply orb_prop in Hg as [E|E]; apply bool_decide_eq_true in E; by subst g. }
  assert (storage_bytes (Gp g) = 8) as Hstorage by done. rewrite Hsize in Hrange.
  revert b Hy. induction ns as [|n ns IH]; intros b Hy Hns.
  { apply spec_ret. intros _. split; [constructor|]. intros E M s HE HM Hent Hd. split; [constructor|]. by intros k Hk%not_elem_of_nil. }
  apply list.Forall_cons in Hns as [Hn Hns]. cbn [commit_flags].
  assert (negb (Z.land (unwrap_or (reg_mask (Gp g)) (2 ^ 64 - 1)) (Z.shiftl 0xff (n * 8)) =? 0) = true) as ->.
  { cbn [reg_mask]. unfold gp_mask. rewrite Hg. cbn [unwrap_or]. destruct (Z.eqb_spec (Z.land 0x0101010101010101 (Z.shiftl 0xff (n * 8))) 0) as [E|]; [|done].
    assert (n = 0 \/ n = 1 \/ n = 2 \/ n = 3 \/ n = 4 \/ n = 5 \/ n = 6 \/ n = 7) as Hc by lia.
    by destruct Hc as [-> | [-> | [-> | [-> | [-> | [-> | [-> | ->]]]]]]]. }
  rewrite (wrap_small 16) by (unfold inw; lia).
  set (here_ok := fun b' vs => Forall (valid_dest b') vs /\ forall E M s, env_ok E -> sees E M -> entered M -> den E b y = raw_reg s (Gp g) ->
       Forall (store_right s) (store_of E b' <$> vs)
       /\ (M (byte_offset_of (Gp g) + n) = byte (raw_reg s (Gp g)) n
            \/ exists x, x ∈ store_of E b' <$> vs /\ covers (byte_offset_of (Gp g) + n) x)).
  apply (spec_bind _ _ b here_ok).
  - rewrite (Z.mul_comm n 8). eapply spec_bind; [apply spec_extract; [done|lia|lia|lia]|]. intros b1 val Hx1 _ Hval.
    eapply spec_bind; [apply spec_load; cbn [ds_num_bytes]; lia|]. intros b2 original Hx2 _ Horig. apply spec_ret. intros _.
    assert (forall E s, env_ok E -> den E b y = raw_reg s (Gp g) -> den E b2 val = byte (raw_reg s (Gp g)) n) as Hbyte.
    { intros E s HE Hd. later b1. rewrite (node_is_den _ _ _ E Hval HE), Hd. unfold byte, extract_value. by rewrite wrap_land by lia. }
    destruct (decide (val = original)) as [->|Hne]; split; [constructor| |by repeat constructor; eauto with mir|].
    + intros E M s HE HM Hent Hd. split; [constructor|]. left. rewrite <- (Hbyte E s HE Hd), (node_is_den _ _ _ E Horig HE).
      rewrite (load_value_sees E M Byte _ (byte_offset_of (Gp g) + n)); [|done|apply wrap_small; unfold inw; lia|lia|cbn [ds_num_bytes]; lia].
      unfold load. simpl. by rewrite Z.lor_0_r, Z.add_0_r.
    + intros E M s HE HM Hent Hd. cbn [fmap list_fmap]. unfold store_of. cbn [fst snd ds_num_bytes]. split.
      * apply Forall_cons; [|constructor]. exists (Gp g), n. repeat split; [lia|rewrite Hstorage; lia|].
        intros k Hk. assert (k = 0) as -> by lia. rewrite (Hbyte E s HE Hd). unfold byte. rewrite Z.add_0_r, Z.mul_0_r, Z.shiftr_0_r.
        by rewrite wrap_wrap by lia.
      * right. exists (byte_offset_of (Gp g) + n, 1, den E b2 val). split; [by apply elem_of_cons; left|]. unfold covers. cbn [fst snd]. lia.
  - intros b1 here Hx1 Hb1 [Hv1 Hh]. eapply spec_bind; [apply IH; eauto with mir|]. intros b2 rest Hx2 _ [Hv2 Hr].
    apply spec_ret. intros _. split.
    + apply Forall_app. split; [|done]. eapply Forall_impl; [|exact Hv1]. intros x. by apply valid_dest_later.
    + intros E M s HE HM Hent Hd. rewrite fmap_app, (store_of_later_all E b1 b2 here) by done.
      destruct (Hh E M s HE HM Hent Hd) as [Hs1 Hc1]. destruct (Hr E M s HE HM Hent) as [Hs2 Hc2]; [by later b|]. split; [by apply Forall_app|].
      intros k [->|Hk]%elem_of_cons.
      * destruct Hc1 as [?|(x & ? & ?)]; [by left|right]. exists x. split; [apply elem_of_app; by left|done].
      * destruct (Hc2 k Hk) as [?|(x & ? & ?)]; [by left|right]. exists x. split; [apply elem_of_app; by right|done].
Qed.

Lemma leading_zeros_le x : leading_zeros 128 x <= 128.
Proof. unfold leading_zeros. destruct (Z.eqb_spec x 0); [done|]. pose proof (Z.log2_nonneg x). lia. Qed.

Lemma updated_nonneg t y original n : determine_updated_bytes_in t y original = Some (Some n) -> 0 <= n.
Proof.
  unfold determine_updated_bytes_in. destruct (t !! y) as [node|]; [|done]. cbn [mbind option_bind]. intros [= H].
  destruct node; try done. destruct (decide _); [|done]. injection H as <-.
  apply Z.div_pos; [|lia]. pose proof (leading_zeros_le mask0). lia.
Qed.

(** A value that differs from the old one in the low bytes only. *)
Lemma updated_bytes b y original n E M r :
  determine_updated_bytes_in (value_tree b) y original = Some (Some n) -> wf b -> env_ok E -> valid b y ->
  byte_masks (value_tree b) = true -> den E b original = initial M r -> bytes_ok M ->
  forall k, n <= k < byte_size r -> M (byte_offset_of r + k) = byte (den E b y) k.
Proof.
  intros Hd Hb HE Hy Hmask Ho HM. pose proof (updated_nonneg _ _ _ _ Hd) as Hn. unfold determine_updated_bytes_in in Hd.
  destruct (value_tree b !! y) as [node|] eqn:En; [|done]. cbn [mbind option_bind] in Hd. injection Hd as Hd.
  destruct node as [| | | | | |lhs rhs mask| | | | | |]; try done. destruct (decide (lhs = original)) as [->|]; [|done].
  injection Hd as <-. pose proof (wf_nodes b Hb y _ En) as Hok. cbn [node_ok] in Hok.
  unfold byte_masks in Hmask. rewrite forallb_forall in Hmask. specialize (Hmask _ (proj1 (list_elem_of_In _ _) (list_elem_of_lookup_2 _ _ _ En))).
  cbn [byte_mask] in Hmask. apply Z.eqb_eq in Hmask.
  intros k Hk.
  rewrite (den_node E b y _ Hb En). cbn [eval_node]. rewrite Ho.
  rewrite <- (byte_load M (byte_size r) (byte_offset_of r) k) by (done || lia).
  fold (initial M r). unfold byte. apply Z.bits_inj'. intros i Hi. rewrite !testbit_wrap, !Z.shiftr_spec by lia.
  destruct (Z.ltb_spec i 8); cbn [andb]; [|done]. rewrite blend_testbit, (leading_zeros_spec mask); [done|done|].
  pose proof (Z.div_mod (128 - leading_zeros 128 mask) 8 ltac:(lia)). lia.
Qed.

(** The sizes of the stores of low bytes, for every size of a register. *)
Definition low_size_ok (size n : Z) : bool :=
  let m := next_power_of_two n in
  negb (n <=? size / 2) || (n <=? m) && (m <=? size) && (m <=? 8)
    && match try_from_bytes m with Some d => ds_num_bytes d =? m | None => false end.
Lemma low_sizes_ok : forallb (fun size => forallb (low_size_ok size) (seqZ 0 9)) [1; 2; 4; 8; 16] = true.
Proof. reflexivity. Qed.

Lemma power_of_two_sizes r n :
  0 <= n -> (n <=? byte_size r / 2) = true -> n <= next_power_of_two n <= byte_size r /\ next_power_of_two n <= 8
  /\ exists size, try_from_bytes (next_power_of_two n) = Some size /\ ds_num_bytes size = next_power_of_two n.
Proof.
  intros Hn Hle. assert (byte_size r ∈ [1; 2; 4; 8; 16]) as Hs by (destruct r as [[]|[]]; apply (bool_decide_unpack _); exact I).
  assert (n ∈ seqZ 0 9) as Hin.
  { apply elem_of_seqZ. split; [done|]. apply Z.leb_le in Hle. pose proof (Z.div_le_upper_bound (byte_size r) 2 8 ltac:(lia)).
    assert (byte_size r <= 16) by (destruct r as [[]|[]]; simpl; lia). lia. }
  pose proof low_sizes_ok as Hok. rewrite forallb_forall in Hok. specialize (Hok _ (proj1 (list_elem_of_In _ _) Hs)).
  rewrite forallb_forall in Hok. specialize (Hok _ (proj1 (list_elem_of_In _ _) Hin)). unfold low_size_ok in Hok. rewrite Hle in Hok.
  cbn [negb orb] in Hok. destruct (try_from_bytes (next_power_of_two n)) as [d|]; [|by rewrite andb_false_r in Hok].
  apply andb_prop in Hok as [Hok Ed%Z.eqb_eq]. apply andb_prop in Hok as [Hok ?%Z.leb_le]. apply andb_prop in Hok as [?%Z.leb_le ?%Z.leb_le].
  split; [lia|]. split; [lia|]. by exists d.
Qed.

Lemma spec_commit_reg r y b :
  writable r -> valid b y -> spec (commit_reg fuel r y) b (commits b (fun _ => Some r) y).
Proof.
  intros [Hr Hz] Hy. unfold commit_reg. pose proof (byte_offset_range r Hr) as Hrange. pose proof (size_in_storage r) as Hsize.
  destruct (is_flags r) eqn:Hf.
  { eapply spec_weaken; [apply spec_commit_flags; [done|done|]|].
    - apply list.Forall_forall. intros n Hn%elem_of_seqZ. lia.
    - intros b' vs Hx _ [Hv Hc]. split; [done|]. intros E M s r' HE HM Hent Hs _ [= <-] Hd.
      destruct (Hc E M s HE HM Hent Hd) as [Hright Hcov]. split; [done|]. intros k Hk. apply Hcov, elem_of_seqZ.
      assert (storage_bytes r = 8) by (by destruct r as [[]|[]]). lia. }
  apply spec_lift. intros size Hsz. rewrite wrap_small by (unfold inw; lia).
  eapply spec_bind; [by apply spec_initial|]. intros b1 original Hx1 Hb1 [Hov Hod].
  assert (forall E M s b' x, entered M -> fits s -> env_ok E -> den E b y = raw_reg s r -> extends b b' -> x = (CReg r, y) ->
    Forall (store_right s) (store_of E b' <$> [x]) /\ completes M s r (store_of E b' <$> [x])) as Hwhole.
  { intros E M s b' x Hent Hs HE Hd Hx ->. apply (store_low E M s r (byte_size r) b' _ (den E b y)); [done|done|done| |lia| |].
    - unfold store_of. cbn [fst snd]. by later b.
    - intros k _. by rewrite Hd.
    - lia. }
  intros Hb1' vs b' Hvs. unfold bbind at 1, blift in Hvs.
  destruct (determine_updated_bytes_in (value_tree b1) y original) as [[n|]|] eqn:Eu; [| |done]; cbn [mbind option_bind] in Hvs.
  - revert Hb1' vs b' Hvs. change (spec (if n <=? byte_size r / 2 then
        bits <~ blift (u8_bits (next_power_of_two n));;
        sliced <~ extract fuel y 0 bits;;
        size <~ blift (try_from_bytes (next_power_of_two n));;
        bret [(CFixed size (byte_offset_of r), sliced)]
      else bret [(CReg r, y)]) b1 (commits b (fun _ => Some r) y)).
    assert (valid b1 y) as Hy1 by eauto with mir.
    pose proof (updated_nonneg _ _ _ _ Eu) as Hn. destruct (n <=? byte_size r / 2) eqn:Hle.
    + destruct (power_of_two_sizes r n Hn Hle) as (Hp & Hp8 & size' & Hsize' & Hds). set (p := next_power_of_two n) in *.
      assert (1 <= p) by (pose proof (ds_num_bytes_range size'); lia). apply spec_lift. intros bits Hbits. unfold u8_bits in Hbits.
      rewrite (wrap_small 8) in Hbits by (unfold inw; lia). destruct (assert _); [|done]. cbn [mbind option_bind] in Hbits.
      injection Hbits as <-. rewrite (Z.mul_comm p 8).
      eapply spec_bind; [apply spec_extract; [done|lia|lia|lia]|]. intros b2 sliced Hx2 _ Hsl. apply spec_lift. intros d Hd. rewrite Hsize' in Hd. injection Hd as <-.
      apply spec_ret. intros _. split; [by repeat constructor; eauto with mir|].
      intros E M s r' HE HM Hent Hs Hmask [= <-] Hd. apply (store_low E M s r p b2 _ (den E b2 sliced)); [done|done|done| |lia| |].
      * unfold store_of. cbn [fst snd]. by rewrite Hds.
      * intros k Hk. rewrite (node_is_den _ _ _ E Hsl HE). later b. rewrite Hd. pose proof (byte_extract (raw_reg s r) 0 p k Hk ltac:(lia)) as Hb.
        by rewrite Z.mul_0_r in Hb.
      * intros k Hk. rewrite <- Hd. replace (den E b y) with (den E b1 y) by by later b.
        apply (updated_bytes b1 y original n E M r Eu Hb1 HE Hy1); [by apply (byte_masks_later b1 b2)|by apply Hod|apply Hent|lia].
    + apply spec_ret. intros _. split; [by repeat constructor; eauto with mir|].
      intros E M s r' HE HM Hent Hs _ [= <-] Hd. by apply Hwhole.
  - injection Hvs as <- <-. split; [done|]. split; [done|]. split; [by repeat constructor; eauto with mir|].
    intros E M s r' HE HM Hent Hs _ [= <-] Hd. by apply Hwhole.
Qed.

(** The register that an uncommitted location stands for. *)
Definition loc_is (b : ValBuilder) (r : Env -> option Reg) (x : UncommittedLoc * ValId) : Prop :=
  valid b x.2 /\
  match x.1 with
  | UReg r' => writable r' /\ forall E, r E = Some r'
  | UDynamic offset size _ => valid b offset /\ forall E r', env_ok E -> r E = Some r' ->
      wrap 64 (den E b offset) = byte_offset_of r' /\ real_reg r' /\ byte_size r' = size
  end.

Lemma spec_commit_loc r x b : loc_is b r x -> spec (commit_loc fuel x) b (commits b r x.2).
Proof.
  intros [Hv Hl]. unfold commit_loc. destruct x as [[r'|offset size low] y]; cbn [fst snd] in *.
  - destruct Hl as [Hw Hr]. eapply spec_weaken; [by apply spec_commit_reg|]. intros b' vs _ _ [Hvs Hc]. split; [done|].
    intros E M s r0 HE HM Hent Hs Hmask Hr0. rewrite Hr in Hr0. injection Hr0 as <-. by apply (Hc E M s r').
  - destruct Hl as [Ho Hr]. apply spec_lift. intros size' Hsz. apply spec_ret. intros _. split; [by repeat constructor|].
    intros E M s r0 HE HM Hent Hs Hmask Hr0 Hd. destruct (Hr E r0 HE Hr0) as (Ha & Hreal & Hsize). rewrite <- Hsize in Hsz.
    apply try_from_byte_size in Hsz. pose proof (size_in_storage r0).
    apply (store_low E M s r0 (byte_size r0) b _ (den E b y)); [done|done|done| |lia| |].
    + unfold store_of. cbn [fst snd]. by rewrite Ha, Hsz.
    + intros k _. by rewrite Hd.
    + lia.
Qed.

(** What a location of the uncommitted state holds. *)
Definition entry_of (b : ValBuilder) (us : UncommittedState) (r : Env -> option Reg) (y : ValId) : Prop :=
  (exists r', (r', y) ∈ fixed us /\ forall E, r E = Some r')
  \/ exists key, (key, y) ∈ dynamic us /\ forall E, r E = choice_of (choices key) b (key_index key) E.

Lemma entry_of_value E M b us s r y :
  us_repr E M b us s -> entry_of b us r y -> exists r', r E = Some r' /\ den E b y = raw_reg s r'.
Proof.
  intros Hrep [(r' & Hin & Hr)|(key & Hin & Hr)].
  - exists r'. split; [done|]. by apply (ur_fixed E M b us s Hrep).
  - destruct (ur_dynamic E M b us s Hrep key y Hin) as (r' & Hc & Hd). exists r'. split; [|done]. rewrite Hr. by apply choice_of_Some.
Qed.

Lemma spec_us_iter us b :
  us_valid b us -> spec (us_iter fuel us) b (fun b' l =>
    Forall (fun x => exists r, entry_of b us r x.2 /\ loc_is b' r x) l
    /\ (forall r y, (r, y) ∈ fixed us -> exists x, x ∈ l /\ x.2 = y /\ loc_is b' (fun _ => Some r) x)
    /\ (forall key y, (key, y) ∈ dynamic us ->
          exists x, x ∈ l /\ x.2 = y /\ loc_is b' (choice_of (choices key) b (key_index key)) x)).
Proof.
  intros Hus. unfold us_iter. eapply spec_bind.
  { apply (spec_bmap _ (dynamic us) b (fun x b' y => y.2 = x.2 /\ loc_is b' (choice_of (choices x.1) b (key_index x.1)) y)).
    - intros x b1 b2 [[r|offset size low] y] [E [Hv Hl]] Hx _; (split; [done|]); (split; [cbn [snd] in *; eauto with mir|]); cbn [fst snd] in *;
        destruct Hl as [Hl1 Hl2]; [done|]. split; [eauto with mir|]. intros E0 r' HE Hr. later b1. by apply Hl2.
    - intros [key y] b' Hin Hx _. destruct (uv_dynamic_elem b us key y Hus Hin) as (Hok & Hi & Hy).
      eapply spec_bind; [apply dynamic_offset_spec; eauto with mir|]. intros b2 offset Hx2 _ [Hov Hod]. apply spec_lift. intros size Hsize.
      apply spec_lift. intros low _. apply spec_ret. intros _. split; [done|]. split; [cbn [snd]; eauto with mir|]. cbn [fst snd]. split; [done|].
      intros E r HE Hr. apply choice_of_Some in Hr. split; [apply Hod; [done|]; unfold chosen; by later b|].
      split; [by destruct (chosen_writable _ _ _ Hok Hr)|]. apply (windows_equal_head (sizes (choices key)) _ _ (choices_sizes _ Hok) Hsize).
      apply list_elem_of_fmap. exists r. split; [done|]. by eapply chosen_elem. }
  intros b1 d Hx1 _ Hd. apply spec_ret. intros _.
  assert (forall r y, (r, y) ∈ fixed us -> loc_is b1 (fun _ => Some r) (UReg r, y)) as Hfix.
  { intros r y Hin. destruct (uv_fixed_elem b us r y Hus Hin). split; [cbn [snd]; eauto with mir|]. by split. }
  split; [|split].
  - apply Forall_app. split.
    + apply list.Forall_forall. intros x Hin. apply list_elem_of_fmap in Hin as ([r y] & -> & Hin). exists (fun _ => Some r).
      split; [left; by exists r|by apply Hfix].
    + apply list.Forall_forall. intros x Hin. apply list_elem_of_lookup in Hin as [i Hi].
      destruct (Forall2_lookup_r _ _ _ _ _ Hd Hi) as ([key y] & Hi' & E & Hl). eexists. split; [|exact Hl].
      right. exists key. apply list_elem_of_lookup_2 in Hi'. rewrite E. by split.
  - intros r y Hin. exists (UReg r, y). split; [|split; [done|by apply Hfix]]. apply elem_of_app. left. apply list_elem_of_fmap. by exists (r, y).
  - intros key y Hin. apply list_elem_of_lookup in Hin as [i Hi]. destruct (Forall2_lookup_l _ _ _ _ _ Hd Hi) as (x & Hx & E & Hl).
    exists x. split; [apply elem_of_app; right; by apply list_elem_of_lookup_2 in Hx|done].
Qed.

(** All stores are right, and together they cover every byte that differs. *)
Lemma spec_commit_values us b :
  us_valid b us -> spec (commit_values_of fuel us) b (fun b' vs =>
    Forall (valid_dest b') vs
    /\ forall E M s, env_ok E -> us_repr E M b us s -> fits s -> byte_masks (value_tree b') = true ->
       Forall (store_right s) (store_of E b' <$> vs)
       /\ forall r, real_reg r -> completes M s r (store_of E b' <$> vs)).
Proof.
  intros Hus. unfold commit_values_of. eapply spec_bind; [by apply spec_us_iter|]. intros b1 l Hx1 _ (Hl & Hfix & Hdyn).
  rewrite list.Forall_forall in Hl. assert (forall x, x ∈ sorted l <-> x ∈ l) as Hsort.
  { intros x. unfold sorted. by rewrite (merge_sort_Permutation _ l). }
  eapply spec_bind.
  { apply (spec_bmap _ (sorted l) b1 (fun x b' vs => Forall (valid_dest b') vs /\ forall r, loc_is b1 r x -> commits b1 r x.2 b' vs)).
    - intros x b2 b3 vs [Hv Hc] Hx _. split; [eapply Forall_impl; [|exact Hv]; intros z; by apply valid_dest_later|].
      intros r Hr. by apply (commits_later _ _ _ b2), Hc.
    - intros x b' Hin Hx _. apply Hsort, Hl in Hin as (r & _ & Hr). intros Hb' vs b2 Hvs.
      assert (forall r, loc_is b1 r x -> loc_is b' r x) as Hlater.
      { intros r0 [Hv Hr0]. destruct x as [[r'|offset size low] y]; (split; [cbn [snd] in *; eauto with mir|]); cbn [fst snd] in *; [done|].
        destruct Hr0 as [Ho Hr0]. split; [eauto with mir|]. intros E r' HE Hr'. later b1. by apply Hr0. }
      assert (forall r, loc_is b1 r x -> extends b' b2 /\ wf b2 /\ commits b1 r x.2 b2 vs) as Hall.
      { intros r0 Hr0. destruct (spec_commit_loc r0 x b' (Hlater r0 Hr0) Hb' vs b2 Hvs) as (Hx2 & Hb2 & Hv & Hc).
        split; [done|]. split; [done|]. split; [done|]. intros E M s r' HE HM Hent Hs Hmask Hr' Hd. apply (Hc E M s r'); [done..|].
        destruct Hr0 as [Hv0 _]. by later b1. }
      destruct (Hall r Hr) as (? & ? & [Hv _]). split; [done|]. split; [done|]. split; [done|]. intros r0 Hr0. by apply Hall. }
  intros b2 vss Hx2 _ Hvss. apply spec_ret. intros _. split.
  - apply Forall_concat. eapply Forall2_Forall_r; [exact Hvss|]. apply list.Forall_forall. by intros x _ vs [].
  - intros E M s HE Hrep Hs Hmask. assert (extends b b2) as Hx02 by by transitivity b1.
    assert (forall x vs r r', (x, vs) ∈ zip (sorted l) vss -> loc_is b1 r x -> r E = Some r' -> den E b x.2 = raw_reg s r' -> valid b x.2 ->
      Forall (store_right s) (store_of E b2 <$> vs) /\ completes M s r' (store_of E b2 <$> vs)) as Hone.
    { intros x vs r r' Hin Hr Hr' Hd Hv. apply list_elem_of_lookup in Hin as [i Hi]. apply lookup_zip_with_Some in Hi as (x' & vs' & [= <- <-] & Hi & Hj).
      destruct (Forall2_lookup_lr _ _ _ _ _ _ Hvss Hi Hj) as [_ Hc]. destruct (Hc r Hr) as [_ Hc']. apply (Hc' E M s r'); [done|apply Hrep|apply Hrep|done|done|done|].
      by later b. }
    assert (forall x, x ∈ l -> valid b x.2) as Hvalid.
    { intros x Hin. destruct (Hl x Hin) as (r & [(r' & Hin' & _)|(key & Hin' & _)] & _);
        [by destruct (uv_fixed_elem b us r' x.2 Hus Hin')|by destruct (uv_dynamic_elem b us key x.2 Hus Hin') as (_ & _ & ?)]. }
    assert (forall x vs, (x, vs) ∈ zip (sorted l) vss -> x ∈ l) as Hzip.
    { intros x vs Hin. apply Hsort. by apply elem_of_zip_l in Hin. }
    assert (forall x, x ∈ l -> exists vs, (x, vs) ∈ zip (sorted l) vss) as Hzip'.
    { intros x Hin%Hsort. apply list_elem_of_lookup in Hin as [i Hi]. destruct (Forall2_lookup_l _ _ _ _ _ Hvss Hi) as (vs & Hj & _).
      exists vs. apply (list_elem_of_lookup_2 _ i). apply lookup_zip_with_Some. by exists x, vs. }
    assert (forall x vs, (x, vs) ∈ zip (sorted l) vss -> forall z, z ∈ store_of E b2 <$> vs -> z ∈ store_of E b2 <$> concat vss) as Hsub.
    { intros x vs Hin z Hz. apply list_elem_of_fmap in Hz as (v & -> & Hv). apply list_elem_of_fmap. exists v. split; [done|].
      apply elem_of_zip_r in Hin. rewrite list_elem_of_In, in_concat. exists vs. by rewrite <- !list_elem_of_In. }
    split.
    + rewrite Forall_fmap, Forall_concat. apply list.Forall_forall. intros vs Hin. apply list_elem_of_lookup in Hin as [i Hi].
      destruct (Forall2_lookup_r _ _ _ _ _ Hvss Hi) as (x & Hj & _).
      assert ((x, vs) ∈ zip (sorted l) vss) as Hin by (apply (list_elem_of_lookup_2 _ i), lookup_zip_with_Some; by exists x, vs).
      destruct (Hl x (Hzip x vs Hin)) as (r & Hent & Hr). destruct (entry_of_value _ _ _ _ _ _ _ Hrep Hent) as (r' & Hr' & Hd).
      rewrite <- Forall_fmap. by apply (Hone x vs r r' Hin Hr Hr' Hd), Hvalid, (Hzip x vs).
    + intros r Hr k Hk.
      assert (forall x r1, x ∈ l -> loc_is b1 r1 x -> r1 E = Some r -> den E b x.2 = raw_reg s r ->
        M (byte_offset_of r + k) = byte (raw_reg s r) k
        \/ exists z, z ∈ store_of E b2 <$> concat vss /\ covers (byte_offset_of r + k) z) as Hcov.
      { intros x r1 Hin Hloc Hr1 Hd. destruct (Hzip' x Hin) as (vs & Hz).
        destruct (Hone x vs r1 r Hz Hloc Hr1 Hd (Hvalid x Hin)) as [_ Hc].
        destruct (Hc k Hk) as [?|(z & Hz' & ?)]; [by left|right]. exists z. split; [by apply (Hsub x vs)|done]. }
      destruct (decide (r ∈ (fixed us).*1)) as [Hf|Hf].
      { apply list_elem_of_fmap in Hf as ([r' y] & -> & Hf). destruct (Hfix r' y Hf) as (x & Hx & Ey & Hloc).
        apply (Hcov x _ Hx Hloc eq_refl). rewrite Ey. by apply (ur_fixed E M b us s Hrep). }
      destruct (decide (Exists (fun x => chosen E b x.1 r) (dynamic us))) as [Hd|Hd].
      { apply list.Exists_exists in Hd as ([key y] & Hd & Hc). destruct (Hdyn key y Hd) as (x & Hx & Ey & Hloc).
        apply (Hcov x _ Hx Hloc); [by apply choice_of_Some|]. rewrite Ey.
        destruct (ur_dynamic E M b us s Hrep key y Hd) as (r' & Hc' & ->). unfold chosen in Hc, Hc'. cbn [fst] in Hc. congruence. }
      left. rewrite (ur_other E M b us s Hrep r Hr Hf).
      * rewrite (initial_load M r) by (apply Hrep || done). unfold load_reg. rewrite byte_load; [done|apply Hrep|done].
      * intros key Hin Hc. apply Hd, list.Exists_exists. apply list_elem_of_fmap in Hin as (x & -> & Hin). by exists x.
Qed.
End commit.

(** ** Running the stores *)

Lemma commit_values_stores {W} (m : Machine W) `{lay : Layout, SoftFloat} il pv b vs :
  m_cpu (commit_values il pv (value_tree b) m vs) = run_stores (m_cpu m) (store_of (env_of il pv m) b <$> vs).
Proof. done. Qed.

Lemma commit_step `{lay : Layout, laws : !LayoutLaws} fuel us b b1 vs :
  wf b -> us_valid b us -> commit_values_of fuel us b = Some (vs, b1) -> extends b b1 /\ wf b1.
Proof. intros Hb Hus Hvs. by destruct (spec_commit_values fuel us b Hus Hb vs b1 Hvs) as (? & ? & _). Qed.

Lemma commit_values_cpu {W} `{lay : Layout, laws : !LayoutLaws, SoftFloat} (fuel : nat) (us : UncommittedState)
    (b b1 b2 : ValBuilder) (vs : list (CommitDest * ValId)) (m : Machine W) (s : State) (il pv : Z)
    (Hb : wf b) (Hus : us_valid b us) (Hvs : commit_values_of fuel us b = Some (vs, b1)) (Hlater : extends b1 b2)
    (Hmask : byte_masks (value_tree b1) = true)
    (HE : env_ok (env_of il pv m)) (Hrep : us_repr (env_of il pv m) (m_cpu m) b us s)
    (Hs : wf_state s) (Hfits : fits s) :
  cpu_of (m_cpu (commit_values il pv (value_tree b2) m vs)) = s
  /\ bytes_ok (m_cpu (commit_values il pv (value_tree b2) m vs))
  /\ m_world (commit_values il pv (value_tree b2) m vs) = m_world m
  /\ m_k (commit_values il pv (value_tree b2) m vs) = m_k m.
Proof.
  destruct (spec_commit_values fuel us b Hus Hb vs b1 Hvs) as (_ & _ & Hv & Hc).
  destruct (Hc _ _ s HE Hrep Hfits Hmask) as [Hright Hcov].
  rewrite commit_values_stores, (store_of_later_all _ b1 b2) by done.
  destruct (stores_complete s _ (m_cpu m) (entered_bytes _ (ur_entered _ _ _ _ _ Hrep)) Hright Hcov) as [Hok Hall].
  split; [by apply completes_cpu|done].
Qed.

(** The stores of an exit leave the CPU state that the uncommitted registers
    represent: whatever compiled code keeps in values, in registers or in a
    register chosen at run time, reaches memory, and nothing else changes. *)
Theorem commit_leaves_state {W} `{lay : Layout, laws : !LayoutLaws, SoftFloat} (fuel : nat) (us : UncommittedState)
    (b b1 b2 : ValBuilder) (vs : list (CommitDest * ValId)) (m : Machine W) (s : State) (il pv : Z)
    (Hb : wf b) (Hus : us_valid b us) (Hvs : commit_values_of fuel us b = Some (vs, b1)) (Hlater : extends b1 b2)
    (Hmask : byte_masks (value_tree b1) = true)
    (HE : env_ok (env_of il pv m)) (Hrep : us_repr (env_of il pv m) (m_cpu m) b us s)
    (Hs : wf_state s) (Hfits : fits s) :
  cpu_of (m_cpu (commit_values il pv (value_tree b2) m vs)) = s
  /\ bytes_ok (m_cpu (commit_values il pv (value_tree b2) m vs))
  /\ m_world (commit_values il pv (value_tree b2) m vs) = m_world m
  /\ m_k (commit_values il pv (value_tree b2) m vs) = m_k m.
Proof. by apply (commit_values_cpu fuel us b b1 b2). Qed.

(** ** An exit with a register chosen at run time *)

Lemma reduce_f80_inw n x rc y : 0 <= n <= 128 -> reduce_f80_precision n x rc = Some y -> inw 128 y.
Proof.
  intros Hn E. unfold reduce_f80_precision in E. destruct (bitmask_u128 n) as [mask|] eqn:Em; [|done]. cbn [mbind option_bind] in E.
  unfold bitmask_u128 in Em. destruct ((n <? 0) || (128 <? n)); [discriminate Em|]. injection Em as <-.
  assert (forall a, inw 128 (Z.land a (unot 128 (Z.ones n)))) as Hl.
  { intros a. rewrite Z.land_comm. apply inw_testbit; [done| |].
    - apply Z.land_nonneg. left. apply unot_inw; [done|]. by apply inw_ones.
    - intros i Hi. rewrite Z.land_spec, (testbit_above 128); [done| |done]. apply unot_inw; [done|]. by apply inw_ones. }
  revert E. case_match; [|intros [= <-]; apply Hl]. destruct (assert _); [|done]. cbn [mbind option_bind]. intros [= <-].
  apply inw_lor; [done| |split; vm_compute; done]. apply inw_lor; [done|apply Hl|split; vm_compute; done].
Qed.

#[export] Instance zero_softfloat_laws : SoftFloatLaws.
Proof.
  split.
  - intros op x y rc r E. unfold fp_binop_execute in E. destruct (rounding_from_u8 rc); [|done]. injection E as <-.
    destruct op; [split; vm_compute; done..|]. unfold with_flags, f80_scale. cbn. rewrite Z.lor_0_r, Z.add_0_r.
    apply (inw_mono 80); [done|]. apply inw_lor; [done|apply (inw_mono 64); [done|by apply wrap_inw]|].
    apply inw_testbit; [done|apply Z.shiftl_nonneg, wrap_inw; done|]. intros i Hi. rewrite Z.shiftl_spec by lia.
    apply (testbit_above 16); [by apply wrap_inw|lia].
  - intros op x rc r E. unfold fp_unop_execute in E. destruct (rounding_from_u8 rc) as [rc'|]; [|done].
    destruct op; cbn -[reduce_f80_precision] in E; try (injection E as <-; split; vm_compute; done).
    all: destruct (reduce_f80_precision _ _ _) eqn:Er; [|discriminate E]; cbn [mbind option_bind] in E; injection E as <-.
    all: unfold with_flags; cbn [fst snd]; rewrite Z.lor_0_r; eapply reduce_f80_inw; [|exact Er]; lia.
Qed.

Module Example.
#[local] Existing Instance ExampleLayout.layout.
#[local] Existing Instance ExampleLayout.layout_laws.

(** [Ax] is 7, and so is the register that the index 1 chooses from [Bx] and
    [Cx]. *)
Definition build : bm (ValId * ValId) := seven <~ imm 7;; one <~ imm 1;; bret (seven, one).
Definition builder : ValBuilder := match build builder_new with Some (_, b) => b | None => builder_new end.
Definition choice : DynamicRegKey := {| choices := [Some (Gp Bx); Some (Gp Cx)]; key_index := 1%nat |}.
Definition registers : UncommittedState :=
  {| fixed := [(Gp Ax, 0%nat)]; dynamic := [(choice, 0%nat)]; us_k := None |}.
Definition machine : Machine unit :=
  {| m_vars := fun _ => 0; m_cpu := fun _ => 0; m_k := 0; m_world := tt; m_result := packed_default |}.
Definition state : State := set_gpreg (set_gpreg State_default Ax 7) Cx 7.

Lemma zero_load n a : load (fun _ => 0) n a = 0.
Proof.
  unfold load. induction (seqZ 0 n) as [|x l IH]; [done|]. rewrite fmap_cons. cbn [from_le_bytes]. by rewrite IH.
Qed.

Lemma builder_ok : wf builder /\ valid builder 0%nat /\ valid builder 1%nat
  /\ forall E, env_ok E -> den E builder 0%nat = 7 /\ den E builder 1%nat = 1.
Proof.
  assert (spec build builder_new (fun b r => node_is (fun _ => 7) b r.1 /\ node_is (fun _ => 1) b r.2)) as Hs.
  { eapply spec_bind; [apply spec_imm; split; vm_compute; done|]. intros b1 x Hx1 _ Hx.
    eapply spec_bind; [apply spec_imm; split; vm_compute; done|]. intros b2 y Hx2 _ Hy. apply spec_ret. intros _.
    split; [by apply (node_is_later _ b1)|done]. }
  destruct (Hs wf_new (0%nat, 1%nat) builder ltac:(vm_compute; reflexivity)) as (_ & Hb & [Hv1 Hd1] & [Hv2 Hd2]).
  do 3 (split; [done|]). intros E HE. by rewrite Hd1, Hd2.
Qed.

Lemma state_raw r : real_reg r -> raw_reg state r = if decide (r = Gp Ax \/ r = Gp Cx) then 7 else 0.
Proof.
  intros Hr. destruct r as [[]|[]]; try reflexivity. cbn in Hr |- *.
  rewrite decide_False by (intros [?|?]; done). unfold arr_get. case_match; [done|].
  change (mm (x87 state)) with (replicate 8 0). destruct (replicate 8 0 !! Z.to_nat n) eqn:E; [|done]. by apply lookup_replicate in E as [-> _].
Qed.

Lemma chosen_index E r : env_ok E -> chosen E builder choice r <-> r = Gp Cx.
Proof.
  intros HE. destruct builder_ok as (_ & _ & _ & Hd). unfold chosen. cbn [key_index choice choices].
  rewrite (proj2 (Hd E HE)). change (Some (Some (Gp Cx)) = Some (Some r) <-> r = Gp Cx). split; congruence.
Qed.

Lemma registers_ok E : env_ok E -> sees E (fun _ => 0) ->
  us_valid builder registers /\ us_repr E (fun _ => 0) builder registers state.
Proof.
  intros HE HM. destruct builder_ok as (_ & Hv0 & Hv1 & Hd). destruct (Hd E HE) as [Hd0 _]. split.
  - split; cbn [registers fixed dynamic us_k]; [| | | |done].
    + by repeat constructor.
    + apply NoDup_singleton.
    + apply Forall_singleton. split; [|done]. split; [by repeat constructor| |done|done].
      apply (bool_decide_unpack _). vm_compute. exact I.
    + apply NoDup_singleton.
  - split; cbn [registers fixed dynamic]; [done| | | |].
    + split; [done|]. intros r Hr. unfold load_reg. rewrite zero_load. split; [done|]. apply Z.pow_pos_nonneg; [done|].
      pose proof (size_in_storage r). lia.
    + intros r id Hin%list_elem_of_singleton. injection Hin as -> ->. rewrite Hd0. by rewrite state_raw.
    + intros key id Hin%list_elem_of_singleton. injection Hin as -> ->. exists (Gp Cx). rewrite chosen_index, Hd0, state_raw by done. done.
    + intros r Hr Hf Hk. rewrite state_raw by done. unfold initial. rewrite zero_load. apply decide_False.
      intros [-> | ->]; [by apply Hf, list_elem_of_singleton|].
      apply (Hk choice); [by apply list_elem_of_singleton|by apply chosen_index].
Qed.

Lemma commit_leaves_state_witness : exists vs b,
  commit_values_of 50 registers builder = Some (vs, b) /\ length vs = 2%nat
  /\ cpu_of (m_cpu (commit_values 3 0 (value_tree b) machine vs)) = state.
Proof.
  destruct (commit_values_of 50 registers builder) as [[vs b]|] eqn:Hvs; [|by vm_compute in Hvs].
  assert (env_ok (env_of 3 0 machine)) as HE by (apply env_of_ok; [by split|by split|by split]).
  destruct (registers_ok (env_of 3 0 machine) HE ltac:(done)) as [Hus Hrep].
  exists vs, b. split; [done|]. split; [vm_compute in Hvs; by injection Hvs as <- _|].
  apply (commit_leaves_state 50 registers builder b b vs machine state 3 0); [apply builder_ok|exact Hus|exact Hvs|
    apply extends_refl|vm_compute in Hvs; by injection Hvs as _ <-|exact HE|exact Hrep|done|].
  intros r Hr. rewrite state_raw by done. split; [by case_decide|]. pose proof (size_in_storage r).
  assert (2 ^ 8 <= 2 ^ (8 * byte_size r)) by (apply Z.pow_le_mono_r; lia). case_decide; lia.
Defined.
End Example.
