(* ===== verification/MirVals.v ===== *)
(** * Emitted values are right

    The values that [EncodingEmitter] of [sem86-core/src/codegen/mir/mod.rs]
    emits for operands and operators denote what the interpreter of
    [sem86-core/src/il/mod.rs] computes, and the emitted stores change the
    represented state as the interpreter does. *)
From S2P Require Import Prelude Exceptions IlOps Arch Packing IlLoc MemArea IlCmd Jump.
From S2P Require Import ValTree ValBuild ValSpec ValSound ValCombine ValMono CpuBytes Mir MirState MirEmit MirSpec MirStateSound.

#[local] Open Scope bm_scope.

Section vals.
Context `{lay : Layout} `{laws : !LayoutLaws} `{SoftFloat} (fuel : nat) (strict : bool).
Context (il pv : Z) (enc : Encoding).

(** ** Registers of the interpreter *)

Lemma reg_raw s r : r <> Gp Riz -> reg s r ≫= unwrap_num = match r with X87 (Mm _) => None | _ => Some (raw_reg s r) end.
Proof.
  intros Hr. destruct r as [r|[]]; try reflexivity.
  - unfold reg, gpreg, gp_is_zero. cbn. by rewrite bool_decide_false by congruence.
  - cbn. by destruct (arr_get _ _).
Qed.

Lemma reg_zero s : reg s (Gp Riz) ≫= unwrap_num = Some 0.
Proof. done. Qed.

Lemma raw_set_gpreg s r v : wf_state s -> r <> Riz -> changed s (set_gpreg s r v) (Gp r) v.
Proof.
  intros [Hl _] Hr. unfold set_gpreg, gp_is_zero. rewrite bool_decide_false by done. split.
  - cbn [raw_reg with_regs regs]. apply list_lookup_total_insert_eq. rewrite Hl. apply as_num_lt.
  - intros [r'|[]] _ Hne; try done. cbn [raw_reg with_regs regs]. apply list_lookup_total_insert_ne.
    intros E%as_num_inj. congruence.
Qed.

(** Writing a part of a register. *)
Definition register_update (sz : Size) (v : Z) : Update :=
  {| upd_num := modify_num sz (upd_num (store_update v)); upd_bytes := modify_slice sz (upd_bytes (store_update v)) |}.

Lemma set_field_wrap off len w v x : 0 <= len <= w -> 0 <= off -> set_field off len (wrap w v) x = set_field off len v x.
Proof. intros Hl Ho. unfold set_field. f_equal. f_equal. bitblast. Qed.

Lemma register_update_num sz v x :
  in_range 8 sz -> inw 64 x -> upd_num (register_update sz v) x = Some (set_field (bit_off sz) (bit_len sz) v x).
Proof.
  intros Hr Hx. cbn [register_update upd_num store_update]. rewrite modify_num_field by done.
  destruct Hr. rewrite set_field_wrap; [done|unfold bit_len; lia|unfold bit_off; lia].
Qed.

Lemma in_range_mono w w' sz : w <= w' -> in_range w sz -> in_range w' sz.
Proof. intros Hw [? ?]. split; lia. Qed.

Lemma byte_size_storage8 r : (forall n, r <> X87 (Mm n)) -> byte_size r <= 8.
Proof. destruct r as [[]|[]]; cbn; try lia. intros Hr. by destruct (Hr n). Qed.

Lemma set_field_fits r sz v x :
  in_range (byte_size r) sz -> inw (8 * byte_size r) x -> inw (8 * byte_size r) (set_field (bit_off sz) (bit_len sz) v x).
Proof. intros [H1 H2] Hx. unfold bit_off, bit_len. apply set_field_inw; [lia|lia|lia|done]. Qed.

Lemma fits_changed s s' r v : fits s -> changed s s' r v -> inw (8 * byte_size r) v -> fits s'.
Proof.
  intros Hs [<- Hother] Hv r' Hr'. destruct (decide (r' = r)) as [->|Hne]; [done|]. rewrite Hother by done. by apply Hs.
Qed.

Lemma raw_set_mm s n v l :
  arr_set (mm (x87 s)) n v = Some l -> changed s (with_x87 s (set_mm (x87 s) l)) (X87 (Mm n)) v.
Proof.
  intros Hl. split.
  - cbn. by rewrite (arr_get_set _ _ _ _ _ Hl), Z.eqb_refl.
  - intros [r|[]] _ Hne; try done. cbn. f_equal. rewrite (arr_get_set _ _ _ _ _ Hl).
    destruct (Z.eqb_spec n0 n); congruence.
Qed.

Lemma raw_set_x87_num s r v :
  (forall n, r <> Mm n) -> inw (8 * x87_byte_size r) v -> changed s (with_x87 s (set_x87_num (x87 s) r v)) (X87 r) v.
Proof.
  intros Hr Hv. split.
  - destruct r; cbn in *; try (by apply wrap_small); try done. by destruct (Hr n).
  - intros [r'|r'] _ Hne; [done|]. assert (r <> r') by congruence.
    destruct r'; try done; cbn; rewrite bool_decide_false by done; reflexivity.
Qed.

Lemma modify_reg_changed s r sz v s' :
  writable r -> in_range (byte_size r) sz -> wf_state s -> fits s -> modify_reg s r (register_update sz v) = Some s' ->
  changed s s' r (set_field (bit_off sz) (bit_len sz) v (raw_reg s r)) /\ wf_state s' /\ fits s'.
Proof.
  intros [Hreal Hz] Hsz Hwf Hfits Hm. pose proof (Hfits r Hreal) as Hr. pose proof (set_field_fits r sz v _ Hsz Hr) as Hnew.
  enough (changed s s' r (set_field (bit_off sz) (bit_len sz) v (raw_reg s r))) as Hc.
  { split; [done|]. split; [by eapply wf_modify_reg|by apply (fits_changed s s' r _ Hfits Hc)]. }
  assert ((forall n, r <> X87 (Mm n)) -> upd_num (register_update sz v) (raw_reg s r)
    = Some (set_field (bit_off sz) (bit_len sz) v (raw_reg s r))) as Hnum.
  { intros Hmm. pose proof (byte_size_storage8 r Hmm). apply register_update_num; [by apply (in_range_mono (byte_size r))|].
    apply (inw_mono (8 * byte_size r)); [lia|done]. }
  destruct r as [g|x].
  - cbn [modify_reg] in Hm. assert (gpreg s g = raw_reg s (Gp g)) as Hg.
    { unfold gpreg, gp_is_zero. by rewrite bool_decide_false by congruence. }
    rewrite Hg, Hnum in Hm by done. injection Hm as <-. apply raw_set_gpreg; [done|congruence].
  - assert ((exists n, x = Mm n) \/ forall n, x <> Mm n) as [[n ->]|Hmm] by (destruct x; first [by right|left; by eexists]).
    + cbn [modify_reg] in Hm. destruct (arr_get (mm (x87 s)) n) as [old|] eqn:Eold; [|done]. cbn [mbind option_bind] in Hm.
      assert (raw_reg s (X87 (Mm n)) = old) as Hraw by (cbn; by rewrite Eold). rewrite Hraw in *.
      pose proof (modify_slice_field sz v old Hsz Hr) as Hslice. cbn [upd_bytes register_update] in Hm.
      destruct (modify_slice _ _ _) as [bytes|]; [|done]. injection Hslice as Hslice. cbn [mbind option_bind] in Hm.
      destruct (arr_set _ _ _) as [l|] eqn:El; [|done]. injection Hm as <-. rewrite Hslice in El. by apply raw_set_mm.
    + assert (modify_reg s (X87 x) (register_update sz v) =
        v ← upd_num (register_update sz v) (raw_reg s (X87 x)); Some (with_x87 s (set_x87_num (x87 s) x v))) as E.
      { pose proof (reg_raw s (X87 x) ltac:(done)) as Hraw. destruct x; try (by destruct (Hmm n)); reflexivity. }
      rewrite E, Hnum in Hm by congruence. injection Hm as <-. by apply raw_set_x87_num.
Qed.

(** ** The instruction *)

(** The state runs the instruction that is compiled. *)
Record entry_state (s : SysState) : Prop := {
  es_len : IlLoc.instr_len s = il;
  es_part_values : IlLoc.part_values s = pv;
  es_packing : part_packing s = enc_packing enc;
  es_parts : parts s = enc_parts enc;
  es_wf : wf_state (cpu s);
  es_fits : fits (cpu s);
  es_mem : Forall (inw 128) (mem s);
}.

Definition operand_for (apply_bitorder : bool) (l : UnsizedParLoc) : option InstantiatedDest :=
  instantiate_dest (Some il) (Some pv) enc l apply_bitorder.
Abbreviation operand := (operand_for false).

(** The number in an operand. *)
Definition operand_value (s : SysState) (d : InstantiatedDest) : option Z :=
  match d with
  | DReg r => Some (if decide (r = Gp Riz) then 0 else raw_reg (cpu s) r)
  | DMemory index => arr_get (mem s) index
  | DConst v => Some v
  | DPart _ | DInstrLen => None
  end.

(** Operands that can be compiled. *)
Definition source_ok (d : InstantiatedDest) : Prop :=
  match d with
  | DReg r => real_reg r
  | DConst c => inw 128 c
  | DMemory _ => True
  | DPart _ | DInstrLen => False
  end.
Definition input_ok (apply_bitorder : bool) (l : ParLoc) : Prop :=
  in_range 16 (size l) /\ exists d, operand_for apply_bitorder (loc l) = Some d /\ source_ok d.
Abbreviation loc_ok := (input_ok false).

Lemma register_value s r v : reg (cpu s) r ≫= unwrap_num = Some v -> operand_value s (DReg r) = Some v.
Proof.
  intros E. cbn. destruct (decide (r = Gp Riz)) as [->|Hz]; [by rewrite reg_zero in E|].
  rewrite reg_raw in E by done. by destruct r as [|[]].
Qed.

(** What an operand is in the interpreter. *)
Lemma get_dest_operand s l v d apply_bitorder :
  entry_state s -> in_range 16 (size l) -> operand_for apply_bitorder (loc l) = Some d -> get_dest s l apply_bitorder = Some v ->
  exists x, operand_value s d = Some x /\ v = extract_value x (bit_off (size l)) (bit_len (size l)).
Proof.
  intros [Hlen Hpv Hpack Hparts _ _ _] Hsz Hd Hv. pose proof Hsz as [H1 H2].
  unfold get_dest in Hv. rewrite (num_bytes_in_range 16) in Hv by done. cbn [mbind option_bind] in Hv.
  unfold bitmask_u128 in Hv.
  rewrite (proj2 (Z.ltb_ge ((end_byte (size l) - start_byte (size l) + 1) * 8) 0)),
    (proj2 (Z.ltb_ge 128 ((end_byte (size l) - start_byte (size l) + 1) * 8))) in Hv by lia.
  cbn [orb mbind option_bind] in Hv.
  match type of Hv with mbind _ ?o = _ => destruct o as [x|] eqn:Ex; [|done] end.
  cbn [mbind option_bind] in Hv. rewrite (proj2 (Z.ltb_lt _ _)) in Hv by lia. cbn [assert mbind option_bind] in Hv.
  injection Hv as <-. exists x. unfold extract_value, bit_off, bit_len. split; [|do 2 f_equal; lia]. clear H1 H2 Hsz.
  unfold operand_for, instantiate_dest in Hd. rewrite Hparts, Hpv, Hpack in Ex. unfold part_register in Ex. rewrite Hpv, Hpack in Ex.
  destruct (loc l) as [r|i|i| |c]; cbn [mbind option_bind] in *.
  - injection Hd as <-. by apply register_value.
  - by injection Hd as <-.
  - destruct (arr_get (enc_parts enc) i) as [[mapping bits|mapping|mapping]|]; try done; cbn [mbind option_bind] in *.
    + destruct (assert (negb bits)); [|done]. cbn [mbind option_bind] in *. destruct (part_get _ _ _) as [y|]; [|done].
      cbn [mbind option_bind] in *. destruct apply_bitorder, mapping as [o|]; try (by injection Hd as <-; injection Ex as <-).
      destruct (mapping_compute o y) as [[z|]|]; try done. cbn in Hd, Ex. by injection Hd as <-; injection Ex as <-.
    + destruct (part_get _ _ _) as [y|]; [|done]. cbn [mbind option_bind] in *.
      destruct (arr_get mapping y) as [[r|]|]; try done. cbn [mbind option_bind] in *. injection Hd as <-. by apply register_value.
  - injection Hd as <-. cbn. by rewrite <- Hlen.
  - injection Hd as <-. done.
Qed.

(** ** The state of the emitter *)

Definition seg_valid (b : ValBuilder) (i : SegmentInfo) : Prop :=
  valid b (seg_selector i) /\ valid b (seg_access_rights i) /\ valid b (seg_limit i).
Definition entry_valid (b : ValBuilder) (m : MemEntry) : Prop :=
  valid b (me_value m) /\ valid b (me_addr m) /\ forall i, me_seg_info m = Some i -> seg_valid b i.
Record em_valid (b : ValBuilder) (e : Emitter) : Prop := {
  ev_us : us_valid b (em_us e);
  ev_tmp : Forall (valid b) (em_tmp e);
  ev_memory : Forall (entry_valid b) (em_memory e);
}.

(** The values of the emitter are those of the running instruction. *)
Record em_repr (E : Env) (M : Z -> Z) (b : ValBuilder) (e : Emitter) (t : list Z) (s : SysState) : Prop := {
  er_us : us_repr E M b (em_us e) (cpu s);
  er_tmp : Forall2 (fun id v => den E b id = v) (em_tmp e) t;
  er_memory : Forall2 (fun m v => den E b (me_value m) = v) (em_memory e) (mem s);
  er_binop : forall op x y rc, fp_binop_value E op x y rc = default 0 (fp_binop_execute op x y (wrap 8 rc));
  er_unop : forall op x rc, fp_unop_value E op x rc = default 0 (fp_unop_execute op x (wrap 8 rc));
}.

Lemma entry_valid_later b b' m : extends b b' -> entry_valid b m -> entry_valid b' m.
Proof.
  intros Hx (Hv & Ha & Hs). split; [eauto with mir|]. split; [eauto with mir|]. intros i Hi.
  destruct (Hs i Hi) as (? & ? & ?). split; [|split]; eauto with mir.
Qed.
Lemma em_valid_later b b' e : extends b b' -> em_valid b e -> em_valid b' e.
Proof.
  intros Hx [Hu Ht Hm]. split; [eauto with mir| |].
  - eapply Forall_impl; [|exact Ht]. intros id. by apply extends_valid.
  - eapply Forall_impl; [|exact Hm]. intros m. by apply entry_valid_later.
Qed.
Lemma den_list_later {A} E b b' (f : A -> ValId) (l : list A) (t : list Z) :
  extends b b' -> Forall (fun x => valid b (f x)) l ->
  Forall2 (fun x v => den E b (f x) = v) l t -> Forall2 (fun x v => den E b' (f x) = v) l t.
Proof.
  intros Hx Hv Ht. induction Ht as [|x v l t Hd Ht IH]; [constructor|]. apply list.Forall_cons in Hv as [Hv Hvs].
  constructor; [by rewrite (den_later E b b')|by apply IH].
Qed.
Lemma em_repr_later E M b b' e t s : extends b b' -> em_valid b e -> em_repr E M b e t s -> em_repr E M b' e t s.
Proof.
  intros Hx [Hu Ht Hm] [Hus Htmp Hmem Hb Hun]. split; [by apply (us_repr_later E M b)| | |done|done].
  - by apply (den_list_later E b b' id).
  - apply (den_list_later E b b' me_value); [done| |done]. eapply Forall_impl; [|exact Hm]. by intros m [].
Qed.

(** The value [id] is what [f] computes in the interpreter. *)
Definition computes (b : ValBuilder) (e : Emitter) (f : list Z -> SysState -> option Z) (b' : ValBuilder) (id : ValId) : Prop :=
  valid b' id /\ forall E M t s v, env_ok E -> em_repr E M b e t s -> entry_state s -> f t s = Some v -> den E b' id = v.

Lemma computes_valid b e f b' id : computes b e f b' id -> valid b' id.
Proof. by intros []. Qed.
Lemma computes_base b b1 e f b' id : extends b b1 -> em_valid b e -> computes b1 e f b' id -> computes b e f b' id.
Proof.
  intros Hx He [Hv Hd]. split; [done|]. intros E M t s v HE Hr. apply (Hd E M t s v HE). by apply (em_repr_later E M b).
Qed.
Lemma computes_later b e f b1 b2 id : extends b1 b2 -> computes b e f b1 id -> computes b e f b2 id.
Proof.
  intros Hx [Hv Hd]. split; [eauto with mir|]. intros E M t s v HE Hr Hs Hf. rewrite (den_later E b1) by done.
  by apply (Hd E M t s).
Qed.

(** Values of the graph alone. *)
Lemma computes_node b e f b' id g :
  node_is g b' id -> (forall E M t s v, env_ok E -> em_repr E M b e t s -> entry_state s -> f t s = Some v -> g E = v) ->
  computes b e f b' id.
Proof. intros [Hv Hd] Hg. split; [done|]. intros E M t s v HE Hr Hs Hf. rewrite Hd by done. by apply (Hg E M t s). Qed.

#[local] Hint Resolve computes_valid em_valid_later ev_us : mir.

(** ** Operands *)

Lemma emit_operand_spec e d b apply_bitorder :
  em_valid b e -> source_ok d ->
  spec (match d with
        | DReg r => if decide (r = Gp Riz) then imm 0 else emit_reg fuel e r
        | DMemory index => m <~ blift (arr_get (em_memory e) index);; bret (me_value m)
        | DPart index => emit_part fuel enc e index apply_bitorder
        | DInstrLen => emit_instr_len (Some il)
        | DConst v => imm v
        end) b (computes b e (fun _ s => operand_value s d)).
Proof.
  intros He Hd. destruct d as [r|i|c|i|]; cbn [source_ok] in Hd; try done.
  - destruct (decide (r = Gp Riz)) as [->|Hz].
    + eapply spec_weaken; [by apply spec_imm|]. intros b' id _ _ Hid. apply (computes_node _ _ _ _ _ _ Hid).
      intros E M t s v _ _ _ [= <-]. done.
    + eapply spec_weaken; [apply get_or_compute_spec; [apply He|done]|]. intros b' id _ _ [Hv Hi]. split; [done|].
      intros E M t s v HE Hr _ [= <-]. rewrite (Hi E M (cpu s)) by (done || apply Hr). done.
  - apply spec_lift. intros m Hm. apply spec_ret. intros _. unfold arr_get in Hm. destruct (i <? 0) eqn:Ei; [done|].
    pose proof (list_elem_of_lookup_2 _ _ _ Hm) as Hin. pose proof (ev_memory b e He) as Hf. rewrite list.Forall_forall in Hf.
    split; [by apply Hf|]. intros E M t s v HE Hr _ Hv. cbn in Hv. unfold arr_get in Hv. rewrite Ei in Hv.
    destruct (Forall2_lookup_l _ _ _ _ _ (er_memory _ _ _ _ _ _ Hr) Hm) as (v' & Hv' & <-). congruence.
  - eapply spec_weaken; [by apply spec_imm|]. intros b' id _ _ Hid. apply (computes_node _ _ _ _ _ _ Hid).
    by intros E M t s v _ _ _ [= <-].
Qed.

Lemma u8_bits_eq n x : 0 <= n < 32 -> u8_bits n = Some x -> x = 8 * n.
Proof.
  intros Hn E. unfold u8_bits in E. rewrite wrap_small in E by (unfold inw; lia). destruct (assert _); [|done].
  injection E as <-. lia.
Qed.

Lemma emit_par_loc_spec e l b apply_bitorder :
  em_valid b e -> input_ok apply_bitorder l ->
  spec (emit_par_loc fuel (Some il) (Some pv) enc e l apply_bitorder) b (computes b e (fun _ s => get_dest s l apply_bitorder)).
Proof.
  intros He (Hsz & d & Hd & Hok). pose proof Hsz as [H1 H2]. unfold emit_par_loc. apply spec_lift. intros d' Hd'.
  fold (operand_for apply_bitorder (loc l)) in Hd'. assert (d' = d) as -> by congruence.
  eapply spec_bind; [by apply emit_operand_spec|]. intros b1 val Hx1 _ Hval.
  rewrite (num_bytes_in_range 16) by done. apply spec_lift. intros n [= <-].
  apply spec_lift. intros start Hstart. apply u8_bits_eq in Hstart as ->; [|lia].
  apply spec_lift. intros bits Hbits. apply u8_bits_eq in Hbits as ->; [|lia].
  eapply spec_weaken; [apply spec_extract; [eauto with mir|lia..]|]. intros b2 id Hx2 _ [Hv2 Hd2]. split; [done|].
  intros E M t s v HE Hr Hs Hv. destruct (get_dest_operand s l v d apply_bitorder Hs Hsz Hd Hv) as (x & Hx & ->).
  destruct Hval as [_ Hval]. by rewrite Hd2, (Hval E M t s x).
Qed.

(** Byte swaps of other widths differ ([Jump.conversions_differ_on_64_bits]). *)
Definition val_ok (v : Val) : Prop :=
  match v with
  | VTemp _ => True
  | VLoc l => loc_ok l
  | VConv l source_bits target_bits _ swap =>
      loc_ok l /\ 0 < source_bits <= 64 /\ 0 <= target_bits <= 128
      /\ (swap = true -> source_bits = 8 \/ source_bits = 16 \/ source_bits = 32)
  end.

Abbreviation emit_value := (MirEmit.emit_val fuel (Some il) (Some pv) enc).

(** What a conversion does to a value. *)
Definition swapped (source_bits : Z) (swap : bool) (x : Z) : Z :=
  if swap then
    match source_bits with 16 => unop_value ByteSwap16 x | 32 => unop_value ByteSwap32 x | _ => x end
  else x.
Definition extended (source_bits : Z) (sign_extend : bool) (x : Z) : Z :=
  if sign_extend then unop_value (SignExtend source_bits) x else x.

Lemma spec_swap source_bits (swap : bool) val b :
  valid b val -> (swap = true -> source_bits = 8 \/ source_bits = 16 \/ source_bits = 32) ->
  spec (if swap then emit_swap fuel source_bits val else bret val) b
    (node_is (fun E => swapped source_bits swap (den E b val))).
Proof.
  intros Hv Hs. destruct swap; [|by apply spec_ret].
  destruct (Hs eq_refl) as [-> | [-> | ->]]; cbn [emit_swap]; [by apply spec_ret|by apply spec_unop..].
Qed.

Lemma spec_extend source_bits (sign_extend : bool) val b :
  valid b val ->
  spec (if sign_extend then n <~ blift (assert (source_bits <? 256);; Some source_bits);; unop (SignExtend n) val
        else bret val) b (node_is (fun E => extended source_bits sign_extend (den E b val))).
Proof.
  intros Hv. destruct sign_extend; [|by apply spec_ret]. apply spec_lift. intros n Hn.
  destruct (assert _); [|done]. injection Hn as <-. by apply spec_unop.
Qed.

Lemma conversion_value x source_bits target_bits sign_extend swap v :
  0 < source_bits <= 64 -> 0 <= target_bits <= 128 ->
  (swap = true -> source_bits = 8 \/ source_bits = 16 \/ source_bits = 32) ->
  apply_conversion x source_bits sign_extend swap target_bits = Some v ->
  v = Z.land (extended source_bits sign_extend (swapped source_bits swap x)) (Z.ones target_bits).
Proof.
  intros Hs Ht Hsw E. rewrite <- conversions_agree in E by done. unfold mir_conversion in E.
  match type of E with mbind _ ?o = _ => assert (forall y, o = Some y -> y = swapped source_bits swap x) as Hy end.
  { intros y. destruct swap; [|by intros [= <-]]. destruct (Hsw eq_refl) as [-> | [-> | ->]]; cbn [swapped];
      [by intros [= <-]|unfold unop_value; by intros ->..]. }
  match type of E with mbind _ ?o = _ => destruct o as [y|]; [|done] end. cbn [mbind option_bind] in E.
  rewrite (Hy y eq_refl) in E. clear y Hy.
  match type of E with mbind _ ?o = _ => assert (forall y, o = Some y -> y = extended source_bits sign_extend (swapped source_bits swap x)) as Hy end.
  { intros y. destruct sign_extend; [|by intros [= <-]]. cbn [extended]. unfold unop_value. by intros ->. }
  match type of E with mbind _ ?o = _ => destruct o as [y|]; [|done] end. cbn [mbind option_bind] in E.
  rewrite (Hy y eq_refl) in E. unfold bitmask_u128 in E.
  rewrite (proj2 (Z.ltb_ge target_bits 0)), (proj2 (Z.ltb_ge 128 target_bits)) in E by lia. by injection E as <-.
Qed.

Lemma emit_val_spec e v b :
  em_valid b e -> val_ok v -> spec (emit_value e v false) b (computes b e (fun t s => val_eval t s v)).
Proof.
  intros He Hv. destruct v as [n|l|l source_bits target_bits sign_extend swap]; cbn [MirEmit.emit_val val_eval].
  - apply spec_lift_ret. intros id Hid. unfold arr_get in Hid. destruct (n <? 0) eqn:En; [done|].
    pose proof (list_elem_of_lookup_2 _ _ _ Hid) as Hin. pose proof (ev_tmp b e He) as Hf. rewrite list.Forall_forall in Hf.
    split; [by apply Hf|]. intros E M t s v HE Hr _ Hval. unfold arr_get in Hval. rewrite En in Hval.
    destruct (Forall2_lookup_l _ _ _ _ _ (er_tmp _ _ _ _ _ _ Hr) Hid) as (v' & Hv' & <-). congruence.
  - by apply emit_par_loc_spec.
  - destruct Hv as (Hl & Hs & Ht & Hsw). eapply spec_bind; [by apply emit_par_loc_spec|]. intros b1 val Hx1 _ Hval.
    eapply spec_bind; [by apply spec_swap; eauto with mir|]. intros b2 val2 Hx2 _ Hval2.
    eapply spec_bind; [by apply spec_extend; eauto with mir|]. intros b3 val3 Hx3 _ Hval3.
    unfold bitmask_u128. rewrite (proj2 (Z.ltb_ge target_bits 0)), (proj2 (Z.ltb_ge 128 target_bits)) by lia.
    apply spec_lift. intros mask [= <-]. eapply spec_bind; [apply spec_imm, inw_ones; lia|]. intros b4 mask Hx4 _ Hmask.
    eapply spec_weaken; [apply spec_binop; eauto with mir|]. intros b5 id _ _ [Hv5 Hd5]. split; [done|].
    intros E M t s v HE Hr Hst Hv. rewrite Hd5, (node_is_den _ _ _ E Hmask HE) by done. later b3.
    rewrite (node_is_den _ _ _ E Hval3 HE). later b2. rewrite (node_is_den _ _ _ E Hval2 HE), value_and.
    destruct (get_dest s l false) as [x|] eqn:Ex; [|done]. cbn [mbind option_bind] in Hv.
    destruct Hval as [_ Hval]. rewrite (Hval E M t s x) by done. symmetry. by apply conversion_value.
Qed.

(** ** Operators *)

Definition op_eval (t : list Z) (s : SysState) (op : Op) : option Z :=
  match op with
  | OBin a b op => x ← val_eval t s a; y ← val_eval t s b; binop_execute op x y
  | OFpBin a b rc op =>
      x ← val_eval t s a; y ← val_eval t s b; rc ← val_eval t s rc; fp_binop_execute op x y (wrap 8 rc)
  | OFpUn arg rc op => x ← val_eval t s arg; rc ← val_eval t s rc; fp_unop_execute op x (wrap 8 rc)
  | OUn arg op => x ← val_eval t s arg; unop_execute op x
  | OIte cond if_nonzero if_zero =>
      x ← val_eval t s cond; if negb (x =? 0) then val_eval t s if_nonzero else val_eval t s if_zero
  end.

Lemma op_execute_eval {W} op (c : Config W) :
  op_execute op c = (v ← op_eval (tmp c) (sys c) op; Some (Ok v, c)).
Proof.
  destruct op as [x y op|x y rc op|x rc op|x op|cond nz z]; cbn [op_execute op_eval]; unfold cbind, ceval, clift.
  5: { destruct (val_eval (tmp c) (sys c) cond) as [x|]; [|done]. cbn.
       destruct (negb (x =? 0)); cbn; by destruct (val_eval _ _ _). }
  all: repeat (match goal with |- context [val_eval ?t ?s ?v] => destruct (val_eval t s v) end; cbn [mbind option_bind]; try done).
Qed.

Definition op_ok (op : Op) : Prop :=
  match op with
  | OBin a b _ => val_ok a /\ val_ok b
  | OFpBin a b rc _ => val_ok a /\ val_ok b /\ val_ok rc
  | OFpUn arg rc _ => val_ok arg /\ val_ok rc
  | OUn arg _ => val_ok arg
  | OIte cond if_nonzero if_zero => val_ok cond /\ val_ok if_nonzero /\ val_ok if_zero
  end.

Lemma spec_node i b : spec (node i) b (fun b' n => b' = b /\ value_tree b !! i = Some n).
Proof.
  intros Hb n b' E. unfold node in E. destruct (value_tree b !! i) as [m|]; [|done]. injection E as <- <-.
  split; [apply extends_refl|done].
Qed.

Lemma spec_check_shift op y b :
  spec (check_shift true op y) b (fun b' _ => b' = b /\ shift_ok b op y).
Proof.
  unfold check_shift. eapply spec_bind; [apply spec_node|]. intros b' n _ _ [-> Hn]. apply spec_lift_ret.
  intros u Hs. apply assert_Some in Hs. split; [done|]. intros Hop d Hd. rewrite Hn in Hd. injection Hd as ->.
  by destruct Hop as [-> | ->]; apply Z.ltb_lt.
Qed.

Lemma spec_fp_binop op x y rc b :
  valid b x -> valid b y -> valid b rc ->
  spec (fp_binop op x y rc) b (node_is (fun E => fp_binop_value E op (den E b x) (den E b y) (den E b rc))).
Proof. intros. apply (spec_insert (NFpBinOp op x y rc)); [by repeat constructor|done]. Qed.
Lemma spec_fp_unop op x rc b :
  valid b x -> valid b rc ->
  spec (fp_unop op x rc) b (node_is (fun E => fp_unop_value E op (den E b x) (den E b rc))).
Proof. intros. apply (spec_insert (NFpUnOp op x rc)); [by repeat constructor|done]. Qed.

(** The value of an operand, and later values from it. *)
Lemma spec_operand {T} e v b0 b (k : ValId -> bm T) R :
  extends b0 b -> em_valid b0 e -> val_ok v ->
  (forall b' id, extends b b' -> wf b' -> computes b0 e (fun t s => val_eval t s v) b' id -> spec (k id) b' R) ->
  spec (x <~ emit_value e v false;; k x) b R.
Proof.
  intros Hx He Hv Hk. eapply spec_bind; [apply emit_val_spec; [by apply (em_valid_later b0)|done]|].
  intros b' id Hx' Hb' Hid. apply Hk; [done|done|]. by apply (computes_base b0 b).
Qed.

Lemma emit_op_spec e op b :
  strict = true -> em_valid b e -> op_ok op ->
  spec (emit_op fuel strict (Some il) (Some pv) enc e op) b (computes b e (fun t s => op_eval t s op)).
Proof.
  intros -> He Hop. destruct op as [x y op|x y rc op|x rc op|x op|c nz z]; cbn [emit_op op_ok op_eval] in *.
  - destruct Hop. apply (spec_operand e x b b); [reflexivity|done..|]. intros b1 i Hx1 _ [Hv1 Hd1].
    apply (spec_operand e y b b1); [done..|]. intros b2 j Hx2 _ [Hv2 Hd2].
    eapply spec_bind; [apply spec_check_shift|]. intros b' _ _ _ [-> Hs].
    eapply spec_weaken; [apply spec_binop; eauto with mir|]. intros b3 id _ _ [Hv3 Hd3]. split; [done|].
    intros E M t s v HE Hr Hst Hv. destruct (val_eval t s x) eqn:Ex; [|done]. destruct (val_eval t s y) eqn:Ey; [|done].
    rewrite Hd3 by done. later b1. rewrite (Hd1 E M t s _ HE Hr Hst Ex), (Hd2 E M t s _ HE Hr Hst Ey). by apply binop_value_some.
  - destruct Hop as (? & ? & ?). apply (spec_operand e x b b); [reflexivity|done..|]. intros b1 i Hx1 _ [Hv1 Hd1].
    apply (spec_operand e y b b1); [done..|]. intros b2 j Hx2 _ [Hv2 Hd2].
    apply (spec_operand e rc b b2); [by transitivity b1|done..|]. intros b3 k Hx3 _ [Hv3 Hd3].
    eapply spec_weaken; [apply spec_fp_binop; eauto with mir|]. intros b4 id _ _ [Hv4 Hd4]. split; [done|].
    intros E M t s v HE Hr Hst Hv. destruct (val_eval t s x) eqn:Ex; [|done]. destruct (val_eval t s y) eqn:Ey; [|done].
    destruct (val_eval t s rc) eqn:Erc; [|done]. rewrite Hd4, (er_binop _ _ _ _ _ _ Hr), (Hd3 E M t s _ HE Hr Hst Erc) by done.
    later b2. rewrite (Hd2 E M t s _ HE Hr Hst Ey). later b1. rewrite (Hd1 E M t s _ HE Hr Hst Ex).
    cbn [mbind option_bind] in Hv. by rewrite Hv.
  - destruct Hop as (? & ?). apply (spec_operand e x b b); [reflexivity|done..|]. intros b1 i Hx1 _ [Hv1 Hd1].
    apply (spec_operand e rc b b1); [done..|]. intros b2 k Hx2 _ [Hv2 Hd2].
    eapply spec_weaken; [apply spec_fp_unop; eauto with mir|]. intros b3 id _ _ [Hv3 Hd3]. split; [done|].
    intros E M t s v HE Hr Hst Hv. destruct (val_eval t s x) eqn:Ex; [|done].
    destruct (val_eval t s rc) eqn:Erc; [|done]. rewrite Hd3, (er_unop _ _ _ _ _ _ Hr), (Hd2 E M t s _ HE Hr Hst Erc) by done.
    later b1. rewrite (Hd1 E M t s _ HE Hr Hst Ex). cbn [mbind option_bind] in Hv. by rewrite Hv.
  - apply (spec_operand e x b b); [reflexivity|done..|]. intros b1 i Hx1 _ Hc. pose proof Hc as [Hv1 Hd1].
    destruct (decide (op = Id)) as [->|Hid].
    + apply spec_ret. intros _. split; [done|]. intros E M t s v HE Hr Hst Hv. destruct (val_eval t s x) eqn:Ex; [|done].
      injection Hv as <-. by apply (Hd1 E M t s).
    + eapply spec_weaken; [by apply spec_unop|]. intros b2 id _ _ [Hv2 Hd2]. split; [done|].
      intros E M t s v HE Hr Hst Hv. destruct (val_eval t s x) eqn:Ex; [|done].
      rewrite Hd2, (Hd1 E M t s _ HE Hr Hst Ex) by done. cbn [mbind option_bind] in Hv. unfold unop_value. by rewrite Hv.
  - destruct Hop as (? & ? & ?). apply (spec_operand e c b b); [reflexivity|done..|]. intros b1 i Hx1 _ [Hv1 Hd1].
    apply (spec_operand e nz b b1); [done..|]. intros b2 j Hx2 _ [Hv2 Hd2].
    apply (spec_operand e z b b2); [by transitivity b1|done..|]. intros b3 k Hx3 _ [Hv3 Hd3].
    eapply spec_weaken; [apply spec_ite; eauto with mir|]. intros b4 id _ _ [Hv4 Hd4]. split; [done|].
    intros E M t s v HE Hr Hst Hv. destruct (val_eval t s c) as [x|] eqn:Ec; [|done]. cbn [mbind option_bind] in Hv.
    rewrite Hd4 by done. later b1. rewrite (Hd1 E M t s _ HE Hr Hst Ec). unfold ite_value.
    destruct (x =? 0); cbn [negb] in Hv; [by apply (Hd3 E M t s)|]. later b2. by apply (Hd2 E M t s).
Qed.

(** ** Stores *)

Definition target_ok (d : InstantiatedDest) (sz : Size) : Prop :=
  match d with
  | DReg r => writable r /\ in_range (byte_size r) sz
  | DMemory _ => in_range 16 sz
  | _ => False
  end.
Definition dest_ok (v : Val) : Prop :=
  match v with
  | VTemp _ => True
  | VLoc l => exists d, operand (loc l) = Some d /\ target_ok d (size l)
  | VConv _ _ _ _ _ => False
  end.

(** What a write does to the temporaries and to the instruction's state. *)
Definition written (to : Val) (v : Z) (t : list Z) (s : SysState) (t' : list Z) (s' : SysState) : Prop :=
  match to with
  | VTemp n => arr_set t n v = Some t' /\ s' = s
  | VLoc l =>
      t' = t /\
      match operand (loc l) with
      | Some (DReg r) =>
          exists c, s' = with_cpu s c /\ changed (cpu s) c r (set_field (bit_off (size l)) (bit_len (size l)) v (raw_reg (cpu s) r))
      | Some (DMemory index) =>
          exists old m, arr_get (mem s) index = Some old
            /\ arr_set (mem s) index (set_field (bit_off (size l)) (bit_len (size l)) v old) = Some m /\ s' = with_mem s m
      | _ => False
      end
  | VConv _ _ _ _ _ => False
  end.

Lemma resolve_operand s l l' d :
  entry_state s -> operand (loc l) = Some d -> resolve_loc s l = Some l' ->
  size l' = size l /\ match d with DReg r => loc l' = LReg r | DMemory i => loc l' = LMem i | _ => True end.
Proof.
  intros [_ Hpv Hpack Hparts _ _ _] Hd Hl. unfold resolve_loc, part_register in Hl. rewrite Hpv, Hpack, Hparts in Hl.
  unfold operand_for, instantiate_dest in Hd. destruct (loc l) as [r|i|i| |c] eqn:El; cbn [mbind option_bind] in *;
    try (injection Hd as <-; injection Hl as <-; by rewrite ?El).
  destruct (arr_get (enc_parts enc) i) as [[mapping bits|mapping|mapping]|]; try done; cbn [mbind option_bind] in *.
  - destruct (assert (negb bits)); [|done]. cbn [mbind option_bind] in Hd. destruct (part_get _ _ _) as [y|]; [|done].
    cbn [mbind option_bind] in *. injection Hl as <-. assert (d = DConst y) as -> by (by destruct mapping; injection Hd). done.
  - destruct (part_get _ _ _) as [y|]; [|done]. cbn [mbind option_bind] in *.
    destruct (arr_get mapping y) as [[r|]|]; try done. cbn [mbind option_bind] in *. injection Hd as <-. by injection Hl as <-.
Qed.

Lemma with_cpu_entry s c : entry_state s -> wf_state c -> fits c -> entry_state (with_cpu s c).
Proof. intros [? ? ? ? _ _ ?] ? ?. by split. Qed.

Lemma val_write_spec to v t s t' s' :
  entry_state s -> dest_ok to -> val_write t s to v = Some (t', s') -> entry_state s' /\ written to v t s t' s'.
Proof.
  intros Hs Hto Hw. destruct to as [n|l|]; [| |done].
  { cbn [val_write] in Hw. destruct (arr_set t n v) eqn:E; [|done]. by injection Hw as <- <-. }
  destruct Hto as (d & Hd & Hok). cbn [val_write] in Hw. destruct (modify_dest _ _ _) as [s1|] eqn:Em; [|done].
  injection Hw as <- <-. unfold modify_dest in Em. destruct (resolve_loc s l) as [l'|] eqn:El; [|done]. cbn [mbind option_bind] in Em.
  destruct (resolve_operand s l l' d Hs Hd El) as [Hsz Hloc]. cbn [written]. rewrite Hd.
  destruct d as [r|i|c|i|]; try done; rewrite Hloc in Em; cbn [target_ok] in Hok; rewrite ?Hsz in Em.
  - destruct Hok as [Hr Hrange]. destruct (modify_reg _ _ _) as [c|] eqn:Ec; [|done]. injection Em as <-.
    destruct (modify_reg_changed (cpu s) r (size l) v c Hr Hrange (es_wf s Hs) (es_fits s Hs) Ec) as (Hc & Hwf & Hf).
    split; [by apply with_cpu_entry|]. split; [done|]. by exists c.
  - destruct (arr_get (mem s) i) as [old|] eqn:Eold; [|done]. cbn [mbind option_bind] in Em.
    assert (inw 128 old) as Hold.
    { pose proof (es_mem s Hs) as Hm. rewrite list.Forall_forall in Hm. apply Hm. unfold arr_get in Eold. case_match; [done|].
      by apply list_elem_of_lookup_2 in Eold. }
    pose proof (modify_slice_field (size l) v old Hok Hold) as Hslice. destruct (modify_slice _ _ _) as [bytes|]; [|done].
    injection Hslice as Hslice. cbn [mbind option_bind] in Em. rewrite Hslice in Em.
    destruct (arr_set _ _ _) as [m|] eqn:Em2; [|done]. injection Em as <-. destruct Hok as [H1 H2].
    assert (inw 128 (set_field (bit_off (size l)) (bit_len (size l)) v old)) as Hnew.
    { unfold bit_off, bit_len. apply set_field_inw; [lia|lia|lia|done]. }
    split; [|split; [done|by exists old, m]]. destruct Hs. split; try done. cbn [with_mem mem].
    apply arr_set_Some in Em2 as [_ ->]. apply Forall_insert; [done|done].
Qed.

(** What emission leaves as it is. *)
Definition same_access (m m' : MemEntry) : Prop :=
  me_addr m' = me_addr m /\ me_seg_info m' = me_seg_info m /\ me_segchecked m' = me_segchecked m
  /\ me_num_bytes m' = me_num_bytes m /\ (me_needs_write m = true -> me_needs_write m' = true).
Record kept (e e' : Emitter) : Prop := {
  kept_cf : em_cf e' = em_cf e;
  kept_next_var : em_next_var e' = em_next_var e;
  kept_k : us_k (em_us e') = us_k (em_us e);
  kept_keys : (dynamic (em_us e')).*1 = (dynamic (em_us e)).*1;
  kept_memory : Forall2 same_access (em_memory e) (em_memory e');
  kept_tmp : length (em_tmp e') = length (em_tmp e);
}.

#[export] Instance same_access_preorder : PreOrder same_access.
Proof.
  split; [by repeat split|]. intros m1 m2 m3 (H1 & H2 & H3 & H4 & H5) (G1 & G2 & G3 & G4 & G5).
  split; [congruence|]. split; [congruence|]. split; [congruence|]. split; [congruence|]. auto.
Qed.
#[export] Instance kept_preorder : PreOrder kept.
Proof.
  split.
  - intros e. by split.
  - intros e1 e2 e3 [H1 H2 H3 H4 H5 H6] [G1 G2 G3 G4 G5 G6]. split; [congruence..| |congruence]. by transitivity (em_memory e2).
Qed.

(** An emitted write. *)
Definition writes (b : ValBuilder) (e : Emitter) (to : Val) (v : Env -> Z) (b' : ValBuilder) (e' : Emitter) : Prop :=
  em_valid b' e' /\ kept e e'
  /\ forall E M t s t' s', env_ok E -> em_repr E M b e t s -> entry_state s ->
     val_write t s to (v E) = Some (t', s') -> em_repr E M b' e' t' s' /\ entry_state s'.

Lemma writes_base b b1 e to v b' e' : extends b b1 -> em_valid b e -> writes b1 e to v b' e' -> writes b e to v b' e'.
Proof.
  intros Hx He (Hv & Hk & Hw). split; [done|]. split; [done|]. intros E M t s t' s' HE Hr. apply Hw; [done|].
  by apply (em_repr_later E M b).
Qed.

Lemma Forall2_arr_set {A B} (R : A -> B -> Prop) l t n x y l' t' :
  Forall2 R l t -> R x y -> arr_set l n x = Some l' -> arr_set t n y = Some t' -> Forall2 R l' t'.
Proof. intros Hl Hx [_ ->]%arr_set_Some [_ ->]%arr_set_Some. by apply Forall2_insert. Qed.
Lemma Forall_arr_set {A} (P : A -> Prop) l n x l' : Forall P l -> P x -> arr_set l n x = Some l' -> Forall P l'.
Proof. intros Hl Hx [_ ->]%arr_set_Some. by apply Forall_insert. Qed.

Abbreviation emit_write := (emit_store fuel (Some il) (Some pv) enc).

(** The combined value is what the interpreter writes. *)
Lemma emit_store_temp e n new v b :
  em_valid b e -> node_is v b new ->
  spec (emit_write (VTemp n) new e) b (fun b' r => writes b e (VTemp n) v b' r.2).
Proof.
  intros He Hn. cbn [emit_store]. apply spec_lift. intros l Hl. apply spec_ret. intros _. cbn [snd].
  split; [|split].
  - destruct He as [Hu Ht Hm]. split; [done| |done]. cbn [em_tmp with_tmp]. apply (Forall_arr_set _ _ _ _ _ Ht (node_is_valid _ _ _ Hn) Hl).
  - split; try done. cbn [em_tmp with_tmp]. apply arr_set_Some in Hl as [_ ->]. apply length_insert.
  - intros E M t s t' s' HE [Hu Ht Hm Hb Hun] Hs Hw. cbn [val_write] in Hw. destruct (arr_set t n (v E)) as [t1|] eqn:Et; [|done].
    injection Hw as <- <-. split; [|done]. split; [done| |done|done|done]. cbn [em_tmp with_tmp].
    apply (Forall2_arr_set _ _ _ _ _ _ _ _ Ht (node_is_den _ _ _ E Hn HE) Hl Et).
Qed.

Lemma spec_combined e old new sz x v b :
  em_valid b e -> computes b e (fun _ s => x s) b old -> node_is v b new -> in_range 16 sz ->
  spec (combine_old_and_new fuel old new sz) b (fun b' id => valid b' id /\ forall E M t s o,
    env_ok E -> em_repr E M b e t s -> entry_state s -> x s = Some o ->
    den E b' id = set_field (bit_off sz) (bit_len sz) (v E) o).
Proof.
  intros He [Hov Ho] Hn Hsz. eapply spec_weaken; [apply spec_combine; eauto with mir|]. intros b' id _ _ [Hv Hd].
  split; [done|]. intros E M t s o HE Hr Hs Hx. rewrite Hd, (node_is_den _ _ _ E Hn HE) by done. by rewrite (Ho E M t s o).
Qed.

Lemma em_valid_us b b' e us : extends b b' -> em_valid b e -> us_valid b' us -> em_valid b' (with_us e us).
Proof. intros Hx He Hus. destruct (em_valid_later b b' e Hx He). by split. Qed.

Lemma emit_store_reg e l r new v b :
  em_valid b e -> node_is v b new -> operand (loc l) = Some (DReg r) -> writable r -> in_range (byte_size r) (size l) ->
  spec (emit_write (VLoc l) new e) b (fun b' x => writes b e (VLoc l) v b' x.2).
Proof.
  intros He Hn Hd Hr Hsz. assert (in_range 16 (size l)) as Hsz16.
  { apply (in_range_mono (byte_size r)); [|done]. destruct r as [[]|[]]; cbn; lia. }
  cbn [emit_store]. fold (operand (loc l)). rewrite Hd. apply spec_lift. intros d [= <-].
  eapply spec_bind; [apply get_or_compute_spec; [apply He|apply Hr]|]. intros b1 old Hx1 _ [Hov Ho].
  eapply spec_bind; [apply spec_combine; eauto with mir|]. intros b2 comb Hx2 _ [Hcv Hcd].
  eapply spec_bind; [apply store_reg_spec; eauto with mir|]. intros b3 us Hx3 _ (Huv & Hk & Hkeys & Hrep).
  assert (extends b b2) as Hx02 by by transitivity b1.
  apply spec_ret. intros _. cbn [snd]. split; [|split].
  - apply (em_valid_us b); [by transitivity b2|done|done].
  - by split.
  - intros E M t s t' s' HE Hrepr Hs Hw.
    assert (dest_ok (VLoc l)) as Hto by (exists (DReg r); by split).
    destruct (val_write_spec _ _ _ _ _ _ Hs Hto Hw) as [Hs' [-> Hwr]]. rewrite Hd in Hwr. destruct Hwr as (c & -> & Hc).
    split; [|done]. destruct (em_repr_later E M b b3 e t s) as [Hus Ht Hm Hb Hun]; [by transitivity b2|done|done|].
    split; cbn [with_us em_us em_tmp em_memory with_cpu cpu mem]; try done.
    apply (Hrep E M (cpu s) c HE).
    + apply (us_repr_later E M b); [done|apply He|apply Hrepr].
    + rewrite Hcd by done. later b1. rewrite (Ho E M (cpu s) HE (er_us _ _ _ _ _ _ Hrepr)). later b.
      rewrite decide_False by apply Hr. by rewrite (node_is_den _ _ _ E Hn HE).
Qed.

Lemma emit_store_memory e l i new v b :
  em_valid b e -> node_is v b new -> operand (loc l) = Some (DMemory i) -> in_range 16 (size l) ->
  spec (emit_write (VLoc l) new e) b (fun b' x => writes b e (VLoc l) v b' x.2).
Proof.
  intros He Hn Hd Hsz. cbn [emit_store]. fold (operand (loc l)). rewrite Hd. apply spec_lift. intros d [= <-].
  apply spec_lift. intros m Hm.
  assert (entry_valid b m) as Hmv.
  { pose proof (ev_memory b e He) as Hf. rewrite list.Forall_forall in Hf. apply Hf. unfold arr_get in Hm. case_match; [done|].
    by apply list_elem_of_lookup_2 in Hm. }
  eapply spec_bind; [apply spec_combine; [apply Hmv|eauto with mir|done]|]. intros b1 comb Hx1 _ [Hcv Hcd].
  apply spec_lift. intros l' Hl'. apply spec_ret. intros _. cbn [snd]. split; [|split].
  - destruct (em_valid_later b b1 e Hx1 He) as [Hu Ht Hmem]. split; [done|done|]. cbn [em_memory with_memory].
    eapply Forall_arr_set; [exact Hmem| |exact Hl']. destruct (entry_valid_later b b1 m Hx1 Hmv) as (_ & Ha & Hsg). by split.
  - split; try done. cbn [em_memory with_memory]. apply arr_set_Some in Hl' as [Hi ->]. unfold arr_get in Hm.
    destruct (i <? 0); [done|]. apply Forall2_same_length_lookup_2; [by rewrite length_insert|]. intros j x y Hx Hy.
    rewrite list_lookup_insert in Hy. case_decide as Hj; [|assert (x = y) as -> by congruence; reflexivity]. destruct Hj as [<- _].
    injection Hy as <-. assert (x = m) as -> by congruence. by repeat split.
  - intros E M t s t' s' HE Hrepr Hs Hw.
    assert (dest_ok (VLoc l)) as Hto by (exists (DMemory i); by split).
    destruct (val_write_spec _ _ _ _ _ _ Hs Hto Hw) as [Hs' [-> Hwr]]. rewrite Hd in Hwr.
    destruct Hwr as (old & mm & Hold & Hset & ->). split; [|done].
    destruct (em_repr_later E M b b1 e t s Hx1 He Hrepr) as [Hus Ht Hm1 Hb Hun].
    split; cbn [with_memory em_us em_tmp em_memory with_mem cpu mem]; try done.
    eapply Forall2_arr_set; [exact Hm1| |exact Hl'|exact Hset]. cbn [me_with_value me_value].
    rewrite Hcd, (node_is_den _ _ _ E Hn HE) by done. f_equal.
    unfold arr_get in Hm, Hold. destruct (i <? 0); [done|].
    destruct (Forall2_lookup_l _ _ _ _ _ (er_memory _ _ _ _ _ _ Hrepr) Hm) as (o & Ho & <-). congruence.
Qed.

Lemma emit_store_spec e to new v b :
  em_valid b e -> dest_ok to -> node_is v b new ->
  spec (emit_write to new e) b (fun b' x => writes b e to v b' x.2).
Proof.
  intros He Hto Hn. destruct to as [n|l|]; [by apply emit_store_temp| |done].
  destruct Hto as (d & Hd & Hok). destruct d as [r|i|c|i|]; try done; cbn [target_ok] in Hok.
  - destruct Hok. by apply (emit_store_reg e l r).
  - by apply (emit_store_memory e l i).
Qed.

(** ** The next instruction pointer *)

Lemma jump_emit_val t s v : entry_state s -> val_ok v -> Jump.emit_val t s v = val_eval t s v.
Proof.
  intros Hs Hv. destruct v as [n|l|l source_bits target_bits sign_extend swap]; [done|done|].
  destruct Hv as (_ & ? & ? & ?). cbn [Jump.emit_val val_eval]. destruct (get_dest s l false); [|done].
  by apply conversions_agree.
Qed.

Lemma computes_value b e f b' id E M t s v :
  computes b e f b' id -> env_ok E -> em_repr E M b e t s -> entry_state s -> f t s = Some v -> den E b' id = v.
Proof. intros [_ Hd]. apply Hd. Qed.

Abbreviation emit_values := (emit_vals fuel (Some il) (Some pv) enc).

Lemma emit_vals_spec e vs b0 b :
  extends b0 b -> em_valid b0 e -> Forall val_ok vs ->
  spec (emit_values e vs) b (fun b' ids => Forall2 (fun v id => computes b0 e (fun t s => val_eval t s v) b' id) vs ids).
Proof.
  intros Hx He. revert b Hx. induction vs as [|v vs IH]; intros b Hx Hvs; [by apply spec_ret|].
  apply list.Forall_cons in Hvs as [Hv Hvs]. cbn [emit_vals].
  apply (spec_operand e v b0 b); [done..|]. intros b1 id Hx1 _ Hid.
  eapply spec_bind; [apply IH; [by transitivity b|done]|]. intros b2 ids Hx2 _ Hids. apply spec_ret. intros _.
  constructor; [by apply (computes_later _ _ _ b1)|done].
Qed.

Lemma spec_fold_add l acc b :
  Forall (valid b) l -> valid b acc ->
  spec (bfold (fun y acc => ValBuild.binop fuel Add acc y) l acc) b (fun b' id => valid b' id /\ forall E, env_ok E ->
    den E b' id = foldl (fun x y => wrap 128 (x + den E b y)) (den E b acc) l).
Proof.
  revert acc b. induction l as [|y l IH]; intros acc b Hl Hacc; [by apply spec_ret|].
  apply list.Forall_cons in Hl as [Hy Hl]. cbn [bfold].
  eapply spec_bind; [apply spec_binop; eauto with mir|]. intros b1 x Hx1 _ Hx.
  eapply spec_weaken; [apply IH; [|eauto with mir]|].
  { eapply Forall_impl; [|exact Hl]. intros z. by apply extends_valid. }
  intros b2 id _ _ [Hv Hd]. split; [done|]. intros E HE. rewrite Hd, (node_is_den _ _ _ E Hx HE), value_add by done.
  cbn [foldl]. generalize (wrap 128 (den E b acc + den E b y)). clear IH Hd.
  induction l as [|z l IH]; intros a; [done|]. apply list.Forall_cons in Hl as [Hz Hl]. cbn [foldl].
  rewrite (den_later E b b1) by done. by apply IH.
Qed.

Lemma add_terms_fold t s vs acc r E b ids :
  entry_state s -> Forall val_ok vs ->
  Forall2 (fun v id => forall x, val_eval t s v = Some x -> den E b id = x) vs ids ->
  add_terms (Jump.emit_val t s) acc vs = Some r -> r = foldl (fun x y => wrap 128 (x + den E b y)) acc ids.
Proof.
  intros Hs Hok Hids. revert acc. induction Hids as [|v id vs ids Hv Hids IH]; intros acc; cbn [add_terms foldl]; [congruence|].
  apply list.Forall_cons in Hok as [Hok1 Hok]. rewrite jump_emit_val by done. destruct (val_eval t s v) as [x|]; [|done].
  cbn [mbind option_bind]. rewrite (Hv x eq_refl). by apply IH.
Qed.

Lemma emit_sum_spec {T} e vs b0 b (k : ValId -> bm T) R :
  extends b0 b -> em_valid b0 e -> Forall val_ok vs ->
  (forall b' id, extends b b' -> wf b' -> computes b0 e (fun t s => reduce_terms (Jump.emit_val t s) vs) b' id -> spec (k id) b' R) ->
  spec (ids <~ emit_values e vs;; x <~ reduce_add fuel ids;; k x) b R.
Proof.
  intros Hx He Hvs Hk. eapply spec_bind; [by apply (emit_vals_spec e vs b0 b)|]. intros b1 ids Hx1 Hb1 Hids.
  destruct Hids as [|v id vs ids Hid Hids]; [eapply (spec_bind _ _ _ (fun _ _ => False)); [apply spec_panic|done]|]. apply list.Forall_cons in Hvs as [Hv Hvs].
  assert (Forall (valid b1) ids) as Hvalid by (clear - Hids; induction Hids as [|???? []]; by constructor).
  cbn [reduce_add]. eapply spec_bind; [apply spec_fold_add; [done|apply Hid]|]. intros b2 x Hx2 Hb2 [Hxv Hxd].
  apply Hk; [by transitivity b1|done|]. split; [done|]. intros E M t s r HE Hr Hs Hsum. cbn [reduce_terms] in Hsum.
  rewrite jump_emit_val in Hsum by done. destruct (val_eval t s v) as [a|] eqn:Ea; [|done]. cbn [mbind option_bind] in Hsum.
  rewrite Hxd, (computes_value _ _ _ _ _ _ _ _ _ _ Hid HE Hr Hs Ea) by done. symmetry. eapply add_terms_fold; [exact Hs|exact Hvs| |exact Hsum].
  eapply Forall2_impl; [|exact Hids]. intros v' id' [_ Hd'] y Hy. by apply (Hd' E M t s).
Qed.

Definition jump_ok (j : Jump) : Prop :=
  match j with
  | Sequential | Far => True
  | Repeat condition => val_ok condition
  | NearRelativeOffset condition offset => val_ok condition /\ Forall val_ok offset
  | NearAbsolute v => val_ok v
  end.
Definition jump_condition (j : Jump) : option Val :=
  match j with Repeat c | NearRelativeOffset c _ => Some c | _ => None end.

(** The condition that is emitted is the one of the jump. *)
Definition condition_is (b : ValBuilder) (e : Emitter) (b' : ValBuilder) (c : option ValId) : Prop :=
  match c, jump_condition (enc_jump enc) with
  | Some c, Some v => computes b e (fun t s => val_eval t s v) b' c
  | None, None => True
  | _, _ => False
  end.

(** The emitted value is the new instruction pointer. *)
Definition jump_value_is (b : ValBuilder) (e : Emitter) (b' : ValBuilder) (r : option (option ValId * ValId * bool)) : Prop :=
  match r with
  | Some (c, id, clear) =>
      enc_jump enc <> Far /\ condition_is b e b' c /\ valid b' id
      /\ forall E M t s x, env_ok E -> em_repr E M b e t s -> entry_state s ->
         jump_value t s (enc_jump enc) = Some (Some x) -> x = (den E b' id, clear)
  | None => enc_jump enc = Far
  end.

Lemma spec_next_ip {T} e b0 b (k : ValId -> ValId -> bm T) R :
  extends b0 b -> em_valid b0 e -> inw 128 il ->
  (forall b' ip next, extends b b' -> wf b' ->
     computes b0 e (fun _ s => Some (gpreg (cpu s) Ip)) b' ip ->
     computes b0 e (fun _ s => binop_execute Add (gpreg (cpu s) Ip) (IlLoc.instr_len s)) b' next -> spec (k ip next) b' R) ->
  spec (ip <~ emit_reg fuel e (Gp Ip);; len <~ emit_instr_len (Some il);; next <~ ValBuild.binop fuel Add ip len;; k ip next) b R.
Proof.
  intros Hx He Hil Hk. eapply spec_bind; [apply get_or_compute_spec; [apply (em_valid_later b0); done|done]|].
  intros b1 ip Hx1 _ [Hipv Hipd]. eapply spec_bind; [by apply spec_imm|]. intros b2 len Hx2 _ Hlen.
  eapply spec_bind; [apply spec_binop; eauto with mir|]. intros b3 next Hx3 Hb3 Hnext. assert (extends b1 b3) by by transitivity b2.
  assert (computes b0 e (fun _ s => Some (gpreg (cpu s) Ip)) b3 ip) as Hip.
  { split; [eauto with mir|]. intros E M t s v HE Hr Hs [= <-]. later b1. rewrite (Hipd E M (cpu s) HE); [done|].
    apply (us_repr_later E M b0); [done|apply He|apply Hr]. }
  apply Hk; [by transitivity b1|done|done|]. split; [eauto with mir|]. intros E M t s v HE Hr Hs [= <-].
  rewrite (node_is_den _ _ _ E Hnext HE), (node_is_den _ _ _ E Hlen HE), value_add. f_equal. f_equal.
  - rewrite <- (computes_value _ _ _ _ _ E M t s _ Hip HE Hr Hs eq_refl). by later b2.
  - symmetry. apply (es_len s Hs).
Qed.

Lemma emit_jump_value_spec e b :
  em_valid b e -> inw 128 il -> jump_ok (enc_jump enc) ->
  spec (emit_jump_value fuel (Some il) (Some pv) enc e) b (jump_value_is b e).
Proof.
  intros He Hil Hj. unfold emit_jump_value, jump_value_is, condition_is. destruct (enc_jump enc) as [|c|c offset|v|] eqn:Ej; cbn [jump_ok jump_condition] in *.
  - apply (spec_next_ip e b b); [done..|]. intros b1 ip next Hx1 _ Hip Hnext. apply spec_ret. intros _.
    split; [done|]. split; [done|]. split; [by destruct Hnext|]. intros E M t s x HE Hr Hs Hv. injection Hv as <-. f_equal. symmetry.
    by apply (computes_value _ _ _ _ _ E M t s _ Hnext).
  - apply (spec_operand e c b b); [done..|]. intros b1 cond Hx1 _ Hc.
    apply (spec_next_ip e b b1); [done..|]. intros b2 ip next Hx2 _ Hip Hnext.
    eapply spec_bind; [apply spec_ite; eauto with mir|]. intros b3 id Hx3 _ [Hv3 Hd3]. apply spec_ret. intros _.
    split; [done|]. split; [apply (computes_later _ _ _ b1); [by transitivity b2|done]|]. split; [done|].
    intros E M t s x HE Hr Hs Hv. cbn [jump_value] in Hv. rewrite jump_emit_val in Hv by done.
    destruct (val_eval t s c) as [cv|] eqn:Ec; [|done]. injection Hv as <-. f_equal. rewrite Hd3 by done. later b1.
    rewrite (computes_value _ _ _ _ _ E M t s _ Hc HE Hr Hs Ec).
    rewrite (computes_value _ _ _ _ _ E M t s _ Hip HE Hr Hs eq_refl), (computes_value _ _ _ _ _ E M t s _ Hnext HE Hr Hs eq_refl). done.
  - destruct Hj as [Hc0 Ho]. apply (spec_operand e c b b); [done..|]. intros b1 cond Hx1 _ Hc.
    apply (emit_sum_spec e offset b b1); [done..|]. intros b2 off Hx2 _ Hoff. assert (extends b b2) by by transitivity b1.
    apply (spec_next_ip e b b2); [done..|]. intros b3 ip next Hx3 _ Hip Hnext. assert (extends b1 b3) by by transitivity b2.
    eapply spec_bind; [apply spec_binop; eauto with mir|]. intros b4 next_true Hx4 _ Htrue.
    eapply spec_bind; [apply spec_ite; eauto with mir|]. intros b5 id Hx5 _ [Hv5 Hd5]. apply spec_ret. intros _.
    split; [done|]. split; [apply (computes_later _ _ _ b1); [by transitivity b3; [|transitivity b4]|done]|]. split; [done|].
    intros E M t s x HE Hr Hs Hv. cbn [jump_value] in Hv. rewrite jump_emit_val in Hv by done.
    destruct (val_eval t s c) as [cv|] eqn:Ec; [|done]. cbn [mbind option_bind] in Hv.
    destruct (reduce_terms (Jump.emit_val t s) offset) as [ov|] eqn:Eo; [|done]. injection Hv as <-. f_equal.
    rewrite Hd5, (node_is_den _ _ _ E Htrue HE) by done. later b3. rewrite (computes_value _ _ _ _ _ E M t s _ Hnext HE Hr Hs eq_refl).
    later b2. rewrite (computes_value _ _ _ _ _ E M t s _ Hoff HE Hr Hs Eo). later b1.
    by rewrite (computes_value _ _ _ _ _ E M t s _ Hc HE Hr Hs Ec).
  - apply (spec_operand e v b b); [done..|]. intros b1 id Hx1 _ Hid. apply spec_ret. intros _. split; [done|]. split; [done|]. split; [by destruct Hid|].
    intros E M t s x HE Hr Hs Hv. cbn [jump_value] in Hv. rewrite jump_emit_val in Hv by done.
    destruct (val_eval t s v) as [y|] eqn:Ey; [|done]. injection Hv as <-. f_equal. symmetry. by apply (computes_value _ _ _ _ _ E M t s _ Hid).
  - by apply spec_ret.
Qed.

(** ** Emission step by step *)

#[local] Open Scope em_scope.

Lemma espec_value_of {T U} (f : Emitter -> bm T) (k : T -> em U) e b Q R :
  spec (f e) b Q -> (forall b' x, extends b b' -> wf b' -> Q b' x -> spec (k x e) b' R) ->
  spec ((x <~~ value_of f;; k x) e) b R.
Proof.
  intros Hf Hk. unfold ebind, value_of. apply (spec_bind _ _ b (fun b' r => r.2 = e /\ Q b' r.1)).
  - eapply spec_bind; [exact Hf|]. intros b' x _ _ HQ. by apply spec_ret.
  - intros b' [x e'] Hx Hb' [-> HQ]. by apply Hk.
Qed.
Lemma espec_bind {T U} (m : em T) (k : T -> em U) e b Q R :
  spec (m e) b Q -> (forall b' x e', extends b b' -> wf b' -> Q b' (x, e') -> spec (k x e') b' R) ->
  spec ((x <~~ m;; k x) e) b R.
Proof. intros Hm Hk. eapply spec_bind; [exact Hm|]. intros b' [x e'] Hx Hb' HQ. by apply Hk. Qed.

Lemma kept_trans e1 e2 e3 : kept e1 e2 -> kept e2 e3 -> kept e1 e3.
Proof. intros. by transitivity e2. Qed.

(** The instruction pointer has its new value afterwards; the condition is the
    one from before. *)
Definition jumped (is_cs32 : bool) (b : ValBuilder) (e : Emitter) (b' : ValBuilder) (r : option ValId * Emitter) : Prop :=
  em_valid b' r.2 /\ kept e r.2 /\ condition_is b e b' r.1
  /\ forall E M t s j, env_ok E -> em_repr E M b e t s -> entry_state s ->
     Jump.emit_jump t s is_cs32 (enc_jump enc) = Some j ->
     em_repr E M b' r.2 t (default s j) /\ entry_state (default s j).

Lemma jump_value_far t s j : jump_value t s j = Some None -> j = Far.
Proof.
  destruct j; cbn [jump_value]; try done; repeat (match goal with |- mbind _ ?o = _ -> _ => destruct o; [|done] end; cbn [mbind option_bind]);
    try done.
Qed.

Lemma emit_jump_spec is_cs32 e b :
  em_valid b e -> inw 128 il -> jump_ok (enc_jump enc) ->
  spec (MirEmit.emit_jump fuel (Some il) (Some pv) enc is_cs32 e) b (jumped is_cs32 b e).
Proof.
  intros He Hil Hj. unfold MirEmit.emit_jump. eapply espec_value_of; [by apply emit_jump_value_spec|].
  intros b1 [[[c id] clear]|] Hx1 _ Hv.
  - destruct Hv as (Hfar & Hc & Hidv & Hval). eapply espec_value_of.
    { apply (spec_extract fuel id 0 (ip_bits is_cs32)); [done|done|by destruct is_cs32..]. }
    intros b2 new Hx2 _ Hnew. set (sz := {| start_byte := 0; end_byte := if is_cs32 || clear then 3 else 1 |}).
    assert (in_range 4 sz) as Hsz by (unfold sz; by destruct is_cs32, clear).
    set (to := VLoc {| loc := LReg (Gp Ip); size := sz |}).
    assert (dest_ok to) as Hto by (exists (DReg (Gp Ip)); split; [done|split; [done|done]]).
    eapply espec_bind; [eapply (emit_store_spec e to new _ b2); [by apply (em_valid_later b); [transitivity b1|]|done|exact Hnew]|].
    intros b3 u e' Hx3 _ Hw. assert (extends b b2) as Hx02 by by transitivity b1.
    apply (writes_base b b2) in Hw as (Hv' & Hk & Hw); [|done|done]. cbn [snd] in *. apply spec_ret. intros _. cbn [fst snd].
    split; [done|]. split; [done|]. split.
    + unfold condition_is in *. cbn [fst]. destruct c, (jump_condition _); try done. apply (computes_later _ _ _ b1); [by transitivity b2|done].
    + intros E M t s j HE Hr Hs Hjump. unfold Jump.emit_jump in Hjump.
      destruct (jump_value t s _) as [[x|]|] eqn:Ex; [|by apply jump_value_far in Ex|done].
      rewrite (Hval E M t s x) in Hjump by done. cbn [mbind option_bind] in Hjump. fold sz to in Hjump.
      destruct (val_write t s to _) as [[t' s']|] eqn:Ew; [|done]. injection Hjump as <-. cbn [snd]. change (default s (Some s')) with s'.
      assert (t' = t) as -> by (cbn [val_write to] in Ew; destruct (modify_dest _ _ _); [by injection Ew|done]).
      apply (Hw E M t s); [done|done|done|]. rewrite <- Ew. f_equal. unfold extract_value. rewrite Z.shiftr_0_r.
      symmetry. apply wrap_land. by destruct is_cs32.
  - apply spec_ret. intros _. unfold jumped, condition_is. cbn [fst snd jump_value_is] in *. rewrite Hv. split; [by apply (em_valid_later b)|].
    split; [reflexivity|]. split; [done|]. intros E M t s j HE Hr Hs [= <-]. split; [by apply (em_repr_later E M b)|done].
Qed.
End vals.
