(* ===== verification/MirRun.v ===== *)
(** * Running what has been emitted

    How the emission of [sem86-core/src/codegen/mir/mod.rs] grows a graph of
    basic blocks, and how the finished graph runs: the relation [Rel] between
    the machine that runs compiled code and the interpreter's configuration,
    and what an exit leaves. *)
From stdpp Require Import relations.
From S2P Require Import Prelude Exceptions IlOps Arch Packing IlLoc MemArea IlCmd Jump.
From S2P Require Import ValTree ValBuild ValSpec ValSound ValCombine ValMono CpuBytes Mir MirState MirEmit MirSpec MirStateSound.
From S2P Require Import MirCommit MirVals.

#[local] Open Scope bm_scope.

(** ** Growing graphs *)

(** Blocks that belong to what is emitted from [g] on. *)
Definition mine (g : BbBuilder) (i : BbId) : Prop := i = bb_current g \/ (length (bb_graph g) <= i)%nat.

Record grows (g g' : BbBuilder) : Prop := {
  gr_length : (length (bb_graph g) <= length (bb_graph g'))%nat;
  gr_filled : forall i bb, bb_graph g !! i = Some (Some bb) -> bb_graph g' !! i = Some (Some bb);
  gr_others : forall i, ~ mine g i -> bb_graph g' !! i = bb_graph g !! i;
  gr_current : mine g (bb_current g');
}.

Definition open (g : BbBuilder) : Prop := bb_graph g !! bb_current g = Some None.

Lemma grows_refl g : grows g g.
Proof. split; [done|done|done|by left]. Qed.

(** Emission goes on at a block that belongs to it. *)
Lemma grows_from g1 g2 g2' g3 :
  grows g1 g2 -> bb_graph g2' = bb_graph g2 -> mine g1 (bb_current g2') -> grows g2' g3 -> grows g1 g3.
Proof.
  intros [H1 H2 H3 H4] E Hm [G1 G2 G3 G4]. rewrite E in *.
  assert (forall i, mine g2' i -> mine g1 i) as Hmine.
  { intros i [->|Hi]; [done|]. right. rewrite E in Hi. lia. }
  split; [lia|auto| |auto]. intros i Hi. rewrite G3 by auto. by apply H3.
Qed.
Lemma grows_trans g1 g2 g3 : grows g1 g2 -> grows g2 g3 -> grows g1 g3.
Proof. intros H12 H23. by apply (grows_from g1 g2 g2); [|done|apply H12|]. Qed.

Lemma terminated_spec g t : block_is_terminated g = Some t -> exists b, bb_graph g !! bb_current g = Some b /\ t = bool_decide (is_Some b).
Proof.
  unfold block_is_terminated. destruct (bb_graph g !! bb_current g) as [b|]; [|done]. intros [= <-]. exists b.
  split; [done|]. by destruct b.
Qed.

Lemma switch_to_spec next g g' : switch_to next g = Some g' -> bb_graph g' = bb_graph g /\ bb_current g' = next.
Proof.
  unfold switch_to. destruct (block_is_terminated g) as [t|]; [|done]. cbn [mbind option_bind].
  destruct (assert t); [|done]. by intros [= <-].
Qed.

Lemma fill_spec bb next g g' :
  write_and_switch_to bb next g = Some g' ->
  open g /\ bb_graph g' = <[bb_current g := Some bb]> (bb_graph g) /\ bb_current g' = next.
Proof.
  unfold write_and_switch_to. destruct (block_is_terminated g) as [t|] eqn:Et; [|done]. cbn [mbind option_bind].
  apply terminated_spec in Et as (b & Hb & ->). destruct b as [bb'|]; [done|]. cbn [assert negb mbind option_bind].
  intros [-> ->]%switch_to_spec. done.
Qed.

Lemma grows_fill g0 bb next g g' : grows g0 g -> write_and_switch_to bb next g = Some g' -> mine g0 next -> grows g0 g'.
Proof.
  intros [H1 H2 H3 H4] (Ho & E & <-)%fill_spec Hm. split; [by rewrite E, length_insert| | |done]; rewrite E.
  - intros i bb' Hi. apply H2 in Hi. rewrite list_lookup_insert_ne; [done|]. intros <-. unfold open in Ho. congruence.
  - intros i Hi. rewrite list_lookup_insert_ne by (intros <-; done). by apply H3.
Qed.
Lemma fill_other bb next g g' i : write_and_switch_to bb next g = Some g' -> i <> bb_current g -> bb_graph g' !! i = bb_graph g !! i.
Proof. intros (_ & E & _)%fill_spec Hi. rewrite E. by apply list_lookup_insert_ne. Qed.

Lemma grows_switch g0 next g g' : grows g0 g -> switch_to next g = Some g' -> mine g0 next -> grows g0 g'.
Proof. intros [H1 H2 H3 H4] [E <-]%switch_to_spec Hm. split; rewrite ?E; done. Qed.

(** A new block. *)
Record fresh (g : BbBuilder) (n : BbId) (g' : BbBuilder) : Prop := {
  fr_id : n = length (bb_graph g);
  fr_graph : bb_graph g' = bb_graph g ++ [None];
  fr_current : bb_current g' = bb_current g;
}.
Lemma fresh_grows g0 g n g' : grows g0 g -> fresh g n g' -> grows g0 g' /\ mine g0 n.
Proof.
  intros Hg [-> E Hc]. split; [|right; apply Hg]. apply (grows_trans _ g); [done|]. split; rewrite ?E, ?Hc.
  - rewrite length_app. lia.
  - intros i bb Hi. by apply lookup_app_l_Some.
  - intros i Hi. unfold mine in Hi. destruct (decide (i < length (bb_graph g))%nat); [by apply lookup_app_l|]. exfalso. apply Hi. right. lia.
  - by left.
Qed.
Lemma fresh_unfilled g n g' : fresh g n g' -> bb_graph g' !! n = Some None.
Proof. intros [-> E _]. rewrite E, lookup_app_r, Nat.sub_diag by lia. done. Qed.
Lemma fresh_keep g n g' i x : fresh g n g' -> bb_graph g !! i = Some x -> bb_graph g' !! i = Some x.
Proof. intros [-> E _] Hi. rewrite E. by apply lookup_app_l_Some. Qed.
Lemma fresh_ne g n g' i x : fresh g n g' -> bb_graph g !! i = Some x -> i <> n.
Proof. intros [-> _ _] Hi%lookup_lt_Some. lia. Qed.

(** An unfilled block is left alone by what does not own it. *)
Lemma grows_unfilled g g' i : grows g g' -> bb_graph g !! i = Some None -> i <> bb_current g -> bb_graph g' !! i = Some None.
Proof.
  intros Hg Hi Hne. rewrite (gr_others g g' Hg); [done|]. intros [?|Hl]; [done|]. apply lookup_lt_Some in Hi. lia.
Qed.

Lemma filled_block bb next g g' : write_and_switch_to bb next g = Some g' -> bb_graph g' !! bb_current g = Some (Some bb).
Proof. intros (Ho & E & _)%fill_spec. rewrite E. apply list_lookup_insert_eq. apply lookup_lt_Some in Ho. exact Ho. Qed.

(** ** Running a finished graph *)

Section run.
Context {W : Type} `{ctx : ExecCtx W} `{sf : SoftFloat} `{sfl : !SoftFloatLaws} `{lay : Layout} `{laws : !LayoutLaws}.
Context (ail apv : Z) (Hail : inw 128 ail) (Hapv : inw 128 apv).
Context (G : list Bb) (B : ValBuilder) (HB : wf B).

Abbreviation mach := (Machine W).
Abbreviation env m := (env_of ail apv m).
Abbreviation block bb m := (run_block ail apv (value_tree B) bb m).

Definition step (x y : BbId * mach) : Prop := exists bb, G !! x.1 = Some bb /\ block bb x.2 = Some (inl y).
Definition exits (x : BbId * mach) (o : Outcome W) : Prop :=
  exists y bb, rtc step x y /\ G !! y.1 = Some bb /\ block bb y.2 = Some (inr o).

Lemma exits_step x y o : rtc step x y -> exits y o -> exits x o.
Proof. intros Hx (z & bb & Hz & Hb). exists z, bb. split; [by transitivity y|done]. Qed.

(** Enough fuel runs the graph to the exit. *)
Lemma exits_run x o : exits x o -> exists fuel, run_graph ail apv (value_tree B) fuel G x.1 x.2 = Some o.
Proof.
  intros (y & bb & Hxy & Hbb & Ho). induction Hxy as [x|x z y (bb' & Hbb' & Hz) _ IH].
  - exists 1%nat. cbn [run_graph]. rewrite Hbb. cbn [mbind option_bind]. by rewrite Ho.
  - destruct (IH Hbb Ho) as [fuel IH']. exists (S fuel). cbn [run_graph]. rewrite Hbb'. cbn [mbind option_bind]. rewrite Hz.
    cbn [mbind option_bind]. by destruct z.
Qed.

(** Everything that is filled is in the graph. *)
Definition present (g : BbBuilder) : Prop :=
  forall i bb, bb_graph g !! i = Some (Some bb) -> G !! i = Some (fold_branch (value_tree B) bb).

Lemma present_before g g' : grows g g' -> present g' -> present g.
Proof. intros Hg Hp i bb Hi. by apply Hp, (gr_filled _ _ Hg). Qed.
Lemma present_graph g g' : bb_graph g' = bb_graph g -> present g -> present g'.
Proof. intros E Hp i bb. rewrite E. apply Hp. Qed.

Lemma run_fold_branch bb (m : mach) : block (fold_branch (value_tree B) bb) m = block bb m.
Proof.
  destruct bb as [n|c z nz|s n|op ok ex|md vs lj k su]; try done. cbn [fold_branch].
  destruct (value_tree B !! c) as [n|] eqn:Ec; [|done]. destruct n as [n| | | | | | | | | | | | ]; try done. cbn [run_block].
  rewrite (den_node (env m) B c _ HB Ec). done.
Qed.

Lemma present_step g i bb m y : present g -> bb_graph g !! i = Some (Some bb) -> block bb m = Some (inl y) -> step (i, m) y.
Proof. intros Hp Hi Hb. exists (fold_branch (value_tree B) bb). split; [by apply Hp|]. by rewrite run_fold_branch. Qed.
Lemma present_exit g i bb m o : present g -> bb_graph g !! i = Some (Some bb) -> block bb m = Some (inr o) -> exits (i, m) o.
Proof.
  intros Hp Hi Hb. exists (i, m), (fold_branch (value_tree B) bb). split; [done|]. split; [by apply Hp|]. by rewrite run_fold_branch.
Qed.

(** ** Leaving compiled code *)

(** What an exit leaves behind. *)
Record leaves (o : Outcome W) (s : State) (k : Z) (w : W) (res : PackedExecResult) : Prop := {
  lv_cpu : cpu_of (m_cpu (o_machine o)) = s;
  lv_bytes : bytes_ok (m_cpu (o_machine o));
  lv_k : m_k (o_machine o) = wrap 64 k;
  lv_world : m_world (o_machine o) = w;
  lv_result : m_result (o_machine o) = res;
}.

Lemma load_k (m : mach) : load_value (env m) K 0 Qword = wrap 64 (m_k m).
Proof.
  unfold load_value. cbn [ds_num_bytes]. change 64 with (8 * Z.of_nat 8). rewrite <- (from_to_le_bytes 8 (m_k m)). f_equal.
Qed.

Lemma commit_exit fuel g i (m : mach) us b b' s kv vs md lj su :
  present g -> bb_graph g !! i = Some (Some (BCommitAndExit md vs lj (us_k us) su)) ->
  wf b -> us_valid b us -> commit_values_of fuel us b = Some (vs, b') -> extends b' B ->
  byte_masks (value_tree B) = true -> machine_ok m -> inw 64 (m_k m) ->
  us_repr (env m) (m_cpu m) b us s -> k_value (env m) b us = kv -> wf_state s -> fits s ->
  exists o, exits (i, m) o /\ o_success o = su /\ o_metadata o = md
    /\ o_last_jump o = (fun c => den (env m) B c) <$> lj /\ leaves o s kv (m_world m) (m_result m).
Proof.
  intros Hp Hi Hb Hus Hvs HxB Hmask Hm Hk Hrep <- Hwf Hfits.
  pose proof (env_of_ok ail apv m Hail Hapv Hm) as HE.
  eexists. split; [by eapply present_exit|]. cbn [o_success o_metadata o_last_jump]. split; [done|]. split; [done|]. split; [done|].
  destruct (commit_values_cpu fuel us b b' B vs m s ail apv Hb Hus Hvs HxB) as (Hcpu & Hbytes & Hworld & Hmk);
    [by apply (byte_masks_later b' B)|done..|].
  destruct (commit_step fuel us b b' vs Hb Hus Hvs) as [Hbb' _].
  unfold k_value. destruct (us_k us) as [k|] eqn:Ek; split; cbn [o_machine with_k m_cpu m_k m_world m_result]; try done.
  - f_equal. apply den_later; [by transitivity b'|]. by apply (uv_k b us Hus).
  - rewrite Hmk, load_k, wrap_wrap by done. symmetry. by apply wrap_small.
Qed.

(** ** Machine and interpreter *)

(** [E] is the environment of [m] up to the variables from [n] on. *)
Record agrees (n : Z) (E : Env) (m : mach) : Prop := {
  ag_ok : env_ok E;
  ag_vars : forall v, v < n -> var_value E v = m_vars m v;
  ag_load : forall p a, load_byte E p a = load_byte (env m) p a;
  ag_binop : fp_binop_value E = fp_binop_value (env m);
  ag_unop : fp_unop_value E = fp_unop_value (env m);
}.

Lemma agrees_self n m : machine_ok m -> agrees n (env m) m.
Proof. intros Hm. split; try done. by apply env_of_ok. Qed.

(** Machines that differ in variables from [n] on. *)
Record same_below (n : Z) (m m' : mach) : Prop := {
  sb_vars : forall v, v < n -> m_vars m' v = m_vars m v;
  sb_cpu : m_cpu m' = m_cpu m;
  sb_k : m_k m' = m_k m;
}.

Lemma agrees_below n n' E m m' : n <= n' -> same_below n m m' -> agrees n' E m' -> agrees n E m.
Proof.
  intros Hn [Hv Hc Hk] [Hok Hev Hl Hb Hu]. split; [done| | |by rewrite Hb|by rewrite Hu].
  - intros v Hlt. rewrite Hev by lia. by apply Hv.
  - intros p a. rewrite Hl. destruct p; cbn; by rewrite ?Hc, ?Hk.
Qed.

Lemma same_below_refl n m : same_below n m m.
Proof. by split. Qed.

Section instruction.
Context (fuel : nat) (strict : bool) (il pv : Z) (enc : Encoding).
(** The bytes of the CPU state and the counter when the code was entered, the
    registers before the instruction, and the counter after it. *)
Context (M0 : Z -> Z) (k0 : Z) (res0 : PackedExecResult) (us0 : UncommittedState) (s0 : State) (kv0 kv : Z).
Context (protected : ValId) (protected_mode : bool) (areas : list MemArea).

(** The segment check of a memory operand passes. *)
Definition segment_passes (E : Env) (b : ValBuilder) (m : MemEntry) (i : SegmentInfo) : Prop :=
  (protected_mode = true -> Z.land (den E b (seg_selector i)) 0xfff8 <> 0)
  /\ wrap 32 (den E b (me_addr m) - wrap 32 (Z.shiftr (den E b (seg_access_rights i)) 32)) <= den E b (seg_limit i).
Definition entry_area (E : Env) (b : ValBuilder) (m : MemEntry) (a : MemArea) : Prop :=
  a = Protected (wrap 32 (den E b (me_addr m))) (me_num_bytes m)
  /\ forall i, me_seg_info m = Some i -> segment_passes E b m i.

(** What every environment of the machine knows. *)
Record view (E : Env) (b : ValBuilder) (e : Emitter) (t : list Z) (s : SysState) : Prop := {
  vw_repr : em_repr E M0 b e t s;
  vw_k : k_value E b (em_us e) = kv;
  vw_areas : Forall2 (entry_area E b) (em_memory e) areas;
  vw_initial : us_repr E M0 b us0 s0;
  vw_initial_k : k_value E b us0 = kv0;
  vw_protected : den E b protected = b2z protected_mode;
}.

(** The machine [m] has run what the emitter [e] has emitted, the interpreter
    is at [c]. *)
Record Rel (b : ValBuilder) (e : Emitter) (m : mach) (c : Config W) : Prop := {
  rl_machine : machine_ok m;
  rl_cpu : m_cpu m = M0;
  rl_k : m_k m = k0;
  rl_result : m_result m = res0;
  rl_world : m_world m = world c;
  rl_state : entry_state il pv enc (sys c);
  rl_view : forall E, agrees (em_next_var e) E m -> view E b e (tmp c) (sys c);
  rl_keys : forall key, key ∈ (dynamic (em_us e)).*1 ->
    exists r, forall E, agrees (em_next_var e) E m -> chosen E b key r;
}.

(** Static facts about the emitter and the instruction. *)
Record em_static (b : ValBuilder) (e : Emitter) : Prop := {
  st_valid : em_valid b e;
  st_initial : us_valid b us0;
  st_protected : valid b protected;
}.

Lemma em_static_later b b' e : extends b b' -> em_static b e -> em_static b' e.
Proof. intros Hx [Hv Hi Hp]. split; [by apply (em_valid_later b)|eauto with mir|eauto with mir]. Qed.

Lemma segment_passes_later E b b' m i :
  extends b b' -> entry_valid b m -> me_seg_info m = Some i -> segment_passes E b m i -> segment_passes E b' m i.
Proof. intros Hx (_ & Ha & Hs) Hi Hp. destruct (Hs i Hi) as (? & ? & ?). unfold segment_passes. by later b. Qed.

Lemma entry_area_later E b b' m a : extends b b' -> entry_valid b m -> entry_area E b m a -> entry_area E b' m a.
Proof.
  intros Hx Hv [-> Hs]. pose proof Hv as (_ & Ha & _). split; [by later b|]. intros i Hi.
  by apply (segment_passes_later E b); [..|apply Hs].
Qed.

Lemma view_later E b b' e t s : extends b b' -> em_static b e -> view E b e t s -> view E b' e t s.
Proof.
  intros Hx [Hv Hi Hp] [Hr Hk Ha Hir Hik Hpd]. split.
  - by apply (em_repr_later E M0 b).
  - rewrite (k_value_later E b b'); [done|done|apply Hv].
  - pose proof (ev_memory b e Hv) as Hm. clear - Hx Ha Hm. induction Ha as [|m a l l' H1 H2 IH]; [constructor|].
    apply list.Forall_cons in Hm as [Hm Hms]. constructor; [by apply (entry_area_later E b)|by apply IH].
  - by apply (us_repr_later E M0 b).
  - by rewrite (k_value_later E b b').
  - by rewrite (den_later E b b').
Qed.

Lemma Rel_later b b' e m c : extends b b' -> em_static b e -> Rel b e m c -> Rel b' e m c.
Proof.
  intros Hx Hs [Hm Hc Hk Hres Hw Hst Hv Hkeys]. split; try done.
  - intros E HE. apply (view_later E b); auto.
  - intros key Hkey. destruct (Hkeys key Hkey) as [r Hr]. exists r. intros E HE.
    apply list_elem_of_fmap in Hkey as ([key' id] & -> & Hin).
    destruct (uv_dynamic_elem b (em_us e) key' id (ev_us _ _ (st_valid _ _ Hs)) Hin) as (_ & ? & _).
    apply (chosen_later E b); [done|done|by apply Hr].
Qed.

Lemma entry_area_same E b m m' a : same_access m m' -> entry_area E b m a -> entry_area E b m' a.
Proof.
  intros (Ha & Hs & _ & Hn & _) [-> Hp]. split; [by rewrite Ha, Hn|]. intros i Hi. rewrite Hs in Hi.
  destruct (Hp i Hi) as [H1 H2]. split; [done|]. by rewrite Ha.
Qed.

(** A write keeps the machine and the interpreter together. *)
Lemma Rel_write b b' e e' m c to v x t' s' :
  extends b b' -> em_static b e -> Rel b e m c -> writes il pv enc b e to v b' e' ->
  (forall E, agrees (em_next_var e) E m -> v E = x) ->
  val_write (tmp c) (sys c) to x = Some (t', s') ->
  em_static b' e' /\ Rel b' e' m {| sys := s'; tmp := t'; world := world c |}.
Proof.
  intros Hx Hs HR (Hv' & Hk & Hw) Hval Hwr. pose proof Hs as [Hv Hi Hp]. split; [split; eauto with mir|].
  pose proof (Rel_later b b' e m c Hx Hs HR) as [Hm Hc Hk0 Hres Hwd Hst Hvw Hkeys].
  assert (forall E, agrees (em_next_var e) E m -> em_repr E M0 b' e' t' s' /\ entry_state il pv enc s') as Hw'.
  { intros E HE. apply (Hw E M0 (tmp c) (sys c)); [apply HE|by apply (rl_view b e m c HR)|done|]. by rewrite Hval. }
  split; cbn [sys tmp world]; rewrite ?(kept_next_var e e' Hk), ?(kept_keys e e' Hk); try done.
  - apply (Hw' (env m)). by apply agrees_self.
  - intros E HE. destruct (Hvw E HE) as [_ H1 H2 H3 H4 H5]. split; try done.
    + by apply Hw'.
    + unfold k_value in *. by rewrite (kept_k e e' Hk).
    + pose proof (kept_memory e e' Hk) as Hmem. clear - H2 Hmem. revert areas H2.
      induction Hmem as [|y y' l l' Hy Hl IH]; intros areas H2; inv H2; constructor; [by apply (entry_area_same E b' y)|by apply IH].
Qed.

(** Fresh variables and effects on the world. *)
Lemma Rel_world b e m m' n c w :
  Rel b e m c -> em_next_var e <= n -> same_below (em_next_var e) m m' -> machine_ok m' ->
  m_result m' = m_result m -> m_world m' = w ->
  Rel b (with_next_var e n) m' (with_world c w).
Proof.
  intros [Hm Hc Hk Hres Hw Hst Hvw Hkeys] Hn Hsame Hok Hr' Hw'. pose proof Hsame as [_ Hsc Hsk].
  split; cbn [with_next_var em_next_var em_us with_world sys tmp world]; try congruence.
  - intros E HE. destruct (Hvw E) as [Hr H1 H2 H3 H4 H5]; [by apply (agrees_below _ n _ m m')|]. split; try done. by destruct Hr.
  - intros key Hkey. destruct (Hkeys key Hkey) as [r Hr]. exists r. intros E HE. apply Hr. by apply (agrees_below _ n _ m m').
Qed.

(** Only the graph changes. *)
Lemma Rel_cf b e m c g : Rel b e m c -> Rel b (with_cf e g) m c.
Proof.
  intros [Hm Hc Hk Hres Hw Hst Hvw Hkeys]. split; try done. intros E HE. destruct (Hvw E HE) as [Hr H1 H2 H3 H4 H5]. split; try done.
  by destruct Hr.
Qed.
Lemma em_static_cf b e g : em_static b e -> em_static b (with_cf e g).
Proof. intros [[Hu Ht Hm] Hi Hp]. by split. Qed.
Lemma em_static_next_var b e n : em_static b e -> em_static b (with_next_var e n).
Proof. intros [[Hu Ht Hm] Hi Hp]. by split. Qed.
End instruction.
End run.

#[global] Arguments rl_machine {_ _ _ _ _ _ _ _ _ _ _ _ _ _ _ _ _ _ _ _ _ _} _.
#[global] Arguments rl_cpu {_ _ _ _ _ _ _ _ _ _ _ _ _ _ _ _ _ _ _ _ _ _} _.
#[global] Arguments rl_k {_ _ _ _ _ _ _ _ _ _ _ _ _ _ _ _ _ _ _ _ _ _} _.
#[global] Arguments rl_result {_ _ _ _ _ _ _ _ _ _ _ _ _ _ _ _ _ _ _ _ _ _} _.
#[global] Arguments rl_world {_ _ _ _ _ _ _ _ _ _ _ _ _ _ _ _ _ _ _ _ _ _} _.
#[global] Arguments rl_state {_ _ _ _ _ _ _ _ _ _ _ _ _ _ _ _ _ _ _ _ _ _} _.
#[global] Arguments rl_view {_ _ _ _ _ _ _ _ _ _ _ _ _ _ _ _ _ _ _ _ _ _} _ E _.
#[global] Arguments rl_keys {_ _ _ _ _ _ _ _ _ _ _ _ _ _ _ _ _ _ _ _ _ _} _ key _.
