(* ===== verification/MirAddr.v ===== *)
(** * Emitted addresses are right

    [MiniSemRef::extract_memory_areas] of [sem86-core/src/il/mod.rs] gives the
    memory that an instruction accesses; [EncodingEmitter::emit_memory_accesses]
    of [sem86-core/src/codegen/mir/mod.rs] emits code for the same addresses,
    and finds the segment of each access. *)
From S2P Require Import Prelude Exceptions IlOps Arch Packing Address IlLoc MemArea IlCmd Jump.
From S2P Require Import ValTree ValBuild ValSpec ValSound ValCombine ValMono CpuBytes Mir MirState MirEmit MirSpec MirStateSound.
From S2P Require Import MirCommit MirVals MirRun.

#[local] Open Scope bm_scope.

(** ** The memory areas of an instruction *)

(** [unwrap_calculation] *)
Definition unwrap_calculation (c : ParameterizedComputation) : option AddressComputation :=
  match c with Calculation c => Some c | FromPart _ => None end.

(** The iterator of the values is asked once more than there are terms. *)
Definition area_inputs (s : SysState) (access : MemoryAccess) (n : nat) : option (list Z) :=
  map_option (fun input => wrap 64 <$> get_dest s input true) (take n (inputs access)).
Definition protected_area (s : SysState) (access : MemoryAccess) (c : AddressComputation) : option MemArea :=
  vals ← area_inputs s access (S (length (terms c)));
  addr ← evaluate_from_iter c vals;
  Some (Protected (wrap 32 addr) (wrap 8 (access_size_end access))).

(** Terms of 32 bits are segment bases. *)
Fixpoint real_sums (vals : list Z) (terms : list AddrTerm) (sum segment_offset : Z) : option (Z * Z) :=
  match vals, terms with
  | v :: vals, term :: terms =>
      x ← term_apply term v;
      if decide (term_size (primary term) = U32) then real_sums vals terms sum (wrap 64 (segment_offset + x))
      else real_sums vals terms (wrap 16 (sum + wrap 16 x)) segment_offset
  | _, _ => Some (sum, segment_offset)
  end.
Definition real_area (s : SysState) (access : MemoryAccess) (c : AddressComputation) : option MemArea :=
  vals ← area_inputs s access (length (terms c));
  '(sum, segment_offset) ← real_sums vals (terms c) 0 0;
  Some (Real (wrap 32 segment_offset) (wrap 16 (sum + wrap 16 (addr_offset c))) (wrap 8 (access_size_end access))).

Definition extract_memory_areas (protected_mode : bool) (s : SysState) (addresses : list MemoryAccess) : option (list MemArea) :=
  map_option (fun access =>
    c ← unwrap_calculation (calculation access);
    if protected_mode then protected_area s access c else real_area s access c) addresses.

(** ** Terms *)

Lemma shift_by_const b op y c : wf b -> node_is (fun _ => c) b y -> c < 128 -> shift_ok b op y.
Proof.
  intros Hb [_ Hd] Hc _ d Hn. specialize (Hd zero_env zero_env_ok). rewrite (den_node _ b y _ Hb Hn) in Hd. cbn in Hd. lia.
Qed.

(** Calculations on which compiled code and the interpreter agree: a term of
    64 bits is not shifted right. *)
Definition calculation_ok (c : AddrTermCalculation) : Prop :=
  0 <= right (term_shift c) < 64 /\ 0 <= mult (term_shift c) < 2 ^ 16 /\ (term_size c = U64 -> right (term_shift c) = 0).

(** The value after cropping. *)
Definition cropped (s : AddrTermSize) (x : Z) : Z :=
  if AddrTermSize.is_signed s then wrap 128 (signed (AddrTermSize.max_bit_influence s) x) else wrap (AddrTermSize.max_bit_influence s) x.

Lemma sign_extend_value n x : 0 < n <= 128 -> unop_value (SignExtend n) x = wrap 128 (signed n x).
Proof.
  intros Hn. apply (f_equal (default 0) (x := unop_execute (SignExtend n) x) (y := Some (wrap 128 (signed n x)))).
  cbn [unop_execute]. rewrite (proj2 (Z.ltb_lt _ _)), (proj2 (Z.leb_le _ _)) by lia. cbn [andb assert mbind option_bind].
  by rewrite signed_shift by lia.
Qed.

(** Only the low 64 bits of a term matter. *)
Lemma shift_low x r : 0 <= r < 64 -> wrap 64 (Z.shiftr (wrap 128 x) r) = wrap 64 (Z.shiftr x r).
Proof. intros Hr. bitblast. Qed.
Lemma wrap_mul_low x y m : wrap 64 x = wrap 64 y -> wrap 64 (x * m) = wrap 64 (y * m).
Proof. unfold wrap. intros E. rewrite (Z.mul_mod x), (Z.mul_mod y), E by lia. done. Qed.

Lemma shift_signed n x r : 0 < n < 64 -> 0 <= r < 64 ->
  wrap 64 (Z.shiftr (wrap 128 (signed n x)) r) = wrap 64 (Z.shiftr (signed 64 (wrap 64 (signed n (wrap 64 x)))) r).
Proof.
  intros Hn Hr. rewrite shift_low by done. apply Z.bits_inj'. intros i Hi. rewrite !testbit_wrap by lia.
  destruct (Z.ltb_spec i 64); cbn [andb]; [|done]. rewrite !Z.shiftr_spec by lia. rewrite !(testbit_signed n), (testbit_signed 64), testbit_wrap by lia.
  set (j := if i + r <? 64 then i + r else 64 - 1). assert (0 <= j < 64 /\ (if i + r <? n then i + r else n - 1) = (if j <? n then j else n - 1)) as [Hj ->].
  { unfold j. destruct (Z.ltb_spec (i + r) 64); (split; [lia|]); [done|]. rewrite (proj2 (Z.ltb_ge (i + r) n)), (proj2 (Z.ltb_ge (64 - 1) n)) by lia. done. }
  rewrite (proj2 (Z.ltb_lt j 64)) by lia. cbn [andb]. rewrite testbit_signed, testbit_wrap by lia.
  by rewrite (proj2 (Z.ltb_lt _ 64)) by (destruct (Z.ltb_spec j n); lia).
Qed.
Lemma shift_unsigned n x r : 0 < n < 64 -> 0 <= r ->
  Z.shiftr (wrap n x) r = Z.shiftr (signed 64 (wrap n (wrap 64 x))) r.
Proof.
  intros Hn Hr. rewrite wrap_wrap_le by lia. rewrite signed_small; [done|lia|]. apply (inw_mono n); [lia|]. apply wrap_inw. lia.
Qed.

Lemma term_value c x y :
  calculation_ok c -> calculation_apply c (wrap 64 x) = Some y ->
  wrap 64 (Z.shiftr (cropped (term_size c) x) (right (term_shift c)) * mult (term_shift c)) = y.
Proof.
  intros (Hr & Hm & Hu) Hy. unfold calculation_apply, shift_apply in Hy. rewrite (proj2 (Z.ltb_lt _ _)) in Hy by lia.
  injection Hy as <-. apply wrap_mul_low. unfold cropped. destruct (term_size c); cbn [AddrTermSize.is_signed AddrTermSize.max_bit_influence AddrTermSize.apply].
  - by rewrite (shift_unsigned 8) by lia.
  - by apply shift_signed.
  - by rewrite (shift_unsigned 16) by lia.
  - by apply shift_signed.
  - by rewrite (shift_unsigned 32) by lia.
  - rewrite Hu, !Z.shiftr_0_r by done. rewrite wrap_wrap by lia. apply Z.bits_inj'. intros i Hi.
    rewrite !testbit_wrap by lia. destruct (Z.ltb_spec i 64) as [Hlt|]; cbn [andb]; [|done].
    rewrite testbit_signed, (proj2 (Z.ltb_lt i 64)), testbit_wrap, (proj2 (Z.ltb_lt i 64)) by lia. done.
Qed.

Lemma power_trailing_zeros m : 0 <= m < 2 ^ 16 -> is_power_of_two m = true -> 0 <= trailing_zeros 16 m < 16 /\ m = 2 ^ trailing_zeros 16 m.
Proof.
  intros Hm [H0%Z.ltb_lt Hp%Z.eqb_eq]%andb_prop. assert (0 <= Z.log2 m < 16) as Hk.
  { split; [apply Z.log2_nonneg|]. apply Z.log2_lt_pow2; lia. }
  assert (all_below 16 (fun k => trailing_zeros 16 (2 ^ k) =? k) = true) as Hall by by vm_compute.
  pose proof (all_below_spec 16 _ _ Hall Hk) as E%Z.eqb_eq. rewrite <- Hp in E. by rewrite E.
Qed.

Section addr.
Context `{lay : Layout} `{laws : !LayoutLaws} `{SoftFloat} (fuel : nat).
Context (il pv : Z) (enc : Encoding).

Lemma emit_term_spec c val b :
  valid b val -> calculation_ok c ->
  spec (emit_term fuel c val) b (fun b' id => valid b' id /\ forall E y, env_ok E ->
    calculation_apply c (wrap 64 (den E b val)) = Some y -> wrap 64 (den E b' id) = y).
Proof.
  intros Hv Hc. pose proof Hc as (Hr & Hm & Hu). unfold emit_term. apply spec_wf. intros Hb.
  apply (spec_bind _ _ b (node_is (fun E => cropped (term_size c) (den E b val)))).
  { unfold cropped. destruct (AddrTermSize.is_signed (term_size c)) eqn:Es.
    - eapply spec_weaken; [by apply spec_unop|]. intros b' id _ _ [Hv' Hd]. split; [done|]. intros E HE. rewrite Hd by done.
      apply sign_extend_value. by destruct (term_size c).
    - apply spec_lift. intros mask Hmask. assert (mask = Z.ones (AddrTermSize.max_bit_influence (term_size c))) as -> by (destruct (term_size c); by injection Hmask).
      assert (0 <= AddrTermSize.max_bit_influence (term_size c) <= 128) by by destruct (term_size c).
      eapply spec_bind; [apply spec_imm, inw_ones; lia|]. intros b1 mask Hx1 _ Hmk.
      eapply spec_weaken; [apply spec_binop; eauto with mir|]. intros b2 id Hx2 _ [Hv2 Hd2]. split; [done|]. intros E HE.
      rewrite Hd2, (node_is_den _ _ _ E Hmk HE), value_and by done. later b. symmetry. apply wrap_land. lia. }
  intros b1 v1 Hx1 Hb1 Hn1.
  apply (spec_bind _ _ b1 (node_is (fun E => Z.shiftr (cropped (term_size c) (den E b val)) (right (term_shift c))))).
  { destruct (Z.eqb_spec (right (term_shift c)) 0) as [Er|Er]; cbn [negb].
    - apply spec_ret. intros _. rewrite Er. split; [apply Hn1|]. intros E HE. rewrite Z.shiftr_0_r. by apply Hn1.
    - eapply spec_bind; [apply spec_imm; unfold inw; lia|]. intros b2 sh Hx2 Hb2 Hsh.
      eapply spec_weaken; [apply spec_binop; [eauto with mir|eauto with mir|by apply (shift_by_const _ _ _ (right (term_shift c))); [..|lia]]|].
      intros b3 id Hx3 _ [Hv3 Hd3]. split; [done|]. intros E HE. rewrite Hd3, (node_is_den _ _ _ E Hsh HE) by done. later b1.
      rewrite (node_is_den _ _ _ E Hn1 HE). unfold binop_value. cbn [binop_execute default]. unfold wshr.
      rewrite (wrap_small 32) by (unfold inw; lia). by rewrite Z.mod_small by lia. }
  intros b2 v2 Hx2 Hb2 Hn2. assert (extends b b2) as Hx02 by by transitivity b1.
  enough (spec (if negb (mult (term_shift c) =? 1) then
            if is_power_of_two (mult (term_shift c)) then shift <~ imm (trailing_zeros 16 (mult (term_shift c)));; ValBuild.binop fuel Shl v2 shift
            else m <~ imm (mult (term_shift c));; ValBuild.binop fuel Mul v2 m
          else bret v2) b2 (node_is (fun E => wrap 128 (den E b2 v2 * mult (term_shift c))))) as Hlast.
  { eapply spec_weaken; [exact Hlast|]. intros b3 id _ _ [Hv3 Hd3]. split; [done|]. intros E y HE Hy.
    rewrite Hd3, (node_is_den _ _ _ E Hn2 HE) by done. rewrite wrap_wrap_le by lia. by apply term_value. }
  destruct (Z.eqb_spec (mult (term_shift c)) 1) as [->|Hne]; cbn [negb].
  - apply spec_ret. intros _. split; [apply Hn2|]. intros E HE. rewrite Z.mul_1_r. symmetry. apply wrap_small. apply den_inw; [done|done|apply Hn2].
  - destruct (is_power_of_two _) eqn:Ep.
    + destruct (power_trailing_zeros _ Hm Ep) as [Hk Ek]. set (k := trailing_zeros 16 (mult (term_shift c))) in *.
      eapply spec_bind; [apply spec_imm; unfold inw; lia|]. intros b3 sh Hx3 Hb3 Hsh.
      eapply spec_weaken; [apply spec_binop; [eauto with mir|eauto with mir|by apply (shift_by_const _ _ _ k); [..|lia]]|].
      intros b4 id Hx4 _ [Hv4 Hd4]. split; [done|]. intros E HE. rewrite Hd4, (node_is_den _ _ _ E Hsh HE) by done. later b2.
      unfold binop_value. cbn [binop_execute default]. unfold wshl. rewrite (wrap_small 32) by (unfold inw; lia).
      rewrite Z.mod_small by lia. by rewrite Z.shiftl_mul_pow2, <- Ek by lia.
    + eapply spec_bind; [apply spec_imm; unfold inw; lia|]. intros b3 mm Hx3 Hb3 Hmm.
      eapply spec_weaken; [apply spec_binop; eauto with mir|]. intros b4 id Hx4 _ [Hv4 Hd4]. split; [done|]. intros E HE.
      rewrite Hd4, (node_is_den _ _ _ E Hmm HE), value_mul by done. by later b2.
Qed.
(** ** Sums of terms *)

Lemma spec_assoc {S T U} (m : bm S) (f : S -> bm T) (g : T -> bm U) b R :
  spec (y <~ (x <~ m;; f x);; g y) b R -> spec (x <~ m;; y <~ f x;; g y) b R.
Proof. intros Hs Hb t b' E. apply (Hs Hb). unfold bbind in *. by destruct (m b) as [[]|]. Qed.

Definition term_ok (t : AddrTerm) : Prop :=
  calculation_ok (primary t) /\ forall c, second_use t = Some c -> calculation_ok c.

Lemma spec_term_sum t val b :
  valid b val -> term_ok t ->
  spec (prim <~ emit_term fuel (primary t) val;;
        match second_use t with
        | Some term => second <~ emit_term fuel term val;; ValBuild.binop fuel Add prim second
        | None => bret prim
        end) b (fun b' id => valid b' id /\ forall E y, env_ok E -> term_apply t (wrap 64 (den E b val)) = Some y -> wrap 64 (den E b' id) = y).
Proof.
  intros Hv [Hp Hs]. eapply spec_bind; [by apply emit_term_spec|]. intros b1 x1 Hx1 _ [Hv1 Hd1].
  unfold term_apply. destruct (second_use t) as [c|].
  - eapply spec_bind; [apply emit_term_spec; [eauto with mir|by apply Hs]|]. intros b2 x2 Hx2 _ [Hv2 Hd2].
    eapply spec_weaken; [apply spec_binop; eauto with mir|]. intros b3 id Hx3 _ [Hv3 Hd3]. split; [done|]. intros E y HE Hy.
    destruct (calculation_apply (primary t) _) as [y1|] eqn:E1; [|done]. cbn [mbind option_bind] in Hy.
    destruct (calculation_apply c _) as [y2|] eqn:E2; [|done]. injection Hy as <-.
    rewrite Hd3, value_add, wrap_wrap_le by (done || lia). later b1. rewrite <- (Hd1 E y1 HE E1). rewrite <- (Hd2 E y2 HE); [|by later b].
    symmetry. unfold wrap. by rewrite <- Z.add_mod by lia.
  - apply spec_ret. intros _. split; [done|]. intros E y HE Hy.
    destruct (calculation_apply (primary t) _) as [y1|] eqn:E1; [|done]. injection Hy as <-. rewrite Z.add_0_r.
    rewrite <- (Hd1 E y1 HE E1). symmetry. by apply wrap_wrap.
Qed.

(** A sum so far, zero when there is none. *)
Definition sum_is (E : Env) (b : ValBuilder) (o : option ValId) (v : Z) : Prop :=
  match o with Some id => wrap 64 (den E b id) = v | None => v = 0 end.
Definition sum_valid (b : ValBuilder) (o : option ValId) : Prop := match o with Some id => valid b id | None => True end.
Lemma sum_is_later E b b' o v : extends b b' -> sum_valid b o -> sum_is E b o v -> sum_is E b' o v.
Proof. intros Hx. destruct o; [|done]. cbn. intros Hv <-. by later b. Qed.
Lemma sum_valid_later b b' o : extends b b' -> sum_valid b o -> sum_valid b' o.
Proof. intros Hx. destruct o; [|done]. by apply extends_valid. Qed.

Abbreviation computes := (MirVals.computes il pv enc).
Abbreviation inputs_ok l := (Forall (input_ok il pv enc true) l).

(** The base is the term that is wider than the address. *)
Definition terms_ok (size : AddrSize) (base_index : option nat) (index : nat) (ts : list AddrTerm) : Prop :=
  forall k t, ts !! k = Some t -> term_ok t
    /\ AddrTermSize.gt (term_size (primary t)) (AddrTermSize.from size) = bool_decide (Some (index + k)%nat = base_index).

Definition sums_are (e : Emitter) (b0 : ValBuilder) (size : AddrSize) (ins : list ParLoc) (ts : list AddrTerm)
    (b : ValBuilder) (base offset : option ValId) (b' : ValBuilder) (r : option ValId * option ValId) : Prop :=
  sum_valid b' r.1 /\ sum_valid b' r.2
  /\ forall E M t s n vals sum basev p, env_ok E -> em_repr E M b0 e t s -> entry_state il pv enc s -> (length ts <= n)%nat ->
       map_option (fun input => wrap 64 <$> get_dest s input true) (take n ins) = Some vals ->
       sum_is E b offset sum -> sum_is E b base basev -> sum_inputs size vals ts sum basev = Some p ->
       sum_is E b' r.2 p.1 /\ sum_is E b' r.1 p.2.

Lemma sum_terms_spec e size base_index index ins ts base offset b0 b :
  extends b0 b -> em_valid b0 e -> inputs_ok ins -> terms_ok size base_index index ts -> sum_valid b base -> sum_valid b offset ->
  (forall i, base_index = Some i -> (index <= i)%nat -> base = None) ->
  spec (MirEmit.sum_terms fuel (Some il) (Some pv) enc e base_index index ins ts base offset) b (sums_are e b0 size ins ts b base offset).
Proof.
  intros Hx He. revert index ts base offset b Hx. induction ins as [|input ins IH]; intros index ts base offset b Hx Hins Hts Hbv Hov Hbase.
  { cbn [MirEmit.sum_terms]. apply spec_ret. intros _. split; [done|]. split; [done|]. intros E M t s n vals sum basev p HE Hr Hs Hn Hvals Hsum Hb Hp.
    rewrite take_nil in Hvals. injection Hvals as <-. injection Hp as <-. by split. }
  destruct ts as [|term ts].
  { cbn [MirEmit.sum_terms]. apply spec_ret. intros _. split; [done|]. split; [done|]. intros E M t s n vals sum basev p HE Hr Hs Hn Hvals Hsum Hb Hp.
    assert (p = (sum, basev)) as -> by (destruct vals; by injection Hp). by split. }
  apply list.Forall_cons in Hins as [Hin Hins]. destruct (Hts 0%nat term eq_refl) as [Hterm Hgt]. rewrite Nat.add_0_r in Hgt.
  assert (terms_ok size base_index (S index) ts) as Hts'.
  { intros k t Hk. destruct (Hts (S k) t Hk) as [H1 H2]. split; [done|]. by rewrite H2, Nat.add_succ_r. }
  cbn [MirEmit.sum_terms MirEmit.emit_val]. eapply spec_bind; [apply emit_par_loc_spec; [by apply (em_valid_later b0)|done]|].
  intros b1 val Hx1 Hb1 Hval. apply (computes_base il pv enc b0 b) in Hval; [|done|done].
  apply spec_assoc. eapply spec_bind; [apply (spec_term_sum term val); [apply Hval|done]|]. intros b2 x Hx2 Hb2 [Hxv Hxd].
  assert (extends b b2) as Hx02 by by transitivity b1.
  assert (forall E M t s v, env_ok E -> em_repr E M b0 e t s -> entry_state il pv enc s -> get_dest s input true = Some v ->
    forall y, term_apply term (wrap 64 v) = Some y -> wrap 64 (den E b2 x) = y) as Hterm_value.
  { intros E M t s v HE Hr Hs Hv y Hy. apply Hxd; [done|]. by rewrite (computes_value _ _ _ _ _ _ _ _ E M t s v Hval). }
  case_decide as Hi.
  - apply (spec_weaken _ b2 (sums_are e b0 size ins ts b2 (Some x) offset)).
    { apply IH; [by transitivity b|done|done|done|by apply (sum_valid_later b)|]. intros i Hbi Hle. rewrite <- Hi in Hbi. injection Hbi as <-. lia. }
    intros b3 r Hx3 _ (Hr1 & Hr2 & Hsum). split; [done|]. split; [done|]. intros E M t s n vals sum basev p HE Hr Hs Hn Hvals Hsumv Hbasev Hp.
    destruct n as [|n]; [cbn in Hn; lia|]. cbn [take map_option] in Hvals. destruct (get_dest s input true) as [v|] eqn:Ev; [|done].
    cbn [fmap option_fmap option_map mbind option_bind] in Hvals. destruct (map_option _ (take n ins)) as [vs|] eqn:Evs; [|done]. injection Hvals as <-.
    cbn [sum_inputs] in Hp. destruct (term_apply term _) as [y|] eqn:Ey; [|done]. cbn [mbind option_bind] in Hp.
    rewrite Hgt, bool_decide_true in Hp by done. assert (basev = 0) as ->.
    { rewrite (Hbase index) in Hbasev; [done|done|lia]. }
    apply (Hsum E M t s n vs sum (wrap 64 (0 + y)) p HE Hr Hs); [cbn in Hn; lia|done|by apply (sum_is_later E b)| |done].
    cbn. rewrite (Hterm_value E M t s v HE Hr Hs Ev y Ey). symmetry. rewrite <- (Hterm_value E M t s v HE Hr Hs Ev y Ey). by apply wrap_wrap.
  - apply (spec_bind _ _ b2 (fun b' id => valid b' id /\ forall E y sum, env_ok E -> sum_is E b offset sum -> wrap 64 (den E b2 x) = y -> wrap 64 (den E b' id) = wrap 64 (sum + y))).
    { destruct offset as [off|].
      - eapply spec_weaken; [apply spec_binop; [done|cbn in Hov; eauto with mir|eauto with mir]|]. intros b3 id Hx3 _ [Hv3 Hd3]. split; [done|].
        intros E y sum HE <- <-. rewrite Hd3, value_add, wrap_wrap_le by (done || lia). cbn in Hov. later b. unfold wrap. rewrite <- Z.add_mod by lia.
        f_equal. lia.
      - apply spec_ret. intros _. split; [done|]. intros E y sum HE -> <-. symmetry. by apply wrap_wrap. }
    intros b3 x3 Hx3 _ [Hv3 Hd3]. assert (extends b b3) as Hx03 by by transitivity b2.
    apply (spec_weaken _ b3 (sums_are e b0 size ins ts b3 base (Some x3))).
    { apply IH; [by transitivity b|done|done|by apply (sum_valid_later b)|done|]. intros i Hbi Hle. apply (Hbase i Hbi). lia. }
    intros b4 r Hx4 _ (Hr1 & Hr2 & Hsum). split; [done|]. split; [done|]. intros E M t s n vals sum basev p HE Hr Hs Hn Hvals Hsumv Hbasev Hp.
    destruct n as [|n]; [cbn in Hn; lia|]. cbn [take map_option] in Hvals. destruct (get_dest s input true) as [v|] eqn:Ev; [|done].
    cbn [fmap option_fmap option_map mbind option_bind] in Hvals. destruct (map_option _ (take n ins)) as [vs|] eqn:Evs; [|done]. injection Hvals as <-.
    cbn [sum_inputs] in Hp. destruct (term_apply term _) as [y|] eqn:Ey; [|done]. cbn [mbind option_bind] in Hp.
    rewrite Hgt, bool_decide_false in Hp by done.
    apply (Hsum E M t s n vs (wrap 64 (sum + y)) basev p HE Hr Hs); [cbn in Hn; lia|done| |by apply (sum_is_later E b)|done].
    cbn. apply (Hd3 E y sum HE Hsumv). by apply (Hterm_value E M t s v HE Hr Hs Ev).
Qed.
(** ** Segments *)

(** The segment base that an input is. *)
Definition base_of (input : ParLoc) : option GpReg :=
  match operand_for il pv enc true (loc input) with
  | Some (DReg (Gp r)) => if is_segment_base r then Some r else None
  | _ => None
  end.
Fixpoint segment_base (inputs : list ParLoc) (index : nat) : option (nat * GpReg) :=
  match inputs with
  | [] => None
  | input :: inputs => match base_of input with Some r => Some (index, r) | None => segment_base inputs (S index) end
  end.

Definition register_is (b : ValBuilder) (e : Emitter) (b' : ValBuilder) (r : GpReg) (id : ValId) : Prop :=
  computes b e (fun _ s => Some (raw_reg (cpu s) (Gp r))) b' id.
Definition info_is (b : ValBuilder) (e : Emitter) (b' : ValBuilder) (r : GpReg) (info : SegmentInfo) : Prop :=
  exists regs, segment_regs r = Some regs /\ register_is b e b' regs.1.1 (seg_selector info)
    /\ register_is b e b' regs.1.2 (seg_access_rights info) /\ register_is b e b' regs.2 (seg_limit info).

Lemma segment_regs_not_zero r regs : segment_regs r = Some regs -> regs.1.1 <> Riz /\ regs.1.2 <> Riz /\ regs.2 <> Riz.
Proof. destruct r; try done; intros [= <-]; done. Qed.

Lemma spec_register {T} e b0 b r (k : ValId -> bm T) R :
  extends b0 b -> em_valid b0 e -> r <> Riz ->
  (forall b' id, extends b b' -> wf b' -> register_is b0 e b' r id -> spec (k id) b' R) ->
  spec (x <~ emit_reg fuel e (Gp r);; k x) b R.
Proof.
  intros Hx He Hr Hk. eapply spec_bind; [apply get_or_compute_spec; [apply (em_valid_later b0); done|done]|].
  intros b1 id Hx1 Hb1 [Hv Hd]. apply Hk; [done|done|]. split; [done|]. intros E M t s v HE Hrep Hs [= <-].
  rewrite (Hd E M (cpu s) HE); [by rewrite decide_False by congruence|]. apply (us_repr_later E M b0); [done|apply He|apply Hrep].
Qed.

Lemma segment_info_spec e r b0 b :
  extends b0 b -> em_valid b0 e ->
  spec (segment_info_of fuel e r) b (fun b' info => info_is b0 e b' r info).
Proof.
  intros Hx He. unfold segment_info_of. apply spec_lift. intros regs Hregs. destruct (segment_regs_not_zero r regs Hregs) as (H1 & H2 & H3).
  apply (spec_register e b0 b); [done..|]. intros b1 x1 Hx1 _ Hr1. apply (spec_register e b0 b1); [by transitivity b|done..|]. intros b2 x2 Hx2 _ Hr2.
  apply (spec_register e b0 b2); [transitivity b; [done|by transitivity b1]|done..|]. intros b3 x3 Hx3 _ Hr3. apply spec_ret. intros _. exists regs. split; [done|].
  split; [apply (computes_later _ _ _ b0 e _ b1); [by transitivity b2|done]|]. split; [by apply (computes_later _ _ _ b0 e _ b2)|done].
Qed.

Lemma segment_of_input_spec e input b0 b :
  extends b0 b -> em_valid b0 e -> input_ok il pv enc true input ->
  spec (segment_of_input fuel (Some pv) enc e input) b (fun b' r =>
    match base_of input, r with Some rg, Some info => info_is b0 e b' rg info | None, None => True | _, _ => False end).
Proof.
  intros Hx He (_ & d & Hd & Hok). unfold base_of. rewrite Hd. unfold operand_for, instantiate_dest in Hd. unfold segment_of_input.
  assert (forall r b, extends b0 b -> spec (if is_segment_base r then s <~ segment_info_of fuel e r;; bret (Some s) else bret None) b (fun b' o =>
    match (if is_segment_base r then Some r else None), o with Some rg, Some info => info_is b0 e b' rg info | None, None => True | _, _ => False end)) as Hbase.
  { intros r b1 Hx1. destruct (is_segment_base r); [|by apply spec_ret].
    eapply spec_bind; [by apply (segment_info_spec e r b0 b1)|]. intros b2 info _ _ Hinfo. by apply spec_ret. }
  destruct (loc input) as [[r|r]|i|i| |c]; try (injection Hd as <-; by first [apply Hbase|apply spec_ret]).
  destruct (arr_get (enc_parts enc) i) as [p|] eqn:Ep; [|done]. cbn [mbind option_bind] in Hd. apply spec_lift. intros p' [= <-].
  destruct p as [mapping bits|mapping|mapping]; [|done|].
  - destruct (assert (negb bits)); [|done]. cbn [mbind option_bind] in Hd. destruct (part_get _ _ _) as [y|]; [|done]. cbn [mbind option_bind] in Hd.
    assert (exists v, d = DConst v) as [v ->]; [|by apply spec_ret]. destruct mapping as [o|]; [|by injection Hd as <-; eexists].
    destruct (mapping_compute o y) as [[z|]|]; [|done|done]. injection Hd as <-. by eexists.
  - destruct (part_get _ _ _) as [y|] eqn:Ey; [|done]. cbn [mbind option_bind] in Hd. apply spec_lift. intros y' [= <-].
    destruct (arr_get mapping y) as [[r|]|]; try done. cbn [mbind option_bind] in Hd. injection Hd as <-. apply spec_lift. intros r' [= <-].
    destruct r as [r|r]; [by apply Hbase|by apply spec_ret].
Qed.

Lemma find_segment_spec e inputs index b0 b :
  extends b0 b -> em_valid b0 e -> inputs_ok inputs ->
  spec (find_segment fuel (Some pv) enc e inputs index) b (fun b' r =>
    fst <$> r = fst <$> segment_base inputs index
    /\ forall i info rg, r = Some (i, info) -> snd <$> segment_base inputs index = Some rg -> info_is b0 e b' rg info).
Proof.
  intros Hx He. revert index b Hx. induction inputs as [|input inputs IH]; intros index b Hx Hins; [by apply spec_ret|].
  apply list.Forall_cons in Hins as [Hin Hins]. cbn [find_segment segment_base].
  eapply spec_bind; [by apply (segment_of_input_spec e input b0)|]. intros b1 r Hx1 _ Hr.
  destruct (base_of input) as [rg|], r as [info|]; try done.
  - apply spec_ret. intros _. split; [done|]. intros i info' rg' [= <- <-] [= <-]. done.
  - apply IH; [by transitivity b|done].
Qed.
(** ** Entries *)

(** Accesses on which compiled code and the interpreter agree. *)
Definition no_memory (input : ParLoc) : Prop := match loc input with LMem _ => False | _ => True end.
Definition access_ok (access : MemoryAccess) : Prop :=
  inputs_ok (inputs access) /\ Forall no_memory (inputs access) /\ 0 <= access_size_end access < 256
  /\ exists c, calculation access = Calculation c /\ terms_ok (addr_size c) (fst <$> segment_base (inputs access) 0) 0 (terms c).

(** The segment check of an access. *)
Definition segment_ok (protected_mode : bool) (s : SysState) (access : MemoryAccess) (area : MemArea) : Prop :=
  forall i r regs, segment_base (inputs access) 0 = Some (i, r) -> segment_regs r = Some regs ->
  (protected_mode = true -> Z.land (raw_reg (cpu s) (Gp regs.1.1)) 0xfff8 <> 0)
  /\ wrap 32 (start_addr area - wrap 32 (Z.shiftr (raw_reg (cpu s) (Gp regs.1.2)) 32)) <= raw_reg (cpu s) (Gp regs.2).

Lemma wrap_add_low w a b : 0 <= w -> wrap w (a + b) = wrap w (wrap w a + wrap w b).
Proof. intros Hw. unfold wrap. rewrite <- Z.add_mod; [done|]. apply Z.pow_nonzero; lia. Qed.
Lemma wrap_sub_low x y : wrap 32 (wrap 32 x - y) = wrap 32 (x - y).
Proof. unfold wrap. apply Zminus_mod_idemp_l. Qed.
Lemma masked_offset size x y z :
  wrap 64 x = y -> Z.land (wrap 128 (x + wrap 128 z)) (Z.ones (AddrSize.num_bits size)) = AddrSize.apply size (wrap 64 (y + wrap 64 z)).
Proof.
  intros <-. assert (0 <= AddrSize.num_bits size <= 64) as Hn by by destruct size.
  assert (AddrSize.apply size (wrap 64 (wrap 64 x + wrap 64 z)) = Z.land (wrap 64 (wrap 64 x + wrap 64 z)) (Z.ones (AddrSize.num_bits size))) as ->
    by by destruct size.
  rewrite <- !wrap_land, !wrap_wrap_le by lia.
  rewrite (wrap_add_low _ x (wrap 128 z)), (wrap_add_low _ (wrap 64 x) (wrap 64 z)) by lia. rewrite !wrap_wrap_le by lia. done.
Qed.

Lemma address_low x y o : wrap 64 x = y -> wrap 32 (wrap 128 (x + o)) = wrap 32 (AddrSize.apply Addr64 (wrap 64 (y + o))).
Proof.
  intros <-. change (AddrSize.apply Addr64 (wrap 64 (wrap 64 x + o))) with (Z.land (wrap 64 (wrap 64 x + o)) (Z.ones 64)).
  rewrite <- wrap_land by lia. rewrite !wrap_wrap_le by lia.
  rewrite (wrap_add_low 32 x o), (wrap_add_low 32 (wrap 64 x) o) by lia. by rewrite wrap_wrap_le by lia.
Qed.

Lemma prepare_entry_spec e c access seg b0 b :
  extends b0 b -> em_valid b0 e -> inputs_ok (inputs access) ->
  terms_ok (addr_size c) (fst <$> seg) 0 (terms c) ->
  spec (prepare_memory_entry fuel (Some il) (Some pv) enc e c access seg) b (fun b' m =>
    valid b' (me_value m) /\ valid b' (me_addr m) /\ me_seg_info m = snd <$> seg /\ me_num_bytes m = access_size_end access
    /\ (forall E, env_ok E -> den E b' (me_value m) = 0)
    /\ forall E M t s a, env_ok E -> em_repr E M b0 e t s -> entry_state il pv enc s -> protected_area s access c = Some a ->
         a = Protected (wrap 32 (den E b' (me_addr m))) (wrap 8 (access_size_end access))).
Proof.
  intros Hx He Hins Hts. unfold prepare_memory_entry.
  eapply spec_bind; [apply (sum_terms_spec e (addr_size c) _ 0 _ _ None None b0 b); done|]. intros b1 r Hx1 Hb1 (Hr1 & Hr2 & Hsum).
  apply spec_lift. intros base Hbase. apply spec_lift. intros offset Hoffset. rewrite Hbase in Hr1. rewrite Hoffset in Hr2. cbn in Hr1, Hr2.
  eapply spec_bind; [by apply spec_imm, wrap_inw|]. intros b2 co Hx2 _ Hco.
  eapply spec_bind; [apply spec_binop; eauto with mir|]. intros b3 x3 Hx3 _ Hn3.
  apply spec_lift. intros mask Hmask. assert (mask = Z.ones (AddrSize.num_bits (addr_size c))) as -> by (destruct (addr_size c); by injection Hmask).
  assert (0 <= AddrSize.num_bits (addr_size c) <= 64) as Hn by by destruct (addr_size c).
  eapply spec_bind; [apply spec_imm, inw_ones; lia|]. intros b4 mk Hx4 _ Hmk.
  eapply spec_bind; [apply spec_binop; eauto with mir|]. intros b5 x5 Hx5 _ Hn5. assert (extends b1 b3) as Hx13 by by transitivity b2.
  assert (extends b1 b5) as Hx15 by (transitivity b3; [done|by transitivity b4]).
  eapply spec_bind; [apply spec_binop; eauto with mir|]. intros b6 x6 Hx6 _ Hn6.
  eapply spec_bind; [apply spec_extract; [eauto with mir|lia..]|]. intros b7 addr Hx7 _ Haddr.
  eapply spec_bind; [by apply spec_imm|]. intros b8 zero Hx8 _ Hzero. apply spec_ret. intros _. cbn [me_value me_addr me_seg_info me_num_bytes].
  split; [by destruct Hzero|]. split; [eauto with mir|]. split; [done|]. split; [done|]. split; [intros E HE; by apply Hzero|].
  intros E M t s a HE Hr Hs Ha. unfold protected_area, area_inputs, evaluate_from_iter in Ha.
  destruct (map_option _ _) as [vals|] eqn:Evals; [|done]. cbn [mbind option_bind] in Ha.
  destruct (sum_inputs _ _ _ _ _) as [[sum basev]|] eqn:Esum; [|done]. cbn [mbind option_bind] in Ha. injection Ha as <-.
  destruct (Hsum E M t s (S (length (terms c))) vals 0 0 (sum, basev) HE Hr Hs) as [Hs1 Hs2]; [lia|done|done|done|done|].
  rewrite Hoffset in Hs1. rewrite Hbase in Hs2. cbn in Hs1, Hs2. f_equal.
  later b7. rewrite (node_is_den _ _ _ E Haddr HE). unfold extract_value. rewrite Z.shiftr_0_r, <- wrap_land by lia.
  rewrite (node_is_den _ _ _ E Hn6 HE), value_add. later b1. rewrite (node_is_den _ _ _ E Hn5 HE), value_and. later b3.
  rewrite (node_is_den _ _ _ E Hmk HE), (node_is_den _ _ _ E Hn3 HE), value_add. later b1. rewrite (node_is_den _ _ _ E Hco HE).
  rewrite (masked_offset (addr_size c) _ _ _ Hs1). symmetry. rewrite wrap_wrap by lia. by apply address_low.
Qed.
Lemma emit_memory_access_spec protected_mode e access b :
  em_valid b e -> access_ok access ->
  spec (emit_memory_access fuel (Some il) (Some pv) enc access e) b (fun b' r => exists m, r = (tt, with_memory e (em_memory e ++ [m]))
    /\ entry_valid b' m /\ (forall E, env_ok E -> den E b' (me_value m) = 0)
    /\ forall E M t s c a, env_ok E -> em_repr E M b e t s -> entry_state il pv enc s -> unwrap_calculation (calculation access) = Some c ->
         protected_area s access c = Some a -> segment_ok protected_mode s access a -> entry_area protected_mode E b' m a).
Proof.
  intros He (Hins & _ & Hsize & c & Hc & Hts). unfold emit_memory_access.
  eapply espec_value_of; [by apply (find_segment_spec e (inputs access) 0 b b)|]. intros b1 seg Hx1 Hb1 (Hfst & Hinfo).
  rewrite <- Hfst in Hts.
  assert (computation_of (Some pv) enc access = Some c) as Hcomp by (unfold computation_of; by rewrite Hc).
  unfold ebind at 1, elift at 1. rewrite Hcomp.
  eapply (spec_bind _ _ b1 (fun b' r => b' = b1 /\ r = (c, e))); [by apply spec_lift; intros c' [= <-]; apply spec_ret|].
  intros b' r _ _ [-> ->]. cbn [fst snd].
  eapply espec_value_of; [by apply (prepare_entry_spec e c access seg b b1)|]. intros b2 m Hx2 Hb2 (Hv & Ha & Hsi & Hnb & Hzero & Haddr).
  apply spec_lift. intros [] _. apply spec_ret. intros _. exists m. split; [done|].
  assert (forall i info rg, seg = Some (i, info) -> snd <$> segment_base (inputs access) 0 = Some rg -> info_is b e b2 rg info) as Hinfo2.
  { intros i info rg E1 E2. destruct (Hinfo i info rg E1 E2) as (regs & Hregs & H1 & H2 & H3). exists regs. split; [done|].
    split; [|split]; by apply (computes_later _ _ _ b e _ b1 b2). }
  assert (forall info, me_seg_info m = Some info -> exists i rg, segment_base (inputs access) 0 = Some (i, rg) /\ info_is b e b2 rg info) as Hseg.
  { intros info Ei. rewrite Hsi in Ei. destruct seg as [[i info']|]; [|done]. injection Ei as ->. cbn in Hfst.
    destruct (segment_base (inputs access) 0) as [[i' rg]|] eqn:Esb; [|done]. exists i', rg. split; [done|]. by apply (Hinfo2 i). }
  split; [|split; [done|]].
  - split; [done|]. split; [done|]. intros info Ei. destruct (Hseg info Ei) as (i & rg & _ & regs & _ & H1 & H2 & H3).
    split; [|split]; by apply (computes_valid _ _ _ b e) in H1, H2, H3.
  - intros E M t s c' a HE Hr Hs Hc' Harea Hok. assert (c' = c) as -> by (rewrite Hc in Hc'; by injection Hc').
    pose proof (Haddr E M t s a HE Hr Hs Harea) as Ea. unfold entry_area. rewrite Hnb. split; [rewrite Ea, (wrap_small 8) by exact Hsize; done|].
    intros info Ei. destruct (Hseg info Ei) as (i & rg & Esb & regs & Hregs & H1 & H2 & H3).
    destruct (Hok i rg regs Esb Hregs) as [Hnull Hrange]. unfold segment_passes.
    rewrite (computes_value _ _ _ _ _ _ _ _ E M t s _ H1 HE Hr Hs eq_refl), (computes_value _ _ _ _ _ _ _ _ E M t s _ H2 HE Hr Hs eq_refl),
      (computes_value _ _ _ _ _ _ _ _ E M t s _ H3 HE Hr Hs eq_refl).
    split; [done|]. rewrite Ea in Hrange. cbn [start_addr] in Hrange. by rewrite wrap_sub_low in Hrange.
Qed.
(** ** All accesses of an instruction *)

Lemma get_dest_mem s mm input flag : no_memory input -> get_dest (with_mem s mm) input flag = get_dest s input flag.
Proof. unfold no_memory, get_dest, part_register. by destruct (loc input). Qed.

Lemma map_option_ext {A C} (f g : A -> option C) l : Forall (fun x => f x = g x) l -> map_option f l = map_option g l.
Proof. induction 1 as [|x l Hx Hl IH]; [done|]. cbn [map_option]. by rewrite Hx, IH. Qed.

Lemma areas_mem s mm l : Forall access_ok l -> extract_memory_areas true (with_mem s mm) l = extract_memory_areas true s l.
Proof.
  intros Hl. apply map_option_ext. eapply Forall_impl; [|exact Hl]. intros access (_ & Hno & _). destruct (unwrap_calculation _) as [c|]; [|done].
  cbn [mbind option_bind]. unfold protected_area, area_inputs. erewrite map_option_ext; [done|]. apply Forall_take.
  eapply Forall_impl; [|exact Hno]. intros input Hinput. cbn. by rewrite get_dest_mem.
Qed.

Lemma emit_memory_accesses_spec protected_mode e l b :
  em_valid b e -> Forall access_ok l ->
  spec (emit_memory_accesses fuel (Some il) (Some pv) enc l e) b (fun b' r => exists ms, r = (tt, with_memory e (em_memory e ++ ms))
    /\ Forall (entry_valid b') ms /\ Forall (fun m => forall E, env_ok E -> den E b' (me_value m) = 0) ms /\ length ms = length l
    /\ forall E M t s areas, env_ok E -> em_repr E M b e t s -> entry_state il pv enc s -> extract_memory_areas true s l = Some areas ->
         Forall2 (segment_ok protected_mode s) l areas -> Forall2 (entry_area protected_mode E b') ms areas).
Proof.
  revert e b. induction l as [|access l IH]; intros e b He Hl; cbn [emit_memory_accesses].
  { apply spec_ret. intros _. exists []. rewrite app_nil_r. split; [by destruct e|]. split; [constructor|]. split; [constructor|]. split; [done|].
    intros E M t s areas _ _ _ [= <-] _. constructor. }
  apply list.Forall_cons in Hl as [Ha Hl]. eapply espec_bind; [by apply (emit_memory_access_spec protected_mode)|].
  intros b1 u e1 Hx1 _ (m & E & Hv & Hz & Harea). injection E as _ ->. set (e1 := with_memory e (em_memory e ++ [m])).
  assert (em_valid b1 e1) as He1.
  { destruct (em_valid_later b b1 e Hx1 He) as [H1 H2 H3]. split; [done|done|]. cbn [em_memory e1 with_memory]. by apply list.Forall_app; split; [|apply Forall_singleton]. }
  eapply spec_weaken; [by apply IH|]. intros b2 r Hx2 _ (ms & -> & Hvs & Hzs & Hlen & Hareas). exists (m :: ms).
  cbn [em_memory e1 with_memory] in *. split; [by rewrite <- app_assoc|]. split; [constructor; [by apply (entry_valid_later b1)|done]|]. split.
  { constructor; [|done]. intros E HE. destruct Hv as [? _]. rewrite (den_later E b1 b2) by done. by apply Hz. }
  split; [cbn; by rewrite Hlen|]. intros E M t s areas HE Hr Hs Hex Hsegs. cbn [extract_memory_areas map_option] in Hex.
  destruct (unwrap_calculation (calculation access)) as [c|] eqn:Ec; [|done]. cbn [mbind option_bind] in Hex.
  destruct (protected_area s access c) as [a|] eqn:Epa; [|done]. cbn [mbind option_bind] in Hex.
  change (map_option _ l) with (extract_memory_areas true s l) in Hex. destruct (extract_memory_areas true s l) as [areas'|] eqn:Eas; [|done]. injection Hex as <-.
  apply Forall2_cons_1 in Hsegs as [Hseg Hsegs]. constructor.
  - apply (entry_area_later _ _ b1); [done|done|]. by apply (Harea E M t s c a).
  - apply (Hareas E M t (with_mem s (mem s ++ [0]))); [done| | | |done].
    + destruct (em_repr_later E M b b1 e t s Hx1 He Hr) as [H1 H2 H3 H4 H5]. split; try done. cbn [em_memory e1 with_memory with_mem mem].
      apply Forall2_app; [done|]. constructor; [by apply Hz|constructor].
    + destruct Hs as [? ? ? ? ? ? Hmem]. split; try done. cbn [mem with_mem]. apply list.Forall_app. split; [done|]. by apply Forall_singleton.
    + by rewrite areas_mem.
Qed.
End addr.
