(* ===== verification/MirMerge.v ===== *)
(** * Joining the code of two branches

    [Backup::restore] and [Backup::merge] of
    [sem86-core/src/codegen/mir/mod.rs]: emission goes on with what a branch
    started from, and after two branches with values that are right on both,
    when each has stored its own in variables. *)
From stdpp Require Import relations.
From S2P Require Import Prelude Exceptions IlOps Arch Packing IlLoc MemArea IlCmd Jump.
From S2P Require Import ValTree ValBuild ValSpec ValSound ValCombine ValMono CpuBytes Mir MirState MirEmit MirSpec MirStateSound.
From S2P Require Import MirCommit MirVals MirRun.

#[local] Open Scope bm_scope.

(** ** Merged values *)

Lemma valid_all_later b b' l : extends b b' -> Forall (valid b) l -> Forall (valid b') l.
Proof. intros Hx Hl. eapply Forall_impl; [|exact Hl]. intros id. by apply extends_valid. Qed.

Definition stores_of (s : Updates * Updates * Z) : list (list (VarId * ValId)) := [s.1.1; s.1.2].

Lemma merge_one_vals z nz s b :
  merge_one z nz s b = (r <~ merge_vals [z; nz] (stores_of s, s.2);;
                        bret (r.1, (nth 0 r.2.1 [], nth 1 r.2.1 [], r.2.2))) b.
Proof.
  destruct s as [[zs nzs] next]. unfold merge_one, merge_vals. cbn [all_equal stores_of fst snd]. rewrite andb_true_r.
  case_decide as Hd; [rewrite bool_decide_true by done|rewrite bool_decide_false by done]; [by subst|].
  unfold bbind. by destruct (use_var next b) as [[]|].
Qed.

Lemma merge_one_spec nv z nz s b :
  valid b z -> valid b nz -> stores_ok nv s.2 b (stores_of s) ->
  spec (merge_one z nz s) b (fun b' r =>
    merged [z; nz] (stores_of r.2) b' r.1 /\ stores_grow (stores_of s) (stores_of r.2) /\ stores_ok nv r.2.2 b' (stores_of r.2)).
Proof.
  intros Hz Hnz Hs Hb t b'. rewrite merge_one_vals. revert Hb t b'. eapply spec_bind; [by apply (merge_vals_spec nv); [|repeat constructor|]|].
  intros b1 [id [stores next]] _ _ (Hm & Hg & Hok). cbn [fst snd] in *. apply spec_ret. intros _. cbn [fst snd].
  assert (exists zs nzs, stores = [zs; nzs]) as (zs & nzs & ->); [|done].
  apply Forall2_length in Hg. destruct stores as [|zs [|nzs [|]]]; try done. by exists zs, nzs.
Qed.

(** The operand is the same one, with another value. *)
Definition same_operand (x y : MemEntry) : Prop :=
  me_addr y = me_addr x /\ me_seg_info y = me_seg_info x /\ me_num_bytes y = me_num_bytes x.
#[export] Instance same_operand_equiv : Equivalence same_operand.
Proof.
  split; [by repeat split|intros x y (? & ? & ?); split; [|split]; congruence|].
  intros x y z (? & ? & ?) (? & ? & ?). split; [|split]; congruence.
Qed.
Lemma same_access_operand x y : same_access x y -> same_operand x y.
Proof. intros (? & ? & _ & ? & _). by split. Qed.

(** The values of the temporaries. *)
Lemma merge_tmp_spec nv z nz s b :
  length z = length nz -> Forall (valid b) z -> Forall (valid b) nz -> stores_ok nv s.2 b (stores_of s) ->
  spec (merge_tmp z nz s) b (fun b' r =>
    Forall2 (fun x id => merged [x.1; x.2] (stores_of r.2) b' id) (zip z nz) r.1
    /\ stores_grow (stores_of s) (stores_of r.2) /\ stores_ok nv r.2.2 b' (stores_of r.2)).
Proof.
  revert nz s b. induction z as [|x z IH]; intros [|y nz] s b Hl Hz Hnz Hs; try done; [apply spec_ret; intros _; split; [by apply List.Forall2_nil|by split]|].
  apply list.Forall_cons in Hz as [Hx Hz]. apply list.Forall_cons in Hnz as [Hy Hnz]. cbn [merge_tmp].
  eapply spec_bind; [by apply (merge_one_spec nv)|]. intros b1 r Hx1 _ (Hm & Hg & Hok).
  eapply spec_bind; [apply IH; [by injection Hl|by apply (valid_all_later b)|by apply (valid_all_later b)|done]|].
  intros b2 rs Hx2 _ (Hms & Hgs & Hoks). apply spec_ret. intros _. cbn [fst snd]. split; [|split; [by transitivity (stores_of r.2)|done]].
  constructor; [by apply (merged_later _ _ _ b1 b2 _ Hm)|done].
Qed.

Lemma merge_memory_spec nv l z nz s b :
  length z = length l -> length nz = length l -> Forall (fun x => valid b x.1) z -> Forall (fun x => valid b x.1) nz ->
  stores_ok nv s.2 b (stores_of s) ->
  spec (merge_memory l z nz s) b (fun b' r =>
    Forall2 (fun x m => merged [x.1.1; x.2.1] (stores_of r.2) b' (me_value m)) (zip z nz) r.1
    /\ Forall2 same_operand l r.1
    /\ stores_grow (stores_of s) (stores_of r.2) /\ stores_ok nv r.2.2 b' (stores_of r.2)).
Proof.
  revert z nz s b. induction l as [|m l IH]; intros z nz s b Hlz Hlnz Hz Hnz Hs.
  { destruct z; [|done]. apply spec_ret. intros _. destruct nz; [|done]. split; [by apply List.Forall2_nil|]. split; [constructor|by split]. }
  destruct z as [|x z], nz as [|y nz]; try done.
  apply list.Forall_cons in Hz as [Hx Hz]. apply list.Forall_cons in Hnz as [Hy Hnz]. cbn [merge_memory].
  eapply spec_bind; [by apply (merge_one_spec nv)|]. intros b1 r Hx1 _ (Hm & Hg & Hok).
  eapply spec_bind; [apply IH; [by injection Hlz|by injection Hlnz| | |done]|].
  1,2: eapply Forall_impl; [|done]; intros q; by apply (extends_valid b b1).
  intros b2 rs Hx2 _ (Hms & Hsame & Hgs & Hoks). apply spec_ret. intros _. cbn [fst snd].
  split; [|split; [by constructor|split; [by transitivity (stores_of r.2)|done]]].
  constructor; [by apply (merged_later _ _ _ b1 b2 _ Hm)|done].
Qed.

(** The merged value is the value of the path whose stores have been run. *)
Lemma merged_value vals stores b id i val st (P : Env -> Prop) x E :
  merged vals stores b id -> vals !! i = Some val -> stores !! i = Some st -> env_ok E ->
  (forall E0, P E0 -> den E0 b val = x) -> assigned P b st E -> den E b id = x.
Proof.
  intros [Hv Hm] Hval Hst HE Hden [HP Ha]. destruct (Hm i val st Hval Hst) as [->|(n & Hin & Hn)]; [by apply Hden|].
  rewrite (node_is_den _ _ _ E Hn HE). destruct (Ha n val Hin) as (E0 & HE0 & ->). by apply Hden.
Qed.

(** ** Saved states *)

Definition backup_of (e : Emitter) : Backup :=
  {| bk_cpu_state := em_us e; bk_tmp := em_tmp e; bk_memory := (fun m => (me_value m, me_needs_write m)) <$> em_memory e |}.
(** Emission goes on from [e] in the graph of [e1]. *)
Definition restored (e e1 : Emitter) : Emitter :=
  {| em_cf := em_cf e1; em_next_var := em_next_var e1; em_us := em_us e; em_tmp := em_tmp e;
     em_memory := restore_memory (em_memory e1) (bk_memory (backup_of e)) |}.

Lemma restore_memory_spec l l1 :
  Forall2 same_operand l l1 ->
  let l' := restore_memory l1 ((fun m => (me_value m, me_needs_write m)) <$> l) in
  Forall2 same_operand l l' /\ Forall2 (fun x y => me_value y = me_value x) l l'.
Proof.
  intros H. induction H as [|x y l l1 (Ha & Hs & Hn) H [IH1 IH2]]; [by split|]. cbn [fmap list_fmap restore_memory fst snd].
  split; constructor; done.
Qed.

(** What branches have in common with what they started from. *)
Record same_shape (e e' : Emitter) : Prop := {
  sh_memory : Forall2 same_operand (em_memory e) (em_memory e');
  sh_tmp : length (em_tmp e') = length (em_tmp e);
}.
#[export] Instance same_shape_equiv : Equivalence same_shape.
Proof.
  split.
  - intros e. by split.
  - intros e e' [? ?]. by split.
  - intros e1 e2 e3 [? ?] [? ?]. split; [by transitivity (em_memory e2)|congruence].
Qed.
Lemma kept_shape e e' : kept e e' -> same_shape e e'.
Proof.
  intros Hk. split; [|apply Hk]. eapply Forall2_impl; [|apply (kept_memory _ _ Hk)]. intros x y. apply same_access_operand.
Qed.
Lemma restored_shape e e1 : same_shape e e1 -> same_shape e (restored e e1).
Proof. intros [Hm _]. split; [|done]. by apply restore_memory_spec. Qed.

Lemma entry_valid_operand b x y : same_operand x y -> valid b (me_value y) -> entry_valid b x -> entry_valid b y.
Proof. intros (Ha & Hs & _) Hv (_ & Hva & Hvs). split; [done|]. rewrite Ha, Hs. by split. Qed.

Section merge.
Context {W : Type} `{ctx : ExecCtx W} `{sf : SoftFloat} `{sfl : !SoftFloatLaws}.
Context `{lay : Layout} `{laws : !LayoutLaws}.
Context (ail apv : Z) (Hail : inw 128 ail) (Hapv : inw 128 apv).
Context (B : ValBuilder) (fuel : nat) (il pv : Z) (enc : Encoding).
Context (M0 : Z -> Z) (k0 : Z) (res0 : PackedExecResult) (us0 : UncommittedState) (s0 : State) (kv0 kv : Z).
Context (protected : ValId) (protected_mode : bool) (areas : list MemArea).

Abbreviation mach := (Machine W).
Abbreviation env m := (env_of ail apv m).
Abbreviation agrees := (MirRun.agrees (W := W) ail apv).
Abbreviation Rel := (MirRun.Rel (W := W) ail apv il pv enc M0 k0 res0 us0 s0 kv0 kv protected protected_mode areas).
Abbreviation view := (MirRun.view M0 us0 s0 kv0 kv protected protected_mode areas).
Abbreviation em_static := (MirRun.em_static us0 protected).

Lemma entry_area_operand E b x y a : same_operand x y -> entry_area protected_mode E b x a -> entry_area protected_mode E b y a.
Proof.
  intros (Ha & Hs & Hn) [-> Hp]. split; [by rewrite Ha, Hn|]. intros i Hi. rewrite Hs in Hi. destruct (Hp i Hi) as [H1 H2].
  split; [done|by rewrite Ha].
Qed.
Lemma areas_operand E b l l' :
  Forall2 same_operand l l' -> Forall2 (entry_area protected_mode E b) l areas -> Forall2 (entry_area protected_mode E b) l' areas.
Proof.
  intros Hl. revert areas. induction Hl as [|x y l l' Hx Hl IH]; intros as_ H; inv H; constructor;
    [by apply (entry_area_operand E b x)|by apply IH].
Qed.

Lemma restored_static b e e1 : em_static b e -> same_shape e e1 -> em_static b (restored e e1).
Proof.
  intros [[Hu Ht Hm] Hi Hp] [Hsh _]. split; [|done|done]. split; [done|done|]. cbn [em_memory restored].
  destruct (restore_memory_spec _ _ Hsh) as [H1 H2]. cbn zeta in H1, H2. revert H1 H2 Hm. cbn [bk_memory backup_of].
  generalize (restore_memory (em_memory e1) ((fun m => (me_value m, me_needs_write m)) <$> em_memory e)). generalize (em_memory e). clear.
  intros l l' H1 H2 Hm. induction H1 as [|x y l l' Hxy H1 IH]; [constructor|]. inv H2. apply list.Forall_cons in Hm as [Hx Hm].
  constructor; [|by apply IH]. apply (entry_valid_operand b x); [done| |done]. destruct Hx as [Hx _]. congruence.
Qed.

Lemma Rel_restored b e e1 m (c : Config W) :
  Rel b e m c -> same_shape e e1 -> em_next_var e <= em_next_var e1 -> Rel b (restored e e1) m c.
Proof.
  intros [Hm Hc Hk Hres Hw Hst Hvw Hkeys] [Hsh _] Hn.
  assert (forall E, agrees (em_next_var e1) E m -> agrees (em_next_var e) E m) as Ha.
  { intros E HE. apply (agrees_below _ _ _ (em_next_var e1) E m m); [done|by apply same_below_refl|done]. }
  destruct (restore_memory_spec _ _ Hsh) as [H1 H2]. cbn zeta in H1, H2. split; try done.
  - intros E HE. destruct (Hvw E (Ha E HE)) as [[Hus Ht Hmem Hb Hu] G1 G2 G3 G4 G5]. split; try done.
    + split; try done. cbn [em_memory restored]. clear - H2 Hmem. revert Hmem. generalize (mem (sys c)).
      cbn [bk_memory backup_of]. induction H2 as [|x y l l' Hxy H2 IH]; intros t Ht; inv Ht; constructor; [by rewrite Hxy|by apply IH].
    + cbn [em_memory restored]. by apply (areas_operand E b (em_memory e)).
  - intros key Hkey. destruct (Hkeys key Hkey) as [r Hr]. exists r. intros E HE. by apply Hr, Ha.
Qed.

(** ** Running the stores of a branch *)

Definition run_stores (st : Updates) (m : mach) : mach :=
  foldl (fun m '(var, v) => with_var m var (den (env m) B v)) m st.

Lemma run_stores_below n n' m st :
  machine_ok m -> Forall (fun x => n <= x.1 < n') st -> wf B -> NoDup st.*1 -> Forall (fun x => valid B x.2) st ->
  let m' := run_stores st m in
  same_below n m m' /\ machine_ok m' /\ m_world m' = m_world m /\ m_result m' = m_result m
  /\ forall v id, (v, id) ∈ st -> exists m0, same_below n m m0 /\ machine_ok m0 /\ m_vars m' v = den (env m0) B id.
Proof.
  intros Hm Hst HB Hnd Hval. cbn zeta. unfold run_stores. revert m Hm. induction st as [|[x id] st IH]; intros m Hm.
  { split; [by apply same_below_refl|]. split; [done|]. split; [done|]. split; [done|]. by intros v id ?%not_elem_of_nil. }
  apply list.Forall_cons in Hst as [Hx Hst]. cbn [fst] in Hx. apply list.Forall_cons in Hval as [Hid Hval]. cbn [snd] in Hid.
  cbn [fmap list_fmap fst] in Hnd. apply list.NoDup_cons in Hnd as [Hnotin Hnd].
  set (m1 := with_var m x (den (env m) B id)).
  assert (same_below n m m1) as Hs1 by (split; [|done|done]; intros v Hv; cbn; rewrite decide_False; [done|lia]).
  assert (machine_ok m1) as Hm1.
  { pose proof (env_of_ok ail apv m Hail Hapv Hm) as HE. destruct Hm as [Hv Hc]. split; [|done]. intros v. cbn.
    case_decide; [by apply den_inw|done]. }
  destruct (IH Hst Hnd Hval m1 Hm1) as ([Hv2 Hc2 Hk2] & Hm2 & Hw2 & Hr2 & Hvars). cbn [foldl]. fold m1.
  assert (forall v, v ∉ st.*1 -> m_vars (foldl (fun m '(var, v) => with_var m var (den (env m) B v)) m1 st) v = m_vars m1 v) as Hother.
  { clear. generalize m1. induction st as [|[y i] st IH]; intros m0 v Hv; [done|]. cbn [foldl fmap list_fmap fst] in *.
    apply not_elem_of_cons in Hv as [Hne Hv]. rewrite IH by done. cbn. by rewrite decide_False. }
  split; [split; [|by rewrite Hc2|by rewrite Hk2]; intros v Hv; rewrite Hv2 by done; by apply Hs1|].
  split; [done|]. split; [by rewrite Hw2|]. split; [by rewrite Hr2|]. intros v i [E|Hin]%elem_of_cons.
  - injection E as -> ->. exists m. split; [by apply same_below_refl|]. split; [done|]. rewrite Hother by done. cbn. by rewrite decide_True.
  - destruct (Hvars v i Hin) as (m0 & [G1 G2 G3] & Hm0 & Hd). exists m0. split; [|done].
    split; [|by rewrite G2|by rewrite G3]. intros y Hy. rewrite G1 by done. by apply Hs1.
Qed.
Lemma stores_forall nv nv' b stores i (st : Updates) :
  stores_ok nv nv' b stores -> stores !! i = Some st ->
  Forall (fun x => nv <= x.1 < nv') st /\ NoDup st.*1 /\ Forall (fun x => valid b x.2) st.
Proof.
  intros Hs Hi%list_elem_of_lookup_2. split; [|split; [by apply (st_once _ _ _ _ Hs)|]]; apply list.Forall_forall; intros [v id] Hin;
    by destruct (st_vars _ _ _ _ Hs st v id Hi Hin).
Qed.

(** The environments of a machine that has run the stores. *)
Lemma stored_env nv nv' b m c e st E :
  Rel b e m c -> em_next_var e <= nv -> nv <= nv' -> wf B ->
  Forall (fun x => nv <= x.1 < nv') st -> NoDup st.*1 -> Forall (fun x => valid b x.2) st -> extends b B ->
  agrees nv' E (run_stores st m) -> assigned (fun E => agrees nv E m) b st E.
Proof.
  intros HR Hn Hn' HB Hst Hnd Hval Hx HE.
  destruct (run_stores_below nv nv' m st (rl_machine HR) Hst HB Hnd) as (Hs & Hm' & _ & _ & Hvars).
  { eapply Forall_impl; [|exact Hval]. intros x. by apply extends_valid. }
  split; [by apply (agrees_below _ _ nv nv' E m (run_stores st m))|]. intros v id Hin.
  destruct (Hvars v id Hin) as (m0 & Hs0 & Hm0 & Hv). exists (env m0).
  split; [apply (agrees_below _ _ nv nv _ m m0); [done|done|by apply agrees_self]|].
  rewrite list.Forall_forall in Hst, Hval. pose proof (Hst _ Hin) as Hrange. cbn [fst] in Hrange.
  rewrite (ag_vars _ _ _ _ _ HE) by lia. rewrite Hv. apply den_later; [done|]. exact (Hval _ Hin).
Qed.

(** The values of a list that is merged. *)
Lemma merged_all {A} (f : A -> ValId) (l : list A) (vals : list (ValId * ValId)) stores b i st (P : Env -> Prop) (sel : list ValId) t E :
  Forall2 (fun x y => merged [x.1; x.2] stores b (f y)) vals l -> stores !! i = Some st -> env_ok E ->
  Forall2 (fun x y => [x.1; x.2] !! i = Some y) vals sel ->
  (forall E0, P E0 -> Forall2 (fun id x => den E0 b id = x) sel t) -> assigned P b st E ->
  Forall2 (fun y x => den E b (f y) = x) l t.
Proof.
  intros Hl Hst HE Hsel Hden Ha. revert sel t Hsel Hden. induction Hl as [|x y vals l Hm Hl IH]; intros sel t Hsel Hden.
  - inv Hsel. pose proof (Hden E (proj1 Ha)) as H. by inv H.
  - inv Hsel. pose proof (Hden E (proj1 Ha)) as H. inv H. constructor.
    + eapply (merged_value _ _ _ _ _ _ _ P); try done. intros E0 HE0. pose proof (Hden E0 HE0) as H. by inv H.
    + eapply IH; [done|]. intros E0 HE0. pose proof (Hden E0 HE0) as H. by inv H.
Qed.

Lemma zip_select {A} (z nz : list A) i sel :
  length z = length nz -> [z; nz] !! i = Some sel -> Forall2 (fun x y => [x.1; x.2] !! i = Some y) (zip z nz) sel.
Proof.
  revert nz sel. induction z as [|x z IH]; intros [|y nz] sel Hl Hi; try done.
  - destruct i as [|[|]]; try done; injection Hi as <-; constructor.
  - injection Hl as Hl. destruct i as [|[|]]; try done; injection Hi as <-; (constructor; [done|]); by apply (IH nz).
Qed.
(** ** The merged emitter *)

Lemma Rel_path nv b m c e :
  Rel b e m c -> em_next_var e <= nv -> path_env (fun E => agrees nv E m) M0 (cpu (sys c)) kv b (em_us e).
Proof.
  intros HR Hn. assert (forall E, agrees nv E m -> agrees (em_next_var e) E m) as Ha.
  { intros E HE. by apply (agrees_below _ _ _ nv E m m); [|apply same_below_refl|]. }
  split.
  - intros E HE. pose proof (rl_view HR E (Ha E HE)) as Hv. split; [apply HE|]. split; apply Hv.
  - intros key Hkey. destruct (rl_keys HR key Hkey) as [r Hr]. exists r. intros E HE. by apply Hr, Ha.
Qed.

(** The state of the merged emitter for a path. *)
Definition joins (nv : Z) (es : list Emitter) (b : ValBuilder) (e : Emitter) (b' : ValBuilder) (stores : list Updates) (e' : Emitter) : Prop :=
  em_cf e' = em_cf e /\ nv <= em_next_var e' /\ em_static b' e' /\ same_shape e e'
  /\ stores_ok nv (em_next_var e') b' stores
  /\ forall i ei st m (c : Config W), es !! i = Some ei -> stores !! i = Some st -> Rel b ei m c -> extends b' B -> wf B ->
       Rel b' e' (run_stores st m) c.

Lemma Rel_joined nv b b' ei m c e' stores i st vals_t vals_m :
  Rel b ei m c -> em_static b ei -> em_next_var ei <= nv -> extends b b' -> extends b' B -> wf B ->
  stores_ok nv (em_next_var e') b' stores -> stores !! i = Some st ->
  (forall E, assigned (fun E => agrees nv E m) b' st E -> us_repr E M0 b' (em_us e') (cpu (sys c)) /\ k_value E b' (em_us e') = kv) ->
  (forall key, key ∈ (dynamic (em_us e')).*1 -> key ∈ (dynamic (em_us ei)).*1) ->
  Forall2 (fun x y => merged [x.1; x.2] stores b' y) vals_t (em_tmp e') ->
  Forall2 (fun x y => [x.1; x.2] !! i = Some y) vals_t (em_tmp ei) ->
  Forall2 (fun x y => merged [x.1; x.2] stores b' (me_value y)) vals_m (em_memory e') ->
  Forall2 (fun x y => [x.1; x.2] !! i = Some y) vals_m (me_value <$> em_memory ei) ->
  Forall2 same_operand (em_memory ei) (em_memory e') ->
  Rel b' e' (run_stores st m) c.
Proof.
  intros HR0 Hs Hn Hx HxB HB Hok Hst Hus Hkeys Ht Htsel Hm Hmsel Hop.
  assert (Rel b' ei m c) as HR by by apply (Rel_later _ _ _ _ _ _ _ _ _ _ _ _ _ _ _ b).
  destruct (stores_forall _ _ _ _ _ _ Hok Hst) as (Hrange & Hnd & Hval).
  assert (Forall (fun x => valid B x.2) st) as HvalB by (eapply Forall_impl; [|exact Hval]; intros x; by apply extends_valid).
  destruct (run_stores_below nv (em_next_var e') m st (rl_machine HR) Hrange HB Hnd HvalB) as ([Hv Hc Hk] & Hm' & Hw & Hr & _).
  pose proof HR as [_ Hc0 Hk0 Hres Hwd Hstate Hvw Hkeys0]. split; try congruence.
  - intros E HE.
    assert (assigned (fun E => agrees nv E m) b' st E) as Ha by (apply (stored_env nv (em_next_var e') b' m c ei); try done; apply Hok).
    assert (forall E0, agrees nv E0 m -> view E0 b' ei (tmp c) (sys c)) as Hview.
    { intros E0 HE0. apply Hvw. by apply (agrees_below _ _ _ nv E0 m m); [|apply same_below_refl|]. }
    destruct (Hview E (proj1 Ha)) as [[_ _ _ Hb Hu] _ G2 G3 G4 G5]. destruct (Hus E Ha) as [Hus1 Hus2]. split; try done.
    + split; try done.
      * eapply (merged_all (fun x => x)); [exact Ht|exact Hst|apply HE|exact Htsel| |exact Ha]. intros E0 HE0. apply (Hview E0 HE0).
      * eapply (merged_all me_value); [exact Hm|exact Hst|apply HE|exact Hmsel| |exact Ha]. intros E0 HE0.
        apply Forall2_fmap_l, (Hview E0 HE0).
    + by apply (areas_operand E b' (em_memory ei)).
  - intros key Hkey. destruct (Hkeys0 key (Hkeys key Hkey)) as [r Hr']. exists r. intros E HE. apply Hr'.
    apply (agrees_below _ _ (em_next_var ei) (em_next_var e') E m (run_stores st m)); [|split; [|done|done]|done].
    + pose proof (st_next _ _ _ _ Hok). lia.
    + intros v Hlt. apply Hv. lia.
Qed.
Lemma assigned_less nv m b b' st st' E :
  extends b b' -> (forall v id, (v, id) ∈ st -> (v, id) ∈ st' /\ valid b id) ->
  assigned (fun E => agrees nv E m) b' st' E -> assigned (fun E => agrees nv E m) b st E.
Proof.
  intros Hx Hsub [HE Ha]. split; [done|]. intros v id Hin. destruct (Hsub v id Hin) as [Hin' Hv].
  destruct (Ha v id Hin') as (E0 & HE0 & ->). exists E0. split; [done|]. by apply den_later.
Qed.

Lemma us_later_joined nv us e b1 b2 stores1 stores2 st i m s :
  us_valid b1 us -> extends b1 b2 -> stores_grow stores1 stores2 -> stores2 !! i = Some st -> stores_ok nv e b1 stores1 ->
  (forall st1 E, stores1 !! i = Some st1 -> assigned (fun E => agrees nv E m) b1 st1 E -> us_repr E M0 b1 us s /\ k_value E b1 us = kv) ->
  forall E, assigned (fun E => agrees nv E m) b2 st E -> us_repr E M0 b2 us s /\ k_value E b2 us = kv.
Proof.
  intros Hus Hx Hg Hst Hok H E Ha. destruct (Forall2_lookup_r _ _ _ _ _ Hg Hst) as (st1 & Hst1 & Hsub).
  destruct (H st1 E Hst1) as [H1 H2].
  - apply (assigned_less nv m b1 b2 st1 st E Hx); [|done]. intros v id Hin. split; [by apply Hsub|].
    apply list_elem_of_lookup_2 in Hst1. by destruct (st_vars _ _ _ _ Hok st1 v id Hst1 Hin).
  - split; [by apply (us_repr_later E M0 b1)|by rewrite (k_value_later E b1)].
Qed.

Lemma same_keys_all z nz i us key :
  same_keys z nz = true -> [z; nz] !! i = Some us -> key ∈ all_dyn [z; nz] -> key ∈ (dynamic us).*1.
Proof.
  intros Hk%bool_decide_eq_true Hi (us' & Hin & Hkey)%all_dyn_elem. apply list_elem_of_lookup in Hin as [j Hj].
  destruct i as [|[|]], j as [|[|]]; try done; injection Hi as <-; injection Hj as <-; congruence.
Qed.

Lemma same_shape_lengths e e' : same_shape e e' -> length (em_tmp e') = length (em_tmp e) /\ length (em_memory e') = length (em_memory e).
Proof. intros [Hm Ht]. split; [done|]. by rewrite (Forall2_length Hm). Qed.

Lemma zip_values (l l' : list MemEntry) :
  zip (me_value <$> l) (me_value <$> l')
  = (fun x => (x.1.1, x.2.1)) <$> zip ((fun m => (me_value m, me_needs_write m)) <$> l) ((fun m => (me_value m, me_needs_write m)) <$> l').
Proof. revert l'. induction l as [|x l IH]; intros [|y l']; [done..|]. cbn. f_equal. apply IH. Qed.

Lemma backup_merge_spec ez enz e b :
  em_static b ez -> em_static b enz -> same_shape ez e -> same_shape enz e ->
  em_next_var ez <= em_next_var e -> em_next_var enz <= em_next_var e ->
  spec (backup_merge fuel true (backup_of ez) (backup_of enz) e) b (fun b' r =>
    joins (em_next_var e) [ez; enz] b e b' [r.1.1; r.1.2] r.2).
Proof.
  intros Hsz Hsnz Hshz Hshnz Hnz Hnnz. pose proof Hsz as [[Huz Htz Hmz] Hi Hp]. pose proof Hsnz as [[Hunz Htnz Hmnz] _ _].
  destruct (same_shape_lengths _ _ Hshz) as [Hltz Hlmz]. destruct (same_shape_lengths _ _ Hshnz) as [Hltnz Hlmnz].
  unfold backup_merge. apply spec_lift. intros u Hkeys%assert_Some. cbn [negb orb bk_cpu_state backup_of] in Hkeys.
  assert (Forall (us_valid b) [em_us ez; em_us enz]) as Hall by (apply List.Forall_cons; [done|]; apply List.Forall_cons; done).
  eapply spec_bind; [by apply (merge_n_spec fuel [em_us ez; em_us enz])|].
  intros b1 [us [stores next1]] Hx1 _ (Hus & Hok1 & Hlen & Hdyn & Hrepr). cbn [fst snd] in *.
  apply spec_lift. intros [zs nzs] Hstores. destruct stores as [|zs' [|nzs' [|]]]; try done. injection Hstores as -> ->.
  eapply spec_bind; [apply (merge_tmp_spec (em_next_var e)); cbn [bk_tmp backup_of fst snd];
    [congruence|by apply (valid_all_later b)|by apply (valid_all_later b)|done]|].
  intros b2 tm Hx2 _ (Ht & Hgt & Hok2). cbn [bk_tmp backup_of] in Ht. assert (extends b b2) as Hx02 by by transitivity b1.
  eapply spec_bind; [apply (merge_memory_spec (em_next_var e)); cbn [bk_memory backup_of]; rewrite ?length_fmap; [done|done| | |done]|].
  1,2: apply Forall_fmap; eapply Forall_impl; [|done]; intros x [Hxv _]; cbn; by apply (extends_valid b b2).
  intros b3 mm Hx3 _ (Hm & Hsame & Hgm & Hok3). cbn [bk_memory backup_of] in Hm. apply spec_ret. intros _. cbn [fst snd].
  assert (extends b b3) as Hx03 by by transitivity b2. assert (extends b1 b3) as Hx13 by by transitivity b2.
  assert (Forall2 (fun x id => merged [x.1; x.2] (stores_of mm.2) b3 id) (zip (em_tmp ez) (em_tmp enz)) tm.1) as Ht3.
  { eapply Forall2_impl; [|exact Ht]. intros x id Hxid. by apply (merged_later _ _ _ b2 b3 _ Hxid). }
  assert (stores_grow [zs; nzs] (stores_of mm.2)) as Hg13 by by transitivity (stores_of tm.2).
  set (e' := {| em_cf := em_cf e; em_next_var := mm.2.2; em_us := us; em_tmp := tm.1; em_memory := mm.1 |}).
  assert (same_shape e e') as Hshape.
  { split; [done|]. cbn [em_tmp e']. rewrite <- (Forall2_length Ht), length_zip_with. lia. }
  assert (Forall2 same_operand (em_memory ez) mm.1) as Hoz by (transitivity (em_memory e); [apply Hshz|done]).
  assert (Forall2 same_operand (em_memory enz) mm.1) as Honz by (transitivity (em_memory e); [apply Hshnz|done]).
  split; [done|]. split; [apply (st_next _ _ _ _ Hok3)|]. split; [|split; [done|split; [done|]]].
  - split; [split; cbn [em_us em_tmp em_memory e']|eauto with mir|eauto with mir].
    + by apply (us_valid_later b1).
    + apply list.Forall_forall. intros id Hin. apply list_elem_of_lookup in Hin as [j Hj].
      destruct (Forall2_lookup_r _ _ _ _ _ Ht3 Hj) as (x & _ & [Hv _]). exact Hv.
    + apply list.Forall_forall. intros y Hin. apply list_elem_of_lookup in Hin as [j Hj].
      destruct (Forall2_lookup_r _ _ _ _ _ Hm Hj) as (x & _ & [Hv _]). destruct (Forall2_lookup_r _ _ _ _ _ Hoz Hj) as (x' & Hx' & Hop).
      apply (entry_valid_operand b3 x'); [done|done|]. apply (entry_valid_later b); [done|]. rewrite list.Forall_forall in Hmz.
      apply Hmz. by apply list_elem_of_lookup_2 in Hx'.
  - intros i ei st m c Hei Hst HR HxB HB.
    assert (exists us', [em_us ez; em_us enz] !! i = Some us' /\ us' = em_us ei /\ em_static b ei /\ em_next_var ei <= em_next_var e
      /\ [em_tmp ez; em_tmp enz] !! i = Some (em_tmp ei) /\ [me_value <$> em_memory ez; me_value <$> em_memory enz] !! i = Some (me_value <$> em_memory ei)
      /\ Forall2 same_operand (em_memory ei) mm.1) as (us' & Hi1 & -> & Hi2 & Hi3 & Hi4 & Hi5 & Hi6).
    { destruct i as [|[|]]; try done; injection Hei as <-; by eexists. }
    apply (Rel_joined (em_next_var e) b b3 ei m c e' (stores_of mm.2) i st (zip (em_tmp ez) (em_tmp enz))
      (zip (me_value <$> em_memory ez) (me_value <$> em_memory enz))); try done.
    + apply (us_later_joined _ us next1 b1 b3 [zs; nzs] (stores_of mm.2) st i); try done. intros st1 E Hst1 Ha.
      apply (Hrepr i (em_us ei) st1 (fun E => agrees (em_next_var e) E m)); [done|done|by apply Rel_path| |done].
      intros key. by apply (same_keys_all (em_us ez) (em_us enz) i).
    + intros key. cbn [em_us e']. rewrite Hdyn. by apply (same_keys_all (em_us ez) (em_us enz) i).
    + by apply zip_select; [congruence|].
    + rewrite zip_values. by apply Forall2_fmap_l.
    + by apply zip_select; [rewrite !length_fmap; congruence|].
Qed.
End merge.
