(* ===== verification/MirSim.v ===== *)
(** * Compiled commands behave as interpreted ones

    Every command that [EncodingEmitter::emit_cmd] of
    [sem86-core/src/codegen/mir/mod.rs] emits runs as the interpreter of
    [sem86-core/src/il/mod.rs] executes it: the code reaches the block where
    emission goes on with the same registers, temporaries, memory operands and
    world, or it exits as the interpreter does, with a handler or an
    exception. *)
From stdpp Require Import relations.
From S2P Require Import Prelude Exceptions IlOps Arch Packing IlLoc MemArea IlCmd Jump.
From S2P Require Import ValTree ValBuild ValSpec ValSound ValCombine ValMono CpuBytes Mir MirState MirEmit MirSpec MirStateSound.
From S2P Require Import MirCommit MirVals MirRun MirMerge.

#[local] Open Scope bm_scope.
#[local] Open Scope em_scope.

(** What code generation relies on of the context: registers that the context
    looks at decide what it does, and its results have their widths. *)
Class StableCtx (W : Type) `{ExecCtx W} := {
  ctx_same : State -> State -> bool;
  userspace_same s s' : ctx_same s s' = true -> is_userspace s = is_userspace s';
  read_descriptor_same s s' force mark sel (w : W) :
    ctx_same s s' = true -> read_descriptor s force mark sel w = read_descriptor s' force mark sel w;
  port_out_same s s' port len data (w : W) : ctx_same s s' = true -> port_out s port len data w = port_out s' port len data w;
  port_in_same s s' port len (w : W) : ctx_same s s' = true -> port_in s port len w = port_in s' port len w;
  read_descriptor_inw s force mark sel r (w w' : W) :
    read_descriptor s force mark sel w = Some (Ok r, w') ->
    inw 128 (d_base r) /\ inw 128 (d_limit r) /\ inw 128 (d_access_rights r);
  port_in_inw s port len v (w w' : W) : port_in s port len w = Some (Ok v, w') -> inw 128 v;
  mem_value_inw area user v (w w' : W) : read_from_mem_as_u128 area user w = Some (Ok v, w') -> inw 128 v;
}.

Section sim.
Context {W : Type} `{ctx : ExecCtx W} `{stable : !StableCtx W} `{sf : SoftFloat} `{sfl : !SoftFloatLaws}.
Context `{lay : Layout} `{laws : !LayoutLaws}.
Context (ail apv : Z) (Hail : inw 128 ail) (Hapv : inw 128 apv).
Context (G : list Bb) (B : ValBuilder) (HB : wf B) (Hmask : byte_masks (value_tree B) = true).
Context (fuel : nat) (il pv : Z) (Hil : inw 128 il) (enc : Encoding) (is_cs32 : bool) (metadata : option Z).
Context (M0 : Z -> Z) (k0 : Z) (Hk0 : inw 64 k0) (res0 : PackedExecResult).
Context (us0 : UncommittedState) (s0 : State) (Hwf0 : wf_state s0) (Hfits0 : fits s0) (kv0 kv : Z).
Context (protected : ValId) (protected_mode : bool) (areas : list MemArea).
Context (Hjump : jump_ok il pv enc (enc_jump enc)).

Abbreviation mach := (Machine W).
Abbreviation env m := (env_of ail apv m).
Abbreviation step := (MirRun.step (W := W) ail apv G B).
Abbreviation exits := (MirRun.exits (W := W) ail apv G B).
Abbreviation present := (MirRun.present G B).
Abbreviation agrees := (MirRun.agrees (W := W) ail apv).
Abbreviation RelWith res := (MirRun.Rel (W := W) ail apv il pv enc M0 k0 res us0 s0 kv0 kv protected protected_mode areas).
Abbreviation Rel := (RelWith res0).
Abbreviation em_static := (MirRun.em_static us0 protected).
Abbreviation current e := (bb_current (em_cf e)).

(** ** What emission does *)

Record emitted (e : Emitter) (b' : ValBuilder) (e' : Emitter) : Prop := {
  ed_grows : grows (em_cf e) (em_cf e');
  ed_next_var : em_next_var e <= em_next_var e';
  ed_static : em_static b' e';
  ed_shape : same_shape e e';
}.

Lemma emitted_trans e b1 e1 b2 e2 : emitted e b1 e1 -> emitted e1 b2 e2 -> emitted e b2 e2.
Proof. intros [G1 N1 S1 H1] [G2 N2 S2 H2]. split; [by apply (grows_trans _ (em_cf e1))|lia|done|by transitivity e1]. Qed.
Lemma emitted_later e b1 e1 b2 : extends b1 b2 -> emitted e b1 e1 -> emitted e b2 e1.
Proof. intros Hx [? ? ? ?]. split; [done|done| |done]. by apply (em_static_later us0 protected b1). Qed.

Lemma emitted_kept b b' e e' : em_static b e -> extends b b' -> em_valid b' e' -> kept e e' -> emitted e b' e'.
Proof.
  intros [_ Hi Hp] Hx Hv Hk. split; [rewrite (kept_cf e e' Hk); apply grows_refl|rewrite (kept_next_var e e' Hk); lia| |by apply kept_shape].
  split; eauto with mir.
Qed.
Lemma emitted_graph b' e g : em_static b' e -> grows (em_cf e) g -> emitted e b' (with_cf e g).
Proof. intros Hs Hg. split; [done|cbn; lia|by apply em_static_cf|by split]. Qed.

(** ** Operations on the graph *)

Lemma espec_on_cf f e b :
  spec (on_cf f e) b (fun b' r => b' = b /\ exists g', f (em_cf e) = Some g' /\ r = (tt, with_cf e g')).
Proof.
  unfold on_cf. apply spec_lift. intros g' Hg. apply spec_ret. intros _. split; [done|]. by exists g'.
Qed.
Lemma espec_new_block {T} (k : BbId -> em T) e b R :
  (forall n g', fresh (em_cf e) n g' -> spec (k n (with_cf e g')) b R) -> spec ((n <~~ new_block;; k n) e) b R.
Proof. intros Hk. apply Hk. by split. Qed.
Lemma espec_graph {T} f (k : unit -> em T) e b R :
  (forall g', f (em_cf e) = Some g' -> spec (k tt (with_cf e g')) b R) -> spec ((u <~~ on_cf f;; k u) e) b R.
Proof.
  intros Hk. eapply espec_bind; [apply espec_on_cf|]. intros b' [] e' _ _ (-> & g' & Hg & E). injection E as ->. by apply Hk.
Qed.
Lemma espec_get_us {T} (k : UncommittedState -> em T) e b R :
  spec (k (em_us e) e) b R -> spec ((us <~~ get_us;; k us) e) b R.
Proof. done. Qed.
Lemma espec_put_us {T} us (k : unit -> em T) e b R :
  spec (k tt (with_us e us)) b R -> spec ((u <~~ put_us us;; k u) e) b R.
Proof. done. Qed.

Lemma with_cf_self e g g' : with_cf (with_cf e g) g' = with_cf e g'.
Proof. done. Qed.

(** ** Exits *)

Lemma spec_run {T} (m : bm T) b R : spec m b R -> spec m b (fun b' t => R b' t /\ m b = Some (t, b')).
Proof. intros Hm Hb t b' E. destruct (Hm Hb t b' E) as (? & ? & ?). done. Qed.

Lemma commit_and_exit_spec su md lj e b :
  us_valid b (em_us e) ->
  spec (commit_and_exit fuel su md lj e) b (fun b' r => exists g', r = (tt, with_cf e g') /\ grows (em_cf e) g'
    /\ bb_current g' = current e /\ open (em_cf e)
    /\ (present g' -> extends b' B -> forall (m : mach) s k, machine_ok m -> inw 64 (m_k m) ->
        us_repr (env m) (m_cpu m) b (em_us e) s -> k_value (env m) b (em_us e) = k -> wf_state s -> fits s ->
        exists o, exits (current e, m) o /\ o_success o = su /\ o_metadata o = md /\ leaves o s k (m_world m) (m_result m))).
Proof.
  intros Hus. apply spec_wf. intros Hb. unfold commit_and_exit.
  apply espec_get_us.
  eapply espec_value_of; [apply spec_run, spec_commit_values, Hus|]. intros b1 vs Hx1 Hb1 [_ Hvs].
  eapply spec_weaken; [apply espec_on_cf|]. intros b2 r _ _ (-> & g' & Hg & ->). exists g'. split; [done|].
  unfold write_terminal in Hg. split; [eapply grows_fill; [apply grows_refl|exact Hg|by left]|]. pose proof (fill_spec _ _ _ _ Hg) as (Ho & _ & Hc).
  split; [done|]. split; [done|]. intros Hp HxB m s k Hm Hk Hrep Hkv Hwf Hfits.
  destruct (commit_exit ail apv Hail Hapv G B HB fuel g' (current e) m (em_us e) b b1 s k vs md lj su) as (o & Ho1 & Ho2 & Ho3 & _ & Ho4);
    try done; [by eapply filled_block|]. by exists o.
Qed.

(** The exit of an exception commits the registers from before. *)
Lemma exit_initial_spec e b :
  em_static b e ->
  spec (exit_with_initial_state fuel us0 metadata e) b (fun b' r => exists g', r = (tt, with_cf e g') /\ grows (em_cf e) g'
    /\ bb_current g' = current e /\ open (em_cf e)
    /\ (present g' -> extends b' B -> forall (m : mach), machine_ok m -> inw 64 (m_k m) ->
        us_repr (env m) (m_cpu m) b us0 s0 -> k_value (env m) b us0 = kv0 ->
        exists o, exits (current e, m) o /\ o_success o = false /\ o_metadata o = metadata /\ leaves o s0 kv0 (m_world m) (m_result m))).
Proof.
  intros [_ Hi _]. unfold exit_with_initial_state.
  apply espec_get_us.
  apply espec_put_us.
  eapply espec_bind; [by apply (commit_and_exit_spec false metadata None (with_us e us0) b)|].
  intros b1 u' e1 Hx1 _ (g' & E & Hg & Hc & Ho & Hsim). injection E as _ ->. apply spec_ret. intros _.
  exists g'. split; [by destruct e|]. split; [done|]. split; [done|]. split; [done|].
  intros Hp HxB m Hm Hk Hr Hkv. by apply (Hsim Hp HxB m s0 kv0).
Qed.

(** ** The machine and the relation *)

Definition set_vars (m : mach) (vars : list VarId) (vs : list Z) : mach :=
  foldl (fun m '(var, v) => with_var m var v) m (zip vars vs).

Lemma set_vars_fields m vars vs :
  m_cpu (set_vars m vars vs) = m_cpu m /\ m_k (set_vars m vars vs) = m_k m
  /\ m_world (set_vars m vars vs) = m_world m /\ m_result (set_vars m vars vs) = m_result m.
Proof.
  unfold set_vars. revert m. induction (zip vars vs) as [|[x v] l IH]; intros m; [done|]. cbn [foldl].
  destruct (IH (with_var m x v)) as (-> & -> & -> & ->). done.
Qed.
Lemma set_vars_other m vars vs y : y ∉ vars -> m_vars (set_vars m vars vs) y = m_vars m y.
Proof.
  unfold set_vars. revert m vs. induction vars as [|x vars IH]; intros m vs Hy; [done|]. destruct vs as [|v vs]; [done|].
  apply not_elem_of_cons in Hy as [Hne Hy]. cbn [zip_with foldl]. rewrite IH by done. cbn. by rewrite decide_False.
Qed.
Lemma set_vars_value m vars vs i x v :
  NoDup vars -> vars !! i = Some x -> vs !! i = Some v -> m_vars (set_vars m vars vs) x = v.
Proof.
  unfold set_vars. revert m vs i. induction vars as [|y vars IH]; intros m vs i Hnd Hx Hv; [done|].
  apply list.NoDup_cons in Hnd as [Hy Hnd]. destruct vs as [|w vs]; [done|]. cbn [zip_with foldl]. destruct i as [|i].
  - injection Hx as ->. injection Hv as ->. change (foldl _ _ _) with (set_vars (with_var m x v) vars vs).
    rewrite set_vars_other by done. cbn. by rewrite decide_True.
  - by apply (IH _ _ i).
Qed.
Lemma set_vars_ok m vars vs : machine_ok m -> Forall (inw 128) vs -> machine_ok (set_vars m vars vs).
Proof.
  unfold set_vars. revert m vs. induction vars as [|y vars IH]; intros m vs Hm Hvs; [done|]. destruct vs as [|w vs]; [done|].
  apply list.Forall_cons in Hvs as [Hw Hvs]. cbn [zip_with foldl]. apply IH; [|done]. destruct Hm as [Hv Hc]. split; [|done].
  intros v. cbn. by case_decide.
Qed.
Lemma set_vars_below n m vars vs : Forall (fun v => n <= v) vars -> same_below n m (set_vars m vars vs).
Proof.
  intros Hv. destruct (set_vars_fields m vars vs) as (? & ? & _). split; [|done|done]. intros v Hlt. apply set_vars_other.
  rewrite list.Forall_forall in Hv. intros Hin%Hv. lia.
Qed.

Lemma rel_later b b' e (m : mach) (c : Config W) : extends b b' -> em_static b e -> Rel b e m c -> Rel b' e m c.
Proof. apply Rel_later. Qed.

Lemma Rel_view b e (m : mach) (c : Config W) : Rel b e m c -> view M0 us0 s0 kv0 kv protected protected_mode areas (env m) b e (tmp c) (sys c).
Proof. intros HR. apply (rl_view HR). apply agrees_self; [done|done|apply HR]. Qed.

(** What an exit with an exception needs. *)
Record can_fail (b : ValBuilder) (m : mach) : Prop := {
  cf_machine : machine_ok m;
  cf_k : inw 64 (m_k m);
  cf_repr : us_repr (env m) (m_cpu m) b us0 s0;
  cf_kv : k_value (env m) b us0 = kv0;
}.
Lemma Rel_can_fail b e m m' c : Rel b e m c -> same_below (em_next_var e) m m' -> machine_ok m' -> can_fail b m'.
Proof.
  intros HR Hsame Hok. pose proof Hsame as [_ Hc Hk].
  destruct (rl_view HR (env m')) as [_ _ _ Hi Hik _].
  { apply (agrees_below _ _ _ (em_next_var e) _ m m'); [lia|done|by apply agrees_self]. }
  split; [done| | |done].
  - rewrite Hk, (rl_k HR). done.
  - by rewrite Hc, (rl_cpu HR).
Qed.

Lemma Rel_value b e (m : mach) (c : Config W) f b' id x :
  Rel b e m c -> computes il pv enc b e f b' id -> f (tmp c) (sys c) = Some x ->
  forall E, agrees (em_next_var e) E m -> den E b' id = x.
Proof.
  intros HR Hid Hf E HE. pose proof (rl_view HR E HE) as Hv.
  apply (computes_value _ _ _ _ _ _ _ _ E M0 (tmp c) (sys c) x Hid); [apply HE|apply Hv|apply HR|done].
Qed.
(** The value in the running code. *)
Lemma Rel_den b e (m : mach) (c : Config W) f b' id x :
  Rel b e m c -> computes il pv enc b e f b' id -> f (tmp c) (sys c) = Some x -> extends b' B -> den (env m) B id = x.
Proof.
  intros HR Hid Hf Hx. rewrite (den_later _ b' B) by (done || apply Hid). apply (Rel_value b e m c f b' id x HR Hid Hf).
  apply agrees_self; [done|done|apply HR].
Qed.

(** ** Operations that may fail *)

Definition fails (x : BbId * mach) (w : W) (res : PackedExecResult) : Prop :=
  exists o, exits x o /\ o_success o = false /\ o_metadata o = metadata /\ leaves o s0 kv0 w res.

Lemma fails_step x y w res : rtc step x y -> fails y w res -> fails x w res.
Proof. intros Hx (o & Ho & Hrest). exists o. split; [by apply (exits_step _ _ _ _ x y)|done]. Qed.

Definition fallible_ok (op : BbFallible) (e : Emitter) (b : ValBuilder) (b' : ValBuilder) (g' : BbBuilder) : Prop :=
  grows (em_cf e) g'
  /\ (open (em_cf e) -> open g' /\ (present g' -> extends b' B -> forall m m',
      (run_fallible ail apv (value_tree B) op m = Some (true, m') -> step (current e, m) (bb_current g', m'))
      /\ (run_fallible ail apv (value_tree B) op m = Some (false, m') -> can_fail b m' ->
          fails (current e, m) (m_world m') (m_result m')))).

Lemma emit_fallible_spec op e b :
  em_static b e ->
  spec (emit_fallible fuel us0 metadata op e) b (fun b' r => exists g', r = (tt, with_cf e g') /\ fallible_ok op e b b' g').
Proof.
  intros Hs. unfold emit_fallible. apply espec_get_us.
  apply espec_new_block. intros fail g1 Hf1. destruct (fresh_grows _ _ _ _ (grows_refl _) Hf1) as [Hg1 Hm1].
  apply espec_new_block. intros ok g2 Hf2. cbn [em_cf with_cf] in Hf2. destruct (fresh_grows _ _ _ _ Hg1 Hf2) as [Hg2 Hm2].
  apply espec_graph. intros g3 Hf3. cbn [em_cf with_cf] in Hf3. rewrite !with_cf_self.
  pose proof (grows_fill _ _ _ _ _ Hg2 Hf3 Hm1) as Hg3. pose proof (fill_spec _ _ _ _ Hf3) as (Ho2 & _ & Hc3).
  pose proof (fresh_unfilled _ _ _ Hf1) as Hu1. pose proof (fresh_unfilled _ _ _ Hf2) as Hu2.
  pose proof (fresh_ne _ _ _ _ _ Hf2 Hu1) as Hne. apply (fresh_keep _ _ _ _ _ Hf2) in Hu1 as Hu1'.
  assert (bb_current g2 = current e) as Hc2 by (by rewrite (fr_current _ _ _ Hf2), (fr_current _ _ _ Hf1)).
  assert (open (em_cf e) -> current e <> fail /\ current e <> ok) as Hcur.
  { intros Ho. split; [by apply (fresh_ne _ _ _ _ _ Hf1 Ho)|]. by apply (fresh_ne _ _ _ _ None Hf2), (fresh_keep _ _ _ _ _ Hf1). }
  apply espec_put_us.
  eapply espec_bind; [apply commit_and_exit_spec, Hs|]. intros b1 u e1 Hx1 _ (g4 & E & Hg4 & Hc4 & _ & Hsim).
  injection E as _ ->. cbn [em_cf with_us with_cf em_us] in *. apply espec_graph. intros g5 Hf5. cbn [em_cf with_cf] in Hf5.
  pose proof (switch_to_spec _ _ _ Hf5) as [Hg5 Hc5]. apply spec_ret. intros _. exists g5. split; [by destruct e|].
  pose proof (grows_trans _ _ _ Hg3 Hg4) as Hg04.
  split; [by apply (grows_switch _ _ _ _ Hg04 Hf5)|]. intros Ho. destruct (Hcur Ho) as [Hcf Hco]. rewrite <- Hc2 in Hcf, Hco.
  assert (bb_graph g4 !! ok = Some None) as Hok.
  { apply (grows_unfilled _ _ _ Hg4); [|by rewrite Hc3]. by rewrite (fill_other _ _ _ _ _ Hf3). }
  split; [unfold open; by rewrite Hg5, Hc5|]. intros Hp HxB m m'.
  pose proof (present_graph _ _ _ _ (eq_sym Hg5) Hp) as Hp4.
  pose proof (present_before _ _ _ _ Hg4 Hp4) as Hp3. pose proof (filled_block _ _ _ _ Hf3) as Hblock. rewrite Hc2 in Hblock.
  split.
  - intros Hrun. rewrite Hc5. apply (present_step ail apv G B HB g3 _ _ _ _ Hp3 Hblock). cbn [run_block]. by rewrite Hrun.
  - intros Hrun [Hm Hk Hrep Hkv]. apply (fails_step _ (fail, m')).
    + apply rtc_once. apply (present_step ail apv G B HB g3 _ _ _ _ Hp3 Hblock). cbn [run_block]. by rewrite Hrun.
    + destruct (Hsim Hp4 HxB m' s0 kv0 Hm Hk Hrep Hkv Hwf0 Hfits0) as (o & Ho1 & Ho2' & Ho3 & Ho4). rewrite Hc3 in Ho1. by exists o.
Qed.

(** ** Straight code *)

Lemma write_seq_spec entry g g' :
  write_seq entry g = Some g' -> grows g g' /\ (open g -> open g'
    /\ (present g' -> forall m m', run_seq ail apv (value_tree B) entry m = Some m' -> step (bb_current g, m) (bb_current g', m'))).
Proof.
  unfold write_seq, create_block. intros Hf. set (g1 := {| bb_graph := bb_graph g ++ [None]; bb_current := bb_current g |}) in *.
  assert (fresh g (length (bb_graph g)) g1) as Hf1 by by split.
  destruct (fresh_grows _ _ _ _ (grows_refl g) Hf1) as [Hg1 Hm1]. split; [by apply (grows_fill _ _ _ _ _ Hg1 Hf)|].
  intros Ho. pose proof (fill_spec _ _ _ _ Hf) as (_ & _ & Hc). pose proof (fresh_ne _ _ _ _ _ Hf1 Ho) as Hne. split.
  - unfold open. rewrite Hc, (fill_other _ _ _ _ _ Hf) by done. by apply (fresh_unfilled _ _ _ Hf1).
  - intros Hp m m' Hrun. rewrite Hc. apply (present_step ail apv G B HB g' _ _ _ _ Hp (filled_block _ _ _ _ Hf)).
    cbn [run_block]. by rewrite Hrun.
Qed.

(** ** Results *)

(** The code after the instruction's commands: the jump, and the exit. *)
Definition leaves_with (su : bool) (x : BbId * mach) (c : Config W) (res : PackedExecResult) : Prop :=
  forall j, Jump.emit_jump (tmp c) (sys c) is_cs32 (enc_jump enc) = Some j ->
  exists o, exits x o /\ o_success o = su /\ o_metadata o = metadata /\ leaves o (cpu (default (sys c) j)) kv (world c) res.

Definition post (last : bool) (x : BbId * mach) (b' : ValBuilder) (e' : Emitter) (r : result ExecResult Exception) (c' : Config W) : Prop :=
  match r with
  | Ok ROk =>
      (exists m', rtc step x (current e', m') /\ Rel b' e' m' c' /\ open (em_cf e'))
      \/ (last = true /\ leaves_with true x c' res0)
  | Ok (InvokeHandler id args) =>
      exists p, packed_from_exec_result (InvokeHandler id args) = Some p /\ leaves_with false x c' p
  | Err ex => exists p, packed_from_exception ex = Some p /\ fails x (world c') p
  end.

Definition simulates (f : comp (Config W) Exception ExecResult) (last : bool) (b : ValBuilder) (e : Emitter) (b' : ValBuilder) (e' : Emitter) : Prop :=
  open (em_cf e) -> present (em_cf e') -> extends b' B ->
  forall m c r c', Rel b e m c -> f c = Some (r, c') -> post last (current e, m) b' e' r c'.

Lemma leaves_with_step su x y c res : rtc step x y -> leaves_with su y c res -> leaves_with su x c res.
Proof. intros Hx Hl j Hj. destruct (Hl j Hj) as (o & Ho & Hrest). exists o. split; [by apply (exits_step _ _ _ _ x y)|done]. Qed.

Lemma post_step last x y b' e' r c' : rtc step x y -> post last y b' e' r c' -> post last x b' e' r c'.
Proof.
  intros Hx. destruct r as [[|id args]|ex]; cbn [post].
  - intros [(m' & Hm & Hrest)|[-> Hl]]; [left|right; by split; [|apply (leaves_with_step _ _ y)]].
    exists m'. split; [by transitivity y|done].
  - intros (p & Hp & Hl). exists p. split; [done|by apply (leaves_with_step _ _ y)].
  - intros (p & Hp & Hl). exists p. split; [done|by apply (fails_step _ y)].
Qed.

(** What has left does not depend on what is emitted afterwards. *)
Lemma post_left last last' x b1 e1 b2 e2 r c' : r <> Ok ROk -> post last x b1 e1 r c' -> post last' x b2 e2 r c'.
Proof. by destruct r as [[|id args]|ex]. Qed.
Lemma post_later last x b1 b2 e' r c' : extends b1 b2 -> em_static b1 e' -> post last x b1 e' r c' -> post last x b2 e' r c'.
Proof.
  intros Hx Hs. destruct r as [[|id args]|ex]; [|done|done]. intros [(m' & Hm & HR & Ho)|Hl]; [left|by right].
  exists m'. split; [done|]. split; [|done]. by eapply Rel_later.
Qed.

(** ** The interpreter with checks *)

Abbreviation cmdM T := (comp (Config W) Exception T).

(** Where compiled code is known to differ: the context is asked with the
    registers that were stored last, and an index of 64 bits or more chooses
    no register. *)
Definition guard (c : Cmd) : cmdM unit := fun k =>
  match c with
  | ReadDescriptor _ _ _ _ _ _ _ | Out _ _ _ | In _ _ _ | ReadMemory _ | WriteMemory _ =>
      assert (ctx_same (cpu_of M0) (cpu (sys k)));; Some (Ok tt, k)
  | StoreDynamicReg _ index _ _ | LoadDynamicReg _ index _ _ =>
      i ← val_eval (tmp k) (sys k) index; assert (i <? 2 ^ 64);; Some (Ok tt, k)
  | _ => Some (Ok tt, k)
  end.
Fixpoint exec_guarded (c : Cmd) : cmdM ExecResult :=
  guard c >>!
  match c with
  | CIf val if_zero if_nonzero =>
      v <-! ceval val;;
      if negb (v =? 0) then run_cmds exec_guarded if_nonzero else run_cmds exec_guarded if_zero
  | _ => exec_cmd areas c
  end.

Lemma guard_same c k r : guard c k = Some r -> r = (Ok tt, k).
Proof.
  unfold guard. destruct c; try (intros [= <-]; done);
    try (destruct (assert _) as [[]|]; [|done]; by intros [= <-]);
    destruct (val_eval _ _ _); try done; cbn [mbind option_bind]; destruct (assert _) as [[]|]; try done; by intros [= <-].
Qed.

Definition guarded_body (c : Cmd) : cmdM ExecResult :=
  match c with
  | CIf val if_zero if_nonzero =>
      v <-! ceval val;;
      if negb (v =? 0) then run_cmds exec_guarded if_nonzero else run_cmds exec_guarded if_zero
  | _ => exec_cmd areas c
  end.
Lemma exec_guarded_body c k r : exec_guarded c k = Some r -> guard c k = Some (Ok tt, k) /\ guarded_body c k = Some r.
Proof.
  assert (exec_guarded c = cbind (guard c) (fun _ => guarded_body c)) as -> by (by destruct c).
  unfold cbind. destruct (guard c k) as [[r0 k']|] eqn:Eg; [|done]. pose proof (guard_same c k _ Eg) as E. injection E as -> ->. done.
Qed.

(** The checks only stop the interpreter. *)
Lemma run_guarded_run l :
  Forall (fun c => forall k r, exec_guarded c k = Some r -> exec_cmd areas c k = Some r) l ->
  forall k r, run_cmds exec_guarded l k = Some r -> run_cmds (exec_cmd areas) l k = Some r.
Proof.
  intros Hl. induction Hl as [|c l Hc Hl IH]; intros k r; [done|]. cbn [run_cmds]. unfold cbind.
  destruct (exec_guarded c k) as [[[x|ex] k']|] eqn:E; [|by rewrite (Hc k _ E)|done]. rewrite (Hc k _ E).
  by destruct x; [apply IH|].
Qed.
Lemma exec_guarded_exec c k r : exec_guarded c k = Some r -> exec_cmd areas c k = Some r.
Proof.
  revert k r. induction c as [to op|regs i v sz|regs i v sz| |id args|v z nz IHz IHnz|ex code|fo se ok ba li ar ma|len p d|len p d|i|i] using Cmd_ind';
    intros k r [_ E]%exec_guarded_body; cbn [guarded_body] in E; try done.
  cbn [exec_cmd]. unfold cbind in *. destruct (ceval v k) as [[[x|] k']|]; try done.
  destruct (negb (x =? 0)); by apply run_guarded_run.
Qed.

(** ** Commands that only compute *)

Abbreviation emit_write := (emit_store fuel (Some il) (Some pv) enc).
Abbreviation emit_value := (MirEmit.emit_val fuel (Some il) (Some pv) enc).
Abbreviation val_ok := (MirVals.val_ok il pv enc).
Abbreviation dest_ok := (MirVals.dest_ok il pv enc).
Abbreviation computes := (MirVals.computes il pv enc).

Lemma emit_write_sim to id v e b :
  em_static b e -> dest_ok to -> node_is v b id ->
  spec (emit_write to id e) b (fun b' r => emitted e b' r.2 /\ em_cf r.2 = em_cf e /\ em_next_var r.2 = em_next_var e
    /\ forall m (c : Config W) x r0 c', Rel b e m c -> (forall E, agrees (em_next_var e) E m -> v E = x) ->
       cwrite to x c = Some (r0, c') -> r0 = Ok tt /\ Rel b' r.2 m c').
Proof.
  intros Hs Hto Hid. eapply spec_weaken; [by apply (emit_store_spec fuel il pv enc e to id v b); [apply Hs|..]|].
  intros b' r Hx _ Hw. pose proof Hw as (Hv & Hk & _). split; [by apply (emitted_kept b)|]. split; [apply Hk|]. split; [apply Hk|].
  intros m c x r0 c' HR Hval Hc. unfold cwrite in Hc. destruct (val_write _ _ _ _) as [[t' s']|] eqn:Ew; [|done].
  injection Hc as <- <-. split; [done|]. cbn [fst snd].
  by destruct (Rel_write ail apv Hail Hapv il pv enc M0 k0 res0 us0 s0 kv0 kv protected protected_mode areas b b' e r.2 m c to v x t' s' Hx Hs HR Hw Hval Ew).
Qed.

Lemma espec_emit_val {T} v (k : ValId -> em T) e b0 b R :
  extends b0 b -> em_static b0 e -> val_ok v ->
  (forall b' id, extends b b' -> wf b' -> computes b0 e (fun t s => val_eval t s v) b' id -> spec (k id e) b' R) ->
  spec ((x <~~ value_of (fun e => emit_value e v false);; k x) e) b R.
Proof.
  intros Hx Hs Hv Hk. eapply espec_value_of; [apply emit_val_spec; [apply (em_valid_later b0); [done|apply Hs]|done]|].
  intros b' id Hx' Hb' Hid. apply Hk; [done|done|]. by apply (computes_base il pv enc b0 b); [|apply Hs|].
Qed.

Definition compiled (f : cmdM ExecResult) (emit : bool -> em unit) : Prop :=
  forall last e b, em_static b e -> spec (emit last e) b (fun b' r => emitted e b' r.2 /\ simulates f last b e b' r.2).

Abbreviation emit_command := (emit_cmd fuel true (Some il) (Some pv) enc is_cs32 protected us0 metadata).

Lemma node_of_computes b e f b' id : computes b e f b' id -> node_is (fun E => den E b' id) b' id.
Proof. intros [Hv _]. by split. Qed.

Lemma compiled_store to op : dest_ok to -> op_ok il pv enc op -> compiled (exec_guarded (Store to op)) (emit_command (Store to op)).
Proof.
  intros Hto Hop last e b Hs. cbn [emit_cmd]. eapply espec_value_of; [by apply emit_op_spec; [|apply Hs|]|].
  intros b1 id Hx1 _ Hid. assert (em_static b1 e) as Hs1 by by eapply em_static_later.
  eapply spec_weaken; [by apply (emit_write_sim to id _ e b1 Hs1 Hto (node_of_computes _ _ _ _ _ Hid))|].
  intros b2 r Hx2 _ (He & Hcf & _ & Hsim). split; [done|]. intros Ho Hp HxB m c res c' HR Hex.
  apply exec_guarded_body in Hex as [_ Hex]. cbn [guarded_body exec_cmd] in Hex. unfold cbind at 1 in Hex. rewrite op_execute_eval in Hex.
  destruct (op_eval _ _ _) as [x|] eqn:Ex; [|done]. cbn [mbind option_bind] in Hex. unfold cbind in Hex.
  destruct (cwrite to x c) as [[r0 c1]|] eqn:Ew; [|done].
  assert (Rel b1 e m c) as HR1 by by eapply Rel_later.
  destruct (Hsim m c x r0 c1 HR1) as [-> HR2]; [|done|].
  { intros E HE. by apply (Rel_value b e m c _ b1 id x HR Hid Ex). }
  injection Hex as <- <-. left. exists m. by rewrite Hcf.
Qed.

(** ** Registers chosen at run time *)

Definition dyn_ok (regs : list (option Reg)) (sz : Size) : Prop :=
  choices_ok regs /\ in_range 16 sz /\ Forall (fun r => in_range (byte_size r) sz) (omap id regs).

Lemma guarded_index c index k :
  (exists regs v sz, c = StoreDynamicReg regs index v sz \/ c = LoadDynamicReg regs index v sz) ->
  guard c k = Some (Ok tt, k) -> exists i, val_eval (tmp k) (sys k) index = Some i /\ i < 2 ^ 64.
Proof.
  intros (regs & v & sz & [-> | ->]) Hg; unfold guard in Hg; destruct (val_eval _ _ index) as [i|]; try done;
    cbn [mbind option_bind] in Hg; exists i; (split; [done|]); destruct (Z.ltb_spec i (2 ^ 64)); [done|done|done|done].
Qed.

(** The interpreter chooses the register that the code chooses. *)
Lemma dynamic_choice b e m (c : Config W) index b' id i regs sz v :
  Rel b e m c -> wf b' -> computes b e (fun t s => val_eval t s index) b' id -> val_eval (tmp c) (sys c) index = Some i -> i < 2 ^ 64 ->
  dynamic_reg regs (wrap 64 i) sz = Some v ->
  exists r, v = VLoc {| loc := LReg r; size := sz |} /\ forall E, agrees (em_next_var e) E m -> choice_of regs b' id E = Some r.
Proof.
  intros HR Hb Hid Hi Hlt Hv.
  assert (forall E, agrees (em_next_var e) E m -> den E b' id = i) as Hd by by eapply Rel_value.
  assert (0 <= i) as Hpos.
  { pose proof (agrees_self ail apv Hail Hapv (em_next_var e) m (rl_machine HR)) as HE. rewrite <- (Hd _ HE).
    apply (den_inw (env m) b' id (ag_ok _ _ _ _ _ HE) Hb). by destruct Hid. }
  rewrite wrap_small in Hv by (unfold inw; lia). unfold dynamic_reg in Hv.
  destruct (arr_get regs i) as [[r|]|] eqn:Er; try done. injection Hv as <-. exists r. split; [done|].
  intros E HE. apply choice_of_Some. by rewrite (Hd E HE).
Qed.

(** Reading a register in the interpreter. *)
Lemma register_part b e m (c : Config W) r sz x :
  Rel b e m c -> writable r -> in_range 16 sz -> val_eval (tmp c) (sys c) (VLoc {| loc := LReg r; size := sz |}) = Some x ->
  x = extract_value (raw_reg (cpu (sys c)) r) (bit_off sz) (bit_len sz).
Proof.
  intros HR [_ Hz] Hsz Hx. cbn [val_eval] in Hx.
  destruct (get_dest_operand il pv enc (sys c) {| loc := LReg r; size := sz |} x (DReg r) false (rl_state HR) Hsz eq_refl Hx) as (y & Hy & ->).
  cbn in Hy. rewrite decide_False in Hy by done. by injection Hy as <-.
Qed.

Lemma espec_size {T} sz (k : Z -> Z -> em T) e b R :
  in_range 16 sz -> spec (k (bit_off sz) (bit_len sz) e) b R ->
  spec ((n <~~ elift (num_bytes sz);; start <~~ elift (u8_bits (start_byte sz));; bits <~~ elift (u8_bits n);; k start bits) e) b R.
Proof.
  intros Hsz Hk. pose proof Hsz as [H1 H2]. rewrite (num_bytes_in_range 16) by done.
  unfold ebind, elift at 1. eapply spec_bind; [apply spec_lift; intros n [= <-]; by apply (spec_ret _ b (fun b' r => b' = b /\ r = (end_byte sz - start_byte sz + 1, e)))|].
  intros b1 r _ _ [-> ->]. cbn [fst snd]. unfold elift.
  eapply spec_bind; [apply spec_lift; intros st Hst; apply u8_bits_eq in Hst as ->; [|lia]; by apply (spec_ret _ b (fun b' r => b' = b /\ r = (bit_off sz, e)))|].
  intros b1 r _ _ [-> ->]. cbn [fst snd].
  eapply spec_bind; [apply spec_lift; intros st Hst; apply u8_bits_eq in Hst as ->; [|lia]; by apply (spec_ret _ b (fun b' r => b' = b /\ r = (bit_len sz, e)))|].
  by intros b1 r _ _ [-> ->].
Qed.

Lemma compiled_load_dynamic regs index into sz :
  choices_ok regs -> in_range 16 sz -> val_ok index -> dest_ok into ->
  compiled (exec_guarded (LoadDynamicReg regs index into sz)) (emit_command (LoadDynamicReg regs index into sz)).
Proof.
  intros Hregs Hsz Hi Hto last e b Hs. cbn [emit_cmd]. apply (espec_emit_val index _ e b b); [done..|].
  intros b1 id Hx1 Hb1 Hid. assert (em_static b1 e) as Hs1 by by eapply em_static_later.
  eapply espec_value_of; [apply get_or_compute_dynamic_spec; [apply Hs1|done|by destruct Hid]|].
  intros b2 val Hx2 _ [Hvv Hvd]. apply espec_size; [done|]. destruct Hsz as [Hsz1 Hsz2].
  eapply espec_value_of; [apply spec_extract; [done|unfold bit_off; lia|unfold bit_len; lia|unfold bit_off, bit_len; lia]|].
  intros b3 val' Hx3 _ Hval. assert (extends b1 b3) as Hx13 by by transitivity b2. assert (extends b b3) as Hx03 by by transitivity b1.
  assert (em_static b3 e) as Hs3 by by apply (em_static_later us0 protected b1).
  eapply spec_weaken; [by apply (emit_write_sim into val' _ e b3 Hs3 Hto Hval)|].
  intros b4 r Hx4 _ (He & Hcf & _ & Hsim). split; [done|]. intros Ho Hp HxB m c res c' HR Hex.
  apply exec_guarded_body in Hex as [Hg Hex]. destruct (guarded_index _ index c ltac:(by exists regs, into, sz; right) Hg) as (i & Hiv & Hilt).
  cbn [guarded_body exec_cmd] in Hex. unfold cbind, ceval, clift in Hex. rewrite Hiv in Hex. cbn [mbind option_bind] in Hex.
  destruct (dynamic_reg _ _ _) as [v|] eqn:Ev; [|done]. cbn [mbind option_bind] in Hex.
  destruct (dynamic_choice b e m c index b1 id i regs sz v HR Hb1 Hid Hiv Hilt Ev) as (rg & -> & Hch).
  destruct (val_eval _ _ _) as [x|] eqn:Ex; [|done]. cbn [mbind option_bind] in Hex.
  destruct (cwrite into x c) as [[r0 c1]|] eqn:Ew; [|done].
  assert (Rel b3 e m c) as HR3 by by eapply Rel_later.
  destruct (Hsim m c x r0 c1 HR3) as [-> HR4]; [|done|].
  - intros E HE. pose proof (Hch E HE) as Hc. apply choice_of_Some in Hc as Hc'.
    rewrite (register_part b e m c rg sz x HR (chosen_writable _ _ _ Hregs Hc') (conj Hsz1 Hsz2) Ex).
    f_equal. apply (Hvd E M0 (cpu (sys c)) rg); [apply HE| |done].
    apply (us_repr_later E M0 b); [done|apply Hs|]. apply (rl_view HR E HE).
  - injection Hex as <- <-. left. exists m. by rewrite Hcf.
Qed.

Lemma espec_set_us f e b R :
  spec (f (em_us e)) b R -> spec (set_us f e) b (fun b' r => R b' (em_us r.2) /\ r = (tt, with_us e (em_us r.2))).
Proof. intros Hf. unfold set_us. eapply spec_bind; [exact Hf|]. intros b' us Hx _ HR. by apply spec_ret. Qed.

(** New values of registers that represent the interpreter's state. *)
Lemma Rel_us b b' e m (c : Config W) us cpu' :
  extends b b' -> em_static b e -> Rel b e m c -> wf_state cpu' -> fits cpu' -> us_k us = us_k (em_us e) ->
  (forall E, agrees (em_next_var e) E m -> us_repr E M0 b' us cpu') ->
  (forall key, key ∈ (dynamic us).*1 -> exists r, forall E, agrees (em_next_var e) E m -> chosen E b' key r) ->
  Rel b' (with_us e us) m (with_sys c (with_cpu (sys c) cpu')).
Proof.
  intros Hx Hs HR Hwf Hf Hk Hrep Hkeys. pose proof (rel_later _ _ _ _ _ Hx Hs HR) as HR'.
  split; cbn [with_us with_sys with_cpu sys tmp world em_us em_next_var]; try apply HR'; try done.
  - apply with_cpu_entry; [apply HR'|done|done].
  - intros E HE. destruct (rl_view HR' E HE) as [[Hr Ht Hm Hb Hu] H1 H2 H3 H4 H5]. split; try done.
    + split; cbn; try done. by apply Hrep.
    + unfold k_value in *. cbn. by rewrite Hk.
Qed.

Lemma compiled_store_dynamic regs index value sz :
  dyn_ok regs sz -> val_ok index -> val_ok value ->
  compiled (exec_guarded (StoreDynamicReg regs index value sz)) (emit_command (StoreDynamicReg regs index value sz)).
Proof.
  intros (Hregs & Hsz & Hsizes) Hi Hval last e b Hs. cbn [emit_cmd]. apply (espec_emit_val index _ e b b); [done..|].
  intros b1 id Hx1 Hb1 Hid. apply (espec_emit_val value _ e b b1); [done..|]. intros b2 new Hx2 Hb2 Hnew.
  assert (extends b b2) as Hx02 by by transitivity b1. assert (em_static b2 e) as Hs2 by by eapply em_static_later.
  eapply espec_value_of; [apply get_or_compute_dynamic_spec; [apply Hs2|done|destruct Hid; eauto with mir]|].
  intros b3 old Hx3 _ [Hov Hod]. eapply espec_value_of; [apply spec_combine; [done|destruct Hnew; eauto with mir|done]|].
  intros b4 comb Hx4 _ [Hcv Hcd]. assert (extends b2 b4) as Hx24 by by transitivity b3.
  assert (extends b b4) as Hx04 by by transitivity b2. assert (em_static b4 e) as Hs4 by by eapply em_static_later.
  assert (extends b1 b4) as Hx14 by by transitivity b2.
  eapply spec_weaken; [apply espec_set_us, store_dynamic_spec; [apply Hs4|done|destruct Hid; eauto with mir|done]|].
  intros b5 r Hx5 _ [(Huv & Hk & Hkeys & Hrep) E]. assert (extends b b5) as Hx05 by by transitivity b4.
  split.
  - rewrite E. cbn [snd]. split; [apply grows_refl|done| |by split]. destruct Hs as [Hv Hin Hpr]. split; [|eauto with mir|eauto with mir].
    apply (em_valid_us b); [done|done|exact Huv].
  - rewrite E. cbn [snd]. clear E. revert Huv Hk Hkeys Hrep. generalize (em_us r.2). intros us Huv Hk Hkeys Hrep.
    intros Ho Hp HxB m c res c' HR Hex.
    apply exec_guarded_body in Hex as [Hg Hex]. destruct (guarded_index _ index c ltac:(by exists regs, value, sz; left) Hg) as (i & Hiv & Hilt).
    cbn [guarded_body exec_cmd] in Hex. unfold cbind, ceval, clift in Hex. rewrite Hiv in Hex. cbn [mbind option_bind] in Hex.
    destruct (dynamic_reg _ _ _) as [v|] eqn:Ev; [|done]. cbn [mbind option_bind] in Hex.
    destruct (dynamic_choice b e m c index b1 id i regs sz v HR Hb1 Hid Hiv Hilt Ev) as (rg & -> & Hch).
    destruct (val_eval _ _ value) as [x|] eqn:Ex; [|done]. cbn [mbind option_bind] in Hex. unfold cwrite in Hex.
    destruct (val_write _ _ _ _) as [[t' s']|] eqn:Ew; [|done]. injection Hex as <- <-. cbn [fst snd].
    pose proof (agrees_self ail apv Hail Hapv (em_next_var e) m (rl_machine HR)) as HEm.
    pose proof (Hch _ HEm) as Hc0. apply choice_of_Some, (chosen_elem regs) in Hc0 as Hin.
    rewrite list.Forall_forall in Hsizes. pose proof (Hsizes _ Hin) as Hrange.
    pose proof (choices_writable _ Hregs) as Hwr. rewrite list.Forall_forall in Hwr. pose proof (Hwr _ Hin) as Hw.
    assert (dest_ok (VLoc {| loc := LReg rg; size := sz |})) as Hto by (exists (DReg rg); by split).
    destruct (val_write_spec il pv enc _ _ _ _ _ _ (rl_state HR) Hto Ew) as [Hst' Hwritten]. cbn in Hwritten.
    destruct Hwritten as (-> & cpu' & -> & Hchg). left. exists m. split; [done|]. split; [|done].
    change {| sys := with_cpu (sys c) cpu'; tmp := tmp c; world := world c |} with (with_sys c (with_cpu (sys c) cpu')).
    assert (forall E, agrees (em_next_var e) E m -> choice_of regs b4 id E = Some rg) as Hch4.
    { intros E HE. rewrite <- (Hch E HE). unfold choice_of. destruct Hid. by later b1. }
    apply (Rel_us b b5); [done|done|done|apply Hst'|apply Hst'|done| |].
    + intros E HE. apply (Hrep E M0 (cpu (sys c)) cpu' rg); [apply HE| |by apply Hch4|].
      * apply (us_repr_later E M0 b); [done|apply Hs|]. apply (rl_view HR E HE).
      * rewrite Hcd by apply HE. destruct Hnew as [Hnv Hnd]. later b2.
        rewrite (Hnd E M0 (tmp c) (sys c) x) by (apply HE || apply (rl_view HR E HE) || apply HR || done).
        rewrite (Hod E M0 (cpu (sys c)) rg); [done|apply HE| |].
        -- apply (us_repr_later E M0 b); [done|apply Hs|]. apply (rl_view HR E HE).
        -- rewrite <- (Hch E HE). unfold choice_of. destruct Hid. by later b1.
    + intros key [->|Hkey]%Hkeys.
      * exists rg. intros E HE. pose proof (Hch4 E HE) as Hc. apply choice_of_Some in Hc. unfold chosen. cbn [choices key_index].
        destruct Hid. rewrite (den_later E b4 b5); [done|done|eauto with mir].
      * destruct (rl_keys (rel_later _ _ _ _ _ Hx05 Hs HR) key Hkey) as [r' Hr']. by exists r'.
Qed.

(** ** Leaving: logs, exceptions, handlers, jumps *)

Lemma compiled_log : compiled (exec_guarded Log) (emit_command Log).
Proof.
  intros last e b Hs. cbn [emit_cmd]. eapply spec_weaken; [apply espec_on_cf|]. intros b' r _ _ (-> & g' & Hg & ->). cbn [snd].
  apply write_seq_spec in Hg as [Hgr Hsim]. split; [by apply emitted_graph|].
  intros Ho Hp HxB m c res c' HR Hex. apply exec_guarded_body in Hex as [_ Hex]. injection Hex as <- <-.
  destruct (Hsim Ho) as [Ho' Hstep]. left. exists m. split; [apply rtc_once; by apply (Hstep Hp)|]. split; [|done].
  by apply Rel_cf.
Qed.

Lemma packed_exception_total ex : exists p, packed_from_exception ex = Some p.
Proof.
  unfold packed_from_exception, packed_exception. pose proof (as_u8_below ex).
  rewrite (proj2 (Z.leb_le _ _)) by lia. by eexists.
Qed.

Lemma can_fail_result b m p : can_fail b m -> can_fail b (with_result m p).
Proof. intros [Hm Hk Hr Hkv]. split; try done. by destruct Hm. Qed.
Lemma can_fail_later b b' m : extends b b' -> us_valid b us0 -> can_fail b m -> can_fail b' m.
Proof. intros Hx Hus [Hm Hk Hr Hkv]. split; try done; [by apply (us_repr_later _ _ b)|by rewrite (k_value_later _ b)]. Qed.

Lemma Rel_fails b e m (c : Config W) : Rel b e m c -> can_fail b m.
Proof. intros HR. apply (Rel_can_fail b e m m c HR); [by apply same_below_refl|apply HR]. Qed.

(** [emit_exception] *)
Lemma emit_exception_spec ex code e b :
  em_static b e -> valid b code ->
  spec (emit_exception fuel us0 metadata ex code e) b (fun b' r => exists g', r = (tt, with_cf e g') /\ grows (em_cf e) g'
    /\ (open (em_cf e) -> present g' -> extends b' B -> forall m ex', can_fail b m ->
       with_code_from_u32 ex (wrap 32 (den (env m) B code)) = Some ex' ->
       exists p, packed_from_exception ex' = Some p /\ fails (current e, m) (m_world m) p)).
Proof.
  intros Hs Hcode. unfold emit_exception. apply espec_graph. intros g1 Hg1. apply write_seq_spec in Hg1 as [Hgr1 Hseq].
  eapply spec_weaken; [by apply exit_initial_spec, em_static_cf|]. intros b' r Hx _ (g2 & -> & Hg2 & Hc2 & _ & Hsim).
  cbn [snd em_cf with_cf] in *. exists g2. split; [done|]. split; [by apply (grows_trans _ g1)|].
  intros Ho Hp HxB m ex' Hcf Hex. destruct (packed_exception_total ex') as [p Hpk]. exists p. split; [done|].
  destruct (Hseq Ho) as [Ho1 Hstep]. pose proof (present_before _ _ _ _ Hg2 Hp) as Hp1.
  destruct (can_fail_result b m p Hcf) as [Hm Hk Hr Hkv].
  destruct (Hsim Hp HxB (with_result m p) Hm Hk Hr Hkv) as (o & Hoe & Hrest). exists o. split; [|done].
  apply (exits_step _ _ _ _ _ (bb_current g1, with_result m p)); [|done]. apply rtc_once, (Hstep Hp1). cbn [run_seq].
  rewrite Hex. cbn [mbind option_bind]. by rewrite Hpk.
Qed.

Lemma compiled_exception ex code : val_ok code -> compiled (exec_guarded (CException ex code)) (emit_command (CException ex code)).
Proof.
  intros Hcode last e b Hs. cbn [emit_cmd]. apply (espec_emit_val code _ e b b); [done..|]. intros b1 id Hx1 Hb1 Hid.
  assert (em_static b1 e) as Hs1 by by eapply em_static_later.
  eapply spec_weaken; [by apply (emit_exception_spec ex id e b1 Hs1), Hid|]. intros b2 r Hx2 _ (g' & -> & Hg & Hsim). cbn [snd]. split.
  { apply emitted_graph; [by apply (em_static_later us0 protected b1)|done]. }
  intros Ho Hp HxB m c res c' HR Hex. apply exec_guarded_body in Hex as [_ Hex]. cbn [guarded_body exec_cmd] in Hex.
  unfold cbind, ceval, clift in Hex. destruct (val_eval _ _ _) as [x|] eqn:Ex; [|done]. cbn [mbind option_bind] in Hex.
  destruct (with_code_from_u32 ex (wrap 32 x)) as [ex'|] eqn:Ecode; [|done]. injection Hex as <- <-. cbn [post].
  assert (extends b1 B) as Hx1B by by transitivity b2.
  destruct (Hsim Ho Hp HxB m ex') as (p & Hpk & Hf).
  - apply (can_fail_later b b1); [done|apply Hs|by eapply Rel_fails].
  - by rewrite (Rel_den b e m c _ b1 id x HR Hid Ex).
  - exists p. split; [done|]. by rewrite <- (rl_world HR).
Qed.

(** The result of the context is not looked at. *)
Lemma Rel_result b e (m : mach) (c : Config W) p : Rel b e m c -> RelWith p b e (with_result m p) c.
Proof.
  intros [Hm Hc Hk Hres Hw Hst Hvw Hkeys].
  assert (forall n E, agrees n E (with_result m p) -> agrees n E m) as Ha by (intros n E [? ? ? ? ?]; by split).
  split; try done.
  - destruct Hm. by split.
  - intros E HE. apply Hvw, Ha, HE.
  - intros key Hkey. destruct (Hkeys key Hkey) as [r Hr]. exists r. intros E HE. apply Hr, Ha, HE.
Qed.

Abbreviation emit_next := (MirEmit.emit_jump fuel (Some il) (Some pv) enc is_cs32).

(** The end of the instruction: the jump, and the exit. *)
Lemma leave_spec su (k : option ValId -> em unit) e b :
  em_static b e -> (forall lj e', em_cf e' = em_cf e -> k lj e' = commit_and_exit fuel su metadata lj e') ->
  spec ((lj <~~ emit_next;; k lj) e) b (fun b' r => emitted e b' r.2
    /\ (open (em_cf e) -> present (em_cf r.2) -> extends b' B ->
        forall m c p, RelWith p b e m c -> leaves_with su (current e, m) c p)).
Proof.
  intros Hs Hexit. pose proof Hs as [Hv Hin Hpr]. eapply espec_bind; [by apply emit_jump_spec; [apply Hs|exact Hil|exact Hjump]|].
  intros b1 lj e1 Hx1 _ (Hv1 & Hk1 & _ & Hj). cbn [fst snd] in *. rewrite (Hexit lj e1 (kept_cf _ _ Hk1)).
  eapply spec_weaken; [apply commit_and_exit_spec, Hv1|]. intros b2 r Hx2 _ (g' & -> & Hg & Hc & _ & Hsim).
  cbn [snd em_cf with_cf]. rewrite (kept_cf _ _ Hk1) in *. split.
  - split; [done|cbn; rewrite (kept_next_var _ _ Hk1); lia| |by destruct (kept_shape _ _ Hk1)]. apply em_static_cf. split; [by apply (em_valid_later b1)|eauto with mir|eauto with mir].
  - intros Ho Hp HxB m c p HR j Hj'. pose proof (rl_view HR _ (agrees_self ail apv Hail Hapv (em_next_var e) m (rl_machine HR))) as Hvw.
    destruct (Hj (env m) M0 (tmp c) (sys c) j) as [Hr Hst]; [by apply env_of_ok, HR|apply Hvw|apply HR|done|].
    destruct (Hsim Hp HxB m (cpu (default (sys c) j)) kv) as (o & Ho1 & Ho2 & Ho3 & Ho4); [apply HR|by rewrite (rl_k HR)| | |apply Hst..|].
    + rewrite (rl_cpu HR). apply Hr.
    + rewrite <- (vw_k _ _ _ _ _ _ _ _ _ _ _ _ _ Hvw). unfold k_value. rewrite (kept_k _ _ Hk1). destruct (us_k (em_us e)) eqn:Ek; [|done].
      apply den_later; [done|]. by apply (uv_k b (em_us e) (ev_us b e Hv)).
    + exists o. rewrite (rl_world HR), (rl_result HR) in Ho4. done.
Qed.

Definition command_arguments (args : list Val) : cmdM (list Z) := cmap (fun a => x <-! ceval a;; cret (wrap 32 x)) args.

Lemma arguments_spec args c r :
  command_arguments args c = Some r ->
  exists xs, r = (Ok (wrap 32 <$> xs), c) /\ Forall2 (fun a x => val_eval (tmp c) (sys c) a = Some x) args xs.
Proof.
  unfold command_arguments. revert r. induction args as [|a args IH]; intros r; cbn [cmap]; [intros [= <-]; by exists []|].
  unfold cbind at 1 2. unfold ceval. destruct (val_eval (tmp c) (sys c) a) as [x|] eqn:Ex; [|done]. cbn [mbind option_bind cret].
  unfold cbind at 1. destruct (cmap _ args c) as [r0|] eqn:Er; [|done]. destruct (IH _ eq_refl) as (xs & -> & Hxs).
  intros [= <-]. exists (x :: xs). by split; [|constructor].
Qed.

Lemma const_val_ok n : inw 128 n -> val_ok (const_val n).
Proof. intros Hn. split; [split; cbn; lia|]. by exists (DConst n). Qed.

(** A missing argument is zero. *)
Lemma two_args_spec (args : list Val) (xs : list Z) (t : list Z) (s : SysState) :
  (length args <= 2)%nat -> Forall2 (fun a x => val_eval t s a = Some x) args xs ->
  exists v0 v1 x0 x1, two_args args = [v0; v1] /\ val_eval t s v0 = Some x0 /\ val_eval t s v1 = Some x1
    /\ handler_args (wrap 32 <$> xs) = (wrap 32 x0, wrap 32 x1).
Proof.
  intros Hl Hxs. destruct Hxs as [|a x args xs Ha Hxs]; [by exists (const_val 0), (const_val 0), 0, 0|].
  destruct Hxs as [|a' x' args xs Ha' Hxs]; [by exists a, (const_val 0), x, 0|].
  destruct Hxs; [|cbn in Hl; lia]. by exists a, a', x, x'.
Qed.
Lemma two_args_ok args : Forall val_ok args -> Forall val_ok (two_args args).
Proof.
  intros Ha. unfold two_args. apply Forall_take, list.Forall_app. split; [done|].
  repeat constructor; by apply const_val_ok.
Qed.

Lemma espec_emit_vals {T} vs (k : list ValId -> em T) e b R :
  em_static b e -> Forall val_ok vs ->
  (forall b' ids, extends b b' -> wf b' -> Forall2 (fun v id => computes b e (fun t s => val_eval t s v) b' id) vs ids -> spec (k ids e) b' R) ->
  spec ((x <~~ value_of (fun e => emit_vals fuel (Some il) (Some pv) enc e vs);; k x) e) b R.
Proof. intros Hs Hv Hk. eapply espec_value_of; [by apply emit_vals_spec; [|apply Hs|]|done]. Qed.

Lemma espec_lift {T U} (o : option T) (k : T -> em U) e b R :
  (forall x, o = Some x -> spec (k x e) b R) -> spec ((x <~~ elift o;; k x) e) b R.
Proof.
  intros Hk. unfold ebind, elift. eapply (spec_bind _ _ b (fun b' r => b' = b /\ exists x, o = Some x /\ r = (x, e))).
  - apply spec_lift. intros x Hx. apply spec_ret. intros _. split; [done|by exists x].
  - intros b' r _ _ (-> & x & Hx & ->). by apply Hk.
Qed.

Lemma packed_handler_total id a : exists p, packed_from_exec_result (InvokeHandler id a) = Some p.
Proof. destruct id; by eexists. Qed.

Lemma compiled_handler id args : Forall val_ok args -> compiled (exec_guarded (Handler id args)) (emit_command (Handler id args)).
Proof.
  intros Hargs last e b Hs. cbn [emit_cmd]. apply espec_lift. intros u Hlen. apply assert_Some, Nat.leb_le in Hlen.
  apply espec_emit_vals; [done|by apply two_args_ok|]. intros b1 ids Hx1 _ Hids.
  assert (em_static b1 e) as Hs1 by by eapply em_static_later.
  destruct ids as [|i0 [|i1 [|]]]; [by intros ? ? ?|by intros ? ? ?| |by intros ? ? ?].
  apply espec_graph. intros g1 Hg1. apply write_seq_spec in Hg1 as [Hgr1 Hseq].
  eapply spec_weaken; [by apply (leave_spec false); [apply em_static_cf|]|]. intros b2 r Hx2 _ [He Hsim]. cbn [em_cf with_cf] in *. split.
  { apply (emitted_trans e b1 (with_cf e g1)); [by apply emitted_graph|done]. }
  intros Ho Hp HxB m c res c' HR Hex. apply exec_guarded_body in Hex as [_ Hex]. cbn [guarded_body exec_cmd] in Hex.
  unfold cbind at 1, clift in Hex. rewrite (proj2 (Nat.leb_le _ _) Hlen) in Hex. cbn [assert mbind option_bind] in Hex.
  unfold cbind at 1 in Hex. fold (command_arguments args c) in Hex. destruct (command_arguments args c) as [r0|] eqn:Er; [|done].
  destruct (arguments_spec _ _ _ Er) as (xs & -> & Hxs). injection Hex as <- <-. cbn [post].
  destruct (two_args_spec args xs (tmp c) (sys c) Hlen Hxs) as (v0 & v1 & x0 & x1 & Htwo & Hx0 & Hx1' & Heq).
  rewrite Htwo in Hids. apply Forall2_cons_1 in Hids as [Hi0 Hids]. apply Forall2_cons_1 in Hids as [Hi1 _].
  destruct (packed_handler_total id (handler_args (wrap 32 <$> xs))) as [p Hpk]. exists p. split; [done|]. destruct (Hseq Ho) as [Ho1 Hstep]. pose proof (present_before _ _ _ _ (ed_grows _ _ _ He) Hp) as Hp1.
  assert (extends b1 B) as Hx1B by by transitivity b2.
  eapply leaves_with_step; [|apply (Hsim Ho1 Hp HxB); apply Rel_cf, Rel_result; by eapply Rel_later].
  apply rtc_once, (Hstep Hp1). cbn [run_seq].
  by rewrite (Rel_den b e m c _ b1 i0 x0 HR Hi0 Hx0 Hx1B), (Rel_den b e m c _ b1 i1 x1 HR Hi1 Hx1' Hx1B), <- Heq, Hpk.
Qed.
(** ** Operations on the world *)

Lemma Rel_next_var b e m (c : Config W) n : Rel b e m c -> em_next_var e <= n -> Rel b (with_next_var e n) m c.
Proof.
  intros HR Hn. replace c with (with_world c (world c)) by by destruct c.
  apply (Rel_world ail apv il pv enc M0 k0 res0 us0 s0 kv0 kv protected protected_mode areas b e m m n c); try done; apply HR.
Qed.

Lemma set_vars_zeros m vars : machine_ok m -> machine_ok (set_vars m vars (replicate (length vars) 0)).
Proof. intros Hm. apply set_vars_ok; [done|]. apply Forall_replicate. by cbn. Qed.

(** A fallible operation does to the world what [f] does, and sets variables
    or leaves with the exception. *)
Definition fallible_sim {A} (vars : list VarId) (results : A -> list Z) (op : BbFallible)
    (e0 : Emitter) (n : Z) (b b' : ValBuilder) (g' : BbBuilder) : Prop :=
  open (em_cf e0) -> open g' /\ (present g' -> extends b' B -> forall (f : comp W Exception A) m (c : Config W) r w,
    Rel b e0 m c -> run_fallible ail apv (value_tree B) op m = fallible f vars results m ->
    f (world c) = Some (r, w) ->
    match r with
    | Ok x => Forall (inw 128) (results x) -> length (results x) = length vars ->
        exists m', step (current e0, m) (bb_current g', m') /\ Rel b (with_cf (with_next_var e0 n) g') m' (with_world c w)
          /\ forall i var v, vars !! i = Some var -> results x !! i = Some v -> m_vars m' var = v
    | Err ex => exists p, packed_from_exception ex = Some p /\ fails (current e0, m) w p
    end).

Lemma emit_fallible_sim {A} vars (results : A -> list Z) op e n e' b :
  em_static b e -> e' = with_next_var e n -> em_next_var e <= n -> Forall (fun v => em_next_var e <= v < n) vars -> NoDup vars ->
  spec (emit_fallible fuel us0 metadata op e') b (fun b' r => exists g', r = (tt, with_cf (with_next_var e n) g')
    /\ grows (em_cf e) g' /\ fallible_sim vars results op e n b b' g').
Proof.
  intros Hs -> Hn Hvars Hnd. eapply spec_weaken; [by apply emit_fallible_spec, em_static_next_var|].
  intros b' r Hx _ (g' & -> & Hg & Hsim). cbn [em_cf with_next_var] in *. exists g'. split; [done|]. split; [done|].
  intros Ho. destruct (Hsim Ho) as [Ho' Hrun]. split; [done|]. intros Hp HxB f m c res w HR Hop Hf.
  rewrite <- (rl_world HR) in Hf.
  assert (Forall (fun v => em_next_var e <= v) vars) as Hbelow by (eapply Forall_impl; [|exact Hvars]; cbn; lia).
  assert (forall m1 vs, m_vars m1 = m_vars m -> m_cpu m1 = m_cpu m -> m_k m1 = m_k m -> same_below (em_next_var e) m (set_vars m1 vars vs)) as Hsame.
  { intros m1 vs E1 E2 E3. destruct (set_vars_below (em_next_var e) m1 vars vs Hbelow) as [H1 H2 H3]. split; [|congruence|congruence].
    intros v Hv. by rewrite H1, E1. }
  unfold fallible in Hop. rewrite Hf in Hop. cbn [mbind option_bind] in Hop. destruct res as [x|ex].
  - intros Hres Hlen. set (m' := set_vars (with_m_world m w) vars (results x)). exists m'.
    split; [by apply (proj1 (Hrun Hp HxB m m'))|]. split.
    + apply Rel_cf. destruct (set_vars_fields (with_m_world m w) vars (results x)) as (? & ? & ? & ?).
      apply (Rel_world _ _ _ _ _ _ _ _ _ _ _ _ _ _ _ b e m); try done; [by apply Hsame|].
      apply set_vars_ok; [|done]. destruct (rl_machine HR). by split.
    + intros i var v Hvar Hv. by apply (set_vars_value _ _ _ i).
  - destruct (packed_exception_total ex) as [p Hpk]. exists p. split; [done|]. rewrite Hpk in Hop. cbn [mbind option_bind] in Hop.
    set (m' := set_vars (with_result (with_m_world m w) p) vars (replicate (length vars) 0)).
    destruct (set_vars_fields (with_result (with_m_world m w) p) vars (replicate (length vars) 0)) as (? & ? & Hw' & Hr').
    cbn [m_world m_result with_result with_m_world] in Hw', Hr'. fold m' in Hw', Hr'.
    rewrite <- Hw' at 1. rewrite <- Hr'. apply (proj2 (Hrun Hp HxB m m')); [done|].
    apply (Rel_can_fail b e m m' c HR); [by apply Hsame|]. apply set_vars_zeros. destruct (rl_machine HR). by split.
Qed.

Lemma espec_alloc {T} (k : VarId -> em T) e b R :
  spec (k (em_next_var e) (with_next_var e (em_next_var e + 1))) b R -> spec ((v <~~ alloc_var;; k v) e) b R.
Proof. done. Qed.
Lemma u8_of_Some n x : u8_of n = Some x -> x = n /\ wrap 8 n = n.
Proof.
  unfold u8_of. destruct (assert _) as [[]|] eqn:E; [|done]. cbn [mbind option_bind]. intros [= <-]. split; [done|].
  apply assert_Some, andb_prop in E as [E1%Z.leb_le E2%Z.ltb_lt]. apply wrap_small. split; [done|]. exact E2.
Qed.

Lemma with_next_var_self e : e = with_next_var e (em_next_var e).
Proof. by destruct e. Qed.

(** The context decides the same with the registers that compiled code has
    stored last. *)
Lemma guard_context c k :
  guard c k = Some (Ok tt, k) ->
  match c with
  | ReadDescriptor _ _ _ _ _ _ _ | Out _ _ _ | In _ _ _ | ReadMemory _ | WriteMemory _ => ctx_same (cpu_of M0) (cpu (sys k)) = true
  | _ => True
  end.
Proof. unfold guard. destruct c; try done; destruct (ctx_same _ _); done. Qed.

Lemma emitted_cf b' e n g : em_static b' e -> em_next_var e <= n -> grows (em_cf e) g -> emitted e b' (with_cf (with_next_var e n) g).
Proof. intros Hs Hn Hg. split; [done|done| |by split]. by apply em_static_cf, em_static_next_var. Qed.

Lemma compiled_out len port data :
  val_ok port -> val_ok data -> compiled (exec_guarded (Out len port data)) (emit_command (Out len port data)).
Proof.
  intros Hport Hdata last e b Hs. cbn [emit_cmd]. apply (espec_emit_val port _ e b b); [done..|]. intros b1 pid Hx1 Hb1 Hpid.
  apply (espec_emit_val data _ e b b1); [done..|]. intros b2 did Hx2 Hb2 Hdid. apply espec_lift. intros n [-> Hlen]%u8_of_Some.
  assert (extends b b2) as Hx02 by by transitivity b1. assert (em_static b2 e) as Hs2 by by apply (em_static_later us0 protected b).
  eapply spec_weaken; [apply (emit_fallible_sim [] (fun _ : unit => []) _ e (em_next_var e)); [done|apply with_next_var_self|done|constructor|constructor]|].
  intros b3 r Hx3 _ (g & -> & Hg & Hsim). cbn [snd]. assert (em_static b3 e) as Hs3 by by apply (em_static_later us0 protected b2). split.
  { by apply emitted_cf. }
  intros Ho Hp HxB m c res c' HR Hex. apply exec_guarded_body in Hex as [Hgd%guard_context Hex]. cbn [guarded_body exec_cmd] in Hex.
  unfold cbind, ceval, get_cpu, on_world in Hex. destruct (val_eval _ _ port) as [p|] eqn:Ep; [|done]. cbn [mbind option_bind] in Hex.
  destruct (val_eval _ _ data) as [d|] eqn:Ed; [|done]. cbn [mbind option_bind] in Hex.
  destruct (port_out _ _ _ _ _) as [[r w]|] eqn:Eout; [|done]. cbn [mbind option_bind fst snd] in Hex.
  assert (extends b2 B) as Hx2B by by transitivity b3. assert (extends b1 B) as Hx1B by by transitivity b2.
  assert (Rel b2 e m c) as HR2 by by apply (rel_later b).
  destruct (Hsim Ho) as [Ho' Hrun]. pose proof (Hrun Hp HxB (port_out (cpu_of M0) (wrap 16 p) len (wrap 32 d)) m c r w HR2) as Hpost.
  destruct r as [[]|ex].
  - injection Hex as <- <-. destruct Hpost as (m' & Hstep & HR' & _); [| |constructor|done|].
    + cbn [run_fallible]. by rewrite (rl_cpu HR), (Rel_den b e m c _ b1 pid p HR Hpid Ep Hx1B), (Rel_den b e m c _ b2 did d HR Hdid Ed Hx2B).
    + rewrite <- Eout, Hlen. by apply port_out_same.
    + left. exists m'. split; [by apply rtc_once|]. split; [|done]. apply (rel_later b2); [done|by apply em_static_cf, em_static_next_var|done].
  - injection Hex as <- <-. cbn [post world with_world]. apply Hpost.
    + cbn [run_fallible]. by rewrite (rl_cpu HR), (Rel_den b e m c _ b1 pid p HR Hpid Ep Hx1B), (Rel_den b e m c _ b2 did d HR Hdid Ed Hx2B).
    + rewrite <- Eout, Hlen. by apply port_out_same.
Qed.
(** A variable that is used right after the operation that sets it. *)
Lemma espec_use_var {T} v (k : ValId -> em T) e b R :
  (forall b' id, extends b b' -> wf b' -> node_is (fun E => var_value E v) b' id -> spec (k id e) b' R) ->
  spec ((x <~~ value_of (fun _ => use_var v);; k x) e) b R.
Proof. intros Hk. eapply espec_value_of; [apply spec_var|done]. Qed.

Lemma compiled_in len port data :
  val_ok port -> dest_ok data -> compiled (exec_guarded (In len port data)) (emit_command (In len port data)).
Proof.
  intros Hport Hdata last e b Hs. cbn [emit_cmd]. apply (espec_emit_val port _ e b b); [done..|]. intros b1 pid Hx1 Hb1 Hpid.
  apply espec_alloc. apply espec_lift. intros n [-> Hlen]%u8_of_Some. set (nv := em_next_var e).
  assert (em_static b1 e) as Hs1 by by apply (em_static_later us0 protected b).
  eapply espec_bind; [apply (emit_fallible_sim [nv] (fun v : Z => [v]) _ e (nv + 1)); [done|done|unfold nv; lia|repeat constructor; unfold nv; lia|apply NoDup_singleton]|].
  intros b2 u e2 Hx2 _ (g & E & Hg & Hsim). injection E as _ ->.
  apply espec_use_var. intros b3 vid Hx3 _ Hvid. assert (extends b1 b3) as Hx13 by by transitivity b2.
  assert (em_static b3 (with_cf (with_next_var e (nv + 1)) g)) as Hs3.
  { apply em_static_cf, em_static_next_var. by apply (em_static_later us0 protected b1). }
  eapply spec_weaken; [by apply (emit_write_sim data vid (fun E => var_value E nv) _ b3 Hs3)|].
  intros b4 r Hx4 _ (He & Hcf & Hnv & Hwr). split.
  { eapply emitted_trans; [|exact He]. apply emitted_cf; [|unfold nv; lia|done]. by apply (em_static_later us0 protected b1). }
  cbn [em_cf with_cf em_next_var with_next_var] in *.
  intros Ho Hp HxB m c res c' HR Hex. rewrite Hcf in Hp. apply exec_guarded_body in Hex as [Hgd%guard_context Hex]. cbn [guarded_body exec_cmd] in Hex.
  unfold cbind, ceval, get_cpu, on_world in Hex. destruct (val_eval _ _ port) as [p|] eqn:Ep; [|done]. cbn [mbind option_bind] in Hex.
  destruct (port_in _ _ _ _) as [[r' w]|] eqn:Ein; [|done]. cbn [mbind option_bind fst snd] in Hex.
  assert (extends b2 B) as Hx2B by (transitivity b3; [done|by transitivity b4]). assert (extends b1 B) as Hx1B by by transitivity b2.
  assert (Rel b1 e m c) as HR1 by by apply (rel_later b).
  destruct (Hsim Ho) as [Ho' Hrun]. pose proof (Hrun Hp Hx2B (port_in (cpu_of M0) (wrap 16 p) len) m c r' w HR1) as Hpost.
  assert (port_in (cpu_of M0) (wrap 16 p) len (world c) = Some (r', w)) as Hin by (rewrite <- Ein, Hlen; by apply port_in_same).
  lapply Hpost; [clear Hpost; intros Hpost|cbn [run_fallible]; by rewrite (rl_cpu HR), (Rel_den b e m c _ b1 pid p HR Hpid Ep Hx1B)].
  specialize (Hpost Hin). destruct r' as [v|ex]; [|by injection Hex as <- <-].
  destruct Hpost as (m' & Hstep & HR' & Hvars); [by repeat constructor; eapply port_in_inw|done|].
  destruct (cwrite data v (with_world c w)) as [[r0 c1]|] eqn:Ew; [|done].
  destruct (Hwr m' (with_world c w) v r0 c1) as [-> HR4].
  - apply (rel_later b1); [done| |done]. by apply em_static_cf, em_static_next_var.
  - intros E HE. rewrite (ag_vars _ _ _ _ _ HE) by (unfold nv; lia). by apply (Hvars 0%nat).
  - done.
  - injection Hex as <- <-. left. exists m'. rewrite Hcf. split; [by apply rtc_once|]. by split.
Qed.
(** One write after another. *)
Definition write_all (l : list (Val * Z)) : cmdM unit := citer (fun x => cwrite x.1 x.2) l.
Lemma write_all_app l1 l2 c : write_all (l1 ++ l2) c = cbind (write_all l1) (fun _ => write_all l2) c.
Proof.
  revert c. induction l1 as [|y l1 IH]; intros c; [done|]. unfold write_all in *. cbn [citer app]. unfold cbind in *.
  destruct (cwrite _ _ c) as [[[u|ex] c2]|]; [|done|done]. by rewrite IH.
Qed.

Definition stores_to (l : list (Val * (Env -> Z))) (b : ValBuilder) (e : Emitter) (b' : ValBuilder) (e' : Emitter) : Prop :=
  emitted e b' e' /\ em_cf e' = em_cf e /\ em_next_var e' = em_next_var e
  /\ forall m (c : Config W) xs r c', Rel b e m c -> Forall2 (fun v x => forall E, agrees (em_next_var e) E m -> v E = x) l.*2 xs ->
       write_all (zip l.*1 xs) c = Some (r, c') -> r = Ok tt /\ Rel b' e' m c'.

Lemma stores_to_nil b e : em_static b e -> stores_to [] b e b e.
Proof.
  intros Hs. split; [split; [apply grows_refl|done|done|done]|]. split; [done|]. split; [done|]. by intros m c xs r c' HR _ [= <- <-].
Qed.
Lemma emit_store_to to id v l b0 e0 b e :
  stores_to l b0 e0 b e -> extends b0 b -> dest_ok to -> node_is v b id ->
  spec (emit_write to id e) b (fun b' r => stores_to (l ++ [(to, v)]) b0 e0 b' r.2).
Proof.
  intros (He & Hcf & Hnv & Hsim) Hx Hto Hid.
  eapply spec_weaken; [by apply (emit_write_sim to id v e b); [apply He|..]|]. intros b' r Hx' _ (He' & Hcf' & Hnv' & Hwr).
  split; [by apply (emitted_trans e0 b e)|]. split; [congruence|]. split; [congruence|]. intros m c xs r0 c' HR Hxs Hex.
  rewrite fmap_app in Hxs. apply Forall2_app_inv_l in Hxs as (xs1 & xs2 & Hxs1 & Hxs2 & ->).
  apply Forall2_cons_inv_l in Hxs2 as (x & xs3 & Hx2 & Hnil & ->). apply Forall2_nil_inv_l in Hnil as ->.
  rewrite fmap_app, zip_with_app in Hex; [|rewrite length_fmap, <- (length_fmap snd); by eapply Forall2_length].
  rewrite write_all_app in Hex. unfold cbind at 1 in Hex. destruct (write_all (zip l.*1 xs1) c) as [[r1 c1]|] eqn:E1; [|done].
  destruct (Hsim m c xs1 r1 c1 HR Hxs1 E1) as [-> HR1]. unfold write_all in Hex. cbn [fmap list_fmap zip_with citer fst snd] in Hex. unfold cbind in Hex.
  destruct (cwrite to x c1) as [[r2 c2]|] eqn:E2; [|done]. destruct (Hwr m c1 x r2 c2 HR1) as [-> HR2]; [by rewrite Hnv|done|].
  by injection Hex as <- <-.
Qed.

Definition descriptor_values (r : DescriptorReadResult) : list Z := [b2z (d_ok r); d_base r; d_limit r; d_access_rights r].
Lemma cwrite_ok to x (c : Config W) r c' : cwrite to x c = Some (r, c') -> r = Ok tt.
Proof. unfold cwrite. destruct (val_write _ _ _ _); [|done]. by intros [= <- _]. Qed.
Lemma descriptor_values_inw r :
  inw 128 (b2z (d_ok r)) -> inw 128 (d_base r) -> inw 128 (d_limit r) -> inw 128 (d_access_rights r) ->
  Forall (inw 128) (descriptor_values r).
Proof. intros. do 4 (apply List.Forall_cons; [done|]). constructor. Qed.

Lemma compiled_descriptor force selector ok base limit ar mark :
  val_ok selector -> dest_ok ok -> dest_ok base -> dest_ok limit -> dest_ok ar ->
  compiled (exec_guarded (ReadDescriptor force selector ok base limit ar mark))
    (emit_command (ReadDescriptor force selector ok base limit ar mark)).
Proof.
  intros Hsel Hok Hbase Hlimit Har last e b Hs. cbn [emit_cmd]. do 4 apply espec_alloc. set (nv := em_next_var e).
  cbn [em_next_var with_next_var]. fold nv.
  match goal with |- context [ebind _ _ ?e'] => change e' with (with_next_var e (nv + 1 + 1 + 1 + 1)) end. set (n := nv + 1 + 1 + 1 + 1).
  assert (em_static b (with_next_var e n)) as Hsn by by apply em_static_next_var.
  apply (espec_emit_val selector _ _ b b); [done..|]. intros b1 sid Hx1 Hb1 Hsid.
  assert (em_static b1 e) as Hs1 by by apply (em_static_later us0 protected b).
  eapply espec_bind; [apply (emit_fallible_sim [nv; nv + 1; nv + 1 + 1; nv + 1 + 1 + 1] descriptor_values _ e n); [done|done|unfold n; lia| |]|].
  { unfold n. repeat constructor; unfold nv; lia. }
  { repeat (apply list.NoDup_cons; split; [rewrite ?elem_of_cons, elem_of_nil; lia|]). constructor. }
  intros b2 u e2 Hx2 _ (g & E & Hg & Hsim). injection E as _ ->.
  apply espec_use_var. intros b3 v1 Hx3 _ Hv1. apply espec_use_var. intros b4 v2 Hx4 _ Hv2.
  apply espec_use_var. intros b5 v3 Hx5 _ Hv3. apply espec_use_var. intros b6 v4 Hx6 _ Hv4.
  assert (extends b3 b6) as Hx36 by (transitivity b4; [done|by transitivity b5]). assert (extends b4 b6) as Hx46 by by transitivity b5.
  assert (extends b1 b6) as Hx16 by (transitivity b2; [done|by transitivity b3]).
  set (e2 := with_cf (with_next_var e n) g).
  assert (em_static b6 e2) as Hs6 by (apply em_static_cf, em_static_next_var; by apply (em_static_later us0 protected b1)).
  pose proof (stores_to_nil b6 e2 Hs6) as Hst0.
  eapply espec_bind; [apply (emit_store_to ok v1 (fun E => var_value E nv) _ _ _ _ _ Hst0); [done|done|by apply (node_is_later _ b3)]|]. intros b7 u' e3 Hx7 _ Hst1. cbn [snd] in Hst1.
  eapply espec_bind; [apply (emit_store_to base v2 (fun E => var_value E (nv + 1)) _ _ _ _ _ Hst1); [done|done|apply (node_is_later _ b4); [by transitivity b6|done]]|].
  intros b8 u'' e4 Hx8 _ Hst2. cbn [snd] in Hst2. assert (extends b6 b8) as Hx68 by by transitivity b7.
  eapply espec_bind; [apply (emit_store_to limit v3 (fun E => var_value E (nv + 1 + 1)) _ _ _ _ _ Hst2); [done|done|apply (node_is_later _ b5); [by transitivity b6|done]]|].
  intros b9 u3 e5 Hx9 _ Hst3. cbn [snd] in Hst3. assert (extends b6 b9) as Hx69 by by transitivity b8.
  eapply spec_weaken; [apply (emit_store_to ar v4 (fun E => var_value E (nv + 1 + 1 + 1)) _ _ _ _ _ Hst3); [done|done|by apply (node_is_later _ b6)]|].
  intros b10 r Hx10 _ (He & Hcf & Hnv & Hwr). clear Hst0 Hst1 Hst2 Hst3.
  split.
  { eapply emitted_trans; [|exact He]. apply emitted_cf; [|unfold n, nv; lia|done]. by apply (em_static_later us0 protected b1). }
  intros Ho Hp HxB m c res c' HR Hex. rewrite Hcf in Hp. apply exec_guarded_body in Hex as [Hgd%guard_context Hex]. cbn [guarded_body exec_cmd] in Hex.
  unfold cbind at 1, ceval at 1 in Hex. destruct (val_eval _ _ selector) as [sel|] eqn:Esel; [|done]. cbn [mbind option_bind] in Hex.
  unfold cbind at 1, get_cpu at 1 in Hex. unfold cbind at 1, on_world at 1 in Hex.
  destruct (read_descriptor _ _ _ _ _) as [[r' w]|] eqn:Erd; [|done]. cbn [mbind option_bind fst snd] in Hex.
  assert (extends b2 B) as Hx2B by (transitivity b10; [|done]; transitivity b9; [|done]; transitivity b6; [|done]; by transitivity b3).
  assert (extends b1 B) as Hx1B by by transitivity b2. assert (Rel b1 e m c) as HR1 by by apply (rel_later b).
  destruct (Hsim Ho) as [Ho' Hrun]. pose proof (Hrun Hp Hx2B (read_descriptor (cpu_of M0) force mark (wrap 16 sel)) m c r' w HR1) as Hpost.
  assert (read_descriptor (cpu_of M0) force mark (wrap 16 sel) (world c) = Some (r', w)) as Hrd by (rewrite <- Erd; by apply read_descriptor_same).
  lapply Hpost; [clear Hpost; intros Hpost|].
  2: { cbn [run_fallible]. rewrite (rl_cpu HR). assert (Rel b (with_next_var e n) m c) as HRn by (apply Rel_next_var; [done|unfold n, nv; lia]).
       by rewrite (Rel_den b _ m c _ b1 sid sel HRn Hsid Esel Hx1B). }
  specialize (Hpost Hrd). destruct r' as [v|ex]; [|by injection Hex as <- <-].
  destruct (read_descriptor_inw _ _ _ _ _ _ _ Hrd) as (Hw1 & Hw2 & Hw3).
  destruct Hpost as (m' & Hstep & HR' & Hvars); [by apply descriptor_values_inw; [destruct (d_ok v)|..]|done|].
  enough (write_all (zip [ok; base; limit; ar] (descriptor_values v)) (with_world c w) = Some (Ok tt, c') /\ res = Ok ROk) as [Hci ->].
  { destruct (Hwr m' (with_world c w) (descriptor_values v) (Ok tt) c') as [_ HR4]; [| |exact Hci|].
    - apply (rel_later b1); [done|by apply em_static_cf, em_static_next_var|done].
    - repeat constructor; cbn [snd]; intros E HE; rewrite (ag_vars _ _ _ _ _ HE) by (cbn; unfold n; lia);
        [by apply (Hvars 0%nat)|by apply (Hvars 1%nat)|by apply (Hvars 2%nat)|by apply (Hvars 3%nat)].
    - left. exists m'. rewrite Hcf. split; [by apply rtc_once|]. by split. }
  clear - Hex. unfold write_all. cbn [zip_with descriptor_values citer fst snd]. unfold cbind in *.
  do 4 (match type of Hex with context [cwrite ?to ?x ?c] =>
    let E := fresh in destruct (cwrite to x c) as [[r ?]|] eqn:E; [apply cwrite_ok in E as ->|done] end).
  by injection Hex as <- <-.
Qed.
(** ** Segment checks *)

Lemma espec_node {T} (f : bm ValId) v (k : ValId -> em T) e b R :
  spec f b (node_is v) -> (forall b' id, extends b b' -> wf b' -> node_is v b' id -> spec (k id e) b' R) ->
  spec ((x <~~ value_of (fun _ => f);; k x) e) b R.
Proof. intros Hf Hk. eapply espec_value_of; [exact Hf|exact Hk]. Qed.

Lemma value_sub x y : binop_value Sub x y = wrap 128 (x - y).
Proof. done. Qed.
Lemma value_gt x y : binop_value CmpGt x y = b2z (y <? x).
Proof. done. Qed.

Lemma spec_out_of_range info addr b :
  valid b addr -> seg_valid b info ->
  spec (effective_start <~ extract fuel (seg_access_rights info) 32 32;;
        effective_offset <~ ValBuild.binop fuel Sub addr effective_start;;
        effective_offset <~ extract fuel effective_offset 0 32;;
        ValBuild.binop fuel CmpGt effective_offset (seg_limit info)) b
    (node_is (fun E => b2z (den E b (seg_limit info) <? wrap 32 (den E b addr - wrap 32 (Z.shiftr (den E b (seg_access_rights info)) 32))))).
Proof.
  intros Ha (Hs & Har & Hl). eapply spec_bind; [by apply spec_extract|]. intros b1 x1 Hx1 _ Hn1.
  eapply spec_bind; [apply spec_binop; eauto with mir|]. intros b2 x2 Hx2 _ Hn2.
  eapply spec_bind; [apply spec_extract; eauto with mir; lia|]. intros b3 x3 Hx3 _ Hn3.
  assert (extends b1 b3) as Hx13 by by transitivity b2. assert (extends b b3) as Hx03 by by transitivity b1.
  eapply spec_weaken; [apply spec_binop; eauto with mir|]. intros b4 x4 Hx4 _ [Hv Hd]. split; [done|]. intros E HE.
  rewrite Hd, (node_is_den _ _ _ E Hn3 HE), (node_is_den _ _ _ E Hn2 HE), (node_is_den _ _ _ E Hn1 HE) by done.
  later b. rewrite value_sub, value_gt. unfold extract_value. rewrite Z.shiftr_0_r.
  rewrite <- !wrap_land, (wrap_wrap_le 128 32) by lia. done.
Qed.

Lemma spec_null_selector selector b :
  valid b selector ->
  spec (mask <~ imm 0xfff8;; ValBuild.binop fuel And selector mask) b (node_is (fun E => Z.land (den E b selector) 0xfff8)).
Proof.
  intros Hv. eapply spec_bind; [by apply spec_imm|]. intros b1 mask Hx1 _ Hmk. eapply spec_weaken; [apply spec_binop; eauto with mir|].
  intros b2 x Hx2 _ [Hv2 Hd]. split; [done|]. intros E HE. rewrite Hd, (node_is_den _ _ _ E Hmk HE), value_and by done. by later b.
Qed.

(** A branch to an exception. *)
Record thrown (bb : Bb) (throw : BbId) (g g' : BbBuilder) : Prop := {
  th_grows : forall g0, grows g0 g -> mine g0 throw -> grows g0 g';
  th_block : bb_graph g' !! bb_current g = Some (Some bb);
  th_keep : forall i, bb_graph g !! i = Some None -> i <> bb_current g -> i <> throw -> bb_graph g' !! i = Some None;
}.
Lemma espec_throw {T} bb throw ex (k : unit -> em T) e b R :
  em_static b e ->
  (forall b' g', extends b b' -> wf b' -> thrown bb throw (em_cf e) g' -> spec (k tt (with_cf e g')) b' R) ->
  spec ((u <~~ on_cf (write_and_switch_to bb throw);; code <~~ value_of (fun _ => imm 0);;
         u' <~~ emit_exception fuel us0 metadata ex code;; k u') e) b R.
Proof.
  intros Hs Hk. apply espec_graph. intros g1 Hf. eapply espec_value_of; [by apply spec_imm|]. intros b1 code Hx1 _ Hcode.
  eapply espec_bind; [apply emit_exception_spec; [by apply em_static_cf, (em_static_later us0 protected b)|apply Hcode]|].
  intros b2 u e' Hx2 Hb2 (g2 & E & Hg2 & _). injection E as _ ->. cbn [em_cf with_cf] in Hg2. rewrite with_cf_self.
  pose proof (fill_spec _ _ _ _ Hf) as (_ & _ & Hc). destruct u. apply (Hk b2 g2); [by transitivity b1|done|]. split.
  - intros g0 Hg0 Hm. apply (grows_trans _ g1); [|done]. by apply (grows_fill _ _ _ _ _ Hg0 Hf).
  - apply (gr_filled _ _ Hg2). by eapply filled_block.
  - intros i Hi Hne Hne'. apply (grows_unfilled _ _ _ Hg2); [|congruence]. by rewrite (fill_other _ _ _ _ _ Hf).
Qed.

(** Code that is correct when the segment check passes: it goes on. *)
Lemma emit_segcheck_spec entry info e b :
  em_static b e -> entry_valid b entry -> me_seg_info entry = Some info ->
  spec (emit_memory_segcheck fuel protected us0 metadata entry info e) b (fun b' r => exists g', r = (tt, with_cf e g')
    /\ grows (em_cf e) g' /\ (open (em_cf e) -> open g' /\ (present g' -> extends b' B -> forall m : mach,
        den (env m) b protected = b2z protected_mode -> env_ok (env m) -> segment_passes protected_mode (env m) b entry info ->
        rtc step (current e, m) (bb_current g', m)))).
Proof.
  intros Hs (Hve & Hva & Hseg) Hinfo. pose proof Hs as [_ _ Hvp]. destruct (Hseg info Hinfo) as (Hvs & Hvar & Hvl). unfold emit_memory_segcheck.
  apply espec_new_block. intros ev g1 Hf1. destruct (fresh_grows _ _ _ _ (grows_refl _) Hf1) as [Hg1 Hm1].
  apply espec_new_block. intros ck g2 Hf2. cbn [em_cf with_cf] in Hf2. destruct (fresh_grows _ _ _ _ Hg1 Hf2) as [Hg2 Hm2].
  apply espec_new_block. intros sok g3 Hf3. cbn [em_cf with_cf] in Hf3. destruct (fresh_grows _ _ _ _ Hg2 Hf3) as [Hg3 Hm3].
  apply espec_graph. intros g4 Hf4. cbn [em_cf with_cf] in Hf4. pose proof (grows_fill _ _ _ _ _ Hg3 Hf4 Hm2) as Hg4.
  apply espec_new_block. intros null g5 Hf5. cbn [em_cf with_cf] in Hf5. destruct (fresh_grows _ _ _ _ Hg4 Hf5) as [Hg5 Hm5].
  eapply (espec_node _ (fun E => Z.land (den E b (seg_selector info)) 0xfff8)); [by apply spec_null_selector|].
  intros b1 sel Hx1 _ Hsel. rewrite !with_cf_self.
  apply espec_throw; [by apply em_static_cf, (em_static_later us0 protected b)|]. intros b3 g7 Hx3 _ Ht7. cbn [em_cf with_cf] in Ht7.
  pose proof (th_grows _ _ _ _ Ht7 _ Hg5 Hm5) as Hg7. apply espec_graph. intros g8 Hf8. cbn [em_cf with_cf] in Hf8.
  pose proof (grows_switch _ _ _ _ Hg7 Hf8 Hm3) as Hg8. pose proof (switch_to_spec _ _ _ Hf8) as [Eg8 Ec8].
  assert (extends b b3) as Hx03 by by transitivity b1.
  eapply espec_value_of; [apply (spec_out_of_range info (me_addr entry) b3); [eauto with mir|split; [|split]; eauto with mir]|].
  intros b4 out Hx4 _ Hout. apply espec_new_block. intros throw g9 Hf9. cbn [em_cf with_cf] in Hf9. rewrite !with_cf_self.
  destruct (fresh_grows _ _ _ _ Hg8 Hf9) as [Hg9 Hm9]. assert (extends b b4) as Hx04 by by transitivity b3.
  apply espec_throw; [by apply em_static_cf, (em_static_later us0 protected b)|]. intros b6 g11 Hx6 _ Ht11. cbn [em_cf with_cf] in Ht11.
  pose proof (th_grows _ _ _ _ Ht11 _ Hg9 Hm9) as Hg11.
  eapply spec_weaken; [apply espec_on_cf|]. intros b7 r _ _ (-> & g12 & Hf12 & ->). cbn [em_cf with_cf] in Hf12.
  exists g12. split; [done|]. split; [by apply (grows_switch _ _ _ _ Hg11 Hf12)|]. pose proof (switch_to_spec _ _ _ Hf12) as [Eg12 Ec12].
  intros Ho.
  pose proof (fresh_unfilled _ _ _ Hf1) as Hu1. pose proof (fresh_ne _ _ _ _ _ Hf1 Ho) as Hn0. pose proof (fresh_ne _ _ _ _ _ Hf2 Hu1) as Hn2.
  apply (fresh_keep _ _ _ _ _ Hf2) in Hu1 as Hu2. pose proof (fresh_ne _ _ _ _ _ Hf3 Hu2) as Hn3. apply (fresh_keep _ _ _ _ _ Hf3) in Hu2 as Hu3.
  assert (bb_current g3 = current e) as Hc3 by (by rewrite (fr_current _ _ _ Hf3), (fr_current _ _ _ Hf2), (fr_current _ _ _ Hf1)).
  pose proof (fill_spec _ _ _ _ Hf4) as (_ & _ & Hc4).
  assert (bb_graph g4 !! ev = Some None) as Hu4 by (rewrite (fill_other _ _ _ _ _ Hf4); [done|rewrite Hc3; by apply not_eq_sym]).
  pose proof (fresh_ne _ _ _ _ _ Hf5 Hu4) as Hn5. apply (fresh_keep _ _ _ _ _ Hf5) in Hu4 as Hu5.
  assert (bb_current g5 = ck) as Hc5 by by rewrite (fr_current _ _ _ Hf5).
  assert (bb_graph g8 !! ev = Some None) as Hu8 by (rewrite Eg8; apply (th_keep _ _ _ _ Ht7); [done|by rewrite Hc5|done]).
  pose proof (fresh_ne _ _ _ _ _ Hf9 Hu8) as Hn9. apply (fresh_keep _ _ _ _ _ Hf9) in Hu8 as Hu9.
  assert (bb_current g9 = sok) as Hc9 by by rewrite (fr_current _ _ _ Hf9).
  assert (bb_graph g12 !! ev = Some None) as Hu12 by (rewrite Eg12; apply (th_keep _ _ _ _ Ht11); [done|by rewrite Hc9|done]).
  split; [unfold open; by rewrite Ec12|]. intros Hp HxB m Hprot HE [Hnull Hrange]. rewrite Ec12.
  pose proof (present_graph _ _ _ _ (eq_sym Eg12) Hp) as Hp11.
  destruct (fresh_grows _ _ _ _ (grows_refl g8) Hf9) as [Hg89 Hmthrow].
  pose proof (present_before _ _ _ _ (th_grows _ _ _ _ Ht11 _ Hg89 Hmthrow) Hp11) as Hp8.
  pose proof (present_graph _ _ _ _ (eq_sym Eg8) Hp8) as Hp7.
  destruct (fresh_grows _ _ _ _ (grows_refl g4) Hf5) as [Hg45 Hmnull].
  pose proof (present_before _ _ _ _ (th_grows _ _ _ _ Ht7 _ Hg45 Hmnull) Hp7) as Hp4.
  pose proof (filled_block _ _ _ _ Hf4) as Hb4. rewrite Hc3 in Hb4. pose proof (th_block _ _ _ _ Ht7) as Hb7. rewrite Hc5 in Hb7.
  pose proof (th_block _ _ _ _ Ht11) as Hb11. rewrite Hc9 in Hb11.
  assert (extends b4 B) as Hx4B by by transitivity b6. assert (extends b1 B) as Hx1B by (transitivity b3; [done|by transitivity b4]).
  assert (extends b B) as HxbB by by transitivity b1.
  assert (step (sok, m) (ev, m)) as Hlast.
  { apply (present_step ail apv G B HB g11 _ _ _ _ Hp11 Hb11). cbn [run_block].
    rewrite (den_later _ b4 B), (node_is_den _ _ _ _ Hout HE) by (done || apply Hout). later b.
    by rewrite (proj2 (Z.ltb_ge _ _)). }
  assert (step (current e, m) (if b2z protected_mode =? 0 then sok else ck, m)) as Hfirst.
  { apply (present_step ail apv G B HB g4 _ _ _ _ Hp4 Hb4). cbn [run_block]. rewrite (den_later _ b B); [by rewrite Hprot|done|exact Hvp]. }
  apply (rtc_l _ _ _ _ Hfirst). destruct protected_mode; [|by apply rtc_once]. eapply rtc_l; [|by apply rtc_once].
  apply (present_step ail apv G B HB g7 _ _ _ _ Hp7 Hb7). cbn [run_block].
  rewrite (den_later _ b1 B), (node_is_den _ _ _ _ Hsel HE) by (done || apply Hsel). by rewrite (proj2 (Z.eqb_neq _ _)) by by apply Hnull.
Qed.
(** ** Memory operands *)

Lemma Forall2_arr_get {A C} (R : A -> C -> Prop) l t n x : Forall2 R l t -> arr_get l n = Some x -> exists y, arr_get t n = Some y /\ R x y.
Proof. unfold arr_get. case_match; [done|]. intros Hl Hx. by apply (Forall2_lookup_l _ _ _ _ _ Hl). Qed.
Lemma arr_get_elem {A} (l : list A) n x : arr_get l n = Some x -> x ∈ l.
Proof. unfold arr_get. case_match; [done|]. apply list_elem_of_lookup_2. Qed.
Lemma arr_get_set_eq {A} (l : list A) n x l' : arr_set l n x = Some l' -> arr_get l' n = Some x.
Proof. intros Hl. by rewrite (arr_get_set _ _ _ _ _ Hl), Z.eqb_refl. Qed.
Lemma arr_set_same {A} (l : list A) n x : arr_get l n = Some x -> arr_set l n x = Some l.
Proof.
  unfold arr_get, arr_set. destruct (n <? 0); [done|]. intros Hx. pose proof (lookup_lt_Some _ _ _ Hx) as Hlt.
  rewrite (proj2 (Z.leb_gt _ _)) by lia. by rewrite list_insert_id.
Qed.

Lemma entry_of_static b e index entry : em_static b e -> arr_get (em_memory e) index = Some entry -> entry_valid b entry.
Proof. intros Hs Hi. pose proof (ev_memory b e (st_valid _ _ _ _ Hs)) as Hm. rewrite list.Forall_forall in Hm. by apply Hm, (arr_get_elem _ index). Qed.

Lemma Rel_area b e m (c : Config W) index entry E :
  Rel b e m c -> arr_get (em_memory e) index = Some entry -> agrees (em_next_var e) E m ->
  exists area, arr_get areas index = Some area /\ entry_area protected_mode E b entry area.
Proof. intros HR Hi HE. apply (Forall2_arr_get _ _ _ _ _ (vw_areas _ _ _ _ _ _ _ _ _ _ _ _ _ (rl_view HR E HE)) Hi). Qed.

Lemma Rel_slot b e m (c : Config W) index entry entry' l x mm :
  Rel b e m c -> arr_get (em_memory e) index = Some entry -> same_operand entry entry' -> arr_set (em_memory e) index entry' = Some l ->
  (forall E, agrees (em_next_var e) E m -> den E b (me_value entry') = x) -> inw 128 x -> arr_set (mem (sys c)) index x = Some mm ->
  Rel b (with_memory e l) m (with_sys c (with_mem (sys c) mm)).
Proof.
  intros HR Hi Hsame Hl Hx Hxw Hmm. pose proof HR as [Hm Hc Hk Hres Hw Hst Hvw Hkeys]. split; try done.
  - destruct Hst as [? ? ? ? ? ? Hmem]. split; try done. cbn [with_sys with_mem sys mem]. by apply (Forall_arr_set _ _ _ _ _ Hmem Hxw Hmm).
  - intros E HE. destruct (Hvw E HE) as [[Hus Ht Hmem Hb Hu] H1 H2 H3 H4 H5]. split; try done.
    + split; try done. cbn [with_memory em_memory with_sys with_mem sys mem]. by apply (Forall2_arr_set _ _ _ _ _ _ _ _ Hmem (Hx E HE) Hl Hmm).
    + cbn [with_memory em_memory]. destruct (Forall2_arr_get _ _ _ _ _ H2 Hi) as (a & Ha & Harea).
      apply (Forall2_arr_set _ _ _ index _ a _ _ H2 (entry_area_operand protected_mode E b entry entry' a Hsame Harea) Hl). by apply arr_set_same.
Qed.
Lemma em_static_slot b e index entry' l :
  em_static b e -> entry_valid b entry' -> arr_set (em_memory e) index entry' = Some l -> em_static b (with_memory e l).
Proof. intros [[Hu Ht Hm] Hi Hp] He Hl. split; [|done|done]. split; [done|done|]. by apply (Forall_arr_set _ _ _ _ _ Hm He Hl). Qed.

Lemma slot_shape e index entry entry' l :
  arr_get (em_memory e) index = Some entry -> same_operand entry entry' -> arr_set (em_memory e) index entry' = Some l ->
  same_shape e (with_memory e l).
Proof.
  intros Hi Hsame [_ ->]%arr_set_Some. split; [|done]. cbn [em_memory with_memory]. unfold arr_get in Hi. case_match; [done|].
  apply Forall2_same_length_lookup_2; [by rewrite length_insert|]. intros j x y Hx Hy.
  apply list_lookup_insert_Some in Hy as [(<- & <- & _)|[_ Hy]]; [by assert (x = entry) as -> by congruence|].
  by assert (x = y) as -> by congruence.
Qed.
Lemma espec_get_entry {T} index (k : MemEntry -> em T) e b R :
  (forall m, arr_get (em_memory e) index = Some m -> spec (k m e) b R) -> spec ((m <~~ get_entry index;; k m) e) b R.
Proof.
  intros Hk. unfold ebind, get_entry. eapply (spec_bind _ _ b (fun b' r => b' = b /\ exists m, arr_get (em_memory e) index = Some m /\ r = (m, e))).
  - apply spec_lift. intros m Hm. apply spec_ret. intros _. split; [done|by exists m].
  - intros b' r _ _ (-> & m & Hm & ->). by apply Hk.
Qed.
Lemma espec_set_entry index x e b :
  spec (set_entry index x e) b (fun b' r => b' = b /\ exists l, arr_set (em_memory e) index x = Some l /\ r = (tt, with_memory e l)).
Proof. apply spec_lift. intros l Hl. apply spec_ret. intros _. split; [done|by exists l]. Qed.

(** The segment check of the first access; nothing else changes. *)
Definition checks (index : Z) (entry : MemEntry) (b : ValBuilder) (e : Emitter) (b' : ValBuilder) (e' : Emitter) : Prop :=
  emitted e b' e' /\ em_next_var e' = em_next_var e
  /\ (exists entry', arr_get (em_memory e') index = Some entry' /\ same_operand entry entry')
  /\ (open (em_cf e) -> open (em_cf e') /\ (present (em_cf e') -> extends b' B -> forall m (c : Config W), Rel b e m c ->
       rtc step (current e, m) (current e', m) /\ Rel b' e' m c)).

Lemma first_check_spec index entry e b :
  em_static b e -> arr_get (em_memory e) index = Some entry ->
  spec ((match me_seg_info entry with
         | Some seg_info =>
             if me_segchecked entry then eret tt
             else set_entry index (me_checked entry) ~> emit_memory_segcheck fuel protected us0 metadata entry seg_info
         | None => eret tt
         end) e) b (fun b' r => checks index entry b e b' r.2).
Proof.
  intros Hs Hi. assert (spec (eret tt e) b (fun b' r => checks index entry b e b' r.2)) as Hnone.
  { apply spec_ret. intros _. cbn [snd]. split; [split; [apply grows_refl|done|done|done]|]. split; [done|]. split; [by exists entry|].
    intros Ho. split; [done|]. intros _ _ m c HR. by split. }
  destruct (me_seg_info entry) as [info|] eqn:Einfo; [|done]. destruct (me_segchecked entry); [done|]. clear Hnone.
  pose proof (entry_of_static b e index entry Hs Hi) as Hev.
  eapply espec_bind; [apply espec_set_entry|]. intros b1 u e1 _ _ (-> & l & Hl & E). injection E as _ ->.
  assert (em_static b (with_memory e l)) as Hs1 by by apply (em_static_slot b e index (me_checked entry)).
  eapply spec_weaken; [by apply (emit_segcheck_spec entry info _ b Hs1)|]. intros b2 r Hx2 _ (g & -> & Hg & Hsim). cbn [snd em_cf with_memory with_cf] in *.
  split; [split; [done|done|by apply em_static_cf, (em_static_later us0 protected b)|]|].
  { pose proof (slot_shape e index entry (me_checked entry) l Hi ltac:(by split) Hl) as [? ?]. by split. } split; [done|]. split.
  { exists (me_checked entry). split; [by apply (arr_get_set_eq (em_memory e) index)|done]. }
  intros Ho. destruct (Hsim Ho) as [Ho' Hrun]. split; [done|]. intros Hp HxB m c HR.
  pose proof (agrees_self ail apv Hail Hapv (em_next_var e) m (rl_machine HR)) as HE.
  destruct (Rel_area b e m c index entry _ HR Hi HE) as (a & _ & _ & Hpass). split.
  - apply (Hrun Hp HxB m); [apply (rl_view HR _ HE)|apply HE|by apply Hpass].
  - apply Rel_cf, (rel_later b); [done|done|]. pose proof (rl_view HR _ HE) as Hvw. destruct (Forall2_arr_get _ _ _ _ _ (er_memory _ _ _ _ _ _ (vw_repr _ _ _ _ _ _ _ _ _ _ _ _ _ Hvw)) Hi) as (x & Hx & Hdx).
    replace c with (with_sys c (with_mem (sys c) (mem (sys c)))) by (by destruct c as [[] ? ?]).
    apply (Rel_slot b e m c index entry (me_checked entry) l x); [done|done|done|done| | |by apply arr_set_same].
    + intros E HE'. pose proof (rl_view HR _ HE') as Hvw'.
      destruct (Forall2_arr_get _ _ _ _ _ (er_memory _ _ _ _ _ _ (vw_repr _ _ _ _ _ _ _ _ _ _ _ _ _ Hvw')) Hi) as (x' & Hx' & <-). cbn. congruence.
    + pose proof (es_mem _ _ _ _ (rl_state HR)) as Hmem. rewrite list.Forall_forall in Hmem. by apply Hmem, (arr_get_elem _ index).
Qed.
Lemma Rel_addr b e m (c : Config W) index entry b' :
  em_static b e -> Rel b e m c -> arr_get (em_memory e) index = Some entry -> extends b b' -> extends b' B ->
  arr_get areas index = Some (Protected (wrap 32 (den (env m) B (me_addr entry))) (me_num_bytes entry)).
Proof.
  intros Hs HR Hi Hx HxB. pose proof (agrees_self ail apv Hail Hapv (em_next_var e) m (rl_machine HR)) as HE.
  destruct (Rel_area b e m c index entry _ HR Hi HE) as (a & Ha & -> & _). rewrite Ha. do 3 f_equal. symmetry.
  apply den_later; [by transitivity b'|]. by destruct (entry_of_static b e index entry Hs Hi) as (_ & ? & _).
Qed.

Lemma compiled_read_memory index : compiled (exec_guarded (ReadMemory index)) (emit_command (ReadMemory index)).
Proof.
  intros last e b Hs. cbn [emit_cmd]. unfold emit_read_memory. apply espec_get_entry. intros entry Hi.
  eapply espec_bind; [by apply first_check_spec|]. intros b1 u e1 Hx1 _ (He1 & Hnv1 & (entry1 & Hi1 & Hsame) & Hchk). cbn [snd] in *.
  pose proof (ed_static _ _ _ He1) as Hs1. destruct Hsame as (Haddr & Hseg & Hnb). rewrite <- Haddr, <- Hnb.
  apply espec_alloc. apply espec_lift. intros n [-> Hlen]%u8_of_Some. set (nv := em_next_var e1).
  eapply espec_bind; [apply (emit_fallible_sim [nv] (fun v : Z => [v]) _ e1 (nv + 1)); [done|done|unfold nv; lia|repeat constructor; unfold nv; lia|apply NoDup_singleton]|].
  intros b2 u' e2 Hx2 _ (g & E & Hg & Hsim). injection E as _ ->.
  apply espec_use_var. intros b3 vid Hx3 _ [Hvv Hvd]. assert (extends b1 b3) as Hx13 by by transitivity b2.
  apply espec_get_entry. intros entry2 Hi2. cbn [em_memory with_cf with_next_var] in Hi2. assert (entry2 = entry1) as -> by congruence.
  assert (em_static b3 e1) as Hs3 by by apply (em_static_later us0 protected b1).
  eapply spec_weaken; [apply espec_set_entry|]. intros b4 r _ _ (-> & l & Hl & ->). cbn [snd em_memory with_cf with_next_var] in *.
  set (entry' := me_with_var entry1 nv vid) in *.
  assert (em_static b3 (with_memory (with_cf (with_next_var e1 (nv + 1)) g) l)) as Hs4.
  { apply (em_static_slot b3 _ index entry'); [by apply em_static_cf, em_static_next_var| |done].
    destruct (entry_of_static b3 e1 index entry1 Hs3 Hi1) as (_ & Ha & Hsi). by split. }
  split; [apply (emitted_trans e b1 e1); [done|split; [done|cbn; unfold nv; lia|done|]]|].
  { pose proof (slot_shape e1 index entry1 entry' l Hi1 ltac:(by split) Hl) as [? ?]. by split. }
  intros Ho Hp HxB m c res c' HR Hex. destruct (Hchk Ho) as [Ho1 Hcheck]. cbn [em_cf with_memory with_cf with_next_var] in Hp.
  apply exec_guarded_body in Hex as [Hgd%guard_context Hex]. cbn [guarded_body exec_cmd] in Hex.
  assert (extends b2 B) as Hx2B by by transitivity b3. assert (extends b1 B) as Hx1B by by transitivity b2.
  destruct (Hcheck (present_before _ _ _ _ Hg Hp) Hx1B m c HR) as [Hsteps HR1].
  unfold cbind, clift, get_cpu, on_world in Hex. rewrite (Rel_addr b1 e1 m c index entry1 b1 Hs1 HR1 Hi1) in Hex by done.
  cbn [mbind option_bind] in Hex. rewrite <- (userspace_same _ _ Hgd) in Hex.
  destruct (read_from_mem_as_u128 _ _ _) as [[r' w]|] eqn:Erd; [|done]. cbn [mbind option_bind fst snd] in Hex.
  destruct (Hsim Ho1) as [Ho' Hrun]. match type of Erd with ?f _ = _ => pose proof (Hrun Hp Hx2B f m c r' w HR1) as Hpost end.
  specialize (Hpost ltac:(cbn [run_fallible]; by rewrite (rl_cpu HR1)) Erd). apply (post_step _ _ _ _ _ _ _ Hsteps).
  destruct r' as [v|ex]; [|by injection Hex as <- <-].
  pose proof (mem_value_inw _ _ _ _ _ Erd) as Hvw.
  destruct Hpost as (m' & Hstep & HR' & Hvars); [by apply List.Forall_cons|done|].
  unfold set_slot in Hex. destruct (arr_set _ index v) as [mm|] eqn:Emm; [|done]. injection Hex as <- <-.
  left. exists m'. split; [by apply rtc_once|]. split; [|done].
  apply (Rel_slot b3 _ m' (with_world c w) index entry1 entry' l v); [|done|done|done| |done|done].
  - apply (rel_later b1); [done|by apply em_static_cf, em_static_next_var|done].
  - intros E HE. cbn [entry' me_with_var me_value]. rewrite Hvd by apply HE. rewrite (ag_vars _ _ _ _ _ HE) by (cbn; unfold nv; lia).
    by apply (Hvars 0%nat).
Qed.

Lemma compiled_write_memory index : compiled (exec_guarded (WriteMemory index)) (emit_command (WriteMemory index)).
Proof.
  intros last e b Hs. cbn [emit_cmd]. unfold emit_write_memory. apply espec_get_entry. intros entry Hi.
  destruct (me_needs_write entry); [|by intros ? ? ?]. apply espec_lift. intros n [-> Hlen]%u8_of_Some.
  eapply spec_weaken; [apply (emit_fallible_sim [] (fun _ : unit => []) _ e (em_next_var e)); [done|apply with_next_var_self|done|constructor|constructor]|].
  intros b1 r Hx1 _ (g & -> & Hg & Hsim). cbn [snd]. assert (em_static b1 e) as Hs1 by by apply (em_static_later us0 protected b).
  split; [by apply emitted_cf|]. intros Ho Hp HxB m c res c' HR Hex. apply exec_guarded_body in Hex as [Hgd%guard_context Hex]. cbn [guarded_body exec_cmd] in Hex.
  unfold cbind, clift, get_cpu, get_slot, on_world in Hex. rewrite (Rel_addr b e m c index entry b1 Hs HR Hi) in Hex by done.
  cbn [mbind option_bind] in Hex. rewrite <- (userspace_same _ _ Hgd) in Hex.
  pose proof (agrees_self ail apv Hail Hapv (em_next_var e) m (rl_machine HR)) as HE. pose proof (rl_view HR _ HE) as Hvw.
  destruct (Forall2_arr_get _ _ _ _ _ (er_memory _ _ _ _ _ _ (vw_repr _ _ _ _ _ _ _ _ _ _ _ _ _ Hvw)) Hi) as (x & Hx & Hdx).
  rewrite Hx in Hex. cbn [mbind option_bind] in Hex.
  destruct (write_u128_to_mem _ _ _ _) as [[r w]|] eqn:Ewr; [|done]. cbn [mbind option_bind fst snd] in Hex.
  destruct (Hsim Ho) as [Ho' Hrun]. match type of Ewr with ?f _ = _ => pose proof (Hrun Hp HxB f m c r w HR) as Hpost end.
  assert (den (env m) B (me_value entry) = x) as Hval.
  { rewrite <- Hdx. apply den_later; [by transitivity b1|]. by destruct (entry_of_static b e index entry Hs Hi). }
  specialize (Hpost ltac:(cbn [run_fallible]; by rewrite (rl_cpu HR), Hval) Ewr).
  destruct r as [[]|ex]; injection Hex as <- <-; [|done].
  destruct Hpost as (m' & Hstep & HR' & _); [constructor|done|].
  left. exists m'. split; [by apply rtc_once|]. split; [|done]. by apply (rel_later b); [|apply em_static_cf, em_static_next_var|].
Qed.
(** ** Sequences and branches *)

Definition is_nil {A} (l : list A) : bool := match l with [] => true | _ => false end.

Lemma compiled_list l :
  Forall (fun c => compiled (exec_guarded c) (emit_command c)) l -> compiled (run_cmds exec_guarded l) (emit_list emit_command l).
Proof.
  intros Hl. induction Hl as [|c l Hc Hl IH]; intros last e b Hs.
  { apply spec_ret. intros _. cbn [snd]. split; [split; [apply grows_refl|done|done|done]|].
    intros Ho Hp HxB m c r c' HR [= <- <-]. left. exists m. by split. }
  cbn [emit_list]. fold (is_nil l). eapply espec_bind; [by apply Hc|]. intros b1 u e1 Hx1 _ [He1 Hsim1]. cbn [snd] in *.
  eapply spec_weaken; [apply IH, He1|]. intros b2 r Hx2 _ [He2 Hsim2]. split; [by apply (emitted_trans e b1 e1)|].
  intros Ho Hp HxB m c0 r0 c' HR Hex. cbn [run_cmds] in Hex. unfold cbind in Hex.
  pose proof (present_before _ _ _ _ (ed_grows _ _ _ He2) Hp) as Hp1. assert (extends b1 B) as Hx1B by by transitivity b2.
  destruct (exec_guarded c c0) as [[r1 c1]|] eqn:Ec; [|done]. pose proof (Hsim1 Ho Hp1 Hx1B m c0 r1 c1 HR Ec) as Hpost1.
  assert (r1 = Ok ROk \/ r1 <> Ok ROk) as [->|Hr1] by (destruct r1 as [[]|]; first [by left|by right]).
  - destruct Hpost1 as [(m' & Hsteps & HR1 & Ho1)|[Hlast Hleft]].
    + apply (post_step _ _ _ _ _ _ _ Hsteps). by apply (Hsim2 Ho1 Hp HxB m' c1).
    + destruct l as [|c2 l]; [|by rewrite andb_false_r in Hlast]. injection Hex as <- <-. right.
      rewrite andb_true_r in Hlast. by split.
  - destruct r1 as [[|id args]|ex]; [done| |]; injection Hex as <- <-; by apply (post_left _ last _ _ _ b2 (r.2) _ _ Hr1) in Hpost1.
Qed.

(** Code after which nothing runs. *)
Definition never_ok (f : cmdM ExecResult) : Prop := forall k r k', f k = Some (r, k') -> r <> Ok ROk.

Lemma run_never_ok l : Exists (fun c => never_ok (exec_guarded c)) l -> never_ok (run_cmds exec_guarded l).
Proof.
  induction 1 as [c l Hc|c l Hl IH]; intros k r k' Hex; cbn [run_cmds] in Hex; unfold cbind in Hex;
    destruct (exec_guarded c k) as [[[[|id args]|ex] k1]|] eqn:Ec; try done; try (by injection Hex as <- <-).
  - by destruct (Hc k _ k1 Ec).
  - by apply (IH k1 r k').
Qed.

Lemma terminating_never_ok c : always_terminates c = true -> never_ok (exec_guarded c).
Proof.
  assert (forall l, Forall (fun c => always_terminates c = true -> never_ok (exec_guarded c)) l -> existsb always_terminates l = true ->
    never_ok (run_cmds exec_guarded l)) as Hrun.
  { intros l Hl Hex. apply run_never_ok. apply existsb_exists in Hex as (c' & Hin%list_elem_of_In & Hc').
    apply list.Exists_exists. exists c'. split; [done|]. rewrite list.Forall_forall in Hl. by apply Hl. }
  induction c as [to op|regs i v sz|regs i v sz| |id args|v z nz IHz IHnz|ex code|fo se ok ba li ar ma|len p d|len p d|i|i] using Cmd_ind';
    try done; intros Ht k r k' [_ Hex]%exec_guarded_body; cbn [guarded_body exec_cmd] in Hex.
  - unfold cbind at 1, clift in Hex. destruct (assert _) as [[]|]; [|done]. cbn [mbind option_bind] in Hex.
    unfold cbind at 1 in Hex. fold (command_arguments args k) in Hex. destruct (command_arguments args k) as [[[vals|ex] k1]|]; cbv beta iota delta [cret] in Hex; by simplify_eq.
  - cbn [always_terminates] in Ht. apply andb_prop in Ht as [Hz Hnz]. unfold cbind, ceval in Hex.
    destruct (val_eval _ _ v) as [x|]; [|done]. cbn [mbind option_bind] in Hex. destruct (negb (x =? 0)); [exact (Hrun nz IHnz Hnz k r k' Hex)|exact (Hrun z IHz Hz k r k' Hex)].
  - unfold cbind, ceval, clift in Hex. destruct (val_eval _ _ code) as [x|]; [|done]. cbn [mbind option_bind] in Hex.
    destruct (with_code_from_u32 _ _); [|done]. by injection Hex as <- <-.
Qed.

Lemma all_paths_never_ok l : all_paths_terminate l = true -> never_ok (run_cmds exec_guarded l).
Proof.
  intros Hex. apply run_never_ok. apply existsb_exists in Hex as (c' & Hin%list_elem_of_In & Hc').
  apply list.Exists_exists. exists c'. split; [done|by apply terminating_never_ok].
Qed.
Lemma espec_terminated {T} (k : bool -> em T) e b R :
  (forall t, block_is_terminated (em_cf e) = Some t -> spec (k t e) b R) -> spec ((t <~~ is_terminated;; k t) e) b R.
Proof.
  intros Hk. unfold ebind, is_terminated. eapply (spec_bind _ _ b (fun b' r => b' = b /\ exists t, block_is_terminated (em_cf e) = Some t /\ r = (t, e))).
  - apply spec_lift. intros t Ht. apply spec_ret. intros _. split; [done|by exists t].
  - intros b' r _ _ (-> & t & Ht & ->). by apply Hk.
Qed.
Lemma open_terminated g : open g -> block_is_terminated g = Some false.
Proof. intros Ho. unfold block_is_terminated. by rewrite Ho. Qed.
Lemma terminated_open g t : block_is_terminated g = Some t -> open g -> t = false.
Proof. intros Ht Ho%open_terminated. congruence. Qed.
Lemma switch_terminated next g g' : switch_to next g = Some g' -> ~ open g.
Proof. intros Hs Ho%open_terminated. unfold switch_to in Hs. by rewrite Ho in Hs. Qed.

Abbreviation finish_branch := (end_branch fuel (Some il) (Some pv) enc is_cs32 metadata).

Lemma end_branch_spec e b :
  em_static b e ->
  spec (finish_branch e) b (fun b' r => emitted e b' r.2 /\ (open (em_cf e) -> present (em_cf r.2) -> extends b' B ->
    forall m (c : Config W), Rel b e m c -> leaves_with true (current e, m) c res0)).
Proof.
  intros Hs. unfold end_branch. apply espec_terminated. intros [|] Ht.
  - apply (spec_weaken _ b (fun b' r => b' = b /\ r = (tt, e))).
    + unfold ebind at 1, eret at 1. eapply spec_bind; [by apply (spec_ret _ b (fun b' r => b' = b /\ r = (None, e)))|].
      intros b' r _ _ [-> ->]. cbn [fst snd]. unfold terminate_block_if_needed. apply espec_terminated. intros t Ht'.
      assert (t = true) as -> by congruence. by apply spec_ret.
    + intros b' r _ _ [-> ->]. cbn [snd]. split; [split; [apply grows_refl|done|done|done]|]. intros Ho. by apply (terminated_open _ _ Ht) in Ho.
  - eapply spec_weaken; [apply (leave_spec true); [done|]|].
    + intros lj e' E. unfold terminate_block_if_needed, ebind, is_terminated. rewrite E, Ht. done.
    + intros b' r _ _ [He Hsim]. split; [done|]. intros Ho Hp HxB m c HR. by apply Hsim.
Qed.
(** ** Conditionals *)

(** Emission goes on in another block, from the state before a branch. *)
Lemma emitted_restored b e e3 e5 g g3 n :
  em_static b e -> e3 = with_cf e g3 -> emitted e3 b e5 -> grows (em_cf e) g3 -> mine (em_cf e) n -> switch_to n (em_cf e5) = Some g ->
  emitted e b (with_cf (restored e3 e5) g).
Proof.
  intros Hs -> [Hg Hn _ Hsh] Hg3 Hm Hsw. cbn [em_cf with_cf] in *. split; cbn [em_cf with_cf restored em_next_var] in *.
  - apply (grows_switch _ n (em_cf e5)); [by apply (grows_trans _ g3)|done|done].
  - done.
  - apply em_static_cf, restored_static; [by apply em_static_cf|done].
  - destruct (restored_shape _ _ Hsh) as [H1 H2]. by split.
Qed.

Lemma espec_backup_restore {T} e0 (k : unit -> em T) e b R :
  spec (k tt (restored e0 e)) b R -> spec ((u <~~ backup_restore (backup_of e0);; k u) e) b R.
Proof. done. Qed.
Lemma espec_backup_make {T} (k : Backup -> em T) e b R : spec (k (backup_of e) e) b R -> spec ((x <~~ backup_make;; k x) e) b R.
Proof. done. Qed.

(** A branch between two blocks that are still empty. *)
Record fork (cond : ValId) (zb nzb : BbId) (g0 g : BbBuilder) : Prop := {
  fk_z : bb_graph g !! zb = Some None;
  fk_nz : bb_graph g !! nzb = Some None;
  fk_ne : zb <> nzb;
  fk_block : bb_graph g !! bb_current g0 = Some (Some (BBr cond zb nzb));
}.
Record forking (cond : ValId) (zb nzb : BbId) (g0 g : BbBuilder) : Prop := {
  fg_grows : grows g0 g;
  fg_z : mine g0 zb;
  fg_nz : mine g0 nzb;
  fg_fork : open g0 -> fork cond zb nzb g0 g;
}.

Lemma write_fork cond zb nzb g0 g1 g2 g2' next g :
  fresh g0 zb g1 -> fresh g1 nzb g2 -> grows g2 g2' -> bb_current g2' = bb_current g2 ->
  (open g2 -> open g2') -> (forall i, i <> bb_current g2 -> bb_graph g2 !! i = Some None -> bb_graph g2' !! i = Some None) ->
  (next = zb \/ next = nzb) -> write_and_switch_to (BBr cond zb nzb) next g2' = Some g -> forking cond zb nzb g0 g.
Proof.
  intros Hf1 Hf2 Hg2' Hc2' Ho2 Hkeep Hnext Hf. destruct (fresh_grows _ _ _ _ (grows_refl _) Hf1) as [Hg1 Hm1].
  destruct (fresh_grows _ _ _ _ Hg1 Hf2) as [Hg2 Hm2]. pose proof (grows_trans _ _ _ Hg2 Hg2') as Hg02.
  split; [|done|done|].
  - apply (grows_fill _ _ _ _ _ Hg02 Hf). by destruct Hnext as [-> | ->].
  - intros Ho. pose proof (fresh_unfilled _ _ _ Hf1) as Hu1. pose proof (fresh_ne _ _ _ _ _ Hf2 Hu1) as Hne.
    pose proof (fresh_ne _ _ _ _ _ Hf1 Ho) as Hn0. apply (fresh_keep _ _ _ _ _ Hf1) in Ho as Ho1. pose proof (fresh_ne _ _ _ _ _ Hf2 Ho1) as Hn1.
    assert (bb_current g2 = bb_current g0) as Hc2 by by rewrite (fr_current _ _ _ Hf2), (fr_current _ _ _ Hf1).
    split; [| |done|].
    + rewrite (fill_other _ _ _ _ _ Hf) by (rewrite Hc2', Hc2; by apply not_eq_sym). apply Hkeep; [rewrite Hc2; by apply not_eq_sym|].
      by apply (fresh_keep _ _ _ _ _ Hf2).
    + rewrite (fill_other _ _ _ _ _ Hf) by (rewrite Hc2', Hc2; by apply not_eq_sym). apply Hkeep; [rewrite Hc2; by apply not_eq_sym|].
      by apply (fresh_unfilled _ _ _ Hf2).
    + rewrite <- Hc2, <- Hc2'. by apply (filled_block _ _ _ _ Hf).
Qed.

Lemma fork_step cond zb nzb g0 g m (x : Z) :
  fork cond zb nzb g0 g -> present g -> den (env m) B cond = x ->
  step (bb_current g0, m) (if x =? 0 then zb else nzb, m).
Proof. intros Hf Hp <-. by apply (present_step ail apv G B HB g _ _ _ _ Hp (fk_block _ _ _ _ _ Hf)). Qed.

(** What the code of a branch guarantees. *)
Definition branch_ok (last : bool) (f : cmdM ExecResult) (emit : em unit) : Prop :=
  forall e b, em_static b e -> spec (emit e) b (fun b' r => emitted e b' r.2 /\ simulates f last b e b' r.2).
Definition runs_if (cond : ValId) (fz fnz : cmdM ExecResult) (last : bool) (b : ValBuilder) (e : Emitter) (b' : ValBuilder) (e' : Emitter) : Prop :=
  emitted e b' e' /\ (open (em_cf e) -> present (em_cf e') -> extends b' B -> forall m (c : Config W) x r c',
    Rel b e m c -> den (env m) B cond = x -> (if x =? 0 then fz else fnz) c = Some (r, c') -> post last (current e, m) b' e' r c').

(** A branch, and the end of the instruction. *)
Definition ended (last : bool) (f : cmdM ExecResult) (b : ValBuilder) (e : Emitter) (b' : ValBuilder) (e' : Emitter) : Prop :=
  emitted e b' e' /\ (open (em_cf e) -> present (em_cf e') -> extends b' B -> forall m (c : Config W) r0 c' b2 e2,
    Rel b e m c -> f c = Some (r0, c') -> post last (current e, m) b2 e2 r0 c').
Lemma espec_ended {T} last f (emit : em unit) (k : unit -> em T) e b R :
  branch_ok last f emit -> (last = false -> never_ok f) -> em_static b e ->
  (forall b' e', extends b b' -> wf b' -> ended last f b e b' e' -> spec (k tt e') b' R) ->
  spec ((u <~~ emit;; u' <~~ finish_branch;; k u') e) b R.
Proof.
  intros Hf Hnever Hs Hk. eapply espec_bind; [by apply Hf|]. intros b1 u e1 Hx1 _ [He1 Hsim1]. cbn [snd] in *.
  eapply espec_bind; [apply end_branch_spec, He1|]. intros b2 [] e2 Hx2 Hb2 [He2 Hsim2]. cbn [snd] in *.
  apply Hk; [by transitivity b1|done|]. split; [by apply (emitted_trans e b1 e1)|].
  intros Ho Hp HxB m c r0 c' b3 e3 HR Hex. pose proof (present_before _ _ _ _ (ed_grows _ _ _ He2) Hp) as Hp1.
  assert (extends b1 B) as Hx1B by by transitivity b2. pose proof (Hsim1 Ho Hp1 Hx1B m c r0 c' HR Hex) as Hpost.
  destruct r0 as [[|id args]|ex]; [|done|done]. destruct Hpost as [(m' & Hsteps & HR1 & Ho1)|[Hl Hleft]]; right; [|by split].
  split; [destruct last; [done|]; by destruct (Hnever eq_refl _ _ _ Hex)|].
  apply (leaves_with_step _ _ _ _ _ Hsteps). by apply (Hsim2 Ho1 Hp HxB).
Qed.

Lemma emit_ended_spec cond zb nzb g3 last fz fnz (ez enz : em unit) e b :
  branch_ok last fz ez -> branch_ok last fnz enz -> (last = false -> never_ok fz /\ never_ok fnz) -> em_static b e ->
  forking cond zb nzb (em_cf e) g3 -> bb_current g3 = zb ->
  spec ((before <~~ backup_make;; ez ~> finish_branch ~> backup_restore before ~> on_cf (switch_to nzb) ~> enz ~> finish_branch ~>
         (after_if_block <~~ new_block;; on_cf (switch_to after_if_block))) (with_cf e g3)) b
    (fun b' r => runs_if cond fz fnz last b e b' r.2).
Proof.
  intros Hz Hnz Hnever Hs [Hg3 Hmz Hmnz Hfork] Hc3. apply espec_backup_make.
  apply (espec_ended last fz); [done|by intros [? ?]%Hnever|by apply em_static_cf|]. intros b1 e1 Hx1 _ [He1 Hsim1].
  apply espec_backup_restore. apply espec_graph. intros g2 Hg2. cbn [em_cf restored] in Hg2.
  assert (em_static b1 e) as Hs1 by by apply (em_static_later us0 protected b).
  pose proof (emitted_restored b1 e _ e1 g2 g3 nzb Hs1 eq_refl He1 Hg3 Hmnz Hg2) as He2.
  set (e2 := with_cf (restored (with_cf e g3) e1) g2) in *.
  apply (espec_ended last fnz); [done|by intros [? ?]%Hnever|apply He2|]. intros b3 e3 Hx3 _ [He3 Hsim3].
  apply espec_new_block. intros after g4 Hf4. destruct (fresh_grows _ _ _ _ (grows_refl _) Hf4) as [Hg4 Hm4].
  eapply spec_weaken; [apply espec_on_cf|]. intros b' r _ _ (-> & g5 & Hg5 & ->). cbn [snd em_cf with_cf] in *.
  pose proof (grows_switch _ _ _ _ Hg4 Hg5 Hm4) as Hg35. rewrite with_cf_self.
  assert (emitted e b3 (with_cf e3 g5)) as He5.
  { apply (emitted_trans e b1 e2); [done|]. apply (emitted_trans e2 b3 e3); [done|]. apply emitted_graph; [apply He3|done]. }
  split; [done|]. intros Ho Hp HxB m c x r c' HR Hcond Hex.
  assert (extends b1 B) as Hx1B by by transitivity b3.
  pose proof (present_before _ _ _ _ Hg35 Hp) as Hp3. pose proof (present_before _ _ _ _ (ed_grows _ _ _ He3) Hp3) as Hp2.
  destruct (switch_to_spec _ _ _ Hg2) as [Egraph Ec2]. pose proof (present_graph _ _ _ _ (eq_sym Egraph) Hp2) as Hp1.
  pose proof (present_before _ _ _ _ (ed_grows _ _ _ He1) Hp1) as Hpg3. pose proof (Hfork Ho) as Hfk.
  pose proof (fork_step cond zb nzb _ g3 m x Hfk Hpg3 Hcond) as Hstep. apply (post_step _ _ _ _ _ _ _ (rtc_once _ _ Hstep)).
  assert (Rel b (with_cf e g3) m c) as HR3 by by apply Rel_cf.
  destruct (x =? 0).
  - assert (open g3) as Ho3 by (unfold open; rewrite Hc3; apply Hfk). rewrite <- Hc3. by apply (Hsim1 Ho3 Hp1 Hx1B m c).
  - rewrite <- Ec2. assert (open (em_cf e2)) as Ho2.
    { unfold open. cbn [em_cf e2 with_cf]. rewrite Ec2, Egraph. apply (grows_unfilled _ _ _ (ed_grows _ _ _ He1)); [apply Hfk|].
      cbn [em_cf with_cf]. rewrite Hc3. apply not_eq_sym, Hfk. }
    apply (Hsim3 Ho2 Hp3 HxB m c); [|done].
    apply Rel_cf, Rel_restored; [|apply He1|apply He1]. apply (rel_later b); [done|by apply em_static_cf|done].
Qed.
Lemma emit_one_sided_spec cond zb nzb g3 (side : bool) fz fnz (ez enz : em unit) e b :
  branch_ok false fz ez -> branch_ok false fnz enz -> em_static b e ->
  forking cond zb nzb (em_cf e) g3 -> bb_current g3 = (if side then zb else nzb) ->
  spec (emit_one_sided (if side then ez else enz) (if side then enz else ez) (if side then nzb else zb) (with_cf e g3)) b
    (fun b' r => runs_if cond fz fnz false b e b' r.2).
Proof.
  intros Hz Hnz Hs [Hg3 Hmz Hmnz Hfork] Hc3. unfold emit_one_sided. apply espec_backup_make.
  set (tb := if side then zb else nzb) in *. set (cb := if side then nzb else zb).
  set (ft := if side then fz else fnz). set (fc := if side then fnz else fz).
  assert (branch_ok false ft (if side then ez else enz)) as Ht by by destruct side.
  assert (branch_ok false fc (if side then enz else ez)) as Hcont by by destruct side.
  assert (mine (em_cf e) cb) as Hmc by by destruct side.
  eapply espec_bind; [by apply Ht, em_static_cf|]. intros b1 u e1 Hx1 _ [He1 Hsim1]. cbn [snd] in *.
  apply espec_backup_restore. apply espec_graph. intros g2 Hg2. cbn [em_cf restored] in Hg2.
  assert (em_static b1 e) as Hs1 by by apply (em_static_later us0 protected b).
  pose proof (emitted_restored b1 e _ e1 g2 g3 cb Hs1 eq_refl He1 Hg3 Hmc Hg2) as He2.
  set (e2 := with_cf (restored (with_cf e g3) e1) g2) in *.
  eapply espec_bind; [apply Hcont, He2|]. intros b3 u' e3 Hx3 _ [He3 Hsim3]. cbn [snd] in *.
  apply espec_terminated. intros t Ht3. eapply (spec_weaken _ b3 (fun b' r => b' = b3 /\ r = (tt, e3))).
  { unfold elift. apply spec_lift. intros [] _. by apply spec_ret. }
  intros b' r _ _ [-> ->]. cbn [snd]. split; [by apply (emitted_trans e b1 e2)|].
  intros Ho Hp3 HxB m c x r c' HR Hcond Hex.
  assert (extends b1 B) as Hx1B by by transitivity b3. pose proof (present_before _ _ _ _ (ed_grows _ _ _ He3) Hp3) as Hp2.
  destruct (switch_to_spec _ _ _ Hg2) as [Egraph Ec2]. pose proof (present_graph _ _ _ _ (eq_sym Egraph) Hp2) as Hp1.
  pose proof (present_before _ _ _ _ (ed_grows _ _ _ He1) Hp1) as Hpg3. pose proof (Hfork Ho) as Hfk.
  pose proof (fork_step cond zb nzb _ g3 m x Hfk Hpg3 Hcond) as Hstep. apply (post_step _ _ _ _ _ _ _ (rtc_once _ _ Hstep)).
  assert (Rel b (with_cf e g3) m c) as HR3 by by apply Rel_cf.
  assert (open g3) as Ho3 by (unfold open; rewrite Hc3; destruct side; apply Hfk).
  assert ((if x =? 0 then zb else nzb) = (if bool_decide ((x =? 0) = side) then tb else cb)
    /\ (if x =? 0 then fz else fnz) = (if bool_decide ((x =? 0) = side) then ft else fc)) as [Eb Ef] by by destruct (x =? 0), side.
  rewrite Eb. rewrite Ef in Hex. destruct (bool_decide _).
  - rewrite <- Hc3. pose proof (Hsim1 Ho3 Hp1 Hx1B m c r c' HR3 Hex) as Hpost. destruct r as [[|id args]|ex]; [|done|done].
    exfalso. destruct Hpost as [(m' & _ & _ & Ho1)|[? _]]; [by apply (switch_terminated _ _ _ Hg2)|done].
  - rewrite <- Ec2. assert (open (em_cf e2)) as Ho2.
    { unfold open. cbn [em_cf e2 with_cf]. rewrite Ec2, Egraph. apply (grows_unfilled _ _ _ (ed_grows _ _ _ He1)); [destruct side; apply Hfk|].
      cbn [em_cf with_cf]. rewrite Hc3. destruct side; [apply not_eq_sym|]; apply Hfk. }
    apply (Hsim3 Ho2 Hp3 HxB m c); [|done].
    apply Rel_cf, Rel_restored; [|apply He1|apply He1]. apply (rel_later b); [done|by apply em_static_cf|done].
Qed.
(** A branch whose code jumps to [target] at its end. *)
Record branched (next target : BbId) (f : cmdM ExecResult) (b : ValBuilder) (e : Emitter) (b' : ValBuilder) (e' : Emitter) : Prop := {
  br_static : em_static b' e';
  br_shape : same_shape e e';
  br_next_var : em_next_var e <= em_next_var e';
  br_current : current e' = next;
  br_grows : forall g0, grows g0 (em_cf e) -> mine g0 next -> grows g0 (em_cf e');
  br_filled : forall i bb, bb_graph (em_cf e) !! i = Some (Some bb) -> bb_graph (em_cf e') !! i = Some (Some bb);
  br_unfilled : forall i, bb_graph (em_cf e) !! i = Some None -> i <> current e -> bb_graph (em_cf e') !! i = Some None;
  br_runs : open (em_cf e) -> present (em_cf e') -> extends b' B -> forall m (c : Config W) r c',
    Rel b e m c -> f c = Some (r, c') ->
    match r with
    | Ok ROk => exists m', rtc step (current e, m) (target, m') /\ Rel b' e' m' c'
    | _ => forall last b2 e2, post last (current e, m) b2 e2 r c'
    end;
}.

Lemma espec_branched {T} next target f (emit : em unit) (k : unit -> em T) e b R :
  branch_ok false f emit -> em_static b e ->
  (forall b' e', extends b b' -> wf b' -> branched next target f b e b' e' -> spec (k tt e') b' R) ->
  spec ((u <~~ emit;; t <~~ is_terminated;;
         u' <~~ on_cf (if t : bool then switch_to next else write_and_switch_to (BJump target) next);; k u') e) b R.
Proof.
  intros Hf Hs Hk. eapply espec_bind; [by apply Hf|]. intros b1 u e1 Hx1 Hb1 [He1 Hsim1]. cbn [snd] in *.
  apply espec_terminated. intros t Ht. apply espec_graph. intros g' Hg'. apply Hk; [done|done|].
  pose proof (ed_grows _ _ _ He1) as Hgr.
  assert (bb_current g' = next /\ (forall g0, grows g0 (em_cf e1) -> mine g0 next -> grows g0 g')
    /\ (forall i, i <> current e1 -> bb_graph g' !! i = bb_graph (em_cf e1) !! i)
    /\ (forall i bb, bb_graph (em_cf e1) !! i = Some (Some bb) -> bb_graph g' !! i = Some (Some bb))) as (Hc & Hg & Hother & Hfill).
  { destruct t.
    - destruct (switch_to_spec _ _ _ Hg') as [E Hc]. rewrite E. split; [done|]. split; [intros g0 H1 H2; by apply (grows_switch _ _ _ _ H1 Hg')|]. done.
    - destruct (fill_spec _ _ _ _ Hg') as (_ & _ & Hc). split; [done|]. split; [intros g0 H1 H2; by apply (grows_fill _ _ _ _ _ H1 Hg')|].
      split; [intros i; by apply (fill_other _ _ _ _ _ Hg')|]. intros i bb Hi. rewrite (fill_other _ _ _ _ _ Hg'); [done|]. intros ->.
      destruct (fill_spec _ _ _ _ Hg') as (Ho & _). unfold open in Ho. congruence. }
  split.
  - by apply em_static_cf, He1.
  - destruct (ed_shape _ _ _ He1). by split.
  - apply He1.
  - done.
  - intros g0 Hg0 Hm. apply Hg; [by apply (grows_trans _ (em_cf e))|done].
  - intros i bb Hi. by apply Hfill, (gr_filled _ _ Hgr).
  - intros i Hi Hne. cbn [em_cf with_cf]. rewrite Hother; [by apply (grows_unfilled _ _ _ Hgr)|].
    apply lookup_lt_Some in Hi. destruct (gr_current _ _ Hgr) as [->|Hl]; [done|lia].
  - cbn [em_cf with_cf]. intros Ho Hp HxB m c r c' HR Hex.
    assert (present (em_cf e1)) as Hp1 by (intros i bb Hi; by apply Hp, Hfill).
    pose proof (Hsim1 Ho Hp1 HxB m c r c' HR Hex) as Hpost. destruct r as [[|id args]|ex]; [|done|done].
    destruct Hpost as [(m' & Hsteps & HR1 & Ho1)|[? _]]; [|done]. pose proof (terminated_open _ _ Ht Ho1) as ->.
    exists m'. split; [|by apply Rel_cf]. eapply rtc_r; [exact Hsteps|].
    by apply (present_step ail apv G B HB g' _ _ _ _ Hp (filled_block _ _ _ _ Hg')).
Qed.
(** The stores of a branch before it joins the other. *)
Lemma store_step st g i n (m : mach) :
  present g -> bb_graph g !! i = Some (Some (BSeq (SStore st) n)) -> step (i, m) (n, MirMerge.run_stores ail apv B st m).
Proof. intros Hp Hi. by apply (present_step ail apv G B HB g _ _ _ _ Hp Hi). Qed.

Lemma fresh_length g n g' : fresh g n g' -> n = length (bb_graph g) /\ length (bb_graph g') = S (length (bb_graph g)).
Proof. intros [-> E _]. rewrite E, length_app. split; [done|cbn; lia]. Qed.

(** Three more blocks are made before the fork. *)
Record joining (g0 : BbBuilder) (zb nzb azb anzb aib : BbId) (g : BbBuilder) : Prop := {
  jn_length : length (bb_graph g0) = zb;
  jn_nz : nzb = S zb;
  jn_az : azb = S nzb;
  jn_anz : anzb = S azb;
  jn_ai : aib = S anzb;
  jn_empty : forall i, i ∈ [azb; anzb; aib] -> bb_graph g !! i = Some None;
}.

Lemma write_joining cond zb nzb azb anzb aib g0 g1 g2 g3 g4 g5 g :
  fresh g0 zb g1 -> fresh g1 nzb g2 -> fresh g2 azb g3 -> fresh g3 anzb g4 -> fresh g4 aib g5 ->
  write_and_switch_to (BBr cond zb nzb) zb g5 = Some g ->
  forking cond zb nzb g0 g /\ bb_current g = zb
  /\ (forall i, i ∈ [azb; anzb; aib] -> mine g0 i) /\ (open g0 -> joining g0 zb nzb azb anzb aib g).
Proof.
  intros Hf1 Hf2 Hf3 Hf4 Hf5 Hg.
  destruct (fresh_length _ _ _ Hf1) as [-> L1], (fresh_length _ _ _ Hf2) as [E2 L2], (fresh_length _ _ _ Hf3) as [E3 L3].
  destruct (fresh_length _ _ _ Hf4) as [E4 L4], (fresh_length _ _ _ Hf5) as [E5 L5].
  assert (bb_current g5 = bb_current g2) as Hc52 by by rewrite (fr_current _ _ _ Hf5), (fr_current _ _ _ Hf4), (fr_current _ _ _ Hf3).
  assert (bb_current g2 = bb_current g0) as Hc20 by by rewrite (fr_current _ _ _ Hf2), (fr_current _ _ _ Hf1).
  assert (grows g2 g5) as Hg25.
  { destruct (fresh_grows _ _ _ _ (grows_refl g2) Hf3) as [H3 _]. destruct (fresh_grows _ _ _ _ H3 Hf4) as [H4 _].
    by destruct (fresh_grows _ _ _ _ H4 Hf5). }
  assert (forall i x, bb_graph g2 !! i = Some x -> bb_graph g5 !! i = Some x) as Hkeep.
  { intros i x Hi. by apply (fresh_keep _ _ _ _ _ Hf5), (fresh_keep _ _ _ _ _ Hf4), (fresh_keep _ _ _ _ _ Hf3). }
  split; [|split; [|split]].
  - eapply (write_fork cond _ nzb g0 g1 g2 g5 _ g); try done; [|by intros i _; apply Hkeep|by left].
    unfold open. rewrite Hc52. apply Hkeep.
  - by destruct (fill_spec _ _ _ _ Hg) as (_ & _ & Hc).
  - intros i Hin. right. rewrite !elem_of_cons, elem_of_nil in Hin. lia.
  - intros Ho. apply lookup_lt_Some in Ho as Hlt. split; try lia.
    intros i Hin. rewrite (fill_other _ _ _ _ _ Hg) by (rewrite Hc52, Hc20; rewrite !elem_of_cons, elem_of_nil in Hin; lia).
    rewrite !elem_of_cons, elem_of_nil in Hin. destruct Hin as [->|[->|[->|[]]]].
    + by apply (fresh_keep _ _ _ _ _ Hf5), (fresh_keep _ _ _ _ _ Hf4), (fresh_unfilled _ _ _ Hf3).
    + by apply (fresh_keep _ _ _ _ _ Hf5), (fresh_unfilled _ _ _ Hf4).
    + by apply (fresh_unfilled _ _ _ Hf5).
Qed.
Lemma present_fill bb next g g' : present g' -> write_and_switch_to bb next g = Some g' -> present g.
Proof.
  intros Hp Hf i x Hi. apply Hp. rewrite (fill_other _ _ _ _ _ Hf); [done|]. intros ->.
  destruct (fill_spec _ _ _ _ Hf) as (Ho & _). unfold open in Ho. congruence.
Qed.

Lemma emit_joined_spec cond zb nzb g1 g2 fz fnz (ez enz : em unit) e b :
  branch_ok false fz ez -> branch_ok false fnz enz -> em_static b e -> fresh (em_cf e) zb g1 -> fresh g1 nzb g2 ->
  spec (emit_joined fuel true cond ez enz zb nzb (with_cf e g2)) b (fun b' r => runs_if cond fz fnz false b e b' r.2).
Proof.
  intros Hz Hnz Hs Hf1 Hf2. unfold emit_joined.
  apply espec_new_block. intros azb g3 Hf3. apply espec_new_block. intros anzb g4 Hf4. apply espec_new_block. intros aib g5 Hf5.
  cbn [em_cf with_cf] in Hf3, Hf4, Hf5. apply espec_backup_make. apply espec_graph. intros g Hg. cbn [em_cf with_cf] in Hg. rewrite !with_cf_self.
  destruct (write_joining cond zb nzb azb anzb aib (em_cf e) g1 g2 g3 g4 g5 g) as ([Hg0 Hmz Hmnz Hfork] & Hc & Hmine & Hjoin); [done..|].
  set (e0 := with_cf e g). change (backup_of (with_cf e g5)) with (backup_of e0).
  apply (espec_branched nzb azb fz); [done|by apply em_static_cf|]. intros b1 e1 Hx1 _ Hbr1.
  apply espec_backup_make. apply espec_backup_restore. set (e2 := restored e0 e1).
  assert (em_static b1 e2) as Hs2 by (apply restored_static; [apply em_static_cf; by apply (em_static_later us0 protected b)|apply Hbr1]).
  apply (espec_branched azb anzb fnz); [done|done|]. intros b2 e3 Hx2 _ Hbr3. apply espec_backup_make.
  assert (same_shape e1 e3) as Hshape.
  { transitivity e0; [symmetry; apply Hbr1|]. transitivity e2; [apply restored_shape, Hbr1|apply Hbr3]. }
  eapply espec_bind; [apply (backup_merge_spec (W := W) ail apv Hail Hapv B fuel il pv enc M0 k0 res0 us0 s0 kv0 kv protected protected_mode areas e1 e3 e3);
    [apply (em_static_later us0 protected b1); [done|apply Hbr1]|apply Hbr3|done|by split|apply Hbr3|done]|].
  intros b3 [u1 u2] e4 Hx3 _ (Hcf & Hnv & Hs4 & Hsh4 & _ & Hjoins). cbn [fst snd] in *.
  apply espec_graph. intros g9 Hg9. rewrite Hcf in Hg9.
  eapply spec_weaken; [apply espec_on_cf|]. intros b' r _ _ (-> & g10 & Hg10 & ->). cbn [snd em_cf with_cf] in *. rewrite with_cf_self.
  assert (grows (em_cf e) (em_cf e3)) as Hgr3.
  { apply (br_grows _ _ _ _ _ _ _ Hbr3); [|apply Hmine; set_solver]. by apply (br_grows _ _ _ _ _ _ _ Hbr1). }
  assert (grows (em_cf e) g10) as Hgr10.
  { eapply grows_fill; [eapply grows_fill; [exact Hgr3|exact Hg9|]|exact Hg10|]; apply Hmine; set_solver. }
  pose proof (br_next_var _ _ _ _ _ _ _ Hbr1) as Hn1. pose proof (br_next_var _ _ _ _ _ _ _ Hbr3) as Hn3. cbn [em_next_var e0 e2 with_cf restored] in Hn1, Hn3.
  split.
  { split; [done|cbn [em_next_var with_cf]; lia|by apply em_static_cf|].
    assert (same_shape e0 e4) as [H1 H2]; [|by split]. transitivity e1; [apply Hbr1|]. by transitivity e3. }
  intros Ho Hp HxB m c x r c' HR Hcond Hex. destruct (Hjoin Ho) as [L0 -> -> -> -> Hempty]. pose proof (Hfork Ho) as Hfk.
  pose proof (present_fill _ _ _ _ Hp Hg10) as Hp9. pose proof (present_fill _ _ _ _ Hp9 Hg9) as Hp3.
  assert (present (em_cf e1)) as Hp1 by (intros i bb Hi; by apply Hp3, (br_filled _ _ _ _ _ _ _ Hbr3)).
  assert (present g) as Hpg by (intros i bb Hi; by apply Hp1, (br_filled _ _ _ _ _ _ _ Hbr1)).
  pose proof (fork_step cond _ _ _ g m x Hfk Hpg Hcond) as Hstep. apply (post_step _ _ _ _ _ _ _ (rtc_once _ _ Hstep)).
  destruct (fill_spec _ _ _ _ Hg9) as (_ & _ & Hc9). destruct (fill_spec _ _ _ _ Hg10) as (_ & _ & Hc10).
  pose proof (br_current _ _ _ _ _ _ _ Hbr1) as Hce1. pose proof (br_current _ _ _ _ _ _ _ Hbr3) as Hce3.
  assert (open (em_cf e2)) as Ho2.
  { unfold open. change (em_cf e2) with (em_cf e1). rewrite Hce1. apply (br_unfilled _ _ _ _ _ _ _ Hbr1); [apply Hfk|]. cbn [em_cf e0 with_cf]. lia. }
  assert (bb_graph g10 !! S (S (S (S zb))) = Some None) as Hai.
  { rewrite (fill_other _ _ _ _ _ Hg10), (fill_other _ _ _ _ _ Hg9) by lia. apply (br_unfilled _ _ _ _ _ _ _ Hbr3).
    - apply (br_unfilled _ _ _ _ _ _ _ Hbr1); [apply Hempty; set_solver|]. cbn [em_cf e0 with_cf]. lia.
    - change (em_cf e2) with (em_cf e1). lia. }
  assert (forall i ei ui ti start m' c', [e1; e3] !! i = Some ei -> [u1; u2] !! i = Some ui ->
    step (ti, m') (S (S (S (S zb))), MirMerge.run_stores ail apv B ui m') -> rtc step (start, m) (ti, m') -> Rel b2 ei m' c' ->
    post false (start, m) b3 (with_cf e4 g10) (Ok ROk) c') as Hend.
  { intros i ei ui ti start m' c'' Hei Hui Hst Hsteps HR'. left. exists (MirMerge.run_stores ail apv B ui m'). cbn [em_cf with_cf]. rewrite Hc10.
    split; [by eapply rtc_r|]. split; [apply Rel_cf; by apply (Hjoins i ei ui)|]. unfold open. by rewrite Hc10. }
  assert (extends b2 B) as Hx2B by by transitivity b3. assert (extends b1 B) as Hx1B by by transitivity b2.
  assert (Rel b e0 m c) as HR0 by by apply Rel_cf.
  assert (open (em_cf e0)) as Ho0 by (unfold open; cbn [em_cf e0 with_cf]; rewrite Hc; apply Hfk).
  destruct (x =? 0).
  - rewrite <- Hc. pose proof (br_runs _ _ _ _ _ _ _ Hbr1 Ho0 Hp1 Hx1B m c r c' HR0 Hex) as Hrun. destruct r as [[|id args]|ex]; [|apply Hrun..].
    destruct Hrun as (m' & Hsteps & HR1). apply (Hend 0%nat e1 u1 (S (S zb)) _ m'); [done|done| |done|].
    + apply (store_step u1 g9); [done|]. pose proof (filled_block _ _ _ _ Hg9) as Hb. by rewrite Hce3 in Hb.
    + apply (rel_later b1); [done|apply Hbr1|done].
  - rewrite <- Hce1. assert (Rel b1 e2 m c) as HR2.
    { apply Rel_restored; [|apply Hbr1|apply Hbr1]. apply (rel_later b); [done|by apply em_static_cf|done]. }
    pose proof (br_runs _ _ _ _ _ _ _ Hbr3 Ho2 Hp3 Hx2B m c r c' HR2 Hex) as Hrun. destruct r as [[|id args]|ex]; [|apply Hrun..].
    destruct Hrun as (m' & Hsteps & HR3). apply (Hend 1%nat e3 u2 (S (S (S zb))) _ m'); [done|done| |done|done].
    apply (store_step u2 g10); [done|]. pose proof (filled_block _ _ _ _ Hg10) as Hb. by rewrite Hc9 in Hb.
Qed.
Lemma emit_if_spec cond (zt nzt last : bool) fz fnz (ez enz : em unit) e b :
  branch_ok last fz ez -> branch_ok last fnz enz -> (zt = true -> never_ok fz) -> (nzt = true -> never_ok fnz) -> em_static b e ->
  spec (emit_if fuel true (Some il) (Some pv) enc is_cs32 metadata cond zt nzt last ez enz e) b (fun b' r => runs_if cond fz fnz last b e b' r.2).
Proof.
  intros Hz Hnz Hzt Hnzt Hs. unfold emit_if. apply espec_new_block. intros zb g1 Hf1. apply espec_new_block. intros nzb g2 Hf2.
  cbn [em_cf with_cf] in Hf2. rewrite !with_cf_self.
  assert (forall next g, write_and_switch_to (BBr cond zb nzb) next g2 = Some g -> next = zb \/ next = nzb ->
    forking cond zb nzb (em_cf e) g /\ bb_current g = next) as Hfork.
  { intros next g Hg Hnext. split; [|by destruct (fill_spec _ _ _ _ Hg) as (_ & _ & Hc)].
    by apply (write_fork cond zb nzb (em_cf e) g1 g2 g2 next g); [..|apply grows_refl| | | | |]. }
  destruct (last || zt && nzt) eqn:Elast.
  { apply espec_graph. intros g Hg. destruct (Hfork zb g Hg (or_introl eq_refl)) as [Hfk Hc]. cbn [em_cf with_cf]. rewrite with_cf_self.
    apply (emit_ended_spec cond zb nzb g last fz fnz ez enz e b); try done. intros ->. apply andb_prop in Elast as [-> ->]. by split; [apply Hzt|apply Hnzt]. }
  apply orb_false_iff in Elast as [-> _]. destruct zt; [|destruct nzt].
  - apply espec_graph. intros g Hg. destruct (Hfork zb g Hg (or_introl eq_refl)) as [Hfk Hc]. rewrite with_cf_self.
    by apply (emit_one_sided_spec cond zb nzb g true fz fnz ez enz e b).
  - apply espec_graph. intros g Hg. destruct (Hfork nzb g Hg (or_intror eq_refl)) as [Hfk Hc]. rewrite with_cf_self.
    by apply (emit_one_sided_spec cond zb nzb g false fz fnz ez enz e b).
  - by apply (emit_joined_spec cond zb nzb g1 g2).
Qed.

Lemma compiled_if v z nz :
  val_ok v -> compiled (run_cmds exec_guarded z) (emit_list emit_command z) -> compiled (run_cmds exec_guarded nz) (emit_list emit_command nz) ->
  compiled (exec_guarded (CIf v z nz)) (emit_command (CIf v z nz)).
Proof.
  intros Hv Hz Hnz last e b Hs. cbn [emit_cmd]. apply (espec_emit_val v _ e b b); [done..|]. intros b1 cond Hx1 _ Hcond.
  assert (em_static b1 e) as Hs1 by by apply (em_static_later us0 protected b).
  eapply spec_weaken; [apply (emit_if_spec cond _ _ last (run_cmds exec_guarded z) (run_cmds exec_guarded nz));
    [by intros e' b'; apply Hz|by intros e' b'; apply Hnz|apply all_paths_never_ok|apply all_paths_never_ok|done]|].
  intros b2 r Hx2 _ [He Hruns]. split; [done|]. intros Ho Hp HxB m c r0 c' HR Hex.
  apply exec_guarded_body in Hex as [_ Hex]. cbn [guarded_body] in Hex. unfold cbind, ceval in Hex.
  destruct (val_eval _ _ v) as [x|] eqn:Ex; [|done]. cbn [mbind option_bind] in Hex.
  apply (Hruns Ho Hp HxB m c x); [by apply (rel_later b)| |by destruct (x =? 0)].
  apply (Rel_den b e m c _ b1 cond x HR Hcond Ex). by transitivity b2.
Qed.

(** ** All commands *)

(** Commands that can be compiled. *)
Fixpoint cmd_ok (c : Cmd) : Prop :=
  let all := fix all (l : list Cmd) : Prop := match l with [] => True | c :: l => cmd_ok c /\ all l end in
  match c with
  | Store to op => dest_ok to /\ op_ok il pv enc op
  | StoreDynamicReg regs index value sz => dyn_ok regs sz /\ val_ok index /\ val_ok value
  | LoadDynamicReg regs index into sz => choices_ok regs /\ in_range 16 sz /\ val_ok index /\ dest_ok into
  | Log | ReadMemory _ | WriteMemory _ => True
  | Handler _ args => Forall val_ok args
  | CIf v z nz => val_ok v /\ all z /\ all nz
  | CException _ code => val_ok code
  | ReadDescriptor _ selector ok base limit ar _ => val_ok selector /\ dest_ok ok /\ dest_ok base /\ dest_ok limit /\ dest_ok ar
  | Out _ port data => val_ok port /\ val_ok data
  | In _ port data => val_ok port /\ dest_ok data
  end.
Definition cmds_ok (l : Commands) : Prop := Forall cmd_ok l.

Lemma all_ok_forall l :
  (fix all (l : list Cmd) : Prop := match l with [] => True | c :: l => cmd_ok c /\ all l end) l -> Forall cmd_ok l.
Proof. induction l as [|c l IH]; [constructor|]. intros [Hc Hl]. constructor; [done|by apply IH]. Qed.

Lemma compiled_cmd c : cmd_ok c -> compiled (exec_guarded c) (emit_command c).
Proof.
  induction c as [to op|regs i v sz|regs i v sz| |id args|v z nz IHz IHnz|ex code|fo se ok ba li ar ma|len p d|len p d|i|i] using Cmd_ind';
    cbn [cmd_ok].
  - intros []. by apply compiled_store.
  - intros (? & ? & ?). by apply compiled_store_dynamic.
  - intros (? & ? & ? & ?). by apply compiled_load_dynamic.
  - intros _. apply compiled_log.
  - apply compiled_handler.
  - intros (Hv & Hz%all_ok_forall & Hnz%all_ok_forall). apply compiled_if; [done|apply compiled_list..].
    + clear - IHz Hz. induction IHz as [|c l Hc _ IH]; [constructor|]. apply list.Forall_cons in Hz as [? ?]. constructor; [by apply Hc|by apply IH].
    + clear - IHnz Hnz. induction IHnz as [|c l Hc _ IH]; [constructor|]. apply list.Forall_cons in Hnz as [? ?]. constructor; [by apply Hc|by apply IH].
  - apply compiled_exception.
  - intros (? & ? & ? & ? & ?). by apply compiled_descriptor.
  - intros []. by apply compiled_out.
  - intros []. by apply compiled_in.
  - intros _. apply compiled_read_memory.
  - intros _. apply compiled_write_memory.
Qed.

Lemma compiled_commands l : cmds_ok l -> compiled (run_cmds exec_guarded l) (emit_list emit_command l).
Proof. intros Hl. apply compiled_list. eapply Forall_impl; [apply compiled_cmd|done]. Qed.
End sim.
