(* ===== verification/Interp.v ===== *)
(** * One instruction, interpreted

    [execute_instr_interpreter] of [sem86-core/src/emulator/mod.rs]: the memory
    operands and the checks of their segments, the commands ([MiniSemRef::execute]
    of [sem86-core/src/il/mod.rs]), and what is restored after an exception.
    [run_sequence] runs instructions one after the other. *)
From S2P Require Import Prelude Exceptions IlOps Arch Packing IlLoc MemArea IlCmd Jump Descriptors.
From S2P Require Import ValTree ValBuild ValSpec ValSound ValCombine CpuBytes Mir MirState MirEmit MirSpec MirStateSound MirVals MirAddr.

Open Scope comp_scope.

(** ** Segment checks *)

(** The registers next to the segment base that an input of an address is. *)
Definition checked_segment (r : Reg) : option (GpReg * GpReg * GpReg) :=
  match r with
  | Gp DsBase => Some (Ds, DsAr, DsLimit)
  | Gp EsBase => Some (Es, EsAr, EsLimit)
  | Gp SsBase => Some (Ss, SsAr, SsLimit)
  | Gp FsBase => Some (Fs, FsAr, FsLimit)
  | Gp GsBase => Some (Gs, GsAr, GsLimit)
  | _ => None
  end.

Definition segment_in_range (protected_mode : bool) (cpu : State) (area : MemArea) (regs : GpReg * GpReg * GpReg) : bool :=
  let selector := wrap 16 (gpreg cpu regs.1.1) in
  negb (SegmentSelector.is_null selector && (protected_mode && negb (get_flag cpu Vm)))
  && (wrap 32 (wrap 32 (start_addr area) - CachedDescriptorAccessRights.effective_start (gpreg cpu regs.1.2))
      <=? wrap 32 (gpreg cpu regs.2)).

Definition check_input (protected_mode : bool) (s : SysState) (area : MemArea) (input : ParLoc) : option bool :=
  input ← resolve_loc s input;
  Some match loc input with
  | LReg r =>
      match checked_segment r with
      | Some regs => segment_in_range protected_mode (cpu s) area regs
      | None => true
      end
  | _ => true
  end.

(** [false] is the exception. *)
Fixpoint check_all {A} (f : A -> option bool) (l : list A) : option bool :=
  match l with
  | [] => Some true
  | x :: l => ok ← f x; if ok : bool then check_all f l else Some false
  end.
Definition check_segments (protected_mode : bool) (s : SysState) (areas : list MemArea) (addresses : list MemoryAccess) : option bool :=
  check_all (fun x => check_all (check_input protected_mode s x.1) (inputs x.2)) (zip areas addresses).

(** ** The instruction *)

Definition start_state (entry : EncodingEntry) (c : State) : SysState :=
  {| IlLoc.instr_len := ee_instr_len entry; cpu := c; mem := []; IlLoc.part_values := ee_part_values entry;
     part_packing := enc_packing (ee_encoding entry); parts := enc_parts (ee_encoding entry) |}.

Section execute.
Context {W : Type} `{ExecCtx W} `{SoftFloat}.
Abbreviation cmdM T := (comp (Config W) Exception T).

(** [MiniSemRef::execute] *)
Definition execute (exec : Cmd -> cmdM ExecResult) (commands : Commands) (s : SysState) (w : W)
    : option (result ExecResult Exception * Config W) :=
  run_cmds exec commands {| sys := s; tmp := replicate MAX_TEMP_VARS 0; world := w |}.

Definition run_entry (exec : list MemArea -> Cmd -> cmdM ExecResult) (protected_mode : bool) (entry : EncodingEntry) (c : State) (w : W)
    : option (result ExecResult Exception * Config W) :=
  let s := start_state entry c in
  let addresses := enc_addresses (ee_encoding entry) in
  areas ← extract_memory_areas protected_mode s addresses;
  ok ← check_segments protected_mode s areas addresses;
  if ok : bool then execute (exec areas) (enc_commands (ee_encoding entry)) (with_mem s (replicate (length addresses) 0)) w
  else Some (Err (GeneralProtectionFault 0), {| sys := s; tmp := []; world := w |}).

End execute.

(** ** What passing the checks means *)

Lemma selector_index x : Z.land x 0xfff8 = Z.shiftl (SegmentSelector.segment_index (wrap 16 x)) 3.
Proof.
  unfold SegmentSelector.segment_index, field. apply Z.bits_inj'. intros n Hn.
  change 0xfff8 with (Z.shiftl (Z.ones 13) 3). rewrite Z.land_spec, !Z.shiftl_spec, Z.land_spec by done.
  destruct (Z.ltb_spec n 3) as [Hl|Hl]; [by rewrite !(Z.testbit_neg_r _ (n - 3)) by lia; rewrite andb_false_r|].
  rewrite Z.shiftr_spec, testbit_wrap, testbit_ones by lia. replace (n - 3 + 3) with n by lia.
  destruct (Z.leb_spec 0 (n - 3)), (Z.ltb_spec (n - 3) 13), (Z.ltb_spec n 16); try lia; cbn [andb]; by rewrite ?andb_true_r, ?andb_false_r.
Qed.

Lemma gpreg_raw s r : r <> Riz -> gpreg s r = raw_reg s (Gp r).
Proof. by destruct r. Qed.

Lemma segment_in_range_spec protected_mode s area regs :
  fits (cpu s) -> inw 32 (start_addr area) -> byte_size (Gp regs.2) = 4 ->
  regs.1.1 <> Riz -> regs.1.2 <> Riz -> regs.2 <> Riz ->
  segment_in_range protected_mode (cpu s) area regs = true ->
  (protected_mode && negb (get_flag (cpu s) Vm) = true -> Z.land (raw_reg (cpu s) (Gp regs.1.1)) 0xfff8 <> 0)
  /\ wrap 32 (start_addr area - wrap 32 (Z.shiftr (raw_reg (cpu s) (Gp regs.1.2)) 32)) <= raw_reg (cpu s) (Gp regs.2).
Proof.
  intros Hfits Ha Hsize H1 H2 H3 [Hnull Hrange]%andb_prop. rewrite !gpreg_raw in * by done. split.
  - intros Hpm. rewrite Hpm, andb_true_r in Hnull. unfold SegmentSelector.is_null in Hnull.
    apply negb_true_iff, Z.eqb_neq in Hnull. rewrite selector_index. intros E. apply Hnull.
    apply (Z.shiftl_eq_0_iff _ 3); [done|exact E].
  - apply Z.leb_le in Hrange. pose proof (Hfits (Gp regs.2) I) as Hl. rewrite Hsize in Hl.
    rewrite (wrap_small 32 (raw_reg _ _)) in Hrange by exact Hl. rewrite (wrap_small 32 (start_addr area)) in Hrange by done.
    unfold CachedDescriptorAccessRights.effective_start, field in Hrange. by rewrite <- wrap_land in Hrange by done.
Qed.

Lemma check_all_spec {A} (f : A -> option bool) l : check_all f l = Some true -> Forall (fun x => f x = Some true) l.
Proof.
  induction l as [|x l IH]; [constructor|]. cbn [check_all]. destruct (f x) as [[]|] eqn:E; try done. intros Hl.
  constructor; [done|by apply IH].
Qed.

Lemma map_option_length {A B} (f : A -> option B) l l' : map_option f l = Some l' -> length l' = length l.
Proof.
  revert l'. induction l as [|x l IH]; intros l'; cbn [map_option]; [by intros [= <-]|].
  destruct (f x); [|done]. cbn [mbind option_bind]. destruct (map_option f l); [|done]. intros [= <-]. cbn. by rewrite (IH _ eq_refl).
Qed.

Section checks.
Context (il pv : Z) (enc : Encoding) (s : SysState) (Hs : entry_state il pv enc s).

Lemma base_resolves input r input' :
  base_of il pv enc input = Some r -> resolve_loc s input = Some input' -> loc input' = LReg (Gp r) /\ is_segment_base r = true.
Proof.
  destruct Hs as [_ Hpv Hpack Hparts _ _ _]. unfold base_of, operand_for, instantiate_dest, resolve_loc, part_register.
  rewrite Hpv, Hpack, Hparts. destruct (loc input) as [r'|i|i| |c] eqn:El; cbn [mbind option_bind]; try done.
  - destruct r' as [r'|]; [|done]. destruct (is_segment_base r') eqn:Eb; [|done]. intros [= ->] [= <-]. by rewrite El.
  - destruct (arr_get (enc_parts enc) i) as [[mapping bits|mapping|mapping]|]; try done; cbn [mbind option_bind].
    + destruct (assert (negb bits)); [|done]. cbn [mbind option_bind]. destruct (part_get _ _ _) as [y|]; [|done]. cbn [mbind option_bind].
      destruct mapping as [o|]; [|done]. destruct (mapping_compute o y) as [[z|]|]; done.
    + destruct (part_get _ _ _) as [y|]; [|done]. cbn [mbind option_bind]. destruct (arr_get mapping y) as [[[r'|]|]|]; try done; cbn [mbind option_bind].
      destruct (is_segment_base r') eqn:Eb; [|done]. by intros [= ->] [= <-].
Qed.

Lemma segment_base_elem inputs k i r :
  segment_base il pv enc inputs k = Some (i, r) -> exists input, input ∈ inputs /\ base_of il pv enc input = Some r.
Proof.
  revert k. induction inputs as [|input inputs IH]; intros k; [done|]. cbn [segment_base].
  destruct (base_of il pv enc input) as [r'|] eqn:E.
  - intros [= _ ->]. exists input. split; [by left|done].
  - intros (input' & Hin & Hb)%IH. exists input'. split; [by right|done].
Qed.

(** The interpreter does not check accesses through [Cs]. *)
Definition checkable (access : MemoryAccess) : Prop :=
  forall i r, segment_base il pv enc (inputs access) 0 = Some (i, r) -> r <> CsBase.

Lemma checked_segment_regs r regs : r <> CsBase -> segment_regs r = Some regs -> checked_segment (Gp r) = Some regs /\ byte_size (Gp regs.2) = 4.
Proof. destruct r; try done; intros _ [= <-]; done. Qed.

Lemma check_segments_ok protected_mode areas addresses :
  length areas = length addresses -> Forall checkable addresses -> Forall (fun a => inw 32 (start_addr a)) areas ->
  check_segments protected_mode s areas addresses = Some true ->
  Forall2 (segment_ok il pv enc (protected_mode && negb (get_flag (cpu s) Vm)) s) addresses areas.
Proof.
  intros Hlen Hbase Hareas Hcheck%check_all_spec. apply Forall2_lookup. intros k.
  destruct (addresses !! k) as [access|] eqn:Ea, (areas !! k) as [area|] eqn:Er;
    try (apply lookup_lt_Some in Ea; apply lookup_ge_None in Er; lia); try (apply lookup_lt_Some in Er; apply lookup_ge_None in Ea; lia); [|constructor].
  constructor. intros i r regs Hseg Hregs.
  assert (check_all (check_input protected_mode s area) (inputs access) = Some true) as Hin%check_all_spec.
  { rewrite list.Forall_forall in Hcheck. apply (Hcheck (area, access)). apply list_elem_of_lookup. exists k. apply lookup_zip_with_Some. by exists area, access. }
  destruct (segment_base_elem _ _ _ _ Hseg) as (input & Hinput & Hb). rewrite list.Forall_forall in Hin. specialize (Hin input Hinput).
  unfold check_input in Hin. destruct (resolve_loc s input) as [input'|] eqn:Ei; [|done]. cbn [mbind option_bind] in Hin.
  destruct (base_resolves _ _ _ Hb Ei) as [El _]. rewrite El in Hin.
  assert (r <> CsBase) as Hcs by (rewrite list.Forall_forall in Hbase; apply (Hbase access) with i; [by apply (list_elem_of_lookup_2 _ k)|done]).
  destruct (checked_segment_regs r regs Hcs Hregs) as [Hcs' Hsize]. rewrite Hcs' in Hin. injection Hin as Hin.
  destruct (segment_regs_not_zero r regs Hregs) as (H1 & H2 & H3).
  apply segment_in_range_spec; try done; [apply Hs|]. rewrite list.Forall_forall in Hareas. by apply Hareas, (list_elem_of_lookup_2 _ k).
Qed.
End checks.

(** ** Sequences of instructions *)

Section sequence.
Context {W : Type}.
(** What runs one instruction. *)
Context (run : EncodingEntry -> State -> W -> option (result ExecResult Exception * Config W)).

(** How a sequence is left. *)
Record Left := {
  lf_success : bool;
  lf_metadata : option Z;
  lf_cpu : State;
  lf_k : Z;
  lf_world : W;
  lf_result : PackedExecResult;
}.

Inductive Next := Continue (c : State) (w : W) | Leave (l : Left).

(** An exception leaves the registers and the counter as they were; otherwise
    the instruction pointer is updated at the end. *)
Definition entry_step (entry : EncodingEntry) (c : State) (k : Z) (w : W) : option Next :=
  '(r, cfg) ← run entry c w;
  match r with
  | Err ex =>
      p ← packed_from_exception ex;
      Some (Leave {| lf_success := false; lf_metadata := ee_metadata entry; lf_cpu := c; lf_k := k;
                     lf_world := world cfg; lf_result := p |})
  | Ok r =>
      j ← Jump.emit_jump (tmp cfg) (sys cfg) (ee_is_cs32 entry) (enc_jump (ee_encoding entry));
      let c := cpu (default (sys cfg) j) in
      match r with
      | ROk => Some (Continue c (world cfg))
      | InvokeHandler _ _ =>
          p ← packed_from_exec_result r;
          Some (Leave {| lf_success := false; lf_metadata := ee_metadata entry; lf_cpu := c; lf_k := wrap 64 (k + 1);
                         lf_world := world cfg; lf_result := p |})
      end
  end.

Fixpoint run_sequence (items : list EncodingEntry) (c : State) (k : Z) (w : W) (res : PackedExecResult) : option Left :=
  match items with
  | [] => None
  | entry :: items =>
      n ← entry_step entry c k w;
      match n with
      | Leave l => Some l
      | Continue c w =>
          match items with
          | [] => Some {| lf_success := true; lf_metadata := ee_metadata entry; lf_cpu := c; lf_k := wrap 64 (k + 1);
                          lf_world := w; lf_result := res |}
          | _ => run_sequence items c (wrap 64 (k + 1)) w res
          end
      end
  end.
End sequence.
#[global] Arguments Left : clear implicits.
#[global] Arguments Next : clear implicits.
