(* ===== verification/MirSeq.v ===== *)
(** * Compiled sequences behave as interpreted ones

    The code that [MirBuilder::build_from_sequence] of
    [sem86-core/src/codegen/mir/mod.rs] builds for a sequence of instructions
    leaves the registers, the counter and the world as the interpreter does
    that runs the instructions one after the other. *)
From stdpp Require Import relations.
From S2P Require Import Prelude Exceptions IlOps Arch Packing Address IlLoc MemArea IlCmd Jump.
From S2P Require Import ValTree ValBuild ValSpec ValSound ValCombine ValMono CpuBytes Mir MirState MirEmit MirSpec MirStateSound.
From S2P Require Import MirCommit MirVals MirRun MirAddr MirMerge MirSim Interp.

#[local] Open Scope bm_scope.
#[local] Open Scope em_scope.

(** ** One instruction *)

(** Instructions that can be compiled. *)
Record item_ok `{Layout} (entry : EncodingEntry) : Prop := {
  io_len : inw 128 (ee_instr_len entry);
  io_jump : jump_ok (ee_instr_len entry) (ee_part_values entry) (ee_encoding entry) (enc_jump (ee_encoding entry));
  io_commands : cmds_ok (ee_instr_len entry) (ee_part_values entry) (ee_encoding entry) (enc_commands (ee_encoding entry));
  io_addresses : Forall (access_ok (ee_instr_len entry) (ee_part_values entry) (ee_encoding entry)) (enc_addresses (ee_encoding entry));
  io_segments : Forall (checkable (ee_instr_len entry) (ee_part_values entry) (ee_encoding entry)) (enc_addresses (ee_encoding entry));
}.

Lemma spec_for_all {T A} (m : bm T) b (P : A -> Prop) (R : A -> ValBuilder -> T -> Prop) (x0 : A) :
  P x0 -> (forall x, P x -> spec m b (R x)) -> spec m b (fun b' t => forall x, P x -> R x b' t).
Proof.
  intros H0 H Hb t b' E. destruct (H x0 H0 Hb t b' E) as (? & ? & _). split; [done|]. split; [done|]. intros x Hx. by apply (H x).
Qed.

Lemma default_raw r : real_reg r -> raw_reg State_default r = 0.
Proof.
  intros Hr. destruct r as [[]|[]]; try reflexivity. cbn in Hr |- *. unfold arr_get. case_match; [done|].
  change [0; 0; 0; 0; 0; 0; 0; 0] with (replicate 8 0). destruct (replicate 8 0 !! Z.to_nat n) eqn:E; [|done].
  by apply lookup_replicate in E as [-> _].
Qed.
Lemma default_fits : wf_state State_default /\ fits State_default.
Proof.
  split; [by split|]. intros r Hr. rewrite default_raw by done. split; [done|]. apply Z.pow_pos_nonneg; [done|]. pose proof (size_in_storage r). lia.
Qed.

Lemma protected_areas s l areas : extract_memory_areas true s l = Some areas -> Forall (fun a => inw 32 (start_addr a)) areas.
Proof.
  unfold extract_memory_areas. revert areas. induction l as [|access l IH]; intros areas; cbn [map_option]; [intros [= <-]; constructor|].
  destruct (unwrap_calculation (calculation access)) as [c|]; [|done]. cbn [mbind option_bind]. unfold protected_area.
  destruct (area_inputs s access _) as [vals|]; [|done]. cbn [mbind option_bind]. destruct (evaluate_from_iter c vals); [|done]. cbn [mbind option_bind].
  destruct (map_option _ l); [|done]. intros [= <-]. constructor; [by apply wrap_inw|by apply IH].
Qed.

Section sequence.
Context {W : Type} `{ctx : ExecCtx W} `{stable : !StableCtx W} `{sf : SoftFloat} `{sfl : !SoftFloatLaws}.
Context `{lay : Layout} `{laws : !LayoutLaws}.
Context (ail apv : Z) (Hail : inw 128 ail) (Hapv : inw 128 apv).
Context (G : list Bb) (B : ValBuilder) (HB : wf B) (Hmask : byte_masks (value_tree B) = true).
Context (fuel : nat) (M0 : Z -> Z) (k0 : Z) (Hk0 : inw 64 k0) (res0 : PackedExecResult).

Abbreviation mach := (Machine W).
Abbreviation env m := (env_of ail apv m).
Abbreviation step := (MirRun.step (W := W) ail apv G B).
Abbreviation exits := (MirRun.exits (W := W) ail apv G B).
Abbreviation present := (MirRun.present G B).
Abbreviation agrees := (MirRun.agrees (W := W) ail apv).
Abbreviation current e := (bb_current (em_cf e)).

(** The interpreter with the checks: the code was compiled for the mode of the
    processor, and no access is outside of its segment. *)
Definition run_checked (pm : bool) (entry : EncodingEntry) (c : State) (w : W) : option (result ExecResult Exception * Config W) :=
  let s := start_state entry c in
  let addresses := enc_addresses (ee_encoding entry) in
  areas ← extract_memory_areas true s addresses;
  ok ← check_segments true s areas addresses;
  assert (ok && Bool.eqb pm (negb (get_flag c Vm)));;
  execute (exec_guarded M0 areas) (enc_commands (ee_encoding entry)) (with_mem s (replicate (length addresses) 0)) w.

Lemma run_checked_entry pm entry c w r : run_checked pm entry c w = Some r -> run_entry exec_cmd true entry c w = Some r.
Proof.
  unfold run_checked, run_entry. destruct (extract_memory_areas _ _ _) as [areas|]; [|done]. cbn [mbind option_bind].
  destruct (check_segments _ _ _ _) as [[]|]; [|done|done]. cbn [mbind option_bind andb].
  destruct (assert _); [|done]. cbn [mbind option_bind]. unfold execute.
  apply run_guarded_run, Forall_true. intros cmd k r'. apply exec_guarded_exec.
Qed.

(** Between two instructions. *)
Record boundary (b : ValBuilder) (e : Emitter) (m : mach) (s : State) (kv : Z) (w : W) : Prop := {
  bd_machine : machine_ok m;
  bd_cpu : m_cpu m = M0;
  bd_k : m_k m = k0;
  bd_result : m_result m = res0;
  bd_world : m_world m = w;
  bd_wf : wf_state s;
  bd_fits : fits s;
  bd_repr : forall E, agrees (em_next_var e) E m -> us_repr E M0 b (em_us e) s /\ k_value E b (em_us e) = kv;
  bd_keys : forall key, key ∈ (dynamic (em_us e)).*1 -> exists r, forall E, agrees (em_next_var e) E m -> chosen E b key r;
}.

(** The state of the interpreter at the first command. *)
Definition start_config (entry : EncodingEntry) (c : State) (w : W) : Config W :=
  {| sys := with_mem (start_state entry c) (replicate (length (enc_addresses (ee_encoding entry))) 0);
     tmp := replicate MAX_TEMP_VARS 0; world := w |}.

Lemma boundary_later b b' e e' m s kv w :
  extends b b' -> us_valid b (em_us e) -> em_us e' = em_us e -> em_next_var e' = em_next_var e ->
  boundary b e m s kv w -> boundary b' e' m s kv w.
Proof.
  intros Hx Hus Eu En [Hm Hc Hmk Hres Hw Hwf Hfits Hr Hkeys]. split; rewrite ?Eu, ?En; try done.
  - intros E HE. destruct (Hr E HE) as [Hr' Hk']. split; [by apply (us_repr_later E M0 b)|]. by rewrite (k_value_later E b b').
  - intros key Hkey. destruct (Hkeys key Hkey) as [r Hr']. exists r. intros E HE.
    apply list_elem_of_fmap in Hkey as ([key' id] & -> & Hin). apply (chosen_later E b); [done|by apply (uv_dynamic_elem b (em_us e) key' id Hus Hin)|by apply Hr'].
Qed.

Definition started (pm : bool) (entry : EncodingEntry) (protected : ValId) (b : ValBuilder) (e : Emitter) (b' : ValBuilder) (e' : Emitter) : Prop :=
  em_cf e' = em_cf e /\ em_next_var e' = em_next_var e /\ em_static (em_us e) protected b' e'
  /\ forall m s kv w areas, boundary b e m s kv w ->
       extract_memory_areas true (start_state entry s) (enc_addresses (ee_encoding entry)) = Some areas ->
       check_segments true (start_state entry s) areas (enc_addresses (ee_encoding entry)) = Some true ->
       pm = negb (get_flag s Vm) ->
       Rel ail apv (ee_instr_len entry) (ee_part_values entry) (ee_encoding entry) M0 k0 res0 (em_us e) s kv (wrap 128 (kv + 1))
         protected pm areas b' e' m (start_config entry s w).

Lemma start_entry_state entry c :
  wf_state c -> fits c -> entry_state (ee_instr_len entry) (ee_part_values entry) (ee_encoding entry) (start_state entry c).
Proof. intros Hwf Hfits. by split. Qed.

Lemma agrees_fp n E (m : mach) : agrees n E m ->
  (forall op x y rc, fp_binop_value E op x y rc = default 0 (fp_binop_execute op x y (wrap 8 rc)))
  /\ (forall op x rc, fp_unop_value E op x rc = default 0 (fp_unop_execute op x (wrap 8 rc))).
Proof. intros [_ _ _ Hb Hu]. split; intros; by rewrite ?Hb, ?Hu. Qed.

Lemma zeros_spec E (l : list MemEntry) b : env_ok E ->
  Forall (fun m => forall E, env_ok E -> den E b (me_value m) = 0) l -> Forall2 (fun m v => den E b (me_value m) = v) l (replicate (length l) 0).
Proof. intros HE. induction 1 as [|m l Hm _ IH]; constructor; [by apply Hm|done]. Qed.

Lemma espec_start {T} pm entry zero protected (k : em T) e b R :
  item_ok entry -> us_valid b (em_us e) -> node_is (fun _ => 0) b zero -> node_is (fun _ => b2z pm) b protected ->
  em_tmp e = replicate MAX_TEMP_VARS zero -> em_memory e = [] ->
  (forall b' e', extends b b' -> started pm entry protected b e b' e' -> spec (k e') b' R) ->
  spec ((increment_k fuel ~> (emit_memory_accesses fuel (Some (ee_instr_len entry)) (Some (ee_part_values entry)) (ee_encoding entry)
    (enc_addresses (ee_encoding entry)) ~> k)) e) b R.
Proof.
  intros Hok Hus Hzero Hprot Htmp Hmem Hk. unfold increment_k.
  eapply espec_bind; [by apply espec_set_us, increment_k_spec|]. intros b1 u e1 Hx1 _ [(Hus1 & Hfix & Hdyn & Hkv) E]. cbn [snd] in *. injection E as _ E.
  assert (em_tmp e1 = replicate MAX_TEMP_VARS zero) as Htmp' by (rewrite E; exact Htmp).
  assert (em_valid b1 e1) as He1.
  { split; [done| |by rewrite E; cbn; rewrite Hmem]. rewrite Htmp'. apply Forall_replicate. apply (extends_valid b); [done|apply Hzero]. }
  eapply espec_bind; [apply (emit_memory_accesses_spec _ _ _ _ pm); [done|apply Hok]|]. intros b2 u' e2 Hx2 _ (ms & E2 & Hvs & Hzs & Hlen & Hareas).
  injection E2 as _ ->. assert (extends b b2) as Hx02 by by transitivity b1.
  assert (em_memory e1 = []) as Hmem1 by (rewrite E; cbn; done). rewrite Hmem1 in *. cbn [app] in *.
  apply Hk; [done|]. split; [by rewrite E|]. split; [by rewrite E|]. split.
  { destruct He1 as [_ Ht _]. split; [split; cbn [em_us em_tmp em_memory with_memory]; [by apply (us_valid_later b1)| |done]|by apply (us_valid_later b)|apply (extends_valid b); [done|apply Hprot]].
    eapply Forall_impl; [|exact Ht]. intros id. by apply extends_valid. }
  intros m s kv w areas [Hm Hc Hmk Hres Hw Hwf Hfits Hr Hkeys] Hex Hcheck Hpm.
  pose proof (start_entry_state entry s Hwf Hfits) as Hst.
  assert (forall E', env_ok E' -> us_repr E' M0 b (em_us e) s -> us_repr E' M0 b1 (em_us e1) s) as Hrepr.
  { intros E' HE' Hr'. apply (us_repr_fields E' M0 b1 (em_us e)); [done..|]. by apply (us_repr_later E' M0 b). }
  split; cbn [start_config world sys tmp with_memory em_next_var em_us em_memory em_tmp]; try done.
  - destruct Hst as [? ? ? ? ? ? _]. split; try done. by apply Forall_replicate.
  - intros E' HE'. rewrite E in HE'. cbn in HE'. destruct (Hr E' HE') as [Hr' Hkv']. pose proof (ag_ok _ _ _ _ _ HE') as HEok.
    destruct (agrees_fp _ _ _ HE') as [Hfb Hfu].
    assert (Forall2 (fun id v => den E' b1 id = v) (em_tmp e1) (replicate MAX_TEMP_VARS 0)) as Htmp1.
    { rewrite Htmp'. apply Forall2_replicate. rewrite (den_later E' b b1) by (done || apply Hzero). by apply Hzero. }
    split; cbn [with_memory em_us em_memory em_tmp].
    + split; cbn [with_memory em_us em_memory em_tmp]; [..|done|done].
      * apply (us_repr_later E' M0 b1); [done|done|]. by apply Hrepr.
      * clear - Htmp1 Hx2 He1. pose proof (ev_tmp _ _ He1) as Hv. induction Htmp1 as [|id v l l' H1 H2 IH]; [constructor|].
        apply list.Forall_cons in Hv as [? ?]. constructor; [by later b1|by apply IH].
      * rewrite <- Hlen. by apply zeros_spec.
    + rewrite (k_value_later E' b1 b2) by done. rewrite Hkv by done. by rewrite Hkv'.
    + apply (Hareas E' M0 (replicate MAX_TEMP_VARS 0) (start_state entry s)); [done| |done|done|].
      * split; [by apply Hrepr|done|by rewrite Hmem1; constructor|done|done].
      * rewrite Hpm. apply (check_segments_ok _ _ _ _ Hst true); [by apply map_option_length in Hex|apply Hok|by eapply protected_areas|done].
    + by apply (us_repr_later E' M0 b).
    + by rewrite (k_value_later E' b b2).
    + rewrite (den_later E' b b2) by (done || apply Hprot). by apply Hprot.
  - intros key Hkey. rewrite Hdyn in Hkey. destruct (Hkeys key Hkey) as [r Hr']. exists r. intros E' HE'. rewrite E in HE'. cbn in HE'.
    apply list_elem_of_fmap in Hkey as ([key' id] & -> & Hin). apply (chosen_later E' b); [done|by apply (uv_dynamic_elem b (em_us e) key' id Hus Hin)|by apply Hr'].
Qed.

(** What compiled code leaves is what the interpreter leaves. *)
Record left_as (o : Outcome W) (l : Left W) : Prop := {
  la_success : o_success o = lf_success l;
  la_metadata : o_metadata o = lf_metadata l;
  la_cpu : cpu_of (m_cpu (o_machine o)) = lf_cpu l;
  la_bytes : bytes_ok (m_cpu (o_machine o));
  la_k : m_k (o_machine o) = lf_k l;
  la_world : m_world (o_machine o) = lf_world l;
  la_result : m_result (o_machine o) = lf_result l;
}.

Definition lands (last : bool) (entry : EncodingEntry) (x : BbId * mach) (b' : ValBuilder) (e' : Emitter) (kv : Z) (n : Next W) : Prop :=
  match n with
  | Leave l => exists o, exits x o /\ left_as o l
  | Continue c w =>
      (exists m', rtc step x (current e', m') /\ boundary b' e' m' c (wrap 128 (kv + 1)) w /\ open (em_cf e'))
      \/ (last = true /\ exists o, exits x o /\ left_as o {| lf_success := true; lf_metadata := ee_metadata entry; lf_cpu := c;
            lf_k := wrap 64 (kv + 1); lf_world := w; lf_result := res0 |})
  end.

Lemma leaves_left (o : Outcome W) su md c k k' w res :
  o_success o = su -> o_metadata o = md -> leaves o c k w res -> wrap 64 k = k' ->
  left_as o {| lf_success := su; lf_metadata := md; lf_cpu := c; lf_k := k'; lf_world := w; lf_result := res |}.
Proof. intros Hs Hm [? ? ? ? ?] <-. by split. Qed.

Lemma counter_wraps kv : wrap 64 (wrap 128 (kv + 1)) = wrap 64 (wrap 64 kv + 1).
Proof. rewrite wrap_wrap_le by lia. unfold wrap. by rewrite Z.add_mod_idemp_l by lia. Qed.

Definition at_block (block : BbId) (g : BbBuilder) : BbBuilder := {| bb_graph := bb_graph g; bb_current := block |}.

(** The boundary after the jump. *)
Lemma jumped_boundary entry us0 s0 kv0 kv protected pm areas is_cs32 b e b' (r : option ValId * Emitter) m (c : Config W) j :
  extends b b' -> em_static us0 protected b e ->
  jumped (ee_instr_len entry) (ee_part_values entry) (ee_encoding entry) is_cs32 b e b' r ->
  Rel ail apv (ee_instr_len entry) (ee_part_values entry) (ee_encoding entry) M0 k0 res0 us0 s0 kv0 kv protected pm areas b e m c ->
  Jump.emit_jump (tmp c) (sys c) is_cs32 (enc_jump (ee_encoding entry)) = Some j ->
  boundary b' r.2 m (cpu (default (sys c) j)) kv (world c).
Proof.
  intros Hx Hs (Hv & Hk & _ & Hj) HR Hjump.
  assert (forall E, agrees (em_next_var e) E m -> em_repr E M0 b' r.2 (tmp c) (default (sys c) j)
    /\ entry_state (ee_instr_len entry) (ee_part_values entry) (ee_encoding entry) (default (sys c) j)) as Hj'.
  { intros E HE. apply Hj; [apply HE|by apply (rl_view HR)|apply HR|done]. }
  destruct (Hj' (env m)) as [_ Hst]; [by apply agrees_self, HR|]. pose proof (ev_us _ _ (st_valid _ _ _ _ Hs)) as Hus.
  destruct HR as [Hm Hc Hmk Hres Hw _ Hvw Hkeys].
  split; try done; try apply Hst; rewrite ?(kept_next_var _ _ Hk).
  - intros E HE. split; [by apply Hj'|]. rewrite <- (vw_k _ _ _ _ _ _ _ _ _ _ _ _ _ (Hvw E HE)). rewrite <- (k_value_later E b b' (em_us e)) by done.
    unfold k_value. by rewrite (kept_k _ _ Hk).
  - intros key Hkey. rewrite (kept_keys _ _ Hk) in Hkey. destruct (Hkeys key Hkey) as [rg Hr']. exists rg. intros E HE.
    apply list_elem_of_fmap in Hkey as ([key' id] & -> & Hin). apply (chosen_later E b); [done|by apply (uv_dynamic_elem b (em_us e) key' id Hus Hin)|by apply Hr'].
Qed.

(** Running the commands, and the jump after them. *)
Lemma post_lands pm entry last us0 protected b5 e5 b6 (rj : option ValId * Emitter) x s kv w areas r cfg n :
  extends b5 b6 -> em_static us0 protected b5 e5 ->
  jumped (ee_instr_len entry) (ee_part_values entry) (ee_encoding entry) (ee_is_cs32 entry) b5 e5 b6 rj ->
  run_checked pm entry s w = Some (r, cfg) -> entry_step (run_checked pm) entry s (wrap 64 kv) w = Some n ->
  post ail apv G B (ee_instr_len entry) (ee_part_values entry) (ee_encoding entry) (ee_is_cs32 entry) (ee_metadata entry) M0 k0 res0
    us0 s kv (wrap 128 (kv + 1)) protected pm areas last x b5 e5 r cfg ->
  lands last entry x b6 rj.2 kv n.
Proof.
  intros Hx Hs Hj Hrun Hstep Hpost. unfold entry_step in Hstep. rewrite Hrun in Hstep. cbn [mbind option_bind] in Hstep.
  destruct r as [r|ex]; cbn [post] in Hpost.
  2:{ destruct Hpost as (p & Hp & o & Ho & Hsu & Hmd & Hl). rewrite Hp in Hstep. injection Hstep as <-. exists o. split; [done|]. by eapply leaves_left. }
  destruct (Jump.emit_jump _ _ _ _) as [j|] eqn:Ej; [|done]. cbn [mbind option_bind] in Hstep. destruct r as [|id args].
  - injection Hstep as <-. destruct Hpost as [(m' & Hsteps & HR & Ho)|[Hlast Hl]]; [left|right].
    + exists m'. pose proof Hj as (_ & Hk & _). rewrite (kept_cf _ _ Hk). split; [done|]. split; [|done]. by eapply jumped_boundary.
    + split; [done|]. destruct (Hl j Ej) as (o & Ho & Hsu & Hmd & Hlv). exists o. split; [done|]. eapply leaves_left; [done..|]. apply wrap_wrap_le. lia.
  - destruct Hpost as (p & Hp & Hl). rewrite Hp in Hstep. injection Hstep as <-. destruct (Hl j Ej) as (o & Ho & Hsu & Hmd & Hlv).
    exists o. split; [done|]. eapply leaves_left; [done..|]. apply counter_wraps.
Qed.

(** What [emit_encoding_without_jump] guarantees. *)
Definition encoded (pm : bool) (entry : EncodingEntry) (block : BbId) (last : bool) (e : Emitter) (b : ValBuilder)
    (b' : ValBuilder) (e' : Emitter) : Prop :=
  us_valid b' (em_us e') /\ em_next_var e <= em_next_var e' /\ grows (at_block block (em_cf e)) (em_cf e')
  /\ (bb_graph (em_cf e) !! block = Some None -> present (em_cf e') -> extends b' B ->
      forall m s kv w n, boundary b e m s kv w -> entry_step (run_checked pm) entry s (wrap 64 kv) w = Some n ->
      lands last entry (block, m) b' e' kv n).

Lemma encoding_spec pm entry block last e b :
  item_ok entry -> us_valid b (em_us e) ->
  spec (emit_encoding_without_jump fuel true pm entry block last e) b (fun b' r => encoded pm entry block last e b b' r.2).
Proof.
  intros Hok Hus. unfold emit_encoding_without_jump, emit_encoding. apply espec_graph. intros g Hg. pose proof (switch_to_spec _ _ _ Hg) as [Hgg Hgc].
  assert (g = at_block block (em_cf e)) as -> by (destruct g; cbn in *; by subst). set (e0 := with_cf e (at_block block (em_cf e))).
  eapply espec_value_of; [by apply spec_imm|]. intros b1 zero Hx1 _ Hzero.
  eapply espec_value_of; [apply spec_imm; by destruct pm|]. intros b2 protected Hx2 _ Hprot. assert (extends b b2) as Hx02 by by transitivity b1.
  eapply espec_bind; [by apply (spec_ret _ b2 (fun b' r => b' = b2 /\ r = (tt, {| em_cf := em_cf e0; em_next_var := em_next_var e0; em_us := em_us e0;
    em_tmp := replicate MAX_TEMP_VARS zero; em_memory := [] |})))|]. intros b' u e1 _ _ [-> E]. injection E as _ E.
  assert (us_valid b2 (em_us e1)) as Hus1 by (rewrite E; by apply (us_valid_later b)).
  eapply espec_value_of; [by apply get_or_compute_spec|]. intros b3 ip Hx3 _ _. assert (extends b b3) as Hx03 by by transitivity b2.
  apply espec_get_us. apply (espec_start pm entry zero protected).
  { done. } { by apply (us_valid_later b2). } { apply (node_is_later _ b1); [by transitivity b2|done]. } { by apply (node_is_later _ b2). }
  { by rewrite E. } { by rewrite E. }
  intros b4 e4 Hx4 (Hcf4 & Hnv4 & Hs4 & Hstart). 
  eapply espec_bind.
  { apply (spec_for_all _ b4 (fun x : State * Z * list MemArea => wf_state x.1.1 /\ fits x.1.1)
      (fun x b' r => emitted (em_us e1) protected e4 b' r.2 /\ simulates ail apv G B (ee_instr_len entry) (ee_part_values entry) (ee_encoding entry)
        (ee_is_cs32 entry) (ee_metadata entry) M0 k0 res0 (em_us e1) x.1.1 x.1.2 (wrap 128 (x.1.2 + 1)) protected pm x.2
        (run_cmds (exec_guarded M0 x.2) (enc_commands (ee_encoding entry))) last b4 e4 b' r.2) (State_default, 0, [])); [exact default_fits|].
    intros [[s kv] areas] [Hwf Hfits]. by apply compiled_commands; [..|apply Hok|apply Hok|]; try apply Hok. }
  intros b5 u5 e5 Hx5 _ Hsim. cbn [snd] in Hsim.
  pose proof (Hsim (State_default, 0, []) default_fits) as [He5 _].
  eapply spec_weaken; [apply emit_jump_spec; [apply He5|apply Hok|apply Hok]|]. intros b6 r Hx6 _ Hj. pose proof Hj as (Hv6 & Hk6 & _).
  assert (extends b4 b6) as Hx46 by by transitivity b5.
  assert (em_cf e1 = at_block block (em_cf e) /\ em_next_var e1 = em_next_var e /\ em_us e1 = em_us e) as (Ecf & Env1 & Eus) by by rewrite E.
  pose proof (ed_grows _ _ _ _ _ He5) as Hg5. pose proof (ed_next_var _ _ _ _ _ He5) as Hn5. pose proof (ed_static _ _ _ _ _ He5) as Hs5.
  rewrite Hcf4, Ecf in Hg5. rewrite Hnv4, Env1 in Hn5.
  split; [apply Hv6|]. split; [by rewrite (kept_next_var _ _ Hk6)|]. split; [by rewrite (kept_cf _ _ Hk6)|].
  rewrite (kept_cf _ _ Hk6). intros Hun Hp HxB m s kv w n Hbd Hstep.
  destruct (run_checked pm entry s w) as [[r0 cfg]|] eqn:Erun; [|by unfold entry_step in Hstep; rewrite Erun in Hstep].
  pose proof Erun as Hrun. unfold run_checked in Hrun.
  destruct (extract_memory_areas _ _ _) as [areas|] eqn:Eareas; [|done]. cbn [mbind option_bind] in Hrun.
  destruct (check_segments _ _ _ _) as [[]|] eqn:Echeck; [|done|done]. cbn [mbind option_bind andb] in Hrun.
  destruct (assert (Bool.eqb _ _)) as [[]|] eqn:Emode; [|done]. apply assert_Some, Bool.eqb_prop in Emode. cbn [mbind option_bind] in Hrun.
  apply (post_lands pm entry last (em_us e1) protected b5 e5 b6 r (block, m) s kv w areas r0 cfg n); try done.
  assert (boundary b3 e1 m s kv w) as Hbd1 by by apply (boundary_later b b3 e e1).
  pose proof (Hstart m s kv w areas Hbd1 Eareas Echeck Emode) as HR.
  destruct (Hsim (s, kv, areas)) as [_ Hsimul]; [by split; apply Hbd|].
  assert (current e4 = block) as Hcur by by rewrite Hcf4, Ecf. rewrite <- Hcur.
  apply (Hsimul ltac:(unfold open; by rewrite Hcf4, Ecf) Hp ltac:(by transitivity b6) m (start_config entry s w) r0 cfg HR Hrun).
Qed.

(** ** Sequences *)

Definition kept_filled (g g' : BbBuilder) : Prop := forall i bb, bb_graph g !! i = Some (Some bb) -> bb_graph g' !! i = Some (Some bb).
Lemma present_filled g g' : kept_filled g g' -> present g' -> present g.
Proof. intros Hk Hp i bb Hi. by apply Hp, Hk. Qed.
Lemma grows_at_block block g g' : grows (at_block block g) g' -> kept_filled g g'.
Proof. intros Hg i bb Hi. by apply (gr_filled _ _ Hg). Qed.

(** Blocks that wait for their instruction. *)
Definition waiting (g : BbBuilder) (l : list BbId) : Prop :=
  NoDup l /\ Forall (fun i => bb_graph g !! i = Some None /\ i <> bb_current g) l.

Lemma waiting_jump bb g g' l : write_terminal bb g = Some g' -> waiting g l -> waiting g' l.
Proof.
  intros Hg [Hnd Hl]. unfold write_terminal in Hg. pose proof (fill_spec _ _ _ _ Hg) as (_ & _ & Hc). split; [done|].
  eapply Forall_impl; [|exact Hl]. intros i [Hi Hne]. rewrite Hc. split; [|done]. by rewrite (fill_other _ _ _ _ _ Hg).
Qed.
Lemma waiting_next block g g' l : grows (at_block block g) g' -> waiting g (block :: l) -> waiting g' l.
Proof.
  intros Hg [[Hnot Hnd]%list.NoDup_cons Hl]. apply list.Forall_cons in Hl as [_ Hl]. split; [done|].
  rewrite list.Forall_forall in Hl. apply list.Forall_forall. intros i Hin. destruct (Hl i Hin) as [Hi _].
  assert (~ mine (at_block block g) i) as Hm.
  { intros [->|Hlen]; [done|]. apply lookup_lt_Some in Hi. cbn in Hlen. lia. }
  split; [by rewrite (gr_others _ _ Hg)|]. intros ->. apply Hm, (gr_current _ _ Hg).
Qed.

Lemma kept_terminal bb g g' : write_terminal bb g = Some g' -> kept_filled g g'.
Proof.
  intros Hg i x Hi. unfold write_terminal in Hg. pose proof (fill_spec _ _ _ _ Hg) as (Ho & _ & _).
  rewrite (fill_other _ _ _ _ _ Hg); [done|]. intros ->. unfold open in Ho. congruence.
Qed.

(** One instruction of a sequence: the jump to its block and its code. *)
Definition entry_emitted (pm : bool) (entry : EncodingEntry) (block : BbId) (last : bool) (e : Emitter) (b : ValBuilder) (b' : ValBuilder) (e' : Emitter) : Prop :=
  us_valid b' (em_us e') /\ kept_filled (em_cf e) (em_cf e')
  /\ (forall l, waiting (em_cf e) (block :: l) -> waiting (em_cf e') l)
  /\ (forall l, waiting (em_cf e) (block :: l) -> present (em_cf e') -> extends b' B ->
      forall m s kv w n, boundary b e m s kv w -> entry_step (run_checked pm) entry s (wrap 64 kv) w = Some n ->
      lands last entry (current e, m) b' e' kv n).

Lemma lands_step last entry x y b' e' kv n : rtc step x y -> lands last entry y b' e' kv n -> lands last entry x b' e' kv n.
Proof.
  intros Hx. destruct n as [c w|l]; cbn [lands].
  - intros [(m' & Hm & Hrest)|(Hlast & o & Ho & Hl)]; [left|right].
    + exists m'. split; [by transitivity y|done].
    + split; [done|]. exists o. split; [by apply (exits_step _ _ _ _ x y)|done].
  - intros (o & Ho & Hl). exists o. split; [by apply (exits_step _ _ _ _ x y)|done].
Qed.

Lemma espec_entry {T} pm entry block last (k : option ValId -> em T) e b R :
  item_ok entry -> us_valid b (em_us e) ->
  (forall b' c e', extends b b' -> entry_emitted pm entry block last e b b' e' -> spec (k c e') b' R) ->
  spec ((emit_block_jump block ~> (c <~~ emit_encoding_without_jump fuel true pm entry block last;; k c)) e) b R.
Proof.
  intros Hok Hus Hk. apply espec_graph. intros g Hg. set (e0 := with_cf e g).
  eapply espec_bind; [by apply encoding_spec|]. intros b1 c e1 Hx1 _ (Hv1 & _ & Hgr & Hruns). cbn [snd] in *. apply Hk; [done|].
  pose proof (kept_terminal _ _ _ Hg) as Hkg. cbn [em_cf e0 with_cf] in *.
  assert (kept_filled (em_cf e) (em_cf e1)) as Hkept by (intros i x Hi; by apply (grows_at_block _ _ _ Hgr), Hkg).
  split; [done|]. split; [done|]. split.
  - intros l Hwait. apply (waiting_next block g); [done|]. by apply (waiting_jump _ _ _ _ Hg).
  - intros l Hwait Hp HxB m s kv w n Hbd Hstep. apply (lands_step _ _ _ (block, m)).
    + apply rtc_once. unfold write_terminal in Hg. apply (present_step ail apv G B HB g _ _ _ _ (present_filled _ _ (grows_at_block _ _ _ Hgr) Hp) (filled_block _ _ _ _ Hg)). done.
    + apply (Hruns ltac:(by apply (waiting_jump _ _ _ _ Hg) in Hwait as [_ [[? _] _]%list.Forall_cons]) Hp HxB m s kv w n); [|done].
      by apply (boundary_later b b e e0).
Qed.

Definition sequence_left (x : BbId * mach) (b' : ValBuilder) (e' : Emitter) (md : option Z) (l : Left W) : Prop :=
  (exists o, exits x o /\ left_as o l)
  \/ (exists m' c kv w, rtc step x (current e', m') /\ boundary b' e' m' c kv w /\ open (em_cf e')
      /\ l = {| lf_success := true; lf_metadata := md; lf_cpu := c; lf_k := wrap 64 kv; lf_world := w; lf_result := res0 |}).

Lemma sequence_left_step x y b' e' md l : rtc step x y -> sequence_left y b' e' md l -> sequence_left x b' e' md l.
Proof.
  intros Hx [(o & Ho & Hl)|(m' & c & kv & w & Hm & Hrest)]; [left|right].
  - exists o. split; [by apply (exits_step _ _ _ _ x y)|done].
  - exists m', c, kv, w. split; [by transitivity y|done].
Qed.

Definition sequenced (pm : bool) (items : list (EncodingEntry * BbId)) (e : Emitter) (b : ValBuilder) (b' : ValBuilder)
    (r : (option Z * option ValId) * Emitter) : Prop :=
  us_valid b' (em_us r.2) /\ kept_filled (em_cf e) (em_cf r.2)
  /\ (waiting (em_cf e) items.*2 -> present (em_cf r.2) -> extends b' B ->
      forall m s kv w l, boundary b e m s kv w -> run_sequence (run_checked pm) items.*1 s (wrap 64 kv) w res0 = Some l ->
      sequence_left (current e, m) b' r.2 r.1.1 l).

Lemma run_sequence_cons pm entry items s k w :
  run_sequence (run_checked pm) (entry :: items) s k w res0 =
  (n ← entry_step (run_checked pm) entry s k w;
   match n with
   | Leave l => Some l
   | Continue c w =>
       match items with
       | [] => Some {| lf_success := true; lf_metadata := ee_metadata entry; lf_cpu := c; lf_k := wrap 64 (k + 1); lf_world := w; lf_result := res0 |}
       | _ => run_sequence (run_checked pm) items c (wrap 64 (k + 1)) w res0
       end
   end).
Proof. done. Qed.

Lemma sequence_spec pm items e b :
  Forall item_ok items.*1 -> us_valid b (em_us e) -> spec (emit_sequence fuel true pm items e) b (sequenced pm items e b).
Proof.
  revert e b. induction items as [|[entry block] items IH]; intros e b Hok Hus; [apply spec_panic|].
  cbn [fmap list_fmap] in Hok. apply list.Forall_cons in Hok as [Hok Hoks]. cbn [emit_sequence fst] in *. destruct items as [|next items].
  - apply espec_entry; [done|done|]. intros b1 c e1 Hx1 (Hv1 & Hk1 & _ & Hruns). apply spec_ret. intros _.
    split; [done|]. split; [done|]. intros Hwait Hp HxB m s kv w l Hbd Hrun. cbn [fst snd fmap list_fmap] in *.
    rewrite run_sequence_cons in Hrun. destruct (entry_step _ _ _ _ _) as [n|] eqn:En; [|done]. cbn [mbind option_bind] in Hrun.
    pose proof (Hruns [] Hwait Hp HxB m s kv w n Hbd En) as Hn. destruct n as [c' w'|l']; injection Hrun as <-; [|left; exact Hn].
    destruct Hn as [(m' & Hsteps & Hbd' & Ho)|(_ & o & Ho & Hl)]; [right|left].
    + exists m', c', (wrap 128 (kv + 1)), w'. split; [done|]. split; [done|]. split; [done|]. by rewrite counter_wraps.
    + exists o. split; [done|]. destruct Hl. split; try done. cbn in *. rewrite la_k0, <- counter_wraps. symmetry. apply wrap_wrap_le. lia.
  - set (rest := next :: items) in *. apply espec_entry; [done|done|]. intros b1 c e1 Hx1 (Hv1 & Hk1 & Hw1 & Hruns).
    eapply spec_weaken; [by apply IH|]. intros b2 r Hx2 _ (Hv2 & Hk2 & Hrest). split; [done|].
    split; [intros i x Hi; by apply Hk2, Hk1|]. intros Hwait Hp HxB m s kv w l Hbd Hrun. cbn [fst snd fmap list_fmap] in Hrun, Hwait.
    rewrite run_sequence_cons in Hrun. destruct (entry_step _ _ _ _ _) as [n|] eqn:En; [|done]. cbn [mbind option_bind] in Hrun.
    pose proof (Hruns _ Hwait (present_filled _ _ Hk2 Hp) ltac:(by transitivity b2) m s kv w n Hbd En) as Hn.
    destruct n as [c' w'|l']; [|injection Hrun as <-; left; exact Hn].
    destruct Hn as [(m' & Hsteps & Hbd' & Ho)|(? & _)]; [|done]. apply (sequence_left_step _ (current e1, m')); [done|].
    rewrite <- counter_wraps in Hrun. by apply (Hrest (Hw1 _ Hwait) Hp HxB m' c' (wrap 128 (kv + 1)) w' l).
Qed.
End sequence.
