(* ===== verification/MirStrict.v ===== *)
(** * Strict code generation

    Code generation with the additional checks ([strict] in MirEmit.v) returns
    nothing else than code generation as it is in
    [sem86-core/src/codegen/mir/mod.rs]: where it returns, the source returns
    the same graph. *)
From S2P Require Import Prelude IlCmd Jump ValTree ValBuild CpuBytes Mir MirState MirEmit.

#[local] Open Scope bm_scope.
#[local] Open Scope em_scope.

(** What the first computation returns, the second one returns. *)
Definition included {T} (m m' : bm T) : Prop := forall b r, m b = Some r -> m' b = Some r.
Definition eincluded {T} (m m' : em T) : Prop := forall e, included (m e) (m' e).

#[export] Instance included_refl {T} : Reflexive (@included T).
Proof. by intros m b r. Qed.
#[export] Instance eincluded_refl {T} : Reflexive (@eincluded T).
Proof. by intros m e b r. Qed.

Lemma included_bind {T U} (m m' : bm T) (k k' : T -> bm U) :
  included m m' -> (forall x, included (k x) (k' x)) -> included (x <~ m;; k x) (x <~ m';; k' x).
Proof.
  intros Hm Hk b r. unfold bbind. destruct (m b) as [[x b1]|] eqn:E; [|done]. rewrite (Hm _ _ E). apply Hk.
Qed.
Lemma eincluded_bind {T U} (m m' : em T) (k k' : T -> em U) :
  eincluded m m' -> (forall x, eincluded (k x) (k' x)) -> eincluded (x <~~ m;; k x) (x <~~ m';; k' x).
Proof. intros Hm Hk e. apply included_bind; [apply Hm|]. intros [x e']. apply Hk. Qed.
Lemma eincluded_value {T} (f f' : Emitter -> bm T) :
  (forall e, included (f e) (f' e)) -> eincluded (value_of f) (value_of f').
Proof. intros Hf e. by apply included_bind. Qed.

(** Both computations take the same steps. *)
Ltac same_steps :=
  repeat match goal with
    | |- eincluded ?m ?m => reflexivity
    | |- included ?m ?m => reflexivity
    | |- eincluded (ebind _ _) (ebind _ _) => apply eincluded_bind; [|intros ?]
    | |- included (bbind _ _) (bbind _ _) => apply included_bind; [|intros ?]
    | |- eincluded (value_of _) (value_of _) => apply eincluded_value; intros ?
    | |- eincluded (if ?c then _ else _) _ => destruct c
    | |- included (if ?c then _ else _) _ => destruct c
    | |- eincluded (match ?x with _ => _ end) _ => destruct x
    | |- included (match ?x with _ => _ end) _ => destruct x
    end.

Section strict.
Context `{Layout} (fuel : nat).

Lemma check_shift_lenient op y : included (check_shift true op y) (check_shift false op y).
Proof.
  intros b r. unfold check_shift, bbind, node, blift, bret. destruct (value_tree b !! y) as [n|]; [|done]. cbn [mbind option_bind].
  destruct (assert _) as [[]|]; [|done]. by intros [= <-].
Qed.

Context (il pv : option Z) (enc : Encoding) (is_cs32 : bool) (protected : ValId) (us0 : UncommittedState) (metadata : option Z).

Lemma emit_op_lenient e op : included (emit_op fuel true il pv enc e op) (emit_op fuel false il pv enc e op).
Proof. destruct op; cbn [emit_op]; same_steps. apply check_shift_lenient. Qed.

Lemma backup_merge_lenient z nz : eincluded (backup_merge fuel true z nz) (backup_merge fuel false z nz).
Proof.
  intros e. unfold backup_merge. apply included_bind; [|intros ?; reflexivity]. intros b r. unfold blift. cbn [negb orb assert].
  by destruct (assert _) as [[]|].
Qed.

Lemma emit_write_memory_lenient index :
  eincluded (emit_write_memory fuel true us0 metadata index) (emit_write_memory fuel false us0 metadata index).
Proof. unfold emit_write_memory. same_steps. by intros e b r. Qed.

Abbreviation command strict := (emit_cmd fuel strict il pv enc is_cs32 protected us0 metadata).

Lemma emit_list_lenient (f f' : Cmd -> bool -> em unit) l last :
  Forall (fun c => forall last, eincluded (f c last) (f' c last)) l -> eincluded (emit_list f l last) (emit_list f' l last).
Proof.
  intros Hl. revert last. induction Hl as [|c l Hc _ IH]; intros last; [reflexivity|]. cbn [emit_list].
  apply eincluded_bind; [apply Hc|]. intros _. apply IH.
Qed.

Lemma emit_joined_lenient cond (z z' nz nz' : em unit) zb nzb :
  eincluded z z' -> eincluded nz nz' -> eincluded (emit_joined fuel true cond z nz zb nzb) (emit_joined fuel false cond z' nz' zb nzb).
Proof. intros Hz Hnz. unfold emit_joined. same_steps; try done. apply backup_merge_lenient. Qed.

Lemma emit_if_lenient cond zt nzt last (z z' nz nz' : em unit) :
  eincluded z z' -> eincluded nz nz' ->
  eincluded (emit_if fuel true il pv enc is_cs32 metadata cond zt nzt last z nz) (emit_if fuel false il pv enc is_cs32 metadata cond zt nzt last z' nz').
Proof. intros Hz Hnz. unfold emit_if, emit_one_sided. same_steps; try done. by apply emit_joined_lenient. Qed.

Lemma emit_cmd_lenient c last : eincluded (command true c last) (command false c last).
Proof.
  revert last. induction c as [to op|regs i v sz|regs i v sz| |id args|v z nz IHz IHnz|ex code|fo se ok ba li ar ma|len p d|len p d|i|i] using Cmd_ind';
    intros last; cbn [emit_cmd]; same_steps.
  - apply emit_op_lenient.
  - apply emit_if_lenient; by apply emit_list_lenient.
  - apply emit_write_memory_lenient.
Qed.
End strict.

Section build.
Context `{Layout} (fuel : nat).

Lemma emit_encoding_lenient il pv enc is_cs32 metadata protected is_last :
  eincluded (emit_encoding fuel true il pv enc is_cs32 metadata protected is_last) (emit_encoding fuel false il pv enc is_cs32 metadata protected is_last).
Proof.
  unfold emit_encoding, emit_commands. same_steps. apply emit_list_lenient, Forall_true. intros c last. apply emit_cmd_lenient.
Qed.

Lemma emit_sequence_lenient pm items : eincluded (emit_sequence fuel true pm items) (emit_sequence fuel false pm items).
Proof.
  induction items as [|[entry block] items IH]; [reflexivity|]. cbn [emit_sequence]. unfold emit_encoding_without_jump.
  destruct items; same_steps; try apply emit_encoding_lenient. apply IH.
Qed.

Lemma build_lenient pm items mir : build_from_sequence fuel true pm items = Some mir -> build_from_sequence fuel false pm items = Some mir.
Proof.
  unfold build_from_sequence, run_builder.
  match goal with |- context [mbind _ (?m new_emitter builder_new) = _ -> mbind _ (?m' new_emitter builder_new) = _] => assert (eincluded m m') as Hi end.
  { same_steps. apply emit_sequence_lenient. }
  destruct ((_ : em unit) new_emitter builder_new) as [r|] eqn:E; [|done]. by rewrite (Hi _ _ _ E).
Qed.
End build.
