(* ===== verification/MirCorrect.v ===== *)
(** * Compilation is correct

    [MirBuilder::build_from_sequence] as a whole: the graph it builds for a
    sequence of instructions runs to an exit that leaves what the interpreter
    leaves. *)
From stdpp Require Import relations.
From S2P Require Import Prelude Exceptions IlOps Arch Packing IlLoc MemArea IlCmd Jump.
From S2P Require Import ValTree ValBuild ValSpec ValSound ValCombine ValMono CpuBytes Mir MirState MirEmit MirSpec MirStateSound.
From S2P Require Import MirCommit MirVals MirRun MirAddr MirMerge MirSim Interp MirSeq MirStrict.

#[local] Open Scope bm_scope.
#[local] Open Scope em_scope.

(** ** Building *)

Lemma create_blocks_spec {A} (l : list A) e b :
  spec (create_blocks l e) b (fun b' r => b' = b
    /\ r = (seq (length (bb_graph (em_cf e))) (length l),
            with_cf e {| bb_graph := bb_graph (em_cf e) ++ replicate (length l) None; bb_current := bb_current (em_cf e) |})).
Proof.
  revert e. induction l as [|x l IH]; intros e; cbn [create_blocks].
  { apply spec_ret. intros _. split; [done|]. rewrite app_nil_r. by destruct e as [[]]. }
  apply espec_new_block. intros n g [-> Hg Hc]. eapply espec_bind; [apply IH|]. intros b' bs e' _ _ (-> & E). injection E as -> ->.
  apply spec_ret. intros _. split; [done|]. cbn [em_cf with_cf]. rewrite Hg, Hc, length_app, <- app_assoc. cbn [length replicate app seq].
  by rewrite Nat.add_1_r.
Qed.

Lemma waiting_blocks {A} (l : list A) :
  waiting {| bb_graph := [None] ++ replicate (length l) None; bb_current := 0%nat |} (seq 1 (length l)).
Proof.
  split; [apply NoDup_seq|]. apply list.Forall_forall. intros i Hi%elem_of_seq. split; [|cbn; lia].
  cbn [bb_graph]. rewrite lookup_app_r by (cbn; lia). apply lookup_replicate. cbn. split; [done|lia].
Qed.

Lemma built_present t l g : bb_build t l = Some g -> forall i bb, l !! i = Some (Some bb) -> g !! i = Some (fold_branch t bb).
Proof.
  revert g. induction l as [|[bb|] l IH]; intros g; cbn [bb_build]; [by intros [= <-]| |done].
  destruct (bb_build t l) as [g'|]; [|done]. intros [= <-] [|i] bb'; [by intros [= ->]|]. by apply (IH g' eq_refl i bb').
Qed.

Section build.
Context {W : Type} `{ctx : ExecCtx W} `{stable : !StableCtx W} `{sf : SoftFloat} `{sfl : !SoftFloatLaws}.
Context `{lay : Layout} `{laws : !LayoutLaws}.
Context (ail apv : Z) (Hail : inw 128 ail) (Hapv : inw 128 apv) (fuel : nat).

(** The registers at the entry. *)
Lemma entry_boundary b e (m : Machine W) :
  machine_ok m -> inw 64 (m_k m) -> entered (m_cpu m) -> em_us e = us_default ->
  boundary ail apv (m_cpu m) (m_k m) (m_result m) b e m (cpu_of (m_cpu m)) (m_k m) (m_world m).
Proof.
  intros Hm Hk HM Hus. split; try done.
  - intros r Hr. rewrite raw_reg_cpu_of by done. by apply (entered_fits _ HM).
  - intros E HE. rewrite Hus. split.
    + split; cbn [us_default fixed dynamic]; [|done|by intros r id ?%elem_of_nil|by intros r id ?%elem_of_nil|].
      * intros a. by rewrite (ag_load _ _ _ _ _ HE).
      * intros r Hr _ _. rewrite raw_reg_cpu_of, initial_load by done. done.
    + unfold k_value. cbn [us_default us_k]. transitivity (load_value (env_of ail apv m) K 0 Qword).
      * unfold load_value. f_equal. apply list_fmap_ext. intros i x _. apply HE.
      * rewrite load_k. by apply wrap_small.
  - intros key. rewrite Hus. by intros ?%elem_of_nil.
Qed.

(** The graph and the values of the finished code. *)
Context (G : list Bb) (B : ValBuilder) (HB : wf B) (Hmask : byte_masks (value_tree B) = true).

Definition sequence_emission (pm : bool) (items : list EncodingEntry) : em unit :=
  blocks <~~ create_blocks items;;
  last <~~ emit_sequence fuel true pm (zip items blocks);;
  terminate_block_if_needed fuel last.1 last.2.

Definition leaves_as (pm : bool) (items : list EncodingEntry) (x : BbId * Machine W) : Prop :=
  forall l, run_sequence (run_checked (m_cpu x.2) pm) items (cpu_of (m_cpu x.2)) (m_k x.2) (m_world x.2) (m_result x.2) = Some l ->
  exists o, exits (W := W) ail apv G B x o /\ left_as o l.

Lemma zip_blocks {A} (l : list A) n : (zip l (seq n (length l))).*1 = l /\ (zip l (seq n (length l))).*2 = seq n (length l).
Proof. by rewrite fst_zip, snd_zip by (rewrite length_seq; lia). Qed.

Lemma boundary_leaves M0 k0 res0 b e (m : Machine W) s kv w md :
  boundary ail apv M0 k0 res0 b e m s kv w -> inw 64 k0 ->
  us_repr (env_of ail apv m) (m_cpu m) b (em_us e) s /\ k_value (env_of ail apv m) b (em_us e) = kv /\ inw 64 (m_k m)
  /\ forall o, o_success o = true -> o_metadata o = md -> leaves o s kv (m_world m) (m_result m) ->
     left_as o {| lf_success := true; lf_metadata := md; lf_cpu := s; lf_k := wrap 64 kv; lf_world := w; lf_result := res0 |}.
Proof.
  intros [Hm Hc Hk Hres Hw Hwf Hfits Hr _] Hk0. destruct (Hr (env_of ail apv m)) as [Hrepr Hkv]; [by apply agrees_self|].
  rewrite Hc. split; [done|]. split; [done|]. split; [by rewrite Hk|]. intros o Hs Hmd Hl. rewrite Hw, Hres in Hl. by eapply leaves_left.
Qed.

Lemma emission_spec pm items b :
  Forall item_ok items ->
  spec (sequence_emission pm items new_emitter) b (fun b' r => present G B (em_cf r.2) -> extends b' B ->
    forall m : Machine W, machine_ok m -> inw 64 (m_k m) -> entered (m_cpu m) -> leaves_as pm items (0%nat, m)).
Proof.
  intros Hok. unfold sequence_emission. eapply espec_bind; [apply create_blocks_spec|]. intros b0 bs e0 _ _ (-> & E). injection E as -> Ee0.
  pose proof (zip_blocks items 1) as [Hfst Hsnd].
  assert (waiting (em_cf e0) (zip items (seq 1 (length items))).*2) as Hwait by (rewrite Hsnd, Ee0; apply waiting_blocks).
  assert (us_valid b (em_us e0)) as Hus by (rewrite Ee0; split; try done; try constructor).
  eapply espec_bind.
  { apply (spec_for_all _ b (fun x : (Z -> Z) * Z * PackedExecResult => inw 64 x.1.2) (fun x => sequenced ail apv G B x.1.1 x.1.2 x.2 pm (zip items (seq 1 (length items))) e0 b)
      (fun _ => 0, 0, packed_default)); [done|]. intros [[M0 k0] res0] Hk0. apply sequence_spec; try done. by rewrite Hfst. }
  intros b1 [md lj] e1 Hx1 _ Hseq. cbn [fst snd].
  assert (us_valid b1 (em_us e1)) as Hus1 by apply (Hseq (fun _ => 0, 0, packed_default) ltac:(done)).
  assert (forall g', kept_filled (em_cf e1) g' -> MirRun.present G B g' -> extends b1 B -> forall m : Machine W, machine_ok m -> inw 64 (m_k m) -> entered (m_cpu m) ->
    forall l, run_sequence (run_checked (m_cpu m) pm) items (cpu_of (m_cpu m)) (m_k m) (m_world m) (m_result m) = Some l ->
    sequence_left ail apv G B (m_cpu m) (m_k m) (m_result m) (0%nat, m) b1 e1 md l) as Hrun.
  { intros g' Hkept Hp HxB m Hm Hk HM l Hl. destruct (Hseq (m_cpu m, m_k m, m_result m) Hk) as (_ & _ & Hs). cbn [fst snd] in Hs.
    rewrite Hfst in Hs. rewrite <- (wrap_small 64 (m_k m) Hk) in Hl.
    pose proof (Hs Hwait (present_filled G B _ _ Hkept Hp) HxB m (cpu_of (m_cpu m)) (m_k m) (m_world m) l) as Hs'. rewrite Ee0 in Hs' at 2.
    apply Hs'; [|done]. apply entry_boundary; [done..|]. by rewrite Ee0. }
  unfold terminate_block_if_needed. apply espec_terminated. intros [|] Ht.
  - apply spec_ret. intros _. cbn [snd]. intros Hp HxB m Hm Hk HM l Hl.
    destruct (Hrun (em_cf e1) (fun i bb Hi => Hi) Hp HxB m Hm Hk HM l Hl) as [Ho|(m' & c & kv & w & _ & _ & Ho & _)]; [done|].
    by apply (terminated_open _ _ Ht) in Ho.
  - eapply spec_weaken; [by apply (commit_and_exit_spec ail apv Hail Hapv G B HB Hmask)|]. intros b2 r Hx2 _ (g' & -> & Hg & _ & Ho & Hexit). cbn [snd em_cf with_cf].
    intros Hp HxB m Hm Hk HM l Hl. assert (extends b1 B) as Hx1B by by transitivity b2.
    destruct (Hrun g' (gr_filled _ _ Hg) Hp Hx1B m Hm Hk HM l Hl) as [Hx|(m' & c & kv & w & Hsteps & Hbd & _ & ->)]; [done|].
    pose proof Hbd as [Hm' _ _ _ _ Hwf Hfits _ _]. destruct (boundary_leaves _ _ _ _ _ _ _ _ _ md Hbd Hk) as (Hrepr & Hkv & Hk' & Hleft).
    destruct (Hexit Hp HxB m' c kv Hm' Hk' Hrepr Hkv Hwf Hfits) as (o & Ho' & Hs & Hmd & Hlv). exists o.
    split; [by apply (exits_step _ _ _ _ _ (bb_current (em_cf e1), m'))|by apply Hleft].
Qed.
End build.

(** ** Correctness *)

Section correct.
Context {W : Type} `{ctx : ExecCtx W} `{stable : !StableCtx W} `{sf : SoftFloat} `{sfl : !SoftFloatLaws}.
Context `{lay : Layout} `{laws : !LayoutLaws}.

(** A machine that enters compiled code. *)
Record enters (m : Machine W) : Prop := {
  en_machine : machine_ok m;
  en_k : inw 64 (m_k m);
  en_cpu : entered (m_cpu m);
}.

(** What the interpreter leaves when it starts like the machine. *)
Definition interpreted (pm : bool) (items : list EncodingEntry) (m : Machine W) : option (Left W) :=
  run_sequence (run_checked (m_cpu m) pm) items (cpu_of (m_cpu m)) (m_k m) (m_world m) (m_result m).

Lemma sequence_runs ail apv fuel pm items mir (m : Machine W) l :
  inw 128 ail -> inw 128 apv -> Forall item_ok items ->
  build_from_sequence fuel true pm items = Some mir -> byte_masks (mir_value_tree mir) = true ->
  enters m -> interpreted pm items m = Some l ->
  exists n o, run_graph ail apv (mir_value_tree mir) n (mir_control_flow mir) 0 m = Some o /\ left_as o l.
Proof.
  intros Hail Hapv Hok Hbuild Hmask [Hm Hk HM] Hl. unfold build_from_sequence, run_builder in Hbuild. fold (sequence_emission fuel pm items) in Hbuild.
  destruct (sequence_emission fuel pm items new_emitter builder_new) as [[[[] e] b]|] eqn:E; [|done]. cbn [mbind option_bind] in Hbuild.
  unfold finish in Hbuild. destruct (block_is_terminated (em_cf e)) as [[]|]; try done. cbn [mbind option_bind assert] in Hbuild.
  destruct (bb_build _ _) as [G|] eqn:EG; [|done]. cbn [mbind option_bind] in Hbuild. injection Hbuild as <-. cbn [mir_value_tree mir_control_flow] in *.
  destruct (emission_spec ail apv Hail Hapv fuel [] builder_new wf_new eq_refl pm items builder_new Hok wf_new _ _ E) as (_ & HB & _).
  destruct (emission_spec ail apv Hail Hapv fuel G b HB Hmask pm items builder_new Hok wf_new _ _ E) as (_ & _ & Hrun).
  destruct (Hrun (built_present _ _ _ EG) (extends_refl b) m Hm Hk HM l Hl) as (o & Ho & Hleft).
  destruct (exits_run ail apv G b (0%nat, m) o Ho) as [n Hn]. by exists n, o.
Qed.
End correct.
