(* ===== verification/MirExample.v ===== *)
(** * A compiled sequence of two instructions

    The concrete machine, context and instructions at which the theorems about
    compiled code are applied. *)
From S2P Require Import Prelude Exceptions IlOps Arch Packing Address IlLoc MemArea IlCmd IlExample Jump.
From S2P Require Import ValTree ValBuild ValSpec ValSound ValCombine ValMono CpuBytes Mir MirState MirEmit MirSpec MirStateSound.
From S2P Require Import MirCommit MirVals MirRun MirAddr MirMerge MirSim Interp MirSeq MirStrict MirCorrect.

#[export] Existing Instance ExampleLayout.layout.
#[export] Existing Instance ExampleLayout.layout_laws.

(** ** The context *)

Lemma flat_word n addr user (w : Z -> Z) r : mem_read n addr user w = Some r -> exists v, r = (Ok v, w) /\ (0 <= n -> inw (8 * n) v).
Proof.
  intros [= <-]. eexists. split; [done|]. intros Hn. set (l := (fun a => wrap 8 (w a)) <$> byte_addrs addr n).
  replace (8 * n) with (8 * Z.of_nat (length l)) by (unfold l; rewrite length_fmap, byte_addrs_length; lia).
  apply from_le_bytes_inw, Forall_fmap, Forall_true. intros a. by apply wrap_inw.
Qed.

Lemma flat_split area user n1 n2 (w w' : Z -> Z) v :
  0 <= n1 -> 0 <= n2 -> n1 + n2 <= 16 -> read_split area user n1 n2 w = Some (Ok v, w') -> inw 128 v.
Proof.
  intros H1 H2 H12. unfold read_split, cbind, clift, cret.
  destruct (mem_read n1 _ user w) as [r|] eqn:E; [|done]. apply flat_word in E as (lo & -> & Hlo). specialize (Hlo H1).
  destruct (start_plus area n1) as [a|]; [|done]. cbn [mbind option_bind].
  destruct (mem_read n2 a user w) as [r|] eqn:E; [|done]. apply flat_word in E as (hi & -> & Hhi). specialize (Hhi H2).
  intros [= <- _]. apply inw_lor; [lia|by apply (inw_mono (8 * n1)); [lia|]|]. apply (inw_mono (8 * (n1 + n2))); [lia|].
  unfold inw in *. rewrite Z.shiftl_mul_pow2, Z.mul_add_distr_l, Z.pow_add_r by lia. nia.
Qed.

Lemma flat_or_bytes user i l acc (w w' : Z -> Z) v : inw 128 acc -> or_bytes 128 user i l acc w = Some (Ok v, w') -> inw 128 v.
Proof.
  revert i acc. induction l as [|a l IH]; intros i acc Hacc; cbn [or_bytes]; [by intros [= <- _]|]. unfold cbind, clift.
  destruct (mem_read 1 a user w) as [r|] eqn:E; [|done]. apply flat_word in E as (x & -> & _).
  destruct (assert _); [|done]. cbn [mbind option_bind]. apply IH. apply inw_lor; [lia|done|by apply wrap_inw].
Qed.

Lemma flat_value area user (w w' : Z -> Z) v : read_from_mem_as_u128 area user w = Some (Ok v, w') -> inw 128 v.
Proof.
  unfold read_from_mem_as_u128, cbind, clift. destruct (area_wraps area) as [[]|]; [|..|done]; cbn [mbind option_bind].
  - by apply flat_or_bytes.
  - assert (forall n, 0 <= n <= 16 -> mem_read n (wrap 32 (start_addr area)) user w = Some (Ok v, w') -> inw 128 v) as Hword.
    { intros n Hn E. apply flat_word in E as (x & [= <- <-] & Hx). apply (inw_mono (8 * n)); [lia|apply Hx; lia]. }
    repeat case_match; try done; first [by apply Hword|by apply flat_split].
Qed.

#[export] Instance flat_stable : StableCtx (Z -> Z).
Proof.
  refine {| ctx_same s s' := bool_decide (gpreg s Cpl = gpreg s' Cpl) |}; try done.
  - intros s s' E%bool_decide_eq_true. unfold is_userspace. by rewrite E.
  - intros s force mark sel r w w' [= <- <-]. by repeat split.
  - by intros s port len v w w' [= <- <-].
  - intros area user v w w'. apply flat_value.
Defined.

(** ** The instructions *)

Definition reg32 (r : GpReg) : ParLoc := {| loc := LReg (Gp r); size := {| start_byte := 0; end_byte := 3 |} |}.
Definition mem32 (i : Z) : ParLoc := {| loc := LMem i; size := {| start_byte := 0; end_byte := 3 |} |}.
Definition term_of (sz : AddrTermSize) : AddrTerm :=
  {| primary := {| term_shift := {| right := 0; mult := 1 |}; term_size := sz |}; second_use := None |}.

(** [add eax, ds:[bx + 4]; if ecx then edx := eax] *)
Definition add_encoding : Encoding :=
  {| enc_parts := []; enc_packing := [];
     enc_commands :=
       [ReadMemory 0; Store (VLoc (reg32 Ax)) (OBin (VLoc (reg32 Ax)) (VLoc (mem32 0)) Add);
        CIf (VLoc (reg32 Cx)) [] [Store (VLoc (reg32 Dx)) (OUn (VLoc (reg32 Ax)) Id)]];
     enc_addresses :=
       [{| inputs := [reg32 DsBase; reg32 Bx]; access_size_end := 4;
           calculation := Calculation {| addr_offset := 4; terms := [term_of U32; term_of U16]; addr_size := Addr16 |} |}];
     enc_jump := Sequential |}.
(** [dec ecx; jnz 0x10] *)
Definition loop_encoding : Encoding :=
  {| enc_parts := []; enc_packing := [];
     enc_commands := [Store (VLoc (reg32 Cx)) (OBin (VLoc (reg32 Cx)) (const_val 1) Sub)];
     enc_addresses := [];
     enc_jump := NearRelativeOffset (VLoc (reg32 Cx)) [const_val 0x10] |}.

Definition entry_of (enc : Encoding) : EncodingEntry :=
  {| ee_instr_len := 3; ee_encoding := enc; ee_part_values := 0; ee_metadata := Some 7; ee_is_cs32 := true |}.
Definition items : list EncodingEntry := [entry_of add_encoding; entry_of loop_encoding].

(** The data segment is not null and 64 KiB long; [Cx] is 2. *)
Definition start_bytes : Z -> Z :=
  store (store (store (fun _ => 0) 8 (byte_offset_of (Gp Ds)) 8) 8 (byte_offset_of (Gp DsLimit)) 0xffff) 8 (byte_offset_of (Gp Cx)) 2.
Definition machine : Machine (Z -> Z) :=
  {| m_vars := fun _ => 0; m_cpu := start_bytes; m_k := 5; m_world := fun _ => 0x11; m_result := packed_default |}.

Definition mir : Mir := default {| mir_value_tree := []; mir_control_flow := [] |} (build_from_sequence 60 true true items).


(** ** They can be compiled and run *)

Lemma reg32_ok il pv enc flag r : r <> Riz -> 4 <= gp_byte_size r -> input_ok il pv enc flag (reg32 r).
Proof. intros Hr Hs. split; [done|]. exists (DReg (Gp r)). done. Qed.

Lemma dest32_ok il pv enc r : r <> Riz -> 4 <= gp_byte_size r -> dest_ok il pv enc (VLoc (reg32 r)).
Proof. intros Hr Hs. exists (DReg (Gp r)). repeat split; try done; cbn; try lia. congruence. Qed.
Lemma reg32_value il pv enc r : r <> Riz -> 4 <= gp_byte_size r -> val_ok il pv enc (VLoc (reg32 r)).
Proof. apply reg32_ok. Qed.

Lemma items_ok : Forall item_ok items.
Proof.
  apply List.Forall_cons; [|apply List.Forall_cons; [|constructor]].
  - split; cbn [entry_of ee_instr_len ee_part_values ee_encoding add_encoding enc_jump enc_commands enc_addresses].
    + done.
    + done.
    + apply List.Forall_cons; [done|]. apply List.Forall_cons.
      { split; [by apply dest32_ok|]. split; [by apply reg32_value|]. split; [done|]. by exists (DMemory 0). }
      apply list.Forall_singleton. split; [by apply reg32_value|]. split; [done|]. split; [|done]. split; [by apply dest32_ok|by apply reg32_value].
    + apply Forall_singleton. split; [by repeat (apply List.Forall_cons; [by apply reg32_ok|])|].
      split; [by repeat constructor|]. split; [done|]. eexists. split; [done|]. intros [|[|k]] t Ht; [..|done]; injection Ht as <-; done.
    + apply Forall_singleton. by intros i r [= _ <-].
  - split; cbn [entry_of ee_instr_len ee_part_values ee_encoding loop_encoding enc_jump enc_commands enc_addresses].
    + done.
    + split; [by apply reg32_value|]. apply Forall_singleton. by apply const_val_ok.
    + apply list.Forall_singleton. split; [by apply dest32_ok|]. split; [by apply reg32_value|by apply const_val_ok].
    + constructor.
    + constructor.
Qed.

Definition reg_fits (r : Reg) : bool :=
  let v := load_reg start_bytes r in (0 <=? v) && (v <? 2 ^ (8 * byte_size r)).
Lemma machine_enters : enters machine.
Proof.
  split; [split; [done|]|done|split].
  1,2: intros a; by repeat apply store_bytes_ok.
  intros r Hr. assert (reg_fits r = true) as [H1%Z.leb_le H2%Z.ltb_lt]%andb_prop; [|done].
  destruct r as [r|r]; [by destruct r; vm_compute|]. destruct r as [| | | | | | | | | | | | |n]; [by vm_compute..|].
  cbn in Hr. assert (n ∈ seqZ 0 8) as Hn by (apply elem_of_seqZ; lia). change (seqZ 0 8) with [0; 1; 2; 3; 4; 5; 6; 7] in Hn.
  repeat (apply elem_of_cons in Hn as [->|Hn]; [by vm_compute|]). by apply elem_of_nil in Hn.
Qed.

(** [Ax] gets the doubleword in memory, and [Dx] too; [Cx] is decremented and
    the second instruction jumps. *)
Definition expected (l : Left (Z -> Z)) : bool :=
  lf_success l && (gpreg (lf_cpu l) Ax =? 0x11111111) && (gpreg (lf_cpu l) Dx =? 0x11111111)
  && (gpreg (lf_cpu l) Cx =? 1) && (gpreg (lf_cpu l) Ip =? 0x16) && (lf_k l =? 7).
Lemma interpreted_example : exists l, interpreted true items machine = Some l /\ expected l = true.
Proof.
  assert (match interpreted true items machine with Some l => expected l | None => false end = true) as H by (vm_compute; reflexivity).
  destruct (interpreted true items machine) as [l|]; [|done]. by exists l.
Qed.

(** [mov eax, 1; if ecx then raise #GP(3)] *)
Definition fault_encoding : Encoding :=
  {| enc_parts := []; enc_packing := [];
     enc_commands := [Store (VLoc (reg32 Ax)) (OUn (const_val 1) Id); CIf (VLoc (reg32 Cx)) [] [CException (GeneralProtectionFault 0) (const_val 3)]];
     enc_addresses := []; enc_jump := Sequential |}.
Definition fault_items : list EncodingEntry := [entry_of fault_encoding; entry_of loop_encoding].
Definition fault_mir : Mir := default {| mir_value_tree := []; mir_control_flow := [] |} (build_from_sequence 60 true true fault_items).

Lemma fault_items_ok : Forall item_ok fault_items.
Proof.
  pose proof items_ok as [_ [Hloop _]%list.Forall_cons]%list.Forall_cons. apply List.Forall_cons; [|by apply List.Forall_cons].
  split; cbn [entry_of ee_instr_len ee_part_values ee_encoding fault_encoding enc_jump enc_commands enc_addresses]; try done; [|constructor..].
  apply List.Forall_cons; [split; [by apply dest32_ok|by apply const_val_ok]|]. apply list.Forall_singleton.
  split; [by apply reg32_value|]. split; [done|]. split; [by apply const_val_ok|done].
Qed.
