(* ===== verification/MirProps.v ===== *)
(** * What compiled code guarantees

    The theorems about [MirBuilder] and [EncodingEmitter] of
    [sem86-core/src/codegen/mir/mod.rs], with the example at which they are
    applied. *)
From S2P Require Import Prelude Exceptions IlOps Arch Packing Address IlLoc MemArea IlCmd IlExample Jump.
From S2P Require Import ValTree ValBuild ValSpec ValSound ValCombine ValMono CpuBytes Mir MirState MirEmit MirSpec MirStateSound.
From S2P Require Import MirCommit MirVals MirRun MirAddr MirMerge MirSim Interp MirSeq MirStrict MirCorrect MirExample.

Section props.
Context {W : Type} `{ctx : ExecCtx W} `{stable : !StableCtx W} `{sf : SoftFloat} `{sfl : !SoftFloatLaws}.
Context `{lay : Layout} `{laws : !LayoutLaws}.


End props.

(** ** Emitted values *)

Section emission.
Context `{sf : SoftFloat} `{sfl : !SoftFloatLaws} `{lay : Layout} `{laws : !LayoutLaws} {W : Type} `{ctx : ExecCtx W}.
Context (fuel : nat) (il pv : Z) (enc : Encoding).

(** The value that is emitted for an operator is, whenever the emitter stands
    for the temporaries and the state of the interpreter, what the interpreter
    computes: all operators, operands of every kind, with their byte ranges and
    conversions. *)
Theorem emitted_operator_correct (e : Emitter) (op : Op) (b b' : ValBuilder) (id : ValId) :
  wf b -> em_valid b e -> op_ok il pv enc op ->
  emit_op fuel true (Some il) (Some pv) enc e op b = Some (id, b') ->
  emit_op fuel false (Some il) (Some pv) enc e op b = Some (id, b') /\ wf b' /\ valid b' id
  /\ forall E M (c c' : Config W) r, env_ok E -> em_repr E M b e (tmp c) (sys c) -> entry_state il pv enc (sys c) ->
       op_execute op c = Some (r, c') -> r = Ok (den E b' id) /\ c' = c.
Proof.
  intros Hb He Hop Hemit. split; [by apply emit_op_lenient|].
  destruct (emit_op_spec fuel true il pv enc e op b eq_refl He Hop Hb id b' Hemit) as (_ & Hb' & Hv & Hd).
  split; [done|]. split; [done|]. intros E M c c' r HE Hr Hs Hex. rewrite op_execute_eval in Hex.
  destruct (op_eval (tmp c) (sys c) op) as [v|] eqn:Ev; [|done]. cbn [mbind option_bind] in Hex. injection Hex as <- <-.
  by rewrite (Hd E M (tmp c) (sys c) v).
Qed.

(** C7: The store that is emitted does to the emitter's picture of temporaries,
    registers and memory operands what the interpreter's write does to the
    state. *)
Theorem emitted_store_correct (e e' : Emitter) (to : Val) (new : ValId) (b b' : ValBuilder) :
  wf b -> em_valid b e -> dest_ok il pv enc to -> valid b new ->
  emit_store fuel (Some il) (Some pv) enc to new e b = Some ((tt, e'), b') ->
  wf b' /\ em_valid b' e'
  /\ forall E M (c c' : Config W) r, env_ok E -> em_repr E M b e (tmp c) (sys c) -> entry_state il pv enc (sys c) ->
       cwrite to (den E b new) c = Some (r, c') ->
       r = Ok tt /\ em_repr E M b' e' (tmp c') (sys c') /\ entry_state il pv enc (sys c') /\ world c' = world c.
Proof.
  intros Hb He Hto Hnew Hemit.
  destruct (emit_store_spec fuel il pv enc e to new (fun E => den E b new) b He Hto (conj Hnew (fun _ _ => eq_refl)) Hb _ _ Hemit) as (_ & Hb' & Hv & _ & Hw).
  split; [done|]. split; [done|]. intros E M c c' r HE Hr Hs Hex. unfold cwrite in Hex.
  destruct (val_write _ _ _ _) as [[t' s']|] eqn:Ew; [|done]. cbn [mbind option_bind] in Hex. injection Hex as <- <-.
  destruct (Hw E M (tmp c) (sys c) t' s' HE Hr Hs Ew) as [Hr' Hs']. done.
Qed.


(** The jump that is emitted at the end of an instruction gives the instruction
    pointer the value of the interpreter; the condition that is returned is the
    jump's condition from before. *)
Theorem emitted_jump_correct (is_cs32 : bool) (e e' : Emitter) (lj : option ValId) (b b' : ValBuilder) :
  wf b -> em_valid b e -> inw 128 il -> jump_ok il pv enc (enc_jump enc) ->
  MirEmit.emit_jump fuel (Some il) (Some pv) enc is_cs32 e b = Some ((lj, e'), b') ->
  wf b' /\ em_valid b' e' /\ em_cf e' = em_cf e
  /\ forall E M t s j, env_ok E -> em_repr E M b e t s -> entry_state il pv enc s ->
       Jump.emit_jump t s is_cs32 (enc_jump enc) = Some j ->
       em_repr E M b' e' t (default s j)
       /\ match jump_condition (enc_jump enc), lj with
          | Some c, Some id => forall v, val_eval t s c = Some v -> den E b' id = v
          | None, None => True
          | _, _ => False
          end.
Proof.
  intros Hb He Hil Hj Hemit.
  destruct (emit_jump_spec fuel il pv enc is_cs32 e b He Hil Hj Hb _ _ Hemit) as (_ & Hb' & Hv & Hk & Hc & Hjump). cbn [fst snd] in *.
  split; [done|]. split; [done|]. split; [apply Hk|]. intros E M t s j HE Hr Hs Ej.
  destruct (Hjump E M t s j HE Hr Hs Ej) as [Hr' _]. split; [done|].
  unfold condition_is in Hc. destruct (jump_condition (enc_jump enc)) as [c|], lj as [id|]; try done. intros v Hval. by apply (proj2 Hc E M t s v).
Qed.
End emission.

(** ** At the example *)

Lemma built_example : build_from_sequence 60 true true items = Some mir /\ byte_masks (mir_value_tree mir) = true.
Proof. split; vm_compute; reflexivity. Qed.


Lemma fault_example : build_from_sequence 60 true true fault_items = Some fault_mir /\ byte_masks (mir_value_tree fault_mir) = true
  /\ exists cfg p, run_checked (m_cpu machine) true (entry_of fault_encoding) (cpu_of (m_cpu machine)) (m_world machine)
       = Some (Err (GeneralProtectionFault 3), cfg) /\ packed_from_exception (GeneralProtectionFault 3) = Some p
     /\ gpreg (cpu (sys cfg)) Ax = 1.
Proof. split; [vm_compute; reflexivity|]. split; [vm_compute; reflexivity|]. do 2 eexists. repeat split; vm_compute; reflexivity. Qed.


(** The emitter at the entry of the example. *)
Definition start : SysState := start_state (entry_of add_encoding) (cpu_of start_bytes).
Abbreviation start_env := (env_of 0 0 machine).
Abbreviation start_cfg := {| sys := start; tmp := []; world := fun _ : Z => 0x11 |}.

Lemma start_valid : em_valid builder_new new_emitter.
Proof. split; [split; try done; constructor|constructor|constructor]. Qed.
Lemma start_repr enc : let s := start_state (entry_of enc) (cpu_of start_bytes) in
  env_ok start_env /\ em_repr start_env start_bytes builder_new new_emitter [] s /\ entry_state 3 0 enc s.
Proof.
  destruct machine_enters as [Hm Hk HM]. assert (inw 128 0) as H0 by by split.
  pose proof (entry_boundary 0 0 builder_new new_emitter machine Hm Hk HM eq_refl) as Hbd.
  assert (env_ok start_env) as HE by by apply env_of_ok. split; [done|]. split.
  - split; [|constructor|constructor|done|done]. apply (bd_repr _ _ _ _ _ _ _ _ _ _ _ Hbd start_env). by apply agrees_self.
  - apply (start_entry_state (entry_of enc)); [apply (bd_wf _ _ _ _ _ _ _ _ _ _ _ Hbd)|apply (bd_fits _ _ _ _ _ _ _ _ _ _ _ Hbd)].
Qed.

Definition sum_op : Op := OBin (VLoc (reg32 Cx)) (const_val 5) Add.
Lemma sum_emitted : exists id b' c', emit_op 60 true (Some 3) (Some 0) add_encoding new_emitter sum_op builder_new = Some (id, b')
  /\ op_execute sum_op start_cfg = Some (Ok 7, c').
Proof.
  assert (match emit_op 60 true (Some 3) (Some 0) add_encoding new_emitter sum_op builder_new with Some _ => true | None => false end = true) as H1
    by (vm_compute; reflexivity).
  assert (match op_execute sum_op start_cfg with Some (Ok v, _) => v =? 7 | _ => false end = true) as H2 by (vm_compute; reflexivity).
  destruct (emit_op _ _ _ _ _ _ _ _) as [[id b']|]; [|done]. destruct (op_execute sum_op start_cfg) as [[[v|] c']|]; [|done..].
  apply Z.eqb_eq in H2 as ->. by exists id, b', c'.
Qed.

Lemma emitted_operator_correct_witness : exists id b',
  emit_op 60 false (Some 3) (Some 0) add_encoding new_emitter sum_op builder_new = Some (id, b') /\ den start_env b' id = 7.
Proof.
  destruct sum_emitted as (id & b' & c' & Hemit & Hex). destruct (start_repr add_encoding) as (HE & Hr & Hs).
  assert (op_ok 3 0 add_encoding sum_op) as Hop by (split; [by apply reg32_value|by apply const_val_ok]).
  destruct (emitted_operator_correct (W := Z -> Z) 60 3 0 add_encoding new_emitter sum_op builder_new b' id wf_new start_valid Hop Hemit) as (H1 & _ & _ & H2).
  exists id, b'. split; [exact H1|]. destruct (H2 start_env start_bytes start_cfg c' (Ok 7) HE Hr Hs Hex) as [H3 _]. by injection H3.
Defined.

(** The second byte of [Dx]. *)
Definition dh : Val := VLoc {| loc := LReg (Gp Dx); size := {| start_byte := 1; end_byte := 1 |} |}.
Lemma store_emitted : exists new b0 e' b' c', imm 9 builder_new = Some (new, b0)
  /\ emit_store 60 (Some 3) (Some 0) add_encoding dh new new_emitter b0 = Some ((tt, e'), b')
  /\ cwrite dh 9 start_cfg = Some (Ok tt, c') /\ gpreg (cpu (sys c')) Dx = 0x900.
Proof.
  assert (match imm 9 builder_new with
          | Some (new, b0) => match emit_store 60 (Some 3) (Some 0) add_encoding dh new new_emitter b0 with Some _ => true | None => false end
          | None => false end = true) as H1 by (vm_compute; reflexivity).
  assert (match cwrite dh 9 start_cfg with Some (Ok _, c') => gpreg (cpu (sys c')) Dx =? 0x900 | _ => false end = true) as H2 by (vm_compute; reflexivity).
  destruct (imm 9 builder_new) as [[new b0]|]; [|done]. destruct (emit_store _ _ _ _ _ _ _ _) as [[[[] e'] b']|] eqn:E; [|done].
  destruct (cwrite dh 9 start_cfg) as [[[[]|] c']|]; [|done..]. apply Z.eqb_eq in H2. by exists new, b0, e', b', c'.
Qed.

Lemma emitted_store_correct_witness : exists b' e' s,
  em_repr start_env start_bytes b' e' [] s /\ gpreg (cpu s) Dx = 0x900.
Proof.
  destruct store_emitted as (new & b0 & e' & b' & c' & Himm & Hemit & Hex & Hdx). destruct (start_repr add_encoding) as (HE & Hr & Hs).
  assert (inw 128 9) as H9 by by split. destruct (spec_imm 9 builder_new H9 wf_new new b0 Himm) as (Hx & Hb0 & Hv & Hd).
  assert (dest_ok 3 0 add_encoding dh) as Hto by by (exists (DReg (Gp Dx)); split; [|split; [split|]]).
  destruct (emitted_store_correct (W := Z -> Z) 60 3 0 add_encoding new_emitter e' dh new b0 b' Hb0 (em_valid_later _ _ _ Hx start_valid) Hto Hv Hemit)
    as (_ & _ & Hstore).
  rewrite <- (Hd start_env HE) in Hex. pose proof (em_repr_later start_env start_bytes builder_new b0 new_emitter [] start Hx start_valid Hr) as Hr0.
  destruct (Hstore start_env start_bytes start_cfg c' (Ok tt) HE Hr0 Hs Hex) as (_ & Hr' & _). exists b', e', (sys c').
  split; [|exact Hdx]. destruct c' as [s' t' w']. cbn [tmp sys] in *. assert (t' = []) as -> by (by unfold cwrite, val_write, dh in Hex; destruct (modify_dest _ _ _); [injection Hex as _ <- _|]).
  exact Hr'.
Defined.

Definition add_addresses : list MemoryAccess := enc_addresses add_encoding.
Lemma addresses_emitted : exists e' b', emit_memory_accesses 60 (Some 3) (Some 0) add_encoding add_addresses new_emitter builder_new = Some ((tt, e'), b')
  /\ extract_memory_areas true start add_addresses = Some [Protected 4 4]
  /\ Forall2 (segment_ok 3 0 add_encoding true start) add_addresses [Protected 4 4].
Proof.
  assert (match emit_memory_accesses 60 (Some 3) (Some 0) add_encoding add_addresses new_emitter builder_new with Some _ => true | None => false end = true) as H1
    by (vm_compute; reflexivity).
  assert (extract_memory_areas true start add_addresses = Some [Protected 4 4]) as H2 by (vm_compute; reflexivity).
  destruct (emit_memory_accesses _ _ _ _ _ _ _) as [[[[] e'] b']|]; [|done]. exists e', b'. split; [done|]. split; [done|].
  destruct (start_repr add_encoding) as (_ & _ & Hs). pose proof items_ok as [Hadd _]%list.Forall_cons.
  assert (check_segments true start [Protected 4 4] add_addresses = Some true) as Hcheck by (vm_compute; reflexivity).
  assert (true && negb (get_flag (cpu start) Vm) = true) as Hflag by (vm_compute; reflexivity).
  assert (Forall (fun a => inw 32 (start_addr a)) [Protected 4 4]) as Hin by (apply Forall_singleton; cbn [start_addr]; unfold inw; lia).
  pose proof (check_segments_ok 3 0 add_encoding start Hs true [Protected 4 4] add_addresses eq_refl (io_segments _ Hadd) Hin Hcheck) as H.
  rewrite Hflag in H. exact H.
Qed.


Definition loop_start : SysState := start_state (entry_of loop_encoding) (cpu_of start_bytes).
Lemma jump_emitted : exists lj e' b' j, MirEmit.emit_jump 60 (Some 3) (Some 0) loop_encoding true new_emitter builder_new = Some ((Some lj, e'), b')
  /\ Jump.emit_jump [] loop_start true (enc_jump loop_encoding) = Some j /\ gpreg (cpu (default loop_start j)) Ip = 0x13.
Proof.
  assert (match MirEmit.emit_jump 60 (Some 3) (Some 0) loop_encoding true new_emitter builder_new with Some ((Some _, _), _) => true | _ => false end = true) as H1
    by (vm_compute; reflexivity).
  assert (match Jump.emit_jump [] loop_start true (enc_jump loop_encoding) with Some j => gpreg (cpu (default loop_start j)) Ip =? 0x13 | None => false end = true) as H2
    by (vm_compute; reflexivity).
  destruct (MirEmit.emit_jump _ _ _ _ _ _ _) as [[[[lj|] e'] b']|]; [|discriminate H1|discriminate H1].
  destruct (Jump.emit_jump _ _ _ _) as [j|]; [|discriminate H2].
  apply Z.eqb_eq in H2. by exists lj, e', b', j.
Qed.

Lemma emitted_jump_correct_witness : exists lj e' b' s,
  em_repr start_env start_bytes b' e' [] s /\ gpreg (cpu s) Ip = 0x13 /\ den start_env b' lj = 2.
Proof.
  destruct jump_emitted as (lj & e' & b' & j & Hemit & Hj & Hip). destruct (start_repr loop_encoding) as (HE & Hr & Hs).
  assert (inw 128 3) as H3 by by split. pose proof items_ok as [_ [Hloop _]%list.Forall_cons]%list.Forall_cons.
  destruct (emitted_jump_correct 60 3 0 loop_encoding true new_emitter e' (Some lj) builder_new b' wf_new start_valid H3 (io_jump _ Hloop) Hemit)
    as (_ & _ & _ & Hjump).
  destruct (Hjump start_env start_bytes [] loop_start j HE Hr Hs Hj) as [Hr' Hc]. exists lj, e', b', (default loop_start j).
  split; [exact Hr'|]. split; [exact Hip|]. apply Hc. vm_compute. reflexivity.
Defined.
