(* ===== verification/BbOpt.v ===== *)
(** * Path conditions

    The first two passes of [BbGraph::optimize] of
    [sem86-core/src/codegen/mir/bb.rs]: what the branches on the way to a block
    say about their conditions, and the branches and committed values that this
    decides; with [ValBuilder::remap] of [codegen/mir/val.rs].  The last pass,
    which moves stores to the CPU state before branches, is not modelled. *)
From stdpp Require Import gmap.
From S2P Require Import Prelude IlOps Scc ValTree ValBuild Mir.

#[local] Open Scope bm_scope.

(** ** What is known of a value *)

Inductive Class : Type := ClassIsZero | ClassIsNonZero | ClassAny.
#[export] Instance Class_eq_dec : EqDecision Class.
Proof. solve_decision. Defined.

Definition class_union (a b : Class) : Class := if decide (a = b) then a else ClassAny.

Definition Assumptions : Type := option (gmap ValId Class).

(** The default. *)
Definition unknown : Assumptions := None.

Definition conditions (a : Assumptions) : gmap ValId Class := match a with Some a => a | None => ∅ end.

(** [extra] is used only if nothing was known. *)
Definition union_with (self other : Assumptions) (extra : option (ValId * Class)) : Assumptions :=
  match self with
  | Some existing => Some (base.union_with (fun a b => Some (class_union a b)) existing (conditions other))
  | None => match extra with
            | Some (val, class) => Some (<[val := class]> (conditions other))
            | None => Some (conditions other)
            end
  end.

Definition class_of (a : Assumptions) (val : ValId) : option Class := conditions a !! val.

(** ** Along the edges of the graph *)

Definition transitions_of (g : list Bb) (b : BbId) : option (list BbId) := next_blocks <$> g !! b.

(** [get_disjoint_mut(..).unwrap()] *)
Definition disjoint (ids : list BbId) : bool := bool_decide (NoDup ids).

(** [edge next current extra] *)
Definition flow (l : list Assumptions) (current next : BbId) (extra : option (ValId * Class)) : option (list Assumptions) :=
  known ← l !! current;
  existing ← l !! next;
  Some (<[next := union_with existing known extra]> l).

Definition flow_block (g : list Bb) (l : list Assumptions) (id : BbId) : option (list Assumptions) :=
  bb ← g !! id;
  match bb with
  | BSeq _ next | BJump next => assert (disjoint [next; id]);; flow l id next None
  | BBr cond if_zero if_nonzero =>
      assert (disjoint [if_zero; if_nonzero; id]);;
      l ← flow l id if_zero (Some (cond, ClassIsZero));
      flow l id if_nonzero (Some (cond, ClassIsNonZero))
  | BFallible _ if_ok if_exception =>
      assert (disjoint [if_ok; if_exception; id]);;
      l ← flow l id if_ok None;
      flow l id if_exception None
  | BCommitAndExit _ _ _ _ _ => Some l
  end.

Fixpoint flow_all (g : list Bb) (order : list BbId) (l : list Assumptions) : option (list Assumptions) :=
  match order with
  | [] => Some l
  | id :: order => l ← flow_block g l id; flow_all g order l
  end.

(** The components must have one element. *)
Fixpoint single_nodes (components : list (list nat)) : option (list nat) :=
  match components with
  | [] => Some []
  | [v] :: components => l ← single_nodes components; Some (v :: l)
  | _ :: _ => None
  end.

Definition path_conditions (sfuel : nat) (g : list Bb) : option (list Assumptions) :=
  components ← iterate (length g) (transitions_of g) sfuel;
  order ← single_nodes components;
  flow_all g (reverse order) (replicate (length g) unknown).

(** ** Rebuilding values *)

(** [ValNode::remap]; [HashMap::index] panics on an absent key. *)
Definition node_remap (vfuel : nat) (map : gmap ValId ValId) (n : ValNode) : bm (option ValId) :=
  let get (i : ValId) : bm ValId := blift (map !! i) in
  match n with
  | NBinOp op lhs rhs => x <~ get lhs;; y <~ get rhs;; found (binop vfuel op x y)
  | NFpBinOp op lhs rhs rc => x <~ get lhs;; y <~ get rhs;; r <~ get rc;; found (fp_binop op x y r)
  | NFpUnOp op arg rc => x <~ get arg;; r <~ get rc;; found (fp_unop op x r)
  | NUnOp op arg => x <~ get arg;; found (unop op x)
  | NExtract val skip take => x <~ get val;; found (extract vfuel x skip take)
  | NIte cond if_zero if_nonzero =>
      c <~ get cond;; z <~ get if_zero;; nz <~ get if_nonzero;; found (ite vfuel c z nz)
  | NLoadPtr ptr offset size => o <~ get offset;; found (load_ptr_offset ptr size o)
  | _ => bret None
  end.

(** [f] is given the remapped value and its node. *)
Fixpoint remap_nodes (vfuel : nat) (f : ValId -> ValNode -> option ValId) (order : list ValId)
    (map : gmap ValId ValId) : bm (gmap ValId ValId) :=
  match order with
  | [] => bret map
  | original :: order =>
      n <~ node original;;
      r <~ node_remap vfuel map n;;
      let remapped := default original r in
      n <~ node remapped;;
      remap_nodes vfuel f order (<[original := default remapped (f remapped n)]> map)
  end.

(** The components are those reachable from [val], so that [relevant] holds
    for all of them. *)
Definition remap (sfuel vfuel : nat) (val : ValId) (f : ValId -> ValNode -> option ValId) : bm ValId := fun b =>
  components ← iterate_with_roots (length (value_tree b)) (fun i => referenced_nodes <$> value_tree b !! i) sfuel [val];
  order ← single_nodes components;
  (map <~ remap_nodes vfuel f order ∅;; blift (map !! val)) b.

(** ** Branches and values that the conditions decide *)

Definition decided (a : Assumptions) (zero one : ValId) (id : ValId) (n : ValNode) : option ValId :=
  match n with
  | NIte cond if_zero if_nonzero =>
      match class_of a cond with
      | Some ClassIsZero => Some if_zero
      | Some ClassIsNonZero => Some if_nonzero
      | _ => None
      end
  | NUnOp IsZero arg =>
      match class_of a arg with
      | Some ClassIsZero => Some one
      | Some ClassIsNonZero => Some zero
      | _ => None
      end
  | _ => if decide (class_of a id = Some ClassIsZero) then Some zero else None
  end.

Fixpoint remap_all {A} (sfuel vfuel : nat) (f : ValId -> ValNode -> option ValId) (values : list (A * ValId)) : bm (list (A * ValId)) :=
  match values with
  | [] => bret []
  | (x, v) :: values =>
      v <~ remap sfuel vfuel v f;;
      values <~ remap_all sfuel vfuel f values;;
      bret ((x, v) :: values)
  end.

Definition decide_jump (a : Assumptions) (zero one cond : ValId) : ValId :=
  match class_of a cond with
  | Some ClassIsZero => zero
  | Some ClassIsNonZero => one
  | _ => cond
  end.

Definition decide_block (sfuel vfuel : nat) (bb : Bb) (a : Assumptions) : bm Bb :=
  match bb with
  | BBr cond if_zero if_nonzero =>
      bret (match class_of a cond with
            | Some ClassIsZero => BJump if_zero
            | Some ClassIsNonZero => BJump if_nonzero
            | _ => bb
            end)
  | BCommitAndExit metadata values last_jump_condition k success =>
      zero <~ imm 0;;
      one <~ imm 1;;
      values <~ remap_all sfuel vfuel (decided a zero one) values;;
      jump <~ (match last_jump_condition with
               | Some cond => cond <~ remap sfuel vfuel cond (decided a zero one);; bret (Some (decide_jump a zero one cond))
               | None => bret None
               end);;
      bret (BCommitAndExit metadata values jump k success)
  | _ => bret bb
  end.

Fixpoint decide_blocks (sfuel vfuel : nat) (g : list Bb) (l : list Assumptions) : bm (list Bb) :=
  match g, l with
  | bb :: g, a :: l =>
      bb <~ decide_block sfuel vfuel bb a;;
      g <~ decide_blocks sfuel vfuel g l;;
      bret (bb :: g)
  | _, _ => bret g
  end.

Definition optimize_paths (sfuel vfuel : nat) (g : list Bb) : bm (list Bb) :=
  l <~ blift (path_conditions sfuel g);; decide_blocks sfuel vfuel g l.
