(* ===== verification/BbTree.v ===== *)
(** * What the path conditions say

    A path condition is consistent if every edge of the graph establishes it:
    it already holds before the edge, or the edge is the side of a branch that
    tests it.  On graphs where no two paths meet the pass computes consistent
    conditions; where paths meet it need not. *)
From stdpp Require Import gmap.
From S2P Require Import Prelude IlOps Scc ValTree ValBuild Mir BbOpt.

(** ** Consistent conditions *)

Definition known (l : list Assumptions) (b : BbId) (v : ValId) (c : Class) : Prop :=
  c <> ClassAny /\ exists a, l !! b = Some a /\ class_of a v = Some c.

(** What the edge to [b] from a block says of [v]. *)
Definition edge_says (bb : Bb) (b : BbId) (v : ValId) (c : Class) : Prop :=
  match bb with
  | BBr cond if_zero if_nonzero =>
      v = cond /\ ((b = if_zero /\ c = ClassIsZero) \/ (b = if_nonzero /\ c = ClassIsNonZero))
  | _ => False
  end.
Definition edge_saysb (bb : Bb) (b : BbId) (v : ValId) (c : Class) : bool :=
  match bb with
  | BBr cond if_zero if_nonzero =>
      bool_decide (v = cond)
      && (bool_decide (b = if_zero) && bool_decide (c = ClassIsZero) || bool_decide (b = if_nonzero) && bool_decide (c = ClassIsNonZero))
  | _ => false
  end.

Definition consistent (g : list Bb) (l : list Assumptions) : Prop :=
  (forall v c, ~ known l 0 v c)
  /\ forall p bb b v c, g !! p = Some bb -> b ∈ next_blocks bb -> known l b v c -> known l p v c \/ edge_says bb b v c.

(** A decision procedure. *)
Definition facts (l : list Assumptions) (b : BbId) : list (ValId * Class) :=
  filter (fun x : ValId * Class => x.2 <> ClassAny) (map_to_list (match l !! b with Some a => conditions a | None => ∅ end)).
Definition edge_consistent (l : list Assumptions) (p : BbId) (bb : Bb) (b : BbId) : bool :=
  forallb (fun x : ValId * Class => bool_decide (x ∈ facts l p) || edge_saysb bb b x.1 x.2) (facts l b).
Definition consistentb (g : list Bb) (l : list Assumptions) : bool :=
  bool_decide (facts l 0 = [])
  && forallb (fun x : nat * Bb => forallb (edge_consistent l x.1 x.2) (next_blocks x.2)) (imap pair g).

Lemma elem_of_facts l b v c : (v, c) ∈ facts l b <-> known l b v c.
Proof.
  unfold facts, known. rewrite list_elem_of_filter. cbn [snd]. split; intros [Hc H]; (split; [done|]).
  - apply elem_of_map_to_list in H. destruct (l !! b) as [a|] eqn:E; [|done].
    exists a. split; [done|]. by destruct a.
  - destruct H as (a & Ha & Hv). apply elem_of_map_to_list. rewrite Ha. unfold class_of in Hv. by destruct a.
Qed.

Lemma edge_saysb_true bb b v c : edge_saysb bb b v c = true <-> edge_says bb b v c.
Proof.
  destruct bb; cbn; try done. rewrite andb_true_iff, orb_true_iff, !andb_true_iff, !bool_decide_eq_true. done.
Qed.

Lemma consistentb_true g l : consistentb g l = true -> consistent g l.
Proof.
  unfold consistentb. rewrite andb_true_iff, bool_decide_eq_true, forallb_forall. intros [H0 H]. split.
  - intros v c Hk%elem_of_facts. rewrite H0 in Hk. by apply elem_of_nil in Hk.
  - intros p bb b v c Hp Hb Hk%elem_of_facts. assert (In (p, bb) (imap pair g)) as Hin.
    { apply list_elem_of_In, list_elem_of_lookup. exists p. by rewrite list_lookup_imap, Hp. }
    specialize (H _ Hin). rewrite forallb_forall in H. specialize (H b ltac:(by apply list_elem_of_In)).
    unfold edge_consistent in H. rewrite forallb_forall in H. specialize (H (v, c) ltac:(by apply list_elem_of_In)).
    apply orb_true_iff in H as [H%bool_decide_eq_true%elem_of_facts|H%edge_saysb_true]; [by left|by right].
Qed.

(** ** One step of the pass *)

Lemma union_known a other extra v c :
  c <> ClassAny -> class_of (union_with a other extra) v = Some c ->
  class_of a v = Some c \/ class_of other v = Some c \/ (a = None /\ extra = Some (v, c)).
Proof.
  intros Hc. unfold class_of. destruct a as [a|]; cbn [union_with conditions].
  - rewrite lookup_union_with. destruct (a !! v) as [x|], (conditions other !! v) as [y|]; cbn; try (by intros [= ->]; auto).
    unfold class_union. destruct (decide (x = y)) as [->|]; intros [= <-]; [by left|done].
  - destruct extra as [[w d]|]; cbn [conditions]; [|by auto]. destruct (decide (w = v)) as [->|Hw].
    + rewrite lookup_insert_eq. intros [= ->]. by right; right.
    + rewrite lookup_insert_ne by done. by auto.
Qed.

Lemma flow_lookup l p b extra l' :
  flow l p b extra = Some l' ->
  exists a o, l !! p = Some o /\ l !! b = Some a /\ l' = <[b := union_with a o extra]> l /\ length l' = length l.
Proof.
  unfold flow. destruct (l !! p) as [o|]; [|done]. cbn [mbind option_bind]. destruct (l !! b) as [a|]; [|done]. cbn [mbind option_bind].
  intros [= <-]. exists a, o. split; [done|]. split; [done|]. split; [done|]. by rewrite length_insert.
Qed.

(** Only the successors of the block learn something; what they learn was known
    or is what the edge says.  A successor of which nothing is known learns it
    at once, and then only that. *)
Record flowed (l : list Assumptions) (p : BbId) (bb : Bb) (l' : list Assumptions) : Prop := {
  fl_length : length l' = length l;
  fl_apart : (p ∉ next_blocks bb) /\ NoDup (next_blocks bb);
  fl_other : forall b, b ∉ next_blocks bb -> l' !! b = l !! b;
  fl_next : forall b v c, b ∈ next_blocks bb -> known l' b v c -> l !! b = Some unknown -> known l p v c \/ edge_says bb b v c;
}.

Lemma flow_next l p b extra l' v c :
  flow l p b extra = Some l' -> known l' b v c -> l !! b = Some unknown -> known l p v c \/ extra = Some (v, c).
Proof.
  intros (a & o & Hp & Hb & -> & _)%flow_lookup (Hc & x & Hx & Hv) Hn. rewrite list_lookup_insert_eq in Hx by (by apply lookup_lt_Some in Hb).
  injection Hx as <-. rewrite Hb in Hn. injection Hn as ->. apply union_known in Hv as [Hv|[Hv|[_ He]]]; [done| |by right|done].
  left. split; [done|]. by exists o.
Qed.
Lemma flow_other l p b extra l' b' : flow l p b extra = Some l' -> b' <> b -> l' !! b' = l !! b'.
Proof. intros (a & o & _ & _ & -> & _)%flow_lookup Hb. by apply list_lookup_insert_ne. Qed.
Lemma known_eq l l' b v c : l !! b = l' !! b -> known l b v c -> known l' b v c.
Proof. intros E (Hc & a & Ha & Hv). split; [done|]. exists a. by rewrite <- E. Qed.

Lemma flow_two l p b1 b2 e1 e2 bb l1 l2 :
  flow l p b1 e1 = Some l1 -> flow l1 p b2 e2 = Some l2 -> NoDup [b1; b2; p] -> next_blocks bb = [b1; b2] ->
  (forall v c, e1 = Some (v, c) -> edge_says bb b1 v c) -> (forall v c, e2 = Some (v, c) -> edge_says bb b2 v c) ->
  flowed l p bb l2.
Proof.
  intros H1 H2 Hnd En He1 He2. apply list.NoDup_cons in Hnd as [Hb1 Hnd]. apply list.NoDup_cons in Hnd as [Hb2 _].
  rewrite !elem_of_cons, !elem_of_nil in Hb1. rewrite !elem_of_cons, !elem_of_nil in Hb2. pose proof (flow_lookup _ _ _ _ _ H1) as (_ & _ & _ & _ & _ & L1).
  pose proof (flow_lookup _ _ _ _ _ H2) as (_ & _ & _ & _ & _ & L2). split; rewrite ?En.
  - congruence.
  - rewrite !elem_of_cons, elem_of_nil. split; [intros [->|[->|[]]]; tauto|]. apply list.NoDup_cons. rewrite elem_of_cons, elem_of_nil.
    split; [tauto|]. apply NoDup_singleton.
  - intros b. rewrite !elem_of_cons, elem_of_nil. intros Hb. rewrite (flow_other _ _ _ _ _ _ H2) by tauto. by apply (flow_other _ _ _ _ _ _ H1); tauto.
  - intros b v c. rewrite !elem_of_cons, elem_of_nil. intros [->|[->|[]]] Hk Hn.
    + assert (known l1 b1 v c) as Hk1 by (apply (known_eq l2); [apply (flow_other _ _ _ _ _ _ H2); tauto|done]).
      destruct (flow_next _ _ _ _ _ _ _ H1 Hk1 Hn); auto.
    + rewrite <- (flow_other _ _ _ _ _ b2 H1) in Hn by (intros ->; tauto).
      destruct (flow_next _ _ _ _ _ _ _ H2 Hk Hn) as [Hp|He]; [|auto]. left. apply (known_eq l1); [|done].
      apply (flow_other _ _ _ _ _ _ H1). intros ->. tauto.
Qed.

Lemma assert_true b (P : Prop) {A} (k : option A) r : (assert b;; k) = Some r -> (b = true -> k = Some r -> P) -> P.
Proof. destruct b; [|done]. intros H HP. by apply HP. Qed.

Lemma flow_block_flowed g l p l' bb : g !! p = Some bb -> flow_block g l p = Some l' -> flowed l p bb l'.
Proof.
  intros Hg. unfold flow_block. rewrite Hg. cbn [mbind option_bind]. destruct bb as [next|cond z nz|entry next|op ok ex|].
  1,3: intros H; apply (assert_true _ _ _ _ H); clear H; intros [Hnp _]%bool_decide_eq_true%list.NoDup_cons H;
    rewrite list_elem_of_singleton in Hnp; pose proof (flow_lookup _ _ _ _ _ H) as (_ & _ & _ & _ & _ & L);
    (split; cbn [next_blocks]; [done|rewrite list_elem_of_singleton; split; [congruence|apply NoDup_singleton]| |]);
    [intros b [Hb _]%not_elem_of_cons; by apply (flow_other _ _ _ _ _ _ H)|];
    intros b v c ->%list_elem_of_singleton Hk Hn; by destruct (flow_next _ _ _ _ _ _ _ H Hk Hn) as [|]; [left|].
  3: intros [= <-]; split; cbn [next_blocks]; [done|split; [by intros ?%elem_of_nil|constructor]|done|by intros b v c ?%elem_of_nil].
  all: intros H; apply (assert_true _ _ _ _ H); clear H; intros Hnd%bool_decide_eq_true H.
  - destruct (flow l p z _) as [l1|] eqn:E; [|done]. apply (flow_two _ _ _ _ _ _ _ _ _ E H); [done|done|by intros v c [= <- <-]; split; [|left]|by intros v c [= <- <-]; split; [|right]].
  - destruct (flow l p ok _) as [l1|] eqn:E; [|done]. by apply (flow_two _ _ _ _ _ _ _ _ _ E H).
Qed.

(** ** Graphs where no two paths meet *)

(** No block is entered from two places, the first from none. *)
Definition tree (g : list Bb) : bool :=
  bool_decide (NoDup (mjoin (next_blocks <$> g))) && bool_decide (0%nat ∉ mjoin (next_blocks <$> g)).

Definition next_of (g : list Bb) (p b : BbId) : Prop := exists bb, g !! p = Some bb /\ b ∈ next_blocks bb.

Lemma next_of_concat g p b : next_of g p b -> b ∈ mjoin (next_blocks <$> g).
Proof.
  intros (bb & Hp & Hb). apply list_elem_of_join. exists (next_blocks bb). split; [done|].
  apply list_elem_of_fmap. exists bb. split; [done|]. by apply list_elem_of_lookup_2 in Hp.
Qed.

Lemma concat_unique (l : list (list nat)) i j a b x :
  NoDup (mjoin l) -> l !! i = Some a -> l !! j = Some b -> x ∈ a -> x ∈ b -> i = j.
Proof.
  revert i j. induction l as [|k l IH]; intros i j; [done|]. cbn [mjoin list_join]. intros (_ & Hd & Hl)%list.NoDup_app Hi Hj Ha Hb.
  assert (forall n c, l !! n = Some c -> x ∈ c -> x ∈ mjoin l) as Hin.
  { intros n c Hn Hc. apply list_elem_of_join. exists c. split; [done|]. by apply list_elem_of_lookup_2 in Hn. }
  destruct i as [|i], j as [|j]; cbn in Hi, Hj; [done| | |f_equal; by apply IH]; exfalso.
  - injection Hi as ->. by apply (Hd x Ha), (Hin j b).
  - injection Hj as ->. by apply (Hd x Hb), (Hin i a).
Qed.

Lemma tree_unique g p q b : tree g = true -> next_of g p b -> next_of g q b -> p = q.
Proof.
  intros [Hnd%bool_decide_eq_true _]%andb_prop (bp & Hp & Hbp) (bq & Hq & Hbq).
  apply (concat_unique (next_blocks <$> g) p q (next_blocks bp) (next_blocks bq) b); try done; by rewrite list_lookup_fmap, ?Hp, ?Hq.
Qed.
Lemma tree_start g p : tree g = true -> ~ next_of g p 0.
Proof. intros [_ H0%bool_decide_eq_true]%andb_prop H. by apply H0, (next_of_concat g p). Qed.
Lemma tree_edges g p bb : tree g = true -> g !! p = Some bb -> NoDup (next_blocks bb).
Proof.
  intros [Hnd%bool_decide_eq_true _]%andb_prop Hp. revert p Hp Hnd. induction g as [|x g IH]; intros p; [done|]. cbn [fmap list_fmap mjoin list_join].
  destruct p as [|p]; cbn; intros Hp Hnd%list.NoDup_app; [injection Hp as ->; tauto|]. apply (IH p Hp). tauto.
Qed.

(** Predecessors are visited first. *)
Definition preds_first (g : list Bb) (order : list BbId) : Prop :=
  forall i j p q, order !! i = Some p -> order !! j = Some q -> next_of g p q -> (i < j)%nat.

Record flow_inv (g : list Bb) (visited : list BbId) (l : list Assumptions) : Prop := {
  fi_length : length l = length g;
  fi_new : forall b, (b < length g)%nat -> (forall p, p ∈ visited -> ~ next_of g p b) -> l !! b = Some unknown;
  fi_edge : forall p bb b v c, p ∈ visited -> g !! p = Some bb -> b ∈ next_blocks bb -> known l b v c ->
    known l p v c \/ edge_says bb b v c;
}.

Lemma flow_some l p b extra : (p < length l)%nat -> (b < length l)%nat -> exists l', flow l p b extra = Some l' /\ length l' = length l.
Proof.
  intros [o Ho]%lookup_lt_is_Some_2 [a Ha]%lookup_lt_is_Some_2. unfold flow. rewrite Ho. cbn [mbind option_bind]. rewrite Ha. cbn [mbind option_bind].
  eexists. split; [done|]. by rewrite length_insert.
Qed.

Lemma flow_block_some g l p bb :
  g !! p = Some bb -> length l = length g -> NoDup (next_blocks bb) -> p ∉ next_blocks bb ->
  Forall (fun b => (b < length g)%nat) (next_blocks bb) -> is_Some (flow_block g l p).
Proof.
  intros Hp Hl Hnd Hself Hlt. unfold flow_block. rewrite Hp. cbn [mbind option_bind]. apply lookup_lt_Some in Hp. rewrite <- Hl in Hp, Hlt.
  assert (disjoint (next_blocks bb ++ [p]) = true) as Hall.
  { apply bool_decide_eq_true_2, list.NoDup_app. split; [done|]. split; [|apply NoDup_singleton]. intros x Hx ->%list_elem_of_singleton. done. }
  destruct bb as [next|cond z nz|entry next|op ok ex|]; cbn [next_blocks app] in Hall, Hlt; try rewrite Hall; cbn [assert mbind option_bind]; try by eexists.
  all: decompose_Forall_hyps.
  1,3: edestruct (flow_some l p next None) as (l1 & -> & _); [done..|by eexists].
  - destruct (flow_some l p z (Some (cond, ClassIsZero))) as (l1 & -> & E); [done..|]. cbn [mbind option_bind].
    destruct (flow_some l1 p nz (Some (cond, ClassIsNonZero))) as (l2 & -> & _); [by rewrite E..|by eexists].
  - destruct (flow_some l p ok None) as (l1 & -> & E); [done..|]. cbn [mbind option_bind].
    destruct (flow_some l1 p ex None) as (l2 & -> & _); [by rewrite E..|by eexists].
Qed.

Lemma flow_block_inv g visited p rest l l' bb :
  tree g = true -> flow_inv g visited l -> NoDup (visited ++ p :: rest) -> preds_first g (visited ++ p :: rest) ->
  g !! p = Some bb -> flow_block g l p = Some l' -> flow_inv g (visited ++ [p]) l'.
Proof.
  intros Htree [Hl Hnew Hedge] Hnd Hfirst Hp Hflow. pose proof (flow_block_flowed g l p l' bb Hp Hflow) as [Hlen [Hself Hnext] Hother Hlearn].
  assert (forall b, b ∈ next_blocks bb -> next_of g p b) as Hn by (intros b Hb; by exists bb).
  assert (p ∉ visited) as Hpv by (apply list.NoDup_app in Hnd as (_ & Hd & _); intros Hv; apply (Hd p Hv); by left).
  assert (forall q, q ∈ visited -> q ∉ next_blocks bb) as Hvisited.
  { intros q [i Hi]%list_elem_of_lookup Hq. assert (length visited < i)%nat.
    - apply (Hfirst (length visited) i p q); [by rewrite list_lookup_middle|by apply lookup_app_l_Some|by apply Hn].
    - apply lookup_lt_Some in Hi. lia. }
  split; [congruence| |].
  - intros b Hb Hnone. rewrite Hother.
    + apply Hnew; [done|]. intros q Hq. apply Hnone. apply elem_of_app. by left.
    + intros Hin. apply (Hnone p); [apply elem_of_app; right; by left|by apply Hn].
  - intros q qb b v c [Hq| ->%list_elem_of_singleton]%elem_of_app Hqb Hb Hk.
    + assert (b ∉ next_blocks bb) as Hnb.
      { intros Hin. assert (p = q) as ->; [|done]. apply (tree_unique g p q b Htree); [by apply Hn|by exists qb]. }
      destruct (Hedge q qb b v c Hq Hqb Hb) as [Hkq|He]; [by apply (known_eq l'); [apply Hother|]| |by right].
      left. apply (known_eq l); [|done]. symmetry. apply Hother. by apply Hvisited.
    + rewrite Hp in Hqb. injection Hqb as <-. destruct (Hlearn b v c Hb Hk) as [Hkp|He]; [| |by right].
      * destruct (decide (b < length g)%nat) as [Hlt|Hge].
        -- apply Hnew; [done|]. intros q Hq Hqb. assert (p = q) as ->; [|done]. by apply (tree_unique g p q b Htree); [apply Hn|].
        -- destruct Hk as (_ & a & Ha & _). apply lookup_lt_Some in Ha. lia.
      * left. apply (known_eq l); [|done]. symmetry. by apply Hother.
Qed.

Lemma flow_all_inv g order visited l :
  tree g = true -> flow_inv g visited l -> NoDup (visited ++ order) -> preds_first g (visited ++ order) ->
  Forall (fun b => (b < length g)%nat) order -> (forall p b, next_of g p b -> (b < length g)%nat /\ b <> p) ->
  exists l', flow_all g order l = Some l' /\ flow_inv g (visited ++ order) l'.
Proof.
  intros Htree Hi Hnd Hfirst Hlt Hrange. revert visited l Hi Hnd Hfirst. induction Hlt as [|p order Hp _ IH]; intros visited l Hi Hnd Hfirst.
  { exists l. split; [done|]. by rewrite app_nil_r. }
  destruct (proj2 (lookup_lt_is_Some g p) Hp) as [bb Hbb]. cbn [flow_all].
  destruct (flow_block_some g l p bb Hbb) as [l1 Hl1].
  - apply Hi.
  - by apply (tree_edges g p).
  - intros Hin. destruct (Hrange p p) as [_ []]; [by exists bb|done].
  - apply list.Forall_forall. intros b Hb. apply (Hrange p). by exists bb.
  - rewrite Hl1. cbn [mbind option_bind]. replace (visited ++ p :: order) with ((visited ++ [p]) ++ order) in * by (by rewrite <- app_assoc).
    apply IH; [|done..]. apply (flow_block_inv g visited p order l l1 bb); try done; by rewrite <- app_assoc in Hnd, Hfirst.
Qed.

Definition in_range (g : list Bb) : Prop := forall p b, next_of g p b -> (b < length g)%nat.

Lemma single_nodes_map l : single_nodes ((fun v => [v]) <$> l) = Some l.
Proof. induction l as [|v l IH]; [done|]. cbn [fmap list_fmap single_nodes]. by rewrite IH. Qed.

(** A graph without cycles, by the numbers of the blocks or another order. *)
Definition ranked (g : list Bb) (rank : BbId -> nat) : Prop :=
  Z.of_nat (length g) < 2 ^ 32 /\ forall p b, next_of g p b -> (b < length g)%nat /\ (rank b < rank p)%nat.

Lemma transitions_next g p ts b : transitions_of g p = Some ts -> b ∈ ts -> next_of g p b.
Proof. unfold transitions_of, next_of. destruct (g !! p) as [bb|]; [|done]. intros [= <-] Hb. by exists bb. Qed.

Lemma ranked_acyclic g rank : ranked g rank -> acyclic (length g) (transitions_of g) rank.
Proof.
  intros [Hs Hr]. split; [done| |].
  - intros v Hv. unfold transitions_of. destruct (g !! v) eqn:E; [by eexists|apply lookup_ge_None in E; lia].
  - intros v ts w Hts Hw. by apply Hr, (transitions_next g v ts).
Qed.

Lemma order_preds_first g order :
  NoDup order -> successors_first (transitions_of g) order -> preds_first g (reverse order).
Proof.
  intros Hnd Hs i j p q Hp Hq (bb & Hbb & Hin). apply reverse_lookup_Some in Hp as [Hp Hi]. apply reverse_lookup_Some in Hq as [Hq Hj].
  destruct (Hs _ p (next_blocks bb) q Hp) as (k & Hk & Hkq); [by unfold transitions_of; rewrite Hbb|done|].
  pose proof (NoDup_lookup _ _ _ _ Hnd Hq Hkq). lia.
Qed.

Lemma path_conditions_tree sfuel g rank :
  tree g = true -> ranked g rank -> (scc_fuel (length g) (transitions_of g) <= sfuel)%nat ->
  exists l, path_conditions sfuel g = Some l /\ length l = length g /\ consistent g l.
Proof.
  intros Htree Hr Hfuel. destruct (iterate_singles _ _ rank sfuel (ranked_acyclic g rank Hr) Hfuel) as (order & Hrun & Hperm & Hs).
  assert (NoDup order) as Hnd by (rewrite Hperm; apply NoDup_seq).
  assert (forall b, b ∈ reverse order <-> (b < length g)%nat) as Hin by (intros b; rewrite elem_of_reverse, Hperm, elem_of_seq; lia).
  destruct (flow_all_inv g (reverse order) [] (replicate (length g) unknown) Htree) as (l & Hl & [Hlen Hnew Hedge]).
  - split; [apply length_replicate| |by intros p bb b v c ?%elem_of_nil]. intros b Hb _. by apply lookup_replicate.
  - cbn [app]. by rewrite reverse_Permutation.
  - by apply order_preds_first.
  - apply list.Forall_forall. intros b. apply Hin.
  - intros p b Hn. destruct Hr as [_ Hr]. destruct (Hr p b Hn). split; [done|]. intros ->. lia.
  - exists l. unfold path_conditions. rewrite Hrun. cbn [mbind option_bind]. rewrite single_nodes_map. cbn [mbind option_bind].
    split; [done|]. split; [done|]. split.
    + intros v c (Hc & a & Ha & Hv). rewrite (Hnew 0%nat) in Ha; [by injection Ha as <-| |intros p _; by apply tree_start].
      apply lookup_lt_Some in Ha. lia.
    + intros p bb b v c Hp Hb Hk. apply (Hedge p bb b v c); try done. apply Hin. by apply lookup_lt_Some in Hp.
Qed.

Lemma flow_block_length g l p l' : flow_block g l p = Some l' -> length l' = length l.
Proof. destruct (g !! p) as [bb|] eqn:Hp; [|unfold flow_block; by rewrite Hp]. intros H. by destruct (flow_block_flowed g l p l' bb Hp H). Qed.
Lemma path_conditions_length sfuel g l : path_conditions sfuel g = Some l -> length l = length g.
Proof.
  unfold path_conditions. destruct (iterate _ _ _) as [components|]; [|done]. cbn [mbind option_bind].
  destruct (single_nodes components) as [order|]; [|done]. cbn [mbind option_bind]. intros H.
  assert (forall order l0, flow_all g order l0 = Some l -> length l = length l0) as Hall; [|by rewrite (Hall _ _ H), length_replicate].
  clear. induction order as [|p order IH]; intros l0; cbn [flow_all]; [by intros [= <-]|].
  destruct (flow_block g l0 p) as [l1|] eqn:E; [|done]. cbn [mbind option_bind]. intros H. by rewrite (IH l1 H), (flow_block_length g l0 p).
Qed.

Definition rankedb (g : list Bb) (rank : BbId -> nat) : bool :=
  (Z.of_nat (length g) <? 2 ^ 32)
  && forallb (fun x : nat * Bb => forallb (fun b => (b <? length g)%nat && (rank b <? rank x.1)%nat) (next_blocks x.2)) (imap pair g).
Lemma rankedb_true g rank : rankedb g rank = true -> ranked g rank.
Proof.
  intros [Hs%Z.ltb_lt H]%andb_prop. split; [done|]. intros p b (bb & Hp & Hb). rewrite forallb_forall in H.
  assert (List.In (p, bb) (imap pair g)) as Hin by (apply list_elem_of_In, list_elem_of_lookup; exists p; by rewrite list_lookup_imap, Hp).
  specialize (H _ Hin). rewrite forallb_forall in H. specialize (H b ltac:(by apply list_elem_of_In)).
  apply andb_prop in H as [H1%Nat.ltb_lt H2%Nat.ltb_lt]. by split.
Qed.
