(* ===== verification/BbRemap.v ===== *)
(** * Values under path conditions

    Rebuilding a value with what is known of its conditions gives a value that
    is equal wherever the conditions hold. *)
From stdpp Require Import gmap.
From S2P Require Import Prelude IlOps Scc ValTree ValBuild ValSpec ValBinop ValExtract ValSound ValMono Mir BbOpt BbTree.

#[local] Open Scope bm_scope.

Section remap.
(** The builder before the pass, and what is known. *)
Context (b0 : ValBuilder) (Hb0 : wf b0) (a : Assumptions).

Definition satisfies (x : Z) (c : Class) : Prop :=
  match c with ClassIsZero => x = 0 | ClassIsNonZero => x <> 0 | ClassAny => True end.

(** An environment in which the conditions hold. *)
Record assumed (E : Env) : Prop := {
  as_env : env_ok E;
  as_holds : forall v c, class_of a v = Some c -> valid b0 v /\ satisfies (den E b0 v) c;
}.

(** No operator of the graph panics, and shifts are by less than the width. *)
Definition runs (E : Env) : Prop :=
  forall i n, value_tree b0 !! i = Some n ->
  match n with
  | NBinOp op x y => is_Some (binop_execute op (den E b0 x) (den E b0 y)) /\ (op = Shl \/ op = Shr -> den E b0 y < 128)
  | NUnOp op x => is_Some (unop_execute op (den E b0 x))
  | _ => True
  end.

Context (Hsat : exists E, assumed E /\ runs E).

(** [id] stands for [o] of the original builder. *)
Definition stands_for (b : ValBuilder) (id o : ValId) : Prop :=
  valid b id /\ forall E, assumed E -> den E b id = den E b0 o.
Definition map_ok (b : ValBuilder) (m : gmap ValId ValId) : Prop :=
  forall o id, m !! o = Some id -> valid b0 o /\ stands_for b id o.

Lemma stands_extends b b' id o : extends b b' -> stands_for b id o -> stands_for b' id o.
Proof. intros Hx [Hv Hd]. split; [by apply (extends_valid b)|]. intros E HE. rewrite (extends_den E b) by done. by apply Hd. Qed.
Lemma map_extends b b' m : extends b b' -> map_ok b m -> map_ok b' m.
Proof. intros Hx Hm o id Ho. destruct (Hm o id Ho). split; [done|]. by apply (stands_extends b). Qed.

Lemma stands_yields m b id b' v o :
  m b = Some (id, b') -> yields m b v -> (forall E, assumed E -> v E = den E b0 o) -> extends b b' /\ wf b' /\ stands_for b' id o.
Proof.
  intros E1 Hy Hv. destruct (Hy id b' E1) as (Hx & Hw & Hi & Hd). split; [done|]. split; [done|]. split; [done|].
  intros E HE. rewrite Hd by apply HE. by apply Hv.
Qed.

(** Constants among the operands stand for what the original operands denote,
    so that they can be folded. *)
Lemma stands_const b id o c E : wf b -> stands_for b id o -> assumed E -> value_tree b !! id = Some (NConst c) -> den E b0 o = c.
Proof. intros Hb [_ Hd] HE Hc. rewrite <- Hd by done. by rewrite (den_node E b id _ Hb Hc). Qed.

Lemma remapped_pre b o op x y x' y' :
  wf b -> value_tree b0 !! o = Some (NBinOp op x y) -> stands_for b x' x -> stands_for b y' y -> op_pre b op x' y'.
Proof.
  intros Hb Ho Hx Hy. destruct Hsat as (E & HE & Hr). destruct (Hr o _ Ho) as [Hfold Hshift]. split; [apply Hx|]. split; [apply Hy|]. split.
  - intros c d Hc Hd. by rewrite <- (stands_const b x' x c E Hb Hx HE Hc), <- (stands_const b y' y d E Hb Hy HE Hd).
  - intros Hop d Hd. rewrite <- (stands_const b y' y d E Hb Hy HE Hd). by apply Hshift.
Qed.

Lemma found_inv m b r b' : found m b = Some (r, b') -> exists id, m b = Some (id, b') /\ r = Some id.
Proof. unfold found, bbind, bret. destruct (m b) as [[id b1]|]; [|done]. intros [= <- <-]. by exists id. Qed.
Lemma lift_inv {T U} (o : option T) (k : T -> bm U) b r : (x <~ blift o;; k x) b = Some r -> exists x, o = Some x /\ k x b = Some r.
Proof. unfold bbind, blift. destruct o as [x|]; [|done]. cbn [mbind option_bind]. intros H. by exists x. Qed.

Lemma node_remap_sound vfuel m b o n r b' :
  wf b -> extends b0 b -> map_ok b m -> value_tree b0 !! o = Some n -> node_remap vfuel m n b = Some (r, b') ->
  extends b b' /\ wf b' /\ stands_for b' (default o r) o.
Proof.
  intros Hb Hx Hm Ho. pose proof (node_ok_at := wf_nodes b0 Hb0 o n Ho).
  assert (r = None -> b' = b -> extends b b' /\ wf b' /\ stands_for b' (default o r) o) as Hsame.
  { intros -> ->. split; [apply extends_refl|]. split; [done|]. apply node_valid in Ho. split; [by apply (extends_valid b0)|].
    intros E _. by apply extends_den. }
  assert (forall E, den E b0 o = eval_node E (denote E (value_tree b0)) n) as Hden by (intros E; by apply den_node).
  assert (forall v id, m !! v = Some id -> valid b id /\ forall E, assumed E -> den E b id = den E b0 v) as Hget by (intros v id Hv; by apply Hm in Hv as [_ []]).
  destruct n; cbn [node_remap]; try (intros [= <- <-]; by apply Hsame).
  all: intros H; repeat (apply lift_inv in H as (? & ?%Hget & H)); apply found_inv in H as (id & Hid & ->); cbn [default]; destruct_and?.
  - assert (op_pre b op x x0) as (_ & _ & _ & Hshift) by by apply (remapped_pre b o op lhs rhs).
    eapply stands_yields; [exact Hid|by apply binop_yields|].
    intros E HE. rewrite Hden. cbn [eval_node]. f_equal; auto.
  - eapply stands_yields; [exact Hid|apply (insert_yields b (NFpBinOp op _ _ _)); [done|by repeat constructor|done]|].
    intros E HE. rewrite Hden. cbn [eval_node]. f_equal; auto.
  - eapply stands_yields; [exact Hid|apply (insert_yields b (NFpUnOp op _ _)); [done|by repeat constructor|done]|].
    intros E HE. rewrite Hden. cbn [eval_node]. f_equal; auto.
  - eapply stands_yields; [exact Hid|by apply unop_yields|]. intros E HE. rewrite Hden. cbn [eval_node]. f_equal; auto.
  - cbn [node_ok] in node_ok_at. destruct_and?. eapply stands_yields; [exact Hid|by apply extract_yields|].
    intros E HE. rewrite Hden. cbn [eval_node]. f_equal; auto.
  - eapply stands_yields; [exact Hid|by apply ite_yields|]. intros E HE. rewrite Hden. cbn [eval_node]. f_equal; auto.
  - eapply stands_yields; [exact Hid|apply (insert_yields b (NLoadPtr ptr _ size)); [done|by repeat constructor|done]|].
    intros E HE. rewrite Hden. cbn [eval_node]. f_equal; auto.
Qed.

(** What [decided] chooses is equal where the conditions hold. *)
Lemma decided_sound b zero one id n id' :
  wf b -> extends b0 b -> value_tree b !! zero = Some (NConst 0) -> value_tree b !! one = Some (NConst 1) ->
  value_tree b !! id = Some n -> decided a zero one id n = Some id' ->
  valid b id' /\ forall E, assumed E -> den E b id' = den E b id.
Proof.
  intros Hb Hx Hz Ho Hn. assert (forall E, den E b zero = 0 /\ den E b one = 1) as Hc by (intros E; by rewrite (den_node E b _ _ Hb Hz), (den_node E b _ _ Hb Ho)).
  assert (forall v c E, assumed E -> class_of a v = Some c -> satisfies (den E b v) c) as Hclass.
  { intros v c E HE Hv. destruct (as_holds E HE v c Hv) as [Hvv Hsv]. by rewrite (extends_den E b0 b v Hx Hvv). }
  pose proof (node_args b id n Hb Hn) as Hargs. pose proof (node_valid b zero _ Hz) as Hvz. pose proof (node_valid b one _ Ho) as Hvo.
  assert ((if decide (class_of a id = Some ClassIsZero) then Some zero else None) = Some id' -> valid b id' /\ forall E, assumed E -> den E b id' = den E b id) as Hzero.
  { destruct (decide _) as [Hid|]; [|done]. intros [= <-]. split; [done|]. intros E HE. destruct (Hc E) as [-> _]. by rewrite (Hclass id _ E HE Hid). }
  destruct n as [| | | | |op x| | |c z nz| | | |]; cbn [decided]; try exact Hzero.
  - destruct op; try exact Hzero. destruct (class_of a x) as [[]|] eqn:Ec; intros [= <-]; (split; [done|]); intros E HE;
      pose proof (Hclass x _ E HE Ec) as Hs; cbn [satisfies] in Hs; destruct (Hc E) as [H0 H1];
      rewrite (den_node E b id _ Hb Hn); cbn [eval_node]; unfold unop_value; cbn [unop_execute default from_option].
    + rewrite H1, Hs. done.
    + rewrite H0. by apply Z.eqb_neq in Hs as ->.
  - cbn [referenced_nodes] in Hargs. decompose_Forall_hyps.
    destruct (class_of a c) as [[]|] eqn:Ec; intros [= <-]; (split; [done|]); intros E HE;
      pose proof (Hclass c _ E HE Ec) as Hs; cbn [satisfies] in Hs;
      rewrite (den_node E b id _ Hb Hn); cbn [eval_node]; unfold ite_value.
    + by rewrite Hs.
    + by apply Z.eqb_neq in Hs as ->.
Qed.
(** ** All nodes below a value *)

Lemma remap_nodes_sound vfuel zero one order m b m' b' :
  wf b -> extends b0 b -> map_ok b m -> value_tree b !! zero = Some (NConst 0) -> value_tree b !! one = Some (NConst 1) ->
  Forall (valid b0) order -> remap_nodes vfuel (decided a zero one) order m b = Some (m', b') ->
  extends b b' /\ wf b' /\ map_ok b' m'.
Proof.
  intros Hb Hx Hm Hz Ho Hall. revert m b Hb Hx Hm Hz Ho. induction Hall as [|o order Hvo _ IH]; intros m b Hb Hx Hm Hz Ho.
  { intros [= <- <-]. split; [apply extends_refl|done]. }
  cbn [remap_nodes]. destruct (valid_node b0 o Hvo) as [n Hn]. rewrite (bind_node o n) by by apply (extends_node b0).
  unfold bbind at 1. destruct (node_remap vfuel m n b) as [[r b1]|] eqn:E1; [|done]. cbn [mbind option_bind].
  destruct (node_remap_sound vfuel m b o n r b1 Hb Hx Hm Hn E1) as (Hx1 & Hb1 & Hs1). pose proof (extends_trans _ _ _ Hx Hx1) as Hx01.
  destruct (valid_node b1 (default o r)) as [n1 Hn1]; [apply Hs1|]. rewrite (bind_node _ n1) by done. intros H.
  apply IH in H; [|done|done| |by apply (extends_node b)..].
  - destruct H as (Hx2 & H). split; [by apply (extends_trans _ b1)|done].
  - intros v id. destruct (decide (v = o)) as [->|Hv]; [|rewrite lookup_insert_ne by done; by apply (map_extends b)].
    rewrite lookup_insert_eq. intros [= <-]. split; [done|].
    destruct (decided a zero one (default o r) n1) as [id'|] eqn:Ed; [|done]. cbn [default from_option].
    destruct (decided_sound b1 zero one (default o r) n1 id') as [Hv' Hd']; [done|done|by apply (extends_node b)..|done|done|].
    split; [done|]. intros E HE. rewrite Hd' by done. by apply Hs1.
Qed.

Lemma map_ok_empty b : map_ok b ∅.
Proof. by intros o id []%lookup_empty_Some. Qed.

Lemma single_nodes_inv components l : single_nodes components = Some l -> components = list_fmap _ _ (fun v => [v]) l.
Proof.
  revert l. induction components as [|[|v [|w c]] components IH]; intros l; cbn [single_nodes]; try done; [by intros [= <-]|].
  destruct (single_nodes components) as [k|]; [|done]. intros [= <-]. cbn. by rewrite (IH k).
Qed.
Lemma order_valid b fuel order val :
  extends b0 b -> wf b -> valid b0 val ->
  iterate_with_roots (length (value_tree b)) (fun i => referenced_nodes <$> value_tree b !! i) fuel [val] = Some (list_fmap _ _ (fun v => [v]) order) ->
  Forall (valid b0) order.
Proof.
  intros Hx Hb Hv H. apply (iterate_good _ _ (valid b0)) in H; [done| |by apply list.Forall_singleton].
  intros v ts w Hvv Hts Hw. destruct (valid_node b0 v Hvv) as [n Hn]. rewrite (extends_node b0 b v n Hx Hn) in Hts. injection Hts as <-.
  pose proof (node_args b0 v n Hb0 Hn) as Ha. rewrite list.Forall_forall in Ha. by apply Ha.
Qed.

Lemma remap_sound sfuel vfuel zero one val b id b' :
  wf b -> extends b0 b -> value_tree b !! zero = Some (NConst 0) -> value_tree b !! one = Some (NConst 1) -> valid b0 val ->
  remap sfuel vfuel val (decided a zero one) b = Some (id, b') ->
  extends b b' /\ wf b' /\ stands_for b' id val.
Proof.
  intros Hb Hx Hz Ho Hv. unfold remap. destruct (iterate_with_roots _ _ _ _) as [components|] eqn:Ei; [|done]. cbn [mbind option_bind].
  destruct (single_nodes components) as [order|] eqn:Es; [|done]. cbn [mbind option_bind]. apply single_nodes_inv in Es as ->.
  pose proof (order_valid b sfuel order val Hx Hb Hv Ei) as Hall. unfold bbind, blift.
  destruct (remap_nodes vfuel _ order ∅ b) as [[m b1]|] eqn:Em; [|done]. cbn [mbind option_bind].
  destruct (remap_nodes_sound vfuel zero one order ∅ b m b1) as (Hx1 & Hb1 & Hm1); try done.
  destruct (m !! val) as [id'|] eqn:Ev; [|done]. cbn [mbind option_bind]. intros [= <- <-]. split; [done|]. split; [done|]. by apply Hm1 in Ev as [_ Ev].
Qed.

(** ** It returns *)

Definition settles {T} (m : nat -> bm T) (b : ValBuilder) : Prop := exists F r, forall fuel, (F <= fuel)%nat -> m fuel b = Some r.

Lemma settles_returns (m : nat -> bm ValId) b F v :
  (forall n n', (n <= n')%nat -> below (m n) (m n')) -> returns (m F) b v -> settles m b.
Proof. intros Hm (id & b' & E & _). exists F, (id, b'). intros fuel Hf. by apply (Hm F fuel Hf). Qed.
Lemma settles_found m b : settles m b -> settles (fun fuel => found (m fuel)) b.
Proof. intros (F & [id b'] & H). exists F, (Some id, b'). intros fuel Hf. unfold found, bbind. by rewrite (H fuel Hf). Qed.
Lemma settles_const {T} (m : bm T) b : is_Some (m b) -> settles (fun _ => m) b.
Proof. intros [r Hr]. by exists 0%nat, r. Qed.
Lemma settles_lift {T U} (o : option T) x (k : T -> nat -> bm U) b :
  o = Some x -> settles (k x) b -> settles (fun fuel => x <~ blift o;; k x fuel) b.
Proof. intros ->. done. Qed.
Lemma returns_some m b v : returns m b v -> is_Some (m b).
Proof. intros (id & b' & -> & _). by eexists. Qed.

Lemma binop_settles op x y b : wf b -> op_pre b op x y -> settles (fun fuel => binop fuel op x y) b.
Proof.
  intros Hb Hpre. set (F := Z.to_nat (2 * binop_weight op (wt b x) (wt b y) + 1)).
  apply (settles_returns _ b F (fun E => binop_value op (den E b x) (den E b y))); [intros n n'; by apply binop_mono|].
  apply builds_returns. intros E HE. eexists. apply (proj1 (fuel_ok E HE F)); [done|done|]. lia.
Qed.
Lemma extract_settles v skip take b :
  wf b -> valid b v -> 0 <= skip -> 1 <= take -> skip + take <= 128 -> settles (fun fuel => extract fuel v skip take) b.
Proof.
  intros Hb Hv Hs Ht Hst. set (F := Z.to_nat (4 * wt b v + 2)).
  apply (settles_returns _ b F (fun E => extract_value (den E b v) skip take)); [intros n n'; by apply extract_mono|].
  apply builds_returns. intros E HE. eexists. apply (rec_ext E (extract F) (Z.of_nat F)); try done; [apply (fuel_ok E HE)|lia].
Qed.
Lemma ite_settles c z nz b : wf b -> valid b c -> valid b z -> valid b nz -> settles (fun fuel => ite fuel c z nz) b.
Proof.
  intros. apply (settles_returns _ b (S (z + nz)) (fun E => ite_value (den E b c) (den E b z) (den E b nz))); [intros n n'; by apply ite_mono|].
  apply ite_returns; done || lia.
Qed.

Lemma unop_folds b o op x x' :
  wf b -> value_tree b0 !! o = Some (NUnOp op x) -> stands_for b x' x ->
  forall c, value_tree b !! x' = Some (NConst c) -> is_Some (unop_execute op c).
Proof.
  intros Hb Ho Hx c Hc. destruct Hsat as (E & HE & Hr). pose proof (Hr o _ Ho) as Hrun. cbn in Hrun.
  by rewrite <- (stands_const b x' x c E Hb Hx HE Hc).
Qed.

Lemma node_remap_settles m b o n :
  wf b -> extends b0 b -> map_ok b m -> value_tree b0 !! o = Some n -> Forall (fun i => is_Some (m !! i)) (referenced_nodes n) ->
  settles (fun fuel => node_remap fuel m n) b.
Proof.
  intros Hb Hx Hm Ho Hall. pose proof (wf_nodes b0 Hb0 o n Ho) as Hok.
  assert (forall v id, m !! v = Some id -> stands_for b id v) as Hget by (intros v id Hv; by apply Hm in Hv as [_ Hv]).
  destruct n; cbn [node_remap referenced_nodes] in *; try (by apply settles_const; eexists);
    decompose_Forall_hyps; repeat match goal with H : is_Some _ |- _ => destruct H as [? ?] end;
    repeat (eapply settles_lift; [eassumption|]); apply settles_found.
  - apply binop_settles; [done|]. apply (remapped_pre b o op lhs rhs); auto.
  - eapply settles_const, returns_some, (insert_returns b (NFpBinOp op _ _ _)); [done| |done]. repeat constructor; by eapply Hget.
  - eapply settles_const, returns_some, (insert_returns b (NFpUnOp op _ _)); [done| |done]. repeat constructor; by eapply Hget.
  - eapply settles_const, returns_some, unop_returns; [done|by eapply Hget|]. apply (unop_folds b o op arg); auto.
  - destruct_and?. apply extract_settles; try done. by eapply Hget.
  - apply ite_settles; [done|by eapply Hget..].
  - eapply settles_const, returns_some, (insert_returns b (NLoadPtr ptr _ size)); [done| |done]. repeat constructor; by eapply Hget.
Qed.

Lemma remap_nodes_settles zero one order pre m b :
  wf b -> extends b0 b -> map_ok b m -> value_tree b !! zero = Some (NConst 0) -> value_tree b !! one = Some (NConst 1) ->
  Forall (valid b0) order -> (forall v, v ∈ pre -> is_Some (m !! v)) ->
  (forall i o n r, order !! i = Some o -> value_tree b0 !! o = Some n -> r ∈ referenced_nodes n -> r ∈ pre \/ exists j, (j < i)%nat /\ order !! j = Some r) ->
  exists F r, (forall fuel, (F <= fuel)%nat -> remap_nodes fuel (decided a zero one) order m b = Some r)
    /\ forall v, v ∈ pre ++ order -> is_Some (r.1 !! v).
Proof.
  intros Hb Hx Hm Hz Ho Hall. revert pre m b Hb Hx Hm Hz Ho. induction Hall as [|o order Hvo Hall IH]; intros pre m b Hb Hx Hm Hz Ho Hpre Hord.
  { exists 0%nat, (m, b). split; [done|]. rewrite app_nil_r. done. }
  destruct (valid_node b0 o Hvo) as [n Hn]. destruct (node_remap_settles m b o n Hb Hx Hm Hn) as (F1 & [r b1] & H1).
  { apply list.Forall_forall. intros i Hi. destruct (Hord 0%nat o n i) as [Hp|(j & Hj & _)]; [done..|by apply Hpre|lia]. }
  destruct (node_remap_sound F1 m b o n r b1 Hb Hx Hm Hn) as (Hx1 & Hb1 & Hs1); [by apply H1|].
  destruct (valid_node b1 (default o r)) as [n1 Hn1]; [apply Hs1|]. pose proof (extends_trans _ _ _ Hx Hx1) as Hx01.
  set (id := default (default o r) (decided a zero one (default o r) n1)).
  assert (map_ok b1 (<[o := id]> m)) as Hm1.
  { destruct (remap_nodes_sound F1 zero one [o] m b (<[o := id]> m) b1) as (_ & _ & Hm1); try done; [by apply list.Forall_singleton|].
    cbn [remap_nodes]. rewrite (bind_node o n) by by apply (extends_node b0). unfold bbind at 1. rewrite (H1 F1) by done. cbn [mbind option_bind].
    by rewrite (bind_node _ n1). }
  destruct (IH (o :: pre) (<[o := id]> m) b1) as (F2 & r2 & H2 & Hr2); try done.
  - by apply (extends_node b).
  - by apply (extends_node b).
  - intros v [->|Hv]%elem_of_cons; [rewrite lookup_insert_eq; by eexists|]. destruct (decide (v = o)) as [->|Hne]; [rewrite lookup_insert_eq; by eexists|].
    rewrite lookup_insert_ne by done. by apply Hpre.
  - intros i u nu w Hu Hnu Hw. destruct (Hord (S i) u nu w Hu Hnu Hw) as [Hp|([|j] & Hj & Hjw)]; [left; by right|left; injection Hjw as ->; by left|].
    right. exists j. split; [lia|done].
  - exists (F1 + F2)%nat, r2. split.
    + intros fuel Hf. cbn [remap_nodes]. rewrite (bind_node o n) by by apply (extends_node b0). unfold bbind at 1. rewrite (H1 fuel) by lia.
      cbn [mbind option_bind]. rewrite (bind_node _ n1) by done. apply H2. lia.
    + intros v. rewrite elem_of_app, elem_of_cons. intros Hv. apply Hr2. rewrite elem_of_app, elem_of_cons. tauto.
Qed.

Lemma tree_acyclic b :
  wf b -> Z.of_nat (length (value_tree b)) < 2 ^ 32 ->
  acyclic (length (value_tree b)) (fun i => referenced_nodes <$> value_tree b !! i) (fun i => i).
Proof.
  intros Hb Hs. split; [done| |].
  - intros v Hv. destruct (proj2 (lookup_lt_is_Some _ v) Hv) as [n Hn]. rewrite Hn. by eexists.
  - intros v ts w Hts Hw. destruct (value_tree b !! v) as [n|] eqn:Hn; [|done]. injection Hts as <-.
    pose proof (wf_ordered b Hb v n Hn) as Ha. rewrite list.Forall_forall in Ha. specialize (Ha w Hw). cbn in Ha. split; [|done].
    apply lookup_lt_Some in Hn. lia.
Qed.

Lemma remap_settles zero one val b :
  wf b -> extends b0 b -> Z.of_nat (length (value_tree b)) < 2 ^ 32 ->
  value_tree b !! zero = Some (NConst 0) -> value_tree b !! one = Some (NConst 1) -> valid b0 val ->
  exists F r, forall sfuel vfuel, (scc_fuel (length (value_tree b)) (fun i => referenced_nodes <$> value_tree b !! i) <= sfuel)%nat -> (F <= vfuel)%nat ->
  remap sfuel vfuel val (decided a zero one) b = Some r.
Proof.
  intros Hb Hx Hs Hz Ho Hv. set (tr := fun i => referenced_nodes <$> value_tree b !! i).
  pose proof (tree_acyclic b Hb Hs) as Hac. pose proof (extends_valid b0 b val Hx Hv) as Hvb.
  destruct (iterate_root (length (value_tree b)) tr (fun i => i) val Hac Hvb) as (order & Hrun & Hin & Hord).
  pose proof (order_valid b _ order val Hx Hb Hv (Hrun _ (le_n _))) as Hall.
  destruct (remap_nodes_settles zero one order [] ∅ b) as (F & [m b'] & HF & Hdom); try done.
  - by intros v ?%elem_of_nil.
  - intros i o n r Hi Hn Hr. right. apply (Hord i o (referenced_nodes n) r Hi); [|done]. unfold tr. by rewrite (extends_node b0 b o n).
  - destruct (Hdom val Hin) as [id Hid]. cbn in Hid. exists F, (id, b'). intros sfuel vfuel Hsf Hvf. unfold remap. fold tr. rewrite (Hrun sfuel Hsf). cbn [mbind option_bind].
    rewrite single_nodes_map. cbn [mbind option_bind]. unfold bbind, blift. rewrite (HF vfuel Hvf). cbn [mbind option_bind]. by rewrite Hid.
Qed.

End remap.
