(* ===== verification/BbRun.v ===== *)
(** * Running blocks under path conditions

    Which variables a value uses and a block writes, and what a step keeps. *)
From stdpp Require Import gmap.
From S2P Require Import Prelude Exceptions IlOps Arch MemArea IlCmd Scc ValTree ValBuild ValSpec ValSound CpuBytes Mir MirSim BbOpt BbTree.

(** ** The variables of a value *)

Definition use_node (x : VarId) (f : ValId -> Z) (n : ValNode) : Z :=
  match n with
  | NVar v => b2z (v =? x)
  | _ => if existsb (fun i => negb (f i =? 0)) (referenced_nodes n) then 1 else 0
  end.
Definition uses (t : list ValNode) (x : VarId) (v : ValId) : bool := negb (at_id (fold_tree (use_node x) t) v =? 0).

Lemma use_node_local x : local (use_node x).
Proof. intros f f' n H. destruct n; cbn in *; decompose_Forall_hyps; try done; repeat match goal with E : f _ = f' _ |- _ => rewrite E; clear E end; done. Qed.

Lemma uses_node t x v n :
  ordered t -> t !! v = Some n ->
  uses t x v = match n with NVar y => y =? x | _ => existsb (uses t x) (referenced_nodes n) end.
Proof.
  intros Ht Hn. unfold uses at 1. rewrite (fold_tree_eq (use_node x) t v n (use_node_local x) Ht Hn).
  destruct n; cbn [use_node]; try (change (fun i => negb (at_id (fold_tree (use_node x) t) i =? 0)) with (uses t x); by destruct (existsb _ _)).
  unfold b2z. by match goal with |- context [?y =? x] => destruct (y =? x) end.
Qed.

(** Environments that differ in variables. *)
Record same_but_vars (E E' : Env) : Prop := {
  sv_load : forall p x, load_byte E p x = load_byte E' p x;
  sv_fp_binop : forall op x y rc, fp_binop_value E op x y rc = fp_binop_value E' op x y rc;
  sv_fp_unop : forall op x rc, fp_unop_value E op x rc = fp_unop_value E' op x rc;
  sv_instr_len : instr_len_value E = instr_len_value E';
  sv_part_values : part_values_value E = part_values_value E';
}.

Lemma denote_uses E E' t v :
  ordered t -> same_but_vars E E' -> (forall x, uses t x v = true -> var_value E x = var_value E' x) -> denote E t v = denote E' t v.
Proof.
  intros Ht [H1 H2 H3 H4 H5]. induction (lt_wf v) as [v _ IH]. intros Hv. destruct (t !! v) as [n|] eqn:Hn.
  2:{ unfold denote, at_id. rewrite !(proj2 (lookup_ge_None _ _)); [done|..]; rewrite length_fold_tree; by apply lookup_ge_None. }
  unfold denote. rewrite !(fold_tree_eq _ t v n) by (done || apply eval_node_local). change (at_id (fold_tree (eval_node ?E) t)) with (denote E t).
  assert (Forall (fun i => denote E t i = denote E' t i) (referenced_nodes n)) as Hargs.
  { apply list.Forall_forall. intros i Hi. pose proof (Ht v n Hn) as Hlt. rewrite list.Forall_forall in Hlt. apply IH; [by apply Hlt|].
    intros x Hx. apply Hv. rewrite (uses_node t x v n Ht Hn). destruct n; try (apply existsb_exists; exists i; split; [by apply list_elem_of_In|done]).
    by apply elem_of_nil in Hi. }
  assert (forall ptr o size, load_value E ptr o size = load_value E' ptr o size) as Hload.
  { intros ptr o size. unfold load_value. f_equal. apply list_fmap_ext. intros i z _. apply H1. }
  destruct n; cbn [eval_node referenced_nodes] in *; decompose_Forall_hyps; repeat match goal with E : denote _ _ _ = denote _ _ _ |- _ => rewrite E; clear E end; auto.
  apply Hv. rewrite (uses_node t v0 v _ Ht Hn). apply Z.eqb_refl.
Qed.

(** ** What a block reads and writes *)

Definition dest_values (d : CommitDest) : list ValId := match d with CDynamic _ offset => [offset] | _ => [] end.
Definition commit_ids (values : list (CommitDest * ValId)) : list ValId := mjoin ((fun x : CommitDest * ValId => x.2 :: dest_values x.1) <$> values).
Definition option_ids (v : option ValId) : list ValId := match v with Some v => [v] | None => [] end.
Definition block_ids (bb : Bb) : list ValId :=
  match bb with
  | BJump _ => []
  | BBr cond _ _ => [cond]
  | BSeq (SStore values) _ => values.*2
  | BSeq (SReadMemoryUnchecked _ addr _) _ => [addr]
  | BSeq (SWriteMemoryUnchecked value addr _) _ => [value; addr]
  | BSeq SLog _ => []
  | BSeq (SSetException _ code) _ => [code]
  | BSeq (SSetHandler _ arg0 arg1) _ => [arg0; arg1]
  | BSeq (SCommit values) _ => commit_ids values
  | BFallible (FPortOut port data _) _ _ => [port; data]
  | BFallible (FPortIn port _ _) _ _ => [port]
  | BFallible (FReadMemory _ addr _) _ _ => [addr]
  | BFallible (FWriteMemory value addr _) _ _ => [value; addr]
  | BFallible (FReadDescriptor selector _ _ _ _ _ _) _ _ => [selector]
  | BCommitAndExit _ values last_jump_condition k _ => commit_ids values ++ option_ids last_jump_condition ++ option_ids k
  end.

(** The variables it writes; nothing is said of a block that commits. *)
Definition written (bb : Bb) : option (list VarId) :=
  match bb with
  | BSeq (SStore values) _ => Some values.*1
  | BSeq (SCommit _) _ => None
  | BFallible (FPortIn _ data _) _ _ => Some [data]
  | BFallible (FReadMemory value _ _) _ _ => Some [value]
  | BFallible (FReadDescriptor _ _ _ ok base limit ar) _ _ => Some [ok; base; limit; ar]
  | _ => Some []
  end.

(** ** Steps *)

Section run.
Context {W : Type} `{ctx : ExecCtx W} `{stable : !StableCtx W} `{sf : SoftFloat} `{sfl : !SoftFloatLaws}.
Context `{lay : Layout} (ail apv : Z) (Hail : inw 128 ail) (Hapv : inw 128 apv).

Abbreviation env := (env_of (W := W) ail apv).
Abbreviation mach := (Machine W).

(** The graph of values only matters through what it denotes. *)
Definition agree_on (t t' : list ValNode) (v : ValId) : Prop := forall E, denote E t' v = denote E t v.

Lemma store_values_ext t t' values (m : mach) :
  Forall (agree_on t t') values.*2 ->
  foldl (fun m '(var, v) => with_var m var (denote (env m) t' v)) m values = foldl (fun m '(var, v) => with_var m var (denote (env m) t v)) m values.
Proof.
  revert m. induction values as [|[x v] values IH]; intros m; [done|]. cbn [fmap list_fmap snd foldl]. intros [Hv Hr]%list.Forall_cons. rewrite (Hv (env m)). by apply IH.
Qed.

Lemma commit_ext t t' values values' (m : mach) :
  Forall2 (fun x y : CommitDest * ValId => y.1 = x.1 /\ denote (env m) t' y.2 = denote (env m) t x.2) values values' ->
  Forall (fun x : CommitDest * ValId => Forall (agree_on t t') (dest_values x.1)) values ->
  commit_values ail apv t' m values' = commit_values ail apv t m values.
Proof.
  intros H Hd. unfold commit_values. f_equal. f_equal. induction H as [|[d v] [d' v'] l l' [E1 E2] _ IH]; [done|].
  apply list.Forall_cons in Hd as [Hd Hl]. cbn [fst snd] in *. subst d'. cbn [fmap list_fmap]. f_equal; [|by apply IH].
  unfold commit_store. cbn [fst snd]. rewrite E2. destruct d as [| |size offset]; [done..|]. cbn [dest_values] in Hd.
  apply list.Forall_cons in Hd as [Hd _]. by rewrite (Hd (env m)).
Qed.

Lemma commit_ids_values t t' values :
  Forall (agree_on t t') (commit_ids values) ->
  Forall (fun x : CommitDest * ValId => agree_on t t' x.2 /\ Forall (agree_on t t') (dest_values x.1)) values.
Proof.
  induction values as [|[d v] values IH]; [constructor|]. unfold commit_ids. cbn [fmap list_fmap mjoin list_join snd fst app].
  intros [Hv [Hd Hr]%Forall_app]%list.Forall_cons. constructor; [done|]. by apply IH.
Qed.

Lemma run_block_ext t t' bb (m : mach) :
  Forall (agree_on t t') (block_ids bb) -> (forall md vs j k s, bb <> BCommitAndExit md vs j k s) ->
  run_block ail apv t' bb m = run_block ail apv t bb m.
Proof.
  intros H Hc. destruct bb as [next|cond z nz|entry next|op ok ex|md vs j k s]; [done|..|by edestruct Hc].
  - cbn [block_ids] in H. apply list.Forall_cons in H as [H _]. cbn [run_block]. by rewrite (H (env m)).
  - destruct entry as [values|? ? ?|? ? ?| |e code|h a0 a1|values]; cbn [run_block run_seq block_ids] in *; try done.
    + by rewrite (store_values_ext t t').
    + apply list.Forall_cons in H as [H _]. by rewrite (H (env m)).
    + decompose_Forall_hyps. by rewrite (H (env m)), (H0 (env m)).
    + apply commit_ids_values in H. rewrite (commit_ext t t' values values); [done| |].
      * apply Forall_Forall2_diag. eapply list.Forall_impl; [exact H|]. intros x [Hx _]. split; [done|apply Hx].
      * eapply list.Forall_impl; [exact H|]. by intros x [_ Hx].
  - destruct op; cbn [run_block run_fallible block_ids] in *; decompose_Forall_hyps; repeat match goal with E : agree_on _ _ _ |- _ => rewrite (E (env m)); clear E end; done.
Qed.

(** ** What a step keeps *)

(** A step changes only the variables of [ws]. *)
Record keeps (ws : list VarId) (m m' : mach) : Prop := {
  kp_cpu : m_cpu m' = m_cpu m;
  kp_k : m_k m' = m_k m;
  kp_vars : forall x, x ∉ ws -> m_vars m' x = m_vars m x;
  kp_ok : machine_ok m -> machine_ok m';
}.

Lemma keeps_fallible {A} (f : comp W Exception A) vars results (m : mach) ok m' :
  fallible f vars results m = Some (ok, m') -> (forall x w, f (m_world m) = Some (Ok x, w) -> Forall (inw 128) (results x)) -> keeps vars m m'.
Proof.
  unfold fallible. destruct (f (m_world m)) as [[[x|e] w]|] eqn:E; [|..|done]; cbn [mbind option_bind].
  - intros [= _ <-] Hin. change (foldl _ ?m0 (zip vars ?vs)) with (set_vars (W := W) m0 vars vs).
    destruct (set_vars_fields (with_m_world m w) vars (results x)) as (Hc & Hk & _). split; [done|done| |].
    + intros y Hy. by rewrite set_vars_other.
    + intros Hm. apply set_vars_ok; [|by apply (Hin x w)]. by destruct Hm.
  - destruct (packed_from_exception e) as [p|]; [|done]. cbn [mbind option_bind]. intros [= _ <-] _.
    change (foldl _ ?m0 (zip vars ?vs)) with (set_vars (W := W) m0 vars vs).
    destruct (set_vars_fields (with_result (with_m_world m w) p) vars (replicate (length vars) 0)) as (Hc & Hk & _). split; [done|done| |].
    + intros y Hy. by rewrite set_vars_other.
    + intros Hm. apply set_vars_ok; [by destruct Hm|]. by apply Forall_replicate.
Qed.

Lemma keeps_same (m m' : mach) : m_cpu m' = m_cpu m -> m_k m' = m_k m -> m_vars m' = m_vars m -> keeps [] m m'.
Proof. intros Hc Hk Hv. split; [done|done|by rewrite Hv|]. intros [Hmv Hmc]. split; [by rewrite Hv|by rewrite Hc]. Qed.

Lemma keeps_store b values (m : mach) :
  wf b -> Forall (valid b) values.*2 ->
  keeps values.*1 m (foldl (fun m '(var, v) => with_var m var (denote (env m) (value_tree b) v)) m values).
Proof.
  intros Hb. revert m. induction values as [|[x v] values IH]; intros m; cbn [fmap list_fmap fst snd foldl]; [by intros; apply keeps_same|].
  intros [Hv Hr]%list.Forall_cons. destruct (IH (with_var m x (denote (env m) (value_tree b) v)) Hr) as [Hc Hk Hx Hok].
  split; [done|done| |].
  - intros y [Hy Hys]%not_elem_of_cons. rewrite Hx by done. cbn. by rewrite decide_False.
  - intros Hm. apply Hok. destruct Hm as [Hmv Hmc]. split; [|done]. intros y. cbn. case_decide; [|done].
    apply den_inw; [|done|done]. apply env_of_ok; [done..|by split].
Qed.

Lemma step_keeps b bb (m : mach) n m' ws :
  wf b -> Forall (valid b) (block_ids bb) -> run_block ail apv (value_tree b) bb m = Some (inl (n, m')) -> written bb = Some ws ->
  n ∈ next_blocks bb /\ keeps ws m m'.
Proof.
  intros Hb Hv. destruct bb as [next|cond z nz|entry next|op ok ex|]; cbn [run_block next_blocks]; [..|done].
  - intros [= <- <-] [= <-]. split; [by left|by apply keeps_same].
  - intros [= <- <-] [= <-]. split; [|by apply keeps_same]. destruct (_ =? 0); [by left|right; by left].
  - destruct (run_seq ail apv (value_tree b) entry m) as [m1|] eqn:E; [|done]. cbn [mbind option_bind]. intros [= <- <-] Hw. split; [by left|].
    destruct entry; cbn [run_seq written block_ids] in *; try done.
    + injection E as <-. injection Hw as <-. by apply keeps_store.
    + injection E as <-. injection Hw as <-. by apply keeps_same.
    + injection Hw as <-. destruct (with_code_from_u32 _ _) as [e'|]; [|done]. cbn [mbind option_bind] in E.
      destruct (packed_from_exception e') as [p|]; [|done]. cbn [mbind option_bind] in E. injection E as <-. by apply keeps_same.
    + injection Hw as <-. destruct (packed_from_exec_result _) as [p|]; [|done]. cbn [mbind option_bind] in E. injection E as <-. by apply keeps_same.
  - destruct (run_fallible ail apv (value_tree b) op m) as [[o m1]|] eqn:E; [|done]. cbn [mbind option_bind]. intros [= <- <-] Hw.
    split; [destruct o; [by left|right; by left]|]. destruct op; cbn [run_fallible written] in *; injection Hw as <-; eapply keeps_fallible; try exact E.
    + by repeat constructor.
    + intros x w Hx. apply list.Forall_singleton. by eapply port_in_inw.
    + intros x w Hx. apply list.Forall_singleton. by eapply mem_value_inw.
    + by repeat constructor.
    + intros x w Hx. destruct (read_descriptor_inw _ _ _ _ _ _ _ Hx) as (? & ? & ?). apply List.Forall_cons; [by apply inw_b2z|]. by repeat (apply List.Forall_cons; [done|]).
Qed.

(** A value that uses none of the variables stays the same. *)
Lemma keeps_value b ws (m m' : mach) v :
  wf b -> keeps ws m m' -> (forall x, x ∈ ws -> uses (value_tree b) x v = false) -> den (env m') b v = den (env m) b v.
Proof.
  intros Hb [Hc Hk Hx _] Hu. apply denote_uses; [apply Hb| |].
  - split; try done. intros p x. cbn. destruct p; [by rewrite Hc|by rewrite Hk].
  - intros x Hxv. cbn. apply Hx. intros Hin. by rewrite (Hu x Hin) in Hxv.
Qed.
End run.
