(* ===== verification/BbSound.v ===== *)
(** * The pass keeps what compiled code does

    If the path conditions are consistent and no block writes a variable of a
    value that is known after it, then at every block that a run reaches what
    is recorded holds, and the graph with its branches and committed values
    decided runs like the original. *)
From stdpp Require Import gmap.
From S2P Require Import Prelude Exceptions IlOps Arch MemArea IlCmd Scc ValTree ValBuild ValSpec ValSound ValMono CpuBytes.
From S2P Require Import Mir MirSim BbOpt BbTree BbRemap BbRun.

#[local] Open Scope bm_scope.

(** ** Only conditions of branches are recorded *)

Definition branched (g : list Bb) (v : ValId) : Prop := exists p z nz, g !! p = Some (BBr v z nz).
Definition recorded (g : list Bb) (l : list Assumptions) : Prop :=
  forall b a v c, l !! b = Some a -> class_of a v = Some c -> branched g v.

Lemma union_recorded a other extra v c :
  class_of (union_with a other extra) v = Some c -> is_Some (class_of a v) \/ is_Some (class_of other v) \/ exists d, extra = Some (v, d).
Proof.
  unfold class_of. destruct a as [a|]; cbn [union_with conditions].
  - rewrite lookup_union_with. destruct (a !! v), (conditions other !! v); cbn; intros H; try done; (try by left; eexists); by right; left; eexists.
  - destruct extra as [[w d]|]; cbn [conditions]; [|intros H; right; left; by eexists].
    destruct (decide (w = v)) as [->|Hw]; [by intros _; right; right; eexists|]. rewrite lookup_insert_ne by done. intros H. right; left. by eexists.
Qed.

Lemma flow_recorded g l p b extra l' :
  flow l p b extra = Some l' -> recorded g l -> (forall v d, extra = Some (v, d) -> branched g v) -> recorded g l'.
Proof.
  intros (a & o & Hp & Hb & -> & _)%flow_lookup Hr He i x v c Hi Hv. destruct (decide (i = b)) as [->|Hne].
  - rewrite list_lookup_insert_eq in Hi by (by apply lookup_lt_Some in Hb). injection Hi as <-.
    apply union_recorded in Hv as [[d Hd]|[[d Hd]|[d Hd]]]; [by apply (Hr b a v d)|by apply (Hr p o v d)|by apply (He v d)].
  - rewrite list_lookup_insert_ne in Hi by done. by apply (Hr i x v c).
Qed.

Lemma flow_block_recorded g l p l' : flow_block g l p = Some l' -> recorded g l -> recorded g l'.
Proof.
  unfold flow_block. destruct (g !! p) as [bb|] eqn:Hp; [|done]. cbn [mbind option_bind]. intros H Hr.
  assert (forall cond z nz, bb = BBr cond z nz -> branched g cond) as Hbr by (intros cond z nz ->; by exists p, z, nz).
  destruct bb as [next|cond z nz|entry next|op ok ex|]; [..|by injection H as <-]; apply (assert_true _ _ _ _ H); clear H; intros _ H.
  - by apply (flow_recorded g _ _ _ _ _ H).
  - destruct (flow l p z _) as [l1|] eqn:E; [|done]. cbn [mbind option_bind] in H.
    apply (flow_recorded g _ _ _ _ _ H); [|by intros v d [= <- _]; apply (Hbr _ z nz)].
    apply (flow_recorded g _ _ _ _ _ E); [done|by intros v d [= <- _]; apply (Hbr _ z nz)].
  - by apply (flow_recorded g _ _ _ _ _ H).
  - destruct (flow l p ok _) as [l1|] eqn:E; [|done]. cbn [mbind option_bind] in H.
    apply (flow_recorded g _ _ _ _ _ H); [|done]. by apply (flow_recorded g _ _ _ _ _ E).
Qed.

Lemma flow_all_recorded g order l l' : flow_all g order l = Some l' -> recorded g l -> recorded g l'.
Proof.
  revert l. induction order as [|p order IH]; intros l; cbn [flow_all]; [by intros [= <-]|].
  destruct (flow_block g l p) as [l1|] eqn:E; [|done]. cbn [mbind option_bind]. intros H Hr. by apply (IH l1), (flow_block_recorded g l p).
Qed.

Lemma path_conditions_recorded sfuel g l : path_conditions sfuel g = Some l -> recorded g l.
Proof.
  unfold path_conditions. destruct (iterate _ _ _) as [components|]; [|done]. cbn [mbind option_bind].
  destruct (single_nodes components) as [order|]; [|done]. cbn [mbind option_bind]. intros H. apply (flow_all_recorded g _ _ _ H).
  intros b a v c [-> _]%lookup_replicate. unfold class_of, unknown. cbn [conditions]. by rewrite lookup_empty.
Qed.

(** ** The decided graph *)

(** A block and what it becomes; values stand for values of [b0]. *)
Definition jump_like (b0 : ValBuilder) (a : Assumptions) (b : ValBuilder) (j j' : option ValId) : Prop :=
  match j, j' with
  | None, None => True
  | Some v, Some v' => forall E, assumed b0 a E -> (den E b v' = 0 <-> den E b0 v = 0)
  | _, _ => False
  end.
Definition values_like (b0 : ValBuilder) (a : Assumptions) (b : ValBuilder) (vs vs' : list (CommitDest * ValId)) : Prop :=
  Forall2 (fun x y : CommitDest * ValId => y.1 = x.1 /\ stands_for b0 a b y.2 x.2) vs vs'.
Definition block_like (b0 : ValBuilder) (a : Assumptions) (b : ValBuilder) (bb bb' : Bb) : Prop :=
  match bb with
  | BBr cond z nz =>
      bb' = match class_of a cond with Some ClassIsZero => BJump z | Some ClassIsNonZero => BJump nz | _ => bb end
  | BCommitAndExit md vs j k s =>
      exists vs' j', bb' = BCommitAndExit md vs' j' k s /\ values_like b0 a b vs vs' /\ jump_like b0 a b j j'
  | _ => bb' = bb
  end.

Lemma jump_extends b0 a b b' j j' :
  extends b b' -> match j' with Some v => valid b v | None => True end -> jump_like b0 a b j j' -> jump_like b0 a b' j j'.
Proof. intros Hx Hv. destruct j, j'; cbn; try done. intros H E HE. rewrite (extends_den E b) by done. by apply H. Qed.

Section decide.
Context (b0 : ValBuilder) (Hb0 : wf b0) (sfuel vfuel : nat).

(** Some environment satisfies the conditions. *)
Definition feasible (a : Assumptions) : Prop := exists E, assumed b0 a E /\ runs b0 E.

Lemma remap_all_sound a zero one (vs vs' : list (CommitDest * ValId)) b b' :
  feasible a -> wf b -> extends b0 b -> value_tree b !! zero = Some (NConst 0) -> value_tree b !! one = Some (NConst 1) ->
  Forall (valid b0) vs.*2 -> remap_all sfuel vfuel (decided a zero one) vs b = Some (vs', b') ->
  extends b b' /\ wf b' /\ values_like b0 a b' vs vs'.
Proof.
  intros Hsat. revert vs' b b'. induction vs as [|[d v] vs IH]; intros vs' b b' Hb Hx Hz Ho Hv; cbn [remap_all].
  { intros [= <- <-]. split; [apply extends_refl|]. split; [done|constructor]. }
  cbn [fmap list_fmap snd] in Hv. apply list.Forall_cons in Hv as [Hv Hvs]. unfold bbind at 1.
  destruct (remap sfuel vfuel v _ b) as [[v' b1]|] eqn:E1; [|done]. cbn [mbind option_bind].
  destruct (remap_sound b0 Hb0 a Hsat sfuel vfuel zero one v b v' b1) as (Hx1 & Hb1 & Hs1); try done. unfold bbind.
  destruct (remap_all sfuel vfuel _ vs b1) as [[vs1 b2]|] eqn:E2; [|done]. cbn [mbind option_bind]. intros [= <- <-].
  destruct (IH vs1 b1 b2) as (Hx2 & Hb2 & Hs2); try done; [by apply (extends_trans _ b)|by apply (extends_node b)..|].
  split; [by apply (extends_trans _ b1)|]. split; [done|]. constructor; [|done]. split; [done|]. cbn [snd]. by apply (stands_extends b0 a b1).
Qed.

Lemma imm_inv c b id b' : wf b -> inw 128 c -> imm c b = Some (id, b') -> extends b b' /\ wf b' /\ value_tree b' !! id = Some (NConst c).
Proof.
  intros Hb Hc H. destruct (imm_yields b c Hb Hc id b' H) as (Hx & Hw & _). split; [done|]. split; [done|]. by apply inserted_node in H.
Qed.

Lemma decide_jump_sound a zero one v b :
  wf b -> value_tree b !! zero = Some (NConst 0) -> value_tree b !! one = Some (NConst 1) -> extends b0 b -> valid b v ->
  valid b (decide_jump a zero one v) /\ forall E, assumed b0 a E -> (den E b (decide_jump a zero one v) = 0 <-> den E b v = 0).
Proof.
  intros Hb Hz Ho Hx Hv. unfold decide_jump. pose proof (node_valid b zero _ Hz). pose proof (node_valid b one _ Ho).
  destruct (class_of a v) as [[]|] eqn:Ec; split; try done; intros E HE; destruct (as_holds b0 a E HE v _ Ec) as [Hvv Hs];
    rewrite <- (extends_den E b0 b v Hx Hvv) in Hs; cbn in Hs.
  - rewrite (den_node E b zero _ Hb Hz). cbn. tauto.
  - rewrite (den_node E b one _ Hb Ho). cbn. split; [done|tauto].
Qed.

(** The values of a block that the pass looks at. *)
Definition decide_ids (bb : Bb) : list ValId :=
  match bb with BCommitAndExit _ vs j _ _ => vs.*2 ++ option_ids j | _ => [] end.
Definition exits (bb : Bb) : bool := match bb with BCommitAndExit _ _ _ _ _ => true | _ => false end.

Lemma decide_block_sound a bb b bb' b' :
  wf b -> extends b0 b -> Forall (valid b0) (decide_ids bb) -> (exits bb = true -> feasible a) ->
  decide_block sfuel vfuel bb a b = Some (bb', b') ->
  extends b b' /\ wf b' /\ forall b2, extends b' b2 -> block_like b0 a b2 bb bb'.
Proof.
  intros Hb Hx Hv Hsat. destruct bb as [next|cond z nz|entry next|op ok ex|md vs j k s]; cbn [decide_block block_like];
    try (intros [= <- <-]; split; [apply extends_refl|done]).
  specialize (Hsat eq_refl). cbn [decide_ids] in Hv. apply Forall_app in Hv as [Hv Hj]. unfold bbind at 1.
  destruct (imm 0 b) as [[zero b1]|] eqn:E1; [|done]. cbn [mbind option_bind]. destruct (imm_inv 0 b zero b1 Hb ltac:(done) E1) as (Hx1 & Hb1 & Hz1).
  unfold bbind at 1. destruct (imm 1 b1) as [[one b2]|] eqn:E2; [|done]. cbn [mbind option_bind]. destruct (imm_inv 1 b1 one b2 Hb1 ltac:(done) E2) as (Hx2 & Hb2 & Ho2).
  pose proof (extends_node b1 b2 _ _ Hx2 Hz1) as Hz2. pose proof (extends_trans _ _ _ Hx1 Hx2) as Hx12. pose proof (extends_trans _ _ _ Hx Hx12) as Hx02.
  unfold bbind at 1. destruct (remap_all sfuel vfuel _ vs b2) as [[vs' b3]|] eqn:E3; [|done]. cbn [mbind option_bind].
  destruct (remap_all_sound a zero one vs vs' b2 b3) as (Hx3 & Hb3 & Hs3); try done.
  pose proof (extends_node b2 b3 _ _ Hx3 Hz2) as Hz3. pose proof (extends_node b2 b3 _ _ Hx3 Ho2) as Ho3. pose proof (extends_trans _ _ _ Hx02 Hx3) as Hx03.
  assert (forall b4, extends b3 b4 -> values_like b0 a b4 vs vs') as Hlike.
  { intros b4 Hx4. eapply list.Forall2_impl; [exact Hs3|]. intros x y [Hxy Hst]. split; [done|]. by apply (stands_extends b0 a b3). }
  pose proof (extends_trans _ _ _ Hx12 Hx3) as Hx13.
  destruct j as [v|].
  - cbn [option_ids] in Hj. apply list.Forall_cons in Hj as [Hvj _]. unfold bbind at 1 2.
    destruct (remap sfuel vfuel v _ b3) as [[v' b4]|] eqn:E4; [|done]. cbn [mbind option_bind].
    destruct (remap_sound b0 Hb0 a Hsat sfuel vfuel zero one v b3 v' b4) as (Hx4 & Hb4 & Hs4); try done.
    destruct (decide_jump_sound a zero one v' b4) as [Hvd Hd]; [done|by apply (extends_node b3)..|by apply (extends_trans _ b3)|apply Hs4|].
    intros [= <- <-]. split; [by apply (extends_trans _ b3)|]. split; [done|]. intros b5 Hx5. eexists _, _. split; [done|].
    split; [by apply Hlike, (extends_trans _ b4)|]. cbn [jump_like]. intros E HE. rewrite (extends_den E b4) by done. rewrite Hd by done.
    destruct Hs4 as [_ Hs4]. by rewrite Hs4.
  - unfold bbind, bret. cbn [mbind option_bind]. intros [= <- <-]. split; [done|]. split; [done|]. intros b5 Hx5. eexists _, _. split; [done|]. split; [by apply Hlike|done].
Qed.

Lemma decide_blocks_sound g l b g' b' :
  wf b -> extends b0 b -> length l = length g -> Forall (fun bb => Forall (valid b0) (decide_ids bb)) g ->
  (forall i bb a, g !! i = Some bb -> l !! i = Some a -> exits bb = true -> feasible a) ->
  decide_blocks sfuel vfuel g l b = Some (g', b') ->
  extends b b' /\ wf b' /\ length g' = length g
  /\ forall i bb a, g !! i = Some bb -> l !! i = Some a -> exists bb', g' !! i = Some bb' /\ block_like b0 a b' bb bb'.
Proof.
  revert l b g'. induction g as [|bb g IH]; intros [|a l] b g' Hb Hx Hlen Hv Hsat; try done; cbn [decide_blocks].
  { intros [= <- <-]. split; [apply extends_refl|]. split; [done|]. split; [done|]. intros i bb a. by rewrite lookup_nil. }
  apply list.Forall_cons in Hv as [Hvb Hvg]. unfold bbind at 1. destruct (decide_block sfuel vfuel bb a b) as [[bb1 b1]|] eqn:E1; [|done].
  cbn [mbind option_bind]. destruct (decide_block_sound a bb b bb1 b1 Hb Hx Hvb (Hsat 0%nat bb a eq_refl eq_refl) E1) as (Hx1 & Hb1 & Hs1).
  unfold bbind. destruct (decide_blocks sfuel vfuel g l b1) as [[g1 b2]|] eqn:E2; [|done]. cbn [mbind option_bind]. intros [= <- <-].
  destruct (IH l b1 g1) as (Hx2 & Hb2 & Hl2 & Hs2); try done; [by apply (extends_trans _ b)|by injection Hlen|by intros i; apply (Hsat (S i))|].
  split; [by apply (extends_trans _ b1)|]. split; [done|]. split; [cbn; congruence|]. intros [|i] bb2 a2; cbn; [|by apply Hs2].
  intros [= <-] [= <-]. exists bb1. split; [done|]. by apply Hs1.
Qed.
End decide.

(** A decision procedure for one environment. *)
Definition satisfiesb (x : Z) (c : Class) : bool :=
  match c with ClassIsZero => x =? 0 | ClassIsNonZero => negb (x =? 0) | ClassAny => true end.
Definition assumedb (b : ValBuilder) (a : Assumptions) (E : Env) : bool :=
  forallb (fun x : ValId * Class => (x.1 <? length (value_tree b))%nat && satisfiesb (den E b x.1) x.2) (map_to_list (conditions a)).
Definition runs_node (E : Env) (b : ValBuilder) (n : ValNode) : bool :=
  match n with
  | NBinOp op x y =>
      bool_decide (is_Some (binop_execute op (den E b x) (den E b y)))
      && (negb (bool_decide (op = Shl \/ op = Shr)) || (den E b y <? 128))
  | NUnOp op x => bool_decide (is_Some (unop_execute op (den E b x)))
  | _ => true
  end.
Definition feasible_in (b : ValBuilder) (a : Assumptions) (E : Env) : bool := assumedb b a E && forallb (runs_node E b) (value_tree b).

Lemma feasible_env b a E : env_ok E -> feasible_in b a E = true -> assumed b a E.
Proof.
  intros HE [Ha _]%andb_prop. split; [done|]. intros v c Hv. unfold assumedb in Ha. rewrite forallb_forall in Ha. specialize (Ha (v, c)).
  destruct (andb_prop _ _ (Ha ltac:(by apply list_elem_of_In, elem_of_map_to_list))) as [H1%Nat.ltb_lt H2]. split; [done|]. cbn [fst snd] in H2.
  destruct c; cbn in *; [by apply Z.eqb_eq in H2|by apply negb_true_iff, Z.eqb_neq in H2|done].
Qed.
Lemma feasible_in_true b a E : env_ok E -> feasible_in b a E = true -> feasible b a.
Proof.
  intros HE H. exists E. split; [by apply feasible_env|]. apply andb_prop in H as [_ Hr]. intros i n Hn. rewrite forallb_forall in Hr. specialize (Hr n ltac:(by apply list_elem_of_In; apply list_elem_of_lookup_2 in Hn)).
  destruct n; try done; cbn [runs_node] in Hr; [|by apply bool_decide_eq_true in Hr].
  apply andb_prop in Hr as [Hr%bool_decide_eq_true Hs]. split; [done|]. intros Hop. apply orb_prop in Hs as [Hs|Hs%Z.ltb_lt]; [|done].
  by rewrite bool_decide_eq_true_2 in Hs.
Qed.

Definition feasibleb (b : ValBuilder) (g : list Bb) (l : list Assumptions) (envs : list Env) : bool :=
  forallb (fun x : Bb * Assumptions => negb (exits x.1) || existsb (feasible_in b x.2) envs) (zip g l).
Lemma feasibleb_true b g l envs :
  Forall env_ok envs -> feasibleb b g l envs = true ->
  forall i bb a, g !! i = Some bb -> l !! i = Some a -> exits bb = true -> feasible b a.
Proof.
  intros Henvs H i bb a Hg Hl He. unfold feasibleb in H. rewrite forallb_forall in H. specialize (H (bb, a)).
  assert (zip g l !! i = Some (bb, a)) as Hz by (rewrite lookup_zip_with, Hg; cbn [mbind option_bind]; by rewrite Hl).
  specialize (H ltac:(apply list_elem_of_In; by apply list_elem_of_lookup_2 in Hz)). cbn [fst snd] in H. rewrite He in H. cbn [negb orb] in H.
  apply existsb_exists in H as (E & Hin & HE). apply (feasible_in_true b a E); [|done]. rewrite list.Forall_forall in Henvs.
  apply Henvs. by apply list_elem_of_In.
Qed.

(** ** The simulation *)

(** No block but an exit commits, a branch has two sides, and what is known
    after a block does not depend on the variables the block writes. *)
Definition steady_edge (t : list ValNode) (l : list Assumptions) (ws : list VarId) (b : BbId) : bool :=
  forallb (fun x : ValId * Class => forallb (fun y => negb (uses t y x.1)) ws) (facts l b).
Definition steady (t : list ValNode) (g : list Bb) (l : list Assumptions) : bool :=
  forallb (fun bb => match written bb with
                     | Some ws => bool_decide (NoDup (next_blocks bb)) && forallb (steady_edge t l ws) (next_blocks bb)
                     | None => false
                     end) g.

(** The same, but for the number that tells that the last jump is taken. *)
Record same_outcome {W} (o o' : Outcome W) : Prop := {
  so_success : o_success o = o_success o';
  so_metadata : o_metadata o = o_metadata o';
  so_machine : o_machine o = o_machine o';
  so_last_jump : option_map (fun x => x =? 0) (o_last_jump o) = option_map (fun x => x =? 0) (o_last_jump o');
}.
Definition same_run {W} (r r' : option (Outcome W)) : Prop :=
  match r, r' with Some o, Some o' => same_outcome o o' | None, None => True | _, _ => False end.

Lemma same_run_refl {W} (r : option (Outcome W)) : same_run r r.
Proof. by destruct r. Qed.

Section sim.
Context {W : Type} `{ctx : ExecCtx W} `{stable : !StableCtx W} `{sf : SoftFloat} `{sfl : !SoftFloatLaws}.
Context `{lay : Layout} (ail apv : Z) (Hail : inw 128 ail) (Hapv : inw 128 apv).
Context (b0 b1 : ValBuilder) (Hb0 : wf b0) (Hb1 : wf b1) (Hx : extends b0 b1).
Context (g g' : list Bb) (l : list Assumptions).
Context (Hids : Forall (fun bb => Forall (valid b0) (block_ids bb)) g).
Context (Hrec : recorded g l) (Hcons : consistent g l) (Hsteady : steady (value_tree b0) g l = true).
Context (Hlen : length g' = length g) (Hlenl : length l = length g).
Context (Hlike : forall i bb a, g !! i = Some bb -> l !! i = Some a -> exists bb', g' !! i = Some bb' /\ block_like b0 a b1 bb bb').

Abbreviation env := (env_of (W := W) ail apv).
Abbreviation mach := (Machine W).

(** What is recorded at a block holds when it is entered. *)
Definition holds_at (b : BbId) (m : mach) : Prop := forall v c, known l b v c -> satisfies (den (env m) b0 v) c.

Lemma valid_agree v : valid b0 v -> agree_on (value_tree b0) (value_tree b1) v.
Proof. intros Hv E. by apply extends_den. Qed.

Lemma ids_at b bb : g !! b = Some bb -> Forall (valid b0) (block_ids bb).
Proof. intros Hb. rewrite list.Forall_forall in Hids. apply Hids. by apply list_elem_of_lookup_2 in Hb. Qed.
Lemma agree_at b bb : g !! b = Some bb -> Forall (agree_on (value_tree b0) (value_tree b1)) (block_ids bb).
Proof. intros Hb. eapply list.Forall_impl; [exact (ids_at b bb Hb)|]. apply valid_agree. Qed.

Lemma branched_valid v : branched g v -> valid b0 v.
Proof. intros (p & z & nz & Hp). pose proof (ids_at p _ Hp) as H. by apply list.Forall_cons in H as [H _]. Qed.

Lemma holds_assumed b m a : machine_ok m -> holds_at b m -> l !! b = Some a -> assumed b0 a (env m).
Proof.
  intros Hm Hh Ha. split; [by apply env_of_ok|]. intros v c Hv. split; [apply branched_valid, (Hrec b a v c Ha Hv)|].
  destruct (decide (c = ClassAny)) as [->|Hc]; [done|]. apply Hh. split; [done|]. by exists a.
Qed.

Lemma steady_at b bb : g !! b = Some bb ->
  exists ws, written bb = Some ws /\ NoDup (next_blocks bb)
  /\ forall n v c x, n ∈ next_blocks bb -> known l n v c -> x ∈ ws -> uses (value_tree b0) x v = false.
Proof.
  intros Hb. assert (List.In bb g) as Hin by (apply list_elem_of_In; by apply list_elem_of_lookup_2 in Hb).
  unfold steady in Hsteady. rewrite forallb_forall in Hsteady. specialize (Hsteady bb Hin).
  destruct (written bb) as [ws|]; [|done]. apply andb_prop in Hsteady as [Hnd%bool_decide_eq_true Hs].
  exists ws. split; [done|]. split; [done|]. intros n v c x Hn Hk Hx'. rewrite forallb_forall in Hs.
  specialize (Hs n ltac:(by apply list_elem_of_In)). unfold steady_edge in Hs. rewrite forallb_forall in Hs.
  specialize (Hs (v, c) ltac:(by apply list_elem_of_In, elem_of_facts)). rewrite forallb_forall in Hs.
  specialize (Hs x ltac:(by apply list_elem_of_In)). by apply negb_true_iff in Hs.
Qed.

Lemma step_holds b bb m n m' :
  g !! b = Some bb -> machine_ok m -> holds_at b m -> run_block ail apv (value_tree b0) bb m = Some (inl (n, m')) ->
  machine_ok m' /\ holds_at n m'.
Proof.
  intros Hb Hm Hh Hrun. destruct (steady_at b bb Hb) as (ws & Hws & Hnd & Huse).
  destruct (step_keeps ail apv Hail Hapv b0 bb m n m' ws Hb0 (ids_at b bb Hb) Hrun Hws) as [Hn Hk].
  split; [by apply Hk|]. intros v c Hkn. rewrite (keeps_value ail apv b0 ws m m' v Hb0 Hk) by (intros x; by apply (Huse n v c)).
  destruct Hcons as [_ Hedge]. destruct (Hedge b bb n v c Hb Hn Hkn) as [Hkb|He]; [by apply Hh|].
  destruct bb as [|cond z nz| | |]; try done. cbn [run_block] in Hrun. injection Hrun as Hn' ->. destruct He as [-> He]. cbn [next_blocks] in Hnd.
  apply list.NoDup_cons in Hnd as [Hzn _]. rewrite list_elem_of_singleton in Hzn.
  destruct (Z.eqb_spec (den (env m') b0 cond) 0) as [E|E], He as [[En ->]|[En ->]]; cbn; try done; congruence.
Qed.

Lemma commit_like a m md vs vs' j j' k s :
  assumed b0 a (env m) -> Forall (valid b0) (block_ids (BCommitAndExit md vs j k s)) -> values_like b0 a b1 vs vs' -> jump_like b0 a b1 j j' ->
  same_run (match run_block ail apv (value_tree b1) (BCommitAndExit md vs' j' k s) m with Some (inr o) => Some o | _ => None end)
    (match run_block ail apv (value_tree b0) (BCommitAndExit md vs j k s) m with Some (inr o) => Some o | _ => None end).
Proof.
  intros Ha Hv Hvs Hj. cbn [block_ids] in Hv. apply Forall_app in Hv as [Hv [Hvj Hvk]%Forall_app].
  assert (Forall (agree_on (value_tree b0) (value_tree b1)) (commit_ids vs)) as Hag by (eapply list.Forall_impl; [exact Hv|apply valid_agree]).
  apply commit_ids_values in Hag. assert (commit_values ail apv (value_tree b1) m vs' = commit_values ail apv (value_tree b0) m vs) as Hc.
  { apply commit_ext; [|eapply list.Forall_impl; [exact Hag|by intros x [_ Hd]]]. eapply list.Forall2_impl; [exact Hvs|].
    intros x y [Hd [_ Hst]]. split; [done|]. by apply Hst. }
  cbn [run_block same_run]. rewrite Hc. split; cbn; [done|done| |].
  - destruct k as [v|]; [|done]. cbn [option_ids] in Hvk. apply list.Forall_cons in Hvk as [Hvk _]. by rewrite (extends_den _ b0 b1 v Hx Hvk).
  - destruct j as [v|], j' as [v'|]; cbn in Hj |- *; try done. f_equal. specialize (Hj _ Ha).
    destruct (Z.eqb_spec (den (env m) b1 v') 0), (Z.eqb_spec (den (env m) b0 v) 0); tauto.
Qed.

(** A step of the decided block is the step of the block. *)
Lemma step_like a b bb bb' m :
  assumed b0 a (env m) -> g !! b = Some bb -> exits bb = false -> block_like b0 a b1 bb bb' ->
  run_block ail apv (value_tree b1) bb' m = run_block ail apv (value_tree b0) bb m.
Proof.
  intros Ha Hb He Hl. assert (run_block ail apv (value_tree b1) bb m = run_block ail apv (value_tree b0) bb m) as Hsame.
  { apply (run_block_ext ail apv (value_tree b0)); [by apply (agree_at b)|by intros md vs j k s ->]. }
  destruct bb as [next|cond z nz|entry next|op ok ex|]; cbn [block_like] in Hl; try (by rewrite Hl); [|done].
  destruct (class_of a cond) as [[]|] eqn:Ec; rewrite Hl; try exact Hsame; destruct (as_holds b0 a _ Ha cond _ Ec) as [_ Hs]; cbn [run_block];
    cbn in Hs; destruct (Z.eqb_spec (den (env m) b0 cond) 0); done.
Qed.

Lemma graph_like n b m :
  machine_ok m -> holds_at b m ->
  same_run (run_graph ail apv (value_tree b1) n g' b m) (run_graph ail apv (value_tree b0) n g b m).
Proof.
  revert b m. induction n as [|n IH]; intros b m Hm Hh; [done|]. cbn [run_graph].
  destruct (g !! b) as [bb|] eqn:Hb.
  2:{ apply lookup_ge_None in Hb. by rewrite (proj2 (lookup_ge_None g' b)) by lia. }
  destruct (l !! b) as [a|] eqn:Ha; [|apply lookup_ge_None in Ha; apply lookup_lt_Some in Hb; lia].
  destruct (Hlike b bb a Hb Ha) as (bb' & -> & Hl). cbn [mbind option_bind]. pose proof (holds_assumed b m a Hm Hh Ha) as Has.
  destruct (exits bb) eqn:He.
  - destruct bb as [| | | |md vs j k s]; try done. destruct Hl as (vs' & j' & -> & Hvs & Hj).
    exact (commit_like a m md vs vs' j j' k s Has (ids_at b _ Hb) Hvs Hj).
  - rewrite (step_like a b bb bb' m Has Hb He Hl). destruct (run_block ail apv (value_tree b0) bb m) as [[[n' m']|o]|] eqn:Er; cbn [mbind option_bind]; [|apply same_run_refl|done].
    destruct (step_holds b bb m n' m' Hb Hm Hh Er). by apply IH.
Qed.
End sim.
