(* ===== verification/BbProps.v ===== *)
(** * Path conditions: what is right and what is not

    Where the recorded conditions are consistent the pass keeps what compiled
    code does; on graphs where no two paths meet they always are.  Where paths
    meet, a condition of one path is taken to hold on all of them. *)
From stdpp Require Import gmap.
From S2P Require Import Prelude Exceptions IlOps Arch Packing Address IlLoc MemArea IlCmd IlExample Jump Scc.
From S2P Require Import ValTree ValBuild ValSpec ValSound ValCombine ValMono CpuBytes Mir MirState MirEmit MirSpec MirStateSound.
From S2P Require Import MirCommit MirVals MirRun MirAddr MirMerge MirSim Interp MirSeq MirStrict MirCorrect MirExample.
From S2P Require Import BbOpt BbTree BbRemap BbRun BbSound.

#[local] Open Scope bm_scope.
#[local] Open Scope em_scope.

(** ** Sequences with the pass *)

(** [build_from_sequence] up to [BbGraph::optimize], with the builder. *)
Definition emission `{lay : Layout} (fuel : nat) (strict pm : bool) (items : list EncodingEntry) : em unit :=
  blocks <~~ create_blocks items;;
  last <~~ emit_sequence fuel strict pm (zip items blocks);;
  terminate_block_if_needed fuel last.1 last.2.
Definition emitted `{lay : Layout} (fuel : nat) (strict pm : bool) (items : list EncodingEntry) : option (list Bb * ValBuilder) :=
  r ← emission fuel strict pm items new_emitter builder_new;
  t ← block_is_terminated (em_cf r.1.2);
  assert (t : bool);;
  g ← bb_build (value_tree r.2) (bb_graph (em_cf r.1.2));
  Some (g, r.2).

(** [if edx then (if ecx then raise #GP(3)); if ecx then raise #GP(4)] *)
Definition join_encoding : Encoding :=
  {| enc_parts := []; enc_packing := [];
     enc_commands :=
       [CIf (VLoc (reg32 Dx)) [] [CIf (VLoc (reg32 Cx)) [] [CException (GeneralProtectionFault 0) (const_val 3)]];
        CIf (VLoc (reg32 Cx)) [] [CException (GeneralProtectionFault 0) (const_val 4)]];
     enc_addresses := []; enc_jump := Sequential |}.
Definition join_items : list EncodingEntry := [entry_of join_encoding; entry_of loop_encoding].
Definition no_graph : list Bb * ValBuilder := ([], builder_new).
Definition joined : list Bb * ValBuilder := default no_graph (emitted 60 false true join_items).
Definition faulting : list Bb * ValBuilder := default no_graph (emitted 60 true true fault_items).
Definition with_paths (x : list Bb * ValBuilder) : list Bb * ValBuilder := default no_graph (optimize_paths 1000 60 x.1 x.2).
Definition run_from (x : list Bb * ValBuilder) (m : Machine (Z -> Z)) : option (Outcome (Z -> Z)) := run_graph 0 0 (value_tree x.2) 100 x.1 0 m.

(** ** The theorems *)

Lemma commit_ids_fst (vs : list (CommitDest * ValId)) (P : ValId -> Prop) : Forall P (commit_ids vs) -> Forall P vs.*2.
Proof.
  induction vs as [|[d v] vs IH]; [done|]. unfold commit_ids. cbn [fmap list_fmap mjoin list_join fst snd app].
  intros [Hv [_ Hr]%Forall_app]%list.Forall_cons. constructor; [done|]. by apply IH.
Qed.
Lemma decide_ids_valid b bb : Forall (valid b) (block_ids bb) -> Forall (valid b) (decide_ids bb).
Proof.
  destruct bb; cbn [decide_ids block_ids]; try done. intros [Hv [Hj _]%Forall_app]%Forall_app. apply Forall_app. split; [by apply commit_ids_fst|done].
Qed.

Definition ids_ok (b : ValBuilder) (g : list Bb) : bool := forallb (fun bb => forallb (fun v => (v <? length (value_tree b))%nat) (block_ids bb)) g.
Lemma ids_ok_true b g : ids_ok b g = true -> Forall (fun bb => Forall (valid b) (block_ids bb)) g.
Proof.
  unfold ids_ok. rewrite forallb_forall. intros H. apply list.Forall_forall. intros bb Hbb. specialize (H bb ltac:(by apply list_elem_of_In)).
  rewrite forallb_forall in H. apply list.Forall_forall. intros v Hv. by apply Nat.ltb_lt, H, list_elem_of_In.
Qed.

(** The conditions that the pass records must meet. *)
Definition pass_ok (b : ValBuilder) (g : list Bb) (l : list Assumptions) : Prop :=
  ids_ok b g = true /\ consistentb g l = true /\ steady (value_tree b) g l = true
  /\ forall i bb a, g !! i = Some bb -> l !! i = Some a -> exits bb = true -> feasible b a.

Lemma optimized_runs {W} `{ctx : ExecCtx W} `{stable : !StableCtx W} `{sf : SoftFloat} `{sfl : !SoftFloatLaws} `{lay : Layout}
    sfuel vfuel (ail apv : Z) b g l g' b' n (m : Machine W) :
  wf b -> path_conditions sfuel g = Some l -> pass_ok b g l ->
  optimize_paths sfuel vfuel g b = Some (g', b') -> inw 128 ail -> inw 128 apv -> machine_ok m ->
  same_run (run_graph ail apv (value_tree b') n g' 0 m) (run_graph ail apv (value_tree b) n g 0 m).
Proof.
  intros Hb Hl (Hids%ids_ok_true & Hcons%consistentb_true & Hsteady & Hsat) Hopt Hail Hapv Hm. pose proof (path_conditions_length sfuel g l Hl) as Hlen.
  unfold optimize_paths, bbind, blift in Hopt. rewrite Hl in Hopt. cbn [mbind option_bind] in Hopt.
  destruct (decide_blocks_sound b Hb sfuel vfuel g l b g' b') as (Hx & Hb' & Hlen' & Hlike); try done.
  { eapply list.Forall_impl; [exact Hids|]. apply decide_ids_valid. }
  apply (graph_like ail apv Hail Hapv b b' Hb Hx g g' l); try done; [by apply (path_conditions_recorded sfuel)|].
  intros v c Hk. by apply Hcons in Hk.
Qed.

Lemma emitted_inv `{lay : Layout} fuel strict pm items g b :
  emitted fuel strict pm items = Some (g, b) ->
  exists e, emission fuel strict pm items new_emitter builder_new = Some ((tt, e), b) /\ finish e b = Some {| mir_value_tree := value_tree b; mir_control_flow := g |}.
Proof.
  unfold emitted, finish. destruct (emission _ _ _ _ _ _) as [[[[] e] b1]|]; [|done]. cbn [mbind option_bind fst snd].
  destruct (block_is_terminated (em_cf e)) as [[]|] eqn:Et; try done. cbn [mbind option_bind assert].
  destruct (bb_build _ _) as [g1|] eqn:Eg; [|done]. cbn [mbind option_bind]. intros [= <- <-]. exists e. split; [done|].
  rewrite Et. cbn [mbind option_bind assert]. by rewrite Eg.
Qed.

Lemma emitted_build `{lay : Layout} fuel strict pm items g b :
  emitted fuel strict pm items = Some (g, b) ->
  build_from_sequence fuel strict pm items = Some {| mir_value_tree := value_tree b; mir_control_flow := g |}.
Proof.
  intros (e & He & Hf)%emitted_inv. change (build_from_sequence fuel strict pm items) with (run_builder (emission fuel strict pm items)).
  unfold run_builder. by rewrite He.
Qed.

Lemma emitted_wf {W} `{ctx : ExecCtx W} `{stable : !StableCtx W} `{sf : SoftFloat} `{sfl : !SoftFloatLaws} `{lay : Layout} `{laws : !LayoutLaws}
    fuel pm items g b :
  Forall item_ok items -> emitted fuel true pm items = Some (g, b) -> wf b.
Proof.
  intros Hok (e & He & _)%emitted_inv. change (emission fuel true pm items) with (sequence_emission fuel pm items) in He.
  assert (inw 128 0) as H0 by done.
  by destruct (emission_spec (W := W) 0 0 H0 H0 fuel [] builder_new wf_new eq_refl pm items builder_new Hok wf_new _ _ He) as (_ & HB & _).
Qed.

(** C6: The first two passes of [optimize] keep what a graph does, if the path
    conditions they record hold on every edge, no block writes a variable of a
    value that is known after it, and the conditions of every exit can be met. *)
Theorem optimize_paths_correct {W} `{ctx : ExecCtx W} `{stable : !StableCtx W} `{sf : SoftFloat} `{sfl : !SoftFloatLaws} `{lay : Layout}
    sfuel vfuel (ail apv : Z) b g l g' b' n (m : Machine W) :
  wf b -> path_conditions sfuel g = Some l -> pass_ok b g l ->
  optimize_paths sfuel vfuel g b = Some (g', b') -> inw 128 ail -> inw 128 apv -> machine_ok m ->
  same_run (run_graph ail apv (value_tree b') n g' 0 m) (run_graph ail apv (value_tree b) n g 0 m).
Proof. apply optimized_runs. Qed.

Lemma paths_faulting : path_conditions 1000 faulting.1 = Some (default [] (path_conditions 1000 faulting.1)).
Proof.
  assert (match path_conditions 1000 faulting.1 with Some _ => true | None => false end = true) as H by (vm_compute; reflexivity).
  by destruct (path_conditions 1000 faulting.1).
Qed.
Lemma emitted_faulting : emitted 60 true true fault_items = Some faulting.
Proof.
  assert (match emitted 60 true true fault_items with Some _ => true | None => false end = true) as H by (vm_compute; reflexivity).
  unfold faulting. by destruct (emitted 60 true true fault_items).
Qed.
Lemma optimized_faulting : optimize_paths 1000 60 faulting.1 faulting.2 = Some (with_paths faulting).
Proof.
  assert (match optimize_paths 1000 60 faulting.1 faulting.2 with Some _ => true | None => false end = true) as H by (vm_compute; reflexivity).
  unfold with_paths. by destruct (optimize_paths 1000 60 faulting.1 faulting.2).
Qed.

(** The exits are reached with [ecx] 2 and with [ecx] 0. *)
Definition quiet : Machine (Z -> Z) := {| m_vars := fun _ => 0; m_cpu := fun _ => 0; m_k := 0; m_world := fun _ => 0; m_result := packed_default |}.
Lemma quiet_ok : machine_ok quiet.
Proof. by split. Qed.
Lemma faulting_ok : pass_ok faulting.2 faulting.1 (default [] (path_conditions 1000 faulting.1)).
Proof.
  assert (inw 128 0) as H0 by done. split; [|split; [|split]]; [vm_compute; reflexivity..|].
  apply (feasibleb_true _ _ _ [env_of 0 0 machine; env_of 0 0 quiet]); [|vm_compute; reflexivity].
  apply List.Forall_cons; [apply env_of_ok; [exact H0|exact H0|apply machine_enters]|].
  apply List.Forall_cons; [apply env_of_ok; [exact H0|exact H0|exact quiet_ok]|constructor].
Qed.

Lemma optimize_paths_correct_witness :
  wf faulting.2 /\ forall n, same_run (run_graph 0 0 (value_tree (with_paths faulting).2) n (with_paths faulting).1 0 machine)
    (run_graph 0 0 (value_tree faulting.2) n faulting.1 0 machine).
Proof.
  assert (inw 128 0) as H0 by done. pose proof emitted_faulting as He. rewrite (surjective_pairing faulting) in He.
  pose proof (emitted_wf (W := Z -> Z) 60 true fault_items faulting.1 faulting.2 fault_items_ok He) as Hwf. split; [exact Hwf|]. intros n.
  pose proof optimized_faulting as Ho. rewrite (surjective_pairing (with_paths faulting)) in Ho.
  exact (optimize_paths_correct 1000 60 0 0 faulting.2 faulting.1 _ _ _ n machine Hwf paths_faulting faulting_ok Ho H0 H0 (en_machine _ machine_enters)).
Defined.


Lemma interpreted_faulting : exists r, interpreted true fault_items machine = Some r /\ lf_success r = false.
Proof.
  assert (match interpreted true fault_items machine with Some r => negb (lf_success r) | None => false end = true) as H by (vm_compute; reflexivity).
  destruct (interpreted true fault_items machine) as [r|]; [|discriminate H]. exists r. split; [done|]. by destruct (lf_success r).
Qed.


(** On a graph without cycles in which no block is entered from two places the
    pass ends, and what it records holds on every edge. *)
Theorem tree_conditions_consistent sfuel g rank :
  tree g = true -> ranked g rank -> (scc_fuel (length g) (transitions_of g) <= sfuel)%nat ->
  exists l, path_conditions sfuel g = Some l /\ length l = length g /\ consistent g l.
Proof. apply path_conditions_tree. Qed.

Definition faulting_rank (b : BbId) : nat := match b with 0 => 5 | 1 => 4 | 3 => 1 | 4 => 1 | _ => 0 end%nat.
Lemma tree_conditions_consistent_witness : exists l, path_conditions 1000 faulting.1 = Some l /\ consistent faulting.1 l.
Proof.
  assert (tree faulting.1 = true) as Ht by (vm_compute; reflexivity). assert (rankedb faulting.1 faulting_rank = true) as Hr by (vm_compute; reflexivity).
  assert (Nat.leb (scc_fuel (length faulting.1) (transitions_of faulting.1)) 1000 = true) as Hf by (vm_compute; reflexivity).
  destruct (tree_conditions_consistent 1000 faulting.1 faulting_rank Ht (rankedb_true _ _ Hr) (proj1 (Nat.leb_le _ _) Hf)) as (l & Hl & _ & Hc).
  exists l. split; [exact Hl|exact Hc].
Defined.

(** C15: [remap] with the decisions of the pass ends, whatever the value, and the
    value it builds is equal wherever the conditions hold. *)
Theorem remap_correct a b zero one val :
  wf b -> Z.of_nat (length (value_tree b)) < 2 ^ 32 -> value_tree b !! zero = Some (NConst 0) -> value_tree b !! one = Some (NConst 1) ->
  valid b val -> feasible b a ->
  exists enough id b', (forall sfuel vfuel, (scc_fuel (length (value_tree b)) (fun i => referenced_nodes <$> value_tree b !! i) <= sfuel)%nat -> (enough <= vfuel)%nat ->
    remap sfuel vfuel val (decided a zero one) b = Some (id, b'))
    /\ extends b b' /\ wf b' /\ valid b' id /\ forall E, assumed b a E -> den E b' id = den E b val.
Proof.
  intros Hb Hs Hz Ho Hv Hsat. destruct (remap_settles b Hb a Hsat zero one val b Hb (extends_refl b) Hs Hz Ho Hv) as (F & [id b'] & H).
  destruct (remap_sound b Hb a Hsat _ F zero one val b id b' Hb (extends_refl b) Hz Ho Hv (H _ F (le_n _) (le_n _))) as (Hx & Hw & Hvi & Hd).
  by exists F, id, b'.
Qed.

(** The counter minus one, where the counter is known to be zero. *)
Definition at_zero : Assumptions := Some {[ 7%nat := ClassIsZero ]}.
Lemma remap_correct_witness :
  exists enough id b', (forall vfuel, (enough <= vfuel)%nat -> remap 1000 vfuel 15%nat (decided at_zero 0%nat 1%nat) faulting.2 = Some (id, b'))
  /\ den (env_of 0 0 quiet) b' id = 0xffffffff.
Proof.
  assert (inw 128 0) as H0 by done. pose proof emitted_faulting as He. rewrite (surjective_pairing faulting) in He.
  pose proof (emitted_wf (W := Z -> Z) 60 true fault_items faulting.1 faulting.2 fault_items_ok He) as Hwf.
  assert (env_ok (env_of 0 0 quiet)) as HE by exact (env_of_ok 0 0 quiet H0 H0 quiet_ok).
  assert (feasible_in faulting.2 at_zero (env_of 0 0 quiet) = true) as Hin by (vm_compute; reflexivity).
  pose proof (feasible_in_true faulting.2 at_zero (env_of 0 0 quiet) HE Hin) as Hsat.
  assert (Z.of_nat (length (value_tree faulting.2)) < 2 ^ 32) as Hlen by (vm_compute; reflexivity).
  assert (Nat.ltb 15 (length (value_tree faulting.2)) = true) as Hv by (vm_compute; reflexivity).
  assert (value_tree faulting.2 !! 0%nat = Some (NConst 0)) as Hz by (vm_compute; reflexivity).
  assert (value_tree faulting.2 !! 1%nat = Some (NConst 1)) as Ho by (vm_compute; reflexivity).
  assert (Nat.leb (scc_fuel (length (value_tree faulting.2)) (fun i => referenced_nodes <$> value_tree faulting.2 !! i)) 1000 = true) as Hf by (vm_compute; reflexivity).
  destruct (remap_correct at_zero faulting.2 0%nat 1%nat 15%nat Hwf Hlen Hz Ho (proj1 (Nat.ltb_lt _ _) Hv) Hsat) as (F & id & b' & Hrun & _ & _ & _ & Hd).
  exists F, id, b'. split; [intros vfuel Hvf; exact (Hrun 1000%nat vfuel (proj1 (Nat.leb_le _ _) Hf) Hvf)|].
  rewrite (Hd (env_of 0 0 quiet) (feasible_env faulting.2 at_zero _ HE Hin)). vm_compute. reflexivity.
Defined.

(** Where paths meet the pass is wrong: with [edx] zero and [ecx] not, the
    second test of [ecx] must raise the exception, and does; after the pass it
    is a jump past the exception, because on the other path [ecx] was zero. *)
Theorem join_skips_exception :
  exists o o', run_from joined machine = Some o /\ o_success o = false
  /\ run_from (with_paths joined) machine = Some o' /\ o_success o' = true.
Proof.
  assert (match run_from joined machine, run_from (with_paths joined) machine with
          | Some o, Some o' => negb (o_success o) && o_success o' | _, _ => false end = true) as H by (vm_compute; reflexivity).
  destruct (run_from joined machine) as [o|]; [|discriminate H]. destruct (run_from (with_paths joined) machine) as [o'|]; [|discriminate H].
  exists o, o'. destruct (o_success o), (o_success o'); try discriminate H. by repeat split.
Qed.
