(* ===== verification/Dom.v ===== *)
(** * The dominator tree

    [sem86-core/src/codegen/lir/dominator.rs]: the dominators of the basic
    blocks, used to place values that several blocks share and to commit
    registers early.  A block dominates another one if every path from the
    entry to the other one passes it. *)
From stdpp Require Import gmap sorting.
From S2P Require Import Prelude Exceptions IlOps Arch MemArea IlCmd Scc ValTree CpuBytes Mir BbOpt BbTree.

(** ** The construction *)

(** [node_n] is 0 for a block that was not reached, 1 for one that was. *)
Record Node := { node_n : nat; idom : option BbId; predecessors : list BbId }.
Definition unvisited : Node := {| node_n := 0; idom := None; predecessors := [] |}.
Definition Stack : Type := list (bool * BbId).
Record DominatorTree := { dt_nodes : list Node; dt_postorder : list BbId }.

Definition with_n (nodes : list Node) (id : BbId) (n : nat) : option (list Node) :=
  x ← nodes !! id; Some (<[id := {| node_n := n; idom := idom x; predecessors := predecessors x |}]> nodes).
Definition with_idom (nodes : list Node) (id i : BbId) : option (list Node) :=
  x ← nodes !! id; Some (<[id := {| node_n := node_n x; idom := Some i; predecessors := predecessors x |}]> nodes).

Fixpoint visit_next (id : BbId) (next : list BbId) (nodes : list Node) (stack : Stack) : option (list Node * Stack) :=
  match next with
  | [] => Some (nodes, stack)
  | s :: next =>
      x ← nodes !! s;
      let nodes := <[s := {| node_n := node_n x; idom := idom x; predecessors := predecessors x ++ [id] |}]> nodes in
      visit_next id next nodes (if (node_n x =? 0)%nat then (true, s) :: stack else stack)
  end.

Fixpoint dfs (fuel : nat) (g : list Bb) (nodes : list Node) (stack : Stack) (postorder : list BbId) : option (list Node * list BbId) :=
  match fuel, stack with
  | _, [] => Some (nodes, postorder)
  | O, _ => None
  | S fuel, (is_entry, id) :: stack =>
      nodes ← with_n nodes id 1;
      if is_entry : bool then
        bb ← g !! id;
        '(nodes, stack) ← visit_next id (next_blocks bb) nodes ((false, id) :: stack);
        dfs fuel g nodes stack postorder
      else dfs fuel g nodes stack (postorder ++ [id])
  end.

(** The lowest common ancestor; a step up lowers the number of one side. *)
Fixpoint lca (fuel : nat) (nodes : list Node) (a b : BbId) : option BbId :=
  match fuel with
  | O => None
  | S fuel =>
      x ← nodes !! a;
      y ← nodes !! b;
      match Nat.compare (node_n x) (node_n y) with
      | Lt => b ← idom y; lca fuel nodes a b
      | Eq => Some a
      | Gt => a ← idom x; lca fuel nodes a b
      end
  end.
Definition lca_fuel (nodes : list Node) : nat := 2 * length nodes + 8.

Fixpoint lca_from (nodes : list Node) (acc : BbId) (l : list BbId) : option BbId :=
  match l with
  | [] => Some acc
  | b :: l => acc ← lca (lca_fuel nodes) nodes acc b; lca_from nodes acc l
  end.
Definition lca_list (nodes : list Node) (l : list BbId) : option BbId :=
  match l with
  | [] => None                       (* [unwrap] *)
  | a :: l => lca_from nodes a l
  end.
Definition lca_many (t : DominatorTree) (l : list BbId) : option BbId := lca_list (dt_nodes t) l.

Definition compute_idom (nodes : list Node) (id : BbId) : option BbId := x ← nodes !! id; lca_list nodes (predecessors x).

Fixpoint number_nodes (nodes : list Node) (index : nat) (order : list BbId) : option (list Node) :=
  match order with
  | [] => Some nodes
  | id :: order =>
      i ← compute_idom nodes id;
      nodes ← with_idom nodes id i;
      nodes ← with_n nodes id (2 + index);
      number_nodes nodes (S index) order
  end.

(** One turn of the loop that repeats until nothing changes. *)
Fixpoint update_idoms (nodes : list Node) (done : bool) (order : list BbId) : option (bool * list Node) :=
  match order with
  | [] => Some (done, nodes)
  | id :: order =>
      i ← compute_idom nodes id;
      x ← nodes !! id;
      if decide (idom x = Some i) then update_idoms nodes done order
      else nodes ← with_idom nodes id i; update_idoms nodes false order
  end.
Fixpoint settle (fuel : nat) (nodes : list Node) (order : list BbId) : option (list Node) :=
  match fuel with
  | O => None
  | S fuel => '(done, nodes) ← update_idoms nodes true order; if done : bool then Some nodes else settle fuel nodes order
  end.

Definition initialize (fuel : nat) (t : DominatorTree) : option DominatorTree :=
  let order := tail (reverse (dt_postorder t)) in
  nodes ← with_n (dt_nodes t) 0%nat 2;
  nodes ← number_nodes nodes 0 order;
  nodes ← settle fuel nodes order;
  Some {| dt_nodes := nodes; dt_postorder := dt_postorder t |}.

Definition dominator_new (fuel : nat) (g : list Bb) : option DominatorTree :=
  '(nodes, postorder) ← dfs fuel g (replicate (length g) unvisited) [(true, 0%nat)] [];
  initialize fuel {| dt_nodes := nodes; dt_postorder := postorder |}.

Fixpoint dominates_from (fuel : nat) (nodes : list Node) (dominator : BbId) (dominator_n : nat) (other : BbId) : option bool :=
  match fuel with
  | O => None
  | S fuel =>
      y ← nodes !! other;
      match Nat.compare dominator_n (node_n y) with
      | Lt => match idom y with Some other => dominates_from fuel nodes dominator dominator_n other | None => Some false end
      | Eq => Some (bool_decide (dominator = other))
      | Gt => Some false
      end
  end.
Definition dominates (t : DominatorTree) (dominator other : BbId) : option bool :=
  x ← dt_nodes t !! dominator; dominates_from (lca_fuel (dt_nodes t)) (dt_nodes t) dominator (node_n x) other.

(** ** The order of the search *)

(** A graph without cycles in which the later successor of a block never leads
    to the earlier one. *)
Record searchable (g : list Bb) (rank : BbId -> nat) : Prop := {
  se_next : forall p b, next_of g p b -> (b < length g)%nat /\ (rank b < rank p)%nat;
  se_siblings : forall p bb, g !! p = Some bb -> StronglySorted (fun a b => rank b < rank a)%nat (next_blocks bb);
  se_root : (0 < length g)%nat;
}.

Lemma sorted_nodup {A} (f : A -> nat) l : StronglySorted (fun a b => f b < f a)%nat l -> NoDup l.
Proof.
  induction 1 as [|x l _ IH Hx]; constructor; [|done]. intros Hin. rewrite list.Forall_forall in Hx. specialize (Hx x Hin). lia.
Qed.

Definition extend_preds (id : BbId) (next : list BbId) (p : BbId) (x : Node) : Node :=
  {| node_n := node_n x; idom := idom x; predecessors := predecessors x ++ if decide (p ∈ next) then [id] else [] |}.
Definition fresh (nodes : list Node) (next : list BbId) : list BbId := filter (fun s => node_n <$> nodes !! s = Some 0%nat) next.

Lemma visit_next_spec id next nodes stack :
  NoDup next -> Forall (fun s => s < length nodes)%nat next ->
  exists nodes', visit_next id next nodes stack = Some (nodes', (pair true <$> reverse (fresh nodes next)) ++ stack)
    /\ length nodes' = length nodes /\ forall p x, nodes !! p = Some x -> nodes' !! p = Some (extend_preds id next p x).
Proof.
  intros Hnd Hlt. revert nodes stack Hlt. induction Hnd as [|s next Hs Hnd IH]; intros nodes stack Hlt.
  - exists nodes. split; [done|]. split; [done|]. intros p x Hp. rewrite Hp. f_equal. unfold extend_preds. rewrite decide_False by apply not_elem_of_nil.
    rewrite app_nil_r. by destruct x.
  - apply list.Forall_cons in Hlt as [Hs1 Hlt]. destruct (lookup_lt_is_Some_2 nodes s Hs1) as [x Hx]. cbn [visit_next]. rewrite Hx. cbn [mbind option_bind].
    set (nodes1 := <[s := _]> nodes).
    assert (fresh nodes1 next = fresh nodes next) as Hf.
    { unfold fresh. apply list_filter_iff. intros y. unfold nodes1. destruct (decide (y = s)) as [->|Hne]; [|by rewrite list_lookup_insert_ne].
      rewrite list_lookup_insert_eq by done. rewrite Hx. done. }
    destruct (IH nodes1 (if (node_n x =? 0)%nat then (true, s) :: stack else stack)) as (nodes' & Hv & Hl & Hget).
    { unfold nodes1. by rewrite length_insert. }
    exists nodes'. split; [|split].
    + rewrite Hv, Hf. f_equal. f_equal. unfold fresh at 2. destruct (Nat.eqb_spec (node_n x) 0) as [E|E].
      * rewrite filter_cons_True by (rewrite Hx; cbn; by rewrite E). rewrite reverse_cons, fmap_app, <- app_assoc. done.
      * rewrite filter_cons_False by (rewrite Hx; cbn; congruence). done.
    + rewrite Hl. unfold nodes1. apply length_insert.
    + intros p y Hp. destruct (decide (p = s)) as [->|Hne].
      * assert (y = x) as -> by congruence. rewrite (Hget s _ ltac:(unfold nodes1; by apply list_lookup_insert_eq)). f_equal. unfold extend_preds. cbn [node_n idom predecessors].
        rewrite decide_False by done. rewrite app_nil_r. by rewrite decide_True by by left.
      * rewrite (Hget p y ltac:(unfold nodes1; by rewrite list_lookup_insert_ne)). f_equal. unfold extend_preds. f_equal. f_equal.
        apply decide_ext. rewrite elem_of_cons. tauto.
Qed.

Record dfs_inv (g : list Bb) (rank : BbId -> nat) (nodes : list Node) (stack : Stack) (post : list BbId) : Prop := {
  di_length : length nodes = length g;
  di_sorted : StronglySorted (fun x y : bool * BbId => rank x.2 < rank y.2)%nat stack;
  di_range : Forall (fun x : bool * BbId => x.2 < length g)%nat stack;
  di_pending : forall s x, (true, s) ∈ stack -> nodes !! s = Some x -> node_n x = 0%nat;
  di_nodup : NoDup post;
  di_disjoint : forall p, p ∈ post -> (false, p) ∉ stack;
  di_visited : forall p x, nodes !! p = Some x -> idom x = None /\ (node_n x = 0%nat \/ node_n x = 1%nat) /\ (node_n x = 1%nat <-> p ∈ post \/ (false, p) ∈ stack);
  di_preds : forall p x, nodes !! p = Some x ->
    NoDup (predecessors x) /\ forall q, q ∈ predecessors x <-> next_of g q p /\ (q ∈ post \/ (false, q) ∈ stack);
  di_open : forall p s, (false, p) ∈ stack -> next_of g p s -> s ∈ post \/ s ∈ stack.*2;
  di_post : forall i p s, post !! i = Some p -> next_of g p s -> exists j, (j < i)%nat /\ post !! j = Some s;
  di_entry : exists l, (stack = [] /\ post = l ++ [0%nat]) \/ stack.*2 = l ++ [0%nat];
  di_post_range : forall p, p ∈ post -> (p < length g)%nat;
  di_entered : forall p, p ∈ post \/ p ∈ stack.*2 -> p <> 0%nat -> exists q, next_of g q p /\ (q ∈ post \/ (false, q) ∈ stack);
}.

Definition open_count (stack : list (bool * BbId)) : nat := length (filter (fun x : bool * BbId => x.1 = false) stack).
Lemma open_true id stack : open_count ((true, id) :: stack) = open_count stack.
Proof. unfold open_count. by rewrite filter_cons_False. Qed.
Lemma open_false id stack : open_count ((false, id) :: stack) = S (open_count stack).
Proof. unfold open_count. by rewrite filter_cons_True. Qed.

Section search.
Context (g : list Bb) (rank : BbId -> nat) (Hg : searchable g rank).

Lemma reverse_sorted l : StronglySorted (fun a b => rank b < rank a)%nat l -> StronglySorted (fun x y : bool * BbId => rank x.2 < rank y.2)%nat (pair true <$> reverse l).
Proof.
  induction 1 as [|x l _ IH Hx]; [constructor|]. rewrite reverse_cons, fmap_app. apply StronglySorted_app_2; [|done|repeat constructor].
  intros a b (y & -> & Hy)%list_elem_of_fmap Hb. apply list_elem_of_singleton in Hb as ->. cbn. rewrite list.Forall_forall in Hx. apply Hx. by rewrite elem_of_reverse in Hy.
Qed.
Lemma filter_sorted {A} (R : A -> A -> Prop) (P : A -> Prop) `{forall x, Decision (P x)} l : StronglySorted R l -> StronglySorted R (filter P l).
Proof.
  induction 1 as [|x l _ IH Hx]; [constructor|]. rewrite filter_cons. case_decide; [|done]. constructor; [done|].
  apply list.Forall_forall. intros y [_ Hy]%list_elem_of_filter. rewrite list.Forall_forall in Hx. by apply Hx.
Qed.

Lemma dfs_start : dfs_inv g rank (replicate (length g) unvisited) [(true, 0%nat)] [].
Proof.
  split.
  - apply length_replicate.
  - repeat constructor.
  - apply list.Forall_singleton. apply (se_root _ _ Hg).
  - intros s x _ [-> _]%lookup_replicate. done.
  - constructor.
  - intros p H. by apply elem_of_nil in H.
  - intros p x [-> _]%lookup_replicate. split; [done|]. split; [by left|]. cbn. split; [done|]. rewrite elem_of_nil, list_elem_of_singleton. by intros [|].
  - intros p x [-> _]%lookup_replicate. cbn. split; [constructor|]. intros q. rewrite !elem_of_nil, list_elem_of_singleton. split; [done|]. by intros (_ & [|]).
  - intros p s H. apply list_elem_of_singleton in H. done.
  - done.
  - exists []. by right.
  - intros p H. by apply elem_of_nil in H.
  - intros p [H|H] Hp; [by apply elem_of_nil in H|]. by apply list_elem_of_singleton in H.
Qed.

Lemma dfs_enter nodes id stack post :
  dfs_inv g rank nodes ((true, id) :: stack) post ->
  exists nodes1 bb nodes2 stack2, with_n nodes id 1 = Some nodes1 /\ g !! id = Some bb
    /\ visit_next id (next_blocks bb) nodes1 ((false, id) :: stack) = Some (nodes2, stack2) /\ dfs_inv g rank nodes2 stack2 post
    /\ open_count stack2 = S (open_count stack).
Proof.
  intros [H1 H2 H3 H4 H5 H6 H7 H8 H9 H10 H11 H12 H13]. apply list.Forall_cons in H3 as [Hid H3]. cbn [snd] in Hid. apply StronglySorted_inv in H2 as [H2 Htop].
  rewrite list.Forall_forall in Htop.
  destruct (lookup_lt_is_Some_2 nodes id) as [x Hx]; [by rewrite H1|]. destruct (lookup_lt_is_Some_2 g id Hid) as [bb Hbb].
  assert (node_n x = 0%nat) as Hn by (apply (H4 id x); [by left|done]).
  unfold with_n. rewrite Hx. cbn [mbind option_bind]. set (x1 := {| node_n := 1; idom := _; predecessors := _ |}). set (nodes1 := <[id:=x1]> nodes).
  pose proof (se_siblings _ _ Hg id bb Hbb) as Hsort. pose proof (sorted_nodup rank _ Hsort) as Hnd.
  assert (forall s, s ∈ next_blocks bb -> next_of g id s /\ (s < length g)%nat /\ (rank s < rank id)%nat) as Hnext.
  { intros s Hs. assert (next_of g id s) as Hns by by exists bb. split; [done|]. by apply (se_next _ _ Hg). }
  destruct (visit_next_spec id (next_blocks bb) nodes1 ((false, id) :: stack) Hnd) as (nodes2 & Hv & Hl & Hget).
  { apply list.Forall_forall. intros s Hs. unfold nodes1. rewrite length_insert, H1. by apply Hnext. }
  eexists nodes1, bb, nodes2, _. split; [done|]. split; [done|]. split; [exact Hv|].
  assert (forall p y, nodes2 !! p = Some y -> exists z, nodes1 !! p = Some z /\ y = extend_preds id (next_blocks bb) p z) as Hget2.
  { intros p y Hp. destruct (lookup_lt_is_Some_2 nodes1 p) as [z Hz]; [rewrite <- Hl; by apply lookup_lt_Some in Hp|]. exists z. split; [done|].
    rewrite (Hget p z Hz) in Hp. by injection Hp. }
  assert (forall p z, nodes1 !! p = Some z -> (p = id /\ z = x1) \/ (p <> id /\ nodes !! p = Some z)) as Hn1.
  { intros p z. unfold nodes1. destruct (decide (p = id)) as [->|Hne]; [rewrite list_lookup_insert_eq by (by rewrite H1)|rewrite list_lookup_insert_ne by done].
    - intros [= <-]. by left. - intros Hz. by right. }
  assert (forall s, s ∈ fresh nodes1 (next_blocks bb) <-> s ∈ next_blocks bb /\ node_n <$> nodes1 !! s = Some 0%nat) as Hfresh.
  { intros s. unfold fresh. rewrite list_elem_of_filter. tauto. }
  assert (forall b s, (b, s) ∈ (pair true <$> reverse (fresh nodes1 (next_blocks bb))) <-> b = true /\ s ∈ fresh nodes1 (next_blocks bb)) as Hpush.
  { intros b s. rewrite list_elem_of_fmap. setoid_rewrite elem_of_reverse. split; [by intros (y & [= -> ->] & Hy)|]. intros [-> Hs]. by exists s. }
  assert ((id ∉ post) /\ ((false, id) ∉ stack)) as [Hidp Hids].
  { destruct (H7 id x Hx) as (_ & _ & Hv1). split; intros Hin; assert (node_n x = 1%nat) by (apply Hv1; rewrite ?elem_of_cons; tauto); congruence. }
  assert (forall p, (false, p) ∈ (pair true <$> reverse (fresh nodes1 (next_blocks bb))) ++ (false, id) :: stack <-> p = id \/ (false, p) ∈ stack) as Hopen.
  { intros p. rewrite elem_of_app, elem_of_cons, Hpush. split; [intros [[? _]|[[= ->]|]]; [done|by left|by right]|]. intros [->|]; right; [by left|by right]. }
  split; [split|].
  - rewrite Hl. unfold nodes1. by rewrite length_insert.
  - apply StronglySorted_app_2; [|apply reverse_sorted; by apply filter_sorted|by constructor; [|apply list.Forall_forall]].
    intros [b s] y [-> Hs%Hfresh]%Hpush Hy. cbn [snd]. destruct (Hnext s (proj1 Hs)) as (_ & _ & Hr). apply elem_of_cons in Hy as [->|Hy]; [done|].
    specialize (Htop y Hy). cbn [snd] in Htop. lia.
  - apply Forall_app. split; [|by constructor]. apply list.Forall_forall. intros [b s] [-> Hs%Hfresh]%Hpush. cbn [snd]. apply Hnext, Hs.
  - intros s y Hs Hy. destruct (Hget2 s y Hy) as (z & Hz & ->). cbn [extend_preds node_n]. rewrite elem_of_app, elem_of_cons, Hpush, Hfresh in Hs.
    destruct Hs as [(_ & _ & E)|[[=]|Hs]]; [rewrite Hz in E; by injection E|].
    destruct (Hn1 s z Hz) as [[-> _]|[_ Hz']]; [|apply (H4 s z); [by right|done]]. specialize (Htop _ Hs). cbn in Htop. lia.
  - done.
  - intros p Hp Hin. apply Hopen in Hin as [->|Hin]; [done|]. apply (H6 p Hp). by right.
  - intros p y Hy. destruct (Hget2 p y Hy) as (z & Hz & ->). cbn [extend_preds node_n idom]. destruct (Hn1 p z Hz) as [[-> ->]|[Hpid Hz']].
    + unfold x1. cbn [idom node_n]. split; [by apply (H7 id x)|]. split; [by right|]. split; [|done]. intros _. right. rewrite Hopen. by left.
    + destruct (H7 p z Hz') as (E1 & E2 & E3). split; [done|]. split; [done|]. rewrite E3, Hopen, elem_of_cons. split; [intros [?|[[=]|?]]; tauto|]. intros [?|[->|?]]; [by left|done|]. right. by right.
  - intros p y Hy. destruct (Hget2 p y Hy) as (z & Hz & ->). cbn [extend_preds predecessors].
    assert (NoDup (predecessors z) /\ forall q, q ∈ predecessors z <-> next_of g q p /\ (q ∈ post \/ (false, q) ∈ stack)) as [E1 E2].
    { assert (exists z0, nodes !! p = Some z0 /\ predecessors z = predecessors z0) as (z0 & Hz0 & ->).
      { destruct (Hn1 p z Hz) as [[-> ->]|[_ Hz']]; [by exists x|by exists z]. }
      destruct (H8 p z0 Hz0) as [E1 E2]. split; [done|]. intros q. rewrite E2, elem_of_cons. split; intros (? & [?|?]); try tauto. destruct H0 as [[=]|]; tauto. }
    assert (id ∉ predecessors z) as Hidz by (intros (_ & [?|?])%E2; done).
    split.
    + apply list.NoDup_app. split; [done|]. split; [|by case_decide; [apply NoDup_singleton|constructor]]. intros q Hq. case_decide; [|by intros ?%elem_of_nil].
      intros ->%list_elem_of_singleton. done.
    + intros q. rewrite elem_of_app, E2, Hopen. split.
      * intros [(? & [?|?])|Hq]; [tauto|tauto|]. case_decide as Hp; [|by apply elem_of_nil in Hq]. apply list_elem_of_singleton in Hq as ->. split; [by exists bb|]. right. by left.
      * intros (Hqp & [?|[->|?]]); [tauto| |tauto]. right. rewrite decide_True; [by apply list_elem_of_singleton|].
        destruct Hqp as (bb' & Hbb' & Hin). congruence.
  - intros p s Hp Hs. apply Hopen in Hp as [->|Hp].
    + destruct Hs as (bb' & Hbb' & Hs). assert (bb' = bb) as -> by congruence. destruct (Hnext s Hs) as (_ & Hsl & Hr).
      destruct (lookup_lt_is_Some_2 nodes1 s) as [z Hz]; [unfold nodes1; by rewrite length_insert, H1|].
      destruct (decide (node_n z = 0%nat)) as [E|E].
      * right. rewrite fmap_app, elem_of_app. left. apply list_elem_of_fmap. exists (true, s). split; [done|]. apply Hpush. split; [done|]. apply Hfresh. by rewrite Hz, <- E.
      * left. destruct (Hn1 s z Hz) as [[-> _]|[_ Hz']]; [lia|]. destruct (H7 s z Hz') as (_ & [|E1] & E3); [done|]. apply E3 in E1 as [|[[=]|Hin]%elem_of_cons]; [done|].
        specialize (Htop _ Hin). cbn in Htop. lia.
    + destruct (H9 p s) as [|Hin]; [by right|done|by left|]. right. rewrite fmap_app, fmap_cons, elem_of_app, elem_of_cons. cbn [snd].
      rewrite fmap_cons, elem_of_cons in Hin. cbn [snd] in Hin. tauto.
  - done.
  - destruct H11 as (l & [[? _]|Hl0]); [done|]. eexists. right. rewrite fmap_app. change (((false, id) :: stack).*2) with (((true, id) :: stack).*2).
    rewrite Hl0, app_assoc. done.
  - done.
  - intros p Hp Hp0. assert (p ∈ fresh nodes1 (next_blocks bb) \/ p ∈ post \/ p ∈ ((true, id) :: stack).*2) as [Hf|Hold].
    { destruct Hp as [Hp|Hp]; [by right; left|]. rewrite fmap_app, elem_of_app in Hp. destruct Hp as [([b y] & -> & [-> Hy]%Hpush)%list_elem_of_fmap|Hp]; [by left|by right; right]. }
    + exists id. split; [by apply Hnext, Hfresh|]. right. apply Hopen. by left.
    + destruct (H13 p Hold Hp0) as (q & Hq & Hqs). exists q. split; [done|]. destruct Hqs as [|[[=]|]%elem_of_cons]; [by left|]. right. apply Hopen. by right.
  - unfold open_count. rewrite (list.filter_app (fun x : bool * BbId => x.1 = false) (pair true <$> reverse (fresh nodes1 (next_blocks bb))) ((false, id) :: stack)), length_app. rewrite (filter_cons_True (fun x : bool * BbId => x.1 = false) (false, id)) by done.
    assert (filter (fun x : bool * BbId => x.1 = false) (pair true <$> reverse (fresh nodes1 (next_blocks bb))) = []) as ->; [|done].
    generalize (reverse (fresh nodes1 (next_blocks bb))). induction l as [|y l IH]; [done|]. cbn [fmap list_fmap]. by rewrite filter_cons_False.
Qed.
Lemma dfs_leave nodes id stack post :
  dfs_inv g rank nodes ((false, id) :: stack) post ->
  with_n nodes id 1 = Some nodes /\ dfs_inv g rank nodes stack (post ++ [id]).
Proof.
  intros [H1 H2 H3 H4 H5 H6 H7 H8 H9 H10 H11 H12 H13]. apply list.Forall_cons in H3 as [Hid H3]. cbn [snd] in Hid. apply StronglySorted_inv in H2 as [H2 Htop].
  rewrite list.Forall_forall in Htop. destruct (lookup_lt_is_Some_2 nodes id) as [x Hx]; [by rewrite H1|].
  assert (node_n x = 1%nat) as Hn by (destruct (H7 id x Hx) as (_ & _ & E); apply E; right; by left).
  assert (id ∉ post) as Hidp by (intros Hin; apply (H6 id Hin); by left).
  assert (forall b, (b, id) ∉ stack) as Hids by (intros b Hin; specialize (Htop _ Hin); cbn in Htop; lia).
  assert (forall p, (p ∈ post ++ [id] \/ (false, p) ∈ stack) <-> (p ∈ post \/ (false, p) ∈ (false, id) :: stack)) as Hvis.
  { intros p. rewrite elem_of_app, list_elem_of_singleton, elem_of_cons. split; [intros [[?| ->]|?]; tauto|]. intros [?|[[= ->]|?]]; tauto. }
  split.
  { unfold with_n. rewrite Hx. cbn [mbind option_bind]. f_equal. rewrite <- Hn. apply list_insert_id. rewrite Hx. by destruct x. }
  split.
  - done.
  - done.
  - done.
  - intros s y Hs. apply H4. by right.
  - apply list.NoDup_app. split; [done|]. split; [|apply NoDup_singleton]. intros p Hp ->%list_elem_of_singleton. done.
  - intros p [Hp| ->%list_elem_of_singleton]%elem_of_app Hin; [|by apply (Hids false)]. apply (H6 p Hp). by right.
  - intros p y Hp. destruct (H7 p y Hp) as (E1 & E2 & E3). split; [done|]. split; [done|]. by rewrite E3, Hvis.
  - intros p y Hp. destruct (H8 p y Hp) as [E1 E2]. split; [done|]. intros q. by rewrite E2, Hvis.
  - intros p s Hp Hs. destruct (H9 p s) as [Hin|Hin]; [by right|done|left; apply elem_of_app; by left|]. rewrite fmap_cons, elem_of_cons in Hin. cbn [snd] in Hin.
    destruct Hin as [->|Hin]; [left; apply elem_of_app; right; by left|by right].
  - intros i p s Hi Hs. destruct (decide (i < length post)%nat) as [Hlt|Hge].
    + rewrite lookup_app_l in Hi by done. destruct (H10 i p s Hi Hs) as (j & Hj & Hjs). exists j. split; [done|]. rewrite lookup_app_l; [done|lia].
    + rewrite lookup_app_r in Hi by lia. apply list_lookup_singleton_Some in Hi as [Hi0 <-]. destruct (H9 id s) as [Hin|Hin]; [by left|done| |].
      * apply list_elem_of_lookup in Hin as [j Hj]. pose proof (lookup_lt_Some _ _ _ Hj). exists j. split; [lia|]. by rewrite lookup_app_l.
      * exfalso. destruct (se_next _ _ Hg id s Hs) as [_ Hr]. rewrite fmap_cons, elem_of_cons in Hin. cbn [snd] in Hin. destruct Hin as [->|([b y] & -> & Hy)%list_elem_of_fmap]; [lia|].
        specialize (Htop _ Hy). cbn in Htop, Hr. lia.
  - destruct H11 as (l & [[? _]|Hl0]); [done|]. cbn [fmap list_fmap snd] in Hl0. destruct l as [|y l]; cbn [app] in Hl0; injection Hl0 as -> Hl0.
    + exists post. left. split; [|done]. by apply fmap_nil_inv in Hl0.
    + exists l. by right.
  - intros p [Hp| ->%list_elem_of_singleton]%elem_of_app; [by apply H12|done].
  - intros p Hp Hp0. destruct (H13 p) as (q & Hq & Hqs); [|done|exists q; split; [done|]; by apply Hvis].
    rewrite fmap_cons, elem_of_cons. cbn [snd]. rewrite elem_of_app, list_elem_of_singleton in Hp. tauto.
Qed.

Lemma sorted_snd (l : list (bool * BbId)) : StronglySorted (fun x y => rank x.2 < rank y.2)%nat l -> NoDup l.*2.
Proof.
  induction 1 as [|[b x] l _ IH Hx]; cbn [fmap list_fmap snd]; constructor; [|done].
  intros ([b' y] & -> & Hy)%list_elem_of_fmap. rewrite list.Forall_forall in Hx. specialize (Hx _ Hy). cbn in Hx. lia.
Qed.
Lemma open_bound nodes stack post :
  dfs_inv g rank nodes stack post -> (length post + open_count stack <= length g)%nat.
Proof.
  intros [H1 H2 H3 H4 H5 H6 H7 H8 H9 H10 _ H12 _]. unfold open_count. set (opened := filter (fun x : bool * BbId => x.1 = false) stack).
  assert (NoDup (post ++ opened.*2)) as Hnd.
  { apply list.NoDup_app. split; [done|]. split.
    - intros p Hp ([b y] & -> & [E Hy]%list_elem_of_filter)%list_elem_of_fmap. cbn in E, Hp. subst b. by apply (H6 y Hp).
    - apply (filter_sorted _ (fun x : bool * BbId => x.1 = false)) in H2. fold opened in H2. by apply sorted_snd. }
  assert (length (post ++ opened.*2) <= length (seq 0 (length g)))%nat as Hle.
  { apply submseteq_length, NoDup_submseteq; [done|]. intros p Hp. apply elem_of_seq. apply elem_of_app in Hp as [Hp|([b y] & -> & [_ Hy]%list_elem_of_filter)%list_elem_of_fmap].
    - specialize (H12 p Hp). lia.
    - rewrite list.Forall_forall in H3. specialize (H3 _ Hy). cbn in *. lia. }
  rewrite length_app, length_fmap, length_seq in Hle. done.
Qed.

Lemma dfs_run fuel nodes stack post :
  dfs_inv g rank nodes stack post ->
  (2 * length g <= fuel + (2 * length post + open_count stack))%nat ->
  exists nodes' post', dfs fuel g nodes stack post = Some (nodes', post') /\ dfs_inv g rank nodes' [] post'.
Proof.
  revert nodes stack post. induction fuel as [|fuel IH]; intros nodes stack post Hi Hf.
  - pose proof (open_bound _ _ _ Hi) as Hb. destruct stack as [|[[] id] stack]; [by exists nodes, post|..].
    + destruct (dfs_enter _ _ _ _ Hi) as (? & ? & nodes2 & stack2 & _ & _ & _ & Hi2 & Hl). pose proof (open_bound _ _ _ Hi2). rewrite open_true in Hf, Hb. lia.
    + destruct (dfs_leave _ _ _ _ Hi) as [_ Hi2]. pose proof (open_bound _ _ _ Hi2). rewrite length_app in H. rewrite open_false in Hf, Hb. cbn [length] in *. lia.
  - destruct stack as [|[[] id] stack]; [by exists nodes, post|..]; cbn [dfs].
    + destruct (dfs_enter _ _ _ _ Hi) as (nodes1 & bb & nodes2 & stack2 & E1 & E2 & E3 & Hi2 & Hl). rewrite E1. cbn [mbind option_bind]. rewrite E2. cbn [mbind option_bind].
      rewrite E3. cbn [mbind option_bind]. apply (IH _ _ _ Hi2). rewrite open_true in Hf. lia.
    + destruct (dfs_leave _ _ _ _ Hi) as [E1 Hi2]. rewrite E1. cbn [mbind option_bind]. apply (IH _ _ _ Hi2). rewrite length_app. rewrite open_false in Hf. cbn [length] in *. lia.
Qed.

(** The blocks in the order of their numbers, and what is known of them. *)
Record ordered_blocks (nodes : list Node) (order : list BbId) : Prop := {
  ob_length : length nodes = length g;
  ob_nodup : NoDup (0%nat :: order);
  ob_range : forall p, p ∈ order -> (p < length g)%nat;
  ob_preds : forall p x, nodes !! p = Some x -> forall q, q ∈ predecessors x <-> next_of g q p /\ q ∈ 0%nat :: order;
  ob_next : forall p s, p ∈ 0%nat :: order -> next_of g p s -> s ∈ order;
  ob_before : forall i p q, order !! i = Some p -> next_of g q p -> q ∈ 0%nat :: order -> q = 0%nat \/ exists j, (j < i)%nat /\ order !! j = Some q;
  ob_entered : forall p, p ∈ order -> exists q, next_of g q p /\ q ∈ 0%nat :: order;
}.

Lemma search_done nodes post : dfs_inv g rank nodes [] post -> exists order, reverse post = 0%nat :: order /\ ordered_blocks nodes order.
Proof.
  intros [H1 _ _ _ H5 _ H7 H8 _ H10 (l & H11) H12 H13]. destruct H11 as [[_ ->]|H11]; [|by destruct l]. exists (reverse l). rewrite reverse_snoc. split; [done|].
  assert (forall p, p ∈ 0%nat :: reverse l <-> p ∈ l ++ [0%nat]) as Hin by (intros p; rewrite <- reverse_snoc; apply elem_of_reverse).
  assert (NoDup (0%nat :: reverse l)) as Hnd by (rewrite <- reverse_snoc; by rewrite reverse_Permutation).
  assert (forall q p, next_of g q p -> q ∈ 0%nat :: reverse l -> p ∈ reverse l) as Hclosed.
  { intros q p Hqp Hq%Hin. apply list_elem_of_lookup in Hq as [i Hi]. destruct (H10 i q p Hi Hqp) as (j & Hj & Hjp). apply elem_of_reverse.
    pose proof (lookup_lt_Some _ _ _ Hi) as Hlt. rewrite length_app in Hlt. cbn [length] in Hlt. rewrite lookup_app_l in Hjp by lia. by eapply list_elem_of_lookup_2. }
  split; try done.
  - intros p Hp. apply H12, Hin. by right.
  - intros p x Hp q. destruct (H8 p x Hp) as [_ E]. rewrite E, Hin, elem_of_nil. tauto.
  - intros p s Hp Hs. by apply (Hclosed p s).
  - intros i p q Hi Hqp Hq. apply elem_of_cons in Hq as [->|Hq]; [by left|]. right.
    apply list_elem_of_lookup in Hq as [k Hk]. exists k. split; [|done]. apply reverse_lookup_Some in Hk as [Hk Hkl]. apply reverse_lookup_Some in Hi as [Hi Hil].
    destruct (H10 (length l - S k)%nat q p) as (j & Hj & Hjp); [by rewrite lookup_app_l by (by apply lookup_lt_Some in Hk)|done|].
    pose proof (NoDup_lookup _ _ _ _ H5 Hjp (lookup_app_l_Some _ _ _ _ Hi)). lia.
  - intros p Hp. destruct (H13 p) as (q & Hq & Hqs); [left; apply Hin; by right|intros ->; by apply list.NoDup_cons in Hnd as [? _]|].
    exists q. split; [done|]. apply Hin. destruct Hqs as [|?%elem_of_nil]; done.
Qed.
End search.

(** ** Dominators *)

(** Paths from the entry, the last block first. *)
Inductive path (g : list Bb) : BbId -> list BbId -> Prop :=
| path_entry : path g 0%nat [0%nat]
| path_step p l b : path g p l -> next_of g p b -> path g b (b :: l).

Definition doms (g : list Bb) (d v : BbId) : Prop := forall l, path g v l -> d ∈ l.

Lemma doms_step g d v : v <> 0%nat -> (doms g d v <-> d = v \/ forall q, next_of g q v -> doms g d q).
Proof.
  intros Hv. split.
  - intros H. destruct (decide (d = v)) as [->|Hne]; [by left|]. right. intros q Hq l Hl. specialize (H _ (path_step g q l v Hl Hq)). by apply elem_of_cons in H as [|].
  - intros H l Hl. destruct Hl as [|p l b Hl Hn]; [done|]. destruct H as [->|H]; [by left|]. right. by apply (H p).
Qed.
(** The nodes above a node in the tree. *)
Inductive anc (nodes : list Node) : BbId -> BbId -> Prop :=
| anc_here v : anc nodes v v
| anc_up v x w d : nodes !! v = Some x -> idom x = Some w -> anc nodes w d -> anc nodes v d.

Lemma anc_inv nodes v x d : nodes !! v = Some x -> (anc nodes v d <-> d = v \/ exists w, idom x = Some w /\ anc nodes w d).
Proof.
  intros Hv. split.
  - intros H. inversion H as [|u y w e Hu Hw Ha]; subst; [by left|]. right. exists w. split; [|done]. congruence.
  - intros [->|(w & Hw & Ha)]; [constructor|]. by apply (anc_up nodes v x w).
Qed.

Lemma anc_top nodes v x d : nodes !! v = Some x -> idom x = None -> anc nodes v d <-> d = v.
Proof. intros Hv Hi. rewrite (anc_inv nodes v x d Hv), Hi. split; [by intros [|(w & ? & _)]|by left]. Qed.

Section tree.
Context (g : list Bb) (order : list BbId) (first : BbId).
Context (Hfirst : exists bb, g !! 0%nat = Some bb /\ next_blocks bb = [first]).

Record tree_ok (nodes : list Node) (k : nat) : Prop := {
  to_ordered : ordered_blocks g nodes order;
  to_entry : exists x, nodes !! 0%nat = Some x /\ node_n x = 2%nat /\ idom x = None;
  to_done : forall i p, (i < k)%nat -> order !! i = Some p -> exists x w, nodes !! p = Some x /\ node_n x = (2 + i)%nat /\ idom x = Some w
    /\ ((i = 0%nat /\ w = 0%nat) \/ exists j, (j < i)%nat /\ order !! j = Some w);
  to_doms : forall i p d, (i < k)%nat -> order !! i = Some p -> anc nodes p d <-> doms g d p;
}.

Lemma order_inj nodes i j p : ordered_blocks g nodes order -> order !! i = Some p -> order !! j = Some p -> i = j.
Proof. intros [_ H _ _ _ _ _] Hi Hj. apply list.NoDup_cons in H as [_ H]. by apply (NoDup_lookup order i j p). Qed.
Lemma order_entry nodes i : ordered_blocks g nodes order -> order !! i <> Some 0%nat.
Proof. intros [_ H _ _ _ _ _] Hi. apply list.NoDup_cons in H as [H _]. apply H. by eapply list_elem_of_lookup_2. Qed.
Lemma order_first nodes p : ordered_blocks g nodes order -> order !! 0%nat = Some p -> p = first.
Proof.
  intros Ho Hp. destruct (ob_entered _ _ _ Ho p) as (q & Hq & Hqo); [by eapply list_elem_of_lookup_2|].
  destruct (ob_before _ _ _ Ho 0%nat p q Hp Hq Hqo) as [->|(j & Hj & _)]; [|lia]. destruct Hfirst as (bb & Hbb & Hn), Hq as (bb' & Hbb' & Hin).
  assert (bb' = bb) as -> by congruence. rewrite Hn in Hin. by apply list_elem_of_singleton in Hin.
Qed.
Lemma later_pred nodes i p q : ordered_blocks g nodes order -> order !! S i = Some p -> next_of g q p -> q <> 0%nat.
Proof.
  intros Ho Hp (bb' & Hbb' & Hin) ->. destruct Hfirst as (bb & Hbb & Hn). assert (bb' = bb) as -> by congruence. rewrite Hn in Hin. apply list_elem_of_singleton in Hin as ->.
  destruct (lookup_lt_is_Some_2 order 0) as [f Hf]; [by apply lookup_lt_Some in Hp; lia|]. pose proof (order_first nodes f Ho Hf) as ->.
  by pose proof (order_inj nodes _ _ _ Ho Hp Hf).
Qed.

(** Ancestors come earlier. *)
Lemma anc_earlier nodes k i p d : tree_ok nodes k -> (i < k)%nat -> order !! i = Some p -> anc nodes p d -> d = 0%nat \/ exists j, (j <= i)%nat /\ order !! j = Some d.
Proof.
  intros Ht. revert p d. induction (lt_wf i) as [i _ IH]. intros p d Hi Hp Ha. destruct (to_done _ _ Ht i p Hi Hp) as (x & w & Hx & _ & Hw & Hwo).
  destruct (proj1 (anc_inv nodes p x d Hx) Ha) as [Hd|(w' & Hw' & Hwa)]; [right; exists i; by subst d|]. assert (w' = w) as -> by congruence.
  destruct Hwo as [[Hi0 Hw0]|[j [Hj Hjw]]].
  - rewrite Hw0 in Hwa. destruct (to_entry _ _ Ht) as (y & Hy & _ & Hyi). destruct (proj1 (anc_inv nodes 0 y d Hy) Hwa) as [Hd|(w'' & Hw'' & _)]; [by left|congruence].
  - destruct (IH j Hj w d ltac:(lia) Hjw Hwa) as [|(j' & Hj' & Hd)]; [by left|]. right. exists j'. split; [lia|done].
Qed.
Lemma anc_entry nodes k d : tree_ok nodes k -> anc nodes 0 d <-> d = 0%nat.
Proof. intros Ht. destruct (to_entry _ _ Ht) as (y & Hy & _ & Hyi). by apply (anc_top nodes 0 y d). Qed.

(** The lowest common ancestor of two numbered blocks. *)
Lemma lca_spec nodes k fuel i j a b :
  tree_ok nodes k -> (i < k)%nat -> (j < k)%nat -> order !! i = Some a -> order !! j = Some b -> (i + j < fuel)%nat ->
  exists m c, lca fuel nodes a b = Some c /\ (m <= i)%nat /\ order !! m = Some c /\ forall d, anc nodes c d <-> anc nodes a d /\ anc nodes b d.
Proof.
  intros Ht. revert i j a b. induction fuel as [|fuel IH]; intros i j a b Hi Hj Ha Hb Hf; [lia|]. cbn [lca].
  destruct (to_done _ _ Ht i a Hi Ha) as (x & w & Hx & Hnx & Hw & Hwo). destruct (to_done _ _ Ht j b Hj Hb) as (y & u & Hy & Hny & Hu & Huo).
  rewrite Hx. cbn [mbind option_bind]. rewrite Hy. cbn [mbind option_bind]. rewrite Hnx, Hny. pose proof (to_ordered _ _ Ht) as Ho.
  destruct (Nat.compare_spec (2 + i) (2 + j)) as [E|E|E].
  - assert (i = j) as -> by lia. assert (a = b) as -> by congruence. exists j, b. split; [done|]. split; [done|]. split; [done|]. tauto.
  - rewrite Hu. cbn [mbind option_bind]. destruct Huo as [[-> _]|(j' & Hj' & Hju)]; [lia|].
    destruct (IH i j' a u Hi ltac:(lia) Ha Hju ltac:(lia)) as (m & c & Hc & Hm & Hmc & Hanc). exists m, c. split; [done|]. split; [done|]. split; [done|].
    intros d. rewrite Hanc, (anc_inv nodes b y d Hy). split; [intros [? ?]; split; [done|]; right; by exists u|]. intros [Had [->|(u' & Hu' & Hud)]].
    + exfalso. destruct (anc_earlier nodes k i a b Ht Hi Ha Had) as [->|(m' & Hm' & Hmb)]; [by apply (order_entry nodes j Ho)|].
      pose proof (order_inj nodes _ _ _ Ho Hb Hmb). lia.
    + split; [done|]. by assert (u' = u) as -> by congruence.
  - rewrite Hw. cbn [mbind option_bind]. destruct Hwo as [[-> _]|(i' & Hi' & Hiw)]; [lia|].
    destruct (IH i' j w b ltac:(lia) Hj Hiw Hb ltac:(lia)) as (m & c & Hc & Hm & Hmc & Hanc). exists m, c. split; [done|]. split; [lia|]. split; [done|].
    intros d. rewrite Hanc, (anc_inv nodes a x d Hx). split; [intros [? ?]; split; [|done]; right; by exists w|]. intros [[->|(w' & Hw' & Hwd)] Hbd].
    + exfalso. destruct (anc_earlier nodes k j b a Ht Hj Hb Hbd) as [->|(m' & Hm' & Hma)]; [by apply (order_entry nodes i Ho)|].
      pose proof (order_inj nodes _ _ _ Ho Ha Hma). lia.
    + split; [|done]. by assert (w' = w) as -> by congruence.
Qed.
Lemma lca_entry nodes k fuel j b : tree_ok nodes k -> (j < k)%nat -> order !! j = Some b -> (j < fuel)%nat -> lca fuel nodes 0 b = Some 0%nat.
Proof.
  intros Ht. revert j b. induction fuel as [|fuel IH]; intros j b Hj Hb Hf; [lia|]. cbn [lca]. destruct (to_entry _ _ Ht) as (x & Hx & Hnx & _).
  destruct (to_done _ _ Ht j b Hj Hb) as (y & u & Hy & Hny & Hu & Huo). rewrite Hx. cbn [mbind option_bind]. rewrite Hy. cbn [mbind option_bind]. rewrite Hnx, Hny.
  destruct (Nat.compare_spec 2 (2 + j)) as [E|E|E]; [done| |lia]. rewrite Hu. cbn [mbind option_bind]. destruct Huo as [[-> _]|(j' & Hj' & Hju)]; [lia|]. apply (IH j'); [lia|done|lia].
Qed.
Lemma lca_entries nodes k fuel : tree_ok nodes k -> (0 < fuel)%nat -> lca fuel nodes 0 0 = Some 0%nat.
Proof.
  intros Ht Hf. destruct fuel as [|fuel]; [lia|]. cbn [lca]. destruct (to_entry _ _ Ht) as (x & Hx & _). rewrite Hx. cbn [mbind option_bind]. by rewrite Nat.compare_refl.
Qed.

Definition numbered (k : nat) (p : BbId) : Prop := exists i, (i < k)%nat /\ order !! i = Some p.

Lemma fuel_enough nodes k i j p q : tree_ok nodes k -> order !! i = Some p -> order !! j = Some q -> (i + j < lca_fuel nodes)%nat.
Proof.
  intros Ht Hi Hj. destruct (to_ordered _ _ Ht) as [Hl Hnd Hr _ _ _ _]. apply list.NoDup_cons in Hnd as [_ Hnd].
  assert (length order <= length (seq 0 (length g)))%nat as Hle by (apply submseteq_length, NoDup_submseteq; [done|]; intros x Hx; apply elem_of_seq; specialize (Hr x Hx); lia).
  rewrite length_seq in Hle. pose proof (lookup_lt_Some _ _ _ Hi). pose proof (lookup_lt_Some _ _ _ Hj). unfold lca_fuel. lia.
Qed.

Lemma lca_from_spec nodes k acc l :
  tree_ok nodes k -> numbered k acc -> Forall (numbered k) l ->
  exists c, lca_from nodes acc l = Some c /\ numbered k c /\ forall d, anc nodes c d <-> anc nodes acc d /\ Forall (fun b => anc nodes b d) l.
Proof.
  intros Ht Hacc Hl. revert acc Hacc. induction Hl as [|b l (j & Hj & Hb) _ IH]; intros acc (i & Hi & Ha).
  - exists acc. split; [done|]. split; [by exists i|]. intros d. split; [intros ?; by split|by intros [? _]].
  - cbn [lca_from]. destruct (lca_spec nodes k (lca_fuel nodes) i j acc b Ht Hi Hj Ha Hb (fuel_enough nodes k i j acc b Ht Ha Hb)) as (m & c & Hc & Hm & Hmc & Hanc).
    rewrite Hc. cbn [mbind option_bind]. destruct (IH c) as (c' & Hc' & Hn & Hanc'); [exists m; split; [lia|done]|]. exists c'. split; [done|]. split; [done|].
    intros d. rewrite Hanc', Hanc, list.Forall_cons. tauto.
Qed.
Lemma lca_from_entry nodes k l : tree_ok nodes k -> Forall (fun b => b = 0%nat \/ numbered k b) l -> lca_from nodes 0 l = Some 0%nat.
Proof.
  intros Ht. induction 1 as [|b l Hb _ IH]; [done|]. cbn [lca_from]. assert (lca (lca_fuel nodes) nodes 0 b = Some 0%nat) as ->; [|done].
  destruct Hb as [->|(j & Hj & Hb)]; [apply (lca_entries nodes k); [done|unfold lca_fuel; lia]|]. apply (lca_entry nodes k _ j); [done..|].
  pose proof (fuel_enough nodes k j j b b Ht Hb Hb). lia.
Qed.

Lemma unreached_doms nodes d q : ordered_blocks g nodes order -> q ∉ 0%nat :: order -> doms g d q.
Proof.
  intros Ho Hq l Hl. exfalso. apply Hq. clear Hq. induction Hl as [|p l b _ IH Hn]; [by left|]. right. by apply (ob_next _ _ _ Ho p b).
Qed.

(** The immediate dominator of the next block. *)
Lemma compute_idom_spec nodes k m p :
  tree_ok nodes k -> (m <= k)%nat -> order !! m = Some p ->
  exists w, compute_idom nodes p = Some w /\ ((m = 0%nat /\ w = 0%nat) \/ exists j, (j < m)%nat /\ order !! j = Some w)
    /\ forall d, doms g d p <-> d = p \/ anc nodes w d.
Proof.
  intros Ht Hm Hp. pose proof (to_ordered _ _ Ht) as Ho. assert (p <> 0%nat) as Hp0 by (intros ->; by apply (order_entry nodes m Ho)).
  destruct (lookup_lt_is_Some_2 nodes p) as [x Hx]; [rewrite (ob_length _ _ _ Ho); apply (ob_range _ _ _ Ho); by eapply list_elem_of_lookup_2|].
  unfold compute_idom. rewrite Hx. cbn [mbind option_bind]. pose proof (ob_preds _ _ _ Ho p x Hx) as Hpreds.
  destruct (ob_entered _ _ _ Ho p) as (q0 & Hq0 & Hq0o); [by eapply list_elem_of_lookup_2|]. assert (q0 ∈ predecessors x) as Hq0x by (by apply Hpreds).
  destruct (predecessors x) as [|a l] eqn:El; [by apply elem_of_nil in Hq0x|]. cbn [lca_list].
  assert (forall d, (forall q, next_of g q p -> doms g d q) <-> Forall (fun q => doms g d q) (a :: l)) as Hall.
  { intros d. rewrite list.Forall_forall. split; [intros H q [Hq _]%Hpreds; by apply H|]. intros H q Hq. destruct (decide (q ∈ 0%nat :: order)) as [Hqo|Hqo].
    - apply H. by apply Hpreds. - by apply (unreached_doms nodes d q Ho). }
  destruct m as [|m].
  - assert (Forall (fun q => q = 0%nat) (a :: l)) as Hz.
    { apply list.Forall_forall. intros q [Hq Hqo]%Hpreds. destruct (ob_before _ _ _ Ho 0%nat p q Hp Hq Hqo) as [|(j & Hj & _)]; [done|lia]. }
    pose proof Hz as [-> Hl]%list.Forall_cons. exists 0%nat. split; [|split; [by left|]].
    + apply (lca_from_entry nodes k l Ht). eapply list.Forall_impl; [exact Hl|]. intros q ->. by left.
    + intros d. rewrite (doms_step g d p Hp0), Hall, (anc_entry nodes k d Ht). assert (Forall (fun q => doms g d q) (0%nat :: l) <-> d = 0%nat) as ->; [|done].
      rewrite list.Forall_forall. split.
      * intros H. assert (0%nat ∈ 0%nat :: l) as H0 by by left. specialize (H _ H0 _ (path_entry g)). by apply list_elem_of_singleton in H.
      * intros -> q Hq pl Hpl. clear - Hpl. induction Hpl; [by left|by right].
  - assert (Forall (numbered (S m)) (a :: l)) as Hn.
    { apply list.Forall_forall. intros q [Hq Hqo]%Hpreds. destruct (ob_before _ _ _ Ho (S m) p q Hp Hq Hqo) as [->|(j & Hj & Hjq)]; [|by exists j].
      by pose proof (later_pred nodes m p 0%nat Ho Hp Hq). }
    assert (tree_ok nodes (S m)) as Ht'.
    { destruct Ht as [T1 T2 T3 T4]. split; [done|done| |]; [intros i r Hi|intros i r d Hi]; [apply T3|apply T4]; lia. }
    pose proof Hn as [Ha Hl]%list.Forall_cons. destruct (lca_from_spec nodes (S m) a l Ht' Ha Hl) as (c & Hc & (j & Hj & Hjc) & Hanc). exists c.
    split; [done|]. split; [right; by exists j|]. intros d. rewrite (doms_step g d p Hp0), Hall, Hanc, <- (list.Forall_cons (fun q => anc nodes q d)).
    assert (Forall (fun q => doms g d q) (a :: l) <-> Forall (fun q => anc nodes q d) (a :: l)) as ->; [|done].
    rewrite !list.Forall_forall. rewrite list.Forall_forall in Hn. split; intros H q Hq; specialize (H q Hq); destruct (Hn q Hq) as (i & Hi & Hiq);
      by apply (to_doms _ _ Ht' i q d Hi Hiq).
Qed.

(** Changing a later block keeps what is above the earlier ones. *)
Lemma anc_update nodes nodes' k m i q d :
  tree_ok nodes k -> (m <= k)%nat -> (forall r, (r = 0%nat \/ numbered m r) -> nodes' !! r = nodes !! r) -> (i < m)%nat -> order !! i = Some q ->
  anc nodes' q d <-> anc nodes q d.
Proof.
  intros Ht Hm Hsame. revert q d. induction (lt_wf i) as [i _ IH]. intros q d Hi Hq. destruct (to_done _ _ Ht i q ltac:(lia) Hq) as (x & w & Hx & _ & Hw & Hwo).
  rewrite (anc_inv nodes q x d Hx), (anc_inv nodes' q x d) by (rewrite Hsame; [done|right; by exists i]).
  assert (anc nodes' w d <-> anc nodes w d) as E.
  { destruct Hwo as [[_ ->]|(j & Hj & Hjw)]; [|apply (IH j Hj); [lia|done]]. destruct (to_entry _ _ Ht) as (y & Hy & _ & Hyi).
    rewrite (anc_top nodes 0 y d Hy Hyi), (anc_top nodes' 0 y d); [done|rewrite Hsame; [done|by left]|done]. }
  split; (intros [|(w' & Hw' & Ha)]; [by left|right; exists w'; split; [done|]]); assert (w' = w) as -> by congruence; by apply E.
Qed.

Lemma number_step nodes k p :
  tree_ok nodes k -> order !! k = Some p ->
  exists w nodes1 nodes2, compute_idom nodes p = Some w /\ with_idom nodes p w = Some nodes1 /\ with_n nodes1 p (2 + k) = Some nodes2 /\ tree_ok nodes2 (S k).
Proof.
  intros Ht Hp. pose proof (to_ordered _ _ Ht) as Ho. destruct (compute_idom_spec nodes k k p Ht (le_n k) Hp) as (w & Hw & Hwo & Hdoms).
  assert (p <> 0%nat) as Hp0 by (intros ->; by apply (order_entry nodes k Ho)).
  destruct (lookup_lt_is_Some_2 nodes p) as [x Hx]; [rewrite (ob_length _ _ _ Ho); apply (ob_range _ _ _ Ho); by eapply list_elem_of_lookup_2|].
  pose proof (lookup_lt_Some _ _ _ Hx) as Hpl. exists w. unfold with_idom, with_n. rewrite Hx. cbn [mbind option_bind]. do 2 eexists. split; [done|]. split; [done|].
  rewrite list_lookup_insert_eq by done. cbn [mbind option_bind node_n idom predecessors]. split; [done|]. rewrite list_insert_insert_eq. set (nodes' := <[p:=_]> nodes).
  assert (nodes' !! p = Some {| node_n := 2 + k; idom := Some w; predecessors := predecessors x |}) as Hp' by by apply list_lookup_insert_eq.
  assert (forall r, r <> p -> nodes' !! r = nodes !! r) as Hother by (intros r Hr; by apply list_lookup_insert_ne).
  assert (forall i r, (i < k)%nat -> order !! i = Some r -> r <> p) as Hne by (intros i r Hi Hr ->; pose proof (order_inj nodes _ _ _ Ho Hp Hr); lia).
  assert (forall r, r = 0%nat \/ numbered k r -> nodes' !! r = nodes !! r) as Hsame.
  { intros r Hr. apply Hother. destruct Hr as [->|(i & Hi & Hr)]; [done|by apply (Hne i)]. }
  assert (forall d, anc nodes' w d <-> anc nodes w d) as Hancw.
  { intros d. destruct Hwo as [[_ ->]|(j & Hj & Hjw)]; [|by apply (anc_update nodes nodes' k k j w d Ht)]. destruct (to_entry _ _ Ht) as (y & Hy & _ & Hyi).
    rewrite (anc_top nodes 0 y d Hy Hyi), (anc_top nodes' 0 y d); [done|rewrite Hsame; [done|by left]|done]. }
  split.
  - destruct Ho as [O1 O2 O3 O4 O5 O6 O7]. split; try done; [unfold nodes'; by rewrite length_insert|]. intros r y Hr. destruct (decide (r = p)) as [->|Hrp].
    + rewrite Hp' in Hr. injection Hr as <-. by apply (O4 p x).
    + rewrite Hother in Hr by done. by apply (O4 r y).
  - destruct (to_entry _ _ Ht) as (y & Hy & Hyn & Hyi). exists y. split; [|done]. rewrite Hsame; [done|by left].
  - intros i r Hi Hr. destruct (decide (i = k)) as [->|Hik].
    + assert (r = p) as -> by congruence. eexists _, w. split; [exact Hp'|]. split; [done|]. split; [done|exact Hwo].
    + rewrite Hother by (apply (Hne i); [lia|done]). apply (to_done _ _ Ht i r); [lia|done].
  - intros i r d Hi Hr. destruct (decide (i = k)) as [->|Hik].
    + assert (r = p) as -> by congruence. rewrite Hdoms, (anc_inv nodes' p _ d Hp'). cbn [idom]. split.
      * intros [|(w' & [= <-] & Ha)]; [by left|right; by apply Hancw].
      * intros [|Ha]; [by left|]. right. exists w. split; [done|]. by apply Hancw.
    + rewrite (anc_update nodes nodes' k k i r d Ht) by (done || lia). apply (to_doms _ _ Ht i r d); [lia|done].
Qed.

Lemma number_nodes_spec nodes k rest :
  tree_ok nodes k -> rest = drop k order -> exists nodes', number_nodes nodes k rest = Some nodes' /\ tree_ok nodes' (k + length rest).
Proof.
  revert nodes k. induction rest as [|p rest IH]; intros nodes k Ht Hrest; [exists nodes; by rewrite Nat.add_0_r|]. cbn [number_nodes].
  assert (order !! k = Some p) as Hp by (rewrite <- (Nat.add_0_r k), <- lookup_drop, <- Hrest; done).
  destruct (number_step nodes k p Ht Hp) as (w & nodes1 & nodes2 & -> & E1 & E2 & Ht2). cbn [mbind option_bind]. rewrite E1. cbn [mbind option_bind]. rewrite E2. cbn [mbind option_bind].
  cbn [length]. replace (k + S (length rest))%nat with (S k + length rest)%nat by lia. apply IH; [done|].
  replace (S k) with (k + 1)%nat by lia. by rewrite <- drop_drop, <- Hrest.
Qed.

Lemma idom_unique nodes k m p w w' :
  tree_ok nodes k -> (m <= k)%nat -> order !! m = Some p ->
  ((m = 0%nat /\ w = 0%nat) \/ exists j, (j < m)%nat /\ order !! j = Some w) -> (forall d, doms g d p <-> d = p \/ anc nodes w d) ->
  ((m = 0%nat /\ w' = 0%nat) \/ exists j, (j < m)%nat /\ order !! j = Some w') -> (forall d, doms g d p <-> d = p \/ anc nodes w' d) -> w' = w.
Proof.
  intros Ht Hm Hp [[-> ->]|(j & Hj & Hjw)] Hw [[Hm0 ->]|(j' & Hj' & Hjw')] Hw'; [done|lia|lia|]. pose proof (to_ordered _ _ Ht) as Ho.
  assert (forall u v i i', (i < m)%nat -> (i' < m)%nat -> order !! i = Some u -> order !! i' = Some v -> (forall d, doms g d p <-> d = p \/ anc nodes u d) ->
    (forall d, doms g d p <-> d = p \/ anc nodes v d) -> (i <= i')%nat) as Hle.
  { intros u v i i' Hi Hi' Hu Hv Hdu Hdv. assert (anc nodes v u) as Ha.
    { assert (doms g u p) as [->|]%Hdv; [apply Hdu; right; constructor| |done]. pose proof (order_inj nodes _ _ _ Ho Hp Hu). lia. }
    destruct (anc_earlier nodes k i' v u Ht ltac:(lia) Hv Ha) as [->|(i2 & Hi2 & Hu2)]; [by destruct (order_entry nodes i Ho)|].
    pose proof (order_inj nodes _ _ _ Ho Hu Hu2). lia. }
  assert (j = j') as -> by (apply Nat.le_antisymm; [by apply (Hle w w')|by apply (Hle w' w)]). congruence.
Qed.

Lemma update_idoms_same nodes k b rest : tree_ok nodes k -> k = length order -> Forall (fun p => p ∈ order) rest -> update_idoms nodes b rest = Some (b, nodes).
Proof.
  intros Ht ->. induction 1 as [|p rest Hp _ IH]; [done|]. cbn [update_idoms]. apply list_elem_of_lookup in Hp as [m Hm]. pose proof (lookup_lt_Some _ _ _ Hm) as Hlt.
  destruct (compute_idom_spec nodes (length order) m p Ht ltac:(lia) Hm) as (w & Hw & Hwo & Hdoms). rewrite Hw. cbn [mbind option_bind].
  destruct (to_done _ _ Ht m p Hlt Hm) as (x & w' & Hx & _ & Hw' & Hwo'). rewrite Hx. cbn [mbind option_bind]. rewrite decide_True; [done|]. rewrite Hw'. f_equal.
  apply (idom_unique nodes (length order) m p); try done; [lia|]. intros d. rewrite <- (to_doms _ _ Ht m p d Hlt Hm), (anc_inv nodes p x d Hx), Hw'.
  split; [intros [|(u & [= <-] & Ha)]; [by left|by right]|]. intros [|Ha]; [by left|]. right. by exists w'.
Qed.
End tree.

(** A tree for the blocks that are reached. *)
Lemma dominator_new_spec g rank first fuel :
  searchable g rank -> (exists bb, g !! 0%nat = Some bb /\ next_blocks bb = [first]) -> (2 * length g < fuel)%nat ->
  exists t order, dominator_new fuel g = Some t /\ tree_ok g order (dt_nodes t) (length order).
Proof.
  intros Hg Hfirst Hf. unfold dominator_new. destruct (dfs_run g rank Hg fuel _ _ _ (dfs_start g rank Hg)) as (nodes & post & -> & Hi); [cbn; lia|]. cbn [mbind option_bind].
  unfold initialize. cbn [dt_postorder dt_nodes]. destruct (search_done g rank nodes post Hi) as (order & -> & Ho). cbn [tail].
  assert (is_Some (nodes !! 0%nat)) as [x Hx] by (apply lookup_lt_is_Some_2; rewrite (ob_length _ _ _ Ho); apply (se_root _ _ Hg)).
  assert (idom x = None) as Hxi by apply (di_visited _ _ _ _ _ Hi 0%nat x Hx).
  unfold with_n. rewrite Hx. cbn [mbind option_bind]. set (nodes0 := <[0%nat := _]> nodes).
  assert (tree_ok g order nodes0 0) as Ht0.
  { assert (nodes0 !! 0%nat = Some {| node_n := 2; idom := idom x; predecessors := predecessors x |}) as H0 by (apply list_lookup_insert_eq; by apply lookup_lt_Some in Hx).
    split; [|eexists; split; [exact H0|by rewrite Hxi]|intros; lia|intros; lia]. destruct Ho as [O1 O2 O3 O4 O5 O6 O7]. split; try done; [unfold nodes0; by rewrite length_insert|].
    intros r y Hr. destruct (decide (r = 0%nat)) as [->|Hr0]; [rewrite H0 in Hr; injection Hr as <-; by apply (O4 0%nat x)|].
    unfold nodes0 in Hr. rewrite list_lookup_insert_ne in Hr by done. by apply (O4 r y). }
  destruct (number_nodes_spec g order first Hfirst nodes0 0 order Ht0 eq_refl) as (nodes1 & -> & Ht1). cbn [mbind option_bind].
  assert (settle fuel nodes1 order = Some nodes1) as ->.
  { destruct fuel as [|fuel]; [lia|]. cbn [settle]. rewrite (update_idoms_same g order first Hfirst nodes1 (length order) true order Ht1 eq_refl); [done|].
    by apply list.Forall_forall. }
  cbn [mbind option_bind]. eexists _, order. split; [done|]. exact Ht1.
Qed.

Definition reachable (g : list Bb) (v : BbId) : Prop := exists l, path g v l.

Lemma reachable_ordered g order nodes v : ordered_blocks g nodes order -> reachable g v <-> v ∈ 0%nat :: order.
Proof.
  intros Ho. split.
  - intros [l Hl]. induction Hl as [|p l b _ IH Hn]; [by left|]. right. by apply (ob_next _ _ _ Ho p b).
  - intros [->|Hv]%elem_of_cons; [exists [0%nat]; constructor|]. apply list_elem_of_lookup in Hv as [i Hi]. revert v Hi. induction (lt_wf i) as [i _ IH]. intros v Hi.
    destruct (ob_entered _ _ _ Ho v) as (q & Hq & Hqo); [by eapply list_elem_of_lookup_2|]. assert (reachable g q) as [l Hl]; [|exists (v :: l); by apply (path_step g q)].
    destruct (ob_before _ _ _ Ho i v q Hi Hq Hqo) as [->|(j & Hj & Hjq)]; [exists [0%nat]; constructor|by apply (IH j)].
Qed.

Section answers.
Context (g : list Bb) (order : list BbId) (first : BbId) (Hfirst : exists bb, g !! 0%nat = Some bb /\ next_blocks bb = [first]).
Context (nodes : list Node) (Ht : tree_ok g order nodes (length order)).
Let Ho := to_ordered _ _ _ _ Ht.

Lemma reached_numbered v : reachable g v -> v <> 0%nat -> numbered order (length order) v.
Proof. intros [->|[i Hi]%list_elem_of_lookup]%(reachable_ordered g order nodes v Ho)%elem_of_cons Hv; [done|]. exists i. split; [by apply lookup_lt_Some in Hi|done]. Qed.

Lemma lca_list_spec l :
  l <> [] -> Forall (fun v => reachable g v /\ v <> 0%nat) l ->
  exists c, lca_list nodes l = Some c /\ forall d, doms g d c <-> Forall (doms g d) l.
Proof.
  intros Hl Hall. destruct l as [|a l]; [done|]. cbn [lca_list]. assert (Forall (numbered order (length order)) (a :: l)) as Hn.
  { eapply list.Forall_impl; [exact Hall|]. intros v [Hv Hv0]. by apply reached_numbered. }
  pose proof Hn as [Ha Hnl]%list.Forall_cons. destruct (lca_from_spec g order nodes (length order) a l Ht Ha Hnl) as (c & Hc & (i & Hi & Hic) & Hanc).
  exists c. split; [done|]. intros d. rewrite <- (to_doms _ _ _ _ Ht i c d Hi Hic), Hanc, <- (list.Forall_cons (fun b => anc nodes b d)), !list.Forall_forall.
  rewrite list.Forall_forall in Hn. split; intros H v Hv; specialize (H v Hv); destruct (Hn v Hv) as (j & Hj & Hjv); by apply (to_doms _ _ _ _ Ht j v d Hj Hjv).
Qed.
Lemma lca_list_entry l : Forall (reachable g) l -> lca_list nodes (0%nat :: l) = Some 0%nat.
Proof.
  intros Hl. apply (lca_from_entry g order nodes (length order) l Ht). eapply list.Forall_impl; [exact Hl|]. intros v Hv.
  destruct (decide (v = 0%nat)) as [->|Hv0]; [by left|right; by apply reached_numbered].
Qed.

(** The climb of [dominates]. *)
Lemma dominates_from_spec fuel i j v d :
  order !! i = Some v -> order !! j = Some d -> (i < fuel)%nat ->
  exists b, dominates_from fuel nodes d (2 + j) v = Some b /\ (b = true <-> anc nodes v d).
Proof.
  revert i v. induction fuel as [|fuel IH]; intros i v Hv Hd Hf; [lia|]. cbn [dominates_from].
  destruct (to_done _ _ _ _ Ht i v ltac:(by apply lookup_lt_Some in Hv) Hv) as (x & w & Hx & Hn & Hw & Hwo). rewrite Hx. cbn [mbind option_bind]. rewrite Hn.
  destruct (Nat.compare_spec (2 + j) (2 + i)) as [E|E|E].
  - assert (j = i) as -> by lia. assert (d = v) as -> by congruence. exists true. rewrite bool_decide_eq_true_2 by done. split; [done|]. split; [intros _; constructor|done].
  - rewrite Hw. destruct Hwo as [[-> _]|(k & Hk & Hkw)]; [lia|]. destruct (IH k w Hkw Hd ltac:(lia)) as (b & Hb & Hanc). exists b. split; [done|].
    rewrite Hanc, (anc_inv nodes v x d Hx). split; [intros Ha; right; by exists w|]. intros [->|(w' & Hw' & Ha)].
    + pose proof (order_inj g order nodes _ _ _ Ho Hv Hd). lia.
    + by assert (w' = w) as -> by congruence.
  - exists false. split; [done|]. split; [done|]. intros Ha.
    destruct (anc_earlier g order nodes (length order) i v d Ht ltac:(by apply lookup_lt_Some in Hv) Hv Ha) as [->|(k & Hk & Hkd)].
    + by destruct (order_entry g order nodes j Ho).
    + pose proof (order_inj g order nodes _ _ _ Ho Hd Hkd). lia.
Qed.
Lemma dominates_from_entry fuel i v : order !! i = Some v -> (i < fuel)%nat -> dominates_from fuel nodes 0 2 v = Some false.
Proof.
  revert i v. induction fuel as [|fuel IH]; intros i v Hv Hf; [lia|]. cbn [dominates_from].
  destruct (to_done _ _ _ _ Ht i v ltac:(by apply lookup_lt_Some in Hv) Hv) as (x & w & Hx & Hn & Hw & Hwo). rewrite Hx. cbn [mbind option_bind]. rewrite Hn.
  destruct (Nat.compare_spec 2 (2 + i)) as [E|E|E]; [| |lia].
  - rewrite bool_decide_eq_false_2; [done|]. intros <-. by apply (order_entry g order nodes i Ho).
  - rewrite Hw. destruct Hwo as [[-> _]|(k & Hk & Hkw)]; [lia|]. apply (IH k); [done|lia].
Qed.

Lemma dominates_spec t d v :
  dt_nodes t = nodes -> reachable g d -> d <> 0%nat -> reachable g v -> v <> 0%nat -> exists b, dominates t d v = Some b /\ (b = true <-> doms g d v).
Proof.
  intros Hnodes Hd Hd0 Hv Hv0. destruct (reached_numbered d Hd Hd0) as (j & Hj & Hjd). destruct (reached_numbered v Hv Hv0) as (i & Hi & Hiv).
  unfold dominates. rewrite Hnodes. destruct (to_done _ _ _ _ Ht j d Hj Hjd) as (x & w & Hx & Hn & _). rewrite Hx. cbn [mbind option_bind]. rewrite Hn.
  pose proof (fuel_enough g order nodes (length order) i i v v Ht Hiv Hiv) as Hf.
  destruct (dominates_from_spec (lca_fuel nodes) i j v d Hiv Hjd ltac:(lia)) as (b & Hb & Hanc). exists b. split; [done|]. rewrite Hanc.
  apply (to_doms _ _ _ _ Ht i v d Hi Hiv).
Qed.
Lemma entry_dominates t v : dt_nodes t = nodes -> reachable g v -> v <> 0%nat -> dominates t 0 v = Some false.
Proof.
  intros Hnodes Hv Hv0. destruct (reached_numbered v Hv Hv0) as (i & Hi & Hiv). unfold dominates. rewrite Hnodes.
  destruct (to_entry _ _ _ _ Ht) as (x & Hx & Hn & _). rewrite Hx. cbn [mbind option_bind]. rewrite Hn. apply (dominates_from_entry _ i); [done|].
  pose proof (fuel_enough g order nodes (length order) i i v v Ht Hiv Hiv). lia.
Qed.
End answers.

(** ** The theorems *)


(** A branch whose sides meet again. *)
Definition meeting : list Bb :=
  [BJump 1; BBr 0 2 3; BJump 4; BSeq SLog 4; BCommitAndExit None [] None None true].
Definition searchableb (g : list Bb) (rank : BbId -> nat) : bool :=
  (0 <? length g)%nat
  && forallb (fun x : nat * Bb => forallb (fun b => (b <? length g)%nat && (rank b <? rank x.1)%nat) (next_blocks x.2)
       && match next_blocks x.2 with [] | [_] => true | [a; b] => (rank b <? rank a)%nat | _ => false end) (imap pair g).
Lemma searchableb_true g rank : searchableb g rank = true -> searchable g rank.
Proof.
  intros [Hl%Nat.ltb_lt H]%andb_prop. rewrite forallb_forall in H.
  assert (forall p bb, g !! p = Some bb -> List.In (p, bb) (imap pair g)) as Hin.
  { intros p bb Hp. apply list_elem_of_In, list_elem_of_lookup. exists p. by rewrite list_lookup_imap, Hp. }
  split; [| |done].
  - intros p b (bb & Hp & Hb). destruct (andb_prop _ _ (H _ (Hin p bb Hp))) as [Hn _]. rewrite forallb_forall in Hn. cbn [fst snd] in Hn.
    destruct (andb_prop _ _ (Hn b ltac:(by apply list_elem_of_In))) as [H1%Nat.ltb_lt H2%Nat.ltb_lt]. done.
  - intros p bb Hp. destruct (andb_prop _ _ (H _ (Hin p bb Hp))) as [_ Hs]. cbn [snd] in Hs. destruct (next_blocks bb) as [|a [|b [|]]]; try done; [constructor|repeat constructor|].
    apply Nat.ltb_lt in Hs. by repeat constructor.
Qed.
Definition meeting_rank (b : BbId) : nat := (4 - b)%nat.


(** The entry and the block after it have the same number, so the entry is said
    to dominate nothing else. *)
Lemma entry_dominates_nothing :
  (t ← dominator_new 11 meeting; dominates t 0 4) = Some false.
Proof. vm_compute. reflexivity. Qed.
(** And where the entry branches, the common ancestor of its sides is one of
    them. *)
Definition forked : list Bb := [BBr 0 1 2; BJump 3; BJump 3; BCommitAndExit None [] None None true].
Lemma lca_of_fork : (t ← dominator_new 11 forked; lca_many t [1; 2]%nat) = Some 1%nat /\ (t ← dominator_new 11 forked; lca_many t [2; 1]%nat) = Some 0%nat.
Proof. split; vm_compute; reflexivity. Qed.
(** A block that the second successor reaches first makes the construction
    panic. *)
Definition shortcut : list Bb := [BJump 1; BBr 0 2 3; BCommitAndExit None [] None None true; BJump 2].
Lemma shortcut_panics : dominator_new 100 shortcut = None.
Proof. vm_compute. reflexivity. Qed.
