(* ===== verification/Lir.v ===== *)
(** * The lower-level intermediate representation

    [sem86-core/src/codegen/lir/mod.rs]: code for a stack machine, in blocks
    that end in jumps; and its interpreter,
    [sem86-core/src/codegen/backends/interpreter.rs].  The interpreter is the
    reference for the back ends that emit machine code.

    A machine is that of basic blocks ([Mir]); its variables are the
    definitions of the code, by number. *)
From stdpp Require Import gmap sorting.
From S2P Require Import Prelude Exceptions IlOps Arch MemArea IlCmd Scc ValTree CpuBytes Mir.

(** ** Code *)

Abbreviation BlockId := nat (only parsing).
Abbreviation ConstId := nat (only parsing).
Abbreviation DefId := Z (only parsing).

Inductive LirOp : Type :=
| LConst (c : ConstId)
| LLoad (d : DefId)
| LStore (d : DefId)
| LBinOp (op : BinOp)
| LFpBinOp (op : FpBinOp)
| LFpUnOp (op : FpUnOp)
| LBlend (c : ConstId)
| LExtract (skip take : Z)
| LUnOp (op : UnOp)
| LIte
| LLoadPtrWithOffset (ptr : Ptr) (size : DataSize)
| LLoadPtrImm (ptr : Ptr) (size : DataSize) (offset : Z)
| LStorePtrWithOffset (ptr : Ptr) (size : DataSize)
| LStorePtrImm (ptr : Ptr) (size : DataSize) (offset : Z)
| LSetExceptionWithCode (exception : Exception)
| LSetHandler (id : HandlerId)
| LReadMemory (num_bytes : Z)
| LWriteMemory (num_bytes : Z)
| LPortOut (len : Z)
| LPortIn (len : Z)
| LReadDescriptor (force mark_accessed : bool)
| LInstrLen
| LPartValues.
#[export] Instance LirOp_eq_dec : EqDecision LirOp.
Proof. solve_decision. Defined.

Inductive Jump : Type :=
| JNext (next : BlockId)
| JCond (if_zero if_nonzero : BlockId)
| JExit (success : bool) (metadata : option Z) (with_last_jump_condition : bool)
| JUnreachable.
#[export] Instance Jump_eq_dec : EqDecision Jump.
Proof. solve_decision. Defined.

Definition jump_iter (j : Jump) : list BlockId :=
  match j with
  | JNext next => [next]
  | JCond if_zero if_nonzero => [if_zero; if_nonzero]
  | JExit _ _ _ | JUnreachable => []
  end.

Record LirBlock := { operations : list LirOp; l_next : Jump }.
#[export] Instance LirBlock_eq_dec : EqDecision LirBlock.
Proof. solve_decision. Defined.
Definition block_default : LirBlock := {| operations := []; l_next := JUnreachable |}.

Record Lir := { consts : list Z; blocks : list LirBlock; num_defs : Z }.

Definition with_blocks (l : Lir) (b : list LirBlock) : Lir :=
  {| consts := consts l; blocks := b; num_defs := num_defs l |}.
Definition num_ops (l : Lir) : nat := sum_list ((fun b => S (length (operations b))) <$> blocks l).

(** ** The interpreter *)

Definition MAX_STACK_DEPTH : nat := 128.
Definition MAX_NUM_DEFS : Z := 32768.

(** The top of the stack comes first. *)
Definition push (v : Z) (stack : list Z) : option (list Z) :=
  if (length stack <? MAX_STACK_DEPTH)%nat then Some (v :: stack) else None.

Section execute.
Context {W : Type} `{ExecCtx W} `{SoftFloat} `{Layout}.

Definition ptr_byte (m : Machine W) (ptr : Ptr) (a : Z) : Z :=
  match ptr with
  | CpuState => m_cpu m (wrap 64 a)
  | K => wrap 8 (Z.shiftr (m_k m) (8 * wrap 64 a))
  end.
Definition read_ptr (m : Machine W) (ptr : Ptr) (offset : Z) (size : DataSize) : Z :=
  from_le_bytes ((fun i => ptr_byte m ptr (offset + i)) <$> seqZ 0 (ds_num_bytes size)).
Definition write_ptr (m : Machine W) (ptr : Ptr) (offset : Z) (size : DataSize) (v : Z) : Machine W :=
  match ptr with
  | CpuState => with_cpu_bytes m (store (m_cpu m) (ds_num_bytes size) offset v)
  | K => with_k m (from_le_bytes (store (ptr_byte m K) (ds_num_bytes size) offset v <$> seqZ 0 8))
  end.

(** A call of the context: [results] are pushed after 1, or zeros after 0. *)
Definition call {A} (f : comp W Exception A) (n : nat) (results : A -> list Z) (stack : list Z) (m : Machine W) : option (list Z * Machine W) :=
  let push_all (stack : list Z) (vs : list Z) := foldl (fun s v => s ← s; push v s) (Some stack) vs in
  '(r, w) ← f (m_world m);
  match r with
  | Ok x => stack ← push_all stack (1 :: results x); Some (stack, with_m_world m w)
  | Err e =>
      p ← packed_from_exception e;
      stack ← push_all stack (replicate (S n) 0);
      Some (stack, with_result (with_m_world m w) p)
  end.

Definition execute_op (l : Lir) (op : LirOp) (stack : list Z) (m : Machine W) : option (list Z * Machine W) :=
  let on_stack (s : option (list Z)) := s ← s; Some (s, m) in
  let cpu := cpu_of (m_cpu m) in
  match op, stack with
  | LConst c, _ => v ← consts l !! c; on_stack (push v stack)
  | LLoad d, _ => assert (d <? MAX_NUM_DEFS);; on_stack (push (m_vars m d) stack)
  | LStore d, v :: stack => assert (d <? MAX_NUM_DEFS);; Some (stack, with_var m d v)
  | LBinOp op, rhs :: lhs :: stack => v ← binop_execute op lhs rhs; on_stack (push v stack)
  | LFpBinOp op, rc :: rhs :: lhs :: stack => v ← fp_binop_execute op lhs rhs (wrap 8 rc); on_stack (push v stack)
  | LFpUnOp op, rc :: v :: stack => v ← fp_unop_execute op v (wrap 8 rc); on_stack (push v stack)
  | LBlend c, rhs :: lhs :: stack => mask ← consts l !! c; on_stack (push (blend_value lhs rhs mask) stack)
  | LExtract skip take, v :: stack =>
      assert (skip <? 128);; mask ← bitmask_u128 take; on_stack (push (Z.land (Z.shiftr v skip) mask) stack)
  | LUnOp op, v :: stack => v ← unop_execute op v; on_stack (push v stack)
  | LIte, cond :: if_zero :: if_nonzero :: stack => on_stack (push (if cond =? 0 then if_zero else if_nonzero) stack)
  | LLoadPtrImm ptr size offset, _ => on_stack (push (read_ptr m ptr offset size) stack)
  | LLoadPtrWithOffset ptr size, offset :: stack => on_stack (push (read_ptr m ptr (wrap 64 offset) size) stack)
  | LStorePtrImm ptr size offset, v :: stack => Some (stack, write_ptr m ptr offset size v)
  | LStorePtrWithOffset ptr size, v :: offset :: stack => Some (stack, write_ptr m ptr (wrap 64 offset) size v)
  | LSetExceptionWithCode e, code :: stack =>
      e ← with_code_from_u32 e (wrap 32 code);
      p ← packed_from_exception e;
      Some (stack, with_result m p)
  | LSetHandler id, arg1 :: arg0 :: stack =>
      p ← packed_from_exec_result (InvokeHandler id (wrap 32 arg0, wrap 32 arg1));
      Some (stack, with_result m p)
  | LReadMemory n, addr :: stack =>
      call (read_from_mem_as_u128 (Protected (wrap 32 addr) n) (is_userspace cpu)) 1 (fun v => [v]) stack m
  | LWriteMemory n, v :: addr :: stack =>
      call (write_u128_to_mem (Protected (wrap 32 addr) n) (is_userspace cpu) v) 0 (fun _ => []) stack m
  | LPortOut len, data :: port :: stack => call (port_out cpu (wrap 16 port) len (wrap 32 data)) 0 (fun _ => []) stack m
  | LPortIn len, port :: stack => call (port_in cpu (wrap 16 port) len) 1 (fun v => [v]) stack m
  | LReadDescriptor force mark_accessed, selector :: stack =>
      call (read_descriptor cpu force mark_accessed (wrap 16 selector)) 4
        (fun r => [b2z (d_ok r); d_base r; d_limit r; d_access_rights r]) stack m
  | _, _ => None                     (* a pop from an empty stack, or [todo!()] *)
  end.

Fixpoint execute_ops (l : Lir) (ops : list LirOp) (stack : list Z) (m : Machine W) : option (list Z * Machine W) :=
  match ops with
  | [] => Some (stack, m)
  | op :: ops => r ← execute_op l op stack m; execute_ops l ops r.1 r.2
  end.

(** How the interpreter leaves: success, metadata and the machine. *)
Definition Exit : Type := bool * Z * Machine W.

Definition execute_jump (j : Jump) (stack : list Z) (m : Machine W) : option (BlockId * Machine W + Exit) :=
  '(r, stack) ←
    match j, stack with
    | JNext b, _ => Some (inl b, stack)
    | JCond if_zero if_nonzero, v :: stack => Some (inl (if v =? 0 then if_zero else if_nonzero), stack)
    | JExit success metadata _, _ => Some (inr (success, default 0 metadata), stack)
    | _, _ => None
    end;
  assert (bool_decide (stack = []));;
  Some (match r with inl b => inl (b, m) | inr e => inr (e, m) end).

(** The stack is kept between blocks, but it is always empty then. *)
Definition execute_block (l : Lir) (b : LirBlock) (m : Machine W) : option (BlockId * Machine W + Exit) :=
  r ← execute_ops l (operations b) [] m;
  execute_jump (l_next b) r.1 r.2.

Fixpoint execute_from (fuel : nat) (l : Lir) (b : BlockId) (m : Machine W) : option Exit :=
  match fuel with
  | O => None
  | S fuel =>
      block ← blocks l !! b;
      r ← execute_block l block m;
      match r with
      | inl (b, m) => execute_from fuel l b m
      | inr e => Some e
      end
  end.

Definition execute (fuel : nat) (l : Lir) (m : Machine W) : option Exit :=
  assert (num_defs l <? MAX_NUM_DEFS);; execute_from fuel l 0%nat m.
End execute.

(** ** Optimisation *)

Fixpoint mapM_list {A B} (f : A -> option B) (l : list A) : option (list B) :=
  match l with
  | [] => Some []
  | x :: l => y ← f x; l ← mapM_list f l; Some (y :: l)
  end.

Definition jump_map (f : BlockId -> option BlockId) (j : Jump) : option Jump :=
  match j with
  | JNext b => b ← f b; Some (JNext b)
  | JCond z nz => z ← f z; nz ← f nz; Some (JCond z nz)
  | _ => Some j
  end.
Definition block_map (f : BlockId -> option BlockId) (b : LirBlock) : option LirBlock :=
  j ← jump_map f (l_next b); Some {| operations := operations b; l_next := j |}.

(** The indices of a list, grouped by a key: the entries of a hash map, whose
    order does not matter here. *)
Definition group_by {K} `{EqDecision K} (key : nat -> option K) (l : list nat) : list (list nat) :=
  (fun k => filter (fun i => key i = k) l) <$> remove_dups (key <$> l).

Definition remap_group (remap : list BlockId) (group : list nat) : list BlockId :=
  match group with
  | [] => remap
  | first :: rest => foldl (fun remap i => <[i := first]> remap) remap rest
  end.

(** The first block that is identical to a block. *)
Definition identical_blocks (b : list LirBlock) : list BlockId :=
  let candidates := group_by (fun i => l_next <$> b !! i) (seq 0 (length b)) in
  let groups := mjoin ((fun set => if (1 <? length set)%nat then group_by (fun i => b !! i) set else []) <$> candidates) in
  foldl remap_group (seq 0 (length b)) groups.

Definition merge_identical_blocks (b : list LirBlock) : option (list LirBlock) :=
  let remap := identical_blocks b in
  if bool_decide (remap = seq 0 (length b)) then Some b
  else mapM_list (fun x : nat * LirBlock => r ← remap !! x.1; if decide (r = x.1) then block_map (fun n => remap !! n) x.2 else Some block_default) (imap pair b).

Definition num_entries (b : list LirBlock) : list nat :=
  foldl (fun n i => alter S i n) (<[0%nat := 1%nat]> (replicate (length b) 0%nat)) (mjoin ((fun x => jump_iter (l_next x)) <$> b)).

(** One turn of the loop that concatenates unconditional jumps. *)
Definition concat_jump (entries : list nat) (b : list LirBlock) (i : nat) : option (bool * list LirBlock) :=
  lhs ← b !! i;
  match l_next lhs with
  | JNext next =>
      n ← entries !! next;
      if (n =? 1)%nat then
        assert (negb (i =? next)%nat);;
        rhs ← b !! next;
        Some (true, <[next := block_default]> (<[i := {| operations := operations lhs ++ operations rhs; l_next := l_next rhs |}]> b))
      else Some (false, b)
  | _ => Some (false, b)
  end.
Fixpoint concat_all (entries : list nat) (changed : bool) (b : list LirBlock) (l : list nat) : option (bool * list LirBlock) :=
  match l with
  | [] => Some (changed, b)
  | i :: l => '(c, b) ← concat_jump entries b i; concat_all entries (changed || c) b l
  end.
Definition concat_jumps (b : list LirBlock) : option (bool * list LirBlock) := concat_all (num_entries b) false b (seq 0 (length b)).

Definition unreachable (b : LirBlock) : bool := match l_next b with JUnreachable => true | _ => false end.

(** The new number of every block; 0 for those that go. *)
Fixpoint block_remap (n : nat) (b : list LirBlock) : list nat :=
  match b with
  | [] => []
  | x :: b => if unreachable x then 0%nat :: block_remap n b else n :: block_remap (S n) b
  end.
Definition prune_unreachable_blocks (b : list LirBlock) : option (list LirBlock) :=
  mapM_list (block_map (fun i => block_remap 0 b !! i)) (filter (fun x => unreachable x = false) b).

Definition optimize_blocks (b : list LirBlock) : option (list LirBlock) :=
  assert (0 <? length b)%nat;;
  b ← merge_identical_blocks b;
  assert (forallb (fun x => forallb (fun i => (i <? length b)%nat) (jump_iter (l_next x))) b);;
  '(changed, b) ← concat_jumps b;
  b ← prune_unreachable_blocks b;
  if changed : bool then b ← merge_identical_blocks b; prune_unreachable_blocks b else Some b.

Definition optimize (l : Lir) : option Lir := b ← optimize_blocks (blocks l); Some (with_blocks l b).

(** ** Analyses *)

Definition lir_transitions (b : list LirBlock) (i : BlockId) : option (list BlockId) := (fun x => jump_iter (l_next x)) <$> b !! i.

(** The largest number of operations on a path from each block. *)
Definition depth_of (b : list LirBlock) (depth : list nat) (i : BlockId) : option (list nat) :=
  block ← b !! i;
  next ← mapM_list (fun n => depth !! n) (jump_iter (l_next block));
  Some (<[i := (length (operations block) + max_list next)%nat]> depth).
Fixpoint depths_of (b : list LirBlock) (components : list (list nat)) (depth : list nat) : option (list nat) :=
  match components with
  | [] => Some depth
  | [i] :: components => depth ← depth_of b depth i; depths_of b components depth
  | _ :: _ => None
  end.
Definition max_ops_executed (sfuel : nat) (l : Lir) : option nat :=
  components ← Scc.iterate (length (blocks l)) (lir_transitions (blocks l)) sfuel;
  depth ← depths_of (blocks l) components (replicate (length (blocks l)) 0%nat);
  depth !! 0%nat.

(** The definitions that operations need to be set before them, the operations
    taken from the last to the first. *)
Definition require (requirements : list DefId) (op : LirOp) : list DefId :=
  match op with
  | LLoad d => if bool_decide (d ∈ requirements) then requirements else requirements ++ [d]
  | LStore d => filter (fun x => x <> d) requirements
  | _ => requirements
  end.
Definition requirements_of (b : list LirBlock) (reqs : list (list DefId)) (i : BlockId) : option (list (list DefId)) :=
  block ← b !! i;
  next ← mapM_list (fun n => reqs !! n) (jump_iter (l_next block));
  Some (<[i := foldl require (merge_sort Z.le (remove_dups (mjoin next))) (reverse (operations block))]> reqs).
Fixpoint all_requirements (b : list LirBlock) (components : list (list nat)) (reqs : list (list DefId)) : option (list (list DefId)) :=
  match components with
  | [] => Some reqs
  | [i] :: components => reqs ← requirements_of b reqs i; all_requirements b components reqs
  | _ :: _ => None
  end.
Definition get_unassigned_defs (sfuel : nat) (l : Lir) : option (list DefId) :=
  components ← Scc.iterate (length (blocks l)) (lir_transitions (blocks l)) sfuel;
  reqs ← all_requirements (blocks l) components (replicate (length (blocks l)) []);
  reqs !! 0%nat.

Definition any_op (f : LirOp -> bool) (l : Lir) : bool := existsb (fun b => existsb f (operations b)) (blocks l).
Definition performs_io : Lir -> bool :=
  any_op (fun op => match op with LReadMemory _ | LWriteMemory _ | LPortOut _ | LPortIn _ | LReadDescriptor _ _ => true | _ => false end).
Definition reads_memory : Lir -> bool := any_op (fun op => match op with LReadMemory _ => true | _ => false end).
Definition reads_descriptors : Lir -> bool := any_op (fun op => match op with LReadDescriptor _ _ => true | _ => false end).
