(* ===== verification/LirOpt.v ===== *)
(** * The optimisation of lower-level code is right

    [Lir::optimize] of [sem86-core/src/codegen/lir/mod.rs]: identical blocks
    are merged, blocks with a single entry are joined to the block before them,
    and unreachable blocks are removed. *)
From stdpp Require Import gmap.
From S2P Require Import Prelude Exceptions IlOps Arch MemArea IlCmd Scc ValTree CpuBytes Mir Lir.

(** ** Lists *)

Lemma mapM_list_lookup {A B} (f : A -> option B) l r :
  mapM_list f l = Some r -> length r = length l /\ forall i x, l !! i = Some x -> exists y, r !! i = Some y /\ f x = Some y.
Proof.
  revert r. induction l as [|x l IH]; intros r; cbn [mapM_list]; [by intros [= <-]|].
  destruct (f x) as [y|] eqn:Ex; [|done]. cbn [mbind option_bind]. destruct (mapM_list f l) as [r'|]; [|done]. cbn [mbind option_bind].
  intros [= <-]. destruct (IH r' eq_refl) as [Hl Hi]. split; [cbn; by rewrite Hl|]. intros [|i] z; cbn; [intros [= <-]; by exists y|apply Hi].
Qed.
Lemma mapM_list_total {A B} (f : A -> option B) l : Forall (fun x => is_Some (f x)) l -> is_Some (mapM_list f l).
Proof.
  induction 1 as [|x l [y Hy] _ [r Hr]]; [by eexists|]. cbn [mapM_list]. rewrite Hy. cbn [mbind option_bind]. rewrite Hr. by eexists.
Qed.

Lemma jump_map_iter f j j' : jump_map f j = Some j' -> Forall2 (fun b b' => f b = Some b') (jump_iter j) (jump_iter j').
Proof.
  destruct j as [b|z nz|s md w|]; cbn [jump_map]; [| |intros [= <-]; constructor..].
  - destruct (f b) as [b'|] eqn:E; [|done]. intros [= <-]. by repeat constructor.
  - destruct (f z) as [z'|] eqn:E; [|done]. cbn [mbind option_bind]. destruct (f nz) as [nz'|] eqn:E'; [|done]. intros [= <-]. by repeat constructor.
Qed.
Lemma block_map_total f x : Forall (fun b => is_Some (f b)) (jump_iter (l_next x)) -> is_Some (block_map f x).
Proof.
  unfold block_map. destruct (l_next x) as [b|z nz|s md w|]; cbn [jump_iter jump_map]; intros H; decompose_Forall_hyps.
  - destruct H as [b' ->]. by eexists.
  - destruct H as [z' ->]. destruct H0 as [nz' ->]. by eexists.
  - by eexists.
  - by eexists.
Qed.

Lemma assert_inv {A} b (k : option A) r : (assert b;; k) = Some r -> b = true /\ k = Some r.
Proof. by destruct b. Qed.

(** ** Runs of related code *)

Section run.
Context {W : Type} `{ctx : ExecCtx W} `{sf : SoftFloat} `{lay : Layout}.
Abbreviation mach := (Machine W).

Lemma execute_ops_blocks l b ops st (m : mach) : execute_ops (with_blocks l b) ops st m = execute_ops l ops st m.
Proof.
  revert st m. induction ops as [|op ops IH]; intros st m; [done|]. cbn [execute_ops]. change (execute_op (with_blocks l b) op st m) with (execute_op l op st m).
  destruct (execute_op l op st m) as [[st1 m1]|]; [|done]. apply IH.
Qed.
Lemma execute_block_blocks l b x (m : mach) : execute_block (with_blocks l b) x m = execute_block l x m.
Proof. unfold execute_block. by rewrite execute_ops_blocks. Qed.

Lemma execute_ops_app l a b st (m : mach) : execute_ops l (a ++ b) st m = (r ← execute_ops l a st m; execute_ops l b r.1 r.2).
Proof.
  revert st m. induction a as [|op a IH]; intros st m; [done|]. cbn [app execute_ops]. destruct (execute_op l op st m) as [[st1 m1]|]; [apply IH|done].
Qed.

(** Blocks [b] that may be visited, and their counterparts in other code. *)
Definition jump_rel (R : nat -> nat -> Prop) (j j' : Jump) : Prop :=
  match j, j' with
  | JNext b, JNext b' => R b b'
  | JCond z nz, JCond z' nz' => R z z' /\ R nz nz'
  | JExit s md w, JExit s' md' w' => s' = s /\ md' = md /\ w' = w
  | _, _ => False
  end.
Definition simulates (R : nat -> nat -> Prop) (b b' : list LirBlock) : Prop :=
  forall i i' x, R i i' -> b !! i = Some x -> unreachable x = false ->
    exists x', b' !! i' = Some x' /\ operations x' = operations x /\ jump_rel R (l_next x) (l_next x').

Lemma simulates_step R l x x' (m : mach) r :
  operations x' = operations x -> jump_rel R (l_next x) (l_next x') -> execute_block l x m = Some r ->
  match r with
  | inl (i, m1) => exists i', execute_block l x' m = Some (inl (i', m1)) /\ R i i'
  | inr e => execute_block l x' m = Some (inr e)
  end.
Proof.
  intros Hops Hj. unfold execute_block. rewrite Hops. destruct (execute_ops l (operations x) [] m) as [[st m1]|]; [|done]. cbn [mbind option_bind fst snd].
  unfold execute_jump. destruct (l_next x) as [b|z nz|s md w|], (l_next x') as [b'|z' nz'|s' md' w'|]; cbn [jump_rel] in Hj; try done.
  - cbn [mbind option_bind]. destruct (assert _); [|done]. cbn [mbind option_bind]. intros [= <-]. by exists b'.
  - destruct st as [|v st]; [done|]. cbn [mbind option_bind]. destruct (assert _); [|done]. cbn [mbind option_bind]. intros [= <-].
    eexists. split; [done|]. by destruct (v =? 0), Hj.
  - destruct Hj as (-> & -> & ->). cbn [mbind option_bind]. destruct (assert _); [|done]. cbn [mbind option_bind]. by intros [= <-].
Qed.

Lemma unreachable_stops l x (m : mach) : unreachable x = true -> execute_block l x m = None.
Proof. unfold unreachable, execute_block. destruct (l_next x); try done. intros _. by destruct (execute_ops _ _ _ _). Qed.

Lemma simulates_run R l b b' n i i' (m : mach) e :
  simulates R b b' -> R i i' -> execute_from n (with_blocks l b) i m = Some e -> execute_from n (with_blocks l b') i' m = Some e.
Proof.
  intros Hsim. revert i i' m. induction n as [|n IH]; intros i i' m HR; [done|]. cbn [execute_from with_blocks blocks]. destruct (b !! i) as [x|] eqn:Hx; [|done].
  cbn [mbind option_bind]. rewrite execute_block_blocks. destruct (execute_block l x m) as [r|] eqn:Er; [|done]. cbn [mbind option_bind].
  destruct (unreachable x) eqn:Hu; [by rewrite unreachable_stops in Er|]. destruct (Hsim i i' x HR Hx Hu) as (x' & -> & Hops & Hj). cbn [mbind option_bind].
  rewrite execute_block_blocks. pose proof (simulates_step R l x x' m r Hops Hj Er) as Hr. destruct r as [[i1 m1]|e1].
  - destruct Hr as (i1' & -> & HR1). cbn [mbind option_bind]. by apply IH.
  - by rewrite Hr.
Qed.

Lemma execute_from_mono n n' l i (m : mach) e : (n <= n')%nat -> execute_from n l i m = Some e -> execute_from n' l i m = Some e.
Proof.
  revert n' i m. induction n as [|n IH]; intros [|n'] i m Hn; cbn [execute_from]; try done; [lia|].
  destruct (blocks l !! i) as [x|]; [|done]. cbn [mbind option_bind]. destruct (execute_block l x m) as [[[i1 m1]|e1]|]; [|done..]. cbn [mbind option_bind].
  apply IH. lia.
Qed.

Lemma jump_target j st (m : mach) k m' : execute_jump j st m = Some (inl (k, m')) -> k ∈ jump_iter j.
Proof.
  unfold execute_jump. destruct j as [b|z nz|s md w|]; cbn [jump_iter]; try done.
  - cbn [mbind option_bind]. destruct (assert _); [|done]. intros [= <- _]. by left.
  - destruct st as [|v st]; [done|]. cbn [mbind option_bind]. destruct (assert _); [|done]. intros [= <- _]. destruct (v =? 0); [by left|right; by left].
  - cbn [mbind option_bind]. by destruct (assert _).
Qed.

(** ** Concatenation *)

Lemma concat_run l b i j lhs rhs n k (m : mach) e :
  b !! i = Some lhs -> l_next lhs = JNext j -> b !! j = Some rhs -> i <> j ->
  (forall p x, b !! p = Some x -> p <> i -> j ∉ jump_iter (l_next x)) -> k <> j ->
  execute_from n (with_blocks l b) k m = Some e ->
  execute_from n (with_blocks l (<[j := block_default]> (<[i := {| operations := operations lhs ++ operations rhs; l_next := l_next rhs |}]> b))) k m = Some e.
Proof.
  intros Hi Hnext Hj Hij Honly. set (b' := <[j := _]> _). revert k m. induction (lt_wf n) as [n _ IH]. intros k m Hk.
  destruct n as [|n]; [done|]. cbn [execute_from with_blocks blocks]. destruct (b !! k) as [x|] eqn:Hx; [|done]. cbn [mbind option_bind].
  rewrite execute_block_blocks. destruct (decide (k = i)) as [->|Hki].
  - assert (x = lhs) as -> by congruence. assert (b' !! i = Some {| operations := operations lhs ++ operations rhs; l_next := l_next rhs |}) as Hb'.
    { unfold b'. rewrite list_lookup_insert_ne by done. by apply list_lookup_insert_eq, lookup_lt_Some in Hi || (apply list_lookup_insert_eq; by apply lookup_lt_Some in Hi). }
    rewrite Hb'. cbn [mbind option_bind]. rewrite execute_block_blocks. unfold execute_block at 1 2. cbn [operations l_next]. rewrite execute_ops_app.
    destruct (execute_ops l (operations lhs) [] m) as [[st m1]|]; [|done]. cbn [mbind option_bind fst snd]. rewrite Hnext. cbn [execute_jump mbind option_bind].
    destruct (decide (st = [])) as [->|Hst]; [|by rewrite bool_decide_eq_false_2]. rewrite bool_decide_eq_true_2 by done. cbn [assert mbind option_bind].
    destruct n as [|n]; [done|]. cbn [execute_from with_blocks blocks]. rewrite Hj. cbn [mbind option_bind]. rewrite execute_block_blocks. unfold execute_block at 1.
    destruct (execute_ops l (operations rhs) [] m1) as [[st2 m2]|]; [|done]. cbn [mbind option_bind fst snd].
    destruct (execute_jump (l_next rhs) st2 m2) as [[[k2 m3]|e2]|] eqn:Ej; [|done..]. cbn [mbind option_bind]. intros Hrun.
    change (execute_from (S n) (with_blocks l b') k2 m3 = Some e). apply (execute_from_mono n); [lia|]. apply IH; [lia| |done]. intros ->. apply (Honly j rhs Hj ltac:(done)).
    by apply (jump_target _ _ _ _ _ Ej).
  - assert (b' !! k = Some x) as Hb' by (unfold b'; by rewrite !list_lookup_insert_ne by done). rewrite Hb'. cbn [mbind option_bind].
    rewrite execute_block_blocks. destruct (execute_block l x m) as [[[k1 m1]|e1]|] eqn:Er; [|done..]. cbn [mbind option_bind]. apply IH; [lia|].
    intros ->. apply (Honly k x Hx Hki). unfold execute_block in Er. destruct (execute_ops l (operations x) [] m) as [[st m2]|]; [|done].
    by apply (jump_target _ _ _ _ _ Er).
Qed.
End run.

(** ** Merging identical blocks *)

Definition least (b : list LirBlock) (i : nat) : nat := default i (head (filter (fun j => b !! j = b !! i) (seq 0 (length b)))).

Lemma least_same b i : (i < length b)%nat -> b !! least b i = b !! i /\ (least b i < length b)%nat.
Proof.
  intros Hi. unfold least. destruct (filter _ _) as [|j l] eqn:E; cbn [head default].
  - split; [done|done].
  - cbn. assert (j ∈ filter (fun j => b !! j = b !! i) (seq 0 (length b))) as Hj by (rewrite E; by left). apply list_elem_of_filter in Hj as [Hj Hin%elem_of_seq].
    split; [done|]. lia.
Qed.
Lemma least_least b i : (i < length b)%nat -> least b (least b i) = least b i.
Proof.
  intros Hi. destruct (least_same b i Hi) as [Hs Hl]. unfold least at 1. rewrite Hs. unfold least at 1. unfold least.
  by destruct (filter (fun j => b !! j = b !! i) _).
Qed.

Lemma group_by_in {K} `{EqDecision K} (key : nat -> option K) l g :
  g ∈ group_by key l -> exists k, g = filter (fun i => key i = k) l.
Proof. unfold group_by. intros (k & -> & _)%list_elem_of_fmap. by exists k. Qed.

Lemma group_remap b g first i rest :
  g ∈ mjoin ((fun set => if (1 <? length set)%nat then group_by (fun i => b !! i) set else []) <$> group_by (fun i => l_next <$> b !! i) (seq 0 (length b))) ->
  g = first :: rest -> i ∈ rest -> first = least b i /\ first <> i /\ (i < length b)%nat.
Proof.
  intros (groups & Hg & (set & -> & (N & ->)%group_by_in)%list_elem_of_fmap)%list_elem_of_join -> Hi.
  destruct (1 <? _)%nat; [|by apply elem_of_nil in Hg]. apply group_by_in in Hg as [B Hg]. rewrite list_filter_filter in Hg.
  assert (NoDup (first :: rest)) as Hnd by (rewrite Hg; apply list.NoDup_filter, NoDup_seq).
  assert (i ∈ first :: rest) as Hin by by right. rewrite Hg in Hin. apply list_elem_of_filter in Hin as [[HB HN] Hs%elem_of_seq].
  split; [|split; [|lia]].
  - unfold least. rewrite (list_filter_iff _ (fun j => b !! j = B /\ l_next <$> b !! j = N)); [by rewrite <- Hg|].
    intros j. rewrite HB. split; [intros E; split; [done|]; by rewrite E, <- HB|by intros [? _]].
  - apply list.NoDup_cons in Hnd as [Hnd _]. by intros ->.
Qed.

Lemma remap_group_lookup remap first rest i :
  remap_group remap (first :: rest) !! i = if decide (i ∈ rest /\ (i < length remap)%nat) then Some first else remap !! i.
Proof.
  cbn [remap_group]. revert remap. induction rest as [|j rest IH]; intros remap; cbn [foldl].
  - destruct (decide _) as [[H _]|]; [by apply elem_of_nil in H|done].
  - rewrite IH, length_insert. destruct (decide (i = j)) as [->|Hne].
    + destruct (decide (j < length remap)%nat) as [Hj|Hj].
      * rewrite list_lookup_insert_eq by done. rewrite (decide_True (P := j ∈ j :: rest /\ _)) by (split; [by left|done]). by destruct (decide _).
      * rewrite decide_False by tauto. rewrite decide_False by tauto. rewrite list_insert_ge by lia. done.
    + rewrite list_lookup_insert_ne by done. rewrite (decide_ext (i ∈ rest /\ _) (i ∈ j :: rest /\ (i < length remap)%nat)); [done|].
      rewrite elem_of_cons. tauto.
Qed.
Lemma length_remap_group remap g : length (remap_group remap g) = length remap.
Proof. destruct g as [|first rest]; [done|]. cbn [remap_group]. revert remap. induction rest as [|j rest IH]; intros remap; [done|]. cbn [foldl]. by rewrite IH, length_insert. Qed.

(** Every block stays, or is replaced by the first one that is identical. *)
Lemma identical_blocks_spec b :
  length (identical_blocks b) = length b
  /\ forall i j, identical_blocks b !! i = Some j -> b !! j = b !! i /\ identical_blocks b !! j = Some j /\ (i = 0 -> j = 0)%nat.
Proof.
  unfold identical_blocks. set (groups := mjoin _).
  assert (forall l, (forall g, g ∈ l -> g ∈ groups) -> length (foldl remap_group (seq 0 (length b)) l) = length b
    /\ forall i j, foldl remap_group (seq 0 (length b)) l !! i = Some j -> (i < length b)%nat /\ (j = i \/ j = least b i /\ j <> i)) as Hall.
  { induction l as [|g l IH] using rev_ind; intros Hl.
    - cbn [foldl]. rewrite length_seq. split; [done|]. intros i j [-> Hi]%lookup_seq. by split; [|left].
    - rewrite foldl_app. cbn [foldl]. destruct IH as [Hlen IH]; [intros g' Hg'; apply Hl, elem_of_app; by left|]. rewrite length_remap_group. split; [done|].
      intros i j. destruct g as [|first rest]; [apply IH|]. rewrite remap_group_lookup, Hlen. destruct (decide _) as [[Hi Hlt]|]; [|apply IH].
      intros [= <-]. split; [done|]. right. destruct (group_remap b (first :: rest) first i rest) as (H1 & H2 & _); [|done..|by split].
      apply Hl, elem_of_app. right. by left. }
  destruct (Hall groups ltac:(done)) as [Hlen Hspec]. split; [done|]. intros i j Hij. destruct (Hspec i j Hij) as [Hi [->|[-> Hne]]]; [done|].
  destruct (least_same b i Hi) as [Hs Hl]. split; [done|]. split.
  2:{ intros ->. destruct b as [|x b]; [done|]. unfold least. cbn [length seq]. by rewrite filter_cons_True. }
  destruct (lookup_lt_is_Some_2 (foldl remap_group (seq 0 (length b)) groups) (least b i)) as [k Hk]; [lia|].
  rewrite Hk. f_equal. destruct (Hspec _ k Hk) as [_ [->|[-> Hne']]]; [done|]. by rewrite least_least in Hne'.
Qed.

Lemma jump_rel_map f (R : nat -> nat -> Prop) j j' : (forall i i', f i = Some i' -> R i i') -> jump_map f j = Some j' -> j <> JUnreachable -> jump_rel R j j'.
Proof.
  intros HR. destruct j as [b|z nz|s md w|]; cbn [jump_map]; [| | |done].
  - destruct (f b) as [b'|] eqn:E; [|done]. intros [= <-] _. by apply HR.
  - destruct (f z) as [z'|] eqn:E; [|done]. cbn [mbind option_bind]. destruct (f nz) as [nz'|] eqn:E'; [|done]. intros [= <-] _. split; by apply HR.
  - intros [= <-] _. done.
Qed.
Lemma jump_rel_refl (R : nat -> nat -> Prop) j : (forall i, R i i) -> j <> JUnreachable -> jump_rel R j j.
Proof. intros HR. by destruct j; cbn [jump_rel]. Qed.
Lemma reachable_next x : unreachable x = false -> l_next x <> JUnreachable.
Proof. unfold unreachable. by destruct (l_next x). Qed.

Definition merged (b : list LirBlock) (i i' : nat) : Prop := i' = default i (identical_blocks b !! i).

Lemma merge_simulates b b' : merge_identical_blocks b = Some b' -> simulates (merged b) b b'.
Proof.
  unfold merge_identical_blocks. destruct (identical_blocks_spec b) as [Hlen Hspec]. intros H i i' x -> Hx Hu. apply reachable_next in Hu.
  case_bool_decide as Hsame.
  - injection H as <-. exists x. assert (forall k, merged b k k) as Hrefl.
    { intros k. unfold merged. rewrite Hsame. destruct (seq 0 (length b) !! k) as [k'|] eqn:E; [|done]. apply lookup_seq in E as [-> _]. done. }
    rewrite <- (Hrefl i). split; [done|]. split; [done|]. by apply jump_rel_refl.
  - destruct (mapM_list_lookup _ _ _ H) as [_ Hget]. pose proof (lookup_lt_Some _ _ _ Hx) as Hi.
    destruct (lookup_lt_is_Some_2 (identical_blocks b) i) as [j Hj]; [by rewrite Hlen|]. rewrite Hj. cbn [default]. destruct (Hspec i j Hj) as (Hb & Hjj & _).
    destruct (Hget j (j, x)) as (x' & Hx' & Hm); [by rewrite list_lookup_imap, Hb, Hx|]. cbn [fst snd] in Hm. rewrite Hjj in Hm. cbn [mbind option_bind] in Hm.
    rewrite decide_True in Hm by done. unfold block_map in Hm. destruct (jump_map _ (l_next x)) as [n|] eqn:En; [|done]. injection Hm as <-.
    eexists. split; [done|]. split; [done|]. cbn [l_next]. apply (jump_rel_map (fun n => identical_blocks b !! n)); [|done..].
    intros k k' Hk. unfold merged. by rewrite Hk.
Qed.

Lemma merged_root b : (0 < length b)%nat -> merged b 0 0.
Proof.
  intros H. unfold merged. destruct (identical_blocks_spec b) as [Hlen Hspec]. destruct (lookup_lt_is_Some_2 (identical_blocks b) 0) as [j Hj]; [by rewrite Hlen|].
  rewrite Hj. symmetry. by apply (Hspec 0%nat j Hj).
Qed.

(** ** Removing blocks *)

Lemma block_remap_filter n b i i' x :
  block_remap n b !! i = Some i' -> b !! i = Some x -> unreachable x = false ->
  (n <= i')%nat /\ filter (fun x => unreachable x = false) b !! (i' - n)%nat = Some x.
Proof.
  revert n i. induction b as [|y b IH]; intros n [|i]; cbn [block_remap]; [done..| |].
  - intros H [= ->] Hu. rewrite Hu in H. injection H as <-. rewrite Nat.sub_diag. rewrite filter_cons_True by done. by split.
  - intros H Hx Hu. cbn in Hx. destruct (unreachable y) eqn:Ey; cbn in H.
    + rewrite filter_cons_False by congruence. by apply (IH n i).
    + rewrite filter_cons_True by done. destruct (IH (S n) i H Hx Hu) as [Hn Hf]. split; [lia|].
      replace (i' - n)%nat with (S (i' - S n)) by lia. exact Hf.
Qed.
Lemma prune_simulates b b' : prune_unreachable_blocks b = Some b' -> simulates (fun i i' => block_remap 0 b !! i = Some i') b b'.
Proof.
  unfold prune_unreachable_blocks. intros H i i' x Hi Hx Hu. destruct (block_remap_filter 0 b i i' x Hi Hx Hu) as [_ Hf]. rewrite Nat.sub_0_r in Hf.
  destruct (mapM_list_lookup _ _ _ H) as [_ Hget]. destruct (Hget i' x Hf) as (x' & Hx' & Hm). exists x'. split; [done|]. unfold block_map in Hm.
  destruct (jump_map _ (l_next x)) as [j|] eqn:Ej; [|done]. injection Hm as <-. split; [done|]. cbn [l_next]. apply (jump_rel_map (fun i => block_remap 0 b !! i)); [done|done|by apply reachable_next].
Qed.
Lemma block_remap_root b : b <> [] -> block_remap 0 b !! 0%nat = Some 0%nat.
Proof. destruct b as [|x b]; [done|]. cbn [block_remap]. by destruct (unreachable x). Qed.

(** ** Counting entries *)

Definition own (x : LirBlock) (k : nat) : nat := length (filter (fun i => i = k) (jump_iter (l_next x))).
Definition refs (b : list LirBlock) (k : nat) : nat := sum_list ((fun x => own x k) <$> b).

Lemma own_zero x k : own x k = 0%nat -> k ∉ jump_iter (l_next x).
Proof. unfold own. intros H%nil_length_inv Hk. assert (k ∈ filter (fun i => i = k) (jump_iter (l_next x))) as Hf by (by apply list_elem_of_filter). rewrite H in Hf. by apply elem_of_nil in Hf. Qed.
Lemma refs_cons x b k : refs (x :: b) k = (own x k + refs b k)%nat.
Proof. done. Qed.
Lemma refs_insert b i x y k : b !! i = Some x -> (refs (<[i := y]> b) k + own x k = refs b k + own y k)%nat.
Proof.
  revert i. induction b as [|z b IH]; intros [|i]; [done|done|intros [= ->]; change (<[0%nat := y]> (x :: b)) with (y :: b); rewrite !refs_cons; lia|].
  intros H. specialize (IH i H). change (<[S i := y]> (z :: b)) with (z :: <[i := y]> b). rewrite !refs_cons. lia.
Qed.
Lemma refs_own b i x k : b !! i = Some x -> (own x k <= refs b k)%nat.
Proof. intros H. pose proof (refs_insert b i x block_default k H) as E. change (own block_default k) with 0%nat in E. lia. Qed.
Lemma refs_own2 b i p x y k : b !! i = Some x -> b !! p = Some y -> p <> i -> (own x k + own y k <= refs b k)%nat.
Proof.
  intros Hi Hp Hne. pose proof (refs_insert b i x block_default k Hi) as E. change (own block_default k) with 0%nat in E.
  pose proof (refs_own (<[i := block_default]> b) p y k ltac:(by rewrite list_lookup_insert_ne)) as H. lia.
Qed.

Lemma num_entries_spec b k n :
  num_entries b !! k = Some n -> n = ((if decide (k = 0) then 1 else 0) + refs b k)%nat.
Proof.
  unfold num_entries. assert (refs b k = length (filter (fun i => i = k) (mjoin ((fun x => jump_iter (l_next x)) <$> b)))) as ->.
  { unfold refs, own. induction b as [|x b IH]; [done|]. cbn [fmap list_fmap mjoin list_join]. rewrite list.filter_app, length_app. cbn [sum_list_with foldr]. f_equal. exact IH. }
  assert (forall l e, foldl (fun n i => alter S i n) e l !! k = (Nat.add (length (filter (fun i => i = k) l))) <$> e !! k) as ->.
  { induction l as [|i l IH]; intros e; cbn [foldl]; [by destruct (e !! k)|]. rewrite IH. destruct (decide (i = k)) as [->|Hne].
    - rewrite filter_cons_True by done. rewrite list_lookup_alter_eq. destruct (e !! k); [|done]. cbn. f_equal. lia.
    - rewrite filter_cons_False by done. by rewrite list_lookup_alter_ne. }
  destruct b as [|x b]; [by destruct k|]. cbn [length replicate]. destruct k as [|k]; cbn.
  - intros [= <-]. case_decide; [lia|done].
  - intros (y & Hy & ->)%fmap_Some. apply lookup_replicate in Hy as [-> _]. case_decide; [done|lia].
Qed.

(** ** The loop that concatenates *)

Definition counted (entries : list nat) (b : list LirBlock) : Prop :=
  forall k n, entries !! k = Some n -> ((if decide (k = 0) then 1 else 0) + refs b k <= n)%nat.

Lemma concat_jump_cases entries b i c b' :
  concat_jump entries b i = Some (c, b') ->
  b' = b \/ exists lhs j rhs, b !! i = Some lhs /\ l_next lhs = JNext j /\ b !! j = Some rhs /\ i <> j /\ entries !! j = Some 1%nat
    /\ b' = <[j := block_default]> (<[i := {| operations := operations lhs ++ operations rhs; l_next := l_next rhs |}]> b).
Proof.
  unfold concat_jump. destruct (b !! i) as [lhs|] eqn:Hi; [|done]. cbn [mbind option_bind]. destruct (l_next lhs) as [j|z nz|s md w|] eqn:Hj; [|intros [= _ <-]; by left..].
  destruct (entries !! j) as [n|] eqn:Hn; [|done]. cbn [mbind option_bind]. destruct (Nat.eqb_spec n 1) as [->|]; [|intros [= _ <-]; by left].
  intros H. apply assert_inv in H as [Hne H]. destruct (b !! j) as [rhs|] eqn:Hr; [|done]. cbn [mbind option_bind] in H. injection H as _ <-. right.
  exists lhs, j, rhs. repeat (split; [done|]). split; [by intros ->; rewrite Nat.eqb_refl in Hne|done].
Qed.

Lemma own_next lhs j : l_next lhs = JNext j -> own lhs j = 1%nat /\ forall k, k <> j -> own lhs k = 0%nat.
Proof. intros H. unfold own. rewrite H. cbn [jump_iter]. split; [by rewrite filter_cons_True|]. intros k Hk. by rewrite filter_cons_False. Qed.

Lemma concat_jump_counted entries b i c b' : counted entries b -> concat_jump entries b i = Some (c, b') -> counted entries b' /\ length b' = length b.
Proof.
  intros Hc [->|(lhs & j & rhs & Hi & Hnext & Hj & Hij & _ & ->)]%concat_jump_cases; [done|]. rewrite !length_insert. split; [|done].
  intros k n Hk. specialize (Hc k n Hk). set (new := Build_LirBlock _ _).
  pose proof (refs_insert b i lhs new k Hi) as E1. pose proof (refs_insert (<[i := new]> b) j rhs block_default k ltac:(by rewrite list_lookup_insert_ne)) as E2.
  change (own block_default k) with 0%nat in E2. change (own new k) with (own rhs k) in E1. lia.
Qed.

Section optimize.
Context {W : Type} `{ctx : ExecCtx W} `{sf : SoftFloat} `{lay : Layout}.
Abbreviation mach := (Machine W).

Definition runs_like (l : Lir) (b b' : list LirBlock) : Prop :=
  forall n (m : mach) e, execute_from n (with_blocks l b) 0%nat m = Some e -> execute_from n (with_blocks l b') 0%nat m = Some e.

Lemma concat_jump_runs l entries b i c b' : counted entries b -> concat_jump entries b i = Some (c, b') -> runs_like l b b'.
Proof.
  intros Hc [->|(lhs & j & rhs & Hi & Hnext & Hj & Hij & Hn & ->)]%concat_jump_cases; [by intros n m e|]. destruct (own_next lhs j Hnext) as [Hown _].
  pose proof (Hc j 1%nat Hn) as Hcount. pose proof (refs_own b i lhs j Hi) as Hown'. intros n m e. apply concat_run; try done.
  - intros p x Hp Hpi. apply own_zero. pose proof (refs_own2 b i p lhs x j Hi Hp Hpi). lia.
  - intros <-. rewrite decide_True in Hcount by done. lia.
Qed.

Lemma concat_all_runs l entries c b ids c' b' : counted entries b -> concat_all entries c b ids = Some (c', b') -> runs_like l b b' /\ length b' = length b.
Proof.
  revert c b. induction ids as [|i ids IH]; intros c b Hc; cbn [concat_all]; [intros [= _ <-]; by split; [intros n m e|]|].
  destruct (concat_jump entries b i) as [[c1 b1]|] eqn:E; [|done]. cbn [mbind option_bind]. intros H.
  destruct (concat_jump_counted _ _ _ _ _ Hc E) as [Hc1 Hl1]. destruct (IH _ _ Hc1 H) as [Hr Hl]. split; [|congruence].
  intros n m e Hm. by apply Hr, (concat_jump_runs l entries b i c1 b1 Hc E).
Qed.

Lemma run_nonempty l b n (m : mach) e : execute_from n (with_blocks l b) 0%nat m = Some e -> (0 < length b)%nat.
Proof. destruct n as [|n]; [done|]. cbn [execute_from with_blocks blocks]. destruct b; [done|cbn; lia]. Qed.
Lemma merge_runs l b b' : merge_identical_blocks b = Some b' -> runs_like l b b'.
Proof. intros H n m e Hr. apply (simulates_run (merged b) l b b' n 0 0); [by apply merge_simulates| |done]. by apply merged_root, (run_nonempty l b n m e). Qed.
Lemma prune_runs l b b' : prune_unreachable_blocks b = Some b' -> runs_like l b b'.
Proof.
  intros H n m e Hr. apply (simulates_run (fun i i' => block_remap 0 b !! i = Some i') l b b' n 0 0); [by apply prune_simulates| |done].
  apply block_remap_root. intros ->. by apply run_nonempty in Hr; cbn in Hr; lia.
Qed.

Lemma optimize_runs l b b' : optimize_blocks b = Some b' -> runs_like l b b'.
Proof.
  unfold optimize_blocks. intros [_ H]%assert_inv. destruct (merge_identical_blocks b) as [b1|] eqn:E1; [|done]. cbn [mbind option_bind] in H.
  apply assert_inv in H as [_ H]. unfold concat_jumps in H. destruct (concat_all _ _ _ _) as [[c b2]|] eqn:E2; [|done]. cbn [mbind option_bind] in H.
  destruct (concat_all_runs l _ _ _ _ _ _ ltac:(intros k n Hk; by rewrite (num_entries_spec b1 k n Hk)) E2) as [Hr2 _].
  destruct (prune_unreachable_blocks b2) as [b3|] eqn:E3; [|done]. cbn [mbind option_bind] in H.
  assert (runs_like l b b3) as Hr3 by (intros n m e Hm; by apply (prune_runs l b2), Hr2, (merge_runs l b)).
  destruct c; [|by injection H as <-]. destruct (merge_identical_blocks b3) as [b4|] eqn:E4; [|done]. cbn [mbind option_bind] in H.
  intros n m e Hm. by apply (prune_runs l b4), (merge_runs l b3), Hr3.
Qed.
End optimize.

(** ** Optimisation does not panic *)

(** Code without cycles, and none of whose jumps go to a block that was never
    sealed. *)
Record ranked_code (rank : nat -> nat) (b : list LirBlock) : Prop := {
  rc_lower : forall p x t, b !! p = Some x -> t ∈ jump_iter (l_next x) -> (rank t < rank p)%nat;
  rc_closed : forall p x t, b !! p = Some x -> t ∈ jump_iter (l_next x) -> exists y, b !! t = Some y /\ unreachable y = false;
}.

Fixpoint depth (fuel : nat) (b : list LirBlock) (p : nat) : nat :=
  match fuel with
  | O => 0
  | S fuel => match b !! p with Some x => S (max_list (depth fuel b <$> jump_iter (l_next x))) | None => 0 end
  end.

Lemma depth_stable rank b f f' p : ranked_code rank b -> (rank p < f)%nat -> (rank p < f')%nat -> depth f b p = depth f' b p.
Proof.
  intros [Hr _]. revert f' p. induction f as [|f IH]; intros [|f'] p Hf Hf'; [lia..|]. cbn [depth]. destruct (b !! p) as [x|] eqn:Hx; [|done].
  do 2 f_equal. apply list_fmap_ext. intros i t Ht. pose proof (Hr p x t Hx ltac:(by eapply list_elem_of_lookup_2)). apply IH; lia.
Qed.
Lemma depth_step rank b p x t :
  ranked_code rank b -> b !! p = Some x -> t ∈ jump_iter (l_next x) -> (depth (S (rank t)) b t < depth (S (rank p)) b p)%nat.
Proof.
  intros Hb Hx Ht. cbn [depth]. rewrite Hx. pose proof (rc_lower _ _ Hb p x t Hx Ht) as Hlt.
  change (match b !! t with Some y => _ | None => _ end) with (depth (S (rank t)) b t). rewrite (depth_stable rank b _ (rank p) t Hb) by lia.
  apply Nat.lt_succ_r, max_list_elem_of_le, list_elem_of_fmap. by exists t.
Qed.
Lemma depth_same rank b p q x :
  ranked_code rank b -> b !! p = Some x -> b !! q = Some x -> depth (S (rank p)) b p = depth (S (rank q)) b q.
Proof.
  intros Hb Hp Hq. cbn [depth]. rewrite Hp, Hq. do 2 f_equal. apply list_fmap_ext. intros i t Ht%list_elem_of_lookup_2.
  apply (depth_stable rank); [done|by apply (rc_lower _ _ Hb p x)|by apply (rc_lower _ _ Hb q x)].
Qed.

Lemma jump_map_elem f j j' t' : jump_map f j = Some j' -> t' ∈ jump_iter j' -> exists t, t ∈ jump_iter j /\ f t = Some t'.
Proof.
  intros Hj%jump_map_iter Ht. apply list_elem_of_lookup in Ht as [i Hi]. destruct (Forall2_lookup_r _ _ _ _ _ Hj Hi) as (t & Ht & Hf).
  exists t. split; [by eapply list_elem_of_lookup_2|done].
Qed.
Lemma jump_map_unreachable f j j' : jump_map f j = Some j' -> match j' with JUnreachable => true | _ => false end = match j with JUnreachable => true | _ => false end.
Proof.
  destruct j as [b|z nz|s md w|]; cbn [jump_map]; [| |by intros [= <-]..]; [destruct (f b); [by intros [= <-]|done]|].
  destruct (f z); [|done]. cbn [mbind option_bind]. destruct (f nz); [by intros [= <-]|done].
Qed.

Lemma merge_ranked rank b :
  ranked_code rank b -> exists b', merge_identical_blocks b = Some b' /\ length b' = length b /\ exists rank', ranked_code rank' b'.
Proof.
  intros Hb. unfold merge_identical_blocks. case_bool_decide as Hsame; [exists b; split; [done|]; split; [done|by exists rank]|].
  destruct (identical_blocks_spec b) as [Hlen Hspec]. set (f := fun x : nat * LirBlock => _).
  assert (is_Some (mapM_list f (imap pair b))) as [b' Hb'].
  { apply mapM_list_total, list.Forall_forall. intros [i x] Hin. apply elem_of_lookup_imap in Hin as (i' & y & [= -> ->] & Hy). cbn. unfold f. cbn [fst snd].
    destruct (lookup_lt_is_Some_2 (identical_blocks b) i') as [j ->]; [rewrite Hlen; by apply lookup_lt_Some in Hy|]. cbn [mbind option_bind].
    case_decide; [|by eexists]. apply block_map_total, list.Forall_forall. intros t Ht. destruct (rc_closed _ _ Hb i' y t Hy Ht) as (z & Hz & _).
    apply lookup_lt_is_Some_2. rewrite Hlen. by apply lookup_lt_Some in Hz. }
  exists b'. split; [done|]. destruct (mapM_list_lookup _ _ _ Hb') as [Hl Hget]. rewrite length_imap in Hl. split; [done|].
  assert (forall p x', b' !! p = Some x' -> x' = block_default \/ exists x, b !! p = Some x /\ identical_blocks b !! p = Some p
    /\ block_map (fun n => identical_blocks b !! n) x = Some x') as Hb'p.
  { intros p x' Hp. destruct (lookup_lt_is_Some_2 b p) as [x Hx]; [rewrite <- Hl; by apply lookup_lt_Some in Hp|].
    destruct (Hget p (p, x)) as (y & Hy & Hf); [by rewrite list_lookup_imap, Hx|]. assert (y = x') as -> by congruence. unfold f in Hf. cbn [fst snd] in Hf.
    destruct (identical_blocks b !! p) as [j|]; [|done]. cbn [mbind option_bind] in Hf. case_decide as Hj; [|left; by injection Hf as <-].
    right. exists x. by subst j. }
  assert (forall p x' t', b' !! p = Some x' -> t' ∈ jump_iter (l_next x') -> exists x t y, b !! p = Some x /\ t ∈ jump_iter (l_next x) /\ b !! t = Some y
    /\ b !! t' = Some y /\ unreachable y = false /\ identical_blocks b !! t' = Some t') as Htarget.
  { intros p x' t' Hp Ht. destruct (Hb'p p x' Hp) as [->|(x & Hx & _ & Hm)]; [by apply elem_of_nil in Ht|]. unfold block_map in Hm.
    destruct (jump_map _ (l_next x)) as [j|] eqn:Ej; [|done]. injection Hm as <-. destruct (jump_map_elem _ _ _ _ Ej Ht) as (t & Htx & Hft).
    destruct (rc_closed _ _ Hb p x t Hx Htx) as (y & Hy & Hu). destruct (Hspec t t' Hft) as (Hs & Hs' & _). exists x, t, y. by rewrite Hs. }
  exists (fun p => depth (S (rank p)) b p). split.
  - intros p x' t' Hp Ht. destruct (Htarget p x' t' Hp Ht) as (x & t & y & Hx & Htx & Hy & Hy' & _ & _).
    rewrite (depth_same rank b t' t y Hb Hy' Hy). by apply (depth_step rank b p x t).
  - intros p x' t' Hp Ht. destruct (Htarget p x' t' Hp Ht) as (x & t & y & _ & _ & _ & Hy' & Hu & Hid).
    destruct (Hget t' (t', y)) as (z & Hz & Hf); [by rewrite list_lookup_imap, Hy'|]. exists z. split; [done|]. unfold f in Hf. cbn [fst snd] in Hf.
    rewrite Hid in Hf. cbn [mbind option_bind] in Hf. rewrite decide_True in Hf by done. unfold block_map in Hf.
    destruct (jump_map _ (l_next y)) as [j|] eqn:Ej; [|done]. injection Hf as <-. unfold unreachable in *. cbn [l_next]. by rewrite (jump_map_unreachable _ _ _ Ej).
Qed.

Lemma concat_jump_ranked rank entries b i :
  ranked_code rank b -> (i < length b)%nat -> length entries = length b -> counted entries b ->
  exists c b', concat_jump entries b i = Some (c, b') /\ ranked_code rank b'.
Proof.
  intros Hb Hi Hlen Hc. assert (is_Some (concat_jump entries b i)) as [[c b'] E].
  { unfold concat_jump. destruct (lookup_lt_is_Some_2 b i Hi) as [x Hx]. rewrite Hx. cbn [mbind option_bind]. destruct (l_next x) as [j|z nz|s md w|] eqn:En; try by eexists.
    assert (j ∈ jump_iter (l_next x)) as Hj by (rewrite En; by left). destruct (rc_closed _ _ Hb i x j Hx Hj) as (y & Hy & _).
    destruct (lookup_lt_is_Some_2 entries j) as [n ->]; [rewrite Hlen; by apply lookup_lt_Some in Hy|]. cbn [mbind option_bind]. destruct (n =? 1)%nat; [|by eexists].
    rewrite (proj2 (Nat.eqb_neq i j)); [|intros <-; pose proof (rc_lower _ _ Hb i x i Hx Hj); lia]. cbn [negb assert mbind option_bind]. rewrite Hy. by eexists. }
  exists c, b'. split; [done|]. apply concat_jump_cases in E as [->|(lhs & j & rhs & Hl & Hnext & Hj & Hij & Hn & ->)]; [done|].
  assert (j ∈ jump_iter (l_next lhs)) as Hjl by (rewrite Hnext; by left). destruct (own_next lhs j Hnext) as [Hown _].
  pose proof (Hc j 1%nat Hn) as Hcount.
  set (b' := <[j := _]> _). assert (forall p x t, b' !! p = Some x -> t ∈ jump_iter (l_next x) ->
    exists q y, b !! q = Some y /\ t ∈ jump_iter (l_next y) /\ (rank q <= rank p)%nat /\ q <> i) as Hsrc.
  { intros p x t Hp Ht. unfold b' in Hp. destruct (decide (p = j)) as [->|Hpj].
    - rewrite list_lookup_insert_eq in Hp by (rewrite length_insert; by apply lookup_lt_Some in Hj). injection Hp as <-. by apply elem_of_nil in Ht.
    - rewrite list_lookup_insert_ne in Hp by done. destruct (decide (p = i)) as [->|Hpi].
      + rewrite list_lookup_insert_eq in Hp by done. injection Hp as <-. exists j, rhs. repeat split; try done.
        pose proof (rc_lower _ _ Hb i lhs j Hl Hjl). lia.
      + rewrite list_lookup_insert_ne in Hp by done. by exists p, x. }
  split.
  - intros p x t Hp Ht. destruct (Hsrc p x t Hp Ht) as (q & y & Hq & Hty & Hle & _). pose proof (rc_lower _ _ Hb q y t Hq Hty). lia.
  - intros p x t Hp Ht. destruct (Hsrc p x t Hp Ht) as (q & y & Hq & Hty & _ & Hqi). destruct (rc_closed _ _ Hb q y t Hq Hty) as (z & Hz & Hu).
    assert (t <> j) as Htj.
    { intros ->. pose proof (refs_own2 b i q lhs y j Hl Hq Hqi). apply (own_zero y j); [|done]. lia. }
    unfold b'. rewrite list_lookup_insert_ne by done. destruct (decide (t = i)) as [->|Hti].
    + rewrite list_lookup_insert_eq by done. eexists. split; [done|]. unfold unreachable. cbn [l_next].
      destruct (rc_closed _ _ Hb i lhs j Hl Hjl) as (r & Hr & Hur). assert (r = rhs) as -> by congruence. exact Hur.
    + rewrite list_lookup_insert_ne by done. by exists z.
Qed.

Lemma concat_all_ranked rank entries c b ids :
  ranked_code rank b -> Forall (fun i => i < length b)%nat ids -> length entries = length b -> counted entries b ->
  exists c' b', concat_all entries c b ids = Some (c', b') /\ ranked_code rank b' /\ length b' = length b.
Proof.
  intros Hb Hids. revert c b Hb Hids. induction ids as [|i ids IH]; intros c b Hb Hids Hlen Hc; [by exists c, b|]. apply list.Forall_cons in Hids as [Hi Hids].
  cbn [concat_all]. destruct (concat_jump_ranked rank entries b i Hb Hi Hlen Hc) as (c1 & b1 & E & Hb1). rewrite E. cbn [mbind option_bind].
  destruct (concat_jump_counted _ _ _ _ _ Hc E) as [Hc1 Hl1].
  destruct (IH (c || c1) b1) as (c' & b' & E' & Hb' & Hl'); [done|by rewrite Hl1|congruence|done|]. exists c', b'. split; [done|]. split; [done|congruence].
Qed.

(** The old numbers of the blocks that stay. *)
Fixpoint origins (n : nat) (b : list LirBlock) : list nat :=
  match b with
  | [] => []
  | x :: b => if unreachable x then origins (S n) b else n :: origins (S n) b
  end.
Lemma origins_remap n k b i i' x :
  block_remap k b !! i = Some i' -> b !! i = Some x -> unreachable x = false -> (k <= i')%nat /\ origins n b !! (i' - k)%nat = Some (n + i)%nat.
Proof.
  revert n k i. induction b as [|y b IH]; intros n k [|i]; cbn [block_remap origins]; [done..| |].
  - intros H [= ->] Hu. rewrite Hu in H |- *. injection H as <-. rewrite Nat.sub_diag, Nat.add_0_r. by split.
  - intros H Hx Hu. cbn in Hx. destruct (unreachable y) eqn:Ey; cbn in H.
    + destruct (IH (S n) k i H Hx Hu) as [Hk Ho]. split; [done|]. rewrite Ho. f_equal. lia.
    + destruct (IH (S n) (S k) i H Hx Hu) as [Hk Ho]. split; [lia|]. replace (i' - k)%nat with (S (i' - S k)) by lia.
      transitivity (origins (S n) b !! (i' - S k)%nat); [done|]. rewrite Ho. f_equal. lia.
Qed.
Lemma origins_filter n b i x :
  filter (fun x => unreachable x = false) b !! i = Some x -> exists p, origins n b !! i = Some (n + p)%nat /\ b !! p = Some x /\ unreachable x = false.
Proof.
  revert n i. induction b as [|y b IH]; intros n i; [done|]. cbn [origins]. destruct (unreachable y) eqn:Ey.
  - rewrite filter_cons_False by congruence. intros H. destruct (IH (S n) i H) as (p & Ho & Hp & Hu). exists (S p). rewrite Ho. split; [f_equal; lia|done].
  - rewrite filter_cons_True by done. destruct i as [|i]; cbn.
    + intros [= ->]. exists 0%nat. rewrite Nat.add_0_r. done.
    + intros H. destruct (IH (S n) i H) as (p & Ho & Hp & Hu). exists (S p). split; [|done]. transitivity (origins (S n) b !! i); [done|]. rewrite Ho. f_equal. lia.
Qed.
Lemma length_block_remap n b : length (block_remap n b) = length b.
Proof. revert n. induction b as [|x b IH]; intros n; [done|]. cbn [block_remap]. destruct (unreachable x); cbn; by rewrite IH. Qed.

Lemma prune_ranked rank b : ranked_code rank b -> exists b', prune_unreachable_blocks b = Some b' /\ exists rank', ranked_code rank' b'.
Proof.
  intros Hb. unfold prune_unreachable_blocks. set (kept := filter _ b). set (f := fun i => block_remap 0 b !! i).
  assert (forall i x, kept !! i = Some x -> exists p, origins 0 b !! i = Some p /\ b !! p = Some x /\ unreachable x = false) as Hkept.
  { intros i x Hx. apply (origins_filter 0 b i x Hx). }
  assert (is_Some (mapM_list (block_map f) kept)) as [b' Hb'].
  { apply mapM_list_total, list.Forall_forall. intros x [i Hi]%list_elem_of_lookup. destruct (Hkept i x Hi) as (p & _ & Hp & _).
    apply block_map_total, list.Forall_forall. intros t Ht. destruct (rc_closed _ _ Hb p x t Hp Ht) as (z & Hz & _). apply lookup_lt_is_Some_2.
    rewrite length_block_remap. by apply lookup_lt_Some in Hz. }
  exists b'. split; [done|]. destruct (mapM_list_lookup _ _ _ Hb') as [Hl Hget].
  assert (forall i x' t', b' !! i = Some x' -> t' ∈ jump_iter (l_next x') -> exists p x t y, origins 0 b !! i = Some p /\ b !! p = Some x /\ t ∈ jump_iter (l_next x)
    /\ b !! t = Some y /\ unreachable y = false /\ origins 0 b !! t' = Some t /\ kept !! t' = Some y) as Htarget.
  { intros i x' t' Hx' Ht. destruct (lookup_lt_is_Some_2 kept i) as [x Hx]; [rewrite <- Hl; by apply lookup_lt_Some in Hx'|].
    destruct (Hget i x Hx) as (z & Hz & Hm). assert (z = x') as -> by congruence. destruct (Hkept i x Hx) as (p & Ho & Hp & _). unfold block_map in Hm.
    destruct (jump_map f (l_next x)) as [j|] eqn:Ej; [|done]. injection Hm as <-. destruct (jump_map_elem _ _ _ _ Ej Ht) as (t & Htx & Hft).
    destruct (rc_closed _ _ Hb p x t Hp Htx) as (y & Hy & Hu). exists p, x, t, y. destruct (origins_remap 0 0 b t t' y Hft Hy Hu) as [_ Ho'].
    destruct (block_remap_filter 0 b t t' y Hft Hy Hu) as [_ Hf]. rewrite Nat.sub_0_r in Ho', Hf. done. }
  exists (fun i => rank (default 0%nat (origins 0 b !! i))). split.
  - intros i x' t' Hx' Ht. destruct (Htarget i x' t' Hx' Ht) as (p & x & t & y & -> & Hp & Htx & _ & _ & -> & _). by apply (rc_lower _ _ Hb p x).
  - intros i x' t' Hx' Ht. destruct (Htarget i x' t' Hx' Ht) as (p & x & t & y & _ & _ & _ & _ & Hu & _ & Hy). destruct (Hget t' y Hy) as (z & Hz & Hm).
    exists z. split; [done|]. unfold block_map in Hm. destruct (jump_map f (l_next y)) as [j|] eqn:Ej; [|done]. injection Hm as <-. unfold unreachable in *. cbn [l_next].
    by rewrite (jump_map_unreachable _ _ _ Ej).
Qed.

Lemma prune_length b b' : prune_unreachable_blocks b = Some b' -> (length b' <= length b)%nat.
Proof. intros H. destruct (mapM_list_lookup _ _ _ H) as [-> _]. apply length_filter. Qed.

Lemma optimize_blocks_ranked rank b :
  ranked_code rank b -> (0 < length b)%nat -> exists b', optimize_blocks b = Some b' /\ (length b' <= length b)%nat /\ exists rank', ranked_code rank' b'.
Proof.
  intros Hb Hne. unfold optimize_blocks. rewrite (proj2 (Nat.ltb_lt _ _) Hne). cbn [assert mbind option_bind].
  destruct (merge_ranked rank b Hb) as (b1 & -> & Hl1 & rank1 & Hb1). cbn [mbind option_bind].
  assert (forallb (fun x => forallb (fun i => (i <? length b1)%nat) (jump_iter (l_next x))) b1 = true) as ->.
  { apply forallb_forall. intros x Hx%list_elem_of_In. apply forallb_forall. intros t Ht%list_elem_of_In. apply list_elem_of_lookup in Hx as [i Hi].
    destruct (rc_closed _ _ Hb1 i x t Hi Ht) as (y & Hy & _). by apply Nat.ltb_lt, lookup_lt_Some in Hy || (apply Nat.ltb_lt; by apply lookup_lt_Some in Hy). }
  cbn [assert mbind option_bind]. unfold concat_jumps.
  assert (length (num_entries b1) = length b1) as Hln.
  { unfold num_entries. assert (forall l e, length (foldl (fun n i => alter S i n) e l) = length e) as ->.
    { induction l as [|i l IH]; intros e; [done|]. cbn [foldl]. by rewrite IH, length_alter. }
    by rewrite length_insert, length_replicate. }
  destruct (concat_all_ranked rank1 (num_entries b1) false b1 (seq 0 (length b1)) Hb1) as (c & b2 & -> & Hb2 & Hl2).
  { apply list.Forall_forall. intros i Hi%elem_of_seq. lia. }
  { done. }
  { intros k n Hk. by rewrite (num_entries_spec b1 k n Hk). }
  cbn [mbind option_bind]. destruct (prune_ranked rank1 b2 Hb2) as (b3 & E3 & rank3 & Hb3). rewrite E3. cbn [mbind option_bind]. apply prune_length in E3.
  destruct c; [|exists b3; split; [done|]; split; [lia|by exists rank3]]. destruct (merge_ranked rank3 b3 Hb3) as (b4 & -> & Hl4 & rank4 & Hb4). cbn [mbind option_bind].
  destruct (prune_ranked rank4 b4 Hb4) as (b5 & E5 & rank5 & Hb5). rewrite E5. apply prune_length in E5. exists b5. split; [done|]. split; [lia|by exists rank5].
Qed.
Lemma optimize_blocks_total rank b : ranked_code rank b -> (0 < length b)%nat -> is_Some (optimize_blocks b).
Proof. intros Hb Hne. destruct (optimize_blocks_ranked rank b Hb Hne) as (b' & H & _). by exists b'. Qed.
