(* ===== verification/LirFlow.v ===== *)
(** * What the analyses of lower-level code say

    [max_ops_executed] and [get_unassigned_defs] of
    [sem86-core/src/codegen/lir/mod.rs]: how long a run can be, and which
    definitions are read before they are set. *)
From stdpp Require Import gmap sorting.
From S2P Require Import Prelude Exceptions IlOps Arch MemArea IlCmd Scc ValTree CpuBytes Mir Lir LirOpt.

(** ** The order of the blocks *)

Definition code_acyclic (rank : nat -> nat) (b : list LirBlock) : Prop := Z.of_nat (length b) < 2 ^ 32 /\ ranked_code rank b.
Definition code_fuel (b : list LirBlock) : nat := scc_fuel (length b) (lir_transitions b).

Lemma code_order rank b sfuel :
  code_acyclic rank b -> (code_fuel b <= sfuel)%nat ->
  exists order, Scc.iterate (length b) (lir_transitions b) sfuel = Some ((fun v => [v]) <$> order) /\ order ≡ₚ seq 0 (length b)
    /\ forall i p x t, order !! i = Some p -> b !! p = Some x -> t ∈ jump_iter (l_next x) -> exists j, (j < i)%nat /\ order !! j = Some t.
Proof.
  intros [Hs Hb] Hf. destruct (iterate_singles (length b) (lir_transitions b) rank sfuel) as (order & Hrun & Hperm & Hord); [split; [done| |]|done|].
  - intros v Hv. unfold lir_transitions. destruct (lookup_lt_is_Some_2 b v Hv) as [x ->]. by eexists.
  - intros v ts w Hts Hw. unfold lir_transitions in Hts. destruct (b !! v) as [x|] eqn:Hx; [|done]. injection Hts as <-.
    destruct (rc_closed _ _ Hb v x w Hx Hw) as (y & Hy & _). split; [by apply lookup_lt_Some in Hy|by apply (rc_lower _ _ Hb v x)].
  - exists order. split; [done|]. split; [done|]. intros i p x t Hi Hx Ht. apply (Hord i p (jump_iter (l_next x)) t Hi); [|done].
    unfold lir_transitions. by rewrite Hx.
Qed.

(** A table that is filled in this order by [fill]. *)
Section table.
Context {T : Type} (b : list LirBlock) (init : T) (fill : LirBlock -> list T -> T).

Definition fill_at (table : list T) (i : nat) : option (list T) :=
  block ← b !! i;
  next ← mapM_list (fun n => table !! n) (jump_iter (l_next block));
  Some (<[i := fill block next]> table).
Fixpoint fill_all (components : list (list nat)) (table : list T) : option (list T) :=
  match components with
  | [] => Some table
  | [i] :: components => table ← fill_at table i; fill_all components table
  | _ :: _ => None
  end.

Definition filled (table : list T) (p : nat) : Prop :=
  forall x, b !! p = Some x -> exists next, Forall2 (fun t n => table !! t = Some n) (jump_iter (l_next x)) next /\ table !! p = Some (fill x next).

Definition targets_before (l : list nat) : Prop :=
  forall i p x t, l !! i = Some p -> b !! p = Some x -> t ∈ jump_iter (l_next x) -> exists j, (j < i)%nat /\ l !! j = Some t.

Lemma mapM_list_Forall2 {A B} (f : A -> option B) l r : mapM_list f l = Some r -> Forall2 (fun x y => f x = Some y) l r.
Proof.
  intros [Hl Hi]%mapM_list_lookup. apply Forall2_same_length_lookup_2; [done|]. intros i x y Hx Hy. destruct (Hi i x Hx) as (y' & Hy' & Hf). congruence.
Qed.

Lemma fill_all_spec order done table :
  length table = length b -> NoDup (done ++ order) -> Forall (filled table) done -> Forall (fun p => p < length b)%nat (done ++ order) -> targets_before (done ++ order) ->
  exists table', fill_all ((fun v => [v]) <$> order) table = Some table' /\ length table' = length b /\ Forall (filled table') (done ++ order).
Proof.
  revert done table. induction order as [|p order IH]; intros done table Hlen Hnd Hdone Hlt Hord; [exists table; by rewrite app_nil_r|].
  assert (forall q x t, q ∈ p :: done -> b !! q = Some x -> t ∈ jump_iter (l_next x) -> t ∈ done) as Hclosed.
  { intros q x t Hq Hx Ht. assert (exists i, (i <= length done)%nat /\ (done ++ p :: order) !! i = Some q) as (i & Hi & Hqi).
    { apply elem_of_cons in Hq as [->|[i Hi]%list_elem_of_lookup].
      - exists (length done). by rewrite lookup_app_r, Nat.sub_diag by lia.
      - exists i. pose proof (lookup_lt_Some _ _ _ Hi). split; [lia|]. by rewrite lookup_app_l. }
    destruct (Hord i q x t Hqi Hx Ht) as (j & Hj & Hjt). rewrite lookup_app_l in Hjt by lia. by eapply list_elem_of_lookup_2. }
  pose proof Hlt as Hlt'. rewrite list.Forall_forall in Hlt. assert (p < length b)%nat as Hp by (apply Hlt, elem_of_app; right; by left).
  cbn [fmap list_fmap fill_all]. destruct (lookup_lt_is_Some_2 b p Hp) as [x Hx].
  assert (p ∉ done) as Hpd by (apply list.NoDup_app in Hnd as (_ & Hnd & _); intros Hpd; apply (Hnd p Hpd); by left).
  assert (is_Some (mapM_list (fun n => table !! n) (jump_iter (l_next x)))) as [next Hnext].
  { apply mapM_list_total, list.Forall_forall. intros t Ht. apply lookup_lt_is_Some_2. rewrite Hlen. apply Hlt, elem_of_app. left. by apply (Hclosed p x t); [left|..]. }
  unfold fill_at. rewrite Hx. cbn [mbind option_bind]. rewrite Hnext. cbn [mbind option_bind].
  replace (done ++ p :: order) with ((done ++ [p]) ++ order) in * by (by rewrite <- app_assoc).
  assert (forall v q y next, q ∈ p :: done -> b !! q = Some y -> Forall2 (fun t n => table !! t = Some n) (jump_iter (l_next y)) next ->
    Forall2 (fun t n => <[p:=v]> table !! t = Some n) (jump_iter (l_next y)) next) as Hkeep.
  { intros v q y n Hq Hy H. apply Forall2_same_length_lookup_2; [by apply Forall2_length in H|]. intros i t m Ht Hm.
    destruct (Forall2_lookup_l _ _ _ _ _ H Ht) as (m' & Hm' & Htm). rewrite list_lookup_insert_ne; [congruence|]. intros <-. apply Hpd, (Hclosed q y p Hq Hy).
    by eapply list_elem_of_lookup_2. }
  apply IH; [by rewrite length_insert|done| |done|done]. apply Forall_app. split.
  - apply list.Forall_forall. intros q Hq y Hy. rewrite list.Forall_forall in Hdone. destruct (Hdone q Hq y Hy) as (n & Hn & Hqn). exists n.
    split; [by apply (Hkeep _ q y n); [right|..]|]. rewrite list_lookup_insert_ne; [done|]. by intros ->.
  - apply list.Forall_singleton. intros y Hy. assert (y = x) as -> by congruence. exists next.
    split; [apply (Hkeep _ p x next); [by left|done|by apply mapM_list_Forall2]|]. apply list_lookup_insert_eq. by rewrite Hlen.
Qed.

Lemma fill_table rank sfuel :
  code_acyclic rank b -> (code_fuel b <= sfuel)%nat ->
  exists components table, Scc.iterate (length b) (lir_transitions b) sfuel = Some components /\ fill_all components (replicate (length b) init) = Some table
    /\ length table = length b /\ forall p, (p < length b)%nat -> filled table p.
Proof.
  intros Hb Hf. destruct (code_order rank b sfuel Hb Hf) as (order & Hrun & Hperm & Hord).
  assert (forall p, p ∈ order <-> (p < length b)%nat) as Hin by (intros p; rewrite Hperm, elem_of_seq; lia).
  destruct (fill_all_spec order [] (replicate (length b) init)) as (table & Ht & Hl & Hall); [by rewrite length_replicate|cbn; rewrite Hperm; apply NoDup_seq|done| |done|].
  { apply list.Forall_forall. intros p. apply Hin. }
  exists ((fun v => [v]) <$> order), table. split; [done|]. split; [done|]. split; [done|]. intros p Hp. rewrite list.Forall_forall in Hall. by apply Hall, Hin.
Qed.
End table.

(** ** The length of a run *)

Lemma depths_of_fill b components table :
  depths_of b components table = fill_all b (fun x next => length (operations x) + max_list next)%nat components table.
Proof.
  revert table. induction components as [|[|i [|j c]] components IH]; intros table; [done..| |done]. cbn [depths_of fill_all].
  change (depth_of b table i) with (fill_at b (fun x next => length (operations x) + max_list next)%nat table i). destruct (fill_at _ _ _ _); [apply IH|done].
Qed.

Section run.
Context {W : Type} `{ctx : ExecCtx W} `{sf : SoftFloat} `{lay : Layout}.
Abbreviation mach := (Machine W).

(** A run with the number of operations it executes. *)
Fixpoint counted_from (fuel : nat) (l : Lir) (b : BlockId) (m : mach) : option (nat * Exit) :=
  match fuel with
  | O => None
  | S fuel =>
      block ← blocks l !! b;
      r ← execute_block l block m;
      match r with
      | inl (b, m) => '(n, e) ← counted_from fuel l b m; Some ((length (operations block) + n)%nat, e)
      | inr e => Some (length (operations block), e)
      end
  end.
Lemma counted_run n l b (m : mach) : snd <$> counted_from n l b m = execute_from n l b m.
Proof.
  revert b m. induction n as [|n IH]; intros b m; [done|]. cbn [counted_from execute_from]. destruct (blocks l !! b) as [x|]; [|done]. cbn [mbind option_bind].
  destruct (execute_block l x m) as [[[b1 m1]|e]|]; [|done..]. cbn [mbind option_bind]. rewrite <- IH. by destruct (counted_from n l b1 m1) as [[c e]|].
Qed.

Lemma block_target l x (m : mach) k m' : execute_block l x m = Some (inl (k, m')) -> k ∈ jump_iter (l_next x).
Proof.
  unfold execute_block. destruct (execute_ops l (operations x) [] m) as [[st m1]|]; [|done]. cbn [mbind option_bind fst snd]. apply jump_target.
Qed.

Lemma ops_bounded rank sfuel l :
  code_acyclic rank (blocks l) -> (code_fuel (blocks l) <= sfuel)%nat -> (0 < length (blocks l))%nat ->
  exists d, max_ops_executed sfuel l = Some d /\ forall n (m : mach) c e, counted_from n l 0 m = Some (c, e) -> (c <= d)%nat.
Proof.
  intros Hb Hf Hne. unfold max_ops_executed.
  destruct (fill_table (blocks l) 0%nat (fun x next => length (operations x) + max_list next)%nat rank sfuel Hb Hf) as (components & table & -> & Ht & Hl & Hfill).
  cbn [mbind option_bind]. rewrite depths_of_fill, Ht. cbn [mbind option_bind]. destruct (lookup_lt_is_Some_2 table 0) as [d Hd]; [by rewrite Hl|].
  exists d. split; [done|].
  assert (forall n p dp (m : mach) c e, table !! p = Some dp -> counted_from n l p m = Some (c, e) -> (c <= dp)%nat) as Hall; [|intros n m c e; by apply Hall].
  induction n as [|n IH]; intros p dp m c e Hp; [done|]. cbn [counted_from]. destruct (blocks l !! p) as [x|] eqn:Hx; [|done]. cbn [mbind option_bind].
  destruct (Hfill p ltac:(by apply lookup_lt_Some in Hx) x Hx) as (next & Hnext & Hpx). rewrite Hpx in Hp. injection Hp as <-.
  destruct (execute_block l x m) as [[[k m1]|e1]|] eqn:Er; [| |done]; cbn [mbind option_bind]; [|intros [= <- _]; lia].
  destruct (counted_from n l k m1) as [[c1 e1]|] eqn:Ec; [|done]. cbn [mbind option_bind]. intros [= <- _]. apply block_target in Er.
  apply list_elem_of_lookup in Er as [i Hi]. destruct (Forall2_lookup_l _ _ _ _ _ Hnext Hi) as (dk & Hdk & Hk). pose proof (IH k dk m1 c1 e1 Hk Ec).
  pose proof (max_list_elem_of_le dk next ltac:(by eapply list_elem_of_lookup_2)). lia.
Qed.

(** ** Definitions that are read before they are set *)

(** Machines that differ only in variables outside of [R]. *)
Record agree (R : list DefId) (m m' : mach) : Prop := {
  ag_vars : forall d, d ∈ R -> m_vars m d = m_vars m' d;
  ag_cpu : m_cpu m = m_cpu m';
  ag_k : m_k m = m_k m';
  ag_world : m_world m = m_world m';
  ag_result : m_result m = m_result m';
}.
Lemma agree_subset R R' m m' : (forall d, d ∈ R' -> d ∈ R) -> agree R m m' -> agree R' m m'.
Proof. intros H [H1 H2 H3 H4 H5]. split; auto. Qed.

Definition same_step (R : list DefId) : option (list Z * mach) -> option (list Z * mach) -> Prop :=
  option_Forall2 (fun r r' => r.1 = r'.1 /\ agree R r.2 r'.2).

Lemma same_some R st m m' : agree R m m' -> same_step R (Some (st, m)) (Some (st, m')).
Proof. intros H. by constructor. Qed.
Lemma same_bind {A} R (o : option A) (k k' : A -> option (list Z * mach)) :
  (forall x, o = Some x -> same_step R (k x) (k' x)) -> same_step R (x ← o; k x) (x ← o; k' x).
Proof. intros H. destruct o as [x|]; [by apply H|constructor]. Qed.

Lemma ptr_agree R m m' ptr offset size : agree R m m' -> read_ptr m ptr offset size = read_ptr m' ptr offset size.
Proof. intros [_ H1 H2 _ _]. unfold read_ptr, ptr_byte. by rewrite H1, H2. Qed.
Lemma write_agree R m m' ptr offset size v : agree R m m' -> agree R (write_ptr m ptr offset size v) (write_ptr m' ptr offset size v).
Proof. intros [H1 H2 H3 H4 H5]. destruct ptr; split; cbn; try done; unfold ptr_byte; by rewrite ?H2, ?H3. Qed.
Lemma call_agree {A} R (f : comp W Exception A) n results st m m' : agree R m m' -> same_step R (call f n results st m) (call f n results st m').
Proof.
  intros Ha. pose proof Ha as [H1 H2 H3 H4 H5]. unfold call. rewrite H4. apply same_bind. intros [r w] _. destruct r as [x|e]; [|apply same_bind; intros p _];
    (apply same_bind; intros st' _; apply same_some; by split).
Qed.

Lemma execute_op_agree R l op st m m' : agree (require R op) m m' -> same_step R (execute_op l op st m) (execute_op l op st m').
Proof.
  intros H. destruct (match op with LStore _ | LLoad _ => true | _ => false end) eqn:Ev.
  - destruct op; try done; cbn [require] in H.
    + cbn [execute_op]. apply same_bind. intros [] _. assert (d ∈ (if bool_decide (d ∈ R) then R else R ++ [d])) as Hd.
      { case_bool_decide; [done|]. apply elem_of_app. right. by left. }
      rewrite (ag_vars _ _ _ H d Hd). apply same_bind. intros st' _. apply same_some. apply (agree_subset _ R _ _) in H; [done|].
      intros y Hy. case_bool_decide; [done|]. apply elem_of_app. by left.
    + cbn [execute_op]. destruct st as [|v st]; [constructor|]. apply same_bind. intros [] _. apply same_some. destruct H as [H1 H2 H3 H4 H5]. split; cbn; try done.
      intros y Hy. destruct (decide (y = d)); [done|]. apply H1. by apply list_elem_of_filter.
  - assert (agree R m m') as Ha by (by destruct op). pose proof (ag_cpu _ _ _ Ha) as Hcpu. clear H.
    destruct op; try done; cbn [execute_op]; rewrite <- ?Hcpu; destruct st as [|a [|a' [|a'' st]]]; try (by constructor);
      rewrite <- ?(ptr_agree R m m') by done; try (by apply call_agree); try (apply same_some; by apply write_agree);
      repeat (apply same_bind; intros ? _); try by apply same_some.
    all: apply same_some; destruct Ha; by split.
Qed.

Lemma execute_ops_agree R l ops st m m' : agree (foldl require R (reverse ops)) m m' -> same_step R (execute_ops l ops st m) (execute_ops l ops st m').
Proof.
  revert st m m'. induction ops as [|op ops IH]; intros st m m'; [intros H; by apply same_some|]. rewrite reverse_cons, foldl_app. cbn [foldl execute_ops].
  intros H%(execute_op_agree _ l op st). destruct H as [[st1 m1] [st2 m2] [E Ha]|]; [|constructor]. cbn [fst snd] in *. subst st2. cbn [mbind option_bind fst snd]. by apply IH.
Qed.

Definition exit_agree (e e' : Exit) : Prop := e.1 = e'.1 /\ agree [] e.2 e'.2.

Lemma jump_machine j st (m m' : mach) :
  match execute_jump j st m with
  | Some (inl (k, m1)) => m1 = m /\ execute_jump j st m' = Some (inl (k, m'))
  | Some (inr (r, m1)) => m1 = m /\ execute_jump j st m' = Some (inr (r, m'))
  | None => execute_jump j st m' = None
  end.
Proof.
  unfold execute_jump. destruct (match j with JNext _ => _ | _ => _ end) as [[r st']|]; [|done]. cbn [mbind option_bind].
  destruct (assert _); [|done]. cbn [mbind option_bind]. by destruct r.
Qed.

Definition requirement_fill (x : LirBlock) (next : list (list DefId)) : list DefId :=
  foldl require (merge_sort Z.le (remove_dups (mjoin next))) (reverse (operations x)).
Lemma all_requirements_fill b components table : all_requirements b components table = fill_all b requirement_fill components table.
Proof.
  revert table. induction components as [|[|i [|j c]] components IH]; intros table; [done..| |done]. cbn [all_requirements fill_all].
  change (requirements_of b table i) with (fill_at b requirement_fill table i). destruct (fill_at _ _ _ _); [apply IH|done].
Qed.

Lemma run_agree l table n p R (m m' : mach) :
  (forall p, (p < length (blocks l))%nat -> filled (blocks l) requirement_fill table p) -> table !! p = Some R -> agree R m m' ->
  option_Forall2 exit_agree (execute_from n l p m) (execute_from n l p m').
Proof.
  intros Hfill. revert p R m m'. induction n as [|n IH]; intros p R m m' Hp Ha; [constructor|]. cbn [execute_from].
  destruct (blocks l !! p) as [x|] eqn:Hx; [|constructor]. cbn [mbind option_bind].
  destruct (Hfill p ltac:(by apply lookup_lt_Some in Hx) x Hx) as (next & Hnext & Hpx). rewrite Hpx in Hp. injection Hp as <-. unfold requirement_fill in Ha.
  unfold execute_block. apply (execute_ops_agree _ l _ []) in Ha. destruct Ha as [[st1 m1] [st2 m2] [E Ha]|]; [|constructor]. cbn [fst snd] in *. subst st2.
  cbn [mbind option_bind fst snd]. pose proof (jump_machine (l_next x) st1 m1 m2) as Hj. destruct (execute_jump (l_next x) st1 m1) as [[[k m3]|[r m3]]|] eqn:Ej.
  - destruct Hj as [-> ->]. cbn [mbind option_bind]. apply jump_target in Ej. apply list_elem_of_lookup in Ej as [i Hi].
    destruct (Forall2_lookup_l _ _ _ _ _ Hnext Hi) as (Rk & HRk & Hk). apply (IH k Rk); [done|]. apply (agree_subset (merge_sort Z.le (remove_dups (mjoin next)))); [|done].
    intros d Hin. rewrite merge_sort_Permutation. apply elem_of_remove_dups, list_elem_of_join. exists Rk. split; [done|]. by eapply list_elem_of_lookup_2.
  - destruct Hj as [-> ->]. cbn [mbind option_bind]. constructor. split; [done|]. apply (agree_subset _ [] _ _ ltac:(by intros d ?%elem_of_nil) Ha).
  - rewrite Hj. constructor.
Qed.

Lemma unassigned_run rank sfuel l :
  code_acyclic rank (blocks l) -> (code_fuel (blocks l) <= sfuel)%nat -> (0 < length (blocks l))%nat ->
  exists ds, get_unassigned_defs sfuel l = Some ds /\ forall n (m m' : mach), agree ds m m' -> option_Forall2 exit_agree (execute n l m) (execute n l m').
Proof.
  intros Hb Hf Hne. unfold get_unassigned_defs. destruct (fill_table (blocks l) [] requirement_fill rank sfuel Hb Hf) as (components & table & -> & Ht & Hl & Hfill).
  cbn [mbind option_bind]. rewrite all_requirements_fill, Ht. cbn [mbind option_bind]. destruct (lookup_lt_is_Some_2 table 0) as [ds Hds]; [by rewrite Hl|].
  exists ds. split; [done|]. intros n m m' Ha. unfold execute. destruct (assert _); [|constructor]. cbn [mbind option_bind]. by apply (run_agree l table n 0%nat ds).
Qed.
End run.
