(* ===== verification/LirLower.v ===== *)
(** * Lowering of basic blocks

    [LirBuilder] and [MirToLir] of [sem86-core/src/codegen/lir/mod.rs]: the
    values of every block become code for the stack machine.  A value that is
    used more than once is computed once, in the block that is the lowest
    common ancestor of its uses in the dominator tree, and kept in a
    definition. *)
From stdpp Require Import gmap sorting.
From S2P Require Import Prelude Exceptions IlOps Arch MemArea IlCmd Scc ValTree CpuBytes Mir BbOpt BbTree BbRun Dom Lir.

(** ** The builder *)

Record LirBuilder := {
  lb_consts : list Z;
  lb_const_map : gmap Z ConstId;
  lb_blocks : list LirBlock;
  lb_current : BlockId;
  lb_next_def : DefId;
}.
Definition lir_builder_new : LirBuilder :=
  {| lb_consts := []; lb_const_map := ∅; lb_blocks := [block_default]; lb_current := 0%nat; lb_next_def := 0 |}.

Definition lir_imm (v : Z) (b : LirBuilder) : ConstId * LirBuilder :=
  match lb_const_map b !! v with
  | Some id => (id, b)
  | None =>
      let id := length (lb_consts b) in
      (id, {| lb_consts := lb_consts b ++ [v]; lb_const_map := <[v := id]> (lb_const_map b); lb_blocks := lb_blocks b;
              lb_current := lb_current b; lb_next_def := lb_next_def b |})
  end.
Definition define_var (b : LirBuilder) : DefId * LirBuilder :=
  (lb_next_def b, {| lb_consts := lb_consts b; lb_const_map := lb_const_map b; lb_blocks := lb_blocks b;
                     lb_current := lb_current b; lb_next_def := lb_next_def b + 1 |}).
Definition with_lb_blocks (b : LirBuilder) (l : list LirBlock) : LirBuilder :=
  {| lb_consts := lb_consts b; lb_const_map := lb_const_map b; lb_blocks := l; lb_current := lb_current b; lb_next_def := lb_next_def b |}.

Definition lir_emit_many (ops : list LirOp) (b : LirBuilder) : option LirBuilder :=
  x ← lb_blocks b !! lb_current b;
  assert (unreachable x);;
  Some (with_lb_blocks b (<[lb_current b := {| operations := operations x ++ ops; l_next := l_next x |}]> (lb_blocks b))).
Definition lir_emit (op : LirOp) : LirBuilder -> option LirBuilder := lir_emit_many [op].
Definition seal_block (next : Jump) (b : LirBuilder) : option LirBuilder :=
  x ← lb_blocks b !! lb_current b;
  assert (unreachable x);;
  Some (with_lb_blocks b (<[lb_current b := {| operations := operations x; l_next := next |}]> (lb_blocks b))).
Definition lir_switch_to (next : BlockId) (b : LirBuilder) : LirBuilder :=
  {| lb_consts := lb_consts b; lb_const_map := lb_const_map b; lb_blocks := lb_blocks b; lb_current := next; lb_next_def := lb_next_def b |}.
Definition lir_create_block (b : LirBuilder) : BlockId * LirBuilder :=
  (length (lb_blocks b), with_lb_blocks b (lb_blocks b ++ [block_default])).
(** [LirBuilder::build], up to [optimize]. *)
Definition unoptimized (b : LirBuilder) : Lir := {| consts := lb_consts b; blocks := lb_blocks b; num_defs := lb_next_def b |}.

(** ** Emission of values *)

Record Lower := {
  lw_builder : LirBuilder;
  value_defs : list (option DefId);
  var_defs : gmap VarId DefId;
}.
Definition with_builder (s : Lower) (b : LirBuilder) : Lower := {| lw_builder := b; value_defs := value_defs s; var_defs := var_defs s |}.
Definition emit (op : LirOp) (s : Lower) : option Lower := b ← lir_emit op (lw_builder s); Some (with_builder s b).
Definition seal (next : Jump) (s : Lower) : option Lower := b ← seal_block next (lw_builder s); Some (with_builder s b).
Definition intern (v : Z) (s : Lower) : ConstId * Lower := let (id, b) := lir_imm v (lw_builder s) in (id, with_builder s b).

Definition get_var (x : VarId) (s : Lower) : DefId * Lower :=
  match var_defs s !! x with
  | Some d => (d, s)
  | None => let (d, b) := define_var (lw_builder s) in (d, {| lw_builder := b; value_defs := value_defs s; var_defs := <[x := d]> (var_defs s) |})
  end.

Section lower.
Context (t : list ValNode).

(** [emit_value_nodef]; [arg] is [emit_value]. *)
Fixpoint emit_value_nodef (fuel : nat) (v : ValId) (s : Lower) : option Lower :=
  match fuel with
  | O => None
  | S fuel =>
      let arg (v : ValId) (s : Lower) :=
        def ← value_defs s !! v;
        match def with Some d => emit (LLoad d) s | None => emit_value_nodef fuel v s end in
      n ← t !! v;
      match n with
      | NConst c => let (id, s) := intern c s in emit (LConst id) s
      | NVar x => let (d, s) := get_var x s in emit (LLoad d) s
      | NBinOp op lhs rhs => s ← arg lhs s; s ← arg rhs s; emit (LBinOp op) s
      | NFpBinOp op lhs rhs rc => s ← arg lhs s; s ← arg rhs s; s ← arg rc s; emit (LFpBinOp op) s
      | NFpUnOp op v rc => s ← arg v s; s ← arg rc s; emit (LFpUnOp op) s
      | NBlend lhs rhs mask => s ← arg lhs s; s ← arg rhs s; let (id, s) := intern mask s in emit (LBlend id) s
      | NExtract v skip take => s ← arg v s; emit (LExtract skip take) s
      | NUnOp op v => s ← arg v s; emit (LUnOp op) s
      | NIte cond if_zero if_nonzero => s ← arg if_nonzero s; s ← arg if_zero s; s ← arg cond s; emit LIte s
      | NLoadPtr ptr offset size => s ← arg offset s; emit (LLoadPtrWithOffset ptr size) s
      | NLoadPtrImm ptr offset size => emit (LLoadPtrImm ptr size offset) s
      | NInstrLen => emit LInstrLen s
      | NPartValues => emit LPartValues s
      end
  end.
Definition emit_value (fuel : nat) (v : ValId) (s : Lower) : option Lower :=
  def ← value_defs s !! v;
  match def with Some d => emit (LLoad d) s | None => emit_value_nodef fuel v s end.
Definition define_value (fuel : nat) (v : ValId) (s : Lower) : option Lower :=
  s ← emit_value_nodef fuel v s;
  def ← value_defs s !! v;
  d ← def;
  emit (LStore d) s.

Fixpoint each {A} (f : A -> Lower -> option Lower) (l : list A) (s : Lower) : option Lower :=
  match l with
  | [] => Some s
  | x :: l => s ← f x s; each f l s
  end.

(** ** Emission of blocks *)

Definition commit_value (fuel : nat) (x : CommitDest * ValId) (s : Lower) : option Lower :=
  s ← match x.1 with CDynamic _ offset => emit_value fuel offset s | _ => Some s end;
  emit_value fuel x.2 s.
Definition commit_op `{Layout} (d : CommitDest) : option LirOp :=
  match d with
  | CReg r =>
      size ← try_from_bits (8 * byte_size r);
      assert (byte_offset_of r <? 2 ^ 16);;
      Some (LStorePtrImm CpuState size (byte_offset_of r))
  | CFixed size offset => Some (LStorePtrImm CpuState size offset)
  | CDynamic size _ => Some (LStorePtrWithOffset CpuState size)
  end.
Definition commit `{Layout} (fuel : nat) (values : list (CommitDest * ValId)) (s : Lower) : option Lower :=
  s ← each (commit_value fuel) (reverse values) s;
  each (fun x s => op ← commit_op x.1; emit op s) values s.

Definition store_var (x : VarId) (s : Lower) : option Lower := let (d, s) := get_var x s in emit (LStore d) s.

Definition lower_seq `{Layout} (fuel : nat) (entry : BbSeq) (s : Lower) : option Lower :=
  match entry with
  | SStore values => each (fun '(x, v) s => s ← emit_value fuel v s; store_var x s) values s
  | SReadMemoryUnchecked _ _ _ | SWriteMemoryUnchecked _ _ _ => None
  | SLog => Some s
  | SSetException e code => s ← emit_value fuel code s; emit (LSetExceptionWithCode e) s
  | SSetHandler id arg0 arg1 => s ← emit_value fuel arg0 s; s ← emit_value fuel arg1 s; emit (LSetHandler id) s
  | SCommit values => commit fuel values s
  end.

Definition lower_fallible (fuel : nat) (op : BbFallible) (s : Lower) : option Lower :=
  match op with
  | FPortOut port data len => s ← emit_value fuel port s; s ← emit_value fuel data s; emit (LPortOut len) s
  | FPortIn port data len => s ← emit_value fuel port s; s ← emit (LPortIn len) s; store_var data s
  | FReadMemory value addr n => s ← emit_value fuel addr s; s ← emit (LReadMemory n) s; store_var value s
  | FWriteMemory value addr n => s ← emit_value fuel addr s; s ← emit_value fuel value s; emit (LWriteMemory n) s
  | FReadDescriptor selector force mark_accessed ok base limit ar =>
      s ← emit_value fuel selector s;
      s ← emit (LReadDescriptor force mark_accessed) s;
      let (ok_var, s) := get_var ok s in
      let (base_var, s) := get_var base s in
      let (limit_var, s) := get_var limit s in
      let (ar_var, s) := get_var ar s in
      b ← lir_emit_many [LStore ar_var; LStore limit_var; LStore base_var; LStore ok_var] (lw_builder s);
      Some (with_builder s b)
  end.

(** The block of the code for a basic block. *)
Definition block_of (b : BbId) : BlockId := S b.

Definition lower_block `{Layout} (fuel : nat) (bb : Bb) (s : Lower) : option Lower :=
  match bb with
  | BJump next => seal (JNext (block_of next)) s
  | BBr cond z nz => s ← emit_value fuel cond s; seal (JCond (block_of z) (block_of nz)) s
  | BSeq entry next => s ← lower_seq fuel entry s; seal (JNext (block_of next)) s
  | BFallible op ok ex => s ← lower_fallible fuel op s; seal (JCond (block_of ex) (block_of ok)) s
  | BCommitAndExit metadata values last_jump_condition k success =>
      s ← commit fuel values s;
      s ← match k with Some k => s ← emit_value fuel k s; emit (LStorePtrImm K Qword 0) s | None => Some s end;
      s ← match last_jump_condition with Some c => emit_value fuel c s | None => Some s end;
      seal (JExit success metadata (match last_jump_condition with Some _ => true | None => false end)) s
  end.
End lower.

(** ** Where values are computed *)

(** References counted by the traversal of [val_num_references]. *)
Record Refs := { rf_num : list nat; rf_seen : gset ValId; rf_frontier : list ValId }.
Definition refer (r : Refs) (val : ValId) : option Refs :=
  n ← rf_num r !! val;
  Some {| rf_num := <[val := S n]> (rf_num r); rf_seen := {[ val ]} ∪ rf_seen r;
          rf_frontier := if decide (val ∈ rf_seen r) then rf_frontier r else val :: rf_frontier r |}.
Fixpoint refer_all (r : Refs) (l : list ValId) : option Refs :=
  match l with [] => Some r | val :: l => r ← refer r val; refer_all r l end.

Definition push_new (seen : gset BbId) (frontier l : list BbId) : gset BbId * list BbId :=
  foldl (fun (x : gset BbId * list BbId) b => if decide (b ∈ x.1) then x else ({[ b ]} ∪ x.1, b :: x.2)) (seen, frontier) l.

Section build.
Context (t : list ValNode) (g : list Bb).

Fixpoint refer_blocks (fuel : nat) (seen : gset BbId) (frontier : list BbId) (r : Refs) : option Refs :=
  match frontier with
  | [] => Some r
  | b :: frontier =>
      match fuel with
      | O => None
      | S fuel =>
          bb ← g !! b;
          r ← refer_all r (block_ids bb);
          let '(seen, frontier) := push_new seen frontier (next_blocks bb) in
          refer_blocks fuel seen frontier r
      end
  end.
Fixpoint refer_values (fuel : nat) (r : Refs) : option Refs :=
  match rf_frontier r with
  | [] => Some r
  | val :: frontier =>
      match fuel with
      | O => None
      | S fuel =>
          n ← t !! val;
          r ← refer_all {| rf_num := rf_num r; rf_seen := rf_seen r; rf_frontier := frontier |} (referenced_nodes n);
          refer_values fuel r
      end
  end.
Definition val_num_references (fuel : nat) : option (list nat) :=
  r ← refer_blocks fuel ∅ [0%nat] {| rf_num := replicate (length t) 0%nat; rf_seen := ∅; rf_frontier := [] |};
  r ← refer_values fuel r;
  Some (rf_num r).

(** The cost of a value, and the values it is made of. *)
Definition extra_weight (n : ValNode) : Z :=
  match n with
  | NConst _ | NInstrLen | NPartValues | NVar _ => 0
  | NLoadPtr _ _ _ | NLoadPtrImm _ _ _ => 10
  | _ => 1
  end.
Record Usage := { val_costs : list Z; val_usage : list (list ValId) }.
Definition usage_of (u : Usage) (node : ValId) : option Usage :=
  n ← t !! node;
  costs ← mapM_list (fun v => val_costs u !! v) (referenced_nodes n);
  usage ← mapM_list (fun v => val_usage u !! v) (referenced_nodes n);
  let cost := foldr Z.add 0 costs + extra_weight n in
  assert (cost <? 2 ^ 64);;
  Some {| val_costs := <[node := cost]> (val_costs u);
          val_usage := <[node := remove_dups (merge_sort Nat.le (mjoin usage ++ [node]))]> (val_usage u) |}.
Fixpoint usages (nodes : list ValId) (u : Usage) : option Usage :=
  match nodes with [] => Some u | node :: nodes => u ← usage_of u node; usages nodes u end.

Fixpoint reach_blocks (fuel : nat) (seen : gset BbId) (frontier : list BbId) : option (gset BbId) :=
  match frontier with
  | [] => Some seen
  | b :: frontier =>
      match fuel with
      | O => None
      | S fuel =>
          bb ← g !! b;
          let '(seen, frontier) := push_new seen frontier (next_blocks bb) in
          reach_blocks fuel seen frontier
      end
  end.
Definition compute_bb_reachability (fuel : nat) : option (gset BbId) := reach_blocks fuel {[ 0%nat ]} [0%nat].

(** The blocks in which a value is used, directly or in another value. *)
Definition appear (b : BbId) (apps : list (list BbId)) (val : ValId) : option (list (list BbId)) :=
  l ← apps !! val; Some (<[val := l ++ [b]]> apps).
Fixpoint appear_all (b : BbId) (vals : list ValId) (apps : list (list BbId)) : option (list (list BbId)) :=
  match vals with [] => Some apps | val :: vals => apps ← appear b apps val; appear_all b vals apps end.
Definition appear_in (usage : list (list ValId)) (b : BbId) (bb : Bb) (apps : list (list BbId)) : option (list (list BbId)) :=
  used ← mapM_list (fun val => u ← usage !! val; Some (val :: u)) (block_ids bb);
  appear_all b (mjoin used) apps.
Fixpoint appearances (usage : list (list ValId)) (reached : gset BbId) (blocks : list (nat * Bb)) (apps : list (list BbId)) : option (list (list BbId)) :=
  match blocks with
  | [] => Some apps
  | (b, bb) :: blocks =>
      apps ← (if decide (b ∈ reached) then appear_in usage b bb apps else Some apps);
      appearances usage reached blocks apps
  end.

(** The values to define in each block. *)
Fixpoint place (dt : DominatorTree) (refs : list nat) (apps : list (nat * list BbId)) (defs : list (list ValId)) : option (list (list ValId)) :=
  match apps with
  | [] => Some defs
  | (val, bbs) :: apps =>
      n ← refs !! val;
      defs ← (if negb (bool_decide (bbs = [])) && (1 <? n)%nat then
                b ← lca_many dt bbs;
                l ← defs !! b;
                Some (<[b := l ++ [val]]> defs)
              else Some defs);
      place dt refs apps defs
  end.
Definition worth (costs : list Z) (vals : list ValId) : list ValId :=
  filter (fun val => default 0 (costs !! val) > 1) (remove_dups (merge_sort Nat.le vals)).

Definition values_to_define (fuel : nat) : option (list (list ValId)) :=
  refs ← val_num_references fuel;
  components ← Scc.iterate (length t) (fun i => referenced_nodes <$> t !! i) fuel;
  nodes ← single_nodes components;
  u ← usages nodes {| val_costs := replicate (length t) 0; val_usage := replicate (length t) [] |};
  reached ← compute_bb_reachability fuel;
  apps ← appearances (val_usage u) reached (imap pair g) (replicate (length t) []);
  dt ← dominator_new fuel g;
  defs ← place dt refs (imap pair apps) (replicate (length g) []);
  Some (worth (val_costs u) <$> (defs : list (list ValId))).

(** ** The whole graph *)

Definition new_def (val : ValId) (s : Lower) : option Lower :=
  let (d, b) := define_var (lw_builder s) in
  _ ← value_defs s !! val;
  Some {| lw_builder := b; value_defs := <[val := Some d]> (value_defs s); var_defs := var_defs s |}.

Definition lower_at `{Layout} (efuel : nat) (reached : gset BbId) (defs : list (list ValId)) (b : BbId) (s : Lower) : option Lower :=
  bb ← g !! b;
  vals ← defs !! b;
  if decide (b ∈ reached) then
    let s := with_builder s (lir_switch_to (block_of b) (lw_builder s)) in
    s ← each (define_value t efuel) vals s;
    lower_block t efuel bb s
  else Some s.

Definition lower_start : Lower :=
  {| lw_builder := Nat.iter (length g) (fun b => (lir_create_block b).2) lir_builder_new;
     value_defs := replicate (length t) None; var_defs := ∅ |}.

(** [MirToLir::build] up to the optimisation of the result. *)
Definition lower_graph `{Layout} (fuel efuel : nat) : option Lower :=
  components ← Scc.iterate (length g) (transitions_of g) fuel;
  order ← single_nodes components;
  _ ← g !! 0%nat;
  s ← seal (JNext (block_of 0)) lower_start;
  defs ← values_to_define fuel;
  reached ← compute_bb_reachability fuel;
  s ← each new_def (mjoin defs) s;
  each (lower_at efuel reached defs) (reverse order) s.

Definition mir_to_lir `{Layout} (fuel efuel : nat) : option Lir :=
  s ← lower_graph fuel efuel;
  l ← optimize (unoptimized (lw_builder s));
  unassigned ← get_unassigned_defs fuel l;
  assert (bool_decide (unassigned = []));;
  Some l.
End build.
