(* ===== verification/LirValues.v ===== *)
(** * Lowered values and blocks

    What [MirToLir] of [sem86-core/src/codegen/lir/mod.rs] emits for a value
    leaves the value on the stack, and what it emits for a block does what the
    block does ([Mir]).  Definitions are the copies that the machine of the
    lower-level code keeps of variables and of shared values. *)
From stdpp Require Import gmap sorting.
From S2P Require Import Prelude Exceptions IlOps Arch MemArea IlCmd Scc ValTree CpuBytes Mir BbOpt BbTree BbRun Dom Lir LirOpt LirLower.

(** ** The height of the stack *)

(** How many values an operation pops and pushes. *)
Definition effect (op : LirOp) : nat * nat :=
  match op with
  | LConst _ | LLoad _ | LLoadPtrImm _ _ _ | LInstrLen | LPartValues => (0, 1)
  | LStore _ | LStorePtrImm _ _ _ | LSetExceptionWithCode _ => (1, 0)
  | LBinOp _ | LFpUnOp _ | LBlend _ => (2, 1)
  | LFpBinOp _ | LIte => (3, 1)
  | LExtract _ _ | LUnOp _ | LLoadPtrWithOffset _ _ => (1, 1)
  | LStorePtrWithOffset _ _ | LSetHandler _ => (2, 0)
  | LReadMemory _ | LPortIn _ => (1, 2)
  | LWriteMemory _ | LPortOut _ => (2, 1)
  | LReadDescriptor _ _ => (1, 5)
  end%nat.
Fixpoint fits (h : nat) (ops : list LirOp) : bool :=
  match ops with
  | [] => true
  | op :: ops =>
      let h' := (h - (effect op).1 + (effect op).2)%nat in
      ((effect op).1 <=? h)%nat && (h' <=? MAX_STACK_DEPTH)%nat && fits h' ops
  end.

Section height.
Context {W : Type} `{ctx : ExecCtx W} `{sf : SoftFloat} `{lay : Layout}.
Abbreviation mach := (Machine W).

Lemma push_height v st st' : push v st = Some st' -> st' = v :: st /\ (length st < MAX_STACK_DEPTH)%nat.
Proof. unfold push. destruct (Nat.ltb_spec (length st) MAX_STACK_DEPTH); [|done]. by intros [= <-]. Qed.
Lemma push_fits v st : (length st < MAX_STACK_DEPTH)%nat -> push v st = Some (v :: st).
Proof. intros H. unfold push. by rewrite (proj2 (Nat.ltb_lt _ _) H). Qed.

Lemma push_all_height vs st st' : foldl (fun s v => s ← s; push v s) (Some st) vs = Some st' -> st' = reverse vs ++ st.
Proof.
  revert st. induction vs as [|v vs IH]; intros st; [by intros [= <-]|]. cbn [foldl mbind option_bind].
  destruct (push v st) as [st1|] eqn:E.
  - apply push_height in E as [-> _]. intros H%IH. rewrite H, reverse_cons, <- app_assoc. done.
  - intros H. exfalso. clear - H. induction vs; [done|]. by apply IHvs.
Qed.
Lemma push_all_fits vs st : (length st + length vs <= MAX_STACK_DEPTH)%nat -> foldl (fun s v => s ← s; push v s) (Some st) vs = Some (reverse vs ++ st).
Proof.
  revert st. induction vs as [|v vs IH]; intros st H; [done|]. cbn [foldl mbind option_bind length] in *. rewrite push_fits by lia.
  rewrite IH by (cbn [length]; lia). by rewrite reverse_cons, <- app_assoc.
Qed.

Lemma call_height {A} (f : comp W Exception A) n results st (m : mach) r :
  (forall x, length (results x) = n) -> call f n results st m = Some r -> length r.1 = (length st + S n)%nat.
Proof.
  intros Hn. unfold call. destruct (f (m_world m)) as [[[x|e] w]|]; [| |done]; cbn [mbind option_bind].
  - destruct (foldl _ _ _) as [st'|] eqn:E; [|done]. intros [= <-]. apply push_all_height in E as ->. cbn [fst]. rewrite length_app, length_reverse. cbn [length]. rewrite Hn. lia.
  - destruct (packed_from_exception e); [|done]. cbn [mbind option_bind]. destruct (foldl _ _ _) as [st'|] eqn:E; [|done]. intros [= <-].
    apply push_all_height in E as ->. cbn [fst]. rewrite length_app, length_reverse, length_replicate. lia.
Qed.

Lemma execute_op_height l op st (m : mach) r :
  execute_op l op st m = Some r -> ((effect op).1 <= length st)%nat /\ length r.1 = (length st - (effect op).1 + (effect op).2)%nat.
Proof.
  intros H. destruct op; cbn [execute_op effect fst snd] in *; destruct st as [|v0 [|v1 [|v2 st]]]; try done; cbn [length];
    (split; [lia|]); try (apply call_height in H; [cbn [length] in H; lia|done]);
    repeat match type of H with mbind _ ?o = Some _ => destruct o eqn:?; [cbn [mbind option_bind] in H|done] end;
    injection H as <-; repeat match goal with E : push _ _ = Some _ |- _ => apply push_height in E as [-> _] end; cbn [fst length]; lia.
Qed.

Lemma fits_app l a b st (m : mach) st' m' :
  execute_ops l a st m = Some (st', m') -> fits (length st) (a ++ b) = fits (length st) a && fits (length st') b.
Proof.
  revert st m. induction a as [|op a IH]; intros st m; cbn [execute_ops app fits]; [by intros [= -> ->]|].
  destruct (execute_op l op st m) as [[st1 m1]|] eqn:E; [|done]. cbn [mbind option_bind fst snd]. intros H. apply execute_op_height in E as [_ Hl]. cbn [fst] in Hl.
  rewrite <- Hl, (IH st1 m1 H). by rewrite !andb_assoc.
Qed.
Lemma fits_left h a b : fits h (a ++ b) = true -> fits h a = true.
Proof.
  revert h. induction a as [|op a IH]; intros h; [done|]. cbn [app fits]. intros [H1 H2]%andb_prop. rewrite H1. by rewrite (IH _ H2).
Qed.
End height.

(** ** What an emission adds *)

Definition consts_ok (s : Lower) : Prop := forall v id, lb_const_map (lw_builder s) !! v = Some id -> lb_consts (lw_builder s) !! id = Some v.

(** Definitions are numbers below the next one, each for one variable or one
    value. *)
Record names_ok (s : Lower) : Prop := {
  nm_next : 0 <= lb_next_def (lw_builder s);
  nm_var : forall x d, var_defs s !! x = Some d -> 0 <= d < lb_next_def (lw_builder s);
  nm_val : forall v d, value_defs s !! v = Some (Some d) -> 0 <= d < lb_next_def (lw_builder s);
  nm_var_inj : forall x y d, var_defs s !! x = Some d -> var_defs s !! y = Some d -> x = y;
  nm_val_inj : forall v w d, value_defs s !! v = Some (Some d) -> value_defs s !! w = Some (Some d) -> v = w;
  nm_disjoint : forall x v d, var_defs s !! x = Some d -> value_defs s !! v = Some (Some d) -> False;
}.
Definition state_ok (s : Lower) : Prop := consts_ok s /\ names_ok s.

Abbreviation cur s := (lb_current (lw_builder s)).
Abbreviation lblocks s := (lb_blocks (lw_builder s)).

Record emits (s s' : Lower) (ops : list LirOp) : Prop := {
  em_current : cur s' = cur s;
  em_values : value_defs s' = value_defs s;
  em_vars : var_defs s ⊆ var_defs s';
  em_consts : lb_consts (lw_builder s) `prefix_of` lb_consts (lw_builder s');
  em_blocks : forall x, lblocks s !! cur s = Some x -> lblocks s' = <[cur s := {| operations := operations x ++ ops; l_next := l_next x |}]> (lblocks s);
  em_ok : state_ok s -> state_ok s';
}.

Lemma emits_refl s : emits s s [].
Proof. split; try done. intros x Hx. rewrite app_nil_r. symmetry. apply list_insert_id. rewrite Hx. by destruct x. Qed.
Lemma emits_trans s1 s2 s3 a b : emits s1 s2 a -> emits s2 s3 b -> emits s1 s3 (a ++ b).
Proof.
  intros [A1 A2 A3 A4 A5 A6] [B1 B2 B3 B4 B5 B6]. split; [congruence|congruence|by etrans|by etrans| |auto].
  intros x Hx. specialize (A5 x Hx). rewrite (B5 {| operations := operations x ++ a; l_next := l_next x |}).
  - cbn [operations l_next]. rewrite A1, A5, list_insert_insert_eq, app_assoc. done.
  - rewrite A1, A5. apply list_lookup_insert_eq. by apply lookup_lt_Some in Hx.
Qed.

Lemma emit_emits op s s' : emit op s = Some s' -> emits s s' [op].
Proof.
  unfold emit, lir_emit, lir_emit_many. destruct (lblocks s !! cur s) as [x|] eqn:Hx; [|done]. cbn [mbind option_bind]. destruct (assert _); [|done].
  cbn [mbind option_bind]. intros [= <-]. split; try done.
  - intros y Hy. cbn in Hy |- *. congruence.
  - intros [H1 [N1 N2 N3 N4 N5 N6]]. split; [exact H1|by split].
Qed.
Lemma emit_many_emits ops s b : lir_emit_many ops (lw_builder s) = Some b -> emits s (with_builder s b) ops.
Proof.
  unfold lir_emit_many. destruct (lblocks s !! cur s) as [x|] eqn:Hx; [|done]. cbn [mbind option_bind]. destruct (assert _); [|done].
  cbn [mbind option_bind]. intros [= <-]. split; try done.
  - intros y Hy. cbn in Hy |- *. congruence.
  - intros [H1 [N1 N2 N3 N4 N5 N6]]. split; [exact H1|by split].
Qed.

Lemma intern_emits v s id s' : intern v s = (id, s') -> emits s s' [] /\ (state_ok s -> lb_consts (lw_builder s') !! id = Some v).
Proof.
  unfold intern, lir_imm. destruct (lb_const_map (lw_builder s) !! v) as [i|] eqn:Hv.
  - intros [= <- <-]. split; [|intros [H _]; by apply H]. pose proof (emits_refl s) as [E1 E2 E3 E4 E5 E6]. split; try done.
    intros [H1 [N1 N2 N3 N4 N5 N6]]. split; [exact H1|by split].
  - intros [= <- <-]. split.
    + split; try done; cbn [with_builder lw_builder lb_consts].
      * by exists [v].
      * apply (em_blocks _ _ _ (emits_refl s)).
      * intros [H1 [N1 N2 N3 N4 N5 N6]]. split; [|by split]. intros w i. cbn [with_builder lw_builder lb_const_map lb_consts]. destruct (decide (w = v)) as [->|Hne].
        -- rewrite lookup_insert_eq. intros [= <-]. by rewrite lookup_app_r, Nat.sub_diag by lia.
        -- rewrite lookup_insert_ne by done. intros Hw. by apply lookup_app_l_Some, H1.
    + intros _. cbn. by rewrite lookup_app_r, Nat.sub_diag by lia.
Qed.

Lemma get_var_emits x s d s' : get_var x s = (d, s') -> emits s s' [] /\ var_defs s' !! x = Some d.
Proof.
  unfold get_var. destruct (var_defs s !! x) as [d0|] eqn:Hx; [intros [= <- <-]; split; [apply emits_refl|done]|]. intros [= <- <-]. split; [|by apply lookup_insert_eq].
  split; try done; cbn [lw_builder var_defs value_defs].
  - by apply insert_subseteq.
  - apply (em_blocks _ _ _ (emits_refl s)).
  - intros [H1 [N1 N2 N3 N4 N5 N6]]. split; [exact H1|]. split; cbn [lw_builder lb_next_def var_defs value_defs].
    + lia.
    + intros y d. destruct (decide (y = x)) as [->|]; [rewrite lookup_insert_eq; intros [= <-]; lia|rewrite lookup_insert_ne by done; intros Hy; specialize (N2 y d Hy); lia].
    + intros v d Hv. specialize (N3 v d Hv). lia.
    + intros y z d. destruct (decide (y = x)) as [->|], (decide (z = x)) as [->|]; rewrite ?lookup_insert_eq, ?lookup_insert_ne by done; [done|..|apply N4].
      * intros [= <-] Hz. specialize (N2 z _ Hz). lia.
      * intros Hy [= <-]. specialize (N2 y _ Hy). lia.
    + done.
    + intros y v d. destruct (decide (y = x)) as [->|]; [rewrite lookup_insert_eq; intros [= <-] Hv; specialize (N3 v _ Hv); lia|rewrite lookup_insert_ne by done; apply N6].
Qed.

(** ** Values *)

(** The values that a value is made of. *)
Inductive part_of (t : list ValNode) : ValId -> ValId -> Prop :=
| part_refl v : part_of t v v
| part_step v n a w : t !! v = Some n -> a ∈ referenced_nodes n -> part_of t a w -> part_of t v w.

(** No operator panics, whatever the environment; and the value is not one of
    a compiled encoding that is not instantiated. *)
Definition node_runs `{SoftFloat} (f : ValId -> Z) (n : ValNode) : Prop :=
  match n with
  | NBinOp op a b => is_Some (binop_execute op (f a) (f b))
  | NFpBinOp op a b rc => is_Some (fp_binop_execute op (f a) (f b) (wrap 8 (f rc)))
  | NFpUnOp op a rc => is_Some (fp_unop_execute op (f a) (wrap 8 (f rc)))
  | NUnOp op a => is_Some (unop_execute op (f a))
  | NExtract _ skip take => skip < 128 /\ 0 <= take <= 128
  | NInstrLen | NPartValues => False
  | _ => True
  end.
Definition never_panics `{SoftFloat} (t : list ValNode) : Prop := forall E i n, t !! i = Some n -> node_runs (denote E t) n.

Section values.
Context {W : Type} `{ctx : ExecCtx W} `{sf : SoftFloat} `{lay : Layout} (ail apv : Z).
Context (t : list ValNode) (Ht : ordered t) (Hruns : never_panics t).
(** The code in the end, and the names in it. *)
Context (l : Lir) (V : gmap VarId DefId) (D : list (option DefId)).
Context (HV : forall x d, V !! x = Some d -> d < MAX_NUM_DEFS) (HD : forall v d, D !! v = Some (Some d) -> d < MAX_NUM_DEFS).
Abbreviation mach := (Machine W).
Abbreviation value m := (denote (env_of (W := W) ail apv m) t).

Record final (s : Lower) : Prop := {
  fi_consts : lb_consts (lw_builder s) `prefix_of` consts l;
  fi_vars : var_defs s ⊆ V;
  fi_values : value_defs s = D;
}.
Lemma final_emits s s' ops : emits s s' ops -> final s' -> final s.
Proof. intros [E1 E2 E3 E4 E5 E6] [F1 F2 F3]. split; [by etrans|by etrans|congruence]. Qed.

(** A machine of basic blocks and one of the code for them; the values of
    [live] are in their definitions. *)
Record related (live : ValId -> Prop) (m n : mach) : Prop := {
  re_cpu : m_cpu n = m_cpu m;
  re_k : m_k n = m_k m;
  re_world : m_world n = m_world m;
  re_result : m_result n = m_result m;
  re_vars : forall x d, V !! x = Some d -> m_vars n d = m_vars m x;
  re_live : forall v d, D !! v = Some (Some d) -> live v -> m_vars n d = value m v;
}.

Definition defined (v : ValId) : Prop := exists d, D !! v = Some (Some d).
(** The definitions that the code of a value reads are set. *)
Definition ready (live : ValId -> Prop) (v : ValId) : Prop := forall w, part_of t v w -> defined w -> live w.

(** [ops] computes the values of [vs]. *)
Definition computes (s' : Lower) (ops : list LirOp) (live : ValId -> Prop) (vs : list ValId) : Prop :=
  final s' -> forall (m n : mach) st, related live m n -> fits (length st) ops = true -> execute_ops l ops st n = Some (reverse (value m <$> vs) ++ st, n).

Lemma computes_nil s' live : computes s' [] live [].
Proof. intros _ m n st _ _. done. Qed.
Lemma computes_app s1 s2 a b live vs ws : emits s1 s2 b -> computes s1 a live vs -> computes s2 b live ws -> computes s2 (a ++ b) live (vs ++ ws).
Proof.
  intros He Ha Hb Hf m n st Hr Hfit. rewrite execute_ops_app. pose proof (Ha (final_emits _ _ _ He Hf) m n st Hr (fits_left _ _ _ Hfit)) as Ea.
  rewrite (fits_app l a b st n _ _ Ea) in Hfit. apply andb_prop in Hfit as [_ Hfit]. rewrite Ea. cbn [mbind option_bind fst snd].
  rewrite (Hb Hf m n _ Hr Hfit). by rewrite fmap_app, reverse_app, app_assoc.
Qed.

(** An operation on the values of [vs]. *)
Lemma computes_op s1 s2 a op live vs v :
  emits s1 s2 [op] -> computes s1 a live vs ->
  (final s2 -> forall (m n : mach) st, related live m n -> fits (length st + length vs) [op] = true ->
    execute_op l op (reverse (value m <$> vs) ++ st) n = Some (value m v :: st, n)) ->
  computes s2 (a ++ [op]) live [v].
Proof.
  intros He Ha Hop Hf m n st Hr Hfit. rewrite execute_ops_app. pose proof (Ha (final_emits _ _ _ He Hf) m n st Hr (fits_left _ _ _ Hfit)) as Ea.
  rewrite (fits_app l a _ st n _ _ Ea) in Hfit. apply andb_prop in Hfit as [_ Hfit]. rewrite Ea. cbn [mbind option_bind fst snd execute_ops].
  rewrite length_app, length_reverse, length_fmap, Nat.add_comm in Hfit. by rewrite (Hop Hf m n st Hr Hfit).
Qed.

Lemma value_node (m : mach) v n : t !! v = Some n -> value m v = eval_node (env_of ail apv m) (value m) n.
Proof. intros Hv. unfold denote. by rewrite (fold_tree_eq _ t v n (eval_node_local _) Ht Hv). Qed.

Lemma read_related live (m n : mach) ptr offset size : related live m n -> read_ptr n ptr offset size = load_value (env_of ail apv m) ptr offset size.
Proof.
  intros [Hc Hk _ _ _ _]. unfold read_ptr, load_value. f_equal. apply list_fmap_ext. intros i x _. unfold ptr_byte. cbn [env_of load_byte]. by rewrite Hc, Hk.
Qed.
Lemma load_wrap (m : mach) ptr offset size : load_value (env_of ail apv m) ptr (wrap 64 offset) size = load_value (env_of ail apv m) ptr offset size.
Proof. unfold load_value. f_equal. apply list_fmap_ext. intros i x _. cbn [env_of load_byte]. by rewrite wrap_add_l. Qed.

Lemma room k h op : fits (h + k) [op] = true -> (effect op).1 = k -> (0 < (effect op).2)%nat -> (h < MAX_STACK_DEPTH)%nat.
Proof. cbn [fits]. rewrite !andb_true_iff. intros [[_ H%Nat.leb_le] _] <- Hp. lia. Qed.

Lemma emit_load_spec d v s s' :
  emit (LLoad d) s = Some s' -> value_defs s !! v = Some (Some d) -> exists ops, emits s s' ops /\ forall live, ready live v -> computes s' ops live [v].
Proof.
  intros He Hd. pose proof (emit_emits _ _ _ He) as Hem. exists [LLoad d]. split; [done|]. intros live Hl.
  apply (computes_op s s' [] (LLoad d) live [] v Hem); [by intros _ m n st _ _|]. intros Hf m n st Hr Hfit. cbn [fmap list_fmap reverse rev_append app length] in *.
  assert (D !! v = Some (Some d)) as HDv by (rewrite <- (fi_values _ (final_emits _ _ _ Hem Hf)); done).
  cbn [execute_op]. rewrite (proj2 (Z.ltb_lt _ _) (HD v d HDv)). cbn [assert mbind option_bind].
  rewrite (re_live _ _ _ Hr v d HDv); [|apply Hl; [constructor|by exists d]]. by rewrite push_fits by (apply (room 0 _ (LLoad d) Hfit); cbn; lia).
Qed.

Definition node_spec (fuel : nat) : Prop := forall v s s', emit_value_nodef t fuel v s = Some s' -> state_ok s ->
  exists ops, emits s s' ops /\ forall live, (forall n a, t !! v = Some n -> a ∈ referenced_nodes n -> ready live a) -> computes s' ops live [v].
Definition emit_arg (fuel : nat) (v : ValId) (s : Lower) : option Lower :=
  def ← value_defs s !! v; match def with Some d => emit (LLoad d) s | None => emit_value_nodef t fuel v s end.

Lemma emit_arg_spec fuel v s s' :
  node_spec fuel -> emit_arg fuel v s = Some s' -> state_ok s -> exists ops, emits s s' ops /\ forall live, ready live v -> computes s' ops live [v].
Proof.
  intros IH He Hs. unfold emit_arg in He. destruct (value_defs s !! v) as [[d|]|] eqn:Hd; [| |done]; cbn [mbind option_bind] in He.
  - by apply (emit_load_spec d v s s').
  - destruct (IH v s s' He Hs) as (ops & Hem & Hc). exists ops. split; [done|]. intros live Hl. apply Hc. intros n a Hn Ha w Hw. apply Hl. by apply (part_step t v n a w).
Qed.

(** The operands of an operation, one after the other. *)
Lemma args_spec fuel vs s s' :
  node_spec fuel -> each (emit_arg fuel) vs s = Some s' -> state_ok s ->
  exists ops, emits s s' ops /\ forall live, (forall a, a ∈ vs -> ready live a) -> computes s' ops live vs.
Proof.
  intros IH. revert s. induction vs as [|v vs IHvs]; intros s; cbn [each].
  - intros [= <-] _. exists []. split; [apply emits_refl|]. intros live _. apply computes_nil.
  - destruct (emit_arg fuel v s) as [s1|] eqn:E; [|done]. cbn [mbind option_bind]. intros He Hs.
    destruct (emit_arg_spec fuel v s s1 IH E Hs) as (a & Ha & Hca). destruct (IHvs s1 He (em_ok _ _ _ Ha Hs)) as (b & Hb & Hcb).
    exists (a ++ b). split; [by apply (emits_trans s s1 s')|]. intros live Hl. apply (computes_app s1 s' a b live [v] vs Hb).
    + apply Hca, Hl. by left.
    + apply Hcb. intros w Hw. apply Hl. by right.
Qed.

Definition operands (n : ValNode) : list ValId :=
  match n with
  | NIte cond if_zero if_nonzero => [if_nonzero; if_zero; cond]
  | _ => referenced_nodes n
  end.
Definition operation (n : ValNode) (s : Lower) : LirOp * Lower :=
  match n with
  | NConst c => let (id, s) := intern c s in (LConst id, s)
  | NVar x => let (d, s) := get_var x s in (LLoad d, s)
  | NBinOp op _ _ => (LBinOp op, s)
  | NFpBinOp op _ _ _ => (LFpBinOp op, s)
  | NFpUnOp op _ _ => (LFpUnOp op, s)
  | NBlend _ _ mask => let (id, s) := intern mask s in (LBlend id, s)
  | NExtract _ skip take => (LExtract skip take, s)
  | NUnOp op _ => (LUnOp op, s)
  | NIte _ _ _ => (LIte, s)
  | NLoadPtr ptr _ size => (LLoadPtrWithOffset ptr size, s)
  | NLoadPtrImm ptr offset size => (LLoadPtrImm ptr size offset, s)
  | NInstrLen => (LInstrLen, s)
  | NPartValues => (LPartValues, s)
  end.
Lemma each_one {B} (f : ValId -> Lower -> option Lower) a s (k : Lower -> option B) :
  (s ← each f [a] s; k s) = (s ← f a s; k s).
Proof. cbn [each]. by destruct (f a s). Qed.
Lemma each_two {B} (f : ValId -> Lower -> option Lower) a b s (k : Lower -> option B) :
  (s ← each f [a; b] s; k s) = (s ← f a s; s ← f b s; k s).
Proof. cbn [each]. destruct (f a s) as [s1|]; [|done]. apply (each_one f b s1 k). Qed.
Lemma each_three {B} (f : ValId -> Lower -> option Lower) a b c s (k : Lower -> option B) :
  (s ← each f [a; b; c] s; k s) = (s ← f a s; s ← f b s; s ← f c s; k s).
Proof. transitivity (s ← f a s; s ← each f [b; c] s; k s); [cbn [each]; by destruct (f a s)|]. destruct (f a s) as [s1|]; [|done]. apply (each_two f b c s1 k). Qed.
(** All nodes are emitted alike. *)
Lemma nodef_eq fuel v s :
  emit_value_nodef t (S fuel) v s = (n ← t !! v; s ← each (emit_arg fuel) (operands n) s; let (op, s) := operation n s in emit op s).
Proof.
  cbn [emit_value_nodef]. destruct (t !! v) as [n|]; [|done]. cbn [mbind option_bind].
  destruct n as [c|x|op a b|op a b rc|op a rc|op a|a b mk|a skip take|c z nz|p o w|p o w| |]; cbn [operands referenced_nodes]; rewrite ?each_one, ?each_two, ?each_three;
    cbn [each mbind option_bind operation]; try reflexivity.
  - by destruct (intern c s).
  - by destruct (get_var x s).
  - transitivity (s ← emit_arg fuel a s; s ← emit_arg fuel b s; let (id, s) := intern mk s in emit (LBlend id) s); [done|].
    destruct (emit_arg fuel a s) as [s1|]; [|done]. cbn [mbind option_bind]. destruct (emit_arg fuel b s1) as [s2|]; [|done].
    cbn [mbind option_bind]. by destruct (intern mk s2).
Qed.

Lemma operands_referenced n a : a ∈ operands n -> a ∈ referenced_nodes n.
Proof. destruct n; cbn [operands referenced_nodes]; try done. rewrite !elem_of_cons. tauto. Qed.

Lemma operation_runs n v s1 op s2 s' live (m k : mach) st :
  t !! v = Some n -> operation n s1 = (op, s2) -> emits s2 s' [op] -> state_ok s1 -> final s' -> related live m k -> (length st < MAX_STACK_DEPTH)%nat ->
  execute_op l op (reverse (value m <$> operands n) ++ st) k = Some (value m v :: st, k).
Proof.
  intros Hv Hop Hem Hs Hf Hr Hst. pose proof (Hruns (env_of ail apv m) v n Hv) as Hn. rewrite (value_node m v n Hv).
  assert (forall c id sa sb, intern c sa = (id, sb) -> state_ok sa -> final sb -> consts l !! id = Some c) as Hconst.
  { intros c id sa sb Hi Ha Hfb. destruct (intern_emits c sa id sb Hi) as [_ Hid]. destruct (fi_consts _ Hfb) as [r ->]. by apply lookup_app_l_Some, Hid. }
  pose proof (final_emits _ _ _ Hem Hf) as Hf2.
  destruct n; cbn [operation operands referenced_nodes fmap list_fmap eval_node node_runs] in *; cbn [reverse rev_append app]; try done.
  - destruct (intern c s1) as [id s] eqn:Ei. injection Hop as <- <-. cbn [execute_op]. rewrite (Hconst _ _ _ _ Ei Hs Hf2). cbn [mbind option_bind]. by rewrite push_fits.
  - destruct (get_var v0 s1) as [d s] eqn:Ei. injection Hop as <- <-. destruct (get_var_emits _ _ _ _ Ei) as [_ Hd].
    pose proof (lookup_weaken _ _ _ _ Hd (fi_vars _ Hf2)) as HVd. cbn [execute_op]. rewrite (proj2 (Z.ltb_lt _ _) (HV _ _ HVd)). cbn [assert mbind option_bind].
    rewrite (re_vars _ _ _ Hr _ _ HVd). by rewrite push_fits.
  - injection Hop as <- <-. destruct Hn as [r Hn]. cbn [execute_op]. unfold binop_value. rewrite Hn. cbn [mbind option_bind default]. by rewrite push_fits.
  - injection Hop as <- <-. destruct Hn as [r Hn]. cbn [execute_op env_of fp_binop_value]. rewrite Hn. cbn [mbind option_bind default]. by rewrite push_fits.
  - injection Hop as <- <-. destruct Hn as [r Hn]. cbn [execute_op env_of fp_unop_value]. rewrite Hn. cbn [mbind option_bind default]. by rewrite push_fits.
  - injection Hop as <- <-. destruct Hn as [r Hn]. cbn [execute_op]. unfold unop_value. rewrite Hn. cbn [mbind option_bind default]. by rewrite push_fits.
  - match type of Hop with context [intern ?c s1] => destruct (intern c s1) as [id s] eqn:Ei end. injection Hop as <- <-. cbn [execute_op]. rewrite (Hconst _ _ _ _ Ei Hs Hf2). cbn [mbind option_bind]. by rewrite push_fits.
  - injection Hop as <- <-. destruct Hn as [Hskip Htake]. cbn [execute_op]. rewrite (proj2 (Z.ltb_lt _ _) Hskip). cbn [assert mbind option_bind]. unfold bitmask_u128.
    rewrite (proj2 (Z.ltb_ge _ _)), (proj2 (Z.ltb_ge _ _)) by lia. cbn [orb mbind option_bind]. by rewrite push_fits.
  - injection Hop as <- <-. cbn [execute_op]. by rewrite push_fits.
  - injection Hop as <- <-. cbn [execute_op]. rewrite (read_related live m k) by done. rewrite load_wrap. by rewrite push_fits.
  - injection Hop as <- <-. cbn [execute_op]. rewrite (read_related live m k) by done. by rewrite push_fits.
Qed.
Lemma operation_emits n s op s' : operation n s = (op, s') -> emits s s' [].
Proof.
  destruct n; cbn [operation]; try (intros [= <- <-]; apply emits_refl).
  - destruct (intern c s) as [id s1] eqn:E. intros [= <- <-]. by apply intern_emits in E as [E _].
  - destruct (get_var v s) as [id s1] eqn:E. intros [= <- <-]. by apply get_var_emits in E as [E _].
  - match goal with |- context [intern ?c s] => destruct (intern c s) as [id s1] eqn:E end. intros [= <- <-]. by apply intern_emits in E as [E _].
Qed.
Lemma operation_effect n s op s' : operation n s = (op, s') -> effect op = (length (operands n), 1%nat).
Proof. destruct n; cbn [operation]; try (by intros [= <- <-]); [destruct (intern c s)|destruct (get_var v s)|match goal with |- context [intern ?c s] => destruct (intern c s) end]; by intros [= <- <-]. Qed.

Lemma nodef_spec fuel : node_spec fuel.
Proof.
  induction fuel as [|fuel IH]; intros v s s' He Hs; [done|]. rewrite nodef_eq in He. destruct (t !! v) as [n|] eqn:Hv; [|done]. cbn [mbind option_bind] in He.
  destruct (each (emit_arg fuel) (operands n) s) as [s1|] eqn:E1; [|done]. cbn [mbind option_bind] in He. destruct (operation n s1) as [op s2] eqn:Eo.
  destruct (args_spec fuel (operands n) s s1 IH E1 Hs) as (a & Ha & Hca). pose proof (operation_emits n s1 op s2 Eo) as Ho. pose proof (emit_emits _ _ _ He) as Hem.
  pose proof (emits_trans _ _ _ _ _ Ho Hem) as Hoe. cbn [app] in Hoe. exists (a ++ [op]). split; [by apply (emits_trans s s1 s')|]. intros live Hl.
  apply (computes_op s1 s' a op live (operands n) v Hoe).
  - apply Hca. intros w Hw. by apply (Hl n w eq_refl), operands_referenced.
  - intros Hf m k st Hr Hfit. apply (operation_runs n v s1 op s2 s' live m k st Hv Eo Hem (em_ok _ _ _ Ha Hs) Hf Hr).
    pose proof (operation_effect n s1 op s2 Eo) as Heff. apply (room (length (operands n)) _ op Hfit); rewrite Heff; cbn; lia.
Qed.
Lemma emit_value_spec fuel v s s' :
  emit_value t fuel v s = Some s' -> state_ok s -> exists ops, emits s s' ops /\ forall live, ready live v -> computes s' ops live [v].
Proof. apply (emit_arg_spec fuel v s s'), nodef_spec. Qed.
End values.
