(* ===== verification/LirCode.v ===== *)
(** * Lowered blocks

    The code that [MirToLir] of [sem86-core/src/codegen/lir/mod.rs] emits for a
    basic block does what the block does: from machines that are alike, both
    reach the same block, or the same exit, with machines that are alike. *)
From stdpp Require Import gmap sorting.
From S2P Require Import Prelude Exceptions IlOps Arch MemArea IlCmd Scc ValTree ValBuild ValExtract ValSound CpuBytes Mir MirSim BbOpt BbTree BbRun Dom Lir LirOpt LirLower LirValues.

(** ** Values that do not depend on the state in memory *)

Definition state_node (f : ValId -> Z) (n : ValNode) : Z :=
  match n with
  | NLoadPtrImm CpuState _ _ | NLoadPtr CpuState _ _ => 1
  | _ => if existsb (fun i => negb (f i =? 0)) (referenced_nodes n) then 1 else 0
  end.
Definition reads_state (t : list ValNode) (v : ValId) : bool := negb (at_id (fold_tree state_node t) v =? 0).

Lemma state_node_local : local state_node.
Proof. intros f f' n H. destruct n; cbn in *; decompose_Forall_hyps; try done; repeat match goal with E : f _ = f' _ |- _ => rewrite E; clear E end; done. Qed.

Lemma reads_state_node t v n :
  ordered t -> t !! v = Some n ->
  reads_state t v = match n with NLoadPtrImm CpuState _ _ | NLoadPtr CpuState _ _ => true | _ => existsb (reads_state t) (referenced_nodes n) end.
Proof.
  intros Ht Hn. unfold reads_state at 1. rewrite (fold_tree_eq state_node t v n state_node_local Ht Hn). change (fun i => negb (at_id (fold_tree state_node t) i =? 0)) with (reads_state t).
  destruct n as [| | | | | | | | |p o w|p o w| |]; cbn [state_node]; try destruct p; try done; try (by destruct (existsb _ _)).
Qed.
Lemma reads_state_part t v w : ordered t -> part_of t v w -> reads_state t v = false -> reads_state t w = false.
Proof.
  intros Ht. induction 1 as [v|v n a w Hn Ha Hp IH]; [done|]. intros Hv. apply IH. rewrite (reads_state_node t v n Ht Hn) in Hv.
  assert (existsb (reads_state t) (referenced_nodes n) = false) as He by (destruct n as [| | | | | | | | |p o s|p o s| |]; try destruct p; done).
  rewrite <- not_true_iff_false in He |- *. intros Hr. apply He, existsb_exists. exists a. split; [by apply list_elem_of_In|done].
Qed.

(** Environments that differ in the state. *)
Lemma denote_state E E' t v :
  ordered t -> (forall x, var_value E x = var_value E' x) -> (forall x, load_byte E K x = load_byte E' K x) ->
  (forall op x y rc, fp_binop_value E op x y rc = fp_binop_value E' op x y rc) -> (forall op x rc, fp_unop_value E op x rc = fp_unop_value E' op x rc) ->
  instr_len_value E = instr_len_value E' -> part_values_value E = part_values_value E' ->
  reads_state t v = false -> denote E t v = denote E' t v.
Proof.
  intros Ht H1 H2 H3 H4 H5 H6. induction (lt_wf v) as [v _ IH]. intros Hv. destruct (t !! v) as [n|] eqn:Hn.
  2:{ unfold denote, at_id. rewrite !(proj2 (lookup_ge_None _ _)); [done|..]; rewrite length_fold_tree; by apply lookup_ge_None. }
  unfold denote. rewrite !(fold_tree_eq _ t v n) by (done || apply eval_node_local). change (at_id (fold_tree (eval_node ?E) t)) with (denote E t).
  assert (Forall (fun i => denote E t i = denote E' t i) (referenced_nodes n)) as Hargs.
  { apply list.Forall_forall. intros i Hi. pose proof (Ht v n Hn) as Hlt. rewrite list.Forall_forall in Hlt. apply IH; [by apply Hlt|].
    apply (reads_state_part t v i Ht); [|done]. apply (part_step t v n i i Hn Hi), part_refl. }
  rewrite (reads_state_node t v n Ht Hn) in Hv.
  assert (forall o size, load_value E K o size = load_value E' K o size) as Hload.
  { intros o size. unfold load_value. f_equal. apply list_fmap_ext. intros i z _. apply H2. }
  destruct n as [| | | | | | | | |[]|[]| |]; try done; cbn [eval_node referenced_nodes] in *; decompose_Forall_hyps; repeat match goal with E : denote _ _ _ = denote _ _ _ |- _ => rewrite E; clear E end; auto.
Qed.

(** ** The code of a block *)

Lemma store_var_emits x s s' : store_var x s = Some s' -> exists d, emits s s' [LStore d] /\ var_defs s' !! x = Some d.
Proof.
  unfold store_var. destruct (get_var x s) as [d s1] eqn:E. intros He. destruct (get_var_emits _ _ _ _ E) as [Hem Hd]. pose proof (emit_emits _ _ _ He) as Hem'.
  exists d. split; [by apply (emits_trans s s1 s' [] [LStore d])|]. by apply (lookup_weaken _ _ _ _ Hd), (em_vars _ _ _ Hem').
Qed.

Lemma store_k_bytes k v : from_le_bytes (store (fun a => wrap 8 (Z.shiftr k (8 * wrap 64 a))) 8 0 v <$> seqZ 0 8) = wrap 64 v.
Proof.
  transitivity (from_le_bytes (to_le_bytes 8 v)); [f_equal|apply from_to_le_bytes].
Qed.

Section blocks.
Context {W : Type} `{ctx : ExecCtx W} `{sf : SoftFloat} `{lay : Layout} (ail apv : Z).
Context (t : list ValNode) (Ht : ordered t) (Hruns : never_panics t).
Context (l : Lir) (V : gmap VarId DefId) (D : list (option DefId)).
Context (HV : forall x d, V !! x = Some d -> d < MAX_NUM_DEFS) (HD : forall v d, D !! v = Some (Some d) -> d < MAX_NUM_DEFS).
Context (HVi : forall x y d, V !! x = Some d -> V !! y = Some d -> x = y) (HDi : forall v w d, D !! v = Some (Some d) -> D !! w = Some (Some d) -> v = w).
Context (HVD : forall x v d, V !! x = Some d -> D !! v = Some (Some d) -> False).
Abbreviation mach := (Machine W).
Abbreviation value m := (denote (env_of (W := W) ail apv m) t).
Abbreviation related := (related ail apv t V D).
Abbreviation final := (final l V D).
Abbreviation ready := (ready t D).
Abbreviation defined := (defined D).
Abbreviation computes := (computes ail apv t l V D).
Abbreviation emit_value_spec := (emit_value_spec ail apv t Ht Hruns l V D HV HD).

(** Writing the variables of [ws] does not change the values in definitions. *)
Definition steady (live : ValId -> Prop) (ws : list VarId) : Prop := forall v x, live v -> defined v -> x ∈ ws -> uses t x v = false.

Lemma value_same_vars (m m' : mach) v :
  m_cpu m' = m_cpu m -> m_k m' = m_k m -> (forall x, uses t x v = true -> m_vars m' x = m_vars m x) -> value m' v = value m v.
Proof.
  intros Hc Hk Hx. apply denote_uses; [done| |done]. split; try done. intros p x. cbn. destruct p; [by rewrite Hc|by rewrite Hk].
Qed.

Lemma related_store live (m n : mach) x d z : related live m n -> V !! x = Some d -> steady live [x] -> related live (with_var m x z) (with_var n d z).
Proof.
  intros [H1 H2 H3 H4 H5 H6] Hx Hs. split; try done; cbn [with_var m_vars].
  - intros y e Hy. destruct (decide (e = d)) as [->|], (decide (y = x)) as [->|]; [done|..|by apply H5]; [|congruence]. by rewrite (HVi y x d) in *.
  - intros v e Hv Hl. case_decide; [subst; by edestruct HVD|]. rewrite (H6 v e Hv Hl). symmetry. apply value_same_vars; [done..|]. intros y Hu. cbn. case_decide; [|done].
    subst. by rewrite (Hs v x Hl (ex_intro _ e Hv) (list_elem_of_here _ _)) in Hu.
Qed.
Lemma related_ext live (m m' n : mach) :
  related live m n -> m_cpu m' = m_cpu m -> m_k m' = m_k m -> m_world m' = m_world m -> m_result m' = m_result m -> (forall x, m_vars m' x = m_vars m x) -> related live m' n.
Proof.
  intros [H1 H2 H3 H4 H5 H6] Ec Ek Ew Er Ev. split; try congruence.
  - intros x d Hx. rewrite Ev. by apply H5.
  - intros v d Hd Hl. rewrite (H6 v d Hd Hl). symmetry. by apply value_same_vars.
Qed.
Lemma steady_sub live ws ws' : steady live ws -> ws' ⊆ ws -> steady live ws'.
Proof. intros H Hs v x Hl Hd Hx. by apply (H v x), Hs. Qed.
Lemma related_sub (live live' : ValId -> Prop) (m n : mach) : related live m n -> (forall v, live' v -> live v) -> related live' m n.
Proof. intros [H1 H2 H3 H4 H5 H6] Hs. split; try done. intros v d Hd Hl. by apply H6, Hs. Qed.

(** The values are computed, then the rest of the code runs. *)
Lemma computes_then s1 s2 a b live vs (m n : mach) st :
  emits s1 s2 b -> computes s1 a live vs -> final s2 -> related live m n -> fits (length st) (a ++ b) = true ->
  execute_ops l (a ++ b) st n = execute_ops l b (reverse (value m <$> vs) ++ st) n /\ fits (length vs + length st) b = true.
Proof.
  intros He Hc Hf Hr Hfit. pose proof (Hc (final_emits _ _ _ _ _ _ He Hf) m n st Hr (fits_left _ _ _ Hfit)) as Ea.
  rewrite (fits_app l a b st n _ _ Ea), length_app, length_reverse, length_fmap in Hfit. apply andb_prop in Hfit as [_ Hfit]. split; [|done].
  rewrite execute_ops_app, Ea. done.
Qed.

(** Stores of a list of variables, the first from the top of the stack. *)
Lemma stores_run live vars ds vs (m n : mach) st :
  related live m n -> Forall2 (fun x d => V !! x = Some d) vars ds -> length vs = length vars -> steady live vars ->
  exists n', execute_ops l (LStore <$> ds) (vs ++ st) n = Some (st, n') /\ related live (set_vars m vars vs) n'.
Proof.
  intros Hr H. revert m n vs Hr. induction H as [|x d vars ds Hx _ IH]; intros m n vs Hr Hlen Hs.
  - destruct vs; [|done]. by exists n.
  - destruct vs as [|v vs]; [done|]. cbn [fmap list_fmap execute_ops execute_op app]. rewrite (proj2 (Z.ltb_lt _ _) (HV x d Hx)). cbn [assert mbind option_bind fst snd].
    apply (IH (with_var m x v)); [|cbn in Hlen; lia|apply (steady_sub _ _ _ Hs); by right]. apply related_store; [done..|]. apply (steady_sub _ _ _ Hs). by intros y ->%list_elem_of_singleton; left.
Qed.

(** A call leaves its results on the stack, and whether it succeeded below. *)
Lemma call_run {A} (f : comp W Exception A) k vars results live (m n : mach) st ok m' :
  related live m n -> fallible f vars results m = Some (ok, m') -> length vars = k -> (forall x, length (results x) = k) -> (length st + S k <= MAX_STACK_DEPTH)%nat ->
  exists vs m1 n1, call f k results st n = Some (reverse vs ++ b2z ok :: st, n1) /\ length vs = k /\ related live m1 n1 /\ m' = set_vars m1 vars vs.
Proof.
  intros Hr Hf Hk Hres Hst. unfold fallible in Hf. unfold call. rewrite (re_world _ _ _ _ _ _ _ _ Hr).
  destruct (f (m_world m)) as [[[x|e] w]|]; [| |done]; cbn [mbind option_bind] in Hf |- *.
  - injection Hf as <- <-. exists (results x), (with_m_world m w), (with_m_world n w). rewrite push_all_fits by (cbn [length]; rewrite Hres; lia).
    cbn [mbind option_bind]. rewrite reverse_cons, <- app_assoc. split; [done|]. split; [done|]. split; [|done]. destruct Hr. by split.
  - destruct (packed_from_exception e) as [p|]; [|done]. cbn [mbind option_bind] in Hf |- *. injection Hf as <- <-.
    exists (replicate k 0), (with_result (with_m_world m w) p), (with_result (with_m_world n w) p). rewrite push_all_fits by (rewrite length_replicate; lia).
    cbn [mbind option_bind replicate]. rewrite reverse_cons, <- app_assoc, length_replicate, Hk. split; [done|]. split; [done|]. split; [|done]. destruct Hr. by split.
Qed.

(** Code that takes a machine as [step] does. *)
Definition acts (s' : Lower) (ops : list LirOp) (live : ValId -> Prop) (step : mach -> option mach) : Prop :=
  final s' -> forall (m n m' : mach), related live m n -> step m = Some m' -> fits 0 ops = true ->
  exists n', execute_ops l ops [] n = Some ([], n') /\ related live m' n'.

Lemma acts_app s1 s2 a b live f g : emits s1 s2 b -> acts s1 a live f -> acts s2 b live g -> acts s2 (a ++ b) live (fun m => m ← f m; g m).
Proof.
  intros He Ha Hb Hf m n m' Hr Hs Hfit. destruct (f m) as [m1|] eqn:E; [|done]. cbn [mbind option_bind] in Hs.
  destruct (Ha (final_emits _ _ _ _ _ _ He Hf) m n m1 Hr E (fits_left _ _ _ Hfit)) as (n1 & E1 & Hr1).
  change 0%nat with (length (A := Z) []) in Hfit. rewrite (fits_app l a b [] n _ _ E1) in Hfit. apply andb_prop in Hfit as [_ Hfit].
  rewrite execute_ops_app, E1. cbn [mbind option_bind fst snd]. by apply (Hb Hf m1 n1 m').
Qed.

Lemma store_value_acts fuel x v s1 s2 s3 live :
  emit_value t fuel v s1 = Some s2 -> store_var x s2 = Some s3 -> state_ok s1 -> ready live v -> steady live [x] ->
  exists ops, emits s1 s3 ops /\ acts s3 ops live (fun m => Some (with_var m x (value m v))).
Proof.
  intros He Hst Hs Hl Hst'. destruct (emit_value_spec fuel v s1 s2 He Hs) as (a & Ha & Hca). destruct (store_var_emits x s2 s3 Hst) as (d & Hb & Hd).
  exists (a ++ [LStore d]). split; [by apply (emits_trans s1 s2 s3)|]. intros Hf m n m' Hr [= <-] Hfit.
  destruct (computes_then s2 s3 a [LStore d] live [v] m n [] Hb (Hca live Hl) Hf Hr Hfit) as [-> _]. cbn [fmap list_fmap reverse rev_append app].
  assert (V !! x = Some d) as Hx by by apply (lookup_weaken _ _ _ _ Hd), Hf. cbn [execute_ops execute_op]. rewrite (proj2 (Z.ltb_lt _ _) (HV x d Hx)).
  cbn [assert mbind option_bind fst snd]. eexists. split; [done|]. by apply related_store.
Qed.

Lemma store_acts fuel values s s' live :
  each (fun '(x, v) s => s ← emit_value t fuel v s; store_var x s) values s = Some s' -> state_ok s ->
  (forall v, v ∈ values.*2 -> ready live v) -> steady live values.*1 ->
  exists ops, emits s s' ops /\ acts s' ops live (fun m => Some (foldl (fun m '(x, v) => with_var m x (value m v)) m values)).
Proof.
  revert s. induction values as [|[x v] values IH]; intros s; cbn [each].
  - intros [= <-] _ _ _. exists []. split; [apply emits_refl|]. intros _ m n m' Hr [= <-] _. by exists n.
  - destruct (emit_value t fuel v s) as [s1|] eqn:E1; [|done]. cbn [mbind option_bind]. destruct (store_var x s1) as [s2|] eqn:E2; [|done]. cbn [mbind option_bind].
    intros He Hs Hl Hst. destruct (store_value_acts fuel x v s s1 s2 live E1 E2 Hs) as (a & Ha & Hca).
    { apply Hl. by left. } { apply (steady_sub _ _ _ Hst). intros y ->%list_elem_of_singleton. by left. }
    destruct (IH s2 He (em_ok _ _ _ Ha Hs)) as (b & Hb & Hcb). { intros w Hw. apply Hl. by right. } { apply (steady_sub _ _ _ Hst). intros y Hy. by right. }
    exists (a ++ b). split; [by apply (emits_trans s s2 s')|]. exact (acts_app s2 s' a b live _ _ Hb Hca Hcb).
Qed.

(** Operations that take one or two values and leave a result in [ctx]. *)
Lemma one_value fuel v op s s' live step :
  (s ← emit_value t fuel v s; emit op s) = Some s' -> state_ok s -> ready live v ->
  (forall (m n : mach) m', related live m n -> step m = Some m' -> exists n', execute_op l op [value m v] n = Some ([], n') /\ related live m' n') ->
  exists ops, emits s s' ops /\ acts s' ops live step.
Proof.
  destruct (emit_value t fuel v s) as [s1|] eqn:E1; [|done]. cbn [mbind option_bind]. intros He Hs Hl Hop.
  destruct (emit_value_spec fuel v s s1 E1 Hs) as (a & Ha & Hca). pose proof (emit_emits _ _ _ He) as Hb. exists (a ++ [op]). split; [by apply (emits_trans s s1 s')|].
  intros Hf m n m' Hr Hst Hfit. destruct (computes_then s1 s' a [op] live [v] m n [] Hb (Hca live Hl) Hf Hr Hfit) as [-> _].
  destruct (Hop m n m' Hr Hst) as (n' & Hn & Hr'). exists n'. split; [|done]. cbn [fmap list_fmap reverse rev_append app execute_ops]. by rewrite Hn.
Qed.
Lemma two_values_emit fuel v w s s2 live :
  (s ← emit_value t fuel v s; emit_value t fuel w s) = Some s2 -> state_ok s -> ready live v -> ready live w ->
  exists ops, emits s s2 ops /\ computes s2 ops live [v; w].
Proof.
  destruct (emit_value t fuel v s) as [s1|] eqn:E1; [|done]. cbn [mbind option_bind]. intros E2 Hs Hv Hw.
  destruct (emit_value_spec fuel v s s1 E1 Hs) as (a & Ha & Hca). destruct (emit_value_spec fuel w s1 s2 E2 (em_ok _ _ _ Ha Hs)) as (b & Hb & Hcb).
  exists (a ++ b). split; [by apply (emits_trans s s1 s2)|]. by apply (computes_app ail apv t l V D s1 s2 a b live [v] [w] Hb); [apply Hca|apply Hcb].
Qed.
Lemma bind_assoc {A B C} (x : option A) (f : A -> option B) (g : B -> option C) : (x ≫= f) ≫= g = x ≫= (fun a => f a ≫= g).
Proof. by destruct x. Qed.

Definition no_commit (e : BbSeq) : Prop := match e with SCommit _ => False | _ => True end.

Lemma seq_acts fuel e s s' live :
  lower_seq t fuel e s = Some s' -> state_ok s -> no_commit e ->
  (forall v, v ∈ block_ids (BSeq e 0) -> ready live v) -> steady live (default [] (written (BSeq e 0))) ->
  exists ops, emits s s' ops /\ acts s' ops live (run_seq ail apv t e).
Proof.
  intros He Hs Hnc Hl Hst. destruct e as [values| | | |e code|id a0 a1|]; cbn [lower_seq written default block_ids] in *; try done.
  - by apply (store_acts fuel values s s' live).
  - injection He as <-. exists []. split; [apply emits_refl|]. intros _ m n m' Hr [= <-] _. by exists n.
  - apply (one_value fuel code _ s s' live _ He Hs); [apply Hl; by left|]. intros m n m' Hr. cbn [run_seq execute_op].
    destruct (with_code_from_u32 _ _) as [e'|]; [|done]. cbn [mbind option_bind]. destruct (packed_from_exception e') as [p|]; [|done]. cbn [mbind option_bind].
    intros [= <-]. eexists. split; [done|]. destruct Hr. by split.
  - rewrite <- bind_assoc in He. destruct (s ← emit_value t fuel a0 s; emit_value t fuel a1 s) as [s2|] eqn:E2; [|done]. cbn [mbind option_bind] in He.
    destruct (two_values_emit fuel a0 a1 s s2 live E2 Hs) as (a & Ha & Hca); [apply Hl; by left|apply Hl; right; by left|].
    pose proof (emit_emits _ _ _ He) as Hb. exists (a ++ [LSetHandler id]). split; [by apply (emits_trans s s2 s')|]. intros Hf m n m' Hr Hrun Hfit.
    destruct (computes_then s2 s' a _ live [a0; a1] m n [] Hb Hca Hf Hr Hfit) as [-> _]. cbn [fmap list_fmap reverse rev_append app execute_ops execute_op run_seq] in *.
    destruct (packed_from_exec_result _) as [p|]; [|done]. cbn [mbind option_bind fst snd] in *. injection Hrun as <-. eexists. split; [done|]. destruct Hr. by split.
Qed.

(** Fallible operations: the code leaves on the stack whether it succeeded. *)
Definition acts_fallibly (s' : Lower) (ops : list LirOp) (live : ValId -> Prop) (op : BbFallible) : Prop :=
  final s' -> forall (m n m' : mach) ok, related live m n -> run_fallible ail apv t op m = Some (ok, m') -> fits 0 ops = true ->
  exists n', execute_ops l ops [] n = Some ([b2z ok], n') /\ related live m' n'.

Lemma set_vars_reverse (m : mach) vars vs x :
  NoDup vars -> length vs = length vars -> m_vars (set_vars m vars vs) x = m_vars (set_vars m (reverse vars) (reverse vs)) x.
Proof.
  intros Hnd Hlen. destruct (decide (x ∈ vars)) as [Hx|Hx].
  - apply list_elem_of_lookup in Hx as [i Hi]. pose proof (lookup_lt_Some _ _ _ Hi) as Hlt. destruct (lookup_lt_is_Some_2 vs i) as [v Hv]; [lia|].
    rewrite (set_vars_value m vars vs i x v Hnd Hi Hv). symmetry. apply (set_vars_value m _ _ (length vars - S i)); [by rewrite reverse_Permutation|..].
    + rewrite reverse_lookup_Some. split; [|lia]. by replace (length vars - S (length vars - S i))%nat with i by lia.
    + rewrite reverse_lookup_Some, Hlen. split; [|lia]. by replace (length vars - S (length vars - S i))%nat with i by lia.
  - rewrite !set_vars_other; [done| |done]. by rewrite elem_of_reverse.
Qed.

Lemma call_acts {A} (f : mach -> comp W Exception A) k vars ds results live op bop a vs s1 s' :
  emits s1 s' (op :: (LStore <$> reverse ds)) -> computes s1 a live vs -> effect op = (length vs, S k) -> length vars = k -> (forall x, length (results x) = k) ->
  (final s' -> Forall2 (fun x d => V !! x = Some d) vars ds) -> NoDup vars -> steady live vars ->
  (forall m, run_fallible ail apv t bop m = fallible (f m) vars results m) ->
  (forall m n, related live m n -> execute_op l op (reverse (value m <$> vs)) n = call (f m) k results [] n) ->
  acts_fallibly s' (a ++ op :: (LStore <$> reverse ds)) live bop.
Proof.
  intros He Hca Heff Hk Hres Hds Hnd Hst Hbop Hop Hf m n m' ok Hr Hrun Hfit. rewrite Hbop in Hrun.
  destruct (computes_then s1 s' a _ live vs m n [] He Hca Hf Hr Hfit) as [-> Hfit2]. rewrite app_nil_r. cbn [execute_ops]. rewrite (Hop m n Hr).
  cbn [fits length] in Hfit2. rewrite Heff in Hfit2. cbn [fst snd] in Hfit2. apply andb_prop in Hfit2 as [[_ Hroom%Nat.leb_le]%andb_prop _].
  destruct (call_run (f m) k vars results live m n [] ok m' Hr Hrun Hk Hres) as (rs & m1 & n1 & Hcall & Hlen & Hr1 & ->); [cbn; lia|]. rewrite Hcall. cbn [mbind option_bind fst snd].
  destruct (stores_run live (reverse vars) (reverse ds) (reverse rs) m1 n1 [b2z ok] Hr1) as (n2 & En & Hr2).
  - by apply Forall2_reverse, Hds.
  - rewrite !length_reverse. lia.
  - apply (steady_sub _ _ _ Hst). intros x Hx. by rewrite elem_of_reverse in Hx.
  - exists n2. split; [done|]. destruct (set_vars_fields m1 vars rs) as (A1 & A2 & A3 & A4), (set_vars_fields m1 (reverse vars) (reverse rs)) as (B1 & B2 & B3 & B4).
    apply (related_ext live _ _ _ Hr2); [by rewrite A1, B1|by rewrite A2, B2|by rewrite A3, B3|by rewrite A4, B4|]. intros x. apply set_vars_reverse; [done|lia].
Qed.

(** The variables that an operation sets are different. *)
Definition distinct_vars (op : BbFallible) : Prop :=
  match op with FReadDescriptor _ _ _ ok base limit ar => NoDup [ok; base; limit; ar] | _ => True end.

Lemma get_vars_emits s x1 x2 x3 x4 d1 d2 d3 d4 s1 s2 s3 s4 :
  get_var x1 s = (d1, s1) -> get_var x2 s1 = (d2, s2) -> get_var x3 s2 = (d3, s3) -> get_var x4 s3 = (d4, s4) ->
  emits s s4 [] /\ Forall2 (fun x d => var_defs s4 !! x = Some d) [x1; x2; x3; x4] [d1; d2; d3; d4].
Proof.
  intros E1 E2 E3 E4. destruct (get_var_emits _ _ _ _ E1) as [A1 B1], (get_var_emits _ _ _ _ E2) as [A2 B2], (get_var_emits _ _ _ _ E3) as [A3 B3], (get_var_emits _ _ _ _ E4) as [A4 B4].
  pose proof (emits_trans _ _ _ [] [] A3 A4) as A34. pose proof (emits_trans _ _ _ [] [] A2 A34) as A234. split; [exact (emits_trans _ _ _ [] [] A1 A234)|].
  constructor; [by apply (lookup_weaken _ _ _ _ B1), A234|]. constructor; [by apply (lookup_weaken _ _ _ _ B2), A34|].
  constructor; [by apply (lookup_weaken _ _ _ _ B3), A4|]. by constructor.
Qed.

Lemma related_cpu live (m n : mach) : related live m n -> m_cpu n = m_cpu m.
Proof. by intros []. Qed.

Lemma fallible_acts fuel op s s' live :
  lower_fallible t fuel op s = Some s' -> state_ok s -> distinct_vars op ->
  (forall v, v ∈ block_ids (BFallible op 0 0) -> ready live v) -> steady live (default [] (written (BFallible op 0 0))) ->
  exists ops, emits s s' ops /\ acts_fallibly s' ops live op.
Proof.
  intros He Hs Hnd Hl Hst. destruct op as [port data len|port data len|x addr len|v addr len|sel force mark ok base limit ar]; cbn [lower_fallible written default block_ids distinct_vars] in *.
  - rewrite <- bind_assoc in He. destruct (s ← emit_value t fuel port s; emit_value t fuel data s) as [s1|] eqn:E1; [|done]. cbn [mbind option_bind] in He.
    destruct (two_values_emit fuel port data s s1 live E1 Hs) as (a & Ha & Hca); [apply Hl; by left|apply Hl; right; by left|]. pose proof (emit_emits _ _ _ He) as Hb.
    eexists. split; [exact (emits_trans _ _ _ _ _ Ha Hb)|]. eapply (call_acts (fun m => port_out (cpu_of (m_cpu m)) (wrap 16 (value m port)) len (wrap 32 (value m data))) 0 [] [] (fun _ => []) live _ _ a [port; data] s1 s'); try done; [by apply NoDup_nil_2|]. cbn.
    intros m n Hr. by rewrite (related_cpu live m n Hr).
  - destruct (emit_value t fuel port s) as [s1|] eqn:E1; [|done]. cbn [mbind option_bind] in He. destruct (emit (LPortIn len) s1) as [s2|] eqn:E2; [|done]. cbn [mbind option_bind] in He.
    destruct (emit_value_spec fuel port s s1 E1 Hs) as (a & Ha & Hca). destruct (store_var_emits _ _ _ He) as (d & Hc & Hd).
    pose proof (emits_trans _ _ _ _ _ (emit_emits _ _ _ E2) Hc) as Hb. eexists. split; [exact (emits_trans _ _ _ _ _ Ha Hb)|].
    eapply (call_acts (fun m => port_in (cpu_of (m_cpu m)) (wrap 16 (value m port)) len) 1 [data] [d] (fun v => [v]) live _ _ a [port] s1 s'); try done; [apply Hca, Hl; by left| |apply NoDup_singleton|].
    + intros Hf. repeat constructor. by apply (lookup_weaken _ _ _ _ Hd), Hf.
    + cbn. intros m n Hr. by rewrite (related_cpu live m n Hr).
  - destruct (emit_value t fuel addr s) as [s1|] eqn:E1; [|done]. cbn [mbind option_bind] in He. destruct (emit (LReadMemory len) s1) as [s2|] eqn:E2; [|done]. cbn [mbind option_bind] in He.
    destruct (emit_value_spec fuel addr s s1 E1 Hs) as (a & Ha & Hca). destruct (store_var_emits _ _ _ He) as (d & Hc & Hd).
    pose proof (emits_trans _ _ _ _ _ (emit_emits _ _ _ E2) Hc) as Hb. eexists. split; [exact (emits_trans _ _ _ _ _ Ha Hb)|].
    eapply (call_acts (fun m => read_from_mem_as_u128 (Protected (wrap 32 (value m addr)) len) (is_userspace (cpu_of (m_cpu m)))) 1 [x] [d] (fun v => [v]) live _ _ a [addr] s1 s'); try done; [apply Hca, Hl; by left| |apply NoDup_singleton|].
    + intros Hf. repeat constructor. by apply (lookup_weaken _ _ _ _ Hd), Hf.
    + cbn. intros m n Hr. by rewrite (related_cpu live m n Hr).
  - rewrite <- bind_assoc in He. destruct (s ← emit_value t fuel addr s; emit_value t fuel v s) as [s1|] eqn:E1; [|done]. cbn [mbind option_bind] in He.
    destruct (two_values_emit fuel addr v s s1 live E1 Hs) as (a & Ha & Hca); [apply Hl; right; by left|apply Hl; by left|]. pose proof (emit_emits _ _ _ He) as Hb.
    eexists. split; [exact (emits_trans _ _ _ _ _ Ha Hb)|]. eapply (call_acts (fun m => write_u128_to_mem (Protected (wrap 32 (value m addr)) len) (is_userspace (cpu_of (m_cpu m))) (value m v)) 0 [] [] (fun _ => []) live _ _ a [addr; v] s1 s'); try done; [by apply NoDup_nil_2|]. cbn.
    intros m n Hr. by rewrite (related_cpu live m n Hr).
  - destruct (emit_value t fuel sel s) as [s1|] eqn:E1; [|done]. cbn [mbind option_bind] in He. destruct (emit (LReadDescriptor force mark) s1) as [s2|] eqn:E2; [|done]. cbn [mbind option_bind] in He.
    destruct (get_var ok s2) as [d1 t1] eqn:G1. destruct (get_var base t1) as [d2 t2] eqn:G2. destruct (get_var limit t2) as [d3 t3] eqn:G3. destruct (get_var ar t3) as [d4 t4] eqn:G4.
    destruct (lir_emit_many _ _) as [b|] eqn:E3; [|done]. cbn [mbind option_bind] in He. injection He as <-.
    destruct (emit_value_spec fuel sel s s1 E1 Hs) as (a & Ha & Hca). destruct (get_vars_emits s2 _ _ _ _ _ _ _ _ _ _ _ _ G1 G2 G3 G4) as [Hg Hds].
    pose proof (emit_many_emits _ _ _ E3) as He3. pose proof (emits_trans _ _ _ _ _ (emit_emits _ _ _ E2) (emits_trans _ _ _ _ _ Hg He3)) as Hb.
    eexists. split; [exact (emits_trans _ _ _ _ _ Ha Hb)|].
    eapply (call_acts (fun m => read_descriptor (cpu_of (m_cpu m)) force mark (wrap 16 (value m sel))) 4 [ok; base; limit; ar] [d1; d2; d3; d4]
      (fun r => [b2z (d_ok r); d_base r; d_limit r; d_access_rights r]) live _ _ a [sel] s1 _); try done; [apply Hca, Hl; by left| |].
    + intros Hf. eapply list.Forall2_impl; [exact Hds|]. intros x d Hd. apply (lookup_weaken _ _ _ _ Hd). etrans; [apply He3|apply Hf].
    + cbn. intros m n Hr. by rewrite (related_cpu live m n Hr).
Qed.

(** *** Commits *)

Definition pushes (x : CommitDest * ValId) : list ValId := match x.1 with CDynamic _ offset => [offset; x.2] | _ => [x.2] end.

Lemma commit_values_emit fuel values s s' live :
  each (commit_value t fuel) values s = Some s' -> state_ok s -> (forall x v, x ∈ values -> v ∈ pushes x -> ready live v) ->
  exists ops, emits s s' ops /\ computes s' ops live (mjoin (pushes <$> values)).
Proof.
  revert s. induction values as [|x values IH]; intros s; cbn [each].
  - intros [= <-] _ _. exists []. split; [apply emits_refl|apply computes_nil].
  - destruct (commit_value t fuel x s) as [s1|] eqn:E; [|done]. cbn [mbind option_bind]. intros He Hs Hl.
    assert (exists a, emits s s1 a /\ computes s1 a live (pushes x)) as (a & Ha & Hca).
    { pose proof (fun v => Hl x v (list_elem_of_here _ _)) as Hx. unfold commit_value in E. unfold pushes in *. destruct x as [[r|sz o|sz o] v]; cbn [fst snd] in *.
      - destruct (emit_value_spec fuel v s s1 E Hs) as (a & Ha & Hca). exists a. split; [done|]. apply Hca, Hx. by left.
      - destruct (emit_value_spec fuel v s s1 E Hs) as (a & Ha & Hca). exists a. split; [done|]. apply Hca, Hx. by left.
      - apply (two_values_emit fuel o v s s1 live E Hs); apply Hx; [by left|right; by left]. }
    destruct (IH s1 He (em_ok _ _ _ Ha Hs)) as (b & Hb & Hcb). { intros y v Hy. apply Hl. by right. }
    exists (a ++ b). split; [by apply (emits_trans s s1 s')|]. exact (computes_app ail apv t l V D s1 s' a b live _ _ Hb Hca Hcb).
Qed.
Lemma reverse_pushes {B} (f : ValId -> B) values :
  reverse (f <$> mjoin (pushes <$> reverse values)) = mjoin ((fun x => reverse (f <$> pushes x)) <$> values).
Proof.
  induction values as [|x values IH]; [done|]. rewrite reverse_cons, fmap_app, join_app, fmap_app, reverse_app, IH. cbn [fmap list_fmap mjoin list_join]. by rewrite app_nil_r.
Qed.
Lemma commit_ops_emit values s s' :
  each (fun x s => op ← commit_op x.1; emit op s) values s = Some s' ->
  exists ops, emits s s' ops /\ Forall2 (fun (x : CommitDest * ValId) op => commit_op x.1 = Some op) values ops.
Proof.
  revert s. induction values as [|x values IH]; intros s; cbn [each].
  - intros [= <-]. exists []. split; [apply emits_refl|constructor].
  - destruct (commit_op x.1) as [op|] eqn:E; [|done]. cbn [mbind option_bind]. destruct (emit op s) as [s1|] eqn:E1; [|done]. cbn [mbind option_bind]. intros He.
    destruct (IH s1 He) as (b & Hb & Hf). exists (op :: b). split; [by apply (emits_trans s s1 s' [op] b (emit_emits _ _ _ E1))|by constructor].
Qed.

Lemma commit_op_run x op (m n : mach) st :
  commit_op x.1 = Some op ->
  execute_op l op (reverse (value m <$> pushes x) ++ st) n
  = Some (st, with_cpu_bytes n (let '(a, k, v) := commit_store ail apv t m x in store (m_cpu n) k a v)).
Proof.
  destruct x as [[r|size offset|size offset] v]; cbn [commit_op fst snd pushes commit_store]; [|by intros [= <-]..].
  destruct (try_from_bits (8 * byte_size r)) as [size|] eqn:Es; [|done]. cbn [mbind option_bind]. destruct (assert _); [|done]. cbn [mbind option_bind]. intros [= <-].
  apply try_from_bits_size in Es. unfold ds_num_bits in Es. cbn. by replace (ds_num_bytes size) with (byte_size r) by lia.
Qed.
Lemma commit_ops_run values ops (m n : mach) st :
  Forall2 (fun (x : CommitDest * ValId) op => commit_op x.1 = Some op) values ops ->
  execute_ops l ops (mjoin ((fun x => reverse (value m <$> pushes x)) <$> values) ++ st) n
  = Some (st, with_cpu_bytes n (foldl (fun c '(a, k, v) => store c k a v) (m_cpu n) (commit_store ail apv t m <$> values))).
Proof.
  intros H. revert n. induction H as [|x op values ops Hop _ IH]; intros n; [by destruct n|].
  cbn [fmap list_fmap mjoin list_join execute_ops foldl]. rewrite <- app_assoc, (commit_op_run x op m n _ Hop). cbn [mbind option_bind fst snd]. rewrite IH.
  destruct (commit_store ail apv t m x) as [[a k] v]. done.
Qed.
Lemma commit_run fuel values s s' live :
  commit t fuel values s = Some s' -> state_ok s -> (forall x v, x ∈ values -> v ∈ pushes x -> ready live v) ->
  exists ops, emits s s' ops /\
    (final s' -> forall (m n : mach), related live m n -> fits 0 ops = true -> execute_ops l ops [] n = Some ([], with_cpu_bytes n (m_cpu (commit_values ail apv t m values)))).
Proof.
  unfold commit. destruct (each (commit_value t fuel) (reverse values) s) as [s1|] eqn:E; [|done]. cbn [mbind option_bind]. intros He Hs Hl.
  destruct (commit_values_emit fuel (reverse values) s s1 live E Hs) as (a & Ha & Hca). { intros x v Hx. apply Hl. by rewrite elem_of_reverse in Hx. }
  destruct (commit_ops_emit values s1 s' He) as (b & Hb & Hops). exists (a ++ b). split; [by apply (emits_trans s s1 s')|]. intros Hf m n Hr Hfit.
  destruct (computes_then s1 s' a b live _ m n [] Hb Hca Hf Hr Hfit) as [-> _]. rewrite reverse_pushes, (commit_ops_run values b m n [] Hops). by rewrite (related_cpu live m n Hr).
Qed.

(** *** Whole blocks *)

(** Machines that only differ in variables. *)
Record alike (m n : mach) : Prop := {
  al_cpu : m_cpu n = m_cpu m;
  al_k : m_k n = m_k m;
  al_world : m_world n = m_world m;
  al_result : m_result n = m_result m;
}.

(** Blocks that the interpreter can run: it cannot return a last jump
    condition, and the code of an exit reads [k] after the commit. *)
Definition lowerable (bb : Bb) : Prop :=
  match bb with
  | BJump _ | BBr _ _ _ => True
  | BSeq e _ => no_commit e
  | BFallible op _ _ => distinct_vars op
  | BCommitAndExit _ _ j k _ => j = None /\ match k with Some k => reads_state t k = false | None => True end
  end.

Definition run_code (ops : list LirOp) (j : Jump) (n : mach) : option (BlockId * mach + Exit (W := W)) :=
  r ← execute_ops l ops [] n; execute_jump j r.1 r.2.

(** What the code of a block reaches, against the block. *)
Definition reaches (live : ValId -> Prop) (r : BbId * mach + Outcome W) (c : option (BlockId * mach + Exit (W := W))) : Prop :=
  match r with
  | inl (b, m) => exists n, c = Some (inl (block_of b, n)) /\ related live m n
  | inr o => exists n, c = Some (inr (o_success o, default 0 (o_metadata o), n)) /\ alike (o_machine o) n
  end.

Lemma value_commit (m : mach) values v : reads_state t v = false -> value (commit_values ail apv t m values) v = value m v.
Proof. intros Hv. by apply denote_state. Qed.
Lemma related_commit live (m n : mach) values :
  related live m n -> (forall v, live v -> reads_state t v = false) ->
  related live (commit_values ail apv t m values) (with_cpu_bytes n (m_cpu (commit_values ail apv t m values))).
Proof. intros [H1 H2 H3 H4 H5 H6] Hl. split; try done. intros v d Hd Hv. rewrite value_commit by auto. by apply H6. Qed.

Lemma exit_acts fuel metadata values k success s s' live :
  (s ← commit t fuel values s; match k with Some k => s ← emit_value t fuel k s; emit (LStorePtrImm K Qword 0) s | None => Some s end) = Some s' ->
  state_ok s -> (forall v, v ∈ block_ids (BCommitAndExit metadata values None k success) -> ready live v) -> lowerable (BCommitAndExit metadata values None k success) ->
  exists ops, emits s s' ops /\ (final s' -> forall (m n : mach) r, related live m n -> run_block ail apv t (BCommitAndExit metadata values None k success) m = Some r ->
    fits 0 ops = true -> reaches live r (run_code ops (JExit success metadata false) n)).
Proof.
  destruct (commit t fuel values s) as [s1|] eqn:E; [|done]. cbn [mbind option_bind block_ids lowerable]. intros He Hs Hl [_ Hk].
  destruct (commit_run fuel values s s1 live E Hs) as (a & Ha & Hca).
  { intros x v Hx Hv. apply Hl. apply elem_of_app. left. unfold commit_ids. apply list_elem_of_join. eexists. split; [|apply list_elem_of_fmap; by exists x].
    destruct x as [[|sz o|sz o] w]; cbn [fst snd pushes dest_values] in *; rewrite !elem_of_cons in *; tauto. }
  destruct k as [k|]; cbn [option_ids app] in *.
  - destruct (emit_value t fuel k s1) as [s2|] eqn:E2; [|done]. cbn [mbind option_bind] in He.
    destruct (emit_value_spec fuel k s1 s2 E2 (em_ok _ _ _ Ha Hs)) as (b & Hb & Hcb). pose proof (emit_emits _ _ _ He) as Hc.
    pose proof (emits_trans _ _ _ _ _ Hb Hc) as Hbc. exists (a ++ b ++ [LStorePtrImm K Qword 0]). split; [exact (emits_trans _ _ _ _ _ Ha Hbc)|].
    intros Hf m n r Hr [= <-] Hfit. pose proof (Hca (final_emits _ _ _ _ _ _ Hbc Hf) m n Hr (fits_left _ _ _ Hfit)) as Ea.
    change 0%nat with (length (A := Z) []) in Hfit. rewrite (fits_app l a _ [] n _ _ Ea) in Hfit. apply andb_prop in Hfit as [_ Hfit].
    unfold run_code. rewrite execute_ops_app, Ea. cbn [mbind option_bind fst snd].
    set (only := fun w => live w /\ reads_state t w = false).
    assert (related only m n) as Hro by (apply (related_sub live only m n Hr); by intros v []).
    pose proof (related_commit only m n values Hro ltac:(by intros v [])) as Hrc.
    destruct (computes_then s2 s' b [LStorePtrImm K Qword 0] only [k] _ _ [] Hc (Hcb only ltac:(intros w Hw Hdw; split; [apply (Hl k); [set_solver|done|done]|by apply (reads_state_part t k w)])) Hf Hrc Hfit) as [-> _].
    cbn [fmap list_fmap reverse rev_append app execute_ops execute_op mbind option_bind fst snd execute_jump]. rewrite value_commit by done.
    cbn [assert bool_decide decide_rel mbind option_bind reaches o_success o_metadata o_machine]. eexists. split; [done|].
    destruct Hr as [H1 H2 H3 H4 _ _]. split; [done| |done|done]. cbn. apply store_k_bytes.
  - injection He as <-. exists a. split; [done|]. intros Hf m n r Hr [= <-] Hfit. unfold run_code. rewrite (Hca Hf m n Hr Hfit). eexists. split; [done|].
    destruct Hr as [H1 H2 H3 H4 _ _]. by split.
Qed.

Lemma block_acts fuel bb s s' live :
  lower_block t fuel bb s = Some s' -> state_ok s -> lowerable bb -> (forall v, v ∈ block_ids bb -> ready live v) -> steady live (default [] (written bb)) ->
  exists s1 ops j, emits s s1 ops /\ seal j s1 = Some s' /\ jump_iter j ≡ₚ block_of <$> next_blocks bb /\ j <> JUnreachable /\
    (final s' -> forall (m n : mach) r, related live m n -> run_block ail apv t bb m = Some r -> fits 0 ops = true -> reaches live r (run_code ops j n)).
Proof.
  intros He Hs Hb Hl Hst. assert (forall s1 j, seal j s1 = Some s' -> final s' -> final s1) as Hfin.
  { intros s1 j Hj [F1 F2 F3]. unfold seal, seal_block in Hj. destruct (lblocks s1 !! cur s1) as [x|]; [|done]. cbn [mbind option_bind] in Hj.
    destruct (assert _); [|done]. injection Hj as <-. by split. }
  destruct bb as [next|cond z nz|e next|op ok ex|metadata values j k success]; cbn [lower_block] in He.
  - exists s, [], (JNext (block_of next)). split; [apply emits_refl|]. split; [done|]. split; [done|]. split; [done|]. intros _ m n r Hr [= <-] _. by exists n.
  - destruct (emit_value t fuel cond s) as [s1|] eqn:E; [|done]. cbn [mbind option_bind] in He. destruct (emit_value_spec fuel cond s s1 E Hs) as (a & Ha & Hca).
    exists s1, a, (JCond (block_of z) (block_of nz)). split; [done|]. split; [done|]. split; [done|]. split; [done|]. intros Hf m n r Hr [= <-] Hfit.
    unfold run_code. rewrite (Hca live (Hl cond (list_elem_of_here _ _)) (Hfin _ _ He Hf) m n [] Hr Hfit). exists n. split; [|done]. cbn. by destruct (value m cond =? 0).
  - destruct (lower_seq t fuel e s) as [s1|] eqn:E; [|done]. cbn [mbind option_bind] in He. destruct (seq_acts fuel e s s1 live E Hs Hb Hl Hst) as (a & Ha & Hca).
    exists s1, a, (JNext (block_of next)). split; [done|]. split; [done|]. split; [done|]. split; [done|]. intros Hf m n r Hr Hrun Hfit. cbn [run_block] in Hrun.
    destruct (run_seq ail apv t e m) as [m'|] eqn:Em; [|done]. injection Hrun as <-. destruct (Hca (Hfin _ _ He Hf) m n m' Hr Em Hfit) as (n' & En & Hr').
    unfold run_code. rewrite En. by exists n'.
  - destruct (lower_fallible t fuel op s) as [s1|] eqn:E; [|done]. cbn [mbind option_bind] in He. destruct (fallible_acts fuel op s s1 live E Hs Hb Hl Hst) as (a & Ha & Hca).
    exists s1, a, (JCond (block_of ex) (block_of ok)). split; [done|]. split; [done|]. split; [apply Permutation_swap|]. split; [done|]. intros Hf m n r Hr Hrun Hfit. cbn [run_block] in Hrun.
    destruct (run_fallible ail apv t op m) as [[o m']|] eqn:Em; [|done]. injection Hrun as <-. destruct (Hca (Hfin _ _ He Hf) m n m' o Hr Em Hfit) as (n' & En & Hr').
    unfold run_code. rewrite En. exists n'. split; [|done]. by destruct o.
  - destruct Hb as [-> Hk]. destruct (commit t fuel values s) as [s1|] eqn:E; [|done]. cbn [mbind option_bind] in He.
    destruct (match k with Some k => _ | None => _ end) as [s2|] eqn:E2 in He; [|done]. cbn [mbind option_bind] in He.
    destruct (exit_acts fuel metadata values k success s s2 live) as (a & Ha & Hca); [by rewrite E|done|done|by split|].
    exists s2, a, (JExit success metadata false). split; [done|]. split; [done|]. split; [done|]. split; [done|]. intros Hf. apply Hca. by apply (Hfin _ _ He).
Qed.
End blocks.
