(* ===== verification/LirGraph.v ===== *)
(** * Lowered graphs

    The code that [MirToLir::build] of [sem86-core/src/codegen/lir/mod.rs] emits
    for a graph of basic blocks runs like the graph, whenever every value that is
    kept in a definition is defined above its uses. *)
From stdpp Require Import gmap sorting.
From S2P Require Import Prelude Exceptions IlOps Arch MemArea IlCmd Scc ValTree ValBuild ValSound CpuBytes Mir MirSim BbOpt BbTree BbRun Dom Lir LirOpt LirLower LirValues LirCode.

(** ** Definitions on a path *)

Definition placed_at (defs : list (list ValId)) (l : list BbId) (v : ValId) : Prop := exists u vals, u ∈ l /\ defs !! u = Some vals /\ v ∈ vals.

Record placement (t : list ValNode) (g : list Bb) (defs : list (list ValId)) : Prop := {
  pl_use : forall b l bb v w, path g b l -> g !! b = Some bb -> v ∈ block_ids bb -> part_of t v w -> w ∈ mjoin defs -> placed_at defs l w;
  pl_part : forall b l pre v post n a w, path g b (b :: l) -> defs !! b = Some (pre ++ v :: post) -> t !! v = Some n -> a ∈ referenced_nodes n -> part_of t a w -> w ∈ mjoin defs ->
    placed_at defs l w \/ w ∈ pre;
}.

(** No block writes a variable of a value that is in a definition then. *)
Definition undisturbed (t : list ValNode) (g : list Bb) (defs : list (list ValId)) : Prop := forall b l bb v x,
  path g b l -> g !! b = Some bb -> placed_at defs l v -> x ∈ default [] (written bb) -> uses t x v = false.

Lemma path_head g b l : path g b l -> exists l', l = b :: l'.
Proof. intros []; by eexists. Qed.
Lemma placed_app defs l l' v : placed_at defs (l ++ l') v <-> placed_at defs l v \/ placed_at defs l' v.
Proof.
  split.
  - intros (u & vals & [Hu|Hu]%elem_of_app & Hd & Hv); [left|right]; by exists u, vals.
  - intros [(u & vals & Hu & Hd & Hv)|(u & vals & Hu & Hd & Hv)]; exists u, vals; rewrite elem_of_app; tauto.
Qed.
Lemma placed_here defs b vals v : defs !! b = Some vals -> placed_at defs [b] v <-> v ∈ vals.
Proof.
  intros Hd. split.
  - intros (u & vals' & ->%list_elem_of_singleton & Hd' & Hv). by assert (vals' = vals) as <- by congruence.
  - intros Hv. exists b, vals. split; [by left|done].
Qed.

(** ** Switching and sealing *)

Lemma emits_length s s' ops : emits s s' ops -> is_Some (lblocks s !! cur s) -> length (lblocks s') = length (lblocks s).
Proof. intros He [x Hx]. by rewrite (em_blocks _ _ _ He x Hx), length_insert. Qed.
Lemma seal_inv j s s' : seal j s = Some s' -> exists x, lblocks s !! cur s = Some x /\ unreachable x = true
  /\ lblocks s' = <[cur s := {| operations := operations x; l_next := j |}]> (lblocks s) /\ cur s' = cur s /\ value_defs s' = value_defs s
  /\ var_defs s' = var_defs s /\ lb_consts (lw_builder s') = lb_consts (lw_builder s) /\ (state_ok s -> state_ok s').
Proof.
  unfold seal, seal_block. destruct (lblocks s !! cur s) as [x|]; [|done]. cbn [mbind option_bind]. destruct (unreachable x) eqn:E; [|done]. intros [= <-].
  exists x. do 7 (split; [done|]). intros [H1 []]. split; [exact H1|by split].
Qed.

(** [switch_to] only changes the current block. *)
Abbreviation switched b s := (with_builder s (lir_switch_to (block_of b) (lw_builder s))).
Lemma switched_ok b s : state_ok s -> state_ok (switched b s).
Proof. intros [H1 []]. split; [exact H1|by split]. Qed.

(** *** What lowering adds, whatever it is for *)

Definition no_vars : gmap VarId DefId := ∅.
Definition no_values : list (option DefId) := [].
Lemma no_var x d : ~ no_vars !! x = Some d.
Proof. unfold no_vars. by rewrite lookup_empty. Qed.
Lemma no_value v d : ~ no_values !! v = Some d.
Proof. done. Qed.

Section names.
Context {W : Type} `{ctx : ExecCtx W} `{sf : SoftFloat} `{lay : Layout}.
Context (t : list ValNode) (Ht : ordered t) (Hruns : never_panics t) (g : list Bb) (Hlow : Forall (lowerable t) g).

Lemma define_values_emits efuel vals s s' : each (define_value t efuel) vals s = Some s' -> state_ok s -> exists ops, emits s s' ops.
Proof.
  revert s. induction vals as [|v vals IH]; intros s; cbn [each]; [intros [= <-] _; exists []; apply emits_refl|].
  unfold define_value. destruct (emit_value_nodef t efuel v s) as [s1|] eqn:E; [|done]. cbn [mbind option_bind].
  destruct (value_defs s1 !! v) as [[d|]|]; cbn [mbind option_bind]; try done. destruct (emit (LStore d) s1) as [s2|] eqn:E2; [|done]. cbn [mbind option_bind]. intros He Hs.
  destruct (nodef_spec (W := W) 0 0 t Ht Hruns {| consts := []; blocks := []; num_defs := 0 |} no_vars no_values
    (fun x d H => False_ind _ (no_var x d H)) (fun v d H => False_ind _ (no_value v _ H)) efuel v s s1 E Hs) as (a & Ha & _).
  pose proof (emits_trans _ _ _ _ _ Ha (emit_emits _ _ _ E2)) as Ha2. destruct (IH s2 He (em_ok _ _ _ Ha2 Hs)) as (b & Hb).
  eexists. exact (emits_trans _ _ _ _ _ Ha2 Hb).
Qed.
Lemma lower_block_emits efuel bb s s' :
  lower_block t efuel bb s = Some s' -> state_ok s -> lowerable t bb -> exists s1 ops j, emits s s1 ops /\ seal j s1 = Some s'.
Proof.
  intros He Hs Hb. destruct (block_acts (W := W) 0 0 t Ht Hruns {| consts := []; blocks := []; num_defs := 0 |} no_vars no_values
    (fun x d H => False_ind _ (no_var x d H)) (fun v d H => False_ind _ (no_value v _ H)) (fun x y d H _ => False_ind _ (no_var x d H)) (fun v w d H _ => False_ind _ (no_value v _ H)) (fun x v d H _ => no_var x d H)
    efuel bb s s' (fun _ => True) He Hs Hb) as (s1 & ops & j & H1 & H2 & _); [by intros v _ w _ _|by intros v x _ (d & ?)|]. by exists s1, ops, j.
Qed.
Lemma lower_at_ok efuel reached defs b s s' :
  lower_at t g efuel reached defs b s = Some s' -> state_ok s -> state_ok s' /\ value_defs s' = value_defs s.
Proof.
  unfold lower_at. destruct (g !! b) as [bb|] eqn:Hb; [|done]. cbn [mbind option_bind]. destruct (defs !! b) as [vals|]; [|done]. cbn [mbind option_bind].
  case_decide; [|by intros [= <-]]. destruct (each _ vals _) as [s1|] eqn:E; [|done]. cbn [mbind option_bind]. intros He Hs.
  destruct (define_values_emits efuel vals _ s1 E (switched_ok b s Hs)) as [a Ha]. pose proof (em_ok _ _ _ Ha (switched_ok b s Hs)) as Hs1.
  destruct (lower_block_emits efuel bb s1 s' He Hs1) as (s2 & ops & j & H1 & H2); [rewrite list.Forall_forall in Hlow; apply Hlow; by eapply list_elem_of_lookup_2|].
  destruct (seal_inv j s2 s' H2) as (x & _ & _ & _ & _ & Hvd & _ & _ & Hok). split; [by apply Hok, (em_ok _ _ _ H1)|].
  by rewrite Hvd, (em_values _ _ _ H1), (em_values _ _ _ Ha).
Qed.
Lemma lower_all_ok efuel reached defs order s s' :
  each (lower_at t g efuel reached defs) order s = Some s' -> state_ok s -> state_ok s' /\ value_defs s' = value_defs s.
Proof.
  revert s. induction order as [|b order IH]; intros s; cbn [each]; [by intros [= <-]|]. destruct (lower_at _ _ _ _ _ b s) as [s1|] eqn:E; [|done]. cbn [mbind option_bind].
  intros He Hs. destruct (lower_at_ok _ _ _ _ _ _ E Hs) as [Hs1 Hv1]. destruct (IH s1 He Hs1) as [Hs2 Hv2]. split; [done|congruence].
Qed.
End names.

Section graph.
Context {W : Type} `{ctx : ExecCtx W} `{sf : SoftFloat} `{lay : Layout} (ail apv : Z).
Context (t : list ValNode) (Ht : ordered t) (Hruns : never_panics t).
Context (g : list Bb) (defs : list (list ValId)) (Hp : placement t g defs) (Hu : undisturbed t g defs) (Hlow : Forall (lowerable t) g).
Context (l : Lir) (V : gmap VarId DefId) (D : list (option DefId)).
Context (HV : forall x d, V !! x = Some d -> d < MAX_NUM_DEFS) (HD : forall v d, D !! v = Some (Some d) -> d < MAX_NUM_DEFS).
Context (HVi : forall x y d, V !! x = Some d -> V !! y = Some d -> x = y) (HDi : forall v w d, D !! v = Some (Some d) -> D !! w = Some (Some d) -> v = w).
Context (HVD : forall x v d, V !! x = Some d -> D !! v = Some (Some d) -> False).
Context (HDd : forall v, defined D v <-> v ∈ mjoin defs).
Abbreviation mach := (Machine W).
Abbreviation value m := (denote (env_of (W := W) ail apv m) t).
Abbreviation related := (related ail apv t V D).
Abbreviation final := (final l V D).
Abbreviation ready := (ready t D).
Abbreviation reaches := (reaches ail apv t V D).

Lemma define_value_acts efuel v s s' :
  define_value t efuel v s = Some s' -> state_ok s ->
  exists ops, emits s s' ops /\ forall live, (forall n a, t !! v = Some n -> a ∈ referenced_nodes n -> ready live a) ->
    final s' -> forall (m n : mach), related live m n -> fits 0 ops = true -> exists n', execute_ops l ops [] n = Some ([], n') /\ related (fun w => live w \/ w = v) m n'.
Proof.
  unfold define_value. destruct (emit_value_nodef t efuel v s) as [s1|] eqn:E; [|done]. cbn [mbind option_bind]. intros He Hs.
  destruct (value_defs s1 !! v) as [[d|]|] eqn:Ed; cbn [mbind option_bind] in He; try done. pose proof (emit_emits _ _ _ He) as Hb.
  destruct (nodef_spec ail apv t Ht Hruns l V D HV HD efuel v s s1 E Hs) as (a & Ha & Hca). exists (a ++ [LStore d]). split; [by apply (emits_trans s s1 s')|].
  intros live Hl Hf m n Hr Hfit. destruct (computes_then ail apv t l V D s1 s' a [LStore d] live [v] m n [] Hb (Hca live Hl) Hf Hr Hfit) as [-> _].
  assert (D !! v = Some (Some d)) as HDv by (by rewrite <- (fi_values _ _ _ _ (final_emits _ _ _ _ _ _ Hb Hf))).
  cbn [fmap list_fmap reverse rev_append app execute_ops execute_op]. rewrite (proj2 (Z.ltb_lt _ _) (HD v d HDv)). cbn [assert mbind option_bind fst snd].
  eexists. split; [done|]. destruct Hr as [H1 H2 H3 H4 H5 H6]. split; try done; cbn [with_var m_vars].
  - intros x e Hx. rewrite decide_False; [by apply H5|]. intros ->. by apply (HVD x v d).
  - intros w e Hw Hlw. case_decide as Hed; [subst e; by rewrite (HDi w v d Hw HDv)|]. destruct Hlw as [Hlw| ->]; [by apply H6|congruence].
Qed.

Definition parts_first (vals : list ValId) (live : ValId -> Prop) : Prop := forall pre v post n a w,
  vals = pre ++ v :: post -> t !! v = Some n -> a ∈ referenced_nodes n -> part_of t a w -> defined D w -> live w \/ w ∈ pre.

Lemma define_values_acts efuel vals s s' :
  each (define_value t efuel) vals s = Some s' -> state_ok s ->
  exists ops, emits s s' ops /\ forall live, parts_first vals live -> final s' -> forall (m n : mach), related live m n -> fits 0 ops = true ->
    exists n', execute_ops l ops [] n = Some ([], n') /\ related (fun w => live w \/ w ∈ vals) m n'.
Proof.
  revert s. induction vals as [|v vals IH]; intros s; cbn [each].
  - intros [= <-] _. exists []. split; [apply emits_refl|]. intros live _ _ m n Hr _. exists n. split; [done|]. apply (related_sub ail apv t V D live); [done|]. by intros w [|?%elem_of_nil].
  - destruct (define_value t efuel v s) as [s1|] eqn:E; [|done]. cbn [mbind option_bind]. intros He Hs.
    destruct (define_value_acts efuel v s s1 E Hs) as (a & Ha & Hca). destruct (IH s1 He (em_ok _ _ _ Ha Hs)) as (b & Hb & Hcb).
    exists (a ++ b). split; [by apply (emits_trans s s1 s')|]. intros live Hl Hf m n Hr Hfit.
    destruct (Hca live) with (m := m) (n := n) as (n1 & E1 & Hr1); [|by apply (final_emits _ _ _ _ _ _ Hb)|done|by apply fits_left in Hfit|].
    { intros u x Hn Hx w Hw Hd. by destruct (Hl [] v vals u x w eq_refl Hn Hx Hw Hd) as [|?%elem_of_nil]. }
    change 0%nat with (length (A := Z) []) in Hfit. rewrite (fits_app l a b [] n _ _ E1) in Hfit. apply andb_prop in Hfit as [_ Hfit].
    destruct (Hcb (fun w => live w \/ w = v)) with (m := m) (n := n1) as (n2 & E2 & Hr2); [|done..|].
    { intros pre u post x y w -> Hn Hx Hw Hd. destruct (Hl (v :: pre) u post x y w eq_refl Hn Hx Hw Hd) as [|[->|]%elem_of_cons]; tauto. }
    exists n2. rewrite execute_ops_app, E1. split; [done|]. apply (related_sub ail apv t V D _ _ m n2 Hr2). intros w. rewrite elem_of_cons. tauto.
Qed.

(** The code of block [b] does what the block does, below [b :: l0]. *)
Definition block_correct (b : BbId) (bb : Bb) (ops : list LirOp) (j : Jump) : Prop :=
  forall l0 (m n : mach) r, path g b (b :: l0) -> related (placed_at defs l0) m n -> run_block ail apv t bb m = Some r -> fits 0 ops = true ->
  reaches (placed_at defs (b :: l0)) r (run_code l ops j n).

Definition block_done (b : BbId) (s : Lower) : Prop := exists bb ops j, g !! b = Some bb /\ lblocks s !! block_of b = Some {| operations := ops; l_next := j |}
  /\ jump_iter j ≡ₚ block_of <$> next_blocks bb /\ j <> JUnreachable /\ (final s -> block_correct b bb ops j).

Record lowering (todo : list BbId) (reached : gset BbId) (s : Lower) : Prop := {
  lo_length : length (lblocks s) = S (length g);
  lo_ok : state_ok s;
  lo_entry : lblocks s !! 0%nat = Some {| operations := []; l_next := JNext (block_of 0) |};
  lo_todo : forall b, b ∈ todo -> (b < length g)%nat -> lblocks s !! block_of b = Some block_default;
  lo_done : forall b, b ∉ todo -> b ∈ reached -> (b < length g)%nat -> block_done b s;
  lo_skipped : forall b, b ∉ reached -> (b < length g)%nat -> lblocks s !! block_of b = Some block_default;
}.

Lemma seal_final j s s' : seal j s = Some s' -> final s' -> final s.
Proof.
  intros Hs [F1 F2 F3]. destruct (seal_inv j s s' Hs) as (x & _ & _ & _ & _ & Hvd & Hvar & Hcs & _). split; [by rewrite <- Hcs|by rewrite <- Hvar|by rewrite <- Hvd].
Qed.
Lemma sealed_block s0 s1 s2 c ops j :
  emits s0 s1 ops -> seal j s1 = Some s2 -> cur s0 = c -> lblocks s0 !! c = Some block_default ->
  lblocks s2 = <[c := {| operations := ops; l_next := j |}]> (lblocks s0) /\ (state_ok s0 -> state_ok s2) /\ (final s2 -> final s0).
Proof.
  intros He Hs Hc Hd. destruct (seal_inv j s1 s2 Hs) as (x & Hx & _ & Hl & _ & Hvd & Hvar & Hcs & Hok). rewrite <- Hc in Hd. pose proof (em_blocks _ _ _ He _ Hd) as Hb.
  rewrite Hb, (em_current _ _ _ He), list_lookup_insert_eq in Hx by (by apply lookup_lt_Some in Hd). injection Hx as <-.
  split; [|split].
  - rewrite Hl, Hb, (em_current _ _ _ He), list_insert_insert_eq, Hc. done.
  - intros H. by apply Hok, (em_ok _ _ _ He).
  - intros Hf. by apply (final_emits l V D s0 s1 ops He), (seal_final j s1 s2).
Qed.

(** Values are ready where they are used. *)
Lemma uses_ready b l0 bb v : path g b l0 -> g !! b = Some bb -> v ∈ block_ids bb -> ready (placed_at defs l0) v.
Proof. intros Hl Hb Hv w Hw Hd. apply (pl_use _ _ _ Hp b l0 bb v w Hl Hb Hv Hw). by apply HDd. Qed.
Lemma block_steady b l0 bb : path g b l0 -> g !! b = Some bb -> steady t D (placed_at defs l0) (default [] (written bb)).
Proof. intros Hl Hb v x Hv _ Hx. by apply (Hu b l0 bb). Qed.
Lemma block_parts_first b l0 vals : path g b (b :: l0) -> defs !! b = Some vals -> parts_first vals (placed_at defs l0).
Proof.
  intros Hl Hd pre v post n a w -> Hn Ha Hw Hdw. apply (pl_part _ _ _ Hp b l0 pre v post n a w Hl Hd Hn Ha Hw). by apply HDd.
Qed.

Lemma lower_block_at efuel bb b s0 s1 s2 vals :
  g !! b = Some bb -> defs !! b = Some vals -> each (define_value t efuel) vals s0 = Some s1 -> lower_block t efuel bb s1 = Some s2 -> state_ok s0 ->
  cur s0 = block_of b -> lblocks s0 !! block_of b = Some block_default -> (exists l0, path g b (b :: l0)) ->
  (final s2 -> final s0) /\ state_ok s2 /\ exists ops j, lblocks s2 = <[block_of b := {| operations := ops; l_next := j |}]> (lblocks s0)
    /\ jump_iter j ≡ₚ block_of <$> next_blocks bb /\ j <> JUnreachable /\ (final s2 -> block_correct b bb ops j).
Proof.
  intros Hb Hd Hdef Hlb Hs Hc Hdflt [l0 Hl0]. destruct (define_values_acts efuel vals s0 s1 Hdef Hs) as (a & Ha & Hca). pose proof (em_ok _ _ _ Ha Hs) as Hs1.
  assert (lowerable t bb) as Hlow' by (rewrite list.Forall_forall in Hlow; apply Hlow; by eapply list_elem_of_lookup_2).
  assert (forall l1, path g b (b :: l1) -> exists s1' ops j, emits s1 s1' ops /\ seal j s1' = Some s2 /\ jump_iter j ≡ₚ block_of <$> next_blocks bb /\ j <> JUnreachable
    /\ (final s2 -> forall (m n : mach) r, related (placed_at defs (b :: l1)) m n -> run_block ail apv t bb m = Some r -> fits 0 ops = true -> reaches (placed_at defs (b :: l1)) r (run_code l ops j n))) as Hall.
  { intros l1 Hl1. destruct (block_acts ail apv t Ht Hruns l V D HV HD HVi HDi HVD efuel bb s1 s2 (placed_at defs (b :: l1)) Hlb Hs1 Hlow') as (s1' & ops & j & He & Hj & Hi & Hnu & Hrun).
    { intros v Hv. by apply (uses_ready b _ bb). } { by apply (block_steady b). }
    by exists s1', ops, j. }
  destruct (Hall l0 Hl0) as (s1' & ops & j & He & Hj & Hi & Hnu & _). destruct (sealed_block s0 s1' s2 _ _ j (emits_trans _ _ _ _ _ Ha He) Hj Hc Hdflt) as (Hl2 & Hok2 & Hf2).
  split; [done|]. split; [by apply Hok2|]. exists (a ++ ops), j. split; [done|]. split; [done|]. split; [done|]. intros Hf l1 m n r Hl1 Hr Hrun Hfit.
  destruct (Hall l1 Hl1) as (s1'' & ops' & j' & He' & Hj' & _ & _ & Hcode). destruct (sealed_block s0 s1'' s2 _ _ j' (emits_trans _ _ _ _ _ Ha He') Hj' Hc Hdflt) as (Hl2' & _ & _).
  assert (lblocks s2 !! block_of b = Some {| operations := a ++ ops; l_next := j |}) as E1 by (rewrite Hl2; apply list_lookup_insert_eq; by apply lookup_lt_Some in Hdflt).
  assert (lblocks s2 !! block_of b = Some {| operations := a ++ ops'; l_next := j' |}) as E2 by (rewrite Hl2'; apply list_lookup_insert_eq; by apply lookup_lt_Some in Hdflt).
  assert (ops' = ops /\ j' = j) as [-> ->] by (rewrite E1 in E2; injection E2 as Eo ->; by apply app_inv_head in Eo as ->).
  pose proof (final_emits l V D _ _ _ He' (seal_final _ _ _ Hj' Hf)) as Hf1.
  destruct (Hca (placed_at defs l1) (block_parts_first b l1 vals Hl1 Hd) Hf1 m n Hr (fits_left _ _ _ Hfit)) as (n1 & En1 & Hr1).
  change 0%nat with (length (A := Z) []) in Hfit. rewrite (fits_app l a ops [] n _ _ En1) in Hfit. apply andb_prop in Hfit as [_ Hfit].
  unfold run_code. rewrite execute_ops_app, En1. cbn [mbind option_bind fst snd]. apply (Hcode Hf m n1 r); [|done|done].
  apply (related_sub ail apv t V D _ _ m n1 Hr1). intros v Hv. change (b :: l1) with ([b] ++ l1) in Hv. apply placed_app in Hv as [Hv|Hv]; [|by left]. right. by apply (placed_here defs b).
Qed.

(** *** All blocks *)

Lemma run_block_next (m : mach) bb b m' : run_block ail apv t bb m = Some (inl (b, m')) -> b ∈ next_blocks bb.
Proof.
  destruct bb as [next|cond z nz|e next|op ok ex|]; cbn [run_block next_blocks]; [..|done].
  - intros [= <- _]. by left.
  - intros [= <- _]. destruct (_ =? 0); [by left|right; by left].
  - destruct (run_seq ail apv t e m); [|done]. intros [= <- _]. by left.
  - destruct (run_fallible ail apv t op m) as [[o m1]|]; [|done]. intros [= <- _]. destruct o; [by left|right; by left].
Qed.

Context (reached : gset BbId) (Hreached : forall b, b ∈ reached <-> exists l0, path g b l0).

Lemma lower_at_step efuel b todo s s' :
  lower_at t g efuel reached defs b s = Some s' -> NoDup (b :: todo) -> lowering (b :: todo) reached s -> lowering todo reached s' /\ (final s' -> final s).
Proof.
  unfold lower_at. destruct (g !! b) as [bb|] eqn:Hb; [|done]. cbn [mbind option_bind]. destruct (defs !! b) as [vals|] eqn:Hd; [|done]. cbn [mbind option_bind].
  pose proof (lookup_lt_Some _ _ _ Hb) as Hlt. intros He [Hnb Hnd]%list.NoDup_cons [H1 H2 H3 H4 H5 H6]. case_decide as Hrb.
  - destruct (each (define_value t efuel) vals (switched b s)) as [s1|] eqn:E; [|done]. cbn [mbind option_bind] in He.
    destruct (lower_block_at efuel bb b (switched b s) s1 s' vals Hb Hd E He (switched_ok b s H2) eq_refl) as (Hf & Hok & ops & j & Hl & Hi & Hnu & Hrun).
    { apply H4; [by left|done]. } { apply Hreached in Hrb as [l0 Hl0]. destruct (path_head _ _ _ Hl0) as [l1 ->]. by exists l1. }
    assert (forall c, c <> block_of b -> lblocks s' !! c = lblocks s !! c) as Hother by (intros c Hc; rewrite Hl; by apply list_lookup_insert_ne).
    assert (final s' -> final s) as Hfs by (intros [F1 F2 F3]%Hf; by split). split; [|done]. split; [by rewrite Hl, length_insert|done|by rewrite Hother| | |].
    + intros c Hc Hclt. rewrite Hother; [by apply H4; [right|]|]. unfold block_of. intros [= ->]. done.
    + intros c Hc Hrc Hclt. destruct (decide (c = b)) as [->|Hcb].
      * exists bb, ops, j. split; [done|]. split; [|done]. rewrite Hl. apply list_lookup_insert_eq. cbn. rewrite H1. unfold block_of. lia.
      * destruct (H5 c) as (bb' & ops' & j' & Hb' & Hl' & Hi' & Hnu' & Hrun'); [by intros [|]%elem_of_cons|done|done|]. exists bb', ops', j'. split; [done|].
        rewrite Hother by (unfold block_of; congruence). split; [done|]. split; [done|]. split; [done|]. intros Hf'. by apply Hrun', Hfs.
    + intros c Hc Hclt. rewrite Hother; [by apply H6|]. unfold block_of. intros [= ->]. done.
  - injection He as <-. split; [|done]. split; [done|done|done| | |done].
    + intros c Hc. apply H4. by right.
    + intros c Hc Hrc. apply H5; [|done]. by intros [->|]%elem_of_cons.
Qed.
Lemma lower_all efuel order s s' :
  each (lower_at t g efuel reached defs) order s = Some s' -> NoDup order -> lowering order reached s -> lowering [] reached s' /\ (final s' -> final s).
Proof.
  revert s. induction order as [|b order IH]; intros s; cbn [each]; [by intros [= <-]|]. destruct (lower_at _ _ _ _ _ b s) as [s1|] eqn:E; [|done]. cbn [mbind option_bind].
  intros He Hnd Hlo. destruct (lower_at_step efuel b order s s1 E Hnd Hlo) as [Hlo1 Hf1]. apply list.NoDup_cons in Hnd as [_ Hnd].
  destruct (IH s1 He Hnd Hlo1) as [Hlo2 Hf2]. split; [done|]. intros Hf. by apply Hf1, Hf2.
Qed.

(** The code runs as the graph does. *)
Lemma graph_runs s n b l0 (m k : mach) o :
  lowering [] reached s -> final s -> blocks l = lblocks s -> Forall (fun x => fits 0 (operations x) = true) (blocks l) ->
  path g b (b :: l0) -> related (placed_at defs l0) m k -> run_graph ail apv t n g b m = Some o ->
  exists k', execute_from n l (block_of b) k = Some (o_success o, default 0 (o_metadata o), k') /\ alike (o_machine o) k'.
Proof.
  intros [H1 H2 H3 H4 H5 _] Hf Hbl Hfits. revert b l0 m k. induction n as [|n IH]; intros b l0 m k Hl Hr; [done|]. cbn [run_graph execute_from].
  destruct (g !! b) as [bb|] eqn:Hb; [|done]. cbn [mbind option_bind]. destruct (run_block ail apv t bb m) as [r|] eqn:Er; [|done]. cbn [mbind option_bind].
  destruct (H5 b) as (bb' & ops & j & Hb' & Hlb & Hi & _ & Hrun); [by intros ?%elem_of_nil|apply Hreached; by eexists|by apply lookup_lt_Some in Hb|].
  assert (bb' = bb) as -> by congruence. rewrite Hbl, Hlb. cbn [mbind option_bind]. rewrite <- Hbl in Hlb.
  assert (fits 0 ops = true) as Hfit by (rewrite list.Forall_forall in Hfits; exact (Hfits _ ltac:(by eapply list_elem_of_lookup_2))).
  specialize (Hrun Hf l0 m k r Hl Hr Er Hfit). unfold execute_block. cbn [operations l_next]. change (r ← execute_ops l ops [] k; execute_jump j r.1 r.2) with (run_code l ops j k).
  destruct r as [[b' m']|o']; cbn [LirCode.reaches] in Hrun; destruct Hrun as (k' & -> & Hk); cbn [mbind option_bind].
  - intros Hrest. apply (IH b' (b :: l0) m' k'); [|done|done]. apply (path_step g b (b :: l0) b' Hl). exists bb. split; [done|]. by apply (run_block_next m bb b' m').
  - intros [= <-]. by exists k'.
Qed.
End graph.

(** ** The blocks that are reached *)

Lemma push_new_spec l seen frontier :
  let r := push_new seen frontier l in
  (forall b, b ∈ r.1 <-> b ∈ seen \/ b ∈ l) /\ (forall b, b ∈ r.2 <-> b ∈ frontier \/ (b ∈ l /\ b ∉ seen)).
Proof.
  unfold push_new. revert seen frontier. induction l as [|x l IH]; intros seen frontier; cbn [foldl].
  - cbn. split; intros b; rewrite elem_of_nil; tauto.
  - destruct (IH (if decide (x ∈ seen) then seen else {[ x ]} ∪ seen) (if decide (x ∈ seen) then frontier else x :: frontier)) as [H1 H2].
    cbn [fst snd] in *. assert ((if decide (x ∈ seen) then (seen, frontier) else ({[x]} ∪ seen, x :: frontier))
      = (if decide (x ∈ seen) then seen else {[ x ]} ∪ seen, if decide (x ∈ seen) then frontier else x :: frontier)) as -> by by case_decide.
    split; intros b; [rewrite H1|rewrite H2]; case_decide as Hx; rewrite ?elem_of_cons, ?elem_of_union, ?elem_of_singleton.
    + split; [tauto|]. intros [|[->|]]; tauto.
    + tauto.
    + split; [tauto|]. intros [|[[->|] ?]]; tauto.
    + destruct (decide (b = x)) as [->|]; tauto.
Qed.

Lemma reach_blocks_spec g fuel seen frontier r :
  reach_blocks g fuel seen frontier = Some r ->
  (forall b, b ∈ seen -> b ∈ frontier \/ forall c, next_of g b c -> c ∈ seen) -> (forall b, b ∈ frontier -> b ∈ seen) -> (forall b, b ∈ seen -> exists l, path g b l) ->
  (forall b, b ∈ seen -> b ∈ r) /\ (forall b c, b ∈ r -> next_of g b c -> c ∈ r) /\ (forall b, b ∈ r -> exists l, path g b l).
Proof.
  revert seen frontier. induction fuel as [|fuel IH]; intros seen frontier; destruct frontier as [|b frontier]; cbn [reach_blocks]; try done.
  - intros [= <-] Hc _ Hp. split; [done|]. split; [|done]. intros b c Hb. destruct (Hc b Hb) as [?%elem_of_nil|H]; [done|apply H].
  - intros [= <-] Hc _ Hp. split; [done|]. split; [|done]. intros b' c Hb. destruct (Hc b' Hb) as [?%elem_of_nil|H]; [done|apply H].
  - destruct (g !! b) as [bb|] eqn:Hb; [|done]. cbn [mbind option_bind]. destruct (push_new_spec (next_blocks bb) seen frontier) as [H1 H2].
    destruct (push_new seen frontier (next_blocks bb)) as [seen' frontier']. cbn [fst snd] in H1, H2. intros Hr Hc Hf Hp.
    destruct (IH seen' frontier' Hr) as (A1 & A2 & A3).
    + intros x [Hx|Hx]%H1.
      * destruct (Hc x Hx) as [[->|Hxf]%elem_of_cons|Hn].
        -- right. intros c (bb' & Hb' & Hcb). apply H1. right. congruence.
        -- left. apply H2. by left.
        -- right. intros c Hcn. apply H1. left. by apply Hn.
      * destruct (decide (x ∈ seen)) as [Hs|Hs]; [|left; apply H2; by right].
        destruct (Hc x Hs) as [[->|Hxf]%elem_of_cons|Hn]; [|left; apply H2; by left|right; intros c Hcn; apply H1; left; by apply Hn].
        right. intros c (bb' & Hb' & Hcb). apply H1. right. congruence.
    + intros x [Hx|[Hx _]]%H2; apply H1; [left; apply Hf; by right|by right].
    + intros x [Hx|Hx]%H1; [by apply Hp|]. destruct (Hp b) as [l Hl]; [apply Hf; by left|]. exists (x :: l). apply (path_step g b); [done|]. by exists bb.
    + split; [|done]. intros x Hx. apply A1, H1. by left.
Qed.
Lemma reachability_spec g fuel r : compute_bb_reachability g fuel = Some r -> forall b, b ∈ r <-> exists l, path g b l.
Proof.
  intros Hr. destruct (reach_blocks_spec g fuel _ _ _ Hr) as (H1 & H2 & H3).
  - intros b ->%elem_of_singleton. left. by left.
  - intros b ->%list_elem_of_singleton. by apply elem_of_singleton.
  - intros b ->%elem_of_singleton. exists [0%nat]. constructor.
  - intros b. split; [apply H3|]. intros [l Hl]. induction Hl as [|p l b _ IH Hn]; [by apply H1, elem_of_singleton|by apply (H2 p)].
Qed.

(** ** Before the blocks *)

Lemma lower_start_spec t g :
  lblocks (lower_start t g) = replicate (S (length g)) block_default /\ cur (lower_start t g) = 0%nat /\ state_ok (lower_start t g)
  /\ value_defs (lower_start t g) = replicate (length t) None.
Proof.
  assert (forall n, let b := Nat.iter n (fun b => (lir_create_block b).2) lir_builder_new in
    lb_blocks b = replicate (S n) block_default /\ lb_current b = 0%nat /\ lb_const_map b = ∅ /\ lb_next_def b = 0) as H.
  { induction n as [|n (H1 & H2 & H3 & H4)]; [done|]. cbn [Nat.iter nat_rect]. cbn zeta in *. set (b := nat_rect _ _ _ n) in *. change (Nat.iter n _ _) with b in *.
    cbn [lir_create_block snd with_lb_blocks lb_blocks lb_current lb_const_map lb_next_def]. split; [|done]. rewrite H1. change [block_default] with (replicate 1 block_default).
    rewrite <- replicate_add. f_equal. lia. }
  destruct (H (length g)) as (H1 & H2 & H3 & H4). split; [done|]. split; [done|]. split; [|done]. split.
  - intros v id. unfold lower_start. cbn [lw_builder]. rewrite H3. by rewrite lookup_empty.
  - split; unfold lower_start; cbn [lw_builder value_defs var_defs]; rewrite ?H4; try done.
    + intros v d [Hd _]%lookup_replicate. done.
    + intros v w d [Hd _]%lookup_replicate. done.
Qed.
Lemma new_def_inv v s s' : new_def v s = Some s' -> (v < length (value_defs s))%nat
  /\ s' = {| lw_builder := (define_var (lw_builder s)).2; value_defs := <[v := Some (lb_next_def (lw_builder s))]> (value_defs s); var_defs := var_defs s |}.
Proof.
  unfold new_def. cbn [define_var]. match goal with |- (mbind _ ?o) = _ -> _ => destruct o as [o'|] eqn:E end; [|done]. intros [= <-]. split; [by apply lookup_lt_Some in E|done].
Qed.
Lemma new_defs_spec vals s s' :
  each new_def vals s = Some s' -> state_ok s ->
  state_ok s' /\ lblocks s' = lblocks s /\ cur s' = cur s /\ forall v, defined (value_defs s') v <-> defined (value_defs s) v \/ v ∈ vals.
Proof.
  revert s. induction vals as [|v vals IH]; intros s; cbn [each].
  - intros [= <-] Hs. split; [done|]. split; [done|]. split; [done|]. intros w. rewrite elem_of_nil. tauto.
  - destruct (new_def v s) as [s1|] eqn:E; [|done]. cbn [mbind option_bind]. intros He [H1 [N1 N2 N3 N4 N5 N6]]. apply new_def_inv in E as [Hlt ->].
    destruct (IH _ He) as (A1 & A2 & A3 & A4).
    + split; [exact H1|]. set (d0 := lb_next_def (lw_builder s)) in *.
      assert (forall w d, <[v := Some d0]> (value_defs s) !! w = Some (Some d) -> (w = v /\ d = d0) \/ (w <> v /\ value_defs s !! w = Some (Some d))) as Hins.
      { intros w d. destruct (decide (w = v)) as [->|Hne]; [rewrite list_lookup_insert_eq by done; intros [= ->]; by left|rewrite list_lookup_insert_ne by done; by right]. }
      split; cbn [lw_builder define_var snd lb_next_def var_defs value_defs]; fold d0; fold d0 in N1.
      * lia.
      * intros x d Hx. specialize (N2 x d Hx). fold d0 in N2. lia.
      * intros w d [[-> ->]|[_ Hw]]%Hins; [lia|]. specialize (N3 w d Hw). fold d0 in N3. lia.
      * done.
      * intros w u d [[-> ->]|[Hwv Hw]]%Hins [[-> Hd]|[Huv Hu']]%Hins; [done| | |by apply (N5 w u d)].
        -- specialize (N3 u _ Hu'). fold d0 in N3. lia.
        -- specialize (N3 w _ Hw). fold d0 in N3. lia.
      * intros x w d Hx [[-> ->]|[_ Hw]]%Hins; [specialize (N2 x _ Hx); fold d0 in N2; lia|by apply (N6 x w d)].
    + split; [done|]. split; [done|]. split; [done|]. intros w. rewrite A4, elem_of_cons. cbn [value_defs]. unfold defined. destruct (decide (w = v)) as [->|Hne].
      * rewrite list_lookup_insert_eq by done. split; [tauto|]. intros _. left. by eexists.
      * rewrite list_lookup_insert_ne by done. tauto.
Qed.

(** ** The whole graph *)

Section whole.
Context {W : Type} `{ctx : ExecCtx W} `{sf : SoftFloat} `{lay : Layout} (ail apv : Z).
Context (t : list ValNode) (Ht : ordered t) (Hruns : never_panics t) (g : list Bb) (rank : BbId -> nat) (Hg : ranked g rank) (Hlow : Forall (lowerable t) g).
Context (fuel efuel : nat) (Hfuel : (scc_fuel (length g) (transitions_of g) <= fuel)%nat).
Abbreviation mach := (Machine W).

(** The stack of the interpreter is large enough for every block, and so are
    its definitions. *)
Definition capacity (l : Lir) : Prop := num_defs l < MAX_NUM_DEFS /\ Forall (fun x => fits 0 (operations x) = true) (blocks l).

Lemma lower_graph_inv s :
  lower_graph t g fuel efuel = Some s -> exists defs reached order s1 s2, values_to_define t g fuel = Some defs /\ (forall b, b ∈ reached <-> exists l, path g b l)
    /\ order ≡ₚ seq 0 (length g) /\ seal (JNext (block_of 0)) (lower_start t g) = Some s1 /\ each new_def (mjoin defs) s1 = Some s2
    /\ each (lower_at t g efuel reached defs) order s2 = Some s /\ (0 < length g)%nat.
Proof.
  unfold lower_graph. destruct (iterate_singles _ _ rank fuel (ranked_acyclic g rank Hg) Hfuel) as (order & -> & Hperm & _). cbn [mbind option_bind].
  rewrite single_nodes_map. cbn [mbind option_bind]. destruct (g !! 0%nat) as [bb|] eqn:Hb; [|done]. cbn [mbind option_bind].
  destruct (seal (JNext (block_of 0)) (lower_start t g)) as [s1|] eqn:E1; [|done]. cbn [mbind option_bind].
  destruct (values_to_define t g fuel) as [defs|]; [|done]. cbn [mbind option_bind].
  destruct (compute_bb_reachability g fuel) as [reached|] eqn:Er; [|done]. cbn [mbind option_bind].
  destruct (each new_def (mjoin defs) s1) as [s2|] eqn:E2; [|done]. cbn [mbind option_bind]. intros He.
  exists defs, reached, (reverse order), s1, s2. split; [done|]. split; [by apply (reachability_spec g fuel)|]. split; [by rewrite reverse_Permutation|].
  split; [done|]. split; [done|]. split; [done|]. by apply lookup_lt_Some in Hb.
Qed.

Lemma lowering_start s1 s2 vals order reached :
  seal (JNext (block_of 0)) (lower_start t g) = Some s1 -> each new_def vals s1 = Some s2 -> order ≡ₚ seq 0 (length g) ->
  forall l V D defs, lowering (W := W) ail apv t g defs l V D order reached s2 /\ forall v, defined (value_defs s2) v <-> v ∈ vals.
Proof.
  intros E1 E2 Hperm l V D defs. destruct (lower_start_spec t g) as (L1 & L2 & L3 & L4). destruct (seal_inv _ _ _ E1) as (x & Hx & _ & S2 & S3 & S4 & _ & _ & S7).
  rewrite L1, L2 in Hx. cbn in Hx. injection Hx as <-. rewrite L1, L2 in S2. cbn in S2.
  destruct (new_defs_spec vals s1 s2 E2 (S7 L3)) as (N1 & N2 & N3 & N4). split.
  - split; rewrite ?N2, ?S2; try done.
    + cbn. by rewrite length_replicate.
    + intros b _ Hb. unfold block_of. cbn. by apply lookup_replicate_2.
    + intros b Hb _ Hlt. exfalso. apply Hb. rewrite Hperm. apply elem_of_seq. lia.
    + intros b _ Hb. unfold block_of. cbn. by apply lookup_replicate_2.
  - intros v. rewrite N4, S4, L4. split; [|tauto]. intros [(d & Hd)|]; [|done]. by apply lookup_replicate in Hd as [? _].
Qed.

(** The names in the end are different, and all blocks are lowered for them. *)
Lemma lower_graph_lowering s defs :
  lower_graph t g fuel efuel = Some s -> values_to_define t g fuel = Some defs -> placement t g defs -> undisturbed t g defs -> num_defs (unoptimized (lw_builder s)) < MAX_NUM_DEFS ->
  exists reached, (forall b, b ∈ reached <-> exists l, path g b l) /\ names_ok s
    /\ lowering (W := W) ail apv t g defs (unoptimized (lw_builder s)) (var_defs s) (value_defs s) [] reached s.
Proof.
  intros Hs Hd Hp Hu Hn. set (l := unoptimized (lw_builder s)) in *.
  destruct (lower_graph_inv s Hs) as (defs' & reached & order & s1 & s2 & Hd' & Hreach & Hperm & E1 & E2 & E3 & Hlen). assert (defs' = defs) as -> by congruence.
  destruct (lowering_start s1 s2 _ order reached E1 E2 Hperm l (var_defs s) (value_defs s) defs) as [Hlo Hdef].
  destruct (lower_all_ok t Ht Hruns g Hlow efuel reached defs order s2 s E3 (lo_ok _ _ _ _ _ _ _ _ _ _ _ Hlo)) as [[_ Hnames] Hvd]. exists reached. split; [done|]. split; [done|].
  destruct Hnames as [N1 N2 N3 N4 N5 N6]. assert (lb_next_def (lw_builder s) < MAX_NUM_DEFS) as Hnext by exact Hn.
  assert (forall x d, var_defs s !! x = Some d -> d < MAX_NUM_DEFS) as HV by (intros x d Hx; specialize (N2 x d Hx); lia).
  assert (forall v d, value_defs s !! v = Some (Some d) -> d < MAX_NUM_DEFS) as HD by (intros v d Hv; specialize (N3 v d Hv); lia).
  assert (NoDup order) as Hnd by (rewrite Hperm; apply NoDup_seq).
  assert (forall v, defined (value_defs s) v <-> v ∈ mjoin defs) as HDd by (by rewrite Hvd).
  by destruct (lower_all ail apv t Ht Hruns g defs Hp Hu Hlow l (var_defs s) (value_defs s) HV HD N4 N5 N6 HDd reached Hreach efuel order s2 s E3 Hnd Hlo).
Qed.

Lemma lower_graph_runs s defs :
  lower_graph t g fuel efuel = Some s -> values_to_define t g fuel = Some defs -> placement t g defs -> undisturbed t g defs -> capacity (unoptimized (lw_builder s)) ->
  forall n (m k : mach) o, alike m k -> (forall x d, var_defs s !! x = Some d -> m_vars k d = m_vars m x) -> run_graph ail apv t n g 0 m = Some o ->
  exists k', execute (S n) (unoptimized (lw_builder s)) k = Some (o_success o, default 0 (o_metadata o), k') /\ alike (o_machine o) k'.
Proof.
  intros Hs Hd Hp Hu [Hn Hfits] n m k o Hmk Hvars Hrun. destruct (lower_graph_lowering s defs Hs Hd Hp Hu Hn) as (reached & Hreach & _ & Hlo). set (l := unoptimized (lw_builder s)) in *.
  unfold execute. rewrite (proj2 (Z.ltb_lt _ _) Hn). cbn [assert mbind option_bind execute_from]. change (blocks l) with (lblocks s).
  rewrite (lo_entry _ _ _ _ _ _ _ _ _ _ _ Hlo). cbn [mbind option_bind execute_block operations l_next execute_ops fst snd execute_jump].
  cbn [assert bool_decide decide_rel mbind option_bind].
  apply (graph_runs ail apv t g defs l (var_defs s) (value_defs s) reached Hreach s n 0%nat [] m k o Hlo); try done.
  - constructor.
  - destruct Hmk as [M1 M2 M3 M4]. split; try done. intros v d _ (u & vals & Hin & _). by apply elem_of_nil in Hin.
Qed.

(** The code has no cycles either. *)
Definition code_rank (i : BlockId) : nat := match i with O => S (rank 0) | S b => rank b end.
Lemma lower_graph_ranked s defs :
  lower_graph t g fuel efuel = Some s -> values_to_define t g fuel = Some defs -> placement t g defs -> undisturbed t g defs -> num_defs (unoptimized (lw_builder s)) < MAX_NUM_DEFS ->
  ranked_code code_rank (lblocks s) /\ length (lblocks s) = S (length g).
Proof.
  intros Hs Hd Hp Hu Hn. pose proof (proj2 Hg) as Hr. destruct (lower_graph_inv s Hs) as (_ & _ & _ & _ & _ & _ & _ & _ & _ & _ & _ & Hlen).
  destruct (lower_graph_lowering s defs Hs Hd Hp Hu Hn) as (reached & Hreach & _ & [L1 _ L3 _ L5 L6]). split; [|done].
  assert (forall b, b ∈ reached -> exists y, lblocks s !! block_of b = Some y /\ unreachable y = false /\ jump_iter (l_next y) ≡ₚ block_of <$> next_blocks (default (BJump 0) (g !! b)) /\ is_Some (g !! b)) as Hdone.
  { intros b Hb. assert (b < length g)%nat as Hlt. { apply Hreach in Hb as [l Hl]. destruct Hl as [|p l b _ Hn']; [done|]. by destruct (Hr p b Hn'). }
    destruct (L5 b) as (bb & ops & j & Hbb & Hl & Hi & Hnu & _); [by intros ?%elem_of_nil|done|done|]. eexists. split; [done|]. cbn [l_next unreachable]. rewrite Hbb. split; [by destruct j|]. split; [done|by eexists]. }
  assert (forall i x u, lblocks s !! i = Some x -> u ∈ jump_iter (l_next x) -> exists c, u = block_of c /\ c ∈ reached /\ (rank c < code_rank i)%nat) as Htarget.
  { intros [|b] x u Hx Hux.
    - rewrite L3 in Hx. injection Hx as <-. apply list_elem_of_singleton in Hux as ->. exists 0%nat. split; [done|]. split; [|cbn; lia]. apply Hreach. exists [0%nat]. constructor.
    - assert (b < length g)%nat as Hlt by (apply lookup_lt_Some in Hx; lia). destruct (decide (b ∈ reached)) as [Hb|Hb].
      + destruct (Hdone b Hb) as (y & Hy & _ & Hi & [bb Hbb]). unfold block_of in Hy. assert (y = x) as -> by congruence. rewrite Hi, Hbb in Hux.
        apply list_elem_of_fmap in Hux as (c & -> & Hc). cbn [default] in Hc. assert (next_of g b c) as Hbc by by exists bb. exists c. split; [done|]. split; [|by apply (Hr b c)].
        apply Hreach in Hb as [l Hl]. apply Hreach. exists (c :: l). by apply (path_step g b).
      + specialize (L6 b Hb Hlt). unfold block_of in L6. assert (x = block_default) as -> by congruence. by apply elem_of_nil in Hux. }
  split.
  - intros i x u Hx Hux. destruct (Htarget i x u Hx Hux) as (c & -> & _ & Hlt). exact Hlt.
  - intros i x u Hx Hux. destruct (Htarget i x u Hx Hux) as (c & -> & Hc & _). destruct (Hdone c Hc) as (y & Hy & Hun & _). by exists y.
Qed.
End whole.
