(* ===== verification/LirPlace.v ===== *)
(** * Where values are computed

    [MirToLir::build] of [sem86-core/src/codegen/lir/mod.rs] keeps a value that is
    used more than once in a definition, which is set in the block that is the
    lowest common ancestor, in the dominator tree, of the blocks that use the
    value: there, every path to a use has already computed it. *)
From stdpp Require Import gmap sorting.
From S2P Require Import Prelude IlOps ValTree ValSound Scc Mir BbOpt BbTree BbRun BbRemap Dom Lir LirOpt LirLower LirValues LirGraph.

(** ** Parts of values *)

Lemma part_trans t v w x : part_of t v w -> part_of t w x -> part_of t v x.
Proof. induction 1 as [|v n a w Hn Ha _ IH]; [done|]. intros Hx. by apply (part_step t v n a x Hn Ha), IH. Qed.
Lemma part_le t v w : ordered t -> part_of t v w -> (w <= v)%nat.
Proof.
  intros Ht. induction 1 as [|v n a w Hn Ha _ IH]; [done|]. pose proof (Ht v n Hn) as Hlt. rewrite list.Forall_forall in Hlt. specialize (Hlt a Ha). lia.
Qed.
Lemma part_inv t v n w : t !! v = Some n -> part_of t v w <-> w = v \/ exists a, a ∈ referenced_nodes n /\ part_of t a w.
Proof.
  intros Hn. split.
  - intros H. inversion H as [|v' n' a w' Hn' Ha Hp]; subst; [by left|]. right. exists a. split; [congruence|done].
  - intros [->|(a & Ha & Hp)]; [constructor|by apply (part_step t v n a w)].
Qed.

(** ** The values that a value is made of *)

Definition usage_ok (t : list ValNode) (u : Usage) (v : ValId) : Prop := exists l, val_usage u !! v = Some l /\ forall w, w ∈ l <-> part_of t v w.

Lemma elem_of_dedup_sorted (l : list nat) x : x ∈ remove_dups (merge_sort Nat.le l) <-> x ∈ l.
Proof. by rewrite elem_of_remove_dups, merge_sort_Permutation. Qed.

Lemma usage_of_spec t u v u' :
  usage_of t u v = Some u' -> length (val_usage u) = length t -> (forall n a, t !! v = Some n -> a ∈ referenced_nodes n -> usage_ok t u a) ->
  length (val_usage u') = length t /\ usage_ok t u' v /\ forall w, w <> v -> usage_ok t u w -> usage_ok t u' w.
Proof.
  unfold usage_of. destruct (t !! v) as [n|] eqn:Hn; [|done]. cbn [mbind option_bind]. destruct (mapM_list (fun v => val_costs u !! v) _) as [costs|]; [|done]. cbn [mbind option_bind].
  destruct (mapM_list (fun v => val_usage u !! v) (referenced_nodes n)) as [us|] eqn:Eu; [|done]. cbn [mbind option_bind]. destruct (assert _); [|done]. cbn [mbind option_bind].
  intros [= <-] Hlen Hargs. destruct (mapM_list_lookup _ _ _ Eu) as [Hl Hget]. pose proof (lookup_lt_Some _ _ _ Hn) as Hlt. cbn [val_usage]. split; [by rewrite length_insert|]. split.
  - eexists. split; [apply list_lookup_insert_eq; by rewrite Hlen|]. intros w. rewrite elem_of_dedup_sorted, elem_of_app, list_elem_of_singleton, (part_inv t v n w Hn), list_elem_of_join.
    split.
    + intros [(l & Hw & Hin)|]; [|by left]. right. apply list_elem_of_lookup in Hin as [i Hi]. destruct (lookup_lt_is_Some_2 (referenced_nodes n) i) as [a Ha]; [rewrite <- Hl; by apply lookup_lt_Some in Hi|].
      destruct (Hget i a Ha) as (l' & Hl' & Hla). assert (l' = l) as -> by congruence. pose proof (list_elem_of_lookup_2 _ _ _ Ha) as Hina. exists a. split; [done|].
      destruct (Hargs n a eq_refl Hina) as (l'' & Hl'' & Hp). apply Hp. congruence.
    + intros [|(a & Ha & Hp)]; [by right|]. left. destruct (Hargs n a eq_refl Ha) as (l & Hla & Hpl). exists l. split; [by apply Hpl|].
      apply list_elem_of_lookup in Ha as [i Hi]. destruct (Hget i a Hi) as (l' & Hl' & Hla'). assert (l' = l) as -> by congruence. by eapply list_elem_of_lookup_2.
  - intros w Hw (l & Hl' & Hp). exists l. split; [|done]. cbn [val_usage]. by rewrite list_lookup_insert_ne.
Qed.

Lemma usages_spec t before nodes u u' :
  usages t nodes u = Some u' -> length (val_usage u) = length t -> NoDup (before ++ nodes) -> successors_first (fun i => referenced_nodes <$> t !! i) (before ++ nodes) ->
  (forall v, v ∈ before -> usage_ok t u v) -> length (val_usage u') = length t /\ forall v, v ∈ before ++ nodes -> usage_ok t u' v.
Proof.
  revert before u. induction nodes as [|v nodes IH]; intros before u; cbn [usages].
  - intros [= <-] Hl _ _ Hb. split; [done|]. by rewrite app_nil_r.
  - destruct (usage_of t u v) as [u1|] eqn:E; [|done]. cbn [mbind option_bind]. intros He Hl Hnd Hs Hb.
    destruct (usage_of_spec t u v u1 E Hl) as (Hl1 & Hv & Hother).
    { intros n a Hn Ha. apply Hb. destruct (Hs (length before) v (referenced_nodes n) a) as (j & Hj & Hja); [by rewrite list_lookup_middle|by rewrite Hn|done|].
      rewrite lookup_app_l in Hja by done. by eapply list_elem_of_lookup_2. }
    assert (before ++ v :: nodes = (before ++ [v]) ++ nodes) as Hass by (by rewrite <- app_assoc). rewrite Hass in Hnd, Hs |- *.
    apply (IH (before ++ [v]) u1 He Hl1 Hnd Hs). intros w [Hw| ->%list_elem_of_singleton]%elem_of_app; [|done]. apply Hother; [|by apply Hb].
    intros ->. apply list.NoDup_app in Hnd as [Hnd _]. apply list.NoDup_app in Hnd as (_ & Hd & _). apply (Hd v Hw). by left.
Qed.

(** ** Where values appear *)

Lemma appear_spec b apps v apps' :
  appear b apps v = Some apps' -> length apps' = length apps
  /\ forall w l', apps' !! w = Some l' -> exists l, apps !! w = Some l /\ forall x, x ∈ l' <-> x ∈ l \/ (x = b /\ w = v).
Proof.
  unfold appear. destruct (apps !! v) as [l|] eqn:Hl; [|done]. cbn [mbind option_bind]. intros [= <-]. pose proof (lookup_lt_Some _ _ _ Hl) as Hlt. split; [apply length_insert|].
  intros w l'. destruct (decide (w = v)) as [->|Hne].
  - rewrite list_lookup_insert_eq by done. intros [= <-]. exists l. split; [done|]. intros x. rewrite elem_of_app, list_elem_of_singleton. tauto.
  - rewrite list_lookup_insert_ne by done. intros Hw. exists l'. split; [done|]. intros x. tauto.
Qed.
Lemma appear_all_spec b vals apps apps' :
  appear_all b vals apps = Some apps' -> length apps' = length apps
  /\ forall w l', apps' !! w = Some l' -> exists l, apps !! w = Some l /\ forall x, x ∈ l' <-> x ∈ l \/ (x = b /\ w ∈ vals).
Proof.
  revert apps. induction vals as [|v vals IH]; intros apps; cbn [appear_all].
  - intros [= <-]. split; [done|]. intros w l' Hw. exists l'. split; [done|]. intros x. rewrite elem_of_nil. tauto.
  - destruct (appear b apps v) as [a1|] eqn:E; [|done]. cbn [mbind option_bind]. intros He. destruct (appear_spec b apps v a1 E) as [L1 H1]. destruct (IH a1 He) as [L2 H2].
    split; [congruence|]. intros w l' Hw. destruct (H2 w l' Hw) as (l1 & Hl1 & Hx1). destruct (H1 w l1 Hl1) as (l & Hl & Hx). exists l. split; [done|].
    intros x. rewrite Hx1, Hx, elem_of_cons. tauto.
Qed.

Definition used_in (t : list ValNode) (g : list Bb) (b : BbId) (w : ValId) : Prop := exists bb val, g !! b = Some bb /\ val ∈ block_ids bb /\ part_of t val w.

Lemma appear_in_spec t usage b bb apps apps' :
  appear_in usage b bb apps = Some apps' -> (forall v l, usage !! v = Some l -> forall w, w ∈ l <-> part_of t v w) ->
  length apps' = length apps /\ forall w l', apps' !! w = Some l' -> exists l, apps !! w = Some l /\ forall x, x ∈ l' <-> x ∈ l \/ (x = b /\ exists val, val ∈ block_ids bb /\ part_of t val w).
Proof.
  unfold appear_in. destruct (mapM_list _ _) as [used|] eqn:Eu; [|done]. cbn [mbind option_bind]. intros He Hus. destruct (mapM_list_lookup _ _ _ Eu) as [Hlen Hget].
  destruct (appear_all_spec b _ _ _ He) as [Hl Hw]. split; [done|]. intros w l' Hl'. destruct (Hw w l' Hl') as (l & Hll & Hx). exists l. split; [done|]. intros x. rewrite Hx.
  enough (w ∈ mjoin used <-> exists val, val ∈ block_ids bb /\ part_of t val w) by tauto. rewrite list_elem_of_join. split.
  - intros (k & Hwk & [i Hi]%list_elem_of_lookup). destruct (lookup_lt_is_Some_2 (block_ids bb) i) as [val Hval]; [rewrite <- Hlen; by apply lookup_lt_Some in Hi|].
    destruct (Hget i val Hval) as (k' & Hk' & Hkv). assert (k' = k) as -> by congruence. exists val. split; [by eapply list_elem_of_lookup_2|].
    destruct (usage !! val) as [u|] eqn:E; [|done]. injection Hkv as <-. apply elem_of_cons in Hwk as [->|Hwu]; [constructor|by apply (Hus val u E)].
  - intros (val & Hval & Hp). apply list_elem_of_lookup in Hval as [i Hi]. destruct (Hget i val Hi) as (k & Hk & Hkv). exists k. split; [|by eapply list_elem_of_lookup_2].
    destruct (usage !! val) as [u|] eqn:E; [|done]. injection Hkv as <-. right. by apply (Hus val u E).
Qed.

Lemma appearances_spec t usage reached blocks apps apps' :
  appearances usage reached blocks apps = Some apps' -> (forall v l, usage !! v = Some l -> forall w, w ∈ l <-> part_of t v w) ->
  length apps' = length apps /\ forall w l', apps' !! w = Some l' -> exists l, apps !! w = Some l
    /\ forall x, x ∈ l' <-> x ∈ l \/ exists bb val, (x, bb) ∈ blocks /\ x ∈ reached /\ val ∈ block_ids bb /\ part_of t val w.
Proof.
  intros He Hus. revert apps He. induction blocks as [|[b bb] blocks IH]; intros apps; cbn [appearances].
  - intros [= <-]. split; [done|]. intros w l' Hl'. exists l'. split; [done|]. intros x. split; [by left|]. intros [|(bb & val & ?%elem_of_nil & _)]; done.
  - case_decide as Hb.
    + destruct (appear_in usage b bb apps) as [a1|] eqn:E; [|done]. cbn [mbind option_bind]. intros He. destruct (appear_in_spec t usage b bb apps a1 E Hus) as [L1 H1].
      destruct (IH a1 He) as [L2 H2]. split; [congruence|]. intros w l' Hl'. destruct (H2 w l' Hl') as (l1 & Hl1 & Hx1). destruct (H1 w l1 Hl1) as (l & Hl & Hx).
      exists l. split; [done|]. intros x. rewrite Hx1, Hx. split.
      * intros [[|(-> & val & Hval & Hp)]|(bb' & val & Hin & Hr & Hval & Hp)]; [by left| |].
        -- right. exists bb, val. split; [by left|done].
        -- right. exists bb', val. split; [by right|done].
      * intros [|(bb' & val & [Heq|Hin]%elem_of_cons & Hr & Hval & Hp)]; [by left; left| |].
        -- injection Heq as -> ->. left. right. split; [done|]. by exists val.
        -- right. by exists bb', val.
    + intros He. destruct (IH apps He) as [L2 H2]. split; [done|]. intros w l' Hl'. destruct (H2 w l' Hl') as (l & Hl & Hx). exists l. split; [done|]. intros x. rewrite Hx. split.
      * intros [|(bb' & val & Hin & Hr & Hval & Hp)]; [by left|]. right. exists bb', val. split; [by right|done].
      * intros [|(bb' & val & [Heq|Hin]%elem_of_cons & Hr & Hval & Hp)]; [by left| |right; by exists bb', val]. injection Heq as -> ->. done.
Qed.

Lemma place_spec dt refs apps defs defs' :
  place dt refs apps defs = Some defs' -> length defs' = length defs
  /\ forall u l v, defs' !! u = Some l -> v ∈ l -> (exists l0, defs !! u = Some l0 /\ v ∈ l0) \/ exists bbs, (v, bbs) ∈ apps /\ bbs <> [] /\ lca_many dt bbs = Some u.
Proof.
  revert defs. induction apps as [|[val bbs] apps IH]; intros defs; cbn [place].
  - intros [= <-]. split; [done|]. intros u l v Hu Hv. left. by exists l.
  - destruct (refs !! val) as [n|]; [|done]. cbn [mbind option_bind]. destruct (negb (bool_decide (bbs = [])) && (1 <? n)%nat) eqn:Ec.
    + apply andb_prop in Ec as [Ene%negb_true_iff%bool_decide_eq_false _]. destruct (lca_many dt bbs) as [b|] eqn:El; cbn [mbind option_bind]; [|done].
      destruct (defs !! b) as [l0|] eqn:Hl0; cbn [mbind option_bind]; [|done]. intros He. destruct (IH _ He) as [L H]. rewrite length_insert in L. split; [done|]. intros u l v Hu Hv.
      destruct (H u l v Hu Hv) as [(l1 & Hl1 & Hv1)|(bbs' & Hin & Hne & Hlca)]; [|right; exists bbs'; split; [by right|done]].
      destruct (decide (u = b)) as [->|Hub].
      * rewrite list_lookup_insert_eq in Hl1 by (by apply lookup_lt_Some in Hl0). injection Hl1 as <-. apply elem_of_app in Hv1 as [Hv1| ->%list_elem_of_singleton]; [left; by exists l0|].
        right. exists bbs. split; [by left|done].
      * rewrite list_lookup_insert_ne in Hl1 by done. left. by exists l1.
    + cbn [mbind option_bind]. intros He. destruct (IH _ He) as [L H]. split; [done|]. intros u l v Hu Hv.
      destruct (H u l v Hu Hv) as [|(bbs' & Hin & Hne & Hlca)]; [by left|right; exists bbs'; split; [by right|done]].
Qed.

(** ** The values of a block are in order *)

Lemma sorted_remove_dups {A} `{EqDecision A} (R : A -> A -> Prop) l : StronglySorted R l -> StronglySorted R (remove_dups l).
Proof.
  induction 1 as [|x l _ IH Hx]; [constructor|]. cbn [remove_dups]. destruct (decide_rel _ _ _); [done|]. constructor; [done|].
  apply list.Forall_forall. intros y Hy. rewrite elem_of_remove_dups in Hy. rewrite list.Forall_forall in Hx. by apply Hx.
Qed.
Lemma sorted_filter {A} (R : A -> A -> Prop) (P : A -> Prop) `{forall x, Decision (P x)} l : StronglySorted R l -> StronglySorted R (filter P l).
Proof.
  induction 1 as [|x l _ IH Hx]; [constructor|]. rewrite filter_cons. case_decide; [|done]. constructor; [done|].
  apply list.Forall_forall. intros y [_ Hy]%list_elem_of_filter. rewrite list.Forall_forall in Hx. by apply Hx.
Qed.
Lemma worth_spec costs vals : StronglySorted Nat.le (worth costs vals) /\ forall v, v ∈ worth costs vals -> v ∈ vals.
Proof.
  split.
  - apply sorted_filter, sorted_remove_dups. apply Sorted_StronglySorted; [intros x y z; lia|]. apply (Sorted_merge_sort Nat.le).
  - intros v [_ Hv]%list_elem_of_filter. by rewrite elem_of_dedup_sorted in Hv.
Qed.
Lemma sorted_before (l : list nat) pre v post w : StronglySorted Nat.le l -> l = pre ++ v :: post -> w ∈ l -> (w < v)%nat -> w ∈ pre.
Proof.
  intros Hs -> [Hw|[->|Hw]%elem_of_cons]%elem_of_app Hlt; [done|lia|]. exfalso. clear - Hs Hw Hlt. induction pre as [|x pre IH]; cbn [app] in Hs.
  - apply StronglySorted_inv in Hs as [_ Hs]. rewrite list.Forall_forall in Hs. specialize (Hs w Hw). lia.
  - apply StronglySorted_inv in Hs as [Hs _]. by apply IH.
Qed.

(** ** Placement *)

Section placed.
Context (t : list ValNode) (Ht : ordered t) (Htlen : Z.of_nat (length t) < 2 ^ 32) (g : list Bb) (rank : BbId -> nat) (first : BbId).
Context (Hg : searchable g rank) (Hentry : g !! 0%nat = Some (BJump first)).
Context (fuel : nat) (Hf1 : (scc_fuel (length t) (fun i => referenced_nodes <$> t !! i) <= fuel)%nat) (Hf2 : (2 * length g < fuel)%nat).

Lemma values_acyclic : acyclic (length t) (fun i => referenced_nodes <$> t !! i) (fun v => v).
Proof.
  split; [done| |].
  - intros v Hv. destruct (lookup_lt_is_Some_2 t v Hv) as [n ->]. by eexists.
  - intros v ts w Hts Hw. destruct (t !! v) as [n|] eqn:Hn; [|done]. injection Hts as <-. pose proof (Ht v n Hn) as Hlt. rewrite list.Forall_forall in Hlt. specialize (Hlt w Hw).
    apply lookup_lt_Some in Hn. lia.
Qed.

(** A value is defined in the lowest common dominator of its uses. *)
Lemma defined_where defs :
  values_to_define t g fuel = Some defs -> forall u vals, defs !! u = Some vals -> StronglySorted Nat.le vals
  /\ forall v, v ∈ vals -> forall d, doms g d u <-> forall b, reachable g b -> used_in t g b v -> doms g d b.
Proof.
  unfold values_to_define. destruct (val_num_references t g fuel) as [refs|]; cbn [mbind option_bind]; [|done].
  destruct (iterate_singles _ _ _ fuel values_acyclic Hf1) as (order & -> & Hperm & Hsucc). cbn [mbind option_bind]. rewrite single_nodes_map. cbn [mbind option_bind].
  destruct (usages t order _) as [us|] eqn:Eus; cbn [mbind option_bind]; [|done]. destruct (compute_bb_reachability g fuel) as [reached|] eqn:Er; cbn [mbind option_bind]; [|done].
  destruct (appearances _ _ _ _) as [apps|] eqn:Ea; cbn [mbind option_bind]; [|done].
  destruct (dominator_new_spec g rank first fuel Hg) as (dt & bo & -> & Htree); [by eexists|done|]. cbn [mbind option_bind].
  destruct (place dt refs (imap pair apps) _) as [raw|] eqn:Ep; cbn [mbind option_bind]; [|done]. intros [= <-] u vals Hu. rewrite list_lookup_fmap in Hu.
  destruct (raw !! u) as [vals0|] eqn:Hraw; [|done]. injection Hu as <-. destruct (worth_spec (val_costs us) vals0) as [Hsorted Hworth]. split; [done|]. intros v Hv%Hworth d.
  assert (forall v l, val_usage us !! v = Some l -> forall w, w ∈ l <-> part_of t v w) as Husage.
  { destruct (usages_spec t [] order _ us Eus) as [Hlen Hok]; [cbn [val_usage]; apply length_replicate|cbn [app]; rewrite Hperm; apply NoDup_seq|exact Hsucc|by intros w ?%elem_of_nil|].
    intros w l Hl. destruct (Hok w) as (l' & Hl' & Hp); [|by assert (l' = l) as <- by congruence]. cbn [app]. rewrite Hperm, elem_of_seq, <- Hlen. apply lookup_lt_Some in Hl. lia. }
  destruct (appearances_spec t _ _ _ _ _ Ea Husage) as [La Happs].
  destruct (place_spec _ _ _ _ _ Ep) as [_ Hplace]. destruct (Hplace u vals0 v Hraw Hv) as [(l0 & [-> _]%lookup_replicate & ?%elem_of_nil)|(bbs & Hin & Hne & Hlca)]; [done|].
  apply elem_of_lookup_imap in Hin as (i & y & [= -> ->] & Hy). destruct (Happs i y Hy) as (l0 & [-> _]%lookup_replicate & Hx).
  assert (forall b, b ∈ y <-> reachable g b /\ used_in t g b i) as Hused.
  { intros b. rewrite Hx. pose proof (reachability_spec g fuel reached Er b) as Hreach. unfold used_in. split.
    - intros [?%elem_of_nil|(bb & val & Hin & Hr%Hreach & Hval & Hp)]; [done|]. apply elem_of_lookup_imap in Hin as (b' & bb' & [= -> ->] & Hb). split; [done|]. by exists bb', val.
    - intros (Hr%Hreach & bb & val & Hb & Hval & Hp). right. exists bb, val. split; [|done]. apply elem_of_lookup_imap. by exists b, bb. }
  destruct (lca_list_spec g bo (dt_nodes dt) Htree y Hne) as (c & Hc & Hd).
  - apply list.Forall_forall. intros b [Hr (bb & val & Hb & Hval & _)]%Hused. split; [done|]. intros ->. rewrite Hentry in Hb. injection Hb as <-. by apply elem_of_nil in Hval.
  - assert (c = u) as -> by (unfold lca_many in Hlca; congruence). rewrite Hd, list.Forall_forall. split.
    + intros H b Hr Hub. by apply H, Hused.
    + intros H b [Hr Hub]%Hused. by apply H.
Qed.

Lemma path_end v l : path g v l -> v ∈ l.
Proof. intros []; by left. Qed.
Lemma used_part b v w : used_in t g b v -> part_of t v w -> used_in t g b w.
Proof. intros (bb & val & Hb & Hval & Hp) Hw. exists bb, val. split; [done|]. split; [done|]. by apply (part_trans t val v w). Qed.

(** So the values are defined above their uses. *)
Lemma values_placement defs : values_to_define t g fuel = Some defs -> placement t g defs.
Proof.
  intros Hd. pose proof (defined_where defs Hd) as Hwhere.
  assert (forall w, w ∈ mjoin defs -> exists u vals, defs !! u = Some vals /\ w ∈ vals /\ forall d, doms g d u <-> forall b, reachable g b -> used_in t g b w -> doms g d b) as Hin.
  { intros w (vals & Hw & [u Hu]%list_elem_of_lookup)%list_elem_of_join. exists u, vals. split; [done|]. split; [done|]. by apply (Hwhere u vals Hu). }
  assert (forall u, doms g u u) as Hself by (intros u l Hl; by apply path_end). split.
  - intros b l bb v w Hl Hb Hv Hvw Hw. destruct (Hin w Hw) as (u & vals & Hu & Hwu & Hdu). exists u, vals. split; [|done].
    apply (proj1 (Hdu u) (Hself u) b); [by exists l|by exists bb, v|done].
  - intros b l pre v post n a w Hl Hb Hn Ha Haw Hw. destruct (Hin w Hw) as (u & vals & Hu & Hwu & Hdu). destruct (Hwhere b _ Hb) as [Hsorted Hv].
    specialize (Hv v ltac:(apply elem_of_app; right; by left)). assert (part_of t v w) as Hvw by by apply (part_step t v n a w).
    assert (doms g u b) as Hub. { apply Hv. intros c Hc Hcv. apply (proj1 (Hdu u) (Hself u) c Hc). by apply (used_part c v w). }
    specialize (Hub _ Hl). apply elem_of_cons in Hub as [->|Hub]; [|left; by exists u, vals]. right. assert (vals = pre ++ v :: post) as -> by congruence.
    apply (sorted_before _ pre v post w Hsorted eq_refl Hwu). pose proof (Ht v n Hn) as Hlt. rewrite list.Forall_forall in Hlt. specialize (Hlt a Ha).
    pose proof (part_le t a w Ht Haw). lia.
Qed.
End placed.
