(* ===== verification/LirSound.v ===== *)
(** * Compiled code in the lower-level representation

    [MirToLir::build] of [sem86-core/src/codegen/lir/mod.rs]: the optimised code
    for a graph of basic blocks runs like the graph, whatever the definitions
    hold before; with checks that evaluate for the conditions. *)
From stdpp Require Import gmap sorting.
From S2P Require Import Prelude Exceptions IlOps Arch MemArea IlCmd Scc ValTree ValBuild ValSound CpuBytes Mir BbOpt BbTree BbRun Dom Lir LirOpt LirFlow LirLower LirValues LirCode LirGraph LirPlace.

(** ** Graphs that can be lowered *)

Record lowerable_graph `{SoftFloat} (t : list ValNode) (g : list Bb) (rank : BbId -> nat) (first : BbId) : Prop := {
  lg_values : ordered t;
  lg_size : Z.of_nat (length t) < 2 ^ 32;
  lg_runs : never_panics t;
  lg_search : searchable g rank;
  lg_blocks : Z.of_nat (S (length g)) < 2 ^ 32;
  lg_entry : g !! 0%nat = Some (BJump first);
  lg_lowerable : Forall (lowerable t) g;
}.
Record enough_fuel (t : list ValNode) (g : list Bb) (fuel : nat) : Prop := {
  ef_graph : (scc_fuel (length g) (transitions_of g) <= fuel)%nat;
  ef_values : (scc_fuel (length t) (fun i => referenced_nodes <$> t !! i) <= fuel)%nat;
  ef_search : (2 * length g < fuel)%nat;
}.

Section sound.
Context {W : Type} `{ctx : ExecCtx W} `{sf : SoftFloat} `{lay : Layout} (ail apv : Z).
Abbreviation mach := (Machine W).

(** A machine whose definitions hold the variables. *)
Definition definitions_of (V : gmap VarId DefId) (m : mach) (d : DefId) : Z := default 0 (head (omap (fun x : VarId * DefId => if decide (x.2 = d) then Some (m_vars m x.1) else None) (map_to_list V))).
Lemma definitions_of_var V m x d : (forall x y d, V !! x = Some d -> V !! y = Some d -> x = y) -> V !! x = Some d -> definitions_of V m d = m_vars m x.
Proof.
  intros Hinj Hx. unfold definitions_of. set (f := fun x : VarId * DefId => _). assert ((x, d) ∈ map_to_list V) as Hin by by apply elem_of_map_to_list.
  assert (Forall (fun y => y = m_vars m x) (omap f (map_to_list V))) as Hall.
  { apply list.Forall_forall. intros y ([z e] & Hz & Hy)%list_elem_of_omap. apply elem_of_map_to_list in Hz. unfold f in Hy. cbn [fst snd] in Hy.
    case_decide; [|done]. subst e. injection Hy as <-. by rewrite (Hinj x z d). }
  assert (m_vars m x ∈ omap f (map_to_list V)) as Hin'.
  { apply list_elem_of_omap. exists (x, d). split; [done|]. unfold f. cbn [fst snd]. by rewrite decide_True. }
  destruct (omap f (map_to_list V)) as [|y l]; [by apply elem_of_nil in Hin'|]. by apply list.Forall_cons in Hall as [-> _].
Qed.

Lemma lowered_runs t g rank first fuel efuel s defs l :
  lowerable_graph t g rank first -> enough_fuel t g fuel ->
  lower_graph t g fuel efuel = Some s -> values_to_define t g fuel = Some defs -> undisturbed t g defs -> capacity (unoptimized (lw_builder s)) ->
  mir_to_lir t g fuel efuel = Some l -> (code_fuel (blocks l) <= fuel)%nat ->
  forall n (m k : mach) o, alike m k -> run_graph ail apv t n g 0 m = Some o ->
  exists k', execute (S n) l k = Some (o_success o, default 0 (o_metadata o), k') /\ alike (o_machine o) k'.
Proof.
  intros [Ht Htl Hruns Hg Hgl Hentry Hlow] [F1 F2 F3] Hs Hd Hu Hcap Hl Hcf n m k o Hmk Hrun. pose proof Hcap as [Hn _].
  assert (ranked g rank) as Hranked by (split; [lia|apply (se_next _ _ Hg)]). pose proof (values_placement t Ht Htl g rank first Hg Hentry fuel F2 F3 defs Hd) as Hp.
  unfold mir_to_lir in Hl. rewrite Hs in Hl. cbn [mbind option_bind] in Hl. unfold optimize in Hl.
  destruct (lower_graph_ranked (W := W) ail apv t Ht Hruns g rank Hranked Hlow fuel efuel F1 s defs Hs Hd Hp Hu Hn) as [Hcode Hlen].
  destruct (optimize_blocks_ranked _ (blocks (unoptimized (lw_builder s))) Hcode) as (b & Hb & Hbl & rank' & Hb'); [cbn [unoptimized blocks]; lia|].
  rewrite Hb in Hl. cbn [mbind option_bind] in Hl. set (l0 := with_blocks (unoptimized (lw_builder s)) b) in *.
  destruct (get_unassigned_defs fuel l0) as [ds|] eqn:Hds; [|done]. cbn [mbind option_bind] in Hl. destruct (bool_decide (ds = [])) eqn:Hnil; [|done]. injection Hl as <-.
  apply bool_decide_eq_true in Hnil as ->.
  destruct (lower_graph_lowering (W := W) ail apv t Ht Hruns g rank Hranked Hlow fuel efuel F1 s defs Hs Hd Hp Hu Hn) as (_ & _ & [_ _ _ Hinj _ _] & _).
  set (k0 := {| m_vars := definitions_of (var_defs s) m; m_cpu := m_cpu k; m_k := m_k k; m_world := m_world k; m_result := m_result k |}).
  destruct (lower_graph_runs ail apv t Ht Hruns g rank Hranked Hlow fuel efuel F1 s defs Hs Hd Hp Hu Hcap n m k0 o) as (k1 & Hk1 & Hout); [by destruct Hmk|by intros x d Hx; apply definitions_of_var|done|].
  assert (execute (S n) l0 k0 = Some (o_success o, default 0 (o_metadata o), k1)) as Hk0.
  { unfold execute in *. change (num_defs l0) with (num_defs (unoptimized (lw_builder s))). destruct (assert _); [|done]. cbn [mbind option_bind] in *.
    by apply (optimize_runs (unoptimized (lw_builder s)) (blocks (unoptimized (lw_builder s))) b Hb (S n) k0). }
  assert (0 < length (blocks l0))%nat as Hne.
  { destruct (blocks l0) as [|x xs] eqn:E; [|cbn; lia]. exfalso. unfold execute in Hk0. destruct (assert _); [|done]. cbn [mbind option_bind execute_from] in Hk0. by rewrite E in Hk0. }
  destruct (unassigned_run rank' fuel l0) as (ds & Hds' & Hagree); [split; [change (blocks l0) with b; cbn [unoptimized blocks] in Hbl; lia|done]|done|done|].
  assert (ds = []) as -> by congruence. specialize (Hagree (S n) k0 k ltac:(split; [by intros d ?%elem_of_nil|done..])). rewrite Hk0 in Hagree.
  inversion Hagree as [e e' [E1 E2] Ee|]; subst. destruct e' as [r k2]. cbn [fst snd] in *. subst r. exists k2. split; [done|].
  destruct Hout as [A1 A2 A3 A4], E2 as [_ B1 B2 B3 B4]. split; congruence.
Qed.
End sound.

(** ** Checks *)

(** Operators that are defined everywhere. *)
Definition total_node (n : ValNode) : bool :=
  match n with
  | NBinOp op _ _ =>
      match op with Rol n | Ror n => negb (n =? 0) | Sar n => (n =? 1) || (n =? 2) || (n =? 4) | _ => true end
  | NUnOp op _ =>
      match op with SelectBit n => n <? 128 | SignExtend n => (0 <? n) && (n <=? 128) | HighestBitSet => false | _ => true end
  | NExtract _ skip take => (skip <? 128) && (0 <=? take) && (take <=? 128)
  | NFpBinOp _ _ _ _ | NFpUnOp _ _ _ | NInstrLen | NPartValues => false
  | _ => true
  end.
Lemma total_node_runs `{SoftFloat} f n : total_node n = true -> node_runs f n.
Proof.
  destruct n as [| |op a b| | |op a| |a skip take| | | | |]; cbn [total_node node_runs]; try done.
  - destruct op; cbn [binop_execute]; try (by eexists).
    + unfold rot_amount. intros ->. by eexists.
    + unfold rot_amount. intros ->. by eexists.
    + destruct (Z.eqb_spec num_bytes 1) as [->|]; [by eexists|]. destruct (Z.eqb_spec num_bytes 2) as [->|]; [by eexists|]. destruct (Z.eqb_spec num_bytes 4) as [->|]; [by eexists|done].
  - destruct op; cbn [unop_execute]; try done; try (by eexists).
    + intros ->. by eexists.
    + intros ->. by eexists.
  - rewrite !andb_true_iff, Z.ltb_lt, !Z.leb_le. tauto.
Qed.
Lemma total_nodes_run `{SoftFloat} t : forallb total_node t = true -> never_panics t.
Proof. rewrite forallb_forall. intros Ht E i n Hn. apply total_node_runs, Ht, list_elem_of_In. by eapply list_elem_of_lookup_2. Qed.

Definition lowerableb (t : list ValNode) (bb : Bb) : bool :=
  match bb with
  | BSeq (SCommit _) _ => false
  | BFallible op _ _ => match op with FReadDescriptor _ _ _ ok base limit ar => bool_decide (NoDup [ok; base; limit; ar]) | _ => true end
  | BCommitAndExit _ _ j k _ => match j with None => true | Some _ => false end && match k with Some k => negb (reads_state t k) | None => true end
  | _ => true
  end.
Lemma lowerableb_true t g : forallb (lowerableb t) g = true -> Forall (lowerable t) g.
Proof.
  rewrite forallb_forall. intros Hg. apply list.Forall_forall. intros bb Hbb%list_elem_of_In%Hg. destruct bb as [| |e next|op ok ex|md vs j k s]; cbn [lowerableb lowerable] in *; try done.
  - by destruct e.
  - destruct op; try done. by apply bool_decide_eq_true in Hbb.
  - destruct j; [done|]. split; [done|]. destruct k; [|done]. by apply negb_true_iff in Hbb.
Qed.

(** Blocks that come after the definitions do not write variables of them. *)
Definition undisturbedb (t : list ValNode) (g : list Bb) (defs : list (list ValId)) (rank : BbId -> nat) : bool :=
  forallb (fun x : nat * list ValId => forallb (fun y : nat * Bb => (rank x.1 <? rank y.1)%nat
    || forallb (fun v => forallb (fun z => negb (uses t z v)) (default [] (written y.2))) x.2) (imap pair g)) (imap pair defs).
Lemma path_ranks g rank b l u : (forall p b, next_of g p b -> (b < length g)%nat /\ (rank b < rank p)%nat) -> path g b l -> u ∈ l -> (rank b <= rank u)%nat.
Proof.
  intros Hg Hl. induction Hl as [|p l b _ IH Hn]; [by intros ->%list_elem_of_singleton|]. destruct (Hg p b Hn) as [_ Hlt]. intros [->|Hu]%elem_of_cons; [done|]. specialize (IH Hu). lia.
Qed.
Lemma undisturbedb_true t g defs rank : searchable g rank -> undisturbedb t g defs rank = true -> undisturbed t g defs.
Proof.
  intros Hg Hb b l bb v x Hl Hbb (u & vals & Hu & Hd & Hv) Hx. unfold undisturbedb in Hb. rewrite forallb_forall in Hb.
  pose proof (path_ranks g rank b l u (se_next _ _ Hg) Hl Hu) as Hle.
  specialize (Hb (u, vals) ltac:(apply list_elem_of_In, elem_of_lookup_imap; by exists u, vals)). rewrite forallb_forall in Hb.
  specialize (Hb (b, bb) ltac:(apply list_elem_of_In, elem_of_lookup_imap; by exists b, bb)). cbn [fst snd] in Hb. rewrite (proj2 (Nat.ltb_ge _ _) Hle) in Hb. cbn [orb] in Hb.
  rewrite forallb_forall in Hb. specialize (Hb v ltac:(by apply list_elem_of_In)). rewrite forallb_forall in Hb. specialize (Hb x ltac:(by apply list_elem_of_In)). by apply negb_true_iff in Hb.
Qed.

Definition capacityb (l : Lir) : bool := (num_defs l <? MAX_NUM_DEFS) && forallb (fun x => fits 0 (operations x)) (blocks l).
Lemma capacityb_true l : capacityb l = true -> capacity l.
Proof. intros [Hn%Z.ltb_lt Hf]%andb_prop. split; [done|]. rewrite forallb_forall in Hf. apply list.Forall_forall. intros x Hx. by apply Hf, list_elem_of_In. Qed.

Definition lowerable_graphb (t : list ValNode) (g : list Bb) (rank : BbId -> nat) (first : BbId) : bool :=
  forallb (fun x : nat * ValNode => forallb (fun i => (i <? x.1)%nat) (referenced_nodes x.2)) (imap pair t) && (Z.of_nat (length t) <? 2 ^ 32)
  && forallb total_node t && searchableb g rank && (Z.of_nat (S (length g)) <? 2 ^ 32) && match g !! 0%nat with Some (BJump b) => (b =? first)%nat | _ => false end && forallb (lowerableb t) g.
Lemma lowerable_graphb_true `{SoftFloat} t g rank first : lowerable_graphb t g rank first = true -> lowerable_graph t g rank first.
Proof.
  unfold lowerable_graphb. rewrite !andb_true_iff. intros [[[[[[H1 H2%Z.ltb_lt] H3] H4] H5%Z.ltb_lt] H6] H7].
  split; [|done|by apply total_nodes_run|by apply searchableb_true|done|destruct (g !! 0%nat) as [[b| | | |]|]; try done; by apply Nat.eqb_eq in H6 as ->|by apply lowerableb_true].
  intros i n Hn. rewrite forallb_forall in H1. specialize (H1 (i, n) ltac:(apply list_elem_of_In, elem_of_lookup_imap; by exists i, n)). cbn [fst snd] in H1. rewrite forallb_forall in H1.
  apply list.Forall_forall. intros a Ha. by apply Nat.ltb_lt, H1, list_elem_of_In.
Qed.

Definition enough_fuelb (t : list ValNode) (g : list Bb) (fuel : nat) : bool :=
  (scc_fuel (length g) (transitions_of g) <=? fuel)%nat && (scc_fuel (length t) (fun i => referenced_nodes <$> t !! i) <=? fuel)%nat && (2 * length g <? fuel)%nat.
Lemma enough_fuelb_true t g fuel : enough_fuelb t g fuel = true -> enough_fuel t g fuel.
Proof. unfold enough_fuelb. rewrite !andb_true_iff, !Nat.leb_le, Nat.ltb_lt. by intros [[H1 H2] H3]. Qed.

(** A rank that the search of the dominator tree accepts: the position in an
    order of the blocks in which later successors come first. *)
Fixpoint rank_by (order : list BbId) (b : BbId) : nat :=
  match order with [] => 0 | x :: order => if (x =? b)%nat then 0 else S (rank_by order b) end.
