(* ===== verification/LirProps.v ===== *)
(** * What is shown of lower-level code

    Lowering, optimisation and analyses of [sem86-core/src/codegen/lir/mod.rs],
    with the sequences of instructions of [MirExample]. *)
From stdpp Require Import gmap sorting.
From S2P Require Import Prelude Exceptions IlOps Arch MemArea IlCmd IlExample Scc ValTree ValBuild CpuBytes Mir MirState MirEmit MirStateSound MirCommit MirVals MirSim MirSeq MirCorrect Interp MirExample.
From S2P Require Import BbOpt BbTree BbRun BbProps Dom Lir LirOpt LirFlow LirLower LirValues LirCode LirGraph LirPlace LirSound.

(** ** An instruction that reads memory, compiled *)

Definition read_items : list EncodingEntry := [entry_of add_encoding].
Definition read_mir : Mir := default {| mir_value_tree := []; mir_control_flow := [] |} (build_from_sequence 60 true true read_items).
Definition read_lower : Lower := default (lower_start [] []) (lower_graph (mir_value_tree read_mir) (mir_control_flow read_mir) 1000 60).
Definition read_defs : list (list ValId) := default [] (values_to_define (mir_value_tree read_mir) (mir_control_flow read_mir) 1000).
Definition read_lir : Lir := default {| consts := []; blocks := []; num_defs := 0 |} (mir_to_lir (mir_value_tree read_mir) (mir_control_flow read_mir) 1000 60).
Definition read_rank : BbId -> nat := rank_by [8; 7; 9; 13; 12; 11; 10; 2; 4; 6; 5; 3; 1; 0]%nat.

Lemma some_default {A} (o : option A) (d : A) : (match o with Some _ => true | None => false end) = true -> o = Some (default d o).
Proof. by destruct o. Qed.

Lemma read_built : build_from_sequence 60 true true read_items = Some read_mir.
Proof. apply some_default. vm_compute. reflexivity. Qed.
Lemma read_lowered : lower_graph (mir_value_tree read_mir) (mir_control_flow read_mir) 1000 60 = Some read_lower.
Proof. apply some_default. vm_compute. reflexivity. Qed.
Lemma read_placed : values_to_define (mir_value_tree read_mir) (mir_control_flow read_mir) 1000 = Some read_defs.
Proof. apply some_default. vm_compute. reflexivity. Qed.
Lemma read_optimized : mir_to_lir (mir_value_tree read_mir) (mir_control_flow read_mir) 1000 60 = Some read_lir.
Proof. apply some_default. vm_compute. reflexivity. Qed.

Lemma read_graph_ok : lowerable_graph (mir_value_tree read_mir) (mir_control_flow read_mir) read_rank 1.
Proof. apply lowerable_graphb_true. vm_compute. reflexivity. Qed.
Lemma read_fuel_ok : enough_fuel (mir_value_tree read_mir) (mir_control_flow read_mir) 1000.
Proof. apply enough_fuelb_true. vm_compute. reflexivity. Qed.
Lemma read_undisturbed : undisturbed (mir_value_tree read_mir) (mir_control_flow read_mir) read_defs.
Proof. apply (undisturbedb_true _ _ _ read_rank); [apply read_graph_ok|]. vm_compute. reflexivity. Qed.
Lemma read_capacity : capacity (unoptimized (lw_builder read_lower)).
Proof. apply capacityb_true. vm_compute. reflexivity. Qed.
Lemma read_code_fuel : (code_fuel (blocks read_lir) <= 1000)%nat.
Proof. apply Nat.leb_le. vm_compute. reflexivity. Qed.
Lemma read_items_ok : Forall item_ok read_items.
Proof. pose proof items_ok as [H _]%list.Forall_cons. by apply list.Forall_singleton. Qed.

(** Another machine in the same state, with other definitions. *)
Definition littered : Machine (Z -> Z) :=
  {| m_vars := fun d => 1000 + d; m_cpu := m_cpu machine; m_k := m_k machine; m_world := m_world machine; m_result := m_result machine |}.

Lemma littered_alike : alike machine littered.
Proof. split; reflexivity. Qed.

(** ** Lowering *)


Lemma read_runs : exists o, run_graph 0 0 (mir_value_tree read_mir) 20 (mir_control_flow read_mir) 0 machine = Some o /\ o_success o = true /\ default 0 (o_metadata o) = 7.
Proof.
  assert (match run_graph 0 0 (mir_value_tree read_mir) 20 (mir_control_flow read_mir) 0 machine with Some o => o_success o && (default 0 (o_metadata o) =? 7) | None => false end = true) as H
    by (vm_compute; reflexivity).
  destruct (run_graph 0 0 _ 20 _ 0 machine) as [o|]; [|discriminate H]. apply andb_prop in H as [Hs Hm]. exists o. split; [reflexivity|]. split; [exact Hs|by apply Z.eqb_eq].
Qed.


Lemma interpreted_read : exists r, interpreted true read_items machine = Some r /\ lf_success r = true /\ gpreg (lf_cpu r) Ax = 0x11111111.
Proof.
  assert (match interpreted true read_items machine with Some r => lf_success r && (gpreg (lf_cpu r) Ax =? 0x11111111) | None => false end = true) as H by (vm_compute; reflexivity).
  destruct (interpreted true read_items machine) as [r|]; [|discriminate H]. apply andb_prop in H as [H1 H2]. exists r. split; [done|]. split; [done|by apply Z.eqb_eq].
Qed.

(** ** Optimisation *)

(** C16: On code without cycles the optimiser does not panic, and the code that it
    leaves exits in the same way, in the same state. *)
Theorem optimize_correct {W} `{ctx : ExecCtx W} `{sf : SoftFloat} `{lay : Layout} rank l :
  ranked_code rank (blocks l) -> (0 < length (blocks l))%nat ->
  exists l', optimize l = Some l' /\ (length (blocks l') <= length (blocks l))%nat /\ forall n (m : Machine W) e, execute n l m = Some e -> execute n l' m = Some e.
Proof.
  intros Hr Hne. destruct (optimize_blocks_ranked rank (blocks l) Hr Hne) as (b & Hb & Hlen & _). exists (with_blocks l b). unfold optimize. rewrite Hb.
  split; [done|]. split; [done|]. intros n m e. unfold execute. change (num_defs (with_blocks l b)) with (num_defs l). destruct (assert _); [|done]. cbn [mbind option_bind].
  intros He. apply (optimize_runs l (blocks l) b Hb n m e). by destruct l.
Qed.

(** Two blocks that do the same, after a branch. *)
Definition twins : Lir :=
  {| consts := [7; 8];
     blocks := [{| operations := [LLoadPtrImm CpuState Byte 0]; l_next := JCond 1 2 |};
                {| operations := [LConst 0; LStorePtrImm K Qword 0]; l_next := JNext 3 |};
                {| operations := [LConst 0; LStorePtrImm K Qword 0]; l_next := JNext 3 |};
                {| operations := []; l_next := JExit true None false |}];
     num_defs := 0 |}.
Lemma twins_ranked : ranked_code (fun p => 4 - p)%nat (blocks twins).
Proof.
  split.
  - intros [|[|[|[|p]]]] x t Hx; cbn in Hx; try (injection Hx as <-; cbn [l_next jump_iter]; rewrite ?elem_of_cons, ?elem_of_nil; lia). done.
  - intros [|[|[|[|p]]]] x t Hx; cbn in Hx; try (injection Hx as <-; cbn [l_next jump_iter]; rewrite ?elem_of_cons, ?elem_of_nil; intros Ht;
      repeat (destruct Ht as [->|Ht]; [by eexists|]); done). done.
Qed.
Lemma twins_acyclic : code_acyclic (fun p => 4 - p)%nat (blocks twins).
Proof. split; [vm_compute; reflexivity|exact twins_ranked]. Qed.
Lemma optimize_correct_witness : exists l', optimize twins = Some l' /\ length (blocks l') = 2%nat /\ exists e, execute 4 l' machine = Some e /\ e.1.1 = true /\ m_k e.2 = 7.
Proof.
  destruct (optimize_correct (W := Z -> Z) _ twins twins_ranked) as (l' & Hl & _ & Hrun); [vm_compute; lia|]. exists l'. split; [done|].
  assert (exists b, optimize twins = Some b /\ length (blocks b) = 2%nat) as (b & Hb & Hlen) by (vm_compute; eexists; split; reflexivity). assert (b = l') as -> by congruence. split; [done|].
  assert (match execute 4 twins machine with Some e => e.1.1 && (m_k e.2 =? 7) | None => false end = true) as H by (vm_compute; reflexivity).
  destruct (execute 4 twins machine) as [e|] eqn:E; [|discriminate H]. apply andb_prop in H as [H1 H2]. exists e. split; [by apply Hrun|]. split; [done|by apply Z.eqb_eq].
Defined.

(** ** Analyses *)

(** C18: The bound on executed operations exists for code without cycles, and no run
    executes more. *)
Theorem max_ops_bound {W} `{ctx : ExecCtx W} `{sf : SoftFloat} `{lay : Layout} rank sfuel l :
  code_acyclic rank (blocks l) -> (code_fuel (blocks l) <= sfuel)%nat -> (0 < length (blocks l))%nat ->
  exists d, max_ops_executed sfuel l = Some d /\ forall n (m : Machine W) c e, counted_from n l 0 m = Some (c, e) -> (c <= d)%nat.
Proof. apply ops_bounded. Qed.
Lemma max_ops_bound_witness : max_ops_executed 100 twins = Some 3%nat /\ forall n c e, counted_from n twins 0 machine = Some (c, e) -> (c <= 3)%nat.
Proof.
  destruct (max_ops_bound (W := Z -> Z) _ 100 twins twins_acyclic) as (d & Hd & H); [apply Nat.leb_le; vm_compute; reflexivity|vm_compute; lia|].
  vm_compute in Hd. injection Hd as <-. split; [vm_compute; reflexivity|exact (fun n => H n machine)].
Defined.

(** C19: The definitions that are said to be read before they are set are all there
    are: machines that agree on them run alike. *)
Theorem unassigned_defs_sound {W} `{ctx : ExecCtx W} `{sf : SoftFloat} `{lay : Layout} rank sfuel l :
  code_acyclic rank (blocks l) -> (code_fuel (blocks l) <= sfuel)%nat -> (0 < length (blocks l))%nat ->
  exists ds, get_unassigned_defs sfuel l = Some ds
    /\ forall n (m m' : Machine W), agree ds m m' -> option_Forall2 exit_agree (execute n l m) (execute n l m').
Proof. apply unassigned_run. Qed.
Lemma unassigned_defs_sound_witness : get_unassigned_defs 100 twins = Some [] /\ option_Forall2 exit_agree (execute 4 twins machine) (execute 4 twins littered).
Proof.
  destruct (unassigned_defs_sound (W := Z -> Z) _ 100 twins twins_acyclic) as (ds & Hd & H); [apply Nat.leb_le; vm_compute; reflexivity|vm_compute; lia|].
  vm_compute in Hd. injection Hd as <-. split; [vm_compute; reflexivity|]. apply H. split; [by intros d ?%elem_of_nil|reflexivity..].
Defined.
