(* ===== verification/ExecCtx.v ===== *)
(** * The execution context of the guest

    [ExecutionContext], [StackTransaction] and [Tss] of
    [sem86-core/src/emulator/exec.rs] and [sem86-core/src/system.rs]: loading
    descriptors, stack accesses of interrupts, and the permission bitmaps of
    the task state segment.  Memory and port space are the interfaces
    [Memory] and [PortSpace]; the context is in turn an instance of [ExecCtx],
    which commands run against.  There is no instruction trace here
    ([trace] is [None]), and counters do not overflow. *)
From stdpp Require Import sets.
From S2P Require Import Prelude Exceptions IlOps Arch Packing IlLoc MemArea IlCmd Ports Descriptors.

Open Scope comp_scope.

(** [u32] additions, which panic on overflow. *)
Definition u32_add (a b : Z) : option Z := assert (a + b <? 2 ^ 32);; Some (a + b).

(** [unwrap] of a result. *)
Definition cunwrap {W T} (m : comp W Exception T) : comp W Exception T := fun w =>
  match m w with Some (Ok x, w) => Some (Ok x, w) | _ => None end.

(** ** Stack accesses *)

Record StackTransaction := {
  st_mask : Z;
  st_esp : Z;
  st_ss_base : Z;
  st_op_size : Db;
  st_is_userspace : bool;
}.
Definition with_esp (t : StackTransaction) (esp : Z) : StackTransaction :=
  {| st_mask := st_mask t; st_esp := esp; st_ss_base := st_ss_base t; st_op_size := st_op_size t;
     st_is_userspace := st_is_userspace t |}.

Definition begin_stack_transaction (ss_size op_size : Db) (cpu : State) : option StackTransaction :=
  mask ← bitmask_u64 (db_num_bytes ss_size * 8);
  Some {| st_mask := wrap 32 mask; st_esp := wrap 32 (gpreg cpu Sp);
          st_ss_base := wrap 32 (gpreg cpu SsBase); st_op_size := op_size;
          st_is_userspace := is_userspace cpu |}.

(** The new stack pointer: the bits outside the mask stay. *)
Definition moved_sp (t : StackTransaction) (new_sp : Z) : Z :=
  Z.lor (Z.land (st_esp t) (unot 32 (st_mask t))) (Z.land new_sp (st_mask t)).

Section stack.
Context {W : Type} `{Memory W}.

Definition pop (t : StackTransaction) : comp W Exception (Z * StackTransaction) :=
  let sp := st_esp t in
  effective_sp <-! clift (u32_add (st_ss_base t) (Z.land sp (st_mask t)));;
  val <-! cunwrap (mem_read (db_num_bytes (st_op_size t)) effective_sp (st_is_userspace t));;
  cret (val, with_esp t (moved_sp t (wrap 32 (sp + db_num_bytes (st_op_size t))))).

Definition push (t : StackTransaction) (val : Z) : comp W Exception StackTransaction :=
  let t := with_esp t (moved_sp t (wrap 32 (st_esp t - db_num_bytes (st_op_size t)))) in
  effective_sp <-! clift (u32_add (st_ss_base t) (Z.land (st_esp t) (st_mask t)));;
  cunwrap (mem_write (db_num_bytes (st_op_size t)) effective_sp (st_is_userspace t)
             (wrap (8 * db_num_bytes (st_op_size t)) val)) >>!
  cret t.

Definition commit (t : StackTransaction) (cpu : State) : State := set_gpreg cpu Sp (st_esp t).

(** ** The task state segment *)

Definition tss_u16 (addr offset : Z) : comp W Exception Z :=
  a <-! clift (u32_add addr offset);; cunwrap (mem_read 2 a false).
Definition tss_u32 (addr offset : Z) : comp W Exception Z :=
  a <-! clift (u32_add addr offset);; cunwrap (mem_read 4 a false).

Definition tss_link (addr : Z) := tss_u16 addr 0x00.
Definition tss_esp0 (addr : Z) := tss_u32 addr 0x04.
Definition tss_ss0 (addr : Z) := tss_u16 addr 0x08.
Definition tss_esp1 (addr : Z) := tss_u32 addr 0x04.
Definition tss_ss1 (addr : Z) := tss_u16 addr 0x08.
Definition tss_esp2 (addr : Z) := tss_u32 addr 0x04.
Definition tss_ss2 (addr : Z) := tss_u16 addr 0x08.
Definition tss_iopb (addr : Z) := tss_u16 addr 0x66.
End stack.

(** ** The context *)

Record ExecutionContext (W : Type) := {
  inner : W;                         (* memory and devices *)
  protected_mode : bool;
  num_port_outs : Z;
  num_port_ins : Z;
  num_descriptors_read : Z;
}.
Arguments inner {W}. Arguments protected_mode {W}. Arguments num_port_outs {W}.
Arguments num_port_ins {W}. Arguments num_descriptors_read {W}.

Section context.
Context {W : Type} `{Memory W} `{PortSpace W}.

Local Abbreviation ecM T := (comp (ExecutionContext W) Exception T).

Definition with_inner (c : ExecutionContext W) (w : W) : ExecutionContext W :=
  {| inner := w; protected_mode := protected_mode c; num_port_outs := num_port_outs c;
     num_port_ins := num_port_ins c; num_descriptors_read := num_descriptors_read c |}.
Definition on_inner {T} (m : comp W Exception T) : ecM T := fun c =>
  r ← m (inner c); Some (r.1, with_inner c r.2).
Definition get_protected_mode : ecM bool := fun c => Some (Ok (protected_mode c), c).
Definition set_protected_mode (enable : bool) : ecM unit := fun c =>
  Some (Ok tt, {| inner := inner c; protected_mode := enable; num_port_outs := num_port_outs c;
     num_port_ins := num_port_ins c; num_descriptors_read := num_descriptors_read c |}).
Definition count_access (outs ins descriptors : Z) : ecM unit := fun c =>
  Some (Ok tt, {| inner := inner c; protected_mode := protected_mode c;
     num_port_outs := num_port_outs c + outs; num_port_ins := num_port_ins c + ins;
     num_descriptors_read := num_descriptors_read c + descriptors |}).

#[export] Instance context_memory : Memory (ExecutionContext W) := {|
  mem_read n a u := on_inner (mem_read n a u);
  mem_write n a u v := on_inner (mem_write n a u v) |}.

(** A conforming code segment is visible at any privilege level. *)
Definition is_conforming_code (d : Z) : bool :=
  match SegmentAccessByte.data (Descriptor.access_byte d) with
  | CodeOrDataInfo seg => CodeOrData.executable seg && CodeOrData.direction_or_conforming seg
  | SystemSegment _ => false
  end.

Definition descriptor_table (cpu : State) (selector : Z) : Z * Z :=
  if SegmentSelector.is_local selector then (wrap 32 (gpreg cpu LdtBase), wrap 32 (gpreg cpu LdtLimit))
  else (wrap 32 (gpreg cpu GdtBase), wrap 32 (gpreg cpu GdtLimit)).

(** Sets the accessed bit of a code or data segment, in memory too. *)
Definition mark_descriptor (mark_accessed : bool) (descriptor_addr d : Z) : ecM Z :=
  match SegmentAccessByte.data (Descriptor.access_byte d) with
  | CodeOrDataInfo info =>
      if mark_accessed && negb (CodeOrData.accessed info) then
        let b := SegmentAccessByte.set_info (Descriptor.access_byte d)
                   (CodeOrDataInfo (CodeOrData.set_accessed true info)) in
        let d := Descriptor.set_access_byte d b in
        a <-! clift (u32_add descriptor_addr 5);;
        mem_write 1 a false (wrap 8 (Z.shiftr d 40)) >>!
        cret d
      else cret d
  | SystemSegment _ => cret d
  end.

Definition load_descriptor (cpu : State) (selector : Z) (check_permissions mark_accessed : bool)
    : ecM (option Z) :=
  if SegmentSelector.is_null selector then cret None
  else
    let (table_addr, table_limit) := descriptor_table cpu selector in
    let offset := SegmentSelector.segment_index selector * 8 in
    descriptor_addr <-! clift (u32_add table_addr offset);;
    if table_limit <? offset + 7 then cret None
    else
      d <-! mem_read 8 descriptor_addr false;;
      let dpl := SegmentAccessByte.dpl (Descriptor.access_byte d) in
      if check_permissions && negb (is_conforming_code d)
         && ((dpl <? wrap 8 (gpreg cpu Cpl)) || (dpl <? SegmentSelector.rpl selector))
      then cret None
      else d <-! mark_descriptor mark_accessed descriptor_addr d;; cret (Some d).

Definition descriptor_result (d flag : Z) : DescriptorReadResult :=
  {| d_ok := true; d_base := Descriptor.base d;
     d_limit := Descriptor.effective_limit_taking_direction_into_account d;
     d_access_rights := Z.lor (CachedDescriptorAccessRights.from d) flag |}.

(** A null descriptor: an empty area. *)
Definition null_descriptor : Z :=
  Descriptor.new 0 0 (SegmentAccessByte.new 0 true 0 true) 0
    (DescriptorFlags.new 0 false Protected32 GByte) 0.

Definition read_descriptor (cpu : State) (force mark_accessed : bool) (selector : Z)
    : ecM DescriptorReadResult :=
  count_access 0 0 1 >>!
  pm <-! get_protected_mode;;
  if (pm && negb (get_flag cpu Vm)) || force then
    if SegmentSelector.is_null selector then
      cret {| d_ok := true; d_base := 0; d_limit := 0;
              d_access_rights := CachedDescriptorAccessRights.from null_descriptor |}
    else
      d <-! load_descriptor cpu selector true mark_accessed;;
      cret (match d with
            | Some d => descriptor_result d 0
            | None => {| d_ok := false; d_base := 0; d_limit := 0; d_access_rights := 0 |}
            end)
  else cret (descriptor_result (Descriptor.from_real_mode_selector selector) 1).

(** ** Ports *)

Definition check_io_permission (cpu : State) (port size : Z) : ecM bool :=
  pm <-! get_protected_mode;;
  if pm && (get_flag cpu Vm || (wrap 8 (gpreg cpu Iopl) <? wrap 8 (gpreg cpu Cpl))) then
    let tss_addr := wrap 32 (gpreg cpu TrBase) in
    iopb <-! tss_iopb tss_addr;;
    let iopb_offset := iopb + port / 8 in
    if gpreg cpu TrLimit <? iopb_offset then cret false
    else
      iopb_addr <-! clift (u32_add tss_addr (wrap 32 iopb_offset));;
      byte1 <-! cunwrap (mem_read 1 iopb_addr false);;
      next <-! clift (u32_add iopb_addr 1);;
      byte2 <-! cunwrap (mem_read 1 next false);;
      let word := Z.lor byte1 (Z.shiftl byte2 8) in
      mask <-! clift (bitmask_u64 size);;
      cret (Z.land (Z.shiftr word (port mod 8)) (wrap 16 mask) =? 0)
  else cret true.

Definition port_in (cpu : State) (port len : Z) : ecM Z :=
  count_access 0 1 0 >>!
  allowed <-! check_io_permission cpu port len;;
  if negb allowed then cerr (GeneralProtectionFault 0)
  else
    result <-! on_inner (match len with
                         | 1 => read_port_u8 port
                         | 2 => read_port_u16 port
                         | 4 => read_port_u32 port
                         | _ => cpanic
                         end);;
    mask <-! clift (bitmask_u64 (len * 8));;
    cret (Z.land result mask).

Definition port_out (cpu : State) (port len val : Z) : ecM unit :=
  count_access 1 0 0 >>!
  allowed <-! check_io_permission cpu port len;;
  if negb allowed then cerr (GeneralProtectionFault 0)
  else
    on_inner (match len with
              | 1 => write_port_u8 port (wrap 8 val)
              | 2 => write_port_u16 port (wrap 16 val)
              | 4 => write_port_u32 port val
              | _ => cpanic
              end).

Definition software_interrupt_is_redirected (cpu : State) (n : Z) : ecM bool :=
  pm <-! get_protected_mode;;
  _ <-! clift (assert (pm : bool));;
  let tss_addr := wrap 32 (gpreg cpu TrBase) in
  iopb <-! tss_iopb tss_addr;;
  _ <-! clift (assert (32 <=? iopb));;
  let redirection_bitmap_offset := iopb - 32 in
  if gpreg cpu TrLimit <? redirection_bitmap_offset then cret false
  else
    a <-! clift (u32_add tss_addr (wrap 32 redirection_bitmap_offset));;
    a <-! clift (u32_add a (n / 8));;
    b <-! cunwrap (mem_read 1 a false);;
    cret (Z.land (Z.shiftr b (n mod 8)) 1 =? 0).

#[export] Instance exec_ctx : ExecCtx (ExecutionContext W) := {|
  IlCmd.read_descriptor := read_descriptor;
  IlCmd.port_out := port_out;
  IlCmd.port_in := port_in |}.

End context.
