(* ===== verification/ExecSound.v ===== *)
(** * What the execution context guarantees

    Over ordinary memory ([PlainMemory]): which descriptors load and what
    loading changes, that the stack gives back what was pushed, and which port
    accesses the task state segment permits. *)
From stdpp Require Import sets.
From S2P Require Import Prelude Exceptions IlOps Arch Packing IlLoc MemArea IlCmd Ports Descriptors ExecCtx.

Open Scope comp_scope.

Lemma u32_add_ok a b : a + b < 2 ^ 32 -> u32_add a b = Some (a + b).
Proof. intros Hlt. unfold u32_add. by rewrite (proj2 (Z.ltb_lt _ _)). Qed.

Section sound.
Context {W : Type} `{PlainMemory W} `{PortSpace W}.

(** The memory of a context. *)
Definition mem_of (c : ExecutionContext W) (a : Z) : Z := peek (inner c) a.
Definition word_of (c : ExecutionContext W) (a n : Z) : Z := peek_word (inner c) (byte_addrs a n).

Lemma ctx_read n a us c :
  1 <= n <= 8 -> mem_read n a us c = Some (Ok (word_of c a n), c).
Proof. intros Hn. simpl. unfold on_inner. rewrite read_plain by done. by destruct c. Qed.

Lemma ctx_write n a us v c :
  1 <= n <= 8 -> exists w, mem_write n a us v c = Some (Ok tt, with_inner c w)
    /\ (forall x, x ∉ byte_addrs a n -> peek w x = mem_of c x)
    /\ peek w <$> byte_addrs a n = to_le_bytes (Z.to_nat n) v.
Proof.
  intros Hn. destruct (write_plain n a us v (inner c) Hn) as (w & Ew & Hout & Hin).
  exists w. simpl. unfold on_inner. rewrite Ew. done.
Qed.

Lemma byte_addrs_1 a : inw 32 a -> byte_addrs a 1 = [a].
Proof. intros Ha. unfold byte_addrs. simpl. by rewrite Z.add_0_r, wrap_small. Qed.

Lemma not_in_range x a n : 0 <= n -> a + n <= 2 ^ 32 -> 0 <= a -> 0 <= x < 2 ^ 32 -> x < a \/ a + n <= x -> x ∉ byte_addrs a n.
Proof.
  intros Hn Ha Ha0 Hx Hout (i & -> & Hi)%list_elem_of_fmap. apply elem_of_seqZ in Hi.
  rewrite wrap_small in * by (unfold inw; lia). lia.
Qed.

(** ** Descriptors *)

(** The selector lies in its table and the segment is visible. *)
Definition accessible (cpu : State) (selector d : Z) : bool :=
  (SegmentSelector.segment_index selector * 8 + 7 <=? (descriptor_table cpu selector).2)
  && (is_conforming_code d
      || (Z.max (wrap 8 (gpreg cpu Cpl)) (SegmentSelector.rpl selector)
          <=? SegmentAccessByte.dpl (Descriptor.access_byte d))).

Definition is_segment (d : Z) : bool := SegmentAccessByte.is_code_or_data (Descriptor.access_byte d).

Lemma is_segment_data d :
  is_segment d = true ->
  SegmentAccessByte.data (Descriptor.access_byte d) = CodeOrDataInfo (SegmentAccessByte.low (Descriptor.access_byte d)).
Proof. unfold is_segment, SegmentAccessByte.data. by intros ->. Qed.

Lemma is_segment_system d :
  is_segment d = false -> exists t, SegmentAccessByte.data (Descriptor.access_byte d) = SystemSegment t.
Proof. unfold is_segment, SegmentAccessByte.data. intros ->. by eexists. Qed.

Lemma accessed_bit d :
  CodeOrData.accessed (SegmentAccessByte.low (Descriptor.access_byte d)) = Z.testbit d 40.
Proof.
  unfold CodeOrData.accessed, SegmentAccessByte.low, Descriptor.access_byte, field, flag.
  autorewrite with zbits. split_compares; bits_finish.
Qed.

Lemma setbit_same d i : 0 <= i -> Z.testbit d i = true -> Z.setbit d i = d.
Proof.
  intros Hi Hb. apply Z.bits_inj'. intros j Hj. rewrite Z.setbit_eqb by done.
  destruct (Z.eqb_spec i j) as [<-|]; [by rewrite Hb|done].
Qed.

(** Replacing the sixth byte of a descriptor. *)
Lemma word_of_byte5 c w a v :
  0 <= a -> a + 7 < 2 ^ 32 -> inw 8 v ->
  (forall x, x ∉ byte_addrs (a + 5) 1 -> peek w x = mem_of c x) ->
  peek w <$> byte_addrs (a + 5) 1 = to_le_bytes 1 v ->
  peek_word w (byte_addrs a 8) = set_field 40 8 v (word_of c a 8).
Proof.
  intros Ha H7 Hv Hout Hin. unfold word_of.
  change 8 with (5 + (1 + 2)). rewrite !byte_addrs_app by lia.
  rewrite byte_addrs_1 in * by (unfold inw; lia).
  assert (forall l, (a + 5) ∉ l -> peek_word w l = peek_word (inner c) l) as Hsame.
  { intros l Hl. unfold peek_word. f_equal. apply list_fmap_ext. intros i x Hx. apply Hout.
    intros Hin'%list_elem_of_singleton. subst x. apply Hl. by apply list_elem_of_lookup_2 in Hx. }
  rewrite !peek_word_app, (Hsame (byte_addrs a 5)), (Hsame (byte_addrs (a + 5 + 1) 2)), !byte_addrs_length;
    cbn [length].
  - assert (peek_word w [a + 5] = v) as ->.
    { unfold peek_word. rewrite Hin. change (to_le_bytes 1 v) with [wrap 8 v]. cbn [from_le_bytes].
      by rewrite Z.shiftl_0_l, Z.lor_0_r, wrap_small. }
    pose proof (peek_word_inw (inner c) (byte_addrs a 5)) as HA. rewrite byte_addrs_length in HA.
    pose proof (peek_word_inw (inner c) [a + 5]) as HB.
    pose proof (peek_word_inw (inner c) (byte_addrs (a + 5 + 1) 2)) as HC. rewrite byte_addrs_length in HC.
    revert HA HB HC. simpl length. generalize (peek_word (inner c) (byte_addrs a 5)) as A.
    generalize (peek_word (inner c) [a + 5]) as B. generalize (peek_word (inner c) (byte_addrs (a + 5 + 1) 2)) as C.
    intros C B A HA HB HC. change (8 * Z.of_nat (Z.to_nat 5)) with 40 in *.
    change (8 * Z.of_nat 1) with 8 in *. change (8 * Z.of_nat (Z.to_nat 2)) with 16 in *. bitblast.
  - apply not_in_range; lia.
  - apply not_in_range; lia.
Qed.

Definition segment_address (cpu : State) (selector : Z) : Z :=
  (descriptor_table cpu selector).1 + SegmentSelector.segment_index selector * 8.

(** The descriptor as it is after it has been loaded. *)
Definition loaded (mark_accessed : bool) (d : Z) : Z :=
  if mark_accessed && is_segment d then Z.setbit d 40 else d.

Lemma access_byte_bit d i : 0 <= i < 8 -> Z.testbit (Descriptor.access_byte d) i = Z.testbit d (i + 40).
Proof.
  intros Hi. unfold Descriptor.access_byte, field. autorewrite with zbits. split_compares; bits_finish.
Qed.

Lemma is_segment_bit d : is_segment d = Z.testbit d 44.
Proof. exact (access_byte_bit d 4 ltac:(lia)). Qed.

Lemma conforming_bits d :
  is_conforming_code d = Z.testbit d 44 && (Z.testbit d 43 && Z.testbit d 42).
Proof.
  unfold is_conforming_code, SegmentAccessByte.data. change (SegmentAccessByte.is_code_or_data _) with (is_segment d).
  rewrite is_segment_bit. destruct (Z.testbit d 44); [|reflexivity]. rewrite andb_true_l.
  assert (forall i, 0 <= i < 4 -> flag i (SegmentAccessByte.low (Descriptor.access_byte d)) = Z.testbit d (i + 40)) as Hlow.
  { intros i Hi. rewrite <- access_byte_bit by lia. unfold flag, SegmentAccessByte.low, field.
    generalize (Descriptor.access_byte d). intros b. autorewrite with zbits. split_compares; bits_finish. }
  unfold CodeOrData.executable, CodeOrData.direction_or_conforming. by rewrite !Hlow by lia.
Qed.

Lemma dpl_bits d : SegmentAccessByte.dpl (Descriptor.access_byte d) = field 45 2 d.
Proof. unfold SegmentAccessByte.dpl, Descriptor.access_byte. bitblast. Qed.

Lemma setbit_accessible cpu selector d :
  accessible cpu selector (Z.setbit d 40) = accessible cpu selector d
  /\ is_segment (Z.setbit d 40) = is_segment d.
Proof.
  unfold accessible. rewrite !conforming_bits, !dpl_bits, !is_segment_bit, !Z.setbit_neq by lia. split; [|done].
  replace (field 45 2 (Z.setbit d 40)) with (field 45 2 d); [done|]. unfold field.
  apply Z.bits_inj'. intros i Hi. autorewrite with zbits. split_compares; bits_finish.
Qed.

Lemma loaded_idem mark_accessed d : loaded mark_accessed (loaded mark_accessed d) = loaded mark_accessed d.
Proof.
  unfold loaded at 2 3. destruct (mark_accessed && is_segment d) eqn:E1; unfold loaded; [|by rewrite E1].
  rewrite (proj2 (setbit_accessible State_default 0 d)), E1. apply setbit_same; [lia|].
  by rewrite Z.setbit_eq by lia.
Qed.

Lemma set_field_setbit d :
  inw 64 d -> set_field 40 8 (wrap 8 (Z.shiftr (Z.setbit d 40) 40)) d = Z.setbit d 40.
Proof.
  intros Hd. apply Z.bits_inj'. intros i Hi. unfold set_field. autorewrite with zbits.
  split_compares; bits_finish.
Qed.

(** Marking a descriptor that is in memory. *)
Lemma mark_descriptor_spec mark_accessed a d c :
  0 <= a -> a + 7 < 2 ^ 32 -> word_of c a 8 = d ->
  exists w, mark_descriptor mark_accessed a d c = Some (Ok (loaded mark_accessed d), with_inner c w)
  /\ peek_word w (byte_addrs a 8) = loaded mark_accessed d
  /\ (forall x, x ∉ byte_addrs a 8 -> peek w x = mem_of c x).
Proof.
  intros Ha H7 Hd.
  assert (exists w, (cret d : comp (ExecutionContext W) Exception Z) c = Some (Ok d, with_inner c w)
    /\ peek_word w (byte_addrs a 8) = d /\ (forall x, x ∉ byte_addrs a 8 -> peek w x = mem_of c x)) as Hkeep.
  { exists (inner c). destruct c. by split. }
  unfold mark_descriptor, loaded. destruct (is_segment d) eqn:Es.
  2: { destruct (is_segment_system d Es) as [t ->]. by rewrite andb_false_r. }
  rewrite (is_segment_data d Es), andb_true_r, accessed_bit.
  destruct mark_accessed; [|exact Hkeep]. cbn [andb].
  destruct (Z.testbit d 40) eqn:E40; [by rewrite (setbit_same d 40) by (done || lia)|]. cbn [negb].
  rewrite (mark_accessed_bit d _ (is_segment_data d Es)).
  destruct (ctx_write 1 (a + 5) false (wrap 8 (Z.shiftr (Z.setbit d 40) 40)) c ltac:(lia)) as (w & Ew & Hout & Hin).
  exists w. unfold cbind at 1, clift. rewrite u32_add_ok by lia. unfold cbind. rewrite Ew.
  split; [done|]. split.
  - rewrite (word_of_byte5 c w a _ Ha H7 ltac:(by apply wrap_inw) Hout Hin), Hd. apply set_field_setbit.
    rewrite <- Hd. unfold word_of. pose proof (peek_word_inw (inner c) (byte_addrs a 8)) as Hi.
    by rewrite byte_addrs_length in Hi.
  - intros x Hx. apply Hout. intros Hx'. apply Hx.
    apply list_elem_of_fmap in Hx' as (i & -> & Hi). apply list_elem_of_fmap. exists (5 + i).
    rewrite elem_of_seqZ in *. split; [f_equal; lia|lia].
Qed.

Lemma mark_loaded mark_accessed a d (c : ExecutionContext W) :
  mark_descriptor mark_accessed a (loaded mark_accessed d) c = Some (Ok (loaded mark_accessed d), c).
Proof.
  rewrite <- (loaded_idem mark_accessed d) at 1. set (e := loaded mark_accessed d).
  unfold mark_descriptor, loaded. destruct (is_segment e) eqn:Es.
  - destruct mark_accessed eqn:Em; cbn [andb].
    + assert (is_segment (Z.setbit e 40) = true) as Es' by (by rewrite (proj2 (setbit_accessible State_default 0 e))).
      rewrite (is_segment_data _ Es'), accessed_bit, Z.setbit_eq by lia. cbn [negb].
      assert (Z.setbit e 40 = e) as ->; [|done].
      pose proof (loaded_idem true d) as Hi. fold e in Hi. unfold loaded in Hi at 1. by rewrite Es in Hi.
    + by rewrite (is_segment_data _ Es).
  - rewrite andb_false_r. by destruct (is_segment_system e Es) as [t ->].
Qed.

Lemma table_nonneg cpu selector : 0 <= (descriptor_table cpu selector).1.
Proof. unfold descriptor_table. case_match; simpl; by apply wrap_inw. Qed.
Lemma segment_index_nonneg selector : 0 <= SegmentSelector.segment_index selector.
Proof. unfold SegmentSelector.segment_index, field. rewrite Z.land_ones by lia. apply Z.mod_pos_bound. lia. Qed.

Lemma load_descriptor_run cpu selector mark_accessed c :
  SegmentSelector.is_null selector = false -> segment_address cpu selector + 7 < 2 ^ 32 ->
  let d := word_of c (segment_address cpu selector) 8 in
  load_descriptor cpu selector true mark_accessed c
  = if accessible cpu selector d
    then (d <-! mark_descriptor mark_accessed (segment_address cpu selector) d;; cret (Some d)) c
    else Some (Ok None, c).
Proof.
  intros Hnull Ha d. unfold load_descriptor. rewrite Hnull.
  destruct (descriptor_table cpu selector) as [ta tl] eqn:Et.
  assert (segment_address cpu selector = ta + SegmentSelector.segment_index selector * 8) as Ea
    by (unfold segment_address; by rewrite Et).
  assert (accessible cpu selector d = (SegmentSelector.segment_index selector * 8 + 7 <=? tl)
    && (is_conforming_code d || (Z.max (wrap 8 (gpreg cpu Cpl)) (SegmentSelector.rpl selector)
          <=? SegmentAccessByte.dpl (Descriptor.access_byte d)))) as Hacc by (unfold accessible; by rewrite Et).
  cbv beta iota zeta. unfold cbind at 1, clift. rewrite u32_add_ok by lia. rewrite <- Ea, Hacc.
  destruct (Z.ltb_spec tl (SegmentSelector.segment_index selector * 8 + 7)).
  { by rewrite (proj2 (Z.leb_gt _ tl)) by lia. }
  rewrite (proj2 (Z.leb_le _ tl)) by lia. cbn [negb andb]. unfold cbind at 1. rewrite ctx_read by lia. fold d.
  destruct (is_conforming_code d); cbn [negb andb orb]; [done|].
  destruct (Z.leb_spec (Z.max (wrap 8 (gpreg cpu Cpl)) (SegmentSelector.rpl selector))
    (SegmentAccessByte.dpl (Descriptor.access_byte d))).
  - rewrite (proj2 (Z.ltb_ge _ (wrap 8 (gpreg cpu Cpl)))), (proj2 (Z.ltb_ge _ (SegmentSelector.rpl selector))) by lia.
    done.
  - destruct (Z.ltb_spec (SegmentAccessByte.dpl (Descriptor.access_byte d)) (wrap 8 (gpreg cpu Cpl))); [done|].
    by rewrite (proj2 (Z.ltb_lt _ (SegmentSelector.rpl selector))) by lia.
Qed.


(** ** The stack *)

Fixpoint push_all (t : StackTransaction) (vs : list Z) : comp W Exception StackTransaction :=
  match vs with
  | [] => cret t
  | v :: vs => t <-! push t v;; push_all t vs
  end.
Fixpoint pops (n : nat) (t : StackTransaction) : comp W Exception (list Z * StackTransaction) :=
  match n with
  | O => cret ([], t)
  | S n => r <-! pop t;; rs <-! pops n r.2;; cret (r.1 :: rs.1, rs.2)
  end.

(** A stack pointer of [m] bits, 16 or 32. *)
Definition stack_ok (m : Z) (t : StackTransaction) : Prop :=
  0 <= m <= 32 /\ st_mask t = Z.ones m /\ inw 32 (st_esp t) /\ 0 <= st_ss_base t.
Definition sp (t : StackTransaction) : Z := Z.land (st_esp t) (st_mask t).
Definition slot (t : StackTransaction) : Z := db_num_bytes (st_op_size t).

Lemma slot_range t : 2 <= slot t <= 4.
Proof. unfold slot. destruct (st_op_size t); simpl; lia. Qed.

Lemma merge_high m e e' :
  0 <= m <= 32 -> inw 32 e -> inw 32 e' -> e' / 2 ^ m = e / 2 ^ m ->
  Z.lor (Z.land e (unot 32 (Z.ones m))) (Z.land e' (Z.ones m)) = e'.
Proof.
  intros Hm He He' Hd. apply Z.bits_inj'. intros i Hi. autorewrite with zbits.
  rewrite (proj2 (Z.leb_le 0 i)) by done. cbn [andb]. destruct (Z.ltb_spec i m).
  - rewrite (proj2 (Z.ltb_lt i 32)) by lia. destruct (Z.testbit e i), (Z.testbit e' i); reflexivity.
  - assert (Z.testbit e i = Z.testbit e' i) as ->.
    { replace i with ((i - m) + m) by lia. by rewrite <- !Z.shiftr_spec, !Z.shiftr_div_pow2, Hd by lia. }
    destruct (Z.ltb_spec i 32).
    + destruct (Z.testbit e' i); reflexivity.
    + by rewrite (testbit_above 32 e') by (done || lia).
Qed.

Lemma sp_mod m t : stack_ok m t -> sp t = st_esp t mod 2 ^ m.
Proof. intros (Hm & Hmask & _). unfold sp. rewrite Hmask. apply Z.land_ones. lia. Qed.

Lemma moved_sp_ok m t e : stack_ok m t -> inw 32 e -> e / 2 ^ m = st_esp t / 2 ^ m -> moved_sp t e = e.
Proof. intros (Hm & Hmask & He & _) Hin Hd. unfold moved_sp. rewrite Hmask. by apply merge_high. Qed.

Lemma same_high m e d : 0 <= m -> 0 <= e mod 2 ^ m + d < 2 ^ m -> (e + d) / 2 ^ m = e / 2 ^ m /\ (e + d) mod 2 ^ m = e mod 2 ^ m + d.
Proof.
  intros Hm Hd. pose proof (Z.div_mod e (2 ^ m) ltac:(lia)) as Hdm.
  split; [symmetry; apply (Z.div_unique _ _ _ (e mod 2 ^ m + d))|symmetry; apply (Z.mod_unique _ _ (e / 2 ^ m))]; lia.
Qed.

(** One push, and the pop that undoes it. *)
Lemma push_spec m t v w :
  stack_ok m t -> slot t <= sp t -> st_ss_base t + sp t <= 2 ^ 32 ->
  let t' := with_esp t (st_esp t - slot t) in
  exists w', push t v w = Some (Ok t', w') /\ stack_ok m t' /\ sp t' = sp t - slot t /\ slot t' = slot t
  /\ (forall x, x ∉ byte_addrs (st_ss_base t + sp t') (slot t) -> peek w' x = peek w x)
  /\ peek_word w' (byte_addrs (st_ss_base t + sp t') (slot t)) = wrap (8 * slot t) v.
Proof.
  intros Hok Hsp Hbase t'. pose proof (slot_range t) as Hslot. pose proof Hok as (Hm & Hmask & He & Hb).
  rewrite (sp_mod m t Hok) in *.
  assert (0 <= st_esp t mod 2 ^ m < 2 ^ m) as Hmod by (apply Z.mod_pos_bound; lia).
  destruct (same_high m (st_esp t) (- slot t) ltac:(lia) ltac:(lia)) as [Hd Hmod'].
  rewrite Z.add_opp_r in Hd, Hmod'.
  assert (inw 32 (st_esp t - slot t)) as He'.
  { pose proof (Z.mod_le (st_esp t) (2 ^ m)). unfold inw in *. lia. }
  assert (stack_ok m t') as Hok' by done.
  assert (sp t' = st_esp t mod 2 ^ m - slot t) as Hsp' by (rewrite (sp_mod m t' Hok'); exact Hmod').
  unfold push. fold (slot t). rewrite (wrap_small 32) by done. rewrite (moved_sp_ok m) by done. fold t'.
  fold (sp t'). change (st_ss_base t') with (st_ss_base t). change (st_op_size t') with (st_op_size t). fold (slot t).
  unfold cbind at 1, clift. rewrite u32_add_ok by lia.
  destruct (write_plain (slot t) (st_ss_base t + sp t') (st_is_userspace t') (wrap (8 * slot t) v) w ltac:(lia))
    as (w' & Ew & Hout & Hin).
  exists w'. unfold cbind, cunwrap. rewrite Ew. split; [done|]. split; [done|]. split; [done|]. split; [done|].
  split; [exact Hout|]. unfold peek_word. rewrite Hin, from_to_le_bytes.
  replace (8 * Z.of_nat (Z.to_nat (slot t))) with (8 * slot t) by lia. apply wrap_wrap. lia.
Qed.

Lemma pop_spec m t w :
  stack_ok m t -> sp t + slot t < 2 ^ m -> st_ss_base t + sp t < 2 ^ 32 ->
  pop t w = Some (Ok (peek_word w (byte_addrs (st_ss_base t + sp t) (slot t)), with_esp t (st_esp t + slot t)), w).
Proof.
  intros Hok Hsp Hbase. pose proof (slot_range t) as Hslot. pose proof Hok as (Hm & Hmask & He & Hb).
  unfold pop. fold (sp t) (slot t). unfold cbind at 1, clift. rewrite u32_add_ok by lia.
  unfold cbind, cunwrap. rewrite read_plain by lia. fold (peek_word w (byte_addrs (st_ss_base t + sp t) (slot t))).
  rewrite (sp_mod m t Hok) in Hsp. pose proof (Z.mod_pos_bound (st_esp t) (2 ^ m) ltac:(lia)).
  destruct (same_high m (st_esp t) (slot t) ltac:(lia) ltac:(lia)) as [Hd _].
  assert (inw 32 (st_esp t + slot t)) as He'.
  { unfold inw in *. pose proof (Z.div_mod (st_esp t) (2 ^ m) ltac:(lia)).
    assert (2 ^ 32 = 2 ^ m * 2 ^ (32 - m)) as E32 by (rewrite <- Z.pow_add_r by lia; f_equal; lia).
    assert (st_esp t / 2 ^ m < 2 ^ (32 - m)) by (apply Z.div_lt_upper_bound; lia). split; [lia|]. rewrite E32. nia. }
  rewrite (wrap_small 32) by done. by rewrite (moved_sp_ok m) by done.
Qed.

Lemma pops_snoc n t w l t1 w1 x t2 w2 :
  pops n t w = Some (Ok (l, t1), w1) -> pop t1 w1 = Some (Ok (x, t2), w2) ->
  pops (S n) t w = Some (Ok (l ++ [x], t2), w2).
Proof.
  revert t w l. induction n as [|n IH]; intros t w l Hp Hq.
  - injection Hp as <- <- <-. simpl. unfold cbind. by rewrite Hq.
  - revert Hp. change (pops (S (S n)) t w) with (cbind (pop t) (fun r => cbind (pops (S n) r.2) (fun rs => cret (r.1 :: rs.1, rs.2))) w).
    change (pops (S n) t w) with (cbind (pop t) (fun r => cbind (pops n r.2) (fun rs => cret (r.1 :: rs.1, rs.2))) w).
    unfold cbind at 1 3. destruct (pop t w) as [[[[y ty]|] wy]|]; try done. unfold cbind. cbn [fst snd].
    destruct (pops n ty wy) as [[[[ys tys]|] wys]|] eqn:Ey; try done. unfold cret at 1. cbn [fst snd]. intros [= <- <- <-].
    by rewrite (IH ty wy ys Ey Hq).
Qed.

Lemma peek_word_ext w w' l : (forall x, x ∈ l -> peek w' x = peek w x) -> peek_word w' l = peek_word w l.
Proof.
  intros Hx. unfold peek_word. f_equal. apply list_fmap_ext. intros i x Hi. apply Hx. by apply list_elem_of_lookup_2 in Hi.
Qed.

Lemma in_range x a n : 0 <= a -> a + n <= 2 ^ 32 -> x ∈ byte_addrs a n -> a <= x < a + n.
Proof.
  intros Ha Han (i & -> & Hi)%list_elem_of_fmap. apply elem_of_seqZ in Hi. rewrite wrap_small by (unfold inw; lia). lia.
Qed.

(** C37: what is pushed is popped again. *)
Theorem stack_roundtrip m t vs w :
  stack_ok m t -> slot t * Z.of_nat (length vs) <= sp t -> st_ss_base t + sp t <= 2 ^ 32 - 1 ->
  exists t' w', push_all t vs w = Some (Ok t', w')
  /\ sp t' = sp t - slot t * Z.of_nat (length vs)
  /\ (forall x, x < st_ss_base t + sp t' \/ st_ss_base t + sp t <= x -> 0 <= x < 2 ^ 32 -> peek w' x = peek w x)
  /\ pops (length vs) t' w' = Some (Ok (wrap (8 * slot t) <$> rev vs, t), w').
Proof.
  revert t w. induction vs as [|v vs IH]; intros t w Hok Hsp Hbase; cbn [length push_all] in *.
  { exists t, w. split; [done|]. split; [lia|]. split; [done|]. done. }
  pose proof (slot_range t) as Hslot. pose proof Hok as (Hm & _ & He & Hb).
  destruct (push_spec m t v w Hok ltac:(nia) ltac:(lia)) as (w1 & Epush & Hok1 & Hsp1 & Hslot1 & Hout1 & Hval).
  unfold cbind. rewrite Epush. set (t1 := with_esp t (st_esp t - slot t)) in *.
  change (st_ss_base t1) with (st_ss_base t) in *.
  destruct (IH t1 w1 Hok1) as (t' & w' & Eall & Hsp' & Hout & Hpops); [rewrite Hslot1; lia|cbn [st_ss_base t1 with_esp]; lia|].
  change (st_ss_base t1) with (st_ss_base t) in *. rewrite Hslot1 in *.
  assert (0 <= sp t1) as Hsp0 by nia.
  exists t', w'. split; [done|]. split; [lia|]. split.
  - intros x Hx Hr. rewrite Hout, Hout1 by (done || lia || (apply not_in_range; lia)). done.
  - simpl rev. rewrite fmap_app. apply pops_snoc with t1 w'; [done|].
    rewrite (pop_spec m t1 w' Hok1).
    + rewrite Hslot1. change (st_ss_base t1) with (st_ss_base t). rewrite (peek_word_ext w1 w'), Hval.
      * do 4 f_equal. unfold t1, with_esp. destruct t; simpl. f_equal. lia.
      * intros x Hx. pose proof (in_range x (st_ss_base t + sp t1) (slot t) ltac:(lia) ltac:(lia) Hx). apply Hout; lia.
    + rewrite Hsp1, Hslot1, (sp_mod m t Hok). pose proof (Z.mod_pos_bound (st_esp t) (2 ^ m) ltac:(lia)). lia.
    + change (st_ss_base t1) with (st_ss_base t). lia.
Qed.

(** ** Port permissions *)

Lemma no_bits word k size :
  0 <= k -> 0 <= size <= 16 -> (Z.land (Z.shiftr word k) (wrap 16 (Z.ones size)) =? 0) = true
  <-> forall i, 0 <= i < size -> Z.testbit word (k + i) = false.
Proof.
  intros Hk Hs. rewrite Z.eqb_eq. split.
  - intros Hz i Hi. apply (f_equal (fun x => Z.testbit x i)) in Hz. revert Hz. autorewrite with zbits.
    rewrite (proj2 (Z.leb_le 0 i)), (proj2 (Z.ltb_lt i 16)), (proj2 (Z.ltb_lt i size)) by lia.
    cbn [andb]. rewrite !andb_true_r. rewrite Z.add_comm. by destruct (Z.testbit word (i + k)).
  - intros Hb. apply Z.bits_inj'. intros i Hi. autorewrite with zbits. rewrite (proj2 (Z.leb_le 0 i)) by done.
    destruct (Z.ltb_spec i size).
    + rewrite Z.add_comm, Hb by lia. done.
    + by rewrite !andb_false_r.
Qed.

(** Whether accesses of the program to ports are restricted, and its bitmap. *)
Definition io_restricted (cpu : State) (pm : bool) : bool :=
  pm && (get_flag cpu Vm || (wrap 8 (gpreg cpu Iopl) <? wrap 8 (gpreg cpu Cpl))).
Definition iopb_base (cpu : State) (c : ExecutionContext W) : Z := word_of c (wrap 32 (gpreg cpu TrBase) + 0x66) 2.
Definition iopb_bit (cpu : State) (c : ExecutionContext W) (port : Z) : bool :=
  Z.testbit (mem_of c (wrap 32 (gpreg cpu TrBase) + (iopb_base cpu c + port / 8))) (port mod 8).

Lemma two_bytes b1 b2 k :
  inw 8 b1 -> inw 8 b2 -> 0 <= k < 16 ->
  Z.testbit (Z.lor b1 (Z.shiftl b2 8)) k = if k <? 8 then Z.testbit b1 k else Z.testbit b2 (k - 8).
Proof.
  intros Hb1 Hb2 Hk. autorewrite with zbits. destruct (Z.ltb_spec k 8).
  - rewrite (Z.testbit_neg_r b2) by lia. by rewrite andb_false_r, orb_false_r.
  - rewrite (testbit_above 8 b1), (proj2 (Z.leb_le 8 k)) by (done || lia). reflexivity.
Qed.

(** the permission bitmap of the task state segment. *)
Theorem check_io_permission_spec cpu c port size :
  0 <= port < 2 ^ 16 -> width size ->
  wrap 32 (gpreg cpu TrBase) + 0x66 < 2 ^ 32 ->
  wrap 32 (gpreg cpu TrBase) + (iopb_base cpu c + port / 8) + 1 < 2 ^ 32 ->
  exists b, check_io_permission cpu port size c = Some (Ok b, c)
  /\ (b = true <-> io_restricted cpu (protected_mode c) = false
      \/ iopb_base cpu c + port / 8 <= gpreg cpu TrLimit
         /\ forall p, port <= p < port + size -> iopb_bit cpu c p = false).
Proof.
  intros Hport Hsize H66 Hend. set (tss := wrap 32 (gpreg cpu TrBase)) in *.
  assert (inw 32 tss) as Htss by (by apply wrap_inw). unfold inw in Htss.
  pose proof (peek_word_inw (inner c) (byte_addrs (tss + 0x66) 2)) as Hio. fold (word_of c (tss + 0x66) 2) in Hio.
  fold (iopb_base cpu c) in Hio. assert (0 <= iopb_base cpu c) as Hio0 by apply Hio. clear Hio.
  assert (0 <= port / 8) as Hp8 by (apply Z.div_pos; lia).
  unfold check_io_permission. unfold cbind at 1, get_protected_mode. fold (io_restricted cpu (protected_mode c)).
  destruct (io_restricted cpu (protected_mode c)); [|exists true; split; [done|]; tauto].
  unfold tss_iopb, tss_u16. fold tss. unfold cbind at 1, cbind at 1, clift at 1. rewrite u32_add_ok by lia.
  unfold cunwrap at 1. rewrite ctx_read by lia. change (word_of c (tss + 0x66) 2) with (iopb_base cpu c).
  destruct (Z.ltb_spec (gpreg cpu TrLimit) (iopb_base cpu c + port / 8)) as [Hlim|Hlim].
  { exists false. split; [done|]. split; [done|]. intros [|[? _]]; [done|lia]. }
  rewrite (wrap_small 32) by (unfold inw; lia). unfold cbind at 1, clift at 1. rewrite u32_add_ok by lia.
  unfold cbind at 1, cunwrap at 1. rewrite ctx_read by lia.
  unfold cbind at 1, clift at 1. rewrite u32_add_ok by lia.
  unfold cbind at 1, cunwrap at 1. rewrite ctx_read by lia.
  assert (forall a, 0 <= a < 2 ^ 32 -> word_of c a 1 = mem_of c a) as Hbyte.
  { intros a Ha. unfold word_of, peek_word, mem_of. rewrite byte_addrs_1 by done. cbn.
    by rewrite Z.shiftl_0_l, Z.lor_0_r. }
  rewrite !Hbyte by lia. set (a := tss + (iopb_base cpu c + port / 8)) in *.
  assert (bitmask_u64 size = Some (Z.ones size)) as -> by (by destruct Hsize as [->|[-> | ->]]).
  eexists. split; [done|]. pose proof (Z.mod_pos_bound port 8 ltac:(lia)) as Hmod.
  pose proof (Z.div_mod port 8 ltac:(lia)) as Hdm.
  rewrite no_bits by (destruct Hsize as [->|[-> | ->]]; lia).
  assert (forall i, 0 <= i < size ->
    Z.testbit (Z.lor (mem_of c a) (Z.shiftl (mem_of c (a + 1)) 8)) (port mod 8 + i) = iopb_bit cpu c (port + i)) as Hbits.
  { intros i Hi. assert (0 <= port mod 8 + i < 16) as Hk by (destruct Hsize as [->|[-> | ->]]; lia).
    rewrite two_bytes by (apply peek_inw || done). unfold iopb_bit. fold tss.
    destruct (Z.ltb_spec (port mod 8 + i) 8).
    - rewrite <- (Z.div_unique (port + i) 8 (port / 8) (port mod 8 + i)) by lia.
      by rewrite <- (Z.mod_unique (port + i) 8 (port / 8) (port mod 8 + i)) by lia.
    - rewrite <- (Z.div_unique (port + i) 8 (port / 8 + 1) (port mod 8 + i - 8)) by lia.
      rewrite <- (Z.mod_unique (port + i) 8 (port / 8 + 1) (port mod 8 + i - 8)) by lia.
      unfold a. f_equal. f_equal. lia. }
  split.
  - intros Hb. right. split; [done|]. intros p Hp. replace p with (port + (p - port)) by lia.
    rewrite <- Hbits by lia. apply Hb. lia.
  - intros [|[_ Hb]]; [done|]. intros i Hi. rewrite Hbits by lia. apply Hb. lia.
Qed.

End sound.

(** ** Witnesses

    A data segment that has not been accessed in the second entry of the table,
    a stack of 16 bits, and a bitmap of zeros. *)

Local Instance quiet_ports : PortSpace (Z -> Z) :=
  {| read_port _ _ := cret 0; write_port _ _ _ := cret tt |}.

Definition example_context : ExecutionContext (Z -> Z) :=
  {| inner := fun a => if a =? 0x10d then 0xf2 else if a =? 0x266 then 0x68 else 0; protected_mode := true;
     num_port_outs := 0; num_port_ins := 0; num_descriptors_read := 0 |}.
Definition example_cpu : State :=
  set_gpreg (set_gpreg (set_gpreg (set_gpreg (set_gpreg State_default GdtBase 0x100) GdtLimit 0xff) Cpl 3)
    TrBase 0x200) TrLimit 0x6c.
Definition example_stack : StackTransaction :=
  {| st_mask := 0xffff; st_esp := 0x1f000; st_ss_base := 0x1000; st_op_size := Protected32; st_is_userspace := false |}.


Lemma stack_roundtrip_witness :
  exists t' w', push_all example_stack [0x123456789; 5] (inner example_context) = Some (Ok t', w')
  /\ pops 2 t' w' = Some (Ok ([5; 0x23456789], example_stack), w').
Proof.
  destruct (stack_roundtrip 16 example_stack [0x123456789; 5] (inner example_context)) as (t' & w' & Ep & _ & _ & Eq).
  - vm_compute. repeat split; congruence.
  - vm_compute. congruence.
  - vm_compute. congruence.
  - exists t', w'. split; [exact Ep|exact Eq].
Defined.

Lemma check_io_permission_spec_witness :
  iopb_base example_cpu example_context = 0x68 /\ io_restricted example_cpu true = true /\
  exists b, check_io_permission example_cpu 0x1f 2 example_context = Some (Ok b, example_context)
  /\ (b = true <-> true = false
      \/ iopb_base example_cpu example_context + 3 <= gpreg example_cpu TrLimit
         /\ forall p, 0x1f <= p < 0x1f + 2 -> iopb_bit example_cpu example_context p = false).
Proof.
  split; [vm_compute; reflexivity|]. split; [vm_compute; reflexivity|].
  apply (check_io_permission_spec example_cpu example_context 0x1f 2).
  - split; [discriminate|reflexivity].
  - right. left. reflexivity.
  - vm_compute. reflexivity.
  - vm_compute. reflexivity.
Defined.
