(* ===== verification/Bitmap.v ===== *)
(** * Bitmaps of 64-bit words
    ([liblisa/src/utils/bitmap/growing.rs], [bitmap/fixed.rs] and
    [bitmap/mod.rs]).  Module [Growing] holds the operations of
    [GrowingBitmap] and [DenseSet], [Fixed] those of [FixedBitmapU64], [Slices]
    the views of parts of a bitmap and the combinators of [BitmapSlice].  A
    [usize] is a non-negative integer; an index out of range, a subtraction
    below zero and a failed assertion are [None].  [BitmapSound] relates them
    to lists of booleans. *)

From S2P Require Import Prelude.

(** ** Words *)

(** [data.get(k).copied().unwrap_or(0)]. *)
Definition word (data : list Z) (k : Z) : Z := default 0 (arr_get data k).

(** The bit [n] of a vector of words. *)
Definition bit_at (data : list Z) (n : Z) : bool := bit (word data (n / 64)) (n mod 64).

Definition vec_len (data : list Z) : Z := Z.of_nat (length data).
Definition vec_resize (data : list Z) (n : Z) : list Z := resize (Z.to_nat n) 0 data.
Definition div_ceil (n d : Z) : Z := (n + d - 1) / d.

(** [data[k] = f(data[k])]. *)
Definition update_word (data : list Z) (k : Z) (f : Z -> Z) : option (list Z) :=
  w ← arr_get data k; arr_set data k (f w).

(** [a.iter_mut().zip(b.chain(repeat(0)))]: every word of [a] is replaced. *)
Fixpoint zip_zeros (f : Z -> Z -> Z) (a b : list Z) : list Z :=
  match a, b with
  | [], _ => []
  | x :: a, [] => f x 0 :: zip_zeros f a []
  | x :: a, y :: b => f x y :: zip_zeros f a b
  end.

(** [a.iter_mut().zip(b)]: the words past the end of [b] stay. *)
Fixpoint zip_keep (f : Z -> Z -> Z) (a b : list Z) : list Z :=
  match a, b with
  | x :: a, y :: b => f x y :: zip_keep f a b
  | a, _ => a
  end.

(** [changed |= *a != new] over a vector. *)
Definition any_changed (a new : list Z) : bool :=
  existsb (fun '(x, y) => negb (x =? y)) (zip a new).

(** [.enumerate().find(|(_, v)| v != 0)], counting from [k]. *)
Fixpoint find_nonzero (k : Z) (l : list Z) : option (Z * Z) :=
  match l with
  | [] => None
  | v :: l => if v =? 0 then find_nonzero (k + 1) l else Some (k, v)
  end.

(** The words from the one of [start], without the bits below [start]. *)
Definition mask_first (start : Z) (l : list Z) : list Z :=
  match l with
  | [] => []
  | v :: l => Z.land v (unot 64 (Z.ones (start mod 64))) :: l
  end.

Definition words_from (data : list Z) (start : Z) : list Z :=
  mask_first start (drop (Z.to_nat (start / 64)) data).

(** A loop whose body may panic. *)
Fixpoint for_each {A S} (f : S -> A -> option S) (l : list A) (s : S) : option S :=
  match l with
  | [] => Some s
  | x :: l => s ← f s x; for_each f l s
  end.

(** Sum of [count_ones] of the words. *)
Definition sum_ones (l : list Z) : Z := foldr (fun w n => count_ones 64 w + n) 0 l.
Definition sum_zeros (l : list Z) : Z := foldr (fun w n => count_ones 64 (unot 64 w) + n) 0 l.

(** The positions of the ones of a word, in order. *)
Definition ones_of (k w : Z) : list Z := (fun j => j + k * 64) <$> filter (fun j => bit w j) (seqZ 0 64).

(** ** [BitmapSlice]: what a read-only bitmap provides *)

Class BitmapSlice (B : Type) := {
  slice_get : B -> Z -> bool;
  slice_len : B -> Z;
  iter_data : B -> list Z }.

(** The same of the vector of words alone. *)
Section SliceDefaults.
  Context {A B : Type} `{BitmapSlice A, BitmapSlice B}.

Definition and_data (a : A) (b : B) : list Z := zip_with Z.land (iter_data a) (iter_data b).

Definition count_overlapping_with (a : A) (b : B) : Z := sum_ones (and_data a b).
Definition slice_overlaps_with (a : A) (b : B) : bool :=
  existsb (fun x => negb (x =? 0)) (and_data a b).
Definition slice_is_all_zeros (a : A) : bool := forallb (fun x => x =? 0) (iter_data a).
Definition is_subset_of (a : A) (b : B) : bool :=
  forallb (fun '(subset, whole) => Z.lor subset whole =? whole)
    (zip (zip_zeros (fun _ y => y) (iter_data b) (iter_data a)) (iter_data b)).
Definition slice_one_indices (a : A) : list Z :=
  concat (imap (fun k w => ones_of (Z.of_nat k) w) (iter_data a)).
Definition slice_iter (a : A) : list bool :=
  w ← iter_data a; (fun j => bit w j) <$> seqZ 0 64.
Definition slice_count_ones (a : A) : Z := sum_ones (iter_data a).
Definition slice_count_zeros (a : A) : option Z :=
  let n := sum_zeros (iter_data a) - (64 - slice_len a mod 64) in
  _ ← assert (0 <=? n); Some n.
End SliceDefaults.

(** ** [GrowingBitmap] *)

Module Growing.

Record GrowingBitmap : Type := Growing { data : list Z; len : Z }.

Definition new : GrowingBitmap := Growing [] 0.

#[export] Instance growing_slice : BitmapSlice GrowingBitmap := {
  slice_get b n := bit_at (data b) n;
  slice_len := len;
  iter_data := data }.

(** The assertion on the length of the data is [debug_assert_eq!]. *)
Definition from_slice {B} `{BitmapSlice B} (slice : B) : option GrowingBitmap :=
  let data := iter_data slice in
  _ ← assert (vec_len data =? div_ceil (slice_len slice) 64);
  Some (Growing data (slice_len slice)).

Definition clone_from_slice {B} `{BitmapSlice B} (b : GrowingBitmap) (slice : B)
    : option GrowingBitmap :=
  from_slice slice.

(** The words above the last one are not masked. *)
Definition zeroize_past_end (b : GrowingBitmap) : GrowingBitmap :=
  if negb (len b mod 64 =? 0) && negb (vec_len (data b) =? 0)
  then Growing (alter (fun w => Z.land w (Z.ones (len b mod 64))) (length (data b) - 1)%nat (data b))
         (len b)
  else b.

Definition new_all_ones (num : Z) : GrowingBitmap :=
  zeroize_past_end (Growing (replicate (Z.to_nat (div_ceil num 64)) (Z.ones 64)) num).

Definition new_all_zeros (num : Z) : GrowingBitmap :=
  Growing (replicate (Z.to_nat (num / 64 + 1)) 0) num.

Definition get (b : GrowingBitmap) (n : Z) : bool := bit_at (data b) n.

Definition get_then_reset (b : GrowingBitmap) (n : Z) : bool * GrowingBitmap :=
  match arr_get (data b) (n / 64) with
  | Some x =>
      let mask := Z.shiftl 1 (n mod 64) in
      (negb (Z.land x mask =? 0),
       Growing (<[Z.to_nat (n / 64) := Z.land x (unot 64 mask)]> (data b)) (len b))
  | None => (false, b)
  end.

Definition and_with {B} `{BitmapSlice B} (b : GrowingBitmap) (rhs : B) : bool * GrowingBitmap :=
  let data' := zip_zeros Z.land (data b) (iter_data rhs) in
  (any_changed (data b) data', Growing data' (len b)).

Definition internal_resize (b : GrowingBitmap) (n index : Z) : GrowingBitmap :=
  Growing (if vec_len (data b) <=? index then vec_resize (data b) (index + 1) else data b) (n + 1).

Definition or_with {B} `{BitmapSlice B} (b : GrowingBitmap) (rhs : B)
    : option (bool * GrowingBitmap) :=
  let new_len := Z.max (len b) (slice_len rhs) in
  _ ← assert (1 <=? new_len);
  let b := internal_resize b (new_len - 1) ((new_len - 1) / 64) in
  let data' := zip_zeros Z.lor (data b) (iter_data rhs) in
  Some (any_changed (data b) data', Growing data' (len b)).

Definition grow_to (b : GrowingBitmap) (n : Z) : GrowingBitmap :=
  if len b <=? n then internal_resize b n (n / 64) else b.

Definition set (b : GrowingBitmap) (n : Z) : option (bool * GrowingBitmap) :=
  let b := grow_to b n in
  let mask := Z.shiftl 1 (n mod 64) in
  w ← arr_get (data b) (n / 64);
  data' ← arr_set (data b) (n / 64) (Z.lor w mask);
  Some (Z.land w mask =? 0, Growing data' (len b)).

Definition reset (b : GrowingBitmap) (n : Z) : option (bool * GrowingBitmap) :=
  let b := grow_to b n in
  let mask := Z.shiftl 1 (n mod 64) in
  w ← arr_get (data b) (n / 64);
  data' ← arr_set (data b) (n / 64) (Z.land w (unot 64 mask));
  Some (negb (Z.land w mask =? 0), Growing data' (len b)).

(** The data, the next index and offset, and the length while extending. *)
Definition extend_step (st : list Z * (Z * Z) * Z) (item : bool)
    : option (list Z * (Z * Z) * Z) :=
  let '(data, (next_index, next_offset), len) := st in
  data ← update_word data next_index
    (fun w => Z.lor w (wrap 64 (Z.shiftl (b2z item) next_offset)));
  if next_offset + 1 =? 64
  then Some (if vec_len data <=? next_index + 1 then vec_resize data (next_index + 2) else data,
             (next_index + 1, 0), len + 1)
  else Some (data, (next_index, next_offset + 1), len + 1).

Definition extend (b : GrowingBitmap) (items : list bool) : option GrowingBitmap :=
  let next_index := len b / 64 in
  let data := if vec_len (data b) <=? next_index
              then vec_resize (data b) (next_index + 1) else data b in
  '(data, _, len) ← for_each extend_step items (data, (next_index, len b mod 64), len b);
  Some (Growing data len).

(** [FromIterator]. *)
Definition from_iter (items : list bool) : option GrowingBitmap := extend new items.

Definition fill_with_ones (b : GrowingBitmap) : GrowingBitmap :=
  zeroize_past_end (Growing ((fun _ => Z.ones 64) <$> data b) (len b)).

Definition count_ones (b : GrowingBitmap) : Z := sum_ones (data b).
Definition count_zeros (b : GrowingBitmap) : option Z :=
  let n := sum_zeros (data b) - (64 - len b mod 64) in
  _ ← assert (0 <=? n); Some n.
Definition is_all_zeros (b : GrowingBitmap) : bool := forallb (fun n => n =? 0) (data b).

Definition is_all_ones (b : GrowingBitmap) : option bool :=
  '(full_u64s, ok) ←
    (if len b mod 64 =? 0 then
       _ ← assert (len b / 64 <=? vec_len (data b));
       Some (take (Z.to_nat (len b / 64)) (data b), true)
     else if negb (vec_len (data b) =? 0) then
       v ← arr_get (data b) (vec_len (data b) - 1);
       Some (take (length (data b) - 1) (data b), v =? Z.ones (len b mod 64))
     else Some ([], true));
  Some (ok && forallb (fun n => n =? Z.ones 64) full_u64s).

Definition remove (b : GrowingBitmap) (n : Z) : option (bool * GrowingBitmap) :=
  let r := get b n in
  b ← for_each (fun b i => snd <$> (if get b (i + 1) then set b i else reset b i))
        (seqZ n (len b - n)) b;
  _ ← assert (1 <=? len b);
  Some (r, Growing (data b) (len b - 1)).

(** The loop that shifts a vector of words down by [0 < shift < 64] bits: the
    word after [n] is still the old one when [n] is written. *)
Fixpoint shift_down (shift : Z) (l : list Z) : list Z :=
  match l with
  | [] => []
  | w :: l =>
      Z.lor (Z.shiftr w shift) (wrap 64 (Z.shiftl (word l 0) (64 - shift))) :: shift_down shift l
  end.

Definition remove_front (b : GrowingBitmap) (num : Z) : option GrowingBitmap :=
  let num := Z.min num (len b) in
  _ ← assert (num / 64 <=? vec_len (data b));
  let data := drop (Z.to_nat (num / 64)) (data b) in
  let shift := num mod 64 in
  let data := if negb (shift =? 0) then shift_down shift data else data in
  let len := len b - num in
  let data_len_needed := div_ceil len 64 in
  let data := if data_len_needed <? vec_len data then take (Z.to_nat data_len_needed) data else data in
  Some (zeroize_past_end (Growing data len)).

(** The assertion is the one of the code. *)
Definition remove_back (b : GrowingBitmap) (num : Z) : option GrowingBitmap :=
  _ ← assert (len b <=? num);
  _ ← assert (num <=? len b);
  let len := len b - num in
  Some (zeroize_past_end (Growing (vec_resize (data b) (div_ceil len 64)) len)).

Definition first_bit_set (b : GrowingBitmap) : option Z :=
  '(index, val) ← find_nonzero 0 (data b);
  Some (index * 64 + trailing_zeros 64 val).

Definition first_bit_set_from (b : GrowingBitmap) (start_index : Z) : option Z :=
  let base_index := start_index / 64 * 64 in
  '(index, val) ← find_nonzero 0 (words_from (data b) start_index);
  Some (base_index + index * 64 + trailing_zeros 64 val).

Definition first_bit_unset_from (b : GrowingBitmap) (start_index : Z) : option Z :=
  let base_index := start_index / 64 * 64 in
  '(index, val) ← find_nonzero 0 (words_from (unot 64 <$> data b) start_index);
  let n := base_index + index * 64 + trailing_zeros 64 val in
  if len b <=? n then None else Some n.

(** [None] is the panic of an index out of range or of the empty reduction. *)
Definition reduce_and (ws : list Z) : option Z :=
  match ws with
  | [] => None
  | w :: ws => Some (foldl Z.land w ws)
  end.

Fixpoint find_in_all (items : list GrowingBitmap) (start_index : Z) (indices : list Z)
    : option (option Z) :=
  match indices with
  | [] => Some None
  | index :: indices =>
      ws ← mapM (fun map => arr_get (data map) index) items;
      v ← reduce_and ws;
      let v := if index =? start_index / 64
               then Z.land v (unot 64 (Z.ones (start_index mod 64))) else v in
      if v =? 0 then find_in_all items start_index indices
      else Some (Some (index * 64 + trailing_zeros 64 v))
  end.

Definition first_bit_set_after_many (items : list GrowingBitmap) (start_index end_index : Z)
    : option (option Z) :=
  let start := start_index / 64 in
  find_in_all items start_index (seqZ start (div_ceil end_index 64 - start)).

Definition is_superset_of (b other : GrowingBitmap) : bool :=
  if (len b <? len other) && match first_bit_set_from other (len b) with Some _ => true | None => false end
  then false
  else forallb (fun '(x, y) => Z.lor x y =? x) (zip (data b) (data other)).

Definition overlaps_with {B} `{BitmapSlice B} (b : GrowingBitmap) (other : B) : bool :=
  existsb (fun '(x, y) => negb (Z.land x y =? 0)) (zip (data b) (iter_data other)).

Definition clear_from {B} `{BitmapSlice B} (b : GrowingBitmap) (other : B) : GrowingBitmap :=
  Growing (zip_keep (fun x y => Z.land x (unot 64 y)) (data b) (iter_data other)) (len b).

Definition is_empty (b : GrowingBitmap) : bool := len b =? 0.

(** [GrowingBitmapIterator::next], iterated until the length is used up:
    [index] counts inside of the first remaining word. *)
Fixpoint iter_from (n : nat) (data : list Z) (index : Z) : option (list bool) :=
  match n with
  | O => Some []
  | S n =>
      w ← arr_get data 0;
      rest ← (if 64 <=? index + 1 then iter_from n (drop 1 data) 0 else iter_from n data (index + 1));
      Some (negb (Z.land w (Z.shiftl 1 index) =? 0) :: rest)
  end.

Definition iter (b : GrowingBitmap) : option (list bool) := iter_from (Z.to_nat (len b)) (data b) 0.

(** [GrowingBitmapOnesIterator]: [next] on a non-zero element; the element
    and its base on a zero one.  The fuel counts steps: an element has at
    most 64 ones, and one more step leaves it. *)
Fixpoint ones_from (fuel : nat) (data : list Z) (base_index current : Z) : option (list Z) :=
  match fuel with
  | O => None
  | S fuel =>
      if current =? 0 then
        match data with
        | next :: data => ones_from fuel data (base_index + 64) next
        | [] => Some []
        end
      else
        let offset := trailing_zeros 64 current in
        rest ← ones_from fuel data base_index
          (Z.land current (wrap 64 (Z.shiftl (wrap 64 (Z.shiftl (Z.ones 64) offset)) 1)));
        Some (base_index + offset :: rest)
  end.

Definition iter_one_indices (b : GrowingBitmap) : option (list Z) :=
  let fuel := (65 * (length (data b) + 1))%nat in
  match data b with
  | [] => ones_from fuel [] 0 0
  | w :: data => ones_from fuel data 0 w
  end.

Definition resize (b : GrowingBitmap) (len : Z) : GrowingBitmap :=
  let required_len := div_ceil len 64 in
  zeroize_past_end
    (Growing (if negb (required_len =? vec_len (data b)) then vec_resize (data b) required_len
              else data b) len).

Definition set_range (b : GrowingBitmap) (start end_ : Z) : option GrowingBitmap :=
  for_each (fun b n => snd <$> set b n) (seqZ start (end_ - start)) b.
Definition clear_range (b : GrowingBitmap) (start end_ : Z) : option GrowingBitmap :=
  for_each (fun b n => snd <$> reset b n) (seqZ start (end_ - start)) b.

Definition append (b bitmap : GrowingBitmap) : option GrowingBitmap :=
  items ← iter bitmap; extend b items.

Definition set_all_zero (b : GrowingBitmap) : GrowingBitmap :=
  Growing ((fun _ => 0) <$> data b) (len b).

(** The operators [&], [&=], [|] and [|=]. *)
Definition bitand (b rhs : GrowingBitmap) : GrowingBitmap :=
  Growing (zip_with Z.land (data b) (data rhs)) (Z.min (len b) (len rhs)).

Definition bitand_assign (b rhs : GrowingBitmap) : GrowingBitmap :=
  Growing (zip_zeros Z.land (data b) (data rhs)) (len b).

Definition bitor (b rhs : GrowingBitmap) : GrowingBitmap :=
  Growing ((fun k => Z.lor (word (data b) k) (word (data rhs) k))
             <$> seqZ 0 (Z.max (vec_len (data b)) (vec_len (data rhs))))
    (Z.max (len b) (len rhs)).

Definition bitor_assign (b rhs : GrowingBitmap) : GrowingBitmap :=
  let b := if len b <? len rhs then resize b (len rhs) else b in
  Growing (zip_zeros Z.lor (data b) (data rhs)) (len b).

(** [PartialEq]. *)
Definition eq (b other : GrowingBitmap) : bool :=
  (len b =? len other) && bool_decide (data b = data other).

(** ** [DenseSet] *)

Record DenseSet : Type := Dense { bitmap : GrowingBitmap; num_items : Z }.

Definition dense_new : DenseSet := Dense new 0.
Definition contains (s : DenseSet) (x : Z) : bool := get (bitmap s) x.
(** The counter moves when the bit does. *)
Definition dense_set (s : DenseSet) (index : Z) : option (bool * DenseSet) :=
  '(changed, b) ← set (bitmap s) index;
  Some (changed, Dense b (num_items s + b2z changed)).
Definition dense_iter (s : DenseSet) : option (list Z) := iter_one_indices (bitmap s).
Definition dense_len (s : DenseSet) : Z := num_items s.

End Growing.

(** ** Views of a range of a bitmap *)

Module Slices.

(** [BitmapSliceU64] and [BitmapSliceMutU64]: the words that the range
    touches, the bits to skip in the first and those to skip in the last. *)
Record BitmapSliceU64 : Type := SliceU64 { s_data : list Z; offset : Z; crop : Z }.

(** The words of [range] in the code's [slice] and [slice_mut]. *)
Definition word_range (start end_ : Z) : Z * Z * Z :=
  let end_index := end_ / 64 in
  let end_offset := end_ mod 64 in
  if negb (end_offset =? 0) then (start / 64, end_index + 1, 64 - end_offset)
  else (start / 64, end_index, 0).

Definition slice (b : Growing.GrowingBitmap) (start end_ : Z) : option BitmapSliceU64 :=
  if start =? end_ then Some (SliceU64 [] 0 0)
  else
    let '(start_index, end_index, crop) := word_range start end_ in
    _ ← assert ((start_index <=? end_index) && (end_index <=? vec_len (Growing.data b)));
    Some (SliceU64
            (take (Z.to_nat (end_index - start_index)) (drop (Z.to_nat start_index) (Growing.data b)))
            (start mod 64) crop).

(** One word of the range; [n] is the number of words. *)
Definition slice_word (data : list Z) (offset crop : Z) (index : nat) (first : Z) : Z :=
  let n := length data in
  if Nat.eqb (index + 1) n then Z.shiftr (Z.land first (Z.shiftr (Z.ones 64) crop)) offset
  else if offset =? 0 then first
  else
    let next := word data (Z.of_nat index + 1) in
    let next_crop_mask := if Nat.eqb (index + 2) n then Z.shiftr (Z.ones 64) crop else Z.ones 64 in
    Z.lor (Z.shiftr first offset) (wrap 64 (Z.shiftl (Z.land next next_crop_mask) (64 - offset))).

Definition create_iter (data : list Z) (offset crop : Z) : list Z :=
  imap (slice_word data offset crop)
    (take (if (1 <? vec_len data) && (64 <=? crop + offset) then length data - 1 else length data)
       data).

#[export] Instance u64_slice : BitmapSlice BitmapSliceU64 := {
  slice_get s n := bit_at (s_data s) (n + offset s);
  slice_len s := vec_len (s_data s) * 64 - offset s - crop s;
  iter_data s := create_iter (s_data s) (offset s) (crop s) }.

(** *** Modification

    [modify] calls a closure on the words of a bitmap; the state of the
    closure is the iterator it draws words from, and [None] its panic. *)

Definition Closure : Type := list Z -> Z -> option (Z * list Z).

Class BitmapSliceMut (T : Type) := modify : Closure -> list Z -> T -> option (T * list Z).

Section Modify.
  Variable f : Closure.

Fixpoint modify_all (l : list Z) (s : list Z) : option (list Z * list Z) :=
  match l with
  | [] => Some ([], s)
  | w :: l => '(v, s) ← f s w; '(l, s) ← modify_all l s; Some (v :: l, s)
  end.

(** The branch for [offset == 0]. *)
Fixpoint modify_aligned (crop : Z) (l : list Z) (s : list Z) : option (list Z * list Z) :=
  match l with
  | [] => Some ([], s)
  | [old] =>
      '(val, s) ← f s old;
      let mask := Z.shiftr (Z.ones 64) crop in
      Some ([Z.lor (Z.land old (unot 64 mask)) (Z.land val mask)], s)
  | w :: l => '(v, s) ← f s w; '(l, s) ← modify_aligned crop l s; Some (v :: l, s)
  end.

(** The loop over the words after the first: what it writes to the words
    before, and its two buffers. *)
Fixpoint modify_words (offset : Z) (items : list Z) (buffer_in buffer_out : Z) (s : list Z)
    : option (list Z * (Z * Z) * list Z) :=
  match items with
  | [] => Some ([], (buffer_in, buffer_out), s)
  | item :: items =>
      let old_val := Z.lor buffer_in (wrap 64 (Z.shiftl item (64 - offset))) in
      '(new_val, s) ← f s old_val;
      let write := Z.lor buffer_out (wrap 64 (Z.shiftl new_val offset)) in
      '(l, buffers, s) ← modify_words offset items (Z.shiftr item offset)
                            (Z.shiftr new_val (64 - offset)) s;
      Some (write :: l, buffers, s)
  end.

Definition modify_shifted (offset crop : Z) (first : Z) (rest : list Z) (s : list Z)
    : option (list Z * list Z) :=
  '(written, (buffer_in, buffer_out), s) ←
    modify_words offset rest (Z.shiftr first offset)
      (Z.land first (unot 64 (wrap 64 (Z.shiftl (Z.ones 64) offset)))) s;
  let old := List.last (first :: rest) 0 in
  let crop_mask := Z.shiftr (Z.ones 64) crop in
  let item := Z.land old crop_mask in
  let old_val := Z.lor buffer_in (wrap 64 (Z.shiftl item (64 - offset))) in
  '(new_val, s) ← (if (vec_len rest =? 0) || (crop + offset <? 64) then f s old_val else Some (0, s));
  let write := Z.lor buffer_out (wrap 64 (Z.shiftl new_val offset)) in
  Some (written ++ [Z.lor (Z.land old (unot 64 crop_mask)) (Z.land write crop_mask)], s).

Definition modify_u64 (sl : BitmapSliceU64) (s : list Z) : option (list Z * list Z) :=
  match s_data sl with
  | [] => Some ([], s)
  | first :: rest =>
      if offset sl =? 0 then modify_aligned (crop sl) (first :: rest) s
      else modify_shifted (offset sl) (crop sl) first rest s
  end.
End Modify.

#[export] Instance u64_mut : BitmapSliceMut BitmapSliceU64 := fun f s sl =>
  '(d, s) ← modify_u64 f sl s; Some (SliceU64 d (offset sl) (crop sl), s).

#[export] Instance growing_mut : BitmapSliceMut Growing.GrowingBitmap := fun f s b =>
  '(d, s) ← modify_all f (Growing.data b) s;
  Some (Growing.zeroize_past_end (Growing.Growing d (Growing.len b)), s).

(** The closures of the default methods; [iter.next()] of a finished iterator
    is [None] again. *)
Definition clear_word : Closure := fun s _ => Some (0, s).
Definition copy_word : Closure := fun s _ =>
  match s with [] => None | v :: s => Some (v, s) end.
Definition clear_from_word : Closure := fun s d => Some (Z.land d (unot 64 (List.hd 0 s)), List.tl s).
Definition or_with_word : Closure := fun s d => Some (Z.lor d (List.hd 0 s), List.tl s).

Section MutDefaults.
  Context {T B : Type} `{BitmapSlice T, BitmapSliceMut T, BitmapSlice B}.

Definition clear (t : T) : option T := fst <$> modify clear_word [] t.
Definition copy_from (t : T) (other : B) : option T :=
  _ ← assert (slice_len t =? slice_len other); fst <$> modify copy_word (iter_data other) t.
Definition mut_clear_from (t : T) (other : B) : option T :=
  fst <$> modify clear_from_word (iter_data other) t.
Definition mut_or_with (t : T) (other : B) : option T :=
  fst <$> modify or_with_word (iter_data other) t.
End MutDefaults.

(** An operation [g] on [slice_mut(start..end)]: the words of the view are
    those of the bitmap. *)
Definition with_slice_mut (b : Growing.GrowingBitmap) (start end_ : Z)
    (g : BitmapSliceU64 -> option BitmapSliceU64) : option Growing.GrowingBitmap :=
  sl ← slice b start end_;
  sl' ← g sl;
  let '(start_index, end_index, _) := word_range start end_ in
  let d := Growing.data b in
  Some (Growing.Growing
          (if start =? end_ then d
           else take (Z.to_nat start_index) d ++ s_data sl' ++ drop (Z.to_nat end_index) d)
          (Growing.len b)).

(** *** Combinators *)

Inductive AndWith (A B : Type) : Type := MkAndWith (a : A) (b : B).
Inductive OrWith (A B : Type) : Type := MkOrWith (a : A) (b : B).
Inductive XorWith (A B : Type) : Type := MkXorWith (a : A) (b : B).
Inductive ClearFrom (A B : Type) : Type := MkClearFrom (a : A) (b : B).
Inductive Flipped (A : Type) : Type := MkFlipped (a : A).
#[global] Arguments MkAndWith {_ _} _ _.
#[global] Arguments MkOrWith {_ _} _ _.
#[global] Arguments MkXorWith {_ _} _ _.
#[global] Arguments MkClearFrom {_ _} _ _.
#[global] Arguments MkFlipped {_} _.

(** [zip_longest] of words: a missing one adds nothing. *)
Fixpoint zip_longest (f : Z -> Z -> Z) (a b : list Z) : list Z :=
  match a, b with
  | x :: a, y :: b => f x y :: zip_longest f a b
  | [], b => b
  | a, [] => a
  end.

Fixpoint flip_words (remaining : Z) (l : list Z) : list Z :=
  match l with
  | [] => []
  | x :: l =>
      if 64 <=? remaining then unot 64 x :: flip_words (remaining - 64) l
      else Z.land (unot 64 x) (Z.ones remaining) :: flip_words remaining l
  end.

#[export] Instance and_slice {A B} `{BitmapSlice A, BitmapSlice B} : BitmapSlice (AndWith A B) := {
  slice_get '(MkAndWith a b) n := slice_get a n && slice_get b n;
  slice_len '(MkAndWith a b) := Z.min (slice_len a) (slice_len b);
  iter_data '(MkAndWith a b) := zip_with Z.land (iter_data a) (iter_data b) }.

#[export] Instance or_slice {A B} `{BitmapSlice A, BitmapSlice B} : BitmapSlice (OrWith A B) := {
  slice_get '(MkOrWith a b) n := slice_get a n || slice_get b n;
  slice_len '(MkOrWith a b) := Z.max (slice_len a) (slice_len b);
  iter_data '(MkOrWith a b) := zip_longest Z.lor (iter_data a) (iter_data b) }.

#[export] Instance xor_slice {A B} `{BitmapSlice A, BitmapSlice B} : BitmapSlice (XorWith A B) := {
  slice_get '(MkXorWith a b) n := xorb (slice_get a n) (slice_get b n);
  slice_len '(MkXorWith a b) := Z.max (slice_len a) (slice_len b);
  iter_data '(MkXorWith a b) := zip_longest Z.lxor (iter_data a) (iter_data b) }.

#[export] Instance clear_slice {A B} `{BitmapSlice A, BitmapSlice B} : BitmapSlice (ClearFrom A B) := {
  slice_get '(MkClearFrom a b) n := slice_get a n && negb (slice_get b n);
  slice_len '(MkClearFrom a b) := slice_len a;
  iter_data '(MkClearFrom a b) :=
    zip_zeros (fun x y => Z.land x (unot 64 y)) (iter_data a) (iter_data b) }.

#[export] Instance flipped_slice {A} `{BitmapSlice A} : BitmapSlice (Flipped A) := {
  slice_get '(MkFlipped a) n := negb (slice_get a n);
  slice_len '(MkFlipped a) := slice_len a;
  iter_data '(MkFlipped a) := flip_words (slice_len a) (iter_data a) }.

End Slices.

(** ** [FixedBitmapU64] *)

Module Fixed.

(** [FixedBitmapU64<N>]; [N] is the number of words. *)
Record FixedBitmapU64 : Type := FixedU64 { words : list Z }.

#[export] Instance fixed_slice : BitmapSlice FixedBitmapU64 := {
  slice_get b n := bit_at (words b) n;
  slice_len b := vec_len (words b) * 64;
  iter_data := words }.

Definition default (N : nat) : FixedBitmapU64 := FixedU64 (replicate N 0).
Definition from_u64 (value : Z) : FixedBitmapU64 := FixedU64 [value].
Definition as_u64 (b : FixedBitmapU64) : Z := word (words b) 0.

Definition set (b : FixedBitmapU64) (index : Z) : option (bool * FixedBitmapU64) :=
  let mask := Z.shiftl 1 (index mod 64) in
  w ← arr_get (words b) (index / 64);
  d ← arr_set (words b) (index / 64) (Z.lor w mask);
  Some (Z.land w mask =? 0, FixedU64 d).

Definition clear (b : FixedBitmapU64) (index : Z) : option (bool * FixedBitmapU64) :=
  let mask := Z.shiftl 1 (index mod 64) in
  w ← arr_get (words b) (index / 64);
  d ← arr_set (words b) (index / 64) (Z.land w (unot 64 mask));
  Some (negb (Z.land w mask =? 0), FixedU64 d).

Definition set_many (b : FixedBitmapU64) (indices : list Z) : option FixedBitmapU64 :=
  for_each (fun b i => snd <$> set b i) indices b.
Definition clear_many (b : FixedBitmapU64) (indices : list Z) : option FixedBitmapU64 :=
  for_each (fun b i => snd <$> clear b i) indices b.

(** The loop shared by the four operations with another bitmap. *)
Definition combine (f : Z -> Z -> Z) {B} `{BitmapSlice B} (b : FixedBitmapU64) (other : B)
    : bool * FixedBitmapU64 :=
  let d := zip_zeros f (words b) (iter_data other) in
  (any_changed (words b) d, FixedU64 d).
Definition and_with {B} `{BitmapSlice B} := combine Z.land (B := B).
Definition clear_from {B} `{BitmapSlice B} := combine (fun a b => Z.land a (unot 64 b)) (B := B).
Definition or_with {B} `{BitmapSlice B} := combine Z.lor (B := B).
Definition xor_with {B} `{BitmapSlice B} := combine Z.lxor (B := B).

Definition is_all_ones (b : FixedBitmapU64) : bool := forallb (fun x => x =? Z.ones 64) (words b).
Definition is_superset_of (b other : FixedBitmapU64) : bool :=
  forallb (fun '(x, y) => Z.lor x y =? x) (zip (words b) (words other)).

Definition new_all_zeros (N : nat) (len : Z) : option FixedBitmapU64 :=
  _ ← assert (len <=? Z.of_nat N * 64); Some (default N).

(** The loop from a word on: a word out of range panics. *)
Fixpoint fill_ones (data : list Z) (len : Z) : option (list Z) :=
  match data with
  | [] => _ ← assert (len <=? 0); Some []
  | w :: data =>
      if 64 <=? len then d ← fill_ones data (len - 64); Some (Z.ones 64 :: d)
      else if 0 <? len then Some (Z.shiftr (Z.ones 64) (64 - len) :: data)
      else Some (w :: data)
  end.

Definition new_all_ones (N : nat) (len : Z) : option FixedBitmapU64 :=
  b ← new_all_zeros N len; d ← fill_ones (words b) len; Some (FixedU64 d).

(** [FromIterator<bool>] and [FromIterator<usize>]. *)
Fixpoint set_where (index : Z) (items : list bool) (b : FixedBitmapU64) : option FixedBitmapU64 :=
  match items with
  | [] => Some b
  | x :: items =>
      _ ← assert (index <? slice_len b);
      b ← (if x : bool then snd <$> set b index else Some b);
      set_where (index + 1) items b
  end.
Definition from_bools (N : nat) (items : list bool) : option FixedBitmapU64 :=
  set_where 0 items (default N).
Definition from_indices (N : nat) (items : list Z) : option FixedBitmapU64 :=
  set_many (default N) items.

(** [TryFrom<&GrowingBitmap>]: here [None] is the error. *)
Definition try_from (N : nat) (value : Growing.GrowingBitmap) : option FixedBitmapU64 :=
  if Growing.is_empty value then Some (default N)
  else if Growing.len value <=? 64 * Z.of_nat N
  then Some (FixedU64 (word (Growing.data value) <$> seqZ 0 (Z.of_nat N)))
  else None.

(** [iter_one_indices_rev]. *)
Definition iter_one_indices_rev (b : FixedBitmapU64) : list Z :=
  concat (rev (imap (fun k w => rev (ones_of (Z.of_nat k) w)) (words b))).

End Fixed.
