(* ===== verification/BitmapSound.v ===== *)
(** * Bitmaps as lists of booleans
    The operations of [GrowingBitmap] on one bitmap against lists of booleans:
    a bitmap represents the list of its first [len] bits.  Setting, clearing,
    extension, removal and resizing; then the searches for the first bit set
    or unset from an index, the number of ones and the iterators, against the
    ascending list of the ones of a bitmap. *)

From S2P Require Import Prelude Bitmap.

(** ** Words and bits *)

Definition words_ok (l : list Z) : Prop := Forall (inw 64) l.

Lemma inw_0 : inw 64 0.
Proof. split; [lia|]. reflexivity. Qed.

Lemma word_lookup l k : 0 <= k -> word l k = default 0 (l !! Z.to_nat k).
Proof. intros Hk. unfold word, arr_get. by destruct (Z.ltb_spec k 0); [lia|]. Qed.

Lemma word_past l k : vec_len l <= k -> word l k = 0.
Proof.
  unfold vec_len. intros Hk. rewrite word_lookup by lia. by rewrite lookup_ge_None_2 by lia.
Qed.

Lemma word_get l k w : arr_get l k = Some w -> word l k = w.
Proof. unfold word. by intros ->. Qed.

Lemma arr_get_word l k : 0 <= k < vec_len l -> arr_get l k = Some (word l k).
Proof.
  intros Hk. destruct (arr_get_is_Some l k Hk) as [w Hw]. by rewrite (word_get _ _ _ Hw).
Qed.

Lemma word_ok l k : words_ok l -> inw 64 (word l k).
Proof.
  intros Hl. unfold word. destruct (arr_get l k) as [w|] eqn:E; [|done].
  apply arr_get_spec in E. destruct E as [_ E]. by eapply (Forall_lookup_1 _ _ _ _ Hl).
Qed.

Lemma words_ok_word l : (forall k, inw 64 (word l k)) -> words_ok l.
Proof.
  intros Hl. apply Forall_lookup_2. intros i w Hi. specialize (Hl (Z.of_nat i)).
  rewrite word_lookup, Nat2Z.id, Hi in Hl by lia. done.
Qed.

Lemma word_0_cons w l : word (w :: l) 0 = w.
Proof. done. Qed.

Lemma word_S_cons w l k : 0 <= k -> word (w :: l) (k + 1) = word l k.
Proof.
  intros Hk. rewrite !word_lookup by lia. by replace (Z.to_nat (k + 1)) with (S (Z.to_nat k)) by lia.
Qed.

Lemma word_insert l i k w :
  0 <= i < vec_len l -> 0 <= k ->
  word (<[Z.to_nat i := w]> l) k = if k =? i then w else word l k.
Proof.
  unfold vec_len. intros Hi Hk. rewrite !word_lookup by lia.
  destruct (Z.eqb_spec k i) as [-> |].
  - by rewrite list_lookup_insert_eq by lia.
  - by rewrite list_lookup_insert_ne by lia.
Qed.

Lemma word_resize l m k : 0 <= m -> 0 <= k -> word (vec_resize l m) k = if k <? m then word l k else 0.
Proof.
  intros Hm Hk. unfold vec_resize. rewrite !word_lookup by lia.
  destruct (Z.ltb_spec k m).
  - destruct (decide (Z.to_nat k < length l)%nat).
    + by rewrite lookup_resize by lia.
    + rewrite lookup_resize_new by lia. by rewrite lookup_ge_None_2 by lia.
  - by rewrite lookup_resize_old by lia.
Qed.

Lemma word_drop l i k : 0 <= k -> word (drop i l) k = word l (k + Z.of_nat i).
Proof.
  intros Hk. rewrite !word_lookup by lia. rewrite lookup_drop. f_equal. f_equal. lia.
Qed.

Lemma word_take l i k : 0 <= k -> word (take i l) k = if k <? Z.of_nat i then word l k else 0.
Proof.
  intros Hk. rewrite !word_lookup by lia. destruct (Z.ltb_spec k (Z.of_nat i)).
  - by rewrite lookup_take_lt by lia.
  - by rewrite lookup_take_ge by lia.
Qed.

Lemma word_replicate n w k : 0 <= k -> word (replicate n w) k = if k <? Z.of_nat n then w else 0.
Proof.
  intros Hk. rewrite word_lookup by lia. destruct (Z.ltb_spec k (Z.of_nat n)).
  - by rewrite lookup_replicate_2 by lia.
  - by rewrite lookup_ge_None_2 by (rewrite length_replicate; lia).
Qed.

Lemma word_fmap (f : Z -> Z) l k :
  0 <= k -> word (f <$> l) k = if k <? vec_len l then f (word l k) else 0.
Proof.
  intros Hk. unfold vec_len. rewrite !word_lookup, list_lookup_fmap by lia.
  destruct (Z.ltb_spec k (Z.of_nat (length l))).
  - destruct (lookup_lt_is_Some_2 l (Z.to_nat k)) as [w Hw]; [lia|]. by rewrite Hw.
  - by rewrite lookup_ge_None_2 by lia.
Qed.

Lemma word_zip_zeros f a b k :
  0 <= k -> word (zip_zeros f a b) k = if k <? vec_len a then f (word a k) (word b k) else 0.
Proof.
  revert b k. unfold vec_len. induction a as [|x a IH]; intros b k Hk; cbn [zip_zeros length].
  { rewrite word_past by (unfold vec_len; cbn; lia). by destruct (Z.ltb_spec k (Z.of_nat 0)); [lia|]. }
  destruct (Z.eq_dec k 0) as [-> |Hne].
  { destruct (Z.ltb_spec 0 (Z.of_nat (S (length a)))); [|lia]. by destruct b. }
  replace k with (k - 1 + 1) by lia. destruct b as [|y b].
  - rewrite !word_S_cons, IH by lia.
    rewrite !(word_past []) by (unfold vec_len; cbn; lia). zbool.
    destruct (Z.ltb_spec (k - 1) (Z.of_nat (length a))); zbool; done.
  - rewrite !word_S_cons, IH by lia.
    destruct (Z.ltb_spec (k - 1) (Z.of_nat (length a))); zbool; done.
Qed.

Lemma length_zip_zeros f a b : length (zip_zeros f a b) = length a.
Proof. revert b. induction a; intros [|y b]; cbn; auto. Qed.

Lemma word_zip_keep f a b k :
  0 <= k ->
  word (zip_keep f a b) k
    = if (k <? vec_len a) && (k <? vec_len b) then f (word a k) (word b k) else word a k.
Proof.
  revert b k. unfold vec_len. induction a as [|x a IH]; intros b k Hk; cbn [zip_keep length].
  { rewrite word_past by (unfold vec_len; cbn; lia). by destruct (Z.ltb_spec k (Z.of_nat 0)); [lia|]. }
  destruct b as [|y b]; cbn [length].
  { change (Z.of_nat 0) with 0. destruct (Z.ltb_spec k 0); [lia|]. by rewrite andb_false_r. }
  destruct (Z.eq_dec k 0) as [-> |Hne]; [zbool; done|].
  replace k with (k - 1 + 1) by lia. rewrite !word_S_cons, IH by lia.
  destruct (Z.ltb_spec (k - 1) (Z.of_nat (length a))), (Z.ltb_spec (k - 1) (Z.of_nat (length b)));
    zbool; done.
Qed.

Lemma length_zip_keep f a b : length (zip_keep f a b) = length a.
Proof. revert b. induction a; intros [|y b]; cbn; auto. Qed.

Lemma word_zip_with f a b k :
  0 <= k ->
  word (zip_with f a b) k
    = if (k <? vec_len a) && (k <? vec_len b) then f (word a k) (word b k) else 0.
Proof.
  intros Hk. unfold vec_len. rewrite !word_lookup, lookup_zip_with by lia.
  destruct (Z.ltb_spec k (Z.of_nat (length a))).
  - destruct (lookup_lt_is_Some_2 a (Z.to_nat k)) as [x ->]; [lia|]. cbn.
    destruct (Z.ltb_spec k (Z.of_nat (length b))).
    + destruct (lookup_lt_is_Some_2 b (Z.to_nat k)) as [y ->]; [lia|]. done.
    + by rewrite (lookup_ge_None_2 b) by lia.
  - by rewrite (lookup_ge_None_2 a) by lia.
Qed.

Lemma bit_at_word l k j : 0 <= j < 64 -> bit_at l (64 * k + j) = bit (word l k) j.
Proof.
  intros Hj. unfold bit_at. f_equal; [f_equal|]; Z.to_euclidean_division_equations; lia.
Qed.

(** Properties of all bits are properties of the bits of all words. *)
Lemma by_word (P : Z -> Prop) :
  (forall k j, 0 <= k -> 0 <= j < 64 -> P (64 * k + j)) -> forall n, 0 <= n -> P n.
Proof.
  intros H n Hn. rewrite (Z.div_mod n 64) by lia.
  apply H; Z.to_euclidean_division_equations; lia.
Qed.

Lemma bit_at_past l n : 64 * vec_len l <= n -> bit_at l n = false.
Proof.
  intros Hn. unfold bit_at. rewrite word_past by (Z.to_euclidean_division_equations; lia).
  apply Z.bits_0.
Qed.

Lemma bit_at_resize l m n :
  0 <= m -> 0 <= n -> bit_at (vec_resize l m) n = (n <? 64 * m) && bit_at l n.
Proof.
  intros Hm Hn. unfold bit_at. rewrite word_resize by (try apply Z.div_pos; lia).
  destruct (Z.ltb_spec (n / 64) m), (Z.ltb_spec n (64 * m)); try done;
    try (exfalso; Z.to_euclidean_division_equations; lia).
  apply Z.bits_0.
Qed.

Lemma bit_at_drop l i n : 0 <= n -> bit_at (drop i l) n = bit_at l (n + 64 * Z.of_nat i).
Proof.
  intros Hn. unfold bit_at. rewrite word_drop by (apply Z.div_pos; lia).
  f_equal; [f_equal|]; Z.to_euclidean_division_equations; lia.
Qed.

Lemma bit_at_take l i n : 0 <= n -> bit_at (take i l) n = (n <? 64 * Z.of_nat i) && bit_at l n.
Proof.
  intros Hn. unfold bit_at. rewrite word_take by (apply Z.div_pos; lia).
  destruct (Z.ltb_spec (n / 64) (Z.of_nat i)), (Z.ltb_spec n (64 * Z.of_nat i)); try done;
    try (exfalso; Z.to_euclidean_division_equations; lia).
  apply Z.bits_0.
Qed.

(** One bit changed: [f] changes the bit [n mod 64] of the word [n / 64]. *)
Lemma bit_at_insert l n m v w :
  0 <= n -> n / 64 < vec_len l -> 0 <= m ->
  (forall j, 0 <= j < 64 -> bit w j = if j =? n mod 64 then v else bit (word l (n / 64)) j) ->
  bit_at (<[Z.to_nat (n / 64) := w]> l) m = if m =? n then v else bit_at l m.
Proof.
  intros Hn Hl Hm Hw. unfold bit_at. assert (0 <= n / 64) by (apply Z.div_pos; lia).
  rewrite word_insert by (try apply Z.div_pos; lia).
  destruct (Z.eqb_spec (m / 64) (n / 64)) as [E|E].
  - rewrite E, Hw by (apply Z.mod_pos_bound; lia).
    pose proof (Z.div_mod m 64 ltac:(lia)). pose proof (Z.div_mod n 64 ltac:(lia)).
    destruct (Z.eqb_spec (m mod 64) (n mod 64)), (Z.eqb_spec m n); try done; exfalso; lia || congruence.
  - destruct (Z.eqb_spec m n) as [-> |]; [done|done].
Qed.

Lemma words_ok_insert l i w : words_ok l -> inw 64 w -> words_ok (<[i := w]> l).
Proof. intros Hl Hw. by apply list.Forall_insert. Qed.

Lemma words_ok_resize l m : words_ok l -> words_ok (vec_resize l m).
Proof. intros Hl. apply list.Forall_resize; [exact inw_0|done]. Qed.

Lemma length_vec_resize l m : 0 <= m -> vec_len (vec_resize l m) = m.
Proof. intros Hm. unfold vec_len, vec_resize. rewrite length_resize. lia. Qed.

(** A mask of one bit. *)
Lemma land_bit_zero w j : 0 <= j -> (Z.land w (Z.shiftl 1 j) =? 0) = negb (bit w j).
Proof.
  intros Hj. rewrite Z.shiftl_1_l. apply eq_true_iff_eq. rewrite negb_true_iff, Z.eqb_eq. split.
  - intros H. apply (f_equal (fun x => Z.testbit x j)) in H.
    rewrite Z.land_spec, testbit_pow2, Z.eqb_refl, andb_true_r, Z.bits_0 in H by lia. exact H.
  - intros H. apply Z.bits_inj'. intros i Hi. rewrite Z.land_spec, testbit_pow2, Z.bits_0 by lia.
    destruct (Z.eqb_spec j i) as [<-|]; [|apply andb_false_r]. by unfold bit in H; rewrite H.
Qed.

Lemma bit_lor_mask w n j :
  0 <= n -> 0 <= j -> bit (Z.lor w (Z.shiftl 1 n)) j = if j =? n then true else bit w j.
Proof.
  intros Hn Hj. unfold bit. rewrite Z.shiftl_1_l, Z.lor_spec, testbit_pow2 by lia.
  rewrite Z.eqb_sym. destruct (j =? n); [apply orb_true_r|apply orb_false_r].
Qed.

Lemma bit_land_unmask w n j :
  0 <= n -> 0 <= j < 64 ->
  bit (Z.land w (unot 64 (Z.shiftl 1 n))) j = if j =? n then false else bit w j.
Proof.
  intros Hn Hj. unfold bit. rewrite Z.shiftl_1_l, Z.land_spec, testbit_unot, testbit_pow2 by lia.
  zbool. rewrite Z.eqb_sym. destruct (j =? n); cbn; [apply andb_false_r|apply andb_true_r].
Qed.

Lemma inw_mask n : 0 <= n < 64 -> inw 64 (Z.shiftl 1 n).
Proof. intros Hn. rewrite Z.shiftl_1_l. split; [lia|]. apply Z.pow_lt_mono_r; lia. Qed.

(** Two vectors of words differ exactly when some bit does. *)
Lemma word_bits_eq x y : inw 64 x -> inw 64 y -> (forall j, 0 <= j < 64 -> bit x j = bit y j) -> x = y.
Proof.
  intros Hx Hy H. apply Z.bits_inj'. intros j Hj. destruct (decide (j < 64)).
  - apply H. lia.
  - by rewrite !(testbit_above 64) by (done || lia).
Qed.

Lemma word_zero_bits x : inw 64 x -> (x =? 0) = true <-> (forall j, 0 <= j < 64 -> bit x j = false).
Proof.
  intros Hx. rewrite Z.eqb_eq. split.
  - intros -> j _. apply Z.bits_0.
  - intros H. apply word_bits_eq; [done|exact inw_0|]. intros j Hj. rewrite H by lia.
    symmetry. apply Z.bits_0.
Qed.

(** ** The abstraction *)

(** The bit [n] of a list of booleans, [false] past its end. *)
Definition at_ (l : list bool) (n : Z) : bool := default false (l !! Z.to_nat n).

Lemma at_past l n : Z.of_nat (length l) <= n -> at_ l n = false.
Proof. intros Hn. unfold at_. by rewrite lookup_ge_None_2 by lia. Qed.

Lemma at_app l l' n :
  0 <= n ->
  at_ (l ++ l') n = if n <? Z.of_nat (length l) then at_ l n else at_ l' (n - Z.of_nat (length l)).
Proof.
  intros Hn. unfold at_. destruct (Z.ltb_spec n (Z.of_nat (length l))).
  - by rewrite lookup_app_l by lia.
  - rewrite lookup_app_r by lia. do 2 f_equal. lia.
Qed.

Lemma at_insert l i v n :
  0 <= i < Z.of_nat (length l) -> 0 <= n ->
  at_ (<[Z.to_nat i := v]> l) n = if n =? i then v else at_ l n.
Proof.
  intros Hi Hn. unfold at_. destruct (Z.eqb_spec n i) as [-> |].
  - by rewrite list_lookup_insert_eq by lia.
  - by rewrite list_lookup_insert_ne by lia.
Qed.

Lemma at_take l i n : 0 <= i -> 0 <= n -> at_ (take (Z.to_nat i) l) n = (n <? i) && at_ l n.
Proof.
  intros Hi Hn. unfold at_. destruct (Z.ltb_spec n i).
  - by rewrite lookup_take_lt by lia.
  - by rewrite lookup_take_ge by lia.
Qed.

Lemma at_drop l i n : 0 <= i -> 0 <= n -> at_ (drop (Z.to_nat i) l) n = at_ l (n + i).
Proof. intros Hi Hn. unfold at_. rewrite lookup_drop. do 2 f_equal. lia. Qed.

Lemma at_resize l i n : 0 <= i -> 0 <= n -> at_ (resize (Z.to_nat i) false l) n = (n <? i) && at_ l n.
Proof.
  intros Hi Hn. unfold at_. destruct (Z.ltb_spec n i).
  - destruct (decide (Z.to_nat n < length l)%nat).
    + by rewrite lookup_resize by lia.
    + rewrite lookup_resize_new by lia. by rewrite lookup_ge_None_2 by lia.
  - by rewrite lookup_resize_old by lia.
Qed.

Lemma at_replicate i v n : 0 <= i -> 0 <= n -> at_ (replicate (Z.to_nat i) v) n = (n <? i) && v.
Proof.
  intros Hi Hn. unfold at_. destruct (Z.ltb_spec n i).
  - by rewrite lookup_replicate_2 by lia.
  - by rewrite lookup_ge_None_2 by (rewrite length_replicate; lia).
Qed.

Lemma at_seqZ (f : Z -> bool) k n : 0 <= n -> at_ (f <$> seqZ 0 k) n = (n <? k) && f n.
Proof.
  intros Hn. unfold at_. rewrite list_lookup_fmap. destruct (Z.ltb_spec n k).
  - rewrite lookup_seqZ_lt by lia. cbn. f_equal. lia.
  - by rewrite lookup_seqZ_ge by lia.
Qed.

(** A list is determined by its length and its bits. *)
Lemma at_ext l l' :
  length l = length l' -> (forall n, 0 <= n < Z.of_nat (length l) -> at_ l n = at_ l' n) -> l = l'.
Proof.
  intros Hl H. apply list_eq_same_length with (length l); [done|done|].
  intros i x y Hi Hx Hy. specialize (H (Z.of_nat i) ltac:(lia)).
  unfold at_ in H. rewrite Nat2Z.id, Hx, Hy in H. done.
Qed.

Import Growing.

(** The data covers the length, and has no bit past it. *)
Record wf (b : GrowingBitmap) : Prop := {
  wf_len : 0 <= len b <= 64 * vec_len (data b);
  wf_words : words_ok (data b);
  wf_clean : forall n, len b <= n -> get b n = false }.

(** The bits of a bitmap. *)
Definition bits (b : GrowingBitmap) : list bool := get b <$> seqZ 0 (len b).

(** [b] is well formed, and has the length [n] and the bits [f]. *)
Definition represents (b : GrowingBitmap) (n : Z) (f : Z -> bool) : Prop :=
  wf b /\ len b = n /\ forall m, 0 <= m -> get b m = f m.

Lemma length_bits b : wf b -> Z.of_nat (length (bits b)) = len b.
Proof. intros Hb. pose proof (wf_len b Hb). unfold bits. rewrite length_fmap, length_seqZ. lia. Qed.

Lemma at_bits b n : wf b -> 0 <= n -> at_ (bits b) n = get b n.
Proof.
  intros Hb Hn. unfold bits. rewrite at_seqZ by lia. destruct (Z.ltb_spec n (len b)); [done|].
  symmetry. by apply wf_clean.
Qed.

(** From the function to the list. *)
Lemma represents_bits b n f l :
  represents b n f -> Z.of_nat (length l) = n -> (forall m, 0 <= m < n -> f m = at_ l m) ->
  wf b /\ bits b = l.
Proof.
  intros (Hb & Hn & Hf) Hl H. split; [done|]. pose proof (length_bits b Hb). apply at_ext; [lia|].
  intros m Hm. rewrite at_bits by (done || lia). rewrite Hf by lia. apply H. lia.
Qed.

Lemma represents_refl b : wf b -> represents b (len b) (get b).
Proof. done. Qed.

Lemma represents_get b n f m : represents b n f -> n <= m -> get b m = false.
Proof. intros (Hb & <- & _). apply wf_clean, Hb. Qed.

(** The usual way to establish it: the words are in range, there are enough of
    them, and the bits past the length are clear. *)
Lemma represents_intro d n f :
  0 <= n <= 64 * vec_len d -> words_ok d ->
  (forall m, 0 <= m -> bit_at d m = f m) -> (forall m, n <= m -> f m = false) ->
  represents (Growing d n) n f.
Proof.
  intros Hn Hd Hf Hc. split; [|split; [done|exact Hf]]. constructor; [done|done|].
  intros m Hm. cbn in *. unfold get. cbn. rewrite Hf by lia. by apply Hc.
Qed.

(** ** Construction and masking *)

Lemma alter_as_insert {A} (f : A -> A) (l : list A) (i : nat) w : l !! i = Some w -> alter f i l = <[i := f w]> l.
Proof.
  intros Hw. apply list_eq. intros j. destruct (decide (i = j)) as [<- |Hj].
  - rewrite list_lookup_alter_eq, Hw, list_lookup_insert_eq; [done|]. by eapply lookup_lt_Some.
  - by rewrite list_lookup_alter_ne, list_lookup_insert_ne by done.
Qed.

Lemma new_wf : wf new.
Proof. constructor; [unfold vec_len; cbn; lia|constructor|]. intros n Hn. apply bit_at_past. exact Hn. Qed.

Lemma zeroize_past_end_spec d n :
  0 <= n -> words_ok d -> vec_len d = div_ceil n 64 ->
  represents (zeroize_past_end (Growing d n)) n (fun m => (m <? n) && bit_at d m).
Proof.
  intros Hn Hd Hl. unfold zeroize_past_end, vec_len, div_ceil in *. cbn [len data].
  pose proof (Z.div_mod n 64 ltac:(lia)) as En. pose proof (Z.mod_pos_bound n 64 ltac:(lia)) as Bn.
  destruct (Z.eqb_spec (n mod 64) 0) as [E0|E0]; cbn [negb andb].
  - apply represents_intro; [|done| |]; unfold vec_len.
    + Z.to_euclidean_division_equations. lia.
    + intros m Hm. destruct (Z.ltb_spec m n); [done|]. apply bit_at_past. unfold vec_len.
      Z.to_euclidean_division_equations; lia.
    + intros m Hm. destruct (Z.ltb_spec m n); [lia|done].
  - assert (Hlen : Z.of_nat (length d) = n / 64 + 1) by (Z.to_euclidean_division_equations; lia).
    destruct (Z.eqb_spec (Z.of_nat (length d)) 0) as [E1|E1]; [lia|]. cbn [negb].
    destruct (lookup_lt_is_Some_2 d (length d - 1)) as [w Hw]; [lia|].
    assert (Hi : (length d - 1)%nat = Z.to_nat (n / 64)) by lia.
    assert (Hwd : word d (n / 64) = w).
    { rewrite word_lookup by lia. by rewrite <- Hi, Hw. }
    rewrite (alter_as_insert _ _ _ _ Hw), Hi.
    assert (Hww : inw 64 w) by (rewrite <- Hwd; by apply word_ok).
    apply represents_intro; unfold vec_len; rewrite ?length_insert.
    + lia.
    + apply words_ok_insert; [done|]. apply inw_land; [lia|done|]. apply ones_nonneg. lia.
    + apply by_word. intros k j Hk Hj. rewrite !bit_at_word by lia.
      rewrite word_insert by (unfold vec_len; lia).
      destruct (Z.eqb_spec k (n / 64)) as [-> |Hk'].
      * unfold bit. rewrite Z.land_spec, testbit_ones, Hwd by lia. zbool. cbn.
        rewrite andb_comm. f_equal. destruct (Z.ltb_spec j (n mod 64)); zbool; done.
      * destruct (Z.ltb_spec (64 * k + j) n); [done|].
        rewrite word_past by (unfold vec_len; lia). apply Z.bits_0.
    + intros m Hm. destruct (Z.ltb_spec m n); [lia|done].
Qed.

Lemma new_all_ones_spec n : 0 <= n -> represents (new_all_ones n) n (fun m => m <? n).
Proof.
  intros Hn. assert (0 <= div_ceil n 64) by (unfold div_ceil; apply Z.div_pos; lia).
  unfold new_all_ones.
  assert (Hw : words_ok (replicate (Z.to_nat (div_ceil n 64)) (Z.ones 64))).
  { apply Forall_replicate. apply inw_ones. lia. }
  destruct (zeroize_past_end_spec _ n Hn Hw) as (H1 & H2 & H3).
  { unfold vec_len. rewrite length_replicate. lia. }
  split; [done|]. split; [done|]. intros m Hm. rewrite H3 by lia.
  destruct (Z.ltb_spec m n); [|done]. cbn. unfold bit_at.
  rewrite word_replicate by (apply Z.div_pos; lia). rewrite Z2Nat.id by lia. unfold div_ceil.
  destruct (Z.ltb_spec (m / 64) ((n + 64 - 1) / 64));
    [|exfalso; Z.to_euclidean_division_equations; lia].
  unfold bit. rewrite testbit_ones by lia. pose proof (Z.mod_pos_bound m 64 ltac:(lia)). zbool. done.
Qed.

Lemma new_all_zeros_spec n : 0 <= n -> represents (new_all_zeros n) n (fun _ => false).
Proof.
  intros Hn. unfold new_all_zeros. apply represents_intro; [| |intros m Hm|done].
  - unfold vec_len. rewrite length_replicate. Z.to_euclidean_division_equations; lia.
  - apply Forall_replicate. exact inw_0.
  - unfold bit_at. rewrite word_replicate by (apply Z.div_pos; lia). destruct (_ <? _); apply Z.bits_0.
Qed.

(** ** Setting and clearing *)

Lemma internal_resize_spec b n :
  wf b -> 0 <= n -> len b <= n + 1 ->
  represents (internal_resize b n (n / 64)) (n + 1) (get b)
  /\ n / 64 < vec_len (data (internal_resize b n (n / 64))).
Proof.
  intros Hb Hn Hle. pose proof (wf_len b Hb) as Hl. unfold internal_resize.
  assert (0 <= n / 64) by (apply Z.div_pos; lia).
  destruct (Z.leb_spec (vec_len (data b)) (n / 64)) as [E|E]; cbn [data].
  - rewrite length_vec_resize by lia. split; [|lia]. apply represents_intro.
    + rewrite length_vec_resize by lia. Z.to_euclidean_division_equations; lia.
    + apply words_ok_resize, Hb.
    + intros m Hm. rewrite bit_at_resize by lia. destruct (Z.ltb_spec m (64 * (n / 64 + 1))); [done|].
      symmetry. apply bit_at_past. lia.
    + intros m Hm. apply Hb. lia.
  - split; [|lia]. apply represents_intro; [|apply Hb|done|].
    + Z.to_euclidean_division_equations; lia.
    + intros m Hm. apply Hb. lia.
Qed.

Lemma grow_to_spec b n :
  wf b -> 0 <= n -> represents (grow_to b n) (Z.max (len b) (n + 1)) (get b)
                    /\ n / 64 < vec_len (data (grow_to b n)).
Proof.
  intros Hb Hn. pose proof (wf_len b Hb) as Hl. unfold grow_to.
  destruct (Z.leb_spec (len b) n).
  - replace (Z.max (len b) (n + 1)) with (n + 1) by lia. apply internal_resize_spec; done || lia.
  - split; [|Z.to_euclidean_division_equations; lia].
    replace (Z.max (len b) (n + 1)) with (len b) by lia. by apply represents_refl.
Qed.

(** A bit of a bitmap that is long enough is replaced. *)
Lemma replace_bit b n L f v w :
  represents b L f -> 0 <= n < L -> inw 64 w ->
  (forall j, 0 <= j < 64 -> bit w j = if j =? n mod 64 then v else bit (word (data b) (n / 64)) j) ->
  represents (Growing (<[Z.to_nat (n / 64) := w]> (data b)) (len b)) L
    (fun m => if m =? n then v else f m).
Proof.
  intros (Hb & HL & Hf) Hn Hw Hbits. pose proof (wf_len b Hb) as Hl. rewrite HL.
  assert (n / 64 < vec_len (data b)) by (Z.to_euclidean_division_equations; lia).
  apply represents_intro.
  - unfold vec_len. rewrite length_insert. fold (vec_len (data b)). lia.
  - apply words_ok_insert; [apply Hb|done].
  - intros m Hm. rewrite (bit_at_insert _ _ _ v) by (done || lia).
    destruct (m =? n); [done|]. by apply Hf.
  - intros m Hm. destruct (Z.eqb_spec m n); [lia|]. rewrite <- Hf by lia. apply Hb. lia.
Qed.

Lemma set_spec b n :
  wf b -> 0 <= n ->
  exists b', set b n = Some (negb (get b n), b')
    /\ represents b' (Z.max (len b) (n + 1)) (fun m => if m =? n then true else get b m).
Proof.
  intros Hb Hn. destruct (grow_to_spec b n Hb Hn) as [Hg Hk]. unfold set.
  pose proof (Z.mod_pos_bound n 64 ltac:(lia)) as Bn. assert (0 <= n / 64) by (apply Z.div_pos; lia).
  rewrite arr_get_word by lia. cbn -[data]. rewrite arr_set_spec by (unfold vec_len in *; lia).
  cbn -[data]. rewrite land_bit_zero by lia. destruct Hg as (Hg1 & Hg2 & Hg3).
  change (bit (word _ _) _) with (get (grow_to b n) n). rewrite Hg3 by lia.
  eexists; split; [reflexivity|]. apply replace_bit; [done|lia| |].
  - apply inw_lor; [lia|apply word_ok, Hg1|by apply inw_mask].
  - intros j Hj. apply bit_lor_mask; lia.
Qed.

Lemma reset_spec b n :
  wf b -> 0 <= n ->
  exists b', reset b n = Some (get b n, b')
    /\ represents b' (Z.max (len b) (n + 1)) (fun m => if m =? n then false else get b m).
Proof.
  intros Hb Hn. destruct (grow_to_spec b n Hb Hn) as [Hg Hk]. unfold reset.
  pose proof (Z.mod_pos_bound n 64 ltac:(lia)) as Bn. assert (0 <= n / 64) by (apply Z.div_pos; lia).
  rewrite arr_get_word by lia. cbn -[data]. rewrite arr_set_spec by (unfold vec_len in *; lia).
  cbn -[data]. rewrite land_bit_zero by lia. destruct Hg as (Hg1 & Hg2 & Hg3).
  change (bit (word _ _) _) with (get (grow_to b n) n). rewrite negb_involutive, Hg3 by lia.
  eexists; split; [reflexivity|]. apply replace_bit; [done|lia| |].
  - apply inw_land; [lia|apply word_ok, Hg1|]. apply unot_inw; [lia|by apply inw_mask].
  - intros j Hj. apply bit_land_unmask; lia.
Qed.

Lemma get_then_reset_spec b n :
  wf b -> 0 <= n ->
  fst (get_then_reset b n) = get b n
  /\ represents (snd (get_then_reset b n)) (len b) (fun m => if m =? n then false else get b m).
Proof.
  intros Hb Hn. unfold get_then_reset. pose proof (Z.mod_pos_bound n 64 ltac:(lia)) as Bn.
  assert (0 <= n / 64) by (apply Z.div_pos; lia). pose proof (wf_len b Hb) as Hl.
  destruct (arr_get (data b) (n / 64)) as [x|] eqn:E; cbn [fst snd].
  - pose proof (word_get _ _ _ E) as Hx. apply arr_get_spec in E. destruct E as [_ E].
    apply lookup_lt_Some in E. split.
    + rewrite land_bit_zero, negb_involutive by lia. unfold get, bit_at. by rewrite Hx.
    + apply represents_intro.
      * unfold vec_len in *. rewrite length_insert. lia.
      * apply words_ok_insert; [apply Hb|]. rewrite <- Hx.
        apply inw_land; [lia|apply word_ok, Hb|]. apply unot_inw; [lia|by apply inw_mask].
      * intros m Hm. rewrite (bit_at_insert _ _ _ false); [done|lia| |lia|].
        { unfold vec_len. lia. }
        intros j Hj. rewrite Hx. apply bit_land_unmask; lia.
      * intros m Hm. destruct (m =? n); [done|]. apply Hb. lia.
  - assert (Hp : vec_len (data b) <= n / 64).
    { destruct (Z.lt_ge_cases (n / 64) (vec_len (data b))); [|done].
      rewrite arr_get_word in E by lia. done. }
    assert (Hf : get b n = false) by (apply Hb; Z.to_euclidean_division_equations; lia).
    split; [done|]. split; [done|]. split; [done|]. intros m Hm.
    by destruct (Z.eqb_spec m n) as [-> |].
Qed.

(** ** Loops *)

(** The rule of a loop: [P before s] holds of the state [s] that the items
    [before] lead to. *)
Lemma for_each_rule {A S} (f : S -> A -> option S) (P : list A -> S -> Prop) l s :
  P [] s ->
  (forall before x after s, l = before ++ x :: after -> P before s ->
     exists s', f s x = Some s' /\ P (before ++ [x]) s') ->
  exists s', for_each f l s = Some s' /\ P l s'.
Proof.
  intros H0 Hstep.
  enough (H : forall after before s, l = before ++ after -> P before s ->
                exists s', for_each f after s = Some s' /\ P l s') by by apply (H l []).
  induction after as [|x after IH]; intros before s0 Hl Hs.
  - rewrite app_nil_r in Hl. subst. by exists s0.
  - destruct (Hstep before x after s0 Hl Hs) as (s1 & E & Hs1). cbn. rewrite E. cbn.
    apply (IH (before ++ [x])); [by rewrite <- app_assoc|done].
Qed.

(** The same over a range of integers. *)
Lemma for_each_range {S} (f : S -> Z -> option S) (P : Z -> S -> Prop) lo n s :
  0 <= n -> P lo s ->
  (forall i s, lo <= i < lo + n -> P i s -> exists s', f s i = Some s' /\ P (i + 1) s') ->
  exists s', for_each f (seqZ lo n) s = Some s' /\ P (lo + n) s'.
Proof.
  intros Hn H0 Hstep.
  destruct (for_each_rule f (fun before s => P (lo + Z.of_nat (length before)) s) (seqZ lo n) s)
    as (s' & E & HP).
  - cbn. by rewrite Z.add_0_r.
  - intros before x after s0 Hl Hs.
    assert (Hx : seqZ lo n !! length before = Some x) by (rewrite Hl; by apply list_lookup_middle).
    apply lookup_seqZ in Hx. destruct Hx as [-> Hx].
    destruct (Hstep (lo + Z.of_nat (length before)) s0 ltac:(lia) Hs) as (s1 & E & H1). exists s1. split; [done|].
    rewrite length_app. cbn. by replace (lo + Z.of_nat (length before + 1))
      with (lo + Z.of_nat (length before) + 1) by lia.
  - exists s'. split; [done|]. rewrite length_seqZ in HP. by rewrite Z2Nat.id in HP by lia.
Qed.

(** ** Extension *)

(** The state of the loop of [extend] once the list [l] is written. *)
Definition extending (l : list bool) (st : list Z * (Z * Z) * Z) : Prop :=
  let '(d, (next_index, next_offset), n) := st in
  words_ok d /\ n = Z.of_nat (length l) /\ next_index = n / 64 /\ next_offset = n mod 64
  /\ next_index < vec_len d /\ forall m, 0 <= m -> bit_at d m = at_ l m.

Lemma extend_step_spec l x st :
  extending l st -> exists st', extend_step st x = Some st' /\ extending (l ++ [x]) st'.
Proof.
  destruct st as [[d [ni no]] n]. intros (Hd & Hn & Hni & Hno & Hlen & Hbits).
  assert (0 <= n / 64) by (apply Z.div_pos; lia). pose proof (Z.mod_pos_bound n 64 ltac:(lia)) as Bn.
  pose proof (Z.div_mod n 64 ltac:(lia)).
  unfold extend_step, update_word. rewrite arr_get_word by lia. cbn -[Z.lor].
  rewrite arr_set_spec by (unfold vec_len in *; lia). cbn -[Z.lor].
  set (d' := <[_ := _]> d).
  assert (Hd' : words_ok d').
  { apply words_ok_insert; [done|]. apply inw_lor; [lia|by apply word_ok|]. apply wrap_inw. lia. }
  assert (Hlen' : vec_len d' = vec_len d) by (unfold vec_len, d'; by rewrite length_insert).
  assert (Hb' : forall m, 0 <= m -> bit_at d' m = at_ (l ++ [x]) m).
  { intros m Hm. unfold d'. rewrite Hni, Hno, (bit_at_insert _ n m x); [|lia|lia|lia|].
    - rewrite at_app, Hbits by lia. rewrite <- Hn.
      destruct (Z.eqb_spec m n) as [-> |Hne]; [by rewrite Z.ltb_irrefl, Z.sub_diag|].
      destruct (Z.ltb_spec m n); [done|]. rewrite !at_past by (cbn; lia). done.
    - intros j Hj. unfold bit at 1. rewrite Z.lor_spec, testbit_wrap, testbit_shiftl, testbit_b2z by lia.
      zbool. cbn. specialize (Hbits n ltac:(lia)). rewrite at_past in Hbits by lia.
      destruct (Z.eqb_spec j (n mod 64)) as [-> |Hne].
      + change (Z.testbit _ _) with (bit_at d n). rewrite Hbits, Z.sub_diag, Z.leb_refl. done.
      + replace (j - n mod 64 =? 0) with false by (symmetry; apply Z.eqb_neq; lia).
        by rewrite andb_false_r, orb_false_r. }
  assert (Hl : Z.of_nat (length (l ++ [x])) = n + 1) by (rewrite length_app; cbn; lia).
  destruct (Z.eqb_spec (no + 1) 64) as [E|E].
  - assert (Hq : (n + 1) / 64 = ni + 1 /\ (n + 1) mod 64 = 0).
    { replace (n + 1) with ((ni + 1) * 64) by lia. by rewrite Z.div_mul, Z.mod_mul by lia. }
    destruct Hq as [Hq1 Hq2]. eexists; split; [reflexivity|]. cbn.
    destruct (Z.leb_spec (vec_len d') (ni + 1)) as [F|F].
    + split; [by apply words_ok_resize|]. rewrite Hl, length_vec_resize by lia.
      repeat (split; [lia|]). intros m Hm. rewrite bit_at_resize, Hb' by lia.
      destruct (Z.ltb_spec m (64 * (ni + 2))); [done|]. rewrite at_past by lia. done.
    + split; [done|]. rewrite Hl. repeat (split; [lia|]). done.
  - assert (Hq : (n + 1) / 64 = ni /\ (n + 1) mod 64 = no + 1).
    { replace (n + 1) with (no + 1 + ni * 64) by lia.
      rewrite Z.div_add, Z.mod_add, Z.div_small, Z.mod_small by lia. lia. }
    eexists; split; [reflexivity|]. cbn. split; [done|]. rewrite Hl, Hlen'.
    repeat (split; [lia|]). done.
Qed.

Lemma extend_spec b items :
  wf b ->
  exists b', extend b items = Some b' /\ wf b' /\ bits b' = bits b ++ items.
Proof.
  intros Hb. pose proof (wf_len b Hb) as Hl. unfold extend.
  pose proof (length_bits b Hb) as Hlb.
  set (d0 := if vec_len (data b) <=? len b / 64 then _ else _).
  assert (H0 : extending (bits b) (d0, (len b / 64, len b mod 64), len b)).
  { assert (0 <= len b / 64) by (apply Z.div_pos; lia). unfold d0.
    destruct (Z.leb_spec (vec_len (data b)) (len b / 64)).
    - split; [apply words_ok_resize, Hb|]. rewrite length_vec_resize by lia.
      repeat (split; [lia|]). intros m Hm. rewrite at_bits, bit_at_resize by (done || lia).
      destruct (Z.ltb_spec m (64 * (len b / 64 + 1))); [done|].
      symmetry. apply bit_at_past. lia.
    - split; [apply Hb|]. repeat (split; [lia|]). intros m Hm. by rewrite at_bits by (done || lia). }
  destruct (for_each_rule extend_step (fun before st => extending (bits b ++ before) st) items _
    (eq_ind_r (fun l => extending l _) H0 (app_nil_r _)))
    as ([[d [ni no]] n] & E & H).
  { intros before x after st _ Hst. rewrite app_assoc. by apply extend_step_spec. }
  rewrite E. cbn. eexists; split; [reflexivity|].
  destruct H as (Hd & Hn & Hni & Hno & Hlen & Hbits).
  apply (represents_bits _ n (at_ (bits b ++ items))); [|done|done]. apply represents_intro.
  - Z.to_euclidean_division_equations; lia.
  - done.
  - exact Hbits.
  - intros m Hm. apply at_past. lia.
Qed.

(** ** Removal *)

Lemma remove_spec b n :
  wf b -> 0 <= n < len b ->
  exists b', remove b n = Some (get b n, b')
    /\ represents b' (len b - 1) (fun m => get b (if m <? n then m else m + 1)).
Proof.
  intros Hb Hn. unfold remove.
  destruct (for_each_range (fun b i => snd <$> (if get b (i + 1) then set b i else reset b i))
    (fun i b' => represents b' (len b)
       (fun m => get b (if (n <=? m) && (m <? i) then m + 1 else m))) n (len b - n) b)
    as (b' & E & Hb' & Hl & Hg).
  - lia.
  - split; [done|]. split; [done|]. intros m Hm.
    destruct (Z.leb_spec n m), (Z.ltb_spec m n); cbn; done || lia.
  - intros i b0 Hi (Hb0 & Hl0 & Hg0).
    assert (Hnext : get b0 (i + 1) = get b (i + 1)).
    { rewrite Hg0 by lia. destruct (Z.ltb_spec (i + 1) i); [lia|]. by rewrite andb_false_r. }
    assert (Hm : forall m, 0 <= m -> (if m =? i then get b (i + 1) else get b0 m)
      = get b (if (n <=? m) && (m <? i + 1) then m + 1 else m)).
    { intros m Hm. rewrite Hg0 by lia. destruct (Z.eqb_spec m i) as [-> |Hne].
      - by zbool.
      - destruct (Z.leb_spec n m); cbn; [|done].
        destruct (Z.ltb_spec m i), (Z.ltb_spec m (i + 1)); done || lia. }
    rewrite Hnext. destruct (get b (i + 1)) eqn:Eb.
    + destruct (set_spec b0 i Hb0 ltac:(lia)) as (b1 & E & Hb1 & Hl1 & Hg1).
      rewrite E. exists b1. split; [done|]. split; [done|]. split; [lia|].
      intros m Hm'. rewrite Hg1 by lia. by apply Hm.
    + destruct (reset_spec b0 i Hb0 ltac:(lia)) as (b1 & E & Hb1 & Hl1 & Hg1).
      rewrite E. exists b1. split; [done|]. split; [done|]. split; [lia|].
      intros m Hm'. rewrite Hg1 by lia. by apply Hm.
  - rewrite E. cbn. rewrite Hl. destruct (Z.leb_spec 1 (len b)); [|lia]. cbn.
    eexists; split; [reflexivity|]. pose proof (wf_len b' Hb').
    assert (Hf : forall m, 0 <= m ->
      get b' m = get b (if m <? n then m else m + 1)).
    { intros m Hm. rewrite Hg by lia. replace (n + (len b - n)) with (len b) by lia.
      destruct (Z.leb_spec n m), (Z.ltb_spec m n); cbn; try lia; [|done].
      destruct (Z.ltb_spec m (len b)); [done|]. by rewrite !(wf_clean b Hb) by lia. }
    apply represents_intro; [lia|apply Hb'|exact Hf|].
    intros m Hm. destruct (Z.ltb_spec m n); [lia|]. apply (wf_clean b Hb). lia.
Qed.

Lemma word_shift_down s l k :
  0 < s < 64 -> 0 <= k ->
  word (shift_down s l) k
    = Z.lor (Z.shiftr (word l k) s) (wrap 64 (Z.shiftl (word l (k + 1)) (64 - s))).
Proof.
  intros Hs. revert k. induction l as [|w l IH]; intros k Hk; cbn [shift_down].
  { rewrite !word_past by (unfold vec_len; cbn; lia). by rewrite Z.shiftr_0_l, Z.shiftl_0_l. }
  destruct (Z.eq_dec k 0) as [-> |Hne].
  - rewrite !word_0_cons. change (0 + 1) with (0 + 1). by rewrite word_S_cons by lia.
  - replace k with (k - 1 + 1) by lia. rewrite !word_S_cons by lia. rewrite IH by lia.
    by replace (k - 1 + 1) with k by lia.
Qed.

Lemma length_shift_down s l : length (shift_down s l) = length l.
Proof. induction l; cbn; auto. Qed.

Lemma words_ok_shift_down s l : 0 < s < 64 -> words_ok l -> words_ok (shift_down s l).
Proof.
  intros Hs Hl. induction Hl as [|w l Hw Hl IH]; [constructor|]. constructor; [|done].
  apply inw_lor; [lia|by apply inw_shiftr; [lia|lia|]|]. apply wrap_inw. lia.
Qed.

Lemma bit_at_shift_down s l n :
  0 < s < 64 -> words_ok l -> 0 <= n -> bit_at (shift_down s l) n = bit_at l (n + s).
Proof.
  intros Hs Hl. revert n. apply by_word. intros k j Hk Hj.
  rewrite bit_at_word, word_shift_down by lia. unfold bit at 1.
  rewrite Z.lor_spec, testbit_shiftr, testbit_wrap, testbit_shiftl by lia. zbool. cbn.
  destruct (Z.leb_spec (64 - s) j); cbn.
  - replace (64 * k + j + s) with (64 * (k + 1) + (j - (64 - s))) by lia.
    rewrite bit_at_word by lia. rewrite (testbit_above 64 (word l k)) by (lia || by apply word_ok). done.
  - replace (64 * k + j + s) with (64 * k + (j + s)) by lia.
    rewrite bit_at_word by lia. apply orb_false_r.
Qed.

Lemma words_ok_drop i l : words_ok l -> words_ok (drop i l).
Proof. apply list.Forall_drop. Qed.
Lemma words_ok_take i l : words_ok l -> words_ok (take i l).
Proof. apply list.Forall_take. Qed.

(** Words cut to a length and masked. *)
Lemma cut_spec d n (f : Z -> bool) :
  0 <= n -> words_ok d -> div_ceil n 64 <= vec_len d ->
  (forall m, 0 <= m < n -> bit_at d m = f m) -> (forall m, n <= m -> f m = false) ->
  represents
    (zeroize_past_end
       (Growing (if div_ceil n 64 <? vec_len d then take (Z.to_nat (div_ceil n 64)) d else d) n))
    n f.
Proof.
  intros Hn Hd Hl Hf Hc.
  assert (0 <= div_ceil n 64) by (unfold div_ceil; apply Z.div_pos; lia).
  set (d' := if _ <? _ then _ else _).
  assert (Hd' : words_ok d' /\ vec_len d' = div_ceil n 64
                /\ forall m, 0 <= m < n -> bit_at d' m = bit_at d m).
  { unfold d'. destruct (Z.ltb_spec (div_ceil n 64) (vec_len d)).
    - split; [by apply words_ok_take|]. split.
      + unfold vec_len in *. rewrite length_take. lia.
      + intros m Hm. rewrite bit_at_take, Z2Nat.id by lia. unfold div_ceil.
        destruct (Z.ltb_spec m (64 * ((n + 64 - 1) / 64))); [done|].
        exfalso. clear - H1 Hm. Z.to_euclidean_division_equations; lia.
    - split; [done|]. split; [lia|done]. }
  destruct Hd' as (H1 & H2 & H3).
  destruct (zeroize_past_end_spec d' n Hn H1 H2) as (Hr1 & Hr2 & Hr3).
  split; [done|]. split; [done|]. intros m Hm. rewrite Hr3 by lia.
  destruct (Z.ltb_spec m n); cbn; [rewrite H3, Hf by lia; done|symmetry; apply Hc; lia].
Qed.

Lemma remove_front_spec b num :
  wf b -> 0 <= num ->
  exists b', remove_front b num = Some b'
    /\ represents b' (len b - Z.min num (len b)) (fun m => get b (m + Z.min num (len b))).
Proof.
  intros Hb Hnum. pose proof (wf_len b Hb) as Hl. unfold remove_front.
  set (k := Z.min num (len b)). assert (Hk : 0 <= k <= len b) by (unfold k; lia). clearbody k.
  assert (0 <= k / 64) by (apply Z.div_pos; lia). pose proof (Z.mod_pos_bound k 64 ltac:(lia)) as Bk.
  pose proof (Z.div_mod k 64 ltac:(lia)) as Ek.
  destruct (Z.leb_spec (k / 64) (vec_len (data b))); [|lia]. cbn -[Z.div Z.modulo].
  eexists; split; [reflexivity|].
  set (d := drop (Z.to_nat (k / 64)) (data b)).
  assert (Hd : words_ok d) by apply words_ok_drop, Hb.
  set (d1 := if negb (k mod 64 =? 0) then _ else _).
  assert (H1 : words_ok d1 /\ vec_len d1 = vec_len d
               /\ forall m, 0 <= m -> bit_at d1 m = bit_at d (m + k mod 64)).
  { unfold d1, vec_len. destruct (Z.eqb_spec (k mod 64) 0) as [E|E]; cbn [negb].
    - rewrite E. split; [done|]. split; [done|]. intros m Hm. by rewrite Z.add_0_r.
    - split; [apply words_ok_shift_down; done || lia|]. rewrite length_shift_down. split; [done|].
      intros m Hm. apply bit_at_shift_down; done || lia. }
  destruct H1 as (Hd1 & Hl1 & Hb1). clearbody d1.
  assert (Hld : vec_len d = vec_len (data b) - k / 64).
  { unfold d, vec_len in *. rewrite length_drop. lia. }
  apply cut_spec; [lia|done| | |].
  - rewrite Hl1, Hld. unfold div_ceil. Z.to_euclidean_division_equations; lia.
  - intros m Hm. rewrite Hb1 by lia. unfold d. rewrite bit_at_drop by lia. unfold get. f_equal. lia.
  - intros m Hm. apply Hb. lia.
Qed.

Lemma resize_spec b n :
  wf b -> 0 <= n ->
  represents (resize b n) n (fun m => (m <? n) && get b m).
Proof.
  intros Hb Hn. unfold resize.
  assert (0 <= div_ceil n 64) by (unfold div_ceil; apply Z.div_pos; lia).
  set (d := if negb (_ =? _) then _ else _).
  assert (Hd : words_ok d /\ vec_len d = div_ceil n 64
               /\ forall m, 0 <= m < n -> bit_at d m = bit_at (data b) m).
  { unfold d. destruct (Z.eqb_spec (div_ceil n 64) (vec_len (data b))); cbn [negb].
    - split; [apply Hb|]. done.
    - split; [apply words_ok_resize, Hb|]. rewrite length_vec_resize by lia. split; [done|].
      intros m Hm. rewrite bit_at_resize by lia. unfold div_ceil.
      destruct (Z.ltb_spec m (64 * ((n + 64 - 1) / 64))) as [|Hge]; [done|].
      exfalso. clear - Hge Hm. Z.to_euclidean_division_equations; lia. }
  destruct Hd as (H1 & H2 & H3). destruct (zeroize_past_end_spec d n Hn H1 H2) as (Hr1 & Hr2 & Hr3).
  split; [done|]. split; [done|]. intros m Hm. rewrite Hr3 by lia.
  destruct (Z.ltb_spec m n); cbn; [|done]. apply H3. lia.
Qed.

(** A range of writes of the same bit. *)
Lemma write_range_spec (f : GrowingBitmap -> Z -> option GrowingBitmap) v b start end_ :
  (forall b n, wf b -> 0 <= n -> exists b', f b n = Some b'
     /\ represents b' (Z.max (len b) (n + 1)) (fun m => if m =? n then v else get b m)) ->
  wf b -> 0 <= start ->
  exists b', for_each f (seqZ start (end_ - start)) b = Some b'
    /\ represents b' (if start <? end_ then Z.max (len b) end_ else len b)
         (fun m => if (start <=? m) && (m <? end_) then v else get b m).
Proof.
  intros Hf Hb Hs. destruct (Z.ltb_spec start end_) as [Hlt|Hge].
  - destruct (for_each_range f
      (fun i b' => represents b' (if start <? i then Z.max (len b) i else len b)
         (fun m => if (start <=? m) && (m <? i) then v else get b m)) start (end_ - start) b)
      as (b' & E & H).
    + lia.
    + rewrite Z.ltb_irrefl. split; [done|]. split; [done|]. intros m Hm.
      destruct (Z.leb_spec start m), (Z.ltb_spec m start); cbn; done || lia.
    + intros i b0 Hi (Hb0 & Hl0 & Hg0).
      destruct (Hf b0 i Hb0 ltac:(lia)) as (b1 & -> & Hb1 & Hl1 & Hg1).
      exists b1. split; [done|]. split; [done|]. split.
      * rewrite Hl1, Hl0. destruct (Z.ltb_spec start i), (Z.ltb_spec start (i + 1)); lia.
      * intros m Hm. rewrite Hg1, Hg0 by lia.
        destruct (Z.eqb_spec m i), (Z.leb_spec start m), (Z.ltb_spec m i),
          (Z.ltb_spec m (i + 1)); cbn; done || lia.
    + exists b'. split; [done|]. replace (start + (end_ - start)) with end_ in H by lia.
      destruct (Z.ltb_spec start end_); [done|lia].
  - rewrite seqZ_nil by lia. exists b. split; [done|]. split; [done|]. split; [done|].
    intros m Hm. destruct (Z.leb_spec start m), (Z.ltb_spec m end_); cbn; done || lia.
Qed.

Lemma set_range_spec b start end_ :
  wf b -> 0 <= start ->
  exists b', set_range b start end_ = Some b'
    /\ represents b' (if start <? end_ then Z.max (len b) end_ else len b)
         (fun m => if (start <=? m) && (m <? end_) then true else get b m).
Proof.
  apply write_range_spec. intros b0 n Hb Hn.
  destruct (set_spec b0 n Hb Hn) as (b' & -> & H). by exists b'.
Qed.

Lemma clear_range_spec b start end_ :
  wf b -> 0 <= start ->
  exists b', clear_range b start end_ = Some b'
    /\ represents b' (if start <? end_ then Z.max (len b) end_ else len b)
         (fun m => if (start <=? m) && (m <? end_) then false else get b m).
Proof.
  apply write_range_spec. intros b0 n Hb Hn.
  destruct (reset_spec b0 n Hb Hn) as (b' & -> & H). by exists b'.
Qed.

(** ** The first index with a property *)

Definition is_first (P : Z -> bool) (start : Z) (r : option Z) : Prop :=
  match r with
  | Some n => start <= n /\ P n = true /\ forall m, start <= m < n -> P m = false
  | None => forall m, start <= m -> P m = false
  end.

Lemma is_first_unique P start r r' : is_first P start r -> is_first P start r' -> r = r'.
Proof.
  destruct r as [n|], r' as [n'|]; cbn; intros H H'; [|exfalso..|done].
  - destruct H as (H1 & H2 & H3), H' as (H1' & H2' & H3'). f_equal.
    destruct (Z.lt_trichotomy n n') as [Hlt|[E|Hlt]]; [|done|].
    + rewrite H3' in H2 by lia. done.
    + rewrite H3 in H2' by lia. done.
  - destruct H as (H1 & H2 & _). rewrite H' in H2 by lia. done.
  - destruct H' as (H1 & H2 & _). rewrite H in H2 by lia. done.
Qed.

Lemma is_first_ext P Q start r :
  (forall m, start <= m -> P m = Q m) -> is_first P start r -> is_first Q start r.
Proof.
  intros H. destruct r as [n|]; cbn.
  - intros (H1 & H2 & H3). rewrite <- H by lia. split; [done|]. split; [done|].
    intros m Hm. rewrite <- H by lia. by apply H3.
  - intros H0 m Hm. rewrite <- H by lia. by apply H0.
Qed.

Lemma trailing_zeros_first w :
  inw 64 w -> w <> 0 ->
  0 <= trailing_zeros 64 w < 64 /\ bit w (trailing_zeros 64 w) = true
  /\ forall j, 0 <= j < trailing_zeros 64 w -> bit w j = false.
Proof.
  intros Hw Hne. destruct (ctz_from_spec 64 0 w) as (H1 & H2 & H3).
  unfold trailing_zeros. change (Z.to_nat 64) with 64%nat. change (Z.of_nat 64) with 64 in *.
  destruct (Z.eq_dec (ctz_from 64 0 w) 64) as [E|E].
  - exfalso. apply Hne. apply Z.eqb_eq. apply (word_zero_bits w Hw). rewrite E in H2. exact H2.
  - split; [lia|]. split; [apply H3; lia|exact H2].
Qed.

Lemma find_nonzero_spec k l :
  match find_nonzero k l with
  | Some (i, v) => k <= i /\ word l (i - k) = v /\ v <> 0 /\ forall j, 0 <= j < i - k -> word l j = 0
  | None => forall j, 0 <= j -> word l j = 0
  end.
Proof.
  revert k. induction l as [|w l IH]; intros k; cbn [find_nonzero].
  { intros j Hj. apply word_past. done. }
  destruct (Z.eqb_spec w 0) as [-> |Hw].
  - specialize (IH (k + 1)). destruct (find_nonzero (k + 1) l) as [[i v]|].
    + destruct IH as (H1 & H2 & H3 & H4). split; [lia|].
      replace (i - k) with (i - (k + 1) + 1) by lia. rewrite word_S_cons by lia.
      split; [done|]. split; [done|]. intros j Hj. destruct (Z.eq_dec j 0) as [-> |Hne]; [done|].
      replace j with (j - 1 + 1) by lia. rewrite word_S_cons by lia. apply H4. lia.
    + intros j Hj. destruct (Z.eq_dec j 0) as [-> |Hne]; [done|].
      replace j with (j - 1 + 1) by lia. rewrite word_S_cons by lia. apply IH. lia.
  - rewrite Z.sub_diag. split; [lia|]. split; [done|]. split; [done|]. intros j Hj. lia.
Qed.

(** The search over a vector of words. *)
Lemma find_bit_spec l :
  words_ok l ->
  is_first (bit_at l) 0
    ('(index, val) ← find_nonzero 0 l; Some (index * 64 + trailing_zeros 64 val)).
Proof.
  intros Hl. pose proof (find_nonzero_spec 0 l) as H.
  destruct (find_nonzero 0 l) as [[i v]|]; cbn -[trailing_zeros].
  - rewrite Z.sub_0_r in H. destruct H as (H1 & H2 & H3 & H4).
    destruct (trailing_zeros_first v) as (T1 & T2 & T3); [rewrite <- H2; by apply word_ok|done|].
    split; [lia|]. rewrite Z.mul_comm, bit_at_word, H2 by lia. split; [done|].
    intros m [Hm Hlt]. revert m Hm Hlt. apply (by_word (fun m => m < _ -> _)).
    intros k j Hk Hj Hlt. rewrite bit_at_word by lia.
    destruct (Z.lt_trichotomy k i) as [Hki|[-> |Hki]]; [|by rewrite H2; apply T3; lia|lia].
    rewrite H4 by lia. apply Z.bits_0.
  - intros m Hm. unfold bit_at. rewrite H by (apply Z.div_pos; lia). apply Z.bits_0.
Qed.

Lemma word_mask_first s l k :
  0 <= s -> 0 <= k ->
  word (mask_first s l) k
    = if k =? 0 then Z.land (word l 0) (unot 64 (Z.ones (s mod 64))) else word l k.
Proof.
  intros Hs Hk. destruct l as [|w l]; cbn [mask_first].
  - rewrite !word_past by (unfold vec_len; cbn; lia). rewrite Z.land_0_l. by destruct (k =? 0).
  - destruct (Z.eqb_spec k 0) as [-> |Hne]; [done|].
    replace k with (k - 1 + 1) by lia. by rewrite !word_S_cons by lia.
Qed.

Lemma words_ok_mask_first s l : 0 <= s -> words_ok l -> words_ok (mask_first s l).
Proof.
  intros Hs Hl. destruct Hl as [|w l Hw Hl]; constructor; [|done].
  pose proof (Z.mod_pos_bound s 64 ltac:(lia)).
  apply inw_land; [lia|done|]. apply unot_inw; [lia|]. apply inw_ones. lia.
Qed.

Lemma words_from_spec l s :
  words_ok l -> 0 <= s ->
  words_ok (words_from l s)
  /\ forall m, 0 <= m ->
       bit_at (words_from l s) m = (s <=? m + 64 * (s / 64)) && bit_at l (m + 64 * (s / 64)).
Proof.
  intros Hl Hs. unfold words_from. assert (Hq : 0 <= s / 64) by (apply Z.div_pos; lia).
  pose proof (Z.div_mod s 64 ltac:(lia)) as E. pose proof (Z.mod_pos_bound s 64 ltac:(lia)) as B.
  split; [by apply words_ok_mask_first, words_ok_drop|].
  apply by_word. intros k j Hk Hj. rewrite bit_at_word, word_mask_first, !word_drop by lia.
  replace (64 * k + j + 64 * (s / 64)) with (64 * (k + s / 64) + j) by lia.
  rewrite bit_at_word by lia. rewrite Z2Nat.id by lia. destruct (Z.eqb_spec k 0) as [-> |Hne].
  - rewrite Z.add_0_l. unfold bit. rewrite Z.land_spec, testbit_unot, testbit_ones by lia. zbool. cbn.
    rewrite andb_comm. f_equal. destruct (Z.ltb_spec j (s mod 64)); zbool; done.
  - by zbool.
Qed.

Lemma find_bit_from l s :
  words_ok l -> 0 <= s ->
  is_first (bit_at l) s
    ('(index, val) ← find_nonzero 0 (words_from l s);
     Some (s / 64 * 64 + index * 64 + trailing_zeros 64 val)).
Proof.
  intros Hl Hs. destruct (words_from_spec l s Hl Hs) as [Hw Hb].
  assert (Hle : 64 * (s / 64) <= s) by (Z.to_euclidean_division_equations; lia).
  assert (Hq : 0 <= s / 64) by (apply Z.div_pos; lia).
  pose proof (find_bit_spec _ Hw) as H.
  destruct (find_nonzero 0 (words_from l s)) as [[i v]|]; cbn -[trailing_zeros] in H |- *.
  - destruct H as (H1 & H2 & H3). rewrite Hb in H2 by lia. apply andb_true_iff in H2.
    destruct H2 as [H2 H2']. apply Z.leb_le in H2. set (n := i * 64 + trailing_zeros 64 v) in *.
    replace (s / 64 * 64 + i * 64 + trailing_zeros 64 v) with (n + 64 * (s / 64)) by (unfold n; lia).
    split; [done|]. split; [done|]. intros m Hm. specialize (H3 (m - 64 * (s / 64)) ltac:(lia)).
    rewrite Hb, Z.sub_add in H3 by lia. destruct (Z.leb_spec s m); [done|lia].
  - intros m Hm. specialize (H (m - 64 * (s / 64)) ltac:(lia)).
    rewrite Hb, Z.sub_add in H by lia. destruct (Z.leb_spec s m); [done|lia].
Qed.

Lemma first_bit_set_spec b : wf b -> is_first (get b) 0 (first_bit_set b).
Proof. intros Hb. apply find_bit_spec, Hb. Qed.

Lemma first_bit_set_from_spec b s :
  wf b -> 0 <= s -> is_first (get b) s (first_bit_set_from b s).
Proof. intros Hb Hs. apply find_bit_from; [apply Hb|done]. Qed.

Lemma words_ok_unot l : words_ok l -> words_ok (unot 64 <$> l).
Proof. intros Hl. apply Forall_fmap. eapply list.Forall_impl; [done|]. intros w Hw. by apply unot_inw. Qed.

Lemma bit_at_unot l m :
  0 <= m < 64 * vec_len l -> bit_at (unot 64 <$> l) m = negb (bit_at l m).
Proof.
  intros [Hm Hlt]. revert m Hm Hlt. apply (by_word (fun m => m < _ -> _)). intros k j Hk Hj Hlt.
  rewrite !bit_at_word, word_fmap by lia. zbool. unfold bit. rewrite testbit_unot by lia. zbool.
  apply xorb_true_r.
Qed.

Lemma first_bit_unset_from_spec b s :
  wf b -> 0 <= s ->
  is_first (fun n => (n <? len b) && negb (get b n)) s (first_bit_unset_from b s).
Proof.
  intros Hb Hs. unfold first_bit_unset_from. pose proof (wf_len b Hb) as Hl.
  pose proof (find_bit_from _ s (words_ok_unot _ (wf_words b Hb)) Hs) as H.
  destruct (find_nonzero 0 _) as [[i v]|]; cbn -[trailing_zeros] in *.
  - set (n := _ + _ + trailing_zeros 64 v) in *. destruct H as (H1 & H2 & H3).
    assert (Hbelow : forall m, s <= m < n -> (m <? len b) && negb (get b m) = false).
    { intros m Hm. destruct (Z.ltb_spec m (len b)); [|done].
      specialize (H3 m Hm). rewrite bit_at_unot in H3 by lia. exact H3. }
    destruct (Z.leb_spec (len b) n) as [E|E]; cbn.
    + intros m Hm. destruct (Z.lt_ge_cases m n); [apply Hbelow; lia|].
      by destruct (Z.ltb_spec m (len b)); [lia|].
    + split; [done|]. split; [|done]. rewrite bit_at_unot in H2 by lia.
      destruct (Z.ltb_spec n (len b)); [exact H2|lia].
  - intros m Hm. destruct (Z.ltb_spec m (len b)); [|done].
    specialize (H m Hm). rewrite bit_at_unot in H by lia. exact H.
Qed.

(** ** The ones of a bitmap *)

Definition ones_in (P : Z -> bool) (lo n : Z) : list Z := filter (fun i => P i) (seqZ lo n).
Definition ones (b : GrowingBitmap) : list Z := ones_in (get b) 0 (len b).

Lemma ones_in_app P lo n k :
  0 <= n -> 0 <= k -> ones_in P lo (n + k) = ones_in P lo n ++ ones_in P (lo + n) k.
Proof. intros Hn Hk. unfold ones_in. by rewrite seqZ_app, list.filter_app by lia. Qed.

Lemma filter_ext_in {A} (P Q : A -> bool) (l : list A) :
  (forall x, x ∈ l -> P x = Q x) -> filter (fun x => P x) l = filter (fun x => Q x) l.
Proof.
  induction l as [|x l IH]; intros H; [done|]. rewrite !list.filter_cons, IH by (intros; apply H; by right).
  rewrite (H x) by (by left). done.
Qed.

Lemma ones_in_ext P Q lo n :
  (forall i, lo <= i < lo + n -> P i = Q i) -> ones_in P lo n = ones_in Q lo n.
Proof. intros H. apply filter_ext_in. intros x Hx%elem_of_seqZ. by apply H. Qed.

Lemma ones_in_nil P lo n : (forall i, lo <= i < lo + n -> P i = false) -> ones_in P lo n = [].
Proof.
  intros H. rewrite (ones_in_ext P (fun _ => false)) by done. unfold ones_in.
  induction (seqZ lo n); [done|]. by rewrite list.filter_cons.
Qed.

Lemma ones_in_0 P lo : ones_in P lo 0 = [].
Proof. done. Qed.

Lemma ones_in_cons P lo n :
  0 < n -> ones_in P lo n = (if P lo then [lo] else []) ++ ones_in P (lo + 1) (n - 1).
Proof.
  intros Hn. unfold ones_in. rewrite seqZ_cons, list.filter_cons by lia.
  rewrite <- Z.add_1_r, <- Z.sub_1_r. by destruct (P lo).
Qed.

Lemma ones_in_shift P d lo n : (fun i => d + i) <$> ones_in (fun i => P (d + i)) lo n = ones_in P (d + lo) n.
Proof.
  unfold ones_in. rewrite <- (fmap_add_seqZ d). induction (seqZ lo n) as [|i l IH]; [done|].
  rewrite fmap_cons, !list.filter_cons.
  destruct (P (d + i)); cbn [fmap list_fmap]; rewrite <- IH; done.
Qed.

Lemma elem_of_ones b n : wf b -> n ∈ ones b <-> 0 <= n /\ get b n = true.
Proof.
  intros Hb. unfold ones, ones_in. rewrite list_elem_of_filter, elem_of_seqZ, Is_true_true.
  split; [by intros (? & ? & _)|]. intros [H1 H2]. split; [done|]. split; [done|].
  destruct (Z.lt_ge_cases n (len b)); [lia|]. by rewrite (wf_clean b Hb) in H2 by lia.
Qed.

(** *** Counting *)

Lemma count_bits_ones n w :
  count_bits n w = Z.of_nat (length (ones_in (bit w) 0 (Z.of_nat n))).
Proof.
  induction n as [|n IH]; [done|]. cbn [count_bits].
  replace (Z.of_nat (S n)) with (Z.of_nat n + 1) by lia. rewrite ones_in_app, length_app, IH by lia.
  rewrite (ones_in_cons _ _ 1) by lia. change (1 - 1) with 0. rewrite ones_in_0.
  rewrite Z.add_0_l. unfold bit. destruct (Z.testbit w (Z.of_nat n)); cbn [b2z app length]; lia.
Qed.

(** The ones of the words of a vector, in order. *)
Fixpoint ones_words (base : Z) (l : list Z) : list Z :=
  match l with
  | [] => []
  | w :: l => ((fun i => base + i) <$> ones_in (bit w) 0 64) ++ ones_words (base + 64) l
  end.

Lemma ones_words_spec base l (P : Z -> bool) :
  (forall m, 0 <= m < 64 * vec_len l -> P (base + m) = bit_at l m) ->
  ones_words base l = ones_in P base (64 * vec_len l).
Proof.
  revert base. unfold vec_len. induction l as [|w l IH]; intros base H; cbn [ones_words length] in *.
  { done. }
  replace (64 * Z.of_nat (S (length l))) with (64 + 64 * Z.of_nat (length l)) in * by lia.
  rewrite ones_in_app by lia. f_equal.
  - pose proof (ones_in_shift P base 0 64) as E. rewrite Z.add_0_r in E. rewrite <- E. f_equal. apply ones_in_ext.
    intros i Hi. rewrite H by lia. rewrite <- (bit_at_word (w :: l) 0) by lia. f_equal.
  - apply IH. intros m Hm. replace (base + 64 + m) with (base + (64 + m)) by lia. rewrite H by lia.
    destruct Hm as [Hm Hlt]. revert m Hm Hlt. apply (by_word (fun m => m < _ -> _)).
    intros k j Hk Hj _. replace (64 + (64 * k + j)) with (64 * (k + 1) + j) by lia.
    by rewrite !bit_at_word, word_S_cons by lia.
Qed.

(** The bits past the length are clear. *)
Lemma ones_words_bitmap b : wf b -> ones_words 0 (data b) = ones b.
Proof.
  intros Hb. pose proof (wf_len b Hb) as Hl. rewrite (ones_words_spec 0 _ (get b)) by done.
  replace (64 * vec_len (data b)) with (len b + (64 * vec_len (data b) - len b)) by lia.
  rewrite ones_in_app by lia. rewrite (ones_in_nil _ (0 + len b)) by (intros i Hi; apply Hb; lia).
  apply app_nil_r.
Qed.

Lemma sum_ones_spec base l : sum_ones l = Z.of_nat (length (ones_words base l)).
Proof.
  revert base. induction l as [|w l IH]; intros base; [done|]. cbn [sum_ones foldr ones_words].
  rewrite length_app, length_fmap. fold (sum_ones l). rewrite (IH (base + 64)).
  unfold Prelude.count_ones. rewrite count_bits_ones. change (Z.of_nat (Z.to_nat 64)) with 64. lia.
Qed.

Lemma count_ones_spec b : wf b -> count_ones b = Z.of_nat (length (ones b)).
Proof. intros Hb. unfold Growing.count_ones. by rewrite (sum_ones_spec 0), ones_words_bitmap. Qed.

Lemma count_bits_unot n w :
  (n <= 64)%nat -> count_bits n (unot 64 w) = Z.of_nat n - count_bits n w.
Proof.
  induction n as [|n IH]; intros Hn; [done|]. cbn [count_bits]. rewrite IH, testbit_unot by lia.
  zbool. destruct (Z.testbit w (Z.of_nat n)); cbn [b2z xorb andb]; lia.
Qed.

Lemma sum_zeros_spec l : sum_zeros l = 64 * vec_len l - sum_ones l.
Proof.
  unfold vec_len. induction l as [|w l IH]; [done|]. cbn [sum_zeros sum_ones foldr length].
  fold (sum_zeros l) (sum_ones l). rewrite IH. unfold Prelude.count_ones. rewrite count_bits_unot by done.
  change (Z.of_nat (Z.to_nat 64)) with 64. lia.
Qed.

Lemma length_ones_bound P lo n : 0 <= n -> Z.of_nat (length (ones_in P lo n)) <= n.
Proof.
  intros Hn. unfold ones_in. etrans; [apply inj_le, length_filter|]. rewrite length_seqZ. lia.
Qed.

(** *** The iterator over the ones *)

Lemma ones_step w :
  inw 64 w -> w <> 0 ->
  let w' := Z.land w (wrap 64 (Z.shiftl (wrap 64 (Z.shiftl (Z.ones 64) (trailing_zeros 64 w))) 1)) in
  inw 64 w' /\ ones_in (bit w) 0 64 = trailing_zeros 64 w :: ones_in (bit w') 0 64.
Proof.
  intros Hw Hne w'. destruct (trailing_zeros_first w Hw Hne) as (T1 & T2 & T3).
  set (t := trailing_zeros 64 w) in *.
  assert (Hw' : forall j, 0 <= j < 64 -> bit w' j = (t <? j) && bit w j).
  { intros j Hj. unfold w', bit. rewrite Z.land_spec, !testbit_wrap, testbit_shiftl by lia.
    rewrite testbit_wrap, testbit_shiftl, testbit_ones by lia. rewrite andb_comm. f_equal.
    destruct (Z.ltb_spec t j); zbool; [done|]. by rewrite !andb_false_r. }
  split; [apply inw_land; [lia|done|]; apply wrap_inw; lia|].
  replace 64 with (t + (64 - t)) by lia. rewrite !ones_in_app by lia.
  rewrite (ones_in_nil (bit w) 0 t) by (intros i Hi; apply T3; lia).
  rewrite (ones_in_nil (bit w') 0 t).
  2: { intros i Hi. rewrite Hw' by lia. by zbool. }
  rewrite !(ones_in_cons _ (0 + t)) by lia. rewrite Z.add_0_l, T2, Hw' by lia.
  rewrite Z.ltb_irrefl. cbn [andb app]. f_equal. apply ones_in_ext.
  intros i Hi. rewrite Hw' by lia. by zbool.
Qed.

(** The steps the iterator needs from a state. *)
Definition ones_cost (l : list Z) (current : Z) : nat :=
  length (ones_in (bit current) 0 64) + length (ones_words 0 l) + length l + 1.

Lemma length_ones_words base base' l : length (ones_words base l) = length (ones_words base' l).
Proof.
  revert base base'. induction l as [|w l IH]; intros base base'; [done|]. cbn [ones_words].
  by rewrite !length_app, !length_fmap, (IH (base + 64) (base' + 64)).
Qed.

Lemma ones_from_spec fuel l base current :
  words_ok l -> inw 64 current -> (ones_cost l current <= fuel)%nat ->
  ones_from fuel l base current
    = Some (((fun i => base + i) <$> ones_in (bit current) 0 64) ++ ones_words (base + 64) l).
Proof.
  revert l base current. unfold ones_cost.
  induction fuel as [|fuel IH]; intros l base current Hl Hc Hf; [lia|]. cbn [ones_from].
  destruct (Z.eqb_spec current 0) as [-> |Hne].
  - rewrite ones_in_nil in * by (intros; apply Z.bits_0). cbn [fmap list_fmap app length] in *.
    destruct l as [|w l]; [done|]. inversion Hl; subst. cbn [ones_words length] in *.
    rewrite length_app, length_fmap, (length_ones_words _ 0) in Hf.
    rewrite IH by (done || lia). done.
  - destruct (ones_step current Hc Hne) as [Hc' E]. cbv zeta. rewrite E in *. cbn [length] in Hf.
    rewrite IH by (done || lia). done.
Qed.

Lemma iter_one_indices_spec b : wf b -> iter_one_indices b = Some (ones b).
Proof.
  intros Hb. pose proof (wf_words b Hb) as Hw. unfold iter_one_indices.
  rewrite <- ones_words_bitmap by done.
  assert (Hcost : forall l, (length (ones_words 0 l) <= 64 * length l)%nat).
  { intros l. rewrite (ones_words_spec 0 l (bit_at l)) by done.
    pose proof (length_ones_bound (bit_at l) 0 (64 * vec_len l)) as H.
    unfold vec_len in *. specialize (H ltac:(lia)). lia. }
  destruct (data b) as [|w l]; [done|]. inversion Hw; subst.
  rewrite ones_from_spec; [done|done|done|]. unfold ones_cost.
  pose proof (length_ones_bound (bit w) 0 64 ltac:(lia)). specialize (Hcost l). cbn [length]. lia.
Qed.

(** *** The iterator over the bits *)

Lemma iter_from_spec n l index :
  words_ok l -> 0 <= index < 64 -> Z.of_nat n + index <= 64 * vec_len l ->
  iter_from n l index = Some ((fun m => bit_at l m) <$> seqZ index (Z.of_nat n)).
Proof.
  revert l index. unfold vec_len.
  induction n as [|n IH]; intros l index Hl Hi Hn; [by rewrite seqZ_nil by lia|].
  cbn [iter_from]. destruct l as [|w l]; [cbn in Hn; lia|]. cbn [length] in Hn. inversion Hl; subst.
  change (arr_get (w :: l) 0) with (Some w). cbn [mbind option_bind].
  rewrite seqZ_cons, fmap_cons by lia. rewrite land_bit_zero, negb_involutive by lia.
  change (bit w index) with (bit (word (w :: l) 0) index). rewrite <- bit_at_word by lia. rewrite Z.mul_0_r, Z.add_0_l.
  replace (Z.pred (Z.of_nat (S n))) with (Z.of_nat n) by lia.
  destruct (Z.leb_spec 64 (index + 1)) as [E|E].
  - change (drop 1 (w :: l)) with l. rewrite IH by (done || lia). cbn [mbind option_bind]. do 2 f_equal.
    replace (Z.succ index) with (64 + 0) by lia. rewrite <- fmap_add_seqZ, <- list_fmap_compose.
    apply list_fmap_ext. intros i m Hm. apply lookup_seqZ in Hm. cbn.
    assert (H0 : 0 <= m) by lia. clear Hm. revert m H0. apply by_word. intros k j Hk Hj.
    replace (64 + (64 * k + j)) with (64 * (k + 1) + j) by lia.
    by rewrite !bit_at_word, word_S_cons by lia.
  - rewrite IH by (done || (cbn [length]; lia)). cbn [mbind option_bind]. do 2 f_equal.
Qed.

Lemma iter_spec b : wf b -> iter b = Some (bits b).
Proof.
  intros Hb. pose proof (wf_len b Hb) as Hl. unfold iter.
  rewrite iter_from_spec; [|apply Hb|lia|lia]. by rewrite Z2Nat.id by lia.
Qed.

Lemma append_spec b b2 :
  wf b -> wf b2 -> exists b', append b b2 = Some b' /\ wf b' /\ bits b' = bits b ++ bits b2.
Proof. intros Hb Hb2. unfold append. rewrite iter_spec by done. by apply extend_spec. Qed.
