(* ===== verification/BitmapSlices.v ===== *)
(** * Views, combinators and changes of a range
    The laws of [BitmapSlice], which every view of a bitmap satisfies: the
    words it yields hold exactly the bits that [get] returns below its length.
    The combinators satisfy the laws too, and the operations of a bitmap with
    a view are those on the sets of their ones.  Last, [modify] of a view
    applies a closure to words that are shifted against those of the bitmap:
    when the closure works bit by bit, exactly the bits of the range change,
    each to the value the closure gives for it. *)

From S2P Require Import Prelude Bitmap BitmapSound.

Import Growing Slices.

(** ** The laws *)

(** The bits of the words of a view. *)
Definition sbit {B} `{BitmapSlice B} (b : B) (n : Z) : bool := bit_at (iter_data b) n.

Class SliceLaws (B : Type) `{BitmapSlice B} (ok : B -> Prop) := {
  law_len : forall b, ok b -> 0 <= slice_len b <= 64 * vec_len (iter_data b);
  law_words : forall b, ok b -> words_ok (iter_data b);
  law_get : forall b n, ok b -> 0 <= n < slice_len b -> slice_get b n = sbit b n;
  law_end : forall b n, ok b -> slice_len b <= n -> sbit b n = false }.

(** A view whose [get] is also right past its length. *)
Definition exact_get {B} `{BitmapSlice B} (b : B) : Prop :=
  forall n, slice_len b <= n -> slice_get b n = false.

#[export] Instance growing_laws : SliceLaws GrowingBitmap wf.
Proof.
  constructor; intros b; [intros Hb; apply Hb..|done|]. intros n Hb Hn. by apply Hb.
Qed.

Lemma bit_at_nil n : bit_at [] n = false.
Proof. unfold bit_at, word, arr_get. destruct (_ <? 0); apply Z.bits_0. Qed.

Lemma bit_at_cons w l n :
  0 <= n -> bit_at (w :: l) n = if n <? 64 then bit w n else bit_at l (n - 64).
Proof.
  revert n. apply by_word. intros k j Hk Hj. rewrite bit_at_word by lia.
  destruct (Z.eq_dec k 0) as [-> |Hne]; zbool.
  - rewrite word_0_cons. f_equal; lia.
  - replace k with (k - 1 + 1) at 1 by lia. rewrite word_S_cons by lia.
    replace (64 * k + j - 64) with (64 * (k - 1) + j) by lia. by rewrite bit_at_word by lia.
Qed.

Lemma bit_at_tl s n : 0 <= n -> bit_at (tl s) n = bit_at s (n + 64).
Proof.
  intros Hn. destruct s as [|w s]; cbn [tl]; [by rewrite !bit_at_nil|].
  rewrite bit_at_cons by lia. zbool. f_equal. lia.
Qed.

Lemma bit_at_hd s n : 0 <= n < 64 -> bit_at s n = bit (hd 0 s) n.
Proof.
  intros Hn. destruct s as [|w s]; cbn [hd]; [rewrite bit_at_nil; symmetry; apply Z.bits_0|].
  rewrite bit_at_cons by lia. by zbool.
Qed.

Lemma bit_at_app l l' n :
  0 <= n -> bit_at (l ++ l') n = if n <? 64 * vec_len l then bit_at l n else bit_at l' (n - 64 * vec_len l).
Proof.
  revert n. unfold vec_len. induction l as [|w l IH]; intros n Hn; cbn [app length].
  - zbool. f_equal. lia.
  - rewrite !bit_at_cons by lia. destruct (Z.ltb_spec n 64); zbool; [done|]. rewrite IH by lia.
    destruct (Z.ltb_spec (n - 64) (64 * Z.of_nat (length l))); zbool; [done|]. f_equal. lia.
Qed.

(** Bits of an operation on words, when it is one on bits. *)
Section Pointwise.
  Context (f : Z -> Z -> Z) (h : bool -> bool -> bool).
  Hypothesis f_bits : forall x y j, 0 <= j < 64 -> bit (f x y) j = h (bit x j) (bit y j).

Lemma bit_at_zip_zeros a b n :
  0 <= n -> bit_at (zip_zeros f a b) n = (n <? 64 * vec_len a) && h (bit_at a n) (bit_at b n).
Proof.
  revert n. apply by_word. intros k j Hk Hj. rewrite !bit_at_word, word_zip_zeros by lia.
  destruct (Z.ltb_spec k (vec_len a)); zbool; [by apply f_bits|]. apply Z.bits_0.
Qed.

Lemma bit_at_zip_with a b n :
  0 <= n ->
  bit_at (zip_with f a b) n
    = (n <? 64 * vec_len a) && (n <? 64 * vec_len b) && h (bit_at a n) (bit_at b n).
Proof.
  revert n. apply by_word. intros k j Hk Hj. rewrite !bit_at_word, word_zip_with by lia.
  destruct (Z.ltb_spec k (vec_len a)), (Z.ltb_spec k (vec_len b)); zbool; cbn;
    first [by apply f_bits | apply Z.bits_0].
Qed.
End Pointwise.

Lemma bit_land x y j : bit (Z.land x y) j = bit x j && bit y j.
Proof. apply Z.land_spec. Qed.
Lemma bit_lor x y j : bit (Z.lor x y) j = bit x j || bit y j.
Proof. apply Z.lor_spec. Qed.
Lemma bit_lxor x y j : bit (Z.lxor x y) j = xorb (bit x j) (bit y j).
Proof. apply Z.lxor_spec. Qed.
Lemma bit_land_unot x y j : 0 <= j < 64 -> bit (Z.land x (unot 64 y)) j = bit x j && negb (bit y j).
Proof.
  intros Hj. unfold bit. rewrite Z.land_spec, testbit_unot by lia. zbool. cbn. by rewrite xorb_true_r.
Qed.

Lemma words_ok_zip_zeros f a b :
  (forall x y, inw 64 x -> inw 64 y -> inw 64 (f x y)) -> words_ok a -> words_ok b ->
  words_ok (zip_zeros f a b).
Proof.
  intros Hf Ha Hb. revert b Hb. induction Ha as [|x a Hx Ha IH]; intros b Hb; [constructor|].
  destruct Hb as [|y b Hy Hb]; constructor; [|apply IH; constructor| |by apply IH]; apply Hf; try done; exact inw_0.
Qed.

Lemma words_ok_zip_with f a b :
  (forall x y, inw 64 x -> inw 64 y -> inw 64 (f x y)) -> words_ok a -> words_ok b ->
  words_ok (zip_with f a b).
Proof.
  intros Hf Ha. revert b. induction Ha as [|x a Hx Ha IH]; intros b Hb; [constructor|].
  destruct Hb as [|y b Hy Hb]; constructor; auto. by apply IH.
Qed.

Lemma inw_land_unot x y : inw 64 x -> inw 64 y -> inw 64 (Z.land x (unot 64 y)).
Proof. intros Hx Hy. apply inw_land; [lia|done|]. apply unot_inw; [lia|done]. Qed.
Lemma inw_land' x y : inw 64 x -> inw 64 y -> inw 64 (Z.land x y).
Proof. intros Hx Hy. apply inw_land; [lia|done|apply Hy]. Qed.
Lemma inw_lor' x y : inw 64 x -> inw 64 y -> inw 64 (Z.lor x y).
Proof. by apply inw_lor. Qed.
Lemma inw_lxor' x y : inw 64 x -> inw 64 y -> inw 64 (Z.lxor x y).
Proof. by apply inw_lxor. Qed.
Create HintDb inw64.
#[export] Hint Resolve inw_land_unot inw_land' inw_lor' inw_lxor' inw_0 : inw64.

(** ** Views *)

Record view_ok (v : BitmapSliceU64) : Prop := {
  view_words : words_ok (s_data v);
  view_offset : 0 <= offset v < 64;
  view_crop : 0 <= crop v < 64;
  view_len : offset v + crop v <= 64 * vec_len (s_data v) }.

Lemma word_imap (f : nat -> Z -> Z) l k :
  0 <= k -> word (imap f l) k = if k <? vec_len l then f (Z.to_nat k) (word l k) else 0.
Proof.
  intros Hk. unfold vec_len. rewrite !word_lookup, list_lookup_imap by lia.
  destruct (Z.ltb_spec k (Z.of_nat (length l))).
  - destruct (lookup_lt_is_Some_2 l (Z.to_nat k)) as [w Hw]; [lia|]. by rewrite Hw.
  - by rewrite lookup_ge_None_2 by lia.
Qed.

Lemma bit_high_mask c j : 0 <= c < 64 -> 0 <= j -> bit (Z.shiftr (Z.ones 64) c) j = (j <? 64 - c).
Proof.
  intros Hc Hj. unfold bit. rewrite testbit_shiftr, testbit_ones by lia. zbool. cbn.
  destruct (Z.ltb_spec (j + c) 64), (Z.ltb_spec j (64 - c)); done || lia.
Qed.

(** The words of a view. *)
Definition view_count (v : BitmapSliceU64) : Z :=
  if (1 <? vec_len (s_data v)) && (64 <=? crop v + offset v)
  then vec_len (s_data v) - 1 else vec_len (s_data v).

Lemma vec_len_create_iter v :
  vec_len (create_iter (s_data v) (offset v) (crop v)) = view_count v.
Proof.
  unfold create_iter, view_count, vec_len. rewrite length_imap, length_take.
  destruct (Z.ltb_spec 1 (Z.of_nat (length (s_data v)))); cbn [andb]; [|lia].
  destruct (_ <=? _); lia.
Qed.

(** A bit of a word that is made of two: the high bits of the first and the
    low bits of the second. *)
Lemma bit_shifted x y o j :
  inw 64 x -> 0 < o < 64 -> 0 <= j < 64 ->
  bit (Z.lor (Z.shiftr x o) (wrap 64 (Z.shiftl y (64 - o)))) j
    = if j <? 64 - o then bit x (j + o) else bit y (j - (64 - o)).
Proof.
  intros Hx Ho Hj. unfold bit.
  rewrite Z.lor_spec, testbit_shiftr, testbit_wrap, testbit_shiftl by lia. zbool.
  destruct (Z.ltb_spec j (64 - o)); zbool; cbn; [apply orb_false_r|].
  by rewrite (testbit_above 64 x) by (done || lia).
Qed.

Lemma create_iter_bits v n :
  view_ok v -> 0 <= n ->
  bit_at (create_iter (s_data v) (offset v) (crop v)) n
    = (n <? slice_len v) && bit_at (s_data v) (n + offset v).
Proof.
  intros [Hd Ho Hc Hl]. revert n. apply by_word. intros k j Hk Hj.
  pose proof (vec_len_create_iter v) as Hcount. rewrite bit_at_word by lia.
  unfold create_iter in *. set (l := take _ _) in *.
  assert (Hlen : vec_len l = view_count v) by (unfold vec_len in *; by rewrite length_imap in Hcount).
  assert (Hwl : k < view_count v -> word l k = word (s_data v) k).
  { intros Hlt. unfold l. rewrite word_take by lia. revert Hlt. unfold view_count, vec_len.
    destruct (_ && _); intros; by zbool. }
  rewrite word_imap by lia. rewrite Hlen. cbn [slice_len u64_slice]. unfold view_count in *.
  unfold vec_len in *. set (N := length (s_data v)) in *.
  destruct (Z.ltb_spec k (if (1 <? Z.of_nat N) && (64 <=? crop v + offset v)
                          then Z.of_nat N - 1 else Z.of_nat N)) as [Hlt|Hge].
  2: { destruct (Z.ltb_spec 1 (Z.of_nat N)), (Z.leb_spec 64 (crop v + offset v)); cbn in Hge;
       zbool; apply Z.bits_0. }
  rewrite Hwl by done. assert (k < Z.of_nat N) by (destruct (_ && _); lia). clear Hlen Hwl Hcount Hlt.
  set (w := word (s_data v) k). assert (Hw : inw 64 w) by by apply word_ok.
  unfold slice_word. cbv zeta. fold N. destruct (Nat.eqb_spec (Z.to_nat k + 1) N) as [E|E].
  - unfold bit at 1. rewrite testbit_shiftr. change (Z.testbit ?x ?y) with (bit x y).
    rewrite bit_land, bit_high_mask by lia. zbool. rewrite andb_true_l, andb_comm.
    replace (64 * k + j <? Z.of_nat N * 64 - offset v - crop v) with (j + offset v <? 64 - crop v)
      by (apply eq_true_iff_eq; rewrite !Z.ltb_lt; lia).
    destruct (Z.ltb_spec (j + offset v) (64 - crop v)); [|done]. cbn.
    replace (64 * k + j + offset v) with (64 * k + (j + offset v)) by lia. by rewrite bit_at_word by lia.
  - destruct (Z.eqb_spec (offset v) 0) as [E0|E0].
    { rewrite E0, Z.add_0_r, bit_at_word by lia. by zbool. }
    rewrite bit_shifted by (done || lia). destruct (Z.ltb_spec j (64 - offset v)).
    { zbool. cbn. replace (64 * k + j + offset v) with (64 * k + (j + offset v)) by lia.
      by rewrite bit_at_word by lia. }
    replace (64 * k + j + offset v) with (64 * (k + 1) + (j - (64 - offset v))) by lia.
    rewrite bit_at_word, bit_land by lia. rewrite Z2Nat.id by lia.
    destruct (Nat.eqb_spec (Z.to_nat k + 2) N) as [E2|E2].
    + rewrite bit_high_mask, andb_comm by lia. f_equal. apply eq_true_iff_eq. rewrite !Z.ltb_lt. lia.
    + unfold bit at 2. rewrite testbit_ones by lia. zbool. cbn. by rewrite andb_true_r.
Qed.

#[export] Instance u64_laws : SliceLaws BitmapSliceU64 view_ok.
Proof.
  constructor; intros v.
  - intros [Hd Ho Hc Hl]. cbn. rewrite vec_len_create_iter. unfold view_count.
    destruct (Z.ltb_spec 1 (vec_len (s_data v))), (Z.leb_spec 64 (crop v + offset v)); cbn; lia.
  - intros Hv. apply words_ok_word. intros k.
    destruct (Z.lt_ge_cases k 0) as [Hk|Hk].
    { unfold word, arr_get. destruct (Z.ltb_spec k 0); [exact inw_0|lia]. }
    cbn. unfold create_iter. rewrite word_imap by lia. destruct (_ <? _); [|exact inw_0].
    destruct Hv as [Hd Ho Hc Hl]. set (w := word _ k).
    assert (Hw : inw 64 w) by by apply word_ok, words_ok_take.
    unfold slice_word. cbv zeta.
    destruct (Nat.eqb _ _); [|destruct (_ =? 0); [done|]].
    + apply inw_shiftr; [lia|lia|]. apply inw_land; [lia|done|]. apply Z.shiftr_nonneg, ones_nonneg. lia.
    + apply inw_lor; [lia|by apply inw_shiftr; [lia|lia|]|]. apply wrap_inw. lia.
  - intros n Hv Hn. unfold sbit. cbn [iter_data u64_slice]. rewrite create_iter_bits by (done || lia).
    by destruct (Z.ltb_spec n (slice_len v)); [|lia].
  - intros n Hv Hn. unfold sbit. cbn [iter_data u64_slice].
    assert (0 <= slice_len v) by (cbn; destruct Hv; lia).
    rewrite create_iter_bits by (done || lia). by destruct (Z.ltb_spec n (slice_len v)); [lia|].
Qed.

(** A view of a range of a bitmap. *)
Lemma slice_spec b start end_ :
  wf b -> 0 <= start <= end_ -> end_ <= len b ->
  exists v, slice b start end_ = Some v /\ view_ok v /\ slice_len v = end_ - start
    /\ forall n, 0 <= n < end_ - start -> sbit v n = get b (start + n).
Proof.
  intros Hb Hs He. pose proof (wf_len b Hb) as Hl. unfold slice, word_range.
  destruct (Z.eqb_spec start end_) as [<- |Hne].
  { eexists; split; [reflexivity|]. split; [constructor; [constructor|done..]|].
    cbn. split; [unfold vec_len; cbn; lia|]. intros n Hn. lia. }
  set (r := if negb (end_ mod 64 =? 0) then _ else _).
  pose proof (Z.div_mod start 64 ltac:(lia)). pose proof (Z.mod_pos_bound start 64 ltac:(lia)).
  pose proof (Z.div_mod end_ 64 ltac:(lia)). pose proof (Z.mod_pos_bound end_ 64 ltac:(lia)).
  assert (exists ei c, r = (start / 64, ei, c) /\ 64 * ei - c = end_ /\ 0 <= c < 64) as (ei & c & -> & Hei & Hc).
  { unfold r. destruct (Z.eqb_spec (end_ mod 64) 0); cbn [negb]; do 2 eexists; split; [reflexivity|lia|reflexivity|lia]. }
  destruct (Z.leb_spec (start / 64) ei); [|lia]. destruct (Z.leb_spec ei (vec_len (data b))); [|lia].
  cbn -[Z.div Z.modulo Z.mul]. eexists; split; [reflexivity|].
  set (v := SliceU64 _ _ _).
  assert (Hn : vec_len (s_data v) = ei - start / 64).
  { unfold v, vec_len in *. cbn. rewrite length_take, length_drop. lia. }
  assert (Hv : view_ok v).
  { constructor; [apply words_ok_take, words_ok_drop, Hb|done|done|]. rewrite Hn.
    change (offset v) with (start mod 64). change (crop v) with c. lia. }
  assert (Hlen : slice_len v = end_ - start).
  { cbn [slice_len u64_slice]. rewrite Hn.
    change (offset v) with (start mod 64). change (crop v) with c. lia. }
  split; [done|]. split; [done|]. intros n Hn'. unfold sbit. cbn [iter_data u64_slice].
  rewrite create_iter_bits by (done || lia). rewrite Hlen. zbool. rewrite andb_true_l.
  change (offset v) with (start mod 64). unfold v. cbn [s_data].
  rewrite bit_at_take, bit_at_drop by lia. rewrite !Z2Nat.id by lia. zbool.
  rewrite andb_true_l. unfold get. f_equal. lia.
Qed.

(** ** Combinators *)

Lemma word_zip_longest f a b k :
  (forall x, f x 0 = x) -> (forall y, f 0 y = y) -> 0 <= k ->
  word (zip_longest f a b) k = f (word a k) (word b k).
Proof.
  intros Hr Hl. revert b k. induction a as [|x a IH]; intros [|y b] k Hk; cbn [zip_longest].
  - by rewrite word_past, Hr by (unfold vec_len; cbn; lia).
  - by rewrite (word_past []), Hl by (unfold vec_len; cbn; lia).
  - by rewrite (word_past []), Hr by (unfold vec_len; cbn; lia).
  - destruct (Z.eq_dec k 0) as [-> |Hne]; [done|]. replace k with (k - 1 + 1) by lia.
    rewrite !word_S_cons by lia. apply IH. lia.
Qed.

Lemma length_zip_longest f a b : length (zip_longest f a b) = Nat.max (length a) (length b).
Proof. revert b. induction a as [|x a IH]; intros [|y b]; cbn; auto. Qed.

Lemma words_ok_zip_longest f a b :
  (forall x y, inw 64 x -> inw 64 y -> inw 64 (f x y)) -> words_ok a -> words_ok b ->
  words_ok (zip_longest f a b).
Proof.
  intros Hf Ha. revert b. induction Ha as [|x a Hx Ha IH]; intros [|y b] Hb; cbn; try done.
  - by constructor.
  - inversion Hb; subst. constructor; [by apply Hf|]. by apply IH.
Qed.

Lemma bit_at_zip_longest f h a b n :
  (forall x, f x 0 = x) -> (forall y, f 0 y = y) ->
  (forall x y j, bit (f x y) j = h (bit x j) (bit y j)) -> 0 <= n ->
  bit_at (zip_longest f a b) n = h (bit_at a n) (bit_at b n).
Proof.
  intros Hr Hl Hf Hn. unfold bit_at. rewrite word_zip_longest by (done || apply Z.div_pos; lia). apply Hf.
Qed.

Lemma bit_unot_low w m : 0 <= m < 64 -> bit (unot 64 w) m = negb (bit w m).
Proof. intros Hm. unfold bit. rewrite testbit_unot by lia. zbool. apply xorb_true_r. Qed.

(** With the exact number of words, the words of a flipped view have no bit
    past the end. *)
Lemma bit_at_flip_words r l m :
  0 <= m -> 0 <= r <= 64 * vec_len l -> 64 * vec_len l < r + 64 ->
  bit_at (flip_words r l) m = (m <? r) && negb (bit_at l m).
Proof.
  revert r m. unfold vec_len.
  induction l as [|w l IH]; intros r m Hm Hr Hlt; cbn [flip_words length] in *.
  { rewrite bit_at_nil. by destruct (Z.ltb_spec m r); [lia|]. }
  rewrite (bit_at_cons w) by lia. destruct (Z.leb_spec 64 r).
  - rewrite bit_at_cons by lia. destruct (Z.ltb_spec m 64).
    + rewrite bit_unot_low by lia. by zbool.
    + rewrite IH by lia. f_equal. apply eq_true_iff_eq. rewrite !Z.ltb_lt. lia.
  - destruct l as [|w' l]; [|cbn [length] in *; lia]. cbn [flip_words].
    rewrite bit_at_cons, !bit_at_nil by lia. destruct (Z.ltb_spec m 64).
    + rewrite bit_land, bit_unot_low, andb_comm by lia. f_equal.
      unfold bit. rewrite testbit_ones by lia. by zbool.
    + by destruct (Z.ltb_spec m r); [lia|].
Qed.

Lemma words_ok_flip_words r l : 0 <= r -> words_ok l -> words_ok (flip_words r l).
Proof.
  intros Hr Hl. revert r Hr. induction Hl as [|w l Hw Hl IH]; intros r Hr; [constructor|].
  cbn [flip_words]. destruct (Z.leb_spec 64 r); constructor; try (apply IH; lia).
  - by apply unot_inw.
  - apply inw_land; [lia|by apply unot_inw|]. apply ones_nonneg. lia.
Qed.

Section Combinators.
  Context {A B : Type} `{LA : SliceLaws A okA} `{LB : SliceLaws B okB}.

Definition and_ok (v : AndWith A B) : Prop := let '(MkAndWith a b) := v in okA a /\ okB b.
Definition or_ok (v : OrWith A B) : Prop :=
  let '(MkOrWith a b) := v in okA a /\ okB b /\ exact_get a /\ exact_get b.
Definition xor_ok (v : XorWith A B) : Prop :=
  let '(MkXorWith a b) := v in okA a /\ okB b /\ exact_get a /\ exact_get b.
Definition clear_ok (v : ClearFrom A B) : Prop :=
  let '(MkClearFrom a b) := v in okA a /\ okB b /\ exact_get b.
Definition flipped_ok (v : Flipped A) : Prop :=
  let '(MkFlipped a) := v in okA a /\ 64 * vec_len (iter_data a) < slice_len a + 64.

(** Below and past the length, [get] is the bit of the words. *)
Lemma get_sbit (a : A) n : okA a -> exact_get a -> 0 <= n -> slice_get a n = sbit a n.
Proof using LA.
  intros Ha He Hn. destruct (Z.lt_ge_cases n (slice_len a)); [apply (law_get a n Ha); lia|].
  by rewrite He, (law_end a) by done.
Qed.
End Combinators.

#[export] Instance and_laws {A B okA okB} `{LA : SliceLaws A okA} `{LB : SliceLaws B okB} :
  SliceLaws (AndWith A B) (and_ok (okA := okA) (okB := okB)).
Proof.
  constructor; intros [a b].
  - intros [Ha Hb]. pose proof (law_len a Ha). pose proof (law_len b Hb). cbn.
    unfold vec_len in *. rewrite length_zip_with. lia.
  - intros [Ha Hb]. cbn. apply words_ok_zip_with; eauto with inw64; by apply law_words.
  - intros n [Ha Hb] Hn. cbn in *. unfold sbit. cbn.
    rewrite (bit_at_zip_with Z.land andb) by (done || lia || (intros; apply bit_land)).
    pose proof (law_len a Ha). pose proof (law_len b Hb). zbool. cbn.
    f_equal; apply law_get; done || lia.
  - intros n [Ha Hb] Hn. cbn in *. unfold sbit. cbn. pose proof (law_len a Ha). pose proof (law_len b Hb).
    rewrite (bit_at_zip_with Z.land andb) by (done || lia || (intros; apply bit_land)).
    change (bit_at (iter_data a) n) with (sbit a n). change (bit_at (iter_data b) n) with (sbit b n).
    destruct (Z.lt_ge_cases n (slice_len a)).
    + rewrite (law_end b n Hb) by lia. by rewrite !andb_false_r.
    + rewrite (law_end a n Ha) by lia. by rewrite !andb_false_r.
Qed.

#[export] Instance or_laws {A B okA okB} `{LA : SliceLaws A okA} `{LB : SliceLaws B okB} :
  SliceLaws (OrWith A B) (or_ok (okA := okA) (okB := okB)).
Proof.
  constructor; intros [a b].
  - intros (Ha & Hb & _). pose proof (law_len a Ha). pose proof (law_len b Hb). cbn.
    unfold vec_len in *. rewrite length_zip_longest. lia.
  - intros (Ha & Hb & _). cbn. apply words_ok_zip_longest; eauto with inw64; by apply law_words.
  - intros n (Ha & Hb & Ea & Eb) Hn. cbn in *. unfold sbit. cbn.
    rewrite (bit_at_zip_longest Z.lor orb);
      [|apply Z.lor_0_r|apply Z.lor_0_l|apply bit_lor|lia].
    f_equal; apply get_sbit; done || lia.
  - intros n (Ha & Hb & _) Hn. cbn in *. unfold sbit. cbn.
    pose proof (law_len a Ha). pose proof (law_len b Hb).
    rewrite (bit_at_zip_longest Z.lor orb);
      [|apply Z.lor_0_r|apply Z.lor_0_l|apply bit_lor|lia].
    change (sbit a n || sbit b n = false). by rewrite (law_end a n Ha), (law_end b n Hb) by lia.
Qed.

#[export] Instance xor_laws {A B okA okB} `{LA : SliceLaws A okA} `{LB : SliceLaws B okB} :
  SliceLaws (XorWith A B) (xor_ok (okA := okA) (okB := okB)).
Proof.
  constructor; intros [a b].
  - intros (Ha & Hb & _). pose proof (law_len a Ha). pose proof (law_len b Hb). cbn.
    unfold vec_len in *. rewrite length_zip_longest. lia.
  - intros (Ha & Hb & _). cbn. apply words_ok_zip_longest; eauto with inw64; by apply law_words.
  - intros n (Ha & Hb & Ea & Eb) Hn. cbn in *. unfold sbit. cbn.
    rewrite (bit_at_zip_longest Z.lxor xorb);
      [|apply Z.lxor_0_r|apply Z.lxor_0_l|apply bit_lxor|lia].
    f_equal; apply get_sbit; done || lia.
  - intros n (Ha & Hb & _) Hn. cbn in *. unfold sbit. cbn.
    pose proof (law_len a Ha). pose proof (law_len b Hb).
    rewrite (bit_at_zip_longest Z.lxor xorb);
      [|apply Z.lxor_0_r|apply Z.lxor_0_l|apply bit_lxor|lia].
    change (xorb (sbit a n) (sbit b n) = false). by rewrite (law_end a n Ha), (law_end b n Hb) by lia.
Qed.

#[export] Instance clear_laws {A B okA okB} `{LA : SliceLaws A okA} `{LB : SliceLaws B okB} :
  SliceLaws (ClearFrom A B) (clear_ok (okA := okA) (okB := okB)).
Proof.
  constructor; intros [a b].
  - intros (Ha & _). pose proof (law_len a Ha). cbn. unfold vec_len in *. rewrite length_zip_zeros. lia.
  - intros (Ha & Hb & _). cbn. apply words_ok_zip_zeros; eauto with inw64; by apply law_words.
  - intros n (Ha & Hb & Eb) Hn. cbn in *. unfold sbit. cbn. pose proof (law_len a Ha).
    rewrite (bit_at_zip_zeros _ (fun x y => x && negb y)) by (intros; (by apply bit_land_unot) || lia).
    zbool. cbn. f_equal; [apply law_get; done || lia|]. f_equal. apply get_sbit; done || lia.
  - intros n (Ha & Hb & _) Hn. cbn in *. unfold sbit. cbn. pose proof (law_len a Ha).
    rewrite (bit_at_zip_zeros _ (fun x y => x && negb y)) by (intros; (by apply bit_land_unot) || lia).
    change (bit_at (iter_data a) n) with (sbit a n). rewrite (law_end a n Ha) by lia. apply andb_false_r.
Qed.

#[export] Instance flipped_laws {A okA} `{LA : SliceLaws A okA} :
  SliceLaws (Flipped A) (flipped_ok (okA := okA)).
Proof.
  assert (Hlen : forall r l, length (flip_words r l) = length l).
  { intros r l. revert r. induction l; intros r; cbn; [done|]. destruct (_ <=? _); cbn; auto. }
  constructor; intros [a].
  - intros [Ha He]. pose proof (law_len a Ha). cbn. unfold vec_len in *. rewrite Hlen. lia.
  - intros [Ha He]. pose proof (law_len a Ha). cbn. apply words_ok_flip_words; [lia|by apply law_words].
  - intros n [Ha He] Hn. pose proof (law_len a Ha). cbn in *. unfold sbit. cbn.
    rewrite bit_at_flip_words by lia. zbool. cbn. f_equal. by apply law_get.
  - intros n [Ha He] Hn. pose proof (law_len a Ha). cbn in *. unfold sbit. cbn.
    rewrite bit_at_flip_words by lia. by zbool.
Qed.

(** ** Operations of a bitmap with a view *)

Lemma any_changed_spec a a' :
  length a' = length a -> any_changed a a' = false <-> a' = a.
Proof.
  revert a'. unfold any_changed. induction a as [|x a IH]; intros [|x' a'] Hl; try done; cbn in *.
  rewrite orb_false_iff, negb_false_iff, Z.eqb_eq, (IH a') by lia.
  split; [by intros [-> ->]|by intros [= -> ->]].
Qed.

(** [changed] says whether some bit is another one. *)
Lemma any_changed_bits a a' :
  length a' = length a -> words_ok a -> words_ok a' ->
  any_changed a a' = false <-> forall m, 0 <= m -> bit_at a' m = bit_at a m.
Proof.
  intros Hl Ha Ha'. rewrite any_changed_spec by done. split; [by intros ->|]. intros H.
  apply list_eq_same_length with (length a); [done|done|]. intros i x y Hi Hx Hy.
  assert (Hwx : word a' (Z.of_nat i) = x) by (rewrite word_lookup, Nat2Z.id, Hx by lia; done).
  assert (Hwy : word a (Z.of_nat i) = y) by (rewrite word_lookup, Nat2Z.id, Hy by lia; done).
  rewrite <- Hwx, <- Hwy. apply word_bits_eq; [by apply word_ok..|]. intros j Hj.
  specialize (H (64 * Z.of_nat i + j) ltac:(lia)). by rewrite !bit_at_word in H by lia.
Qed.

Section WithView.
  Context {B : Type} `{L : SliceLaws B ok}.

Lemma and_with_spec b (rhs : B) :
  wf b -> ok rhs ->
  represents (snd (and_with b rhs)) (len b) (fun m => get b m && sbit rhs m)
  /\ (fst (and_with b rhs) = false
      <-> forall m, 0 <= m -> get (snd (and_with b rhs)) m = get b m).
Proof using L.
  intros Hb Hr. pose proof (wf_len b Hb) as Hl. unfold and_with. cbn [fst snd].
  assert (Hw : words_ok (zip_zeros Z.land (data b) (iter_data rhs))).
  { apply words_ok_zip_zeros; eauto with inw64; [apply Hb|by apply law_words]. }
  split.
  - apply represents_intro; [| done | |].
    + unfold vec_len in *. rewrite length_zip_zeros. lia.
    + intros m Hm. rewrite (bit_at_zip_zeros Z.land andb) by (done || lia || (intros; apply bit_land)).
      destruct (Z.ltb_spec m (64 * vec_len (data b))); [done|].
      unfold get. by rewrite bit_at_past by lia.
    + intros m Hm. by rewrite (wf_clean b Hb) by lia.
  - apply any_changed_bits; [apply length_zip_zeros|apply Hb|done].
Qed.

(** An [or] of words that cover the view. *)
Lemma bit_at_or d (rhs : B) m :
  ok rhs -> 0 <= m -> slice_len rhs <= 64 * vec_len d ->
  bit_at (zip_zeros Z.lor d (iter_data rhs)) m = bit_at d m || sbit rhs m.
Proof using L.
  intros Hr Hm Hl. rewrite (bit_at_zip_zeros Z.lor orb) by (done || lia || (intros; apply bit_lor)).
  destruct (Z.ltb_spec m (64 * vec_len d)); [done|]. rewrite bit_at_past by lia.
  symmetry. apply (law_end rhs m Hr). lia.
Qed.

Lemma or_words_spec b0 b n f (rhs : B) :
  represents b0 n f -> ok rhs -> slice_len rhs <= n ->
  b = Growing (zip_zeros Z.lor (data b0) (iter_data rhs)) (len b0) ->
  represents b n (fun m => f m || sbit rhs m).
Proof using L.
  intros (Hb & Hn & Hf) Hr Hl ->. pose proof (wf_len b0 Hb) as Hlen. rewrite Hn in *.
  apply represents_intro.
  - unfold vec_len in *. rewrite length_zip_zeros. lia.
  - apply words_ok_zip_zeros; eauto with inw64; [apply Hb|by apply law_words].
  - intros m Hm. rewrite bit_at_or by (done || lia). f_equal. by apply Hf.
  - intros m Hm. rewrite <- Hf, (law_end rhs m Hr), (wf_clean b0 Hb) by lia. done.
Qed.

(** One of the two must not be empty: see [or_with_empty_panics]. *)
Lemma or_with_spec b (rhs : B) :
  wf b -> ok rhs -> 1 <= Z.max (len b) (slice_len rhs) ->
  exists changed b', or_with b rhs = Some (changed, b')
    /\ represents b' (Z.max (len b) (slice_len rhs)) (fun m => get b m || sbit rhs m)
    /\ (changed = false <-> forall m, 0 <= m -> get b' m = get b m).
Proof using L.
  intros Hb Hr Hne. unfold or_with. destruct (Z.leb_spec 1 (Z.max (len b) (slice_len rhs))); [|lia].
  cbn [assert mbind option_bind]. set (n := Z.max _ _) in *.
  destruct (internal_resize_spec b (n - 1) Hb) as [Hres _]; [lia|unfold n; lia|].
  replace (n - 1 + 1) with n in Hres by lia. set (b0 := internal_resize _ _ _) in *.
  do 2 eexists; split; [reflexivity|]. split.
  - eapply or_words_spec; [exact Hres|done|unfold n; lia|done].
  - destruct Hres as (Hb0 & Hn0 & Hf0).
    rewrite any_changed_bits; [|apply length_zip_zeros|apply Hb0|].
    + unfold get at 1. cbn [data]. split; intros Hx m Hm; rewrite Hx by lia;
        [|symmetry]; by apply Hf0.
    + apply words_ok_zip_zeros; eauto with inw64; [apply Hb0|by apply law_words].
Qed.

Lemma clear_from_spec b (rhs : B) :
  wf b -> ok rhs ->
  represents (clear_from b rhs) (len b) (fun m => get b m && negb (sbit rhs m)).
Proof using L.
  intros Hb Hr. pose proof (wf_len b Hb) as Hl. unfold clear_from. pose proof (law_words rhs Hr) as Hw.
  apply represents_intro.
  - unfold vec_len in *. rewrite length_zip_keep. lia.
  - apply words_ok_word. intros k. destruct (Z.lt_ge_cases k 0) as [Hk|Hk].
    { unfold word, arr_get. destruct (Z.ltb_spec k 0); [exact inw_0|lia]. }
    rewrite word_zip_keep by lia. destruct (_ && _); [|apply word_ok, Hb].
    apply inw_land_unot; by apply word_ok, Hb || apply word_ok.
  - apply by_word. intros k j Hk Hj. rewrite bit_at_word, word_zip_keep by lia.
    unfold get, sbit. rewrite !bit_at_word by lia.
    destruct (Z.ltb_spec k (vec_len (data b))); cbn.
    + destruct (Z.ltb_spec k (vec_len (iter_data rhs))); [by apply bit_land_unot|].
      rewrite (word_past (iter_data rhs)) by lia. unfold bit at 3. by rewrite Z.bits_0, andb_true_r.
    + rewrite (word_past (data b)) by lia. unfold bit at 1 2. by rewrite Z.bits_0.
  - intros m Hm. by rewrite (wf_clean b Hb) by lia.
Qed.

Lemma overlaps_with_spec b (rhs : B) :
  wf b -> ok rhs ->
  overlaps_with b rhs = true <-> exists m, 0 <= m /\ get b m = true /\ sbit rhs m = true.
Proof using L.
  intros Hb Hr. unfold overlaps_with. pose proof (law_words rhs Hr) as Hw.
  pose proof (wf_words b Hb) as Hd. unfold get, sbit. generalize (iter_data rhs) Hw. clear Hw.
  induction Hd as [|x d Hx Hd IH]; intros l Hl.
  - split; [done|]. intros (m & Hm & H1 & _). by rewrite bit_at_nil in H1.
  - destruct Hl as [|y l Hy Hl].
    { split; [done|]. intros (m & Hm & _ & H1). by rewrite bit_at_nil in H1. }
    cbn [zip zip_with existsb]. rewrite orb_true_iff, IH by done. split.
    + intros [H0|(m & Hm & H1 & H2)].
      * assert (Hj : exists j, 0 <= j < 64 /\ bit (Z.land x y) j = true).
        { destruct (trailing_zeros_first (Z.land x y)) as (T1 & T2 & _).
          - by apply inw_land'.
          - intros E. by rewrite E in H0.
          - by eexists. }
        destruct Hj as (j & Hj & Hb1). rewrite bit_land, andb_true_iff in Hb1.
        exists j. rewrite !bit_at_cons by lia. zbool. split; [lia|done].
      * exists (m + 64). rewrite !bit_at_cons by lia. zbool.
        replace (m + 64 - 64) with m by lia. split; [lia|done].
    + intros (m & Hm & H1 & H2). rewrite !bit_at_cons in * by lia. destruct (Z.ltb_spec m 64).
      * left. destruct (Z.eqb_spec (Z.land x y) 0) as [E|]; [|done].
        apply (f_equal (fun z => bit z m)) in E. rewrite bit_land, H1, H2 in E.
        unfold bit in E. by rewrite Z.bits_0 in E.
      * right. exists (m - 64). split; [lia|done].
Qed.
End WithView.

(** [subset | whole == whole] on words, where the subset has all words. *)
Lemma forallb_subset a b :
  words_ok a -> words_ok b ->
  forallb (fun '(x, y) => Z.lor x y =? x) (zip a b) = true
  <-> forall m, 0 <= m < 64 * Z.min (vec_len a) (vec_len b) -> bit_at b m = true -> bit_at a m = true.
Proof.
  intros Ha. revert b. unfold vec_len. induction Ha as [|x a Hx Ha IH]; intros b Hb.
  { cbn. split; [intros _ m Hm; lia|done]. }
  destruct Hb as [|y b Hy Hb]; [cbn; split; [intros _ m Hm; lia|done]|].
  cbn [zip zip_with forallb length]. rewrite andb_true_iff, IH, Z.eqb_eq by done. split.
  - intros [E H] m Hm. rewrite !bit_at_cons by lia. destruct (Z.ltb_spec m 64).
    + intros Hy1. rewrite <- E, bit_lor, Hy1. apply orb_true_r.
    + apply H. lia.
  - intros H. split.
    + apply word_bits_eq; [by apply inw_lor'|done|]. intros j Hj. rewrite bit_lor.
      specialize (H j ltac:(lia)). rewrite !bit_at_cons in H by lia. zbool.
      assert (Ej : (j <? 64) = true) by (apply Z.ltb_lt; lia). rewrite Ej in H.
      destruct (bit x j), (bit y j); cbn; try done. symmetry. by apply H.
    + intros m Hm H1. specialize (H (m + 64) ltac:(lia)). rewrite !bit_at_cons in H by lia.
      assert (Ej : (m + 64 <? 64) = false) by (apply Z.ltb_ge; lia). rewrite Ej in H.
      replace (m + 64 - 64) with m in H by lia. by apply H.
Qed.

Lemma is_superset_of_spec b other :
  wf b -> wf other ->
  is_superset_of b other = true <-> forall m, 0 <= m -> get other m = true -> get b m = true.
Proof.
  intros Hb Ho. pose proof (wf_len b Hb) as Hl. pose proof (wf_len other Ho) as Hlo. unfold is_superset_of.
  pose proof (first_bit_set_from_spec other (len b) Ho ltac:(lia)) as Hf.
  destruct (Z.ltb_spec (len b) (len other)); cbn [andb].
  - destruct (first_bit_set_from other (len b)) as [n|]; cbn in Hf.
    + split; [done|]. intros H0. destruct Hf as (Hn & Hg & _).
      specialize (H0 n ltac:(lia) Hg). by rewrite (wf_clean b Hb) in H0 by lia.
    + rewrite forallb_subset by (apply Hb || apply Ho). unfold get. split.
      * intros H0 m Hm Hg. apply H0; [|done]. destruct (Z.lt_ge_cases m (len b)); [lia|].
        unfold get in Hf. by rewrite Hf in Hg by lia.
      * intros H0 m Hm. apply H0. lia.
  - rewrite forallb_subset by (apply Hb || apply Ho). unfold get. split.
    + intros H0 m Hm Hg. apply H0; [|done].
      destruct (Z.lt_ge_cases m (len other)) as [|Hge]; [lia|].
      pose proof (wf_clean other Ho m Hge) as Hc. unfold get in Hc. by rewrite Hc in Hg.
    + intros H0 m Hm. apply H0. lia.
Qed.

(** ** The operators *)

Lemma bitand_spec b rhs :
  wf b -> wf rhs ->
  represents (bitand b rhs) (Z.min (len b) (len rhs)) (fun m => get b m && get rhs m).
Proof.
  intros Hb Hr. pose proof (wf_len b Hb). pose proof (wf_len rhs Hr). unfold bitand. apply represents_intro.
  - unfold vec_len in *. rewrite length_zip_with. lia.
  - apply words_ok_zip_with; eauto with inw64; apply Hb || apply Hr.
  - intros m Hm. rewrite (bit_at_zip_with Z.land andb) by (done || lia || (intros; apply bit_land)).
    destruct (Z.ltb_spec m (64 * vec_len (data b))), (Z.ltb_spec m (64 * vec_len (data rhs)));
      cbn; try done; unfold get; first [by rewrite (bit_at_past (data b)) by lia
                                       | by rewrite (bit_at_past (data rhs)), andb_false_r by lia].
  - intros m Hm. destruct (Z.lt_ge_cases m (len b)).
    + by rewrite (wf_clean rhs Hr), andb_false_r by lia.
    + by rewrite (wf_clean b Hb) by lia.
Qed.

Lemma bitand_assign_spec b rhs :
  wf b -> wf rhs -> represents (bitand_assign b rhs) (len b) (fun m => get b m && get rhs m).
Proof. intros Hb Hr. destruct (and_with_spec b rhs Hb Hr) as [H _]. exact H. Qed.

Lemma bitor_spec b rhs :
  wf b -> wf rhs ->
  represents (bitor b rhs) (Z.max (len b) (len rhs)) (fun m => get b m || get rhs m).
Proof.
  intros Hb Hr. pose proof (wf_len b Hb). pose proof (wf_len rhs Hr). unfold bitor.
  set (n := Z.max (vec_len (data b)) (vec_len (data rhs))).
  assert (Hn : 0 <= n) by (unfold n, vec_len; lia).
  assert (Hw : forall k, 0 <= k ->
    word ((fun k => Z.lor (word (data b) k) (word (data rhs) k)) <$> seqZ 0 n) k
    = Z.lor (word (data b) k) (word (data rhs) k)).
  { intros k Hk. rewrite (word_lookup _ k), list_lookup_fmap by lia. destruct (Z.lt_ge_cases k n).
    - rewrite lookup_seqZ_lt by lia. cbn. f_equal; f_equal; lia.
    - rewrite lookup_seqZ_ge by lia. cbn. by rewrite !word_past by (unfold n in *; lia). }
  apply represents_intro.
  - unfold vec_len at 1. rewrite length_fmap, length_seqZ. unfold n in *. lia.
  - apply words_ok_word. intros k. destruct (Z.lt_ge_cases k 0) as [Hk|Hk].
    { unfold word at 1, arr_get. destruct (Z.ltb_spec k 0); [exact inw_0|lia]. }
    rewrite Hw by lia. apply inw_lor'; apply word_ok; apply Hb || apply Hr.
  - apply by_word. intros k j Hk Hj. rewrite bit_at_word, Hw, bit_lor by lia.
    unfold get. by rewrite !bit_at_word by lia.
  - intros m Hm. by rewrite (wf_clean b Hb), (wf_clean rhs Hr) by lia.
Qed.

Lemma bitor_assign_spec b rhs :
  wf b -> wf rhs ->
  represents (bitor_assign b rhs) (Z.max (len b) (len rhs)) (fun m => get b m || get rhs m).
Proof.
  intros Hb Hr. pose proof (wf_len rhs Hr) as Hlr. unfold bitor_assign.
  assert (H : represents (if len b <? len rhs then resize b (len rhs) else b)
                (Z.max (len b) (len rhs)) (get b)).
  { destruct (Z.ltb_spec (len b) (len rhs)).
    - destruct (resize_spec b (len rhs) Hb ltac:(lia)) as (H1 & H2 & H3).
      split; [done|]. split; [lia|]. intros m Hm. rewrite H3 by lia.
      destruct (Z.ltb_spec m (len rhs)); [done|]. symmetry. apply Hb. lia.
    - split; [done|]. split; [lia|done]. }
  refine (or_words_spec _ _ _ _ rhs H Hr _ eq_refl). cbn. lia.
Qed.

(** ** Counts and tests of views *)

Section Views.
  Context {A B : Type} `{LA : SliceLaws A okA} `{LB : SliceLaws B okB}.

Lemma count_overlapping_with_spec (a : A) (b : B) n :
  okA a -> okB b -> Z.min (slice_len a) (slice_len b) <= n ->
  count_overlapping_with a b = Z.of_nat (length (ones_in (fun m => sbit a m && sbit b m) 0 n)).
Proof using LA LB.
  intros Ha Hb Hn. unfold count_overlapping_with.
  pose proof (law_len (MkAndWith a b) (conj Ha Hb)) as Hl. cbn in Hl. change (zip_with _ _ _) with (and_data a b) in Hl.
  rewrite (sum_ones_spec 0), (ones_words_spec 0 _ (fun m => sbit a m && sbit b m)).
  - assert (Hc : forall m, Z.min (slice_len a) (slice_len b) <= m -> sbit a m && sbit b m = false).
    { intros m Hm. destruct (Z.lt_ge_cases m (slice_len a)).
      - by rewrite (law_end b m Hb), andb_false_r by lia.
      - by rewrite (law_end a m Ha) by lia. }
    set (k := Z.min _ _) in *. f_equal. f_equal.
    transitivity (ones_in (fun m => sbit a m && sbit b m) 0 k).
    + replace (64 * vec_len (and_data a b)) with (k + (64 * vec_len (and_data a b) - k)) by lia.
      rewrite ones_in_app by lia. rewrite (ones_in_nil _ (0 + k)) by (intros; apply Hc; lia). apply app_nil_r.
    + replace n with (k + (n - k)) by lia. rewrite ones_in_app by lia.
      rewrite (ones_in_nil _ (0 + k)) by (intros; apply Hc; lia). by rewrite app_nil_r.
  - intros m Hm. rewrite Z.add_0_l. unfold and_data. rewrite (bit_at_zip_with Z.land andb);
      [|intros; apply bit_land|lia]. unfold and_data, vec_len in *. rewrite length_zip_with in Hm.
    by zbool.
Qed.

(** Only the words of [b] are compared. *)
Lemma is_subset_of_spec (a : A) (b : B) :
  okA a -> okB b ->
  is_subset_of a b = true
  <-> forall m, 0 <= m < 64 * vec_len (iter_data b) -> sbit a m = true -> sbit b m = true.
Proof using LA LB.
  intros Ha Hb. unfold is_subset_of.
  pose proof (law_words a Ha) as Hwa. pose proof (law_words b Hb) as Hwb.
  unfold sbit. generalize (iter_data a) (iter_data b) Hwa Hwb. clear - LA LB.
  intros la lb Hla Hlb. revert la Hla. unfold vec_len.
  induction Hlb as [|y lb Hy Hlb IH]; intros la Hla; [cbn; split; [intros _ m Hm; lia|done]|].
  assert (E : exists x la', inw 64 x /\ words_ok la'
     /\ zip_zeros (fun _ y => y) (y :: lb) la = x :: zip_zeros (fun _ y => y) lb la'
     /\ forall m, 0 <= m -> bit_at la m = if m <? 64 then bit x m else bit_at la' (m - 64)).
  { destruct Hla as [|x la Hx Hla].
    - exists 0, []. split; [exact inw_0|]. split; [constructor|]. split; [done|].
      intros m Hm. rewrite !bit_at_nil. destruct (m <? 64); [|done]. symmetry. apply Z.bits_0.
    - exists x, la. do 3 (split; [done|]). intros m Hm. by apply bit_at_cons. }
  destruct E as (x & la' & Hx & Hla' & -> & Hbits). cbn [zip zip_with forallb length].
  rewrite andb_true_iff, (IH la' Hla'), Z.eqb_eq. split.
  - intros [E Hs] m Hm. rewrite Hbits, bit_at_cons by lia. destruct (Z.ltb_spec m 64).
    + intros Hx1. by rewrite <- E, bit_lor, Hx1.
    + apply Hs. lia.
  - intros Hs. split.
    + apply word_bits_eq; [by apply inw_lor'|done|]. intros j Hj. rewrite bit_lor.
      specialize (Hs j ltac:(lia)). rewrite Hbits, bit_at_cons in Hs by lia.
      assert (Ej : (j <? 64) = true) by (apply Z.ltb_lt; lia). rewrite Ej in Hs.
      destruct (bit x j), (bit y j); cbn; try done. symmetry. by apply Hs.
    + intros m Hm H1. specialize (Hs (m + 64) ltac:(lia)). rewrite Hbits, bit_at_cons in Hs by lia.
      assert (Ej : (m + 64 <? 64) = false) by (apply Z.ltb_ge; lia). rewrite Ej in Hs.
      replace (m + 64 - 64) with m in Hs by lia. by apply Hs.
Qed.
End Views.

(** ** Closures that work bit by bit *)

(** [R n s]: the iterator [s] allows [n] more calls.  Each call uses up a word
    of [s], and a bit of the result depends on the same bit of the two
    words. *)
Record bitwise (f : Closure) (R : nat -> list Z -> Prop) (h : bool -> bool -> bool) : Prop := {
  bw_step : forall n s x, R (S n) s -> words_ok s -> inw 64 x ->
    exists v, f s x = Some (v, tl s) /\ R n (tl s) /\ inw 64 v
      /\ forall j, 0 <= j < 64 -> bit v j = h (bit x j) (bit (hd 0 s) j) }.

Lemma words_ok_hd s : words_ok s -> inw 64 (hd 0 s).
Proof. intros Hs. destruct Hs; [exact inw_0|done]. Qed.
Lemma words_ok_tl s : words_ok s -> words_ok (tl s).
Proof. intros Hs. destruct Hs; [constructor|done]. Qed.

Lemma clear_bitwise : bitwise clear_word (fun _ s => s = []) (fun _ _ => false).
Proof.
  constructor. intros n s x -> _ _. exists 0. split; [done|]. split; [done|]. split; [exact inw_0|].
  intros j _. apply Z.bits_0.
Qed.

Lemma copy_bitwise : bitwise copy_word (fun n s => (n <= length s)%nat) (fun _ y => y).
Proof.
  constructor. intros n s x Hn Hs _. destruct Hs as [|y s Hy Hs]; [cbn in Hn; lia|].
  exists y. split; [done|]. cbn in *. split; [lia|done].
Qed.

Lemma clear_from_bitwise : bitwise clear_from_word (fun _ _ => True) (fun x y => x && negb y).
Proof.
  constructor. intros n s x _ Hs Hx. eexists; split; [reflexivity|]. split; [done|].
  split; [apply inw_land_unot; [done|by apply words_ok_hd]|]. intros j Hj. by apply bit_land_unot.
Qed.

Lemma or_with_bitwise : bitwise or_with_word (fun _ _ => True) orb.
Proof.
  constructor. intros n s x _ Hs Hx. eexists; split; [reflexivity|]. split; [done|].
  split; [apply inw_lor'; [done|by apply words_ok_hd]|]. intros j Hj. apply bit_lor.
Qed.

Section Modification.
  Context (f : Closure) (R : nat -> list Z -> Prop) (h : bool -> bool -> bool).
  Hypothesis Hf : bitwise f R h.

(** ** Aligned ranges *)

Lemma modify_all_spec l s :
  R (length l) s -> words_ok l -> words_ok s ->
  exists l' s', modify_all f l s = Some (l', s') /\ length l' = length l /\ words_ok l'
    /\ forall m, 0 <= m < 64 * vec_len l -> bit_at l' m = h (bit_at l m) (bit_at s m).
Proof.
  unfold vec_len. revert s.
  induction l as [|w l IH]; intros s HR Hl Hs; cbn [modify_all length] in *.
  { exists [], s. split; [done|]. split; [done|]. split; [done|]. intros m Hm. lia. }
  inversion Hl; subst.
  destruct (bw_step _ _ _ Hf _ s w HR Hs) as (v & -> & HR' & Hv & Hb); [done|].
  destruct (IH (tl s) HR') as (l' & s' & E & Hlen & Hok & Hbits); [done|by apply words_ok_tl|].
  cbn. rewrite E. cbn. do 2 eexists; split; [reflexivity|]. split; [cbn; lia|].
  split; [by constructor|]. intros m Hm. rewrite !bit_at_cons by lia. destruct (Z.ltb_spec m 64).
  - rewrite (bit_at_hd s) by lia. apply Hb. lia.
  - rewrite Hbits, bit_at_tl by lia. do 2 f_equal. lia.
Qed.

(** A word that keeps its [c] high bits. *)
Lemma bit_keep_high old val c j :
  0 <= c < 64 -> 0 <= j < 64 ->
  bit (Z.lor (Z.land old (unot 64 (Z.shiftr (Z.ones 64) c))) (Z.land val (Z.shiftr (Z.ones 64) c))) j
    = if j <? 64 - c then bit val j else bit old j.
Proof.
  intros Hc Hj. rewrite bit_lor, bit_land_unot, bit_land, bit_high_mask by lia.
  destruct (j <? 64 - c); cbn; by rewrite ?andb_false_r, ?andb_true_r, ?orb_false_r.
Qed.

Lemma inw_keep_high old val c :
  0 <= c < 64 -> inw 64 old ->
  inw 64 (Z.lor (Z.land old (unot 64 (Z.shiftr (Z.ones 64) c))) (Z.land val (Z.shiftr (Z.ones 64) c))).
Proof.
  intros Hc Ho. assert (Hm : inw 64 (Z.shiftr (Z.ones 64) c)).
  { apply inw_shiftr; [lia|lia|]. apply inw_ones. lia. }
  apply inw_lor'; [by apply inw_land_unot|]. rewrite Z.land_comm.
  apply inw_testbit; [lia|apply Z.land_nonneg; left; apply Hm|].
  intros j Hj. rewrite Z.land_spec. by rewrite (testbit_above 64) by (done || lia).
Qed.

Lemma modify_aligned_spec c l s :
  0 <= c < 64 -> R (length l) s -> words_ok l -> words_ok s ->
  exists l' s', modify_aligned f c l s = Some (l', s') /\ length l' = length l /\ words_ok l'
    /\ forall m, 0 <= m ->
         bit_at l' m = if m <? 64 * vec_len l - c then h (bit_at l m) (bit_at s m) else bit_at l m.
Proof.
  intros Hc. unfold vec_len. revert s.
  induction l as [|w l IH]; intros s HR Hl Hs.
  { exists [], s. split; [done|]. split; [done|]. split; [done|]. intros m Hm.
    rewrite bit_at_nil. cbn [length]. change (64 * Z.of_nat 0) with 0.
    by destruct (Z.ltb_spec m (0 - c)); [lia|]. }
  inversion Hl; subst. cbn [length] in HR.
  destruct (bw_step _ _ _ Hf _ s w HR Hs) as (v & Ev & HR' & Hv & Hb); [done|].
  destruct l as [|w2 l2].
  - cbn [modify_aligned]. rewrite Ev. cbn -[Z.lor]. do 2 eexists; split; [reflexivity|].
    split; [done|]. split; [constructor; [by apply inw_keep_high|constructor]|].
    intros m Hm. rewrite !bit_at_cons, !bit_at_nil by lia.
    destruct (Z.ltb_spec m 64); [|by destruct (Z.ltb_spec m (64 * Z.of_nat 1 - c)); [lia|]].
    rewrite bit_keep_high by lia. change (64 * Z.of_nat 1) with 64.
    destruct (Z.ltb_spec m (64 - c)); [|done]. rewrite (bit_at_hd s) by lia. apply Hb. lia.
  - destruct (IH (tl s) HR') as (l' & s' & E & Hlen & Hok & Hbits); [done|by apply words_ok_tl|].
    cbn [modify_aligned] in *. rewrite Ev. cbn [mbind option_bind].
    change (modify_aligned f c (w2 :: l2) (tl s)) with (modify_aligned f c (w2 :: l2) (tl s)) in E.
    cbn [modify_aligned] in E. rewrite E. cbn [mbind option_bind].
    do 2 eexists; split; [reflexivity|]. split; [cbn [length] in *; lia|]. split; [by constructor|].
    intros m Hm. rewrite !(bit_at_cons _ _ m) by lia. cbn [length] in *. destruct (Z.ltb_spec m 64).
    + destruct (Z.ltb_spec m (64 * Z.of_nat (S (S (length l2))) - c)); [|lia].
      rewrite (bit_at_hd s) by lia. apply Hb. lia.
    + rewrite Hbits by lia. rewrite bit_at_tl by lia. replace (m - 64 + 64) with m by lia.
      destruct (Z.ltb_spec (m - 64) (64 * Z.of_nat (S (length l2)) - c)),
        (Z.ltb_spec m (64 * Z.of_nat (S (S (length l2))) - c)); done || lia.
Qed.

(** ** Shifted ranges *)

(** A word made of a buffer of [o] low bits and the low bits of another. *)
Lemma bit_merge bo v o j :
  0 < o < 64 -> 0 <= j < 64 -> (forall i, o <= i -> bit bo i = false) ->
  bit (Z.lor bo (wrap 64 (Z.shiftl v o))) j = if j <? o then bit bo j else bit v (j - o).
Proof.
  intros Ho Hj Hbo. unfold bit in *. rewrite Z.lor_spec, testbit_wrap, testbit_shiftl by lia. zbool.
  destruct (Z.ltb_spec j o); zbool; cbn; [apply orb_false_r|]. by rewrite Hbo by lia.
Qed.

(** The bits that the words of [l] get: the [o] low bits of [bo], then the
    modified ones. *)
Definition target (o bo : Z) (l s : list Z) (m : Z) : bool :=
  if m <? o then bit bo m else h (bit_at l m) (bit_at s (m - o)).

Lemma target_tl o bo bo1 p l s m :
  0 < o < 64 -> 0 <= m ->
  (forall j, 0 <= j < o -> bit bo1 j = target o bo (p :: l) s (64 + j)) ->
  target o bo1 l (tl s) m = target o bo (p :: l) s (64 + m).
Proof.
  intros Ho Hm H. unfold target at 1. destruct (Z.ltb_spec m o); [apply H; lia|].
  unfold target. zbool. rewrite bit_at_cons by lia. zbool. rewrite bit_at_tl by lia. f_equal; f_equal; lia.
Qed.

Lemma modify_words_spec o items p bo s n :
  0 < o < 64 -> inw 64 p -> inw 64 bo -> words_ok items -> words_ok s ->
  (forall j, o <= j -> bit bo j = false) -> R (length items + n) s ->
  exists l bo' s',
    modify_words f o items (Z.shiftr p o) bo s
      = Some (l, (Z.shiftr (List.last (p :: items) 0) o, bo'), s')
    /\ s' = drop (length items) s /\ R n s' /\ length l = length items /\ words_ok l /\ inw 64 bo'
    /\ (forall j, o <= j -> bit bo' j = false)
    /\ (forall m, 0 <= m < 64 * vec_len items -> bit_at l m = target o bo (p :: items) s m)
    /\ forall j, 0 <= j < o -> bit bo' j = target o bo (p :: items) s (64 * vec_len items + j).
Proof.
  unfold vec_len. revert p bo s.
  induction items as [|item items IH]; intros p bo s Ho Hp Hbo Hi Hs Hlow HR.
  { exists [], bo, s. cbn. split; [done|]. split; [by rewrite drop_0|]. split; [done|]. split; [done|].
    split; [constructor|]. split; [done|]. split; [done|]. split; [intros; lia|].
    intros j Hj. rewrite Z.add_0_l. unfold target. by destruct (Z.ltb_spec j o); [|lia]. }
  inversion Hi as [|? ? Hitem Hitems]; subst. cbn [length Nat.add] in HR. cbn [modify_words].
  set (old := Z.lor (Z.shiftr p o) _).
  assert (Hold : inw 64 old).
  { apply inw_lor'; [by apply inw_shiftr; [lia|lia|]|]. apply wrap_inw. lia. }
  destruct (bw_step _ _ _ Hf _ s old HR Hs Hold) as (v & -> & HR' & Hv & Hb). cbn [mbind option_bind].
  set (bo1 := Z.shiftr v (64 - o)).
  assert (Hbo1 : inw 64 bo1) by (apply inw_shiftr; [lia|lia|done]).
  assert (Hlow1 : forall j, o <= j -> bit bo1 j = false).
  { intros j Hj. unfold bo1, bit. rewrite testbit_shiftr. rewrite (testbit_above 64) by (done || lia).
    apply andb_false_r. }
  assert (Hbits1 : forall j, 0 <= j < o -> bit bo1 j = target o bo (p :: item :: items) s (64 + j)).
  { intros j Hj. unfold bo1, bit at 1. rewrite testbit_shiftr. zbool. rewrite andb_true_l.
    change (Z.testbit v ?i) with (bit v i). rewrite Hb by lia. unfold old, target. zbool.
    rewrite bit_shifted by (done || lia). zbool. rewrite (bit_at_hd s) by lia.
    rewrite !bit_at_cons by lia. zbool. f_equal; f_equal; lia. }
  destruct (IH item bo1 (tl s) Ho Hitem Hbo1 Hitems (words_ok_tl _ Hs) Hlow1 HR')
    as (l & bo' & s' & E & Es & HRs & Hlen & Hok & Hbo' & Hlow' & Hl & Hout).
  change (List.last (p :: item :: items) 0) with (List.last (item :: items) 0).
  rewrite E. cbn [mbind option_bind]. do 3 eexists; split; [reflexivity|].
  split; [rewrite Es; destruct s; [cbn [tl]; by rewrite !drop_nil|done]|]. split; [done|]. split; [cbn; lia|].
  split. { constructor; [|done]. apply inw_lor'; [done|]. apply wrap_inw. lia. }
  split; [done|]. split; [done|]. cbn [length]. split.
  - intros m Hm. rewrite bit_at_cons by lia. destruct (Z.ltb_spec m 64).
    + rewrite bit_merge by (done || lia). unfold target. destruct (Z.ltb_spec m o); [done|].
      rewrite Hb by lia. unfold old. rewrite bit_shifted by (done || lia). zbool.
      rewrite bit_at_cons, (bit_at_hd s) by lia. zbool. f_equal; f_equal; lia.
    + rewrite Hl by lia. rewrite (target_tl o bo bo1 p) by (done || lia). f_equal. lia.
  - intros j Hj. rewrite Hout by lia. rewrite (target_tl o bo bo1 p) by (done || lia). f_equal. lia.
Qed.

Lemma last_word l : l <> [] -> List.last l 0 = word l (vec_len l - 1).
Proof.
  intros Hl. destruct (exists_last Hl) as (l0 & w & ->). rewrite List.last_last.
  unfold vec_len. rewrite length_app. cbn [length]. rewrite word_lookup by lia.
  by rewrite list_lookup_middle by lia.
Qed.

Lemma modify_shifted_spec o c first rest s :
  0 < o < 64 -> 0 <= c < 64 -> inw 64 first -> words_ok rest -> words_ok s ->
  o + c <= 64 * (vec_len rest + 1) ->
  R (if (vec_len rest =? 0) || (c + o <? 64) then length rest + 1 else length rest) s ->
  exists l s', modify_shifted f o c first rest s = Some (l, s')
    /\ length l = S (length rest) /\ words_ok l
    /\ forall m, 0 <= m ->
         bit_at l m = if (o <=? m) && (m <? 64 * vec_len (first :: rest) - c)
                      then h (bit_at (first :: rest) m) (bit_at s (m - o))
                      else bit_at (first :: rest) m.
Proof.
  intros Ho Hc Hfi Hr Hs Hfit HR. unfold modify_shifted.
  set (bo := Z.land first _).
  assert (Hbo : forall j, 0 <= j -> bit bo j = (j <? o) && bit first j).
  { intros j Hj. unfold bo, bit. rewrite Z.land_spec, testbit_unot, testbit_wrap, testbit_shiftl by lia.
    rewrite testbit_ones by lia. rewrite andb_comm. zbool. cbn.
    destruct (Z.ltb_spec j 64).
    - zbool. cbn. destruct (Z.ltb_spec j o); zbool; done.
    - cbn. by destruct (Z.ltb_spec j o); [lia|]. }
  assert (Hboi : inw 64 bo).
  { apply inw_land_unot; [done|]. apply wrap_inw. lia. }
  set (called := (vec_len rest =? 0) || (c + o <? 64)) in *.
  destruct (modify_words_spec o rest first bo s (if called then 1 else 0)%nat Ho Hfi Hboi Hr Hs)
    as (l & bo' & s' & -> & Es & HRs & Hlen & Hok & Hbo' & Hlow & Hl & Hout).
  { intros j Hj. rewrite Hbo by lia. by destruct (Z.ltb_spec j o); [lia|]. }
  { destruct called; [done|]. by rewrite Nat.add_0_r. }
  cbn [mbind option_bind]. set (N := vec_len rest) in *.
  assert (HN : 0 <= N) by (unfold N, vec_len; lia).
  set (old := List.last (first :: rest) 0).
  assert (Hcons : vec_len (first :: rest) = N + 1) by (unfold N, vec_len; cbn [length]; lia).
  assert (Hold : old = word (first :: rest) N).
  { unfold old. rewrite last_word by done. f_equal. lia. }
  assert (Hfr : words_ok (first :: rest)) by by constructor.
  assert (Holdi : inw 64 old) by (rewrite Hold; by apply word_ok).
  set (seen := Z.lor (Z.shiftr old o) _).
  assert (Hseen : inw 64 seen).
  { apply inw_lor'; [by apply inw_shiftr; [lia|lia|]|]. apply wrap_inw. lia. }
  assert (Hs' : words_ok s') by (rewrite Es; by apply words_ok_drop).
  assert (Hcall : exists v s2, (if called then f s' seen else Some (0, s')) = Some (v, s2)
            /\ forall j, 0 <= j < 64 -> called = true ->
                 bit v j = h (bit seen j) (bit (hd 0 s') j)).
  { destruct called.
    - destruct (bw_step _ _ _ Hf _ s' seen HRs Hs' Hseen) as (v & -> & _ & _ & Hb). eauto.
    - eexists _, _. split; [reflexivity|]. done. }
  destruct Hcall as (v & s2 & -> & Hv). cbn [mbind option_bind].
  do 2 eexists; split; [reflexivity|]. rewrite length_app, Hlen. split; [cbn; lia|].
  split. { apply list.Forall_app. split; [done|]. constructor; [by apply inw_keep_high|constructor]. }
  assert (HlN : vec_len l = N) by (unfold N, vec_len; by rewrite Hlen).
  intros m Hm. rewrite bit_at_app, HlN, Hcons by lia. destruct (Z.ltb_spec m (64 * N)).
  - rewrite Hl by lia. unfold target. destruct (Z.ltb_spec m o).
    + zbool. rewrite andb_false_l. rewrite Hbo, bit_at_cons by lia. zbool. done.
    + zbool. done.
  - set (j := m - 64 * N) in *. rewrite bit_at_cons, bit_at_nil by lia.
    destruct (Z.ltb_spec j 64).
    2: { rewrite andb_comm. zbool. symmetry. apply bit_at_past. lia. }
    rewrite bit_keep_high by lia. replace m with (64 * N + j) by lia.
    assert (Hw : bit_at (first :: rest) (64 * N + j) = bit old j) by (rewrite Hold; apply bit_at_word; lia).
    destruct (Z.ltb_spec j (64 - c)).
    2: { rewrite andb_comm. zbool. done. }
    rewrite bit_merge by (done || lia).
    replace (64 * N + j <? 64 * (N + 1) - c) with true by (symmetry; apply Z.ltb_lt; lia).
    rewrite andb_true_r. destruct (Z.ltb_spec j o).
    + rewrite Hout by lia. unfold target. destruct (Z.ltb_spec (64 * N + j) o); [|by zbool].
      zbool. assert (HN0 : N = 0) by lia. rewrite HN0 in *. rewrite Hbo, Hw, Hold by lia. by zbool.
    + zbool. assert (Hcalled : called = true).
      { unfold called. destruct (Z.eqb_spec N 0); [done|]. cbn. apply Z.ltb_lt. lia. }
      rewrite Hv by (done || lia). rewrite Hw. unfold seen.
      rewrite bit_shifted by (done || lia). zbool. f_equal; [f_equal; lia|].
      rewrite <- bit_at_hd, Es, bit_at_drop by lia. f_equal. unfold N, vec_len in *. lia.
Qed.

(** ** Any range *)

Lemma modify_u64_spec v s :
  view_ok v -> words_ok s -> R (Z.to_nat (view_count v)) s ->
  exists l s', modify_u64 f v s = Some (l, s')
    /\ length l = length (s_data v) /\ words_ok l
    /\ forall m, 0 <= m ->
         bit_at l m = if (offset v <=? m) && (m <? 64 * vec_len (s_data v) - crop v)
                      then h (bit_at (s_data v) m) (bit_at s (m - offset v)) else bit_at (s_data v) m.
Proof.
  intros [Hd Ho Hc Hl] Hs HR. unfold modify_u64, view_count in *.
  destruct (s_data v) as [|first rest] eqn:E.
  - exists [], s. split; [done|]. split; [done|]. split; [constructor|]. intros m Hm. rewrite bit_at_nil.
    unfold vec_len. cbn [length]. change (64 * Z.of_nat 0) with 0.
    rewrite andb_comm. by destruct (Z.ltb_spec m (0 - crop v)); [lia|].
  - destruct (Z.eqb_spec (offset v) 0) as [E0|E0].
    + destruct (modify_aligned_spec (crop v) (first :: rest) s) as (l & s' & E1 & Hlen & Hok & Hb);
        [done| |done|done|].
      { rewrite E0 in HR. replace (64 <=? crop v + 0) with false in HR by (symmetry; apply Z.leb_gt; lia).
        rewrite andb_false_r in HR. unfold vec_len in HR. by rewrite Nat2Z.id in HR. }
      rewrite E1. do 2 eexists; split; [reflexivity|]. split; [done|]. split; [done|].
      intros m Hm. rewrite Hb, E0 by lia. zbool. by rewrite Z.sub_0_r.
    + inversion Hd; subst. destruct (modify_shifted_spec (offset v) (crop v) first rest s)
        as (l & s' & E1 & Hlen & Hok & Hb); [lia|done|done|done|done| | |].
      { unfold vec_len in *. cbn [length] in Hl. lia. }
      { revert HR. unfold vec_len. cbn [length].
        destruct (Z.ltb_spec 1 (Z.of_nat (S (length rest)))), (Z.leb_spec 64 (crop v + offset v)),
          (Z.eqb_spec (Z.of_nat (length rest)) 0), (Z.ltb_spec (crop v + offset v) 64); cbn [andb orb];
          first [lia | match goal with |- R ?a s -> R ?b s => by replace a with b by lia end]. }
      rewrite E1. do 2 eexists; split; [reflexivity|]. split; [done|]. split; [done|exact Hb].
Qed.

(** The range of a bitmap that a mutable view covers. *)
Lemma with_slice_mut_spec b start end_ s g :
  wf b -> 0 <= start <= end_ -> end_ <= len b -> words_ok s ->
  (forall v, view_ok v -> slice_len v = end_ - start -> (start = end_ -> s_data v = []) ->
     R (Z.to_nat (view_count v)) s /\ g v = fst <$> Slices.modify f s v) ->
  exists b', with_slice_mut b start end_ g = Some b'
    /\ represents b' (len b)
         (fun m => if (start <=? m) && (m <? end_) then h (get b m) (bit_at s (m - start)) else get b m).
Proof.
  intros Hb Hse He Hs Hg. unfold with_slice_mut. pose proof (wf_len b Hb) as Hlb.
  destruct (slice_spec b start end_ Hb Hse He) as (v & Ev & Hv & Hlen & _). rewrite Ev.
  cbn [mbind option_bind].
  assert (Hempty : start = end_ -> s_data v = []).
  { intros <-. unfold slice in Ev. rewrite Z.eqb_refl in Ev. by injection Ev as <-. }
  destruct (Hg v Hv Hlen Hempty) as [HR ->].
  destruct (modify_u64_spec v s Hv Hs HR) as (l & s' & El & Hll & Hok & Hbits).
  unfold Slices.modify, u64_mut. rewrite El. cbn [mbind option_bind fmap option_fmap option_map fst s_data].
  unfold slice, word_range in *.
  destruct (Z.eqb_spec start end_) as [<- |Hne].
  { destruct (if negb _ then _ else _) as [[si ei] c]. eexists; split; [reflexivity|].
    destruct b as [d n]. split; [done|]. split; [done|]. intros m Hm. cbn.
    destruct (Z.leb_spec start m), (Z.ltb_spec m start); cbn; done || lia. }
  set (r := if negb (end_ mod 64 =? 0) then _ else _) in *.
  pose proof (Z.div_mod start 64 ltac:(lia)). pose proof (Z.mod_pos_bound start 64 ltac:(lia)).
  pose proof (Z.div_mod end_ 64 ltac:(lia)). pose proof (Z.mod_pos_bound end_ 64 ltac:(lia)).
  assert (Hr : exists ei c, r = (start / 64, ei, c) /\ 64 * ei - c = end_ /\ 0 <= c < 64).
  { unfold r. destruct (Z.eqb_spec (end_ mod 64) 0); cbn [negb]; do 2 eexists;
      split; [reflexivity|lia|reflexivity|lia]. }
  destruct Hr as (ei & c & Er & Hei & Hc). rewrite Er in *.
  destruct ((start / 64 <=? ei) && (ei <=? vec_len (data b))) eqn:Eb; [|done].
  apply andb_true_iff in Eb. rewrite !Z.leb_le in Eb. cbn -[Z.div Z.modulo Z.mul] in Ev.
  injection Ev as Ev. set (si := start / 64) in *. set (d := data b) in *.
  assert (Hlv : vec_len l = ei - si).
  { unfold vec_len in *. rewrite Hll, <- Ev. cbn [s_data]. rewrite length_take, length_drop. lia. }
  assert (Hsi : 0 <= si) by (apply Z.div_pos; lia).
  assert (Htk : vec_len (take (Z.to_nat si) d) = si).
  { unfold vec_len in *. rewrite length_take. lia. }
  eexists; split; [reflexivity|]. apply represents_intro.
  - unfold vec_len in *. rewrite !length_app, length_take, length_drop. lia.
  - apply list.Forall_app. split; [apply words_ok_take, Hb|]. apply list.Forall_app.
    split; [done|]. apply words_ok_drop, Hb.
  - intros m Hm. rewrite bit_at_app, Htk by lia. destruct (Z.ltb_spec m (64 * si)).
    { rewrite bit_at_take, Z2Nat.id by lia. zbool. done. }
    rewrite bit_at_app, Hlv by lia. destruct (Z.ltb_spec (m - 64 * si) (64 * (ei - si))).
    + rewrite Hbits by lia. replace (vec_len (s_data v)) with (ei - si) by (unfold vec_len in *; lia).
      assert (Hvd : bit_at (s_data v) (m - 64 * si) = get b m).
      { rewrite <- Ev. cbn [s_data]. rewrite bit_at_take, bit_at_drop by lia.
        rewrite !Z2Nat.id by lia. zbool. rewrite andb_true_l. unfold get. f_equal. lia. }
      rewrite Hvd. replace (offset v) with (start mod 64) by by rewrite <- Ev.
      replace (crop v) with c by by rewrite <- Ev.
      replace (start mod 64 <=? m - 64 * si) with (start <=? m)
        by (apply eq_true_iff_eq; rewrite !Z.leb_le; lia).
      replace (m - 64 * si <? 64 * (ei - si) - c) with (m <? end_)
        by (apply eq_true_iff_eq; rewrite !Z.ltb_lt; lia).
      destruct (_ && _); [|done]. do 2 f_equal. lia.
    + rewrite bit_at_drop by lia. rewrite Z2Nat.id, andb_comm by lia. zbool. unfold get. cbn [andb].
      f_equal. lia.
  - intros m Hm. rewrite andb_comm. zbool. by apply Hb.
Qed.

(** The whole of a bitmap with the exact number of words. *)
Lemma modify_growing_spec b s :
  wf b -> vec_len (data b) = div_ceil (len b) 64 -> words_ok s -> R (length (data b)) s ->
  exists b' s', Slices.modify f s b = Some (b', s')
    /\ represents b' (len b) (fun m => (m <? len b) && h (get b m) (bit_at s m)).
Proof.
  intros Hb He Hs HR. pose proof (wf_len b Hb) as Hl. unfold Slices.modify, growing_mut.
  destruct (modify_all_spec (data b) s HR (wf_words b Hb) Hs) as (l & s' & -> & Hlen & Hok & Hbits).
  cbn [mbind option_bind]. do 2 eexists; split; [reflexivity|].
  destruct (zeroize_past_end_spec l (len b)) as (H1 & H2 & H3); [lia|done| |].
  { unfold vec_len in *. by rewrite Hlen. }
  split; [done|]. split; [done|]. intros m Hm. rewrite H3 by lia.
  destruct (Z.ltb_spec m (len b)); cbn; [|done]. apply Hbits. lia.
Qed.
End Modification.
