(* ===== verification/BitmapProps.v ===== *)
(** * Properties of bitmaps
    A bitmap behaves as the list of its bits under any sequence of
    operations; [DenseSet] counts its elements; the fixed bitmaps; the changes
    through a mutable view; and the operations that do not do what they are
    meant to on some bitmaps. *)

From S2P Require Import Prelude Bitmap BitmapSound BitmapSlices.

Import Growing Slices.

(** ** The list of bits as a specification *)

Module Bits.

Inductive op : Type :=
  | Set_ (n : Z) | Reset (n : Z) | GetThenReset (n : Z) | Get (n : Z)
  | Extend (items : list bool) | Append (other : list bool)
  | Remove (n : Z) | RemoveFront (num : Z) | Resize (n : Z)
  | SetRange (start end_ : Z) | ClearRange (start end_ : Z)
  | AndAssign (other : list bool) | OrAssign (other : list bool)
  | CountOnes | Iter | OneIndices | FirstSet (start : Z) | FirstUnset (start : Z)
  | SupersetOf (other : list bool).

(** What an operation returns. *)
Inductive answer : Type :=
  | Nothing | Bool (b : bool) | Int (n : Z) | Bools (l : list bool) | Ints (l : list Z)
  | Index (n : option Z).

(** The operations of the code; another bitmap is built from its bits. *)
Definition run (o : op) (b : GrowingBitmap) : option (answer * GrowingBitmap) :=
  match o with
  | Set_ n => '(r, b) ← set b n; Some (Bool r, b)
  | Reset n => '(r, b) ← reset b n; Some (Bool r, b)
  | GetThenReset n => let '(r, b) := get_then_reset b n in Some (Bool r, b)
  | Get n => Some (Bool (get b n), b)
  | Extend items => b ← extend b items; Some (Nothing, b)
  | Append other => o ← from_iter other; b ← append b o; Some (Nothing, b)
  | Remove n => '(r, b) ← remove b n; Some (Bool r, b)
  | RemoveFront num => b ← remove_front b num; Some (Nothing, b)
  | Resize n => Some (Nothing, resize b n)
  | SetRange start end_ => b ← set_range b start end_; Some (Nothing, b)
  | ClearRange start end_ => b ← clear_range b start end_; Some (Nothing, b)
  | AndAssign other => o ← from_iter other; Some (Nothing, bitand_assign b o)
  | OrAssign other => o ← from_iter other; Some (Nothing, bitor_assign b o)
  | CountOnes => Some (Int (count_ones b), b)
  | Iter => l ← iter b; Some (Bools l, b)
  | OneIndices => l ← iter_one_indices b; Some (Ints l, b)
  | FirstSet start => Some (Index (first_bit_set_from b start), b)
  | FirstUnset start => Some (Index (first_bit_unset_from b start), b)
  | SupersetOf other => o ← from_iter other; Some (Bool (is_superset_of b o), b)
  end.

(** The same on lists.  An index must not be negative, and only a bit of the
    list can be removed. *)
Definition llen (l : list bool) : Z := Z.of_nat (length l).
Definition lones (l : list bool) : list Z := ones_in (at_ l) 0 (llen l).
Definition lfirst (P : Z -> bool) (start : Z) (l : list bool) : option Z :=
  head (ones_in P start (llen l - start)).
Definition table (f : Z -> bool) (n : Z) : list bool := f <$> seqZ 0 n.
Definition lwrite (v : bool) (n : Z) (l : list bool) : list bool :=
  table (fun i => if i =? n then v else at_ l i) (Z.max (llen l) (n + 1)).
Definition lrange (v : bool) (start end_ : Z) (l : list bool) : list bool :=
  table (fun i => if (start <=? i) && (i <? end_) then v else at_ l i)
    (if start <? end_ then Z.max (llen l) end_ else llen l).

Definition spec (o : op) (l : list bool) : option (answer * list bool) :=
  match o with
  | Set_ n => _ ← assert (0 <=? n); Some (Bool (negb (at_ l n)), lwrite true n l)
  | Reset n => _ ← assert (0 <=? n); Some (Bool (at_ l n), lwrite false n l)
  | GetThenReset n => _ ← assert (0 <=? n); Some (Bool (at_ l n), <[Z.to_nat n := false]> l)
  | Get n => _ ← assert (0 <=? n); Some (Bool (at_ l n), l)
  | Extend items => Some (Nothing, l ++ items)
  | Append other => Some (Nothing, l ++ other)
  | Remove n => _ ← assert ((0 <=? n) && (n <? llen l)); Some (Bool (at_ l n), delete (Z.to_nat n) l)
  | RemoveFront num => _ ← assert (0 <=? num); Some (Nothing, drop (Z.to_nat num) l)
  | Resize n => _ ← assert (0 <=? n); Some (Nothing, list.resize (Z.to_nat n) false l)
  | SetRange start end_ => _ ← assert (0 <=? start); Some (Nothing, lrange true start end_ l)
  | ClearRange start end_ => _ ← assert (0 <=? start); Some (Nothing, lrange false start end_ l)
  | AndAssign other => Some (Nothing, table (fun i => at_ l i && at_ other i) (llen l))
  | OrAssign other =>
      Some (Nothing, table (fun i => at_ l i || at_ other i) (Z.max (llen l) (llen other)))
  | CountOnes => Some (Int (Z.of_nat (length (lones l))), l)
  | Iter => Some (Bools l, l)
  | OneIndices => Some (Ints (lones l), l)
  | FirstSet start => _ ← assert (0 <=? start); Some (Index (lfirst (at_ l) start l), l)
  | FirstUnset start =>
      _ ← assert (0 <=? start); Some (Index (lfirst (fun i => negb (at_ l i)) start l), l)
  | SupersetOf other =>
      Some (Bool (forallb (fun i => negb (at_ other i) || at_ l i) (seqZ 0 (llen other))), l)
  end.

Fixpoint sequence {S} (step : op -> S -> option (answer * S)) (os : list op) (s : S)
    : option (list answer * S) :=
  match os with
  | [] => Some ([], s)
  | o :: os => '(a, s) ← step o s; '(answers, s) ← sequence step os s; Some (a :: answers, s)
  end.

End Bits.

Import Bits.

(** ** Simulation *)

Definition sim (b : GrowingBitmap) (l : list bool) : Prop := wf b /\ bits b = l.

Lemma sim_len b l : sim b l -> len b = llen l.
Proof. intros [Hb <-]. unfold llen. by rewrite length_bits. Qed.
Lemma sim_get b l n : sim b l -> 0 <= n -> get b n = at_ l n.
Proof. intros [Hb <-] Hn. by rewrite at_bits. Qed.

Lemma length_table f n : 0 <= n -> Z.of_nat (length (table f n)) = n.
Proof. intros Hn. unfold table. rewrite length_fmap, length_seqZ. lia. Qed.

(** A result with the bits of [f] simulates the table of a function that
    agrees with it. *)
Lemma sim_table b n f g :
  represents b n f -> (forall m, 0 <= m < n -> f m = g m) -> sim b (table g n).
Proof.
  intros Hr H. assert (0 <= n) by (destruct Hr as (Hb & <- & _); apply (wf_len b Hb)).
  apply (represents_bits b n f); [done|by apply length_table|].
  intros m Hm. unfold table. rewrite at_seqZ by lia. zbool. by apply H.
Qed.

Lemma sim_list b n f l :
  represents b n f -> llen l = n -> (forall m, 0 <= m < n -> f m = at_ l m) -> sim b l.
Proof. intros Hr Hl H. by apply (represents_bits b n f). Qed.

Lemma from_iter_sim l : exists b, from_iter l = Some b /\ sim b l.
Proof. destruct (extend_spec new l new_wf) as (b & E & Hb & Hl). by exists b. Qed.

Lemma ones_sim b l : sim b l -> ones b = lones l.
Proof.
  intros Hs. unfold ones, lones. rewrite (sim_len b l Hs). apply ones_in_ext.
  intros i Hi. by apply sim_get; [|lia].
Qed.

(** The first element of a filtered range. *)
Lemma head_ones_in P start n :
  0 <= n -> (forall m, start + n <= m -> P m = false) ->
  is_first P start (head (ones_in P start n)).
Proof.
  intros Hn. rewrite <- (Z2Nat.id n) by done. generalize (Z.to_nat n). clear n Hn. intros k.
  revert start. induction k as [|k IH]; intros start H.
  - cbn. intros m Hm. apply H. lia.
  - rewrite ones_in_cons by lia. replace (Z.of_nat (S k) - 1) with (Z.of_nat k) by lia.
    destruct (P start) eqn:E; cbn [app head].
    + split; [lia|]. split; [done|]. intros m Hm. lia.
    + specialize (IH (start + 1)). destruct (head _) as [x|]; cbn in *.
      * destruct IH as (H1 & H2 & H3); [intros m Hm; apply H; lia|]. split; [lia|]. split; [done|].
        intros m Hm. destruct (Z.eq_dec m start) as [-> |]; [done|]. apply H3. lia.
      * intros m Hm. destruct (Z.eq_dec m start) as [-> |]; [done|].
        apply IH; [intros m' Hm'; apply H; lia|lia].
Qed.

Lemma lfirst_is_first P Q start l :
  (forall m, start <= m -> Q m = (m <? llen l) && P m) -> is_first Q start (lfirst P start l).
Proof.
  intros H. unfold lfirst. destruct (Z.le_gt_cases start (llen l)) as [Hle|Hgt].
  - replace (ones_in P start (llen l - start)) with (ones_in Q start (llen l - start)).
    + apply head_ones_in; [lia|]. intros m Hm. rewrite H by lia. by zbool.
    + apply ones_in_ext. intros i Hi. rewrite H by lia. by zbool.
  - unfold ones_in. rewrite seqZ_nil by lia. cbn. intros m Hm. rewrite H by lia. by zbool.
Qed.

Lemma length_delete_llen l n : 0 <= n < llen l -> llen (delete (Z.to_nat n) l) = llen l - 1.
Proof. unfold llen. intros Hn. rewrite length_delete by (apply lookup_lt_is_Some_2; lia). lia. Qed.

Lemma at_delete l n m :
  0 <= n < llen l -> 0 <= m -> at_ (delete (Z.to_nat n) l) m = at_ l (if m <? n then m else m + 1).
Proof.
  unfold llen. intros Hn Hm. unfold at_. f_equal. destruct (Z.ltb_spec m n).
  - by rewrite list_lookup_delete_lt by lia.
  - rewrite list_lookup_delete_ge by lia. f_equal. lia.
Qed.

Lemma run_sim o b l a l' :
  sim b l -> spec o l = Some (a, l') -> exists b', run o b = Some (a, b') /\ sim b' l'.
Proof.
  intros Hs E. pose proof (sim_len b l Hs) as Hl. pose proof Hs as [Hb _].
  assert (Hg : forall m, 0 <= m -> get b m = at_ l m) by (intros; by apply sim_get).
  assert (Hlen : 0 <= llen l) by (unfold llen; lia).
  destruct o; cbn [spec run] in *; inv_opt;
    repeat match goal with
    | H : (_ <=? _) = true |- _ => apply Z.leb_le in H
    | H : _ && _ = true |- _ => apply andb_true_iff in H; destruct H
    | H : (_ <? _) = true |- _ => apply Z.ltb_lt in H
    end.
  - destruct (set_spec b n Hb ltac:(lia)) as (b' & -> & Hr). exists b'. split; [by rewrite Hg|].
    rewrite Hl in Hr. eapply sim_table; [exact Hr|]. intros m Hm. cbn beta. by rewrite Hg by lia.
  - destruct (reset_spec b n Hb ltac:(lia)) as (b' & -> & Hr). exists b'. split; [by rewrite Hg|].
    rewrite Hl in Hr. eapply sim_table; [exact Hr|]. intros m Hm. cbn beta. by rewrite Hg by lia.
  - destruct (get_then_reset_spec b n Hb ltac:(lia)) as [E1 Hr].
    destruct (get_then_reset b n) as [r b']. cbn [fst snd] in *. exists b'. split; [by rewrite E1, Hg|].
    eapply sim_list; [exact Hr|unfold llen in *; by rewrite length_insert|]. intros m Hm. cbn beta.
    rewrite Hg by lia. destruct (Z.lt_ge_cases n (llen l)); [by rewrite at_insert by (unfold llen in *; lia)|].
    rewrite list_insert_ge by (unfold llen in *; lia). destruct (Z.eqb_spec m n); [lia|done].
  - exists b. split; [by rewrite Hg|done].
  - destruct (extend_spec b items Hb) as (b' & -> & Hb' & Hbits). exists b'. split; [done|].
    split; [done|]. rewrite Hbits. by destruct Hs as [_ ->].
  - destruct (from_iter_sim other) as (b2 & -> & [Hb2 <-]). cbn [mbind option_bind].
    destruct (append_spec b b2 Hb Hb2) as (b' & -> & Hb' & Hbits). exists b'. split; [done|].
    split; [done|]. rewrite Hbits. by destruct Hs as [_ ->].
  - destruct (remove_spec b n Hb ltac:(lia)) as (b' & -> & Hr). exists b'. split; [by rewrite Hg by lia|].
    eapply sim_list; [exact Hr|rewrite length_delete_llen; lia|]. intros m Hm. cbn beta.
    rewrite Hg, at_delete by (try case_match; lia). done.
  - destruct (remove_front_spec b num Hb ltac:(lia)) as (b' & -> & Hr). exists b'. split; [done|].
    eapply sim_list; [exact Hr|unfold llen in *; rewrite length_drop; lia|]. intros m Hm. cbn beta.
    rewrite Hg, at_drop by lia. f_equal. lia.
  - eexists. split; [done|]. eapply sim_list; [by apply resize_spec|unfold llen; rewrite length_resize; lia|].
    intros m Hm. cbn beta. rewrite Hg, at_resize by lia. done.
  - destruct (set_range_spec b start end_ Hb ltac:(lia)) as (b' & -> & Hr). exists b'. split; [done|].
    rewrite Hl in Hr. eapply sim_table; [exact Hr|]. intros m Hm. cbn beta. by rewrite Hg by lia.
  - destruct (clear_range_spec b start end_ Hb ltac:(lia)) as (b' & -> & Hr). exists b'. split; [done|].
    rewrite Hl in Hr. eapply sim_table; [exact Hr|]. intros m Hm. cbn beta. by rewrite Hg by lia.
  - destruct (from_iter_sim other) as (b2 & -> & Hs2). eexists; split; [reflexivity|].
    rewrite <- Hl. eapply sim_table; [apply bitand_assign_spec; [done|apply Hs2]|].
    intros m Hm. cbn beta. by rewrite Hg, (sim_get b2 other) by (done || lia).
  - destruct (from_iter_sim other) as (b2 & -> & Hs2). eexists; split; [reflexivity|].
    rewrite <- Hl, <- (sim_len b2 other Hs2). eapply sim_table; [apply bitor_assign_spec; [done|apply Hs2]|].
    intros m Hm. cbn beta. by rewrite Hg, (sim_get b2 other) by (done || lia).
  - exists b. split; [|done]. by rewrite count_ones_spec, (ones_sim b l').
  - exists b. rewrite iter_spec by done. split; [|done]. by destruct Hs as [_ ->].
  - exists b. rewrite iter_one_indices_spec by done. split; [|done]. by rewrite (ones_sim b l').
  - exists b. split; [|done]. do 3 f_equal.
    apply (is_first_unique (get b) start); [by apply first_bit_set_from_spec; [|lia]|].
    apply lfirst_is_first. intros m Hm. rewrite Hg by lia. destruct (Z.ltb_spec m (llen l')); [done|].
    by apply at_past.
  - exists b. split; [|done]. do 3 f_equal.
    eapply is_first_unique; [by apply first_bit_unset_from_spec; [|lia]|].
    apply lfirst_is_first. intros m Hm. by rewrite Hg, Hl by lia.
  - destruct (from_iter_sim other) as (b2 & -> & Hs2). exists b. split; [|done]. cbn [mbind option_bind].
    do 3 f_equal. pose proof (sim_len b2 other Hs2) as Hl2. apply eq_true_iff_eq.
    rewrite is_superset_of_spec by (apply Hs2 || done). rewrite forallb_forall. split.
    + intros H i Hi. apply list_elem_of_In, elem_of_seqZ in Hi. specialize (H i ltac:(lia)).
      rewrite Hg, (sim_get b2 other) in H by (done || lia).
      destruct (at_ other i); [by rewrite H|done].
    + intros H m Hm Hb2. rewrite (sim_get b2 other) in Hb2 by done. rewrite Hg by done.
      destruct (Z.lt_ge_cases m (llen other)); [|by rewrite at_past in Hb2].
      specialize (H m). rewrite Hb2 in H. apply H. apply list_elem_of_In, elem_of_seqZ. lia.
Qed.

(** ** Properties *)

(** C38: Any sequence of operations on a new bitmap answers, one by one, what
    the same operations on the list of its bits answer, and ends in a bitmap
    with these bits: setting, clearing, extending, removing, resizing, the
    operators, the counts, the searches and the iterators are those of
    lists. *)
Theorem bitmap_refines_list os answers l :
  Bits.sequence Bits.spec os [] = Some (answers, l) ->
  exists b, Bits.sequence Bits.run os new = Some (answers, b) /\ wf b /\ bits b = l.
Proof.
  enough (H : forall os answers b l0 l, sim b l0 -> Bits.sequence Bits.spec os l0 = Some (answers, l) ->
            exists b', Bits.sequence Bits.run os b = Some (answers, b') /\ sim b' l).
  { intros E. apply (H os answers new [] l); [split; [apply new_wf|done]|exact E]. }
  clear. intros os. induction os as [|o os IH]; intros answers b l0 l Hs E; cbn in *; inv_opt.
  - by exists b.
  - destruct p as [a l1]. inv_opt. destruct p as [rest l2]. inv_opt.
    destruct (run_sim _ _ _ _ _ Hs E0) as (b1 & -> & Hs1). cbn.
    destruct (IH _ _ _ _ Hs1 E1) as (b2 & -> & Hs2). cbn. by exists b2.
Qed.

Lemma bitmap_refines_list_witness :
  let os := [Bits.Set_ 70; Bits.Extend [true; false; true]; Bits.Remove 3; Bits.RemoveFront 60;
             Bits.OneIndices; Bits.FirstUnset 9; Bits.OrAssign [true]; Bits.CountOnes] in
  exists b, Bits.sequence Bits.run os new
    = Some ([Bits.Bool true; Bits.Nothing; Bits.Bool false; Bits.Nothing; Bits.Ints [9; 10; 12];
             Bits.Index (Some 11); Bits.Nothing; Bits.Int 4], b)
    /\ wf b
    /\ bits b = [true; false; false; false; false; false; false; false; false; true; true; false; true].
Proof. apply bitmap_refines_list. vm_compute. reflexivity. Defined.

(** C39: Copying a view of the same length into a range of a bitmap writes
    exactly the bits of the range, each with the bit of the view at its place
    in the range, wherever the range starts and ends inside of the words. *)
Theorem slice_copy_from_correct {B} `{SliceLaws B ok} b start end_ (other : B) :
  wf b -> 0 <= start <= end_ -> end_ <= len b -> ok other -> slice_len other = end_ - start ->
  exists b', with_slice_mut b start end_ (fun v => copy_from v other) = Some b'
    /\ wf b' /\ len b' = len b
    /\ forall m, 0 <= m ->
         get b' m = if (start <=? m) && (m <? end_) then slice_get other (m - start) else get b m.
Proof.
  intros Hb Hse He Ho Hlen. pose proof (law_len other Ho) as Hlo.
  destruct (with_slice_mut_spec copy_word _ _ copy_bitwise b start end_ (iter_data other)
              (fun v => copy_from v other) Hb Hse He (law_words other Ho)) as (b' & E & Hb' & Hl' & Hg).
  - intros v Hv Hlv Hempty. split.
    + pose proof (view_crop v Hv). pose proof (view_offset v Hv). unfold view_count.
      cbn [slice_len u64_slice] in Hlv. unfold vec_len in *.
      destruct (Z.eq_dec start end_) as [Hz|Hz]; [rewrite (Hempty Hz); apply Nat.le_0_l|].
      destruct (Z.ltb_spec 1 (Z.of_nat (length (s_data v)))), (Z.leb_spec 64 (crop v + offset v)); cbn [andb]; lia.
    + unfold copy_from. rewrite Hlv, Hlen, Z.eqb_refl. done.
  - exists b'. split; [exact E|]. split; [done|]. split; [done|]. intros m Hm. rewrite Hg by lia.
    destruct (Z.leb_spec start m), (Z.ltb_spec m end_); cbn; try done.
    symmetry. apply law_get; [done|]. rewrite Hlen. lia.
Qed.

Lemma slice_copy_from_correct_witness :
  exists b', with_slice_mut (new_all_ones 200) 60 130 (fun v => copy_from v (new_all_zeros 70)) = Some b'
    /\ wf b' /\ len b' = len (new_all_ones 200)
    /\ forall m, 0 <= m ->
         get b' m = if (60 <=? m) && (m <? 130) then slice_get (new_all_zeros 70) (m - 60)
                    else get (new_all_ones 200) m.
Proof.
  apply slice_copy_from_correct.
  - apply new_all_ones_spec. lia.
  - lia.
  - vm_compute. discriminate.
  - apply new_all_zeros_spec. lia.
  - vm_compute. reflexivity.
Defined.

(** The other operations on a range. *)
Lemma slice_or_with_correct {B} `{SliceLaws B ok} b start end_ (other : B) :
  wf b -> 0 <= start <= end_ -> end_ <= len b -> ok other ->
  exists b', with_slice_mut b start end_ (fun v => mut_or_with v other) = Some b'
    /\ represents b' (len b)
         (fun m => if (start <=? m) && (m <? end_) then get b m || sbit other (m - start) else get b m).
Proof.
  intros Hb Hse He Ho.
  by apply (with_slice_mut_spec _ _ _ or_with_bitwise _ _ _ (iter_data other)); [..|apply law_words|].
Qed.

Lemma slice_clear_from_correct {B} `{SliceLaws B ok} b start end_ (other : B) :
  wf b -> 0 <= start <= end_ -> end_ <= len b -> ok other ->
  exists b', with_slice_mut b start end_ (fun v => mut_clear_from v other) = Some b'
    /\ represents b' (len b)
         (fun m => if (start <=? m) && (m <? end_) then get b m && negb (sbit other (m - start)) else get b m).
Proof.
  intros Hb Hse He Ho.
  by apply (with_slice_mut_spec _ _ _ clear_from_bitwise _ _ _ (iter_data other)); [..|apply law_words|].
Qed.

Lemma slice_clear_correct b start end_ :
  wf b -> 0 <= start <= end_ -> end_ <= len b ->
  exists b', with_slice_mut b start end_ Slices.clear = Some b'
    /\ represents b' (len b)
         (fun m => if (start <=? m) && (m <? end_) then false else get b m).
Proof.
  intros Hb Hse He. apply (with_slice_mut_spec _ _ _ clear_bitwise _ _ _ []); try done. constructor.
Qed.

(** ** Dense sets *)

(** The counter of a set is the number of its elements. *)
Definition dense_ok (s : DenseSet) : Prop :=
  wf (bitmap s) /\ dense_len s = Z.of_nat (length (ones (bitmap s))).

Lemma length_ones_add P Q n L :
  0 <= n < L -> (forall m, 0 <= m -> Q m = if m =? n then true else P m) ->
  Z.of_nat (length (ones_in Q 0 L)) = Z.of_nat (length (ones_in P 0 L)) + b2z (negb (P n)).
Proof.
  intros Hn H. replace L with (n + (L - n)) by lia. rewrite !ones_in_app by lia.
  rewrite !(ones_in_cons _ (0 + n)) by lia. rewrite Z.add_0_l, H, Z.eqb_refl by lia.
  rewrite (ones_in_ext Q P 0 n), (ones_in_ext Q P (n + 1)).
  - rewrite !length_app. destruct (P n); cbn [length negb b2z]; lia.
  - intros m Hm. rewrite H by lia. by zbool.
  - intros m Hm. rewrite H by lia. by zbool.
Qed.

Lemma ones_in_past P n m :
  0 <= n <= m -> (forall i, n <= i -> P i = false) -> ones_in P 0 m = ones_in P 0 n.
Proof.
  intros Hn H. replace m with (n + (m - n)) by lia. rewrite ones_in_app by lia.
  rewrite (ones_in_nil _ (0 + n)) by (intros; apply H; lia). apply app_nil_r.
Qed.

(** Inserting into a dense set adds exactly the new element, reports
    whether it was missing, and keeps the counter of the set equal to the
    number of its elements. *)
Theorem dense_set_correct s n :
  dense_ok s -> 0 <= n ->
  exists s', dense_set s n = Some (negb (contains s n), s') /\ dense_ok s'
    /\ forall m, 0 <= m -> contains s' m = (m =? n) || contains s m.
Proof.
  intros [Hb Hc] Hn. unfold dense_set, contains, dense_ok, dense_len in *.
  destruct (set_spec (bitmap s) n Hb Hn) as (b' & -> & Hb' & Hl' & Hg). cbn [mbind option_bind].
  eexists; split; [reflexivity|]. cbn [bitmap num_items]. split; [split; [done|]|].
  - unfold ones at 1. rewrite Hl', (length_ones_add (get (bitmap s)) _ n) by (done || lia).
    pose proof (wf_len _ Hb). rewrite (ones_in_past _ (len (bitmap s))) by (lia || apply Hb).
    rewrite Hc. done.
  - intros m Hm. rewrite Hg by lia. by destruct (m =? n).
Qed.

Lemma dense_set_correct_witness :
  let s := Dense (new_all_ones 3) 3 in
  exists s', dense_set s 100 = Some (negb (contains s 100), s') /\ dense_ok s'
    /\ forall m, 0 <= m -> contains s' m = (m =? 100) || contains s m.
Proof.
  apply dense_set_correct; [|lia]. split; [apply new_all_ones_spec; lia|]. vm_compute. reflexivity.
Defined.

Lemma dense_iter_spec s :
  dense_ok s -> exists l, dense_iter s = Some l /\ dense_len s = Z.of_nat (length l)
    /\ forall n, n ∈ l <-> 0 <= n /\ contains s n = true.
Proof.
  intros [Hb Hc]. exists (ones (bitmap s)). split; [by apply iter_one_indices_spec|]. split; [done|].
  intros n. by apply elem_of_ones.
Qed.

(** ** Fixed bitmaps *)

Section FixedBitmaps.
  Import Fixed.

Definition fixed_ok (b : FixedBitmapU64) : Prop := words_ok (words b).
Definition fget (b : FixedBitmapU64) (n : Z) : bool := bit_at (words b) n.

#[export] Instance fixed_laws : SliceLaws FixedBitmapU64 fixed_ok.
Proof.
  constructor; intros b; [cbn [slice_len iter_data fixed_slice]; unfold vec_len; lia|done|done|].
  intros n Hb Hn. cbn [slice_len fixed_slice] in Hn. apply bit_at_past.
  cbn [iter_data fixed_slice]. lia.
Qed.

Lemma default_spec N : fixed_ok (default N) /\ forall n, 0 <= n -> fget (default N) n = false.
Proof.
  split; [apply Forall_replicate, inw_0|]. intros n Hn. unfold fget, bit_at. cbn.
  rewrite word_replicate by (apply Z.div_pos; lia). destruct (_ <? _); apply Z.bits_0.
Qed.

(** Setting a bit; past the end it panics. *)
Lemma fixed_set_spec b n :
  fixed_ok b -> 0 <= n ->
  if n <? slice_len b
  then exists b', set b n = Some (negb (fget b n), b') /\ fixed_ok b' /\ slice_len b' = slice_len b
         /\ forall m, 0 <= m -> fget b' m = if m =? n then true else fget b m
  else set b n = None.
Proof.
  intros Hb Hn. unfold Fixed.set. cbn [slice_len fixed_slice]. assert (0 <= n / 64) by (apply Z.div_pos; lia).
  pose proof (Z.div_mod n 64 ltac:(lia)). pose proof (Z.mod_pos_bound n 64 ltac:(lia)).
  destruct (Z.ltb_spec n (vec_len (words b) * 64)).
  - rewrite arr_get_word by lia. cbn -[Z.lor words]. rewrite arr_set_spec by (unfold vec_len in *; lia).
    cbn -[Z.lor words]. rewrite land_bit_zero by lia. eexists; split; [reflexivity|]. cbn [words].
    split. { apply words_ok_insert; [done|]. apply inw_lor'; [by apply word_ok|by apply inw_mask]. }
    split; [unfold vec_len; by rewrite length_insert|]. intros m Hm. unfold fget. cbn [words].
    rewrite (bit_at_insert _ n m true); [done|lia|lia|lia|]. intros j Hj. apply bit_lor_mask; lia.
  - unfold arr_get. destruct (Z.ltb_spec (n / 64) 0); [lia|].
    rewrite lookup_ge_None_2; [done|]. unfold vec_len in *. lia.
Qed.

Lemma fixed_combine_spec f h b {B} `{SliceLaws B ok} (other : B) :
  (forall x y j, 0 <= j < 64 -> bit (f x y) j = h (bit x j) (bit y j)) ->
  (forall x y, inw 64 x -> inw 64 y -> inw 64 (f x y)) ->
  fixed_ok b -> ok other ->
  fixed_ok (snd (combine f b other)) /\ slice_len (snd (combine f b other)) = slice_len b
  /\ (forall m, 0 <= m < slice_len b ->
        fget (snd (combine f b other)) m = h (fget b m) (sbit other m))
  /\ (fst (combine f b other) = false
      <-> forall m, 0 <= m -> fget (snd (combine f b other)) m = fget b m).
Proof.
  intros Hf Hok Hb Ho. unfold combine, fget. cbn [fst snd words slice_len fixed_slice].
  assert (Hw : words_ok (zip_zeros f (words b) (iter_data other))).
  { apply words_ok_zip_zeros; [done|done|by apply law_words]. }
  split; [done|]. split; [unfold vec_len; by rewrite length_zip_zeros|]. split.
  - intros m Hm. rewrite (bit_at_zip_zeros f h) by (done || lia). by zbool.
  - apply any_changed_bits; [apply length_zip_zeros|done|done].
Qed.

(** The loop of [new_all_ones] on the words from a word on. *)
Lemma fill_ones_spec n k :
  0 <= n <= 64 * Z.of_nat k ->
  exists d, fill_ones (replicate k 0) n = Some d /\ length d = k /\ words_ok d
    /\ forall m, 0 <= m -> bit_at d m = (m <? n).
Proof.
  revert n. induction k as [|k IH]; intros n Hn; cbn [replicate fill_ones].
  - exists []. destruct (Z.leb_spec n 0); [|lia]. split; [done|]. split; [done|]. split; [constructor|].
    intros m Hm. rewrite bit_at_nil. by destruct (Z.ltb_spec m n); [lia|].
  - assert (Hrest : forall m, 0 <= m -> bit_at (replicate k 0) m = false).
    { intros m Hm. unfold bit_at. rewrite word_replicate by (apply Z.div_pos; lia).
      destruct (_ <? _); apply Z.bits_0. }
    assert (Hok : words_ok (replicate k 0)) by apply Forall_replicate, inw_0.
    destruct (Z.leb_spec 64 n); [|destruct (Z.ltb_spec 0 n)].
    + destruct (IH (n - 64)) as (d & -> & Hl & Hd & Hb); [lia|]. cbn [mbind option_bind].
      eexists; split; [reflexivity|]. split; [cbn; lia|]. split; [constructor; [by apply inw_ones|done]|].
      intros m Hm. rewrite bit_at_cons by lia. destruct (Z.ltb_spec m 64).
      * unfold bit. rewrite testbit_ones by lia. by zbool.
      * rewrite Hb by lia. apply eq_true_iff_eq. rewrite !Z.ltb_lt. lia.
    + eexists; split; [reflexivity|]. split; [cbn; by rewrite length_replicate|].
      split. { constructor; [|done]. apply inw_shiftr; [lia|lia|]. apply inw_ones. lia. }
      intros m Hm. rewrite bit_at_cons by lia. destruct (Z.ltb_spec m 64).
      * rewrite bit_high_mask by lia. f_equal. lia.
      * rewrite Hrest by lia. by zbool.
    + eexists; split; [reflexivity|]. split; [cbn; by rewrite length_replicate|].
      split; [by constructor; [exact inw_0|]|].
      intros m Hm. rewrite bit_at_cons by lia. destruct (Z.ltb_spec m 64).
      * zbool. apply Z.bits_0.
      * rewrite Hrest by lia. by zbool.
Qed.

Lemma fixed_new_all_ones_spec N n :
  0 <= n ->
  if n <=? Z.of_nat N * 64
  then exists b, new_all_ones N n = Some b /\ fixed_ok b /\ slice_len b = Z.of_nat N * 64
         /\ forall m, 0 <= m -> fget b m = (m <? n)
  else new_all_ones N n = None.
Proof.
  intros Hn. unfold Fixed.new_all_ones, Fixed.new_all_zeros.
  destruct (Z.leb_spec n (Z.of_nat N * 64)); [|done]. cbn [assert mbind option_bind words default].
  destruct (fill_ones_spec n N) as (d & E & Hl & Hd & Hb); [lia|]. unfold Fixed.default. cbn [words].
  rewrite E. cbn [mbind option_bind]. eexists; split; [reflexivity|]. split; [done|].
  split; [cbn; unfold vec_len; by rewrite Hl|done].
Qed.

(** C40: A growing bitmap that fits is converted to a fixed one with the same
    bits, and converting that back gives a bitmap with the same bits, padded
    with zeros to the size of the fixed one; a longer one is refused. *)
Theorem fixed_roundtrip N b :
  wf b ->
  if len b <=? 64 * Z.of_nat N
  then exists f b', try_from N b = Some f /\ fixed_ok f /\ from_slice f = Some b' /\ wf b'
         /\ bits b' = bits b ++ replicate (Z.to_nat (64 * Z.of_nat N - len b)) false
  else try_from N b = None.
Proof.
  intros Hb. pose proof (wf_len b Hb) as Hl. unfold try_from, is_empty, from_slice.
  assert (Hsame : forall d, words_ok d -> length d = N -> len b <= 64 * Z.of_nat N ->
    (forall m, 0 <= m < 64 * Z.of_nat N -> bit_at d m = get b m) ->
    exists f b', Some (FixedU64 d) = Some f /\ fixed_ok f
      /\ (_ ← assert (vec_len (iter_data f) =? div_ceil (slice_len f) 64);
          Some (Growing (iter_data f) (slice_len f))) = Some b' /\ wf b'
      /\ bits b' = bits b ++ replicate (Z.to_nat (64 * Z.of_nat N - len b)) false).
  { intros d Hd HN Hfit Hbits. exists (FixedU64 d). eexists. split; [done|]. split; [done|].
    cbn [iter_data slice_len fixed_slice words]. unfold vec_len. rewrite HN.
    replace (Z.of_nat N =? div_ceil (Z.of_nat N * 64) 64) with true.
    2: { symmetry. apply Z.eqb_eq. unfold div_ceil. Z.to_euclidean_division_equations; lia. }
    split; [reflexivity|]. apply (represents_bits _ (Z.of_nat N * 64) (bit_at d)).
    - apply represents_intro; [unfold vec_len; lia|done|done|]. intros m Hm. apply bit_at_past.
      unfold vec_len. lia.
    - rewrite length_app, length_replicate. pose proof (length_bits b Hb). lia.
    - intros m Hm. rewrite Hbits, at_app, length_bits by (done || lia).
      destruct (Z.ltb_spec m (len b)); [by rewrite at_bits by (done || lia)|].
      rewrite at_replicate, andb_false_r by lia. apply Hb. lia. }
  destruct (Z.eqb_spec (len b) 0) as [E|E].
  - rewrite (proj2 (Z.leb_le _ _)) by lia. apply Hsame.
    + apply Forall_replicate, inw_0.
    + apply length_replicate.
    + lia.
    + intros m Hm. change (bit_at _ m) with (fget (Fixed.default N) m).
      rewrite (proj2 (default_spec N)) by lia. symmetry. apply Hb. lia.
  - destruct (Z.leb_spec (len b) (64 * Z.of_nat N)); [|done]. apply Hsame.
    + apply Forall_fmap, Forall_true. intros k. apply word_ok, Hb.
    + rewrite length_fmap, length_seqZ. lia.
    + lia.
    + intros m [Hm Hlt]. revert m Hm Hlt. apply (by_word (fun m => m < _ -> _)). intros k j Hk Hj Hlt.
      unfold get. rewrite !bit_at_word by lia. f_equal.
      rewrite word_lookup, list_lookup_fmap, lookup_seqZ_lt by lia. cbn. f_equal. lia.
Qed.

Lemma fixed_roundtrip_witness :
  if len (Growing.new_all_ones 70) <=? 64 * Z.of_nat 2
  then exists f b', try_from 2 (Growing.new_all_ones 70) = Some f /\ fixed_ok f /\ from_slice f = Some b' /\ wf b'
         /\ bits b' = bits (Growing.new_all_ones 70)
                       ++ replicate (Z.to_nat (64 * Z.of_nat 2 - len (Growing.new_all_ones 70))) false
  else try_from 2 (Growing.new_all_ones 70) = None.
Proof. apply fixed_roundtrip. apply new_all_ones_spec. lia. Defined.

End FixedBitmaps.

(** ** Where the code does not do what it means to *)

(** An [or] of two empty bitmaps subtracts one from zero. *)
Lemma or_with_empty_panics : or_with new new = None.
Proof. done. Qed.

(** The assertion of [remove_back] is the wrong way around: only the removal
    of all bits passes it. *)
Lemma remove_back_refuses b num : num <> len b -> remove_back b num = None.
Proof.
  intros Hne. unfold remove_back. destruct (Z.leb_spec (len b) num); [|done]. cbn.
  by destruct (Z.leb_spec num (len b)); [lia|].
Qed.

(** [new_all_zeros] of a multiple of 64 has a word too many, which
    [fill_with_ones] fills: 128 ones in a bitmap of 64 bits. *)
Lemma fill_with_ones_past_end :
  len (fill_with_ones (new_all_zeros 64)) = 64 /\ count_ones (fill_with_ones (new_all_zeros 64)) = 128.
Proof. split; vm_compute; reflexivity. Qed.

(** [count_zeros] expects that word: without it 64 zeros are missing. *)
Lemma count_zeros_exact b :
  wf b -> vec_len (data b) = len b / 64 + 1 ->
  count_zeros b = Some (len b - Z.of_nat (length (ones b))).
Proof.
  intros Hb Hl. pose proof (wf_len b Hb). unfold count_zeros. rewrite sum_zeros_spec.
  change (sum_ones (data b)) with (count_ones b). rewrite count_ones_spec, Hl by done.
  pose proof (length_ones_bound (get b) 0 (len b) ltac:(lia)) as Hbound. fold (ones b) in Hbound.
  pose proof (Z.div_mod (len b) 64 ltac:(lia)).
  destruct (Z.leb_spec 0 (64 * (len b / 64 + 1) - Z.of_nat (length (ones b)) - (64 - len b mod 64)));
    [|lia]. cbn. f_equal. lia.
Qed.

Lemma count_zeros_full_word_panics : count_zeros (new_all_ones 64) = None.
Proof. vm_compute. reflexivity. Qed.

(** A bitmap whose last bits were removed keeps its words, and [is_all_ones]
    then looks at the wrong one. *)
Lemma is_all_ones_after_remove :
  exists b, (b ← snd <$> remove (new_all_ones 65) 64; snd <$> remove b 63) = Some b
    /\ bits b = replicate 63 true /\ is_all_ones b = Some false.
Proof. eexists. split; [vm_compute; reflexivity|]. split; vm_compute; reflexivity. Qed.

(** Removing past the end drops the last bit but leaves its word. *)
Lemma remove_past_end_drops_last :
  exists b, remove (new_all_ones 3) 3 = Some (false, b) /\ len b = 2 /\ count_ones b = 3.
Proof. eexists. split; [vm_compute; reflexivity|]. split; vm_compute; reflexivity. Qed.

(** Two bitmaps with the same bits that are not equal. *)
Lemma eq_compares_words :
  exists b, from_iter (bits (new_all_ones 64)) = Some b
    /\ bits b = bits (new_all_ones 64) /\ eq b (new_all_ones 64) = false.
Proof. eexists. split; [vm_compute; reflexivity|]. split; vm_compute; reflexivity. Qed.

(** [is_subset_of] ignores the bits past the words of the other bitmap. *)
Lemma subset_ignores_longer :
  is_subset_of (new_all_ones 128) (new_all_ones 64) = true
  /\ is_superset_of (new_all_ones 64) (new_all_ones 128) = false.
Proof. split; vm_compute; reflexivity. Qed.

(** [get] of a view reads past its end. *)
Lemma view_get_past_end :
  exists v, slice (new_all_ones 64) 0 8 = Some v /\ slice_len v = 8 /\ slice_get v 8 = true
    /\ sbit v 8 = false.
Proof. eexists. split; [vm_compute; reflexivity|]. do 2 (split; [vm_compute; reflexivity|]). vm_compute. reflexivity. Qed.
